(* ===== verification/_CoqProject ===== *)
-Q . S2P
Prelude.v
Words.v
HashFunc.v
ConsistentHash.v
Ids.v
ArrayMap.v
Ring.v
EventQueue.v
Mem.v
Bitmask.v
StripeList.v
StateTransit.v
StateProofs.v
StateSystem.v
BitwiseXor.v
KeyValue.v
KeyMap.v
CuckooHash.v
ChunkUtil.v
Protocol.v
Messages.v
MessagesBounds.v
MessagesDegraded.v
MessagesBatch.v
ServerMap.v
Coding.v
Raid.v
GetChunkBuffer.v
ChunkPool.v
ParityBuffer.v
ParityProofs.v
ParitySeal.v
ParityTrace.v
ParityOrder.v
SealRequest.v
DataBuffer.v
DataProofs.v
DataPlacement.v
MixedBuffer.v
Symbols.v
Rdp.v
EvenOdd.v
DegradedLock.v
CoordMap.v
Heartbeat.v
ClientBackup.v
MetadataSync.v
Remap.v
DegradedBuffer.v
