(* ===== verification/Prelude.v ===== *)
(** * MemEC: a verification library for the erasure-coded key-value store

    MemEC keeps key-value objects in the memory of a cluster.  A coordinator,
    servers and clients exchange messages over TCP.  A key is hashed to a
    stripe list, [n] servers of which [k] keep data and [n - k] parity, and to
    one of the data servers.  That server appends the object to a data chunk;
    a full chunk is sealed, and the parity servers add it to the parity chunks
    of its stripe.  When a server fails, clients and coordinator switch to the
    degraded mode, in which other servers stand in for it and rebuild chunks
    from the stripe.

    ** How the files follow the program (paths under src/)

    Foundations:
    - [Prelude], [Words], [Mem]: loops, arrays, machine integers, bytes and
      memory, as the C++ code uses them.
    Choosing servers:
    - [HashFunc] (common/hash/hash_func.hh), [ConsistentHash]
      (common/hash/consistent_hash.hh), [StripeList]
      (common/stripe_list/stripe_list.hh).
    Containers and identifiers (common/ds, common/event, common/timestamp):
    - [Ids], [ArrayMap], [Ring] (RingBuffer and MemoryPool), [EventQueue],
      [Bitmask].
    Objects and chunks (common/ds, common/hash/cuckoo_hash.cc):
    - [KeyValue], [CuckooHash], [ChunkUtil], [ChunkPool].
    Erasure coding (common/coding):
    - [BitwiseXor], [Coding] (parameters and the interface), [Raid],
      [Symbols] (shared by the array codes), [Rdp], [EvenOdd].
    Messages (common/protocol):
    - [Protocol] (reads, writes and the message header), [Messages] (normal
      operations), [MessagesDegraded] (degraded operations and remapping),
      [MessagesBatch] (messages of containers), [MessagesBounds] (the parsers of
      [Messages] on arbitrary bytes).
    Server states (common/state_transit and the state_transit directories of
    client, coordinator and server):
    - [StateTransit] (handlers), [StateProofs] and [StateSystem] (coordinator
      and clients composed).
    Chunk buffers of the servers (server/ds, server/buffer, server/protocol,
    server/worker/server_peer_req_worker.cc):
    - [KeyMap] (the standard hash tables of keys), [ServerMap] (the tables of
      objects, chunks and stripes), [GetChunkBuffer].
    - [ParityBuffer]: objects, seal requests and deltas at a parity server;
      [ParityProofs], [ParitySeal], [ParityTrace], [ParityOrder] prove it.
    - [SealRequest]: the request to seal a chunk, written and read.
    - [DataBuffer]: the open chunks of a data server; [DataProofs] and
      [DataPlacement] prove it.
    - [MixedBuffer]: the buffer of a list, data or parity, and the handler of
      seal requests.
    - [DegradedBuffer]: what a server keeps for the servers it stands in for.
    Metadata between servers, coordinator and clients (coordinator/ds,
    coordinator/worker, server/ack, server/worker/coordinator_worker.cc,
    client/backup):
    - [DegradedLock] and [CoordMap]: the locks of degraded stripes, and what the
      coordinator knows about a server.
    - [Heartbeat]: the reports of a server, their handlers and acknowledgements,
      and a server, a channel and the coordinator composed as steps;
      [MetadataSync] proves it.
    - [ClientBackup]: what a client remembers until the coordinator knows it.
    Failed servers at a client (client/remap, client/worker/worker.cc):
    - [Remap]: the chunks a request concerns, and the servers that stand in.
    A class is a Module; its members are the fields of a Record; a method is a
    function that takes the record and returns the new one; an out-parameter or
    a value that the method deletes is part of the result.  Names are the
    source's.  A loop body, or a piece of a method between two lock
    operations, that is a definition of its own is named after what it does.

    ** Interfaces

    - [Coding.Coding] is the class of the virtual functions [encode] and
      [decode], [Coding.ErasureCode] its contract: parity is linear in the
      data, [encode] computes it also when told a range outside of which the
      data is zero, [decode] rebuilds up to [ec_tolerance] lost chunks.
      [raid5_code], [rdp_code] and [evenodd_code] are instances.
    - [ParityOrder.parity_order] and all of [ParityProofs] are proved against
      [ErasureCode], and hold for every instance.
    - [ParityTrace.message] is what data servers and clients promise to send to
      a parity server; [MixedBuffer] shows that the requests of
      [DataBuffer.DataChunkBuffer] are such messages.
    - [Ring.nextVal] and its lemmas are shared by the ring buffer and the pool.
    - [Protocol]'s [emits] and [holds] are the rules by which every generator
      and every parser is verified; a kind of message is a constructor of
      [message], [degraded_message] or [batch].

    ** What the theorems show

    - Erasure codes: [encode] computes the parity that the code defines, in
      full and restricted to a range, and [decode] restores lost chunks
      ([rdp_recovers], [evenodd_recovers], [raid5_correct]); the constructor of
      RDP finds its prime or there is none ([getSymbolSize_spec]).
    - From data to parity: [set] of a data buffer follows the contract
      [placed] ([data_placement]); every object ends in one sealed chunk, and
      every sealed chunk is announced ([data_server_seals_all]); the
      announcement arrives ([seal_request_arrives]) and is handled as a message
      [MSeal] ([seal_request_handled]); and whatever the order in which objects,
      announcements and deltas arrive, the parity chunk of a complete stripe
      is the parity of the data chunks ([parity_order]).
    - The table of chunks: a finite map ([chunk_table_refines]).
    - Metadata: in every reachable state a heartbeat can be sent and is accepted,
      and when nothing is on its way the coordinator knows exactly the keys of the
      server ([metadata_in_sync]), but for those that were set while a deletion of
      them was not reported yet ([missed_key_unknown]), and the sealed chunks; backups that
      are dropped when the last message of a heartbeat is acknowledged are known to
      the coordinator ([acknowledged_is_entered]; not so for the messages before
      it: [early_acknowledgement]);
      the locks of keys are exclusive ([key_lock_exclusive]).
    - Stand-ins for failed servers are working, different, and none of those that the
      code excludes ([redirect_targets]), which are not always all servers of the
      request ([own_server_stands_in]).  At a server that stands in: the
      requests that wait for a reconstruction are all answered, once
      ([degraded_requests_answered]); the objects of a reconstructed chunk are
      found ([insertChunk_finds]); deltas reach its parity chunk
      ([degraded_parity_updated]).
    - Where the code goes wrong: [dup_outcome] and [expand_outcome] of degraded
      locks write behind their arrays; [reports_in_any_order] keeps the record that
      arrives last, not the latest.
    - Hash table: a finite map, insertion with displacement terminates
      ([cuckoo_refines_map]).
    - Server states: safety and progress of the transitions of all clients
      ([transitions_safe], [transitions_complete],
      [acknowledged_when_finished]), the format of their messages.
    - Messages: every kind arrives as it was sent; a container is sent
      completely by repeating its message ([batches_send_all]); the parsers stay
      within the received bytes ([parsers_in_bounds]), some of them on conditions
      that [length_checks_bypassed] shows to be needed, but for those that
      [batch_limits_missed] names.
    - Stripe lists: their generation, their inverse, equality of all lookups.
    - Objects and chunks: serialization, splits of large objects, scans,
      appending, deltas; the pool of chunks gives disjoint chunks.
    - Containers: FIFO queues, the pool of objects, the prioritized event
      queue under any interleaving of its threads, bit matrices, maps,
      identifiers.

    ** Conventions and assumptions

    - [None] is a run without a defined result: an access outside a buffer, a
      failed [assert], a division by zero, [exit].  A theorem that concludes
      [= Some _] excludes it.
    - Integers are [Z], reduced to their width where the code computes with
      them ([u8], [u16], [u32], ...).  [size_t] has 64 bits and is not reduced.
    - An operation under one lock is one atomic step; a wait on a condition
      variable is an outcome.  Where threads can interleave inside an
      operation ([EventQueue], [StateSystem]) the pieces are steps.
    - [malloc] succeeds and returns a new block with arbitrary contents.
    - Iteration over an unordered container is over a list in an arbitrary
      order, or over a finite map when the order does not matter.
    - Fuel.  [search_fuel] (501) exceeds MAX_CUCKOO_COUNT (500), the bound on
      displacements; [cuckoo_fuel] (1001) exceeds twice that bound, which the
      proofs show to decrease; [id_fuel] (65535) is the number of instance
      identifiers; the scans of a chunk get one more than its bytes, and every
      object takes four; [clear_from] gets the number of bits, a repeated
      message the number of objects it has to carry.  Each function is proved to
      end within its fuel wherever the code ends; where the code loops for
      ever, as [InstanceIdGenerator.generate] does when no identifier is free,
      running out of fuel is that outcome.
    - Heartbeats: messages of one server arrive in the order in which they are
      sent; one server reports, others' requests interleave.
    - Server states: the set of clients and of servers does not change during a
      transition, messages between coordinator and a client arrive in order,
      there are at most 255 servers in one message, waits end only when
      signalled, [failedServers] is never filled (the program never calls
      [addFailedServer]).

    ** Not modelled

    - Sockets, epoll, threads' main loops, signal handlers, printing, the
      parsing of configuration files (it is done by a library), files of a
      storage device: input and output.
    - The event classes (client/event, coordinator/event, server/event):
      records of arguments, built by setters and taken apart by the workers.
    - The workers' request handlers, but for those of seal requests, of heartbeats
      and of metadata backups, the choice of servers, and the parts modelled with
      state transitions: they combine the modelled operations with sockets,
      pending requests and event queues.
    - RSCoding and CauchyCoding only call jerasure; jerasure, gf_complete and
      isa-l are third-party code in lib/.
    - Of the chunk buffers: printing, and [stop] and [unlock], which only
      release locks; chunks re-inserted after a deletion are modelled, but the
      theorems on data buffers are for buffers without them, since the code
      does not seal them again.
    - Remapped objects (server/buffer/remapped_buffer.cc) and the backups of
      deltas (server/backup).
    - Of the coordinator's map: the dumps; who releases and migrates degraded
      locks (coordinator/worker).  Of latencies: the averages in floating point.
    - The application (application/), a client-side driver; benchmark/, scripts/
      and test/. *)

From stdpp Require Export base tactics numbers list list_numbers gmap strings.
From Stdlib Require Export ZArith Lia.
From Stdlib Require Strings.Byte.

#[export] Set Default Goal Selector "!".
#[global] Open Scope Z_scope.

(** Results.  [None] is a run of the program that has no defined result: an
    access outside a buffer, a failed [assert], a division by zero or a call
    of [exit].  Every operation that can do one of these is a value of
    [option]; a theorem that concludes [= Some _] therefore also shows that
    the operation is free of them. *)

Declare Scope memec_scope.
Delimit Scope memec_scope with memec.

(** ** Counting loops

    [for_range lo hi body s] is [for ( i = lo; i < hi; i++ ) body], the state
    being whatever the body reads and writes.  The number of iterations is
    known on entry, so no fuel is needed. *)
Fixpoint for_loop {S : Type} (n : nat) (i : Z) (body : Z → S → option S) (s : S) : option S :=
  match n with
  | O => Some s
  | Datatypes.S n' => s' ← body i s; for_loop n' (i + 1) body s'
  end.

Definition for_range {S : Type} (lo hi : Z) (body : Z → S → option S) (s : S) : option S :=
  for_loop (Z.to_nat (hi - lo)) lo body s.

(** The same loop when the body cannot fail. *)
Fixpoint iter_loop {S : Type} (n : nat) (i : Z) (body : Z → S → S) (s : S) : S :=
  match n with
  | O => s
  | Datatypes.S n' => iter_loop n' (i + 1) body (body i s)
  end.

Definition iter_range {S : Type} (lo hi : Z) (body : Z → S → S) (s : S) : S :=
  iter_loop (Z.to_nat (hi - lo)) lo body s.

(** ** Arrays indexed by machine integers *)

Definition zlen {A : Type} (l : list A) : Z := Z.of_nat (length l).

Definition zget {A : Type} (l : list A) (i : Z) : option A :=
  if decide (0 ≤ i) then l !! Z.to_nat i else None.

(** [l[ i ] = x], which is undefined behaviour out of range. *)
Definition zset {A : Type} (l : list A) (i : Z) (x : A) : option (list A) :=
  if decide (0 ≤ i < zlen l) then Some (<[Z.to_nat i := x]> l) else None.

(** The elements [lo .. lo+n-1], [None] when one is out of range. *)
Definition slice {A : Type} (l : list A) (lo n : Z) : option (list A) :=
  if decide (0 ≤ lo ∧ 0 ≤ n ∧ lo + n ≤ zlen l)
  then Some (take (Z.to_nat n) (drop (Z.to_nat lo) l)) else None.

(** Overwrite the elements from [lo] on with [xs]. *)
Definition splice {A : Type} (l : list A) (lo : Z) (xs : list A) : option (list A) :=
  if decide (0 ≤ lo ∧ lo + zlen xs ≤ zlen l)
  then Some (take (Z.to_nat lo) l ++ xs ++ drop (Z.to_nat (lo + zlen xs)) l) else None.

(** ** Tactics *)

(** [lia] knows division and remainder by constants. *)
Ltac Zify.zify_post_hook ::= Z.to_euclidean_division_equations.

(** Split every conjunction, existential and [Some _ = Some _] in sight. *)
Ltac crush_hyps :=
  repeat match goal with
  | H : _ ∧ _ |- _ => destruct H
  | H : ∃ _, _ |- _ => destruct H
  | H : Some _ = Some _ |- _ => injection H as H; subst
  | H : None = Some _ |- _ => discriminate H
  | H : Some _ = None |- _ => discriminate H
  end.

(** Lia after making lengths and [div]/[mod] equations available. *)
Ltac zsolve :=
  unfold zlen in *; rewrite ?length_app, ?length_take, ?length_drop, ?length_insert,
    ?length_replicate, ?length_fmap in *; lia.

(** ** Loop rules *)
Section loops.
Context {S : Type}.
Implicit Types (s : S) (P : Z → S → Prop).

(** A loop whose body keeps an invariant cannot fail and ends in a state
    where the invariant holds of the upper bound. *)
Lemma for_loop_inv (P : Z → S → Prop) n i (body : Z → S → option S) s :
  (∀ j s, i ≤ j < i + Z.of_nat n → P j s → ∃ s', body j s = Some s' ∧ P (j + 1) s') →
  P i s → ∃ s', for_loop n i body s = Some s' ∧ P (i + Z.of_nat n) s'.
Proof.
  revert i s; induction n as [|n IH]; intros i s Hstep Hs; simpl.
  - exists s. rewrite Z.add_0_r. done.
  - destruct (Hstep i s ltac:(lia) Hs) as (s1 & -> & H1). simpl.
    destruct (IH (i + 1) s1) as (s2 & -> & H2); [|done|].
    + intros j s' Hj. apply Hstep. lia.
    + exists s2. split; [done|]. replace (i + Z.of_nat (Datatypes.S n)) with (i + 1 + Z.of_nat n) by lia. done.
Qed.

Lemma for_range_inv (P : Z → S → Prop) lo hi (body : Z → S → option S) s :
  lo ≤ hi →
  (∀ j s, lo ≤ j < hi → P j s → ∃ s', body j s = Some s' ∧ P (j + 1) s') →
  P lo s → ∃ s', for_range lo hi body s = Some s' ∧ P hi s'.
Proof.
  intros Hle Hstep Hs. unfold for_range.
  destruct (for_loop_inv P (Z.to_nat (hi - lo)) lo body s) as (s' & Heq & HP); [|done|].
  - intros j s0 Hj. apply Hstep. lia.
  - exists s'. split; [done|]. replace hi with (lo + Z.of_nat (Z.to_nat (hi - lo))) by lia. done.
Qed.

(** Equational forms, for computing with a loop whose body is deterministic. *)
Lemma for_range_nil lo hi (body : Z → S → option S) s : hi ≤ lo → for_range lo hi body s = Some s.
Proof. intros. unfold for_range. by replace (Z.to_nat (hi - lo)) with O by lia. Qed.

Lemma for_range_step lo hi (body : Z → S → option S) s :
  lo < hi → for_range lo hi body s = (s' ← body lo s; for_range (lo + 1) hi body s').
Proof.
  intros. unfold for_range.
  replace (Z.to_nat (hi - lo)) with (Datatypes.S (Z.to_nat (hi - (lo + 1)))) by lia. done.
Qed.

Lemma for_loop_S n i (body : Z → S → option S) s :
  for_loop (Datatypes.S n) i body s = (s' ← body i s; for_loop n (i + 1) body s').
Proof. done. Qed.

Lemma for_loop_snoc n i (body : Z → S → option S) s :
  for_loop (Datatypes.S n) i body s = (s' ← for_loop n i body s; body (i + Z.of_nat n) s').
Proof.
  revert i s; induction n as [|n IH]; intros i s.
  - simpl. rewrite Z.add_0_r. destruct (body i s); done.
  - rewrite (for_loop_S (Datatypes.S n)), (for_loop_S n).
    destruct (body i s) as [s1|]; [|done]. cbn [mbind option_bind].
    rewrite IH. by replace (i + 1 + Z.of_nat n) with (i + Z.of_nat (Datatypes.S n)) by lia.
Qed.

Lemma for_range_snoc lo hi (body : Z → S → option S) s :
  lo ≤ hi → for_range lo (hi + 1) body s = (s' ← for_range lo hi body s; body hi s').
Proof.
  intros. unfold for_range.
  replace (Z.to_nat (hi + 1 - lo)) with (Datatypes.S (Z.to_nat (hi - lo))) by lia.
  rewrite for_loop_snoc. f_equal. simpl.
  by replace (lo + Z.of_nat (Z.to_nat (hi - lo))) with hi by lia.
Qed.

Lemma iter_loop_inv P n i (body : Z → S → S) s :
  (∀ j s, i ≤ j < i + Z.of_nat n → P j s → P (j + 1) (body j s)) →
  P i s → P (i + Z.of_nat n) (iter_loop n i body s).
Proof.
  revert i s; induction n as [|n IH]; intros i s Hstep Hs; simpl.
  - by rewrite Z.add_0_r.
  - replace (i + Z.of_nat (Datatypes.S n)) with (i + 1 + Z.of_nat n) by lia.
    apply IH; [intros; apply Hstep; [lia|done] | apply Hstep; [lia|done]].
Qed.

Lemma iter_range_inv P lo hi (body : Z → S → S) s :
  lo ≤ hi →
  (∀ j s, lo ≤ j < hi → P j s → P (j + 1) (body j s)) →
  P lo s → P hi (iter_range lo hi body s).
Proof.
  intros Hle Hstep Hs. unfold iter_range.
  replace hi with (lo + Z.of_nat (Z.to_nat (hi - lo))) at 1 by lia.
  apply iter_loop_inv; [|done]. intros. apply Hstep; [lia|done].
Qed.
End loops.

(** ** Lemmas on arrays *)
Lemma zlen_nonneg {A} (xs : list A) : 0 ≤ zlen xs.
Proof. unfold zlen. lia. Qed.

Section arrays.
Context {A : Type}.
Implicit Types (l xs : list A) (i lo n : Z).

Lemma zget_Some l i x : zget l i = Some x → 0 ≤ i < zlen l.
Proof.
  unfold zget, zlen. case_decide; [|done]. intros ?%lookup_lt_Some. lia.
Qed.

Lemma zget_is_Some l i : 0 ≤ i < zlen l → is_Some (zget l i).
Proof.
  unfold zget, zlen. intros. rewrite decide_True by lia. apply lookup_lt_is_Some. lia.
Qed.

Lemma zset_Some l i x : 0 ≤ i < zlen l → zset l i x = Some (<[Z.to_nat i := x]> l).
Proof. intros. unfold zset. by rewrite decide_True. Qed.

Lemma zset_zlen l i x l' : zset l i x = Some l' → zlen l' = zlen l.
Proof. unfold zset. case_decide; intros; crush_hyps. zsolve. Qed.

Lemma zset_get_eq l i x l' : zset l i x = Some l' → zget l' i = Some x.
Proof.
  unfold zset, zget. case_decide; intros; crush_hyps. rewrite decide_True by lia.
  apply list_lookup_insert_eq. unfold zlen in *. lia.
Qed.

Lemma zset_get_ne l i j x l' : zset l i x = Some l' → i ≠ j → zget l' j = zget l j.
Proof.
  unfold zset, zget. case_decide; intros; crush_hyps. case_decide; [|done].
  apply list_lookup_insert_ne. lia.
Qed.

Lemma slice_Some l lo n : 0 ≤ lo → 0 ≤ n → lo + n ≤ zlen l →
  slice l lo n = Some (take (Z.to_nat n) (drop (Z.to_nat lo) l)).
Proof. intros. unfold slice. by rewrite decide_True. Qed.

Lemma slice_zlen l lo n xs : slice l lo n = Some xs → zlen xs = n.
Proof. unfold slice. case_decide; intros; crush_hyps. zsolve. Qed.

(** Reading a block that sits between a prefix and a suffix. *)
Lemma slice_app_mid l1 xs l2 lo n : lo = zlen l1 → n = zlen xs → slice (l1 ++ xs ++ l2) lo n = Some xs.
Proof.
  intros -> ->. rewrite slice_Some; [|zsolve..].
  unfold zlen. rewrite !Nat2Z.id, drop_app_length, take_app_length. done.
Qed.

Lemma splice_zlen l lo xs l' : splice l lo xs = Some l' → zlen l' = zlen l.
Proof. unfold splice. case_decide; intros; crush_hyps. zsolve. Qed.

Lemma splice_lookup l lo xs l' (i : nat) :
  splice l lo xs = Some l' →
  l' !! i = if decide (lo ≤ Z.of_nat i < lo + zlen xs) then xs !! (i - Z.to_nat lo)%nat else l !! i.
Proof.
  unfold splice. case_decide as H; intros; crush_hyps. unfold zlen in *.
  destruct (decide (Z.of_nat i < lo)).
  - rewrite decide_False by lia. rewrite lookup_app_l by (rewrite length_take; lia).
    by rewrite lookup_take_lt by lia.
  - rewrite lookup_app_r by (rewrite length_take; lia). rewrite length_take, Nat.min_l by lia. case_decide.
    + by rewrite lookup_app_l by lia.
    + rewrite lookup_app_r by lia. rewrite lookup_drop. f_equal. lia.
Qed.

Lemma splice_is_Some l lo xs : 0 ≤ lo → lo + zlen xs ≤ zlen l → is_Some (splice l lo xs).
Proof. intros. unfold splice. by rewrite decide_True. Qed.

Lemma splice_app l1 l2 xs ys lo :
  lo = zlen l1 → zlen xs = zlen ys → splice (l1 ++ xs ++ l2) lo ys = Some (l1 ++ ys ++ l2).
Proof.
  intros -> Hlen. unfold splice. rewrite decide_True by zsolve.
  unfold zlen in *. rewrite Nat2Z.id, take_app_length.
  replace (Z.to_nat (Z.of_nat (length l1) + Z.of_nat (length ys))) with (length l1 + length xs)%nat by lia.
  rewrite (app_assoc l1 xs l2), <- length_app, drop_app_length. done.
Qed.
End arrays.
