(* ===== verification/Words.v ===== *)
(** * Machine integers and bytes

    The unsigned C types as integers with an explicit wrap-around, the byte
    type, its exclusive or, and the memory representation of integers on the
    little-endian machines the program is built for ([htonl], [ntohl],
    [htons], [htobe64] are byte swaps). *)

From S2P Require Export Prelude.
From Stdlib Require Import Strings.Byte.

Abbreviation byte := Init.Byte.byte.
Abbreviation x00 := Init.Byte.x00.

(** ** Unsigned wrap-around *)
Definition u8 (z : Z) : Z := z mod 2 ^ 8.
Definition u16 (z : Z) : Z := z mod 2 ^ 16.
Definition u24 (z : Z) : Z := z mod 2 ^ 24.
Definition u32 (z : Z) : Z := z mod 2 ^ 32.
Definition u64 (z : Z) : Z := z mod 2 ^ 64.

(** ** Bytes *)
Definition b2z (b : byte) : Z := Z.of_N (Byte.to_N b).
Definition z2b (z : Z) : byte :=
  match Byte.of_N (Z.to_N (z mod 256)) with Some b => b | None => x00 end.

(** A [char] read as a signed integer. *)
Definition i8 (b : byte) : Z := if decide (b2z b < 128) then b2z b else b2z b - 256.

Definition bxor (a b : byte) : byte := z2b (Z.lxor (b2z a) (b2z b)).

(** ** Memory representation of integers *)
Fixpoint le_bytes (n : nat) (z : Z) : list byte :=
  match n with O => [] | Datatypes.S n' => z2b z :: le_bytes n' (z / 256) end.

Fixpoint le_val (bs : list byte) : Z :=
  match bs with [] => 0 | b :: bs' => b2z b + 256 * le_val bs' end.

Definition be_bytes (n : nat) (z : Z) : list byte := rev (le_bytes n z).
Definition be_val (bs : list byte) : Z := le_val (rev bs).

Definition bswap (n : nat) (z : Z) : Z := le_val (be_bytes n z).
Definition htonl (z : Z) : Z := bswap 4 z.
Definition ntohl (z : Z) : Z := bswap 4 z.
Definition htons (z : Z) : Z := bswap 2 z.
Definition ntohs (z : Z) : Z := bswap 2 z.
Definition htobe64 (z : Z) : Z := bswap 8 z.
Definition be64toh (z : Z) : Z := bswap 8 z.

#[export] Instance byte_eq_dec : EqDecision byte := Byte.byte_eq_dec.
#[export] Instance byte_inhabited : Inhabited byte := populate x00.

#[export] Instance byte_countable : Countable byte := inj_countable Byte.to_N Byte.of_N Byte.of_to_N.

(** ** Lemmas *)
Lemma b2z_range b : 0 ≤ b2z b < 256.
Proof. unfold b2z. pose proof (Byte.to_N_bounded b). lia. Qed.

Lemma z2b_b2z b : z2b (b2z b) = b.
Proof.
  pose proof (b2z_range b). unfold z2b. rewrite Z.mod_small by lia.
  unfold b2z. rewrite N2Z.id, Byte.of_to_N. done.
Qed.

Lemma b2z_z2b z : b2z (z2b z) = z mod 256.
Proof.
  unfold z2b, b2z. pose proof (Z.mod_pos_bound z 256 ltac:(lia)).
  destruct (Byte.of_N _) eqn:E.
  - apply Byte.to_of_N in E. rewrite E. lia.
  - exfalso. apply Byte.of_N_None_iff in E. lia.
Qed.

#[export] Instance b2z_inj : Inj (=) (=) b2z.
Proof. intros a b H. rewrite <- (z2b_b2z a), <- (z2b_b2z b). by rewrite H. Qed.

Lemma z2b_mod z : z2b (z mod 256) = z2b z.
Proof. apply (inj b2z). rewrite !b2z_z2b. by rewrite Zmod_mod. Qed.

Lemma b2z_small z : 0 ≤ z < 256 → b2z (z2b z) = z.
Proof. intros. rewrite b2z_z2b. by apply Z.mod_small. Qed.

Lemma b2z_0 b : b2z b = 0 ↔ b = x00.
Proof. split; [|by intros ->]. intros H. apply (inj b2z). by rewrite H. Qed.

Lemma lxor_byte_range a b : 0 ≤ a < 256 → 0 ≤ b < 256 → 0 ≤ Z.lxor a b < 256.
Proof.
  intros Ha Hb. assert (Hn : 0 ≤ Z.lxor a b) by (apply Z.lxor_nonneg; lia).
  split; [done|]. destruct (decide (Z.lxor a b = 0)) as [->|]; [lia|].
  apply (Z.log2_lt_pow2 _ 8); [lia|].
  pose proof (Z.log2_lxor a b ltac:(lia) ltac:(lia)).
  assert (∀ c, 0 ≤ c < 256 → Z.log2 c < 8) as Hlog.
  { intros c Hc. destruct (decide (c = 0)) as [->|]; [done|]. apply Z.log2_lt_pow2; lia. }
  pose proof (Hlog a Ha). pose proof (Hlog b Hb). lia.
Qed.

Lemma b2z_bxor a b : b2z (bxor a b) = Z.lxor (b2z a) (b2z b).
Proof.
  unfold bxor. rewrite b2z_z2b. apply Z.mod_small.
  apply lxor_byte_range; apply b2z_range.
Qed.

(** Bytes under exclusive or: an abelian group in which every element is its
    own inverse. *)
#[export] Instance bxor_comm : Comm (=) bxor.
Proof. intros a b. apply (inj b2z). rewrite !b2z_bxor. apply Z.lxor_comm. Qed.
#[export] Instance bxor_assoc : Assoc (=) bxor.
Proof. intros a b c. apply (inj b2z). rewrite !b2z_bxor. by rewrite Z.lxor_assoc. Qed.
#[export] Instance bxor_0_l : LeftId (=) x00 bxor.
Proof. intros a. apply (inj b2z). rewrite b2z_bxor. done. Qed.
#[export] Instance bxor_0_r : RightId (=) x00 bxor.
Proof. intros a. rewrite (comm bxor). apply left_id, _. Qed.
Lemma bxor_nilp a : bxor a a = x00.
Proof. apply (inj b2z). rewrite b2z_bxor. apply Z.lxor_nilpotent. Qed.
Lemma bxor_cancel a b : bxor a (bxor a b) = b.
Proof. rewrite (assoc bxor), bxor_nilp. apply left_id, _. Qed.
Lemma bxor_cancel_r a b : bxor (bxor b a) a = b.
Proof. rewrite <- (assoc bxor), bxor_nilp. apply right_id, _. Qed.
Lemma bxor_eq_0 a b : bxor a b = x00 → a = b.
Proof. intros H. rewrite <- (bxor_cancel b a), (comm bxor b a), H. apply right_id, _. Qed.

Create Rewrite HintDb bxor.
#[export] Hint Rewrite bxor_nilp bxor_cancel bxor_cancel_r
  (right_id x00 bxor) (left_id x00 bxor) : bxor.

(** Wrap-around is the identity in range. *)
Lemma u8_small z : 0 ≤ z < 2 ^ 8 → u8 z = z.
Proof. apply Z.mod_small. Qed.
Lemma u16_small z : 0 ≤ z < 2 ^ 16 → u16 z = z.
Proof. apply Z.mod_small. Qed.
Lemma u24_small z : 0 ≤ z < 2 ^ 24 → u24 z = z.
Proof. apply Z.mod_small. Qed.
Lemma u32_small z : 0 ≤ z < 2 ^ 32 → u32 z = z.
Proof. apply Z.mod_small. Qed.
Lemma u64_small z : 0 ≤ z < 2 ^ 64 → u64 z = z.
Proof. apply Z.mod_small. Qed.
Lemma u32_range z : 0 ≤ u32 z < 2 ^ 32.
Proof. apply Z.mod_pos_bound. lia. Qed.
Lemma u64_range z : 0 ≤ u64 z < 2 ^ 64.
Proof. apply Z.mod_pos_bound. lia. Qed.

(** Little- and big-endian representations are inverse to the values. *)
Lemma length_le_bytes n z : length (le_bytes n z) = n.
Proof. revert z; induction n; intros; simpl; auto. Qed.
Lemma length_be_bytes n z : length (be_bytes n z) = n.
Proof. unfold be_bytes. by rewrite length_rev, length_le_bytes. Qed.

Lemma le_val_range bs : 0 ≤ le_val bs < 256 ^ zlen bs.
Proof.
  unfold zlen. induction bs as [|b bs IH]; simpl le_val; simpl length; [lia|].
  rewrite Nat2Z.inj_succ, Z.pow_succ_r by lia. pose proof (b2z_range b). lia.
Qed.

Lemma le_val_le_bytes n z : le_val (le_bytes n z) = z mod 256 ^ Z.of_nat n.
Proof.
  revert z; induction n as [|n IH]; intros z; simpl le_bytes; simpl le_val.
  - rewrite Z.pow_0_r. by rewrite Z.mod_1_r.
  - rewrite IH, b2z_z2b, Nat2Z.inj_succ, Z.pow_succ_r by lia.
    rewrite Z.rem_mul_r by lia. lia.
Qed.

Lemma le_bytes_le_val bs : le_bytes (length bs) (le_val bs) = bs.
Proof.
  induction bs as [|b bs IH]; simpl; [done|].
  pose proof (b2z_range b). f_equal.
  - rewrite <- z2b_mod, (Z.mul_comm 256), Z.mod_add, z2b_mod by lia. apply z2b_b2z.
  - rewrite (Z.mul_comm 256), Z.div_add, Z.div_small by lia. done.
Qed.

Lemma be_val_be_bytes n z : be_val (be_bytes n z) = z mod 256 ^ Z.of_nat n.
Proof. unfold be_val, be_bytes. rewrite rev_involutive. apply le_val_le_bytes. Qed.

Lemma be_bytes_be_val bs : be_bytes (length bs) (be_val bs) = bs.
Proof.
  unfold be_val, be_bytes. rewrite <- (length_rev bs), le_bytes_le_val. apply rev_involutive.
Qed.

(** The memory image of a byte-swapped integer is its big-endian form. *)
Lemma le_bytes_bswap n z : le_bytes n (bswap n z) = be_bytes n z.
Proof.
  unfold bswap. rewrite <- (length_be_bytes n z) at 1. apply le_bytes_le_val.
Qed.

Lemma bswap_le_val bs : bswap (length bs) (le_val bs) = be_val bs.
Proof. unfold bswap, be_bytes, be_val. by rewrite le_bytes_le_val. Qed.

Lemma bswap_involutive n z : 0 ≤ z < 256 ^ Z.of_nat n → bswap n (bswap n z) = z.
Proof.
  intros. unfold bswap at 1, be_bytes. rewrite le_bytes_bswap. unfold be_bytes.
  rewrite rev_involutive, le_val_le_bytes. by apply Z.mod_small.
Qed.

#[global] Arguments le_bytes : simpl never.
#[global] Arguments le_val : simpl never.
#[global] Arguments be_bytes : simpl never.
#[global] Arguments be_val : simpl never.

(** Bitwise operations stay within their width. *)
Lemma lxor_range k a b : 0 ≤ k → 0 ≤ a < 2 ^ k → 0 ≤ b < 2 ^ k → 0 ≤ Z.lxor a b < 2 ^ k.
Proof.
  intros Hk Ha Hb. assert (H0 : 0 ≤ Z.lxor a b) by (apply Z.lxor_nonneg; lia).
  apply (Z.bounded_iff_bits_nonneg' k); [done..|]. intros l Hl. rewrite Z.lxor_spec.
  rewrite (proj1 (Z.bounded_iff_bits_nonneg' k a Hk ltac:(lia)) Ha l Hl).
  by rewrite (proj1 (Z.bounded_iff_bits_nonneg' k b Hk ltac:(lia)) Hb l Hl).
Qed.
