(* ===== verification/HashFunc.v ===== *)
(** * HashFunc: the hash of keys (common/hash/hash_func.hh)

    [hash] over one, two or three byte strings; the longer forms hash the
    concatenation. *)

From S2P Require Export Words.

(** Taking a byte off the front of a string that the caller says is long
    enough. *)
Definition pop (data : list byte) : option (byte * list byte) :=
  match data with [] => None | b :: data' => Some (b, data') end.

Definition scale : Z := 388650179.
Definition hash_init : Z := 388650013.
Definition hardener : Z := 1176845762.

(** [hash *= scale; hash += b], where [b] is a signed [char]. *)
Definition hash_step (hash : Z) (b : byte) : Z := u32 (u32 (hash * scale) + i8 b).

Fixpoint hash_loop (n : nat) (hash : Z) (data : list byte) : option Z :=
  match n with
  | O => Some (Z.lxor hash hardener)
  | S n' => '(b, data) ← pop data; hash_loop n' (hash_step hash b) data
  end.
Definition hash1 (data : list byte) (n : Z) : option Z := hash_loop (Z.to_nat n) hash_init data.

Fixpoint hash2_loop (n : nat) (n2 : Z) (hash : Z) (data1 data2 : list byte) : option Z :=
  match n with
  | O => Some (Z.lxor hash hardener)
  | S n' =>
      if decide (Z.of_nat n > n2)
      then '(b, data1) ← pop data1; hash2_loop n' n2 (hash_step hash b) data1 data2
      else '(b, data2) ← pop data2; hash2_loop n' n2 (hash_step hash b) data1 data2
  end.
Definition hash2 (data1 : list byte) (n1 : Z) (data2 : list byte) (n2 : Z) : option Z :=
  hash2_loop (Z.to_nat (u32 (n1 + n2))) n2 hash_init data1 data2.

Fixpoint hash3_loop (n : nat) (n2 n3 : Z) (hash : Z) (data1 data2 data3 : list byte) : option Z :=
  match n with
  | O => Some (Z.lxor hash hardener)
  | S n' =>
      if decide (Z.of_nat n > u32 (n2 + n3))
      then '(b, data1) ← pop data1; hash3_loop n' n2 n3 (hash_step hash b) data1 data2 data3
      else if decide (Z.of_nat n > n3)
      then '(b, data2) ← pop data2; hash3_loop n' n2 n3 (hash_step hash b) data1 data2 data3
      else '(b, data3) ← pop data3; hash3_loop n' n2 n3 (hash_step hash b) data1 data2 data3
  end.
Definition hash3 (data1 : list byte) (n1 : Z) (data2 : list byte) (n2 : Z) (data3 : list byte) (n3 : Z) : option Z :=
  hash3_loop (Z.to_nat (u32 (n1 + n2 + n3))) n2 n3 hash_init data1 data2 data3.

(** ** The hash of a whole string *)
Definition hash_of (bs : list byte) : Z := Z.lxor (foldl hash_step hash_init bs) hardener.

Lemma hash_loop_spec bs rest h :
  hash_loop (length bs) h (bs ++ rest) = Some (Z.lxor (foldl hash_step h bs) hardener).
Proof. revert h. induction bs as [|b bs IH]; intros h; [done|]. simpl. apply IH. Qed.

Lemma hash1_spec bs rest n : n = zlen bs → hash1 (bs ++ rest) n = Some (hash_of bs).
Proof. intros ->. unfold hash1, zlen. rewrite Nat2Z.id. apply hash_loop_spec. Qed.

Lemma hash1_whole bs : hash1 bs (zlen bs) = Some (hash_of bs).
Proof. rewrite <- (app_nil_r bs) at 1. by apply hash1_spec. Qed.

Lemma hash_step_range h b : 0 ≤ hash_step h b < 2 ^ 32.
Proof. apply u32_range. Qed.

Lemma hash_of_range bs : 0 ≤ hash_of bs < 2 ^ 32.
Proof.
  apply lxor_range; [done| |done]. assert (H : ∀ h, 0 ≤ h < 2 ^ 32 → 0 ≤ foldl hash_step h bs < 2 ^ 32); [|by apply H].
  induction bs as [|b bs IH]; intros h Hh; [done|]. simpl. apply IH, hash_step_range.
Qed.

Lemma hash2_loop_spec bs1 bs2 rest1 rest2 h :
  hash2_loop (length bs1 + length bs2) (zlen bs2) h (bs1 ++ rest1) (bs2 ++ rest2) =
    Some (Z.lxor (foldl hash_step (foldl hash_step h bs1) bs2) hardener).
Proof.
  revert h. induction bs1 as [|b bs1 IH]; intros h; cbn [length Nat.add foldl app].
  - assert (Hgen : ∀ l h, (length l ≤ length bs2)%nat →
      hash2_loop (length l) (zlen bs2) h rest1 (l ++ rest2) = Some (Z.lxor (foldl hash_step h l) hardener)).
    { intros l. induction l as [|c l IHl]; intros h' Hl; [done|]. cbn [length hash2_loop] in *.
      rewrite decide_False by (unfold zlen; lia). simpl. apply IHl. lia. }
    by apply Hgen.
  - cbn [hash2_loop]. rewrite decide_True by (unfold zlen; lia). simpl. apply IH.
Qed.

Lemma hash3_loop_spec bs1 bs2 bs3 rest1 rest2 rest3 h :
  zlen bs2 + zlen bs3 < 2 ^ 32 →
  hash3_loop (length bs1 + (length bs2 + length bs3)) (zlen bs2) (zlen bs3) h (bs1 ++ rest1) (bs2 ++ rest2) (bs3 ++ rest3) =
    Some (Z.lxor (foldl hash_step (foldl hash_step (foldl hash_step h bs1) bs2) bs3) hardener).
Proof.
  intros H32. revert h. induction bs1 as [|b bs1 IH]; intros h; cbn [length Nat.add foldl app].
  - assert (Hgen : ∀ l h, (length l ≤ length bs2)%nat →
      hash3_loop (length l + length bs3) (zlen bs2) (zlen bs3) h rest1 (l ++ rest2) (bs3 ++ rest3) =
        Some (Z.lxor (foldl hash_step (foldl hash_step h l) bs3) hardener)); [|by apply Hgen].
    intros l. induction l as [|c l IHl]; intros h' Hl; cbn [length Nat.add foldl app hash3_loop] in *.
    + assert (Hgen3 : ∀ l h, (length l ≤ length bs3)%nat →
        hash3_loop (length l) (zlen bs2) (zlen bs3) h rest1 rest2 (l ++ rest3) = Some (Z.lxor (foldl hash_step h l) hardener)); [|by apply Hgen3].
      intros l. induction l as [|c l IHl]; intros h3 Hl3; [done|]. cbn [length hash3_loop] in *.
      rewrite decide_False by (rewrite u32_small; unfold zlen in *; lia).
      rewrite decide_False by (unfold zlen in *; lia). simpl. apply IHl. lia.
    + rewrite decide_False by (rewrite u32_small; unfold zlen in *; lia).
      rewrite decide_True by (unfold zlen in *; lia). simpl. apply IHl. lia.
  - cbn [hash3_loop]. rewrite decide_True by (rewrite u32_small; unfold zlen in *; lia). simpl. apply IH.
Qed.

Lemma hash2_spec bs1 bs2 rest1 rest2 n1 n2 :
  n1 = zlen bs1 → n2 = zlen bs2 → zlen bs1 + zlen bs2 < 2 ^ 32 →
  hash2 (bs1 ++ rest1) n1 (bs2 ++ rest2) n2 = Some (hash_of (bs1 ++ bs2)).
Proof.
  intros -> -> Hn. unfold hash2, hash_of. rewrite u32_small by (unfold zlen in *; lia).
  replace (Z.to_nat (zlen bs1 + zlen bs2)) with (length bs1 + length bs2)%nat by (unfold zlen; lia).
  rewrite hash2_loop_spec. by rewrite foldl_app.
Qed.

(** The hash of a key given in two or three pieces is the hash of the key:
    lookups and insertions agree whichever form of [hash] they call, and the
    result is a 32-bit number. *)
Theorem hash_pieces (bs1 bs2 bs3 rest1 rest2 rest3 : list byte) :
  zlen bs1 + zlen bs2 + zlen bs3 < 2 ^ 32 →
  hash1 (bs1 ++ rest1) (zlen bs1) = Some (hash_of bs1) ∧
  hash2 (bs1 ++ rest1) (zlen bs1) (bs2 ++ rest2) (zlen bs2) = Some (hash_of (bs1 ++ bs2)) ∧
  hash3 (bs1 ++ rest1) (zlen bs1) (bs2 ++ rest2) (zlen bs2) (bs3 ++ rest3) (zlen bs3) = Some (hash_of (bs1 ++ bs2 ++ bs3)) ∧
  0 ≤ hash_of (bs1 ++ bs2 ++ bs3) < 2 ^ 32.
Proof.
  intros Hn. split_and!; [by apply hash1_spec| | |apply hash_of_range..].
  - apply hash2_spec; [done..|]. unfold zlen in *; lia.
  - unfold hash3, hash_of. rewrite u32_small by (unfold zlen in *; lia).
    replace (Z.to_nat (zlen bs1 + zlen bs2 + zlen bs3)) with (length bs1 + (length bs2 + length bs3))%nat by (unfold zlen; lia).
    rewrite hash3_loop_spec by (unfold zlen in *; lia). by rewrite !foldl_app.
Qed.

Lemma hash_pieces_witness :
  hash3 [z2b 97] 1 [z2b 98] 1 [z2b 99; z2b 100] 1 = Some (hash_of [z2b 97; z2b 98; z2b 99]).
Proof. exact (proj1 (proj2 (proj2 (hash_pieces [z2b 97] [z2b 98] [z2b 99] [] [] [z2b 100] eq_refl)))). Defined.
