(* ===== verification/ConsistentHash.v ===== *)
(** * ConsistentHash (common/hash/consistent_hash.hh)

    The hash ring: a map from positions to items, each item placed at
    [replicas] positions.  [std::map] is a finite map whose iteration is in
    key order.  The property is the one the structure is named after: adding
    or removing an item moves only the keys that have to move. *)

From S2P Require Export HashFunc.

Module ConsistentHash.
Section ring.
Context {T : Type}.

(** The memory representation of an item, which is what is hashed. *)
Context (bytes_of : T → list byte).

Record t := Ring { ring : gmap Z T; replicas : Z }.

Definition new : t := Ring ∅ 1.
Definition setReplicas (r : t) (n : Z) : t := Ring (ring r) n.
Definition getReplicas (r : t) : Z := replicas r.
Definition set_ring (r : t) (m : gmap Z T) : t := Ring m (replicas r).

(** The position of the [i]-th replica of an item. *)
Definition position (item : T) (i : Z) : option Z :=
  hash2 (bytes_of item) (zlen (bytes_of item)) (le_bytes 4 i) 4.

Definition add (r : t) (item : T) : option t :=
  for_range 0 (replicas r) (λ i r, val ← position item i; Some (set_ring r (<[val := item]> (ring r)))) r.

Definition remove (r : t) (item : T) : option t :=
  for_range 0 (replicas r) (λ i r, val ← position item i; Some (set_ring r (delete val (ring r)))) r.

(** The entry with the least key that is at least [lo]: [lower_bound], and
    [begin] when [lo] is below every key. *)
Definition closer (lo : Z) (e : Z * T) (best : option (Z * T)) : option (Z * T) :=
  if decide (lo ≤ e.1)
  then match best with Some b => if decide (b.1 < e.1) then Some b else Some e | None => Some e end
  else best.
Definition least (lo : Z) (es : list (Z * T)) : option (Z * T) := foldr (closer lo) None es.
Definition lower_bound (m : gmap Z T) (val : Z) : option (Z * T) := least val (map_to_list m).
Definition begin (m : gmap Z T) : option (Z * T) := lower_bound m 0.

(** [get( val )]; dereferencing [end()] of an empty ring has no result. *)
Definition find_entry (m : gmap Z T) (val : Z) : option (Z * T) :=
  match lower_bound m val with Some e => Some e | None => begin m end.
Definition get (r : t) (val : Z) : option T :=
  match find_entry (ring r) val with Some (_, item) => Some item | None => None end.

(** [get( data, n )]: [n] is replaced by [strlen] when it is 0. *)
Fixpoint strlen (data : list byte) : option Z :=
  match data with
  | [] => None
  | b :: data' => if decide (b = x00) then Some 0 else n ← strlen data'; Some (n + 1)
  end.
Definition get_key (r : t) (data : list byte) (n : Z) : option T :=
  n ← (if decide (n ≠ 0) then Some n else strlen data);
  val ← hash1 data (u32 n);
  get r val.
Definition get_key2 (r : t) (data1 : list byte) (n1 : Z) (data2 : list byte) (n2 : Z) : option T :=
  val ← hash2 data1 (u32 n1) data2 (u32 n2);
  get r val.

(** ** Lemmas *)
Definition is_least (m : gmap Z T) (lo k : Z) (x : T) : Prop :=
  m !! k = Some x ∧ lo ≤ k ∧ ∀ k', is_Some (m !! k') → lo ≤ k' → k ≤ k'.

Lemma least_spec lo es :
  match least lo es with
  | Some e => e ∈ es ∧ lo ≤ e.1 ∧ ∀ e', e' ∈ es → lo ≤ e'.1 → e.1 ≤ e'.1
  | None => ∀ e, e ∈ es → e.1 < lo
  end.
Proof.
  induction es as [|e es IH]; simpl.
  { intros e He. by apply elem_of_nil in He. }
  unfold closer at 1. destruct (decide (lo ≤ e.1)) as [Hlo|Hlo].
  - destruct (least lo es) as [b|].
    + destruct IH as (Hb & Hlb & Hmin). destruct (decide (b.1 < e.1)) as [Hlt|Hge].
      * split; [by right|]. split; [done|]. intros e' [->|He']%elem_of_cons ?; [lia|by apply Hmin].
      * split; [by left|]. split; [done|]. intros e' [->|He']%elem_of_cons ?; [lia|].
        specialize (Hmin e' He' ltac:(lia)). lia.
    + split; [by left|]. split; [done|]. intros e' [->|He']%elem_of_cons ?; [lia|].
      specialize (IH e' He'). lia.
  - destruct (least lo es) as [b|].
    + destruct IH as (Hb & Hlb & Hmin). split; [by right|]. split; [done|].
      intros e' [->|He']%elem_of_cons ?; [lia|by apply Hmin].
    + intros e' [->|He']%elem_of_cons; [lia|by apply IH].
Qed.

Lemma lower_bound_Some m lo k x : lower_bound m lo = Some (k, x) ↔ is_least m lo k x.
Proof.
  unfold lower_bound. pose proof (least_spec lo (map_to_list m)) as H.
  destruct (least lo (map_to_list m)) as [[k0 x0]|].
  - destruct H as (Hin & Hlo & Hmin). apply elem_of_map_to_list in Hin. simpl in *.
    assert (Hm : ∀ k', is_Some (m !! k') → lo ≤ k' → k0 ≤ k').
    { intros k' [y Hy]. apply (Hmin (k', y)). by apply elem_of_map_to_list. }
    split; [intros [= -> ->]; done|]. intros (Hk & Hlk & Hmk).
    assert (k = k0) as ->; [|congruence].
    pose proof (Hmk k0 ltac:(by eexists) Hlo). pose proof (Hm k ltac:(by eexists) Hlk). lia.
  - split; [done|]. intros (Hk & Hlk & _). apply elem_of_map_to_list in Hk.
    specialize (H _ Hk). simpl in H. lia.
Qed.

Lemma lower_bound_None m lo : lower_bound m lo = None ↔ ∀ k, is_Some (m !! k) → k < lo.
Proof.
  unfold lower_bound. pose proof (least_spec lo (map_to_list m)) as H.
  destruct (least lo (map_to_list m)) as [[k0 x0]|].
  - split; [done|]. intros Hall. destruct H as (Hin & Hlo & _). apply elem_of_map_to_list in Hin.
    specialize (Hall k0 ltac:(by eexists)). simpl in *. lia.
  - split; [|done]. intros _ k [y Hy]. apply elem_of_map_to_list in Hy. by specialize (H _ Hy).
Qed.

(** An entry of a smaller ring that is found in the bigger one is found in the
    smaller one as well. *)
Lemma find_entry_sub (m1 m2 : gmap Z T) val k x :
  (∀ k', is_Some (m1 !! k') → is_Some (m2 !! k')) →
  find_entry m2 val = Some (k, x) → m1 !! k = Some x → find_entry m1 val = Some (k, x).
Proof.
  unfold find_entry, begin. intros Hsub Hf H1. destruct (lower_bound m2 val) as [[k2 x2]|] eqn:E.
  - injection Hf as -> ->. apply lower_bound_Some in E as (_ & Hlo & Hmin).
    assert (lower_bound m1 val = Some (k, x)) as ->; [|done].
    apply lower_bound_Some. split; [done|]. split; [done|]. auto.
  - assert (lower_bound m1 val = None) as ->.
    { apply lower_bound_None. intros k' Hk'. apply (proj1 (lower_bound_None _ _) E). auto. }
    apply lower_bound_Some in Hf as (_ & Hlo & Hmin). apply lower_bound_Some.
    split; [done|]. split; [done|]. auto.
Qed.

Lemma find_entry_lookup m val k x : find_entry m val = Some (k, x) → m !! k = Some x.
Proof.
  unfold find_entry, begin. destruct (lower_bound m val) as [[k0 x0]|] eqn:E; [intros [= -> ->]|intros E'].
  - by apply lower_bound_Some in E as (? & _).
  - by apply lower_bound_Some in E' as (? & _).
Qed.

Lemma find_entry_total m val :
  (∃ k, is_Some (m !! k)) → map_Forall (λ p _, 0 ≤ p) m → is_Some (find_entry m val).
Proof.
  intros [k [x Hk]] Hpos. unfold find_entry, begin.
  destruct (lower_bound m val); [by eexists|]. destruct (lower_bound m 0) eqn:E; [by eexists|].
  pose proof (proj1 (lower_bound_None m 0) E k ltac:(by eexists)). specialize (Hpos k x Hk). simpl in Hpos. lia.
Qed.

Lemma position_eq item i :
  zlen (bytes_of item) + 4 < 2 ^ 32 → position item i = Some (hash_of (bytes_of item ++ le_bytes 4 i)).
Proof.
  intros H. unfold position. pose proof (hash2_spec (bytes_of item) (le_bytes 4 i) [] []) as E.
  rewrite !app_nil_r in E. apply E; [done|unfold zlen; by rewrite length_le_bytes|].
  unfold zlen in *. rewrite length_le_bytes. lia.
Qed.

(** What the two loops do to the map: the positions of the item, and only
    they, are written. *)
Lemma update_loop (f : Z → gmap Z T → gmap Z T) (v : option T) item r :
  zlen (bytes_of item) + 4 < 2 ^ 32 → 0 ≤ replicas r →
  (∀ p m k, f p m !! k = if decide (k = p) then v else m !! k) →
  ∃ r', for_range 0 (replicas r) (λ i r, val ← position item i; Some (set_ring r (f val (ring r)))) r = Some r' ∧
    ∀ k, (ring r' !! k = v ∧ ∃ i, 0 ≤ i < replicas r ∧ position item i = Some k) ∨
      (ring r' !! k = ring r !! k ∧ ∀ i, 0 ≤ i < replicas r → position item i ≠ Some k).
Proof.
  intros Hlen Hrep Hf.
  apply (for_range_inv (λ n r', ∀ k,
    (ring r' !! k = v ∧ ∃ i, 0 ≤ i < n ∧ position item i = Some k) ∨
    (ring r' !! k = ring r !! k ∧ ∀ i, 0 ≤ i < n → position item i ≠ Some k))); [done| |].
  - intros j r0 Hj HP. rewrite position_eq by done. set (p := hash_of _).
    assert (Hp : position item j = Some p) by by apply position_eq. simpl.
    eexists. split; [done|]. intros k. simpl. rewrite Hf. destruct (decide (k = p)) as [->|Hkp].
    + left. split; [done|]. exists j. split; [lia|done].
    + destruct (HP k) as [[HQk (i & Hi & Hpi)]|[Hk Hno]].
      * left. split; [done|]. exists i. split; [lia|done].
      * right. split; [done|]. intros i Hi. destruct (decide (i = j)) as [->|]; [congruence|]. apply Hno. lia.
  - intros k. right. split; [done|]. intros i Hi. lia.
Qed.

(** ** Properties *)

(** Consistent hashing moves only the keys it has to.  After [add], a key
    is served by the new item or by the item that served it before; after
    [remove], a key whose entry was not one of the removed item's positions is
    still served by the same item.  A ring with an entry serves every key. *)
Theorem consistent_hash_minimal (r : t) (item : T) :
  zlen (bytes_of item) + 4 < 2 ^ 32 → 0 < replicas r → map_Forall (λ p _, 0 ≤ p) (ring r) →
  (∃ r', add r item = Some r' ∧
     ∀ val, ∃ y, get r' val = Some y ∧ (y = item ∨ get r val = Some y)) ∧
  (∃ r', remove r item = Some r' ∧
     ∀ val k y, find_entry (ring r) val = Some (k, y) →
       (∀ i, 0 ≤ i < replicas r → position item i ≠ Some k) → get r' val = Some y).
Proof.
  intros Hlen Hrep Hpos. split.
  - destruct (update_loop (λ p m, <[p := item]> m) (Some item) item r) as (r' & Hr' & Hk); [done|lia| |].
    { intros p m k. case_decide as E; [subst; apply lookup_insert_eq|by apply lookup_insert_ne]. }
    exists r'. split; [done|]. intros val.
    destruct (find_entry_total (ring r') val) as ((k & y) & Hf).
    { set (p := hash_of (bytes_of item ++ le_bytes 4 0)). exists p.
      assert (Hp : position item 0 = Some p) by by apply position_eq.
      destruct (Hk p) as [[Hp' _]|[_ Hno]]; [by rewrite Hp'|]. by destruct (Hno 0 ltac:(lia)). }
    { intros p x Hp. destruct (Hk p) as [[_ (i & _ & Hi)]|[Hp' _]].
      - rewrite position_eq in Hi by done. injection Hi as <-. apply hash_of_range.
      - apply (Hpos p x). by rewrite <- Hp'. }
    exists y. unfold get. rewrite Hf. split; [done|].
    pose proof (find_entry_lookup _ _ _ _ Hf) as Hy.
    destruct (Hk k) as [[Hk' _]|[Hk' _]]; [left; congruence|right].
    rewrite (find_entry_sub (ring r) (ring r') val k y); [done| |done|congruence].
    intros k' Hk0. destruct (Hk k') as [[-> _]|[-> _]]; [by eexists|done].
  - destruct (update_loop delete None item r) as (r' & Hr' & Hk); [done|lia| |].
    { intros p m k. case_decide as E; [subst; apply lookup_delete_eq|by apply lookup_delete_ne]. }
    exists r'. split; [done|]. intros val k y Hf Hno.
    pose proof (find_entry_lookup _ _ _ _ Hf) as Hy.
    destruct (Hk k) as [[_ (i & Hi & Hpi)]|[Hk' _]]; [by destruct (Hno i Hi)|].
    unfold get. rewrite (find_entry_sub (ring r') (ring r) val k y); [done| |done|congruence].
    intros k' Hk0. destruct (Hk k') as [[E _]|[E _]]; rewrite E in Hk0; [by destruct Hk0|done].
Qed.
End ring.

Lemma consistent_hash_minimal_witness :
  let b := le_bytes 4 in
  ∃ r1 r2, add b new 7 = Some r1 ∧ add b r1 9 = Some r2 ∧
    (∀ val, ∃ y, get r2 val = Some y ∧ (y = 9 ∨ get r1 val = Some y)).
Proof.
  assert (H1 : map_Forall (λ p (_ : Z), 0 ≤ p) (ring new)) by apply map_Forall_empty.
  destruct (consistent_hash_minimal (le_bytes 4) new 7 eq_refl eq_refl H1) as [(r1 & Hr1 & _) _].
  intros b. exists r1.
  assert (E : add (le_bytes 4) new 7 = Some (Ring {[ 3382838792 := 7 ]} 1)) by (vm_compute; reflexivity).
  assert (r1 = Ring {[ 3382838792 := 7 ]} 1) as -> by congruence.
  destruct (consistent_hash_minimal (le_bytes 4) (Ring {[ 3382838792 := 7 ]} 1) 9 eq_refl eq_refl) as [(r2 & Hr2 & H2) _].
  { by apply map_Forall_singleton. }
  exists r2. split; [done|]. split; done.
Defined.
End ConsistentHash.
