(* ===== verification/Ids.v ===== *)
(** * Identifiers and addresses

    [IDGenerator] (common/ds/id_generator.hh), [InstanceIdGenerator]
    (common/ds/instance_id_generator.cc), [Timestamp]
    (common/timestamp/timestamp.hh), [PendingIdentifier]
    (common/ds/pending.hh) and the order on socket addresses
    (common/ds/sockaddr_in.cc). *)

From S2P Require Export Words.

(** ** Request identifiers: a range per thread *)
Module IDGenerator.

Record IDGenerator := MkGen {
  numberOfThreads : Z;
  rangeSize : Z;
  currentValue : list Z;
  limits : list Z;
}.

Definition new : IDGenerator := MkGen 0 0 [] [].

Definition UINT32_MAX : Z := 4294967295.

Definition init (n : Z) : option IDGenerator :=
  if decide (n = 0) then None
  else
    let r := (UINT32_MAX - 1 - 1) / n in
    Some (MkGen n r ((λ i, u32 (u32 (r * i) + 1)) <$> seqZ 0 n)
      ((λ i, u32 (u32 (u32 (r * i) + 1) + u32 (r - 1))) <$> seqZ 0 n)).

Definition nextVal (g : IDGenerator) (threadId : Z) : option (Z * IDGenerator) :=
  c ← zget (currentValue g) threadId;
  l ← zget (limits g) threadId;
  let v := if decide (c = l) then u32 (rangeSize g * threadId) else u32 (c + 1) in
  cs ← zset (currentValue g) threadId v;
  Some (v, MkGen (numberOfThreads g) (rangeSize g) cs (limits g)).

(** The values of [k] calls by one thread. *)
Fixpoint run (k : nat) (g : IDGenerator) (threadId : Z) : option (list Z * IDGenerator) :=
  match k with
  | O => Some ([], g)
  | S k' => '(v, g) ← nextVal g threadId; '(vs, g) ← run k' g threadId; Some (v :: vs, g)
  end.
End IDGenerator.

(** ** Instance identifiers *)
Module InstanceIdGenerator.
Section gen.
Context {Socket : Type}.

Record InstanceIdGenerator := MkInst { current : Z; mapping : gmap Z Socket }.

Definition new : InstanceIdGenerator := MkInst 0 ∅.

(** One increment of [current], which skips the reserved identifier 0. *)
Definition advance (c : Z) : Z := let c := u16 (c + 1) in if decide (c = 0) then u16 (c + 1) else c.

(** The loop: [None] when the fuel runs out. *)
Fixpoint search (fuel : nat) (m : gmap Z Socket) (c : Z) : option Z :=
  match fuel with
  | O => None
  | S fuel' => let c := advance c in if decide (is_Some (m !! c)) then search fuel' m c else Some c
  end.

(** There are 65535 identifiers. *)
Definition id_fuel : nat := Z.to_nat 65535.

Definition generate (g : InstanceIdGenerator) (socket : Socket) : option (Z * InstanceIdGenerator) :=
  c ← search id_fuel (mapping g) (current g);
  Some (c, MkInst c (<[c := socket]> (mapping g))).

Definition release (g : InstanceIdGenerator) (instanceId : Z) : bool * InstanceIdGenerator :=
  match mapping g !! instanceId with
  | Some _ => (true, MkInst (current g) (delete instanceId (mapping g)))
  | None => (false, g)
  end.
End gen.
Arguments InstanceIdGenerator : clear implicits.
End InstanceIdGenerator.

(** ** Timestamps *)
Module Timestamp.
Definition UINT32_MAX : Z := 4294967295.

Record Timestamp := MkTs { value : Z }.

Definition new : Timestamp := MkTs 0.
Definition nextVal (t : Timestamp) : Z * Timestamp := (value t, MkTs (u32 (value t + 1))).
Definition setVal (t : Timestamp) (ts : Z) : Timestamp := MkTs ts.
Definition getVal (t : Timestamp) : Z := value t.
Definition less (a b : Timestamp) : bool := bool_decide (value a < value b).
Definition equal (a b : Timestamp) : bool := bool_decide (value a = value b).
Definition sub (a b : Timestamp) : Timestamp :=
  let diff := u32 (value a - value b) in
  MkTs (if decide (value a < value b) then u32 (diff + UINT32_MAX) else diff).
End Timestamp.

(** ** Identifiers of pending requests *)
Module PendingIdentifier.

Record PendingIdentifier := MkPid {
  instanceId : Z;
  parentInstanceId : Z;
  requestId : Z;
  parentRequestId : Z;
  timestamp : Z;
  ptr : Z;
}.

Definition set (i pi r pr ts p : Z) : PendingIdentifier := MkPid i pi r pr ts p.

Definition less (a b : PendingIdentifier) : bool :=
  if decide (instanceId a < instanceId b) then true
  else if decide (instanceId b < instanceId a) then false
  else if decide (requestId a < requestId b) then true
  else if decide (requestId b < requestId a) then false
  else bool_decide (ptr a < ptr b).

Definition equal (a b : PendingIdentifier) : bool :=
  bool_decide (instanceId a = instanceId b ∧ requestId a = requestId b).

Definition hash (a : PendingIdentifier) : Z := Z.lor (requestId a) (Z.shiftl (instanceId a) 32).
End PendingIdentifier.

(** ** Socket addresses *)
Module SockAddr.

Record sockaddr_in := MkAddr { s_addr : Z; sin_port : Z }.

#[export] Instance sockaddr_eq_dec : EqDecision sockaddr_in.
Proof. solve_decision. Defined.
#[export] Instance sockaddr_countable : Countable sockaddr_in.
Proof. exact (inj_countable' (λ a, (s_addr a, sin_port a)) (λ p, MkAddr p.1 p.2) ltac:(by intros [])). Defined.

Definition equal (a b : sockaddr_in) : bool := bool_decide (sin_port a = sin_port b ∧ s_addr a = s_addr b).
Definition less (a b : sockaddr_in) : bool :=
  bool_decide (s_addr b < s_addr a ∨ (s_addr a = s_addr b ∧ sin_port b < sin_port a)).
End SockAddr.

(** ** Properties *)
Module IdProofs.

Section id_generator.
Import IDGenerator.
Context (n : Z).
Context (Hn : 1 ≤ n < 2 ^ 31).
Let r := (UINT32_MAX - 2) / n.

Lemma range_size : 1 ≤ r ∧ r * n ≤ UINT32_MAX - 2.
Proof. subst r. unfold UINT32_MAX. split; [apply Z.div_le_lower_bound; lia|]. rewrite Z.mul_comm. apply Z.mul_div_le. lia. Qed.

(** The state of the generator when thread [t] has its value at offset [o]. *)
Definition at_offset (g : IDGenerator) (t o : Z) : Prop :=
  rangeSize g = r ∧ zget (currentValue g) t = Some (r * t + o) ∧ zget (limits g) t = Some (r * t + r).

Lemma nextVal_offset g t o : 0 ≤ t < n → 0 ≤ o ≤ r → at_offset g t o →
  ∃ g', nextVal g t = Some (r * t + (o + 1) mod (r + 1), g') ∧ at_offset g' t ((o + 1) mod (r + 1)).
Proof.
  intros Ht Ho (Hr & Hc & Hl). pose proof range_size as [H1 H2].
  assert (Hmax : r * t + r ≤ UINT32_MAX) by (unfold UINT32_MAX in *; nia).
  unfold nextVal. rewrite Hc, Hl. cbn [mbind option_bind]. rewrite Hr.
  assert (Hv : (if decide (r * t + o = r * t + r) then u32 (r * t) else u32 (r * t + o + 1)) = r * t + (o + 1) mod (r + 1)).
  { unfold UINT32_MAX in *. case_decide as E.
    - assert (o = r) as -> by lia. rewrite Z_mod_same_full, u32_small by nia. lia.
    - rewrite Z.mod_small, u32_small by nia. lia. }
  rewrite Hv. rewrite zset_Some by (by eapply zget_Some). simpl. eexists. split; [done|].
  split; [done|]. split; [|done]. eapply zset_get_eq. apply zset_Some. by eapply zget_Some.
Qed.

Lemma run_offset k g t o : 0 ≤ t < n → 0 ≤ o ≤ r → at_offset g t o →
  ∃ vs g', run k g t = Some (vs, g') ∧ length vs = k ∧
    ∀ i v, vs !! i = Some v → v = r * t + (o + 1 + Z.of_nat i) mod (r + 1).
Proof.
  intros Ht. pose proof range_size as [H1 H2]. revert g o. induction k as [|k IH]; intros g o Ho Hat; simpl.
  { exists [], g. split; [done|]. split; [done|]. intros i v Hi. done. }
  destruct (nextVal_offset g t o Ht Ho Hat) as (g1 & -> & Hat1). cbn [mbind option_bind].
  pose proof (Z.mod_pos_bound (o + 1) (r + 1) ltac:(lia)).
  destruct (IH g1 ((o + 1) mod (r + 1)) ltac:(lia) Hat1) as (vs & g2 & -> & Hlen & Hvs). cbn [mbind option_bind].
  eexists _, g2. split; [done|]. split; [simpl; lia|]. intros [|i] v Hi; simpl in Hi.
  - injection Hi as <-. f_equal. f_equal. lia.
  - rewrite (Hvs i v Hi). f_equal. rewrite <- Z.add_assoc, Zplus_mod_idemp_l. f_equal. lia.
Qed.

Lemma init_offset g t : init n = Some g → 0 ≤ t < n → at_offset g t 1.
Proof.
  intros Hg Ht. unfold init in Hg. rewrite decide_False in Hg by lia. injection Hg as <-. pose proof range_size as [H1 H2].
  change (UINT32_MAX - 1 - 1) with (UINT32_MAX - 2). fold r.
  assert (Hmax : r * t + r ≤ UINT32_MAX - 2) by nia. unfold UINT32_MAX in Hmax.
  split; [done|]. simpl. unfold zget. rewrite !decide_True by lia. rewrite !list_lookup_fmap, lookup_seqZ_lt by lia. simpl.
  replace (0 + Z.of_nat (Z.to_nat t)) with t by lia.
  rewrite (u32_small (r * t)), (u32_small (r - 1)), (u32_small (r * t + 1)), u32_small by nia. split; f_equal; lia.
Qed.

(** [IDGenerator], for any number of threads: the [i]-th value of thread
    [t] is [rangeSize * t + (2 + i) mod (rangeSize + 1)], below 2^32.  Until a
    thread wraps around, its values lie in its own range
    [rangeSize * t + 2 .. rangeSize * (t + 1)]. *)
Theorem id_generator_sequence (t : Z) (k : nat) : 0 ≤ t < n →
  ∃ g vs g', init n = Some g ∧ run k g t = Some (vs, g') ∧ length vs = k ∧
    ∀ i v, vs !! i = Some v →
      v = r * t + (2 + Z.of_nat i) mod (r + 1) ∧ 0 ≤ v < 2 ^ 32 ∧
      (Z.of_nat i < r - 1 → r * t + 2 ≤ v ≤ r * (t + 1)).
Proof.
  intros Ht. pose proof range_size as [H1 H2].
  assert (Hg : ∃ g, init n = Some g) by (unfold init; rewrite decide_False by lia; eauto).
  destruct Hg as [g Hg]. exists g.
  destruct (run_offset k g t 1 Ht ltac:(lia) (init_offset g t Hg Ht)) as (vs & g' & Hr & Hlen & Hvs).
  exists vs, g'. split; [done|]. split; [done|]. split; [done|]. intros i v Hi. rewrite (Hvs i v Hi).
  replace (1 + 1 + Z.of_nat i) with (2 + Z.of_nat i) by lia.
  pose proof (Z.mod_pos_bound (2 + Z.of_nat i) (r + 1) ltac:(lia)).
  unfold UINT32_MAX in H2. split; [done|]. split; [nia|]. intros Hlt. rewrite Z.mod_small by lia. lia.
Qed.

(** The wrap-around leaves the range: the value that follows the last one of
    thread [t] is the last one of thread [t - 1], and 0 for thread 0. *)
Theorem id_generator_wraps_into_neighbour (g : IDGenerator) (t : Z) : 0 ≤ t < n → at_offset g t r →
  ∃ g', nextVal g t = Some (r * (t - 1) + r, g').
Proof.
  intros Ht Hat. pose proof range_size as [H1 H2].
  destruct (nextVal_offset g t r Ht ltac:(lia) Hat) as (g' & Hn' & _). exists g'. rewrite Hn'.
  rewrite Z_mod_same_full. do 2 f_equal. lia.
Qed.
End id_generator.

Lemma id_generator_sequence_witness :
  ∃ g vs g', IDGenerator.init 4 = Some g ∧ IDGenerator.run 2 g 1 = Some (vs, g') ∧ length vs = 2%nat.
Proof.
  destruct (id_generator_sequence 4 ltac:(lia) 1 2 ltac:(lia)) as (g & vs & g' & ? & ? & ? & _).
  exists g, vs, g'. auto.
Defined.

Section instance_ids.
Import InstanceIdGenerator.
Context {Socket : Type}.
Implicit Types (m : gmap Z Socket).

(** The identifier [i] steps after [c], on the cycle 1 .. 65535. *)
Definition nth_id (c : Z) (i : nat) : Z := (c - 1 + Z.of_nat i) mod 65535 + 1.

Lemma advance_nth c i : 0 ≤ c < 2 ^ 16 → advance (if decide (i = O ∧ c = 0) then 0 else nth_id c i) = nth_id c (S i).
Proof.
  intros Hc. unfold advance, nth_id, u16. destruct (decide (i = O ∧ c = 0)) as [[-> ->]|Hne].
  - reflexivity.
  - set (x := c - 1 + Z.of_nat i). replace (c - 1 + Z.of_nat (S i)) with (x + 1) by lia.
    assert (Hx : 0 ≤ x mod 65535 < 65535) by (apply Z.mod_pos_bound; lia).
    rewrite <- (Zplus_mod_idemp_l x 1 65535).
    destruct (decide (x mod 65535 = 65534)) as [->|Hn]; [reflexivity|].
    rewrite (Z.mod_small (_ + 1 + 1)) by lia. rewrite decide_False by lia. rewrite (Z.mod_small (_ + 1) 65535); lia.
Qed.

Lemma nth_id_range c i : 1 ≤ nth_id c i ≤ 65535.
Proof. unfold nth_id. pose proof (Z.mod_pos_bound (c - 1 + Z.of_nat i) 65535 ltac:(lia)). lia. Qed.

(** The loop returns the first identifier of the cycle that is not in use. *)
Lemma search_spec fuel m c i :
  0 ≤ c < 2 ^ 16 →
  (∀ j, (1 ≤ j ≤ i)%nat → is_Some (m !! nth_id c j)) →
  match search fuel m (if decide (i = O ∧ c = 0) then 0 else nth_id c i) with
  | Some x => m !! x = None ∧ 1 ≤ x ≤ 65535
  | None => ∀ j, (1 ≤ j ≤ i + fuel)%nat → is_Some (m !! nth_id c j)
  end.
Proof.
  intros Hc. revert i. induction fuel as [|fuel IH]; intros i Hused; simpl.
  { intros j Hj. apply Hused. lia. }
  rewrite advance_nth by done. destruct (decide (is_Some (m !! nth_id c (S i)))) as [Hs|Hs].
  - specialize (IH (S i)). rewrite decide_False in IH by (by intros []).
    destruct (search fuel m (nth_id c (S i))) as [x|]; [apply IH|intros j Hj; apply IH; [|lia]];
      intros j' Hj'; (destruct (decide (j' = S i)) as [->|]; [done|apply Hused; lia]).
  - split; [by apply eq_None_not_Some|apply nth_id_range].
Qed.

Lemma nth_id_inj c i j : 1 ≤ Z.of_nat i ≤ 65535 → 1 ≤ Z.of_nat j ≤ 65535 → nth_id c i = nth_id c j → i = j.
Proof.
  unfold nth_id. intros Hi Hj Heq. lia.
Qed.

(** All identifiers in use: the map is full. *)
Lemma all_used m c : (∀ j, (1 ≤ j ≤ Z.to_nat 65535)%nat → is_Some (m !! nth_id c j)) → 65535 ≤ Z.of_nat (size m).
Proof.
  intros Hall. set (ids := nth_id c <$> seq 1 (Z.to_nat 65535)).
  assert (Hnd : NoDup ids).
  { apply NoDup_fmap_2_strong; [|apply NoDup_seq]. intros i j Hi%elem_of_seq Hj%elem_of_seq. apply nth_id_inj; lia. }
  assert (Hsub : ids ⊆+ elements (dom m)).
  { apply NoDup_submseteq; [done|]. intros x Hx. apply elem_of_elements, elem_of_dom.
    apply list_elem_of_fmap in Hx as (j & -> & Hj%elem_of_seq). apply Hall. lia. }
  apply submseteq_length in Hsub. unfold ids in Hsub. rewrite length_fmap, length_seq in Hsub.
  rewrite <- size_dom. change (size (dom m)) with (length (elements (dom m))). lia.
Qed.

(** As long as one of the 65535 identifiers is free, [generate] terminates
    with an identifier that is not reserved and not in use, and records the
    socket under it; [release] gives back exactly the identifiers in use. *)
Theorem instance_ids_fresh (g : InstanceIdGenerator Socket) (socket : Socket) :
  0 ≤ current g < 2 ^ 16 → Z.of_nat (size (mapping g)) < 65535 →
  ∃ i g', generate g socket = Some (i, g') ∧ 1 ≤ i ≤ 65535 ∧ mapping g !! i = None ∧
    mapping g' = <[i := socket]> (mapping g) ∧ current g' = i ∧
    ∃ g'', release g' i = (true, g'') ∧ mapping g'' = mapping g ∧ release g i = (false, g).
Proof.
  intros Hc Hfull. unfold generate.
  pose proof (search_spec id_fuel (mapping g) (current g) 0 Hc ltac:(lia)) as Hs.
  replace (if decide (0%nat = 0%nat ∧ current g = 0) then 0 else nth_id (current g) 0) with (current g) in Hs.
  2:{ destruct (decide (0%nat = 0%nat ∧ current g = 0)) as [[_ ->]|Hne]; [done|]. unfold nth_id.
      assert (current g ≠ 0) by (intros E; by apply Hne). rewrite Z.mod_small by lia. lia. }
  destruct (search id_fuel (mapping g) (current g)) as [i|].
  - destruct Hs as [Hnone Hr]. simpl. eexists i, _. split; [done|]. split; [done|]. split; [done|]. split; [done|].
    split; [done|]. unfold release. simpl. rewrite lookup_insert_eq, Hnone. eexists. split; [done|]. split; [|done].
    simpl. by apply delete_insert_id.
  - exfalso. pose proof (all_used (mapping g) (current g) ltac:(intros j Hj; apply Hs; unfold id_fuel; lia)). lia.
Qed.
End instance_ids.

Lemma instance_ids_fresh_witness :
  ∃ i g', InstanceIdGenerator.generate (InstanceIdGenerator.MkInst 65535 {[ 1 := 10; 2 := 20 ]}) 30 = Some (i, g') ∧
    InstanceIdGenerator.mapping g' !! i = Some 30.
Proof.
  destruct (instance_ids_fresh (InstanceIdGenerator.MkInst 65535 {[ 1 := 10; 2 := 20 ]}) 30 ltac:(done) ltac:(done))
    as (i & g' & Hg & _ & _ & Hm & _). exists i, g'. split; [done|]. rewrite Hm. apply lookup_insert_eq.
Defined.

Section timestamps.
Import Timestamp.

(** Differences of timestamps: exact when the clock has not wrapped
    around; across a wrap-around, one less than the number of steps between
    the two values. *)
Theorem timestamp_sub (a : Timestamp) (steps : Z) : 0 ≤ value a < 2 ^ 32 → 0 ≤ steps < 2 ^ 32 →
  let later := MkTs (u32 (value a + steps)) in
  getVal (sub later a) =
    if decide (value a + steps < 2 ^ 32) then steps else u32 (steps - 1).
Proof.
  intros Ha Hs later. unfold sub, getVal, later, u32, UINT32_MAX. simpl.
  case_decide as Hd; case_decide as Hd'; simpl in *; lia.
Qed.
End timestamps.

Lemma timestamp_sub_witness :
  Timestamp.getVal (Timestamp.sub (Timestamp.MkTs 1) (Timestamp.MkTs 4294967295)) = 1.
Proof. exact (timestamp_sub (Timestamp.MkTs 4294967295) 2 ltac:(done) ltac:(done)). Defined.

Section pending_order.
Import PendingIdentifier.

(** Identifiers as the members have them: 16-bit instances, 32-bit requests. *)
Definition pid_wf (a : PendingIdentifier) : Prop :=
  0 ≤ instanceId a < 2 ^ 16 ∧ 0 ≤ requestId a < 2 ^ 32.

(** The order on pending identifiers is a strict weak order whose ties are
    equal instance, request and pointer; [==] ignores the pointer; and the
    hash separates every two identifiers that [==] separates. *)
Theorem pending_identifier_order :
  (∀ a, less a a = false) ∧
  (∀ a b c, less a b = true → less b c = true → less a c = true) ∧
  (∀ a b, less a b = false → less b a = false → equal a b = true ∧ ptr a = ptr b) ∧
  (∀ a b, pid_wf a → pid_wf b → (equal a b = true ↔ hash a = hash b)).
Proof.
  unfold less, equal. split; [|split; [|split]].
  - intros a. repeat case_decide; try lia. apply bool_decide_eq_false_2. lia.
  - intros a b c. repeat case_decide; rewrite ?bool_decide_eq_true; try done; lia.
  - intros a b. repeat case_decide; rewrite ?bool_decide_eq_true, ?bool_decide_eq_false; try done; intros; lia.
  - intros a b [Ha Hra] [Hb Hrb]. rewrite bool_decide_eq_true. unfold hash. rewrite !Z.shiftl_mul_pow2 by lia.
    assert (Hlor : ∀ r i, 0 ≤ r < 2 ^ 32 → Z.lor r (i * 2 ^ 32) = r + i * 2 ^ 32).
    { intros r i Hr. rewrite <- Z.shiftl_mul_pow2 by lia. assert (Hland : Z.land r (Z.shiftl i 32) = 0).
      { apply Z.bits_inj'. intros k Hk. rewrite Z.land_spec, Z.bits_0. destruct (decide (k < 32)).
        - rewrite Z.shiftl_spec_low by lia. apply andb_false_r.
        - by rewrite (proj1 (Z.bounded_iff_bits_nonneg' 32 r ltac:(lia) ltac:(lia)) Hr k ltac:(lia)). }
      rewrite <- Z.lxor_lor, <- Z.add_nocarry_lxor by done. done. }
    rewrite !Hlor by done. split; [intros [-> ->]; done|]. lia.
Qed.
End pending_order.

(** The order on socket addresses is a strict total order for the
    equality of addresses. *)
Theorem sockaddr_order :
  (∀ a, SockAddr.less a a = false) ∧
  (∀ a b c, SockAddr.less a b = true → SockAddr.less b c = true → SockAddr.less a c = true) ∧
  (∀ a b, SockAddr.less a b = true ∨ SockAddr.less b a = true ∨ a = b) ∧
  (∀ a b, SockAddr.equal a b = true ↔ a = b).
Proof.
  unfold SockAddr.less, SockAddr.equal. split; [|split; [|split]].
  - intros a. apply bool_decide_eq_false_2. lia.
  - intros a b c. rewrite !bool_decide_eq_true. lia.
  - intros [a1 a2] [b1 b2]. rewrite !bool_decide_eq_true. simpl.
    destruct (decide (a1 = b1)) as [->|]; [|lia]. destruct (decide (a2 = b2)) as [->|]; [auto|lia].
  - intros [a1 a2] [b1 b2]. rewrite bool_decide_eq_true. simpl. split; [by intros [-> ->]|by intros [= -> ->]].
Qed.
End IdProofs.
