(* ===== verification/ArrayMap.v ===== *)
(** * ArrayMap (common/ds/array_map.hh)

    Two parallel vectors searched linearly.  Each member runs under the lock
    and is one step.  [values] holds pointers; the pointer that a member
    deletes is part of its result.  While no key is inserted twice the
    structure is a finite map, and [operator[]] enumerates it. *)

From S2P Require Export Prelude.

Module ArrayMap.
Section array_map.
Context {KeyType V : Type} `{Countable KeyType}.

Record ArrayMap := MkMap {
  keys : list KeyType;
  values : list V;
  needsDelete : bool;
}.

Definition new : ArrayMap := MkMap [] [] true.

(** [indexOf]: the last position of the key; the loop goes through all keys to
    report duplicates. *)
Fixpoint indexOf_from (ks : list KeyType) (key : KeyType) (i ret : Z) : Z :=
  match ks with
  | [] => ret
  | k :: ks' => indexOf_from ks' key (i + 1) (if decide (k = key) then i else ret)
  end.
Definition indexOf (m : ArrayMap) (key : KeyType) : Z := indexOf_from (keys m) key 0 (-1).

(** [get( key, indexPtr )]: the value and the index. *)
Definition get (m : ArrayMap) (key : KeyType) : option (option V * Z) :=
  let index := indexOf m key in
  if decide (index = -1) then Some (None, index) else v ← zget (values m) index; Some (Some v, index).

Definition at_index (m : ArrayMap) (index : Z) : option V := zget (values m) index.

Definition replaceKey (m : ArrayMap) (oldKey newKey : KeyType) : option (bool * ArrayMap) :=
  let index := indexOf m oldKey in
  if decide (index = -1) then Some (false, m)
  else ks ← zset (keys m) index newKey; Some (true, MkMap ks (values m) (needsDelete m)).

Definition size (m : ArrayMap) : Z := zlen (values m).

Definition set (m : ArrayMap) (key : KeyType) (value : V) (check : bool) : bool * ArrayMap :=
  if check && bool_decide (indexOf m key ≠ -1) then (false, m)
  else (true, MkMap (keys m ++ [key]) (values m ++ [value]) (needsDelete m)).

(** [set( index, key, value )] returns the value it replaces. *)
Definition set_at (m : ArrayMap) (index : Z) (key : KeyType) (value : V) : option (V * ArrayMap) :=
  ks ← zset (keys m) index key;
  ret ← zget (values m) index;
  vs ← zset (values m) index value;
  Some (ret, MkMap ks vs (needsDelete m)).

(** [erase( begin() + index )]. *)
Definition erase {A} (l : list A) (index : Z) : option (list A) :=
  if decide (0 ≤ index < zlen l) then Some (delete (Z.to_nat index) l) else None.

(** The second component is the value that is deleted. *)
Definition removeAt (m : ArrayMap) (index : Z) : option (bool * option V * ArrayMap) :=
  val ← zget (values m) index;
  ks ← erase (keys m) index;
  vs ← erase (values m) index;
  Some (true, if needsDelete m then Some val else None, MkMap ks vs (needsDelete m)).

Definition remove (m : ArrayMap) (key : KeyType) : option (bool * option V * ArrayMap) :=
  let index := indexOf m key in
  if decide (index = -1) then Some (false, None, m) else removeAt m index.

Definition clear (m : ArrayMap) : list V * ArrayMap :=
  (if needsDelete m then values m else [], MkMap [] [] (needsDelete m)).

(** ** The map it stands for *)
Record represents (m : ArrayMap) (M : gmap KeyType V) : Prop := {
  re_len : length (keys m) = length (values m);
  re_nodup : NoDup (keys m);
  re_map : M = list_to_map (zip (keys m) (values m));
}.

Lemma indexOf_from_spec ks key i ret :
  0 ≤ i → NoDup ks →
  indexOf_from ks key i ret =
    match list_find (λ k, k = key) ks with Some (j, _) => i + Z.of_nat j | None => ret end.
Proof.
  revert i ret. induction ks as [|k ks IH]; intros i ret Hi Hnd; simpl; [done|].
  apply NoDup_cons in Hnd as [Hk Hnd]. rewrite IH by (done || lia). destruct (decide (k = key)) as [->|Hne].
  - destruct (list_find (λ k, k = key) ks) as [[j x]|] eqn:E; [|simpl; lia].
    apply list_find_Some in E as (Hj & -> & _). by apply list_elem_of_lookup_2 in Hj.
  - destruct (list_find (λ k, k = key) ks) as [[j x]|]; simpl; [lia|done].
Qed.

Lemma zget_nat {A} (l : list A) (j : nat) : zget l (Z.of_nat j) = l !! j.
Proof. unfold zget. by rewrite decide_True, Nat2Z.id by lia. Qed.

Lemma zip_fst (ks : list KeyType) (vs : list V) : length ks = length vs → (zip ks vs).*1 = ks.
Proof. intros. apply fst_zip. lia. Qed.

Lemma lookup_represents m M key :
  represents m M →
  match list_find (λ k, k = key) (keys m) with
  | Some (j, _) => ∃ v, values m !! j = Some v ∧ M !! key = Some v ∧ keys m !! j = Some key ∧
      indexOf m key = Z.of_nat j
  | None => M !! key = None ∧ indexOf m key = -1 ∧ key ∉ keys m
  end.
Proof.
  intros [Hlen Hnd ->]. unfold indexOf. rewrite indexOf_from_spec by done.
  destruct (list_find (λ k, k = key) (keys m)) as [[j x]|] eqn:E.
  - apply list_find_Some in E as (Hj & -> & _).
    destruct (lookup_lt_is_Some_2 (values m) j) as [v Hv]; [rewrite <- Hlen; by eapply lookup_lt_Some|].
    exists v. split; [done|]. split; [|split; [done|lia]]. apply elem_of_list_to_map; [by rewrite zip_fst|].
    apply list_elem_of_lookup. exists j. apply lookup_zip_with_Some. eauto.
  - apply list_find_None in E. assert (Hnotin : key ∉ keys m).
    { intros Hin. rewrite Forall_forall in E. by apply (E key). }
    split; [|done]. apply not_elem_of_list_to_map. by rewrite zip_fst.
Qed.

Lemma represents_new : represents new ∅.
Proof. constructor; [done|constructor|done]. Qed.

Lemma map_set_represents m M key value :
  represents m M → M !! key = None → represents (set m key value false).2 (<[key := value]> M).
Proof.
  intros Hr Hnone. pose proof (lookup_represents m M key Hr) as Hl. destruct Hr as [Hlen Hnd HM].
  destruct (list_find _ _) as [[j x]|]; [destruct Hl as (v & _ & Hs & _); congruence|]. destruct Hl as (_ & _ & Hnotin).
  constructor; simpl.
  - rewrite !length_app. simpl. lia.
  - apply NoDup_app. split; [done|]. split; [|apply NoDup_singleton].
    intros k Hk ->%list_elem_of_singleton. done.
  - rewrite zip_with_app by done. simpl. rewrite list_to_map_snoc by (by rewrite zip_fst). by rewrite HM.
Qed.

(** The entry at position [j] and the others. *)
Lemma split_represents m M j key v :
  represents m M → keys m !! j = Some key → values m !! j = Some v →
  ∃ k1 k2 v1 v2, keys m = k1 ++ key :: k2 ∧ values m = v1 ++ v :: v2 ∧ length k1 = j ∧ length v1 = j ∧
    length k2 = length v2 ∧ NoDup (k1 ++ k2) ∧ (key ∉ k1 ++ k2) ∧
    M = <[key := v]> (list_to_map (zip (k1 ++ k2) (v1 ++ v2))).
Proof.
  intros [Hlen Hnd HM] Hj Hv.
  pose proof (lookup_lt_Some _ _ _ Hj). pose proof (lookup_lt_Some _ _ _ Hv).
  exists (take j (keys m)), (drop (S j) (keys m)), (take j (values m)), (drop (S j) (values m)).
  pose proof (take_drop_middle _ _ _ Hj) as Hks. pose proof (take_drop_middle _ _ _ Hv) as Hvs.
  assert (Ht : length (take j (keys m)) = length (take j (values m))) by (rewrite !length_take; lia).
  rewrite <- Hks in Hnd. rewrite <- Permutation_middle in Hnd. apply NoDup_cons in Hnd as [Hnotin Hnd].
  split; [done|]. split; [done|]. split; [rewrite length_take; lia|]. split; [rewrite length_take; lia|].
  split; [rewrite !length_drop; lia|]. split; [done|]. split; [done|].
  rewrite HM. rewrite <- Hks at 1. rewrite <- Hvs at 1. rewrite !zip_with_app by done. simpl.
  change (<[key := v]> (list_to_map (M := gmap KeyType V) (zip (take j (keys m)) (take j (values m)) ++ zip (drop (S j) (keys m)) (drop (S j) (values m)))))
    with (list_to_map (M := gmap KeyType V) ((key, v) :: zip (take j (keys m)) (take j (values m)) ++ zip (drop (S j) (keys m)) (drop (S j) (values m)))).
  apply list_to_map_proper; [|by rewrite Permutation_middle].
  rewrite fmap_app, fmap_cons. simpl. rewrite !fst_zip by (rewrite ?length_take, ?length_drop; lia).
  rewrite <- Permutation_middle. by constructor.
Qed.

Lemma erase_represents m M j key v :
  represents m M → keys m !! j = Some key → values m !! j = Some v →
  represents (MkMap (delete j (keys m)) (delete j (values m)) (needsDelete m)) (delete key M).
Proof.
  intros Hr Hj Hv. destruct (split_represents m M j key v Hr Hj Hv) as (k1 & k2 & v1 & v2 & Hks & Hvs & <- & Hv1 & Hl & Hnd & Hnot & ->).
  rewrite Hks, Hvs, delete_middle, <- Hv1, delete_middle.
  constructor; simpl; [rewrite !length_app; lia|done|]. rewrite delete_insert_eq. apply delete_id.
  apply not_elem_of_list_to_map. by rewrite zip_fst by (rewrite !length_app; lia).
Qed.

Lemma replace_represents m M j key key' v :
  represents m M → keys m !! j = Some key → values m !! j = Some v → M !! key' = None →
  represents (MkMap (<[j := key']> (keys m)) (values m) (needsDelete m)) (<[key' := v]> (delete key M)).
Proof.
  intros Hr Hj Hv Hnew. destruct (split_represents m M j key v Hr Hj Hv) as (k1 & k2 & v1 & v2 & Hks & Hvs & <- & Hv1 & Hl & Hnd & Hnot & ->).
  assert (Hk' : key' ∉ k1 ++ k2).
  { apply lookup_insert_None in Hnew as [Hnew _]. apply not_elem_of_list_to_map in Hnew.
    by rewrite zip_fst in Hnew by (rewrite !length_app; lia). }
  rewrite Hks, Hvs. replace (<[length k1 := key']> (k1 ++ key :: k2)) with (k1 ++ key' :: k2).
  2:{ rewrite insert_app_r_alt by lia. by rewrite Nat.sub_diag. }
  constructor; simpl; [rewrite !length_app; simpl; lia| |].
  - rewrite <- Permutation_middle. by constructor.
  - rewrite delete_insert_eq, delete_id.
    2:{ apply not_elem_of_list_to_map. by rewrite zip_fst by (rewrite !length_app; lia). }
    rewrite !zip_with_app by done. simpl.
    change (<[key' := v]> (list_to_map (M := gmap KeyType V) (zip k1 v1 ++ zip k2 v2)))
      with (list_to_map (M := gmap KeyType V) ((key', v) :: zip k1 v1 ++ zip k2 v2)).
    apply list_to_map_proper; [|by rewrite Permutation_middle].
    simpl. rewrite fmap_app, !fst_zip by lia. by constructor.
Qed.

(** ** Properties *)

(** An [ArrayMap] whose keys are distinct is a finite map: [get] finds
    exactly the entries and a position at which [operator[]] gives the value;
    [set] with the check refuses a key that is present and otherwise inserts;
    [remove] deletes the entry, hands its value to [delete] when
    [needsDelete], and reports whether there was one; [replaceKey] moves an
    entry to a key that is absent; [clear] empties the map; [size] counts. *)
Theorem array_map_refines (m : ArrayMap) (M : gmap KeyType V) (key key' : KeyType) (value : V) :
  represents m M → M !! key' = None →
  represents new ∅ ∧ size m = Z.of_nat (base.size M) ∧
  (∃ i, get m key = Some (M !! key, i) ∧ (is_Some (M !! key) → at_index m i = M !! key)) ∧
  (∃ m', set m key value true = (bool_decide (M !! key = None), m') ∧
     represents m' (if decide (M !! key = None) then <[key := value]> M else M)) ∧
  (∃ m', remove m key = Some (bool_decide (is_Some (M !! key)), (if needsDelete m then M !! key else None), m') ∧
     represents m' (delete key M)) ∧
  (∃ m', replaceKey m key key' = Some (bool_decide (is_Some (M !! key)), m') ∧
     represents m' (match M !! key with Some v => <[key' := v]> (delete key M) | None => M end)) ∧
  represents (clear m).2 ∅.
Proof.
  intros Hr Hnew. pose proof (lookup_represents m M key Hr) as Hl. split; [apply represents_new|]. split; [|split; [|split; [|split; [|split]]]].
  - destruct Hr as [Hlen Hnd ->]. unfold size, zlen. f_equal. rewrite map_size_list_to_map by (by rewrite zip_fst).
    rewrite length_zip_with. rewrite Hlen. lia.
  - unfold get. destruct (list_find _ _) as [[j x]|].
    + destruct Hl as (v & Hv & -> & Hj & ->). rewrite decide_False, zget_nat, Hv by lia. simpl.
      eexists. split; [done|]. intros _. unfold at_index. by rewrite zget_nat.
    + destruct Hl as (-> & -> & _). eexists. split; [done|]. intros [? ?]. done.
  - unfold set. simpl. destruct (list_find _ _) as [[j x]|].
    + destruct Hl as (v & Hv & -> & Hj & ->). rewrite bool_decide_eq_true_2 by lia. eexists. split; [done|]. by rewrite decide_False.
    + destruct Hl as (Hn & -> & _). rewrite Hn. eexists. split; [done|]. simpl. by apply (map_set_represents m M key value).
  - unfold remove. destruct (list_find _ _) as [[j x]|].
    + destruct Hl as (v & Hv & HMk & Hj & ->). rewrite HMk. rewrite decide_False by lia. unfold removeAt, erase.
      rewrite zget_nat, Hv. cbn [mbind option_bind].
      pose proof (lookup_lt_Some _ _ _ Hj). pose proof (lookup_lt_Some _ _ _ Hv).
      rewrite !decide_True, Nat2Z.id by (unfold zlen; lia). cbn [mbind option_bind].
      eexists. split; [done|]. by apply (erase_represents m M j key v).
    + destruct Hl as (HMk & -> & _). rewrite HMk. rewrite decide_True by done. exists m.
      split; [by destruct (needsDelete m)|]. by rewrite delete_id.
  - unfold replaceKey. destruct (list_find _ _) as [[j x]|].
    + destruct Hl as (v & Hv & HMk & Hj & ->). rewrite HMk. rewrite decide_False by lia.
      pose proof (lookup_lt_Some _ _ _ Hj). rewrite zset_Some by (unfold zlen; lia). simpl. rewrite Nat2Z.id.
      eexists. split; [done|]. by apply replace_represents.
    + destruct Hl as (HMk & -> & _). rewrite HMk. rewrite decide_True by done. exists m. done.
  - constructor; [done|constructor|done].
Qed.
End array_map.
Arguments ArrayMap : clear implicits.

Lemma array_map_refines_witness :
  ∃ m', remove (set (set new 2 20 false).2 1 10 false).2 1 = Some (true, Some 10, m') ∧ represents m' (delete 1 {[ 1 := 10; 2 := 20 ]}).
Proof.
  assert (Hr : represents (set (set new 2 20 false).2 1 10 false).2 {[ 1 := 10; 2 := 20 ]}).
  { apply (map_set_represents _ {[ 2 := 20 ]} 1 10); [|done]. apply (map_set_represents _ ∅ 2 20); [apply represents_new|done]. }
  destruct (array_map_refines _ _ 1 3 30 Hr ltac:(done)) as (_ & _ & _ & _ & (m' & Hm & Hm') & _). exists m'. split; [exact Hm|done].
Defined.
End ArrayMap.
