(* ===== verification/Ring.v ===== *)
(** * Ring buffers (common/ds/ring_buffer.hh, common/ds/memory_pool.hh)

    [RingBuffer], the bounded queue under every event queue, and [MemoryPool],
    the pool of objects whose free list is kept in a ring.  Both advance their
    indices with the same [nextVal]; what they share is proved first.  Each
    operation runs under the object's mutex and is one atomic step; a call
    that would wait on a condition variable is the result [Blocked]. *)

From S2P Require Export Words.

(** The outcome of a call that may have to wait. *)
Inductive outcome (A : Type) : Type :=
  | Done (a : A)
  | Blocked.
Arguments Done {A} a.
Arguments Blocked {A}.

(** [nextVal] of both classes. *)
Definition nextVal (max x : Z) : Z := if decide (max ≤ x + 1) then 0 else x + 1.

Module RingBuffer.

(** A slot: the length given to [Insert] and the bytes of [T]. *)
Record Buffer_t := MkBuffer { len : Z; data : list byte }.

Record RingBuffer := MkRing {
  buffer : list Buffer_t;
  readIndex : Z;
  writeIndex : Z;
  count : Z;
  max : Z;
  run : bool;
  blockOnEmpty : bool;
}.

(** The constructor; [raw] is what [new Buffer_t[ size ]] finds in memory. *)
Definition RingBuffer_new (raw : Z → Buffer_t) (size : Z) (block : bool) : RingBuffer :=
  let size := if decide (size < 2) then 2 else size in
  MkRing (raw <$> seqZ 0 size) 0 0 0 size true block.

Definition Insert (r : RingBuffer) (d : list byte) (l : Z) : option (outcome RingBuffer) :=
  if decide (count r = max r) then Some Blocked
  else
    slot ← zget (buffer r) (writeIndex r);
    src ← slice d 0 l;
    dst ← splice (data slot) 0 src;
    buf ← zset (buffer r) (writeIndex r) (MkBuffer l dst);
    Some (Done (MkRing buf (readIndex r) (nextVal (max r) (writeIndex r)) (count r + 1)
      (max r) (run r) (blockOnEmpty r))).

(** [Extract] into [d]: [None] is the return value -1. *)
Definition Extract (r : RingBuffer) (d : list byte) : option (outcome (option (RingBuffer * list byte))) :=
  if decide (count r = 0) then
    Some (if negb (blockOnEmpty r) || negb (run r) then Done None else Blocked)
  else
    slot ← zget (buffer r) (readIndex r);
    src ← slice (data slot) 0 (len slot);
    d ← splice d 0 src;
    Some (Done (Some (MkRing (buffer r) (nextVal (max r) (readIndex r)) (writeIndex r) (count r - 1)
      (max r) (run r) (blockOnEmpty r), d))).

Definition GetCount (r : RingBuffer) : Z := count r.

(** [Stop] clears [run] at once and then waits until the queue is empty. *)
Definition Stop (r : RingBuffer) : RingBuffer * outcome unit :=
  let r := MkRing (buffer r) (readIndex r) (writeIndex r) (count r) (max r) false (blockOnEmpty r) in
  (r, if decide (0 < count r) then Blocked else Done ()).
End RingBuffer.

Module MemoryPool.
Section pool.
Context {T : Type}.

(** [poolBackup] keeps the original pointers for the destructor. *)
Record MemoryPool := MkPool {
  readIndex : Z;
  writeIndex : Z;
  count : Z;
  capacity : Z;
  pool : list T;
  poolBackup : list T;
}.

(** [getCapacity( space, extra )], [sizeof( T )] being [size_T]. *)
Definition getCapacity (size_T space extra : Z) : option Z :=
  let size := u64 (size_T + extra) in
  if decide (size = 0) then None else Some (space / size).

(** [init]: [objs] are the [capacity] objects that [new] returns. *)
Definition init (objs : list T) : MemoryPool := MkPool 0 0 0 (zlen objs) objs objs.

Definition take_one (p : MemoryPool) : option (MemoryPool * T) :=
  x ← zget (pool p) (readIndex p);
  Some (MkPool (nextVal (capacity p) (readIndex p)) (writeIndex p) (count p + 1) (capacity p) (pool p) (poolBackup p), x).

Fixpoint take_many (cnt : nat) (p : MemoryPool) (acc : list T) : option (MemoryPool * list T) :=
  match cnt with
  | O => Some (p, acc)
  | S cnt' => '(p, x) ← take_one p; take_many cnt' p (acc ++ [x])
  end.

(** [malloc( buffer, count, wait )].  Without a buffer one object is taken,
    whatever [count] is; with one, [count] of them unless [count] is 0.
    [Done None] is the null pointer. *)
Definition malloc (p : MemoryPool) (buffer : bool) (cnt : Z) (wait : bool) : option (outcome (option (MemoryPool * list T))) :=
  if decide (capacity p < u64 (count p + cnt)) then Some (if wait then Blocked else Done None)
  else if buffer && bool_decide (cnt ≠ 0) then
    '(p, xs) ← take_many (Z.to_nat cnt) p []; Some (Done (Some (p, xs)))
  else '(p, x) ← take_one p; Some (Done (Some (p, [x]))).

(** [free( buffer )], with its assertion. *)
Definition free (p : MemoryPool) (x : T) : option MemoryPool :=
  if decide (count p = 0) then None
  else
    pool' ← zset (pool p) (writeIndex p) x;
    Some (MkPool (readIndex p) (nextVal (capacity p) (writeIndex p)) (count p - 1) (capacity p) pool' (poolBackup p)).

(** [free( buffer, count )] returns the number of objects freed. *)
Fixpoint free_many (p : MemoryPool) (xs : list T) : option (MemoryPool * Z) :=
  match xs with
  | [] => Some (p, 0)
  | x :: xs' => p ← free p x; '(p, ret) ← free_many p xs'; Some (p, ret + 1)
  end.

Definition getCount (p : MemoryPool) : Z := count p.
End pool.
Arguments MemoryPool : clear implicits.
End MemoryPool.

(** ** Rings *)

(** The elements [q] lie in consecutive places of the ring from [start]. *)
Definition ring_holds {A} (buf : list A) (start : Z) (q : list A) : Prop :=
  ∀ i x, q !! i = Some x → zget buf ((start + Z.of_nat i) mod zlen buf) = Some x.

Lemma nextVal_mod max x : 0 ≤ x < max → nextVal max x = (x + 1) mod max.
Proof.
  intros H. unfold nextVal. case_decide.
  - assert (x + 1 = max) as -> by lia. by rewrite Z_mod_same_full.
  - by rewrite Z.mod_small by lia.
Qed.

Lemma nextVal_range max x : 0 ≤ x < max → 0 ≤ nextVal max x < max.
Proof. intros. unfold nextVal. case_decide; lia. Qed.

Lemma ring_shift n start i : 0 < n → ((start + 1) mod n + i) mod n = (start + (i + 1)) mod n.
Proof. intros. rewrite Zplus_mod_idemp_l. f_equal. lia. Qed.

(** Two different places fewer than [n] apart are different slots. *)
Lemma ring_neq n start i j : 0 ≤ i < n → 0 ≤ j < n → (start + i) mod n = (start + j) mod n → i = j.
Proof.
  intros Hi Hj Heq. assert (Hn : 0 < n) by lia.
  pose proof (Z.div_mod (start + i) n ltac:(lia)). pose proof (Z.div_mod (start + j) n ltac:(lia)).
  rewrite Heq in *. assert (Hd : n * ((start + i) / n) - n * ((start + j) / n) = i - j) by lia.
  assert ((start + i) / n = (start + j) / n) by nia. nia.
Qed.

Section rings.
Context {A : Type}.
Implicit Types (buf q : list A).

Lemma ring_push buf start q x buf' :
  ring_holds buf start q → zlen q < zlen buf → zset buf ((start + zlen q) mod zlen buf) x = Some buf' →
  ring_holds buf' start (q ++ [x]).
Proof.
  intros Hq Hlen Hset i y Hy. rewrite (zset_zlen _ _ _ _ Hset). apply lookup_app_Some in Hy as [Hy|[Hge Hy]].
  - rewrite (zset_get_ne _ _ _ _ _ Hset); [by apply Hq|]. intros Heq.
    apply lookup_lt_Some in Hy. unfold zlen in *. apply ring_neq in Heq; lia.
  - destruct (i - length q)%nat as [|i'] eqn:E; [|done]. injection Hy as <-.
    replace (Z.of_nat i) with (zlen q) by (unfold zlen; lia). by eapply zset_get_eq.
Qed.

Lemma ring_pop buf start x q :
  0 < zlen buf → ring_holds buf start (x :: q) →
  zget buf (start mod zlen buf) = Some x ∧ ring_holds buf ((start + 1) mod zlen buf) q.
Proof.
  intros Hn Hq. split.
  - specialize (Hq 0%nat x eq_refl). by rewrite Z.add_0_r in Hq.
  - intros i y Hy. rewrite ring_shift by done.
    specialize (Hq (S i) y Hy). by replace (Z.of_nat i + 1) with (Z.of_nat (S i)) by lia.
Qed.

Lemma ring_write_range buf start q : 0 < zlen buf → 0 ≤ (start + zlen q) mod zlen buf < zlen buf.
Proof. intros. by apply Z.mod_pos_bound. Qed.
End rings.

(** ** RingBuffer is a bounded first-in first-out queue of byte strings *)
Module RingBufferProofs.
Import RingBuffer.

(** The slot holds the byte string [d]. *)
Definition slot_holds (s : Buffer_t) (d : list byte) : Prop := len s = zlen d ∧ take (length d) (data s) = d.

(** [r] stands for the queue [q]; [sz] is the size of [T]. *)
Record rep (sz : Z) (r : RingBuffer) (q : list (list byte)) : Prop := {
  rep_len : zlen (buffer r) = max r;
  rep_max : 2 ≤ max r;
  rep_read : 0 ≤ readIndex r < max r;
  rep_count : count r = zlen q;
  rep_full : zlen q ≤ max r;
  rep_write : writeIndex r = (readIndex r + zlen q) mod max r;
  rep_slots : Forall (λ s, zlen (data s) = sz) (buffer r);
  rep_data : ∃ ss, ring_holds (buffer r) (readIndex r) ss ∧ Forall2 slot_holds ss q;
}.

Lemma new_rep sz raw size block :
  (∀ i, zlen (data (raw i)) = sz) → rep sz (RingBuffer_new raw size block) [].
Proof.
  intros Hraw. unfold RingBuffer_new. set (n := if decide (size < 2) then 2 else size).
  assert (Hn : 2 ≤ n) by (subst n; case_decide; lia). constructor; simpl; try done; try lia.
  - unfold zlen; rewrite length_fmap, length_seqZ; lia.
  - unfold zlen; simpl; lia.
  - apply Forall_fmap, Forall_true. intros i. apply Hraw.
  - exists []. split; [intros i x; done|constructor].
Qed.

Lemma insert_rep sz r q d rest :
  rep sz r q → zlen q < max r → zlen d ≤ sz →
  ∃ r', Insert r (d ++ rest) (zlen d) = Some (Done r') ∧ rep sz r' (q ++ [d]) ∧ max r' = max r ∧
    run r' = run r ∧ blockOnEmpty r' = blockOnEmpty r.
Proof.
  intros [Hl Hm Hr Hc _ Hw Hs (ss & Hh & Hss)] Hlt Hd. unfold Insert. rewrite decide_False by lia.
  assert (Hwr : 0 ≤ writeIndex r < max r) by (rewrite Hw; apply Z.mod_pos_bound; lia).
  destruct (zget_is_Some (buffer r) (writeIndex r)) as [slot Hslot]; [lia|]. rewrite Hslot. cbn [mbind option_bind].
  change (d ++ rest) with ([] ++ d ++ rest). rewrite (slice_app_mid [] d rest) by done. cbn [mbind option_bind].
  assert (Hsz : zlen (data slot) = sz).
  { rewrite Forall_lookup in Hs. apply (Hs (Z.to_nat (writeIndex r))). unfold zget in Hslot. by rewrite decide_True in Hslot by lia. }
  destruct (splice_is_Some (data slot) 0 d) as [dst Hdst]; [lia|lia|]. rewrite Hdst. cbn [mbind option_bind].
  rewrite zset_Some by lia. cbn [mbind option_bind]. set (buf := <[_:=_]> _).
  assert (Hset : zset (buffer r) (writeIndex r) (MkBuffer (zlen d) dst) = Some buf) by (apply zset_Some; lia).
  pose proof (Forall2_length _ _ _ Hss) as Hlen.
  eexists. split; [done|]. split; [|done]. constructor; simpl; try done.
  - by rewrite (zset_zlen _ _ _ _ Hset).
  - unfold zlen in *. rewrite length_app. simpl. lia.
  - unfold zlen in *. rewrite length_app. simpl. lia.
  - rewrite nextVal_mod, Hw, Zplus_mod_idemp_l by lia. f_equal. unfold zlen. rewrite length_app. simpl. lia.
  - apply Forall_insert; [done|]. simpl. by rewrite (splice_zlen _ _ _ _ Hdst).
  - exists (ss ++ [MkBuffer (zlen d) dst]). split.
    + eapply ring_push; [done| |].
      * unfold zlen in *. lia.
      * rewrite Hl. replace (zlen ss) with (zlen q) by (unfold zlen; lia). rewrite <- Hw. done.
    + apply Forall2_app; [done|]. constructor; [|constructor]. split; [done|]. simpl.
      unfold splice in Hdst. rewrite decide_True in Hdst by lia. injection Hdst as <-.
      change (take (length d) (d ++ drop (Z.to_nat (0 + zlen d)) (data slot)) = d). by rewrite take_app_length.
Qed.

Lemma extract_rep sz r q d out :
  rep sz r (d :: q) → zlen d ≤ zlen out →
  ∃ r', Extract r out = Some (Done (Some (r', d ++ drop (length d) out))) ∧ rep sz r' q ∧ max r' = max r.
Proof.
  intros [Hl Hm Hr Hc Hf Hw Hs (ss & Hh & Hss)] Hd. unfold Extract.
  rewrite decide_False by (rewrite Hc; unfold zlen; simpl; lia).
  destruct ss as [|s ss]; [by apply Forall2_nil_cons_inv in Hss|].
  apply Forall2_cons in Hss as [[Hsl Hst] Hss].
  destruct (ring_pop (buffer r) (readIndex r) s ss) as [Hg Hh']; [lia|done|].
  rewrite Hl, Z.mod_small in Hg by lia. rewrite Hg. cbn [mbind option_bind].
  assert (Hsz : zlen d ≤ zlen (data s)) by (rewrite <- Hst at 1; unfold zlen; rewrite length_take; lia).
  rewrite Hsl, slice_Some by (unfold zlen in *; lia). cbn [mbind option_bind].
  replace (take _ (drop _ _)) with d by (unfold zlen; rewrite Nat2Z.id; done).
  unfold splice. rewrite decide_True by lia. cbn [mbind option_bind].
  replace (take _ out ++ d ++ _) with (d ++ drop (length d) out) by (unfold zlen; rewrite Z.add_0_l, Nat2Z.id; done).
  eexists. split; [done|]. split; [|done]. constructor; simpl; try done.
  - by apply nextVal_range.
  - rewrite Hc. unfold zlen. simpl. lia.
  - unfold zlen in *. simpl in Hf. lia.
  - rewrite nextVal_mod, Zplus_mod_idemp_l, Hw by lia. f_equal. unfold zlen. simpl. lia.
  - exists ss. split; [|done]. rewrite nextVal_mod by lia. by rewrite Hl in Hh'.
Qed.

(** C29: a [RingBuffer] is a FIFO queue of at most [max] elements, whatever the
    position of the indices: [Insert] appends the bytes it is given and waits
    exactly when the queue is full; [Extract] removes the oldest element into
    the caller's object, and on an empty queue waits or returns -1 as
    [blockOnEmpty] and [run] say; [GetCount] is the number of elements. *)
Theorem ring_buffer_fifo (sz : Z) (r : RingBuffer) (q : list (list byte)) :
  rep sz r q →
  GetCount r = zlen q ∧
  (∀ d rest, zlen d ≤ sz →
    (zlen q = max r → Insert r (d ++ rest) (zlen d) = Some Blocked) ∧
    (zlen q < max r → ∃ r', Insert r (d ++ rest) (zlen d) = Some (Done r') ∧ rep sz r' (q ++ [d]))) ∧
  (∀ out, match q with
    | [] => Extract r out = Some (if blockOnEmpty r && run r then Blocked else Done None)
    | d :: q' => zlen d ≤ zlen out →
        ∃ r', Extract r out = Some (Done (Some (r', d ++ drop (length d) out))) ∧ rep sz r' q'
    end).
Proof.
  intros Hr. split; [apply Hr|]. split.
  - intros d rest Hd. split.
    + intros Hfull. unfold Insert. by rewrite decide_True by (rewrite (rep_count _ _ _ Hr); done).
    + intros Hlt. destruct (insert_rep sz r q d rest Hr Hlt Hd) as (r' & ? & ? & _). eauto.
  - intros out. destruct q as [|d q'].
    + unfold Extract. rewrite decide_True by apply Hr. by destruct (blockOnEmpty r), (run r).
    + intros Hd. destruct (extract_rep sz r q' d out Hr Hd) as (r' & ? & ? & _). eauto.
Qed.

Lemma ring_buffer_fifo_witness :
  let r := RingBuffer_new (λ _, MkBuffer 0 [x00; x00]) 2 true in
  let d := [z2b 7; z2b 8] in
  ∃ r', Insert r (d ++ []) 2 = Some (Done r') ∧ rep 2 r' [d].
Proof.
  intros r d. assert (Hr : rep 2 r []) by by apply new_rep.
  destruct (ring_buffer_fifo 2 r [] Hr) as (_ & Hins & _).
  destruct (Hins d [] ltac:(done)) as [_ Hi]. apply Hi. done.
Defined.
End RingBufferProofs.

(** ** MemoryPool hands out every object at most once *)
Module MemoryPoolProofs.
Import MemoryPool.
Section proofs.
Context {T : Type}.
Implicit Types (p : MemoryPool T) (fr used objs : list T).

(** [fr] are the objects in the pool, oldest first. *)
Record rep p fr : Prop := {
  rep_len : zlen (pool p) = capacity p;
  rep_cap : 0 < capacity p < 2 ^ 63;
  rep_read : 0 ≤ readIndex p < capacity p;
  rep_count : count p = capacity p - zlen fr;
  rep_room : zlen fr ≤ capacity p;
  rep_write : writeIndex p = (readIndex p + zlen fr) mod capacity p;
  rep_ring : ring_holds (pool p) (readIndex p) fr;
}.

Lemma init_rep objs : 0 < zlen objs < 2 ^ 63 → rep (init objs) objs.
Proof.
  intros H. constructor; simpl; try done; try lia.
  - by rewrite Z_mod_same_full.
  - intros i x Hi. pose proof (lookup_lt_Some _ _ _ Hi). rewrite Z.mod_small by (unfold zlen; lia).
    unfold zget. rewrite decide_True by lia. by replace (Z.to_nat (0 + Z.of_nat i)) with i by lia.
Qed.

Lemma take_one_rep p x fr : rep p (x :: fr) →
  ∃ p', take_one p = Some (p', x) ∧ rep p' fr ∧ capacity p' = capacity p.
Proof.
  intros [Hl Hc Hr Hn Hroom Hw Hring].
  destruct (ring_pop (pool p) (readIndex p) x fr) as [Hg Hring']; [lia|done|].
  rewrite Hl, Z.mod_small in Hg by lia. unfold take_one. rewrite Hg. simpl.
  eexists. split; [done|]. split; [|done]. unfold zlen in *. simpl in *. constructor; simpl; unfold zlen; try done; try lia.
  - by apply nextVal_range.
  - rewrite nextVal_mod, Zplus_mod_idemp_l, Hw by lia. f_equal. lia.
  - rewrite nextVal_mod by lia. rewrite Hl in Hring'. done.
Qed.

Lemma take_many_rep xs p fr acc : rep p (xs ++ fr) →
  ∃ p', take_many (length xs) p acc = Some (p', acc ++ xs) ∧ rep p' fr ∧ capacity p' = capacity p.
Proof.
  revert p acc. induction xs as [|x xs IH]; intros p acc Hr; simpl.
  { exists p. by rewrite app_nil_r. }
  destruct (take_one_rep p x (xs ++ fr) Hr) as (p1 & -> & Hr1 & Hc1). cbn [mbind option_bind].
  destruct (IH p1 (acc ++ [x]) Hr1) as (p2 & -> & Hr2 & Hc2). exists p2. rewrite <- app_assoc. split; [done|]. split; [done|congruence].
Qed.

Lemma free_rep p fr x : rep p fr → zlen fr < capacity p →
  ∃ p', free p x = Some p' ∧ rep p' (fr ++ [x]) ∧ capacity p' = capacity p.
Proof.
  intros [Hl Hc Hr Hn Hroom Hw Hring] Hlt. unfold free. rewrite decide_False by lia.
  pose proof (ring_write_range (pool p) (readIndex p) fr ltac:(lia)) as Hwr.
  rewrite Hw, <- Hl. rewrite zset_Some by lia. simpl. set (buf := <[_:=_]> _).
  assert (Hset : zset (pool p) ((readIndex p + zlen fr) mod zlen (pool p)) x = Some buf) by by apply zset_Some.
  eexists. split; [done|]. split; [|done].
  assert (Hsnoc : zlen (fr ++ [x]) = zlen fr + 1) by (unfold zlen; rewrite length_app; simpl; lia).
  constructor; simpl; rewrite ?Hsnoc; try done; try lia.
  - by rewrite (zset_zlen _ _ _ _ Hset).
  - rewrite nextVal_mod, Zplus_mod_idemp_l by lia. f_equal. lia.
  - eapply ring_push; [done|lia|done].
Qed.

(** [malloc] of [n] objects when there are enough: with a buffer, [n] of them;
    without, one. *)
Lemma malloc_rep p fr b n w : rep p fr → 1 ≤ n ≤ zlen fr →
  ∃ p' xs fr', fr = xs ++ fr' ∧ zlen xs = (if b : bool then n else 1) ∧
    malloc p b n w = Some (Done (Some (p', xs))) ∧ rep p' fr' ∧ capacity p' = capacity p.
Proof.
  intros Hr Hn. pose proof Hr as [Hl Hc Hri Hct Hroom Hw Hring].
  unfold malloc. rewrite u64_small, decide_False by (unfold zlen in *; lia).
  rewrite (bool_decide_eq_true_2 (n ≠ 0)), andb_true_r by lia. destruct b.
  - pose proof (take_drop (Z.to_nat n) fr) as Hsplit. rewrite <- Hsplit in Hr.
    destruct (take_many_rep (take (Z.to_nat n) fr) p (drop (Z.to_nat n) fr) [] Hr) as (p' & Ht & Hr' & Hc').
    rewrite length_take, Nat.min_l in Ht by (unfold zlen in *; lia). rewrite Ht. cbn [mbind option_bind app].
    exists p', (take (Z.to_nat n) fr), (drop (Z.to_nat n) fr). split; [done|]. split; [zsolve|done].
  - destruct fr as [|x fr]; [unfold zlen in Hn; simpl in Hn; lia|].
    destruct (take_one_rep p x fr Hr) as (p' & -> & Hr' & Hc'). simpl. exists p', [x], fr. done.
Qed.

Lemma malloc_short p fr b n w : rep p fr → zlen fr < n < 2 ^ 63 →
  malloc p b n w = Some (if w then Blocked else Done None).
Proof.
  intros [Hl Hc Hri Hct Hroom Hw Hring] Hn. unfold malloc.
  rewrite u64_small, decide_True by (unfold zlen in *; lia). done.
Qed.

(** ** The pool and its callers

    A state is the pool and the objects that callers hold; callers free what
    they hold. *)
Definition config : Type := MemoryPool T * list T.

Inductive step : config → config → Prop :=
  | step_malloc p used b n w p' xs :
      1 ≤ n < 2 ^ 63 → malloc p b n w = Some (Done (Some (p', xs))) → step (p, used) (p', xs ++ used)
  | step_free p u1 x u2 p' :
      free p x = Some p' → step (p, u1 ++ x :: u2) (p', u1 ++ u2).

Definition pool_inv (objs : list T) (c : config) : Prop :=
  capacity c.1 = zlen objs ∧ ∃ fr, rep c.1 fr ∧ fr ++ c.2 ≡ₚ objs.

Lemma step_inv objs c c' : pool_inv objs c → step c c' → pool_inv objs c'.
Proof.
  intros (Hcap & fr & Hr & Hp) Hstep. destruct Hstep as [p used b n w p' xs Hn Hm|p u1 x u2 p' Hf]; simpl in *.
  - destruct (decide (n ≤ zlen fr)) as [Hle|Hgt].
    + destruct (malloc_rep p fr b n w Hr ltac:(lia)) as (p2 & xs2 & fr2 & -> & _ & Hm2 & Hr2 & Hc2).
      rewrite Hm in Hm2. injection Hm2 as <- <-. split; [simpl; congruence|]. exists fr2. split; [done|].
      cbn [snd]. rewrite <- Hp, (app_assoc fr2). by rewrite (Permutation_app_comm fr2).
    + rewrite (malloc_short p fr) in Hm by (done || lia). by destruct w.
  - assert (Hlt : zlen fr < capacity p).
    { rewrite Hcap. apply Permutation_length in Hp. unfold zlen. rewrite <- Hp, !length_app. simpl. lia. }
    destruct (free_rep p fr x Hr Hlt) as (p2 & Hf2 & Hr2 & Hc2). rewrite Hf in Hf2. injection Hf2 as <-.
    split; [simpl; congruence|]. exists (fr ++ [x]). split; [done|].
    rewrite <- Hp, <- app_assoc. apply Permutation_app_head. simpl. by rewrite Permutation_middle.
Qed.

Lemma reachable_inv objs c : 0 < zlen objs < 2 ^ 63 → rtc step (init objs, []) c → pool_inv objs c.
Proof.
  intros Hn Hrtc. assert (H0 : pool_inv objs (init objs, [])).
  { split; [done|]. exists objs. split; [by apply init_rep|]. by rewrite app_nil_r. }
  revert H0. induction Hrtc as [|c1 c2 c3 Hs _ IH]; [done|]. intros H1. apply IH. by eapply step_inv.
Qed.

(** C28: whatever the callers of a pool do, the objects they hold are distinct
    and come from the pool; a call of [malloc], with a buffer or without one,
    succeeds exactly when the [n] objects it asks for are left: it gives [n] of
    them with a buffer and one without, which nobody holds; otherwise it waits or
    returns the null pointer, as it was told.  Freeing what one holds never fails
    the assertion. *)
Theorem memory_pool_exclusive objs p used :
  NoDup objs → 0 < zlen objs < 2 ^ 63 → rtc step (init objs, []) (p, used) →
  NoDup used ∧ used ⊆ objs ∧ getCount p = zlen used ∧
  (∀ b n w, 1 ≤ n < 2 ^ 63 →
    if decide (n ≤ zlen objs - zlen used)
    then ∃ p' xs, malloc p b n w = Some (Done (Some (p', xs))) ∧ zlen xs = (if (b : bool) then n else 1) ∧ NoDup (xs ++ used) ∧ xs ⊆ objs
    else malloc p b n w = Some (if w then Blocked else Done None)) ∧
  (∀ x, x ∈ used → ∃ p', free p x = Some p').
Proof.
  intros Hnd Hn Hrtc. destruct (reachable_inv objs _ Hn Hrtc) as (Hcap & fr & Hr & Hp). simpl in *.
  assert (Hnd' : NoDup (fr ++ used)) by by rewrite Hp.
  assert (Hlen : zlen fr + zlen used = zlen objs).
  { apply Permutation_length in Hp. rewrite length_app in Hp. unfold zlen. lia. }
  split; [by apply NoDup_app in Hnd' as (_ & _ & ?)|].
  split; [intros x Hx; rewrite <- Hp; apply elem_of_app; by right|].
  split; [unfold getCount; rewrite (rep_count _ _ Hr); lia|]. split.
  - intros b n w Hn1. destruct (decide (n ≤ zlen objs - zlen used)) as [Hle|Hgt].
    + destruct (malloc_rep p fr b n w Hr ltac:(lia)) as (p' & xs & fr' & -> & Hxs & Hm & _).
      exists p', xs. split; [done|]. split; [done|]. rewrite <- app_assoc in Hnd', Hp. split.
      * rewrite (Permutation_app_comm fr'), (app_assoc xs) in Hnd'. by apply NoDup_app in Hnd' as (? & _).
      * intros x Hx. rewrite <- Hp. apply elem_of_app. by left.
    + apply (malloc_short p fr); [done|lia].
  - intros x Hx. destruct (free_rep p fr x Hr) as (p' & Hf & _); [|eauto].
    destruct used; [by apply elem_of_nil in Hx|]. unfold zlen in *. simpl in Hlen. lia.
Qed.
End proofs.

Lemma memory_pool_exclusive_witness :
  (∃ p' xs, malloc (init [10; 20; 30]) true 2 false = Some (Done (Some (p', xs))) ∧ NoDup (xs ++ [])) ∧
  (∃ p' xs, malloc (init [10; 20; 30]) false 1 true = Some (Done (Some (p', xs))) ∧ zlen xs = 1).
Proof.
  assert (Hnd : NoDup [10; 20; 30]) by (apply (bool_decide_unpack _); vm_compute; exact I).
  destruct (memory_pool_exclusive [10; 20; 30] (init [10; 20; 30]) [] Hnd ltac:(done) ltac:(apply rtc_refl)) as (_ & _ & _ & Hm & _).
  split.
  - specialize (Hm true 2 false ltac:(lia)). rewrite decide_True in Hm by (unfold zlen; simpl; lia).
    destruct Hm as (p' & xs & H1 & _ & H2 & _). eauto.
  - specialize (Hm false 1 true ltac:(lia)). rewrite decide_True in Hm by (unfold zlen; simpl; lia).
    destruct Hm as (p' & xs & H1 & H2 & _). eauto.
Defined.
End MemoryPoolProofs.
