(* ===== verification/EventQueue.v ===== *)
(** * Event queues (common/event/event_queue.hh)

    [BasicEventQueueT], a ring buffer that can be started and stopped, and
    [EventQueue] with its second, prioritized queue.  The program is
    multi-threaded: the pieces of [prioritizedInsert] and [extractMixed]
    between two lock operations are functions, the members run them in
    sequence, and a step relation interleaves any number of threads running
    them.  Events are byte strings of [sizeof( EventType )] bytes. *)

From S2P Require Export Ring.

Module BasicEventQueue.

Record BasicEventQueueT := MkBasic {
  size : Z;
  block : bool;
  isRunning : bool;
  queue : RingBuffer.RingBuffer;
}.

Definition new (raw : Z → RingBuffer.Buffer_t) (size : Z) (block : bool) : BasicEventQueueT :=
  MkBasic size block false (RingBuffer.RingBuffer_new raw size block).

Definition set_queue (q : BasicEventQueueT) (r : RingBuffer.RingBuffer) : BasicEventQueueT :=
  MkBasic (size q) (block q) (isRunning q) r.

Definition start (q : BasicEventQueueT) : BasicEventQueueT := MkBasic (size q) (block q) true (queue q).

(** [stop]: the ring refuses to wait at once; [isRunning] is cleared when it
    has become empty. *)
Definition stop (q : BasicEventQueueT) : BasicEventQueueT * outcome unit :=
  if isRunning q then
    let '(r, o) := RingBuffer.Stop (queue q) in
    match o with
    | Done _ => (MkBasic (size q) (block q) false r, Done ())
    | Blocked => (set_queue q r, Blocked)
    end
  else (q, Done ()).

Definition insert (q : BasicEventQueueT) (event : list byte) : option (outcome (BasicEventQueueT * bool)) :=
  if isRunning q then
    o ← RingBuffer.Insert (queue q) event (zlen event);
    Some (match o with Done r => Done (set_queue q r, true) | Blocked => Blocked end)
  else Some (Done (q, false)).

(** [extract( event )]: [None] is the return value false. *)
Definition extract (q : BasicEventQueueT) (event : list byte) : option (outcome (option (BasicEventQueueT * list byte))) :=
  o ← RingBuffer.Extract (queue q) event;
  Some (match o with
        | Done (Some (r, event)) => Done (Some (set_queue q r, event))
        | Done None => Done None
        | Blocked => Blocked
        end).

Definition count (q : BasicEventQueueT) : Z := RingBuffer.GetCount (queue q).
End BasicEventQueue.

Module EventQueue.
Import BasicEventQueue.

Record EventQueue := MkQueue {
  mixed : BasicEventQueueT;
  pmixed : option BasicEventQueueT;
  pcapacity : Z;
  pcount : Z;
}.

(** [init( block, mixed, pMixed )]. *)
Definition init (raw : Z → RingBuffer.Buffer_t) (block : bool) (mixed pMixed : Z) : EventQueue :=
  MkQueue (BasicEventQueue.new raw mixed block)
    (if decide (pMixed ≠ 0) then Some (BasicEventQueue.new raw pMixed false) else None) pMixed 0.

Definition set_mixed (q : EventQueue) (m : BasicEventQueueT) : EventQueue := MkQueue m (pmixed q) (pcapacity q) (pcount q).
Definition set_pmixed (q : EventQueue) (p : BasicEventQueueT) : EventQueue := MkQueue (mixed q) (Some p) (pcapacity q) (pcount q).
Definition set_pcount (q : EventQueue) (c : Z) : EventQueue := MkQueue (mixed q) (pmixed q) (pcapacity q) c.

Definition start (q : EventQueue) : EventQueue :=
  MkQueue (BasicEventQueue.start (mixed q)) (BasicEventQueue.start <$> pmixed q) (pcapacity q) (pcount q).

(** [insert( event )] of the normal queue. *)
Definition insert (q : EventQueue) (event : list byte) : option (outcome (EventQueue * bool)) :=
  o ← BasicEventQueue.insert (mixed q) event;
  Some (match o with Done (m, ret) => Done (set_mixed q m, ret) | Blocked => Blocked end).

(** The pieces of [prioritizedInsert]: take one of the [pcapacity] places of
    the prioritized queue, under the lock; *)
Definition reserve (q : EventQueue) : option EventQueue :=
  if decide (pcount q < pcapacity q) then Some (set_pcount q (u32 (pcount q + 1))) else None.
(** insert the event there, still under the lock; *)
Definition enqueue (q : EventQueue) (event : list byte) : option (outcome (EventQueue * bool)) :=
  p ← pmixed q;
  o ← BasicEventQueue.insert p event;
  Some (match o with Done (p, ret) => Done (set_pmixed q p, ret) | Blocked => Blocked end).
(** and, the lock released, put an empty event into the normal queue when it
    has become shorter than it was. *)
Definition nudge (q : EventQueue) (count : Z) (empty : list byte) : option (outcome EventQueue) :=
  if decide (BasicEventQueue.count (mixed q) < count) then
    o ← insert q empty;
    Some (match o with Done (q, _) => Done q | Blocked => Blocked end)
  else Some (Done q).

(** [prioritizedInsert( event )], [locked] being whether [TRY_LOCK] succeeds. *)
Definition prioritizedInsert (q : EventQueue) (event empty : list byte) (locked : bool) : option (outcome (EventQueue * bool)) :=
  let count := BasicEventQueue.count (mixed q) in
  if bool_decide (count ≠ 0) && locked then
    match reserve q with
    | Some q =>
        o ← enqueue q event;
        match o with
        | Done (q, ret) =>
            o ← nudge q count empty;
            Some (match o with Done q => Done (q, ret) | Blocked => Blocked end)
        | Blocked => Some Blocked
        end
    | None => insert q event
    end
  else insert q event.

(** The pieces of [extractMixed]: the attempt on the prioritized queue, the
    release of its place, and the normal queue. *)
Definition extract_priority (q : EventQueue) (event : list byte) : option (outcome (option (EventQueue * list byte))) :=
  match pmixed q with
  | None => Some (Done None)
  | Some p =>
      o ← extract p event;
      Some (match o with
            | Done (Some (p, event)) => Done (Some (set_pmixed q p, event))
            | Done None => Done None
            | Blocked => Blocked
            end)
  end.
Definition release (q : EventQueue) : EventQueue := set_pcount q (u32 (pcount q - 1)).
Definition extract_normal (q : EventQueue) (event : list byte) : option (outcome (option (EventQueue * list byte))) :=
  o ← extract (mixed q) event;
  Some (match o with
        | Done (Some (m, event)) => Done (Some (set_mixed q m, event))
        | Done None => Done None
        | Blocked => Blocked
        end).

Definition extractMixed (q : EventQueue) (event : list byte) : option (outcome (option (EventQueue * list byte))) :=
  o ← extract_priority q event;
  match o with
  | Done (Some (q, event)) => Some (Done (Some (release q, event)))
  | Done None => extract_normal q event
  | Blocked => Some Blocked
  end.

(** ** Threads *)

(** Where a thread is inside [prioritizedInsert] or [extractMixed]. *)
Inductive thread : Type :=
  | InsertStart (event : list byte)
  | InsertCounted (event : list byte) (count : Z)
  | InsertReserved (event : list byte) (count : Z)
  | InsertUnlock (count : Z)
  | InsertNudge (count : Z)
  | InsertNormal (event : list byte)
  | ExtractStart (event : list byte)
  | ExtractRelease (event : list byte)
  | ExtractNormal (event : list byte)
  | Finished.

(** The queue, its lock, and the threads. *)
Record config := MkConfig { evq : EventQueue; lock : bool; threads : list thread }.

(** One atomic step of a thread. *)
Inductive thread_step (empty : list byte) : EventQueue → bool → thread → EventQueue → bool → thread → Prop :=
  | st_count q l e :
      thread_step empty q l (InsertStart e) q l (InsertCounted e (BasicEventQueue.count (mixed q)))
  | st_trylock_fail q e c :
      (* no normal event is waiting, or the lock is held *)
      thread_step empty q true (InsertCounted e c) q true (InsertNormal e)
  | st_idle q l e :
      thread_step empty q l (InsertCounted e 0) q l (InsertNormal e)
  | st_reserve q e c q' : c ≠ 0 → reserve q = Some q' →
      thread_step empty q false (InsertCounted e c) q' true (InsertReserved e c)
  | st_no_room q e c : c ≠ 0 → reserve q = None →
      thread_step empty q false (InsertCounted e c) q false (InsertNormal e)
  | st_enqueue q l e c q' ret : enqueue q e = Some (Done (q', ret)) →
      thread_step empty q l (InsertReserved e c) q' l (InsertUnlock c)
  | st_unlock q l c :
      thread_step empty q l (InsertUnlock c) q false (InsertNudge c)
  | st_nudge q l c q' : nudge q c empty = Some (Done q') →
      thread_step empty q l (InsertNudge c) q' l Finished
  | st_insert q l e q' ret : insert q e = Some (Done (q', ret)) →
      thread_step empty q l (InsertNormal e) q' l Finished
  | st_take q l out q' e : extract_priority q out = Some (Done (Some (q', e))) →
      thread_step empty q l (ExtractStart out) q' l (ExtractRelease e)
  | st_none q l out : extract_priority q out = Some (Done None) →
      thread_step empty q l (ExtractStart out) q l (ExtractNormal out)
  | st_release q e :
      thread_step empty q false (ExtractRelease e) (release q) false Finished
  | st_extract q l out q' e : extract_normal q out = Some (Done (Some (q', e))) →
      thread_step empty q l (ExtractNormal out) q' l Finished
  | st_empty q l out : extract_normal q out = Some (Done None) →
      thread_step empty q l (ExtractNormal out) q l Finished.

(** One thread steps, or a worker that is done starts another call. *)
Inductive step (empty : list byte) : config → config → Prop :=
  | step_thread q l t q' l' t' ts1 ts2 :
      thread_step empty q l t q' l' t' →
      step empty (MkConfig q l (ts1 ++ t :: ts2)) (MkConfig q' l' (ts1 ++ t' :: ts2))
  | step_call q l t ts1 ts2 :
      (match t with InsertStart e | ExtractStart e => zlen e = zlen empty | _ => False end) →
      step empty (MkConfig q l (ts1 ++ Finished :: ts2)) (MkConfig q l (ts1 ++ t :: ts2)).

(** ** The invariant *)
Definition is_reserved (t : thread) : bool := match t with InsertReserved _ _ => true | _ => false end.
Definition is_releasing (t : thread) : bool := match t with ExtractRelease _ => true | _ => false end.
Definition holds_lock (t : thread) : bool := match t with InsertReserved _ _ | InsertUnlock _ => true | _ => false end.

Definition tally (f : thread → bool) (ts : list thread) : Z := zlen (filter (λ t, f t = true) ts).

Lemma tally_split f ts1 t ts2 :
  tally f (ts1 ++ t :: ts2) = tally f (ts1 ++ ts2) + (if f t then 1 else 0).
Proof.
  unfold tally, zlen. rewrite !filter_app, filter_cons, !length_app. destruct (f t); case_decide; simpl; try done; lia.
Qed.

Lemma tally_nonneg f ts : 0 ≤ tally f ts.
Proof. unfold tally, zlen. lia. Qed.

(** Every event in the hands of a thread has the size of an event. *)
Definition event_size (sz : Z) (t : thread) : Prop :=
  match t with
  | InsertStart e | InsertCounted e _ | InsertReserved e _ | InsertNormal e
  | ExtractStart e | ExtractRelease e | ExtractNormal e => zlen e = sz
  | _ => True
  end.

(** The prioritized queue is running, never waits, and has room for
    [pcapacity] events; [pcount] counts the events in it, those about to be
    inserted, and the places about to be released. *)
Record prio_ok (sz : Z) (q : EventQueue) (pq : list (list byte)) : Prop := {
  po_queue : ∃ p, pmixed q = Some p ∧ isRunning p = true ∧ RingBufferProofs.rep sz (queue p) pq ∧
    RingBuffer.blockOnEmpty (queue p) = false ∧ pcapacity q ≤ RingBuffer.max (queue p);
  po_sizes : Forall (λ e, zlen e = sz) pq;
  po_cap : pcount q ≤ pcapacity q < 2 ^ 32;
}.

Record inv (sz : Z) (c : config) (pq : list (list byte)) : Prop := {
  inv_prio : prio_ok sz (evq c) pq;
  inv_count : pcount (evq c) = zlen pq + tally is_reserved (threads c) + tally is_releasing (threads c);
  inv_lock : tally holds_lock (threads c) = (if lock c then 1 else 0);
  inv_sizes : Forall (event_size sz) (threads c);
}.

Lemma prio_set_mixed sz q pq m : prio_ok sz q pq → prio_ok sz (set_mixed q m) pq.
Proof. intros []. by constructor. Qed.

Lemma insert_prio sz q pq e q' ret : prio_ok sz q pq → insert q e = Some (Done (q', ret)) →
  prio_ok sz q' pq ∧ pcount q' = pcount q.
Proof.
  intros Hp. unfold insert. destruct (BasicEventQueue.insert (mixed q) e) as [[[m r]|]|]; intros E; try discriminate E.
  simpl in E. injection E as <- <-. split; [by apply prio_set_mixed|done].
Qed.

Lemma nudge_prio sz q pq c e q' : prio_ok sz q pq → nudge q c e = Some (Done q') →
  prio_ok sz q' pq ∧ pcount q' = pcount q.
Proof.
  intros Hp. unfold nudge. destruct (decide (BasicEventQueue.count (mixed q) < c)); [|intros [= <-]; done].
  destruct (insert q e) as [[[q2 r]|]|] eqn:E; simpl; intros E2; try discriminate E2. injection E2 as <-.
  by apply (insert_prio sz q pq e q2 r).
Qed.

Lemma extract_normal_prio sz q pq out q' e : prio_ok sz q pq → extract_normal q out = Some (Done (Some (q', e))) →
  prio_ok sz q' pq ∧ pcount q' = pcount q.
Proof.
  intros Hp. unfold extract_normal. destruct (extract (mixed q) out) as [[[[m x]|]|]|]; simpl; intros E; try discriminate E.
  injection E as <- <-. split; [by apply prio_set_mixed|done].
Qed.

(** A prioritized insert that has its place goes through at once. *)
Lemma enqueue_prio sz q pq e : prio_ok sz q pq → zlen e = sz → zlen pq < pcount q →
  ∃ q', enqueue q e = Some (Done (q', true)) ∧ prio_ok sz q' (pq ++ [e]) ∧ pcount q' = pcount q.
Proof.
  intros [(p & Hp & Hrun & Hr & Hb & Hcap) Hs Hc] He Hlt. unfold enqueue, BasicEventQueue.insert.
  rewrite Hp. cbn [mbind option_bind]. rewrite Hrun.
  destruct (RingBufferProofs.insert_rep sz (queue p) pq e [] Hr) as (r & Hi & Hr' & Hm' & Hrun' & Hb'); [lia|lia|].
  rewrite app_nil_r in Hi. rewrite Hi. simpl. eexists. split; [done|]. split; [|done]. constructor; simpl.
  - eexists. split; [done|]. simpl. rewrite Hb', Hm'. done.
  - apply Forall_app. split; [done|]. by constructor.
  - done.
Qed.

Lemma extract_prio sz q pq out : prio_ok sz q pq → zlen out = sz →
  match pq with
  | [] => extract_priority q out = Some (Done None)
  | e :: pq' => ∃ q', extract_priority q out = Some (Done (Some (q', e))) ∧ prio_ok sz q' pq' ∧ pcount q' = pcount q
  end.
Proof.
  intros [(p & Hp & Hrun & Hr & Hb & Hcap) Hs Hc] Ho. unfold extract_priority, extract. rewrite Hp.
  destruct pq as [|e pq'].
  - unfold RingBuffer.Extract. rewrite decide_True by apply Hr. by rewrite Hb.
  - apply Forall_cons in Hs as [He Hs].
    pose proof Hr as Hr0. destruct (RingBufferProofs.extract_rep sz (queue p) pq' e out Hr) as (r & Hx & Hr' & Hm'); [lia|].
    assert (Hb' : RingBuffer.blockOnEmpty r = false).
    { unfold RingBuffer.Extract in Hx. rewrite decide_False in Hx by (rewrite (RingBufferProofs.rep_count _ _ _ Hr0); unfold zlen; simpl; lia).
      destruct (zget _ _) as [s|]; [|done]. simpl in Hx. destruct (slice _ _ _) as [x|]; [|done]. simpl in Hx.
      destruct (splice _ _ _); [|done]. simpl in Hx. injection Hx as <- _. done. }
    rewrite Hx. simpl. replace (e ++ drop (length e) out) with e.
    2:{ rewrite drop_ge by (unfold zlen in *; lia). by rewrite app_nil_r. }
    eexists. split; [done|]. split; [|done]. constructor; simpl; [|done|done].
    eexists. split; [done|]. simpl. rewrite Hm'. done.
Qed.

Definition ind (b : bool) : Z := if b then 1 else 0.

(** One step of a thread, the others holding [R] reservations, [L] releases
    and [H] locks. *)
Lemma thread_step_inv sz empty q l t q' l' t' pq R L H :
  thread_step empty q l t q' l' t' → zlen empty = sz → prio_ok sz q pq → event_size sz t →
  0 ≤ R → 0 ≤ L → 0 ≤ H →
  pcount q = zlen pq + (R + ind (is_reserved t)) + (L + ind (is_releasing t)) →
  H + ind (holds_lock t) = ind l →
  ∃ pq', prio_ok sz q' pq' ∧ event_size sz t' ∧
    pcount q' = zlen pq' + (R + ind (is_reserved t')) + (L + ind (is_releasing t')) ∧
    H + ind (holds_lock t') = ind l'.
Proof.
  intros Hst Hempty Hp Hsz HR HL HH Hc Hl. assert (0 ≤ zlen pq) by (unfold zlen; lia).
  pose proof (po_cap _ _ _ Hp) as Hcap.
  destruct Hst as [q l e|q e c|q l e|q e c q' Hc0 Hres|q e c Hc0 Hres|q l e c q' ret Henq|q l c|q l c q' Hn|q l e q' ret Hi
    |q l out q' e Hx|q l out Hx|q e|q l out q' e Hx|q l out Hx]; simpl in Hsz, Hc, Hl |- *.
  - exists pq. auto.
  - exists pq. auto.
  - exists pq. auto.
  - unfold reserve in Hres. destruct (decide (pcount q < pcapacity q)) as [Hlt|]; [|done]. injection Hres as <-.
    exists pq. simpl. rewrite u32_small by lia. split; [|split; [done|lia]].
    destruct Hp. constructor; simpl; [done|done|lia].
  - exists pq. auto.
  - destruct (enqueue_prio sz q pq e Hp Hsz) as (q2 & Henq2 & Hp2 & Hc2); [lia|].
    rewrite Henq2 in Henq. injection Henq as <- <-. exists (pq ++ [e]). split; [done|]. split; [done|].
    rewrite Hc2. unfold zlen in *. rewrite length_app. simpl. lia.
  - exists pq. split; [done|]. split; [done|]. destruct l; simpl in *; lia.
  - destruct (nudge_prio sz q pq c empty q' Hp Hn) as [Hp' Hc']. exists pq. rewrite Hc'. auto.
  - destruct (insert_prio sz q pq e q' ret Hp Hi) as [Hp' Hc']. exists pq. rewrite Hc'. auto.
  - pose proof (extract_prio sz q pq out Hp Hsz) as Hex. destruct pq as [|e0 pq']; [by rewrite Hex in Hx|].
    destruct Hex as (q2 & Hx2 & Hp2 & Hc2). rewrite Hx2 in Hx. injection Hx as <- <-. exists pq'.
    split; [done|]. split; [apply (Forall_inv (po_sizes _ _ _ Hp))|]. rewrite Hc2. unfold zlen in *. simpl in *. lia.
  - exists pq. auto.
  - exists pq. unfold release. simpl. rewrite u32_small by lia. split; [|split; [done|lia]].
    destruct Hp. constructor; simpl; [done|done|lia].
  - destruct (extract_normal_prio sz q pq out q' e Hp Hx) as [Hp' Hc']. exists pq. rewrite Hc'. auto.
  - exists pq. auto.
Qed.

Lemma queue_step_inv sz empty c c' pq : step empty c c' → zlen empty = sz → inv sz c pq → ∃ pq', inv sz c' pq'.
Proof.
  intros Hst He [Hp Hc Hl Hs]. destruct Hst as [q l t q' l' t' ts1 ts2 Ht|q l t ts1 ts2 Ht]; simpl in *.
  - rewrite (tally_split is_reserved), (tally_split is_releasing) in Hc. rewrite (tally_split holds_lock) in Hl. pose proof Hs as Hs0. apply Forall_app in Hs0 as [Hs1 [Hst Hs2]%Forall_cons].
    destruct (thread_step_inv sz empty q l t q' l' t' pq (tally is_reserved (ts1 ++ ts2))
      (tally is_releasing (ts1 ++ ts2)) (tally holds_lock (ts1 ++ ts2)) Ht He Hp Hst) as (pq' & Hp' & Hs' & Hc' & Hl');
      try apply tally_nonneg; [exact Hc|exact Hl|].
    exists pq'. constructor; simpl; rewrite ?(tally_split is_reserved), ?(tally_split is_releasing), ?(tally_split holds_lock); [done|exact Hc'|exact Hl'|].
    apply Forall_app. split; [done|]. by constructor.
  - rewrite (tally_split is_reserved), (tally_split is_releasing) in Hc. rewrite (tally_split holds_lock) in Hl. exists pq. constructor; simpl; rewrite ?(tally_split is_reserved), ?(tally_split is_releasing), ?(tally_split holds_lock); [done| | |].
    + by destruct t.
    + by destruct t.
    + apply Forall_app in Hs as [Hs1 [_ Hs2]%Forall_cons]. apply Forall_app. split; [done|]. constructor; [|done].
      destruct t; simpl in *; by rewrite ?Ht.
Qed.

(** The configuration after [init] and [start], with [n] idle threads. *)
Definition started (raw : Z → RingBuffer.Buffer_t) (block : bool) (m p : Z) (n : nat) : config :=
  MkConfig (start (init raw block m p)) false (replicate n Finished).

Lemma tally_finished f n : f Finished = false → tally f (replicate n Finished) = 0.
Proof.
  intros Hf. unfold tally. induction n as [|n IH]; [done|]. simpl. rewrite filter_cons. rewrite Hf. by case_decide.
Qed.

Lemma started_inv sz raw block m p n :
  (∀ i, zlen (RingBuffer.data (raw i)) = sz) → 0 < p < 2 ^ 32 → inv sz (started raw block m p n) [].
Proof.
  intros Hraw Hp. constructor; simpl.
  - unfold start, init. rewrite decide_True by lia. constructor; simpl; [|done|lia].
    eexists. split; [done|]. simpl. split; [done|]. split; [by apply RingBufferProofs.new_rep|].
    split; [done|]. case_decide; simpl; lia.
  - rewrite !tally_finished by done. done.
  - by rewrite tally_finished.
  - apply Forall_replicate. done.
Qed.

(** C25: however the threads interleave, the count of the prioritized queue is
    the number of events in it, plus those whose place has been reserved, plus
    those taken whose place is not yet given back; it stays within the
    capacity, so a thread that inserts while it holds the lock never waits (it
    would block every extracting thread), and one thread at most holds the
    lock. *)
Theorem prioritized_insert_safe (sz : Z) (empty : list byte) (raw : Z → RingBuffer.Buffer_t) (block : bool)
    (m p : Z) (n : nat) (c : config) :
  (∀ i, zlen (RingBuffer.data (raw i)) = sz) → zlen empty = sz → 0 < p < 2 ^ 32 →
  rtc (step empty) (started raw block m p n) c →
  ∃ q, pmixed (evq c) = Some q ∧ isRunning q = true ∧
    pcount (evq c) = BasicEventQueue.count q + tally is_reserved (threads c) + tally is_releasing (threads c) ∧
    0 ≤ pcount (evq c) ≤ pcapacity (evq c) ∧
    tally holds_lock (threads c) = (if lock c then 1 else 0) ∧
    (∀ e k, InsertReserved e k ∈ threads c → ∃ q', enqueue (evq c) e = Some (Done (q', true))).
Proof.
  intros Hraw Hempty Hp Hrtc.
  assert (Hinv : ∃ pq, inv sz c pq).
  { assert (H0 : ∃ pq, inv sz (started raw block m p n) pq) by (exists []; by apply started_inv).
    revert H0. induction Hrtc as [|c1 c2 c3 Hst _ IH]; [done|]. intros [pq H1]. apply IH. by eapply queue_step_inv. }
  destruct Hinv as (pq & [Hpr Hc Hl Hs]). pose proof (po_queue _ _ _ Hpr) as (q & Hq & Hrun & Hrep & _ & _).
  exists q. split; [done|]. split; [done|].
  assert (Hcount : BasicEventQueue.count q = zlen pq) by apply Hrep.
  pose proof (tally_nonneg is_reserved (threads c)). pose proof (tally_nonneg is_releasing (threads c)).
  pose proof (po_cap _ _ _ Hpr). assert (0 ≤ zlen pq) by (unfold zlen; lia).
  split; [lia|]. split; [lia|]. split; [done|]. intros e k Hin. apply list_elem_of_split in Hin as (ts1 & ts2 & Hts).
  rewrite Hts in Hc, Hs. rewrite tally_split in Hc. apply Forall_app in Hs as [_ [Hsz _]%Forall_cons].
  pose proof (tally_nonneg is_reserved (ts1 ++ ts2)). simpl in Hc.
  rewrite <- Hts in Hc. destruct (enqueue_prio sz (evq c) pq e Hpr Hsz) as (q' & Hq' & _); [lia|]. eauto.
Qed.

(** A run of one thread: a normal insert, then a prioritized one up to the
    point where it holds the lock. *)
Lemma prioritized_insert_safe_witness :
  let raw := λ _ : Z, RingBuffer.MkBuffer 0 [x00] in
  let e := [z2b 5] in
  ∃ c q', rtc (step [x00]) (started raw true 2 2 1) c ∧ InsertReserved e 1 ∈ threads c ∧
    enqueue (evq c) e = Some (Done (q', true)).
Proof.
  intros raw e.
  assert (Hrun : ∃ c, rtc (step [x00]) (started raw true 2 2 1) c ∧ InsertReserved e 1 ∈ threads c).
  { eexists. split.
    - eapply rtc_l; [eapply (step_call _ _ _ (InsertStart e) [] []); done|].
      eapply rtc_l; [eapply (step_thread _ _ _ _ _ _ _ [] []), st_count|].
      eapply rtc_l; [eapply (step_thread _ _ _ _ _ _ _ [] []), st_idle|].
      eapply rtc_l; [eapply (step_thread _ _ _ _ _ _ _ [] []), st_insert; vm_compute; reflexivity|].
      eapply rtc_l; [eapply (step_call _ _ _ (InsertStart e) [] []); done|].
      eapply rtc_l; [eapply (step_thread _ _ _ _ _ _ _ [] []), st_count|].
      eapply rtc_l; [eapply (step_thread _ _ _ _ _ _ _ [] []), st_reserve; [discriminate|vm_compute; reflexivity]|].
      apply rtc_refl.
    - left. }
  destruct Hrun as (c & Hc & Hin).
  destruct (prioritized_insert_safe 1 [x00] raw true 2 2 1 c ltac:(done) ltac:(done) ltac:(done) Hc)
    as (q & _ & _ & _ & _ & _ & Hq).
  destruct (Hq e 1 Hin) as [q' Hq']. exists c, q'. auto.
Defined.
End EventQueue.
