(* ===== verification/Mem.v ===== *)
(** * Memory

    The buffers of the program: a finite map from block numbers to their
    bytes.  A pointer is a block and an offset.  An access outside a block is
    undefined behaviour ([None]); [malloc]ed memory has arbitrary contents,
    given by the parameter [junk], so nothing proved depends on them. *)

From S2P Require Export Words.

Abbreviation mem := (gmap nat (list byte)).

Record ptr := Ptr { blk : nat; off : Z }.
#[export] Instance ptr_eq_dec : EqDecision ptr.
Proof. solve_decision. Defined.

Definition padd (p : ptr) (i : Z) : ptr := Ptr (blk p) (off p + i).
Notation "p +ₚ i" := (padd p i) (at level 50, left associativity) : memec_scope.
#[global] Open Scope memec_scope.

(** One byte. *)
Definition mget (m : mem) (p : ptr) : option byte := bs ← m !! blk p; zget bs (off p).
Definition mbyte (m : mem) (p : ptr) : byte := default x00 (mget m p).

(** [n] bytes. *)
Definition load (m : mem) (p : ptr) (n : Z) : option (list byte) :=
  bs ← m !! blk p; slice bs (off p) n.

Definition store (m : mem) (p : ptr) (xs : list byte) : option mem :=
  bs ← m !! blk p; bs' ← splice bs (off p) xs; Some (<[blk p := bs']> m).

(** Two ranges of [n] bytes that share no byte. *)
Definition disjoint_ranges (p q : ptr) (n : Z) : Prop :=
  blk p ≠ blk q ∨ off p + n ≤ off q ∨ off q + n ≤ off p.
#[export] Instance disjoint_ranges_dec p q n : Decision (disjoint_ranges p q n).
Proof. apply _. Defined.

(** The C library's memory functions; [memcpy] is undefined on ranges that
    overlap, [memmove] is not. *)
Definition memmove (m : mem) (dst src : ptr) (n : Z) : option mem :=
  xs ← load m src n; store m dst xs.
Definition memcpy (m : mem) (dst src : ptr) (n : Z) : option mem :=
  if decide (disjoint_ranges dst src n) then memmove m dst src n else None.
Definition memset (m : mem) (p : ptr) (c : Z) (n : Z) : option mem :=
  store m p (replicate (Z.to_nat n) (z2b c)).

(** [uint64_t] accesses on a little-endian machine. *)
Definition load64 (m : mem) (p : ptr) : option Z := le_val <$> load m p 8.
Definition store64 (m : mem) (p : ptr) (z : Z) : option mem := store m p (le_bytes 8 z).

Definition load8 (m : mem) (p : ptr) : option byte := mget m p.
Definition store8 (m : mem) (p : ptr) (b : byte) : option mem := store m p [b].

Section alloc.
Variable junk : nat → Z → byte.

Definition fresh_block (m : mem) : nat := fresh (dom m).

Definition malloc (m : mem) (n : Z) : ptr * mem :=
  let b := fresh_block m in
  (Ptr b 0, <[b := junk b <$> seqZ 0 n]> m).
End alloc.

Definition mfree (m : mem) (p : ptr) : option mem :=
  _ ← m !! blk p; if decide (off p = 0) then Some (delete (blk p) m) else None.

(** The byte [q] is one of the [n] bytes from [p] on. *)
Definition in_range (p : ptr) (n : Z) (q : ptr) : Prop :=
  blk q = blk p ∧ off p ≤ off q < off p + n.
#[export] Instance in_range_dec p n q : Decision (in_range p n q).
Proof. apply _. Defined.

(** The [n] bytes from [p] on can be accessed. *)
Definition valid (m : mem) (p : ptr) (n : Z) : Prop :=
  0 ≤ n ∧ ∃ bs, m !! blk p = Some bs ∧ 0 ≤ off p ∧ off p + n ≤ zlen bs.
#[export] Instance valid_dec m p n : Decision (valid m p n).
Proof.
  destruct (m !! blk p) as [bs|] eqn:E.
  - destruct (decide (0 ≤ n ∧ 0 ≤ off p ∧ off p + n ≤ zlen bs)) as [(? & ? & ?)|H]; [left|right].
    + split; [done|]. exists bs. done.
    + intros (? & bs' & Hbs & ? & ?). apply H. rewrite E in Hbs. injection Hbs as ->. done.
  - right. intros (? & bs' & Hbs & ?). rewrite E in Hbs. discriminate Hbs.
Defined.

(** Two memories with the same blocks of the same sizes. *)
Definition same_shape (m m' : mem) : Prop := ∀ b, zlen <$> m !! b = zlen <$> m' !! b.

(** ** Lemmas *)
Lemma padd_padd p i j : p +ₚ i +ₚ j = p +ₚ (i + j).
Proof. unfold padd; simpl. f_equal. lia. Qed.
Lemma padd_0 p : p +ₚ 0 = p.
Proof. destruct p. unfold padd; simpl. f_equal. lia. Qed.

#[export] Instance same_shape_equiv : Equivalence same_shape.
Proof.
  split; [by intros ? ?|by intros ?? H b|].
  intros ??? H1 H2 b. by rewrite H1.
Qed.

Lemma same_shape_valid m m' p n : same_shape m m' → valid m p n → valid m' p n.
Proof.
  intros Hs (? & bs & Hb & ? & ?). specialize (Hs (blk p)). rewrite Hb in Hs. simpl in Hs.
  destruct (m' !! blk p) as [bs'|] eqn:E; simplify_eq/=. split; [done|].
  exists bs'. split; [done|]. lia.
Qed.

#[export] Instance valid_proper : Proper (same_shape ==> (=) ==> (=) ==> iff) valid.
Proof.
  intros m m' Hm p ? <- n ? <-. split; apply same_shape_valid; [done|by symmetry].
Qed.

Lemma valid_sub m p n i k : valid m p n → 0 ≤ i → 0 ≤ k → i + k ≤ n → valid m (p +ₚ i) k.
Proof. intros (? & bs & ? & ? & ?) ???. split; [done|]. exists bs. simpl. split; [done|]. lia. Qed.

Lemma valid_mget m p n i : valid m p n → 0 ≤ i < n → is_Some (mget m (p +ₚ i)).
Proof.
  intros (? & bs & Hb & ? & ?) Hi. unfold mget; simpl. rewrite Hb; simpl.
  apply zget_is_Some. lia.
Qed.

Lemma mget_mbyte m q : is_Some (mget m q) → mget m q = Some (mbyte m q).
Proof. intros [b Hb]. unfold mbyte. by rewrite Hb. Qed.

Lemma valid_mget_mbyte m p n i : valid m p n → 0 ≤ i < n → mget m (p +ₚ i) = Some (mbyte m (p +ₚ i)).
Proof. intros. by eapply mget_mbyte, valid_mget. Qed.

Lemma load_valid m p n : valid m p n → is_Some (load m p n).
Proof.
  intros (? & bs & Hb & ? & ?). unfold load. rewrite Hb. simpl.
  rewrite slice_Some by lia. done.
Qed.

Lemma load_Some_valid m p n xs : load m p n = Some xs → valid m p n.
Proof.
  unfold load, slice. destruct (m !! blk p) as [bs|] eqn:E; simpl; [|done].
  case_decide; [|done]. intros _. split; [lia|]. exists bs. split; [done|]. lia.
Qed.

Lemma load_lookup m p n xs (i : nat) :
  load m p n = Some xs → Z.of_nat i < n → xs !! i = mget m (p +ₚ Z.of_nat i).
Proof.
  unfold load, mget, slice, zget; simpl. destruct (m !! blk p) as [bs|]; simpl; [|done].
  case_decide; [|done]. intros [= <-] Hi. rewrite decide_True by lia.
  rewrite lookup_take_lt by lia. rewrite lookup_drop. f_equal. lia.
Qed.

(** The contents read from [n] valid bytes, as a list. *)
Lemma load_bytes m p n : valid m p n → load m p n = Some ((λ i, mbyte m (p +ₚ i)) <$> seqZ 0 n).
Proof.
  intros Hv. destruct (load_valid _ _ _ Hv) as [xs Hxs]. rewrite Hxs. f_equal.
  assert (Hlen : zlen xs = n).
  { unfold load in Hxs. destruct (m !! blk p); [|done]. simpl in Hxs. by eapply slice_zlen. }
  pose proof (proj1 Hv). apply list_eq_same_length with (n := length xs); [|done|].
  - rewrite length_fmap, length_seqZ. unfold zlen in *. lia.
  - intros i x y Hi Hx Hy. rewrite (load_lookup _ _ _ _ _ Hxs) in Hx by (unfold zlen in *; lia).
    rewrite list_lookup_fmap in Hy. rewrite lookup_seqZ_lt in Hy by (unfold zlen in *; lia).
    simpl in Hy. injection Hy as <-. unfold mbyte. by rewrite Z.add_0_l, Hx.
Qed.

(** What a store does, byte by byte. *)
Lemma store_spec m p xs :
  valid m p (zlen xs) →
  ∃ m', store m p xs = Some m' ∧ same_shape m m' ∧
    ∀ q, mget m' q = if decide (in_range p (zlen xs) q)
                     then zget xs (off q - off p) else mget m q.
Proof.
  intros (Hn & bs & Hb & Hlo & Hhi). unfold store. rewrite Hb. simpl.
  destruct (splice bs (off p) xs) as [bs'|] eqn:Hs;
    [|unfold splice in Hs; rewrite decide_True in Hs by lia; discriminate Hs].
  simpl. eexists. split; [done|]. split.
  - intros b. destruct (decide (b = blk p)) as [->|].
    + rewrite lookup_insert_eq, Hb. simpl. by erewrite (splice_zlen _ _ _ _ Hs).
    + by rewrite lookup_insert_ne.
  - intros q. unfold mget. destruct (decide (blk q = blk p)) as [Hq|].
    2:{ rewrite lookup_insert_ne by done. rewrite decide_False; [done|]. unfold in_range. tauto. }
    rewrite Hq, lookup_insert_eq, Hb. simpl. unfold splice in Hs. rewrite decide_True in Hs by lia.
    simplify_eq. unfold zget, in_range, zlen in *.
    destruct (decide (0 ≤ off q)); [|repeat case_decide; try done; lia].
    destruct (decide (off q < off p)).
    { rewrite decide_False by lia. rewrite lookup_app_l by (rewrite length_take; lia).
      by rewrite lookup_take_lt by lia. }
    rewrite lookup_app_r by (rewrite length_take; lia). rewrite length_take.
    destruct (decide (off q < off p + Z.of_nat (length xs))).
    + rewrite decide_True by (split; [done|lia]). rewrite lookup_app_l by lia. rewrite decide_True by lia.
      f_equal. lia.
    + rewrite decide_False by lia. rewrite lookup_app_r by lia. rewrite lookup_drop. f_equal. lia.
Qed.

(** Memories are equal when they have the same shape and the same bytes. *)
Lemma mem_ext m m' : same_shape m m' → (∀ q, mget m q = mget m' q) → m = m'.
Proof.
  intros Hs Hg. apply map_eq. intros b. specialize (Hs b).
  destruct (m !! b) as [l|] eqn:E, (m' !! b) as [l'|] eqn:E'; simplify_eq/=; [|done].
  f_equal. apply list_eq. intros i. specialize (Hg (Ptr b (Z.of_nat i))).
  unfold mget, zget in Hg; simpl in Hg. rewrite E, E' in Hg. simpl in Hg.
  rewrite !decide_True, !Nat2Z.id in Hg by lia. done.
Qed.

Lemma valid_0_r m p n : valid m p n → valid m p 0.
Proof. intros (? & bs & ? & ? & ?). split; [lia|]. exists bs. split; [done|]. lia. Qed.

(** ** Whole-list lemmas on loads and stores *)
Lemma splice_splice_app {A} (l l' : list A) lo xs ys :
  splice l lo xs = Some l' → splice l' (lo + zlen xs) ys = splice l lo (xs ++ ys).
Proof.
  unfold splice. intros H. case_decide as H1; [|done]. simplify_eq.
  assert (Hz : zlen (take (Z.to_nat lo) l ++ xs ++ drop (Z.to_nat (lo + zlen xs)) l) = zlen l) by zsolve.
  rewrite Hz. assert (Hxy : zlen (xs ++ ys) = zlen xs + zlen ys) by zsolve. rewrite Hxy.
  destruct (decide (0 ≤ lo ∧ lo + (zlen xs + zlen ys) ≤ zlen l)) as [H2|H2].
  2:{ rewrite decide_False; [done|]. unfold zlen in *; lia. }
  rewrite decide_True by (unfold zlen in *; lia). f_equal.
  rewrite (app_assoc _ xs).
  assert (Hl : Z.to_nat (lo + zlen xs) = length (take (Z.to_nat lo) l ++ xs)) by zsolve.
  rewrite Hl at 1. rewrite take_app_length.
  replace (Z.to_nat (lo + zlen xs + zlen ys))
    with (length (take (Z.to_nat lo) l ++ xs) + length ys)%nat by zsolve.
  rewrite drop_app_add. rewrite drop_drop. rewrite <- !(assoc_L (++)). do 3 f_equal. f_equal. zsolve.
Qed.

Lemma store_app m p xs ys :
  store m p (xs ++ ys) = (m' ← store m p xs; store m' (p +ₚ zlen xs) ys).
Proof.
  unfold store. destruct (m !! blk p) as [bs|] eqn:E; [|done]. simpl.
  destruct (splice bs (off p) xs) as [bs'|] eqn:Hs; simpl.
  - rewrite lookup_insert_eq. simpl. rewrite (splice_splice_app _ _ _ _ _ Hs).
    destruct (splice bs (off p) (xs ++ ys)); simpl; [|done]. by rewrite insert_insert_eq.
  - unfold splice in *. case_decide as H1; [done|]. rewrite decide_False; [done|].
    unfold zlen in *. rewrite length_app. lia.
Qed.

Lemma store_is_Some m p xs : valid m p (zlen xs) → is_Some (store m p xs).
Proof. intros H. destruct (store_spec m p xs H) as (m' & -> & _). done. Qed.

Lemma store_shape m p xs m' : store m p xs = Some m' → same_shape m m'.
Proof.
  unfold store. destruct (m !! blk p) as [bs|] eqn:E; simpl; [|done].
  destruct (splice _ _ _) as [bs'|] eqn:Hs; simpl; [|done]. intros [= <-] b.
  destruct (decide (b = blk p)) as [->|].
  - rewrite lookup_insert_eq, E. simpl. by rewrite (splice_zlen _ _ _ _ Hs).
  - by rewrite lookup_insert_ne.
Qed.

Lemma store_valid m p xs m' : store m p xs = Some m' → valid m p (zlen xs).
Proof.
  unfold store, splice. destruct (m !! blk p) as [bs|] eqn:E; simpl; [|done].
  case_decide; simpl; [|done]. intros _. split; [unfold zlen; lia|]. exists bs. done.
Qed.

(** Reading back part of what was stored. *)
Lemma load_store_sub m p xs m' i n :
  store m p xs = Some m' → 0 ≤ i → 0 ≤ n → i + n ≤ zlen xs → load m' (p +ₚ i) n = slice xs i n.
Proof.
  unfold store, load. destruct (m !! blk p) as [bs|] eqn:E; simpl; [|done].
  unfold splice. case_decide as H1; simpl; [|done]. intros [= <-] Hi Hn Hin.
  rewrite lookup_insert_eq. simpl.
  unfold slice. rewrite decide_True by (split_and!; zsolve). rewrite decide_True by done. f_equal.
  replace (Z.to_nat (off p + i)) with (length (take (Z.to_nat (off p)) bs) + Z.to_nat i)%nat by zsolve.
  rewrite drop_app_add. rewrite drop_app_le by zsolve. by rewrite take_app_le by zsolve.
Qed.

Lemma load_store_eq m p xs m' : store m p xs = Some m' → load m' p (zlen xs) = Some xs.
Proof.
  intros H. rewrite <- (padd_0 p), (load_store_sub _ _ _ _ _ _ H) by (unfold zlen; lia).
  rewrite slice_Some by (unfold zlen; lia). f_equal. unfold zlen. rewrite Nat2Z.id. simpl.
  by rewrite drop_0, firstn_all.
Qed.

(** Ranges of different lengths that share no byte. *)
Definition apart (p : ptr) (n : Z) (q : ptr) (k : Z) : Prop :=
  blk p ≠ blk q ∨ off p + n ≤ off q ∨ off q + k ≤ off p.
#[export] Instance apart_dec p n q k : Decision (apart p n q k).
Proof. apply _. Defined.

Lemma load_store_other m p xs m' q n :
  store m p xs = Some m' → apart p (zlen xs) q n → load m' q n = load m q n.
Proof.
  unfold store, load. destruct (m !! blk p) as [bs|] eqn:E; simpl; [|done].
  unfold splice. case_decide as H1; simpl; [|done]. intros [= <-] Hap.
  destruct (decide (blk q = blk p)) as [Hq|Hq]; [|by rewrite lookup_insert_ne].
  rewrite Hq, lookup_insert_eq, E. simpl. destruct Hap as [?|Hap]; [by rewrite Hq in *|].
  unfold slice.
  assert (Hz : zlen (take (Z.to_nat (off p)) bs ++ xs ++ drop (Z.to_nat (off p + zlen xs)) bs) = zlen bs) by zsolve.
  rewrite Hz. case_decide as H2; [|done]. f_equal.
  apply list_eq. intros k. destruct (decide (Z.of_nat k < n)).
  2:{ rewrite !lookup_take_ge by lia. done. }
  rewrite !lookup_take_lt by lia. rewrite !lookup_drop.
  destruct Hap.
  - rewrite lookup_app_r by zsolve. rewrite lookup_app_r by zsolve. rewrite lookup_drop. f_equal. zsolve.
  - rewrite lookup_app_l by zsolve. by rewrite lookup_take_lt by lia.
Qed.

Lemma load_app m p n k xs :
  0 ≤ n → 0 ≤ k → load m p (n + k) = Some xs →
  ∃ ys zs, xs = ys ++ zs ∧ load m p n = Some ys ∧ load m (p +ₚ n) k = Some zs.
Proof.
  unfold load. destruct (m !! blk p) as [bs|] eqn:E; simpl; [|done].
  unfold slice. intros Hn Hk. case_decide; [|done]. rewrite E. simpl. intros [= <-].
  rewrite !decide_True by lia. do 2 eexists. split_and!; [|done|done].
  rewrite <- (take_drop (Z.to_nat n) (take (Z.to_nat (n + k)) _)). f_equal.
  - rewrite take_take. f_equal. lia.
  - rewrite skipn_firstn_comm, drop_drop. f_equal; [lia|]. f_equal. lia.
Qed.

Lemma load_sub m p n xs i k :
  load m p n = Some xs → 0 ≤ i → 0 ≤ k → i + k ≤ n → load m (p +ₚ i) k = slice xs i k.
Proof.
  intros Hl Hi Hk Hik.
  assert (Hz : zlen xs = n).
  { unfold load in Hl. destruct (m !! blk p); [|done]. simpl in Hl. by eapply slice_zlen. }
  unfold load in *. simpl. destruct (m !! blk p) as [bs|]; simpl in *; [|done].
  unfold slice in *. case_decide; [|done]. simplify_eq.
  rewrite !decide_True by lia. f_equal. rewrite <- Hl at 1. rewrite skipn_firstn_comm, take_take, drop_drop.
  rewrite Nat.min_l by lia. do 2 f_equal. lia.
Qed.

Lemma load_mget m p n xs : load m p n = Some xs → 0 < n → mget m p = xs !! 0%nat.
Proof. intros Hl Hn. rewrite (load_lookup _ _ _ _ _ Hl) by lia. by rewrite padd_0. Qed.

Lemma load_zlen m p n xs : load m p n = Some xs → zlen xs = n.
Proof. unfold load. destruct (m !! blk p); [|done]. simpl. apply slice_zlen. Qed.

(** [memcpy] from bytes that the previous stores did not touch. *)
Lemma memcpy_apart m dst src n xs :
  load m src n = Some xs → apart dst n src n → memcpy m dst src n = store m dst xs.
Proof.
  intros Hl Hap. unfold memcpy. rewrite decide_True.
  - unfold memmove. by rewrite Hl.
  - unfold disjoint_ranges. destruct Hap as [?|[?|?]]; auto.
Qed.

Lemma apart_sub p n q k i n' :
  apart p n q k → 0 ≤ i → i + n' ≤ n → apart (p +ₚ i) n' q k.
Proof. unfold apart; simpl. lia. Qed.

(** A store inside a range whose contents are known. *)
Lemma load_store_splice m q n ys p i xs m' :
  load m q n = Some ys → p = q +ₚ i → 0 ≤ i → i + zlen xs ≤ n → store m p xs = Some m' →
  load m' q n = splice ys i xs.
Proof.
  intros Hl -> Hi Hn Hs. pose proof (load_zlen _ _ _ _ Hl) as Hz.
  assert (0 ≤ zlen xs) by (unfold zlen; lia).
  pose proof (store_valid _ _ _ _ Hs) as Hv. destruct (store_spec _ _ _ Hv) as (m1 & Hs1 & Hsh & Hg).
  rewrite Hs in Hs1. injection Hs1 as <-.
  destruct (splice_is_Some ys i xs) as [zs Hzs]; [done|lia|]. rewrite Hzs.
  destruct (load_valid m' q n) as [ws Hws]; [rewrite <- Hsh; by eapply load_Some_valid|].
  rewrite Hws. f_equal. pose proof (load_zlen _ _ _ _ Hws). pose proof (splice_zlen _ _ _ _ Hzs).
  apply list_eq. intros k. destruct (decide (Z.of_nat k < n)).
  2:{ rewrite !lookup_ge_None_2 by (unfold zlen in *; lia). done. }
  rewrite (load_lookup _ _ _ _ _ Hws), (splice_lookup _ _ _ _ _ Hzs), Hg by done.
  unfold in_range; simpl. unfold zget.
  repeat case_decide; try lia; try tauto; [f_equal; lia|].
  by rewrite (load_lookup _ _ _ _ _ Hl) by done.
Qed.
