(* ===== verification/Bitmask.v ===== *)
(** * BitmaskArray (common/ds/bitmask_array.{hh,cc})

    [count] entries of [size] bits packed into 64-bit words.  The theorems say
    that the packed array behaves as a matrix of booleans indexed by entry and
    bit, including [clear], which zeroes whole words where it can. *)

From S2P Require Export Prelude Words.

Record BitmaskArray := MkBitmaskArray {
  size : Z;
  count : Z;
  total : Z;
  bitmasks : list Z;
}.

(** ** The operations *)

(** The constructor: [total] words, rounded up, all zero. *)
Definition BitmaskArray_new (sz cnt : Z) : BitmaskArray :=
  let t := u64 (sz * cnt) in
  let tot := if decide (Z.land t 63 ≠ 0) then u64 (Z.shiftr t 6 + 1) else Z.shiftr t 6 in
  MkBitmaskArray sz cnt tot (replicate (Z.to_nat tot) 0).

Definition bit_index (a : BitmaskArray) (entry bit : Z) : Z := u64 (entry * size a + bit).

Definition set_words (a : BitmaskArray) (ws : list Z) : BitmaskArray :=
  MkBitmaskArray (size a) (count a) (total a) ws.

Definition set (a : BitmaskArray) (entry bit : Z) : option BitmaskArray :=
  let index := bit_index a entry bit in
  w ← zget (bitmasks a) (Z.shiftr index 6);
  ws ← zset (bitmasks a) (Z.shiftr index 6) (Z.lor w (Z.shiftl 1 (Z.land index 63)));
  Some (set_words a ws).

Definition unset (a : BitmaskArray) (entry bit : Z) : option BitmaskArray :=
  let index := bit_index a entry bit in
  w ← zget (bitmasks a) (Z.shiftr index 6);
  ws ← zset (bitmasks a) (Z.shiftr index 6)
         (Z.land w (Z.lnot (Z.shiftl 1 (Z.land index 63))));
  Some (set_words a ws).

Definition check (a : BitmaskArray) (entry bit : Z) : option bool :=
  let index := bit_index a entry bit in
  w ← zget (bitmasks a) (Z.shiftr index 6);
  Some (bool_decide (Z.land w (Z.shiftl 1 (Z.land index 63)) ≠ 0)).

(** The one-argument overloads work on entry 0. *)
Definition set1 (a : BitmaskArray) (bit : Z) : option BitmaskArray := set a 0 bit.
Definition unset1 (a : BitmaskArray) (bit : Z) : option BitmaskArray := unset a 0 bit.
Definition check1 (a : BitmaskArray) (bit : Z) : option bool := check a 0 bit.

(** [checkAllSet] stops at the first bit that is not set. *)
Fixpoint checkAllSet_from (a : BitmaskArray) (entry i : Z) (n : nat) : option bool :=
  match n with
  | O => Some true
  | S n' => b ← check a entry i; if (b : bool) then checkAllSet_from a entry (i + 1) n' else Some false
  end.
Definition checkAllSet (a : BitmaskArray) (entry : Z) : option bool :=
  checkAllSet_from a entry 0 (Z.to_nat (size a)).

(** [clear]: when a word boundary is reached and 64 bits of the entry remain,
    the word is zeroed and the loop variable jumps over it.  Each iteration
    advances [bit], so [size a] iterations are enough fuel. *)
Fixpoint clear_from (a : BitmaskArray) (entry bit : Z) (fuel : nat) : option BitmaskArray :=
  match fuel with
  | O => if decide (bit < size a) then None else Some a
  | S fuel' =>
      if decide (bit < size a) then
        let index := bit_index a entry bit in
        w ← zget (bitmasks a) (Z.shiftr index 6);
        if decide (Z.land index 63 = 0 ∧ bit + 64 ≤ size a) then
          ws ← zset (bitmasks a) (Z.shiftr index 6) 0;
          clear_from (set_words a ws) entry (bit + 64) fuel'
        else
          ws ← zset (bitmasks a) (Z.shiftr index 6)
                 (Z.land w (Z.lnot (Z.shiftl 1 (Z.land index 63))));
          clear_from (set_words a ws) entry (bit + 1) fuel'
      else Some a
  end.
Definition clear (a : BitmaskArray) (entry : Z) : option BitmaskArray :=
  clear_from a entry 0 (Z.to_nat (size a)).

(** ** The matrix a bitmask array stands for *)

(** Bit number [i] of the packed words. *)
Definition raw_bit (a : BitmaskArray) (i : Z) : bool :=
  match zget (bitmasks a) (i / 64) with Some w => Z.testbit w (i mod 64) | None => false end.

Definition bit_at (a : BitmaskArray) (entry bit : Z) : bool := raw_bit a (entry * size a + bit).

Record wf (a : BitmaskArray) : Prop := {
  wf_size : 0 < size a;
  wf_count : 0 ≤ count a;
  wf_fits : size a * count a < 2 ^ 64;
  wf_len : zlen (bitmasks a) = total a;
  wf_total : size a * count a ≤ 64 * total a;
}.

Definition in_bounds (a : BitmaskArray) (entry bit : Z) : Prop :=
  0 ≤ entry < count a ∧ 0 ≤ bit < size a.

Definition same_dims (a a' : BitmaskArray) : Prop :=
  size a' = size a ∧ count a' = count a ∧ total a' = total a ∧ zlen (bitmasks a') = zlen (bitmasks a).

(** The abstract object: a matrix of booleans, and the array that stores it. *)
Definition matrix : Type := Z → Z → bool.
Definition mset (v : bool) (M : matrix) (e b : Z) : matrix :=
  λ e' b', if decide (e' = e ∧ b' = b) then v else M e' b'.
Definition mclear (M : matrix) (e : Z) : matrix :=
  λ e' b', if decide (e' = e) then false else M e' b'.

Definition represents (a : BitmaskArray) (M : matrix) : Prop :=
  wf a ∧ ∀ e b, in_bounds a e b → check a e b = Some (M e b).

(** ** Lemmas *)
Lemma shiftr6 i : Z.shiftr i 6 = i / 64.
Proof. rewrite Z.shiftr_div_pow2 by lia. done. Qed.
Lemma land63 i : Z.land i 63 = i mod 64.
Proof. change 63 with (Z.ones 6). rewrite Z.land_ones by lia. done. Qed.

Lemma testbit_mask w k : 0 ≤ k → bool_decide (Z.land w (Z.shiftl 1 k) ≠ 0) = Z.testbit w k.
Proof.
  intros Hk. rewrite Z.shiftl_1_l. destruct (Z.testbit w k) eqn:E.
  - apply bool_decide_eq_true_2. intros H. apply (f_equal (λ z, Z.testbit z k)) in H.
    rewrite Z.land_spec, Z.bits_0, Z.pow2_bits_true, E in H by lia. done.
  - apply bool_decide_eq_false_2. intros H. apply H. apply Z.bits_inj_0. intros n.
    rewrite Z.land_spec. destruct (decide (n = k)) as [->|]; [by rewrite E|].
    rewrite Z.pow2_bits_false by lia. apply andb_false_r.
Qed.

Lemma index_range a e b : wf a → in_bounds a e b → 0 ≤ e * size a + b < size a * count a.
Proof. intros [] [? ?]. nia. Qed.

Lemma bit_index_eq a e b : wf a → in_bounds a e b → bit_index a e b = e * size a + b.
Proof.
  intros Hwf Hb. pose proof (index_range a e b Hwf Hb). destruct Hwf.
  unfold bit_index. apply u64_small. lia.
Qed.

(** Different positions of the matrix are different packed bits. *)
Lemma index_inj a e b e' b' :
  in_bounds a e b → in_bounds a e' b' → e * size a + b = e' * size a + b' → e = e' ∧ b = b'.
Proof.
  intros [He Hb] [He' Hb'] Heq. assert (e = e') as -> by nia. split; [done|lia].
Qed.

Lemma word_exists a i : wf a → 0 ≤ i < size a * count a → is_Some (zget (bitmasks a) (i / 64)).
Proof. intros [] ?. apply zget_is_Some. lia. Qed.

(** Replacing one word by [f] of itself changes the bits of that word only. *)
Lemma raw_bit_update a w w' ws i j :
  0 ≤ i → 0 ≤ j →
  zget (bitmasks a) (i / 64) = Some w → zset (bitmasks a) (i / 64) w' = Some ws →
  raw_bit (set_words a ws) j = if decide (j / 64 = i / 64) then Z.testbit w' (j mod 64) else raw_bit a j.
Proof.
  intros ?? Hw Hs. unfold raw_bit; simpl.
  destruct (decide (j / 64 = i / 64)) as [Hd|Hd].
  - rewrite Hd. by rewrite (zset_get_eq _ _ _ _ Hs).
  - by rewrite (zset_get_ne _ _ _ _ _ Hs) by done.
Qed.

Lemma set_words_dims a i w ws : zset (bitmasks a) i w = Some ws → same_dims a (set_words a ws).
Proof. intros H. repeat split; simpl. by eapply zset_zlen. Qed.

Lemma same_dims_wf a a' : same_dims a a' → wf a → wf a'.
Proof. intros (Hs & Hc & Ht & Hl) []. constructor; rewrite ?Hs, ?Hc, ?Ht, ?Hl; done. Qed.

Lemma same_dims_trans a b c : same_dims a b → same_dims b c → same_dims a c.
Proof. unfold same_dims. intuition congruence. Qed.

Lemma same_dims_bounds a a' e b : same_dims a a' → in_bounds a e b → in_bounds a' e b.
Proof. intros (Hs & Hc & _) [? ?]. split; [rewrite Hc|rewrite Hs]; done. Qed.

#[export] Hint Resolve same_dims_wf same_dims_trans same_dims_bounds set_words_dims : core.

(** Writing bit [k] of one packed word. *)
Lemma lor_bit w k j : 0 ≤ k → 0 ≤ j → Z.testbit (Z.lor w (Z.shiftl 1 k)) j = (bool_decide (j = k) || Z.testbit w j).
Proof.
  intros. rewrite Z.lor_spec, Z.shiftl_1_l. case_bool_decide.
  - subst. rewrite Z.pow2_bits_true by lia. apply orb_true_r.
  - rewrite Z.pow2_bits_false by lia. apply orb_false_r.
Qed.

Lemma ldiff_bit w k j : 0 ≤ k → 0 ≤ j →
  Z.testbit (Z.land w (Z.lnot (Z.shiftl 1 k))) j = (negb (bool_decide (j = k)) && Z.testbit w j).
Proof.
  intros. rewrite Z.land_spec, Z.lnot_spec, Z.shiftl_1_l by lia. case_bool_decide.
  - subst. rewrite Z.pow2_bits_true by lia. simpl. apply andb_false_r.
  - rewrite Z.pow2_bits_false by lia. simpl. apply andb_true_r.
Qed.

Lemma divmod_eq i j : i / 64 = j / 64 → i mod 64 = j mod 64 → i = j.
Proof. intros. rewrite (Z.div_mod i 64), (Z.div_mod j 64) by lia. lia. Qed.

(** Storing into the word of packed bit [i] a value that differs from the old
    one at most in that bit writes that bit. *)
Lemma raw_write a i w w' (v : bool) :
  wf a → 0 ≤ i < size a * count a → zget (bitmasks a) (i / 64) = Some w →
  (∀ k, 0 ≤ k → Z.testbit w' k = if decide (k = i mod 64) then v else Z.testbit w k) →
  ∃ ws, zset (bitmasks a) (i / 64) w' = Some ws ∧
    ∀ j, 0 ≤ j → raw_bit (set_words a ws) j = if decide (j = i) then v else raw_bit a j.
Proof.
  intros Hwf Hi Hw Hbits. pose proof (zget_Some _ _ _ Hw).
  eexists. split; [by apply zset_Some|]. intros j Hj.
  rewrite (raw_bit_update a w w' _ i j); [|lia|done|done|by apply zset_Some].
  destruct (decide (j = i)) as [->|Hne].
  - rewrite decide_True by done. rewrite Hbits by lia. by rewrite decide_True.
  - case_decide as Hd; [|done]. rewrite Hbits by lia. rewrite decide_False.
    + unfold raw_bit. by rewrite Hd, Hw.
    + intros ?. apply Hne. by apply divmod_eq.
Qed.

(** What the elementary operations do to the packed bits. *)
Lemma set_raw a e b : wf a → in_bounds a e b →
  ∃ a', set a e b = Some a' ∧ same_dims a a' ∧
    ∀ j, 0 ≤ j → raw_bit a' j = if decide (j = e * size a + b) then true else raw_bit a j.
Proof.
  intros Hwf Hb. pose proof (index_range a e b Hwf Hb) as Hr.
  unfold set. rewrite bit_index_eq, shiftr6, land63 by done.
  destruct (word_exists a _ Hwf Hr) as [w Hw]. rewrite Hw. simpl.
  edestruct (raw_write a (e * size a + b) w (Z.lor w (Z.shiftl 1 ((e * size a + b) mod 64))) true)
    as (ws & Hws & Hj); [done|done|done| |].
  - intros k Hk. rewrite lor_bit by lia. repeat case_decide; by case_bool_decide.
  - rewrite Hws. simpl. eauto.
Qed.

Lemma unset_raw a e b : wf a → in_bounds a e b →
  ∃ a', unset a e b = Some a' ∧ same_dims a a' ∧
    ∀ j, 0 ≤ j → raw_bit a' j = if decide (j = e * size a + b) then false else raw_bit a j.
Proof.
  intros Hwf Hb. pose proof (index_range a e b Hwf Hb) as Hr.
  unfold unset. rewrite bit_index_eq, shiftr6, land63 by done.
  destruct (word_exists a _ Hwf Hr) as [w Hw]. rewrite Hw. simpl.
  edestruct (raw_write a (e * size a + b) w (Z.land w (Z.lnot (Z.shiftl 1 ((e * size a + b) mod 64)))) false)
    as (ws & Hws & Hj); [done|done|done| |].
  - intros k Hk. rewrite ldiff_bit by lia. repeat case_decide; by case_bool_decide.
  - rewrite Hws. simpl. eauto.
Qed.

Lemma check_eq a e b : wf a → in_bounds a e b → check a e b = Some (bit_at a e b).
Proof.
  intros Hwf Hb. pose proof (index_range a e b Hwf Hb) as Hr.
  unfold check, bit_at, raw_bit. rewrite bit_index_eq, shiftr6, land63 by done.
  destruct (word_exists a _ Hwf Hr) as [w Hw]. rewrite Hw. simpl.
  rewrite testbit_mask by lia. done.
Qed.

(** [clear] from bit [bit] on: exactly the packed bits of the rest of the
    entry become false. *)
Lemma clear_from_raw fuel a e bit :
  wf a → 0 ≤ e < count a → 0 ≤ bit → size a - bit ≤ Z.of_nat fuel →
  ∃ a', clear_from a e bit fuel = Some a' ∧ same_dims a a' ∧
    ∀ j, 0 ≤ j → raw_bit a' j =
      if decide (e * size a + bit ≤ j < e * size a + size a) then false else raw_bit a j.
Proof.
  revert a bit; induction fuel as [|fuel IH]; intros a bit Hwf He Hbit Hfuel; simpl.
  { rewrite decide_False by lia. eexists. split; [done|]. split; [done|].
    intros. by rewrite decide_False by lia. }
  case_decide as Hlt.
  2:{ eexists. split; [done|]. split; [done|]. intros. by rewrite decide_False by lia. }
  assert (Hb : in_bounds a e bit) by (split; lia).
  pose proof (index_range a e bit Hwf Hb) as Hr. rewrite bit_index_eq, shiftr6, land63 by done.
  destruct (word_exists a _ Hwf Hr) as [w Hw]. rewrite Hw. simpl.
  pose proof (zget_Some _ _ _ Hw).
  case_decide as Hword.
  - rewrite zset_Some by done. simpl. set (ws := <[_:=_]> _).
    assert (Hws : zset (bitmasks a) ((e * size a + bit) / 64) 0 = Some ws) by by apply zset_Some.
    edestruct (IH (set_words a ws) (bit + 64)) as (a' & -> & Hd & Hj); [by eauto|simpl; lia|lia|simpl; lia|].
    eexists. split; [done|]. split; [by eauto|]. intros j Hj0. rewrite Hj by done. simpl.
    rewrite (raw_bit_update a w 0 ws (e * size a + bit) j); [|lia|done|done|done]. rewrite Z.testbit_0_l.
    repeat case_decide; try done; try lia.
  - edestruct (raw_write a (e * size a + bit) w (Z.land w (Z.lnot (Z.shiftl 1 ((e * size a + bit) mod 64)))) false)
      as (ws & Hws & Hj1); [done|done|done| |].
    { intros k Hk. rewrite ldiff_bit by lia. repeat case_decide; by case_bool_decide. }
    rewrite Hws. simpl.
    edestruct (IH (set_words a ws) (bit + 1)) as (a' & -> & Hd & Hj); [by eauto|simpl; lia|lia|simpl; lia|].
    eexists. split; [done|]. split; [by eauto|]. intros j Hj0. rewrite Hj, Hj1 by done. simpl.
    repeat case_decide; try done; try lia.
Qed.

Lemma checkAllSet_from_spec a e n i :
  wf a → 0 ≤ e < count a → 0 ≤ i → i + Z.of_nat n ≤ size a →
  ∃ b, checkAllSet_from a e i n = Some b ∧
    (b = true ↔ ∀ j, i ≤ j < i + Z.of_nat n → bit_at a e j = true).
Proof.
  intros Hwf He. revert i; induction n as [|n IH]; intros i Hi Hn; simpl.
  { exists true. split; [done|]. split; [lia|done]. }
  rewrite check_eq by (done || (split; lia)). simpl.
  destruct (bit_at a e i) eqn:E.
  - destruct (IH (i + 1)) as (b & -> & Hb); [lia|lia|]. exists b. split; [done|]. rewrite Hb.
    split; intros H j Hj; [|apply H; lia]. destruct (decide (j = i)) as [->|]; [done|]. apply H. lia.
  - exists false. split; [done|]. split; [done|]. intros H. rewrite <- E. apply H. lia.
Qed.

Lemma new_represents sz cnt :
  0 < sz → 0 ≤ cnt → sz * cnt < 2 ^ 64 → represents (BitmaskArray_new sz cnt) (λ _ _, false).
Proof.
  intros Hs Hc Hf. set (a := BitmaskArray_new sz cnt).
  assert (Ht : u64 (sz * cnt) = sz * cnt) by (apply u64_small; nia).
  assert (Hwf : wf a).
  { unfold a, BitmaskArray_new. rewrite Ht, shiftr6, land63.
    case_decide.
    - rewrite u64_small by lia. constructor; simpl; try done; try nia; zsolve.
    - constructor; simpl; try done; try nia; zsolve. }
  split; [done|]. intros e b Hb. rewrite check_eq by done. unfold bit_at, raw_bit.
  pose proof (index_range a e b Hwf Hb) as Hr. destruct (word_exists a _ Hwf Hr) as [w Hw].
  rewrite Hw. f_equal. unfold a, BitmaskArray_new, zget in Hw. simpl in Hw.
  case_decide; [|done]. apply lookup_replicate in Hw as [-> _]. apply Z.testbit_0_l.
Qed.

(** An operation with a known effect on the packed bits has the corresponding
    effect on the matrix. *)
Lemma represents_update a a' (M M' : matrix) (f : Z → bool → bool) :
  represents a M → same_dims a a' →
  (∀ j, 0 ≤ j → raw_bit a' j = f j (raw_bit a j)) →
  (∀ e b, in_bounds a e b → M' e b = f (e * size a + b) (M e b)) →
  represents a' M'.
Proof.
  intros [Hwf HM] Hd Hraw HM'. split; [by eauto|]. intros e b Hb.
  assert (Hb' : in_bounds a e b).
  { destruct Hd as (Hs & Hc & _), Hb. split; [by rewrite <- Hc|by rewrite <- Hs]. }
  rewrite check_eq by eauto. specialize (HM e b Hb'). rewrite check_eq in HM by done.
  injection HM as HM. rewrite HM' by done. rewrite <- HM. unfold bit_at.
  destruct Hd as (Hs & _). rewrite Hs. rewrite Hraw; [done|].
  pose proof (index_range a e b Hwf Hb'). lia.
Qed.

(** Writing one bit of the array updates the matrix. *)
Lemma set_represents a M e b : represents a M → in_bounds a e b →
  ∃ a', set a e b = Some a' ∧ represents a' (mset true M e b) ∧ same_dims a a'.
Proof.
  intros HR Hb. pose proof HR as [Hwf HM].
  destruct (set_raw a e b Hwf Hb) as (a' & ? & ? & Hj). exists a'. split; [done|]. split; [|done].
  apply (represents_update a a' M _ (λ j v, if decide (j = e * size a + b) then true else v)); [done..|].
  intros e' b' Hb'. unfold mset.
  destruct (decide (e' = e ∧ b' = b)) as [[-> ->]|Hne]; [by rewrite decide_True|].
  rewrite decide_False; [done|]. intros Heq. apply Hne. by apply (index_inj a).
Qed.

Lemma unset_represents a M e b : represents a M → in_bounds a e b →
  ∃ a', unset a e b = Some a' ∧ represents a' (mset false M e b) ∧ same_dims a a'.
Proof.
  intros HR Hb. pose proof HR as [Hwf HM].
  destruct (unset_raw a e b Hwf Hb) as (a' & ? & ? & Hj). exists a'. split; [done|]. split; [|done].
  apply (represents_update a a' M _ (λ j v, if decide (j = e * size a + b) then false else v)); [done..|].
  intros e' b' Hb'. unfold mset.
  destruct (decide (e' = e ∧ b' = b)) as [[-> ->]|Hne]; [by rewrite decide_True|].
  rewrite decide_False; [done|]. intros Heq. apply Hne. by apply (index_inj a).
Qed.

(** ** Properties *)

(** [BitmaskArray] implements a boolean matrix: the constructor gives the
    all-false matrix; on an array that represents [M], [set], [unset] and
    [clear] terminate without leaving the words and give an array that
    represents the updated matrix, and [checkAllSet] tells whether the whole
    entry is set. *)
Theorem bitmask_refines_matrix :
  (∀ sz cnt, 0 < sz → 0 ≤ cnt → sz * cnt < 2 ^ 64 →
     represents (BitmaskArray_new sz cnt) (λ _ _, false)) ∧
  ∀ a M e b, represents a M → in_bounds a e b →
    (∃ a', set a e b = Some a' ∧ represents a' (mset true M e b)) ∧
    (∃ a', unset a e b = Some a' ∧ represents a' (mset false M e b)) ∧
    (∃ a', clear a e = Some a' ∧ represents a' (mclear M e)) ∧
    (∃ r, checkAllSet a e = Some r ∧ (r = true ↔ ∀ b', 0 ≤ b' < size a → M e b' = true)).
Proof.
  split; [apply new_represents|]. intros a M e b HR Hb. pose proof HR as [Hwf HM].
  assert (He : 0 ≤ e < count a) by apply Hb. split_and!.
  - destruct (set_represents a M e b HR Hb) as (a' & ? & ? & _). eauto.
  - destruct (unset_represents a M e b HR Hb) as (a' & ? & ? & _). eauto.
  - destruct (clear_from_raw (Z.to_nat (size a)) a e 0) as (a' & ? & ? & Hj); [done|done|lia|lia|].
    exists a'. split; [done|].
    apply (represents_update a a' M _
      (λ j v, if decide (e * size a + 0 ≤ j < e * size a + size a) then false else v)); [done..|].
    intros e' b' [He' Hb']. unfold mclear. destruct (decide (e' = e)) as [->|]; case_decide; try done; nia.
  - unfold checkAllSet. destruct Hwf as [? ? ? ? ?] eqn:E. clear E.
    destruct (checkAllSet_from_spec a e (Z.to_nat (size a)) 0) as (r & -> & Hr); [by apply HR|done|lia|lia|].
    exists r. split; [done|]. rewrite Hr. split; intros H j Hj.
    + assert (Hin : in_bounds a e j) by (split; [done|lia]). pose proof (HM e j Hin) as Hc.
      rewrite check_eq in Hc by (try apply HR; done). injection Hc as <-. apply H. lia.
    + assert (Hin : in_bounds a e j) by (split; [done|lia]). pose proof (HM e j Hin) as Hc.
      rewrite check_eq in Hc by (try apply HR; done). injection Hc as ->. apply H. lia.
Qed.

Lemma bitmask_refines_matrix_witness :
  let a := BitmaskArray_new 70 3 in
  ∃ a', clear a 1 = Some a' ∧ represents a' (mclear (λ _ _, false) 1).
Proof.
  intros a. destruct bitmask_refines_matrix as [Hnew Hops].
  assert (Hr : represents a (λ _ _, false)) by (apply Hnew; lia).
  assert (Hb : in_bounds a 1 69) by (split; simpl; lia).
  destruct (Hops a (λ _ _, false) 1 69 Hr Hb) as (_ & _ & Hc & _). exact Hc.
Defined.
