(* ===== verification/StripeList.v ===== *)
(** * StripeList (common/stripe_list/stripe_list.hh)

    The assignment of servers to stripe lists: [n - k] parity servers and [k]
    data servers for each of [numLists] lists, chosen by load
    ([pickMin]) or at random ([pickRand]); the mapping of keys to a list and a
    data server; and the inverse mapping of a server to its places.

    [USE_CONSISTENT_HASHING] is not defined in the header, so the list of a key
    is a hash modulo [numLists].  Pointers to servers are values of a type [T];
    an entry of an array that was allocated and not written is [None]. *)

From S2P Require Export HashFunc Bitmask.
From Stdlib Require Import Sorting.Sorted.

Module StripeList.

Record StripeListIndex := MkIndex {
  listId : Z;
  stripeId : Z;
  chunkId : Z;
  isParity : bool;
}.

Section stripe_list.
Context {T : Type}.

Record StripeList := MkStripeList {
  n : Z;
  k : Z;
  numLists : Z;
  numServers : Z;
  generated : bool;
  useAlgo : bool;
  data : BitmaskArray;
  parity : BitmaskArray;
  load : list Z;
  count : list Z;
  servers : list T;
  lists : list (list (option T));
}.

Definition set_parity (l : StripeList) (p : BitmaskArray) : StripeList :=
  MkStripeList (n l) (k l) (numLists l) (numServers l) (generated l) (useAlgo l) (data l) p (load l) (count l) (servers l) (lists l).
Definition set_data (l : StripeList) (d : BitmaskArray) : StripeList :=
  MkStripeList (n l) (k l) (numLists l) (numServers l) (generated l) (useAlgo l) d (parity l) (load l) (count l) (servers l) (lists l).
Definition set_loads (l : StripeList) (lo co : list Z) : StripeList :=
  MkStripeList (n l) (k l) (numLists l) (numServers l) (generated l) (useAlgo l) (data l) (parity l) lo co (servers l) (lists l).
Definition set_lists (l : StripeList) (ls : list (list (option T))) : StripeList :=
  MkStripeList (n l) (k l) (numLists l) (numServers l) (generated l) (useAlgo l) (data l) (parity l) (load l) (count l) (servers l) ls.
Definition set_generated (l : StripeList) : StripeList :=
  MkStripeList (n l) (k l) (numLists l) (numServers l) true (useAlgo l) (data l) (parity l) (load l) (count l) (servers l) (lists l).

(** The vector of servers belongs to the caller, who may replace its entries
    between two calls. *)
Definition set_servers (l : StripeList) (ss : list T) : StripeList :=
  MkStripeList (n l) (k l) (numLists l) (numServers l) (generated l) (useAlgo l) (data l) (parity l) (load l) (count l) ss (lists l).

Definition UINT32_MAX : Z := 4294967295.

(** ** Choosing a server *)

(** The server is in neither bitmap of the list. *)
Definition selectable (l : StripeList) (listIndex i : Z) : option bool :=
  d ← check (data l) listIndex i;
  if (d : bool) then Some false
  else p ← check (parity l) listIndex i; Some (negb p).

(** The state of [pickMin]'s loop: [index], [minLoad], [minCount]. *)
Definition pickMin_step (l : StripeList) (listIndex i : Z) (s : Z * Z * Z) : option (Z * Z * Z) :=
  let '(_, minLoad, minCount) := s in
  lo ← zget (load l) i;
  co ← (if decide (lo < minLoad) then Some 0 else zget (count l) i);
  if decide (lo < minLoad ∨ (lo = minLoad ∧ co < minCount)) then
    free ← selectable l listIndex i;
    if (free : bool) then co ← zget (count l) i; Some (i, lo, co) else Some s
  else Some s.

Definition pickMin (l : StripeList) (listIndex : Z) : option Z :=
  '(index, _, _) ← for_range 0 (numServers l) (pickMin_step l listIndex) (-1, UINT32_MAX, UINT32_MAX);
  Some (if decide (index = -1) then 0 else u32 index).

(** [pickRand] draws from [rand] until the server drawn is selectable; [rs]
    holds the values the following calls of [rand] return. *)
Fixpoint pickRand (l : StripeList) (listIndex : Z) (rs : list Z) : option (Z * list Z) :=
  match rs with
  | [] => None
  | r :: rs' =>
      if decide (numServers l = 0) then None
      else let i := r mod numServers l in
        free ← selectable l listIndex i;
        if (free : bool) then Some (i, rs') else pickRand l listIndex rs'
  end.

Definition pick (l : StripeList) (useAlgo : bool) (listIndex : Z) (rs : list Z) : option (Z * list Z) :=
  if useAlgo then index ← pickMin l listIndex; Some (index, rs) else pickRand l listIndex rs.

(** ** Generating the lists *)
Definition pick_parity (useAlgo : bool) (i _j : Z) (s : StripeList * list Z) : option (StripeList * list Z) :=
  let '(l, rs) := s in
  '(index, rs) ← pick l useAlgo i rs;
  p ← set (parity l) i index;
  Some (set_parity l p, rs).

Definition pick_data (useAlgo : bool) (i _j : Z) (s : StripeList * list Z) : option (StripeList * list Z) :=
  let '(l, rs) := s in
  '(index, rs) ← pick l useAlgo i rs;
  d ← set (data l) i index;
  Some (set_data l d, rs).

(** One server of the sorting loop, shared by [generate] and [update]: the
    places it fills in [list], with the numbers of data and parity places
    filled so far. *)
Definition place (l : StripeList) (i j : Z) (s : list (option T) * Z * Z) : option (list (option T) * Z * Z) :=
  let '(row, dataCount, parityCount) := s in
  d ← check (data l) i j;
  if (d : bool) then
    x ← zget (servers l) j;
    row ← zset row dataCount (Some x);
    Some (row, dataCount + 1, parityCount)
  else
    p ← check (parity l) i j;
    if (p : bool) then
      x ← zget (servers l) j;
      row ← zset row (u32 (k l + parityCount)) (Some x);
      Some (row, dataCount, parityCount + 1)
    else Some s.

(** What [generate] does to the loads in the same iteration. *)
Definition charge (l : StripeList) (i j : Z) (s : list Z * list Z) : option (list Z * list Z) :=
  let '(lo, co) := s in
  d ← check (data l) i j;
  p ← check (parity l) i j;
  if (d : bool) || (p : bool) then
    x ← zget lo j;
    lo ← zset lo j (u32 (x + (if d then 1 else k l)));
    y ← zget co j;
    co ← zset co j (u32 (y + 1));
    Some (lo, co)
  else Some s.

Definition place_and_charge (l : StripeList) (i j : Z)
    (s : (list (option T) * Z * Z) * (list Z * list Z)) : option ((list (option T) * Z * Z) * (list Z * list Z)) :=
  row ← place l i j s.1;
  loads ← charge l i j s.2;
  Some (row, loads).

Definition generate_list (useAlgo : bool) (i : Z) (s : StripeList * list Z) : option (StripeList * list Z) :=
  s ← for_range 0 (u32 (n s.1 - k s.1)) (pick_parity useAlgo i) s;
  '(l, rs) ← for_range 0 (k s.1) (pick_data useAlgo i) s;
  row ← zget (lists l) i;
  '(row, _, _, (lo, co)) ← for_range 0 (numServers l) (place_and_charge l i) ((row, 0, 0), (load l, count l));
  ls ← zset (lists l) i row;
  Some (set_lists (set_loads l lo co) ls, rs).

Definition generate (l : StripeList) (useAlgo : bool) (rs : list Z) : option (StripeList * list Z) :=
  if generated l then Some (l, rs)
  else
    '(l, rs) ← for_range 0 (numLists l) (generate_list useAlgo) (l, rs);
    Some (set_generated l, rs).

Definition blank (n0 k0 nl : Z) (ss : list T) (algo : bool) : StripeList :=
  let ns := u32 (zlen ss) in
  MkStripeList n0 k0 nl ns false algo
    (BitmaskArray_new (zlen ss) nl) (BitmaskArray_new (zlen ss) nl)
    (replicate (Z.to_nat ns) 0) (replicate (Z.to_nat ns) 0) ss
    (replicate (Z.to_nat nl) (replicate (Z.to_nat n0) None)).

Definition StripeList_new (n0 k0 nl : Z) (ss : list T) (algo : bool) (rs : list Z) : option (StripeList * list Z) :=
  generate (blank n0 k0 nl ss algo) algo rs.

(** ** Reading the lists *)

(** [ret[ i ]], for an entry that has been written. *)
Definition entry (row : list (option T)) (i : Z) : option T :=
  x ← zget row i; x.

Definition entries (row : list (option T)) (lo cnt : Z) : option (list T) :=
  mapM (λ i, entry row (lo + i)) (seqZ 0 cnt).

Definition listIndexOf (l : StripeList) (hashValue : Z) : option Z :=
  h ← hash1 (le_bytes 4 hashValue) 4;
  if decide (numLists l = 0) then None else Some (h mod numLists l).

(** [get( key, keySize, data, parity, dataIndexPtr )]: the list, the index of
    the data server, that server and the parity servers. *)
Definition get (l : StripeList) (key : list byte) (keySize : Z) : option (Z * Z * T * list T) :=
  hashValue ← hash1 key keySize;
  dataIndex ← (if decide (k l = 0) then None else Some (hashValue mod k l));
  listIndex ← listIndexOf l hashValue;
  ret ← zget (lists l) listIndex;
  ps ← entries ret (k l) (u32 (n l - k l));
  d ← entry ret dataIndex;
  Some (listIndex, dataIndex, d, ps).

(** The same call with [full]: all data servers. *)
Definition get_full (l : StripeList) (key : list byte) (keySize : Z) : option (Z * Z * list T * list T) :=
  hashValue ← hash1 key keySize;
  dataIndex ← (if decide (k l = 0) then None else Some (hashValue mod k l));
  listIndex ← listIndexOf l hashValue;
  ret ← zget (lists l) listIndex;
  ps ← entries ret (k l) (u32 (n l - k l));
  ds ← entries ret 0 (k l);
  Some (listIndex, dataIndex, ds, ps).

Definition getByHash (l : StripeList) (hashValue : Z) : option (Z * list T * list T) :=
  listIndex ← listIndexOf l hashValue;
  ret ← zget (lists l) listIndex;
  ps ← entries ret (k l) (u32 (n l - k l));
  ds ← entries ret 0 (k l);
  Some (listIndex, ds, ps).

Definition get_jump (l : StripeList) (listIndex dataIndex jump : Z) : option (Z * T) :=
  ret ← zget (lists l) listIndex;
  index ← hash1 (le_bytes 4 dataIndex) 4;
  index ← (if decide (n l = 0) then None else Some (u32 (index + jump) mod n l));
  x ← entry ret index;
  Some (index, x).

Definition get_chunk (l : StripeList) (listIndex chunkIndex : Z) : option T :=
  ret ← zget (lists l) listIndex;
  entry ret chunkIndex.

Definition get_list (l : StripeList) (listIndex : Z) : option (list T * list T) :=
  ret ← zget (lists l) listIndex;
  ps ← entries ret (k l) (u32 (n l - k l));
  ds ← entries ret 0 (k l);
  Some (ps, ds).

(** [list( index )]: the places of server [index]; its chunk number is the
    number of servers before it in the same bitmap. *)
Definition count_step (a : BitmaskArray) (i j c : Z) : option Z :=
  b ← check a i j; Some (if (b : bool) then c + 1 else c).

Definition list_step (l : StripeList) (index i : Z) (ret : list StripeListIndex) : option (list StripeListIndex) :=
  d ← check (data l) i index;
  if (d : bool) then
    c ← for_range 0 (Z.min index (numServers l)) (count_step (data l) i) 0;
    Some (ret ++ [MkIndex i 0 (u32 c) false])
  else
    p ← check (parity l) i index;
    if (p : bool) then
      c ← for_range 0 (Z.min index (numServers l)) (count_step (parity l) i) (k l);
      Some (ret ++ [MkIndex i 0 (u32 c) true])
    else Some ret.

Definition list_places (l : StripeList) (index : Z) : option (list StripeListIndex) :=
  for_range 0 (numLists l) (list_step l index) [].

Definition update_list (i : Z) (l : StripeList) : option StripeList :=
  row ← zget (lists l) i;
  '(row, _, _) ← for_range 0 (numServers l) (place l i) (row, 0, 0);
  ls ← zset (lists l) i row;
  Some (set_lists l ls).

Definition update (l : StripeList) (rs : list Z) : option (StripeList * list Z) :=
  if generated l then
    l ← for_range 0 (numLists l) update_list l;
    Some (l, rs)
  else generate l true rs.

Context `{EqDecision T}.

(** [search]: the first position of a server in the vector. *)
Fixpoint search_from (ss : list T) (target : T) (cnt : nat) (i : Z) : option Z :=
  match cnt with
  | O => Some (-1)
  | S cnt' =>
      x ← zget ss i;
      if decide (target = x) then Some i else search_from ss target cnt' (i + 1)
  end.
Definition search (l : StripeList) (target : T) : option Z :=
  search_from (servers l) target (Z.to_nat (numServers l)) 0.

Definition getNumList (l : StripeList) : Z := numLists l.
End stripe_list.
Arguments StripeList : clear implicits.

(** ** Members of a row of a bitmap *)
Definition members (M : matrix) (i m : Z) : list Z := filter (λ j, M i j = true) (seqZ 0 m).

Lemma elem_of_members M i m j : j ∈ members M i m ↔ M i j = true ∧ 0 ≤ j < m.
Proof. unfold members. rewrite list_elem_of_filter, elem_of_seqZ. f_equiv. lia. Qed.

Lemma NoDup_members M i m : NoDup (members M i m).
Proof. apply NoDup_filter, NoDup_seqZ. Qed.

Lemma members_0 M i : members M i 0 = [].
Proof. done. Qed.

Lemma members_ext M M' i m : (∀ j, 0 ≤ j < m → M i j = M' i j) → members M i m = members M' i m.
Proof.
  intros H. unfold members. assert (HF : Forall (λ j, M i j = M' i j) (seqZ 0 m)) by (apply Forall_seqZ; intros; apply H; lia).
  induction HF as [|j l Hj _ IH]; [done|]. rewrite !filter_cons, IH, Hj. done.
Qed.

Lemma members_S M i j : 0 ≤ j → members M i (j + 1) = members M i j ++ (if M i j then [j] else []).
Proof.
  intros Hj. unfold members. rewrite seqZ_app, filter_app by lia. f_equal.
  rewrite (seqZ_cons _ 1), (seqZ_nil _ (Z.pred 1)) by lia. rewrite Z.add_0_l.
  rewrite filter_cons, filter_nil. destruct (M i j); by case_decide.
Qed.

Lemma members_empty M i m : (∀ j, 0 ≤ j < m → M i j = false) → members M i m = [].
Proof.
  intros H. destruct (members M i m) as [|j l] eqn:E; [done|].
  assert (Hj : j ∈ members M i m) by (rewrite E; left). apply elem_of_members in Hj as [Hj ?]. rewrite H in Hj by lia. done.
Qed.

Lemma members_mset M i m j : M i j = false → 0 ≤ j < m →
  length (members (mset true M i j) i m) = Datatypes.S (length (members M i m)).
Proof.
  intros Hj Hm. change (Datatypes.S (length (members M i m))) with (length (j :: members M i m)).
  apply Permutation_length, NoDup_Permutation.
  - apply NoDup_members.
  - constructor; [|apply NoDup_members]. intros [H _]%elem_of_members. congruence.
  - intros x. rewrite elem_of_cons, !elem_of_members. unfold mset.
    destruct (decide (i = i ∧ x = j)) as [[_ ->]|E].
    + split; [by left|done].
    + split; [by right|]. intros [->|?]; [by destruct E|done].
Qed.

Lemma seqZ_sorted i cnt : StronglySorted Z.lt (seqZ i (Z.of_nat cnt)).
Proof.
  revert i. induction cnt as [|cnt IH]; intros i; [constructor|].
  rewrite seqZ_cons by lia. replace (Z.pred (Z.of_nat (Datatypes.S cnt))) with (Z.of_nat cnt) by lia.
  constructor; [apply IH|]. apply Forall_seqZ. lia.
Qed.

Lemma members_sorted M i m : StronglySorted Z.lt (members M i m).
Proof.
  unfold members. destruct (decide (0 ≤ m)) as [Hm|Hm]; [|rewrite seqZ_nil by lia; constructor].
  rewrite <- (Z2Nat.id m) by done. induction (seqZ_sorted 0 (Z.to_nat m)) as [|j l Hl IH Hall]; [constructor|].
  rewrite filter_cons. case_decide; [|done]. constructor; [done|].
  rewrite Forall_forall in Hall |- *. intros x [_ ?]%list_elem_of_filter. auto.
Qed.

(** A row that two bitmaps do not fill has a free place. *)
Lemma free_exists Md Mp i m :
  (Z.of_nat (length (members Md i m)) + Z.of_nat (length (members Mp i m)) < m) →
  ∃ j, 0 ≤ j < m ∧ Md i j = false ∧ Mp i j = false.
Proof.
  intros Hlt.
  destruct (decide (Exists (λ j, Md i j = false ∧ Mp i j = false) (seqZ 0 m))) as [He|Hn].
  - apply Exists_exists in He as (j & Hj%elem_of_seqZ & ?). exists j. split; [lia|done].
  - exfalso. apply not_Exists_Forall in Hn; [|intros j; apply _].
    assert (Hsub : seqZ 0 m ⊆+ members Md i m ++ members Mp i m).
    { apply NoDup_submseteq; [apply NoDup_seqZ|]. intros j Hj.
      pose proof (proj1 (Forall_forall _ _) Hn j Hj) as Hj'. apply elem_of_seqZ in Hj.
      rewrite elem_of_app, !elem_of_members. destruct (Md i j) eqn:E1; [left; split; [done|lia]|].
      destruct (Mp i j) eqn:E2; [right; split; [done|lia]|]. exfalso. by apply Hj'. }
    apply submseteq_length in Hsub. rewrite length_seqZ, length_app in Hsub. lia.
Qed.

(** The place of a member is the number of members before it. *)
Lemma members_lookup M i m j : M i j = true → 0 ≤ j < m →
  members M i m !! length (members M i j) = Some j.
Proof.
  intros HM Hj. unfold members. replace m with (j + (m - j)) by lia.
  rewrite seqZ_app, filter_app by lia. rewrite lookup_app_r by lia. rewrite Nat.sub_diag.
  rewrite (seqZ_cons (0 + j)) by lia. rewrite filter_cons, Z.add_0_l. by case_decide.
Qed.

Lemma members_lookup_inv M i m c j : members M i m !! c = Some j → c = length (members M i j) ∧ M i j = true ∧ 0 ≤ j < m.
Proof.
  intros Hc. pose proof (list_elem_of_lookup_2 _ _ _ Hc) as [HM Hj]%elem_of_members. split; [|done].
  eapply NoDup_lookup; [apply (NoDup_members M i m)|done|by apply members_lookup].
Qed.

(** ** Choosing a server *)
Section correct.
Context {T : Type}.
Context (n0 k0 nl : Z) (ss : list T).
Let m := zlen ss.

(** The parameters: fewer servers than 2^31 since [pickMin] keeps an index in
    an [int32_t], and loads that stay below [UINT32_MAX]. *)
Context (Hk : 1 ≤ k0 ≤ n0) (Hm : n0 ≤ m < 2 ^ 31) (Hnl : 0 ≤ nl < 2 ^ 32) (Hload : nl * k0 < UINT32_MAX).

(** [l] has these parameters, and its bitmaps stand for [Md] and [Mp]. *)
Record shape (l : StripeList T) (Md Mp : matrix) : Prop := {
  sh_n : n l = n0;
  sh_k : k l = k0;
  sh_lists : numLists l = nl;
  sh_servers : numServers l = m;
  sh_vector : servers l = ss;
  sh_data : represents (data l) Md;
  sh_parity : represents (parity l) Mp;
  sh_dsize : size (data l) = m ∧ Bitmask.count (data l) = nl;
  sh_psize : size (parity l) = m ∧ Bitmask.count (parity l) = nl;
}.

Definition free (Md Mp : matrix) (i j : Z) : Prop := 0 ≤ j < m ∧ Md i j = false ∧ Mp i j = false.

Lemma check_data l Md Mp i j : shape l Md Mp → 0 ≤ i < nl → 0 ≤ j < m → check (data l) i j = Some (Md i j).
Proof. intros [] Hi Hj. apply sh_data0. split; lia. Qed.
Lemma check_parity l Md Mp i j : shape l Md Mp → 0 ≤ i < nl → 0 ≤ j < m → check (parity l) i j = Some (Mp i j).
Proof. intros [] Hi Hj. apply sh_parity0. split; lia. Qed.

Lemma selectable_spec l Md Mp i j : shape l Md Mp → 0 ≤ i < nl → 0 ≤ j < m →
  selectable l i j = Some (bool_decide (free Md Mp i j)).
Proof.
  intros Hs Hi Hj. unfold selectable. rewrite (check_data l Md Mp), (check_parity l Md Mp) by done. simpl.
  unfold free. destruct (Md i j), (Mp i j); simpl; f_equal; symmetry;
    (by apply bool_decide_eq_true_2) || (apply bool_decide_eq_false_2; by intros (_ & ? & ?)).
Qed.

(** The loads of the servers, below [b]. *)
Definition loads_below (b : Z) (l : StripeList T) : Prop :=
  zlen (load l) = m ∧ zlen (count l) = m ∧
  ∀ j, 0 ≤ j < m → ∃ lo co, zget (load l) j = Some lo ∧ zget (count l) j = Some co ∧ 0 ≤ lo ≤ b * k0 ∧ 0 ≤ co ≤ b.

(** The server [pickMin] chooses: the least loaded free one, by load and then
    by count. *)
Definition lightest (l : StripeList T) (lo co : Z) (j : Z) : Prop :=
  ∀ lo' co', zget (load l) j = Some lo' → zget (count l) j = Some co' → lo < lo' ∨ (lo = lo' ∧ co ≤ co').

(** One server of the loop: it becomes the choice when it is free and lighter. *)
Lemma pickMin_step_spec l Md Mp i j index ml mc lo co :
  shape l Md Mp → 0 ≤ i < nl → 0 ≤ j < m → zget (load l) j = Some lo → zget (count l) j = Some co →
  pickMin_step l i j (index, ml, mc) =
    Some (if decide (free Md Mp i j ∧ (lo < ml ∨ lo = ml ∧ co < mc)) then (j, lo, co) else (index, ml, mc)).
Proof.
  intros Hs Hi Hj Hlo Hco. unfold pickMin_step. rewrite Hlo. cbn [mbind option_bind].
  assert (Hc : ∃ c, (if decide (lo < ml) then Some 0 else zget (count l) j) = Some c ∧
    ((lo < ml ∨ lo = ml ∧ c < mc) ↔ (lo < ml ∨ lo = ml ∧ co < mc))).
  { destruct (decide (lo < ml)) as [Hlt|]; [exists 0|exists co]; (split; [done|]); [|done].
    split; intros _; by left. }
  destruct Hc as (c & -> & Hc). cbn [mbind option_bind].
  destruct (decide (lo < ml ∨ lo = ml ∧ c < mc)) as [Hd|Hd].
  - rewrite (selectable_spec l Md Mp) by done. cbn [mbind option_bind].
    destruct (decide (free Md Mp i j)) as [Hf|Hf].
    + rewrite bool_decide_eq_true_2 by done. rewrite Hco. simpl. rewrite decide_True; [done|].
      split; [done|]. by apply Hc.
    + rewrite bool_decide_eq_false_2 by done. rewrite decide_False; [done|]. by intros [? _].
  - rewrite decide_False; [done|]. intros [_ ?]. apply Hd. by apply Hc.
Qed.

(** What the loop has found after the servers below [e]. *)
Definition found_min (l : StripeList T) (Md Mp : matrix) (i e : Z) (s : Z * Z * Z) : Prop :=
  let '(index, ml, mc) := s in
  (index = -1 ∧ ml = UINT32_MAX ∧ mc = UINT32_MAX ∧ ∀ j, j < e → ¬ free Md Mp i j) ∨
  (index < e ∧ free Md Mp i index ∧ zget (load l) index = Some ml ∧ zget (count l) index = Some mc ∧
   ∀ j, j < e → free Md Mp i j → lightest l ml mc j).

Lemma found_min_step l Md Mp i j index ml mc lo co :
  zget (load l) j = Some lo → zget (count l) j = Some co → lo < UINT32_MAX →
  found_min l Md Mp i j (index, ml, mc) →
  found_min l Md Mp i (j + 1)
    (if decide (free Md Mp i j ∧ (lo < ml ∨ lo = ml ∧ co < mc)) then (j, lo, co) else (index, ml, mc)).
Proof.
  clear Hk Hm Hnl Hload. intros Hlo Hco Hmax HP.
  assert (HJ : ∀ a b, (a < lo ∨ a = lo ∧ b ≤ co) → lightest l a b j).
  { intros a b Hab lo' co' E1 E2. rewrite Hlo in E1. rewrite Hco in E2. crush_hyps. lia. }
  destruct (decide (free Md Mp i j ∧ _)) as [[Hfr Hlt]|Hn]; unfold found_min in *.
  - right. split; [lia|]. split; [done|]. split; [done|]. split; [done|].
    intros j' Hj' Hfr'. destruct (decide (j' = j)) as [->|Hne]; [apply HJ; right; split; [done|reflexivity]|].
    destruct HP as [(_ & _ & _ & Hno)|(_ & _ & _ & _ & Hmin)]; [by destruct (Hno j' ltac:(lia))|].
    intros lo' co' E1 E2. destruct (Hmin j' ltac:(lia) Hfr' lo' co' E1 E2); lia.
  - destruct HP as [(-> & -> & -> & Hno)|(Hlt & Hfi & Hil & Hic & Hmin)].
    + left. split; [done|]. split; [done|]. split; [done|]. intros j' Hj' Hfr'.
      destruct (decide (j' = j)) as [->|Hne]; [|apply (Hno j'); [lia|done]]. apply Hn. auto.
    + right. split; [lia|]. split; [done|]. split; [done|]. split; [done|]. intros j' Hj' Hfr'.
      destruct (decide (j' = j)) as [->|Hne]; [|apply Hmin; [lia|done]]. apply HJ.
      destruct (decide (lo < ml ∨ lo = ml ∧ co < mc)); [by destruct Hn|lia].
Qed.

Lemma pickMin_spec l Md Mp i b :
  shape l Md Mp → loads_below b l → 0 ≤ b ≤ nl → 0 ≤ i < nl → (∃ j, free Md Mp i j) →
  ∃ j lo co, pickMin l i = Some j ∧ free Md Mp i j ∧
    zget (load l) j = Some lo ∧ zget (count l) j = Some co ∧
    ∀ j', free Md Mp i j' → lightest l lo co j'.
Proof.
  intros Hs (_ & _ & Hl) Hb Hi [f Hf]. unfold pickMin. rewrite (sh_servers _ _ _ Hs).
  destruct (for_range_inv (found_min l Md Mp i) 0 m (pickMin_step l i) (-1, UINT32_MAX, UINT32_MAX))
    as ([[index ml] mc] & -> & HP); [lia| | |].
  - intros j [[index ml] mc] Hj HP. destruct (Hl j Hj) as (lo & co & Hlo & Hco & Blo & Bco).
    rewrite (pickMin_step_spec l Md Mp i j _ _ _ lo co) by done. eexists. split; [done|].
    apply found_min_step; [done..| |done]. nia.
  - left. split_and!; try done. intros j Hj [? _]. lia.
  - cbn [mbind option_bind]. destruct HP as [(_ & _ & _ & Hno)|(Hlt & Hfi & Hil & Hic & Hmin)].
    { destruct (Hno f); [apply Hf|done]. }
    exists index, ml, mc. pose proof (proj1 Hfi). rewrite decide_False by lia. rewrite u32_small by lia.
    split; [done|]. split; [done|]. split; [done|]. split; [done|].
    intros j' Hj'. apply Hmin; [apply Hj'|done].
Qed.

(** A stream of random numbers that draws every server in each of [r] rounds. *)
Fixpoint rounds (r : nat) (rs : list Z) : Prop :=
  match r with
  | O => True
  | Datatypes.S r' => ∃ b rest, rs = b ++ rest ∧ (∀ j, 0 ≤ j < m → ∃ x, x ∈ b ∧ x mod m = j) ∧ rounds r' rest
  end.

Lemma rounds_cons r x rs : rounds r rs → rounds r (x :: rs).
Proof.
  destruct r as [|r]; [done|]. intros (b & rest & -> & Hb & Hr). exists (x :: b), rest. split; [done|].
  split; [|done]. intros j Hj. destruct (Hb j Hj) as (y & ? & ?). exists y. split; [by right|done].
Qed.

Lemma rounds_app r xs rs : rounds r rs → rounds r (xs ++ rs).
Proof. intros. induction xs; [done|]. by apply rounds_cons. Qed.

Lemma pickRand_spec l Md Mp i r rs :
  shape l Md Mp → 0 ≤ i < nl → (∃ j, free Md Mp i j) → rounds (Datatypes.S r) rs →
  ∃ j rs', pickRand l i rs = Some (j, rs') ∧ free Md Mp i j ∧ rounds r rs'.
Proof.
  intros Hs Hi [f Hf] (b & rest & -> & Hb & Hr). destruct (Hb f (proj1 Hf)) as (x & Hx & Hxf). clear Hb.
  induction b as [|y b IH]; [by apply elem_of_nil in Hx|]. simpl.
  rewrite (sh_servers _ _ _ Hs). rewrite decide_False by lia.
  rewrite (selectable_spec l Md Mp) by (done || lia). cbn [mbind option_bind].
  destruct (bool_decide (free Md Mp i (y mod m))) eqn:E.
  - apply bool_decide_eq_true_1 in E. eexists _, _. split; [done|]. split; [done|]. by apply rounds_app.
  - apply bool_decide_eq_false_1 in E. apply elem_of_cons in Hx as [<-|Hx]; [by rewrite Hxf in E|]. by apply IH.
Qed.

(** Either way of choosing finds a free server when there is one; the random
    one uses up a round. *)
Definition enough (algo : bool) (r : nat) (rs : list Z) : Prop := if algo then True else rounds r rs.

Lemma pick_spec algo l Md Mp i b r rs :
  shape l Md Mp → loads_below b l → 0 ≤ b ≤ nl → 0 ≤ i < nl → (∃ j, free Md Mp i j) →
  enough algo (Datatypes.S r) rs →
  ∃ j rs', pick l algo i rs = Some (j, rs') ∧ free Md Mp i j ∧ enough algo r rs'.
Proof.
  intros Hs Hl Hb Hi Hf He. destruct algo; simpl in *.
  - destruct (pickMin_spec l Md Mp i b) as (j & lo & co & -> & ? & _); [done..|]. eexists _, _. done.
  - by apply (pickRand_spec l Md Mp i r rs).
Qed.

(** ** Selecting the servers of one list *)
Definition off_row (M M' : matrix) (i : Z) : Prop := ∀ i' j, i' ≠ i → M' i' j = M i' j.
Definition disjoint_row (Md Mp : matrix) (i : Z) : Prop := ∀ j, 0 ≤ j < m → Md i j = true → Mp i j = false.
Definition count_row (M : matrix) (i : Z) : Z := zlen (members M i m).

Lemma off_row_mset v M M' i j : off_row M M' i → off_row M (mset v M' i j) i.
Proof. intros H i' j' Hi. unfold mset. rewrite decide_False by (by intros []). by apply H. Qed.

Lemma disjoint_row_mset_r Md Mp i j : free Md Mp i j → disjoint_row Md Mp i → disjoint_row Md (mset true Mp i j) i.
Proof.
  intros (_ & Hd & _) H j' Hj' Ht. unfold mset. destruct (decide (i = i ∧ j' = j)) as [[_ ->]|]; [congruence|]. by apply H.
Qed.
Lemma disjoint_row_mset_l Md Mp i j : free Md Mp i j → disjoint_row Md Mp i → disjoint_row (mset true Md i j) Mp i.
Proof.
  intros (_ & _ & Hp) H j' Hj'. unfold mset. destruct (decide (i = i ∧ j' = j)) as [[_ ->]|]; [done|]. by apply H.
Qed.
Lemma count_row_mset M i j : M i j = false → 0 ≤ j < m → count_row (mset true M i j) i = count_row M i + 1.
Proof. intros. unfold count_row, zlen. rewrite members_mset by done. lia. Qed.

Lemma pick_parity_step algo l Md Mp i j b r rs :
  shape l Md Mp → loads_below b l → 0 ≤ b ≤ nl → 0 ≤ i < nl →
  count_row Md i + count_row Mp i < m → enough algo (Datatypes.S r) rs →
  ∃ p' x rs', pick_parity algo i j (l, rs) = Some (set_parity l p', rs') ∧
    shape (set_parity l p') Md (mset true Mp i x) ∧ free Md Mp i x ∧ enough algo r rs'.
Proof.
  intros Hs Hl Hb Hi Hc He.
  destruct (pick_spec algo l Md Mp i b r rs) as (x & rs' & Hp & Hf & He'); try done; [by apply free_exists|].
  unfold pick_parity. rewrite Hp. cbn [mbind option_bind].
  assert (Hin : in_bounds (parity l) i x).
  { destruct (sh_psize _ _ _ Hs) as [Es Ec]. split; [by rewrite Ec|rewrite Es; apply Hf]. }
  destruct (set_represents _ _ i x (sh_parity _ _ _ Hs) Hin) as (p' & -> & Hr & Hsz & Hct & _). simpl.
  exists p', x, rs'. split; [done|]. split; [|done].
  destruct Hs. constructor; simpl; try done. by rewrite Hsz, Hct.
Qed.

Lemma pick_data_step algo l Md Mp i j b r rs :
  shape l Md Mp → loads_below b l → 0 ≤ b ≤ nl → 0 ≤ i < nl →
  count_row Md i + count_row Mp i < m → enough algo (Datatypes.S r) rs →
  ∃ d' x rs', pick_data algo i j (l, rs) = Some (set_data l d', rs') ∧
    shape (set_data l d') (mset true Md i x) Mp ∧ free Md Mp i x ∧ enough algo r rs'.
Proof.
  intros Hs Hl Hb Hi Hc He.
  destruct (pick_spec algo l Md Mp i b r rs) as (x & rs' & Hp & Hf & He'); try done; [by apply free_exists|].
  unfold pick_data. rewrite Hp. cbn [mbind option_bind].
  assert (Hin : in_bounds (data l) i x).
  { destruct (sh_dsize _ _ _ Hs) as [Es Ec]. split; [by rewrite Ec|rewrite Es; apply Hf]. }
  destruct (set_represents _ _ i x (sh_data _ _ _ Hs) Hin) as (d' & -> & Hr & Hsz & Hct & _). simpl.
  exists d', x, rs'. split; [done|]. split; [|done].
  destruct Hs. constructor; simpl; try done. by rewrite Hsz, Hct.
Qed.

Lemma parity_loop algo l Md Mp i b cnt r rs :
  shape l Md Mp → loads_below b l → 0 ≤ b ≤ nl → 0 ≤ i < nl → 0 ≤ cnt →
  count_row Md i + cnt ≤ m → count_row Mp i = 0 → disjoint_row Md Mp i →
  enough algo (Z.to_nat cnt + r) rs →
  ∃ p' Mp' rs', for_range 0 cnt (pick_parity algo i) (l, rs) = Some (set_parity l p', rs') ∧
    shape (set_parity l p') Md Mp' ∧ off_row Mp Mp' i ∧ count_row Mp' i = cnt ∧ disjoint_row Md Mp' i ∧
    enough algo r rs'.
Proof.
  intros Hs Hl Hb Hi Hcnt Hroom Hz Hdis He.
  edestruct (for_range_inv (λ j s, ∃ p' Mp' rs', s = (set_parity l p', rs') ∧
    shape (set_parity l p') Md Mp' ∧ off_row Mp Mp' i ∧ count_row Mp' i = j ∧ disjoint_row Md Mp' i ∧
    enough algo (Z.to_nat (cnt - j) + r) rs') 0 cnt (pick_parity algo i) (l, rs))
    as (s & Hrun & (p' & Mp' & rs' & -> & ?)); [done| | |].
  - intros j s Hj (p' & Mp' & rs' & -> & Hs' & Ho & Hc & Hd & He').
    replace (Z.to_nat (cnt - j) + r)%nat with (Datatypes.S (Z.to_nat (cnt - (j + 1)) + r)) in He' by lia.
    destruct (pick_parity_step algo (set_parity l p') Md Mp' i j b _ rs' Hs' Hl Hb Hi ltac:(lia) He')
      as (p2 & x & rs2 & -> & Hs2 & Hf & He2).
    eexists. split; [done|]. exists p2, (mset true Mp' i x), rs2. split; [done|]. split; [done|].
    split; [by apply off_row_mset|]. split; [rewrite count_row_mset by apply Hf; lia|].
    split; [by apply disjoint_row_mset_r|done].
  - exists (parity l), Mp, rs. split; [by destruct l|]. split; [by destruct l|]. rewrite Z.sub_0_r. done.
  - replace (Z.to_nat (cnt - cnt)) with O in * by lia. eauto 10.
Qed.

Lemma data_loop algo l Md Mp i b cnt r rs :
  shape l Md Mp → loads_below b l → 0 ≤ b ≤ nl → 0 ≤ i < nl → 0 ≤ cnt →
  count_row Mp i + cnt ≤ m → count_row Md i = 0 → disjoint_row Md Mp i →
  enough algo (Z.to_nat cnt + r) rs →
  ∃ d' Md' rs', for_range 0 cnt (pick_data algo i) (l, rs) = Some (set_data l d', rs') ∧
    shape (set_data l d') Md' Mp ∧ off_row Md Md' i ∧ count_row Md' i = cnt ∧ disjoint_row Md' Mp i ∧
    enough algo r rs'.
Proof.
  intros Hs Hl Hb Hi Hcnt Hroom Hz Hdis He.
  edestruct (for_range_inv (λ j s, ∃ d' Md' rs', s = (set_data l d', rs') ∧
    shape (set_data l d') Md' Mp ∧ off_row Md Md' i ∧ count_row Md' i = j ∧ disjoint_row Md' Mp i ∧
    enough algo (Z.to_nat (cnt - j) + r) rs') 0 cnt (pick_data algo i) (l, rs))
    as (s & Hrun & (p' & Mp' & rs' & -> & ?)); [done| | |].
  - intros j s Hj (p' & Mp' & rs' & -> & Hs' & Ho & Hc & Hd & He').
    replace (Z.to_nat (cnt - j) + r)%nat with (Datatypes.S (Z.to_nat (cnt - (j + 1)) + r)) in He' by lia.
    destruct (pick_data_step algo (set_data l p') Mp' Mp i j b _ rs' Hs' Hl Hb Hi ltac:(lia) He')
      as (p2 & x & rs2 & -> & Hs2 & Hf & He2).
    eexists. split; [done|]. exists p2, (mset true Mp' i x), rs2. split; [done|]. split; [done|].
    split; [by apply off_row_mset|]. split; [rewrite count_row_mset by apply Hf; lia|].
    split; [by apply disjoint_row_mset_l|done].
  - exists (data l), Md, rs. split; [by destruct l|]. split; [by destruct l|]. rewrite Z.sub_0_r. done.
  - replace (Z.to_nat (cnt - cnt)) with O in * by lia. eauto 10.
Qed.

(** ** The sorting loop *)

(** The list that a row of the two bitmaps determines: the data servers in
    order, then the parity servers in order. *)
Definition row_of (Md Mp : matrix) (i : Z) : list (option T) :=
  (λ j, ss !! Z.to_nat j) <$> (members Md i m ++ members Mp i m).

Definition full_row (Md Mp : matrix) (i : Z) : Prop :=
  count_row Md i = k0 ∧ count_row Mp i = n0 - k0 ∧ disjoint_row Md Mp i.

Definition holds_at (row : list (option T)) (base : Z) (js : list Z) : Prop :=
  ∀ c j, js !! c = Some j → zget row (base + Z.of_nat c) = Some (ss !! Z.to_nat j).

Definition placed (Md Mp : matrix) (i j : Z) (s : list (option T) * Z * Z) : Prop :=
  let '(row, dc, pc) := s in
  zlen row = n0 ∧ dc = zlen (members Md i j) ∧ pc = zlen (members Mp i j) ∧
  holds_at row 0 (members Md i j) ∧ holds_at row k0 (members Mp i j).

Lemma members_room M i j : M i j = true → 0 ≤ j < m → zlen (members M i j) < count_row M i.
Proof.
  intros HM Hj. pose proof (members_lookup M i m j HM Hj) as H. apply lookup_lt_Some in H. unfold count_row, zlen. lia.
Qed.

Lemma members_mono M i j : 0 ≤ j ≤ m → zlen (members M i j) ≤ count_row M i.
Proof.
  intros Hj. unfold count_row, members. replace m with (j + (m - j)) by lia.
  rewrite seqZ_app, filter_app by lia. unfold zlen. rewrite length_app. lia.
Qed.

(** Writing the next place of one part of the row keeps what is there. *)
Lemma holds_at_snoc row base js j x row' :
  holds_at row base js → ss !! Z.to_nat j = Some x → zset row (base + zlen js) (Some x) = Some row' →
  holds_at row' base (js ++ [j]).
Proof.
  intros H Hx Hset c j' Hc. apply lookup_app_Some in Hc as [Hc|[Hge Hc]].
  - rewrite (zset_get_ne _ _ _ _ _ Hset); [by apply H|]. apply lookup_lt_Some in Hc. unfold zlen. lia.
  - destruct (c - length js)%nat as [|c'] eqn:E; [|done]. injection Hc as <-.
    replace (base + Z.of_nat c) with (base + zlen js) by (unfold zlen; lia). rewrite Hx. by eapply zset_get_eq.
Qed.

Lemma holds_at_other row base js p x row' :
  holds_at row base js → zset row p x = Some row' → (p < base ∨ base + zlen js ≤ p) → holds_at row' base js.
Proof.
  intros H Hset Hp c j Hc. rewrite (zset_get_ne _ _ _ _ _ Hset); [by apply H|].
  apply lookup_lt_Some in Hc. unfold zlen in Hp. lia.
Qed.

Lemma server_at j : 0 ≤ j < m → ∃ x, zget ss j = Some x ∧ ss !! Z.to_nat j = Some x.
Proof.
  intros Hj. destruct (zget_is_Some ss j Hj) as [x Hx]. exists x. split; [done|].
  unfold zget in Hx. by rewrite decide_True in Hx by lia.
Qed.

Lemma place_step l Md Mp i j s :
  shape l Md Mp → 0 ≤ i < nl → 0 ≤ j < m → full_row Md Mp i → placed Md Mp i j s →
  ∃ s', place l i j s = Some s' ∧ placed Md Mp i (j + 1) s'.
Proof.
  intros Hs Hi Hj (Hcd & Hcp & Hdis). destruct s as [[row dc] pc]. intros (Hrow & -> & -> & Hd & Hp).
  unfold place. rewrite (check_data l Md Mp), (check_parity l Md Mp), (sh_vector _ _ _ Hs) by done.
  cbn [mbind option_bind]. destruct (server_at j Hj) as (x & -> & Hx). cbn [mbind option_bind].
  pose proof (members_mono Md i j ltac:(lia)). pose proof (members_mono Mp i j ltac:(lia)).
  assert (0 ≤ zlen (members Md i j) ∧ 0 ≤ zlen (members Mp i j)) as [Hd0 Hp0] by (unfold zlen; lia).
  unfold placed. rewrite !members_S by lia.
  destruct (Md i j) eqn:Ed.
  - pose proof (members_room Md i j Ed Hj). rewrite (Hdis j Hj Ed), app_nil_r.
    rewrite zset_Some by lia. simpl. eexists. split; [done|]. set (row' := <[_:=_]> row).
    assert (Hset : zset row (zlen (members Md i j)) (Some x) = Some row') by (apply zset_Some; lia).
    split; [by rewrite (zset_zlen _ _ _ _ Hset)|]. split; [unfold zlen; rewrite length_app; simpl; lia|].
    split; [done|]. split; [by eapply holds_at_snoc|]. eapply holds_at_other; [done..|lia].
  - rewrite app_nil_r. destruct (Mp i j) eqn:Ep.
    + pose proof (members_room Mp i j Ep Hj). rewrite (sh_k _ _ _ Hs), u32_small by lia.
      rewrite zset_Some by lia. simpl. eexists. split; [done|]. set (row' := <[_:=_]> row).
      assert (Hset : zset row (k0 + zlen (members Mp i j)) (Some x) = Some row') by (apply zset_Some; lia).
      split; [by rewrite (zset_zlen _ _ _ _ Hset)|]. split; [done|].
      split; [unfold zlen; rewrite length_app; simpl; lia|].
      split; [eapply holds_at_other; [done..|lia]|by eapply holds_at_snoc].
    + rewrite app_nil_r. eexists. done.
Qed.

(** A row with every place written is the row of the bitmaps. *)
Lemma placed_row Md Mp i row dc pc : full_row Md Mp i → placed Md Mp i m (row, dc, pc) → row = row_of Md Mp i.
Proof.
  intros (Hcd & Hcp & _) (Hrow & _ & _ & Hd & Hp). unfold count_row, zlen in *.
  apply list_eq. intros c. unfold row_of. rewrite list_lookup_fmap.
  destruct (decide (c < length (members Md i m))%nat) as [Hc|Hc].
  - rewrite lookup_app_l by lia. apply lookup_lt_is_Some in Hc as [j Hc]. rewrite Hc. simpl.
    specialize (Hd c j Hc). unfold zget in Hd. rewrite decide_True in Hd by lia.
    by replace (Z.to_nat (0 + Z.of_nat c)) with c in Hd by lia.
  - rewrite lookup_app_r by lia.
    destruct (decide (Z.of_nat c < n0)) as [Hn|Hn].
    + destruct (lookup_lt_is_Some_2 (members Mp i m) (c - length (members Md i m))) as [j Hj]; [lia|].
      rewrite Hj. simpl. specialize (Hp _ j Hj). unfold zget in Hp. rewrite decide_True in Hp by lia.
      replace (Z.to_nat (k0 + _)) with c in Hp by lia. done.
    + rewrite (lookup_ge_None_2 row) by lia. by rewrite (lookup_ge_None_2 (members Mp i m)) by lia.
Qed.

Definition charged (b j : Z) (s : list Z * list Z) : Prop :=
  zlen s.1 = m ∧ zlen s.2 = m ∧
  ∀ j', 0 ≤ j' < m → ∃ lo co, zget s.1 j' = Some lo ∧ zget s.2 j' = Some co ∧
    0 ≤ lo ≤ b * k0 + (if decide (j' < j) then k0 else 0) ∧ 0 ≤ co ≤ b + (if decide (j' < j) then 1 else 0).

Lemma charge_step l Md Mp i b j s :
  shape l Md Mp → 0 ≤ i < nl → 0 ≤ b < nl → 0 ≤ j < m → charged b j s →
  ∃ s', charge l i j s = Some s' ∧ charged b (j + 1) s'.
Proof.
  intros Hs Hi Hb Hj. destruct s as [lo co]. intros (Hlo & Hco & Hall). simpl in *. unfold charge.
  rewrite (check_data l Md Mp), (check_parity l Md Mp), (sh_k _ _ _ Hs) by done. cbn [mbind option_bind].
  destruct (Hall j Hj) as (x & y & Hx & Hy & Bx & By). rewrite decide_False in Bx, By by lia.
  assert (Hov : b * k0 + k0 < UINT32_MAX) by nia. assert (b < UINT32_MAX) by nia.
  destruct (Md i j || Mp i j).
  - rewrite Hx, Hy. cbn [mbind option_bind]. set (x' := x + _). set (y' := u32 (y + 1)).
    assert (Bx' : 0 ≤ x' ≤ b * k0 + k0) by (subst x'; destruct (Md i j); lia).
    rewrite (u32_small x') by (unfold UINT32_MAX in *; lia).
    rewrite !zset_Some by lia. simpl. eexists. split; [done|].
    unfold charged; simpl. split; [zsolve|]. split; [zsolve|]. intros j' Hj'. unfold zget. rewrite !decide_True by lia.
    destruct (decide (j' = j)) as [->|Hne].
    + exists x', y'. rewrite !list_lookup_insert_eq by (unfold zlen in *; lia). split; [done|]. split; [done|].
      rewrite !decide_True by lia. subst y'. rewrite u32_small by (unfold UINT32_MAX in *; lia). lia.
    + rewrite !list_lookup_insert_ne by lia. destruct (Hall j' Hj') as (x2 & y2 & Hx2 & Hy2 & B2 & C2).
      exists x2, y2. unfold zget in Hx2, Hy2. rewrite decide_True in Hx2, Hy2 by lia. split; [done|]. split; [done|].
      repeat case_decide; lia.
  - eexists. split; [done|]. split; [done|]. split; [done|]. simpl. intros j' Hj'.
    destruct (Hall j' Hj') as (x2 & y2 & Hx2 & Hy2 & B2 & C2). exists x2, y2. split; [done|]. split; [done|].
    repeat case_decide; lia.
Qed.

(** ** Generating every list *)
Record progress (i : Z) (l : StripeList T) (Md Mp : matrix) : Prop := {
  pr_shape : shape l Md Mp;
  pr_loads : loads_below i l;
  pr_lists : zlen (lists l) = nl;
  pr_rows : ∀ i', 0 ≤ i' < nl → ∃ row, zget (lists l) i' = Some row ∧ zlen row = n0;
  pr_done : ∀ i', 0 ≤ i' < i → full_row Md Mp i' ∧ zget (lists l) i' = Some (row_of Md Mp i');
  pr_todo : ∀ i' j, i ≤ i' → Md i' j = false ∧ Mp i' j = false;
}.

Lemma count_row_empty M i : (∀ j, M i j = false) → count_row M i = 0.
Proof. intros H. unfold count_row. by rewrite members_empty. Qed.

Lemma row_of_ext Md Mp Md' Mp' i :
  (∀ j, Md' i j = Md i j) → (∀ j, Mp' i j = Mp i j) →
  row_of Md' Mp' i = row_of Md Mp i ∧ (full_row Md Mp i → full_row Md' Mp' i).
Proof.
  intros Hd Hp. unfold row_of, full_row, count_row.
  rewrite (members_ext Md' Md), (members_ext Mp' Mp) by auto. split; [done|].
  intros (? & ? & H). split; [done|]. split; [done|]. intros j Hj. rewrite Hd, Hp. auto.
Qed.

(** The sorting loop over a selected row. *)
Lemma sort_loop l Md Mp i row :
  shape l Md Mp → loads_below i l → 0 ≤ i < nl → full_row Md Mp i → zlen row = n0 →
  ∃ dc pc lo co, for_range 0 m (place_and_charge l i) ((row, 0, 0), (load l, count l)) =
      Some ((row_of Md Mp i, dc, pc), (lo, co)) ∧
    loads_below (i + 1) (set_loads l lo co).
Proof.
  intros Hs (Hlo & Hco & Hl) Hi Hf Hrow.
  destruct (for_range_inv (λ j s, placed Md Mp i j s.1 ∧ charged i j s.2) 0 m (place_and_charge l i)
    ((row, 0, 0), (load l, count l))) as ([[[row' dc] pc] [lo co]] & Hrun & Hp & Hc); [lia| | |].
  - intros j s Hj [Hp Hc]. unfold place_and_charge.
    destruct (place_step l Md Mp i j s.1 Hs Hi Hj Hf Hp) as (s1 & -> & H1).
    destruct (charge_step l Md Mp i i j s.2 Hs Hi ltac:(lia) Hj Hc) as (s2 & -> & H2).
    simpl. eexists. split; [done|]. done.
  - split.
    + unfold placed. rewrite !members_0. repeat split; [done|intros ???; done..].
    + split; [done|]. split; [done|]. intros j Hj. destruct (Hl j Hj) as (a & c & ? & ? & ? & ?).
      exists a, c. rewrite !decide_False by lia. split; [done|]. split; [done|]. simpl. lia.
  - rewrite Hrun, (placed_row _ _ _ _ _ _ Hf Hp). exists dc, pc, lo, co. split; [done|].
    destruct Hc as (? & ? & Hc). split; [done|]. split; [done|]. intros j Hj. simpl in *.
    destruct (Hc j Hj) as (a & c & ? & ? & B & C). rewrite !decide_True in B, C by lia.
    exists a, c. split; [done|]. split; [done|]. lia.
Qed.

Lemma generate_list_spec algo i l Md Mp r rs :
  progress i l Md Mp → 0 ≤ i < nl → enough algo (Z.to_nat n0 + r) rs →
  ∃ l' Md' Mp' rs', generate_list algo i (l, rs) = Some (l', rs') ∧ progress (i + 1) l' Md' Mp' ∧ enough algo r rs'.
Proof.
  intros [Hs Hl Hlen Hrows Hdone Htodo] Hi He. unfold generate_list. cbn [fst].
  rewrite (sh_n _ _ _ Hs), (sh_k _ _ _ Hs), u32_small by lia.
  assert (Ed : count_row Md i = 0) by (apply count_row_empty; intros; apply Htodo; lia).
  assert (Ep : count_row Mp i = 0) by (apply count_row_empty; intros; apply Htodo; lia).
  assert (Hdis : disjoint_row Md Mp i) by (intros j _ _; apply Htodo; lia).
  destruct (parity_loop algo l Md Mp i i (n0 - k0) (Z.to_nat k0 + r) rs)
    as (p' & Mp' & rs1 & -> & Hs1 & Hoff1 & Hc1 & Hdis1 & He1);
    [done|done|lia|done|lia|lia|done|done|by replace (Z.to_nat (n0 - k0) + _)%nat with (Z.to_nat n0 + r)%nat by lia|].
  cbn [mbind option_bind fst]. replace (k (set_parity l p')) with k0 by (symmetry; apply Hs1).
  destruct (data_loop algo (set_parity l p') Md Mp' i i k0 r rs1)
    as (d' & Md' & rs2 & -> & Hs2 & Hoff2 & Hc2 & Hdis2 & He2); [done|done|lia|done|lia|lia|done|done|done|].
  cbn [mbind option_bind]. set (l2 := set_data (set_parity l p') d') in *.
  destruct (Hrows i Hi) as (row & Hrow & Hrlen).
  replace (zget (lists l2) i) with (Some row) by done. cbn [mbind option_bind].
  rewrite (sh_servers _ _ _ Hs2).
  assert (Hf : full_row Md' Mp' i) by done.
  destruct (sort_loop l2 Md' Mp' i row) as (dc & pc & lo & co & -> & Hl2); [done..|]. cbn [mbind option_bind].
  rewrite zset_Some by (change (lists l2) with (lists l); lia). simpl.
  set (ls := <[_:=_]> _). assert (Hset : zset (lists l) i (row_of Md' Mp' i) = Some ls) by (apply zset_Some; lia).
  eexists _, Md', Mp', rs2. split; [done|]. split; [|done]. constructor; simpl.
  - by destruct Hs2.
  - exact Hl2.
  - by rewrite (zset_zlen _ _ _ _ Hset).
  - intros i' Hi'. destruct (decide (i' = i)) as [->|Hne].
    + eexists. split; [by eapply zset_get_eq|]. destruct Hf as (F1 & F2 & _). unfold count_row in *.
      unfold row_of. unfold zlen in *. rewrite length_fmap, length_app. lia.
    + rewrite (zset_get_ne _ _ _ _ _ Hset) by done. auto.
  - intros i' Hi'. destruct (decide (i' = i)) as [->|Hne]; [split; [done|by eapply zset_get_eq]|].
    rewrite (zset_get_ne _ _ _ _ _ Hset) by done. destruct (Hdone i' ltac:(lia)) as [Hf' Hg].
    destruct (row_of_ext Md Mp Md' Mp' i') as [-> Hext]; [intros; by apply Hoff2|intros; by apply Hoff1|]. auto.
  - intros i' j Hi'. rewrite (Hoff1 i' j), (Hoff2 i' j) by lia. apply Htodo. lia.
Qed.

(** A complete set of lists. *)
Record valid (l : StripeList T) (Md Mp : matrix) : Prop := {
  va_shape : shape l Md Mp;
  va_gen : generated l = true;
  va_len : zlen (lists l) = nl;
  va_rows : ∀ i, 0 ≤ i < nl → full_row Md Mp i ∧ zget (lists l) i = Some (row_of Md Mp i);
}.

Lemma blank_progress algo : progress 0 (blank n0 k0 nl ss algo) (λ _ _, false) (λ _ _, false).
Proof.
  assert (Hns : u32 (zlen ss) = m) by (apply u32_small; lia).
  assert (Hr : represents (BitmaskArray_new m nl) (λ _ _, false)) by (apply new_represents; [lia..|nia]).
  constructor; simpl; rewrite ?Hns.
  - by constructor.
  - unfold loads_below; simpl. rewrite Hns. split; [zsolve|]. split; [zsolve|]. intros j Hj. exists 0, 0.
    unfold zget. rewrite !decide_True by lia. rewrite !lookup_replicate_2 by lia. done.
  - zsolve.
  - intros i Hi. exists (replicate (Z.to_nat n0) None). unfold zget. rewrite decide_True by lia.
    rewrite lookup_replicate_2 by lia. split; [done|zsolve].
  - intros i Hi. lia.
  - done.
Qed.

Lemma new_valid algo rs : enough algo (Z.to_nat (nl * n0)) rs →
  ∃ l rs' Md Mp, StripeList_new n0 k0 nl ss algo rs = Some (l, rs') ∧ valid l Md Mp.
Proof.
  intros He. unfold StripeList_new, generate. cbn [generated blank numLists].
  destruct (for_range_inv (λ i s, ∃ Md Mp, progress i s.1 Md Mp ∧ enough algo (Z.to_nat ((nl - i) * n0)) s.2)
    0 nl (generate_list algo) (blank n0 k0 nl ss algo, rs)) as ([l rs'] & -> & Md & Mp & Hp & _); [lia| | |].
  - intros i [l rs0] Hi (Md & Mp & Hp & He0). cbn [fst snd] in *.
    replace (Z.to_nat ((nl - i) * n0)) with (Z.to_nat n0 + Z.to_nat ((nl - (i + 1)) * n0))%nat in He0 by nia.
    destruct (generate_list_spec algo i l Md Mp _ rs0 Hp Hi He0) as (l' & Md' & Mp' & rs' & -> & Hp' & He').
    eexists. split; [done|]. eauto.
  - exists (λ _ _, false), (λ _ _, false). split; [apply blank_progress|]. by rewrite Z.sub_0_r.
  - cbn [mbind option_bind fst] in *. exists (set_generated l), rs', Md, Mp. split; [done|]. destruct Hp. constructor; try done.
    by destruct pr_shape0.
Qed.

(** ** Reading a complete set of lists *)
Lemma entry_row_of Md Mp i c : 0 ≤ c →
  entry (row_of Md Mp i) c =
    (j ← (members Md i m ++ members Mp i m) !! Z.to_nat c; ss !! Z.to_nat j).
Proof.
  intros Hc. unfold entry, zget, row_of. rewrite decide_True by done. rewrite list_lookup_fmap.
  by destruct (_ !! Z.to_nat c).
Qed.

(** The server numbers at the places of list [i], data first. *)
Definition places (Md Mp : matrix) (i : Z) : list Z := members Md i m ++ members Mp i m.

Lemma places_range Md Mp i j : j ∈ places Md Mp i → 0 ≤ j < m.
Proof. unfold places. rewrite elem_of_app, !elem_of_members. by intros [[_ ?]|[_ ?]]. Qed.

Lemma places_len Md Mp i : full_row Md Mp i → zlen (places Md Mp i) = n0.
Proof. intros (H1 & H2 & _). unfold count_row, places, zlen in *. rewrite length_app. lia. Qed.

Lemma NoDup_places Md Mp i : full_row Md Mp i → NoDup (places Md Mp i).
Proof.
  intros (_ & _ & Hd). apply NoDup_app. split; [apply NoDup_members|]. split; [|apply NoDup_members].
  intros j [H1 Hj]%elem_of_members [H2 _]%elem_of_members. rewrite (Hd j Hj H1) in H2. done.
Qed.

Lemma get_chunk_valid l Md Mp i c : valid l Md Mp → 0 ≤ i < nl → 0 ≤ c < n0 →
  ∃ j x, places Md Mp i !! Z.to_nat c = Some j ∧ ss !! Z.to_nat j = Some x ∧ get_chunk l i c = Some x.
Proof.
  intros Hv Hi Hc. destruct (va_rows _ _ _ Hv i Hi) as [Hf Hrow].
  unfold get_chunk. rewrite Hrow. cbn [mbind option_bind]. rewrite entry_row_of by lia.
  destruct (lookup_lt_is_Some_2 (places Md Mp i) (Z.to_nat c)) as [j Hj].
  { pose proof (places_len _ _ _ Hf) as E. unfold zlen in E. lia. }
  pose proof (places_range _ _ _ _ (list_elem_of_lookup_2 _ _ _ Hj)) as Hjr.
  destruct (server_at j Hjr) as (x & _ & Hx). exists j, x. split; [done|]. split; [done|].
  unfold places in Hj. rewrite Hj. done.
Qed.

Lemma entries_valid l Md Mp i lo cnt : valid l Md Mp → 0 ≤ i < nl → 0 ≤ lo → 0 ≤ cnt → lo + cnt ≤ n0 →
  ∃ row xs, zget (lists l) i = Some row ∧ entries row lo cnt = Some xs ∧ zlen xs = cnt ∧
    ∀ c, 0 ≤ c < cnt → zget xs c = get_chunk l i (lo + c).
Proof.
  intros Hv Hi Hlo Hcnt Hn. destruct (va_rows _ _ _ Hv i Hi) as [Hf Hrow].
  exists (row_of Md Mp i). unfold entries.
  assert (Hsome : Forall (λ c, is_Some (entry (row_of Md Mp i) (lo + c))) (seqZ 0 cnt)).
  { apply Forall_seqZ. intros c Hc. destruct (get_chunk_valid l Md Mp i (lo + c)) as (j & x & _ & _ & Hg); [done|done|lia|].
    unfold get_chunk in Hg. rewrite Hrow in Hg. simpl in Hg. rewrite Hg. by eexists. }
  apply mapM_is_Some in Hsome as [xs Hxs]. exists xs. split; [done|]. split; [done|].
  apply mapM_Some in Hxs. pose proof (Forall2_length _ _ _ Hxs) as Hlen. rewrite length_seqZ in Hlen.
  split; [unfold zlen; lia|]. intros c Hc. unfold get_chunk. rewrite Hrow. cbn [mbind option_bind].
  destruct (zget_is_Some xs c) as [x Hx]; [unfold zlen; lia|]. rewrite Hx. unfold zget in Hx. rewrite decide_True in Hx by lia.
  destruct (Forall2_lookup_r _ _ _ _ _ Hxs Hx) as (c' & Hc' & He).
  apply lookup_seqZ in Hc' as [-> _]. rewrite <- He. f_equal. lia.
Qed.

Lemma hash4_total v : ∃ h, hash1 (le_bytes 4 v) 4 = Some h ∧ 0 ≤ h < 2 ^ 32.
Proof.
  exists (hash_of (le_bytes 4 v)). split; [|apply hash_of_range].
  rewrite <- (hash1_whole (le_bytes 4 v)). unfold zlen. by rewrite length_le_bytes.
Qed.

Lemma listIndexOf_range l Md Mp v : valid l Md Mp → 0 < nl → ∃ i, listIndexOf l v = Some i ∧ 0 ≤ i < nl.
Proof.
  intros Hv Hpos. unfold listIndexOf. destruct (hash4_total v) as (h & -> & Hh). simpl.
  rewrite (sh_lists _ _ _ (va_shape _ _ _ Hv)). rewrite decide_False by lia.
  eexists. split; [done|]. apply Z.mod_pos_bound. lia.
Qed.

(** No lookup in a complete set of lists fails. *)
Definition lookups_total (l : StripeList T) : Prop :=
  0 ≤ k l ≤ n l ∧ 0 ≤ numLists l
  ∧ (∀ i j, 0 ≤ i < numLists l → 0 ≤ j < n l → is_Some (get_chunk l i j))
  ∧ ∀ key, ∃ i c d ps, get l key (zlen key) = Some (i, c, d, ps) ∧ is_Some (get_chunk l i c).

Lemma valid_total l Md Mp : valid l Md Mp → 0 < nl → lookups_total l.
Proof.
  intros Hv Hpos. destruct (va_shape _ _ _ Hv) as [Hn0 Hk0 Hl0 _ _ _ _ _ _]. unfold lookups_total.
  rewrite Hn0, Hk0, Hl0. split; [lia|]. split; [lia|]. split.
  - intros i j Hi Hj. destruct (get_chunk_valid l Md Mp i j Hv Hi Hj) as (? & x & _ & _ & ->). done.
  - intros key. unfold get. rewrite Hn0, Hk0, hash1_whole, u32_small by lia. cbn [mbind option_bind].
    rewrite decide_False by lia. cbn [mbind option_bind].
    set (di := hash_of key mod k0). assert (Hdi : 0 ≤ di < k0) by (apply Z.mod_pos_bound; lia).
    destruct (listIndexOf_range l Md Mp (hash_of key) Hv Hpos) as (li & -> & Hr). cbn [mbind option_bind].
    destruct (entries_valid l Md Mp li k0 (n0 - k0) Hv Hr) as (row & ps & Hrow & Hps & _); [lia..|].
    rewrite Hrow. cbn [mbind option_bind]. rewrite Hps. cbn [mbind option_bind].
    destruct (get_chunk_valid l Md Mp li di Hv Hr ltac:(lia)) as (? & x & _ & _ & Hg).
    pose proof Hg as He. unfold get_chunk in He. rewrite Hrow in He. cbn [mbind option_bind] in He.
    rewrite He. cbn [mbind option_bind]. exists li, di, x, ps. by rewrite Hg.
Qed.

Lemma new_total algo rs l rs' : enough algo (Z.to_nat (nl * n0)) rs → 0 < nl →
  StripeList_new n0 k0 nl ss algo rs = Some (l, rs') → lookups_total l.
Proof.
  intros He Hpos Hnew. destruct (new_valid algo rs He) as (l' & rs'' & Md & Mp & Hn & Hv).
  rewrite Hnew in Hn. injection Hn as -> _. by eapply valid_total.
Qed.

(** The count of [list]: the members before the server. *)
Lemma count_loop (a : BitmaskArray) (M : matrix) i index c0 :
  (∀ j, 0 ≤ j < m → check a i j = Some (M i j)) → 0 ≤ index < m →
  for_range 0 index (count_step a i) c0 = Some (c0 + zlen (members M i index)).
Proof.
  intros Hc Hi.
  destruct (for_range_inv (λ j c, c = c0 + zlen (members M i j)) 0 index (count_step a i) c0) as (s' & -> & ->); [lia| | |done].
  - intros j c Hj ->. unfold count_step. rewrite Hc by lia. simpl. eexists. split; [done|].
    rewrite members_S by lia. unfold zlen. rewrite length_app. destruct (M i j); simpl; lia.
  - by rewrite members_0, Z.add_0_r.
Qed.

Definition place_of (Md Mp : matrix) (i index : Z) : option StripeListIndex :=
  if Md i index then Some (MkIndex i 0 (zlen (members Md i index)) false)
  else if Mp i index then Some (MkIndex i 0 (k0 + zlen (members Mp i index)) true)
  else None.

Lemma list_step_spec l Md Mp i index ret : valid l Md Mp → 0 ≤ i < nl → 0 ≤ index < m →
  list_step l index i ret = Some (ret ++ match place_of Md Mp i index with Some s => [s] | None => [] end).
Proof.
  intros Hv Hi Hx. pose proof (va_shape _ _ _ Hv) as Hs. unfold list_step, place_of.
  rewrite (check_data l Md Mp), (check_parity l Md Mp), (sh_servers _ _ _ Hs), (sh_k _ _ _ Hs), Z.min_l by (done || lia).
  destruct (va_rows _ _ _ Hv i Hi) as [(Hc1 & Hc2 & _) _].
  pose proof (members_mono Md i index ltac:(lia)). pose proof (members_mono Mp i index ltac:(lia)).
  rewrite (count_loop (data l) Md), (count_loop (parity l) Mp);
    [|intros; by apply (check_parity l Md Mp)|done|intros; by apply (check_data l Md Mp)|done].
  cbn [mbind option_bind]. destruct (Md i index); [|destruct (Mp i index)]; cbn [mbind option_bind].
  - rewrite u32_small by (unfold zlen in *; lia). done.
  - rewrite u32_small by (unfold zlen in *; lia). done.
  - by rewrite app_nil_r.
Qed.

Lemma place_of_spec Md Mp i index s : full_row Md Mp i → 0 ≤ index < m →
  place_of Md Mp i index = Some s ↔
  listId s = i ∧ stripeId s = 0 ∧ isParity s = bool_decide (k0 ≤ chunkId s) ∧ 0 ≤ chunkId s ∧
    places Md Mp i !! Z.to_nat (chunkId s) = Some index.
Proof.
  intros (Hc1 & Hc2 & Hdis) Hx. unfold place_of, places, count_row, zlen in *. split.
  - destruct (Md i index) eqn:Ed; [|destruct (Mp i index) eqn:Ep; [|done]]; intros [= <-]; simpl.
    + pose proof (members_room Md i index Ed Hx) as Hr. unfold count_row, zlen in Hr.
      rewrite bool_decide_eq_false_2 by lia. split_and!; try done; try lia.
      rewrite Nat2Z.id. rewrite lookup_app_l by lia. by apply members_lookup.
    + rewrite bool_decide_eq_true_2 by lia. split_and!; try done; try lia.
      rewrite lookup_app_r by lia. replace (_ - _)%nat with (length (members Mp i index)) by lia. by apply members_lookup.
  - destruct s as [a b c p]; simpl. intros (-> & -> & -> & Hc0 & [Hl|[Hge Hl]]%lookup_app_Some);
      apply members_lookup_inv in Hl as (Hlen & HM & _); rewrite HM.
    + pose proof (members_room Md i index HM Hx) as Hr. unfold count_row, zlen in Hr.
      rewrite bool_decide_eq_false_2 by lia. do 2 f_equal. lia.
    + destruct (Md i index) eqn:Ed; [rewrite (Hdis index Hx Ed) in HM; done|].
      rewrite bool_decide_eq_true_2 by lia. do 2 f_equal. lia.
Qed.

Lemma list_places_spec l Md Mp index : valid l Md Mp → 0 ≤ index < m →
  list_places l index = Some (omap (λ i, place_of Md Mp i index) (seqZ 0 nl)).
Proof.
  intros Hv Hx. unfold list_places. rewrite (sh_lists _ _ _ (va_shape _ _ _ Hv)).
  destruct (for_range_inv (λ i ret, ret = omap (λ i, place_of Md Mp i index) (seqZ 0 i)) 0 nl (list_step l index) [])
    as (ret & -> & ->); [lia| |done|done].
  intros i ret Hi ->. rewrite (list_step_spec l Md Mp) by done. eexists. split; [done|].
  rewrite seqZ_app, omap_app by lia. by f_equal.
Qed.

(** Selected servers whose lists are still to be written, as [update] finds
    them after the vector of servers has changed. *)
Record ready (i : Z) (l : StripeList T) (Md Mp : matrix) : Prop := {
  rd_shape : shape l Md Mp;
  rd_gen : generated l = true;
  rd_len : zlen (lists l) = nl;
  rd_rows : ∀ i', 0 ≤ i' < nl → full_row Md Mp i' ∧ ∃ row, zget (lists l) i' = Some row ∧ zlen row = n0 ∧
    (i' < i → row = row_of Md Mp i');
}.

Lemma update_list_spec i l Md Mp : ready i l Md Mp → 0 ≤ i < nl →
  ∃ l', update_list i l = Some l' ∧ ready (i + 1) l' Md Mp.
Proof.
  intros [Hs Hg Hlen Hrows] Hi. unfold update_list. destruct (Hrows i Hi) as (Hf & row & -> & Hrow & _).
  rewrite (sh_servers _ _ _ Hs). cbn [mbind option_bind].
  destruct (for_range_inv (placed Md Mp i) 0 m (place l i) (row, 0, 0)) as ([[row' dc] pc] & -> & Hp); [lia| | |].
  - intros j s Hj Hpl. by apply (place_step l Md Mp i j s Hs).
  - unfold placed. rewrite !members_0. split; [done|]. repeat split; intros ???; done.
  - pose proof (proj1 Hp) as Hrow'. rewrite (placed_row _ _ _ _ _ _ Hf Hp) in *. cbn [mbind option_bind].
    rewrite zset_Some by lia. simpl. set (ls := <[_:=_]> _).
    assert (Hset : zset (lists l) i (row_of Md Mp i) = Some ls) by (apply zset_Some; lia).
    eexists. split; [done|]. constructor; simpl; [by destruct Hs|done|by rewrite (zset_zlen _ _ _ _ Hset)|].
    intros i' Hi'. destruct (Hrows i' Hi') as (Hf' & row2 & Hg2 & Hl2 & He2). split; [done|].
    destruct (decide (i' = i)) as [->|Hne].
    + eexists. split; [by eapply zset_get_eq|done].
    + rewrite (zset_get_ne _ _ _ _ _ Hset) by done. exists row2. split; [done|]. split; [done|].
      intros ?. apply He2. lia.
Qed.

Lemma update_ready l Md Mp rs : ready 0 l Md Mp → ∃ l', update l rs = Some (l', rs) ∧ valid l' Md Mp.
Proof.
  intros Hr. unfold update. rewrite (rd_gen _ _ _ _ Hr), (sh_lists _ _ _ (rd_shape _ _ _ _ Hr)).
  destruct (for_range_inv (λ i l', ready i l' Md Mp) 0 nl update_list l) as (l' & -> & [Hs Hg Hl Hrows]); [lia| |done|].
  - intros i l1 Hi Hr1. by apply update_list_spec.
  - simpl. eexists. split; [done|]. constructor; [done..|]. intros i Hi.
    destruct (Hrows i Hi) as (Hf & row & -> & _ & ->); [done|lia].
Qed.

(** ** Properties *)

(** C26: the constructor assigns servers to every stripe list: the places of a
    list are [k] data servers followed by [n - k] parity servers, all of them
    different, each group in the order of the server vector; whether the
    servers are chosen by load or at random (then from a stream that draws
    every server often enough). *)
Theorem stripe_lists_generated (algo : bool) (rs : list Z) :
  enough algo (Z.to_nat (nl * n0)) rs →
  ∃ l rs', StripeList_new n0 k0 nl ss algo rs = Some (l, rs') ∧ generated l = true ∧
    ∀ i, 0 ≤ i < nl → ∃ D P,
      zlen D = k0 ∧ zlen P = n0 - k0 ∧ NoDup (D ++ P) ∧ Forall (λ j, 0 ≤ j < zlen ss) (D ++ P) ∧
      StronglySorted Z.lt D ∧ StronglySorted Z.lt P ∧
      zget (lists l) i = Some ((λ j, ss !! Z.to_nat j) <$> (D ++ P)).
Proof.
  intros He. destruct (new_valid algo rs He) as (l & rs' & Md & Mp & Hnew & Hv).
  exists l, rs'. split; [done|]. split; [apply Hv|]. intros i Hi.
  destruct (va_rows _ _ _ Hv i Hi) as [Hf Hrow]. exists (members Md i m), (members Mp i m).
  split; [apply Hf|]. split; [apply Hf|]. split; [by apply NoDup_places|].
  split; [apply Forall_forall; intros j Hj; by apply (places_range Md Mp i)|].
  split; [apply members_sorted|]. split; [apply members_sorted|]. done.
Qed.

(** C27: [list( index )] inverts the lists: it returns exactly the places, by
    list and chunk number, at which [get( listId, chunkId )] finds that server,
    once per list, with the parity flag set from chunk [k] on. *)
Theorem stripe_list_inverse (algo : bool) (rs : list Z) (index : Z) :
  enough algo (Z.to_nat (nl * n0)) rs → NoDup ss → 0 ≤ index < zlen ss →
  ∃ l rs' ret, StripeList_new n0 k0 nl ss algo rs = Some (l, rs') ∧ list_places l index = Some ret ∧
    (∀ s, s ∈ ret ↔ 0 ≤ listId s < nl ∧ 0 ≤ chunkId s < n0 ∧ stripeId s = 0 ∧
       isParity s = bool_decide (k0 ≤ chunkId s) ∧ get_chunk l (listId s) (chunkId s) = ss !! Z.to_nat index) ∧
    (∀ s s', s ∈ ret → s' ∈ ret → listId s = listId s' → s = s').
Proof.
  intros He Hnd Hx. destruct (new_valid algo rs He) as (l & rs' & Md & Mp & Hnew & Hv).
  exists l, rs', (omap (λ i, place_of Md Mp i index) (seqZ 0 nl)).
  split; [done|]. split; [by apply list_places_spec|].
  assert (Hin : ∀ s, s ∈ omap (λ i, place_of Md Mp i index) (seqZ 0 nl) ↔
    0 ≤ listId s < nl ∧ place_of Md Mp (listId s) index = Some s).
  { intros s. rewrite list_elem_of_omap. split.
    - intros (i & Hi%elem_of_seqZ & Hp). assert (Hir : 0 ≤ i < nl) by lia.
      assert (Hls : listId s = i); [|by rewrite Hls].
      by apply (place_of_spec Md Mp i index s (proj1 (va_rows _ _ _ Hv i Hir)) Hx) in Hp as (? & _).
    - intros [Hi Hp]. exists (listId s). split; [apply elem_of_seqZ; lia|done]. }
  split.
  - intros s. rewrite Hin. split; intros [Hi Hrest]; (split; [done|]);
      pose proof (proj1 (va_rows _ _ _ Hv _ Hi)) as Hf; pose proof (places_len _ _ _ Hf) as Hlen.
    + apply (place_of_spec _ _ _ _ _ Hf Hx) in Hrest as (_ & ? & ? & Hc0 & Hl).
      pose proof (lookup_lt_Some _ _ _ Hl). assert (Hc : 0 ≤ chunkId s < n0) by (unfold zlen in Hlen; lia).
      destruct (get_chunk_valid l Md Mp _ _ Hv Hi Hc) as (j & x & Hj & Hss & ->). rewrite Hl in Hj. injection Hj as <-. done.
    + destruct Hrest as (Hc & ? & ? & Hg). apply place_of_spec; [done..|]. split_and!; try done; [lia|].
      destruct (get_chunk_valid l Md Mp _ _ Hv Hi Hc) as (j & x & Hj & Hss & Hg').
      rewrite Hg' in Hg. rewrite Hj. f_equal. pose proof (places_range _ _ _ _ (list_elem_of_lookup_2 _ _ _ Hj)).
      pose proof (NoDup_lookup _ _ _ _ Hnd Hss (eq_sym Hg)). lia.
  - intros s s' [_ H1]%Hin [_ H2]%Hin E. rewrite E in H1. congruence.
Qed.

(** A key of any length is mapped to a list, a data server of it and its
    parity servers, in range; every way of asking gives the same answer: [get]
    for one data server or for all of them, [getByHash] on the key's hash, the
    list by number and its entries one by one. *)
Theorem stripe_list_get (algo : bool) (rs : list Z) (key rest : list byte) :
  enough algo (Z.to_nat (nl * n0)) rs → 0 < nl →
  ∃ l rs' li di d ps ds, StripeList_new n0 k0 nl ss algo rs = Some (l, rs') ∧
    get l (key ++ rest) (zlen key) = Some (li, di, d, ps) ∧
    get_full l (key ++ rest) (zlen key) = Some (li, di, ds, ps) ∧
    getByHash l (hash_of key) = Some (li, ds, ps) ∧ get_list l li = Some (ps, ds) ∧
    0 ≤ li < nl ∧ 0 ≤ di < k0 ∧ zlen ds = k0 ∧ zlen ps = n0 - k0 ∧ zget ds di = Some d ∧
    (∀ c, 0 ≤ c < k0 → zget ds c = get_chunk l li c) ∧
    (∀ c, 0 ≤ c < n0 - k0 → zget ps c = get_chunk l li (k0 + c)).
Proof.
  intros He Hpos. destruct (new_valid algo rs He) as (l & rs' & Md & Mp & Hnew & Hv).
  destruct (listIndexOf_range l Md Mp (hash_of key) Hv Hpos) as (li & Hli & Hr).
  destruct (entries_valid l Md Mp li 0 k0 Hv Hr) as (row & ds & Hrow & Hds & Hdl & Hdc); [lia..|].
  destruct (entries_valid l Md Mp li k0 (n0 - k0) Hv Hr) as (row' & ps & Hrow' & Hps & Hpl & Hpc); [lia..|].
  rewrite Hrow in Hrow'. injection Hrow' as <-.
  set (di := hash_of key mod k0). assert (Hdi : 0 ≤ di < k0) by (apply Z.mod_pos_bound; lia).
  destruct (zget_is_Some ds di) as [d Hd]; [lia|].
  assert (Hed : entry row di = Some d).
  { specialize (Hdc di Hdi). rewrite Hd in Hdc. unfold get_chunk in Hdc. rewrite Hrow in Hdc. by simpl in Hdc. }
  exists l, rs', li, di, d, ps, ds. split; [done|].
  unfold get, get_full, getByHash, get_list.
  rewrite (sh_n _ _ _ (va_shape _ _ _ Hv)), (sh_k _ _ _ (va_shape _ _ _ Hv)), u32_small by lia.
  rewrite (hash1_spec key rest) by done. cbn [mbind option_bind]. rewrite decide_False by lia. cbn [mbind option_bind].
  fold di. rewrite Hli. cbn [mbind option_bind]. rewrite Hrow. cbn [mbind option_bind].
  rewrite Hps, Hds. cbn [mbind option_bind]. rewrite Hed. done.
Qed.

(** [pickMin] returns a server that is in neither bitmap of the list and
    that is lightest among these by load, then by number of lists; in
    particular it never falls back to server 0. *)
Theorem pickMin_lightest (l : StripeList T) (Md Mp : matrix) (i b : Z) :
  shape l Md Mp → loads_below b l → 0 ≤ b ≤ nl → 0 ≤ i < nl → (∃ j, free Md Mp i j) →
  ∃ j lo co, pickMin l i = Some j ∧ free Md Mp i j ∧
    zget (load l) j = Some lo ∧ zget (count l) j = Some co ∧
    ∀ j', free Md Mp i j' → lightest l lo co j'.
Proof. apply pickMin_spec. Qed.
End correct.

(** Replacing the entries of the vector keeps the places. *)
Lemma valid_ready {T} n0 k0 nl (ss ss' : list T) l Md Mp :
  zlen ss' = zlen ss → 1 ≤ k0 ≤ n0 → valid n0 k0 nl ss l Md Mp → ready n0 k0 nl ss' 0 (set_servers l ss') Md Mp.
Proof.
  intros Hlen Hk [[] Hg Hl Hrows]. constructor; simpl; [|done..|].
  - constructor; simpl; rewrite ?Hlen; done.
  - intros i Hi. destruct (Hrows i Hi) as [(Hd & Hp & Hdis) Hrow].
    split; [unfold full_row, count_row, disjoint_row in *; by rewrite Hlen|].
    eexists. split; [exact Hrow|]. split; [|lia]. unfold row_of, count_row, zlen in *. rewrite length_fmap, length_app. lia.
Qed.

(** [update], called after the entries of the server vector have been
    replaced, rewrites every list to the new servers at the same places. *)
Theorem stripe_list_update {T} (n0 k0 nl : Z) (ss ss' : list T) (algo : bool) (rs rs0 : list Z) :
  1 ≤ k0 ≤ n0 → n0 ≤ zlen ss < 2 ^ 31 → 0 ≤ nl < 2 ^ 32 → nl * k0 < UINT32_MAX → zlen ss' = zlen ss →
  enough ss algo (Z.to_nat (nl * n0)) rs →
  ∃ l rs' l', StripeList_new n0 k0 nl ss algo rs = Some (l, rs') ∧
    update (set_servers l ss') rs0 = Some (l', rs0) ∧
    ∀ i, 0 ≤ i < nl → ∃ js, zlen js = n0 ∧ Forall (λ j, 0 ≤ j < zlen ss) js ∧
      zget (lists l) i = Some ((λ j, ss !! Z.to_nat j) <$> js) ∧
      zget (lists l') i = Some ((λ j, ss' !! Z.to_nat j) <$> js).
Proof.
  intros Hk Hm Hnl Hload Hlen He.
  destruct (new_valid n0 k0 nl ss Hk Hm Hnl Hload algo rs He) as (l & rs' & Md & Mp & Hnew & Hv).
  pose proof (valid_ready n0 k0 nl ss ss' l Md Mp Hlen Hk Hv) as Hr.
  destruct (update_ready n0 k0 nl ss' Hk ltac:(lia) Hnl (set_servers l ss') Md Mp rs0 Hr) as (l' & Hu & Hv').
  exists l, rs', l'. split; [done|]. split; [done|]. intros i Hi.
  destruct (va_rows _ _ _ _ _ _ _ Hv i Hi) as [Hf Hrow]. destruct (va_rows _ _ _ _ _ _ _ Hv' i Hi) as [_ Hrow'].
  exists (places ss Md Mp i). split; [by eapply places_len|].
  split; [apply Forall_forall; intros j Hj; by apply (places_range ss Md Mp i)|]. split; [done|].
  rewrite Hrow'. unfold row_of, places. by rewrite Hlen.
Qed.

(** ** Instances: three servers, lists of two data and one parity server. *)
Definition demo_servers : list Z := [10; 20; 30].
Lemma demo_range : 3 ≤ zlen demo_servers < 2 ^ 31.
Proof. unfold zlen; simpl; lia. Qed.

Lemma stripe_lists_generated_witness :
  ∃ l rs', StripeList_new 3 2 4 demo_servers true [] = Some (l, rs') ∧ generated l = true.
Proof.
  destruct (stripe_lists_generated 3 2 4 demo_servers ltac:(lia) demo_range ltac:(done) eq_refl true [] I)
    as (l & rs' & Hl & Hg & _). eauto.
Defined.

Lemma stripe_list_inverse_witness :
  ∃ l rs' ret, StripeList_new 3 2 4 demo_servers true [] = Some (l, rs') ∧ list_places l 1 = Some ret.
Proof.
  assert (Hnd : NoDup demo_servers) by (apply (bool_decide_unpack _); vm_compute; exact I).
  destruct (stripe_list_inverse 3 2 4 demo_servers ltac:(lia) demo_range ltac:(done) eq_refl true [] 1 I Hnd ltac:(pose proof demo_range; lia))
    as (l & rs' & ret & Hl & Hr & _). eauto.
Defined.

Lemma stripe_list_get_witness :
  ∃ l rs' r, StripeList_new 3 2 4 demo_servers true [] = Some (l, rs') ∧ get l [x00] 1 = Some r.
Proof.
  destruct (stripe_list_get 3 2 4 demo_servers ltac:(lia) demo_range ltac:(done) eq_refl true [] [x00] [] I ltac:(lia))
    as (l & rs' & li & di & d & ps & ds & Hl & Hg & _). eauto.
Defined.

Lemma pickMin_lightest_witness :
  ∃ j, pickMin (blank 3 2 4 demo_servers true) 0 = Some j ∧ 0 ≤ j < 3.
Proof.
  pose proof (blank_progress 3 2 4 demo_servers ltac:(lia) demo_range ltac:(done) true) as Hp.
  destruct (pickMin_lightest 3 2 4 demo_servers ltac:(lia) demo_range ltac:(done) eq_refl
    (blank 3 2 4 demo_servers true) (λ _ _, false) (λ _ _, false) 0 0) as (j & lo & co & Hj & Hf & _).
  - apply Hp.
  - apply Hp.
  - lia.
  - lia.
  - exists 0. done.
  - exists j. split; [done|]. apply Hf.
Defined.

Lemma stripe_list_update_witness :
  ∃ l rs' l', StripeList_new 3 2 4 demo_servers true [] = Some (l, rs') ∧
    update (set_servers l [10; 25; 30]) [] = Some (l', []).
Proof.
  destruct (stripe_list_update 3 2 4 demo_servers [10; 25; 30] true [] [] ltac:(lia) demo_range ltac:(done) eq_refl eq_refl I)
    as (l & rs' & l' & Hl & Hu & _). eauto.
Defined.
End StripeList.
