(* ===== verification/StateTransit.v ===== *)
(** * Server states: the protocol between coordinator, clients and servers
    Models common/state_transit/, coordinator/state_transit/ and
    client/state_transit/ and server/state_transit/: the messages that carry
    server states, the handlers of the coordinator with the worker that ends a
    transition, and the handlers of clients and servers.  Each handler is one
    atomic step, as its locks make it; group communication is an argument. *)
From S2P Require Export Words.
From S2P Require Import Ids Ring StripeList.
From stdpp Require Import sorting.
#[local] Open Scope Z_scope.

Module StateTransitHandler.
Import SockAddr.

(** ** The states of a server *)
Inductive RemapState :=
  | STATE_UNDEFINED | STATE_NORMAL | STATE_INTERMEDIATE | STATE_COORDINATED | STATE_DEGRADED
  | STATE_WAIT_DEGRADED | STATE_WAIT_NORMAL.

#[export] Instance RemapState_eq_dec : EqDecision RemapState.
Proof. solve_decision. Defined.

Definition state_code (s : RemapState) : Z :=
  match s with
  | STATE_UNDEFINED => 0 | STATE_NORMAL => 1 | STATE_INTERMEDIATE => 2 | STATE_COORDINATED => 3
  | STATE_DEGRADED => 4 | STATE_WAIT_DEGRADED => 5 | STATE_WAIT_NORMAL => 6
  end.

(** [printServerState] tells the known states from other numbers. *)
Definition printServerState (z : Z) : option RemapState :=
  match z with
  | 0 => Some STATE_UNDEFINED | 1 => Some STATE_NORMAL | 2 => Some STATE_INTERMEDIATE
  | 3 => Some STATE_COORDINATED | 4 => Some STATE_DEGRADED | 5 => Some STATE_WAIT_DEGRADED
  | 6 => Some STATE_WAIT_NORMAL | _ => None
  end.

(** A [std::map], and its [operator[]], which inserts [STATE_UNDEFINED]. *)
Abbreviation states := (gmap sockaddr_in RemapState).

Definition state_at (ss : states) (server : sockaddr_in) : RemapState := default STATE_UNDEFINED (ss !! server).
Definition touch (ss : states) (server : sockaddr_in) : states := <[server := state_at ss server]> ss.

Definition getState (ss : states) (server : sockaddr_in) : RemapState :=
  match ss !! server with Some s => s | None => STATE_UNDEFINED end.
Definition isRemapStarted (ss : states) (server : sockaddr_in) : bool :=
  match ss !! server with Some (STATE_INTERMEDIATE | STATE_COORDINATED | STATE_DEGRADED) => true | _ => false end.
Definition isRemapStopped (ss : states) (server : sockaddr_in) : bool :=
  match ss !! server with Some (STATE_NORMAL | STATE_UNDEFINED) => true | _ => false end.

(** The iteration order of a [std::set] or [std::map] of addresses. *)
Definition addr_le (a b : sockaddr_in) : Prop := less b a = false.
#[export] Instance addr_le_dec a b : Decision (addr_le a b).
Proof. unfold addr_le. apply _. Defined.
Definition in_order (X : gset sockaddr_in) : list sockaddr_in := merge_sort addr_le (elements X).

(** ** Messages: a count and records of seven bytes *)
Definition serverStateRecordSize : Z := 7.
Definition MAX_MESSLEN : Z := 4096.

Definition store32 (buf : list byte) (ofs v : Z) : option (list byte) := splice buf ofs (le_bytes 4 v).

Fixpoint send_records (ss : states) (servers : list sockaddr_in) (buf : list byte) (len : Z) :
    option (states * list byte * Z) :=
  match servers with
  | [] => Some (ss, buf, len)
  | server :: rest =>
      buf ← store32 buf len (s_addr server);
      buf ← store32 buf (len + 4) (sin_port server);
      buf ← store32 buf (len + 4 + 2) (u8 (state_code (state_at ss server)));
      send_records (touch ss server) rest buf (len + serverStateRecordSize)
  end.

(** The stack buffer holds [junk] before. *)
Definition sendState (junk : list byte) (ss : states) (servers : list sockaddr_in) : option (states * list byte) :=
  buf ← splice junk 0 [z2b (u8 (zlen servers))];
  '(ss, buf, len) ← send_records ss servers buf 1;
  msg ← slice buf 0 len;
  Some (ss, msg).

(** Reading the record at [ofs]; the state is a signed [char]. *)
Definition get_record (msg : list byte) (ofs : Z) : option (sockaddr_in * byte) :=
  a ← slice msg ofs 4; p ← slice msg (ofs + 4) 2; s ← zget msg (ofs + 6);
  Some (MkAddr (le_val a) (le_val p), s).

(** The loops over the records of a message. *)
Fixpoint records_from (n : nat) (msg : list byte) (ofs : Z) : option (list (sockaddr_in * byte)) :=
  match n with
  | O => Some []
  | S n => r ← get_record msg ofs; rs ← records_from n msg (ofs + serverStateRecordSize); Some (r :: rs)
  end.
Definition records (msg : list byte) : option (list (sockaddr_in * byte)) :=
  c ← zget msg 0; records_from (Z.to_nat (b2z c)) msg 1.

(** The guard shared by the functions that send states. *)
Definition too_many (servers : list sockaddr_in) : bool :=
  bool_decide (255 < zlen servers ∨ MAX_MESSLEN < zlen servers * serverStateRecordSize + 1).
End StateTransitHandler.

(** ** The coordinator *)
Module CoordinatorStateTransitHandler.
Import SockAddr StateTransitHandler.

Record StateTransitEvent := MkEvent { ev_start : bool; ev_server : sockaddr_in }.

Record Coordinator := MkCoord {
  serversState : states;
  aliveClients : gset string;
  ackClients : gmap sockaddr_in (gset string);
  aliveServers : gset sockaddr_in;
  crashedServers : gset sockaddr_in;
  failedServers : gset sockaddr_in;
  updatedServers : list sockaddr_in;
  eventQueue : list StateTransitEvent;
  isRunning : bool;
}.

Definition set_states (c : Coordinator) (ss : states) : Coordinator :=
  MkCoord ss (aliveClients c) (ackClients c) (aliveServers c) (crashedServers c) (failedServers c)
    (updatedServers c) (eventQueue c) (isRunning c).
Definition set_clients (c : Coordinator) (al : gset string) (ac : gmap sockaddr_in (gset string)) : Coordinator :=
  MkCoord (serversState c) al ac (aliveServers c) (crashedServers c) (failedServers c)
    (updatedServers c) (eventQueue c) (isRunning c).
Definition set_alive (c : Coordinator) (al cr : gset sockaddr_in) : Coordinator :=
  MkCoord (serversState c) (aliveClients c) (ackClients c) al cr (failedServers c)
    (updatedServers c) (eventQueue c) (isRunning c).
Definition set_failed (c : Coordinator) (fa : gset sockaddr_in) (up : list sockaddr_in) : Coordinator :=
  MkCoord (serversState c) (aliveClients c) (ackClients c) (aliveServers c) (crashedServers c) fa
    up (eventQueue c) (isRunning c).
Definition set_events (c : Coordinator) (es : list StateTransitEvent) : Coordinator :=
  MkCoord (serversState c) (aliveClients c) (ackClients c) (aliveServers c) (crashedServers c) (failedServers c)
    (updatedServers c) es (isRunning c).

Definition new : Coordinator := MkCoord ∅ ∅ ∅ ∅ ∅ ∅ [] [] false.
(** [start] starts the event queue (and the threads). *)
Definition start (c : Coordinator) : Coordinator :=
  MkCoord (serversState c) (aliveClients c) (ackClients c) (aliveServers c) (crashedServers c) (failedServers c)
    (updatedServers c) (eventQueue c) true.

(** [None]: [clientsLock] is released in place of [clientsAckLock], which
    stays locked, and the caller's next use of it never ends. *)
Definition resetClientAck (c : Coordinator) (server : sockaddr_in) : option Coordinator :=
  match ackClients c !! server with
  | None => None
  | Some _ => Some (set_clients c (aliveClients c) (<[server := ∅]> (ackClients c)))
  end.

Definition isAllClientAcked (c : Coordinator) (server : sockaddr_in) : bool :=
  match ackClients c !! server with
  | None => true
  | Some acked => bool_decide (size (aliveClients c) = size acked)
  end.

(** The servers to send, or [None] when the message would be too long. *)
Definition servers_to_send (c : Coordinator) (servers : list sockaddr_in) : option (list sockaddr_in) :=
  if decide (zlen servers = 0) then Some (in_order (aliveServers c))
  else if too_many servers then None else Some servers.

(** [broadcastState] and [sendStateToClients]: the result, the coordinator,
    and what is handed to the group communication, whose result is [sent]. *)
Definition broadcastState (junk : list byte) (sent : bool) (c : Coordinator) (servers : list sockaddr_in) :
    option (bool * Coordinator * list (list byte)) :=
  match servers_to_send c servers with
  | None => Some (false, c, [])
  | Some servers =>
      '(ss, msg) ← sendState junk (serversState c) servers;
      Some (sent, set_states c ss, if sent then [msg] else [])
  end.

(** The loop that takes the servers that can change state out of the list;
    it returns those that stay and those that change. *)
Fixpoint check_servers (start : bool) (c : Coordinator) (allServers : list sockaddr_in) :
    option (Coordinator * list sockaddr_in * list sockaddr_in) :=
  match allServers with
  | [] => Some (c, [], [])
  | server :: rest =>
      let c := set_states c (touch (serversState c) server) in
      let state := state_at (serversState c) server in
      if decide (state = STATE_UNDEFINED ∨ (start = true ∧ state ≠ STATE_NORMAL) ∨ (start = false ∧ state ≠ STATE_DEGRADED))
      then '(c, kept, checked) ← check_servers start c rest; Some (c, server :: kept, checked)
      else
        let c := set_states c (<[server := if start then STATE_INTERMEDIATE else STATE_COORDINATED]> (serversState c)) in
        c ← resetClientAck c server;
        '(c, kept, checked) ← check_servers start c rest;
        Some (c, kept, server :: checked)
  end.

(** The loop that reverts the states: it reads [allServers->at( i )]. *)
Definition revert_state (start : bool) (c : Coordinator) (server : sockaddr_in) : Coordinator :=
  let c := set_states c (touch (serversState c) server) in
  match start, state_at (serversState c) server with
  | true, STATE_INTERMEDIATE => set_states c (<[server := STATE_NORMAL]> (serversState c))
  | false, STATE_COORDINATED => set_states c (<[server := STATE_DEGRADED]> (serversState c))
  | _, _ => c
  end.
Definition revert_states (start : bool) (c : Coordinator) (allServers checked : list sockaddr_in) : option Coordinator :=
  for_range 0 (zlen checked) (λ i c, server ← zget allServers i; Some (revert_state start c server)) c.

(** One pass; it fails on the first event when the queue is not running. *)
Definition insertRepeatedEvents (c : Coordinator) (start : bool) (servers : list sockaddr_in) :
    bool * Coordinator * list sockaddr_in :=
  if decide (isRunning c = true ∨ servers = []) then (true, set_events c (eventQueue c ++ (MkEvent start <$> servers)), [])
  else (false, c, servers).

(** [None] of the last loop: the queue is not running, and it never ends. *)
Definition stateChangeInitHandler (junk : list byte) (sent start : bool) (c : Coordinator) (allServers : list sockaddr_in) :
    option (Coordinator * list sockaddr_in * list sockaddr_in * list (list byte)) :=
  '(c, allServers, checkedServers) ← check_servers start c allServers;
  '(ok, c, out) ← broadcastState junk sent c checkedServers;
  '(c, allServers) ← (if ok : bool then Some (c, allServers) else
    c ← revert_states start c allServers checkedServers;
    Some (c, allServers ++ checkedServers));
  match insertRepeatedEvents c start checkedServers with
  | (true, c, checkedServers) => Some (c, allServers, checkedServers, out)
  | (false, _, _) => None
  end.

Definition transitToDegraded (junk : list byte) (sent : bool) (c : Coordinator) (servers : list sockaddr_in) :
    option (Coordinator * list (list byte)) :=
  '(c, _, _, out) ← stateChangeInitHandler junk sent true c servers; Some (c, out).

Definition transitToNormal (junk : list byte) (sent : bool) (c : Coordinator) (servers : list sockaddr_in) :
    option (Coordinator * list (list byte)) :=
  let servers := filter (λ s, s ∉ crashedServers c) servers in
  '(c, _, _, out) ← stateChangeInitHandler junk sent false c servers; Some (c, out).

(** A message of a client.  The names of clients start with their prefix
    after one character. *)
Definition from_client (subject : string) : bool :=
  match subject with String _ name => String.prefix "client" name | EmptyString => false end.

Definition record_ack (subject : string) (c : Coordinator) (r : sockaddr_in * byte) : Coordinator :=
  let '(server, b) := r in
  let state := printServerState (b2z b) in
  match serversState c !! server with
  | Some s =>
      if decide ((s = STATE_INTERMEDIATE ∧ state = Some STATE_WAIT_DEGRADED)
               ∨ (s = STATE_COORDINATED ∧ state = Some STATE_WAIT_NORMAL)) then
        match ackClients c !! server with
        | Some acked =>
            if decide (subject ∈ aliveClients c)
            then set_clients c (aliveClients c) (<[server := {[subject]} ∪ acked]> (ackClients c)) else c
        | None => c
        end
      else c
  | None => c
  end.

Definition updateState (c : Coordinator) (subject : string) (msg : list byte) : option (bool * Coordinator) :=
  if from_client subject then rs ← records msg; Some (true, foldl (record_ack subject) c rs) else Some (false, c).

Definition addAliveClient (c : Coordinator) (name : string) : Coordinator :=
  set_clients c ({[name]} ∪ aliveClients c) (ackClients c).
Definition removeAliveClient (c : Coordinator) (name : string) : Coordinator :=
  set_clients c (aliveClients c ∖ {[name]}) ((λ acked, acked ∖ {[name]}) <$> ackClients c).

Definition addAliveServer (c : Coordinator) (server : sockaddr_in) : bool * Coordinator :=
  if decide (server ∈ aliveServers c) then (false, c) else
  let c := set_alive c ({[server]} ∪ aliveServers c) (crashedServers c) in
  let c := set_states c (<[server := STATE_NORMAL]> (serversState c)) in
  (true, set_clients c (aliveClients c) (<[server := ∅]> (ackClients c))).

Definition addCrashedServer (c : Coordinator) (server : sockaddr_in) : bool * Coordinator :=
  if decide (server ∈ crashedServers c) then (false, c)
  else (true, set_alive c (aliveServers c) ({[server]} ∪ crashedServers c)).

Definition getFailedServerCount (c : Coordinator) : Z := Z.of_nat (size (failedServers c)).
Definition addFailedServer (c : Coordinator) (server : sockaddr_in) : Z * Coordinator :=
  let c := set_failed c ({[server]} ∪ failedServers c) (updatedServers c) in (getFailedServerCount c, c).
Definition removeFailedServer (c : Coordinator) (server : sockaddr_in) : Z * Coordinator :=
  let c := if decide (server ∈ failedServers c)
           then set_failed c (failedServers c ∖ {[server]}) (updatedServers c ++ [server]) else c in
  (getFailedServerCount c, c).
Definition eraseUpdatedServers (c : Coordinator) : list sockaddr_in * Coordinator :=
  (updatedServers c, set_failed c (failedServers c) []).

Definition removeAliveServer (c : Coordinator) (server : sockaddr_in) : bool * Coordinator :=
  if decide (server ∈ aliveServers c) then
    let c := set_alive c (aliveServers c ∖ {[server]}) (crashedServers c ∖ {[server]}) in
    let c := set_states c (delete server (serversState c)) in
    (true, set_clients c (aliveClients c) (delete server (ackClients c)))
  else (false, c).

Definition isInTransition (c : Coordinator) (server : sockaddr_in) : bool * Coordinator :=
  let c := set_states c (touch (serversState c) server) in
  (bool_decide (state_at (serversState c) server = STATE_INTERMEDIATE ∨ state_at (serversState c) server = STATE_COORDINATED), c).
Definition allowRemapping (c : Coordinator) (server : sockaddr_in) : bool * Coordinator :=
  let c := set_states c (touch (serversState c) server) in
  (bool_decide (state_at (serversState c) server = STATE_INTERMEDIATE ∨ state_at (serversState c) server = STATE_DEGRADED), c).

Fixpoint count_remapped (ss : states) (maximum count : Z) (servers : list sockaddr_in) : Z * states :=
  match servers with
  | [] => (count, ss)
  | server :: rest =>
      let ss := touch ss server in
      let count := if decide (state_at ss server = STATE_NORMAL) then count else u32 (count + 1) in
      if decide (count = maximum) then (count, ss) else count_remapped ss maximum count rest
  end.
Definition reachMaximumRemapped (c : Coordinator) (maximum : Z) : bool * Coordinator :=
  let '(count, ss) := count_remapped (serversState c) maximum 0 (in_order (aliveServers c)) in
  (bool_decide (count = maximum), set_states c ss).

(** Reconstruction is triggered for a crashed server. *)
Definition transitToDegradedEnd (c : Coordinator) (server : sockaddr_in) : bool :=
  bool_decide (server ∈ crashedServers c).

(** The worker, after the wait for the acknowledgements. *)
Definition finish (junk : list byte) (sent : bool) (c : Coordinator) (server : sockaddr_in) (from to : RemapState) :
    option (bool * Coordinator * list (list byte)) :=
  let c := set_states c (touch (serversState c) server) in
  if decide (state_at (serversState c) server = from) then
    let c := set_states c (<[server := to]> (serversState c)) in
    let '(failed, c) := removeFailedServer c server in
    if decide (0 < failed) then Some (true, c, []) else
    let '(updated, c) := eraseUpdatedServers c in
    '(_, c, out) ← broadcastState junk sent c updated;
    Some (true, c, out)
  else Some (false, c, []).

(** [CoordinatorStateTransitWorker::transitToDegraded] and [transitToNormal];
    they wait until every client has acknowledged. *)
Definition work (junk : list byte) (sent : bool) (c : Coordinator) (e : StateTransitEvent) :
    option (outcome (bool * Coordinator * list (list byte))) :=
  if isAllClientAcked c (ev_server e) then
    r ← (if ev_start e then finish junk sent c (ev_server e) STATE_INTERMEDIATE STATE_DEGRADED
         else finish junk sent c (ev_server e) STATE_COORDINATED STATE_NORMAL);
    Some (Done r)
  else Some Blocked.
End CoordinatorStateTransitHandler.

(** ** The clients *)
Module StateTransitInfo.
Record StateTransitInfo := MkInfo { parityRevert : Z; requestIds : gset Z; completed : bool }.

Definition new : StateTransitInfo := MkInfo 0 ∅ false.
Definition getParityRevertCounterVal (i : StateTransitInfo) : Z := parityRevert i.
Definition setParityRevertCounterVal (i : StateTransitInfo) (v : Z) : StateTransitInfo :=
  MkInfo v (requestIds i) (completed i).
Definition incrementParityRevertCounter (i : StateTransitInfo) (inc : Z) : Z * StateTransitInfo :=
  let i := setParityRevertCounterVal i (u32 (parityRevert i + inc)) in (parityRevert i, i).
Definition decrementParityRevertCounter (i : StateTransitInfo) (dec : Z) : Z * StateTransitInfo :=
  let i := setParityRevertCounterVal i (u32 (parityRevert i - dec)) in (parityRevert i, i).

Definition set_requests (i : StateTransitInfo) (ids : gset Z) : StateTransitInfo := MkInfo (parityRevert i) ids (completed i).
Definition set_done (i : StateTransitInfo) (b : bool) : StateTransitInfo := MkInfo (parityRevert i) (requestIds i) b.

Definition getPendingRequestCount (i : StateTransitInfo) : Z := Z.of_nat (size (requestIds i)).
Definition addPendingRequest (i : StateTransitInfo) (requestId : Z) : Z * StateTransitInfo :=
  let i := set_requests i ({[requestId]} ∪ requestIds i) in (getPendingRequestCount i, i).
Definition removePendingRequest (i : StateTransitInfo) (requestId : Z) : Z * StateTransitInfo :=
  let i := set_requests i (requestIds i ∖ {[requestId]}) in (getPendingRequestCount i, i).
Definition isPendingRequest (i : StateTransitInfo) (requestId : Z) : bool := bool_decide (requestId ∈ requestIds i).
Definition isCompleted (i : StateTransitInfo) : bool := completed i.
Definition setCompleted (i : StateTransitInfo) (force : bool) : bool * StateTransitInfo :=
  let i := set_done i (force || bool_decide (requestIds i = ∅)) in (completed i, i).
Definition unsetCompleted (i : StateTransitInfo) (force : bool) : bool * StateTransitInfo :=
  let i := set_done i (negb force && negb (bool_decide (requestIds i = ∅))) in (completed i, i).
End StateTransitInfo.

Module ClientStateTransitHandler.
Import SockAddr StateTransitHandler StateTransitInfo.

Record Client := MkClient {
  serversState : states;
  stateTransitInfo : gmap sockaddr_in StateTransitInfo;
  serversStateLock : gset sockaddr_in;
  sockets : list sockaddr_in;
}.
Definition set_states (c : Client) (ss : states) : Client :=
  MkClient ss (stateTransitInfo c) (serversStateLock c) (sockets c).
Definition set_infos (c : Client) (infos : gmap sockaddr_in StateTransitInfo) : Client :=
  MkClient (serversState c) infos (serversStateLock c) (sockets c).
Definition take_lock (c : Client) (server : sockaddr_in) : Client :=
  MkClient (serversState c) (stateTransitInfo c) ({[server]} ∪ serversStateLock c) (sockets c).

Definition info_at (c : Client) (server : sockaddr_in) : StateTransitInfo :=
  default StateTransitInfo.new (stateTransitInfo c !! server).
Definition put_info (c : Client) (server : sockaddr_in) (i : StateTransitInfo) : Client :=
  set_infos c (<[server := i]> (stateTransitInfo c)).

Definition new (sockets : list sockaddr_in) : Client := MkClient ∅ ∅ ∅ sockets.

Definition addAliveServer (c : Client) (server : sockaddr_in) : bool * Client :=
  if decide (is_Some (serversState c !! server)) then (false, c)
  else (true, put_info (set_states c (<[server := STATE_NORMAL]> (serversState c))) server StateTransitInfo.new).
Definition removeAliveServer (c : Client) (server : sockaddr_in) : bool * Client :=
  if decide (is_Some (serversState c !! server))
  then (true, set_infos (set_states c (delete server (serversState c))) (delete server (stateTransitInfo c)))
  else (false, c).

(** Which workflow a request to [server] takes. *)
Definition useCoordinatedFlow (c : Client) (server : sockaddr_in) : bool :=
  match serversState c !! server with Some s => bool_decide (s ≠ STATE_NORMAL) | None => false end.
Definition allowRemapping (c : Client) (server : sockaddr_in) : bool :=
  match serversState c !! server with
  | Some (STATE_INTERMEDIATE | STATE_WAIT_DEGRADED | STATE_DEGRADED) => true | _ => false end.
Definition acceptNormalResponse (c : Client) (server : sockaddr_in) : bool :=
  match serversState c !! server with Some (STATE_WAIT_DEGRADED | STATE_DEGRADED) => false | _ => true end.

Section handlers.
(** What the buffers on the stack hold, whether a request is still pending
    ([Pending::findKeyValue]), the effect of [Client::revertDelta] on the
    counters, the stripe lists, and the pending requests of the client: the
    number of the application's request and the key. *)
Context (junk : list byte) (findKeyValue : Z → bool).
Context (revertDelta : sockaddr_in → gmap sockaddr_in StateTransitInfo → gmap sockaddr_in StateTransitInfo).
Context (stripeList : StripeList.StripeList sockaddr_in) (pending : list (Z * list byte)).

(** *** Acknowledgements *)
Definition checkAckForServer (c : Client) (server : sockaddr_in) : bool * Client :=
  let c := take_lock c server in
  let c := set_states c (touch (serversState c) server) in
  match state_at (serversState c) server with
  | STATE_INTERMEDIATE =>
      let i := info_at c server in
      if decide (0 < getParityRevertCounterVal i ∨ completed i = false)
      then (false, put_info c server (set_requests i (filter (λ id, findKeyValue id = true) (requestIds i))))
      else (true, put_info (set_states c (<[server := STATE_WAIT_DEGRADED]> (serversState c))) server i)
  | STATE_COORDINATED => (true, set_states c (<[server := STATE_WAIT_NORMAL]> (serversState c)))
  | _ => (false, c)
  end.

Definition sendStateToCoordinator (c : Client) (servers : list sockaddr_in) : option (Client * list (list byte)) :=
  if decide (servers = [] ∨ too_many servers = true) then Some (c, []) else
  '(ss, msg) ← sendState junk (serversState c) servers;
  Some (set_states c ss, [msg]).

Fixpoint check_all (c : Client) (servers : list sockaddr_in) : Client * list sockaddr_in :=
  match servers with
  | [] => (c, [])
  | s :: rest =>
      let '(b, c) := checkAckForServer c s in
      let '(c, acks) := check_all c rest in
      (c, if b then s :: acks else acks)
  end.

Definition ackTransit (c : Client) (server : option sockaddr_in) : option (bool * Client * list (list byte)) :=
  match server with
  | Some s =>
      if decide (s ∉ serversStateLock c) then Some (false, c, []) else
      let '(b, c) := checkAckForServer c s in
      if b : bool then '(c, out) ← sendStateToCoordinator c [s]; Some (true, c, out) else Some (true, c, [])
  | None =>
      let '(c, serversToAck) := check_all c (in_order (dom (serversState c))) in
      '(c, out) ← sendStateToCoordinator c serversToAck; Some (true, c, out)
  end.

(** *** [ClientWorker::gatherPendingNormalRequests] *)
Definition has_parity (target : sockaddr_in) (listId : Z) : option bool :=
  for_range (StripeList.k stripeList) (StripeList.n stripeList)
    (λ j found, server ← StripeList.get_chunk stripeList listId j; Some (found || bool_decide (server = target))) false.

Definition gather_lists (target : sockaddr_in) : option (list Z) :=
  for_range 0 (StripeList.getNumList stripeList)
    (λ i ids, b ← has_parity target i; Some (if b : bool then ids ++ [i] else ids)) [].

Definition gather_request (target : sockaddr_in) (listIds : list Z) (s : Client * bool * gset Z) (r : Z * list byte) :
    option (Client * bool * gset Z) :=
  let '(c, hasPending, outdated) := s in
  let '(parentRequestId, key) := r in
  '(listId, chunkId, _, _) ← StripeList.get stripeList key (zlen key);
  dataServer ← StripeList.get_chunk stripeList listId chunkId;
  if decide (target = dataServer) then Some (c, hasPending, {[parentRequestId]} ∪ outdated)
  else if decide (listId ∉ listIds) then Some s
  else if useCoordinatedFlow c dataServer then Some s
  else
    i ← stateTransitInfo c !! target;
    Some (put_info c target (addPendingRequest i parentRequestId).2, true, outdated).

Fixpoint gather_requests (target : sockaddr_in) (listIds : list Z) (rs : list (Z * list byte)) (s : Client * bool * gset Z) :
    option (Client * bool * gset Z) :=
  match rs with [] => Some s | r :: rs => s ← gather_request target listIds s r; gather_requests target listIds rs s end.

(** The end: requests to the failed data server are no longer waited for on
    behalf of any other server. *)
Definition drop_request (i : StateTransitInfo) (id : Z) : StateTransitInfo :=
  let '(count, i) := removePendingRequest i id in
  if decide (count = 0) then (setCompleted i false).2 else i.
Definition drop_outdated (target : sockaddr_in) (outdated : gset Z) (c : Client) : Client :=
  set_infos c (map_imap (λ server i, Some (if decide (server = target) then i
    else foldl drop_request i (elements outdated))) (stateTransitInfo c)).

Definition gatherPendingNormalRequests (c : Client) (target : sockaddr_in) : option Client :=
  listIds ← gather_lists target;
  let c := put_info c target (info_at c target) in
  '(c, hasPending, outdated) ← gather_requests target listIds pending (c, false, ∅);
  let c := if hasPending : bool then c else put_info c target (setCompleted (info_at c target) false).2 in
  Some (drop_outdated target outdated c).

(** *** A message of the coordinator *)
Definition apply_signal (c : Client) (server : sockaddr_in) (signal : RemapState) : option Client :=
  let state := state_at (serversState c) server in
  match signal with
  | STATE_INTERMEDIATE =>
      if decide (state = STATE_WAIT_DEGRADED) then Some c else
      let c := put_info c server (unsetCompleted (info_at c server) true).2 in
      c ← gatherPendingNormalRequests c server;
      let c := set_infos c (revertDelta server (stateTransitInfo c)) in
      Some (set_states c (<[server := STATE_INTERMEDIATE]> (serversState c)))
  | STATE_COORDINATED =>
      Some (set_states c (<[server := if decide (state = STATE_WAIT_NORMAL) then state else signal]> (serversState c)))
  | _ => Some (set_states c (<[server := signal]> (serversState c)))
  end.

(** An unknown state is skipped (its lock is then released twice). *)
Fixpoint apply_signals (c : Client) (updated : list (sockaddr_in * byte)) : option Client :=
  match updated with
  | [] => Some c
  | (server, b) :: rest =>
      c ← match printServerState (i8 b) with Some signal => apply_signal c server signal | None => Some c end;
      apply_signals c rest
  end.

Fixpoint after_change (c : Client) (servers : list sockaddr_in) : option (Client * list (list byte)) :=
  match servers with
  | [] => Some (c, [])
  | server :: rest =>
      '(c, out) ← match state_at (serversState c) server with
        | STATE_INTERMEDIATE => '(_, c, out) ← ackTransit c None; Some (c, out)
        | STATE_COORDINATED => '(_, c, out) ← ackTransit c (Some server); Some (c, out)
        | _ => Some (c, [])
        end;
      '(c, out') ← after_change c rest;
      Some (c, out ++ out')
  end.

(** [None] also when a server comes twice: its lock is not recursive. *)
Definition setState (c : Client) (msg : list byte) : option (Client * list (list byte)) :=
  rs ← records msg;
  let updated := filter (λ r, is_Some (serversState c !! r.1) ∧ r.1 ∈ sockets c) rs in
  if decide (NoDup updated.*1) then
    let c := foldl take_lock c updated.*1 in
    c ← apply_signals c updated;
    after_change c (reverse updated.*1)
  else None.
End handlers.
End ClientStateTransitHandler.

(** ** The servers *)
Module ServerStateTransitHandler.
Import SockAddr StateTransitHandler.

(** [peers] are the addresses of the sockets to other servers.  A server
    stores whatever state it is sent, known or not. *)
Abbreviation server_states := (gmap sockaddr_in Z).

Definition set_one (peers : list sockaddr_in) (ss : server_states) (r : sockaddr_in * byte) : server_states :=
  let '(server, b) := r in
  if decide (is_Some (ss !! server) ∧ server ∈ peers) then <[server := i8 b]> ss else ss.
Definition setState (peers : list sockaddr_in) (ss : server_states) (msg : list byte) : option server_states :=
  rs ← records msg; Some (foldl (set_one peers) ss rs).

Definition addAliveServer (ss : server_states) (server : sockaddr_in) : bool * server_states :=
  if decide (is_Some (ss !! server)) then (false, ss) else (true, <[server := state_code STATE_NORMAL]> ss).
Definition removeAliveServer (ss : server_states) (server : sockaddr_in) : bool * server_states :=
  if decide (is_Some (ss !! server)) then (true, delete server ss) else (false, ss).
Definition useCoordinatedFlow (ss : server_states) (server : sockaddr_in) : bool :=
  match ss !! server with Some s => bool_decide (s ≠ state_code STATE_NORMAL) | None => false end.
End ServerStateTransitHandler.
