(* ===== verification/StateProofs.v ===== *)
(** * Correctness of the server states
    The message format is read back as it was written.  The coordinator, any
    number of clients and the messages between them form a transition system;
    its invariant relates, for every client and every server, the state at the
    coordinator, the state at the client, the messages on the way and the
    acknowledgement.  Safety and progress of the transitions follow. *)
From S2P Require Export StateTransit.
From S2P Require Import Ids Ring StripeList.
From stdpp Require Import sorting.
#[local] Open Scope Z_scope.

(** ** Messages *)
Module StateMessages.
Import SockAddr StateTransitHandler.

Definition addr_ok (a : sockaddr_in) : Prop := 0 ≤ s_addr a < 2 ^ 32 ∧ 0 ≤ sin_port a < 2 ^ 16.
Definition state_byte (s : RemapState) : byte := z2b (state_code s).
Definition state_record (ss : states) (a : sockaddr_in) : sockaddr_in * byte := (a, state_byte (state_at ss a)).
Definition record_bytes (ss : states) (a : sockaddr_in) : list byte :=
  le_bytes 4 (s_addr a) ++ le_bytes 2 (sin_port a) ++ [state_byte (state_at ss a)].

(** The states that a byte of a message stands for: a [char] or a [uint8_t]. *)
Lemma decode_signed b : printServerState (i8 b) = printServerState (b2z b).
Proof. unfold i8. pose proof (b2z_range b). case_decide; [done|]. destruct b; vm_compute in *; try done; lia. Qed.
Lemma decode_state s : printServerState (b2z (state_byte s)) = Some s.
Proof. by destruct s. Qed.

Lemma state_at_touch ss x y : state_at (touch ss x) y = state_at ss y.
Proof.
  unfold state_at, touch, state_at. destruct (decide (x = y)) as [->|].
  - by rewrite lookup_insert_eq.
  - by rewrite lookup_insert_ne.
Qed.
Lemma state_at_insert ss x s y : state_at (<[x := s]> ss) y = if decide (x = y) then s else state_at ss y.
Proof.
  unfold state_at. case_decide as H; [subst; by rewrite lookup_insert_eq | by rewrite lookup_insert_ne].
Qed.
Lemma state_at_touches ss xs y : state_at (foldl touch ss xs) y = state_at ss y.
Proof. revert ss; induction xs as [|x xs IH]; intros ss; simpl; [done|]. by rewrite IH, state_at_touch. Qed.
Lemma touch_known ss x : is_Some (ss !! x) → touch ss x = ss.
Proof. intros [s Hs]. unfold touch, state_at. rewrite Hs. simpl. by apply insert_id. Qed.
Lemma touches_known ss xs : (∀ x, x ∈ xs → is_Some (ss !! x)) → foldl touch ss xs = ss.
Proof.
  induction xs as [|x xs IH]; intros H; simpl; [done|].
  rewrite touch_known by (apply H; left). apply IH. intros. apply H. by right.
Qed.

Lemma le_bytes_app a b z : le_bytes (a + b) z = le_bytes a z ++ le_bytes b (z / 256 ^ Z.of_nat a).
Proof.
  revert z; induction a as [|a IH]; intros z.
  - change (le_bytes b z = le_bytes b (z / 1)). by rewrite Z.div_1_r.
  - change (z2b z :: le_bytes (a + b) (z / 256) = z2b z :: le_bytes a (z / 256) ++ le_bytes b (z / 256 ^ Z.of_nat (S a))).
    rewrite IH, Nat2Z.inj_succ, Z.pow_succ_r, Z.div_div by lia. done.
Qed.

Lemma length_record ss a : length (record_bytes ss a) = 7%nat.
Proof. unfold record_bytes. by rewrite !length_app, !length_le_bytes. Qed.

Lemma state_code_bytes s : le_bytes 4 (u8 (state_code s)) = [state_byte s; x00; x00; x00].
Proof. by destruct s. Qed.

Lemma store32_app pre a b c d rest lo v :
  lo = zlen pre → store32 (pre ++ a :: b :: c :: d :: rest) lo v = Some (pre ++ le_bytes 4 v ++ rest).
Proof. intros ->. apply (splice_app pre rest [a; b; c; d] (le_bytes 4 v)); done. Qed.

(** The three overlapping stores of a record. *)
Lemma store_record ss a pre rest :
  10 ≤ zlen rest →
  (buf ← store32 (pre ++ rest) (zlen pre) (s_addr a);
   buf ← store32 buf (zlen pre + 4) (sin_port a);
   store32 buf (zlen pre + 4 + 2) (u8 (state_code (state_at ss a))))
  = Some ((pre ++ record_bytes ss a) ++ [x00; x00; x00] ++ drop 10 rest).
Proof.
  intros Hlen.
  do 10 (destruct rest as [|? rest]; [unfold zlen in Hlen; simpl in Hlen; lia|]).
  rewrite store32_app by done. cbn [mbind option_bind]. rewrite app_assoc, store32_app;
    [|unfold zlen; rewrite length_app, length_le_bytes; lia]. cbn [mbind option_bind].
  rewrite (le_bytes_app 2 2 (sin_port a) : le_bytes 4 (sin_port a) = _).
  set (hi := le_bytes 2 (sin_port a / 256 ^ Z.of_nat 2)). assert (Hhi : ∃ x y, hi = [x; y]) by (by eexists _, _).
  destruct Hhi as (x & y & ->). rewrite <- (app_assoc (le_bytes 2 _)), app_assoc. cbn [app].
  rewrite store32_app; [|unfold zlen; rewrite !length_app, !length_le_bytes; lia].
  rewrite state_code_bytes. unfold record_bytes. by rewrite <- !app_assoc.
Qed.

Lemma send_records_spec ss servers pre rest :
  7 * zlen servers + 3 ≤ zlen rest →
  ∃ rest', send_records ss servers (pre ++ rest) (zlen pre)
    = Some (foldl touch ss servers, pre ++ concat (record_bytes ss <$> servers) ++ rest', zlen pre + 7 * zlen servers).
Proof.
  revert ss pre rest. induction servers as [|a servers IH]; intros ss pre rest Hlen.
  - exists rest. simpl. do 2 f_equal. unfold zlen. simpl. lia.
  - assert (Hz : zlen (a :: servers) = zlen servers + 1) by (unfold zlen; simpl; lia).
    destruct (IH (touch ss a) (pre ++ record_bytes ss a) ([x00; x00; x00] ++ drop 10 rest)) as (rest' & Hr).
    { revert Hlen. unfold zlen. rewrite length_app, length_drop. simpl. lia. }
    exists rest'. pose proof (store_record ss a pre rest ltac:(unfold zlen in *; simpl in *; lia)) as Hst.
    cbn [send_records]. destruct (store32 (pre ++ rest) _ _) as [b1|]; [|done]. cbn [mbind option_bind] in *.
    destruct (store32 b1 _ _) as [b2|]; [|done]. cbn [mbind option_bind] in *. rewrite Hst. cbn [mbind option_bind].
    assert (Hp : zlen (pre ++ record_bytes ss a) = zlen pre + 7) by (unfold zlen; rewrite length_app, length_record; lia).
    unfold serverStateRecordSize. rewrite <- Hp, Hr, Hp.
    assert (Hm : (record_bytes (touch ss a) <$> servers) = (record_bytes ss <$> servers)).
    { apply list_fmap_ext. intros i x _. unfold record_bytes. by rewrite state_at_touch. }
    rewrite Hm. cbn [fmap list_fmap concat foldl]. rewrite <- !app_assoc. do 2 f_equal. lia.
Qed.

(** Reading. *)
Lemma get_record_spec ss a pre rest :
  addr_ok a → get_record (pre ++ record_bytes ss a ++ rest) (zlen pre) = Some (state_record ss a).
Proof.
  intros [Ha Hp]. unfold get_record, record_bytes. rewrite <- !app_assoc.
  set (b := state_byte _). set (A := le_bytes 4 _). set (P := le_bytes 2 _).
  assert (HA : length A = 4%nat) by apply length_le_bytes.
  assert (HP : length P = 2%nat) by apply length_le_bytes.
  rewrite (slice_app_mid pre A _ (zlen pre) 4) by (unfold zlen; lia). cbn [mbind option_bind].
  rewrite (app_assoc pre A), (slice_app_mid (pre ++ A) P _ (zlen pre + 4) 2) by (unfold zlen; rewrite ?length_app; lia).
  cbn [mbind option_bind].
  assert (Hb : zget ((pre ++ A) ++ P ++ [b] ++ rest) (zlen pre + 6) = Some b).
  { unfold zget. rewrite decide_True by (unfold zlen; lia). rewrite app_assoc.
    apply list_lookup_middle. unfold zlen. rewrite !length_app. lia. }
  rewrite Hb. cbn [mbind option_bind]. unfold A, P. rewrite !le_val_le_bytes, !Z.mod_small by (simpl; lia).
  by destruct a.
Qed.

Lemma records_from_spec ss servers pre rest :
  Forall addr_ok servers →
  records_from (length servers) (pre ++ concat (record_bytes ss <$> servers) ++ rest) (zlen pre)
    = Some (state_record ss <$> servers).
Proof.
  intros Hok. revert pre. induction Hok as [|a servers Ha _ IH]; intros pre; [done|].
  cbn [length records_from fmap list_fmap concat]. rewrite <- app_assoc, get_record_spec by done.
  cbn [mbind option_bind]. rewrite (app_assoc pre).
  assert (Hp : zlen (pre ++ record_bytes ss a) = zlen pre + 7) by (unfold zlen; rewrite length_app, length_record; lia).
  unfold serverStateRecordSize. rewrite <- Hp. by rewrite IH.
Qed.

Lemma length_records ss servers : length (concat (record_bytes ss <$> servers)) = (7 * length servers)%nat.
Proof.
  induction servers as [|a servers IH]; [done|]. rewrite fmap_cons. cbn [concat length].
  rewrite length_app, length_record, IH. lia.
Qed.

Lemma send_spec junk ss servers :
  zlen junk = MAX_MESSLEN → zlen servers ≤ 255 → Forall addr_ok servers →
  ∃ msg, sendState junk ss servers = Some (foldl touch ss servers, msg)
    ∧ zlen msg = 1 + 7 * zlen servers
    ∧ records msg = Some (state_record ss <$> servers).
Proof.
  intros Hj Hn Hok. unfold MAX_MESSLEN in Hj. unfold sendState.
  destruct junk as [|j0 junk]; [unfold zlen in Hj; simpl in Hj; lia|].
  rewrite (splice_app [] junk [j0] [z2b (u8 (zlen servers))]) by done. cbn [mbind option_bind app].
  destruct (send_records_spec ss servers [z2b (u8 (zlen servers))] junk) as (rest & Hs).
  { unfold zlen in *. simpl in *. lia. }
  change (zlen [z2b (u8 (zlen servers))]) with 1 in Hs. simpl app in Hs. rewrite Hs. cbn [mbind option_bind].
  set (count := z2b (u8 (zlen servers))) in *.
  assert (Hc : b2z count = zlen servers).
  { unfold count. rewrite u8_small, b2z_small by (unfold zlen in *; lia). done. }
  set (msg := count :: concat (record_bytes ss <$> servers)).
  assert (Hlm : zlen msg = 1 + 7 * zlen servers) by (unfold zlen, msg; cbn [length]; rewrite length_records; lia).
  assert (Hsl : slice (count :: concat (record_bytes ss <$> servers) ++ rest) 0 (1 + 7 * zlen servers) = Some msg).
  { apply (slice_app_mid [] msg rest); [done|by rewrite Hlm]. }
  rewrite Hsl. cbn [mbind option_bind]. exists msg. split; [done|]. split; [done|].
  unfold records. change (zget msg 0) with (Some count). cbn [mbind option_bind].
  rewrite Hc. unfold zlen. rewrite Nat2Z.id.
  pose proof (records_from_spec ss servers [count] [] Hok) as Hr. rewrite app_nil_r in Hr. exact Hr.
Qed.
End StateMessages.

(** ** One client and one server
    How the state [c] of a server at a client, the states [q] on their way to
    the client, the acknowledgements [o] on their way back and the flag [b],
    whether the coordinator has the acknowledgement, belong to the state [S]
    of the server at the coordinator. *)
Module StateLinks.
Import StateTransitHandler.

(** What a client makes of a message. *)
Definition recv (c s : RemapState) : RemapState :=
  match s, c with
  | STATE_INTERMEDIATE, STATE_WAIT_DEGRADED => c
  | STATE_COORDINATED, STATE_WAIT_NORMAL => c
  | _, _ => s
  end.

(** The messages a client in a state can get next, and the states in which
    it can have seen everything. *)
Definition expects (c s : RemapState) : bool :=
  match c, s with
  | STATE_NORMAL, (STATE_NORMAL | STATE_INTERMEDIATE) | STATE_INTERMEDIATE, STATE_INTERMEDIATE
  | STATE_WAIT_DEGRADED, (STATE_INTERMEDIATE | STATE_DEGRADED) | STATE_DEGRADED, (STATE_DEGRADED | STATE_COORDINATED)
  | STATE_COORDINATED, STATE_COORDINATED | STATE_WAIT_NORMAL, (STATE_COORDINATED | STATE_NORMAL) => true
  | _, _ => false
  end.
Definition settled (S c : RemapState) : bool :=
  match S, c with
  | STATE_NORMAL, STATE_NORMAL | STATE_INTERMEDIATE, (STATE_INTERMEDIATE | STATE_WAIT_DEGRADED)
  | STATE_DEGRADED, STATE_DEGRADED | STATE_COORDINATED, (STATE_COORDINATED | STATE_WAIT_NORMAL) => true
  | _, _ => false
  end.
Fixpoint on_route (S c : RemapState) (q : list RemapState) : bool :=
  match q with [] => settled S c | s :: q => expects c s && on_route S (recv c s) q end.

(** The state with which a client acknowledges. *)
Definition acked (c : RemapState) : option RemapState :=
  match c with
  | STATE_INTERMEDIATE => Some STATE_WAIT_DEGRADED | STATE_COORDINATED => Some STATE_WAIT_NORMAL | _ => None
  end.

Definition ack_ok (S : RemapState) (b : bool) (c : RemapState) (o : list RemapState) : Prop :=
  match acked S with
  | Some w => if decide (c = w) then (o = [w] ∧ b = false) ∨ (o = [] ∧ b = true) else o = [] ∧ b = false
  | None => o = []
  end.

Definition link (S : RemapState) (b : bool) (c : RemapState) (q o : list RemapState) : Prop :=
  on_route S c q = true ∧ ack_ok S b c o.

(** Which states a client can be in: the safety of the transitions. *)
Definition agrees (S c : RemapState) : bool :=
  match S, c with
  | STATE_NORMAL, (STATE_NORMAL | STATE_WAIT_NORMAL) => true
  | STATE_INTERMEDIATE, (STATE_NORMAL | STATE_WAIT_NORMAL | STATE_INTERMEDIATE | STATE_WAIT_DEGRADED) => true
  | STATE_DEGRADED, (STATE_WAIT_DEGRADED | STATE_DEGRADED) => true
  | STATE_COORDINATED, (STATE_WAIT_DEGRADED | STATE_DEGRADED | STATE_COORDINATED | STATE_WAIT_NORMAL) => true
  | _, _ => false
  end.

Lemma on_route_agrees S c q : on_route S c q = true → agrees S c = true.
Proof.
  revert c; induction q as [|s q IH]; intros c; simpl; [by destruct S, c|].
  intros [He Hr]%andb_true_iff. specialize (IH _ Hr). by destruct c, s; simpl in *; try discriminate; destruct S.
Qed.
Lemma link_agrees S b c q o : link S b c q o → agrees S c = true.
Proof. intros [H _]. by eapply on_route_agrees. Qed.

(** A client takes the next message. *)
Lemma link_recv S b c s q o : link S b c (s :: q) o → link S b (recv c s) q o.
Proof.
  intros [[He Hr]%andb_true_iff Ha]. split; [done|]. pose proof (on_route_agrees _ _ _ Hr) as Hag.
  by destruct c, s; simpl in He; try discriminate; destruct S; simpl in *; try discriminate.
Qed.
Lemma link_recvs S b c w q o : link S b c (w ++ q) o → link S b (foldl recv c w) q o.
Proof. revert c; induction w as [|s w IH]; intros c; simpl; [done|]. intros H%link_recv. by apply IH. Qed.

Lemma recvs_not_waiting S c w q :
  on_route S c (w ++ q) = true → c ≠ STATE_WAIT_DEGRADED → foldl recv c w ≠ STATE_WAIT_DEGRADED.
Proof.
  revert c; induction w as [|s w IH]; intros c; simpl; [done|]. intros [He Hr]%andb_true_iff Hc.
  apply IH; [done|]. by destruct c, s.
Qed.

(** A client acknowledges. *)
Lemma on_route_acked S c q w : acked c = Some w → on_route S c q = true → on_route S w q = true.
Proof.
  intros Hc. assert (Hs : ∀ s, expects c s = true → recv c s = c ∧ expects w s = true ∧ recv w s = w).
  { intros s. destruct c, s; simpl in *; try discriminate; by injection Hc as <-. }
  revert Hc Hs. induction q as [|s q IH]; simpl; intros Hc Hs.
  - by destruct S, c; simpl in *; try discriminate; injection Hc as <-.
  - intros [He Hr]%andb_true_iff. destruct (Hs s He) as (Hrc & -> & ->). rewrite Hrc in Hr. simpl. by apply IH.
Qed.
Lemma on_route_last S c q : on_route S c q = true → acked c ≠ None → S = c.
Proof.
  revert c; induction q as [|s q IH]; simpl; intros c.
  - by destruct S, c.
  - intros [He Hr]%andb_true_iff Hc. assert (recv c s = c) as Hrc by (by destruct c, s).
    rewrite Hrc in Hr. by apply IH.
Qed.
Lemma link_ack S b c w q o : acked c = Some w → link S b c q o → link S b w q (o ++ [w]).
Proof.
  intros Hc [Hr Ha]. split; [by eapply on_route_acked|].
  assert (S = c) as -> by (eapply on_route_last; [done|by rewrite Hc]).
  unfold ack_ok in *. rewrite Hc in *. rewrite decide_True by done.
  rewrite decide_False in Ha by (by destruct c; simplify_eq/=). destruct Ha as [-> ->]. by left.
Qed.

(** The coordinator takes an acknowledgement. *)
Lemma link_unack S b c q w o : link S b c q (w :: o) → acked S = Some w ∧ link S true c q o.
Proof.
  intros [Hr Ha]. unfold link, ack_ok in *. destruct (acked S) as [w'|]; [|discriminate].
  case_decide; [|destruct Ha; discriminate]. destruct Ha as [[[= -> ->] ->]|[? _]]; [|discriminate].
  split; [done|]. split; [done|]. by right.
Qed.

(** The coordinator sends the state again, or starts or ends a transition. *)
Lemma on_route_snoc S S' c q :
  (∀ c, agrees S c = true → settled S c = true → expects c S' = true ∧ settled S' (recv c S') = true) →
  on_route S c q = true → on_route S' c (q ++ [S']) = true.
Proof.
  intros H. revert c; induction q as [|s q IH]; intros c Hr; simpl in *.
  - destruct (H c) as [-> ->]; [by apply (on_route_agrees S c [])|done..].
  - apply andb_true_iff in Hr as [-> Hr]. simpl. by apply IH.
Qed.
Lemma link_again S b c q o : link S b c q o → link S b c (q ++ [S]) o.
Proof. intros [Hr Ha]. split; [|done]. apply on_route_snoc with S; [|done]. by intros []; destruct S. Qed.

Lemma link_start S S' b c q o :
  (S = STATE_NORMAL ∧ S' = STATE_INTERMEDIATE) ∨ (S = STATE_DEGRADED ∧ S' = STATE_COORDINATED) →
  link S b c q o → link S' false c (q ++ [S']) o.
Proof.
  intros HS [Hr Ha]. split.
  - apply on_route_snoc with S; [|done]. by destruct HS as [[-> ->]|[-> ->]]; intros [].
  - pose proof (on_route_agrees _ _ _ Hr) as Hag.
    by destruct HS as [[-> ->]|[-> ->]]; destruct c; simpl in *; try discriminate; rewrite Ha.
Qed.

Lemma on_route_waiting S w q : acked S = Some w → on_route S w q = true → Forall (λ s, s = S) q.
Proof.
  intros HS. induction q as [|s q IH]; simpl; [done|]. intros [He Hr]%andb_true_iff.
  pose proof (on_route_agrees _ _ _ Hr) as Hag.
  destruct S; simpl in HS; try discriminate; injection HS as <-; destruct s; simpl in *; try discriminate;
    (constructor; [done|by apply IH]).
Qed.
Lemma link_finish S S' c q o :
  (S = STATE_INTERMEDIATE ∧ S' = STATE_DEGRADED) ∨ (S = STATE_COORDINATED ∧ S' = STATE_NORMAL) →
  link S true c q o → ∀ b', link S' b' c (q ++ [S']) o.
Proof.
  intros HS [Hr Ha] b'. assert (∃ w, acked S = Some w) as [w Hw] by (destruct HS as [[-> _]|[-> _]]; eauto).
  unfold ack_ok in Ha. rewrite Hw in Ha. case_decide; [subst|by destruct Ha].
  destruct Ha as [[_ ?]|[-> _]]; [done|].
  pose proof (on_route_waiting _ _ _ Hw Hr) as Hq. split.
  - clear Hr. destruct HS as [[-> ->]|[-> ->]]; injection Hw as <-; induction Hq as [|? ? ->]; simpl; auto.
  - by destruct HS as [[-> ->]|[-> ->]].
Qed.

(** Everything delivered and acknowledged. *)
Lemma link_delivered S b c q : link S b c [] [] → acked S = Some q → acked c = None → b = true.
Proof.
  intros [Hr Ha] HS Hc. unfold ack_ok in Ha. rewrite HS in Ha. case_decide as Hcq.
  - destruct Ha as [[? _]|[_ ?]]; [discriminate|done].
  - by destruct S, c; simpl in *; try discriminate; injection HS as <-.
Qed.
End StateLinks.

(** ** The handlers of a client, server by server *)
Module StateClients.
Import SockAddr StateTransitHandler StateTransitInfo ClientStateTransitHandler StateMessages StateLinks.

(** The states of server [X] in a list of records, in messages. *)
Definition states_of (X : sockaddr_in) (rs : list (sockaddr_in * byte)) : list RemapState :=
  omap (λ r, if decide (r.1 = X) then printServerState (b2z r.2) else None) rs.
Definition sent (X : sockaddr_in) (msgs : list (list byte)) : list RemapState :=
  msgs ≫= λ msg, states_of X (default [] (records msg)).
Definition readable (msg : list byte) : Prop := is_Some (records msg).

Lemma sent_app X ms ms' : sent X (ms ++ ms') = sent X ms ++ sent X ms'.
Proof. unfold sent. apply bind_app. Qed.
Lemma sent_cons X m ms rs : records m = Some rs → sent X (m :: ms) = states_of X rs ++ sent X ms.
Proof. intros H. unfold sent. simpl. by rewrite H. Qed.

Definition state_of (X : sockaddr_in) (r : sockaddr_in * byte) : option RemapState :=
  if decide (r.1 = X) then printServerState (b2z r.2) else None.
Lemma states_of_cons X r rs :
  states_of X (r :: rs) = match state_of X r with Some s => s :: states_of X rs | None => states_of X rs end.
Proof. done. Qed.
Lemma state_of_record X ss a : state_of X (state_record ss a) = if decide (a = X) then Some (state_at ss a) else None.
Proof. unfold state_of, state_record. cbn [fst snd]. by rewrite decode_state. Qed.

Lemma states_of_records ss xs X :
  NoDup xs → states_of X (state_record ss <$> xs) = if decide (X ∈ xs) then [state_at ss X] else [].
Proof.
  induction 1 as [|x xs Hx _ IH]; [done|]. rewrite fmap_cons, states_of_cons, state_of_record.
  rewrite IH. destruct (decide (x = X)) as [->|Hne].
  - rewrite decide_False by done. by rewrite decide_True by left.
  - destruct (decide (X ∈ xs)) as [Hi|Hi].
    + by rewrite decide_True by (by right).
    + rewrite decide_False; [done|]. intros [->|?]%elem_of_cons; done.
Qed.

Section clients.
Context (V : gset sockaddr_in) (Vok : ∀ X, X ∈ V → addr_ok X) (Vsize : Z.of_nat (size V) ≤ 255).
Context (junk : list byte) (Hjunk : zlen junk = MAX_MESSLEN).
Abbreviation st c X := (state_at (serversState c) X).

Definition client_ok (c : Client) : Prop := dom (serversState c) = V ∧ ∀ X, X ∈ V → X ∈ sockets c.

Lemma known_size xs : NoDup xs → (∀ x, x ∈ xs → x ∈ V) → zlen xs ≤ 255.
Proof.
  clear Vok Hjunk. intros Hnd Hin. assert (length xs ≤ size V)%nat; [|unfold zlen; lia].
  rewrite <- (size_list_to_set (C := gset sockaddr_in) xs) by done. apply subseteq_size. set_solver.
Qed.
Lemma known_not_too_many xs : NoDup xs → (∀ x, x ∈ xs → x ∈ V) → too_many xs = false.
Proof.
  clear Vok Hjunk. intros Hnd Hin. pose proof (known_size xs Hnd Hin). unfold too_many.
  apply bool_decide_eq_false. unfold MAX_MESSLEN, serverStateRecordSize. lia.
Qed.
Lemma in_order_perm (X : gset sockaddr_in) : in_order X ≡ₚ elements X.
Proof. apply merge_sort_Permutation. Qed.
Lemma in_order_NoDup (X : gset sockaddr_in) : NoDup (in_order X).
Proof. rewrite in_order_perm. apply NoDup_elements. Qed.
Lemma elem_of_in_order (X : gset sockaddr_in) x : x ∈ in_order X ↔ x ∈ X.
Proof. rewrite in_order_perm. apply elem_of_elements. Qed.

(** Sending the states of known servers. *)
Lemma send_known (ss : states) xs :
  V ⊆ dom ss → NoDup xs → (∀ x, x ∈ xs → x ∈ V) →
  ∃ msg, sendState junk ss xs = Some (ss, msg) ∧ records msg = Some (state_record ss <$> xs).
Proof.
  intros Hd Hnd Hin. destruct (send_spec junk ss xs) as (msg & Hs & _ & Hr); [done|by apply known_size| |].
  - apply Forall_forall. auto.
  - exists msg. rewrite Hs. split; [|done]. rewrite touches_known; [done|].
    intros x Hx. apply elem_of_dom. auto.
Qed.

Definition acks_of (s s' : RemapState) (o : list RemapState) : Prop :=
  (s' = s ∧ o = []) ∨ (acked s = Some s' ∧ o = [s']).
Lemma acks_of_trans s s1 s2 o1 o2 : acks_of s s1 o1 → acks_of s1 s2 o2 → acks_of s s2 (o1 ++ o2).
Proof.
  intros [[-> ->]|[H1 ->]]; [done|]. intros [[-> ->]|[H2 ->]]; [by right|].
  by destruct s; simplify_eq/=.
Qed.

Lemma eta_states c : set_states c (serversState c) = c.
Proof. by destruct c. Qed.

Lemma check_ack_spec fkv c X b c' :
  client_ok c → X ∈ V → checkAckForServer fkv c X = (b, c') →
  client_ok c' ∧ (∀ Y, Y ≠ X → st c' Y = st c Y)
  ∧ (if b then acked (st c X) = Some (st c' X) else st c' X = st c X).
Proof.
  intros [Hd Hs] HX. unfold checkAckForServer. cbn [serversState set_states take_lock].
  assert (Hk : is_Some (serversState c !! X)) by (apply elem_of_dom; by rewrite Hd).
  rewrite touch_known by done.
  assert (Hins : ∀ s, dom (<[X := s]> (serversState c)) = V) by (intros s; rewrite dom_insert_L; set_solver).
  destruct (st c X) eqn:E; try (intros [= <- <-]; cbn; by rewrite E).
  - case_decide; intros [= <- <-]; cbn; [by rewrite E|].
    split; [split; [apply Hins|done]|]. split.
    + intros Y HY. by rewrite state_at_insert, decide_False.
    + by rewrite state_at_insert, decide_True.
  - intros [= <- <-]; cbn. split; [split; [apply Hins|done]|]. split.
    + intros Y HY. by rewrite state_at_insert, decide_False.
    + by rewrite state_at_insert, decide_True.
Qed.

Lemma check_all_spec fkv c xs :
  client_ok c → NoDup xs → (∀ x, x ∈ xs → x ∈ V) →
  ∃ c' ys, check_all fkv c xs = (c', ys) ∧ client_ok c' ∧ NoDup ys ∧ (∀ y, y ∈ ys → y ∈ xs)
    ∧ ∀ X, if decide (X ∈ ys) then acked (st c X) = Some (st c' X) else st c' X = st c X.
Proof.
  intros Hc Hnd. revert c Hc. induction Hnd as [|x xs Hx Hnd IH]; intros c Hc Hin.
  - exists c, []. split_and!; [done|done|constructor|done|]. intros X. by rewrite decide_False by set_solver.
  - cbn [check_all]. destruct (checkAckForServer fkv c x) as [b c1] eqn:E.
    destruct (check_ack_spec fkv c x b c1 Hc) as (Hc1 & Hother & Hb); [set_solver|done|].
    destruct (IH c1 Hc1) as (c' & ys & -> & Hc' & Hndy & Hys & HX); [set_solver|].
    eexists c', _. split; [done|]. split; [done|]. split; [destruct b; [constructor; [auto|done]|done]|].
    split; [destruct b; set_solver|]. intros X. specialize (HX X). destruct (decide (X = x)) as [->|Hne].
    + rewrite decide_False in HX by auto. destruct b.
      * rewrite decide_True by left. congruence.
      * rewrite decide_False by auto. congruence.
    + rewrite (Hother X Hne) in HX. destruct b; [|done].
      destruct (decide (X ∈ ys)); [by rewrite decide_True by (by right)|].
      rewrite decide_False by (by intros [?|?]%elem_of_cons). done.
Qed.

Lemma send_coord_spec c ys :
  client_ok c → NoDup ys → (∀ y, y ∈ ys → y ∈ V) →
  ∃ out, sendStateToCoordinator junk c ys = Some (c, out) ∧ Forall readable out
    ∧ ∀ X, sent X out = if decide (X ∈ ys) then [st c X] else [].
Proof.
  intros [Hd Hs] Hnd Hin. unfold sendStateToCoordinator. rewrite known_not_too_many by done. case_decide as Hy.
  - exists []. destruct Hy as [->|?]; [|done]. split_and!; [done|constructor|].
    intros X. by rewrite decide_False by set_solver.
  - destruct (send_known (serversState c) ys ltac:(by rewrite Hd) Hnd Hin) as (msg & -> & Hr). cbn [mbind option_bind].
    rewrite eta_states. exists [msg]. split; [done|]. split; [by apply Forall_singleton; eexists|].
    intros X. rewrite (sent_cons _ _ _ _ Hr), app_nil_r. by apply states_of_records.
Qed.

Lemma ack_spec fkv c server :
  client_ok c → (∀ X, server = Some X → X ∈ V) →
  ∃ b c' out, ackTransit junk fkv c server = Some (b, c', out) ∧ client_ok c' ∧ Forall readable out
    ∧ ∀ X, acks_of (st c X) (st c' X) (sent X out).
Proof.
  intros Hc Hin. unfold ackTransit. destruct server as [X|].
  - case_decide; [exists false, c, []; split_and!; [done..|by left]|].
    destruct (checkAckForServer fkv c X) as [b c1] eqn:E.
    destruct (check_ack_spec fkv c X b c1 Hc (Hin X eq_refl) E) as (Hc1 & Hother & Hb).
    destruct b.
    + destruct (send_coord_spec c1 [X]) as (out & -> & Hr & Hs); [done|apply NoDup_singleton|set_solver|].
      eexists true, c1, out. split_and!; [done..|]. intros Y. rewrite Hs. destruct (decide (Y = X)) as [->|].
      * rewrite decide_True by set_solver. by right.
      * rewrite decide_False by set_solver. left. by rewrite Hother.
    + exists true, c1, []. split_and!; [done..|]. intros Y. left. split; [|done].
      destruct (decide (Y = X)) as [->|]; auto.
  - destruct (check_all_spec fkv c (in_order (dom (serversState c)))) as (c1 & ys & -> & Hc1 & Hnd & Hys & HX).
    { done. } { apply in_order_NoDup. } { intros x. rewrite elem_of_in_order. destruct Hc as [-> _]. done. }
    destruct (send_coord_spec c1 ys) as (out & -> & Hr & Hs); [done|done| |].
    { intros y Hy%Hys. rewrite elem_of_in_order in Hy. destruct Hc as [<- _]. done. }
    exists true, c1, out. split_and!; [done..|]. intros X. rewrite Hs. specialize (HX X). case_decide; [by right|by left].
Qed.

Lemma after_change_spec fkv c xs :
  client_ok c → (∀ x, x ∈ xs → x ∈ V) →
  ∃ c' out, after_change junk fkv c xs = Some (c', out) ∧ client_ok c' ∧ Forall readable out
    ∧ ∀ X, acks_of (st c X) (st c' X) (sent X out).
Proof.
  revert c; induction xs as [|x xs IH]; intros c Hc Hin.
  - exists c, []. split_and!; [done..|by left].
  - assert (Hstep : ∃ c1 out1, match st c x with
        | STATE_INTERMEDIATE => '(_, c, out) ← ackTransit junk fkv c None; Some (c, out)
        | STATE_COORDINATED => '(_, c, out) ← ackTransit junk fkv c (Some x); Some (c, out)
        | _ => Some (c, [])
        end = Some (c1, out1) ∧ client_ok c1 ∧ Forall readable out1
        ∧ ∀ X, acks_of (st c X) (st c1 X) (sent X out1)).
    { destruct (ack_spec fkv c None Hc) as (? & c1 & o1 & H1 & ?); [done|].
      destruct (ack_spec fkv c (Some x) Hc) as (? & c2 & o2 & H2 & ?); [intros ? [= <-]; set_solver|].
      destruct (st c x); try (exists c, []; split_and!; [done..|by left]).
      - exists c1, o1. by rewrite H1.
      - exists c2, o2. by rewrite H2. }
    destruct Hstep as (c1 & o1 & Heq & Hc1 & Hr1 & H1). cbn [after_change]. rewrite Heq. cbn [mbind option_bind].
    destruct (IH c1 Hc1) as (c2 & o2 & -> & Hc2 & Hr2 & H2); [set_solver|].
    exists c2, (o1 ++ o2). split_and!; [done|done|by apply Forall_app|].
    intros X. rewrite sent_app. by eapply acks_of_trans.
Qed.

(** A client enters [STATE_WAIT_DEGRADED] only when its requests are complete
    and its deltas reverted, and its counters stay as they are while it
    waits. *)
Definition finished (c : Client) (X : sockaddr_in) : Prop :=
  parityRevert (info_at c X) ≤ 0 ∧ completed (info_at c X) = true.
Definition waits_when_finished (X : sockaddr_in) (c c' : Client) : Prop :=
  if decide (st c X = STATE_WAIT_DEGRADED) then st c' X = STATE_WAIT_DEGRADED ∧ info_at c' X = info_at c X
  else st c' X = STATE_WAIT_DEGRADED → finished c' X.

Lemma waits_refl X c : waits_when_finished X c c.
Proof. unfold waits_when_finished. by case_decide. Qed.
Lemma waits_trans X c c1 c2 : waits_when_finished X c c1 → waits_when_finished X c1 c2 → waits_when_finished X c c2.
Proof.
  unfold waits_when_finished, finished. destruct (decide (st c X = _)).
  - intros [H1 ->]. by rewrite decide_True.
  - intros H1. case_decide; [|done]. intros [H2 ->] _. auto.
Qed.

Lemma check_ack_waits fkv c X Y b c' :
  client_ok c → Y ∈ V → checkAckForServer fkv c Y = (b, c') → waits_when_finished X c c'.
Proof.
  intros Hc HY E. destruct (check_ack_spec fkv c Y b c' Hc HY E) as (_ & Hoth & _).
  destruct Hc as [Hd _]. revert E. unfold checkAckForServer. cbn [serversState set_states take_lock].
  rewrite touch_known by (apply elem_of_dom; by rewrite Hd). unfold waits_when_finished.
  assert (Hput : ∀ c0 i, stateTransitInfo c0 = stateTransitInfo c → Y ≠ X → info_at (put_info c0 Y i) X = info_at c X).
  { intros c0 i E0 Hne. unfold info_at, put_info. cbn. by rewrite lookup_insert_ne, E0. }
  destruct (decide (Y = X)) as [->|Hne].
  - destruct (st c X) eqn:E; try (intros [= <- <-]; cbn; rewrite E; done).
    + rewrite (decide_False (P := STATE_INTERMEDIATE = STATE_WAIT_DEGRADED)) by done. case_decide as Hcond; intros [= <- <-]; cbn; [by rewrite E|]. intros _.
      unfold finished. assert (Hi : ∀ c0 i, info_at (put_info c0 X i) X = i).
      { intros c0 i. unfold info_at, put_info. cbn. by rewrite lookup_insert_eq. }
      rewrite Hi. unfold getParityRevertCounterVal, info_at in *. cbn in *.
      split; [lia|]. apply not_false_is_true. intros Hf. apply Hcond. by right.
    + intros [= <- <-]. destruct (decide (STATE_COORDINATED = _)); [done|]. cbn.
      rewrite state_at_insert, (decide_True (P := X = X)) by done. done.
  - rewrite (Hoth X) by done. intros E. destruct (decide (st c X = STATE_WAIT_DEGRADED)); [|done].
    split; [done|]. revert E. destruct (st c Y); try (by intros [= <- <-]).
    case_decide; intros [= <- <-]; by apply Hput.
Qed.

Lemma check_all_waits fkv c X xs c' ys :
  client_ok c → (∀ x, x ∈ xs → x ∈ V) → check_all fkv c xs = (c', ys) → waits_when_finished X c c'.
Proof.
  revert c c' ys; induction xs as [|x xs IH]; intros c c' ys Hc Hin; cbn [check_all]; [intros [= <- <-]; apply waits_refl|].
  destruct (checkAckForServer fkv c x) as [b c1] eqn:E1. destruct (check_all fkv c1 xs) as [c2 ys2] eqn:E2.
  assert (Hx : x ∈ V) by (apply Hin; left). destruct (check_ack_spec fkv c x b c1 Hc Hx E1) as (Hc1 & _).
  intros [= <- <-]. eapply waits_trans; [by eapply check_ack_waits|].
  eapply IH; [done| |done]. intros. apply Hin. by right.
Qed.

Lemma ack_waits fkv c X server b c' out :
  client_ok c → (∀ Y, server = Some Y → Y ∈ V) → ackTransit junk fkv c server = Some (b, c', out) →
  waits_when_finished X c c'.
Proof.
  intros Hc Hin. unfold ackTransit. destruct server as [Y|].
  - case_decide; [intros [= <- <- <-]; apply waits_refl|].
    destruct (checkAckForServer fkv c Y) as [b1 c1] eqn:E. assert (HY : Y ∈ V) by auto.
    pose proof (check_ack_waits fkv c X Y b1 c1 Hc HY E) as HW.
    destruct (check_ack_spec fkv c Y b1 c1 Hc HY E) as (Hc1 & _).
    destruct (send_coord_spec c1 [Y]) as (o & -> & _); [done|apply NoDup_singleton|by intros ? ->%list_elem_of_singleton|].
    destruct b1; cbn; by intros [= <- <- <-].
  - destruct (check_all_spec fkv c (in_order (dom (serversState c)))) as (c1 & ys & E & Hc1 & Hnd & Hys & _).
    { done. } { apply in_order_NoDup. } { intros x. rewrite elem_of_in_order. destruct Hc as [-> _]. done. }
    assert (HV : ∀ x, x ∈ in_order (dom (serversState c)) → x ∈ V).
    { intros x. rewrite elem_of_in_order. destruct Hc as [-> _]. done. }
    rewrite E. destruct (send_coord_spec c1 ys) as (o & -> & _); [done|done|by intros y Hy%Hys%HV|].
    cbn. intros [= <- <- <-]. by eapply check_all_waits.
Qed.

Lemma after_change_waits fkv c X xs c' out :
  client_ok c → (∀ x, x ∈ xs → x ∈ V) → after_change junk fkv c xs = Some (c', out) → waits_when_finished X c c'.
Proof.
  revert c c' out; induction xs as [|x xs IH]; intros c c' out Hc Hin; cbn [after_change]; [intros [= <- <-]; apply waits_refl|].
  destruct (ack_spec fkv c None Hc) as (b1 & c1 & o1 & H1 & Hc1 & _); [done|].
  destruct (ack_spec fkv c (Some x) Hc) as (b2 & c2 & o2 & H2 & Hc2 & _); [intros ? [= <-]; apply Hin; left|].
  assert (Hnext : ∀ c0, client_ok c0 → waits_when_finished X c c0 → ∀ o0 : list (list byte), ('(c, out') ← after_change junk fkv c0 xs; Some (c, o0 ++ out')) = Some (c', out) →
    waits_when_finished X c c').
  { intros c0 Hc0 HW o0. destruct (after_change junk fkv c0 xs) as [[c3 o3]|] eqn:E; [|done]. cbn. intros [= <- <-].
    eapply waits_trans; [exact HW|]. eapply IH; [exact Hc0| |exact E]. intros. apply Hin. by right. }
  assert (HxV : ∀ Y, Some x = Some Y → Y ∈ V) by (intros ? [= <-]; apply Hin; left).
  destruct (st c x).
  all: cbn [mbind option_bind]; try (apply Hnext; [done|apply waits_refl]).
  - rewrite H1. cbn [mbind option_bind]. apply Hnext; [done|]. exact (ack_waits fkv c X None b1 c1 o1 Hc ltac:(done) H1).
  - rewrite H2. cbn [mbind option_bind]. apply Hnext; [done|]. exact (ack_waits fkv c X (Some x) b2 c2 o2 Hc HxV H2).
Qed.

(** *** The messages of the coordinator *)
Section messages.
Context (fkv : Z → bool) (revertDelta : sockaddr_in → gmap sockaddr_in StateTransitInfo → gmap sockaddr_in StateTransitInfo).
Context (sl : StripeList.StripeList sockaddr_in) (pending : list (Z * list byte)).

(** Gathering requests touches the counters alone. *)
Definition same_view (c c' : Client) : Prop :=
  serversState c' = serversState c ∧ sockets c' = sockets c ∧ serversStateLock c' = serversStateLock c.

Lemma gather_request_frame X ids s r s' :
  gather_request sl X ids s r = Some s' → same_view s.1.1 s'.1.1.
Proof.
  destruct s as [[c h] o], r as [p key]. cbn. destruct (StripeList.get _ _ _) as [[[[l ch] d] ps]|]; [|done].
  cbn. destruct (StripeList.get_chunk _ _ _) as [ds|]; [|done]. cbn.
  repeat case_decide; [by intros [= <-]..|]. destruct (useCoordinatedFlow c ds); [by intros [= <-]|].
  destruct (stateTransitInfo c !! X); [|done]. cbn. by intros [= <-].
Qed.
Lemma gather_requests_frame X ids rs s s' :
  gather_requests sl X ids rs s = Some s' → same_view s.1.1 s'.1.1.
Proof.
  revert s; induction rs as [|r rs IH]; intros s; cbn; [by intros [= <-]|].
  destruct (gather_request sl X ids s r) as [s1|] eqn:E; [|done]. cbn.
  intros (H1 & H2 & H3)%IH. apply gather_request_frame in E as (E1 & E2 & E3).
  by split; [rewrite H1|split; [rewrite H2|rewrite H3]].
Qed.
Lemma gather_frame c X c' : gatherPendingNormalRequests sl pending c X = Some c' → same_view c c'.
Proof.
  unfold gatherPendingNormalRequests. destruct (gather_lists sl X) as [ids|]; [|done]. cbn [mbind option_bind].
  destruct (gather_requests _ _ _ _ _) as [[[c1 h] o]|] eqn:E; [|done]. cbn [mbind option_bind].
  apply gather_requests_frame in E as (E1 & E2 & E3). intros [= <-]. by destruct h.
Qed.

Lemma apply_signal_spec c X s c' :
  client_ok c → X ∈ V → apply_signal revertDelta sl pending c X s = Some c' →
  client_ok c' ∧ ∀ Y, st c' Y = if decide (X = Y) then recv (st c X) s else st c Y.
Proof.
  intros [Hd Hs] HX.
  assert (Hput : ∀ s', client_ok (set_states c (<[X := s']> (serversState c)))).
  { intros s'. split; [|done]. cbn. rewrite dom_insert_L. set_solver. }
  unfold apply_signal. destruct s; try (intros [= <-]; split; [apply Hput|]; intros Y; cbn; by rewrite state_at_insert).
  - case_decide as HW.
    { intros [= <-]. split; [done|]. intros Y. case_decide; [subst; by rewrite HW|done]. }
    destruct (gatherPendingNormalRequests _ _ _ _) as [c1|] eqn:E; [|done]. cbn [mbind option_bind].
    apply gather_frame in E as (E1 & E2 & E3). cbn in E1, E2. intros [= <-]. cbn. rewrite E1. split.
    + split; cbn; [rewrite dom_insert_L; set_solver|by rewrite E2].
    + intros Y. rewrite state_at_insert. case_decide; [|done]. by destruct (st c X).
  - intros [= <-]. split; [apply Hput|]. intros Y. cbn. rewrite state_at_insert. case_decide; [|done].
    case_decide as HW; [by rewrite HW|by destruct (st c X)].
Qed.

Lemma apply_signals_spec c rs c' :
  client_ok c → (∀ r, r ∈ rs → r.1 ∈ V) → apply_signals revertDelta sl pending c rs = Some c' →
  client_ok c' ∧ ∀ X, st c' X = foldl recv (st c X) (states_of X rs).
Proof.
  revert c; induction rs as [|[a b] rs IH]; intros c Hc Hin; cbn [apply_signals]; [by intros [= <-]|].
  rewrite decode_signed. assert (Ha : a ∈ V) by (apply (Hin (a, b)); left).
  destruct (printServerState (b2z b)) as [s|] eqn:Eb.
  - destruct (apply_signal _ _ _ c a s) as [c1|] eqn:E; [|done]. cbn [mbind option_bind].
    destruct (apply_signal_spec c a s c1 Hc Ha E) as [Hc1 H1].
    intros [Hc' HX]%IH; [|done|intros; apply Hin; by right]. split; [done|]. intros X.
    rewrite HX, H1, states_of_cons. unfold state_of. cbn [fst snd]. case_decide; [|done]. by subst; rewrite Eb.
  - cbn [mbind option_bind]. intros [Hc' HX]%IH; [|done|intros; apply Hin; by right]. split; [done|]. intros X.
    rewrite HX, states_of_cons. unfold state_of. cbn [fst snd]. by case_decide; rewrite ?Eb.
Qed.

Lemma states_of_filter (P : sockaddr_in * byte → Prop) `{!∀ r, Decision (P r)} X rs :
  (∀ b, P (X, b)) → states_of X (filter P rs) = states_of X rs.
Proof.
  intros HP. induction rs as [|[a b] rs IH]; [done|]. rewrite filter_cons.
  destruct (decide (P (a, b))) as [Hp|Hp]; rewrite !states_of_cons, IH; [done|].
  unfold state_of. cbn [fst snd]. case_decide; [|done]. subst. by destruct Hp.
Qed.

Lemma take_locks_view c xs :
  serversState (foldl take_lock c xs) = serversState c ∧ sockets (foldl take_lock c xs) = sockets c
  ∧ stateTransitInfo (foldl take_lock c xs) = stateTransitInfo c.
Proof. revert c; induction xs as [|x xs IH]; intros c; [done|]. apply (IH (take_lock c x)). Qed.

Lemma setState_spec c msg c' out :
  client_ok c → setState junk fkv revertDelta sl pending c msg = Some (c', out) →
  client_ok c' ∧ Forall readable out ∧ ∃ rs, records msg = Some rs
    ∧ ∀ X, X ∈ V → acks_of (foldl recv (st c X) (states_of X rs)) (st c' X) (sent X out)
      ∧ (foldl recv (st c X) (states_of X rs) ≠ STATE_WAIT_DEGRADED → st c' X = STATE_WAIT_DEGRADED → finished c' X).
Proof.
  intros Hc. unfold setState. destruct (records msg) as [rs|]; [|done]. cbn [mbind option_bind].
  set (upd := filter _ rs). case_decide; [|done].
  assert (Hupd : ∀ r, r ∈ upd → r.1 ∈ V).
  { intros r [[Hr _] _]%list_elem_of_filter. destruct Hc as [<- _]. by apply elem_of_dom. }
  destruct (take_locks_view c upd.*1) as (L1 & L2 & L3).
  assert (Hcl : client_ok (foldl take_lock c upd.*1)) by (destruct Hc; split; [by rewrite L1|by rewrite L2]).
  destruct (apply_signals _ _ _ _ _) as [c1|] eqn:E; [|done]. cbn [mbind option_bind].
  destruct (apply_signals_spec _ _ _ Hcl Hupd E) as [Hc1 H1].
  assert (Hrev : ∀ x, x ∈ reverse upd.*1 → x ∈ V).
  { intros x Hx. rewrite elem_of_reverse in Hx. apply list_elem_of_fmap in Hx as (r & -> & Hr). by apply Hupd. }
  destruct (after_change_spec fkv c1 (reverse upd.*1) Hc1 Hrev) as (c2 & o & Hac & Hc2 & Ho & H2).
  rewrite Hac. intros [= <- <-]. split; [done|]. split; [done|]. exists rs. split; [done|]. intros X HX.
  specialize (H2 X). pose proof (after_change_waits fkv c1 X _ c2 o Hc1 Hrev Hac) as HW. unfold waits_when_finished in HW.
  rewrite H1, L1 in H2, HW. unfold upd in H2, HW. rewrite states_of_filter in H2, HW.
  - split; [done|]. intros Hne. by rewrite decide_False in HW.
  - intros b. cbn. destruct Hc as [Hd Hsk]. split; [apply elem_of_dom; by rewrite Hd|by apply Hsk].
  - intros b. cbn. destruct Hc as [Hd Hsk]. split; [apply elem_of_dom; by rewrite Hd|by apply Hsk].
Qed.

(** With complete stripe lists a client handles every message it is sent. *)
Context (Hsl : StripeList.lookups_total sl).

Lemma gather_lists_total X : is_Some (gather_lists sl X).
Proof.
  destruct Hsl as (Hkn & Hn & Hg & _). unfold gather_lists, StripeList.getNumList.
  destruct (for_range_inv (λ _ (_ : list Z), True) 0 (StripeList.numLists sl)
    (λ i ids, b ← has_parity sl X i; Some (if b : bool then ids ++ [i] else ids)) []) as (ids & -> & _); [done| |done|done].
  intros i ids Hi _. unfold has_parity.
  destruct (for_range_inv (λ _ (_ : bool), True) (StripeList.k sl) (StripeList.n sl)
    (λ j found, server ← StripeList.get_chunk sl i j; Some (found || bool_decide (server = X))) false) as (b & -> & _);
    [lia| |done|].
  - intros j b Hj _. destruct (Hg i j) as [x ->]; [done|lia|]. cbn. eauto.
  - cbn. eauto.
Qed.

Lemma gather_requests_total X ids rs s :
  is_Some (stateTransitInfo s.1.1 !! X) →
  ∃ s', gather_requests sl X ids rs s = Some s' ∧ is_Some (stateTransitInfo s'.1.1 !! X).
Proof.
  destruct Hsl as (_ & _ & _ & Hget). revert s; induction rs as [|[p key] rs IH]; intros [[c h] o] Hi; cbn; [eauto|].
  destruct (Hget key) as (l & ch & d & ps & -> & x & Hx). cbn. rewrite Hx. cbn.
  repeat case_decide; [by apply IH..|]. destruct (useCoordinatedFlow c x); [by apply IH|].
  cbn in Hi. destruct Hi as [i Hi]. rewrite Hi. cbn. apply IH. cbn. by rewrite lookup_insert_eq.
Qed.

Lemma gather_total c X : is_Some (gatherPendingNormalRequests sl pending c X).
Proof.
  unfold gatherPendingNormalRequests. destruct (gather_lists_total X) as [ids ->]. cbn [mbind option_bind].
  destruct (gather_requests_total X ids pending (put_info c X (info_at c X), false, ∅)) as ([[c1 h] o] & -> & _).
  - cbn. by rewrite lookup_insert_eq.
  - cbn. eauto.
Qed.

Lemma apply_signals_total c rs : is_Some (apply_signals revertDelta sl pending c rs).
Proof.
  revert c; induction rs as [|[a b] rs IH]; intros c; cbn [apply_signals]; [done|].
  destruct (printServerState (i8 b)) as [s|]; [|by apply IH]. unfold apply_signal.
  destruct s; try (by apply IH). case_decide; [by apply IH|].
  destruct (gather_total (put_info c a (unsetCompleted (info_at c a) true).2) a) as [c1 ->]. cbn. apply IH.
Qed.

Lemma setState_total c msg ss ys :
  client_ok c → records msg = Some (state_record ss <$> ys) → NoDup ys →
  is_Some (setState junk fkv revertDelta sl pending c msg).
Proof.
  intros Hc Hr Hnd. unfold setState. rewrite Hr. cbn [mbind option_bind]. set (upd := filter _ _).
  assert (Hsub : upd.*1 `sublist_of` ys).
  { assert (Hys : (state_record ss <$> ys).*1 = ys) by (rewrite <- list_fmap_compose; apply list_fmap_id).
    rewrite <- Hys. apply fmap_sublist, sublist_filter. }
  rewrite decide_True by (by eapply sublist_NoDup).
  destruct (take_locks_view c upd.*1) as (L1 & L2 & L3).
  assert (Hupd : ∀ r, r ∈ upd → r.1 ∈ V).
  { intros r [[Hk _] _]%list_elem_of_filter. destruct Hc as [<- _]. by apply elem_of_dom. }
  assert (Hcl : client_ok (foldl take_lock c upd.*1)) by (destruct Hc; split; [by rewrite L1|by rewrite L2]).
  destruct (apply_signals_total (foldl take_lock c upd.*1) upd) as [c1 E]. rewrite E. cbn [mbind option_bind].
  destruct (apply_signals_spec _ _ _ Hcl Hupd E) as [Hc1 _].
  destruct (after_change_spec fkv c1 (reverse upd.*1) Hc1) as (c2 & o & -> & _); [|done].
  intros x Hx. rewrite elem_of_reverse in Hx. apply list_elem_of_fmap in Hx as (r & -> & Hr'). by apply Hupd.
Qed.
End messages.

(** When the requests are complete and the deltas reverted, the client
    acknowledges. *)
Definition clear_of (X : sockaddr_in) (c : Client) : Prop := info_at c X = MkInfo 0 ∅ true.

Lemma check_ack_clear fkv c X Y b c' :
  client_ok c → Y ∈ V → clear_of X c → checkAckForServer fkv c Y = (b, c') →
  clear_of X c' ∧ (Y = X → acked (st c' X) = None).
Proof.
  intros [Hd Hs] HY Hcl. unfold checkAckForServer. cbn [serversState set_states take_lock].
  rewrite touch_known by (apply elem_of_dom; by rewrite Hd).
  assert (Hput : ∀ c0 i, stateTransitInfo c0 = stateTransitInfo c → (Y = X → i = MkInfo 0 ∅ true) → clear_of X (put_info c0 Y i)).
  { intros c0 i E0 Hi. unfold clear_of, info_at, put_info. cbn. rewrite E0. destruct (decide (Y = X)) as [->|Hne].
    - rewrite lookup_insert_eq. by apply Hi.
    - by rewrite lookup_insert_ne. }
  assert (HcY : Y = X → info_at (set_states (take_lock c Y) (serversState c)) Y = MkInfo 0 ∅ true) by (intros ->; exact Hcl).
  destruct (st c Y) eqn:E; try (intros [= <- <-]; split; [exact Hcl|intros <-; cbn; by rewrite E]).
  - case_decide as Hcond.
    + intros [= <- <-]. assert (Y ≠ X) as Hne.
      { intros HYX. rewrite (HcY HYX) in Hcond. cbn in Hcond. destruct Hcond; [lia|done]. }
      split; [|done]. apply Hput; [done|]. intros ?; done.
    + intros [= <- <-]. split; [by apply Hput; [|intros; apply HcY]|]. intros <-. cbn.
      by rewrite state_at_insert, decide_True.
  - intros [= <- <-]. split; [exact Hcl|]. intros <-. cbn. by rewrite state_at_insert, decide_True.
Qed.

Lemma ack_clear fkv c X :
  client_ok c → X ∈ V → clear_of X c →
  ∃ b c' out, ackTransit junk fkv c None = Some (b, c', out) ∧ acked (st c' X) = None.
Proof.
  intros Hc HX Hcl.
  assert (Hall : ∀ xs c, client_ok c → clear_of X c → (∀ x, x ∈ xs → x ∈ V) → ∀ c' ys, check_all fkv c xs = (c', ys) →
    (X ∈ xs ∨ acked (st c X) = None) → acked (st c' X) = None).
  { clear c Hc Hcl. induction xs as [|x xs IH]; intros c Hc Hcl Hin c' ys; cbn [check_all].
    - intros [= <- <-] [?%elem_of_nil|?]; done.
    - destruct (checkAckForServer fkv c x) as [b c1] eqn:E. destruct (check_all fkv c1 xs) as [c2 ys2] eqn:E2.
      assert (HxV : x ∈ V) by (apply Hin; left).
      destruct (check_ack_clear fkv c X x b c1 Hc HxV Hcl E) as [Hcl1 Hx].
      destruct (check_ack_spec fkv c x b c1 Hc HxV E) as (Hc1 & Hoth & Hb).
      intros [= <- <-] HXs. eapply IH; [exact Hc1|done|intros; apply Hin; by right|done|].
      destruct (decide (x = X)) as [->|Hne]; [right; by apply Hx|].
      destruct HXs as [[?|?]%elem_of_cons|?]; [done|by left|right; by rewrite Hoth]. }
  destruct (ack_spec fkv c None Hc) as (b & c' & out & Heq & _); [done|]. exists b, c', out. split; [done|].
  revert Heq. unfold ackTransit.
  destruct (check_all_spec fkv c (in_order (dom (serversState c)))) as (c1 & ys & E & Hc1 & Hnd & Hys & _).
  { done. } { apply in_order_NoDup. } { intros x. rewrite elem_of_in_order. destruct Hc as [-> _]. done. }
  rewrite E. destruct (send_coord_spec c1 ys) as (o & -> & _); [done|done| |].
  { intros y Hy%Hys. rewrite elem_of_in_order in Hy. destruct Hc as [<- _]. done. }
  cbn. intros [= <- <- <-]. eapply Hall; [exact Hc|done| |exact E|].
  - intros x. rewrite elem_of_in_order. by destruct Hc as [-> _].
  - left. rewrite elem_of_in_order. by destruct Hc as [-> _].
Qed.
End clients.
End StateClients.

(** ** The handlers of the coordinator *)
Module StateCoordinator.
Import SockAddr StateTransitHandler CoordinatorStateTransitHandler StateMessages StateLinks StateClients.

Section coordinator.
Context (V : gset sockaddr_in) (Vok : ∀ X, X ∈ V → addr_ok X) (Vsize : Z.of_nat (size V) ≤ 255).
Context (junk : list byte) (Hjunk : zlen junk = MAX_MESSLEN).
Abbreviation st c X := (state_at (serversState c) X).

Definition acks (c : Coordinator) (X : sockaddr_in) : gset string := default ∅ (ackClients c !! X).

Definition core (s : RemapState) : bool :=
  match s with STATE_NORMAL | STATE_INTERMEDIATE | STATE_DEGRADED | STATE_COORDINATED => true | _ => false end.

(** The part of the state that does not change. *)
Record setup (c : Coordinator) : Prop := {
  su_alive : aliveServers c = V;
  su_acks : dom (ackClients c) = V;
  su_dom : V ⊆ dom (serversState c);
  su_core : ∀ X, X ∈ V → core (st c X) = true;
  su_none : ∀ X, X ∉ V → st c X = STATE_UNDEFINED;
  su_failed : failedServers c = ∅;
  su_updated : updatedServers c = [];
  su_running : isRunning c = true;
  su_known : ∀ X, acks c X ⊆ aliveClients c;
}.

Definition from_state (start : bool) : RemapState := if start then STATE_NORMAL else STATE_DEGRADED.
Definition mid_state (start : bool) : RemapState := if start then STATE_INTERMEDIATE else STATE_COORDINATED.
Definition to_state (start : bool) : RemapState := if start then STATE_DEGRADED else STATE_NORMAL.

(** For every transition under way there is an event for the worker. *)
Definition scheduled (c : Coordinator) : Prop :=
  ∀ b X, st c X = mid_state b → MkEvent b X ∈ eventQueue c.

(** What happens to one server when the coordinator acts, [w] being sent. *)
Inductive coord_change (alive : gset string) : RemapState → gset string → RemapState → gset string → list RemapState → Prop :=
  | change_none S A : coord_change alive S A S A []
  | change_again S A : coord_change alive S A S A [S]
  | change_start b A : coord_change alive (from_state b) A (mid_state b) ∅ [mid_state b]
  | change_finish b : coord_change alive (mid_state b) alive (to_state b) alive [to_state b].

Lemma change_link alive S A S' A' w k c q o :
  coord_change alive S A S' A' w → k ∈ alive →
  link S (bool_decide (k ∈ A)) c q o → link S' (bool_decide (k ∈ A')) c (q ++ w) o.
Proof.
  clear Vok Vsize Hjunk. destruct 1 as [S A|S A|b A|b]; intros Hk Hl.
  - by rewrite app_nil_r.
  - by apply link_again.
  - rewrite (bool_decide_eq_false_2 (k ∈ ∅)) by set_solver. eapply link_start; [|exact Hl]. destruct b; auto.
  - rewrite bool_decide_eq_true_2 in * by done. eapply link_finish; [|exact Hl]. destruct b; auto.
Qed.

Lemma eta_coord c : set_states c (serversState c) = c.
Proof. by destruct c. Qed.

Definition frame (c c' : Coordinator) : Prop := aliveClients c' = aliveClients c.

Lemma setup_states c ss :
  setup c → V ⊆ dom ss → (∀ X, X ∈ V → core (state_at ss X) = true) →
  (∀ X, X ∉ V → state_at ss X = STATE_UNDEFINED) → setup (set_states c ss).
Proof. intros [] ???. by constructor. Qed.
Lemma setup_touch c X : setup c → setup (set_states c (touch (serversState c) X)).
Proof.
  clear Vok Vsize Hjunk. intros Hc. apply setup_states; [done| | |].
  - unfold touch. rewrite dom_insert_L. pose proof (su_dom c Hc). set_solver.
  - intros Y. rewrite state_at_touch. apply (su_core c Hc).
  - intros Y. rewrite state_at_touch. apply (su_none c Hc).
Qed.
Lemma setup_events c es : setup c → setup (set_events c es).
Proof. intros []. by constructor. Qed.

(** Sending the states of some servers, or of all. *)
Lemma broadcast_spec c xs :
  setup c → NoDup xs → (∀ x, x ∈ xs → x ∈ V) →
  ∃ msg ys, broadcastState junk true c xs = Some (true, c, [msg]) ∧ NoDup ys
    ∧ records msg = Some (state_record (serversState c) <$> ys)
    ∧ (∀ X, X ∈ V → X ∈ xs ∨ xs = [] → X ∈ ys) ∧ (∀ X, X ∈ ys → X ∈ V ∧ (X ∈ xs ∨ xs = [])).
Proof.
  intros Hc Hnd Hin. unfold broadcastState.
  assert (Hts : ∃ ys, servers_to_send c xs = Some ys ∧ NoDup ys
    ∧ (∀ X, X ∈ V → X ∈ xs ∨ xs = [] → X ∈ ys) ∧ (∀ X, X ∈ ys → X ∈ V ∧ (X ∈ xs ∨ xs = []))).
  { unfold servers_to_send. case_decide as Hz.
    - destruct xs; [|by unfold zlen in Hz]. eexists. split; [done|]. rewrite (su_alive c Hc).
      split; [apply in_order_NoDup|]. split; intros X; rewrite elem_of_in_order; auto.
    - rewrite (known_not_too_many V Vsize) by done. exists xs. split_and!; [done|done| |].
      + intros X HX [?| ->]; [done|]. by destruct Hz.
      + intros X HX. auto. }
  destruct Hts as (ys & -> & Hndy & H1 & H2).
  destruct (send_known V Vok Vsize junk Hjunk (serversState c) ys) as (msg & -> & Hr);
    [apply (su_dom c Hc)|done|intros x Hx; by apply H2|].
  cbn [mbind option_bind]. rewrite eta_coord. by exists msg, ys.
Qed.

(** The loop that starts the transitions. *)
Lemma check_spec start c xs c' kept checked :
  setup c → check_servers start c xs = Some (c', kept, checked) →
  setup c' ∧ frame c c' ∧ eventQueue c' = eventQueue c ∧ NoDup checked
  ∧ (∀ X, X ∈ checked → X ∈ V ∧ st c X = from_state start)
  ∧ ∀ X, st c' X = (if decide (X ∈ checked) then mid_state start else st c X)
       ∧ acks c' X = (if decide (X ∈ checked) then ∅ else acks c X).
Proof.
  clear Vok Vsize Hjunk.
  revert c c' kept checked; induction xs as [|x xs IH]; intros c c' kept checked Hc; cbn [check_servers].
  { intros [= <- <- <-]. split_and!; [done..|constructor|set_solver|]. intros X.
    split; (rewrite decide_False by apply not_elem_of_nil); done. }
  set (c1 := set_states c (touch (serversState c) x)).
  assert (Hst1 : ∀ X, st c1 X = st c X) by (intros X; apply state_at_touch).
  assert (Hc1 : setup c1) by (by apply setup_touch).
  case_decide as Hcond.
  - destruct (check_servers start c1 xs) as [[[c2 k2] ch2]|] eqn:E; [|done]. cbn [mbind option_bind].
    intros [= <- <- <-]. destruct (IH _ _ _ _ Hc1 E) as (? & ? & ? & ? & H1 & H2).
    split_and!; [done..| |]; intros X; [rewrite <- Hst1|rewrite <- Hst1]; auto.
  - assert (Hx : st c x = from_state start).
    { rewrite <- Hst1. destruct start; cbn.
      - destruct (decide (st c1 x = STATE_NORMAL)); [done|]. destruct Hcond. right; by left.
      - destruct (decide (st c1 x = STATE_DEGRADED)); [done|]. destruct Hcond. right; by right. }
    assert (HxV : x ∈ V).
    { destruct (decide (x ∈ V)) as [|Hn]; [done|]. rewrite (su_none c Hc x Hn) in Hx. by destruct start. }
    set (c2 := set_states c1 _). unfold resetClientAck.
    assert (Hac : is_Some (ackClients c2 !! x)) by (apply elem_of_dom; cbn; by rewrite (su_acks c Hc)).
    destruct Hac as [ax Hax]. rewrite Hax. cbn [mbind option_bind].
    set (c3 := set_clients c2 _ _).
    assert (Hst3 : ∀ X, st c3 X = if decide (x = X) then mid_state start else st c X).
    { intros X. unfold c3, c2. cbn. rewrite state_at_insert, <- Hst1. by destruct start. }
    assert (Hac3 : ∀ X, acks c3 X = if decide (x = X) then ∅ else acks c X).
    { intros X. unfold acks, c3. cbn. case_decide as HxX;
        [subst; by rewrite lookup_insert_eq|by rewrite lookup_insert_ne]. }
    assert (Hc3 : setup c3).
    { destruct Hc, Hc1. constructor; try done.
      - cbn. rewrite dom_insert_L. set_solver.
      - cbn. rewrite dom_insert_L. set_solver.
      - intros X HX. rewrite Hst3. case_decide; [by destruct start|auto].
      - intros X HX. rewrite Hst3. rewrite decide_False by (intros ->; done). auto.
      - intros X. rewrite Hac3. case_decide; [set_solver|]. apply (su_known0 X). }
    destruct (check_servers start c3 xs) as [[[c4 k4] ch4]|] eqn:E; [|done]. cbn [mbind option_bind].
    intros [= <- <- <-]. destruct (IH _ _ _ _ Hc3 E) as (Hc4 & Hf & He & Hnd & H1 & H2).
    assert (Hx4 : x ∉ ch4).
    { intros [_ Hb]%H1. rewrite Hst3, decide_True in Hb by done. by destruct start. }
    split_and!; [done|done|done|by constructor| |].
    + intros X [->|HX]%elem_of_cons; [done|]. destruct (H1 X HX) as [? Hf']. split; [done|].
      rewrite Hst3 in Hf'. case_decide; [subst; done|done].
    + intros X. destruct (H2 X) as [-> ->]. rewrite Hst3, Hac3. destruct (decide (X = x)) as [->|Hne].
      * destruct (decide (x ∈ x :: ch4)) as [|[]]; [|by left].
        destruct (decide (x ∈ ch4)); [done|]. by destruct (decide (x = x)).
      * destruct (decide (x = X)); [done|]. destruct (decide (X ∈ ch4)) as [Hi|Hi].
        { destruct (decide (X ∈ x :: ch4)) as [|[]]; [done|by right]. }
        destruct (decide (X ∈ x :: ch4)) as [[?|?]%elem_of_cons|]; done.
Qed.

Definition sendable (msg : list byte) : Prop :=
  ∃ ss ys, records msg = Some (state_record ss <$> ys) ∧ NoDup ys.

Definition coord_step (c c' : Coordinator) (out : list (list byte)) : Prop :=
  ∀ X, X ∈ V → coord_change (aliveClients c) (st c X) (acks c X) (st c' X) (acks c' X) (sent X out).

Lemma sent_broadcast X msg ss ys : records msg = Some (state_record ss <$> ys) → NoDup ys →
  sent X [msg] = if decide (X ∈ ys) then [state_at ss X] else [].
Proof. intros Hr Hnd. rewrite (sent_cons _ _ _ _ Hr), app_nil_r. by apply states_of_records. Qed.

Lemma mid_state_inj b b' : mid_state b = mid_state b' → b = b'.
Proof. by destruct b, b'. Qed.

Lemma start_spec start c xs c' kept left out :
  setup c → scheduled c → stateChangeInitHandler junk true start c xs = Some (c', kept, left, out) →
  setup c' ∧ frame c c' ∧ scheduled c' ∧ Forall sendable out ∧ coord_step c c' out.
Proof.
  intros Hc Hs. unfold stateChangeInitHandler.
  destruct (check_servers start c xs) as [[[c1 k1] ch]|] eqn:E; [|done]. cbn [mbind option_bind].
  destruct (check_spec start c xs c1 k1 ch Hc E) as (Hc1 & Hf & He & Hnd & Hin & Hst).
  destruct (broadcast_spec c1 ch Hc1 Hnd) as (msg & ys & -> & Hndy & Hr & H1 & H2); [intros x Hx; by apply Hin|].
  cbn [mbind option_bind]. unfold insertRepeatedEvents. rewrite decide_True by (left; apply (su_running c1 Hc1)).
  intros [= <- <- <- <-]. split_and!; [by apply setup_events|done| | |].
  - intros b X HX. cbn in HX |- *. destruct (Hst X) as [HstX _]. rewrite HstX in HX. apply elem_of_app.
    destruct (decide (X ∈ ch)) as [Hi|Hi].
    + apply mid_state_inj in HX as ->. right. by apply list_elem_of_fmap_2.
    + left. rewrite He. by apply Hs.
  - apply Forall_singleton. by eexists _, _.
  - intros X HX. rewrite (sent_broadcast _ _ _ _ Hr Hndy). cbn [serversState set_events].
    change (acks (set_events c1 _) X) with (acks c1 X). destruct (Hst X) as [HstX ->].
    destruct (decide (X ∈ ch)) as [Hi|Hi].
    + rewrite decide_True by (apply H1; auto). rewrite HstX. destruct (Hin X Hi) as [_ ->]. constructor.
    + rewrite HstX. case_decide; constructor.
Qed.

(** The worker. *)
Lemma work_spec c b X :
  setup c → X ∈ V → acks c X = aliveClients c → st c X = mid_state b →
  ∃ c' msg, work junk true c (MkEvent b X) = Some (Done (true, c', [msg]))
    ∧ setup c' ∧ frame c c' ∧ eventQueue c' = eventQueue c ∧ st c' X = to_state b
    ∧ (∀ Y, Y ≠ X → st c' Y = st c Y) ∧ sendable msg ∧ coord_step c c' [msg].
Proof.
  intros Hc HX Hac Hst. unfold work. cbn [ev_server ev_start].
  assert (His : isAllClientAcked c X = true).
  { unfold isAllClientAcked. unfold acks in Hac. destruct (ackClients c !! X); [|done].
    cbn in Hac. subst. by apply bool_decide_eq_true. }
  rewrite His.
  set (c1 := set_states c (<[X := to_state b]> (serversState c))).
  assert (Hst1 : ∀ Y, st c1 Y = if decide (X = Y) then to_state b else st c Y) by (intros; apply state_at_insert).
  assert (Hc1 : setup c1).
  { apply setup_states; [done| | |].
    - rewrite dom_insert_L. pose proof (su_dom c Hc). set_solver.
    - intros Y HY. rewrite state_at_insert. case_decide; [by destruct b|by apply (su_core c Hc)].
    - intros Y HY. rewrite state_at_insert. rewrite decide_False by (intros ->; done). by apply (su_none c Hc). }
  set (c2 := set_failed c1 (failedServers c1) []).
  assert (Heq : c2 = c1).
  { unfold c2. pose proof (su_updated c1 Hc1) as Hu. destruct c1; cbn in *. by subst. }
  destruct (broadcast_spec c2 []) as (msg & ys & Hb & Hndy & Hr & H1 & H2);
    [by rewrite Heq|constructor|by intros ? ?%elem_of_nil|].
  assert (Hfin : finish junk true c X (mid_state b) (to_state b) = Some (true, c2, [msg])).
  { unfold finish. rewrite touch_known by (apply elem_of_dom; by apply (su_dom c Hc)). rewrite eta_coord.
    rewrite decide_True by done. fold c1. unfold removeFailedServer. rewrite (su_failed c1 Hc1).
    rewrite (decide_False (P := X ∈ ∅)) by apply not_elem_of_empty.
    assert (Hcount : getFailedServerCount c1 = 0) by (unfold getFailedServerCount; by rewrite (su_failed c1 Hc1)).
    rewrite Hcount, (decide_False (P := 0 < 0)) by lia. unfold eraseUpdatedServers.
    rewrite (su_updated c1 Hc1). fold c2. rewrite Hb. done. }
  exists c2, msg. split; [destruct b; cbn in Hfin; by rewrite Hfin|]. rewrite Heq.
  split_and!; [done|done|done| | | |].
  - by rewrite Hst1, decide_True.
  - intros Y HY. by rewrite Hst1, decide_False.
  - by eexists _, _.
  - intros Y HY. rewrite (sent_broadcast _ _ _ _ Hr Hndy). rewrite decide_True by (apply H1; auto). rewrite Heq, Hst1.
    change (acks c1 Y) with (acks c Y). case_decide as HXY; [|constructor]. subst. rewrite Hac, Hst. constructor.
Qed.

Lemma all_acked c X : setup c → X ∈ V → isAllClientAcked c X = true → acks c X = aliveClients c.
Proof.
  intros Hc HX. unfold isAllClientAcked. pose proof (su_known c Hc X) as Hk. unfold acks in *.
  destruct (ackClients c !! X) as [a|] eqn:E.
  - intros Hs%bool_decide_eq_true. cbn in *. apply leibniz_equiv, set_subseteq_size_equiv; [done|lia].
  - apply not_elem_of_dom in E. by rewrite (su_acks c Hc) in E.
Qed.

Lemma end_spec c es1 e es2 r c' out :
  setup c → scheduled c → eventQueue c = es1 ++ e :: es2 →
  work junk true (set_events c (es1 ++ es2)) e = Some (Done (r, c', out)) →
  setup c' ∧ frame c c' ∧ scheduled c' ∧ Forall sendable out ∧ coord_step c c' out.
Proof.
  intros Hc Hs Hes. destruct e as [b X]. set (c0 := set_events c _). assert (Hc0 : setup c0) by (by apply setup_events).
  destruct (isAllClientAcked c0 X) eqn:Hack; [|unfold work; cbn [ev_server]; by rewrite Hack].
  destruct (decide (st c X = mid_state b)) as [Hst|Hst].
  - assert (HX : X ∈ V).
    { destruct (decide (X ∈ V)) as [|Hn]; [done|]. rewrite (su_none c Hc X Hn) in Hst. by destruct b. }
    destruct (work_spec c0 b X Hc0 HX) as (c1 & msg & -> & Hc1 & Hf & He & HstX & Hoth & Hsd & Hstep);
      [by apply all_acked|done|].
    intros [= <- <- <-]. split_and!; [done|done| |by apply Forall_singleton|done].
    intros b' Y HY. rewrite He. cbn. destruct (decide (Y = X)) as [->|Hne].
    + rewrite HstX in HY. by destruct b, b'.
    + rewrite (Hoth Y Hne) in HY. apply Hs in HY. rewrite Hes in HY. set_solver.
  - unfold work. cbn [ev_server ev_start]. rewrite Hack.
    assert (Hsk : finish junk true c0 X (mid_state b) (to_state b)
      = Some (false, set_states c0 (touch (serversState c0) X), [])).
    { unfold finish. cbn [serversState set_states]. rewrite state_at_touch. by rewrite decide_False. }
    assert (Hrun : (if b then finish junk true c0 X STATE_INTERMEDIATE STATE_DEGRADED
      else finish junk true c0 X STATE_COORDINATED STATE_NORMAL) = finish junk true c0 X (mid_state b) (to_state b))
      by (by destruct b).
    rewrite Hrun, Hsk. cbn [mbind option_bind]. intros [= <- <- <-].
    split; [by apply (setup_touch c0)|]. split; [done|]. split; [|split; [constructor|]].
    + intros b' Y HY. cbn in HY |- *. rewrite state_at_touch in HY. pose proof (Hs b' Y HY) as Hin.
      rewrite Hes in Hin. apply elem_of_app in Hin as [?|[Heq|?]%elem_of_cons]; [set_solver| |set_solver].
      injection Heq as -> ->. done.
    + intros Y HY. cbn. rewrite state_at_touch. constructor.
Qed.

(** An acknowledgement arrives from client [k]. *)
Definition ack_step (k : string) (w : sockaddr_in → list RemapState) (c c' : Coordinator) : Prop :=
  ∀ X, X ∈ V → st c' X = st c X ∧ acks c' X ⊆ {[k]} ∪ acks c X ∧ acks c X ⊆ acks c' X
    ∧ (∀ s q cs o, link (st c X) (bool_decide (k ∈ acks c X)) cs q (w X ++ o) → s = st c X →
        link s (bool_decide (k ∈ acks c' X)) cs q o).

Lemma record_ack_spec k c r :
  setup c → k ∈ aliveClients c →
  setup (record_ack k c r) ∧ frame c (record_ack k c r)
  ∧ eventQueue (record_ack k c r) = eventQueue c
  ∧ (∀ X, st (record_ack k c r) X = st c X) ∧ ack_step k (λ X, option_list (state_of X r)) c (record_ack k c r).
Proof.
  clear Vok Vsize Hjunk. intros Hc Hk. destruct r as [Y b].
  assert (Hsame : (∀ X q cs o, X ∈ V → link (st c X) (bool_decide (k ∈ acks c X)) cs q (option_list (state_of X (Y, b)) ++ o) →
      state_of X (Y, b) = None) → ack_step k (λ X, option_list (state_of X (Y, b))) c c).
  { intros Hn X HX. split_and!; [done|set_solver|done|]. intros s q cs o Hl ->. pose proof (Hn X q cs o HX Hl) as HN.
    rewrite HN in Hl. exact Hl. }
  assert (Hhead : ∀ X q cs o s, link (st c X) (bool_decide (k ∈ acks c X)) cs q (s :: o) → acked (st c X) = Some s).
  { intros X q cs o s Hl. by apply link_unack in Hl as []. }
  unfold record_ack. destruct (serversState c !! Y) as [s|] eqn:Es.
  2:{ split_and!; [done..|]. apply Hsame. intros X q cs o HX _. unfold state_of. cbn. case_decide; [|done]. subst X.
      apply not_elem_of_dom in Es. by pose proof (su_dom c Hc Y HX). }
  assert (HsY : st c Y = s) by (unfold state_at; by rewrite Es).
  case_decide as Hcond.
  2:{ split_and!; [done..|]. apply Hsame. intros X q cs o HX Hl. unfold state_of in *. cbn [fst snd] in *.
      case_decide; [|done]. subst. destruct (printServerState (b2z b)) as [w|] eqn:Ew; [|done].
      apply Hhead in Hl. destruct Hcond. by destruct (st c X); simplify_eq/=; auto. }
  assert (HY : Y ∈ V).
  { destruct (decide (Y ∈ V)) as [|Hn]; [done|]. rewrite (su_none c Hc Y Hn) in HsY. subst.
    by destruct Hcond as [[? _]|[? _]]. }
  destruct (ackClients c !! Y) as [a|] eqn:Ea.
  2:{ apply not_elem_of_dom in Ea. by rewrite (su_acks c Hc) in Ea. }
  rewrite decide_True by done.
  assert (Hacks : ∀ X, acks (set_clients c (aliveClients c) (<[Y:={[k]} ∪ a]> (ackClients c))) X
    = if decide (Y = X) then {[k]} ∪ a else acks c X).
  { intros X. unfold acks. cbn. case_decide; [subst; by rewrite lookup_insert_eq|by rewrite lookup_insert_ne]. }
  assert (HaY : acks c Y = a) by (unfold acks; by rewrite Ea).
  split_and!; [|done..|].
  - destruct Hc. constructor; try done.
    + cbn. rewrite dom_insert_L. set_solver.
    + intros X. rewrite Hacks. case_decide; [|apply su_known0]. specialize (su_known0 Y). rewrite HaY in su_known0.
      cbn. set_solver.
  - intros X HX. rewrite Hacks. cbn [serversState set_clients]. destruct (decide (Y = X)) as [->|Hne].
    + rewrite HaY. split_and!; [done..|set_solver|]. intros s' q cs o Hl ->.
      rewrite bool_decide_eq_true_2 by set_solver. unfold state_of in Hl. cbn [fst snd] in Hl.
      rewrite decide_True in Hl by done. assert (∃ w, printServerState (b2z b) = Some w) as [w Hw].
      { destruct Hcond as [[_ ?]|[_ ?]]; eauto. }
      rewrite Hw in Hl. cbn in Hl. by apply link_unack in Hl as [].
    + split_and!; [done|set_solver|done|]. intros s' q cs o Hl ->. unfold state_of in Hl. cbn [fst snd] in Hl.
      by rewrite decide_False in Hl.
Qed.
End coordinator.
End StateCoordinator.
