(* ===== verification/StateSystem.v ===== *)
(** * Coordinator and clients together
    The transition system of one coordinator, a fixed set of clients and the
    FIFO channels between them, its invariant, and the two properties of the
    protocol: no client works as if a server were in another phase than the
    coordinator says, and every transition that has begun can be completed. *)
From S2P Require Export StateProofs.
From S2P Require Import Ids Ring StripeList.
From stdpp Require Import relations.
#[local] Open Scope Z_scope.

Module StateSystem.
Import SockAddr StateTransitHandler StateMessages StateLinks StateClients StateCoordinator.
Module Co := CoordinatorStateTransitHandler.
Module Cl := ClientStateTransitHandler.
Module Info := StateTransitInfo.

(** A client with the messages on their way to it and from it. *)
Record node := MkNode { cl : Cl.Client; inbox : list (list byte); outbox : list (list byte) }.
Record config := MkConfig { coord : Co.Coordinator; nodes : gmap string node }.

Definition broadcast (out : list (list byte)) (ns : gmap string node) : gmap string node :=
  (λ nd, MkNode (cl nd) (inbox nd ++ out) (outbox nd)) <$> ns.

(** The operations that start a transition. *)
Definition transit (start : bool) (junk : list byte) (c : Co.Coordinator) (servers : list sockaddr_in) :
    option (Co.Coordinator * list (list byte)) :=
  if start then Co.transitToDegraded junk true c servers else Co.transitToNormal junk true c servers.

Section system.
Context (V : gset sockaddr_in) (sl : StripeList.StripeList sockaddr_in).

(** One step: the coordinator starts a transition, a worker ends one, the
    coordinator learns of a crash or gets the next acknowledgement of a
    client; a client gets its next message, looks for servers to acknowledge,
    or makes progress with its requests and reverts (its counters change in
    whatever way). *)
Inductive step : config → config → Prop :=
  | step_start cfg start junk servers c out :
      zlen junk = MAX_MESSLEN → transit start junk (coord cfg) servers = Some (c, out) →
      step cfg (MkConfig c (broadcast out (nodes cfg)))
  | step_end cfg junk es1 e es2 r c out :
      zlen junk = MAX_MESSLEN → Co.eventQueue (coord cfg) = es1 ++ e :: es2 →
      Co.work junk true (Co.set_events (coord cfg) (es1 ++ es2)) e = Some (Done (r, c, out)) →
      step cfg (MkConfig c (broadcast out (nodes cfg)))
  | step_crash cfg X :
      step cfg (MkConfig (Co.addCrashedServer (coord cfg) X).2 (nodes cfg))
  | step_acked cfg k nd msg rest r c :
      nodes cfg !! k = Some nd → outbox nd = msg :: rest → Co.updateState (coord cfg) k msg = Some (r, c) →
      step cfg (MkConfig c (<[k := MkNode (cl nd) (inbox nd) rest]> (nodes cfg)))
  | step_message cfg k nd msg rest junk fkv revert pending cl' out :
      zlen junk = MAX_MESSLEN → nodes cfg !! k = Some nd → inbox nd = msg :: rest →
      Cl.setState junk fkv revert sl pending (cl nd) msg = Some (cl', out) →
      step cfg (MkConfig (coord cfg) (<[k := MkNode cl' rest (outbox nd ++ out)]> (nodes cfg)))
  | step_ack cfg k nd junk fkv server r cl' out :
      zlen junk = MAX_MESSLEN → nodes cfg !! k = Some nd → (∀ X, server = Some X → X ∈ V) →
      Cl.ackTransit junk fkv (cl nd) server = Some (r, cl', out) →
      step cfg (MkConfig (coord cfg) (<[k := MkNode cl' (inbox nd) (outbox nd ++ out)]> (nodes cfg)))
  | step_progress cfg k nd infos :
      nodes cfg !! k = Some nd →
      step cfg (MkConfig (coord cfg) (<[k := MkNode (Cl.set_infos (cl nd) infos) (inbox nd) (outbox nd)]> (nodes cfg))).

(** The state after start-up: the servers and clients have been added. *)
Definition boot (names : gset string) : config :=
  let c := set_fold (λ s c, (Co.addAliveServer c s).2) Co.new V in
  let c := set_fold (λ k c, Co.addAliveClient c k) c names in
  let client := set_fold (λ s c, (Cl.addAliveServer c s).2) (Cl.new (elements V)) V in
  MkConfig (Co.start c) (gset_to_gmap (MkNode client [] []) names).

Context (Vok : ∀ X, X ∈ V → addr_ok X) (Vsize : Z.of_nat (size V) ≤ 255).

Definition state_of_server (cfg : config) (X : sockaddr_in) : RemapState := state_at (Co.serversState (coord cfg)) X.
Definition state_at_client (nd : node) (X : sockaddr_in) : RemapState := state_at (Cl.serversState (cl nd)) X.

Definition linked (c : Co.Coordinator) (k : string) (nd : node) : Prop :=
  ∀ X, X ∈ V → link (state_at (Co.serversState c) X) (bool_decide (k ∈ acks c X)) (state_at_client nd X)
    (sent X (inbox nd)) (sent X (outbox nd)).

Record node_ok (c : Co.Coordinator) (k : string) (nd : node) : Prop := {
  no_client : client_ok V (cl nd);
  no_name : Co.from_client k = true;
  no_inbox : Forall sendable (inbox nd);
  no_outbox : Forall readable (outbox nd);
  no_links : linked c k nd;
}.

Record inv (cfg : config) : Prop := {
  in_setup : setup V (coord cfg);
  in_events : scheduled (coord cfg);
  in_names : Co.aliveClients (coord cfg) = dom (nodes cfg);
  in_nodes : ∀ k nd, nodes cfg !! k = Some nd → node_ok (coord cfg) k nd;
}.

(** *** Every step keeps the invariant *)
Lemma coord_inv cfg c out :
  inv cfg → setup V c → frame (coord cfg) c → scheduled c → Forall sendable out → coord_step V (coord cfg) c out →
  inv (MkConfig c (broadcast out (nodes cfg))).
Proof.
  intros Hi Hc Hf Hs Ho Hstep. constructor; cbn; [done|done|by rewrite Hf, (in_names _ Hi); unfold broadcast; rewrite dom_fmap_L|].
  intros k nd Hk. unfold broadcast in Hk. rewrite lookup_fmap in Hk.
  destruct (nodes cfg !! k) as [nd0|] eqn:Hk0; [|done]. cbn in Hk. injection Hk as <-.
  destruct (in_nodes _ Hi k nd0 Hk0). constructor; cbn; [done|done|by apply Forall_app|done|].
  intros X HX. unfold state_at_client. cbn [cl inbox outbox]. rewrite sent_app. eapply change_link; [exact (Hstep X HX)| |exact (no_links0 X HX)].
  rewrite (in_names _ Hi). apply elem_of_dom. by rewrite Hk0.
Qed.

Lemma node_inv cfg k nd nd' :
  inv cfg → nodes cfg !! k = Some nd → node_ok (coord cfg) k nd' →
  inv (MkConfig (coord cfg) (<[k := nd']> (nodes cfg))).
Proof.
  intros Hi Hk Hnd. destruct Hi. constructor; cbn; [done|done| |].
  - rewrite dom_insert_L, in_names0. apply elem_of_dom_2 in Hk. set_solver.
  - intros k' nd0. destruct (decide (k = k')) as [->|Hne].
    + rewrite lookup_insert_eq. by intros [= <-].
    + rewrite lookup_insert_ne by done. apply in_nodes0.
Qed.

Lemma acks_link S b (c c' : RemapState) q o w : acks_of c c' w → link S b c q o → link S b c' q (o ++ w).
Proof. intros [[-> ->]|[Ha ->]] Hl; [by rewrite app_nil_r|]. by eapply link_ack. Qed.

Lemma record_acks_spec k c rs :
  setup V c → k ∈ Co.aliveClients c →
  let c' := foldl (Co.record_ack k) c rs in
  setup V c' ∧ frame c c' ∧ Co.eventQueue c' = Co.eventQueue c
  ∧ (∀ X, state_at (Co.serversState c') X = state_at (Co.serversState c) X)
  ∧ ack_step V k (λ X, states_of X rs) c c'.
Proof.
  revert c; induction rs as [|r rs IH]; intros c Hc Hk; cbn [foldl].
  - split_and!; [done..|]. intros X HX. split_and!; [done|set_solver|done|]. intros s q cs o Hl ->. exact Hl.
  - destruct (record_ack_spec V k c r Hc Hk) as (Hc1 & Hf1 & He1 & Hs1 & Ha1).
    destruct (IH (Co.record_ack k c r) Hc1) as (Hc2 & Hf2 & He2 & Hs2 & Ha2); [by rewrite Hf1|].
    unfold frame in *. split_and!; [done|congruence|congruence|by intros X; rewrite Hs2|].
    intros X HX. destruct (Ha1 X HX) as (E1 & S1 & T1 & L1), (Ha2 X HX) as (E2 & S2 & T2 & L2).
    split_and!; [by rewrite E2|set_solver|set_solver|]. intros s q cs o Hl ->. apply L2; [|by rewrite E1].
    rewrite E1. apply L1; [|done]. rewrite states_of_cons in Hl. by destruct (state_of X r).
Qed.

Lemma acked_inv cfg k nd msg rest r c :
  inv cfg → nodes cfg !! k = Some nd → outbox nd = msg :: rest → Co.updateState (coord cfg) k msg = Some (r, c) →
  inv (MkConfig c (<[k := MkNode (cl nd) (inbox nd) rest]> (nodes cfg)))
  ∧ ∀ X, state_at (Co.serversState c) X = state_of_server cfg X.
Proof.
  intros Hi Hk Hout. pose proof (in_nodes _ Hi k nd Hk) as Hnd. unfold Co.updateState. rewrite (no_name _ _ _ Hnd).
  pose proof (no_outbox _ _ _ Hnd) as Hro. rewrite Hout in Hro. apply Forall_cons in Hro as [[rs Hrs] Hrest].
  rewrite Hrs. cbn [mbind option_bind]. intros [= <- <-].
  assert (Hal : k ∈ Co.aliveClients (coord cfg)) by (rewrite (in_names _ Hi); by eapply elem_of_dom_2).
  destruct (record_acks_spec k (coord cfg) rs (in_setup _ Hi) Hal) as (Hc & Hf & He & Hs & Ha).
  split; [|done]. destruct Hi. constructor; cbn; [done| |  |].
  - intros b X. rewrite Hs, He. apply in_events0.
  - rewrite Hf, dom_insert_L, in_names0. apply elem_of_dom_2 in Hk. set_solver.
  - intros k' nd'. destruct (decide (k = k')) as [<-|Hne].
    + rewrite lookup_insert_eq. intros [= <-]. destruct Hnd. constructor; cbn; [done..|].
      intros X HX. unfold state_at_client. cbn [cl inbox outbox]. destruct (Ha X HX) as (E & _ & _ & L). rewrite E. apply L; [|done].
      pose proof (no_links0 X HX) as Hl. rewrite Hout, (sent_cons _ _ _ _ Hrs) in Hl. exact Hl.
    + rewrite lookup_insert_ne by done. intros Hk'. destruct (in_nodes0 k' nd' Hk'). constructor; [done..|].
      intros X HX. destruct (Ha X HX) as (E & Sb & Tb & _). rewrite E.
      assert (bool_decide (k' ∈ acks (foldl (Co.record_ack k) (coord cfg) rs) X) = bool_decide (k' ∈ acks (coord cfg) X)) as ->.
      { apply bool_decide_ext. split; set_solver. }
      exact (no_links0 X HX).
Qed.

Lemma message_inv cfg k nd msg rest junk fkv revert pending cl' out :
  inv cfg → zlen junk = MAX_MESSLEN → nodes cfg !! k = Some nd → inbox nd = msg :: rest →
  Cl.setState junk fkv revert sl pending (cl nd) msg = Some (cl', out) →
  inv (MkConfig (coord cfg) (<[k := MkNode cl' rest (outbox nd ++ out)]> (nodes cfg))).
Proof.
  intros Hi Hj Hk Hin Hset. eapply node_inv; [done|done|]. destruct (in_nodes _ Hi k nd Hk).
  apply (setState_spec V Vok Vsize) in Hset as (Hcl & Ho & rs & Hrs & HX); [|done..].
  rewrite Hin in no_inbox0. apply Forall_cons in no_inbox0 as [_ Hrest].
  constructor; cbn; [done|done|done|by apply Forall_app|]. intros X HXV. unfold state_at_client. cbn [cl inbox outbox].
  rewrite sent_app. eapply acks_link; [by apply HX|]. apply link_recvs.
  rewrite <- (sent_cons _ _ _ _ Hrs), <- Hin. exact (no_links0 X HXV).
Qed.

Lemma system_step_inv cfg cfg' : inv cfg → step cfg cfg' → inv cfg'.
Proof.
  intros Hi Hstep. pose proof (in_setup _ Hi) as Hc. pose proof (in_events _ Hi) as Hs.
  destruct Hstep as [cfg start junk servers c out Hj Ht|cfg junk es1 e es2 r c out Hj He Hw|cfg X
    |cfg k nd msg rest r c Hk Ho Hu|cfg k nd msg rest junk fkv revert pending cl' out Hj Hk Hin Hset
    |cfg k nd junk fkv server r cl' out Hj Hk Hs' Hack|cfg k nd infos Hk].
  - assert (∃ xs kept left, Co.stateChangeInitHandler junk true start (coord cfg) xs = Some (c, kept, left, out)) as (xs & kept & left & Hh).
    { destruct start; cbn in Ht; unfold Co.transitToDegraded, Co.transitToNormal in Ht;
        match type of Ht with context [Co.stateChangeInitHandler ?j ?s ?b ?c ?x] =>
          destruct (Co.stateChangeInitHandler j s b c x) as [[[[? ?] ?] ?]|] eqn:E; [|done] end;
        cbn in Ht; injection Ht as <- <-; eauto. }
    apply (start_spec V Vok Vsize junk Hj) in Hh as (? & ? & ? & ? & ?); [|done..]. by apply coord_inv.
  - apply (end_spec V Vok Vsize junk Hj (coord cfg)) in Hw as (? & ? & ? & ? & ?); [|done..]. by apply coord_inv.
  - unfold Co.addCrashedServer. case_decide; cbn; [by destruct cfg, Hi|].
    destruct Hi, Hc. constructor; [by constructor|done..|].
    intros k nd Hk. destruct (in_nodes0 k nd Hk). by constructor.
  - by eapply acked_inv.
  - by eapply message_inv.
  - eapply node_inv; [done|done|]. destruct (in_nodes _ Hi k nd Hk).
    destruct (ack_spec V Vok Vsize junk Hj fkv (cl nd) server) as (r' & c' & o' & Heq & Hcl & Ho & HX); [done|done|].
    rewrite Hack in Heq. injection Heq as -> -> ->.
    constructor; cbn; [done|done|done|by apply Forall_app|]. intros X HXV. unfold state_at_client. cbn [cl inbox outbox].
    rewrite sent_app. eapply acks_link; [by apply HX|]. exact (no_links0 X HXV).
  - eapply node_inv; [done|done|]. by destruct (in_nodes _ Hi k nd Hk).
Qed.

Lemma steps_inv cfg cfg' : inv cfg → rtc step cfg cfg' → inv cfg'.
Proof. intros Hi. induction 1 as [|? ? ? H ? IH]; [done|]. apply IH. by eapply system_step_inv. Qed.

Lemma waiting_finished cfg cfg' k nd nd' X :
  inv cfg → step cfg cfg' → nodes cfg !! k = Some nd → nodes cfg' !! k = Some nd' → X ∈ V →
  state_at_client nd X ≠ STATE_WAIT_DEGRADED → state_at_client nd' X = STATE_WAIT_DEGRADED → finished (cl nd') X.
Proof.
  intros Hi Hstep Hk Hk' HX Hne He.
  assert (Hone : ∀ k1 nd1 nd2, nodes cfg !! k1 = Some nd1 → <[k1 := nd2]> (nodes cfg) !! k = Some nd' →
    (k1 = k ∧ nd1 = nd ∧ nd2 = nd') ∨ nd' = nd).
  { intros k1 nd1 nd2 H1. destruct (decide (k1 = k)) as [->|Hn].
    - rewrite lookup_insert_eq. intros [= <-]. left. split; [done|]. split; [congruence|done].
    - rewrite lookup_insert_ne by done. intros H2. right. congruence. }
  assert (Hbc : ∀ out, broadcast out (nodes cfg) !! k = Some nd' → cl nd' = cl nd).
  { intros out. unfold broadcast. rewrite lookup_fmap, Hk. cbn. by intros [= <-]. }
  unfold state_at_client in *.
  destruct Hstep as [cfg start junk servers c out Hj Ht|cfg junk es1 e es2 r c out Hj Hes Hw|cfg Y
    |cfg k1 nd1 msg rest r c Hk1 Ho Hu|cfg k1 nd1 msg rest junk fkv revert pending cl' out Hj Hk1 Hin Hset
    |cfg k1 nd1 junk fkv server r cl' out Hj Hk1 Hs' Hack|cfg k1 nd1 infos Hk1]; cbn in Hk'.
  - apply Hbc in Hk'. by rewrite Hk' in He.
  - apply Hbc in Hk'. by rewrite Hk' in He.
  - by simplify_eq.
  - destruct (Hone _ _ _ Hk1 Hk') as [(-> & -> & <-)| ->]; done.
  - destruct (Hone _ _ _ Hk1 Hk') as [(-> & -> & <-)| ->]; [|done].
    destruct (in_nodes _ Hi k nd Hk). pose proof (no_links0 X HX) as [Hroute _].
    apply (setState_spec V Vok Vsize) in Hset as (_ & _ & rs & Hrs & HX'); [|done..].
    rewrite Hin, (sent_cons _ _ _ _ Hrs) in Hroute. apply (HX' X HX); [|done].
    by apply (recvs_not_waiting _ _ _ _ Hroute).
  - destruct (Hone _ _ _ Hk1 Hk') as [(-> & -> & <-)| ->]; [|done].
    pose proof (ack_waits V Vok Vsize junk Hj fkv (cl nd) X server r cl' out
      (no_client _ _ _ (in_nodes _ Hi k nd Hk)) Hs' Hack) as HW.
    unfold waits_when_finished in HW. rewrite decide_False in HW by done. by apply HW.
  - destruct (Hone _ _ _ Hk1 Hk') as [(-> & -> & <-)| ->]; done.
Qed.

(** *** Start-up *)
Definition fresh_coord (c : Co.Coordinator) (X : gset sockaddr_in) : Prop :=
  Co.aliveServers c = X ∧ dom (Co.ackClients c) = X ∧ dom (Co.serversState c) = X
  ∧ (∀ Y, Y ∈ X → state_at (Co.serversState c) Y = STATE_NORMAL) ∧ (∀ Y, acks c Y = ∅)
  ∧ Co.failedServers c = ∅ ∧ Co.updatedServers c = [] ∧ Co.eventQueue c = [] ∧ Co.aliveClients c = ∅.

Lemma boot_servers : fresh_coord (set_fold (λ s c, (Co.addAliveServer c s).2) Co.new V) V.
Proof.
  clear Vok Vsize sl. apply (set_fold_ind_L fresh_coord); [unfold fresh_coord; split_and!; try done; set_solver|].
  intros x X r Hx (H1 & H2 & H3 & H4 & H5 & H6 & H7 & H8 & H9). unfold Co.addAliveServer.
  rewrite H1, decide_False by done. unfold fresh_coord. cbn. rewrite !dom_insert_L, H2, H3.
  do 3 (split; [done|]). split; [|split; [|done]].
  - intros Y HY. rewrite state_at_insert. case_decide; [done|]. apply H4. set_solver.
  - intros Y. unfold acks. cbn. destruct (decide (x = Y)) as [->|]; [by rewrite lookup_insert_eq|].
    rewrite lookup_insert_ne by done. apply H5.
Qed.

Lemma boot_clients c names :
  fresh_coord c V → Co.aliveClients (set_fold (λ k c, Co.addAliveClient c k) c names) = names
  ∧ ∃ al, set_fold (λ k c, Co.addAliveClient c k) c names = Co.set_clients c al (Co.ackClients c).
Proof.
  clear Vok Vsize sl. intros Hc.
  apply (set_fold_ind_L (λ c' X, Co.aliveClients c' = X ∧ ∃ al, c' = Co.set_clients c al (Co.ackClients c))).
  - destruct Hc as (_ & _ & _ & _ & _ & _ & _ & _ & H9). split; [done|]. exists ∅. destruct c; cbn in *. by subst.
  - intros x X r _ [<- [al ->]]. split; [done|]. eexists. done.
Qed.

Definition fresh_client (c : Cl.Client) (X : gset sockaddr_in) : Prop :=
  dom (Cl.serversState c) = X ∧ (∀ Y, Y ∈ X → state_at (Cl.serversState c) Y = STATE_NORMAL)
  ∧ Cl.sockets c = elements V.
Lemma boot_client : fresh_client (set_fold (λ s c, (Cl.addAliveServer c s).2) (Cl.new (elements V)) V) V.
Proof.
  clear Vok Vsize sl. apply (set_fold_ind_L fresh_client); [unfold fresh_client; split_and!; try done; set_solver|].
  intros x X r Hx (H1 & H2 & H3). unfold Cl.addAliveServer. rewrite decide_False.
  - unfold fresh_client. cbn. rewrite dom_insert_L, H1. split_and!; [done| |done].
    intros Y HY. rewrite state_at_insert. case_decide; [done|]. apply H2. set_solver.
  - rewrite <- elem_of_dom. by rewrite H1.
Qed.

Lemma boot_inv names : (∀ k, k ∈ names → Co.from_client k = true) → inv (boot names).
Proof.
  intros Hn. unfold boot. pose proof boot_servers as Hf. set (c0 := set_fold _ Co.new V) in *.
  destruct (boot_clients c0 names Hf) as (Hal & al & Heq). rewrite Heq in *.
  destruct Hf as (H1 & H2 & H3 & H4 & H5 & H6 & H7 & H8 & H9). cbn in Hal. subst al.
  destruct boot_client as (C1 & C2 & C3). set (cl0 := set_fold _ (Cl.new _) V) in *.
  constructor; cbn.
  - constructor; cbn; try done; [by rewrite H3| | |].
    + intros X HX. by rewrite H4.
    + intros X HX. unfold state_at. rewrite (proj1 (not_elem_of_dom _ _)); [done|]. by rewrite H3.
    + intros X. unfold acks in *. cbn. rewrite H5. set_solver.
  - intros b X. cbn. intros HX. destruct (decide (X ∈ V)) as [HV|HV].
    + rewrite H4 in HX by done. by destruct b.
    + unfold state_at in HX. rewrite (proj1 (not_elem_of_dom _ _)) in HX; [by destruct b|]. by rewrite H3.
  - by rewrite dom_gset_to_gmap.
  - intros k nd. rewrite lookup_gset_to_gmap_Some. intros [Hk <-]. constructor; cbn; [|auto|constructor|constructor|].
    + split; [done|]. intros X HX. rewrite C3. by apply elem_of_elements.
    + intros X HX. unfold state_at_client. cbn [cl inbox outbox]. cbn [Co.serversState Co.start Co.set_clients].
      rewrite H4, C2 by done. done.
Qed.

(** *** Completing a transition *)
Context (Htotal : StripeList.lookups_total sl).
(** Whatever requests are pending when a message arrives. *)
Context (fkv : Z → bool) (pending : list (Z * list byte)).
Context (revert : sockaddr_in → gmap sockaddr_in Info.StateTransitInfo → gmap sockaddr_in Info.StateTransitInfo).

Definition some_junk : list byte := replicate (Z.to_nat MAX_MESSLEN) x00.
Lemma some_junk_len : zlen some_junk = MAX_MESSLEN.
Proof. unfold zlen, some_junk. rewrite length_replicate. done. Qed.

(** From [cfg] to [cfg'] without the coordinator changing the states; only
    node [k] changes, to [nd]. *)
Definition reaches (cfg cfg' : config) (k : string) (nd : node) : Prop :=
  rtc step cfg cfg' ∧ nodes cfg' = <[k := nd]> (nodes cfg) ∧ ∀ X, state_of_server cfg' X = state_of_server cfg X.

Lemma reaches_refl cfg k nd : nodes cfg !! k = Some nd → reaches cfg cfg k nd.
Proof. intros Hk. split; [done|]. split; [|done]. symmetry. by apply insert_id. Qed.
Lemma reaches_step cfg cfg1 cfg2 k nd1 nd2 :
  step cfg cfg1 → nodes cfg1 = <[k := nd1]> (nodes cfg) → (∀ X, state_of_server cfg1 X = state_of_server cfg X) →
  reaches cfg1 cfg2 k nd2 → reaches cfg cfg2 k nd2.
Proof.
  intros Hs Hn Hst (Hr & Hn2 & Hst2). split; [by eapply rtc_l|]. split; [|intros X; by rewrite Hst2].
  rewrite Hn2, Hn. by rewrite insert_insert_eq.
Qed.

Lemma read_all cfg k nd :
  inv cfg → nodes cfg !! k = Some nd → ∃ cfg' nd', reaches cfg cfg' k nd' ∧ inbox nd' = [].
Proof.
  remember (inbox nd) as q eqn:Hq. revert cfg nd Hq. induction q as [|msg q IH]; intros cfg nd Hq Hi Hk.
  { exists cfg, nd. split; [by apply reaches_refl|done]. }
  pose proof (in_nodes _ Hi k nd Hk) as Hnd. pose proof (no_inbox _ _ _ Hnd) as Hin. rewrite <- Hq in Hin.
  apply Forall_cons in Hin as [(ss & ys & Hr & Hnd') _].
  destruct (setState_total V Vok Vsize some_junk some_junk_len fkv revert sl pending Htotal (cl nd) msg ss ys)
    as [[cl' out] Hset]; [apply Hnd|done|done|].
  set (nd1 := MkNode cl' q (outbox nd ++ out)). set (cfg1 := MkConfig (coord cfg) (<[k := nd1]> (nodes cfg))).
  assert (Hst : step cfg cfg1).
  { eapply step_message; [apply some_junk_len|done|symmetry; exact Hq|exact Hset]. }
  destruct (IH cfg1 nd1) as (cfg' & nd' & Hrc & He); [done|by eapply system_step_inv|by cbn; rewrite lookup_insert_eq|].
  exists cfg', nd'. split; [|done]. by eapply (reaches_step _ cfg1 _ k nd1).
Qed.

Lemma deliver_all cfg k nd :
  inv cfg → nodes cfg !! k = Some nd →
  ∃ cfg', reaches cfg cfg' k (MkNode (cl nd) (inbox nd) []).
Proof.
  remember (outbox nd) as q eqn:Hq. revert cfg nd Hq. induction q as [|msg q IH]; intros cfg nd Hq Hi Hk.
  { exists cfg. apply reaches_refl. rewrite Hk. f_equal. destruct nd; cbn in *. by subst. }
  pose proof (in_nodes _ Hi k nd Hk) as Hnd. pose proof (no_outbox _ _ _ Hnd) as Hout. rewrite <- Hq in Hout.
  apply Forall_cons in Hout as [[rs Hr] _].
  assert (∃ c, Co.updateState (coord cfg) k msg = Some (true, c)) as [c Hu].
  { unfold Co.updateState. rewrite (no_name _ _ _ Hnd), Hr. cbn. eauto. }
  destruct (acked_inv cfg k nd msg q true c Hi Hk (eq_sym Hq) Hu) as [Hi1 Hst1].
  set (nd1 := MkNode (cl nd) (inbox nd) q) in *.
  destruct (IH _ nd1 eq_refl Hi1) as (cfg' & Hrc); [by cbn; rewrite lookup_insert_eq|].
  exists cfg'. eapply reaches_step; [by eapply step_acked|done|exact Hst1|exact Hrc].
Qed.

Lemma reaches_inv cfg cfg' k nd : inv cfg → reaches cfg cfg' k nd → inv cfg' ∧ nodes cfg' !! k = Some nd.
Proof.
  intros Hi (Hr & Hn & _). split; [by eapply steps_inv|]. rewrite Hn. by rewrite lookup_insert_eq.
Qed.
Lemma reaches_trans cfg1 cfg2 cfg3 k nd2 nd3 :
  reaches cfg1 cfg2 k nd2 → reaches cfg2 cfg3 k nd3 → reaches cfg1 cfg3 k nd3.
Proof.
  intros (R1 & N1 & S1) (R2 & N2 & S2). split; [by etrans|]. split; [|intros X; by rewrite S2].
  rewrite N2, N1. by rewrite insert_insert_eq.
Qed.

(** A client can read its messages, complete its requests for [X] and
    acknowledge, and its acknowledgements can arrive. *)
Definition done_with (X : sockaddr_in) (nd : node) : Prop :=
  inbox nd = [] ∧ outbox nd = [] ∧ acked (state_at_client nd X) = None.

Lemma client_completes cfg k nd X :
  inv cfg → nodes cfg !! k = Some nd → X ∈ V →
  ∃ cfg' nd', reaches cfg cfg' k nd' ∧ done_with X nd'.
Proof.
  intros Hi Hk HX. destruct (read_all cfg k nd Hi Hk) as (cfg1 & nd1 & R1 & Hin1).
  destruct (reaches_inv _ _ _ _ Hi R1) as [Hi1 Hk1].
  set (infos := <[X := Info.MkInfo 0 ∅ true]> (Cl.stateTransitInfo (cl nd1))).
  set (nd2 := MkNode (Cl.set_infos (cl nd1) infos) (inbox nd1) (outbox nd1)).
  set (cfg2 := MkConfig (coord cfg1) (<[k := nd2]> (nodes cfg1))).
  assert (R2 : reaches cfg1 cfg2 k nd2).
  { split; [apply rtc_once; by apply step_progress|done]. }
  destruct (reaches_inv _ _ _ _ Hi1 R2) as [Hi2 Hk2].
  pose proof (no_client _ _ _ (in_nodes _ Hi2 k nd2 Hk2)) as Hc2.
  destruct (ack_clear V Vok Vsize some_junk some_junk_len fkv (cl nd2) X Hc2 HX) as (b & cl3 & out & Hack & Ha3).
  { unfold clear_of, Cl.info_at. cbn. unfold infos. by rewrite lookup_insert_eq. }
  set (nd3 := MkNode cl3 (inbox nd2) (outbox nd2 ++ out)).
  set (cfg3 := MkConfig (coord cfg2) (<[k := nd3]> (nodes cfg2))).
  assert (R3 : reaches cfg2 cfg3 k nd3).
  { split; [|done]. apply rtc_once. eapply step_ack; [apply some_junk_len|done| |exact Hack]. done. }
  destruct (reaches_inv _ _ _ _ Hi2 R3) as [Hi3 Hk3].
  destruct (deliver_all cfg3 k nd3 Hi3 Hk3) as (cfg4 & R4).
  exists cfg4, (MkNode cl3 (inbox nd2) []). split; [|done].
  eapply reaches_trans; [exact R1|]. eapply reaches_trans; [exact R2|]. by eapply reaches_trans.
Qed.

Lemma clients_complete X (ks : list string) cfg :
  inv cfg → X ∈ V → (∀ k nd, nodes cfg !! k = Some nd → k ∈ ks ∨ done_with X nd) →
  ∃ cfg', rtc step cfg cfg' ∧ (∀ Y, state_of_server cfg' Y = state_of_server cfg Y)
    ∧ ∀ k nd, nodes cfg' !! k = Some nd → done_with X nd.
Proof.
  revert cfg; induction ks as [|k ks IH]; intros cfg Hi HX Hks.
  - exists cfg. split; [done|]. split; [done|]. intros k nd Hk. by destruct (Hks k nd Hk) as [?%elem_of_nil|].
  - destruct (nodes cfg !! k) as [nd|] eqn:Hk.
    + destruct (client_completes cfg k nd X Hi Hk HX) as (cfg1 & nd1 & R1 & Hd1).
      destruct (reaches_inv _ _ _ _ Hi R1) as [Hi1 _]. destruct R1 as (R1 & N1 & S1).
      destruct (IH cfg1 Hi1 HX) as (cfg2 & R2 & S2 & Hd2).
      { intros k' nd'. rewrite N1. destruct (decide (k = k')) as [<-|Hne].
        - rewrite lookup_insert_eq. intros [= <-]. by right.
        - rewrite lookup_insert_ne by done. intros Hk'.
          destruct (Hks k' nd' Hk') as [[?|?]%elem_of_cons|?]; [done|by left|by right]. }
      exists cfg2. split; [by etrans|]. split; [|done]. intros Y. by rewrite S2.
    + apply IH; [done|done|]. intros k' nd' Hk'.
      destruct (Hks k' nd' Hk') as [[->|?]%elem_of_cons|?]; [by rewrite Hk in Hk'|by left|by right].
Qed.

Lemma transition_completes cfg X b :
  inv cfg → X ∈ V → state_of_server cfg X = mid_state b →
  ∃ cfg', rtc step cfg cfg' ∧ state_of_server cfg' X = to_state b.
Proof.
  intros Hi HX Hmid. destruct (clients_complete X (elements (dom (nodes cfg))) cfg Hi HX) as (cfg1 & R1 & S1 & Hd).
  { intros k nd Hk. left. apply elem_of_elements. by eapply elem_of_dom_2. }
  assert (Hi1 : inv cfg1) by (by eapply steps_inv). rewrite <- S1 in Hmid.
  assert (Hack : acks (coord cfg1) X = Co.aliveClients (coord cfg1)).
  { apply leibniz_equiv, set_equiv_subseteq. split; [apply (su_known _ _ (in_setup _ Hi1))|].
    intros k Hk. rewrite (in_names _ Hi1) in Hk. apply elem_of_dom in Hk as [nd Hk].
    destruct (Hd k nd Hk) as (Hin & Hout & Ha). pose proof (no_links _ _ _ (in_nodes _ Hi1 k nd Hk) X HX) as Hl.
    rewrite Hin, Hout in Hl. fold (state_of_server cfg1 X) in Hl. rewrite Hmid in Hl.
    destruct (acked (mid_state b)) as [w|] eqn:Ew; [|by destruct b].
    eapply link_delivered in Hl; [|done|done]. by apply bool_decide_eq_true in Hl. }
  pose proof (in_events _ Hi1 b X Hmid) as He. apply list_elem_of_split in He as (es1 & es2 & Hes).
  destruct (work_spec V Vok Vsize some_junk some_junk_len (Co.set_events (coord cfg1) (es1 ++ es2)) b X)
    as (c' & msg & Hw & _ & _ & _ & Hst & _); [apply setup_events, Hi1|done|done|done|].
  eexists. split; [eapply rtc_r; [exact R1|]; eapply step_end; [apply some_junk_len|exact Hes|exact Hw]|]. done.
Qed.
End system.

(** ** Properties *)

(** A message with the states of up to 255 servers, written with
    overlapping 32-bit stores into the stack buffer, is read back record by
    record: every server with its state, in order, whether the reader takes
    the state for a [char] or a [uint8_t]. *)
Theorem state_message_roundtrip (junk : list byte) (ss : states) (servers : list sockaddr_in) :
  zlen junk = MAX_MESSLEN → zlen servers ≤ 255 → Forall addr_ok servers →
  ∃ msg rs, sendState junk ss servers = Some (foldl touch ss servers, msg) ∧ zlen msg = 1 + 7 * zlen servers
    ∧ records msg = Some rs ∧ rs.*1 = servers
    ∧ (λ r, printServerState (b2z r.2)) <$> rs = (λ a, Some (state_at ss a)) <$> servers
    ∧ (λ r, printServerState (i8 r.2)) <$> rs = (λ a, Some (state_at ss a)) <$> servers.
Proof.
  intros Hj Hn Hok. destruct (send_spec junk ss servers Hj Hn Hok) as (msg & Hs & Hl & Hr).
  exists msg, (state_record ss <$> servers). split; [done|]. split; [done|]. split; [done|].
  rewrite <- !list_fmap_compose. split; [apply list_fmap_id|].
  split; apply list_fmap_ext; intros i x _; cbn; rewrite ?decode_signed; apply decode_state.
Qed.

(** C9: safety of the transitions, in every reachable state of coordinator,
    clients and channels.  While the coordinator holds a server for degraded,
    every client redirects requests and refuses late normal responses; while
    it holds it for normal, no client redirects; while it is returning to
    normal, every client uses the coordinated workflow; and as soon as one
    client is degraded, no client is still in the normal or the intermediate
    state. *)
Theorem transitions_safe (V : gset sockaddr_in) (sl : StripeList.StripeList sockaddr_in) (names : gset string)
    (cfg : config) (k : string) (nd : node) (X : sockaddr_in) :
  (∀ Y, Y ∈ V → addr_ok Y) → Z.of_nat (size V) ≤ 255 → (∀ k, k ∈ names → Co.from_client k = true) →
  rtc (step V sl) (boot V names) cfg → nodes cfg !! k = Some nd → X ∈ V →
  (state_of_server cfg X = STATE_DEGRADED →
     Cl.allowRemapping (cl nd) X = true ∧ Cl.acceptNormalResponse (cl nd) X = false)
  ∧ (state_of_server cfg X = STATE_NORMAL →
     Cl.allowRemapping (cl nd) X = false ∧ Cl.acceptNormalResponse (cl nd) X = true)
  ∧ (state_of_server cfg X = STATE_COORDINATED → Cl.useCoordinatedFlow (cl nd) X = true)
  ∧ (∀ k' nd', nodes cfg !! k' = Some nd' → state_at_client nd X = STATE_DEGRADED →
       state_at_client nd' X ≠ STATE_NORMAL ∧ state_at_client nd' X ≠ STATE_INTERMEDIATE).
Proof.
  intros Vok Vsize Hn Hr Hk HX.
  assert (Hi : inv V cfg) by (eapply steps_inv; [done|done|by apply boot_inv|exact Hr]).
  assert (Hag : ∀ k nd, nodes cfg !! k = Some nd → agrees (state_of_server cfg X) (state_at_client nd X) = true).
  { intros k' nd' Hk'. eapply link_agrees. exact (no_links _ _ _ _ (in_nodes _ _ Hi k' nd' Hk') X HX). }
  assert (Hin : Cl.serversState (cl nd) !! X = Some (state_at_client nd X)).
  { destruct (no_client _ _ _ _ (in_nodes _ _ Hi k nd Hk)) as [Hd _]. rewrite <- Hd in HX.
    apply elem_of_dom in HX as [s Hs]. unfold state_at_client, state_at. by rewrite Hs. }
  unfold Cl.allowRemapping, Cl.acceptNormalResponse, Cl.useCoordinatedFlow. rewrite Hin.
  pose proof (Hag k nd Hk) as H. split_and!; try (intros E; rewrite E in H; by destruct (state_at_client nd X)).
  intros k' nd' Hk' E. pose proof (Hag k' nd' Hk') as H'. rewrite E in H.
  by destruct (state_of_server cfg X), (state_at_client nd' X).
Qed.

(** C11: a client acknowledges the intermediate state, which the coordinator
    waits for before it declares the server degraded, only at a moment when
    its pending normal requests are complete and no parity delta is still to
    be reverted. *)
Theorem acknowledged_when_finished (V : gset sockaddr_in) (sl : StripeList.StripeList sockaddr_in) (names : gset string)
    (cfg cfg' : config) (k : string) (nd nd' : node) (X : sockaddr_in) :
  (∀ Y, Y ∈ V → addr_ok Y) → Z.of_nat (size V) ≤ 255 → (∀ k, k ∈ names → Co.from_client k = true) →
  rtc (step V sl) (boot V names) cfg → step V sl cfg cfg' →
  nodes cfg !! k = Some nd → nodes cfg' !! k = Some nd' → X ∈ V →
  state_at_client nd X ≠ STATE_WAIT_DEGRADED → state_at_client nd' X = STATE_WAIT_DEGRADED →
  Info.parityRevert (Cl.info_at (cl nd') X) ≤ 0 ∧ Info.completed (Cl.info_at (cl nd') X) = true.
Proof.
  intros Vok Vsize Hn Hr Hstep Hk Hk' HX Hne He.
  assert (Hi : inv V cfg) by (eapply steps_inv; [done|done|by apply boot_inv|exact Hr]).
  by eapply waiting_finished.
Qed.

(** C10: progress.  From every reachable state in which a server is being
    taken to degraded, the degraded state can be reached, and from every one
    in which it is returning to normal, the normal state, whatever requests
    are pending when the clients handle the messages on the way: no message,
    acknowledgement or event is missing. *)
Theorem transitions_complete (V : gset sockaddr_in) (sl : StripeList.StripeList sockaddr_in) (names : gset string)
    (cfg : config) (X : sockaddr_in) (fkv : Z → bool) (pending : list (Z * list byte))
    (revert : sockaddr_in → gmap sockaddr_in Info.StateTransitInfo → gmap sockaddr_in Info.StateTransitInfo) :
  (∀ Y, Y ∈ V → addr_ok Y) → Z.of_nat (size V) ≤ 255 → (∀ k, k ∈ names → Co.from_client k = true) →
  StripeList.lookups_total sl → rtc (step V sl) (boot V names) cfg → X ∈ V →
  (state_of_server cfg X = STATE_INTERMEDIATE →
     ∃ cfg', rtc (step V sl) cfg cfg' ∧ state_of_server cfg' X = STATE_DEGRADED)
  ∧ (state_of_server cfg X = STATE_COORDINATED →
     ∃ cfg', rtc (step V sl) cfg cfg' ∧ state_of_server cfg' X = STATE_NORMAL).
Proof.
  intros Vok Vsize Hn Ht Hr HX.
  assert (Hi : inv V cfg) by (eapply steps_inv; [done|done|by apply boot_inv|exact Hr]).
  split; intros Hs.
  - apply (transition_completes V sl Vok Vsize Ht fkv pending revert cfg X true Hi HX Hs).
  - apply (transition_completes V sl Vok Vsize Ht fkv pending revert cfg X false Hi HX Hs).
Qed.

(** ** Instances: one server, one client *)
Definition demo_server : sockaddr_in := MkAddr 16777343 20480.
Definition demo_V : gset sockaddr_in := {[demo_server]}.
Definition demo_names : gset string := {["#client1"%string]}.
Definition demo_lists : StripeList.StripeList sockaddr_in :=
  default (StripeList.blank 1 1 1 [demo_server] true) (fst <$> StripeList.StripeList_new 1 1 1 [demo_server] true []).

Lemma demo_ok Y : Y ∈ demo_V → addr_ok Y.
Proof. intros ->%elem_of_singleton. split; done. Qed.
Lemma demo_name k : k ∈ demo_names → Co.from_client k = true.
Proof. by intros ->%elem_of_singleton. Qed.
Lemma demo_size : Z.of_nat (size demo_V) ≤ 255.
Proof. by vm_compute. Qed.
Lemma demo_total : StripeList.lookups_total demo_lists.
Proof.
  unfold demo_lists. destruct (StripeList.StripeList_new 1 1 1 [demo_server] true []) as [[l rs]|] eqn:E; [|by vm_compute in E].
  apply (StripeList.new_total 1 1 1 [demo_server]) with (algo := true) (rs := []) (rs' := rs); try done; lia.
Qed.

(** The coordinator takes the server to degraded; the client gets the message
    and, with no request pending, acknowledges. *)
Definition demo_boot : config := boot demo_V demo_names.
Definition demo_out : Co.Coordinator * list (list byte) :=
  default (Co.new, []) (transit true some_junk (coord demo_boot) [demo_server]).
Definition demo_cfg : config := MkConfig demo_out.1 (broadcast demo_out.2 (nodes demo_boot)).
Definition demo_node : node := default (MkNode (Cl.new []) [] []) (nodes demo_cfg !! "#client1"%string).
Definition demo_msg : list byte := default [] (head (inbox demo_node)).
Definition demo_set : Cl.Client * list (list byte) :=
  default (Cl.new [], []) (Cl.setState some_junk (λ _, false) (λ _ i, i) demo_lists [] (cl demo_node) demo_msg).
Definition demo_next : config :=
  MkConfig (coord demo_cfg) (<["#client1"%string := MkNode demo_set.1 [] (outbox demo_node ++ demo_set.2)]> (nodes demo_cfg)).

Lemma demo_start_step : transit true some_junk (coord demo_boot) [demo_server] = Some (demo_out.1, demo_out.2).
Proof. vm_compute. reflexivity. Qed.
Lemma demo_node_at : nodes demo_cfg !! "#client1"%string = Some demo_node.
Proof. vm_compute. reflexivity. Qed.
Lemma demo_inbox : inbox demo_node = [demo_msg].
Proof. vm_compute. reflexivity. Qed.
Lemma demo_set_step :
  Cl.setState some_junk (λ _, false) (λ _ i, i) demo_lists [] (cl demo_node) demo_msg = Some (demo_set.1, demo_set.2).
Proof. vm_compute. reflexivity. Qed.

Lemma demo_reached : rtc (step demo_V demo_lists) (boot demo_V demo_names) demo_cfg.
Proof. apply rtc_once. exact (step_start _ _ demo_boot true some_junk [demo_server] _ _ some_junk_len demo_start_step). Qed.
Lemma demo_step : step demo_V demo_lists demo_cfg demo_next.
Proof.
  exact (step_message demo_V demo_lists demo_cfg "#client1" demo_node demo_msg [] some_junk _ _ _ _ _
    some_junk_len demo_node_at demo_inbox demo_set_step).
Qed.

Lemma state_message_roundtrip_witness : ∃ msg rs, zlen msg = 8 ∧ records msg = Some rs ∧ rs.*1 = [demo_server].
Proof.
  destruct (state_message_roundtrip some_junk ∅ [demo_server] some_junk_len ltac:(done)
    ltac:(constructor; [by apply demo_ok, elem_of_singleton|constructor])) as (msg & rs & _ & Hl & Hr & Hs & _). eauto.
Defined.

Lemma transitions_safe_witness : ∃ nd : node, nodes demo_boot !! "#client1"%string = Some nd
  ∧ Cl.allowRemapping (cl nd) demo_server = false ∧ Cl.acceptNormalResponse (cl nd) demo_server = true.
Proof.
  assert (∃ nd, nodes demo_boot !! "#client1"%string = Some nd) as [nd Hnd] by (eexists; vm_compute; reflexivity).
  destruct (transitions_safe demo_V demo_lists demo_names demo_boot "#client1" nd demo_server demo_ok demo_size demo_name
    (rtc_refl _ _) Hnd ltac:(by apply elem_of_singleton)) as (_ & Hn & _).
  exists nd. split; [exact Hnd|]. apply Hn. by vm_compute.
Defined.

Lemma acknowledged_when_finished_witness :
  state_at_client (MkNode demo_set.1 [] []) demo_server = STATE_WAIT_DEGRADED
  ∧ Info.completed (Cl.info_at demo_set.1 demo_server) = true.
Proof.
  split; [by vm_compute|].
  apply (acknowledged_when_finished demo_V demo_lists demo_names demo_cfg demo_next "#client1" demo_node
    (MkNode demo_set.1 [] (outbox demo_node ++ demo_set.2)) demo_server demo_ok demo_size demo_name demo_reached demo_step
    demo_node_at); [apply lookup_insert_eq|by apply elem_of_singleton|by vm_compute|by vm_compute].
Defined.

Lemma transitions_complete_witness :
  ∃ cfg, rtc (step demo_V demo_lists) demo_cfg cfg ∧ state_of_server cfg demo_server = STATE_DEGRADED.
Proof.
  destruct (transitions_complete demo_V demo_lists demo_names demo_cfg demo_server (λ _, false) [] (λ _ i, i) demo_ok
    demo_size demo_name demo_total demo_reached ltac:(by apply elem_of_singleton)) as [Hdeg _].
  apply Hdeg. by vm_compute.
Defined.
End StateSystem.
