(* ===== verification/BitwiseXor.v ===== *)
(** * Coding::bitwiseXOR (common/coding/coding.cc)

    The routine every other part of the system uses to combine chunks: 64-bit
    words first, then the bytes that remain.  [bitwiseXOR_spec] gives its
    effect byte by byte, also when the output is one of the inputs. *)

From S2P Require Export Mem.

(** ** The routine *)
Definition xor_word (dst srcA srcB : ptr) (i : Z) (m : mem) : option mem :=
  a ← load64 m (srcA +ₚ 8 * i);
  b ← load64 m (srcB +ₚ 8 * i);
  store64 m (dst +ₚ 8 * i) (Z.lxor a b).

Definition xor_byte (dst srcA srcB : ptr) (i : Z) (m : mem) : option mem :=
  a ← load8 m (srcA +ₚ i);
  b ← load8 m (srcB +ₚ i);
  store8 m (dst +ₚ i) (bxor a b).

Definition bitwiseXOR (m : mem) (dst srcA srcB : ptr) (len : Z) : option mem :=
  let xor64Count := len / 8 in
  m1 ← for_range 0 xor64Count (xor_word dst srcA srcB) m;
  for_range (xor64Count * 8) len (xor_byte dst srcA srcB) m1.

(** ** What it computes *)

(** Two ranges of [n] bytes that are the same range or share no byte. *)
Definition same_or_disjoint (p q : ptr) (n : Z) : Prop := p = q ∨ disjoint_ranges p q n.

(** The byte at [q] after the exclusive or of [n] bytes. *)
Definition xor_result (m : mem) (dst srcA srcB : ptr) (n : Z) (q : ptr) : option byte :=
  if decide (in_range dst n q)
  then Some (bxor (mbyte m (srcA +ₚ (off q - off dst))) (mbyte m (srcB +ₚ (off q - off dst))))
  else mget m q.

(** ** Lemmas *)

Lemma byte_testbit_high c n : 0 ≤ c < 256 → 8 ≤ n → Z.testbit c n = false.
Proof.
  intros Hc Hn. destruct (decide (c = 0)) as [->|]; [apply Z.testbit_0_l|].
  apply Z.bits_above_log2; [lia|]. assert (Z.log2 c < 8) by (apply Z.log2_lt_pow2; lia). lia.
Qed.

(** The exclusive or of two 64-bit words is that of their bytes. *)
Lemma lxor_low_byte a b x y :
  0 ≤ a < 256 → 0 ≤ b < 256 → Z.lxor (a + 256 * x) (b + 256 * y) = Z.lxor a b + 256 * Z.lxor x y.
Proof.
  intros Ha Hb. change 256 with (2 ^ 8). rewrite !(Z.mul_comm (2 ^ 8)), <- !Z.shiftl_mul_pow2 by lia.
  assert (Hlow : ∀ c z, 0 ≤ c < 256 → c + Z.shiftl z 8 = Z.lor c (Z.shiftl z 8)).
  { intros c z Hc. rewrite <- Z.add_lor_land. enough (Z.land c (Z.shiftl z 8) = 0) by lia.
    apply Z.bits_inj_0. intros n. rewrite Z.land_spec.
    destruct (Z.lt_trichotomy n 0) as [?|Hn]; [by rewrite Z.testbit_neg_r|].
    destruct (decide (n < 8)); [rewrite Z.shiftl_spec_low by lia; apply andb_false_r|].
    by rewrite byte_testbit_high by lia. }
  assert (Hxr := lxor_byte_range a b Ha Hb).
  rewrite !Hlow by done. apply Z.bits_inj'. intros n Hn.
  rewrite Z.lxor_spec, !Z.lor_spec, !Z.lxor_spec.
  destruct (decide (n < 8)).
  - rewrite !Z.shiftl_spec_low by lia. by rewrite !orb_false_r.
  - rewrite !Z.shiftl_spec, Z.lxor_spec by lia.
    by rewrite (byte_testbit_high a n), (byte_testbit_high b n) by lia.
Qed.

Lemma le_bytes_lxor (xs ys : list byte) :
  length xs = length ys →
  le_bytes (length xs) (Z.lxor (le_val xs) (le_val ys)) = zip_with bxor xs ys.
Proof.
  revert ys; induction xs as [|x xs IH]; intros [|y ys] Hlen; simplify_eq/=; [done|].
  unfold le_val, le_bytes; fold le_val; fold le_bytes. rewrite lxor_low_byte by apply b2z_range. rewrite <- b2z_bxor. f_equal.
  - rewrite <- z2b_mod, (Z.mul_comm 256), Z.mod_add, z2b_mod by lia. apply z2b_b2z.
  - rewrite (Z.mul_comm 256), Z.div_add by lia. pose proof (b2z_range (bxor x y)).
    rewrite Z.div_small by lia. by apply IH.
Qed.

(** The effect of a loop that has processed the first [n] bytes. *)
Definition xored (m0 : mem) (dst srcA srcB : ptr) (n : Z) (m : mem) : Prop :=
  same_shape m0 m ∧ ∀ q, mget m q = xor_result m0 dst srcA srcB n q.

Lemma in_range_padd p n i : 0 ≤ i < n → in_range p n (p +ₚ i).
Proof. unfold in_range; simpl. lia. Qed.

(** A source byte that has not been reached yet is still the original one. *)
Lemma xored_src m0 dst srcA srcB src len n m i :
  xored m0 dst srcA srcB n m → same_or_disjoint dst src len → 0 ≤ n → n ≤ i < len →
  mbyte m (src +ₚ i) = mbyte m0 (src +ₚ i).
Proof.
  intros [_ Hx] Hsd Hn Hi. unfold mbyte. rewrite Hx. unfold xor_result.
  rewrite decide_False; [done|]. unfold in_range; simpl.
  destruct Hsd as [->|[?|[?|?]]]; simpl; lia.
Qed.

Lemma xored_extend m0 dst srcA srcB n k m m' xs :
  xored m0 dst srcA srcB n m → 0 ≤ n → zlen xs = k → same_shape m m' →
  (∀ q, mget m' q = if decide (in_range (dst +ₚ n) k q) then zget xs (off q - (off dst + n)) else mget m q) →
  (∀ i, 0 ≤ i < k → zget xs i = Some (bxor (mbyte m0 (srcA +ₚ (n + i))) (mbyte m0 (srcB +ₚ (n + i))))) →
  xored m0 dst srcA srcB (n + k) m'.
Proof.
  intros [Hs Hx] Hn Hk Hs' Hg Hxs. split; [by etrans|]. intros q. rewrite Hg, Hx. unfold xor_result.
  unfold in_range; simpl.
  destruct (decide (blk q = blk dst)) as [Hb|Hb].
  2:{ rewrite !decide_False by tauto. done. }
  assert (0 ≤ k) by (unfold zlen in *; lia).
  destruct (decide (off dst + n ≤ off q < off dst + n + k)) as [?|?].
  - rewrite decide_True by done. rewrite decide_True by lia. rewrite Hxs by lia.
    do 3 f_equal; f_equal; lia.
  - rewrite decide_False by tauto. destruct (decide (off dst ≤ off q < off dst + n)).
    + rewrite !decide_True by lia. done.
    + rewrite !decide_False by lia. done.
Qed.

Section spec.
Variables (m0 : mem) (dst srcA srcB : ptr) (len : Z).
Hypothesis (Hd : valid m0 dst len) (Ha : valid m0 srcA len) (Hb : valid m0 srcB len).
Hypothesis (HdA : same_or_disjoint dst srcA len) (HdB : same_or_disjoint dst srcB len).

Lemma xor_byte_step n m :
  xored m0 dst srcA srcB n m → 0 ≤ n < len →
  ∃ m', xor_byte dst srcA srcB n m = Some m' ∧ xored m0 dst srcA srcB (n + 1) m'.
Proof.
  intros Hx Hn. unfold xor_byte, load8, store8.
  assert (Hsh := proj1 Hx).
  rewrite (valid_mget_mbyte m srcA len n), (valid_mget_mbyte m srcB len n) by eauto using same_shape_valid.
  simpl. edestruct (store_spec m (dst +ₚ n) [bxor (mbyte m (srcA +ₚ n)) (mbyte m (srcB +ₚ n))])
    as (m' & Hst & Hs' & Hg).
  { eapply valid_sub; [by eauto using same_shape_valid|lia|done|unfold zlen; simpl; lia]. }
  exists m'. split; [done|]. eapply (xored_extend m0 dst srcA srcB n 1 m m'); [exact Hx|lia| |exact Hs'|apply Hg|]; [done|].
  intros i Hi. replace i with 0 by lia. rewrite Z.add_0_r.
  rewrite <- !(xored_src m0 dst srcA srcB _ len n m n) by (done || lia). done.
Qed.

Lemma load_xored src n m xs :
  xored m0 dst srcA srcB n m → same_or_disjoint dst src len → 0 ≤ n → n + 8 ≤ len →
  load m (src +ₚ n) 8 = Some xs →
  zlen xs = 8 ∧ ∀ i, 0 ≤ i < 8 → zget xs i = Some (mbyte m0 (src +ₚ (n + i))).
Proof.
  intros Hx Hsd Hn Hlen Hl. assert (Hz : zlen xs = 8).
  { unfold load in Hl. destruct (m !! _); [|done]. simpl in Hl. by eapply slice_zlen. }
  split; [done|]. intros i Hi. unfold zget. rewrite decide_True by lia.
  rewrite (load_lookup _ _ _ _ _ Hl) by lia. rewrite Z2Nat.id, padd_padd by lia.
  rewrite <- (xored_src m0 dst srcA srcB src len n m (n + i)) by (done || lia).
  apply mget_mbyte. rewrite <- padd_padd. eapply valid_mget; [by eapply load_Some_valid|lia].
Qed.

Lemma xor_word_step i m :
  xored m0 dst srcA srcB (8 * i) m → 0 ≤ i → 8 * i + 8 ≤ len →
  ∃ m', xor_word dst srcA srcB i m = Some m' ∧ xored m0 dst srcA srcB (8 * (i + 1)) m'.
Proof.
  intros Hx Hi Hlen. unfold xor_word, load64, store64. assert (Hsh := proj1 Hx).
  destruct (load_valid m (srcA +ₚ 8 * i) 8) as [xs Hxs].
  { eapply valid_sub; [by eauto using same_shape_valid|lia..]. }
  destruct (load_valid m (srcB +ₚ 8 * i) 8) as [ys Hys].
  { eapply valid_sub; [by eauto using same_shape_valid|lia..]. }
  rewrite Hxs, Hys. simpl.
  apply (load_xored srcA (8 * i)) in Hxs as [Hlx Hxs]; [|done|done|lia|lia].
  apply (load_xored srcB (8 * i)) in Hys as [Hly Hys]; [|done|done|lia|lia].
  replace 8%nat with (length xs) by (unfold zlen in *; lia).
  rewrite le_bytes_lxor by (unfold zlen in *; lia).
  edestruct (store_spec m (dst +ₚ 8 * i) (zip_with bxor xs ys)) as (m' & Hst & Hs' & Hg).
  { eapply valid_sub; [by eauto using same_shape_valid|lia| |]; unfold zlen in *; rewrite length_zip_with; lia. }
  assert (Hz : zlen (zip_with bxor xs ys) = 8) by (unfold zlen in *; rewrite length_zip_with; lia).
  exists m'. split; [done|]. replace (8 * (i + 1)) with (8 * i + 8) by lia.
  eapply xored_extend; [done|lia|exact Hz|done|rewrite Hz in Hg; apply Hg|].
  intros j Hj. specialize (Hxs j Hj). specialize (Hys j Hj). unfold zget in *.
  rewrite decide_True in * by lia. rewrite lookup_zip_with, Hxs, Hys. done.
Qed.

Lemma bitwiseXOR_xored : ∃ m', bitwiseXOR m0 dst srcA srcB len = Some m' ∧ xored m0 dst srcA srcB len m'.
Proof.
  assert (Hlen : 0 ≤ len) by apply Hd. unfold bitwiseXOR.
  assert (H0 : xored m0 dst srcA srcB 0 m0).
  { split; [done|]. intros q. unfold xor_result. rewrite decide_False; [done|]. unfold in_range. lia. }
  destruct (for_range_inv (λ i, xored m0 dst srcA srcB (8 * i)) 0 (len / 8) (xor_word dst srcA srcB) m0)
    as (m1 & -> & H1); [lia| |done|].
  { intros. apply xor_word_step; [done|lia|lia]. }
  simpl. apply (for_range_inv (λ i, xored m0 dst srcA srcB i)); [lia| |].
  - intros. apply xor_byte_step; [done|lia].
  - by replace (len / 8 * 8) with (8 * (len / 8)) by lia.
Qed.
End spec.

(** ** Properties *)

(** On valid buffers, with the output equal to or disjoint from each
    input, [bitwiseXOR] stays inside the buffers and its result is the bytewise
    exclusive or of the original contents: byte [q] of the output range becomes
    the exclusive or of the two source bytes, every other byte of the memory is
    unchanged. *)
Theorem bitwiseXOR_spec (m : mem) (dst srcA srcB : ptr) (len : Z) :
  valid m dst len → valid m srcA len → valid m srcB len →
  same_or_disjoint dst srcA len → same_or_disjoint dst srcB len →
  ∃ m', bitwiseXOR m dst srcA srcB len = Some m' ∧ same_shape m m' ∧
    ∀ q, mget m' q = xor_result m dst srcA srcB len q.
Proof.
  intros ?????. destruct (bitwiseXOR_xored m dst srcA srcB len) as (m' & ? & ? & ?); eauto.
Qed.

Lemma bitwiseXOR_spec_witness :
  let m : mem := {[ 0%nat := replicate 11 (z2b 5); 1%nat := replicate 11 (z2b 3) ]} in
  ∃ m', bitwiseXOR m (Ptr 0 0) (Ptr 0 0) (Ptr 1 0) 11 = Some m' ∧
    mget m' (Ptr 0 9) = Some (z2b 6).
Proof.
  intros m.
  assert (H0 : valid m (Ptr 0 0) 11).
  { split; [lia|]. exists (replicate 11 (z2b 5)). split; [reflexivity|]. split; vm_compute; discriminate. }
  assert (H1 : valid m (Ptr 1 0) 11).
  { split; [lia|]. exists (replicate 11 (z2b 3)). split; [reflexivity|]. split; vm_compute; discriminate. }
  destruct (bitwiseXOR_spec m (Ptr 0 0) (Ptr 0 0) (Ptr 1 0) 11 H0 H0 H1) as (m' & E1 & _ & E2).
  { left. reflexivity. }
  { right. left. discriminate. }
  exists m'. split; [exact E1|]. rewrite E2. reflexivity.
Defined.
