(* ===== verification/KeyValue.v ===== *)
(** * Keys and key-value objects (common/ds/key.hh, common/ds/key_value.{hh,cc})

    An object in a chunk is a byte of key size, three bytes of value size, the
    key and the value; an object that does not fit a chunk is split, each split
    carrying its offset in three bytes between key and value.

    [Key]: the key comparison functions.  [LargeObjectUtil]: the arithmetic of
    splits.  [KeyValue]: serialization in memory. *)

From S2P Require Export Mem.

Definition KEY_VALUE_METADATA_SIZE : Z := 4.
Definition SPLIT_OFFSET_SIZE : Z := 3.

(** ** Key *)
Module Key.

(** A key with the bytes its [data] pointer refers to: [size] bytes, followed
    by the three bytes of the split offset when [isLarge]. *)
Record Key := MkKey { size : Z; data : list byte; isLarge : bool }.

#[export] Instance Key_eq_dec : EqDecision Key.
Proof. solve_decision. Defined.

(** The C library's [strncmp]: it compares as [unsigned char] and stops at the
    first difference, at a NUL byte common to both, or after [n] bytes. *)
Fixpoint strncmp (a b : list byte) (n : nat) {struct n} : option Z :=
  match n with
  | O => Some 0
  | S n' =>
      match a, b with
      | x :: a', y :: b' =>
          if decide (x = y) then (if decide (x = x00) then Some 0 else strncmp a' b' n')
          else Some (b2z x - b2z y)
      | _, _ => None
      end
  end.

Definition cmp_size (k : Key) : nat :=
  Z.to_nat (size k + (if isLarge k then SPLIT_OFFSET_SIZE else 0)).

Definition equal (k1 k2 : Key) : option bool :=
  if decide (size k1 = size k2 ∧ isLarge k1 = isLarge k2)
  then r ← strncmp (data k1) (data k2) (cmp_size k1); Some (bool_decide (r = 0))
  else Some false.

(** [operator<], for keys whose extra pointers are compared by [ptr_lt]. *)
Definition less (ptr_lt : bool) (k1 k2 : Key) : option bool :=
  if decide (size k1 < size k2) then Some true
  else if decide (size k2 < size k1) then Some false
  else if negb (isLarge k1) && isLarge k2 then Some true
  else if isLarge k1 && negb (isLarge k2) then Some false
  else r ← strncmp (data k1) (data k2) (cmp_size k1);
       Some (if decide (r < 0) then true else if decide (r > 0) then false else ptr_lt).

(** The data pointer covers the bytes compared. *)
Definition wf (k : Key) : Prop := 0 ≤ size k < 2 ^ 8 ∧ length (data k) = cmp_size k.

(** No byte of the key is NUL. *)
Definition nul_free (k : Key) : Prop := x00 ∉ data k.

Lemma strncmp_refl a n : (n ≤ length a)%nat → strncmp a a n = Some 0.
Proof.
  revert n; induction a as [|x a IH]; intros [|n] Hn; simpl in *; try done; [lia|].
  rewrite decide_True by done. case_decide; [done|]. apply IH. lia.
Qed.

Lemma strncmp_total a b n : (n ≤ length a)%nat → (n ≤ length b)%nat → is_Some (strncmp a b n).
Proof.
  revert a b; induction n as [|n IH]; intros [|x a] [|y b] ??; simpl in *; try done; try lia.
  case_decide; [|done]. case_decide; [done|]. apply IH; lia.
Qed.

(** On NUL-free strings, a zero result means equality of the bytes compared. *)
Lemma strncmp_zero a b n :
  (n ≤ length a)%nat → (n ≤ length b)%nat → x00 ∉ take n a →
  strncmp a b n = Some 0 ↔ take n a = take n b.
Proof.
  revert a b; induction n as [|n IH]; intros a b Ha Hb Hnul; [by split|].
  destruct a as [|x a], b as [|y b]; simpl in *; try lia.
  apply not_elem_of_cons in Hnul as [Hx Hnul].
  case_decide as Hxy.
  - subst. rewrite decide_False by done. rewrite IH by (done || lia). split; [by intros ->|congruence].
  - split; [|congruence]. intros [= H]. exfalso. apply Hxy, (inj b2z). lia.
Qed.

(** What is lost when the key holds a NUL byte: nothing after it is compared. *)
Lemma strncmp_nul p a b n :
  x00 ∉ p → (length p < n)%nat → strncmp (p ++ x00 :: a) (p ++ x00 :: b) n = Some 0.
Proof.
  revert n; induction p as [|x p IH]; intros [|n] Hp Hn; simpl in *; try lia.
  - done.
  - apply not_elem_of_cons in Hp as [??]. rewrite decide_True by done.
    rewrite decide_False by done. apply IH; [done|lia].
Qed.

(** On well-formed keys [Key::equal] is total; it is reflexive, it never
    separates keys with the same contents, and on keys without NUL bytes it is
    exactly equality. *)
Theorem equal_correct (k1 k2 : Key) :
  wf k1 → wf k2 →
  ∃ r, equal k1 k2 = Some r ∧ (k1 = k2 → r = true) ∧
       (nul_free k1 → r = true → k1 = k2).
Proof.
  intros [Hs1 Hl1] [Hs2 Hl2]. unfold equal. case_decide as Hd.
  - destruct Hd as [Hsz Hlg].
    assert (Hc : cmp_size k2 = cmp_size k1) by (unfold cmp_size; by rewrite Hsz, Hlg).
    destruct (strncmp_total (data k1) (data k2) (cmp_size k1)) as [r Hr]; [lia|lia|].
    rewrite Hr. simpl. eexists. split; [done|]. split.
    + intros ->. rewrite strncmp_refl in Hr by lia. injection Hr as <-. done.
    + intros Hn Ht%bool_decide_eq_true_1. subst r.
      rewrite strncmp_zero in Hr by (try lia; unfold nul_free in Hn; rewrite <- Hl1, firstn_all; done).
      rewrite <- Hl1 in Hr at 1. rewrite <- Hc, <- Hl2, !firstn_all in Hr.
      destruct k1, k2; simpl in *; congruence.
  - exists false. split; [done|]. split; [|done]. intros ->. tauto.
Qed.

(** For split objects the comparison stops at the first zero byte of the
    split offset: two splits of one object whose offsets are below 65536 are
    equal keys, whatever the offsets. *)
Theorem equal_conflates_splits (kd : list byte) (o1 o2 : Z) :
  zlen kd < 2 ^ 8 → x00 ∉ kd → 0 ≤ o1 < 65536 → 0 ≤ o2 < 65536 →
  equal (MkKey (zlen kd) (kd ++ be_bytes 3 o1) true)
        (MkKey (zlen kd) (kd ++ be_bytes 3 o2) true) = Some true.
Proof.
  intros Hk Hn H1 H2. unfold equal. rewrite decide_True by done. simpl.
  assert (Hb : ∀ o, 0 ≤ o < 65536 → ∃ t, be_bytes 3 o = x00 :: t).
  { intros o Ho. unfold be_bytes, le_bytes. simpl. eexists. f_equal.
    apply b2z_0. rewrite b2z_z2b. lia. }
  destruct (Hb o1 H1) as [t1 ->], (Hb o2 H2) as [t2 ->].
  rewrite strncmp_nul; [done|done|]. unfold cmp_size, zlen; simpl. unfold SPLIT_OFFSET_SIZE. lia.
Qed.

Lemma equal_correct_witness :
  let k := MkKey 2 [z2b 97; z2b 98] false in
  wf k ∧ ∃ r, equal k k = Some r ∧ (k = k → r = true) ∧ (nul_free k → r = true → k = k).
Proof.
  intros k. assert (H : wf k) by (split; [done|reflexivity]). split; [exact H|].
  exact (equal_correct k k H H).
Defined.

Lemma equal_conflates_splits_witness :
  equal (MkKey 1 ([z2b 97] ++ be_bytes 3 0) true) (MkKey 1 ([z2b 97] ++ be_bytes 3 4000) true) = Some true.
Proof.
  refine (equal_conflates_splits [z2b 97] 0 4000 _ _ _ _); [reflexivity| |split; [lia|reflexivity]|split; [lia|reflexivity]].
  rewrite list_elem_of_singleton. discriminate.
Defined.
End Key.

(** ** LargeObjectUtil: objects larger than a chunk *)
Module LargeObjectUtil.

Section chunk_size.
(** The static member set by [init]. *)
Variable chunkSize : Z.

Definition totalSize (keySize valueSize : Z) : Z := u32 (KEY_VALUE_METADATA_SIZE + keySize + valueSize).
Definition splitSizeOf (keySize : Z) : Z :=
  u32 (chunkSize - KEY_VALUE_METADATA_SIZE - keySize - SPLIT_OFFSET_SIZE).

Record split_info := SplitInfo { si_large : bool; si_num : Z; si_size : Z }.

(** The results of [isLarge]: the return value, [*numOfSplitPtr] and
    [*splitSizePtr].  The division by a zero split size is undefined. *)
Definition isLarge (keySize valueSize : Z) : option split_info :=
  if decide (chunkSize < totalSize keySize valueSize) then
    let splitSize := splitSizeOf keySize in
    if decide (splitSize = 0) then None else
    let numOfSplit := valueSize / splitSize in
    let numOfSplit := if decide (valueSize mod splitSize ≠ 0) then numOfSplit + 1 else numOfSplit in
    Some (SplitInfo true numOfSplit splitSize)
  else Some (SplitInfo false 1 valueSize).

Definition getValueOffsetAtSplit (keySize valueSize index : Z) : Z :=
  if decide (chunkSize < totalSize keySize valueSize) then u32 (index * splitSizeOf keySize) else 0.

(** The returned index and the [isLarge] out-parameter; a zero [valueSize]
    stands for an unknown size. *)
Definition getSplitIndex (keySize valueSize offset : Z) : option (Z * bool) :=
  let valueSize := if decide (valueSize = 0) then u32 (chunkSize + offset) else valueSize in
  if decide (chunkSize < totalSize keySize valueSize) then
    if decide (splitSizeOf keySize = 0) then None
    else Some (offset / splitSizeOf keySize, true)
  else Some (0, false).

(** The bytes of the value held by the split at [splitOffset]: the test
    repeated at every use of [isLarge]. *)
Definition clampSplit (valueSize splitOffset splitSize : Z) : Z :=
  if decide (u32 (splitOffset + splitSize) > valueSize) then u32 (valueSize - splitOffset) else splitSize.

(** The sizes the program works with: a key of one byte, a value of three
    bytes, and a chunk that can hold a split of at least one byte. *)
Definition sizes_ok (keySize valueSize : Z) : Prop :=
  0 ≤ keySize < 2 ^ 8 ∧ 0 ≤ valueSize < 2 ^ 24 ∧
  KEY_VALUE_METADATA_SIZE + keySize + SPLIT_OFFSET_SIZE < chunkSize < 2 ^ 31.

Lemma totalSize_small ks vs : sizes_ok ks vs → totalSize ks vs = 4 + ks + vs.
Proof. intros (? & ? & ?). unfold totalSize, KEY_VALUE_METADATA_SIZE. apply u32_small. lia. Qed.

Lemma splitSize_small ks vs : sizes_ok ks vs →
  splitSizeOf ks = chunkSize - 7 - ks ∧ 0 < splitSizeOf ks.
Proof.
  unfold sizes_ok, splitSizeOf, KEY_VALUE_METADATA_SIZE, SPLIT_OFFSET_SIZE. intros (? & ? & ?).
  rewrite u32_small by lia. lia.
Qed.

Lemma isLarge_total ks vs : sizes_ok ks vs → is_Some (isLarge ks vs).
Proof.
  intros H. destruct (splitSize_small ks vs H) as [_ ?]. unfold isLarge.
  case_decide; [|done]. rewrite decide_False by lia. done.
Qed.

Lemma isLarge_cases ks vs :
  sizes_ok ks vs →
  (chunkSize < 4 + ks + vs ∧
     isLarge ks vs = Some (SplitInfo true
       (if decide (vs mod splitSizeOf ks ≠ 0) then vs / splitSizeOf ks + 1 else vs / splitSizeOf ks)
       (splitSizeOf ks))) ∨
  (4 + ks + vs ≤ chunkSize ∧ isLarge ks vs = Some (SplitInfo false 1 vs)).
Proof.
  intros H. pose proof (totalSize_small ks vs H) as Ht.
  destruct (splitSize_small ks vs H) as [_ ?]. unfold isLarge. rewrite Ht. case_decide; [left|right].
  - rewrite decide_False by lia. done.
  - split; [lia|done].
Qed.

Lemma clampSplit_eq vs so sz :
  0 ≤ so ≤ vs → 0 ≤ sz < 2 ^ 31 → vs < 2 ^ 24 → clampSplit vs so sz = Z.min sz (vs - so).
Proof.
  intros. unfold clampSplit. rewrite (u32_small (so + sz)), (u32_small (vs - so)) by lia. case_decide; lia.
Qed.

(** [getSplitIndex] with an unknown value size: every split object is found
    at its index. *)
Lemma getSplitIndex_eq ks vs offset :
  sizes_ok ks vs → chunkSize < 4 + ks + vs → 0 < vs →
  getSplitIndex ks vs offset = Some (offset / splitSizeOf ks, true).
Proof.
  intros H Hl Hv. unfold getSplitIndex. rewrite (decide_False (P := vs = 0)) by lia. rewrite totalSize_small by done.
  rewrite decide_True by lia. destruct (splitSize_small ks vs H). rewrite decide_False by lia. done.
Qed.
End chunk_size.

(** C37: the splits of a large object tile its value.  With [n] splits of
    [splitSize] bytes: split [i] starts at [getValueOffsetAtSplit i], inside
    the value; [getSplitIndex] maps every offset inside split [i] back to [i];
    every split but the last is full; the last one ends exactly at the end of
    the value; and each split, with its metadata, fits a chunk. *)
Theorem splits_tile (chunkSize keySize valueSize n splitSize : Z) :
  sizes_ok chunkSize keySize valueSize →
  isLarge chunkSize keySize valueSize = Some (SplitInfo true n splitSize) →
  1 ≤ n ∧
  ∀ i, 0 ≤ i < n →
    let start := getValueOffsetAtSplit chunkSize keySize valueSize i in
    let len := clampSplit valueSize start splitSize in
    0 ≤ start < valueSize ∧ 0 < len ∧
    (∀ off, start ≤ off < start + len →
       getSplitIndex chunkSize keySize valueSize off = Some (i, true)) ∧
    (i < n - 1 → len = splitSize ∧
       getValueOffsetAtSplit chunkSize keySize valueSize (i + 1) = start + len) ∧
    (i = n - 1 → start + len = valueSize) ∧
    KEY_VALUE_METADATA_SIZE + keySize + SPLIT_OFFSET_SIZE + len ≤ chunkSize.
Proof.
  intros Hok HL. pose proof Hok as (Hk & Hv & Hc).
  destruct (isLarge_cases _ _ _ Hok) as [[Hbig Heq]|[? Heq]]; rewrite Heq in HL; [|discriminate HL].
  injection HL as Hn <-. destruct (splitSize_small _ _ _ Hok) as [Hs Hpos].
  set (s := splitSizeOf chunkSize keySize) in *. unfold KEY_VALUE_METADATA_SIZE, SPLIT_OFFSET_SIZE in *.
  pose proof (Z.div_mod valueSize s ltac:(lia)) as Hdm.
  pose proof (Z.mod_pos_bound valueSize s Hpos) as Hmod.
  assert (Hn1 : valueSize ≤ n * s ∧ (n - 1) * s < valueSize).
  { revert Hn. case_decide as Hd; intros <-; [nia|]. assert (valueSize mod s = 0) by lia. nia. }
  assert (Hst : ∀ i, 0 ≤ i < n → getValueOffsetAtSplit chunkSize keySize valueSize i = i * s).
  { intros i Hi. unfold getValueOffsetAtSplit. rewrite (totalSize_small chunkSize) by done.
    rewrite decide_True by lia. apply u32_small. nia. }
  split; [nia|]. intros i Hi. cbv zeta. rewrite Hst by done.
  rewrite clampSplit_eq by nia.
  split_and!; try nia.
  - intros o Ho. rewrite getSplitIndex_eq by (done || nia). fold s. do 2 f_equal.
    symmetry. apply Z.div_unique with (o - s * i). { left. nia. } lia.
  - intros Hi'. rewrite Hst by lia. split; nia.
Qed.

Lemma splits_tile_witness :
  sizes_ok 100 3 250 ∧ isLarge 100 3 250 = Some (SplitInfo true 3 90) ∧ 1 ≤ 3.
Proof.
  assert (H1 : sizes_ok 100 3 250) by (unfold sizes_ok, KEY_VALUE_METADATA_SIZE, SPLIT_OFFSET_SIZE; lia).
  assert (H2 : isLarge 100 3 250 = Some (SplitInfo true 3 90)) by reflexivity.
  split; [exact H1|]. split; [exact H2|].
  exact (proj1 (splits_tile 100 3 250 3 90 H1 H2)).
Defined.
End LargeObjectUtil.

(** ** KeyValue: objects in memory *)
Module KeyValue.
Import LargeObjectUtil.

Section chunk_size.
Variable chunkSize : Z.

(** [tmp[ 1 ]], [tmp[ 2 ]], [tmp[ 3 ]] of the byte-swapped integer. *)
Definition tmp_bytes (v : Z) : list byte := take 3 (drop 1 (le_bytes 4 (htonl v))).

Definition writeSplitOffset (m : mem) (buf : ptr) (splitOffset : Z) : option mem :=
  store m buf (tmp_bytes splitOffset).

(** The integer rebuilt from three bytes, its lowest byte in memory being 0. *)
Definition from_tmp (bs : list byte) : Z := ntohl (le_val (x00 :: bs)).

Definition readSplitOffset (m : mem) (buf : ptr) : option Z :=
  bs ← load m buf 3; Some (from_tmp bs).

Definition setSize (m : mem) (data : ptr) (keySize valueSize : Z) : option mem :=
  store m data (z2b keySize :: tmp_bytes valueSize).

(** [serialize]: null [key] and [value] pointers leave the bytes alone. *)
Definition serialize (m : mem) (data : ptr) (key : option ptr) (keySize : Z)
    (value : option ptr) (valueSize splitOffset : Z) : option mem :=
  m ← store m data (z2b keySize :: tmp_bytes valueSize);
  let data := data +ₚ KEY_VALUE_METADATA_SIZE in
  m ← (if key is Some k then memcpy m data k keySize else Some m);
  let data := data +ₚ keySize in
  si ← isLarge chunkSize keySize valueSize;
  '(m, data, splitSize) ←
    (if si_large si then
       m ← store m data (tmp_bytes splitOffset);
       Some (m, data +ₚ SPLIT_OFFSET_SIZE, clampSplit valueSize splitOffset (si_size si))
     else Some (m, data, valueSize));
  if value is Some v then memcpy m data v splitSize else Some m.

Record fields := Fields {
  f_key : ptr; f_keySize : Z; f_value : ptr; f_valueSize : Z; f_splitOffset : Z;
}.

Definition deserialize (m : mem) (data : ptr) : option fields :=
  ks ← load8 m data;
  let keySize := b2z ks in
  bs ← load m (data +ₚ 1) 3;
  let valueSize := from_tmp bs in
  let data := data +ₚ KEY_VALUE_METADATA_SIZE in
  let key := data in
  let data := data +ₚ keySize in
  si ← isLarge chunkSize keySize valueSize;
  if si_large si then
    bs ← load m data 3;
    Some (Fields key keySize (data +ₚ SPLIT_OFFSET_SIZE) valueSize (from_tmp bs))
  else Some (Fields key keySize data valueSize 0).

(** The return value of [getSize]; the sizes go to the two out-parameters. *)
Definition getSize (m : mem) (data : ptr) : option (Z * Z * Z) :=
  f ← deserialize m data;
  si ← isLarge chunkSize (f_keySize f) (f_valueSize f);
  let ret :=
    if si_large si then
      u32 (KEY_VALUE_METADATA_SIZE + f_keySize f + SPLIT_OFFSET_SIZE
           + clampSplit (f_valueSize f) (f_splitOffset f) (si_size si))
    else u32 (KEY_VALUE_METADATA_SIZE + f_keySize f + f_valueSize f) in
  Some (ret, f_keySize f, f_valueSize f).

(** [_serialize] and [_deserialize]: the format without splits. *)
Definition _serialize (m : mem) (data : ptr) (key : option ptr) (keySize : Z)
    (value : option ptr) (valueSize : Z) : option mem :=
  m ← store m data (z2b keySize :: tmp_bytes valueSize);
  m ← (if key is Some k then memcpy m (data +ₚ KEY_VALUE_METADATA_SIZE) k keySize else Some m);
  if value is Some v then memcpy m (data +ₚ (KEY_VALUE_METADATA_SIZE + keySize)) v valueSize else Some m.

Definition _deserialize (m : mem) (data : ptr) : option fields :=
  ks ← load8 m data;
  let keySize := b2z ks in
  bs ← load m (data +ₚ 1) 3;
  Some (Fields (data +ₚ KEY_VALUE_METADATA_SIZE) keySize
          (data +ₚ (KEY_VALUE_METADATA_SIZE + keySize)) (from_tmp bs) 0).

(** [key]: the key of an object, large or not when [enableSplit], with the
    bytes its pointer covers. *)
Definition key (m : mem) (data : ptr) (enableSplit : bool) : option Key.Key :=
  if enableSplit then
    f ← deserialize m data;
    si ← isLarge chunkSize (f_keySize f) (f_valueSize f);
    kd ← load m (f_key f) (f_keySize f + if si_large si then SPLIT_OFFSET_SIZE else 0);
    Some (Key.MkKey (f_keySize f) kd (si_large si))
  else
    ks ← load8 m data;
    kd ← load m (data +ₚ KEY_VALUE_METADATA_SIZE) (b2z ks);
    Some (Key.MkKey (b2z ks) kd false).

Definition getChunkUpdateOffset (chunkOffset keySize valueUpdateOffset : Z) (large : bool) : Z :=
  u32 (chunkOffset + KEY_VALUE_METADATA_SIZE + keySize + valueUpdateOffset
       + (if large then SPLIT_OFFSET_SIZE else 0)).

(** [dup]: a copy on the heap. *)
Definition dup (junk : nat → Z → byte) (m : mem) (key : option ptr) (keySize : Z)
    (value : option ptr) (valueSize splitOffset : Z) : option (ptr * mem) :=
  si ← isLarge chunkSize keySize valueSize;
  let splitSize := if si_large si then clampSplit valueSize splitOffset (si_size si) else valueSize in
  let '(p, m) := malloc junk m
    (u32 (keySize + splitSize + (if si_large si then SPLIT_OFFSET_SIZE else 0) + KEY_VALUE_METADATA_SIZE)) in
  m ← serialize m p key keySize value valueSize splitOffset;
  Some (p, m).

(** ** The object format *)

(** Number of value bytes in the object, and the bytes of the object. *)
Definition is_large (keySize valueSize : Z) : bool := bool_decide (chunkSize < 4 + keySize + valueSize).
Definition payload_len (keySize valueSize splitOffset : Z) : Z :=
  if is_large keySize valueSize then Z.min (chunkSize - 7 - keySize) (valueSize - splitOffset) else valueSize.
Definition split_bytes (keySize valueSize splitOffset : Z) : list byte :=
  if is_large keySize valueSize then be_bytes 3 splitOffset else [].
Definition format (valueSize splitOffset : Z) (kb vb : list byte) : list byte :=
  (z2b (zlen kb) :: be_bytes 3 valueSize) ++ kb ++ split_bytes (zlen kb) valueSize splitOffset ++ vb.

(** An object the program can store: sizes in range, the split offset inside
    the value, as many value bytes as the format holds. *)
Definition format_ok (valueSize splitOffset : Z) (kb vb : list byte) : Prop :=
  sizes_ok chunkSize (zlen kb) valueSize ∧
  0 ≤ splitOffset ≤ valueSize ∧
  zlen vb = payload_len (zlen kb) valueSize splitOffset ∧
  (is_large (zlen kb) valueSize = false → splitOffset = 0).

Lemma tmp_bytes_eq v : tmp_bytes v = be_bytes 3 v.
Proof.
  unfold tmp_bytes, htonl. rewrite le_bytes_bswap. unfold be_bytes, le_bytes. done.
Qed.

Lemma from_tmp_be bs : length bs = 3%nat → from_tmp bs = be_val bs.
Proof.
  intros Hl. unfold from_tmp, ntohl.
  assert (H : bswap (length (x00 :: bs)) (le_val (x00 :: bs)) = be_val (x00 :: bs)) by apply bswap_le_val.
  simpl in H. rewrite Hl in H. rewrite H. unfold be_val. simpl rev.
  destruct bs as [|b1 [|b2 [|b3 [|]]]]; simpl in Hl; try lia. simpl. unfold le_val. change (b2z x00) with 0. lia.
Qed.

Lemma from_tmp_bytes v : 0 ≤ v < 2 ^ 24 → from_tmp (be_bytes 3 v) = v.
Proof.
  intros. rewrite from_tmp_be by apply length_be_bytes. rewrite be_val_be_bytes.
  apply Z.mod_small. done.
Qed.

Lemma isLarge_is_large ks vs : sizes_ok chunkSize ks vs →
  ∃ si, isLarge chunkSize ks vs = Some si ∧ si_large si = is_large ks vs ∧
    (is_large ks vs = true → si_size si = chunkSize - 7 - ks) ∧
    (is_large ks vs = false → si_size si = vs).
Proof.
  intros H. destruct (splitSize_small _ _ _ H) as [Hs _]. unfold is_large.
  destruct (isLarge_cases _ _ _ H) as [[Hl ->]|[Hl ->]]; eexists; (split; [done|]); simpl.
  - rewrite bool_decide_eq_true_2 by done. rewrite Hs. done.
  - rewrite bool_decide_eq_false_2 by lia. done.
Qed.

Lemma zlen_split_bytes ks vs so : zlen (split_bytes ks vs so) = if is_large ks vs then 3 else 0.
Proof. unfold split_bytes. destruct (is_large ks vs); [|done]. unfold zlen. by rewrite length_be_bytes. Qed.

Lemma zlen_format vs so kb vb : zlen (format vs so kb vb) = 4 + zlen kb + (if is_large (zlen kb) vs then 3 else 0) + zlen vb.
Proof.
  unfold format. pose proof (zlen_split_bytes (zlen kb) vs so). unfold zlen in *.
  rewrite !length_app. simpl. lia.
Qed.

Lemma format_fits vs so kb vb : format_ok vs so kb vb → 4 ≤ zlen (format vs so kb vb) ≤ chunkSize.
Proof.
  intros ((? & ? & ?) & ? & Hv & Hs). rewrite zlen_format, Hv. unfold payload_len, is_large in *.
  unfold KEY_VALUE_METADATA_SIZE, SPLIT_OFFSET_SIZE in *.
  case_bool_decide; lia.
Qed.
(** Reading an object in the format. *)
Lemma slice_format vs so kb vb :
  let F := format vs so kb vb in
  let sb := split_bytes (zlen kb) vs so in
  slice F 1 3 = Some (be_bytes 3 vs) ∧ slice F 4 (zlen kb) = Some kb ∧
  slice F (4 + zlen kb) (zlen sb) = Some sb ∧
  slice F (4 + zlen kb + zlen sb) (zlen vb) = Some vb.
Proof.
  intros F sb. unfold F, format. fold sb.
  assert (Hh : ∀ r, z2b (zlen kb) :: be_bytes 3 vs ++ r = ([z2b (zlen kb)] ++ be_bytes 3 vs) ++ r) by done.
  assert (Hl : zlen ([z2b (zlen kb)] ++ be_bytes 3 vs) = 4).
  { unfold zlen. rewrite length_app, length_be_bytes. done. }
  split_and!.
  - apply (slice_app_mid [z2b (zlen kb)] (be_bytes 3 vs)); [done|unfold zlen; by rewrite length_be_bytes].
  - apply (slice_app_mid ([z2b (zlen kb)] ++ be_bytes 3 vs) kb); [by rewrite Hl|done].
  - change ((z2b (zlen kb) :: be_bytes 3 vs) ++ kb ++ sb ++ vb)
      with (([z2b (zlen kb)] ++ be_bytes 3 vs) ++ kb ++ sb ++ vb).
    rewrite (app_assoc _ kb). apply slice_app_mid; [|done]. unfold zlen in *. rewrite length_app. lia.
  - change ((z2b (zlen kb) :: be_bytes 3 vs) ++ kb ++ sb ++ vb)
      with (([z2b (zlen kb)] ++ be_bytes 3 vs) ++ kb ++ sb ++ vb).
    rewrite (app_assoc _ kb), (app_assoc _ sb). rewrite <- (app_nil_r vb) at 1.
    apply slice_app_mid; [|done]. unfold zlen in *. rewrite !length_app in *. lia.
Qed.

Lemma deserialize_format m data vs so kb vb :
  format_ok vs so kb vb → load m data (zlen (format vs so kb vb)) = Some (format vs so kb vb) →
  let vp := data +ₚ (4 + zlen kb + zlen (split_bytes (zlen kb) vs so)) in
  deserialize m data = Some (Fields (data +ₚ 4) (zlen kb) vp vs so) ∧
  load m (data +ₚ 4) (zlen kb) = Some kb ∧ load m vp (zlen vb) = Some vb.
Proof.
  intros Hok Hl vp. destruct (slice_format vs so kb vb) as (H1 & H2 & H3 & H4).
  pose proof Hok as ((Hk & Hv & Hc) & Hso & Hvb & Hs0).
  pose proof (zlen_format vs so kb vb) as HF. pose proof (zlen_split_bytes (zlen kb) vs so) as Hsb.
  assert (0 ≤ zlen kb) by lia. assert (0 ≤ zlen vb) by (unfold zlen; lia).
  assert (Hks : b2z (z2b (zlen kb)) = zlen kb) by (apply b2z_small; lia).
  assert (Lk : load m (data +ₚ 4) (zlen kb) = Some kb).
  { rewrite (load_sub _ _ _ _ _ _ Hl); [done|lia..|]. destruct (is_large _ _); lia. }
  assert (Lv : load m vp (zlen vb) = Some vb).
  { unfold vp. rewrite (load_sub _ _ _ _ _ _ Hl); [done|..]; rewrite ?Hsb, ?HF; destruct (is_large _ _); lia. }
  split; [|done]. unfold deserialize, load8, KEY_VALUE_METADATA_SIZE.
  rewrite (load_mget _ _ _ _ Hl) by (destruct (is_large _ _); lia). simpl. rewrite Hks.
  rewrite (load_sub _ _ _ _ 1 3 Hl) by (destruct (is_large _ _); lia). rewrite H1. simpl.
  rewrite from_tmp_bytes by lia.
  destruct (isLarge_is_large (zlen kb) vs) as (si & Hsi & Hlg & _); [apply Hok|].
  rewrite Hsi. simpl. rewrite Hlg. unfold vp. rewrite !padd_padd. unfold split_bytes in *.
  destruct (is_large (zlen kb) vs) eqn:E.
  - rewrite (load_sub _ _ _ _ _ _ Hl) by lia. unfold zlen in H3 at 2. rewrite length_be_bytes in H3.
    change (Z.of_nat 3) with 3 in H3. rewrite H3. simpl. rewrite from_tmp_bytes by lia.
    rewrite Hsb, Z.add_assoc. done.
  - rewrite Hs0 by done. rewrite Z.add_0_r. done.
Qed.

Lemma payload_clamp ks vs so si :
  sizes_ok chunkSize ks vs → 0 ≤ so ≤ vs → isLarge chunkSize ks vs = Some si →
  (if si_large si then clampSplit vs so (si_size si) else vs) = payload_len ks vs so.
Proof.
  intros Hok Hso Hsi. pose proof Hok as (? & ? & ?). unfold KEY_VALUE_METADATA_SIZE, SPLIT_OFFSET_SIZE in *.
  destruct (isLarge_is_large ks vs Hok) as (si' & Hsi' & Hlg & Hl & _). rewrite Hsi in Hsi'. simplify_eq.
  rewrite Hlg. unfold payload_len. destruct (is_large ks vs) eqn:E; [|done].
  rewrite Hl by done. apply clampSplit_eq; lia.
Qed.

Lemma getSize_format m data vs so kb vb :
  format_ok vs so kb vb → load m data (zlen (format vs so kb vb)) = Some (format vs so kb vb) →
  getSize m data = Some (zlen (format vs so kb vb), zlen kb, vs).
Proof.
  intros Hok Hl. destruct (deserialize_format _ _ _ _ _ _ Hok Hl) as (Hd & _).
  unfold getSize. rewrite Hd. simpl. pose proof Hok as (Hsz & Hso & Hvb & _).
  destruct (isLarge_is_large (zlen kb) vs Hsz) as (si & Hsi & Hlg & _). rewrite Hsi. simpl.
  pose proof (payload_clamp _ _ _ _ Hsz Hso Hsi) as Hp.
  pose proof (format_fits _ _ _ _ Hok) as Hfit. destruct Hsz as (? & ? & ?).
  rewrite zlen_format in *. rewrite Hlg in *. unfold KEY_VALUE_METADATA_SIZE, SPLIT_OFFSET_SIZE.
  destruct (is_large _ _); rewrite Hp, <- Hvb, u32_small by lia; do 3 f_equal; lia.
Qed.

(** Writing an object is one store of its bytes in the format. *)
Lemma serialize_format m data k v vs so kb vb :
  format_ok vs so kb vb → let n := zlen (format vs so kb vb) in
  valid m data n → load m k (zlen kb) = Some kb → load m v (zlen vb) = Some vb →
  apart data n k (zlen kb) → apart data n v (zlen vb) →
  serialize m data (Some k) (zlen kb) (Some v) vs so = store m data (format vs so kb vb).
Proof.
  intros Hok n Hval Hk Hv Hak Hav. pose proof Hok as (Hsz & Hso & Hvb & _).
  destruct (isLarge_is_large (zlen kb) vs Hsz) as (si & Hsi & Hlg & _).
  pose proof (payload_clamp _ _ _ _ Hsz Hso Hsi) as Hp.
  unfold serialize, KEY_VALUE_METADATA_SIZE, SPLIT_OFFSET_SIZE. rewrite !tmp_bytes_eq.
  set (hdr := z2b (zlen kb) :: be_bytes 3 vs).
  assert (Hhdr : zlen hdr = 4) by done.
  assert (Hn : n = 4 + zlen kb + (if is_large (zlen kb) vs then 3 else 0) + zlen vb) by apply zlen_format.
  assert (0 ≤ zlen kb) by (unfold zlen; lia). assert (0 ≤ zlen vb) by (unfold zlen; lia).
  unfold format. fold hdr. rewrite store_app.
  destruct (store_is_Some m data hdr) as [m1 S1].
  { rewrite <- (padd_0 data). eapply valid_sub; [done|lia..|]. destruct (is_large _ _); lia. }
  rewrite S1, Hhdr. simpl. pose proof (store_shape _ _ _ _ S1) as Sh1.
  rewrite (memcpy_apart m1 _ k _ kb).
  2:{ rewrite (load_store_other _ _ _ _ _ _ S1); [done|]. rewrite <- (padd_0 data).
      eapply apart_sub; [done|lia|]. destruct (is_large _ _); lia. }
  2:{ eapply apart_sub; [done|lia|]. destruct (is_large _ _); lia. }
  rewrite store_app.
  destruct (store_is_Some m1 (data +ₚ 4) kb) as [m2 S2].
  { rewrite <- Sh1. eapply valid_sub; [done|lia..|]. destruct (is_large _ _); lia. }
  rewrite S2. simpl. pose proof (store_shape _ _ _ _ S2) as Sh2.
  rewrite Hsi. simpl. rewrite Hlg in *. rewrite !padd_padd.
  assert (L2 : load m2 v (zlen vb) = Some vb).
  { rewrite (load_store_other _ _ _ _ _ _ S2).
    - rewrite (load_store_other _ _ _ _ _ _ S1); [done|]. rewrite <- (padd_0 data).
      eapply apart_sub; [done|lia|]. destruct (is_large _ _); lia.
    - eapply apart_sub; [done|lia|]. destruct (is_large _ _); lia. }
  unfold split_bytes. destruct (is_large (zlen kb) vs) eqn:E.
  - rewrite store_app. destruct (store_is_Some m2 (data +ₚ (4 + zlen kb)) (be_bytes 3 so)) as [m3 S3].
    { rewrite <- Sh2, <- Sh1. eapply valid_sub; [done|lia|unfold zlen; lia|].
      unfold zlen at 2. rewrite length_be_bytes. lia. }
    rewrite S3. simpl. rewrite Hp, <- Hvb. change (zlen (be_bytes 3 so)) with 3.
    unfold SPLIT_OFFSET_SIZE. rewrite !padd_padd, !Z.add_assoc. apply memcpy_apart.
    + rewrite (load_store_other _ _ _ _ _ _ S3); [done|].
      eapply apart_sub; [done|lia|]. change (zlen (be_bytes 3 so)) with 3. lia.
    + eapply apart_sub; [done|lia|lia].
  - simpl. rewrite Hp, <- Hvb. apply memcpy_apart; [done|].
    eapply apart_sub; [done|lia|lia].
Qed.
End chunk_size.

(** C36: an object written with [serialize] is read back by [deserialize].
    Both stay inside the object's buffer; the sizes, the split offset, the key
    bytes and the value bytes are those written, [getSize] is the number of
    bytes of the object, which fits the chunk, and nothing outside the buffer
    changes. *)
Theorem serialize_roundtrip (chunkSize : Z) (m : mem) (data k v : ptr) (vs so : Z) (kb vb : list byte) :
  format_ok chunkSize vs so kb vb →
  let n := zlen (format chunkSize vs so kb vb) in
  valid m data n → load m k (zlen kb) = Some kb → load m v (zlen vb) = Some vb →
  apart data n k (zlen kb) → apart data n v (zlen vb) →
  ∃ m' f,
    serialize chunkSize m data (Some k) (zlen kb) (Some v) vs so = Some m' ∧
    deserialize chunkSize m' data = Some f ∧
    f_keySize f = zlen kb ∧ f_valueSize f = vs ∧ f_splitOffset f = so ∧
    load m' (f_key f) (zlen kb) = Some kb ∧ load m' (f_value f) (zlen vb) = Some vb ∧
    getSize chunkSize m' data = Some (n, zlen kb, vs) ∧ n ≤ chunkSize ∧
    ∀ q i, apart data n q i → load m' q i = load m q i.
Proof.
  intros Hok n Hval Hk Hv Hak Hav.
  destruct (store_is_Some m data (format chunkSize vs so kb vb) Hval) as [m' Hm'].
  pose proof (load_store_eq _ _ _ _ Hm') as Hl.
  destruct (deserialize_format chunkSize m' data vs so kb vb Hok Hl) as (Hd & Lk & Lv).
  eexists m', _. rewrite (serialize_format chunkSize m data k v vs so kb vb) by done.
  split_and!; [done|exact Hd|done|done|done|exact Lk|exact Lv| | |].
  - by apply getSize_format.
  - apply format_fits. done.
  - intros q i Hq. by eapply load_store_other.
Qed.

Lemma serialize_roundtrip_witness :
  let m : mem := {[ 0%nat := replicate 64 x00; 1%nat := [z2b 107; z2b 118] ]} in
  ∃ m' f, serialize 64 m (Ptr 0 0) (Some (Ptr 1 0)) 1 (Some (Ptr 1 1)) 1 0 = Some m' ∧
    deserialize 64 m' (Ptr 0 0) = Some f ∧ f_keySize f = 1.
Proof.
  intros m.
  assert (Hok : format_ok 64 1 0 [z2b 107] [z2b 118]).
  { unfold format_ok, sizes_ok, KEY_VALUE_METADATA_SIZE, SPLIT_OFFSET_SIZE.
    split; [change (zlen [z2b 107]) with 1; lia|]. split; [lia|]. split; [reflexivity|reflexivity]. }
  assert (Hv : valid m (Ptr 0 0) (zlen (format 64 1 0 [z2b 107] [z2b 118]))).
  { split; [vm_compute; discriminate|]. exists (replicate 64 x00). split; [reflexivity|].
    split; vm_compute; discriminate. }
  destruct (serialize_roundtrip 64 m (Ptr 0 0) (Ptr 1 0) (Ptr 1 1) 1 0 [z2b 107] [z2b 118] Hok Hv)
    as (m' & f & H1 & H2 & H3 & _); [reflexivity|reflexivity|left; discriminate|left; discriminate|].
  exists m', f. split; [exact H1|]. split; [exact H2|exact H3].
Defined.
End KeyValue.
