(* ===== verification/KeyMap.v ===== *)
(** * Hash tables of keys: std::unordered_map< Key, V >

    The standard container with [std::hash< Key >] and [Key::operator==]
    (common/ds/key.hh), as the list of its pairs in the order of iteration.
    A pair is found by its hash first and [operator==] then.  On keys that
    these two tell apart, such as keys without NUL bytes, the container is a
    finite map. *)

From S2P Require Export KeyValue HashFunc.

Module KeyMap.
Import Key.

#[export] Existing Instance Key_eq_dec.
#[export] Instance Key_countable : Countable Key :=
  inj_countable (λ k, (size k, data k, isLarge k))
    (λ t, Some (MkKey t.1.1 t.1.2 t.2)) (λ k, match k with MkKey _ _ _ => eq_refl end).

(** [std::hash< Key >]. *)
Definition hash (k : Key) : option Z := hash1 (data k) (size k + if isLarge k then SPLIT_OFFSET_SIZE else 0).

Definition same_key (k1 k2 : Key) : option bool :=
  h1 ← hash k1; h2 ← hash k2;
  if decide (h1 = h2) then equal k1 k2 else Some false.

(** [Key::set] on the [size] bytes at [p], or three more for a large object. *)
Definition Key_set (m : mem) (size : Z) (p : ptr) (isLarge : bool) : option Key :=
  bs ← load m p (size + if isLarge then SPLIT_OFFSET_SIZE else 0); Some (MkKey size bs isLarge).

(** [Key::dup( 0, 0, 0, isLarge )]: a copy of the bytes, on the heap.  How many
    they are is computed in 8 bits. *)
Definition Key_dup (k : Key) (isLarge : bool) : option Key :=
  bs ← slice (data k) 0 (u8 (size k + if isLarge then SPLIT_OFFSET_SIZE else 0)); Some (MkKey (size k) bs isLarge).

Section key_map.
Context {V : Type}.

Definition key_map : Type := list (Key * V).

(** [find]: the pair found, [None] for [end()]. *)
Fixpoint find (t : key_map) (key : Key) : option (option (Key * V)) :=
  match t with
  | [] => Some None
  | kv :: t' => b ← same_key kv.1 key; if (b : bool) then Some (Some kv) else find t' key
  end.

(** [insert]: false when the key is there already. *)
Definition insert (t : key_map) (key : Key) (v : V) : option (bool * key_map) :=
  r ← find t key;
  match r with Some _ => Some (false, t) | None => Some (true, t ++ [(key, v)]) end.

(** [erase( key )], which also is the effect of [erase( find( key ) )]. *)
Fixpoint erase (t : key_map) (key : Key) : option key_map :=
  match t with
  | [] => Some []
  | kv :: t' => b ← same_key kv.1 key;
      if (b : bool) then Some t' else t'' ← erase t' key; Some (kv :: t'')
  end.
End key_map.
Arguments key_map : clear implicits.

(** ** A finite map *)

(** Is the key copied in full? *)
Definition dup_fits (k : Key) : Prop := size k + (if isLarge k then SPLIT_OFFSET_SIZE else 0) < 2 ^ 8.

(** Keys that hash and comparison tell apart, and that are copied in full. *)
Definition discriminated (K : Key → Prop) : Prop :=
  (∀ k1 k2, K k1 → K k2 → same_key k1 k2 = Some (bool_decide (k1 = k2))) ∧ ∀ k, K k → dup_fits k.

Lemma hash_wf k : wf k → hash k = Some (hash_of (data k)).
Proof.
  intros [Hs Hl]. unfold hash. rewrite <- (hash1_whole (data k)). f_equal.
  unfold zlen. rewrite Hl. unfold cmp_size, SPLIT_OFFSET_SIZE. destruct (isLarge k); lia.
Qed.

(** Well-formed keys without NUL bytes, of fewer than 253 bytes when they are
    large. *)
Definition plain (k : Key) : Prop := wf k ∧ nul_free k ∧ dup_fits k.

Lemma same_key_total k1 k2 : wf k1 → wf k2 →
  ∃ b, same_key k1 k2 = Some b ∧ (k1 = k2 → b = true) ∧ (nul_free k1 → b = true → k1 = k2).
Proof.
  intros H1 H2. unfold same_key. rewrite !hash_wf by done. cbn [mbind option_bind].
  destruct (decide (hash_of (data k1) = hash_of (data k2))) as [_|Hne].
  - unfold equal. destruct (decide (size k1 = size k2 ∧ isLarge k1 = isLarge k2)) as [[Hsz Hlg]|Hd].
    + pose proof H1 as [_ Hl1]. pose proof H2 as [_ Hl2].
      assert (Hc : cmp_size k2 = cmp_size k1) by (unfold cmp_size; by rewrite Hsz, Hlg).
      destruct (strncmp_total (data k1) (data k2) (cmp_size k1)) as [r Hr]; [lia|lia|]. rewrite Hr. cbn [mbind option_bind].
      eexists. split; [done|]. split.
      * intros ->. rewrite strncmp_refl in Hr by lia. injection Hr as <-. done.
      * intros Hn Ht%bool_decide_eq_true_1. subst r.
        rewrite strncmp_zero in Hr by (try lia; unfold nul_free in Hn; rewrite <- Hl1, firstn_all; done).
        rewrite <- Hl1 in Hr at 1. rewrite <- Hc, <- Hl2, !firstn_all in Hr.
        destruct k1, k2; simpl in *; congruence.
    + exists false. split; [done|]. split; [|done]. intros ->. by destruct Hd.
  - exists false. split; [done|]. split; [|done]. intros ->. done.
Qed.

Lemma plain_discriminated : discriminated plain.
Proof.
  split; [|by intros k (_ & _ & H)]. intros k1 k2 (W1 & N1 & _) (W2 & _). destruct (same_key_total k1 k2 W1 W2) as (b & -> & Hr & He). f_equal.
  destruct b; symmetry; [apply bool_decide_eq_true_2; auto|apply bool_decide_eq_false_2]. intros H. by specialize (Hr H).
Qed.

(** The bytes at [p] make up the key [k]. *)
Lemma Key_set_load m p k : wf k → load m p (zlen (data k)) = Some (data k) → Key_set m (size k) p (isLarge k) = Some k.
Proof.
  intros [Hs Hl] Hld. unfold Key_set.
  assert (E : zlen (data k) = size k + if isLarge k then SPLIT_OFFSET_SIZE else 0).
  { unfold zlen. rewrite Hl. unfold cmp_size, SPLIT_OFFSET_SIZE. destruct (isLarge k); lia. }
  rewrite <- E, Hld. by destruct k.
Qed.

Lemma Key_dup_same k : wf k → dup_fits k → Key_dup k (isLarge k) = Some k.
Proof.
  intros [Hs Hl] Hf. unfold Key_dup, dup_fits in *.
  assert (E : zlen (data k) = size k + if isLarge k then SPLIT_OFFSET_SIZE else 0).
  { unfold zlen. rewrite Hl. unfold cmp_size, SPLIT_OFFSET_SIZE. destruct (isLarge k); lia. }
  rewrite <- E in Hf |- *. rewrite u8_small by (unfold zlen in *; lia).
  unfold slice, zlen. rewrite decide_True by lia. rewrite Nat2Z.id. simpl. rewrite drop_0, firstn_all. by destruct k.
Qed.

Section finite_map.
Context {V : Type} (K : Key → Prop) (HK : discriminated K).

Lemma Key_dup_K k : K k → wf k → Key_dup k (isLarge k) = Some k.
Proof. intros HKk Hw. apply Key_dup_same; [done|]. by apply HK. Qed.

(** [t] holds the map [M], all of whose keys are among [K]. *)
Definition holds_map (t : key_map V) (M : gmap Key V) : Prop :=
  NoDup t.*1 ∧ Forall K t.*1 ∧ M = list_to_map t.

Lemma holds_empty : holds_map [] ∅.
Proof. split; [apply NoDup_nil_2|]. done. Qed.

Lemma holds_keys t M k : holds_map t M → K k → is_Some (M !! k) → k ∈ t.*1.
Proof. intros (Hn & _ & ->) _ [v Hv]. apply elem_of_list_to_map in Hv; [|done]. apply list_elem_of_fmap. by exists (k, v). Qed.

Lemma holds_K t M k : holds_map t M → is_Some (M !! k) → K k.
Proof.
  intros (Hn & Hk & ->) [v Hv]. apply elem_of_list_to_map in Hv; [|done].
  rewrite Forall_forall in Hk. apply Hk. apply list_elem_of_fmap. by exists (k, v).
Qed.

Lemma find_spec t M k : holds_map t M → K k → find t k = Some ((λ v, (k, v)) <$> M !! k).
Proof.
  intros (Hn & Hk & ->) HKk. induction t as [|[k' v] t IH]; simpl.
  - by rewrite lookup_empty.
  - simpl in Hn, Hk. apply NoDup_cons in Hn as [Hni Hn]. apply Forall_cons in Hk as [HKk' Hk].
    rewrite (proj1 HK k' k) by done. cbn [mbind option_bind]. case_bool_decide as Heq.
    + subst. by rewrite lookup_insert_eq.
    + rewrite lookup_insert_ne by done. by apply IH.
Qed.

Lemma insert_spec t M k v : holds_map t M → K k →
  ∃ t', insert t k v = Some (bool_decide (M !! k = None), t') ∧ holds_map t' (if decide (M !! k = None) then <[k := v]> M else M).
Proof.
  intros Ht HKk. unfold insert. rewrite (find_spec t M k Ht HKk). cbn [mbind option_bind].
  destruct (M !! k) as [w|] eqn:E; simpl.
  - exists t. split; [done|]. done.
  - exists (t ++ [(k, v)]). split; [done|].
    destruct Ht as (Hn & Hk & ->).
    assert (Hni : k ∉ t.*1) by by apply not_elem_of_list_to_map.
    split; [|split].
    + rewrite fmap_app. apply NoDup_app. split; [done|]. split; [|apply NoDup_singleton].
      intros x Hx Hx'. apply list_elem_of_singleton in Hx'. by subst.
    + rewrite fmap_app. apply Forall_app. split; [done|]. by apply Forall_singleton.
    + rewrite list_to_map_app. simpl. rewrite insert_empty. rewrite <- insert_union_singleton_r; [done|].
      done.
Qed.

Lemma erase_spec t M k : holds_map t M → K k → ∃ t', erase t k = Some t' ∧ holds_map t' (delete k M).
Proof.
  intros (Hn & Hk & ->) HKk. induction t as [|[k' v] t IH]; simpl.
  - exists []. split; [done|]. rewrite delete_empty. apply holds_empty.
  - simpl in Hn, Hk. apply NoDup_cons in Hn as [Hni Hn]. apply Forall_cons in Hk as [HKk' Hk].
    rewrite (proj1 HK k' k) by done. cbn [mbind option_bind]. case_bool_decide as Heq.
    + subst. exists t. split; [done|]. split; [done|]. split; [done|]. rewrite delete_insert_eq.
      by rewrite delete_id by by apply not_elem_of_list_to_map.
    + destruct (IH Hn Hk) as (t' & -> & Hn' & Hk' & Hm). cbn [mbind option_bind]. exists ((k', v) :: t'). split; [done|].
      assert (Hsub : k' ∉ t'.*1).
      { apply not_elem_of_list_to_map. rewrite <- Hm. rewrite lookup_delete_None. right. by apply not_elem_of_list_to_map. }
      split; [by apply NoDup_cons|]. split; [by apply Forall_cons|]. simpl. rewrite <- Hm. by rewrite delete_insert_ne.
Qed.
End finite_map.
End KeyMap.
