(* ===== verification/CuckooHash.v ===== *)
(** * CuckooHash: the hash table of objects and chunks
      (common/hash/cuckoo_hash.{hh,cc})

    A table of buckets of four pointers; a pointer lives in one of the two
    buckets its hash selects.  The table reads the keys from the objects the
    pointers refer to, so every operation takes the memory.  The build options
    of the repository are modelled: no tags in the buckets, paths of width 1,
    fine-grained locks (every operation is one atomic step).  [rand] is an
    arbitrary sequence of non-negative numbers.

    [cuckoo_refines_map]: the table implements a finite map from keys to
    pointers. *)

From S2P Require Export KeyValue HashFunc.

Module CuckooHash.

Definition MAX_CUCKOO_COUNT : Z := 500.
Definition BUCKET_SIZE : Z := 4.
Definition TAG_MASK : Z := 255.

(** An entry of the path: [cp[ depth ][ 0 ]]. *)
Record cp_entry := CP { cp_bucket : Z; cp_slot : Z; cp_ptr : option ptr }.

(** [slots] is [buckets[ i ].ptr[ j ]] at index [4 * i + j] (the struct is
    packed); [rands] counts the calls of [rand]. *)
Record table := Table {
  keySize : Z;
  hashPower : Z;
  slots : list (option ptr);
  kickCount : Z;
  cp : list cp_entry;
  rands : nat;
}.

Definition size (t : table) : Z := u32 (Z.shiftl 1 (hashPower t)).
Definition hashMask (t : table) : Z := u32 (size t - 1).

(** [init] and [setKeySize]; the path is uninitialised ([cp0]). *)
Definition init (power ks : Z) (cp0 : list cp_entry) : table :=
  Table ks power (replicate (Z.to_nat (4 * u32 (Z.shiftl 1 power))) None) 0 cp0 0.
Definition setKeySize (t : table) (ks : Z) : table :=
  Table ks (hashPower t) (slots t) (kickCount t) (cp t) (rands t).

Definition set_slots (t : table) (s : list (option ptr)) : table :=
  Table (keySize t) (hashPower t) s (kickCount t) (cp t) (rands t).
Definition set_cp (t : table) (c : list cp_entry) : table :=
  Table (keySize t) (hashPower t) (slots t) (kickCount t) c (rands t).
Definition set_kick (t : table) (k : Z) : table :=
  Table (keySize t) (hashPower t) (slots t) k (cp t) (rands t).
Definition set_rands (t : table) (n : nat) : table :=
  Table (keySize t) (hashPower t) (slots t) (kickCount t) (cp t) n.

(** ** Hashing *)
Definition indexHash (t : table) (hashValue : Z) : Z := Z.shiftr hashValue (32 - hashPower t).
Definition tagHash (hashValue : Z) : Z :=
  let r := Z.land hashValue TAG_MASK in u8 (r + (if decide (r = 0) then 1 else 0)).
Definition altIndex (t : table) (index tag : Z) : Z :=
  Z.land (Z.lxor index (u32 (Z.land tag TAG_MASK * 0x5bd1e995))) (hashMask t).
Definition lockIndex (i1 i2 : Z) : Z := if decide (i1 < i2) then i1 else i2.

Definition slot_get (t : table) (i j : Z) : option (option ptr) :=
  if decide (0 ≤ j < BUCKET_SIZE) then zget (slots t) (4 * i + j) else None.
Definition slot_set (t : table) (i j : Z) (p : option ptr) : option table :=
  if decide (0 ≤ j < BUCKET_SIZE) then s ← zset (slots t) (4 * i + j) p; Some (set_slots t s) else None.

(** The hash of a lookup key: the first split of a large object hashes as the
    key without its offset. *)
Definition lookup_hash (key : list byte) (ks : Z) (isLarge : bool) : option Z :=
  h ← hash1 key (ks + if isLarge then SPLIT_OFFSET_SIZE else 0);
  if isLarge then
    split ← slice key ks SPLIT_OFFSET_SIZE;
    if forallb (λ b, bool_decide (b = x00)) split then hash1 key ks else Some h
  else Some h.

Section table.
Variables (chunkSize : Z) (rand : nat → Z) (m : mem).

(** Does the object at [p] have the key?  [keySize] 0 compares the keys of
    objects, otherwise [keySize] bytes are compared. *)
Definition matches (t : table) (p : ptr) (target : Key.Key) : option bool :=
  if decide (keySize t = 0) then
    k ← KeyValue.key chunkSize m p true; Key.equal k target
  else
    a ← load m p (keySize t);
    b ← slice (Key.data target) 0 (keySize t);
    Some (bool_decide (a = b)).

(** ** Lookup *)
Fixpoint find_slot (t : table) (i j : Z) (target : Key.Key) (n : nat) : option (option (ptr * Z)) :=
  match n with
  | O => Some None
  | S n' =>
      s ← slot_get t i j;
      match s with
      | None => find_slot t i (j + 1) target n'
      | Some p => b ← matches t p target;
          if (b : bool) then Some (Some (p, j)) else find_slot t i (j + 1) target n'
      end
  end.

(** [tryRead] gives up at the first empty slot. *)
Fixpoint tryRead_from (t : table) (i j : Z) (target : Key.Key) (n : nat) : option (option ptr) :=
  match n with
  | O => Some None
  | S n' =>
      s ← slot_get t i j;
      match s with
      | None => Some None
      | Some p => b ← matches t p target;
          if (b : bool) then Some (Some p) else tryRead_from t i (j + 1) target n'
      end
  end.
Definition tryRead (t : table) (key : list byte) (ks i : Z) : option (option ptr) :=
  tryRead_from t i 0 (Key.MkKey ks key false) 4.

Definition find (t : table) (key : list byte) (ks : Z) (isLarge : bool) : option (option ptr) :=
  hashValue ← lookup_hash key ks isLarge;
  let i1 := indexHash t hashValue in
  let i2 := altIndex t i1 (tagHash hashValue) in
  let target := Key.MkKey ks key isLarge in
  r ← find_slot t i1 0 target 4;
  match r with
  | Some (p, _) => Some (Some p)
  | None =>
      r ← find_slot t i2 0 target 4;
      match r with Some (p, _) => Some (Some p) | None => Some None end
  end.

(** ** Insertion *)
Fixpoint empty_slot (t : table) (i j : Z) (n : nat) : option (option Z) :=
  match n with
  | O => Some None
  | S n' => s ← slot_get t i j; if s is None then Some (Some j) else empty_slot t i (j + 1) n'
  end.

Definition tryAdd (t : table) (p : ptr) (i : Z) : option (bool * table) :=
  r ← empty_slot t i 0 4;
  match r with
  | Some j => t ← slot_set t i j (Some p); Some (true, t)
  | None => Some (false, t)
  end.

(** The hash of a stored object, as [cpSearch] recomputes it. *)
Definition stored_hash (t : table) (p : ptr) : option Z :=
  if decide (keySize t = 0) then
    f ← KeyValue.deserialize chunkSize m p;
    si ← LargeObjectUtil.isLarge chunkSize (KeyValue.f_keySize f) (KeyValue.f_valueSize f);
    let d := if LargeObjectUtil.si_large si then SPLIT_OFFSET_SIZE else 0 in
    bs ← load m (KeyValue.f_key f +ₚ - d) (KeyValue.f_keySize f + d);
    hash1 bs (KeyValue.f_keySize f + d)
  else bs ← load m p (keySize t); hash1 bs (keySize t).

(** [cpSearch]: the depth at which the path ends in an empty slot, or -1. *)
Fixpoint cpSearch (fuel : nat) (t : table) (depth : Z) : option (Z * table) :=
  match fuel with
  | O => None
  | S fuel' =>
      if decide (kickCount t < MAX_CUCKOO_COUNT ∧ depth < MAX_CUCKOO_COUNT - 1) then
        e ← zget (cp t) depth;
        let i := cp_bucket e in
        r ← empty_slot t i 0 4;
        match r with
        | Some j =>
            c ← zset (cp t) depth (CP i j (cp_ptr e));
            Some (depth, set_cp t c)
        | None =>
            let j := rand (rands t) mod BUCKET_SIZE in
            s ← slot_get t i j;
            p ← s;
            c ← zset (cp t) depth (CP i j (Some p));
            h ← stored_hash t p;
            e' ← zget c (depth + 1);
            c ← zset c (depth + 1) (CP (altIndex t i (tagHash h)) (cp_slot e') (cp_ptr e'));
            cpSearch fuel' (set_rands (set_kick (set_cp t c) (kickCount t + 1)) (S (rands t))) (depth + 1)
        end
      else Some (-1, t)
  end.

(** [cpBackmove]: moves along the path from its end; an entry that is no
    longer in its slot stops it. *)
Fixpoint cpBackmove (t : table) (depth : nat) : option (Z * table) :=
  match depth with
  | O => Some (0, t)
  | S d =>
      e1 ← zget (cp t) (Z.of_nat d);
      e2 ← zget (cp t) (Z.of_nat (S d));
      p ← slot_get t (cp_bucket e1) (cp_slot e1);
      if decide (p ≠ cp_ptr e1) then Some (Z.of_nat (S d), t) else
      q ← slot_get t (cp_bucket e2) (cp_slot e2);
      if decide (q ≠ None) then None else
      t ← slot_set t (cp_bucket e2) (cp_slot e2) p;
      t ← slot_set t (cp_bucket e1) (cp_slot e1) None;
      cpBackmove t d
  end.

(** Fuel: a search makes at most 500 kicks; every round of [cuckoo] kicks or
    starts lower ([cpSearch_spec], [cuckoo_loop_spec]). *)
Definition search_fuel : nat := Z.to_nat 501.
Definition cuckoo_fuel : nat := Z.to_nat 1001.

(** The loop of [cuckoo]: true when the first bucket of the path has room. *)
Fixpoint cuckoo_loop (fuel : nat) (t : table) (depth : Z) : option (bool * table) :=
  match fuel with
  | O => None
  | S fuel' =>
      '(current, t) ← cpSearch search_fuel t depth;
      if decide (current < 0) then Some (false, t) else
      '(current, t) ← cpBackmove t (Z.to_nat current);
      if decide (current = 0) then Some (true, t) else cuckoo_loop fuel' t (current - 1)
  end.
Definition cuckoo (t : table) (depth : Z) : option (bool * table) := cuckoo_loop cuckoo_fuel (set_kick t 0) depth.

Definition insert (t : table) (key : list byte) (ks : Z) (p : ptr) (isLarge : bool) : option (bool * table) :=
  hashValue ← lookup_hash key ks isLarge;
  let i1 := indexHash t hashValue in
  let i2 := altIndex t i1 (tagHash hashValue) in
  '(r, t) ← tryAdd t p i1;
  if (r : bool) then Some (true, t) else
  '(r, t) ← tryAdd t p i2;
  if (r : bool) then Some (true, t) else
  e ← zget (cp t) 0;
  c ← zset (cp t) 0 (CP i2 (cp_slot e) (cp_ptr e));
  '(r, t) ← cuckoo (set_cp t c) 0;
  if (r : bool) then
    e ← zget (cp t) 0;
    '(r, t) ← tryAdd t p (cp_bucket e);
    Some (r, t)
  else Some (false, t).

(** ** Deletion *)
Definition tryDel (t : table) (key : list byte) (ks i : Z) (isLarge : bool) : option (bool * table) :=
  r ← find_slot t i 0 (Key.MkKey ks key isLarge) 4;
  match r with
  | Some (_, j) => t ← slot_set t i j None; Some (true, t)
  | None => Some (false, t)
  end.

Definition del (t : table) (key : list byte) (ks : Z) (isLarge : bool) : option table :=
  hashValue ← lookup_hash key ks isLarge;
  let i1 := indexHash t hashValue in
  let i2 := altIndex t i1 (tagHash hashValue) in
  '(r, t) ← tryDel t key ks i1 isLarge;
  if (r : bool) then Some t else
  '(r, t) ← tryDel t key ks i2 isLarge; Some t.
End table.

(** ** Buckets *)
Definition wf (t : table) : Prop :=
  1 ≤ hashPower t ≤ 30 ∧ zlen (slots t) = 4 * 2 ^ hashPower t ∧ zlen (cp t) = MAX_CUCKOO_COUNT.
Definition bucket_ok (t : table) (i : Z) : Prop := 0 ≤ i < 2 ^ hashPower t.
Definition home (t : table) (h i : Z) : Prop :=
  i = indexHash t h ∨ i = altIndex t (indexHash t h) (tagHash h).
Definition content (t : table) : list ptr := omap id (slots t).

Lemma mask_eq t : wf t → hashMask t = Z.ones (hashPower t).
Proof.
  intros (Hp & _). unfold hashMask, size. rewrite Z.shiftl_1_l, Z.ones_equiv.
  assert (2 ^ hashPower t ≤ 2 ^ 30) by (apply Z.pow_le_mono_r; lia). assert (0 < 2 ^ hashPower t) by (apply Z.pow_pos_nonneg; lia).
  rewrite (u32_small (2 ^ _)) by lia. rewrite u32_small by lia. lia.
Qed.

Lemma index_ok t h : wf t → 0 ≤ h < 2 ^ 32 → bucket_ok t (indexHash t h).
Proof.
  intros (Hp & _) Hh. unfold bucket_ok, indexHash. rewrite Z.shiftr_div_pow2 by lia.
  assert (0 < 2 ^ (32 - hashPower t)) by (apply Z.pow_pos_nonneg; lia). split; [apply Z.div_pos; lia|].
  apply Z.div_lt_upper_bound; [lia|]. rewrite <- Z.pow_add_r by lia. replace (32 - hashPower t + hashPower t) with 32 by lia. lia.
Qed.

Lemma alt_ok t i tag : wf t → bucket_ok t (altIndex t i tag).
Proof.
  intros Hwf. pose proof (proj1 Hwf) as Hp. unfold bucket_ok, altIndex. rewrite mask_eq, Z.land_ones by (done || lia).
  apply Z.mod_pos_bound, Z.pow_pos_nonneg; lia.
Qed.

Lemma alt_involutive t i tag : wf t → bucket_ok t i → altIndex t (altIndex t i tag) tag = i.
Proof.
  intros Hwf Hi. unfold altIndex. rewrite mask_eq by done. set (c := u32 _). set (M := Z.ones (hashPower t)).
  assert (Hp : 0 ≤ hashPower t) by (destruct Hwf as ((? & ?) & _); lia).
  transitivity (Z.land i M); [|unfold M; rewrite Z.land_ones by done; by apply Z.mod_small].
  apply Z.bits_inj. intros n. rewrite !Z.land_spec, !Z.lxor_spec, Z.land_spec, Z.lxor_spec.
  destruct (Z.testbit M n); [|by rewrite !andb_false_r]. rewrite !andb_true_r.
  by rewrite xorb_assoc, xorb_nilpotent, xorb_false_r.
Qed.

Lemma home_ok t h i : wf t → 0 ≤ h < 2 ^ 32 → home t h i → bucket_ok t i.
Proof. intros Hwf Hh [-> | ->]; [by apply index_ok|by apply alt_ok]. Qed.

(** The two buckets of a pointer are each other's alternative. *)
Lemma home_alt t h i : wf t → 0 ≤ h < 2 ^ 32 → home t h i → home t h (altIndex t i (tagHash h)).
Proof.
  intros Hwf Hh [-> | ->]; [by right|left]. apply alt_involutive; [done|]. by apply index_ok.
Qed.

(** ** Slots *)
Lemma slot_get_ok t i j : wf t → bucket_ok t i → 0 ≤ j < 4 → is_Some (slot_get t i j).
Proof.
  intros (_ & Hl & _) Hi Hj. unfold slot_get, bucket_ok in *. rewrite decide_True by done. apply zget_is_Some. lia.
Qed.

Lemma slot_get_range t i j x : wf t → slot_get t i j = Some x → 0 ≤ j < 4 ∧ bucket_ok t i.
Proof.
  intros (_ & Hl & _) Hs. unfold slot_get, bucket_ok in *. case_decide as Hj; [|done].
  apply zget_Some in Hs. unfold BUCKET_SIZE in Hj. lia.
Qed.

Lemma slot_set_spec t i j x y :
  wf t → slot_get t i j = Some x →
  ∃ t', slot_set t i j y = Some t' ∧ t' = set_slots t (slots t') ∧ wf t' ∧
    slot_get t' i j = Some y ∧ (∀ i' j', (i' ≠ i ∨ j' ≠ j) → slot_get t' i' j' = slot_get t i' j') ∧
    (x = None → content t' ≡ₚ (if y is Some p then p :: content t else content t)) ∧
    (y = None → content t ≡ₚ (if x is Some p then p :: content t' else content t')).
Proof.
  intros Hwf Hs. pose proof Hwf as (Hp & Hl & Hc). pose proof (slot_get_range t i j x Hwf Hs) as [Hj Hi].
  unfold slot_get in Hs. rewrite decide_True in Hs by done. pose proof (zget_Some _ _ _ Hs) as Hr.
  unfold slot_set. rewrite decide_True by done. unfold zset. rewrite decide_True by done. cbn [mbind option_bind].
  eexists. split; [done|]. cbn [set_slots slots]. split; [done|]. set (n := Z.to_nat (4 * i + j)).
  assert (Hn : slots t !! n = Some x) by (unfold zget in Hs; rewrite decide_True in Hs by lia; done).
  assert (Hlt : (n < length (slots t))%nat) by (by eapply lookup_lt_Some).
  assert (Hone : ∀ z (l1 l2 : list (option ptr)), omap id (l1 ++ z :: l2) = omap id l1 ++ (if z is Some p then [p] else []) ++ omap id l2).
  { intros z l1 l2. rewrite omap_app. by destruct z. }
  pose proof (f_equal (omap id) (take_drop_middle (slots t) n x Hn)) as Hold. rewrite Hone in Hold. symmetry in Hold.
  assert (Hnew := f_equal (omap id) (insert_take_drop (slots t) n y Hlt)). rewrite Hone in Hnew.
  split_and!.
  - split_and!; simpl; [lia|lia|unfold zlen in *; by rewrite length_insert|done].
  - unfold slot_get. rewrite decide_True by done. simpl. unfold zget. rewrite decide_True by lia. by apply list_lookup_insert_eq.
  - intros i' j' Hne. unfold slot_get. case_decide as Hj'; [|done]. simpl. unfold zget. case_decide; [|done].
    apply list_lookup_insert_ne. unfold n, BUCKET_SIZE in *. lia.
  - intros ->. unfold content. simpl. rewrite Hold, Hnew. destruct y; simpl; [by rewrite Permutation_middle|done].
  - intros ->. unfold content. simpl. rewrite Hold, Hnew. destruct x; simpl; [by rewrite Permutation_middle|done].
Qed.

Lemma elem_of_content t p : wf t → p ∈ content t ↔ ∃ i j, slot_get t i j = Some (Some p).
Proof.
  intros (Hp & Hl & _). unfold content. rewrite list_elem_of_omap. split.
  - intros (x & Hx & Hid). simpl in Hid. subst x. apply list_elem_of_lookup_1 in Hx as [n Hn].
    pose proof (lookup_lt_Some _ _ _ Hn). exists (Z.of_nat n / 4), (Z.of_nat n mod 4). unfold slot_get, BUCKET_SIZE.
    rewrite decide_True by lia. unfold zget. rewrite decide_True by lia.
    by replace (Z.to_nat (4 * (Z.of_nat n / 4) + Z.of_nat n mod 4)) with n by lia.
  - intros (i & j & Hs). exists (Some p). split; [|done]. unfold slot_get in Hs. case_decide; [|done].
    unfold zget in Hs. case_decide; [|done]. by eapply list_elem_of_lookup_2.
Qed.

Lemma empty_slot_spec t i : wf t → bucket_ok t i →
  ∃ r, empty_slot t i 0 4 = Some r ∧
    match r with
    | Some j => slot_get t i j = Some None
    | None => ∀ j, 0 ≤ j < 4 → ∃ p, slot_get t i j = Some (Some p)
    end.
Proof.
  intros Hwf Hi.
  assert (Hgen : ∀ n j, j + Z.of_nat n = 4 → 0 ≤ j → ∃ r, empty_slot t i j n = Some r ∧
    match r with
    | Some j => slot_get t i j = Some None
    | None => ∀ j', j ≤ j' < 4 → ∃ p, slot_get t i j' = Some (Some p)
    end).
  { intros n. induction n as [|n IH]; intros j Hj H0; [exists None; split; [done|intros; lia]|].
    cbn [empty_slot]. destruct (slot_get_ok t i j Hwf Hi ltac:(lia)) as [s Hs]. rewrite Hs. cbn [mbind option_bind].
    destruct s as [p|]; [|by exists (Some j)].
    destruct (IH (j + 1) ltac:(lia) ltac:(lia)) as (r & -> & Hr). exists r. split; [done|]. destruct r; [done|].
    intros j' Hj'. destruct (decide (j' = j)) as [->|]; [by exists p|]. apply Hr. lia. }
  by apply (Hgen 4%nat 0).
Qed.

(** ** Tables that differ in their contents only *)
Definition same_cfg (t t' : table) : Prop := keySize t = keySize t' ∧ hashPower t = hashPower t'.
#[export] Instance same_cfg_equiv : Equivalence same_cfg.
Proof. split; [by split|intros ?? [??]; by split|intros ??? [??] [??]; split; congruence]. Qed.

Lemma indexHash_cfg t t' h : same_cfg t t' → indexHash t h = indexHash t' h.
Proof. intros [_ Hp]. unfold indexHash. by rewrite Hp. Qed.
Lemma altIndex_cfg t t' i tag : same_cfg t t' → altIndex t i tag = altIndex t' i tag.
Proof. intros [_ Hp]. unfold altIndex, hashMask, size. by rewrite Hp. Qed.
Lemma home_cfg t t' h i : same_cfg t t' → home t h i ↔ home t' h i.
Proof. intros Hc. unfold home. by rewrite !(indexHash_cfg t t'), !(altIndex_cfg t t') by done. Qed.
Lemma bucket_ok_cfg t t' i : same_cfg t t' → bucket_ok t i ↔ bucket_ok t' i.
Proof. intros [_ Hp]. unfold bucket_ok. by rewrite Hp. Qed.
Lemma set_slots_cfg t s t' : t' = set_slots t s → same_cfg t t'.
Proof. by intros ->. Qed.

Section proofs.
Variables (chunkSize : Z) (rand : nat → Z) (m : mem).
Local Abbreviation stored_hash := (stored_hash chunkSize m).
Local Abbreviation matches := (matches chunkSize m).

Lemma stored_hash_cfg t t' p : same_cfg t t' → stored_hash t p = stored_hash t' p.
Proof. intros [Hk _]. unfold CuckooHash.stored_hash. by rewrite Hk. Qed.
Lemma matches_cfg t t' p k : same_cfg t t' → matches t p k = matches t' p k.
Proof. intros [Hk _]. unfold CuckooHash.matches. by rewrite Hk. Qed.

(** Every pointer is in one of the two buckets of its hash. *)
Definition hashes_to (t : table) (p : ptr) (h : Z) : Prop := stored_hash t p = Some h ∧ 0 ≤ h < 2 ^ 32.
Definition placed (t : table) : Prop :=
  ∀ i j p, slot_get t i j = Some (Some p) → ∃ h, hashes_to t p h ∧ home t h i.

Lemma placed_slots t t' : same_cfg t t' → slots t = slots t' → placed t → placed t'.
Proof.
  intros Hc Hs Hp i j p Hg. destruct (Hp i j p) as (h & [Hh ?] & Hm); [unfold slot_get in *; by rewrite Hs|].
  exists h. split; [split; [by rewrite <- (stored_hash_cfg t t')|done]|by apply (home_cfg t t')].
Qed.

Lemma placed_set t i j y t' :
  placed t → t' = set_slots t (slots t') →
  slot_get t' i j = Some y → (∀ i' j', (i' ≠ i ∨ j' ≠ j) → slot_get t' i' j' = slot_get t i' j') →
  (∀ p, y = Some p → ∃ h, hashes_to t p h ∧ home t h i) → placed t'.
Proof.
  intros Hp Ht Hy Hoth Hn i' j' p Hg. pose proof (set_slots_cfg _ _ _ Ht) as Hc.
  assert (H : ∃ h, hashes_to t p h ∧ home t h i').
  { destruct (decide (i' = i ∧ j' = j)) as [[-> ->]|Hne].
    - rewrite Hy in Hg. simplify_eq. by apply Hn.
    - rewrite Hoth in Hg by (destruct (decide (i' = i)); [right; tauto|by left]). by eapply Hp. }
  destruct H as (h & [Hh ?] & Hm). exists h. split; [split; [by rewrite <- (stored_hash_cfg t t')|done]|by apply (home_cfg t t')].
Qed.

(** ** Paths *)

(** The first [d] steps of the path lead from bucket to alternative bucket. *)
Definition path_ok (t : table) (d : Z) : Prop :=
  (∃ e, zget (cp t) 0 = Some e ∧ bucket_ok t (cp_bucket e)) ∧
  ∀ d', 0 ≤ d' < d → ∃ e e' p h, zget (cp t) d' = Some e ∧ zget (cp t) (d' + 1) = Some e' ∧
    cp_ptr e = Some p ∧ 0 ≤ cp_slot e < 4 ∧ bucket_ok t (cp_bucket e) ∧ hashes_to t p h ∧
    cp_bucket e' = altIndex t (cp_bucket e) (tagHash h).

Lemma path_bucket t d : wf t → path_ok t d → 0 ≤ d < MAX_CUCKOO_COUNT →
  ∃ e, zget (cp t) d = Some e ∧ bucket_ok t (cp_bucket e).
Proof.
  intros Hwf [H0 Hs] Hd. destruct (decide (d = 0)) as [->|]; [done|].
  destruct (Hs (d - 1) ltac:(lia)) as (e & e' & p & h & _ & He' & _ & _ & _ & _ & Hb).
  replace (d - 1 + 1) with d in He' by lia. exists e'. split; [done|]. rewrite Hb. by apply alt_ok.
Qed.

Lemma path_mono t d d' : d' ≤ d → path_ok t d → path_ok t d'.
Proof. intros Hd [H0 Hs]. split; [done|]. intros x Hx. apply Hs. lia. Qed.

Definition end_empty (t : table) (d : Z) : Prop :=
  ∃ e, zget (cp t) d = Some e ∧ slot_get t (cp_bucket e) (cp_slot e) = Some None.

(** What a search leaves alone. *)
Definition search_frame (t t' : table) : Prop :=
  same_cfg t t' ∧ slots t = slots t' ∧ zlen (cp t) = zlen (cp t') ∧
  (cp_bucket <$> zget (cp t) 0) = (cp_bucket <$> zget (cp t') 0).

Lemma search_frame_trans t1 t2 t3 : search_frame t1 t2 → search_frame t2 t3 → search_frame t1 t3.
Proof. intros (?&?&?&?) (?&?&?&?). split_and!; [by etrans|congruence..]. Qed.
Lemma search_frame_wf t t' : search_frame t t' → wf t → wf t'.
Proof.
  intros ([_ Hp] & Hs & Hc & _) (? & ? & ?). unfold wf. rewrite <- Hp, <- Hs, <- Hc. done.
Qed.
Lemma slot_get_eq t t' i j : slots t = slots t' → slot_get t i j = slot_get t' i j.
Proof. intros Hs. unfold slot_get. by rewrite Hs. Qed.
Lemma path_cfg t t' d : same_cfg t t' → cp t = cp t' → path_ok t d → path_ok t' d.
Proof.
  intros Hc Hcp [H0 Hs]. unfold path_ok. rewrite <- Hcp. split.
  - destruct H0 as (e & ? & ?). exists e. split; [done|]. by apply (bucket_ok_cfg t t').
  - intros d' Hd'. destruct (Hs d' Hd') as (e & e' & p & h & ? & ? & ? & ? & ? & [? ?] & ?). exists e, e', p, h.
    do 4 (split; [done|]). split; [by apply (bucket_ok_cfg t t')|].
    split; [split; [by rewrite <- (stored_hash_cfg t t')|done]|by rewrite <- (altIndex_cfg t t')].
Qed.

Local Abbreviation cpSearch := (cpSearch chunkSize rand m).

Lemma zset_cp t d e : zlen (cp t) = MAX_CUCKOO_COUNT → 0 ≤ d < MAX_CUCKOO_COUNT →
  ∃ c, zset (cp t) d e = Some c ∧ zlen c = zlen (cp t) ∧ zget c d = Some e ∧ ∀ d', d' ≠ d → zget c d' = zget (cp t) d'.
Proof.
  intros Hl Hd. assert (Hz : zset (cp t) d e = Some (<[Z.to_nat d := e]> (cp t))) by (apply zset_Some; lia).
  eexists. split; [exact Hz|]. split; [by eapply zset_zlen|]. split; [by eapply zset_get_eq|].
  intros d' Hd'. by eapply zset_get_ne.
Qed.

(** The search ends in an empty slot or gives up; it counts its kicks. *)
Lemma cpSearch_spec fuel t d :
  wf t → placed t → path_ok t d → 0 ≤ d < MAX_CUCKOO_COUNT →
  0 ≤ kickCount t ≤ MAX_CUCKOO_COUNT → MAX_CUCKOO_COUNT - kickCount t < Z.of_nat fuel →
  ∃ r t', cpSearch fuel t d = Some (r, t') ∧ search_frame t t' ∧ kickCount t ≤ kickCount t' ≤ MAX_CUCKOO_COUNT ∧
    (r = -1 ∨ (d ≤ r < MAX_CUCKOO_COUNT ∧ r - d = kickCount t' - kickCount t ∧ path_ok t' r ∧ end_empty t' r)).
Proof.
  revert t d. induction fuel as [|fuel IH]; intros t d Hwf Hpl Hpath Hd Hk Hf; [lia|]. cbn [CuckooHash.cpSearch].
  destruct (decide (kickCount t < MAX_CUCKOO_COUNT ∧ d < MAX_CUCKOO_COUNT - 1)) as [[Hk1 Hd1]|Hn].
  2:{ exists (-1), t. split; [done|]. split; [done|]. split; [lia|by left]. }
  pose proof Hwf as (Hpw & Hsl & Hcl).
  destruct (path_bucket t d Hwf Hpath ltac:(lia)) as (e & He & Hb). rewrite He. cbn [mbind option_bind].
  destruct (empty_slot_spec t (cp_bucket e) Hwf Hb) as (r & -> & Hr). cbn [mbind option_bind].
  destruct r as [j|].
  - destruct (zset_cp t d (CP (cp_bucket e) j (cp_ptr e)) Hcl ltac:(lia)) as (c & -> & Hc1 & Hc2 & Hc3). cbn [mbind option_bind].
    exists d, (set_cp t c). split; [done|]. split; [|split; [simpl; lia|right; split; [lia|split; [simpl; lia|split]]]].
    + split_and!; simpl; [done..|]. destruct (decide (d = 0)) as [->|]; [by rewrite He, Hc2|]. by rewrite Hc3.
    + destruct Hpath as [(e0 & He0 & Hb0) Hs]. split.
      * simpl. destruct (decide (d = 0)) as [->|]; [|exists e0; by rewrite Hc3].
        exists (CP (cp_bucket e) j (cp_ptr e)). done.
      * intros d' Hd'. destruct (Hs d' Hd') as (e1 & e2 & p & h & H1 & H2 & H3 & H4 & H5 & H6 & H7). simpl.
        exists e1. destruct (decide (d' + 1 = d)) as [Heq|].
        -- exists (CP (cp_bucket e) j (cp_ptr e)), p, h. rewrite Hc3 by lia. rewrite Heq, Hc2. rewrite Heq, He in H2. simplify_eq. done.
        -- exists e2, p, h. rewrite !Hc3 by lia. done.
    + exists (CP (cp_bucket e) j (cp_ptr e)). split; [done|]. simpl. done.
  - set (j := rand (rands t) mod BUCKET_SIZE). assert (Hj : 0 ≤ j < 4) by (apply Z.mod_pos_bound; done).
    destruct (Hr j Hj) as (p & Hp). rewrite Hp. cbn [mbind option_bind].
    destruct (zset_cp t d (CP (cp_bucket e) j (Some p)) Hcl ltac:(lia)) as (c & -> & Hc1 & Hc2 & Hc3). cbn [mbind option_bind].
    destruct (Hpl _ _ _ Hp) as (h & [Hh Hhr] & Hhome). rewrite Hh. cbn [mbind option_bind].
    destruct (zget_is_Some c (d + 1)) as [e' He']; [lia|]. rewrite He'. cbn [mbind option_bind].
    set (e2 := CP (altIndex t (cp_bucket e) (tagHash h)) (cp_slot e') (cp_ptr e')).
    destruct (zset_cp (set_cp t c) (d + 1) e2 ltac:(simpl; lia) ltac:(lia)) as (c' & Hz & Hd1' & Hd2 & Hd3). simpl in Hz. rewrite Hz.
    cbn [mbind option_bind]. simpl in Hd1', Hd3.
    set (t' := set_rands _ _).
    assert (Hcfg : same_cfg t t') by done.
    assert (Hfr : search_frame t t').
    { split_and!; simpl; [done|done|lia|]. rewrite Hd3 by lia. destruct (decide (d = 0)) as [->|]; [by rewrite He, Hc2|]. by rewrite Hc3. }
    assert (Hpath' : path_ok t' (d + 1)).
    { destruct Hpath as [(e0 & He0 & Hb0) Hs]. split.
      - unfold t'. simpl. rewrite Hd3 by lia. destruct (decide (d = 0)) as [->|]; [by eexists|]. exists e0. by rewrite Hc3.
      - intros d' Hd'. unfold t'. simpl. destruct (decide (d' = d)) as [->|].
        + exists (CP (cp_bucket e) j (Some p)), e2, p, h. rewrite Hd3, Hc2, Hd2 by lia. do 3 (split; [done|]).
          split; [exact Hj|]. split; [exact Hb|]. split; [by split|done].
        + destruct (Hs d' ltac:(lia)) as (e1 & e3 & p' & h' & H1 & H2 & H3 & H4 & H5 & H6 & H7). exists e1.
          destruct (decide (d' + 1 = d)) as [Heq|].
          * exists (CP (cp_bucket e) j (Some p)), p', h'. rewrite !Hd3 by lia. rewrite Hc3 by lia. rewrite Heq, Hc2.
            rewrite Heq, He in H2. simplify_eq. done.
          * exists e3, p', h'. rewrite !Hd3, !Hc3 by lia. done. }
    destruct (IH t' (d + 1)) as (r & t2 & E2 & Hfr2 & Hk2 & Hres).
    + by eapply search_frame_wf.
    + by eapply placed_slots.
    + done.
    + lia.
    + simpl. lia.
    + simpl. lia.
    + exists r, t2. split; [done|]. split; [by eapply search_frame_trans|]. simpl in Hk2. split; [lia|].
      destruct Hres as [->|(H1 & H2 & H3 & H4)]; [by left|right]. simpl in H2. split; [lia|]. split; [lia|done].
Qed.

(** Moving back along a path keeps the pointers of the table, each in one of
    its buckets, and leaves a slot of the path empty; the assertion holds. *)
Lemma cpBackmove_spec n t :
  wf t → placed t → path_ok t (Z.of_nat n) → Z.of_nat n < MAX_CUCKOO_COUNT → end_empty t (Z.of_nat n) →
  ∃ r t', cpBackmove t n = Some (r, t') ∧ 0 ≤ r ≤ Z.of_nat n ∧ t' = set_slots t (slots t') ∧ wf t' ∧ placed t' ∧
    content t' ≡ₚ content t ∧ end_empty t' r.
Proof.
  revert t. induction n as [|n IH]; intros t Hwf Hpl Hpath Hn Hend; cbn [cpBackmove].
  { exists 0, t. split_and!; try done; try lia; by destruct t. }
  destruct Hend as (e2 & He2 & Hempty). pose proof (slot_get_range _ _ _ _ Hwf Hempty) as [Hj2 Hb2].
  destruct (proj2 Hpath (Z.of_nat n) ltac:(lia)) as (e1 & e2' & p & h & He1 & He2' & Hp & Hj1 & Hb1 & [Hh Hhr] & Halt).
  replace (Z.of_nat n + 1) with (Z.of_nat (S n)) in He2' by lia. rewrite He2 in He2'. injection He2' as <-.
  rewrite He1, He2. cbn [mbind option_bind].
  destruct (slot_get_ok t (cp_bucket e1) (cp_slot e1) Hwf Hb1 Hj1) as [x Hx]. rewrite Hx. cbn [mbind option_bind]. rewrite Hp.
  destruct (decide (x ≠ Some p)) as [Hne|Heq].
  { exists (Z.of_nat (S n)), t. split; [done|]. split; [lia|]. split; [by destruct t|]. split_and!; try done. by exists e2. }
  assert (Hxp : x = Some p) by (destruct (decide (x = Some p)); [done|exfalso; by apply Heq]). subst x. clear Heq.
  rewrite Hempty. cbn [mbind option_bind]. rewrite (decide_False (P := None ≠ None)) by (intros Hc; by apply Hc).
  destruct (slot_set_spec t (cp_bucket e2) (cp_slot e2) None (Some p) Hwf Hempty) as (t1 & -> & Ht1 & Hwf1 & Hg1 & Ho1 & Hc1 & _).
  cbn [mbind option_bind]. specialize (Hc1 eq_refl).
  pose proof (set_slots_cfg _ _ _ Ht1) as Hcfg1.
  assert (Hdiff : cp_bucket e1 ≠ cp_bucket e2 ∨ cp_slot e1 ≠ cp_slot e2).
  { destruct (decide (cp_bucket e1 = cp_bucket e2 ∧ cp_slot e1 = cp_slot e2)) as [[E1 E2]|]; [rewrite E1, E2 in Hx; congruence|].
    destruct (decide (cp_bucket e1 = cp_bucket e2)); [right; tauto|by left]. }
  assert (Hhome : home t h (cp_bucket e2)).
  { rewrite Halt. apply home_alt; [done|done|]. destruct (Hpl _ _ _ Hx) as (h' & [Hh' _] & ?). congruence. }
  assert (Hpl1 : placed t1).
  { eapply (placed_set t (cp_bucket e2) (cp_slot e2) (Some p)); [done..|]. intros p' [= <-]. by exists h. }
  assert (Hx1 : slot_get t1 (cp_bucket e1) (cp_slot e1) = Some (Some p)) by by rewrite Ho1.
  destruct (slot_set_spec t1 (cp_bucket e1) (cp_slot e1) (Some p) None Hwf1 Hx1) as (t2 & -> & Ht2 & Hwf2 & Hg2 & Ho2 & _ & Hc2).
  cbn [mbind option_bind]. specialize (Hc2 eq_refl). pose proof (set_slots_cfg _ _ _ Ht2) as Hcfg2.
  assert (Hcp : cp t2 = cp t) by (rewrite Ht2; simpl; by rewrite Ht1).
  assert (Hpl2 : placed t2) by (eapply (placed_set t1 (cp_bucket e1) (cp_slot e1) None); done).
  destruct (IH t2) as (r & t3 & -> & Hr & Ht3 & Hwf3 & Hpl3 & Hc3 & He3).
  - done.
  - done.
  - eapply path_mono; [|eapply (path_cfg t); [by etrans|done|exact Hpath]]. lia.
  - lia.
  - exists e1. by rewrite Hcp.
  - exists r, t3. split; [done|]. split; [lia|]. split; [rewrite Ht3; simpl; rewrite Ht2; simpl; by rewrite Ht1|].
    split; [done|]. split; [done|]. split; [|done]. rewrite Hc3. apply (Permutation_cons_inv (a := p)).
    by rewrite <- Hc2, Hc1.
Qed.

(** Making room in the first bucket of the path; [fuel] is enough because
    every round kicks or starts lower. *)
Lemma cuckoo_loop_spec fuel t d :
  wf t → placed t → path_ok t d → 0 ≤ d < MAX_CUCKOO_COUNT → 0 ≤ kickCount t ≤ MAX_CUCKOO_COUNT →
  2 * (MAX_CUCKOO_COUNT - kickCount t) + d < Z.of_nat fuel →
  ∃ b t', cuckoo_loop chunkSize rand m fuel t d = Some (b, t') ∧ same_cfg t t' ∧ wf t' ∧ placed t' ∧
    content t' ≡ₚ content t ∧ (cp_bucket <$> zget (cp t') 0) = (cp_bucket <$> zget (cp t) 0) ∧
    ((b : bool) = true → end_empty t' 0).
Proof.
  revert t d. induction fuel as [|fuel IH]; intros t d Hwf Hpl Hpath Hd Hk Hf; [unfold MAX_CUCKOO_COUNT in *; lia|]. cbn [cuckoo_loop].
  destruct (cpSearch_spec search_fuel t d) as (r & t1 & -> & Hfr & Hk1 & Hr); [done..|unfold search_fuel, MAX_CUCKOO_COUNT in *; rewrite Z2Nat.id; lia|].
  cbn [mbind option_bind]. pose proof Hfr as (Hcfg & Hsl & _ & Hb0). pose proof (search_frame_wf _ _ Hfr Hwf) as Hwf1.
  assert (Hpl1 : placed t1) by by eapply placed_slots.
  assert (Hc1 : content t1 = content t) by (unfold content; by rewrite Hsl).
  destruct Hr as [->|(Hr & Hkr & Hpath1 & Hend)].
  { rewrite decide_True by lia. exists false, t1. split_and!; try done. by rewrite Hc1. }
  rewrite decide_False by lia.
  destruct (cpBackmove_spec (Z.to_nat r) t1) as (r2 & t2 & -> & Hr2 & Ht2 & Hwf2 & Hpl2 & Hc2 & Hend2);
    [done|done|by rewrite Z2Nat.id by lia|lia|by rewrite Z2Nat.id by lia|]. cbn [mbind option_bind].
  pose proof (set_slots_cfg _ _ _ Ht2) as Hcfg2. assert (Hcp2 : cp t2 = cp t1) by by rewrite Ht2.
  assert (Hkk2 : kickCount t2 = kickCount t1) by by rewrite Ht2.
  destruct (decide (r2 = 0)) as [->|Hne].
  { exists true, t2. split; [done|]. split; [by etrans|]. split; [done|]. split; [done|]. split; [by rewrite Hc2, Hc1|].
    split; [by rewrite Hcp2|done]. }
  destruct (IH t2 (r2 - 1)) as (b & t3 & -> & Hcfg3 & Hwf3 & Hpl3 & Hc3 & Hb3 & He3); [done|done| |lia|lia|lia|].
  { eapply path_mono; [|eapply (path_cfg t1); [done|done|exact Hpath1]]. lia. }
  exists b, t3. split; [done|]. split; [etrans; [exact Hcfg|]; by etrans|]. split; [done|]. split; [done|].
  split; [by rewrite Hc3, Hc2, Hc1|]. split; [by rewrite Hb3, Hcp2|done].
Qed.

(** [tryAdd] fills the first empty slot of the bucket. *)
Lemma tryAdd_spec t p i h :
  wf t → placed t → bucket_ok t i → hashes_to t p h → home t h i →
  ∃ b t', tryAdd t p i = Some (b, t') ∧ same_cfg t t' ∧ wf t' ∧ placed t' ∧ cp t' = cp t ∧
    (b = true → content t' ≡ₚ p :: content t) ∧ (b = false → t' = t) ∧
    ((∃ j, slot_get t i j = Some None) → b = true).
Proof.
  intros Hwf Hpl Hi Hh Hm. unfold tryAdd. destruct (empty_slot_spec t i Hwf Hi) as (r & -> & Hr). cbn [mbind option_bind].
  destruct r as [j|].
  - destruct (slot_set_spec t i j None (Some p) Hwf Hr) as (t' & -> & Ht' & Hwf' & Hg & Ho & Hc & _). cbn [mbind option_bind].
    exists true, t'. split; [done|]. split; [by eapply set_slots_cfg|]. split; [done|]. split.
    { eapply (placed_set t i j (Some p)); [done..|]. intros p' [= <-]. by exists h. }
    split; [by rewrite Ht'|]. split; [intros _; by apply Hc|done].
  - exists false, t. do 6 (split; [done|]). split; [done|]. intros (j & Hj). pose proof (slot_get_range _ _ _ _ Hwf Hj) as [? _].
    destruct (Hr j) as (p' & Hp'); [done|]. congruence.
Qed.

Lemma table_insert_spec t key ks p large h :
  wf t → placed t → lookup_hash key ks large = Some h → hashes_to t p h →
  let i1 := indexHash t h in let i2 := altIndex t i1 (tagHash h) in
  ∃ b t', insert chunkSize rand m t key ks p large = Some (b, t') ∧ same_cfg t t' ∧ wf t' ∧ placed t' ∧
    content t' ≡ₚ (if b then p :: content t else content t) ∧
    ((∃ j, slot_get t i1 j = Some None ∨ slot_get t i2 j = Some None) → b = true).
Proof.
  intros Hwf Hpl Hl Hh i1 i2. unfold insert. rewrite Hl. cbn [mbind option_bind]. fold i1. fold i2.
  assert (Hb1 : bucket_ok t i1) by (apply index_ok; [done|apply Hh]). assert (Hb2 : bucket_ok t i2) by by apply alt_ok.
  destruct (tryAdd_spec t p i1 h) as (b1 & t1 & -> & Hcfg1 & Hwf1 & Hpl1 & Hcp1 & Hc1 & He1 & Hr1); [done..|by left|].
  cbn [mbind option_bind]. destruct b1.
  { exists true, t1. split; [done|]. split; [done|]. split; [done|]. split; [done|]. split; [by apply Hc1|done]. }
  rewrite (He1 eq_refl) in *. clear He1 Hc1 Hcfg1 Hwf1 Hpl1 Hcp1.
  destruct (tryAdd_spec t p i2 h) as (b2 & t2 & -> & Hcfg2 & Hwf2 & Hpl2 & Hcp2 & Hc2 & He2 & Hr2); [done..|by right|].
  cbn [mbind option_bind]. destruct b2.
  { exists true, t2. split; [done|]. split; [done|]. split; [done|]. split; [done|]. split; [by apply Hc2|done]. }
  rewrite (He2 eq_refl) in *. clear He2 Hc2 Hcfg2 Hwf2 Hpl2 Hcp2.
  assert (Hfull : (∃ j, slot_get t i1 j = Some None ∨ slot_get t i2 j = Some None) → False).
  { intros (j & [Hj|Hj]); [by discriminate Hr1; eauto|by discriminate Hr2; eauto]. }
  destruct Hwf as (Hpw & Hsl & Hcl).
  destruct (zget_is_Some (cp t) 0) as [e He]; [unfold MAX_CUCKOO_COUNT in *; lia|]. rewrite He. cbn [mbind option_bind].
  destruct (zset_cp t 0 (CP i2 (cp_slot e) (cp_ptr e)) Hcl ltac:(done)) as (c & -> & Hcz & Hc0 & _). cbn [mbind option_bind].
  unfold cuckoo. set (t0 := set_kick (set_cp t c) 0).
  destruct (cuckoo_loop_spec cuckoo_fuel t0 0) as (b & t3 & -> & Hcfg3 & Hwf3 & Hpl3 & Hc3 & Hb3 & He3).
  - split; [done|]. split; [done|]. simpl. by rewrite Hcz.
  - eapply (placed_slots t); done.
  - split; [|intros; lia]. exists (CP i2 (cp_slot e) (cp_ptr e)). split; [done|]. exact Hb2.
  - done.
  - done.
  - unfold cuckoo_fuel. rewrite Z2Nat.id by lia. done.
  - cbn [mbind option_bind].
    assert (Hcfg : same_cfg t t3) by (etrans; [|exact Hcfg3]; done).
    assert (Hh3 : hashes_to t3 p h) by (split; [rewrite <- (stored_hash_cfg t t3) by done; apply Hh|apply Hh]).
    destruct b.
    + destruct (He3 eq_refl) as (e3 & He3' & Hempty). rewrite He3' in *. cbn [mbind option_bind].
      assert (Hi : cp_bucket e3 = i2) by (simpl in Hb3; rewrite Hc0 in Hb3; by injection Hb3). rewrite Hi in *.
      destruct (tryAdd_spec t3 p i2 h) as (b4 & t4 & -> & Hcfg4 & Hwf4 & Hpl4 & Hcp4 & Hc4 & _ & Hr4); [done|done|by apply (bucket_ok_cfg t t3)|done|apply (home_cfg t t3); [done|by right]|].
      cbn [mbind option_bind]. assert (b4 = true) as -> by (apply Hr4; by eexists).
      exists true, t4. split; [done|]. split; [by etrans|]. split; [done|]. split; [done|]. split; [|done].
      rewrite Hc4, Hc3 by done. done.
    + exists false, t3. split; [done|]. split; [done|]. split; [done|]. split; [done|]. split; [by rewrite Hc3|]. intros Hex. by destruct (Hfull Hex).
Qed.

(** ** The map the table implements *)

(** The object at [p] has key [k]: the key of a small object without NUL
    bytes, or the first [keySize] bytes. *)
Definition obj_key (t : table) (p : ptr) (k : list byte) : Prop :=
  if decide (keySize t = 0) then
    ∃ f si, KeyValue.deserialize chunkSize m p = Some f ∧
      LargeObjectUtil.isLarge chunkSize (KeyValue.f_keySize f) (KeyValue.f_valueSize f) = Some si ∧
      LargeObjectUtil.si_large si = false ∧ load m (KeyValue.f_key f) (KeyValue.f_keySize f) = Some k ∧ x00 ∉ k
  else load m p (keySize t) = Some k.
Definition key_ok (t : table) (k : list byte) : Prop :=
  if decide (keySize t = 0) then x00 ∉ k else zlen k = keySize t.

Lemma obj_key_ok t p k : obj_key t p k → key_ok t k.
Proof.
  unfold obj_key, key_ok. case_decide; [by intros (?&?&_&_&_&_&?)|]. apply load_zlen.
Qed.

Lemma obj_key_hash t p k : obj_key t p k → hashes_to t p (hash_of k).
Proof.
  intros Hk. split; [|apply hash_of_range]. unfold obj_key, CuckooHash.stored_hash in *. case_decide.
  - destruct Hk as (f & si & -> & E & Hl & Hld & _). cbn [mbind option_bind]. rewrite E. cbn [mbind option_bind]. rewrite Hl.
    rewrite Z.opp_0, padd_0, Z.add_0_r, Hld. cbn [mbind option_bind]. rewrite <- (load_zlen _ _ _ _ Hld). apply hash1_whole.
  - rewrite Hk. cbn [mbind option_bind]. rewrite <- (load_zlen _ _ _ _ Hk). apply hash1_whole.
Qed.

Lemma lookup_hash_eq k : lookup_hash k (zlen k) false = Some (hash_of k).
Proof. unfold lookup_hash. rewrite Z.add_0_r, hash1_whole. done. Qed.

Lemma matches_eq t p k k' :
  obj_key t p k → key_ok t k' → matches t p (Key.MkKey (zlen k') k' false) = Some (bool_decide (k = k')).
Proof.
  intros Hk Hk'. unfold obj_key, key_ok, CuckooHash.matches in *. case_decide.
  - destruct Hk as (f & si & E1 & E2 & Hl & Hld & Hn). unfold KeyValue.key. rewrite E1. cbn [mbind option_bind].
    rewrite E2. cbn [mbind option_bind]. rewrite Hl, Z.add_0_r, Hld. cbn [mbind option_bind].
    pose proof (load_zlen _ _ _ _ Hld) as Hz. rewrite <- Hz. unfold Key.equal. cbn [Key.size Key.isLarge Key.data].
    destruct (decide (zlen k = zlen k' ∧ false = false)) as [[Hlen _]|Hne].
    2:{ f_equal. symmetry. apply bool_decide_eq_false_2. intros ->. by apply Hne. }
    assert (Hc : Key.cmp_size (Key.MkKey (zlen k) k false) = length k) by (unfold Key.cmp_size, zlen; simpl; lia).
    rewrite Hc. unfold zlen in Hlen.
    destruct (Key.strncmp_total k k' (length k)) as [r Hr]; [lia|lia|]. rewrite Hr. cbn [mbind option_bind]. f_equal.
    apply bool_decide_ext. pose proof (Key.strncmp_zero k k' (length k) ltac:(lia) ltac:(lia)) as Hiff.
    rewrite firstn_all in Hiff. rewrite firstn_all2 in Hiff by lia. rewrite <- Hiff by done. rewrite Hr. split; congruence.
  - rewrite Hk. cbn [mbind option_bind Key.data]. rewrite <- Hk'. unfold slice, zlen. rewrite decide_True by lia.
    cbn [mbind option_bind]. rewrite Nat2Z.id. simpl. by rewrite drop_0, firstn_all.
Qed.

(** Looking through one bucket. *)
Lemma find_slot_spec t i target :
  wf t → bucket_ok t i → (∀ j p, slot_get t i j = Some (Some p) → is_Some (matches t p target)) →
  ∃ r, find_slot chunkSize m t i 0 target 4 = Some r ∧
    match r with
    | Some (p, j) => slot_get t i j = Some (Some p) ∧ matches t p target = Some true
    | None => ∀ j p, slot_get t i j = Some (Some p) → matches t p target = Some false
    end.
Proof.
  intros Hwf Hi Hm.
  assert (Hgen : ∀ n j, j + Z.of_nat n = 4 → 0 ≤ j → ∃ r, find_slot chunkSize m t i j target n = Some r ∧
    match r with
    | Some (p, j) => slot_get t i j = Some (Some p) ∧ matches t p target = Some true
    | None => ∀ j' p, j ≤ j' → slot_get t i j' = Some (Some p) → matches t p target = Some false
    end).
  { intros n. induction n as [|n IH]; intros j Hj Hj0.
    - exists None. split; [done|]. intros j' p Hj' Hp. pose proof (slot_get_range _ _ _ _ Hwf Hp). lia.
    - cbn [find_slot]. destruct (slot_get_ok t i j Hwf Hi ltac:(lia)) as [s Hs]. rewrite Hs. cbn [mbind option_bind].
      destruct (IH (j + 1) ltac:(lia) ltac:(lia)) as (r & Er & Hr).
      destruct s as [p|].
      + destruct (Hm _ _ Hs) as [b Hb]. rewrite Hb. cbn [mbind option_bind]. destruct b; [by exists (Some (p, j))|].
        rewrite Er. exists r. split; [done|]. destruct r as [[p' j']|]; [done|]. intros j' p' Hj' Hp'.
        destruct (decide (j' = j)) as [->|]; [by simplify_eq|]. apply (Hr j'); [lia|done].
      + rewrite Er. exists r. split; [done|]. destruct r as [[p' j']|]; [done|]. intros j' p' Hj' Hp'.
        destruct (decide (j' = j)) as [->|]; [by simplify_eq|]. apply (Hr j'); [lia|done]. }
  destruct (Hgen 4%nat 0) as (r & -> & Hr); [done|done|]. exists r. split; [done|]. destruct r as [[p j]|]; [done|].
  intros j p Hp. apply (Hr j); [|done]. pose proof (slot_get_range _ _ _ _ Hwf Hp). lia.
Qed.

(** The table holds the map [M]. *)
Definition represents (t : table) (M : gmap (list byte) ptr) : Prop :=
  wf t ∧ placed t ∧ content t ≡ₚ (map_to_list M).*2 ∧ ∀ k p, M !! k = Some p → obj_key t p k.

Lemma represents_content t M p : represents t M → p ∈ content t ↔ ∃ k, M !! k = Some p.
Proof.
  intros (_ & _ & Hc & _). rewrite Hc, list_elem_of_fmap. split.
  - intros ([k p'] & -> & Hin). apply elem_of_map_to_list in Hin. by exists k.
  - intros (k & Hk). exists (k, p). split; [done|]. by apply elem_of_map_to_list.
Qed.

Lemma obj_key_cfg t t' p k : same_cfg t t' → obj_key t p k ↔ obj_key t' p k.
Proof. intros [Hk _]. unfold obj_key. by rewrite Hk. Qed.

(** The pointer a bucket search for [k] comes up with. *)
Lemma bucket_search t M k i :
  represents t M → key_ok t k → bucket_ok t i →
  ∃ r, find_slot chunkSize m t i 0 (Key.MkKey (zlen k) k false) 4 = Some r ∧
    match r with
    | Some (p, j) => slot_get t i j = Some (Some p) ∧ M !! k = Some p
    | None => ∀ p, M !! k = Some p → ∀ j, slot_get t i j ≠ Some (Some p)
    end.
Proof.
  intros Hrep Hk Hi. pose proof Hrep as (Hwf & Hpl & Hc & Ho).
  assert (Hm : ∀ j p, slot_get t i j = Some (Some p) → ∃ k', M !! k' = Some p ∧
      matches t p (Key.MkKey (zlen k) k false) = Some (bool_decide (k' = k))).
  { intros j p Hp. assert (Hin : p ∈ content t) by (apply elem_of_content; eauto).
    apply (represents_content t M) in Hin as [k' Hk']; [|done]. exists k'. split; [done|]. apply matches_eq; auto. }
  destruct (find_slot_spec t i (Key.MkKey (zlen k) k false) Hwf Hi) as (r & -> & Hr).
  { intros j p Hp. destruct (Hm j p Hp) as (k' & _ & ->). done. }
  exists r. split; [done|]. destruct r as [[p j]|].
  - destruct Hr as [Hs Hb]. split; [done|]. destruct (Hm j p Hs) as (k' & Hk' & Hb'). rewrite Hb in Hb'.
    injection Hb' as Hb'. symmetry in Hb'. apply bool_decide_eq_true in Hb'. by subst.
  - intros p HM j Hs. specialize (Hr j p Hs). rewrite (matches_eq t p k k) in Hr by auto.
    rewrite bool_decide_eq_true_2 in Hr by done. discriminate.
Qed.

(** A key of the map is in one of its two buckets. *)
Lemma key_home t M k p : represents t M → M !! k = Some p →
  ∃ i j, slot_get t i j = Some (Some p) ∧ home t (hash_of k) i.
Proof.
  intros Hrep HM. pose proof Hrep as (Hwf & Hpl & Hc & Ho).
  assert (Hin : p ∈ content t) by (apply (represents_content t M); eauto).
  apply elem_of_content in Hin as (i & j & Hs); [|done]. exists i, j. split; [done|].
  destruct (Hpl i j p Hs) as (h & [Hh _] & Hm). destruct (obj_key_hash t p k (Ho k p HM)) as [Hh' _].
  assert (h = hash_of k) by congruence. by subst.
Qed.

Lemma init_represents power ks cp0 :
  1 ≤ power ≤ 30 → zlen cp0 = MAX_CUCKOO_COUNT → represents (init power ks cp0) ∅.
Proof.
  intros Hp Hc. assert (Hpw : 0 < 2 ^ power ≤ 2 ^ 30) by (split; [apply Z.pow_pos_nonneg; lia|apply Z.pow_le_mono_r; lia]).
  assert (Hslots : slots (init power ks cp0) = replicate (Z.to_nat (4 * 2 ^ power)) None).
  { simpl. rewrite Z.shiftl_1_l, u32_small by lia. done. }
  split; [|split; [|split]].
  - split; [done|]. split; [|done]. rewrite Hslots. unfold zlen. rewrite length_replicate. simpl. lia.
  - intros i j p Hs. unfold slot_get in Hs. rewrite Hslots in Hs. case_decide; [|done]. unfold zget in Hs. case_decide; [|done].
    apply lookup_replicate in Hs as [Hs _]. done.
  - unfold content. rewrite Hslots. rewrite map_to_list_empty.
    assert (Hr : ∀ n, omap id (replicate n (None : option ptr)) = []) by (intros n; induction n as [|n IH]; [done|exact IH]).
    by rewrite Hr.
  - intros k p Hk. by rewrite lookup_empty in Hk.
Qed.

Lemma find_correct t M k : represents t M → key_ok t k → find chunkSize m t k (zlen k) false = Some (M !! k).
Proof.
  intros Hrep Hk. pose proof Hrep as (Hwf & _). unfold find. rewrite lookup_hash_eq. cbn [mbind option_bind].
  pose proof (hash_of_range k) as Hh. set (i1 := indexHash t (hash_of k)). set (i2 := altIndex t i1 (tagHash (hash_of k))).
  destruct (bucket_search t M k i1 Hrep Hk (index_ok _ _ Hwf Hh)) as (r & -> & Hr). cbn [mbind option_bind].
  destruct r as [[p j]|]; [by destruct Hr as [_ ->]|].
  destruct (bucket_search t M k i2 Hrep Hk (alt_ok _ _ _ Hwf)) as (r & -> & Hr2). cbn [mbind option_bind].
  destruct r as [[p j]|]; [by destruct Hr2 as [_ ->]|].
  destruct (M !! k) as [p|] eqn:HM; [|done]. exfalso.
  destruct (key_home t M k p Hrep HM) as (i & j & Hs & [-> | ->]); [by eapply Hr|by eapply Hr2].
Qed.

Lemma insert_correct t M k p :
  represents t M → obj_key t p k → M !! k = None →
  ∃ b t', insert chunkSize rand m t k (zlen k) p false = Some (b, t') ∧ same_cfg t t' ∧
    represents t' (if b then <[k := p]> M else M) ∧
    ((∃ i j, home t (hash_of k) i ∧ slot_get t i j = Some None) → b = true).
Proof.
  intros (Hwf & Hpl & Hc & Ho) Hp HM.
  destruct (table_insert_spec t k (zlen k) p false (hash_of k) Hwf Hpl (lookup_hash_eq k) (obj_key_hash _ _ _ Hp))
    as (b & t' & E & Hcfg & Hwf' & Hpl' & Hc' & Hroom).
  exists b, t'. split; [done|]. split; [done|]. split.
  - split; [done|]. split; [done|]. destruct b.
    + split; [|]. { rewrite Hc', map_to_list_insert by done. simpl. by rewrite Hc. }
      intros k' p' Hk'. apply (obj_key_cfg t t'); [done|]. apply lookup_insert_Some in Hk' as [[<- <-]|[_ Hk']]; [done|by apply Ho].
    + split; [by rewrite Hc'|]. intros k' p' Hk'. apply (obj_key_cfg t t'); [done|]. by apply Ho.
  - intros (i & j & [-> | ->] & Hs); apply Hroom; exists j; [by left|by right].
Qed.

Lemma del_slot t M k p i j :
  represents t M → slot_get t i j = Some (Some p) → M !! k = Some p →
  ∃ t', slot_set t i j None = Some t' ∧ same_cfg t t' ∧ represents t' (delete k M).
Proof.
  intros (Hwf & Hpl & Hc & Ho) Hs HM.
  destruct (slot_set_spec t i j (Some p) None Hwf Hs) as (t' & E & Ht' & Hwf' & Hg & Hoth & _ & Hc'). specialize (Hc' eq_refl).
  pose proof (set_slots_cfg _ _ _ Ht') as Hcfg.
  exists t'. split; [done|]. split; [done|]. split; [done|]. split; [by eapply (placed_set t i j None)|]. split.
  - apply (Permutation_cons_inv (a := p)). rewrite <- Hc', Hc.
    change (p :: (map_to_list (delete k M)).*2) with (((k, p) :: map_to_list (delete k M)).*2).
    by rewrite <- map_to_list_delete.
  - intros k' p' Hk'. apply lookup_delete_Some in Hk' as [_ Hk']. apply (obj_key_cfg t t'); [done|]. by apply Ho.
Qed.

Lemma del_correct t M k : represents t M → key_ok t k →
  ∃ t', del chunkSize m t k (zlen k) false = Some t' ∧ same_cfg t t' ∧ represents t' (delete k M).
Proof.
  intros Hrep Hk. pose proof Hrep as (Hwf & _). unfold del. rewrite lookup_hash_eq. cbn [mbind option_bind].
  pose proof (hash_of_range k) as Hh. set (i1 := indexHash t (hash_of k)). set (i2 := altIndex t i1 (tagHash (hash_of k))).
  unfold tryDel. destruct (bucket_search t M k i1 Hrep Hk (index_ok _ _ Hwf Hh)) as (r & -> & Hr). cbn [mbind option_bind].
  destruct r as [[p j]|].
  { destruct Hr as [Hs HM]. destruct (del_slot t M k p i1 j Hrep Hs HM) as (t' & -> & ?). by exists t'. }
  cbn [mbind option_bind].
  destruct (bucket_search t M k i2 Hrep Hk (alt_ok _ _ _ Hwf)) as (r & -> & Hr2). cbn [mbind option_bind].
  destruct r as [[p j]|].
  { destruct Hr2 as [Hs HM]. destruct (del_slot t M k p i2 j Hrep Hs HM) as (t' & -> & ?). by exists t'. }
  exists t. split; [done|]. split; [done|]. rewrite delete_id; [done|].
  destruct (M !! k) as [p|] eqn:HM; [|done]. exfalso.
  destruct (key_home t M k p Hrep HM) as (i & j & Hs & [-> | ->]); [by eapply Hr|by eapply Hr2].
Qed.
End proofs.

(** C19: the cuckoo table implements a finite map from keys to pointers, for the
    fixed-size keys of chunks and for the keys of small objects without NUL
    bytes.  A new table is empty; [find] is lookup; [insert] of a fresh key
    terminates and either adds the pair or, only when both buckets are full,
    fails and leaves the map as it was, however the pointers were moved; [del]
    removes the key.  No operation reads or asserts out of place. *)
Theorem cuckoo_refines_map (chunkSize : Z) (rand : nat → Z) (m : mem) :
  (∀ power ks cp0, 1 ≤ power ≤ 30 → zlen cp0 = MAX_CUCKOO_COUNT → represents chunkSize m (init power ks cp0) ∅) ∧
  ∀ t M k, represents chunkSize m t M → key_ok t k →
    find chunkSize m t k (zlen k) false = Some (M !! k) ∧
    (∀ p, obj_key chunkSize m t p k → M !! k = None →
       ∃ b t', insert chunkSize rand m t k (zlen k) p false = Some (b, t') ∧ same_cfg t t' ∧
         represents chunkSize m t' (if b then <[k := p]> M else M) ∧
         ((∃ i j, home t (hash_of k) i ∧ slot_get t i j = Some None) → b = true)) ∧
    (∃ t', del chunkSize m t k (zlen k) false = Some t' ∧ same_cfg t t' ∧ represents chunkSize m t' (delete k M)).
Proof.
  split; [intros; by apply init_represents|]. intros t M k Hrep Hk.
  split; [by apply find_correct|]. split; [intros; by apply insert_correct|by apply del_correct].
Qed.

(** A table of two buckets with two-byte keys. *)
Lemma cuckoo_refines_map_witness :
  let m : mem := {[ 0%nat := [z2b 1; z2b 2; z2b 3] ]} in
  let t := init 1 2 (replicate 500 (CP 0 0 None)) in
  ∃ t', insert 64 (λ _, 0) m t [z2b 1; z2b 2] 2 (Ptr 0 0) false = Some (true, t') ∧
    find 64 m t' [z2b 1; z2b 2] 2 false = Some (Some (Ptr 0 0)).
Proof.
  intros m t. destruct (cuckoo_refines_map 64 (λ _, 0) m) as [Hinit Hops].
  pose proof (Hinit 1 2 (replicate 500 (CP 0 0 None)) ltac:(lia) eq_refl) as Ht. fold t in Ht.
  destruct (Hops t ∅ [z2b 1; z2b 2] Ht eq_refl) as (_ & Hins & _).
  destruct (Hins (Ptr 0 0)) as (b & t' & E & [Hk _] & Hrep & Hroom); [reflexivity|reflexivity|].
  assert (b = true) as ->.
  { apply Hroom. exists (indexHash t (hash_of [z2b 1; z2b 2])), 0. split; [left; reflexivity|vm_compute; reflexivity]. }
  exists t'. split; [exact E|].
  assert (Hkey : key_ok t' [z2b 1; z2b 2]) by (unfold key_ok; rewrite <- Hk; reflexivity).
  destruct (Hops t' _ [z2b 1; z2b 2] Hrep Hkey) as (Hfind & _). change (zlen [z2b 1; z2b 2]) with 2 in Hfind.
  rewrite Hfind. reflexivity.
Defined.
End CuckooHash.
