(* ===== verification/ChunkUtil.v ===== *)
(** * Chunks (common/ds/metadata.hh, common/ds/chunk.hh, common/ds/chunk_util.hh)

    [Metadata] names a chunk: stripe list, stripe and position in the stripe.
    A chunk in memory is an eight-byte identifier followed by [chunkSize] bytes
    of data: objects one after the other in a data chunk, the code's redundancy
    in a parity chunk.  [ChunkUtil] reads and writes both. *)

From S2P Require Export KeyValue BitwiseXor.

(** ** Metadata *)
Module Metadata.

Record Metadata := MkMetadata { listId : Z; stripeId : Z; chunkId : Z }.
#[export] Instance Metadata_eq_dec : EqDecision Metadata.
Proof. solve_decision. Defined.
#[export] Instance Metadata_countable : Countable Metadata :=
  inj_countable (λ m, (listId m, stripeId m, chunkId m))
    (λ t, Some (MkMetadata t.1.1 t.1.2 t.2)) (λ m, match m with MkMetadata _ _ _ => eq_refl end).

Definition clear : Metadata := MkMetadata 0 0 0.
Definition set (l s c : Z) : Metadata := MkMetadata l s c.
Definition clone (m : Metadata) : Metadata := MkMetadata (listId m) (stripeId m) (chunkId m).

Definition less (a b : Metadata) : bool :=
  if decide (listId a < listId b) then true
  else if decide (listId a > listId b) then false
  else if decide (stripeId a < stripeId b) then true
  else if decide (stripeId a > stripeId b) then false
  else bool_decide (chunkId a < chunkId b).

Definition equal (a b : Metadata) : bool :=
  bool_decide (listId a = listId b) && bool_decide (stripeId a = stripeId b) && bool_decide (chunkId a = chunkId b).

(** [std::hash]: the eight bytes of the result, copied from the fields. *)
Definition hash (m : Metadata) : Z :=
  le_val (take 4 (le_bytes 4 (stripeId m)) ++ take 2 (le_bytes 4 (listId m)) ++ take 2 (le_bytes 4 (chunkId m))).

Definition wf (m : Metadata) : Prop :=
  0 ≤ listId m < 2 ^ 32 ∧ 0 ≤ stripeId m < 2 ^ 32 ∧ 0 ≤ chunkId m < 2 ^ 32.

Lemma metadata_equal_spec a b : equal a b = true ↔ a = b.
Proof.
  unfold equal. rewrite !andb_true_iff, !bool_decide_eq_true. destruct a, b; simpl.
  split; [intros [[-> ->] ->]; done|intros [= -> -> ->]; done].
Qed.

(** [Metadata::operator<] is a strict total order compatible with
    [operator==], and the 64-bit hash separates all metadata whose list and
    chunk numbers fit sixteen bits. *)
Theorem metadata_order_hash :
  (∀ a, less a a = false) ∧
  (∀ a b c, less a b = true → less b c = true → less a c = true) ∧
  (∀ a b, less a b = false → less b a = false → equal a b = true) ∧
  (∀ a b, wf a → wf b → listId a < 2 ^ 16 → listId b < 2 ^ 16 → chunkId a < 2 ^ 16 → chunkId b < 2 ^ 16 →
     hash a = hash b → a = b).
Proof.
  split_and!.
  - intros a. unfold less. repeat case_decide; try lia. by apply bool_decide_eq_false_2; lia.
  - intros a b c. unfold less. repeat case_decide; rewrite ?bool_decide_eq_true; lia.
  - intros a b. rewrite metadata_equal_spec. unfold less.
    repeat case_decide; rewrite ?bool_decide_eq_false; try lia. intros.
    destruct a, b; simpl in *. f_equal; lia.
  - intros a b Ha Hb La Lb Ca Cb He. unfold hash in He.
    assert (Hx : ∀ m, length (take 4 (le_bytes 4 (stripeId m)) ++ take 2 (le_bytes 4 (listId m)) ++
                        take 2 (le_bytes 4 (chunkId m))) = 8%nat).
    { intros m. rewrite !length_app, !length_take, !length_le_bytes. done. }
    apply (f_equal (le_bytes 8)) in He.
    rewrite <- (Hx a) in He at 1. rewrite le_bytes_le_val, <- (Hx b), le_bytes_le_val in He.
    assert (Hle : ∀ x y, 0 ≤ x < 2 ^ 32 → 0 ≤ y < 2 ^ 32 → le_bytes 4 x = le_bytes 4 y → x = y).
    { intros x y ? ? H%(f_equal le_val). rewrite !le_val_le_bytes, !Z.mod_small in H by lia. done. }
    assert (Hle2 : ∀ x y, 0 ≤ x < 2 ^ 16 → 0 ≤ y < 2 ^ 16 → take 2 (le_bytes 4 x) = take 2 (le_bytes 4 y) → x = y).
    { intros x y ? ? H. change (take 2 (le_bytes 4 x)) with (le_bytes 2 x) in H.
      change (take 2 (le_bytes 4 y)) with (le_bytes 2 y) in H. apply (f_equal le_val) in H.
      rewrite !le_val_le_bytes, !Z.mod_small in H by lia. done. }
    apply app_inj_1 in He as [H1 He]; [|by rewrite !length_take, !length_le_bytes].
    apply app_inj_1 in He as [H2 H3]; [|by rewrite !length_take, !length_le_bytes].
    rewrite !firstn_all2 in H1 by (by rewrite length_le_bytes).
    destruct Ha as (? & ? & ?), Hb as (? & ? & ?).
    apply Hle in H1; [|done..]. apply Hle2 in H2; [|lia..]. apply Hle2 in H3; [|lia..].
    destruct a, b; simpl in *; congruence.
Qed.

Lemma metadata_order_hash_witness :
  less (MkMetadata 0 1 2) (MkMetadata 0 2 0) = true ∧ less (MkMetadata 0 2 0) (MkMetadata 1 0 0) = true ∧
  less (MkMetadata 0 1 2) (MkMetadata 1 0 0) = true.
Proof.
  destruct metadata_order_hash as (_ & Htr & _).
  split; [reflexivity|]. split; [reflexivity|].
  apply (Htr _ (MkMetadata 0 2 0)); reflexivity.
Defined.
End Metadata.

(** ** ChunkUtil *)
Module ChunkUtil.
Import LargeObjectUtil KeyValue Metadata.

Definition CHUNK_IDENTIFIER_SIZE : Z := 8.

Section chunk_util.
(** The static members, and the address of the zero chunk [Coding::zeros]. *)
Variables (chunkSize dataChunkCount : Z) (zeros : ptr).

(** *** Identifier: [uint8_t], a bit-field of 48 bits, [uint8_t], packed *)
Definition getListId (m : mem) (chunk : ptr) : option Z := b2z <$> load8 m chunk.
(** The 48-bit field, converted to the [uint32_t] result. *)
Definition getStripeId (m : mem) (chunk : ptr) : option Z :=
  bs ← load m (chunk +ₚ 1) 6; Some (u32 (le_val bs)).
Definition getChunkId (m : mem) (chunk : ptr) : option Z := b2z <$> load8 m (chunk +ₚ 7).

Definition get (m : mem) (chunk : ptr) : option (Z * Z * Z) :=
  l ← getListId m chunk; s ← getStripeId m chunk; c ← getChunkId m chunk; Some (l, s, c).
Definition getMetadata (m : mem) (chunk : ptr) : option Metadata :=
  '(l, s, c) ← get m chunk; Some (Metadata.set l s c).

Definition setListId (m : mem) (chunk : ptr) (listId : Z) : option mem := store8 m chunk (z2b listId).
Definition setStripeId (m : mem) (chunk : ptr) (stripeId : Z) : option mem :=
  store m (chunk +ₚ 1) (le_bytes 6 stripeId).
Definition setChunkId (m : mem) (chunk : ptr) (chunkId : Z) : option mem :=
  store8 m (chunk +ₚ 7) (z2b chunkId).
Definition set (m : mem) (chunk : ptr) (listId stripeId chunkId : Z) : option mem :=
  m ← setListId m chunk listId; m ← setStripeId m chunk stripeId; setChunkId m chunk chunkId.

Definition isParity (m : mem) (chunk : ptr) : option bool :=
  c ← getChunkId m chunk; Some (bool_decide (dataChunkCount ≤ c)).

(** *** Objects of a data chunk *)
Definition getData (chunk : ptr) : ptr := chunk +ₚ CHUNK_IDENTIFIER_SIZE.
Definition getObject (chunk : ptr) (offset : Z) : ptr := getData chunk +ₚ offset.

(** [tmp]: the bytes an object occupies, as computed in every scan. *)
Definition objectSize (f : fields) : option (Z * bool) :=
  si ← isLarge chunkSize (f_keySize f) (f_valueSize f);
  Some (if si_large si then
          (u32 (KEY_VALUE_METADATA_SIZE + SPLIT_OFFSET_SIZE + f_keySize f
                + clampSplit (f_valueSize f) (f_splitOffset f) (si_size si)), true)
        else (u32 (KEY_VALUE_METADATA_SIZE + f_keySize f + f_valueSize f), false)).

(** The scan of a data chunk, which [getSize] and [getCount] share: bytes and
    number of objects up to the first empty header or the end of the chunk.
    The fuel bounds the number of objects; running out stands for a scan that
    does not end. *)
Fixpoint scan (fuel : nat) (m : mem) (data p : ptr) (_chunkSize count : Z) : option (Z * Z) :=
  match fuel with
  | O => None
  | S fuel' =>
      if decide (off p + KEY_VALUE_METADATA_SIZE < off data + chunkSize) then
        f ← deserialize chunkSize m p;
        if decide (f_keySize f = 0 ∧ f_valueSize f = 0) then Some (_chunkSize, count)
        else
          '(tmp, _) ← objectSize f;
          scan fuel' m data (p +ₚ tmp) (u32 (_chunkSize + tmp)) (u32 (count + 1))
      else Some (_chunkSize, count)
  end.

Definition getSize (fuel : nat) (m : mem) (chunk : ptr) : option Z :=
  if decide (chunk = zeros) then Some 0 else
  p ← isParity m chunk;
  if (p : bool) then Some chunkSize else
  fst <$> scan fuel m (getData chunk) (getData chunk) 0 0.

Definition getCount (fuel : nat) (m : mem) (chunk : ptr) : option Z :=
  p ← isParity m chunk;
  if (p : bool) then Some 0 else
  snd <$> scan fuel m (getData chunk) (getData chunk) 0 0.

(** [getData] with the range outside of which the contents are zero. *)
Fixpoint skip_zeros (n : nat) (m : mem) (data : ptr) (offset : Z) : option Z :=
  match n with
  | O => Some offset
  | S n' => b ← load8 m (data +ₚ offset);
            if decide (b ≠ x00) then Some offset else skip_zeros n' m data (offset + 1)
  end.
Fixpoint drop_zeros (n : nat) (m : mem) (data : ptr) (offset size : Z) : option Z :=
  match n with
  | O => Some size
  | S n' =>
      if decide (size > offset) then
        b ← load8 m (data +ₚ size);
        if decide (b ≠ x00) then Some size else drop_zeros n' m data offset (size - 1)
      else Some size
  end.
Definition getData_range (fuel : nat) (m : mem) (chunk : ptr) : option (ptr * Z * Z) :=
  _chunkSize ← getSize fuel m chunk;
  let data := getData chunk in
  if decide (_chunkSize > 0) then
    offset ← skip_zeros (Z.to_nat _chunkSize) m data 0;
    size ← drop_zeros (Z.to_nat _chunkSize) m data offset (_chunkSize - 1);
    Some (data +ₚ offset, offset, u32 (size + 1 - offset))
  else Some (data, 0, 0).

(** The outcome of [next]: the return value and, when the object was read, the
    values given to [key] ([None] for the null pointer), [keySize], [isLarge]. *)
Definition next (m : mem) (chunk : ptr) (offset : Z) : option (Z * option (option ptr * Z * bool)) :=
  let data := getData chunk in
  let p := data +ₚ offset in
  if decide (off p + KEY_VALUE_METADATA_SIZE < off data + chunkSize) then
    f ← deserialize chunkSize m p;
    '(tmp, large) ← objectSize f;
    if decide (f_keySize f ≠ 0)
    then Some (offset + tmp, Some (Some (f_key f), f_keySize f, large))
    else Some (-1, Some (None, f_keySize f, large))
  else Some (-1, None).

(** [alloc] writes a placeholder header at the end of the objects. *)
Definition alloc (fuel : nat) (m : mem) (chunk : ptr) (size : Z) : option (ptr * Z * mem) :=
  offset ← getSize fuel m chunk;
  let p := chunk +ₚ CHUNK_IDENTIFIER_SIZE +ₚ offset in
  m ← serialize chunkSize m p None 0 None (u32 (size - CHUNK_IDENTIFIER_SIZE)) 0;
  Some (p, offset, m).

(** *** Updates *)
Definition computeDelta (m : mem) (chunk delta newData : ptr) (offset length : Z) (applyUpdate : bool) : option mem :=
  let data := getData chunk +ₚ offset in
  m ← bitwiseXOR m delta data newData length;
  if applyUpdate then bitwiseXOR m data data delta length else Some m.

Definition deleteObject (m : mem) (chunk : ptr) (offset : Z) (delta : option ptr) : option (Z * mem) :=
  let data := getData chunk +ₚ offset in
  f ← deserialize chunkSize m data;
  let length := u32 (f_keySize f + f_valueSize f) in
  m ← (if delta is Some delta then
         m ← memset m delta 0 (u32 (KEY_VALUE_METADATA_SIZE + length));
         m ← setSize m delta 0 length;
         m ← bitwiseXOR m delta data delta length;
         bitwiseXOR m data data delta length
       else memset m data 0 (u32 (KEY_VALUE_METADATA_SIZE + length)));
  Some (length, m).

Definition dup (m : mem) (dst src : ptr) : option mem := memcpy m dst src (CHUNK_IDENTIFIER_SIZE + chunkSize).
Definition copy (m : mem) (chunk : ptr) (offset : Z) (src : ptr) (n : Z) : option mem :=
  memcpy m (getData chunk +ₚ offset) src n.
Definition load_data (m : mem) (chunk : ptr) (offset : Z) (src : ptr) (n : Z) : option mem :=
  let dst := getData chunk in
  m ← (if decide (offset > 0) then memset m dst 0 offset else Some m);
  m ← memcpy m (dst +ₚ offset) src n;
  if decide (u32 (offset + n) < chunkSize)
  then memset m (dst +ₚ offset +ₚ n) 0 (u32 (chunkSize - offset - n)) else Some m.
Definition clear (m : mem) (chunk : ptr) : option mem := memset m chunk 0 (CHUNK_IDENTIFIER_SIZE + chunkSize).
End chunk_util.

(** *** The contents of a data chunk *)
Record obj := Obj { o_valueSize : Z; o_splitOffset : Z; o_key : list byte; o_value : list byte }.

Section layout.
Variables (chunkSize dataChunkCount : Z) (zeros : ptr).

Definition obj_bytes (o : obj) : list byte :=
  format chunkSize (o_valueSize o) (o_splitOffset o) (o_key o) (o_value o).
Definition obj_size (o : obj) : Z := zlen (obj_bytes o).
Definition objs_bytes (os : list obj) : list byte := concat (obj_bytes <$> os).

(** An object, or what is left of a deleted one: not an empty header. *)
Definition obj_ok (o : obj) : Prop :=
  format_ok chunkSize (o_valueSize o) (o_splitOffset o) (o_key o) (o_value o) ∧
  0 < zlen (o_key o) + o_valueSize o.

(** The chunk holds exactly these objects, and zeros up to its end. *)
Definition layout (m : mem) (chunk : ptr) (os : list obj) (pad : Z) : Prop :=
  0 ≤ pad ∧ Forall obj_ok os ∧
  load m (getData chunk) chunkSize = Some (objs_bytes os ++ replicate (Z.to_nat pad) x00).

Definition chunk_sizes : Prop := KEY_VALUE_METADATA_SIZE + SPLIT_OFFSET_SIZE < chunkSize < 2 ^ 31.

Lemma obj_size_bounds o : obj_ok o → 4 < obj_size o ≤ chunkSize.
Proof.
  intros [Hf Hp]. pose proof (format_fits _ _ _ _ _ Hf) as H. split; [|apply H].
  unfold obj_size, obj_bytes. rewrite zlen_format. destruct Hf as ((? & ? & ?) & ? & Hv & ?).
  unfold payload_len in Hv. destruct (is_large _ _ _) eqn:E.
  - unfold zlen in *. lia.
  - lia.
Qed.

Lemma objectSize_format p vs so kb vb q :
  format_ok chunkSize vs so kb vb →
  objectSize chunkSize (Fields p (zlen kb) q vs so) =
    Some (zlen (format chunkSize vs so kb vb), is_large chunkSize (zlen kb) vs).
Proof.
  intros Hok. pose proof Hok as (Hsz & Hso & Hvb & _). unfold objectSize; simpl.
  destruct (isLarge_is_large chunkSize (zlen kb) vs Hsz) as (si & Hsi & Hlg & _). rewrite Hsi. simpl.
  pose proof (payload_clamp _ _ _ _ _ Hsz Hso Hsi) as Hp. pose proof (format_fits _ _ _ _ _ Hok) as Hfit.
  destruct Hsz as (? & ? & ?). rewrite zlen_format in *. rewrite Hlg in *.
  unfold KEY_VALUE_METADATA_SIZE, SPLIT_OFFSET_SIZE.
  destruct (is_large _ _ _); rewrite Hp, <- Hvb, u32_small by lia; do 2 f_equal; lia.
Qed.

(** Loading one object out of the list. *)
Lemma load_obj m data pre o rest :
  obj_ok o → load m data chunkSize = Some (pre ++ obj_bytes o ++ rest) →
  load m (data +ₚ zlen pre) (obj_size o) = Some (obj_bytes o).
Proof.
  intros Ho Hl. pose proof (load_zlen _ _ _ _ Hl) as Hz. unfold obj_size.
  rewrite (load_sub _ _ _ _ _ _ Hl); [by apply slice_app_mid|unfold zlen; lia..|].
  rewrite <- Hz. unfold zlen. rewrite !length_app. lia.
Qed.

Lemma scan_layout fuel m data os pre pad size count :
  chunk_sizes → (length os < fuel)%nat → Forall obj_ok os → 0 ≤ pad →
  load m data chunkSize = Some (pre ++ objs_bytes os ++ replicate (Z.to_nat pad) x00) →
  0 ≤ size → size + zlen (objs_bytes os) < 2 ^ 32 → 0 ≤ count → count + zlen os < 2 ^ 32 →
  scan chunkSize fuel m data (data +ₚ zlen pre) size count =
    Some (size + zlen (objs_bytes os), count + zlen os).
Proof.
  intros Hcs. revert fuel pre size count. induction os as [|o os IH]; intros fuel pre size count Hf Hok Hpad Hl H1 H2 H3 H4.
  - destruct fuel as [|fuel]; [simpl in *; lia|]. change (objs_bytes []) with (@nil byte) in *. simpl in *. unfold KEY_VALUE_METADATA_SIZE.
    change (zlen (@nil byte)) with 0. change (zlen (@nil obj)) with 0. rewrite !Z.add_0_r.
    case_decide as Hc; [|done].
    pose proof (load_zlen _ _ _ _ Hl) as Hz.
    assert (Hfm : format chunkSize 0 0 [] [] = replicate 4 x00).
    { unfold format, split_bytes, is_large. rewrite bool_decide_eq_false_2; [done|].
      unfold chunk_sizes, KEY_VALUE_METADATA_SIZE, SPLIT_OFFSET_SIZE, zlen in *. simpl. lia. }
    destruct (deserialize_format chunkSize m (data +ₚ zlen pre) 0 0 [] []) as (Hd & _).
    + unfold format_ok, sizes_ok, payload_len, is_large, chunk_sizes, KEY_VALUE_METADATA_SIZE, SPLIT_OFFSET_SIZE in *.
      rewrite bool_decide_eq_false_2 by (unfold zlen; simpl; lia). unfold zlen; simpl. lia.
    + rewrite Hfm. change (zlen (replicate 4 x00)) with 4.
      assert (Hp : 4 < pad) by (unfold zlen in *; rewrite length_app, length_replicate in Hz; lia).
      rewrite (load_sub _ _ _ _ _ _ Hl); [|unfold zlen; lia|lia|lia].
      replace (Z.to_nat pad) with (4 + Z.to_nat (pad - 4))%nat by lia. rewrite replicate_add.
      by apply slice_app_mid.
    + rewrite Hd. reflexivity.
  - destruct fuel as [|fuel]; [simpl in *; lia|]. apply Forall_cons in Hok as [Ho Hok].
    change (objs_bytes (o :: os)) with (obj_bytes o ++ objs_bytes os) in Hl. rewrite <- app_assoc in Hl.
    pose proof (load_obj _ _ _ _ _ Ho Hl) as Hlo. pose proof (load_zlen _ _ _ _ Hl) as Hz.
    pose proof (obj_size_bounds _ Ho) as Hb. unfold obj_size in *.
    assert (Hzo : zlen (objs_bytes (o :: os)) = zlen (obj_bytes o) + zlen (objs_bytes os)).
    { change (objs_bytes (o :: os)) with (obj_bytes o ++ objs_bytes os). unfold zlen. rewrite length_app. lia. }
    assert (Hzc : zlen (o :: os) = 1 + zlen os) by (unfold zlen; simpl; lia).
    cbn [scan]. unfold KEY_VALUE_METADATA_SIZE. rewrite decide_True.
    2:{ simpl. rewrite <- Hz. unfold zlen in *. rewrite !length_app. lia. }
    destruct (deserialize_format _ _ _ _ _ _ _ (proj1 Ho) Hlo) as (Hd & _). rewrite Hd. cbn [mbind option_bind f_keySize f_valueSize].
    rewrite decide_False.
    2:{ destruct Ho as [? ?]. lia. }
    rewrite (objectSize_format _ _ _ (o_key o) (o_value o)) by apply Ho. cbn [mbind option_bind]. rewrite padd_padd.
    fold (obj_bytes o). rewrite Hzo, Hzc in *. assert (0 ≤ zlen os ∧ 0 ≤ zlen (objs_bytes os)) by (unfold zlen; lia).
    rewrite (u32_small (size + _)), (u32_small (count + 1)) by lia.
    replace (zlen pre + zlen (obj_bytes o)) with (zlen (pre ++ obj_bytes o)) by (unfold zlen; rewrite length_app; lia).
    rewrite IH; [do 2 f_equal; lia|simpl in *; lia|done|done| |lia..].
    rewrite <- app_assoc. exact Hl.
Qed.

Lemma zlen_objs_bytes_nonneg os : 0 ≤ zlen (objs_bytes os).
Proof. unfold zlen. lia. Qed.

Lemma objs_bytes_app os os' : objs_bytes (os ++ os') = objs_bytes os ++ objs_bytes os'.
Proof. unfold objs_bytes. by rewrite fmap_app, concat_app. Qed.

Lemma layout_zlen m chunk os pad : layout m chunk os pad → zlen (objs_bytes os) + pad = chunkSize.
Proof.
  intros (? & _ & Hl). apply load_zlen in Hl. unfold zlen in *.
  rewrite length_app, length_replicate in Hl. lia.
Qed.

(** There are fewer objects than bytes, so [chunkSize] is enough fuel. *)
Lemma objs_count os : Forall obj_ok os → zlen os ≤ zlen (objs_bytes os).
Proof.
  induction 1 as [|o os Ho Hos IH]; [done|].
  change (objs_bytes (o :: os)) with (obj_bytes o ++ objs_bytes os).
  pose proof (obj_size_bounds _ Ho). unfold obj_size, zlen in *. rewrite length_app. simpl. lia.
Qed.

Lemma layout_scan m chunk os pad :
  chunk_sizes → layout m chunk os pad →
  scan chunkSize (Z.to_nat (chunkSize + 1)) m (getData chunk) (getData chunk) 0 0 =
    Some (zlen (objs_bytes os), zlen os).
Proof.
  intros Hcs HL. pose proof (layout_zlen _ _ _ _ HL). destruct HL as (Hp & Hok & Hl).
  pose proof (objs_count os Hok). unfold chunk_sizes, KEY_VALUE_METADATA_SIZE, SPLIT_OFFSET_SIZE in *.
  rewrite <- (padd_0 (getData chunk)) at 2. change 0 with (zlen (@nil byte)) at 1.
  erewrite (scan_layout _ m (getData chunk) os []); [by rewrite !Z.add_0_l|done| |done|exact Hp|exact Hl|lia..].
  unfold zlen in *. lia.
Qed.

Lemma layout_getSize m chunk os pad :
  chunk_sizes → layout m chunk os pad → chunk ≠ zeros → isParity dataChunkCount m chunk = Some false →
  getSize chunkSize dataChunkCount zeros (Z.to_nat (chunkSize + 1)) m chunk = Some (zlen (objs_bytes os)).
Proof.
  intros Hcs HL Hz Hp. unfold getSize. rewrite decide_False by done. rewrite Hp. cbn [mbind option_bind].
  rewrite (layout_scan _ _ os pad) by done. done.
Qed.

Lemma layout_next m chunk pre o post pad :
  chunk_sizes → layout m chunk (pre ++ o :: post) pad → o_key o ≠ [] →
  ∃ kp, next chunkSize m chunk (zlen (objs_bytes pre)) =
    Some (zlen (objs_bytes (pre ++ [o])), Some (Some kp, zlen (o_key o), is_large chunkSize (zlen (o_key o)) (o_valueSize o))) ∧
    load m kp (zlen (o_key o)) = Some (o_key o).
Proof.
  intros Hcs (Hp & Hok & Hl) Hk. apply Forall_app in Hok as [_ Hok]. apply Forall_cons in Hok as [Ho _].
  rewrite objs_bytes_app in Hl. change (objs_bytes (o :: post)) with (obj_bytes o ++ objs_bytes post) in Hl.
  rewrite <- !app_assoc in Hl. pose proof (load_obj _ _ _ _ _ Ho Hl) as Hlo. pose proof (load_zlen _ _ _ _ Hl) as Hz.
  pose proof (obj_size_bounds _ Ho) as Hb. unfold obj_size in *.
  destruct (deserialize_format _ _ _ _ _ _ _ (proj1 Ho) Hlo) as (Hd & Hkey & _).
  eexists. split; [|exact Hkey]. unfold next, KEY_VALUE_METADATA_SIZE. rewrite decide_True.
  2:{ simpl. rewrite <- Hz. unfold zlen in *. rewrite !length_app. lia. }
  rewrite Hd. cbn [mbind option_bind]. rewrite (objectSize_format _ _ _ (o_key o) (o_value o)) by apply Ho.
  cbn [mbind option_bind f_keySize f_key]. rewrite decide_True.
  2:{ destruct (o_key o); [done|]. unfold zlen. simpl. lia. }
  do 3 f_equal. rewrite objs_bytes_app. change (objs_bytes [o]) with (obj_bytes o ++ []). rewrite app_nil_r.
  unfold zlen. rewrite length_app. fold (obj_bytes o). lia.
Qed.

Lemma alloc_layout m chunk os pad size :
  chunk_sizes → layout m chunk os pad → chunk ≠ zeros → isParity dataChunkCount m chunk = Some false →
  4 < size ≤ pad →
  let p := getData chunk +ₚ zlen (objs_bytes os) in
  ∃ hdr m', zlen hdr = 4 ∧ store m p hdr = Some m' ∧
    alloc chunkSize dataChunkCount zeros (Z.to_nat (chunkSize + 1)) m chunk size = Some (p, zlen (objs_bytes os), m').
Proof.
  intros Hcs HL Hz Hpar Hsize p. pose proof (layout_zlen _ _ _ _ HL). pose proof (zlen_objs_bytes_nonneg os).
  set (hdr := z2b 0 :: tmp_bytes (u32 (size - CHUNK_IDENTIFIER_SIZE))).
  assert (Hh : zlen hdr = 4) by done.
  destruct (store_is_Some m p hdr) as [m' Hm'].
  { rewrite Hh. destruct HL as (? & ? & Hl). eapply valid_sub; [by eapply load_Some_valid|lia..]. }
  exists hdr, m'. split; [done|]. split; [done|].
  unfold alloc. rewrite (layout_getSize _ _ os pad) by done. cbn [mbind option_bind].
  fold (getData chunk). fold p. unfold serialize. fold hdr. rewrite Hm'. cbn [mbind option_bind].
  unfold isLarge, totalSize, KEY_VALUE_METADATA_SIZE, CHUNK_IDENTIFIER_SIZE, u32.
  rewrite Zplus_mod_idemp_r. unfold chunk_sizes, KEY_VALUE_METADATA_SIZE, SPLIT_OFFSET_SIZE in *.
  rewrite (Z.mod_small (4 + 0 + (size - 8))) by lia. rewrite decide_False by lia. done.
Qed.

(** Writing an object where the zeros start extends the layout. *)
Lemma layout_extend m chunk os pad hdr m1 o m2 :
  layout m chunk os pad → obj_ok o → obj_size o ≤ pad →
  let p := getData chunk +ₚ zlen (objs_bytes os) in
  zlen hdr = 4 → store m p hdr = Some m1 → store m1 p (obj_bytes o) = Some m2 →
  layout m2 chunk (os ++ [o]) (pad - obj_size o).
Proof.
  intros (Hp & Hok & Hl) Ho Hsz p Hh H1 H2. pose proof (load_zlen _ _ _ _ Hl) as Hz.
  pose proof (obj_size_bounds _ Ho). unfold obj_size in *. pose proof (zlen_objs_bytes_nonneg os).
  assert (Hz' : zlen (objs_bytes os) + pad = chunkSize).
  { unfold zlen in *. rewrite length_app, length_replicate in Hz. lia. }
  pose proof (load_store_splice _ _ _ _ p (zlen (objs_bytes os)) hdr _ Hl eq_refl ltac:(lia) ltac:(lia) H1) as L1.
  replace (Z.to_nat pad) with (4 + Z.to_nat (pad - 4))%nat in L1 by lia. rewrite replicate_add in L1.
  rewrite (splice_app _ _ _ hdr) in L1 by (try rewrite Hh; done).
  pose proof (load_store_splice _ _ _ _ p (zlen (objs_bytes os)) (obj_bytes o) _ L1 eq_refl ltac:(lia) ltac:(lia) H2) as L2.
  replace (Z.to_nat (pad - 4)) with (Z.to_nat (zlen (obj_bytes o) - 4) + Z.to_nat (pad - zlen (obj_bytes o)))%nat in L2 by lia.
  rewrite replicate_add, (app_assoc hdr) in L2.
  rewrite (splice_app _ _ _ (obj_bytes o)) in L2.
  2:{ done. }
  2:{ unfold zlen in *. rewrite length_app, length_replicate. lia. }
  split; [lia|]. split; [apply Forall_app; split; [done|]; by apply Forall_singleton|].
  rewrite objs_bytes_app. change (objs_bytes [o]) with (obj_bytes o ++ []). rewrite app_nil_r, <- app_assoc. exact L2.
Qed.
(** [alloc] followed by [serialize]; only the object's bytes change. *)
Lemma append_layout m chunk k v os pad o :
  chunk_sizes → layout m chunk os pad →
  chunk ≠ zeros → isParity dataChunkCount m chunk = Some false → obj_ok o → obj_size o ≤ pad →
  load m k (zlen (o_key o)) = Some (o_key o) → load m v (zlen (o_value o)) = Some (o_value o) →
  apart (getData chunk) chunkSize k (zlen (o_key o)) → apart (getData chunk) chunkSize v (zlen (o_value o)) →
  let p := getData chunk +ₚ zlen (objs_bytes os) in
  ∃ m1 m2,
    alloc chunkSize dataChunkCount zeros (Z.to_nat (chunkSize + 1)) m chunk (obj_size o) = Some (p, zlen (objs_bytes os), m1) ∧
    serialize chunkSize m1 p (Some k) (zlen (o_key o)) (Some v) (o_valueSize o) (o_splitOffset o) = Some m2 ∧
    layout m2 chunk (os ++ [o]) (pad - obj_size o) ∧
    (∀ q n, apart p (obj_size o) q n → load m2 q n = load m q n) ∧
    same_shape m m2 ∧ ∀ q, ¬ in_range p (obj_size o) q → mget m2 q = mget m q.
Proof.
  intros Hcs HL Hz Hpar Ho Hsz Hk Hv Hak Hav p. pose proof (obj_size_bounds _ Ho) as Hb.
  pose proof (layout_zlen _ _ _ _ HL) as Hlz. pose proof (zlen_objs_bytes_nonneg os) as Hnn.
  destruct (alloc_layout m chunk os pad (obj_size o)) as (hdr & m1 & Hh & Hm1 & Hal); [done..|lia|]. fold p in Hm1, Hal.
  assert (Hv1 : valid m1 p (zlen (obj_bytes o))).
  { rewrite <- (store_shape _ _ _ _ Hm1). destruct HL as (? & ? & Hl).
    eapply valid_sub; [by eapply load_Some_valid|..]; unfold obj_size in *; lia. }
  destruct (store_is_Some m1 p (obj_bytes o) Hv1) as [m2 Hm2].
  assert (Hsub : ∀ q n n', apart (getData chunk) chunkSize q n → n' ≤ obj_size o → apart p n' q n).
  { intros. eapply apart_sub; [done|lia|lia]. }
  exists m1, m2. split; [done|]. split; [|split; [by eapply layout_extend|split; [|split]]].
  - rewrite (serialize_format chunkSize m1 p k v _ _ (o_key o) (o_value o)); [exact Hm2|apply Ho|done|..].
    + rewrite (load_store_other _ _ _ _ _ _ Hm1); [done|]. apply Hsub; [done|lia].
    + rewrite (load_store_other _ _ _ _ _ _ Hm1); [done|]. apply Hsub; [done|lia].
    + apply Hsub; done.
    + apply Hsub; done.
  - intros q n Hq. rewrite (load_store_other _ _ _ _ _ _ Hm2) by done.
    apply (load_store_other _ _ _ _ _ _ Hm1). rewrite <- (padd_0 p). eapply apart_sub; [done|lia|lia].
  - etrans; by eapply store_shape.
  - intros q Hq. destruct (store_spec m1 p (obj_bytes o)) as (m2' & E2 & _ & F2); [done|]. assert (m2' = m2) as -> by congruence.
    destruct (store_spec m p hdr) as (m1' & E1 & _ & F1); [by eapply store_valid|]. assert (m1' = m1) as -> by congruence.
    unfold obj_size in *. rewrite F2, decide_False, F1, decide_False; [done| |done]. unfold in_range in *. lia.
Qed.
End layout.

(** C35: the scans of a data chunk that holds the objects [os] and zeros after
    them: [getSize] is the number of bytes of the objects, [getCount] their
    number, and [next], called with the offset of an object that has a key,
    returns the offset just after it with the object's key. *)
Theorem chunk_scan (chunkSize dataChunkCount : Z) (zeros : ptr) (m : mem) (chunk : ptr) (os : list obj) (pad : Z) :
  chunk_sizes chunkSize → layout chunkSize m chunk os pad →
  chunk ≠ zeros → isParity dataChunkCount m chunk = Some false →
  let fuel := Z.to_nat (chunkSize + 1) in
  getSize chunkSize dataChunkCount zeros fuel m chunk = Some (zlen (objs_bytes chunkSize os)) ∧
  getCount chunkSize dataChunkCount fuel m chunk = Some (zlen os) ∧
  ∀ pre o post, os = pre ++ o :: post → o_key o ≠ [] →
    ∃ kp, next chunkSize m chunk (zlen (objs_bytes chunkSize pre)) =
      Some (zlen (objs_bytes chunkSize (pre ++ [o])),
            Some (Some kp, zlen (o_key o), is_large chunkSize (zlen (o_key o)) (o_valueSize o))) ∧
      load m kp (zlen (o_key o)) = Some (o_key o).
Proof.
  intros Hcs HL Hz Hp fuel. split; [by eapply layout_getSize|]. split.
  - unfold getCount, fuel. rewrite Hp. cbn [mbind option_bind]. by rewrite (layout_scan _ _ _ os pad).
  - intros pre o post -> Hk. by eapply layout_next.
Qed.

(** An object is appended to a data chunk by [alloc] followed by
    [serialize] at the address [alloc] returns.  When the zeros at the end can
    hold the object both succeed, the object goes just after the others, and
    the chunk then holds the old objects and the new one; nothing outside the
    object's bytes changes. *)
Theorem chunk_append (chunkSize dataChunkCount : Z) (zeros : ptr) (m : mem) (chunk k v : ptr) (os : list obj) (pad : Z) (o : obj) :
  chunk_sizes chunkSize → layout chunkSize m chunk os pad →
  chunk ≠ zeros → isParity dataChunkCount m chunk = Some false →
  obj_ok chunkSize o → obj_size chunkSize o ≤ pad →
  load m k (zlen (o_key o)) = Some (o_key o) → load m v (zlen (o_value o)) = Some (o_value o) →
  apart (getData chunk) chunkSize k (zlen (o_key o)) → apart (getData chunk) chunkSize v (zlen (o_value o)) →
  let p := getData chunk +ₚ zlen (objs_bytes chunkSize os) in
  ∃ m1 m2,
    alloc chunkSize dataChunkCount zeros (Z.to_nat (chunkSize + 1)) m chunk (obj_size chunkSize o)
      = Some (p, zlen (objs_bytes chunkSize os), m1) ∧
    serialize chunkSize m1 p (Some k) (zlen (o_key o)) (Some v) (o_valueSize o) (o_splitOffset o) = Some m2 ∧
    layout chunkSize m2 chunk (os ++ [o]) (pad - obj_size chunkSize o) ∧
    ∀ q n, apart p (obj_size chunkSize o) q n → load m2 q n = load m q n.
Proof.
  intros Hcs HL Hz Hpar Ho Hsz Hk Hv Hak Hav p.
  destruct (append_layout chunkSize dataChunkCount zeros m chunk k v os pad o) as (m1 & m2 & Ha & Hs & HL2 & Hld & _); [done..|].
  exists m1, m2. done.
Qed.

(** [computeDelta] leaves in [delta] the exclusive or of the old and the
    new bytes of the range, and, when it applies the update, the new bytes in
    the chunk; it touches nothing else.  The delta may be computed in place of
    the new data. *)
Theorem computeDelta_spec (m : mem) (chunk delta newData : ptr) (offset len : Z) (applyUpdate : bool) :
  let data := getData chunk +ₚ offset in
  valid m data len → valid m delta len → valid m newData len →
  disjoint_ranges delta data len → same_or_disjoint delta newData len → disjoint_ranges data newData len →
  ∃ m', computeDelta m chunk delta newData offset len applyUpdate = Some m' ∧ same_shape m m' ∧
    (∀ i, 0 ≤ i < len → mbyte m' (delta +ₚ i) = bxor (mbyte m (data +ₚ i)) (mbyte m (newData +ₚ i))) ∧
    (∀ i, 0 ≤ i < len → mbyte m' (data +ₚ i) =
       if applyUpdate then mbyte m (newData +ₚ i) else mbyte m (data +ₚ i)) ∧
    (∀ q, ¬ in_range delta len q → ¬ in_range data len q → mget m' q = mget m q).
Proof.
  intros data Hd Hdl Hn Hdis Hsd Hdn. unfold computeDelta. fold data. clearbody data.
  destruct (bitwiseXOR_spec m delta data newData len) as (m1 & H1 & Sh1 & G1); [done..|by right|done|].
  assert (B1 : ∀ i, 0 ≤ i < len → mbyte m1 (delta +ₚ i) = bxor (mbyte m (data +ₚ i)) (mbyte m (newData +ₚ i))).
  { intros i Hi. unfold mbyte at 1. rewrite G1. unfold xor_result.
    rewrite decide_True by by apply in_range_padd. simpl. do 3 f_equal; unfold padd; f_equal; lia. }
  assert (D1 : ∀ i, 0 ≤ i < len → mget m1 (data +ₚ i) = mget m (data +ₚ i)).
  { intros i Hi. rewrite G1. unfold xor_result. rewrite decide_False; [done|].
    unfold in_range; simpl. unfold disjoint_ranges in Hdis. lia. }
  rewrite H1. cbn [mbind option_bind]. destruct applyUpdate.
  2:{ exists m1. split; [done|]. split; [done|]. split; [done|]. split; [intros i Hi; unfold mbyte; by rewrite D1|].
      intros q Hq1 Hq2. rewrite G1. unfold xor_result. by rewrite decide_False. }
  destruct (bitwiseXOR_spec m1 data data delta len) as (m2 & H2 & Sh2 & G2); [by rewrite <- Sh1..|by left| |].
  { right. unfold disjoint_ranges in *. destruct Hdis as [?|[?|?]]; [left; congruence|tauto|tauto]. }
  exists m2. split; [done|]. split; [by etrans|]. split_and!.
  - intros i Hi. rewrite <- B1 by done. unfold mbyte. rewrite G2. unfold xor_result. rewrite decide_False; [done|].
    unfold in_range; simpl. unfold disjoint_ranges in Hdis. lia.
  - intros i Hi. unfold mbyte at 1. rewrite G2. unfold xor_result. rewrite decide_True by by apply in_range_padd.
    change (default x00 (Some ?x)) with x. replace (off (data +ₚ i) - off data) with i by (simpl; lia).
    rewrite B1 by done. unfold mbyte at 1. rewrite D1 by done. fold (mbyte m (data +ₚ i)). apply bxor_cancel.
  - intros q Hq1 Hq2. rewrite G2. unfold xor_result. rewrite decide_False by done.
    rewrite G1. unfold xor_result. by rewrite decide_False.
Qed.

Definition ex_mem : mem := {[ 0%nat := replicate 40 x00; 1%nat := [z2b 107; z2b 118] ]}.

Lemma ex_layout : layout 32 ex_mem (Ptr 0 0) [] 32.
Proof. split; [lia|]. split; [constructor|reflexivity]. Qed.

Lemma ex_obj_ok : obj_ok 32 (Obj 1 0 [z2b 107] [z2b 118]).
Proof.
  split; [|reflexivity]. split; [|split; [simpl; lia|split; reflexivity]].
  unfold sizes_ok, KEY_VALUE_METADATA_SIZE, SPLIT_OFFSET_SIZE. change (zlen (o_key _)) with 1. simpl. lia.
Qed.

(** Two objects of six and seven bytes in a chunk of 32 bytes. *)
Definition ex_objs : list obj := [Obj 1 0 [z2b 107] [z2b 118]; Obj 2 0 [z2b 108] [z2b 118; z2b 119]].
Definition ex_full : mem := {[ 0%nat := replicate 8 x00 ++ objs_bytes 32 ex_objs ++ replicate 19 x00 ]}.
Lemma ex_full_layout : layout 32 ex_full (Ptr 0 0) ex_objs 19.
Proof.
  split; [lia|]. split; [|reflexivity]. constructor; [apply ex_obj_ok|]. constructor; [|constructor].
  split; [|reflexivity]. split; [|split; [simpl; lia|split; reflexivity]].
  unfold sizes_ok, KEY_VALUE_METADATA_SIZE, SPLIT_OFFSET_SIZE. change (zlen (o_key _)) with 1. simpl. lia.
Qed.

Lemma chunk_scan_witness :
  getSize 32 1 (Ptr 9 0) 33 ex_full (Ptr 0 0) = Some 13 ∧ getCount 32 1 33 ex_full (Ptr 0 0) = Some 2 ∧
  ∃ kp, next 32 ex_full (Ptr 0 0) 0 = Some (6, Some (Some kp, 1, false)) ∧ load ex_full kp 1 = Some [z2b 107].
Proof.
  assert (Hcs : chunk_sizes 32) by (unfold chunk_sizes, KEY_VALUE_METADATA_SIZE, SPLIT_OFFSET_SIZE; lia).
  assert (Hz : Ptr 0 0 ≠ Ptr 9 0) by discriminate.
  assert (Hp : isParity 1 ex_full (Ptr 0 0) = Some false) by (vm_compute; reflexivity).
  destruct (chunk_scan 32 1 (Ptr 9 0) ex_full (Ptr 0 0) ex_objs 19 Hcs ex_full_layout Hz Hp) as (Hs & Hc & Hn).
  split; [exact Hs|]. split; [exact Hc|].
  exact (Hn [] (Obj 1 0 [z2b 107] [z2b 118]) [Obj 2 0 [z2b 108] [z2b 118; z2b 119]] eq_refl ltac:(discriminate)).
Defined.

Lemma chunk_append_witness :
  ∃ m2, layout 32 m2 (Ptr 0 0) [Obj 1 0 [z2b 107] [z2b 118]] (32 - 6).
Proof.
  assert (Hcs : chunk_sizes 32) by (unfold chunk_sizes, KEY_VALUE_METADATA_SIZE, SPLIT_OFFSET_SIZE; lia).
  assert (Hz : Ptr 0 0 ≠ Ptr 9 0) by discriminate.
  assert (Hp : isParity 1 ex_mem (Ptr 0 0) = Some false) by (vm_compute; reflexivity).
  destruct (chunk_append 32 1 (Ptr 9 0) ex_mem (Ptr 0 0) (Ptr 1 0) (Ptr 1 1) [] 32
    (Obj 1 0 [z2b 107] [z2b 118]) Hcs ex_layout Hz Hp ex_obj_ok) as (m1 & m2 & _ & _ & HL & _).
  - vm_compute; discriminate.
  - reflexivity.
  - reflexivity.
  - left. discriminate.
  - left. discriminate.
  - exists m2. exact HL.
Defined.

Lemma computeDelta_spec_witness :
  let m : mem := {[ 0%nat := replicate 16 (z2b 7); 1%nat := replicate 4 (z2b 3) ]} in
  ∃ m', computeDelta m (Ptr 0 0) (Ptr 1 0) (Ptr 1 0) 2 4 true = Some m' ∧
    (∀ i, 0 ≤ i < 4 → mbyte m' (getData (Ptr 0 0) +ₚ 2 +ₚ i) = mbyte m (Ptr 1 0 +ₚ i)).
Proof.
  intros m.
  assert (V0 : valid m (getData (Ptr 0 0) +ₚ 2) 4).
  { split; [lia|]. exists (replicate 16 (z2b 7)). split; [reflexivity|]. split; vm_compute; discriminate. }
  assert (V1 : valid m (Ptr 1 0) 4).
  { split; [lia|]. exists (replicate 4 (z2b 3)). split; [reflexivity|]. split; vm_compute; discriminate. }
  destruct (computeDelta_spec m (Ptr 0 0) (Ptr 1 0) (Ptr 1 0) 2 4 true V0 V1 V1) as (m' & H1 & _ & _ & H2 & _).
  - left. discriminate.
  - left. reflexivity.
  - left. discriminate.
  - exists m'. split; [exact H1|exact H2].
Defined.
End ChunkUtil.
