(* ===== verification/Protocol.v ===== *)
(** * The wire format (common/protocol/protocol.{hh,cc}, magic.hh, opcode.hh, header.hh)

    A message is a 16-byte header followed by the fields of its kind.  The
    generators write through a pointer that each call of [ProtocolUtil]
    advances, and sum up the bytes they wrote; the parsers read through such a
    pointer after comparing the size received with the size they need.

    [ProtocolUtil]: the reads and writes of integers and bytes.  [Protocol]:
    the object with its buffers, and the message header.  The last part has
    the rules by which the other files compute what a generator writes
    ([emits]) and what a parser reads ([holds]).

    A send or receive buffer is the list of its bytes and a pointer into it an
    index; an access outside is [None]. *)

From S2P Require Export Words.

(** ** Writing through a pointer *)

(** The buffer, the index of the pointer, and the variable [bytes]. *)
Record cursor := Cur { c_buf : list byte; c_pos : Z; c_bytes : Z }.

Definition put (xs : list byte) (c : cursor) : option cursor :=
  b ← splice (c_buf c) (c_pos c) xs; Some (Cur b (c_pos c + zlen xs) (c_bytes c + zlen xs)).

Abbreviation writer := (cursor → option cursor).

(** Consecutive statements. *)
Fixpoint run (ws : list writer) (c : cursor) : option cursor :=
  match ws with [] => Some c | w :: ws => c ← w c; run ws c end.

(** [if ( b ) w;] *)
Definition when (b : bool) (w : writer) : writer := if b then w else Some.

Definition b2i (b : bool) : Z := if b then 1 else 0.

Module ProtocolUtil.
(** The pointer [src] is the list of the bytes from it on. *)
Definition write (src : list byte) (len : Z) : writer := λ c, xs ← slice src 0 len; put xs c.
Definition write1Byte (src : Z) : writer := put [z2b src].
Definition write2Bytes (src : Z) (toNetworkOrder : bool) : writer :=
  let src := u16 src in put (le_bytes 2 (if toNetworkOrder then htons src else src)).
Definition write3Bytes (src : Z) (toNetworkOrder : bool) : writer :=
  let src := u32 src in put (drop 1 (le_bytes 4 (if toNetworkOrder then htonl src else src))).
Definition write4Bytes (src : Z) (toNetworkOrder : bool) : writer :=
  let src := u32 src in put (le_bytes 4 (if toNetworkOrder then htonl src else src)).
Definition write5Bytes (src : Z) (toNetworkOrder : bool) : writer :=
  let src := u64 src in put (drop 3 (le_bytes 8 (if toNetworkOrder then htobe64 src else src))).
Definition write6Bytes (src : Z) (toNetworkOrder : bool) : writer :=
  let src := u64 src in put (drop 2 (le_bytes 8 (if toNetworkOrder then htobe64 src else src))).
Definition write7Bytes (src : Z) (toNetworkOrder : bool) : writer :=
  let src := u64 src in put (drop 1 (le_bytes 8 (if toNetworkOrder then htobe64 src else src))).
Definition write8Bytes (src : Z) (toNetworkOrder : bool) : writer :=
  let src := u64 src in put (le_bytes 8 (if toNetworkOrder then htobe64 src else src)).

(** The reads return the value and the pointer advanced. *)
Definition read (buf : list byte) (src len : Z) : option (list byte * Z) :=
  xs ← slice buf src len; Some (xs, src + len).
Definition read1Byte (buf : list byte) (src : Z) : option (Z * Z) :=
  b ← zget buf src; Some (b2z b, src + 1).
Definition read2Bytes (buf : list byte) (src : Z) (toHostOrder : bool) : option (Z * Z) :=
  xs ← slice buf src 2; let ret := le_val xs in Some (if toHostOrder then ntohs ret else ret, src + 2).
Definition read3Bytes (buf : list byte) (src : Z) (toHostOrder : bool) : option (Z * Z) :=
  xs ← slice buf src 3; let ret := le_val (x00 :: xs) in
  Some (if toHostOrder then ntohl ret else ret, src + 3).
Definition read4Bytes (buf : list byte) (src : Z) (toHostOrder : bool) : option (Z * Z) :=
  xs ← slice buf src 4; let ret := le_val xs in Some (if toHostOrder then ntohl ret else ret, src + 4).
Definition read5Bytes (buf : list byte) (src : Z) (toHostOrder : bool) : option (Z * Z) :=
  xs ← slice buf src 5; let ret := le_val (replicate 3 x00 ++ xs) in
  Some (if toHostOrder then be64toh ret else ret, src + 5).
Definition read6Bytes (buf : list byte) (src : Z) (toHostOrder : bool) : option (Z * Z) :=
  xs ← slice buf src 6; let ret := le_val (replicate 2 x00 ++ xs) in
  Some (if toHostOrder then be64toh ret else ret, src + 6).
Definition read7Bytes (buf : list byte) (src : Z) (toHostOrder : bool) : option (Z * Z) :=
  xs ← slice buf src 7; let ret := le_val (replicate 1 x00 ++ xs) in
  Some (if toHostOrder then be64toh ret else ret, src + 7).
Definition read8Bytes (buf : list byte) (src : Z) (toHostOrder : bool) : option (Z * Z) :=
  xs ← slice buf src 8; let ret := le_val xs in Some (if toHostOrder then be64toh ret else ret, src + 8).
End ProtocolUtil.
Export ProtocolUtil.

(** The default byte order. *)
Abbreviation write2 v := (write2Bytes v true).
Abbreviation write3 v := (write3Bytes v true).
Abbreviation write4 v := (write4Bytes v true).
Abbreviation read2 buf ptr := (read2Bytes buf ptr true).
Abbreviation read3 buf ptr := (read3Bytes buf ptr true).
Abbreviation read4 buf ptr := (read4Bytes buf ptr true).

(** ** Constants *)
Definition PROTO_MAGIC_HEARTBEAT : Z := 0x00.
Definition PROTO_MAGIC_REQUEST : Z := 0x01.
Definition PROTO_MAGIC_RESPONSE_SUCCESS : Z := 0x02.
Definition PROTO_MAGIC_RESPONSE_FAILURE : Z := 0x03.
Definition PROTO_MAGIC_ANNOUNCEMENT : Z := 0x04.
Definition PROTO_MAGIC_LOADING_STATS : Z := 0x05.
Definition PROTO_MAGIC_REMAPPING : Z := 0x06.
Definition PROTO_MAGIC_ACKNOWLEDGEMENT : Z := 0x07.
Definition PROTO_MAGIC_IS_LARGE : Z := 0x80.

Definition PROTO_OPCODE_DEGRADED_GET : Z := 0x07.
Definition PROTO_OPCODE_DEGRADED_UPDATE : Z := 0x08.
Definition PROTO_OPCODE_DEGRADED_DELETE : Z := 0x09.

(** All opcodes, in the order of opcode.hh. *)
Definition opcodes : list Z :=
  [0x00; 0x70;
   0x31; 0x32; 0x33; 0x34; 0x35; 0x36; 0x37; 0x38; 0x39; 0x40; 0x41;
   0x01; 0x02; 0x03; 0x04; 0x05; 0x06; 0x07; 0x08; 0x09;
   0x10; 0x11; 0x12; 0x13; 0x14; 0x20;
   0x51; 0x52; 0x53; 0x54; 0x55; 0x56; 0x57; 0x58; 0x59; 0x60; 0x61; 0x62; 0x63; 0x64].

Definition PROTO_HEADER_SIZE : Z := 16.
Definition PROTO_KEY_VALUE_SIZE : Z := 4.
Definition PROTO_SPLIT_OFFSET_SIZE : Z := 3.
Definition PROTO_BUF_MIN_SIZE : Z := 65536.

Variant Role := ROLE_APPLICATION | ROLE_COORDINATOR | ROLE_CLIENT | ROLE_SERVER.
#[export] Instance Role_eq_dec : EqDecision Role.
Proof. solve_decision. Defined.

Definition PROTO_MAGIC_FROM (r : Role) : Z :=
  match r with ROLE_APPLICATION => 0x00 | ROLE_COORDINATOR => 0x08 | ROLE_CLIENT => 0x10 | ROLE_SERVER => 0x18 end.
Definition PROTO_MAGIC_TO (r : Role) : Z :=
  match r with ROLE_APPLICATION => 0x00 | ROLE_COORDINATOR => 0x20 | ROLE_CLIENT => 0x40 | ROLE_SERVER => 0x60 end.

(** ** The protocol object *)
Record Protocol := MkProtocol {
  from : Z; to : Z;
  buffer_size : Z; buffer_send : list byte; buffer_recv : list byte }.

(** The constructor and [init], with what [malloc] returns. *)
Definition Protocol_new (role : Role) : Protocol :=
  MkProtocol (PROTO_MAGIC_FROM role) (PROTO_MAGIC_TO role) 0 [] [].
Definition init (p : Protocol) (send recv : option (list byte)) (size : Z) : bool * Protocol :=
  match send with
  | None => (false, MkProtocol (from p) (to p) size [] (buffer_recv p))
  | Some send =>
      match recv with
      | None => (false, MkProtocol (from p) (to p) size send [])
      | Some recv => (true, MkProtocol (from p) (to p) size send recv)
      end
  end.
Definition free (p : Protocol) : Protocol := MkProtocol (from p) (to p) 0 [] [].

(** [if ( ! sendBuf ) sendBuf = this->buffer.send;] *)
Definition pick_send (p : Protocol) (sendBuf : option (list byte)) : list byte :=
  match sendBuf with Some b => b | None => buffer_send p end.
(** [if ( ! buf || ! size ) { buf = this->buffer.recv; size = this->buffer.size; }] *)
Definition pick_recv (p : Protocol) (buf : option (list byte)) (size : Z) : list byte * Z :=
  match buf with
  | Some b => if decide (size = 0) then (buffer_recv p, buffer_size p) else (b, size)
  | None => (buffer_recv p, buffer_size p)
  end.

Record ProtocolHeader := MkHeader {
  h_magic : Z; h_from : Z; h_to : Z; h_isLarge : bool; h_opcode : Z;
  h_length : Z; h_instanceId : Z; h_requestId : Z; h_timestamp : Z }.

Definition generateHeader (p : Protocol) (magic to opcode length instanceId requestId : Z)
    (sendBuf : option (list byte)) (requestTimestamp : Z) (isLarge : bool) : option (list byte * Z) :=
  let buf := pick_send p sendBuf in
  let b0 := Z.lor (Z.lor (Z.lor (Z.land magic 0x07) (Z.land (from p) 0x18)) (Z.land to 0x60))
              (if isLarge then PROTO_MAGIC_IS_LARGE else 0) in
  buf ← zset buf 0 (z2b b0);
  buf ← zset buf 1 (z2b (Z.land opcode 0xff));
  c ← run [write4 length; write2 instanceId; write4 requestId; write4 requestTimestamp] (Cur buf 2 2);
  Some (c_buf c, c_bytes c).

(** The inner [None] is the result [false]; the fields of a header that is
    refused are not used. *)
Definition parseHeader (p : Protocol) (buf : option (list byte)) (size : Z) : option (option ProtocolHeader) :=
  let '(buf, size) := pick_recv p buf size in
  if decide (size < PROTO_HEADER_SIZE) then Some None else
  b0 ← zget buf 0;
  b1 ← zget buf 1;
  '(length, ptr) ← read4 buf 2;
  '(instanceId, ptr) ← read2 buf ptr;
  '(requestId, ptr) ← read4 buf ptr;
  '(timestamp, ptr) ← read4 buf ptr;
  let h := MkHeader (Z.land (b2z b0) 0x07) (Z.land (b2z b0) 0x18) (Z.land (b2z b0) 0x60)
             (bool_decide (Z.land (b2z b0) 0x80 ≠ 0)) (Z.land (b2z b1) 0xff)
             length instanceId requestId timestamp in
  if decide (h_magic h ∈ [PROTO_MAGIC_HEARTBEAT; PROTO_MAGIC_REQUEST; PROTO_MAGIC_RESPONSE_SUCCESS;
                          PROTO_MAGIC_RESPONSE_FAILURE; PROTO_MAGIC_ANNOUNCEMENT; PROTO_MAGIC_LOADING_STATS;
                          PROTO_MAGIC_REMAPPING; PROTO_MAGIC_ACKNOWLEDGEMENT]) then
    if decide (h_from h ∈ [PROTO_MAGIC_FROM ROLE_APPLICATION; PROTO_MAGIC_FROM ROLE_COORDINATOR;
                           PROTO_MAGIC_FROM ROLE_CLIENT; PROTO_MAGIC_FROM ROLE_SERVER]) then
      if decide (h_to h ≠ to p) then Some None
      else if decide (h_opcode h ∈ opcodes) then Some (Some h) else Some None
    else Some None
  else Some None.

Definition getSuggestedBufferSize (keySize chunkSize : Z) (supportLargeObject : bool) : Z :=
  let ret := u32 (PROTO_HEADER_SIZE + PROTO_KEY_VALUE_SIZE + keySize
               + (if supportLargeObject then 16777216 else chunkSize)) in
  let ret := if decide (Z.land ret 4095 ≠ 0) then Z.shiftl (Z.shiftr ret 12 + 1) 12 else ret in
  let ret := Z.shiftl ret 1 in
  if decide (ret < PROTO_BUF_MIN_SIZE) then PROTO_BUF_MIN_SIZE else ret.

(** [size - offset < need], in [size_t]. *)
Definition short (size offset need : Z) : bool := bool_decide (u64 (size - offset) < need).

(** ** The shape of the generators *)

(** The arguments every generator passes on to [generateHeader]. *)
Record envelope := Env { e_magic : Z; e_to : Z; e_opcode : Z; e_instanceId : Z; e_requestId : Z }.

(** A generator that knows the length of its message calls [generateHeader]
    first and writes its fields behind the header. *)
Definition generate (p : Protocol) (e : envelope) (length : Z) (sendBuf : option (list byte))
    (timestamp : Z) (isLarge : bool) (fields : list writer) : option (list byte * Z) :=
  '(buf, bytes) ← generateHeader p (e_magic e) (e_to e) (e_opcode e) length (e_instanceId e) (e_requestId e)
                    sendBuf timestamp isLarge;
  c ← run fields (Cur buf PROTO_HEADER_SIZE bytes);
  Some (c_buf c, c_bytes c).

(** Generators that sum up the length while they write the fields call it last:
    [bytes] starts at 0 and becomes the length. *)
Definition generate_last (p : Protocol) (e : envelope) (sendBuf : option (list byte))
    (timestamp : Z) (isLarge : bool) (fields : list writer) : option (list byte * Z) :=
  c ← run fields (Cur (pick_send p sendBuf) PROTO_HEADER_SIZE 0);
  '(buf, bytes) ← generateHeader p (e_magic e) (e_to e) (e_opcode e) (c_bytes c) (e_instanceId e) (e_requestId e)
                    (Some (c_buf c)) timestamp isLarge;
  Some (buf, c_bytes c + bytes).

(** ** What is written *)

(** The pointer is in the buffer, or just behind. *)
Definition in_buffer (c : cursor) : Prop := 0 ≤ c_pos c ≤ zlen (c_buf c).

(** [w] writes [xs], and fails exactly when they do not fit. *)
Definition emits (w : writer) (xs : list byte) : Prop := ∀ c, in_buffer c → w c = put xs c.

(** The bytes [xs] lie in the buffer from [ptr] on. *)
Definition holds (buf : list byte) (ptr : Z) (xs : list byte) : Prop :=
  ∃ pre post, buf = pre ++ xs ++ post ∧ ptr = zlen pre.

(** The bytes of a header. *)
Definition header_bytes (h : ProtocolHeader) : list byte :=
  z2b (Z.lor (Z.lor (Z.lor (h_magic h) (h_from h)) (h_to h)) (if h_isLarge h then PROTO_MAGIC_IS_LARGE else 0))
  :: z2b (h_opcode h)
  :: be_bytes 4 (h_length h) ++ be_bytes 2 (h_instanceId h) ++ be_bytes 4 (h_requestId h)
  ++ be_bytes 4 (h_timestamp h).

(** The header that reaches the receiver. *)
Definition header_of (p : Protocol) (e : envelope) (length timestamp : Z) (isLarge : bool) : ProtocolHeader :=
  MkHeader (e_magic e) (from p) (e_to e) isLarge (e_opcode e) length (e_instanceId e) (e_requestId e) timestamp.

(** Headers the program sends: the ranges of their fields. *)
Definition envelope_ok (e : envelope) : Prop :=
  (0 ≤ e_magic e < 8) ∧ (∃ r, e_to e = PROTO_MAGIC_TO r) ∧ e_opcode e ∈ opcodes ∧
  0 ≤ e_instanceId e < 2 ^ 16 ∧ 0 ≤ e_requestId e < 2 ^ 32.
Definition protocol_ok (p : Protocol) : Prop := ∃ r, from p = PROTO_MAGIC_FROM r.

(** ** Rules for writing *)
Lemma put_nil c : in_buffer c → put [] c = Some c.
Proof.
  unfold in_buffer, put, splice, zlen. destruct c as [b p n]; simpl. intros.
  rewrite decide_True by lia. rewrite !Z.add_0_r. cbn [mbind option_bind]. by rewrite take_drop.
Qed.

Lemma splice_split (l : list byte) lo xs ys :
  splice l lo (xs ++ ys) = (l' ← splice l lo xs; splice l' (lo + zlen xs) ys).
Proof.
  unfold splice, zlen.
  destruct (decide (0 ≤ lo ∧ lo + Z.of_nat (length xs) ≤ Z.of_nat (length l))) as [H|H].
  - cbn [mbind option_bind]. rewrite !length_app, length_take, length_drop, Nat2Z.inj_add.
    destruct (decide (0 ≤ lo ∧ lo + (Z.of_nat (length xs) + Z.of_nat (length ys)) ≤ Z.of_nat (length l))) as [H'|H'].
    + rewrite decide_True by lia. f_equal.
      replace (Z.to_nat (lo + Z.of_nat (length xs))) with (Z.to_nat lo + length xs)%nat by lia.
      rewrite (app_assoc (take _ l) xs), take_app_length' by (rewrite length_app, length_take; lia).
      rewrite <- !app_assoc. do 3 f_equal.
      rewrite drop_app_ge by (rewrite length_take; lia). rewrite length_take, Nat.min_l by lia.
      rewrite drop_app_ge by lia. rewrite drop_drop. f_equal. lia.
    + rewrite decide_False by lia. done.
  - rewrite length_app, decide_False by lia. done.
Qed.

Lemma put_app xs ys c : put (xs ++ ys) c = (c ← put xs c; put ys c).
Proof.
  unfold put. rewrite splice_split. destruct (splice (c_buf c) (c_pos c) xs) as [l|]; [|done].
  cbn [mbind option_bind c_buf c_pos c_bytes]. destruct (splice l _ ys); [|done].
  cbn [mbind option_bind]. do 2 f_equal; zsolve.
Qed.

Lemma put_in_buffer xs c c' : in_buffer c → put xs c = Some c' → in_buffer c'.
Proof.
  unfold put, in_buffer. destruct (splice _ _ _) as [b|] eqn:E; [|done].
  cbn [mbind option_bind]. intros H [= <-]. cbn. rewrite (splice_zlen _ _ _ _ E).
  unfold splice in E. case_decide; [|done]. unfold zlen in *. lia.
Qed.

Lemma emits_put xs : emits (put xs) xs.
Proof. by intros c. Qed.
Lemma emits_nil : emits Some [].
Proof. intros c Hc. by rewrite put_nil. Qed.
Lemma emits_when (b : bool) w xs : emits w xs → emits (when b w) (if b then xs else []).
Proof. intros. destruct b; [done|apply emits_nil]. Qed.
Lemma emits_bind w1 w2 xs ys : emits w1 xs → emits w2 ys → emits (λ c, c ← w1 c; w2 c) (xs ++ ys).
Proof.
  intros H1 H2 c Hc. rewrite H1 by done. rewrite put_app.
  destruct (put xs c) as [c'|] eqn:E; [|done]. cbn [mbind option_bind].
  apply H2. by eapply put_in_buffer.
Qed.

Lemma run_nil : emits (run []) [].
Proof. apply emits_nil. Qed.
Lemma run_cons w ws xs ys : emits w xs → emits (run ws) ys → emits (run (w :: ws)) (xs ++ ys).
Proof. apply emits_bind. Qed.
Lemma run_app_eq ws1 ws2 c : run (ws1 ++ ws2) c = (c' ← run ws1 c; run ws2 c').
Proof. revert c. induction ws1 as [|w ws1 IH]; intros c; [done|]. cbn. destruct (w c); [apply IH|done]. Qed.
Lemma run_app ws1 ws2 xs ys : emits (run ws1) xs → emits (run ws2) ys → emits (run (ws1 ++ ws2)) (xs ++ ys).
Proof. intros H1 H2 c Hc. rewrite run_app_eq. by apply (emits_bind (run ws1) (run ws2)). Qed.

Lemma drop_be_bytes k n z : drop k (be_bytes (k + n) z) = be_bytes n z.
Proof.
  unfold be_bytes. revert n z. induction k as [|k IH]; intros n z; [done|].
  assert (Hl : ∀ n z, le_bytes (S n) z = le_bytes n z ++ [z2b (z / 256 ^ Z.of_nat n)]).
  { clear. intros n. induction n as [|n IH]; intros z.
    - unfold le_bytes. simpl. by rewrite Z.div_1_r.
    - change (le_bytes (S (S n)) z) with (z2b z :: le_bytes (S n) (z / 256)). rewrite IH.
      change (le_bytes (S n) z) with (z2b z :: le_bytes n (z / 256)). simpl. do 3 f_equal.
      rewrite Z.div_div by lia. do 2 f_equal. rewrite Nat2Z.inj_succ, Z.pow_succ_r; lia. }
  change (S k + n)%nat with (S (k + n)). rewrite Hl, rev_unit. simpl. apply IH.
Qed.

Lemma u_be_bytes n m z : (n ≤ m)%nat → be_bytes n (z mod 256 ^ Z.of_nat m) = be_bytes n z.
Proof.
  unfold be_bytes. intros Hnm. f_equal. revert m z Hnm. induction n as [|n IH]; intros m z Hnm; [done|].
  destruct m as [|m]; [lia|]. change (le_bytes (S n)) with (λ z, z2b z :: le_bytes n (z / 256)). cbn beta.
  rewrite Nat2Z.inj_succ, Z.pow_succ_r by lia. rewrite Z.rem_mul_r by lia.
  rewrite <- (z2b_mod (z mod 256 + _)), (Z.mul_comm 256), Z.mod_add, Zmod_mod, z2b_mod by lia.
  f_equal. rewrite Z.div_add, (Z.div_small (z mod 256)), Z.add_0_l by lia. apply IH. lia.
Qed.

Lemma emits_write1 v : emits (write1Byte v) [z2b v].
Proof. apply emits_put. Qed.
Lemma emits_write2 v : emits (write2 v) (be_bytes 2 v).
Proof.
  unfold write2Bytes, htons, u16. rewrite le_bytes_bswap. change (2 ^ 8) with 256.
  change (2 ^ 16) with (256 ^ Z.of_nat 2). rewrite u_be_bytes by lia. apply emits_put.
Qed.
Lemma emits_write3 v : emits (write3 v) (be_bytes 3 v).
Proof.
  unfold write3Bytes, htonl, u32. rewrite le_bytes_bswap, (drop_be_bytes 1 3).
  change (2 ^ 32) with (256 ^ Z.of_nat 4). rewrite u_be_bytes by lia. apply emits_put.
Qed.
Lemma emits_write4 v : emits (write4 v) (be_bytes 4 v).
Proof.
  unfold write4Bytes, htonl, u32. rewrite le_bytes_bswap.
  change (2 ^ 32) with (256 ^ Z.of_nat 4). rewrite u_be_bytes by lia. apply emits_put.
Qed.
Lemma emits_write4_host v : 0 ≤ v < 2 ^ 32 → emits (write4Bytes v false) (le_bytes 4 v).
Proof. intros. unfold write4Bytes. rewrite u32_small by done. apply emits_put. Qed.
Lemma emits_write2_host v : 0 ≤ v < 2 ^ 16 → emits (write2Bytes v false) (le_bytes 2 v).
Proof. intros. unfold write2Bytes. rewrite u16_small by done. apply emits_put. Qed.
Lemma emits_write src len : 0 ≤ len ≤ zlen src → emits (write src len) (take (Z.to_nat len) src).
Proof.
  intros. unfold write. rewrite slice_Some by (lia || zsolve). cbn [mbind option_bind].
  rewrite drop_0. apply emits_put.
Qed.
Lemma emits_write_all src len : len = zlen src → emits (write src len) src.
Proof.
  intros ->. pose proof (emits_write src (zlen src) ltac:(unfold zlen; lia)) as H.
  unfold zlen in H at 2. by rewrite Nat2Z.id, firstn_all in H.
Qed.

(** *** Loops *)
Definition words (ws : list Z) : list byte := concat (be_bytes 4 <$> ws).

Lemma zlen_words ws : zlen (words ws) = 4 * zlen ws.
Proof.
  unfold words, zlen. induction ws as [|w ws IH]; [done|].
  cbn [fmap list_fmap concat]. rewrite length_app, length_be_bytes. simpl length. lia.
Qed.

Lemma words_app ws ws' : words (ws ++ ws') = words ws ++ words ws'.
Proof. unfold words. by rewrite fmap_app, concat_app. Qed.

Lemma concat_seqZ_S (g : Z → list byte) k :
  concat (g <$> seqZ 0 (Z.of_nat (S k))) = concat (g <$> seqZ 0 (Z.of_nat k)) ++ g (Z.of_nat k).
Proof. rewrite seqZ_S, fmap_app, concat_app. cbn. by rewrite app_nil_r. Qed.

(** A loop that writes [g i] in round [i]. *)
Lemma emits_loop n (f : Z → writer) (g : Z → list byte) :
  0 ≤ n → (∀ i, 0 ≤ i < n → emits (f i) (g i)) → emits (for_range 0 n f) (concat (g <$> seqZ 0 n)).
Proof.
  intros Hn. replace n with (Z.of_nat (Z.to_nat n)) by lia. generalize (Z.to_nat n) as k. clear Hn n.
  induction k as [|k IH]; intros Hf; [apply emits_nil|].
  rewrite concat_seqZ_S, Nat2Z.inj_succ, <- Z.add_1_r. intros c Hc. rewrite for_range_snoc by lia.
  apply (emits_bind (for_range 0 (Z.of_nat k) f) (f (Z.of_nat k))); [|apply Hf; lia|done].
  apply IH. intros. apply Hf. lia.
Qed.

(** A loop over the elements of an array, and one over those of a vector. *)
Lemma concat_zget {A} (g : A → list byte) (l : list A) :
  concat ((λ i, from_option g [] (zget l i)) <$> seqZ 0 (zlen l)) = concat (g <$> l).
Proof.
  induction l as [|x l IH] using rev_ind; [done|].
  unfold zlen. rewrite length_app, Nat.add_1_r, concat_seqZ_S, fmap_app, concat_app, <- IH. f_equal.
  - f_equal. apply list_fmap_ext. intros k i Hi. apply lookup_seqZ in Hi as [-> ?].
    unfold zget. unfold zlen in *. rewrite !decide_True by lia. rewrite lookup_app_l by lia. done.
  - unfold zget. rewrite decide_True by lia. rewrite Nat2Z.id, lookup_app_r, Nat.sub_diag by lia.
    cbn. by rewrite app_nil_r.
Qed.

Lemma emits_array {A} (l : list A) (w : A → writer) (g : A → list byte) n :
  (∀ x, x ∈ l → emits (w x) (g x)) → n = zlen l →
  emits (for_range 0 n (λ i c, x ← zget l i; w x c)) (concat (g <$> l)).
Proof.
  intros Hw ->. rewrite <- concat_zget. apply emits_loop; [unfold zlen; lia|]. intros i Hi.
  destruct (zget_is_Some l i Hi) as [x Hx]. rewrite Hx. apply Hw.
  unfold zget in Hx. case_decide; [|done]. by eapply list_elem_of_lookup_2.
Qed.

Lemma emits_run_map {A} (l : list A) (w : A → writer) (g : A → list byte) :
  (∀ x, x ∈ l → emits (w x) (g x)) → emits (run (map w l)) (concat (g <$> l)).
Proof.
  induction l as [|x l IH]; intros Hw; [apply emits_nil|]. apply run_cons; [apply Hw; set_solver|].
  apply IH. intros. apply Hw. set_solver.
Qed.

(** Writing an array of words, one or two in a round. *)
Definition write_words (arr : list Z) (n : Z) : writer :=
  for_range 0 n (λ i c, x ← zget arr i; write4 x c).
Definition write_pairs (arr : list Z) (n : Z) : writer :=
  for_range 0 n (λ i c, x ← zget arr (i * 2); c ← write4 x c; y ← zget arr (i * 2 + 1); write4 y c).

Lemma take_zget {A} (arr : list A) i x : zget arr i = Some x → take (Z.to_nat (i + 1)) arr = take (Z.to_nat i) arr ++ [x].
Proof.
  unfold zget. case_decide; [|done]. intros Hx.
  replace (Z.to_nat (i + 1)) with (S (Z.to_nat i)) by lia. by apply take_S_r.
Qed.

Lemma emits_write_words arr n : 0 ≤ n ≤ zlen arr → emits (write_words arr n) (words (take (Z.to_nat n) arr)).
Proof.
  intros Hn. unfold write_words.
  assert (H : ∀ k, 0 ≤ k ≤ n → concat ((λ i, be_bytes 4 (default 0 (zget arr i))) <$> seqZ 0 k)
                               = words (take (Z.to_nat k) arr)).
  { intros k Hk. replace k with (Z.of_nat (Z.to_nat k)) in * by lia. revert Hk.
    generalize (Z.to_nat k) as j. clear k. induction j as [|j IH]; intros Hj; [done|].
    destruct (zget_is_Some arr (Z.of_nat j) ltac:(lia)) as [x Hx].
    rewrite concat_seqZ_S, Nat2Z.inj_succ, <- Z.add_1_r, (take_zget _ _ x Hx), words_app, <- IH by lia.
    f_equal. rewrite Hx. cbn. by rewrite app_nil_r. }
  rewrite <- H by lia. apply emits_loop; [lia|]. intros i Hi.
  destruct (zget_is_Some arr i ltac:(lia)) as [x Hx]. rewrite Hx.
  apply emits_write4.
Qed.

Lemma emits_write_pairs arr n : 0 ≤ n → 2 * n ≤ zlen arr → emits (write_pairs arr n) (words (take (Z.to_nat (2 * n)) arr)).
Proof.
  intros Hn Hl. unfold write_pairs.
  assert (H : ∀ k, 0 ≤ k ≤ n →
    concat ((λ i, words [default 0 (zget arr (i * 2)); default 0 (zget arr (i * 2 + 1))]) <$> seqZ 0 k)
    = words (take (Z.to_nat (2 * k)) arr)).
  { intros k Hk. replace k with (Z.of_nat (Z.to_nat k)) in * by lia. revert Hk.
    generalize (Z.to_nat k) as j. clear k. induction j as [|j IH]; intros Hj; [done|].
    destruct (zget_is_Some arr (2 * Z.of_nat j) ltac:(lia)) as [x Hx].
    destruct (zget_is_Some arr (2 * Z.of_nat j + 1) ltac:(lia)) as [y Hy].
    rewrite concat_seqZ_S. replace (2 * Z.of_nat (S j)) with (2 * Z.of_nat j + 1 + 1) by lia.
    rewrite (take_zget _ _ y Hy), (take_zget _ _ x Hx), !words_app, <- IH, <- (assoc (++)) by lia. f_equal.
    rewrite (Z.mul_comm _ 2), Hx, Hy. cbn. by rewrite !app_nil_r. }
  rewrite <- H by lia. apply emits_loop; [lia|]. intros i Hi.
  destruct (zget_is_Some arr (i * 2) ltac:(lia)) as [x Hx].
  destruct (zget_is_Some arr (i * 2 + 1) ltac:(lia)) as [y Hy]. rewrite Hx, Hy. change (default 0 (Some x)) with x. change (default 0 (Some y)) with y.
  assert (words [x; y] = be_bytes 4 x ++ be_bytes 4 y) as -> by (cbn; by rewrite app_nil_r).
  apply (emits_bind (write4 x) (write4 y)); apply emits_write4.
Qed.

(** ** Rules for reading *)
Lemma holds_skip n buf ptr xs ys : holds buf ptr (xs ++ ys) → n = zlen xs → holds buf (ptr + n) ys.
Proof.
  intros (pre & post & -> & ->) ->. exists (pre ++ xs), post. rewrite <- !(assoc (++)).
  split; [done|]. zsolve.
Qed.
Lemma holds_prefix buf ptr xs ys : holds buf ptr (xs ++ ys) → holds buf ptr xs.
Proof. intros (pre & post & -> & ->). exists pre, (ys ++ post). by rewrite <- !(assoc (++)). Qed.
Lemma holds_slice n buf ptr xs : holds buf ptr xs → n = zlen xs → slice buf ptr n = Some xs.
Proof. intros (pre & post & -> & ->) ->. by apply slice_app_mid. Qed.
Lemma holds_slice_app n buf ptr xs ys : holds buf ptr (xs ++ ys) → n = zlen xs → slice buf ptr n = Some xs.
Proof. intros H. apply holds_slice. by apply holds_prefix in H. Qed.
Lemma holds_zlen buf ptr xs : holds buf ptr xs → 0 ≤ ptr ∧ ptr + zlen xs ≤ zlen buf.
Proof. intros (pre & post & -> & ->). zsolve. Qed.
Lemma holds_get buf ptr x ys : holds buf ptr (x :: ys) → zget buf ptr = Some x.
Proof.
  intros (pre & post & -> & ->). unfold zget, zlen. rewrite decide_True by lia.
  rewrite Nat2Z.id, lookup_app_r, Nat.sub_diag by lia. done.
Qed.
Lemma holds_of_slice buf ptr n xs : slice buf ptr n = Some xs → holds buf ptr xs.
Proof.
  unfold slice. case_decide; [|done]. intros [= <-].
  exists (take (Z.to_nat ptr) buf), (drop (Z.to_nat n) (drop (Z.to_nat ptr) buf)).
  rewrite !take_drop. split; [done|]. unfold zlen in *. rewrite length_take. lia.
Qed.

Lemma be_val_small n v : 0 ≤ v < 256 ^ Z.of_nat n → be_val (be_bytes n v) = v.
Proof. intros. rewrite be_val_be_bytes. by apply Z.mod_small. Qed.

Section reads.
Context (buf : list byte) (ptr : Z) (ys : list byte).

Lemma read1_holds v : holds buf ptr (z2b v :: ys) → 0 ≤ v < 256 → read1Byte buf ptr = Some (v, ptr + 1).
Proof. intros H Hv. unfold read1Byte. rewrite (holds_get _ _ _ _ H). cbn. by rewrite b2z_small. Qed.
Lemma read2_holds v : holds buf ptr (be_bytes 2 v ++ ys) → 0 ≤ v < 2 ^ 16 → read2 buf ptr = Some (v, ptr + 2).
Proof.
  intros H Hv. unfold read2Bytes. rewrite (holds_slice_app 2 _ _ _ _ H); [|unfold zlen; by rewrite length_be_bytes].
  cbn [mbind option_bind]. unfold ntohs. rewrite <- (length_be_bytes 2 v) at 1.
  rewrite bswap_le_val, be_val_small by done. done.
Qed.
Lemma read3_holds v : holds buf ptr (be_bytes 3 v ++ ys) → 0 ≤ v < 2 ^ 24 → read3 buf ptr = Some (v, ptr + 3).
Proof.
  intros H Hv. unfold read3Bytes.
  rewrite (holds_slice_app 3 _ _ _ _ H); [|unfold zlen; by rewrite length_be_bytes].
  cbn [mbind option_bind]. unfold ntohl.
  change 4%nat with (S 3). rewrite <- (length_be_bytes 3 v) at 1.
  change (S (length ?l)) with (length (x00 :: l)). rewrite bswap_le_val.
  do 2 f_equal. unfold be_val. cbn [rev].
  assert (Hz : ∀ l, le_val (l ++ [x00]) = le_val l).
  { induction l as [|b l IH]; [done|]. change ((b :: l) ++ [x00]) with (b :: (l ++ [x00])).
    change (le_val (b :: ?l)) with (b2z b + 256 * le_val l). by rewrite IH. }
  rewrite Hz. by apply (be_val_small 3).
Qed.
Lemma read4_holds v : holds buf ptr (be_bytes 4 v ++ ys) → 0 ≤ v < 2 ^ 32 → read4 buf ptr = Some (v, ptr + 4).
Proof.
  intros H Hv. unfold read4Bytes. rewrite (holds_slice_app 4 _ _ _ _ H); [|unfold zlen; by rewrite length_be_bytes].
  cbn [mbind option_bind]. unfold ntohl. rewrite <- (length_be_bytes 4 v) at 1.
  rewrite bswap_le_val, be_val_small by done. done.
Qed.
Lemma read4_host_holds v :
  holds buf ptr (le_bytes 4 v ++ ys) → 0 ≤ v < 2 ^ 32 → read4Bytes buf ptr false = Some (v, ptr + 4).
Proof.
  intros H Hv. unfold read4Bytes. rewrite (holds_slice_app 4 _ _ _ _ H); [|unfold zlen; by rewrite length_le_bytes].
  cbn [mbind option_bind]. rewrite le_val_le_bytes. rewrite Z.mod_small; done.
Qed.
Lemma read2_host_holds v :
  holds buf ptr (le_bytes 2 v ++ ys) → 0 ≤ v < 2 ^ 16 → read2Bytes buf ptr false = Some (v, ptr + 2).
Proof.
  intros H Hv. unfold read2Bytes. rewrite (holds_slice_app 2 _ _ _ _ H); [|unfold zlen; by rewrite length_le_bytes].
  cbn [mbind option_bind]. rewrite le_val_le_bytes. rewrite Z.mod_small; done.
Qed.
End reads.

(** *** Lengths *)
Lemma zlen_app {A} (xs ys : list A) : zlen (xs ++ ys) = zlen xs + zlen ys.
Proof. zsolve. Qed.
Lemma zlen_cons {A} (x : A) xs : zlen (x :: xs) = 1 + zlen xs.
Proof. unfold zlen. simpl length. lia. Qed.
Lemma zlen_nil {A} : zlen (@nil A) = 0.
Proof. done. Qed.
Lemma zlen_be n v : zlen (be_bytes n v) = Z.of_nat n.
Proof. unfold zlen. by rewrite length_be_bytes. Qed.
Lemma zlen_le n v : zlen (le_bytes n v) = Z.of_nat n.
Proof. unfold zlen. by rewrite length_le_bytes. Qed.

Create Rewrite HintDb zlen.
#[export] Hint Rewrite @zlen_app @zlen_cons @zlen_nil zlen_be zlen_le zlen_words : zlen.
Ltac zlens := autorewrite with zlen in *.

(** [emit]: what a list of writers writes. *)
Create HintDb emits.
#[export] Hint Resolve emits_write1 emits_write2 emits_write3 emits_write4 : emits.
Ltac emit := repeat first [apply run_nil | eapply run_cons; [solve [eauto with emits]|]].

Lemma b2i_small b : 0 ≤ b2i b < 256.
Proof. destruct b; simpl; lia. Qed.

(** [read_field H]: one step of a parser whose next field is in [H]. *)
Ltac read_field H :=
  let go l n := (rewrite (l _ _ _ _ H) by (first [lia | apply b2i_small]); cbn [mbind option_bind]; apply (holds_skip n) in H; [|by autorewrite with zlen]) in
  lazymatch type of H with
  | holds _ _ (be_bytes 4 _ ++ _) => go read4_holds 4
  | holds _ _ (be_bytes 3 _ ++ _) => go read3_holds 3
  | holds _ _ (be_bytes 2 _ ++ _) => go read2_holds 2
  | holds _ _ (le_bytes 4 _ ++ _) => go read4_host_holds 4
  | holds _ _ (le_bytes 2 _ ++ _) => go read2_host_holds 2
  | holds _ _ (?x :: ?l) => change (x :: l) with ([x] ++ l) in H; read_field H
  | holds _ _ ([z2b _] ++ _) =>
      rewrite (read1_holds _ _ _ _ H) by (first [lia | apply b2i_small]); cbn [mbind option_bind]; apply (holds_skip 1) in H; [|done]
  end.

(** ** The header arrives *)
Lemma land_small k a : 0 ≤ k → 0 ≤ a < 2 ^ k → Z.land a (Z.ones k) = a.
Proof. intros. rewrite Z.land_ones by done. by apply Z.mod_small. Qed.

(** Its first byte, field by field. *)
Lemma first_byte m f t (l : bool) : 0 ≤ m < 8 →
  let b := Z.lor (Z.lor (Z.lor m (PROTO_MAGIC_FROM f)) (PROTO_MAGIC_TO t)) (if l then PROTO_MAGIC_IS_LARGE else 0) in
  0 ≤ b < 256 ∧ Z.land b 0x07 = m ∧ Z.land b 0x18 = PROTO_MAGIC_FROM f ∧ Z.land b 0x60 = PROTO_MAGIC_TO t ∧
  bool_decide (Z.land b 0x80 ≠ 0) = l.
Proof.
  intros Hm. assert (m ∈ seqZ 0 8) as H by (by apply elem_of_seqZ).
  cbv [seqZ seq Z.to_nat Pos.to_nat Pos.iter_op Nat.add fmap list_fmap] in H.
  repeat (apply elem_of_cons in H as [->|H]; [destruct f, t, l; vm_compute; repeat split; congruence|]).
  by apply not_elem_of_nil in H.
Qed.

Lemma opcodes_small o : o ∈ opcodes → 0 ≤ o < 256.
Proof.
  intros H. assert (Forall (λ o, 0 ≤ o < 256) opcodes) as Hf.
  { unfold opcodes. repeat (apply Forall_cons; split; [lia|]). apply Forall_nil; done. }
  rewrite Forall_forall in Hf. by apply Hf.
Qed.

Definition header_ok (h : ProtocolHeader) : Prop :=
  0 ≤ h_magic h < 8 ∧ (∃ r, h_from h = PROTO_MAGIC_FROM r) ∧ (∃ r, h_to h = PROTO_MAGIC_TO r) ∧
  h_opcode h ∈ opcodes ∧ 0 ≤ h_length h < 2 ^ 32 ∧ 0 ≤ h_instanceId h < 2 ^ 16 ∧
  0 ≤ h_requestId h < 2 ^ 32 ∧ 0 ≤ h_timestamp h < 2 ^ 32.

Lemma zlen_header h : zlen (header_bytes h) = PROTO_HEADER_SIZE.
Proof. unfold header_bytes. zlens. done. Qed.

Lemma parseHeader_holds q h r n :
  header_ok h → to q = h_to h → holds r 0 (header_bytes h) → PROTO_HEADER_SIZE ≤ n →
  parseHeader q (Some r) n = Some (Some h).
Proof.
  intros (Hm & (f & Hf) & (t & Ht) & Ho & Hl & Hi & Hr & Hts) Hq H Hn.
  pose proof (opcodes_small _ Ho).
  destruct (first_byte (h_magic h) f t (h_isLarge h) Hm) as (Hb & B1 & B2 & B3 & B4).
  unfold parseHeader, pick_recv, PROTO_HEADER_SIZE in *. rewrite (decide_False (P := n = 0)) by lia.
  rewrite (decide_False (P := n < 16)) by lia. unfold header_bytes in H.
  rewrite Hf, Ht in H. rewrite (holds_get _ _ _ _ H). cbn [mbind option_bind].
  change (?x :: ?y :: ?l) with ([x] ++ y :: l) in H. apply (holds_skip 1) in H; [|done]. change (0 + 1) with 1 in H.
  rewrite (holds_get _ _ _ _ H). cbn [mbind option_bind].
  change (?y :: ?l) with ([y] ++ l) in H. apply (holds_skip 1) in H; [|done].
  change (1 + 1) with 2 in H. rewrite <- (app_nil_r (be_bytes 4 (h_timestamp h))) in H.
  read_field H. read_field H. read_field H. read_field H.
  rewrite !b2z_small by lia. rewrite B1, B2, B3, B4. rewrite (land_small 8) by lia. cbn [h_magic h_from h_to h_opcode].
  rewrite decide_True; [|set_unfold; unfold PROTO_MAGIC_HEARTBEAT, PROTO_MAGIC_REQUEST, PROTO_MAGIC_RESPONSE_SUCCESS,
    PROTO_MAGIC_RESPONSE_FAILURE, PROTO_MAGIC_ANNOUNCEMENT, PROTO_MAGIC_LOADING_STATS, PROTO_MAGIC_REMAPPING,
    PROTO_MAGIC_ACKNOWLEDGEMENT; lia].
  rewrite decide_True by (destruct f; set_solver-).
  rewrite decide_False by (rewrite Hq, Ht; tauto). rewrite decide_True by done.
  do 2 f_equal. destruct h; simpl in *. by subst.
Qed.

(** *** What the generators leave in the buffer *)
Lemma put_at pre old post xs n : zlen old = zlen xs →
  put xs (Cur (pre ++ old ++ post) (zlen pre) n) = Some (Cur (pre ++ xs ++ post) (zlen pre + zlen xs) (n + zlen xs)).
Proof. intros. unfold put. cbn [c_buf c_pos c_bytes]. by rewrite (splice_app pre post old xs). Qed.

Lemma run_at ws body pre old post n : emits (run ws) body → zlen old = zlen body →
  run ws (Cur (pre ++ old ++ post) (zlen pre) n)
  = Some (Cur (pre ++ body ++ post) (zlen pre + zlen body) (n + zlen body)).
Proof.
  intros Hw Hl. rewrite Hw; [by apply put_at|]. unfold in_buffer; cbn. zlens. pose proof (zlen_nonneg old).
  pose proof (zlen_nonneg post). unfold zlen in *. lia.
Qed.

(** A buffer that is long enough, cut into pieces. *)
Lemma cut {A} (l : list A) n : 0 ≤ n ≤ zlen l → ∃ l1 l2, l = l1 ++ l2 ∧ zlen l1 = n.
Proof.
  intros. exists (take (Z.to_nat n) l), (drop (Z.to_nat n) l). split; [by rewrite take_drop|zsolve].
Qed.

Lemma generateHeader_at p e len ts isLarge old rest :
  protocol_ok p → envelope_ok e → zlen old = PROTO_HEADER_SIZE →
  generateHeader p (e_magic e) (e_to e) (e_opcode e) len (e_instanceId e) (e_requestId e) (Some (old ++ rest)) ts isLarge
  = Some (header_bytes (header_of p e len ts isLarge) ++ rest, PROTO_HEADER_SIZE).
Proof.
  intros (f & Hf) (Hm & (t & Ht) & Ho & _) Hold. unfold generateHeader, pick_send.
  unfold PROTO_HEADER_SIZE in *. destruct old as [|o0 [|o1 old]]; zlens; [lia..|].
  rewrite zset_Some by (zlens; pose proof (zlen_nonneg old); pose proof (zlen_nonneg rest); lia).
  cbn [mbind option_bind]. change (<[Z.to_nat 0 := ?x]> ((?y :: ?l) ++ ?r)) with (x :: l ++ r).
  rewrite zset_Some by (zlens; pose proof (zlen_nonneg old); pose proof (zlen_nonneg rest); lia).
  cbn [mbind option_bind]. change (<[Z.to_nat 1 := ?x]> (?z :: (?y :: ?l) ++ ?r)) with ([z; x] ++ l ++ r).
  change (Cur ([?x; ?y] ++ ?l) 2 2) with (Cur ([x; y] ++ l) (zlen [x; y]) 2). erewrite (run_at _ _ [_; _] old rest); [|emit|zlens; lia].
  cbn [mbind option_bind c_buf c_bytes]. do 2 f_equal.
  unfold header_bytes, header_of; simpl. rewrite Hf, Ht.
  change (Z.land (e_magic e) 7) with (Z.land (e_magic e) (Z.ones 3)).
  change (Z.land (e_opcode e) 255) with (Z.land (e_opcode e) (Z.ones 8)).
  rewrite (land_small 3 (e_magic e)), (land_small 8 (e_opcode e)) by (pose proof (opcodes_small _ Ho); lia).
  replace (Z.land (PROTO_MAGIC_FROM f) 24) with (PROTO_MAGIC_FROM f) by by destruct f.
  replace (Z.land (PROTO_MAGIC_TO t) 96) with (PROTO_MAGIC_TO t) by by destruct t.
  reflexivity.
Qed.

(** A message whose length is written first. *)
Lemma generate_room p e len sb ts isLarge ws body :
  protocol_ok p → envelope_ok e → emits (run ws) body →
  PROTO_HEADER_SIZE + zlen body ≤ zlen (pick_send p sb) →
  ∃ rest, generate p e len sb ts isLarge ws
          = Some (header_bytes (header_of p e len ts isLarge) ++ body ++ rest, PROTO_HEADER_SIZE + zlen body) ∧
    PROTO_HEADER_SIZE + zlen body + zlen rest = zlen (pick_send p sb).
Proof.
  intros Hp He Hw Hl. destruct (cut (pick_send p sb) PROTO_HEADER_SIZE) as (old & l & Hb & Ho).
  { unfold PROTO_HEADER_SIZE in *. pose proof (zlen_nonneg body). lia. }
  destruct (cut l (zlen body)) as (mid & rest & -> & Hm).
  { pose proof (zlen_nonneg body). rewrite Hb in Hl. zlens. lia. }
  exists rest. split; [|rewrite Hb; zlens; lia]. unfold generate.
  assert (Hg : generateHeader p (e_magic e) (e_to e) (e_opcode e) len (e_instanceId e) (e_requestId e) sb ts isLarge
    = generateHeader p (e_magic e) (e_to e) (e_opcode e) len (e_instanceId e) (e_requestId e)
        (Some (old ++ mid ++ rest)) ts isLarge) by (unfold generateHeader; rewrite Hb; done).
  rewrite Hg, generateHeader_at by done. cbn [mbind option_bind].
  rewrite <- (zlen_header (header_of p e len ts isLarge)) at 1.
  by rewrite (run_at ws body _ mid rest _ Hw Hm).
Qed.

Lemma generate_spec p e len sb ts isLarge ws body :
  protocol_ok p → envelope_ok e → emits (run ws) body →
  PROTO_HEADER_SIZE + zlen body ≤ zlen (pick_send p sb) →
  ∃ rest, generate p e len sb ts isLarge ws
          = Some (header_bytes (header_of p e len ts isLarge) ++ body ++ rest, PROTO_HEADER_SIZE + zlen body).
Proof. intros Hp He Hw Hl. destruct (generate_room p e len sb ts isLarge ws body Hp He Hw Hl) as (rest & Hg & _). by exists rest. Qed.

(** A message whose length is the number of bytes written before. *)
Lemma generate_last_spec p e sb ts isLarge ws body :
  protocol_ok p → envelope_ok e → emits (run ws) body →
  PROTO_HEADER_SIZE + zlen body ≤ zlen (pick_send p sb) →
  ∃ rest, generate_last p e sb ts isLarge ws
          = Some (header_bytes (header_of p e (zlen body) ts isLarge) ++ body ++ rest, PROTO_HEADER_SIZE + zlen body).
Proof.
  intros Hp He Hw Hl. destruct (cut (pick_send p sb) PROTO_HEADER_SIZE) as (old & l & Hb & Ho).
  { unfold PROTO_HEADER_SIZE in *. pose proof (zlen_nonneg body). lia. }
  destruct (cut l (zlen body)) as (mid & rest & -> & Hm).
  { pose proof (zlen_nonneg body). rewrite Hb in Hl. zlens. lia. }
  exists rest. unfold generate_last. rewrite Hb, <- Ho at 1.
  rewrite (run_at ws body old mid rest _ Hw Hm). cbn [mbind option_bind c_buf c_bytes].
  rewrite Z.add_0_l, generateHeader_at by done. cbn [mbind option_bind]. by rewrite Z.add_comm.
Qed.

(** ** Delivery

    [msg] is a message generated into a send buffer: the buffer and the number
    of bytes to send.  It [arrives] with header [h] when every receive buffer
    that starts with these bytes is parsed: its header is [h], whose length
    field is the number of bytes behind the header, and the parser of its kind
    succeeds with a result that [P] accepts. *)
Definition arrives {A} (msg : option (list byte * Z)) (q : Protocol) (h : ProtocolHeader)
    (parse : option (list byte) → Z → Z → option (option A)) (a : A) : Prop :=
  ∃ b n, msg = Some (b, n) ∧ 0 ≤ n ≤ zlen b ∧ n = PROTO_HEADER_SIZE + h_length h ∧
    ∀ r, holds r 0 (take (Z.to_nat n) b) →
      parseHeader q (Some r) n = Some (Some h) ∧ parse (Some r) n PROTO_HEADER_SIZE = Some (Some a).

Lemma arrives_intro {A} p e q ts isLarge msg body rest (parse : option (list byte) → Z → Z → option (option A)) a :
  msg = Some (header_bytes (header_of p e (zlen body) ts isLarge) ++ body ++ rest, PROTO_HEADER_SIZE + zlen body) →
  protocol_ok p → envelope_ok e → to q = e_to e → zlen body < 2 ^ 32 → 0 ≤ ts < 2 ^ 32 →
  (∀ r, holds r PROTO_HEADER_SIZE (body ++ []) →
        parse (Some r) (PROTO_HEADER_SIZE + zlen body) PROTO_HEADER_SIZE = Some (Some a)) →
  arrives msg q (header_of p e (zlen body) ts isLarge) parse a.
Proof.
  intros -> (f & Hf) (Hm & Ht & Ho & Hi & Hr) Hq Hl Hts Hparse.
  pose proof (zlen_nonneg body). pose proof (zlen_nonneg rest).
  pose proof (zlen_header (header_of p e (zlen body) ts isLarge)) as Hh.
  exists (header_bytes (header_of p e (zlen body) ts isLarge) ++ body ++ rest), (PROTO_HEADER_SIZE + zlen body).
  split; [done|]. split; [zlens; unfold PROTO_HEADER_SIZE in *; lia|]. split; [done|].
  intros r Hold. rewrite (app_assoc (header_bytes _)), take_app_length' in Hold
    by (unfold zlen, PROTO_HEADER_SIZE in *; rewrite length_app; lia).
  split.
  - apply parseHeader_holds; [|done|by eapply holds_prefix|unfold PROTO_HEADER_SIZE; lia].
    unfold header_ok, header_of; cbn. split; [done|]. split; [by exists f|]. done.
  - apply Hparse. rewrite app_nil_r. apply (holds_skip PROTO_HEADER_SIZE) in Hold; [|done]. by rewrite Z.add_0_l in Hold.
Qed.

Lemma pick_recv_some q r n : 0 ≤ n → pick_recv q (Some r) (PROTO_HEADER_SIZE + n) = (r, PROTO_HEADER_SIZE + n).
Proof. intros. unfold pick_recv, PROTO_HEADER_SIZE. by rewrite decide_False by lia. Qed.

Lemma short_ok n k : 0 ≤ n < 2 ^ 64 → k ≤ n → short (PROTO_HEADER_SIZE + n) PROTO_HEADER_SIZE k = false.
Proof.
  intros. unfold short. replace (PROTO_HEADER_SIZE + n - PROTO_HEADER_SIZE) with n by lia.
  rewrite u64_small by done. by apply bool_decide_eq_false_2, Z.nlt_ge.
Qed.

Section arrives.
Context {A : Type} (p : Protocol) (e : envelope) (q : Protocol).
Context (parse : option (list byte) → Z → Z → option (option A)) (a : A).
Hypothesis (Hp : protocol_ok p) (He : envelope_ok e) (Hq : to q = e_to e).

Lemma generate_arrives n len ts isLarge ws body :
  emits (run ws) body → zlen body = n → len = n → n < 2 ^ 32 → PROTO_HEADER_SIZE + n ≤ zlen (buffer_send p) →
  0 ≤ ts < 2 ^ 32 →
  (∀ r, holds r PROTO_HEADER_SIZE (body ++ []) → parse (Some r) (PROTO_HEADER_SIZE + n) PROTO_HEADER_SIZE = Some (Some a)) →
  arrives (generate p e len None ts isLarge ws) q (header_of p e n ts isLarge) parse a.
Proof using Hp He Hq.
  intros Hw <- -> Hn Hl Hts Hparse. destruct (generate_spec p e (zlen body) None ts isLarge ws body) as [rest Hg]; [done..|].
  by eapply arrives_intro.
Qed.

Lemma generate_last_arrives n ts isLarge ws body :
  emits (run ws) body → zlen body = n → n < 2 ^ 32 → PROTO_HEADER_SIZE + n ≤ zlen (buffer_send p) →
  0 ≤ ts < 2 ^ 32 →
  (∀ r, holds r PROTO_HEADER_SIZE (body ++ []) → parse (Some r) (PROTO_HEADER_SIZE + n) PROTO_HEADER_SIZE = Some (Some a)) →
  arrives (generate_last p e None ts isLarge ws) q (header_of p e n ts isLarge) parse a.
Proof using Hp He Hq.
  intros Hw <- Hn Hl Hts Hparse. destruct (generate_last_spec p e None ts isLarge ws body) as [rest Hg]; [done..|].
  by eapply arrives_intro.
Qed.
End arrives.

(** ** Parsing whatever is received

    [safe o P]: the parser reads inside the received bytes, and what it accepts
    satisfies [P]. *)
Definition safe {A} (o : option (option A)) (P : A → Prop) : Prop :=
  ∃ h, o = Some h ∧ match h with Some h => P h | None => True end.

(** A pointer to [n] bytes of the received message. *)
Definition in_bounds (r : list byte) (ptr n : Z) : Prop := 0 ≤ ptr ∧ ptr + n ≤ zlen r.

Lemma safe_none {A} (P : A → Prop) : safe (Some None) P.
Proof. by exists None. Qed.
Lemma safe_some {A} (h : A) (P : A → Prop) : P h → safe (Some (Some h)) P.
Proof. by exists (Some h). Qed.

Lemma safe_short {A} (r : list byte) offset need (o : option (option A)) P :
  0 ≤ offset ≤ zlen r → zlen r < 2 ^ 64 → (offset + need ≤ zlen r → safe o P) →
  safe (if short (zlen r) offset need then Some None else o) P.
Proof.
  intros ?? Ho. unfold short. rewrite u64_small by lia. case_bool_decide; [apply safe_none|apply Ho; lia].
Qed.

Lemma bswap_range n bs : length bs = n → 0 ≤ bswap n (le_val bs) < 256 ^ Z.of_nat n.
Proof.
  intros <-. rewrite bswap_le_val. unfold be_val. pose proof (le_val_range (rev bs)) as H.
  unfold zlen in H. by rewrite length_rev in H.
Qed.

Section read_safe.
Context {A : Type} (r : list byte) (ptr : Z) (P : A → Prop).
Hypothesis (Hptr : 0 ≤ ptr).
Implicit Types (f : Z * Z → option (option A)).

Lemma slice_total n : 0 ≤ n → ptr + n ≤ zlen r → ∃ xs, slice r ptr n = Some xs ∧ zlen xs = n.
Proof using Hptr.
  intros. destruct (slice r ptr n) as [xs|] eqn:E; [exists xs; by apply slice_zlen in E|].
  unfold slice in E. by rewrite decide_True in E by lia.
Qed.

Lemma safe_read1 f : ptr + 1 ≤ zlen r → (∀ v, 0 ≤ v < 256 → safe (f (v, ptr + 1)) P) → safe (x ← read1Byte r ptr; f x) P.
Proof using Hptr.
  intros ? Hf. unfold read1Byte. destruct (zget_is_Some r ptr ltac:(lia)) as [b ->]. cbn [mbind option_bind].
  apply Hf, b2z_range.
Qed.
Lemma safe_read2 f : ptr + 2 ≤ zlen r → (∀ v, 0 ≤ v < 2 ^ 16 → safe (f (v, ptr + 2)) P) → safe (x ← read2 r ptr; f x) P.
Proof using Hptr.
  intros ? Hf. unfold read2Bytes. destruct (slice_total 2) as (xs & -> & Hx); [lia..|]. cbn [mbind option_bind].
  apply Hf. apply (bswap_range 2). unfold zlen in Hx. lia.
Qed.
Lemma safe_read3 f : ptr + 3 ≤ zlen r → (∀ v, 0 ≤ v < 2 ^ 24 → safe (f (v, ptr + 3)) P) → safe (x ← read3 r ptr; f x) P.
Proof using Hptr.
  intros ? Hf. unfold read3Bytes. destruct (slice_total 3) as (xs & -> & Hx); [lia..|]. cbn [mbind option_bind].
  apply Hf. unfold ntohl. assert (Hl : length (x00 :: xs) = 4%nat) by (unfold zlen in Hx; simpl; lia).
  rewrite <- Hl, bswap_le_val. unfold be_val. cbn [rev].
  assert (Hz : ∀ l, le_val (l ++ [x00]) = le_val l).
  { induction l as [|b l IH]; [done|]. change ((b :: l) ++ [x00]) with (b :: (l ++ [x00])).
    change (le_val (b :: ?l)) with (b2z b + 256 * le_val l). by rewrite IH. }
  rewrite Hz. pose proof (le_val_range (rev xs)) as H1. unfold zlen in H1, Hx. rewrite length_rev in H1.
  replace (length xs) with 3%nat in H1 by lia. done.
Qed.
Lemma read4_total : ptr + 4 ≤ zlen r → ∃ v, read4 r ptr = Some (v, ptr + 4) ∧ 0 ≤ v < 2 ^ 32.
Proof using Hptr.
  intros. unfold read4Bytes. destruct (slice_total 4) as (xs & -> & Hx); [lia..|]. cbn [mbind option_bind].
  eexists. split; [done|]. apply (bswap_range 4). unfold zlen in Hx. lia.
Qed.
Lemma safe_read4 f : ptr + 4 ≤ zlen r → (∀ v, 0 ≤ v < 2 ^ 32 → safe (f (v, ptr + 4)) P) → safe (x ← read4 r ptr; f x) P.
Proof using Hptr.
  intros ? Hf. destruct read4_total as (v & -> & ?); [done|]. by apply Hf.
Qed.
Lemma safe_read4_host f : ptr + 4 ≤ zlen r → (∀ v, safe (f (v, ptr + 4)) P) → safe (x ← read4Bytes r ptr false; f x) P.
Proof using Hptr.
  intros ? Hf. unfold read4Bytes. destruct (slice_total 4) as (xs & -> & Hx); [lia..|]. cbn [mbind option_bind]. apply Hf.
Qed.
Lemma safe_read2_host f : ptr + 2 ≤ zlen r → (∀ v, safe (f (v, ptr + 2)) P) → safe (x ← read2Bytes r ptr false; f x) P.
Proof using Hptr.
  intros ? Hf. unfold read2Bytes. destruct (slice_total 2) as (xs & -> & Hx); [lia..|]. cbn [mbind option_bind]. apply Hf.
Qed.
End read_safe.

Lemma pick_recv_whole q r : 0 < zlen r → pick_recv q (Some r) (zlen r) = (r, zlen r).
Proof. intros. unfold pick_recv. by rewrite decide_False by lia. Qed.

(** Reads the fields of a parser one after the other. *)
Ltac safe_step :=
  lazymatch goal with
  | |- safe (if short _ _ _ then _ else _) _ => apply safe_short; [lia|lia|intros ?]
  | |- safe (read1Byte _ _ ≫= _) _ => apply safe_read1; [lia|lia|intros ? ?]
  | |- safe (read2Bytes _ _ true ≫= _) _ => apply safe_read2; [lia|lia|intros ? ?]
  | |- safe (read3Bytes _ _ true ≫= _) _ => apply safe_read3; [lia|lia|intros ? ?]
  | |- safe (read4Bytes _ _ true ≫= _) _ => apply safe_read4; [lia|lia|intros ? ?]
  | |- safe (read4Bytes _ _ false ≫= _) _ => apply safe_read4_host; [lia|lia|intros ?]
  | |- safe (read2Bytes _ _ false ≫= _) _ => apply safe_read2_host; [lia|lia|intros ?]
  | |- safe (Some None) _ => apply safe_none
  | |- safe (Some (Some _)) _ => apply safe_some
  end; cbv beta iota.
