(* ===== verification/Messages.v ===== *)
(** * Messages of the normal operations (common/protocol/normal_protocol.cc,
    chunk_protocol.cc, seal_protocol.cc, ack_protocol.cc, address_protocol.cc,
    load_protocol.cc, register_protocol.cc; the load statistics also from
    client/protocol/protocol.cc and coordinator/protocol/protocol.cc)

    A generator and a parser per kind of message.  A pointer stored in a parsed
    header is an index of the receive buffer, [None] for a null pointer.

    [message] collects the kinds that have a generator and a parser, and
    [messages_arrive] shows that each arrives as it was sent; [MessagesBounds] is about
    the parsers on other bytes. *)

From S2P Require Export Protocol KeyValue.
From S2P Require Import ChunkUtil.
Export Metadata.
Import Key.
Abbreviation LargeObject_isLarge := LargeObjectUtil.isLarge.

(** ** In-place conversion of an array of words *)

(** [arr[ i ] = ntohl( arr[ i ] )] for the word at index [p]. *)
Definition ntohl_at (buf : list byte) (p : Z) : option (list byte) :=
  '(x, _) ← read4Bytes buf p false; splice buf p (le_bytes 4 (ntohl x)).
Definition ntohl_words (ptr n : Z) (buf : list byte) : option (list byte) :=
  for_range 0 n (λ i buf, ntohl_at buf (ptr + 4 * i)) buf.

(** The array of [n] words at [ptr], as the program reads it. *)
Definition word_array (buf : list byte) (ptr n : Z) : option (list Z) :=
  mapM (λ i, fst <$> read4Bytes buf (ptr + 4 * i) false) (seqZ 0 n).

(** What the conversion leaves, and how far it is. *)
Definition host_words (ws : list Z) : list byte := concat (le_bytes 4 <$> ws).

Lemma zlen_host_words ws : zlen (host_words ws) = 4 * zlen ws.
Proof.
  unfold host_words, zlen. induction ws as [|w ws IH]; [done|].
  cbn [fmap list_fmap concat]. rewrite length_app, length_le_bytes. simpl length. lia.
Qed.
#[export] Hint Rewrite zlen_host_words : zlen.

(** The array [l] after its first [k] words have been converted. *)
Definition partly (k : nat) (l : list Z) : list byte := host_words (take k l) ++ words (drop k l).

Definition words_ok (l : list Z) : Prop := Forall (λ x, 0 ≤ x < 2 ^ 32) l.

Lemma partly_0 l : partly 0 l = words l.
Proof. done. Qed.
Lemma partly_all l : partly (length l) l = host_words l.
Proof. unfold partly. rewrite firstn_all, drop_all. cbn. by rewrite app_nil_r. Qed.

Lemma read4_host_swap buf ptr ys v :
  holds buf ptr (be_bytes 4 v ++ ys) → 0 ≤ v < 2 ^ 32 → ∃ x, read4Bytes buf ptr false = Some (x, ptr + 4) ∧ ntohl x = v.
Proof.
  intros H Hv. pose proof (read4_holds _ _ _ _ H Hv) as Hr. unfold read4Bytes in *.
  destruct (slice buf ptr 4) as [xs|]; [|done]. cbn [mbind option_bind] in *. simplify_eq. by eexists.
Qed.

Lemma ntohl_at_partly pre l post k p : (k < length l)%nat → words_ok l → p = zlen pre + 4 * Z.of_nat k →
  ntohl_at (pre ++ partly k l ++ post) p = Some (pre ++ partly (S k) l ++ post).
Proof.
  intros Hk Hl ->. destruct (lookup_lt_is_Some_2 l k Hk) as [v Hv].
  pose proof (proj1 (Forall_lookup _ _) Hl k v Hv) as Hr. cbn in Hr.
  unfold partly. rewrite (drop_S l v k Hv), (take_S_r l k v Hv).
  change (words (v :: drop (S k) l)) with (be_bytes 4 v ++ words (drop (S k) l)).
  assert (Hz : zlen (pre ++ host_words (take k l)) = zlen pre + 4 * Z.of_nat k).
  { zlens. unfold zlen at 2. rewrite length_take, Nat.min_l by lia. done. }
  rewrite <- Hz. rewrite <- (app_assoc (host_words _)), <- (app_assoc (be_bytes 4 v)), (app_assoc pre).
  destruct (read4_host_swap ((pre ++ host_words (take k l)) ++ be_bytes 4 v ++ words (drop (S k) l) ++ post)
    (zlen (pre ++ host_words (take k l))) (words (drop (S k) l) ++ post) v) as (x & Hx & Hv'); [|done|].
  { exists (pre ++ host_words (take k l)), []. by rewrite app_nil_r. }
  unfold ntohl_at. rewrite Hx. cbn [mbind option_bind]. rewrite Hv'.
  rewrite splice_app by (zlens; done). f_equal.
  rewrite <- !(assoc (++)). unfold host_words. rewrite fmap_app, concat_app. cbn. by rewrite <- !(assoc (++)).
Qed.

(** One array, as [ntohl_words] converts it. *)
Lemma ntohl_words_holds pre l post n : words_ok l → n = zlen l →
  ntohl_words (zlen pre) n (pre ++ words l ++ post) = Some (pre ++ host_words l ++ post).
Proof.
  intros Hl ->. unfold ntohl_words. rewrite <- partly_0, <- partly_all.
  destruct (for_range_inv (λ i buf, buf = pre ++ partly (Z.to_nat i) l ++ post) 0 (zlen l)
    (λ i buf, ntohl_at buf (zlen pre + 4 * i)) (pre ++ partly 0 l ++ post)) as (b & -> & ->).
  - unfold zlen. lia.
  - intros j s Hj ->. eexists. split; [apply ntohl_at_partly; [unfold zlen in *; lia|done|lia]|].
    by replace (Z.to_nat (j + 1)) with (S (Z.to_nat j)) by lia.
  - done.
  - by replace (Z.to_nat (zlen l)) with (length l) by (unfold zlen; lia).
Qed.

(** The same, for bytes that follow other bytes of a message. *)
Lemma ntohl_words_at r ptr xs l ys a n :
  holds r ptr (xs ++ words l ++ ys) → words_ok l → a = ptr + zlen xs → n = zlen l →
  ∃ r', ntohl_words a n r = Some r' ∧ holds r' ptr (xs ++ host_words l ++ ys).
Proof.
  intros (pre & post & -> & ->) Hl -> Hn. exists (pre ++ xs ++ host_words l ++ ys ++ post). split.
  - rewrite <- zlen_app. pose proof (ntohl_words_holds (pre ++ xs) l (ys ++ post) n Hl Hn) as H.
    rewrite <- !(assoc (++)) in H. by rewrite <- !(assoc (++)).
  - exists pre, post. by rewrite <- !(assoc (++)).
Qed.

(** What the program reads there afterwards. *)
Lemma word_array_holds r l : ∀ ptr ys n,
  holds r ptr (host_words l ++ ys) → words_ok l → n = zlen l → word_array r ptr n = Some l.
Proof.
  unfold word_array. intros ptr ys n H Hl ->. apply mapM_Some. apply Forall2_same_length_lookup_2.
  { unfold zlen. rewrite length_seqZ, Nat2Z.id. done. }
  intros i j x Hi Hx. apply lookup_seqZ in Hi as [-> Hi].
  pose proof (proj1 (Forall_lookup _ _) Hl i x Hx) as Hr. cbn in Hr.
  rewrite <- (take_drop_middle l i x Hx) in H. unfold host_words in H.
  rewrite fmap_app, concat_app in H. cbn [fmap list_fmap concat] in H. rewrite <- !(assoc (++)) in H.
  apply (holds_skip (4 * Z.of_nat i)) in H.
  2:{ change (concat (le_bytes 4 <$> ?l)) with (host_words l). zlens. unfold zlen.
      rewrite length_take. apply lookup_lt_Some in Hx. lia. }
  rewrite Z.add_0_l. by rewrite (read4_host_holds _ _ _ _ H Hr).
Qed.

(** ** Normal operations (normal_protocol.cc) *)
Definition PROTO_KEY_SIZE : Z := 1.
Record KeyHeader := MkKeyHeader { kh_keySize : Z; kh_key : Z }.

(** The bytes of a key on the wire: a large object's key has its split offset. *)
Definition large_size (isLarge : bool) : Z := if isLarge then SPLIT_OFFSET_SIZE else 0.

Definition generateKeyHeader (p : Protocol) (e : envelope) (keySize : Z) (key : list byte)
    (sendBuf : option (list byte)) (timestamp : Z) (isLarge : bool) : option (list byte * Z) :=
  generate p e (PROTO_KEY_SIZE + keySize + large_size isLarge) sendBuf timestamp isLarge
    [write1Byte keySize; write key (keySize + large_size isLarge)].

Definition parseKeyHeader (p : Protocol) (buf : option (list byte)) (size offset : Z) : option (option KeyHeader) :=
  let '(buf, size) := pick_recv p buf size in
  if short size offset PROTO_KEY_SIZE then Some None else
  '(keySize, ptr) ← read1Byte buf offset;
  if short size offset (PROTO_KEY_SIZE + keySize) then Some None else
  Some (Some (MkKeyHeader keySize ptr)).

Definition PROTO_KEY_BACKUP_BASE_SIZE : Z := 3.
Definition PROTO_KEY_BACKUP_FOR_DATA_SIZE : Z := 17.
Definition PROTO_KEY_BACKUP_SEALED_SIZE : Z := 12.

Definition write_metadata (m : Metadata) : writer :=
  run [write4 (listId m); write4 (stripeId m); write4 (chunkId m)].

(** The three overloads: for a data server with and without sealed chunks, and
    for a parity server. *)
Definition generateKeyBackupHeader_sealed (p : Protocol) (e : envelope) (timestamp : Z) (m : Metadata)
    (sealed : list Metadata) (sealedCount keySize : Z) (key : list byte) (isLarge : bool)
    (sendBuf : option (list byte)) : option (list byte * Z) :=
  generate p e (PROTO_KEY_BACKUP_BASE_SIZE + PROTO_KEY_BACKUP_FOR_DATA_SIZE
                + sealedCount * PROTO_KEY_BACKUP_SEALED_SIZE + keySize + large_size isLarge) sendBuf 0 isLarge
    [write1Byte (b2i false); write1Byte keySize; write1Byte (b2i isLarge);
     write4 timestamp; write4 (listId m); write4 (stripeId m); write4 (chunkId m);
     write1Byte sealedCount;
     for_range 0 sealedCount (λ i c, s ← zget sealed i; write_metadata s c);
     write key (keySize + large_size isLarge)].

Definition generateKeyBackupHeader_data (p : Protocol) (e : envelope) (timestamp : Z) (m : Metadata)
    (keySize : Z) (key : list byte) (isLarge : bool) (sendBuf : option (list byte)) : option (list byte * Z) :=
  generate p e (PROTO_KEY_BACKUP_BASE_SIZE + PROTO_KEY_BACKUP_FOR_DATA_SIZE + keySize + large_size isLarge)
    sendBuf 0 isLarge
    [write1Byte (b2i false); write1Byte keySize; write1Byte (b2i isLarge);
     write4 timestamp; write4 (listId m); write4 (stripeId m); write4 (chunkId m);
     write1Byte 0;
     write key (keySize + large_size isLarge)].

Definition generateKeyBackupHeader_parity (p : Protocol) (e : envelope)
    (keySize : Z) (key : list byte) (isLarge : bool) (sendBuf : option (list byte)) : option (list byte * Z) :=
  generate p e (PROTO_KEY_BACKUP_BASE_SIZE + keySize + large_size isLarge) sendBuf 0 isLarge
    [write1Byte (b2i true); write1Byte keySize; write1Byte (b2i isLarge);
     write key (keySize + large_size isLarge)].

(** The fields for data servers; [kb_sealed] is the array of two entries. *)
Record KeyBackupData := MkKeyBackupData {
  kb_timestamp : Z; kb_metadata : Metadata; kb_sealedCount : Z; kb_sealed : list Metadata }.
Record KeyBackupHeader := MkKeyBackupHeader {
  kb_isParity : bool; kb_keySize : Z; kb_isLarge : bool; kb_data : option KeyBackupData; kb_key : Z }.

Definition i2b (x : Z) : bool := bool_decide (x ≠ 0).

Definition read_metadata (buf : list byte) (ptr : Z) : option (Metadata * Z) :=
  '(l, ptr) ← read4 buf ptr; '(s, ptr) ← read4 buf ptr; '(c, ptr) ← read4 buf ptr;
  Some (MkMetadata l s c, ptr).

(** [sealed] is what the array of the header holds before. *)
Definition parseKeyBackupHeader (p : Protocol) (sealed : list Metadata) (buf : option (list byte)) (size offset : Z) :
    option (option KeyBackupHeader) :=
  let '(buf, size) := pick_recv p buf size in
  if short size offset PROTO_KEY_BACKUP_BASE_SIZE then Some None else
  '(isParity, ptr) ← read1Byte buf offset;
  '(keySize, ptr) ← read1Byte buf ptr;
  '(isLarge, ptr) ← read1Byte buf ptr;
  if i2b isParity then
    if short size offset (PROTO_KEY_BACKUP_BASE_SIZE + keySize) then Some None else
    Some (Some (MkKeyBackupHeader true keySize (i2b isLarge) None ptr))
  else
    if short size offset (PROTO_KEY_BACKUP_BASE_SIZE + PROTO_KEY_BACKUP_FOR_DATA_SIZE + keySize) then Some None else
    '(timestamp, ptr) ← read4 buf ptr;
    '(m, ptr) ← read_metadata buf ptr;
    '(sealedCount, ptr) ← read1Byte buf ptr;
    if short size offset (PROTO_KEY_BACKUP_BASE_SIZE + PROTO_KEY_BACKUP_FOR_DATA_SIZE
                          + sealedCount * PROTO_KEY_BACKUP_SEALED_SIZE + keySize) then Some None else
    '(sealed, ptr) ← for_range 0 sealedCount (λ i '(sealed, ptr),
        '(s, ptr) ← read_metadata buf ptr; sealed ← zset sealed i s; Some (sealed, ptr)) (sealed, ptr);
    Some (Some (MkKeyBackupHeader false keySize (i2b isLarge)
                  (Some (MkKeyBackupData timestamp m sealedCount sealed)) ptr)).

Definition PROTO_CHUNK_KEY_SIZE : Z := 13.
Record ChunkKeyHeader := MkChunkKeyHeader { ck_metadata : Metadata; ck_keySize : Z; ck_key : Z }.

Definition generateChunkKeyHeader (p : Protocol) (e : envelope) (listId stripeId chunkId keySize : Z)
    (key : list byte) (sendBuf : option (list byte)) (timestamp : Z) : option (list byte * Z) :=
  generate p e (PROTO_CHUNK_KEY_SIZE + keySize) sendBuf timestamp false
    [write4 listId; write4 stripeId; write4 chunkId; write1Byte keySize; write key keySize].

Definition parseChunkKeyHeader (p : Protocol) (buf : option (list byte)) (size offset : Z) :
    option (option ChunkKeyHeader) :=
  let '(buf, size) := pick_recv p buf size in
  if short size offset PROTO_CHUNK_KEY_SIZE then Some None else
  '(listId, ptr) ← read4 buf offset;
  '(stripeId, ptr) ← read4 buf ptr;
  '(chunkId, ptr) ← read4 buf ptr;
  '(keySize, ptr) ← read1Byte buf ptr;
  if short size offset (PROTO_CHUNK_KEY_SIZE + keySize) then Some None else
  Some (Some (MkChunkKeyHeader (MkMetadata listId stripeId chunkId) keySize ptr)).

Definition PROTO_CHUNK_KEY_VALUE_UPDATE_SIZE : Z := 23.
Record ChunkKeyValueUpdateHeader := MkChunkKeyValueUpdateHeader {
  cu_metadata : Metadata; cu_keySize : Z; cu_valueUpdateSize : Z; cu_valueUpdateOffset : Z;
  cu_chunkUpdateOffset : Z; cu_isLarge : bool; cu_key : Z; cu_valueUpdate : option Z }.

(** [valueUpdate] may be a null pointer. *)
Definition opt_size (data : option (list byte)) (n : Z) : Z := match data with Some _ => n | None => 0 end.
Definition write_opt (data : option (list byte)) (n : Z) : writer :=
  match data with Some d => when (bool_decide (n ≠ 0)) (write d n) | None => Some end.

Definition generateChunkKeyValueUpdateHeader (p : Protocol) (e : envelope) (listId stripeId chunkId keySize : Z)
    (isLarge : bool) (key : list byte) (valueUpdateOffset valueUpdateSize chunkUpdateOffset : Z)
    (valueUpdate : option (list byte)) (sendBuf : option (list byte)) (timestamp : Z) : option (list byte * Z) :=
  generate p e (PROTO_CHUNK_KEY_VALUE_UPDATE_SIZE + keySize + large_size isLarge + opt_size valueUpdate valueUpdateSize)
    sendBuf timestamp false
    [write4 listId; write4 stripeId; write4 chunkId; write1Byte keySize;
     write3 valueUpdateSize; write3 valueUpdateOffset; write3 chunkUpdateOffset; write1Byte (b2i isLarge);
     write key (keySize + large_size isLarge); write_opt valueUpdate valueUpdateSize].

Definition parseChunkKeyValueUpdateHeader (p : Protocol) (withValueUpdate : bool)
    (buf : option (list byte)) (size offset : Z) : option (option ChunkKeyValueUpdateHeader) :=
  let '(buf, size) := pick_recv p buf size in
  if short size offset PROTO_CHUNK_KEY_VALUE_UPDATE_SIZE then Some None else
  '(listId, ptr) ← read4 buf offset;
  '(stripeId, ptr) ← read4 buf ptr;
  '(chunkId, ptr) ← read4 buf ptr;
  '(keySize, ptr) ← read1Byte buf ptr;
  '(valueUpdateSize, ptr) ← read3 buf ptr;
  '(valueUpdateOffset, ptr) ← read3 buf ptr;
  '(chunkUpdateOffset, ptr) ← read3 buf ptr;
  '(isLarge, ptr) ← read1Byte buf ptr;
  let isLarge := i2b isLarge in
  let valueUpdate := if withValueUpdate && bool_decide (valueUpdateSize ≠ 0)
                     then Some (ptr + keySize + large_size isLarge) else None in
  if short size offset (PROTO_CHUNK_KEY_VALUE_UPDATE_SIZE + keySize + large_size isLarge
                        + (if withValueUpdate then valueUpdateSize else 0)) then Some None else
  Some (Some (MkChunkKeyValueUpdateHeader (MkMetadata listId stripeId chunkId) keySize valueUpdateSize
                valueUpdateOffset chunkUpdateOffset isLarge ptr valueUpdate)).

Section split.
(** The chunk size known to [LargeObjectUtil]. *)
Variable chunkSize : Z.

Record KeyValueHeader := MkKeyValueHeader {
  kv_keySize : Z; kv_valueSize : Z; kv_key : Z; kv_splitOffset : Z; kv_value : option Z }.

Definition generateKeyValueHeader (p : Protocol) (e : envelope) (keySize : Z) (key : list byte)
    (valueSize : Z) (value : list byte) (sendBuf : option (list byte)) (timestamp splitOffset splitSize : Z)
    (isLarge : bool) : option (list byte * Z) :=
  generate_last p e sendBuf timestamp isLarge
    ([write1Byte keySize; write3 valueSize; write key keySize] ++
     (if decide (splitSize = 0 ∨ splitSize = valueSize) then
        [when (bool_decide (valueSize ≠ 0)) (write value valueSize)]
      else
        [write3 splitOffset;
         when (bool_decide (valueSize ≠ 0)) (write value (LargeObjectUtil.clampSplit valueSize splitOffset splitSize))])).

Definition parseKeyValueHeader (p : Protocol) (buf : option (list byte)) (size offset : Z) (enableSplit isLarge : bool) :
    option (option KeyValueHeader) :=
  let '(buf, size) := pick_recv p buf size in
  if short size offset PROTO_KEY_VALUE_SIZE then Some None else
  '(keySize, ptr) ← read1Byte buf offset;
  '(valueSize, ptr) ← read3 buf ptr;
  let key := ptr in
  let ptr := ptr + keySize in
  si ← (if enableSplit then Some <$> LargeObject_isLarge chunkSize keySize valueSize else Some None);
  let split := match si with Some si => if LargeObjectUtil.si_large si then Some (LargeObjectUtil.si_size si) else None
                           | None => None end in
  match split with
  | Some splitSize =>
      '(splitOffset, ptr) ← read3 buf ptr;
      let splitSize := LargeObjectUtil.clampSplit valueSize splitOffset splitSize in
      if short size offset (u32 (PROTO_KEY_VALUE_SIZE + PROTO_SPLIT_OFFSET_SIZE + keySize + splitSize)) then Some None else
      Some (Some (MkKeyValueHeader keySize valueSize key splitOffset (if decide (valueSize ≠ 0) then Some ptr else None)))
  | None =>
      if short size offset (u32 (PROTO_KEY_VALUE_SIZE + keySize + valueSize)) then Some None else
      let ptr := if isLarge then ptr + SPLIT_OFFSET_SIZE else ptr in
      Some (Some (MkKeyValueHeader keySize valueSize key 0 (if decide (valueSize ≠ 0) then Some ptr else None)))
  end.
End split.

Definition PROTO_KEY_VALUE_UPDATE_SIZE : Z := 7.
Record KeyValueUpdateHeader := MkKeyValueUpdateHeader {
  ku_keySize : Z; ku_valueUpdateSize : Z; ku_valueUpdateOffset : Z; ku_key : Z; ku_valueUpdate : option Z }.

Definition generateKeyValueUpdateHeader (p : Protocol) (e : envelope) (keySize : Z) (key : list byte)
    (valueUpdateOffset valueUpdateSize : Z) (valueUpdate sendBuf : option (list byte)) (timestamp : Z) :
    option (list byte * Z) :=
  generate p e (PROTO_KEY_VALUE_UPDATE_SIZE + keySize + opt_size valueUpdate valueUpdateSize) sendBuf timestamp false
    [write1Byte keySize; write3 valueUpdateSize; write3 valueUpdateOffset; write key keySize;
     write_opt valueUpdate valueUpdateSize].

Definition parseKeyValueUpdateHeader (p : Protocol) (withValueUpdate : bool) (buf : option (list byte)) (size offset : Z) :
    option (option KeyValueUpdateHeader) :=
  let '(buf, size) := pick_recv p buf size in
  if short size offset PROTO_KEY_VALUE_UPDATE_SIZE then Some None else
  '(keySize, ptr) ← read1Byte buf offset;
  '(valueUpdateSize, ptr) ← read3 buf ptr;
  '(valueUpdateOffset, ptr) ← read3 buf ptr;
  let valueUpdate := if withValueUpdate && bool_decide (valueUpdateSize ≠ 0) then Some (ptr + keySize) else None in
  if short size offset (PROTO_KEY_VALUE_UPDATE_SIZE + keySize + (if withValueUpdate then valueUpdateSize else 0))
  then Some None else
  Some (Some (MkKeyValueUpdateHeader keySize valueUpdateSize valueUpdateOffset ptr valueUpdate)).

Definition PROTO_CHUNK_UPDATE_SIZE : Z := 24.
Record ChunkUpdateHeader := MkChunkUpdateHeader {
  cp_metadata : Metadata; cp_offset : Z; cp_length : Z; cp_updatingChunkId : Z; cp_delta : option Z }.

Definition generateChunkUpdateHeader (p : Protocol) (e : envelope) (listId stripeId chunkId offset length updatingChunkId : Z)
    (delta sendBuf : option (list byte)) (timestamp : Z) : option (list byte * Z) :=
  generate p e (match delta with Some _ => u32 (PROTO_CHUNK_UPDATE_SIZE + length) | None => PROTO_CHUNK_UPDATE_SIZE end)
    sendBuf timestamp false
    [write4 listId; write4 stripeId; write4 chunkId; write4 offset; write4 length; write4 updatingChunkId;
     match delta with Some d => write d length | None => Some end].

Definition parseChunkUpdateHeader (p : Protocol) (withDelta : bool) (buf : option (list byte)) (size offset : Z) :
    option (option ChunkUpdateHeader) :=
  let '(buf, size) := pick_recv p buf size in
  if short size offset PROTO_CHUNK_UPDATE_SIZE then Some None else
  '(listId, ptr) ← read4 buf offset;
  '(stripeId, ptr) ← read4 buf ptr;
  '(chunkId, ptr) ← read4 buf ptr;
  '(ofs, ptr) ← read4 buf ptr;
  '(length, ptr) ← read4 buf ptr;
  '(updatingChunkId, ptr) ← read4 buf ptr;
  if short size offset (u32 (PROTO_CHUNK_UPDATE_SIZE + (if withDelta then length else 0))) then Some None else
  Some (Some (MkChunkUpdateHeader (MkMetadata listId stripeId chunkId) ofs length updatingChunkId
    (if withDelta && bool_decide (length ≠ 0) then Some ptr else None))).

(** ** Chunks (chunk_protocol.cc) *)
Definition PROTO_CHUNK_SIZE : Z := 12.

Definition generateChunkHeader (p : Protocol) (e : envelope) (listId stripeId chunkId : Z) (sendBuf : option (list byte)) :
    option (list byte * Z) :=
  generate p e PROTO_CHUNK_SIZE sendBuf 0 false [write4 listId; write4 stripeId; write4 chunkId].

Definition parseChunkHeader (p : Protocol) (buf : option (list byte)) (size offset : Z) : option (option Metadata) :=
  let '(buf, size) := pick_recv p buf size in
  if short size offset PROTO_CHUNK_SIZE then Some None else
  '(m, _) ← read_metadata buf offset; Some (Some m).

Definition PROTO_CHUNKS_SIZE : Z := 12.
Record ChunksHeader := MkChunksHeader { cs_listId : Z; cs_chunkId : Z; cs_numStripes : Z; cs_stripeIds : Z }.

(** Writes from an array while they fit; the result has the number written. *)
Fixpoint write_stripes (size : Z) (stripeIds : list Z) (count : Z) (c : cursor) : option (Z * cursor) :=
  match stripeIds with
  | [] => Some (count, c)
  | s :: rest =>
      if decide (c_bytes c + 4 > size) then Some (count, c)
      else c ← write4 s c; write_stripes size rest (count + 1) c
  end.

(** Skipping [n] bytes, which are filled in later. *)
Definition skip (n : Z) (c : cursor) : cursor := Cur (c_buf c) (c_pos c + n) (c_bytes c + n).

Definition generateChunksHeader (p : Protocol) (e : envelope) (listId chunkId : Z) (stripeIds : list Z) :
    option (Z * (list byte * Z)) :=
  c ← run [write4 listId; write4 chunkId] (Cur (buffer_send p) PROTO_HEADER_SIZE PROTO_HEADER_SIZE);
  let numStripesPtr := c_pos c in
  '(count, c) ← write_stripes (buffer_size p) stripeIds 0 (skip (PROTO_CHUNKS_SIZE - 8) c);
  buf ← splice (c_buf c) numStripesPtr (le_bytes 4 (htonl (u32 count)));
  '(buf, _) ← generateHeader p (e_magic e) (e_to e) (e_opcode e) (c_bytes c - PROTO_HEADER_SIZE)
                (e_instanceId e) (e_requestId e) (Some buf) 0 false;
  Some (count, (buf, c_bytes c)).

Definition parseChunksHeader (p : Protocol) (buf : option (list byte)) (size offset : Z) :
    option (option (ChunksHeader * list byte)) :=
  let '(buf, size) := pick_recv p buf size in
  if short size offset PROTO_CHUNKS_SIZE then Some None else
  '(listId, ptr) ← read4 buf offset;
  '(chunkId, ptr) ← read4 buf ptr;
  '(numStripes, ptr) ← read4 buf ptr;
  if short size offset (u32 (PROTO_CHUNKS_SIZE + numStripes * 4)) then Some None else
  buf ← ntohl_words ptr numStripes buf;
  Some (Some (MkChunksHeader listId chunkId numStripes ptr, buf)).

Definition PROTO_CHUNK_DATA_SIZE : Z := 21.
Record ChunkDataHeader := MkChunkDataHeader {
  cd_sealIndicatorCount : Z; cd_metadata : Metadata; cd_size : Z; cd_offset : Z;
  cd_sealIndicator : option Z; cd_data : option Z }.

Definition generateChunkDataHeader (p : Protocol) (e : envelope) (listId stripeId chunkId chunkSize chunkOffset : Z)
    (chunkData : option (list byte)) (sealIndicatorCount : Z) (sealIndicator : list bool) : option (list byte * Z) :=
  generate p e (u32 (PROTO_CHUNK_DATA_SIZE + chunkSize + sealIndicatorCount)) None 0 false
    [write1Byte sealIndicatorCount; write4 listId; write4 stripeId; write4 chunkId; write4 chunkSize; write4 chunkOffset;
     for_range 0 sealIndicatorCount (λ i c, b ← zget sealIndicator i; write1Byte (b2i b) c);
     write_opt chunkData chunkSize].

(** [header.sealIndicator] is only set when there are indicators. *)
Definition parseChunkDataHeader (p : Protocol) (buf : option (list byte)) (size offset : Z) :
    option (option ChunkDataHeader) :=
  let '(buf, size) := pick_recv p buf size in
  if short size offset PROTO_CHUNK_DATA_SIZE then Some None else
  '(sealIndicatorCount, ptr) ← read1Byte buf offset;
  '(m, ptr) ← read_metadata buf ptr;
  '(sz, ptr) ← read4 buf ptr;
  '(ofs, ptr) ← read4 buf ptr;
  let '(sealIndicator, ptr) := if decide (sealIndicatorCount ≠ 0) then (Some ptr, ptr + sealIndicatorCount) else (None, ptr) in
  if short size offset (u32 (PROTO_CHUNK_DATA_SIZE + sealIndicatorCount + sz)) then Some None else
  Some (Some (MkChunkDataHeader sealIndicatorCount m sz ofs sealIndicator (if decide (sz ≠ 0) then Some ptr else None))).

(** ** Seal (seal_protocol.cc) *)
Definition PROTO_CHUNK_SEAL_SIZE : Z := 16.
Definition PROTO_CHUNK_SEAL_DATA_SIZE : Z := 6.
Record ChunkSealHeader := MkChunkSealHeader { sh_metadata : Metadata; sh_count : Z }.
Record ChunkSealHeaderData := MkChunkSealHeaderData { sd_keySize : Z; sd_offset : Z; sd_key : Z }.

(** The [dataLength] bytes of seal data are in the buffer already. *)
Definition generateChunkSealHeader (p : Protocol) (e : envelope) (listId stripeId chunkId count dataLength : Z)
    (sendBuf : option (list byte)) : option (list byte * Z) :=
  '(buf, bytes) ← generate p e (u32 (PROTO_CHUNK_SEAL_SIZE + dataLength)) sendBuf 0 false
    [write4 listId; write4 stripeId; write4 chunkId; write4 count];
  Some (buf, bytes + dataLength).

Definition parseChunkSealHeader (p : Protocol) (buf : option (list byte)) (size offset : Z) : option (option ChunkSealHeader) :=
  let '(buf, size) := pick_recv p buf size in
  if short size offset PROTO_CHUNK_SEAL_SIZE then Some None else
  '(m, ptr) ← read_metadata buf offset;
  '(count, ptr) ← read4 buf ptr;
  Some (Some (MkChunkSealHeader m count)).

Definition parseChunkSealHeaderData (p : Protocol) (buf : option (list byte)) (size offset : Z) :
    option (option ChunkSealHeaderData) :=
  let '(buf, size) := pick_recv p buf size in
  if short size offset PROTO_CHUNK_SEAL_DATA_SIZE then Some None else
  '(keySize, ptr) ← read1Byte buf offset;
  '(ofs, ptr) ← read4 buf ptr;
  if short size offset (PROTO_CHUNK_SEAL_DATA_SIZE + keySize) then Some None else
  Some (Some (MkChunkSealHeaderData keySize ofs ptr)).

(** ** Acknowledgements (ack_protocol.cc) *)
Definition PROTO_ACK_BASE_SIZE : Z := 8.
Definition PROTO_ACK_DELTA_SIZE : Z := 10.
Record AcknowledgementHeader := MkAcknowledgementHeader { ak_fromTimestamp : Z; ak_toTimestamp : Z }.
Record DeltaAcknowledgementHeader := MkDeltaAcknowledgementHeader { da_tsCount : Z; da_keyCount : Z; da_targetId : Z }.

Definition generateAcknowledgementHeader (p : Protocol) (e : envelope) (fromTimestamp toTimestamp : Z)
    (sendBuf : option (list byte)) : option (list byte * Z) :=
  generate p e PROTO_ACK_BASE_SIZE sendBuf 0 false [write4 fromTimestamp; write4 toTimestamp].

Definition parseAcknowledgementHeader (p : Protocol) (buf : option (list byte)) (size offset : Z) :
    option (option AcknowledgementHeader) :=
  let '(buf, size) := pick_recv p buf size in
  if short size offset PROTO_ACK_BASE_SIZE then Some None else
  '(fromTimestamp, ptr) ← read4 buf offset;
  '(toTimestamp, ptr) ← read4 buf ptr;
  Some (Some (MkAcknowledgementHeader fromTimestamp toTimestamp)).

Definition write_key (k : Key) : writer := run [write1Byte (Key.size k); write (Key.data k) (Key.size k)].

Definition generateDeltaAcknowledgementHeader (p : Protocol) (e : envelope) (timestamps : list Z) (requests : list Key)
    (targetId : Z) (sendBuf : option (list byte)) : option (list byte * Z) :=
  generate_last p e sendBuf 0 false
    [write4 (zlen timestamps); write4 (zlen requests); write2 targetId;
     run (map (λ t, write4 t) timestamps); run (map write_key requests)].

(** [Key::dup]: a size 0 stands for the size the key had before, which is
    unknown for a new key ([None]). *)
Definition dup (prev : option Z) (size : Z) : option Z := if decide (size = 0) then prev else Some size.

Fixpoint read_words (buf : list byte) (ptr : Z) (n : nat) : option (list Z * Z) :=
  match n with
  | O => Some ([], ptr)
  | S n => '(x, ptr) ← read4 buf ptr; '(xs, ptr) ← read_words buf ptr n; Some (x :: xs, ptr)
  end.

(** The loop over the keys; [need] is what the message must have without them,
    [total] the size of the keys so far.  A [false] result keeps the keys that
    were pushed already. *)
Fixpoint read_keys (buf : list byte) (size offset need total : Z) (prev : option Z) (ptr : Z) (n : nat) :
    option (bool * list Key) :=
  match n with
  | O => Some (true, [])
  | S n =>
      '(keySize, ptr) ← read1Byte buf ptr;
      let total := u32 (total + (1 + keySize)) in
      if short size offset (u32 (need + total)) then Some (false, []) else
      n' ← dup prev keySize;
      data ← slice buf ptr n';
      '(ok, ks) ← read_keys buf size offset need total (Some n') (ptr + keySize) n;
      Some (ok, MkKey n' data false :: ks)
  end.

(** The results: the header and what is pushed onto the two vectors; a vector
    that is not asked for ends the parsing. *)
Definition parseDeltaAcknowledgementHeader (p : Protocol) (withTimestamps withRequests : bool)
    (buf : option (list byte)) (size offset : Z) :
    option (option (DeltaAcknowledgementHeader * list Z * list Key)) :=
  let '(buf, size) := pick_recv p buf size in
  if short size offset PROTO_ACK_DELTA_SIZE then Some None else
  '(tsCount, ptr) ← read4 buf offset;
  '(keyCount, ptr) ← read4 buf ptr;
  '(targetId, ptr) ← read2 buf ptr;
  let h := MkDeltaAcknowledgementHeader tsCount keyCount targetId in
  if short size offset (u32 (PROTO_ACK_DELTA_SIZE + tsCount * 4 + keyCount)) then Some None else
  if negb withTimestamps then Some (Some (h, [], [])) else
  '(timestamps, ptr) ← read_words buf ptr (Z.to_nat tsCount);
  if negb withRequests then Some (Some (h, timestamps, [])) else
  '(ok, requests) ← read_keys buf size offset (PROTO_ACK_DELTA_SIZE + tsCount * 4) 0 None ptr (Z.to_nat keyCount);
  Some (if (ok : bool) then Some (h, timestamps, requests) else None).

(** ** Addresses (address_protocol.cc): already in network byte order *)
Definition PROTO_ADDRESS_SIZE : Z := 6.
Record AddressHeader := MkAddressHeader { ad_addr : Z; ad_port : Z }.
Definition write_address (a : AddressHeader) : writer := run [write4Bytes (ad_addr a) false; write2Bytes (ad_port a) false].
Definition read_address (buf : list byte) (ptr : Z) : option (AddressHeader * Z) :=
  '(addr, ptr) ← read4Bytes buf ptr false; '(port, ptr) ← read2Bytes buf ptr false;
  Some (MkAddressHeader addr port, ptr).

Definition generateAddressHeader (p : Protocol) (e : envelope) (addr port : Z) (sendBuf : option (list byte)) :
    option (list byte * Z) :=
  generate p e PROTO_ADDRESS_SIZE sendBuf 0 false [write4Bytes addr false; write2Bytes port false].

Definition parseAddressHeader (p : Protocol) (buf : option (list byte)) (size offset : Z) : option (option AddressHeader) :=
  let '(buf, size) := pick_recv p buf size in
  if short size offset PROTO_ADDRESS_SIZE then Some None else
  '(a, _) ← read_address buf offset; Some (Some a).

Definition generateSrcDstAddressHeader (p : Protocol) (e : envelope) (srcAddr srcPort dstAddr dstPort : Z) :
    option (list byte * Z) :=
  generate p e (PROTO_ADDRESS_SIZE * 2) None 0 false
    [write4Bytes srcAddr false; write2Bytes srcPort false; write4Bytes dstAddr false; write2Bytes dstPort false].

Definition parseSrcDstAddressHeader (p : Protocol) (buf : option (list byte)) (size offset : Z) :
    option (option (AddressHeader * AddressHeader)) :=
  let '(buf, size) := pick_recv p buf size in
  if short size offset (PROTO_ADDRESS_SIZE * 2) then Some None else
  '(src, ptr) ← read_address buf offset; '(dst, ptr) ← read_address buf ptr; Some (Some (src, dst)).

(** ** Load statistics (load_protocol.cc) and registration (register_protocol.cc) *)
Definition PROTO_LOAD_STATS_SIZE : Z := 12.
Record LoadStatsHeader := MkLoadStatsHeader { ls_serverGetCount : Z; ls_serverSetCount : Z; ls_serverOverloadCount : Z }.

(** The records follow; the caller writes them. *)
Definition generateLoadStatsHeader (p : Protocol) (magic to instanceId requestId : Z)
    (serverGetCount serverSetCount serverOverloadCount recordSize serverAddrSize : Z) : option (list byte * Z) :=
  generate p (Env magic to 0 instanceId requestId)
    (u32 (PROTO_LOAD_STATS_SIZE + (serverGetCount + serverSetCount) * recordSize + serverOverloadCount * serverAddrSize))
    None 0 false
    [write4 serverGetCount; write4 serverSetCount; write4 serverOverloadCount].

Definition parseLoadStatsHeader (p : Protocol) (buf : option (list byte)) (size offset : Z) : option (option LoadStatsHeader) :=
  let '(buf, size) := pick_recv p buf size in
  if short size offset PROTO_LOAD_STATS_SIZE then Some None else
  '(g, ptr) ← read4 buf offset;
  '(s, ptr) ← read4 buf ptr;
  '(o, ptr) ← read4 buf ptr;
  Some (Some (MkLoadStatsHeader g s o)).

(** [reqPushLoadStats] of both protocol classes: the latencies of GET and SET per
    server, as they are in the maps, and the overloaded servers; a client has none.
    The records are stored behind what the generator leaves. *)
Record LoadStat := MkLoadStat { lt_server : AddressHeader; lt_sec : Z; lt_nsec : Z }.
Definition LOAD_STAT_SIZE : Z := 14.
Definition write_stat (s : LoadStat) : writer := run [write_address (lt_server s); write4 (lt_sec s); write4 (lt_nsec s)].

Definition reqPushLoadStats (p : Protocol) (magic to instanceId requestId : Z) (gets sets : list LoadStat)
    (overloaded : list AddressHeader) : option (list byte * Z) :=
  '(buf, size) ← generateLoadStatsHeader p magic to instanceId requestId (zlen gets) (zlen sets) (zlen overloaded)
                   LOAD_STAT_SIZE PROTO_ADDRESS_SIZE;
  c ← run [run (map write_stat (gets ++ sets)); run (map write_address overloaded)] (Cur buf size size);
  Some (c_buf c, c_bytes c).

Definition read_stat (buf : list byte) (ptr : Z) : option (LoadStat * Z) :=
  '(a, ptr) ← read_address buf ptr; '(s, ptr) ← read4 buf ptr; '(n, ptr) ← read4 buf ptr;
  Some (MkLoadStat a s n, ptr).
Fixpoint read_list {A} (read : list byte → Z → option (A * Z)) (buf : list byte) (ptr : Z) (n : nat) : option (list A * Z) :=
  match n with
  | O => Some ([], ptr)
  | S n => '(x, ptr) ← read buf ptr; '(xs, ptr) ← read_list read buf ptr n; Some (x :: xs, ptr)
  end.

(** [parseLoadingStats] of the client, with the [size] bytes behind the header at
    [ptr]: what is set in the two maps and inserted into the set, in this order. *)
Definition parseLoadingStats (h : LoadStatsHeader) (buf : list byte) (ptr size : Z) :
    option (option (list LoadStat * list LoadStat * list AddressHeader)) :=
  let n := u32 (ls_serverGetCount h + ls_serverSetCount h) in
  if decide (size < u32 (n * LOAD_STAT_SIZE + ls_serverOverloadCount h * PROTO_ADDRESS_SIZE)) then Some None else
  '(stats, ptr) ← read_list read_stat buf ptr (Z.to_nat n);
  '(overloaded, _) ← read_list read_address buf ptr (Z.to_nat (ls_serverOverloadCount h));
  let g := Z.to_nat (ls_serverGetCount h) in
  Some (Some (take g stats, drop g stats, overloaded)).

Definition PROTO_NAMED_PIPE_SIZE : Z := 2.
Record NamedPipeHeader := MkNamedPipeHeader { np_readLength : Z; np_writeLength : Z; np_readPathname : Z; np_writePathname : Z }.

Definition generateNamedPipeHeader (p : Protocol) (e : envelope) (readLength writeLength : Z)
    (readPathname writePathname : list byte) (sendBuf : option (list byte)) : option (list byte * Z) :=
  generate p e (PROTO_NAMED_PIPE_SIZE + readLength + writeLength) sendBuf 0 false
    [write1Byte readLength; write1Byte writeLength; write readPathname readLength; write writePathname writeLength].

Definition parseNamedPipeHeader (p : Protocol) (buf : option (list byte)) (size offset : Z) : option (option NamedPipeHeader) :=
  let '(buf, size) := pick_recv p buf size in
  if short size offset PROTO_NAMED_PIPE_SIZE then Some None else
  '(readLength, ptr) ← read1Byte buf offset;
  '(writeLength, ptr) ← read1Byte buf ptr;
  Some (Some (MkNamedPipeHeader readLength writeLength ptr (ptr + readLength))).

(** ** The messages with a generator and a parser

    What a message carries, with the bytes its pointers refer to. *)
Inductive message :=
| MKey (k : Key)
| MKeyBackupParity (k : Key)
| MKeyBackupData (timestamp : Z) (m : Metadata) (sealed : list Metadata) (k : Key)
| MChunkKey (m : Metadata) (key : list byte)
| MChunkKeyValueUpdate (m : Metadata) (k : Key) (valueOffset valueSize chunkOffset : Z) (update : option (list byte))
| MKeyValue (key value : list byte)
| MSplit (key : list byte) (valueSize splitOffset : Z) (split : list byte)
| MKeyValueUpdate (key : list byte) (valueOffset valueSize : Z) (update : option (list byte))
| MChunkUpdate (m : Metadata) (offset length updatingChunkId : Z) (delta : option (list byte))
| MChunk (m : Metadata)
| MChunkData (m : Metadata) (offset : Z) (data : list byte) (indicators : list bool)
| MAck (fromTimestamp toTimestamp : Z)
| MDeltaAck (timestamps : list Z) (requests : list Key) (targetId : Z)
| MAddress (a : AddressHeader)
| MSrcDst (src dst : AddressHeader)
| MChunks (listId chunkId : Z) (stripeIds : list Z)
| MLoadStats (gets sets : list LoadStat) (overloaded : list AddressHeader)
| MNamedPipe (readPathname writePathname : list byte).

(** What the receiver knows of a message before parsing it, from the opcode and
    the header: the parser to call and its flags. *)
Inductive kind :=
| KKey (isLarge : bool) | KKeyBackup | KChunkKey | KChunkKeyValueUpdate (withUpdate : bool)
| KKeyValue (enableSplit isLarge : bool) | KKeyValueUpdate (withUpdate : bool) | KChunkUpdate (withDelta : bool)
| KChunk | KChunkData | KAck | KDeltaAck | KAddress | KSrcDst | KChunks | KLoadStats | KNamedPipe.

Definition is_some {A} (o : option A) : bool := match o with Some _ => true | None => false end.

Definition kind_of (m : message) : kind :=
  match m with
  | MKey k => KKey (Key.isLarge k)
  | MKeyBackupParity _ | MKeyBackupData _ _ _ _ => KKeyBackup
  | MChunkKey _ _ => KChunkKey
  | MChunkKeyValueUpdate _ _ _ _ _ u => KChunkKeyValueUpdate (is_some u)
  | MKeyValue _ _ => KKeyValue false false
  | MSplit _ _ _ _ => KKeyValue true true
  | MKeyValueUpdate _ _ _ u => KKeyValueUpdate (is_some u)
  | MChunkUpdate _ _ _ _ d => KChunkUpdate (is_some d)
  | MChunk _ => KChunk
  | MChunkData _ _ _ _ => KChunkData
  | MAck _ _ => KAck
  | MDeltaAck _ _ _ => KDeltaAck
  | MAddress _ => KAddress
  | MSrcDst _ _ => KSrcDst
  | MChunks _ _ _ => KChunks
  | MLoadStats _ _ _ => KLoadStats
  | MNamedPipe _ _ => KNamedPipe
  end.

Section messages.
Variable chunkSize : Z.

(** The parsers that a receiver may call.  An object that fits into a chunk is also
    parsed with splits enabled, as the servers do with a SET; the parser does not
    look at [isLarge] when it finds a split. *)
Definition receives (m : message) (k : kind) : Prop :=
  match m with
  | MKeyValue key value => k = KKeyValue false false ∨
      (k = KKeyValue true false ∧ KEY_VALUE_METADATA_SIZE + zlen key + zlen value ≤ chunkSize)
  | MSplit _ _ _ _ => ∃ isLarge, k = KKeyValue true isLarge
  | _ => k = kind_of m
  end.

(** The opcode of load statistics is always 0. *)
Definition envelope_of (e : envelope) (m : message) : envelope :=
  match m with MLoadStats _ _ _ => Env (e_magic e) (e_to e) 0 (e_instanceId e) (e_requestId e) | _ => e end.

(** The generator of a message; [ts] is the timestamp, for those that have one. *)
Definition generate_message (p : Protocol) (e : envelope) (ts : Z) (m : message) : option (list byte * Z) :=
  match m with
  | MKey k => generateKeyHeader p e (size k) (data k) None ts (isLarge k)
  | MKeyBackupParity k => generateKeyBackupHeader_parity p e (size k) (data k) (isLarge k) None
  | MKeyBackupData t m [] k => generateKeyBackupHeader_data p e t m (size k) (data k) (isLarge k) None
  | MKeyBackupData t m sealed k =>
      generateKeyBackupHeader_sealed p e t m sealed (zlen sealed) (size k) (data k) (isLarge k) None
  | MChunkKey m key => generateChunkKeyHeader p e (listId m) (stripeId m) (chunkId m) (zlen key) key None ts
  | MChunkKeyValueUpdate m k vo vs co u =>
      generateChunkKeyValueUpdateHeader p e (listId m) (stripeId m) (chunkId m) (size k) (isLarge k) (data k)
        vo vs co u None ts
  | MKeyValue key value => generateKeyValueHeader p e (zlen key) key (zlen value) value None ts 0 0 false
  | MSplit key vs so split =>
      match LargeObject_isLarge chunkSize (zlen key) vs with
      | Some si => generateKeyValueHeader p e (zlen key) key vs split None ts so (LargeObjectUtil.si_size si) true
      | None => None
      end
  | MKeyValueUpdate key vo vs u => generateKeyValueUpdateHeader p e (zlen key) key vo vs u None ts
  | MChunkUpdate m o l i d => generateChunkUpdateHeader p e (listId m) (stripeId m) (chunkId m) o l i d None ts
  | MChunk m => generateChunkHeader p e (listId m) (stripeId m) (chunkId m) None
  | MChunkData m o d ind =>
      generateChunkDataHeader p e (listId m) (stripeId m) (chunkId m) (zlen d) o (Some d) (zlen ind) ind
  | MAck f t => generateAcknowledgementHeader p e f t None
  | MDeltaAck tss ks t => generateDeltaAcknowledgementHeader p e tss ks t None
  | MAddress a => generateAddressHeader p e (ad_addr a) (ad_port a) None
  | MSrcDst a b => generateSrcDstAddressHeader p e (ad_addr a) (ad_port a) (ad_addr b) (ad_port b)
  | MChunks l c ss => snd <$> generateChunksHeader p e l c ss
  | MLoadStats g s o => reqPushLoadStats p (e_magic e) (e_to e) (e_instanceId e) (e_requestId e) g s o
  | MNamedPipe r w => generateNamedPipeHeader p e (zlen r) (zlen w) r w None
  end.

(** The timestamp and the large bit of the header of a message. *)
Definition msg_timestamp (ts : Z) (m : message) : Z :=
  match m with
  | MKey _ | MChunkKey _ _ | MChunkKeyValueUpdate _ _ _ _ _ _ | MKeyValue _ _ | MSplit _ _ _ _
  | MKeyValueUpdate _ _ _ _ | MChunkUpdate _ _ _ _ _ => ts
  | _ => 0
  end.
Definition msg_isLarge (m : message) : bool :=
  match m with
  | MKey k | MKeyBackupParity k | MKeyBackupData _ _ _ k => isLarge k
  | MSplit _ _ _ _ => true
  | _ => false
  end.

(** Bytes a parsed pointer refers to. *)
Definition opt_bytes (buf : list byte) (ptr : option Z) (n : Z) : option (option (list byte)) :=
  match ptr with Some p => Some <$> slice buf p n | None => Some None end.

(** The parser of a kind, and what its result refers to. *)
Definition parse_message (q : Protocol) (k : kind) (buf : option (list byte)) (sz offset : Z) : option (option message) :=
  let bytes := fst (pick_recv q buf sz) in
  let then' {A} (r : option (option A)) (f : A → option message) : option (option message) :=
    r ← r; match r with Some h => Some <$> f h | None => Some None end in
  match k with
  | KKey l => then' (parseKeyHeader q buf sz offset) (λ h,
      d ← slice bytes (kh_key h) (kh_keySize h + large_size l); Some (MKey (MkKey (kh_keySize h) d l)))
  | KKeyBackup => then' (parseKeyBackupHeader q [clear; clear] buf sz offset) (λ h,
      d ← slice bytes (kb_key h) (kb_keySize h + large_size (kb_isLarge h));
      let k := MkKey (kb_keySize h) d (kb_isLarge h) in
      match kb_data h with
      | None => Some (MKeyBackupParity k)
      | Some b => Some (MKeyBackupData (kb_timestamp b) (kb_metadata b) (take (Z.to_nat (kb_sealedCount b)) (kb_sealed b)) k)
      end)
  | KChunkKey => then' (parseChunkKeyHeader q buf sz offset) (λ h,
      d ← slice bytes (ck_key h) (ck_keySize h); Some (MChunkKey (ck_metadata h) d))
  | KChunkKeyValueUpdate w => then' (parseChunkKeyValueUpdateHeader q w buf sz offset) (λ h,
      d ← slice bytes (cu_key h) (cu_keySize h + large_size (cu_isLarge h));
      u ← opt_bytes bytes (cu_valueUpdate h) (cu_valueUpdateSize h);
      Some (MChunkKeyValueUpdate (cu_metadata h) (MkKey (cu_keySize h) d (cu_isLarge h))
              (cu_valueUpdateOffset h) (cu_valueUpdateSize h) (cu_chunkUpdateOffset h) u))
  | KKeyValue split large => then' (parseKeyValueHeader chunkSize q buf sz offset split large) (λ h,
      d ← slice bytes (kv_key h) (kv_keySize h);
      si ← LargeObject_isLarge chunkSize (kv_keySize h) (kv_valueSize h);
      let n := if split && LargeObjectUtil.si_large si
               then LargeObjectUtil.clampSplit (kv_valueSize h) (kv_splitOffset h) (LargeObjectUtil.si_size si)
               else kv_valueSize h in
      v ← opt_bytes bytes (kv_value h) n;
      Some (if split && LargeObjectUtil.si_large si then MSplit d (kv_valueSize h) (kv_splitOffset h) (default [] v)
            else MKeyValue d (default [] v)))
  | KKeyValueUpdate w => then' (parseKeyValueUpdateHeader q w buf sz offset) (λ h,
      d ← slice bytes (ku_key h) (ku_keySize h);
      u ← opt_bytes bytes (ku_valueUpdate h) (ku_valueUpdateSize h);
      Some (MKeyValueUpdate d (ku_valueUpdateOffset h) (ku_valueUpdateSize h) u))
  | KChunkUpdate w => then' (parseChunkUpdateHeader q w buf sz offset) (λ h,
      d ← opt_bytes bytes (cp_delta h) (cp_length h);
      Some (MChunkUpdate (cp_metadata h) (cp_offset h) (cp_length h) (cp_updatingChunkId h) d))
  | KChunk => then' (parseChunkHeader q buf sz offset) (λ m, Some (MChunk m))
  | KChunkData => then' (parseChunkDataHeader q buf sz offset) (λ h,
      ind ← opt_bytes bytes (cd_sealIndicator h) (cd_sealIndicatorCount h);
      d ← opt_bytes bytes (cd_data h) (cd_size h);
      Some (MChunkData (cd_metadata h) (cd_offset h) (default [] d) ((λ b, i2b (b2z b)) <$> default [] ind)))
  | KAck => then' (parseAcknowledgementHeader q buf sz offset) (λ h, Some (MAck (ak_fromTimestamp h) (ak_toTimestamp h)))
  | KDeltaAck => then' (parseDeltaAcknowledgementHeader q true true buf sz offset) (λ '(h, tss, ks),
      Some (MDeltaAck tss ks (da_targetId h)))
  | KAddress => then' (parseAddressHeader q buf sz offset) (λ a, Some (MAddress a))
  | KSrcDst => then' (parseSrcDstAddressHeader q buf sz offset) (λ '(a, b), Some (MSrcDst a b))
  | KChunks => then' (parseChunksHeader q buf sz offset) (λ '(h, b),
      ss ← word_array b (cs_stripeIds h) (cs_numStripes h); Some (MChunks (cs_listId h) (cs_chunkId h) ss))
  | KLoadStats =>
      h ← parseLoadStatsHeader q buf sz offset;
      match h with
      | Some h => then' (parseLoadingStats h bytes (offset + PROTO_LOAD_STATS_SIZE) (sz - offset - PROTO_LOAD_STATS_SIZE))
                    (λ '(g, s, o), Some (MLoadStats g s o))
      | None => Some None
      end
  | KNamedPipe => then' (parseNamedPipeHeader q buf sz offset) (λ h,
      r ← slice bytes (np_readPathname h) (np_readLength h);
      w ← slice bytes (np_writePathname h) (np_writeLength h);
      Some (MNamedPipe r w))
  end.

(** The values that fit their fields. *)
Definition key_ok (k : Key) : Prop := 0 ≤ size k < 2 ^ 8 ∧ zlen (data k) = size k + large_size (isLarge k).
Definition address_ok (a : AddressHeader) : Prop := 0 ≤ ad_addr a < 2 ^ 32 ∧ 0 ≤ ad_port a < 2 ^ 16.
Definition stat_ok (s : LoadStat) : Prop := address_ok (lt_server s) ∧ 0 ≤ lt_sec s < 2 ^ 32 ∧ 0 ≤ lt_nsec s < 2 ^ 32.
Definition update_ok (u : option (list byte)) (n : Z) : Prop :=
  match u with Some d => zlen d = n ∧ 0 < n | None => True end.

Definition message_ok (m : message) : Prop :=
  match m with
  | MKey k | MKeyBackupParity k => key_ok k
  | MKeyBackupData t m sealed k =>
      0 ≤ t < 2 ^ 32 ∧ Metadata.wf m ∧ Forall Metadata.wf sealed ∧ zlen sealed ≤ 2 ∧ key_ok k
  | MChunkKey m key => Metadata.wf m ∧ zlen key < 2 ^ 8
  | MChunkKeyValueUpdate m k vo vs co u =>
      Metadata.wf m ∧ key_ok k ∧ 0 ≤ vo < 2 ^ 24 ∧ 0 ≤ vs < 2 ^ 24 ∧ 0 ≤ co < 2 ^ 24 ∧ update_ok u vs
  | MKeyValue key value => zlen key < 2 ^ 8 ∧ zlen value < 2 ^ 24 ∧
      KEY_VALUE_METADATA_SIZE + zlen key + SPLIT_OFFSET_SIZE < chunkSize < 2 ^ 31
  | MSplit key vs so split =>
      LargeObjectUtil.sizes_ok chunkSize (zlen key) vs ∧ chunkSize < 4 + zlen key + vs ∧ 0 ≤ so < vs ∧
      zlen split = LargeObjectUtil.clampSplit vs so (LargeObjectUtil.splitSizeOf chunkSize (zlen key))
  | MKeyValueUpdate key vo vs u => zlen key < 2 ^ 8 ∧ 0 ≤ vo < 2 ^ 24 ∧ 0 ≤ vs < 2 ^ 24 ∧ update_ok u vs
  | MChunkUpdate m o l i d => Metadata.wf m ∧ 0 ≤ o < 2 ^ 32 ∧ 0 ≤ l < 2 ^ 31 ∧ 0 ≤ i < 2 ^ 32 ∧ update_ok d l
  | MChunk m => Metadata.wf m
  | MChunkData m o d ind => Metadata.wf m ∧ 0 ≤ o < 2 ^ 32 ∧ zlen d < 2 ^ 31 ∧ zlen ind < 2 ^ 8
  | MAck f t => 0 ≤ f < 2 ^ 32 ∧ 0 ≤ t < 2 ^ 32
  | MDeltaAck tss ks t =>
      Forall (λ x, 0 ≤ x < 2 ^ 32) tss ∧ Forall (λ k, isLarge k = false ∧ key_ok k ∧ size k ≠ 0) ks ∧
      0 ≤ t < 2 ^ 16 ∧ zlen tss < 2 ^ 22 ∧ zlen ks < 2 ^ 22
  | MAddress a => address_ok a
  | MSrcDst a b => address_ok a ∧ address_ok b
  | MChunks l c ss => 0 ≤ l < 2 ^ 32 ∧ 0 ≤ c < 2 ^ 32 ∧ words_ok ss
  | MLoadStats g s o => Forall stat_ok g ∧ Forall stat_ok s ∧ Forall address_ok o
  | MNamedPipe r w => zlen r < 2 ^ 8 ∧ zlen w < 2 ^ 8
  end.
End messages.

Definition key_bytes (k : Key) : list byte := z2b (size k) :: data k.
Definition key_size (k : Key) : Z := size k + large_size (isLarge k).

(** The number of bytes behind the header. *)
Definition message_size (m : message) : Z :=
  match m with
  | MKey k => PROTO_KEY_SIZE + key_size k
  | MKeyBackupParity k => PROTO_KEY_BACKUP_BASE_SIZE + key_size k
  | MKeyBackupData _ _ sealed k => PROTO_KEY_BACKUP_BASE_SIZE + PROTO_KEY_BACKUP_FOR_DATA_SIZE
      + zlen sealed * PROTO_KEY_BACKUP_SEALED_SIZE + key_size k
  | MChunkKey _ key => PROTO_CHUNK_KEY_SIZE + zlen key
  | MChunkKeyValueUpdate _ k _ vs _ u => PROTO_CHUNK_KEY_VALUE_UPDATE_SIZE + key_size k + opt_size u vs
  | MKeyValue key value => PROTO_KEY_VALUE_SIZE + zlen key + zlen value
  | MSplit key _ _ split => PROTO_KEY_VALUE_SIZE + PROTO_SPLIT_OFFSET_SIZE + zlen key + zlen split
  | MKeyValueUpdate key _ vs u => PROTO_KEY_VALUE_UPDATE_SIZE + zlen key + opt_size u vs
  | MChunkUpdate _ _ l _ d => PROTO_CHUNK_UPDATE_SIZE + opt_size d l
  | MChunk _ => PROTO_CHUNK_SIZE
  | MChunkData _ _ d ind => PROTO_CHUNK_DATA_SIZE + zlen d + zlen ind
  | MAck _ _ => PROTO_ACK_BASE_SIZE
  | MDeltaAck tss ks _ => PROTO_ACK_DELTA_SIZE + 4 * zlen tss + zlen (concat (key_bytes <$> ks))
  | MAddress _ => PROTO_ADDRESS_SIZE
  | MSrcDst _ _ => PROTO_ADDRESS_SIZE * 2
  | MChunks _ _ ss => PROTO_CHUNKS_SIZE + 4 * zlen ss
  | MLoadStats g s o => PROTO_LOAD_STATS_SIZE + LOAD_STAT_SIZE * (zlen g + zlen s) + PROTO_ADDRESS_SIZE * zlen o
  | MNamedPipe r w => PROTO_NAMED_PIPE_SIZE + zlen r + zlen w
  end.

Lemma i2b_b2i b : i2b (b2i b) = b.
Proof. by destruct b. Qed.
Lemma large_size_range b : 0 ≤ large_size b ≤ 3.
Proof. destruct b; unfold large_size, SPLIT_OFFSET_SIZE; lia. Qed.

Lemma emits_key k : key_ok k → emits (write (data k) (size k + large_size (isLarge k))) (data k).
Proof. intros [? ?]. by apply emits_write_all. Qed.
Lemma emits_metadata m : emits (write_metadata m) (be_bytes 4 (listId m) ++ be_bytes 4 (stripeId m) ++ be_bytes 4 (chunkId m) ++ []).
Proof. unfold write_metadata. emit. Qed.
#[export] Hint Resolve emits_key emits_metadata : emits.
#[export] Hint Extern 5 (emits (write _ _) _) => (apply emits_write_all; lia) : emits.
#[export] Hint Extern 5 (emits (write4Bytes _ false) _) => (apply emits_write4_host; lia) : emits.
#[export] Hint Extern 5 (emits (write2Bytes _ false) _) => (apply emits_write2_host; lia) : emits.

(** Optional data. *)
Lemma emits_write_opt u n : update_ok u n → emits (write_opt u n) (default [] u).
Proof.
  destruct u as [d|]; simpl; [intros [Hd ?]|intros _; apply emits_nil].
  rewrite bool_decide_eq_true_2 by lia. by apply emits_write_all.
Qed.
Lemma zlen_opt u n : update_ok u n → zlen (default [] u) = opt_size u n.
Proof. destruct u; simpl; [by intros []|done]. Qed.
#[export] Hint Resolve emits_write_opt : emits.
Lemma opt_size_range u n : 0 ≤ n → 0 ≤ opt_size u n ≤ n.
Proof. destruct u; simpl; lia. Qed.

(** The pointer to optional data, parsed as it was sent. *)
Lemma opt_bytes_holds buf ptr u n ys : update_ok u n → holds buf ptr (default [] u ++ ys) →
  opt_bytes buf (if is_some u && bool_decide (n ≠ 0) then Some ptr else None) n = Some u.
Proof.
  destruct u as [d|]; simpl; [intros [Hd ?] Hh|done]. rewrite bool_decide_eq_true_2 by lia. simpl.
  by rewrite (holds_slice_app n _ _ _ _ Hh).
Qed.
Lemma opt_size_if u (n : Z) : (if is_some u then n else 0) = opt_size u n.
Proof. by destruct u. Qed.

Ltac sizes :=
  unfold PROTO_KEY_SIZE, PROTO_KEY_BACKUP_BASE_SIZE, PROTO_KEY_BACKUP_FOR_DATA_SIZE, PROTO_KEY_BACKUP_SEALED_SIZE,
    PROTO_CHUNK_KEY_SIZE, PROTO_CHUNK_KEY_VALUE_UPDATE_SIZE, PROTO_KEY_VALUE_UPDATE_SIZE, PROTO_CHUNK_UPDATE_SIZE,
    PROTO_CHUNK_SIZE, PROTO_CHUNK_DATA_SIZE, PROTO_ACK_BASE_SIZE, PROTO_ACK_DELTA_SIZE, PROTO_ADDRESS_SIZE,
    PROTO_NAMED_PIPE_SIZE, PROTO_CHUNKS_SIZE, PROTO_LOAD_STATS_SIZE, LOAD_STAT_SIZE, PROTO_KEY_VALUE_SIZE, PROTO_SPLIT_OFFSET_SIZE, key_size, opt_size in *.

(** The message is long enough for the parser. *)
Ltac fits := rewrite short_ok; [|sizes; lia|sizes; lia].
(** The bytes [H] has at a pointer are [d]. *)
Ltac take_bytes H n := rewrite (holds_slice_app n _ _ _ _ H) by (zlens; lia); cbn [mbind option_bind];
  apply (holds_skip n) in H; [|zlens; lia].

(** The send buffer has [buffer_size] bytes, and the message fits. *)
Definition has_room (p : Protocol) (n : Z) : Prop := PROTO_HEADER_SIZE + n ≤ buffer_size p ≤ zlen (buffer_send p).
Lemma has_room_send p n : has_room p n → PROTO_HEADER_SIZE + n ≤ zlen (buffer_send p).
Proof. unfold has_room. lia. Qed.

Section roundtrips.
Context (chunkSize : Z) (p : Protocol) (e : envelope) (q : Protocol) (ts : Z).
Hypothesis (Hp : protocol_ok p) (He : envelope_ok e) (Hq : to q = e_to e) (Hts : 0 ≤ ts < 2 ^ 32).

Definition roundtrip (m : message) : Prop :=
  ∀ k, receives chunkSize m k → message_ok chunkSize m → message_size m < 2 ^ 32 → has_room p (message_size m) →
  arrives (generate_message chunkSize p e ts m) q (header_of p (envelope_of e m) (message_size m) (msg_timestamp ts m) (msg_isLarge m))
    (parse_message chunkSize q k) m.

Ltac start := intros kd Hkd Hok Hn Hroom; cbn [receives] in Hkd; cbn [message_ok] in Hok; try subst kd;
  pose proof (has_room_send _ _ Hroom) as Hl;
  cbn [generate_message message_size msg_timestamp msg_isLarge kind_of envelope_of] in Hn, Hl, Hroom |- *.
(** Open the parser of the received message [r]; [H] has the fields. *)
Ltac parse r H f := intros r H; unfold parse_message; rewrite ?pick_recv_some by lia; cbn [fst]; unfold f;
  rewrite pick_recv_some by lia; rewrite <- ?(assoc (++)) in H.

Ltac generated := eapply generate_arrives; [done..|emit|zlens; sizes; lia|sizes; try done; try lia|done|done|done|]; sizes.

Lemma roundtrip_key k : roundtrip (MKey k).
Proof using Hp He Hq Hts.
  start. pose proof Hok as [Hk1 Hk2]. pose proof (large_size_range (isLarge k)). unfold generateKeyHeader.
  generated. parse r Hr parseKeyHeader. fits. read_field Hr. fits. cbn [mbind option_bind kh_key kh_keySize].
  take_bytes Hr (size k + large_size (isLarge k)). by destruct k.
Qed.

Lemma roundtrip_key_backup_parity k : roundtrip (MKeyBackupParity k).
Proof using Hp He Hq Hts.
  start. pose proof Hok as [Hk1 Hk2]. pose proof (large_size_range (isLarge k)). unfold generateKeyBackupHeader_parity.
  generated. parse r Hr parseKeyBackupHeader. fits. read_field Hr. read_field Hr. read_field Hr.
  rewrite !i2b_b2i. fits. cbn [mbind option_bind kb_key kb_keySize kb_isLarge kb_data].
  take_bytes Hr (size k + large_size (isLarge k)). by destruct k.
Qed.

Lemma roundtrip_chunk_key m key : roundtrip (MChunkKey m key).
Proof using Hp He Hq Hts.
  start. destruct Hok as [(? & ? & ?) ?]. pose proof (zlen_nonneg key). unfold generateChunkKeyHeader.
  generated. parse r Hr parseChunkKeyHeader. fits. do 4 read_field Hr. fits.
  cbn [mbind option_bind ck_metadata ck_key ck_keySize]. take_bytes Hr (zlen key). by destruct m.
Qed.

Lemma roundtrip_chunk m : roundtrip (MChunk m).
Proof using Hp He Hq Hts.
  start. destruct Hok as (? & ? & ?). unfold generateChunkHeader.
  generated. parse r Hr parseChunkHeader. fits. unfold read_metadata. do 3 read_field Hr. by destruct m.
Qed.

Lemma roundtrip_ack f t : roundtrip (MAck f t).
Proof using Hp He Hq Hts.
  start. destruct Hok as (? & ?). unfold generateAcknowledgementHeader.
  generated. parse r Hr parseAcknowledgementHeader. fits. by do 2 read_field Hr.
Qed.

Lemma roundtrip_address a : roundtrip (MAddress a).
Proof using Hp He Hq Hts.
  start. destruct Hok as (? & ?). unfold generateAddressHeader.
  generated. parse r Hr parseAddressHeader. fits. unfold read_address. do 2 read_field Hr. by destruct a.
Qed.

Lemma roundtrip_src_dst a b : roundtrip (MSrcDst a b).
Proof using Hp He Hq Hts.
  start. destruct Hok as ((? & ?) & ? & ?). unfold generateSrcDstAddressHeader.
  generated. parse r Hr parseSrcDstAddressHeader. fits. unfold read_address. do 4 read_field Hr. by destruct a, b.
Qed.

Lemma roundtrip_named_pipe x y : roundtrip (MNamedPipe x y).
Proof using Hp He Hq Hts.
  start. destruct Hok as (? & ?). pose proof (zlen_nonneg x). pose proof (zlen_nonneg y). unfold generateNamedPipeHeader.
  generated. parse r Hr parseNamedPipeHeader. fits. do 2 read_field Hr.
  cbn [mbind option_bind np_readPathname np_readLength np_writePathname np_writeLength].
  take_bytes Hr (zlen x). by take_bytes Hr (zlen y).
Qed.

Lemma roundtrip_key_value_update key vo vs u : roundtrip (MKeyValueUpdate key vo vs u).
Proof using Hp He Hq Hts.
  start. destruct Hok as (? & ? & ? & Hu). pose proof (zlen_nonneg key). pose proof (opt_size_range u vs ltac:(lia)).
  pose proof (zlen_opt u vs Hu). unfold generateKeyValueUpdateHeader.
  generated. parse r Hr parseKeyValueUpdateHeader. fits. do 3 read_field Hr.
  rewrite opt_size_if. fits. cbn [mbind option_bind ku_keySize ku_valueUpdateSize ku_valueUpdateOffset ku_key ku_valueUpdate].
  take_bytes Hr (zlen key). by rewrite (opt_bytes_holds _ _ _ _ _ Hu Hr).
Qed.

Lemma roundtrip_chunk_key_value_update m k vo vs co u : roundtrip (MChunkKeyValueUpdate m k vo vs co u).
Proof using Hp He Hq Hts.
  start. destruct Hok as ((? & ? & ?) & Hk & ? & ? & ? & Hu). pose proof Hk as [? ?].
  pose proof (large_size_range (isLarge k)). pose proof (opt_size_range u vs ltac:(lia)).
  pose proof (zlen_opt u vs Hu). unfold generateChunkKeyValueUpdateHeader.
  generated. parse r Hr parseChunkKeyValueUpdateHeader. fits. do 8 read_field Hr. rewrite !i2b_b2i.
  rewrite opt_size_if. fits. cbn [mbind option_bind cu_metadata cu_keySize cu_valueUpdateSize cu_valueUpdateOffset
    cu_chunkUpdateOffset cu_isLarge cu_key cu_valueUpdate].
  take_bytes Hr (size k + large_size (isLarge k)). rewrite Z.add_assoc in Hr.
  rewrite (opt_bytes_holds _ _ _ _ _ Hu Hr). by destruct m, k.
Qed.

Lemma roundtrip_chunk_update m o l i d : roundtrip (MChunkUpdate m o l i d).
Proof using Hp He Hq Hts.
  start. destruct Hok as ((? & ? & ?) & ? & ? & ? & Hu).
  pose proof (opt_size_range d l ltac:(lia)). pose proof (zlen_opt d l Hu). unfold generateChunkUpdateHeader.
  assert (emits (match d with Some d => write d l | None => Some end) (default [] d)).
  { destruct d; [|apply emits_nil]. apply emits_write_all. simpl in *. lia. }
  assert (match d with Some _ => u32 (PROTO_CHUNK_UPDATE_SIZE + l) | None => PROTO_CHUNK_UPDATE_SIZE end
          = PROTO_CHUNK_UPDATE_SIZE + opt_size d l) as ->.
  { sizes. destruct d; [rewrite u32_small; lia|lia]. }
  generated. parse r Hr parseChunkUpdateHeader. fits. do 6 read_field Hr.
  rewrite opt_size_if, u32_small by (sizes; lia). fits.
  cbn [mbind option_bind cp_metadata cp_offset cp_length cp_updatingChunkId cp_delta].
  rewrite (opt_bytes_holds _ _ _ _ _ Hu Hr). by destruct m.
Qed.

Lemma roundtrip_chunk_data m o d ind : roundtrip (MChunkData m o d ind).
Proof using Hp He Hq Hts.
  start. destruct Hok as ((? & ? & ?) & ? & ? & ?). pose proof (zlen_nonneg d). pose proof (zlen_nonneg ind).
  pose proof (emits_array ind (λ b, write1Byte (b2i b)) (λ b, [z2b (b2i b)]) (zlen ind)
    (λ b _, emits_write1 (b2i b)) eq_refl) as Hind.
  assert (Hc : concat ((λ b, [z2b (b2i b)]) <$> ind) = (λ b, z2b (b2i b)) <$> ind).
  { clear. induction ind as [|b ind IH]; [done|]. cbn. by f_equal. }
  rewrite Hc in Hind. assert (zlen ((λ b, z2b (b2i b)) <$> ind) = zlen ind) by (unfold zlen; by rewrite length_fmap).
  assert (emits (write_opt (Some d) (zlen d)) d).
  { unfold write_opt. destruct (decide (zlen d = 0)) as [Hz|]; [|rewrite bool_decide_eq_true_2 by done; by apply emits_write_all].
    rewrite bool_decide_eq_false_2 by (by intros []). destruct d; [apply emits_nil|]. zlens. pose proof (zlen_nonneg d). lia. }
  unfold generateChunkDataHeader.
  generated; [rewrite u32_small; lia|]. parse r Hr parseChunkDataHeader. fits. do 1 read_field Hr.
  unfold read_metadata. do 5 read_field Hr.
  assert (Hi : (λ b, i2b (b2z b)) <$> ((λ b, z2b (b2i b)) <$> ind) = ind).
  { clear. induction ind as [|[] ind IH]; [done|cbn; by f_equal..]. }
  destruct (decide (zlen ind ≠ 0)) as [Hz|Hz]; cbn [mbind option_bind];
    rewrite u32_small by (sizes; lia); fits;
    cbn [mbind option_bind cd_metadata cd_size cd_offset cd_sealIndicator cd_data cd_sealIndicatorCount opt_bytes].
  - take_bytes Hr (zlen ind). destruct (decide (zlen d ≠ 0)) as [Hd|Hd]; cbn [opt_bytes].
    + take_bytes Hr (zlen d). cbn. rewrite Hi. by destruct m.
    + destruct d; [|zlens; pose proof (zlen_nonneg d); lia]. cbn. rewrite Hi. by destruct m.
  - destruct ind; [|zlens; pose proof (zlen_nonneg ind); lia]. destruct (decide (zlen d ≠ 0)) as [Hd|Hd]; cbn [opt_bytes].
    + cbn [fmap list_fmap] in Hr. rewrite app_nil_l in Hr. take_bytes Hr (zlen d). cbn. by destruct m.
    + destruct d; [|zlens; pose proof (zlen_nonneg d); lia]. cbn. by destruct m.
Qed.

Lemma roundtrip_key_value key value : roundtrip (MKeyValue key value).
Proof using Hp He Hq Hts.
  start. destruct Hok as (? & ? & ?). pose proof (zlen_nonneg key). pose proof (zlen_nonneg value).
  assert (emits (when (bool_decide (zlen value ≠ 0)) (write value (zlen value))) value).
  { destruct (decide (zlen value = 0)); [rewrite bool_decide_eq_false_2 by (by intros [])|rewrite bool_decide_eq_true_2 by done].
    - destruct value; [apply emits_nil|zlens; pose proof (zlen_nonneg value); lia].
    - by apply emits_write_all. }
  unfold generateKeyValueHeader. rewrite decide_True by (by left). cbn [app].
  eapply generate_last_arrives; [done..|emit|zlens; sizes; lia|sizes; lia|done|done|]. sizes.
  assert (Hsz : LargeObjectUtil.sizes_ok chunkSize (zlen key) (zlen value)).
  { split; [unfold zlen in *; lia|]. split; [unfold zlen in *; lia|]. done. }
  assert (Hsplit : ∃ split, kd = KKeyValue split false ∧
    ((if split then Some <$> LargeObject_isLarge chunkSize (zlen key) (zlen value) else Some None) = Some None ∨
     ∃ si, (if split then Some <$> LargeObject_isLarge chunkSize (zlen key) (zlen value) else Some None) = Some (Some si) ∧
       LargeObject_isLarge chunkSize (zlen key) (zlen value) = Some si ∧ LargeObjectUtil.si_large si = false)).
  { destruct Hkd as [->|[-> Hfit]]; eexists; (split; [done|]); [by left|right].
    destruct (LargeObjectUtil.isLarge_cases chunkSize _ _ Hsz) as [[? _]|[_ Hsi]].
    - unfold KEY_VALUE_METADATA_SIZE in Hfit. lia.
    - rewrite Hsi. eexists. split; [done|]. done. }
  destruct Hsplit as (split & -> & Hsplit).
  parse r Hr parseKeyValueHeader. fits. do 2 read_field Hr.
  destruct (LargeObjectUtil.isLarge_total chunkSize (zlen key) (zlen value)) as [si Esi]; [done|].
  assert (Hand : split && LargeObjectUtil.si_large si = false).
  { destruct split; [|done]. destruct Hsplit as [Hs|(si' & _ & Hs & ?)]; rewrite Esi in Hs; [done|]. by injection Hs as ->. }
  destruct Hsplit as [->|(si' & -> & _ & Hnot)]; cbn [mbind option_bind]; rewrite ?Hnot;
  (rewrite u32_small by (sizes; lia); fits;
  cbn [mbind option_bind kv_keySize kv_valueSize kv_key kv_splitOffset kv_value];
  take_bytes Hr (zlen key); rewrite Esi; cbn [mbind option_bind andb]; rewrite Hand;
  destruct (decide (zlen value ≠ 0)); cbn [opt_bytes];
  [by take_bytes Hr (zlen value)|destruct value; [done|zlens; pose proof (zlen_nonneg value); lia]]).
Qed.

Lemma roundtrip_split key vs so split : roundtrip (MSplit key vs so split).
Proof using Hp He Hq Hts.
  start. destruct Hkd as [large ->]. destruct Hok as (Hsz & Hlarge & Hso & Hlen). pose proof Hsz as (? & ? & ?).
  destruct (LargeObjectUtil.splitSize_small chunkSize _ _ Hsz) as [Hss Hpos].
  destruct (LargeObjectUtil.isLarge_cases chunkSize _ _ Hsz) as [[_ Hsi]|[? _]]; [|lia]. rewrite Hsi.
  cbn [LargeObjectUtil.si_size]. unfold KEY_VALUE_METADATA_SIZE in *. unfold SPLIT_OFFSET_SIZE in *.
  pose proof Hlen as Hmin. rewrite LargeObjectUtil.clampSplit_eq in Hmin by lia.
  assert (emits (when (bool_decide (vs ≠ 0)) (write split (zlen split))) split).
  { rewrite bool_decide_eq_true_2 by lia. by apply emits_write_all. }
  unfold generateKeyValueHeader. rewrite decide_False, <- Hlen by lia. cbn [app].
  eapply generate_last_arrives; [done..|emit|zlens; sizes; lia|sizes; lia|done|done|]. sizes.
  parse r Hr parseKeyValueHeader. fits. do 2 read_field Hr. unfold LargeObject_isLarge in *.
  rewrite Hsi. cbn [fmap option_fmap option_map mbind option_bind LargeObjectUtil.si_large LargeObjectUtil.si_size].
  pose proof Hr as Hkey. apply (holds_skip (zlen key)) in Hr; [|done]. read_field Hr.
  rewrite <- Hlen, u32_small by (sizes; lia). fits.
  cbn [mbind option_bind kv_keySize kv_valueSize kv_key kv_splitOffset kv_value].
  take_bytes Hkey (zlen key). rewrite Hsi.
  cbn [mbind option_bind andb LargeObjectUtil.si_large LargeObjectUtil.si_size]. rewrite <- Hlen.
  rewrite decide_True by lia. cbn [opt_bytes]. by take_bytes Hr (zlen split).
Qed.

Lemma read_metadata_holds buf ptr m ys : Metadata.wf m →
  holds buf ptr (be_bytes 4 (listId m) ++ be_bytes 4 (stripeId m) ++ be_bytes 4 (chunkId m) ++ ys) →
  read_metadata buf ptr = Some (m, ptr + 4 + 4 + 4) ∧ holds buf (ptr + 4 + 4 + 4) ys.
Proof using.
  clear. intros (? & ? & ?) Hh. unfold read_metadata. do 3 read_field Hh. split; [by destruct m|done].
Qed.

Definition metadata_bytes (m : Metadata) : list byte :=
  be_bytes 4 (listId m) ++ be_bytes 4 (stripeId m) ++ be_bytes 4 (chunkId m).

Lemma zlen_metadata l : zlen (concat (metadata_bytes <$> l)) = 12 * zlen l.
Proof using. clear. induction l as [|m l IH]; [done|]. cbn [fmap list_fmap concat]. unfold metadata_bytes at 1. zlens. lia. Qed.

(** The loop that fills the array of the header. *)
Lemma read_sealed buf ptr sealed ys :
  Forall Metadata.wf sealed → zlen sealed ≤ 2 → holds buf ptr (concat (metadata_bytes <$> sealed) ++ ys) →
  ∃ arr, for_range 0 (zlen sealed) (λ i '(sealed, ptr),
      '(s, ptr) ← read_metadata buf ptr; sealed ← zset sealed i s; Some (sealed, ptr)) ([clear; clear], ptr)
    = Some (arr, ptr + 12 * zlen sealed) ∧ take (Z.to_nat (zlen sealed)) arr = sealed.
Proof using.
  clear. intros Hwf Hl Hh.
  destruct sealed as [|a [|b [|c sealed]]]; [..|zlens; pose proof (zlen_nonneg sealed); lia].
  - exists [clear; clear]. cbn. rewrite Z.add_0_r. done.
  - apply Forall_cons in Hwf as [Ha _]. cbn [fmap list_fmap concat] in Hh. unfold metadata_bytes in Hh.
    rewrite <- !(assoc (++)) in Hh. destruct (read_metadata_holds _ _ _ _ Ha Hh) as [Hr _].
    exists [a; clear]. unfold for_range. change (Z.to_nat (zlen [a] - 0)) with 1%nat. cbn [for_loop].
    rewrite Hr. cbn [mbind option_bind].
    change (zset [clear; clear] 0 a) with (Some [a; clear]). cbn [mbind option_bind]. split; [|done]. do 2 f_equal. unfold zlen; simpl length; lia.
  - apply Forall_cons in Hwf as [Ha Hwf]. apply Forall_cons in Hwf as [Hb _].
    cbn [fmap list_fmap concat] in Hh. unfold metadata_bytes in Hh. rewrite <- !(assoc (++)) in Hh.
    destruct (read_metadata_holds _ _ _ _ Ha Hh) as [Hr Hh']. destruct (read_metadata_holds _ _ _ _ Hb Hh') as [Hr' _].
    exists [a; b]. unfold for_range. change (Z.to_nat (zlen [a; b] - 0)) with 2%nat. cbn [for_loop].
    rewrite Hr. cbn [mbind option_bind]. change (zset [clear; clear] 0 a) with (Some [a; clear]).
    cbn [mbind option_bind]. rewrite Hr'. cbn [mbind option_bind].
    change (zset [a; clear] (0 + 1) b) with (Some [a; b]). cbn [mbind option_bind]. split; [|done]. do 2 f_equal. unfold zlen; simpl length; lia.
Qed.

Lemma generate_key_backup_data t m sealed k :
  generate_message chunkSize p e ts (MKeyBackupData t m sealed k)
  = generate p e (message_size (MKeyBackupData t m sealed k)) None 0 (isLarge k)
      [write1Byte (b2i false); write1Byte (size k); write1Byte (b2i (isLarge k));
       write4 t; write4 (listId m); write4 (stripeId m); write4 (chunkId m); write1Byte (zlen sealed);
       for_range 0 (zlen sealed) (λ i c, s ← zget sealed i; write_metadata s c);
       write (data k) (size k + large_size (isLarge k))].
Proof using.
  clear Hp He Hq Hts. cbn [message_size]. unfold key_size. destruct sealed as [|x sealed]; cbn [generate_message].
  - unfold generateKeyBackupHeader_data, generate.
    replace (PROTO_KEY_BACKUP_BASE_SIZE + PROTO_KEY_BACKUP_FOR_DATA_SIZE + size k + large_size (isLarge k))
      with (PROTO_KEY_BACKUP_BASE_SIZE + PROTO_KEY_BACKUP_FOR_DATA_SIZE + zlen (A := Metadata) [] * PROTO_KEY_BACKUP_SEALED_SIZE
            + (size k + large_size (isLarge k))) by (unfold zlen; simpl; lia).
    destruct (generateHeader _ _ _ _ _ _ _ _ _ _) as [[b n]|]; [|done]. cbn [mbind option_bind run].
    repeat match goal with |- context [?w ?c ≫= _] => destruct (w c) as [?|]; [|done]; cbn [mbind option_bind] end; done.
  - unfold generateKeyBackupHeader_sealed. f_equal. lia.
Qed.

Lemma roundtrip_key_backup_data t m sealed k : roundtrip (MKeyBackupData t m sealed k).
Proof using Hp He Hq Hts.
  unfold roundtrip. rewrite generate_key_backup_data. intros kd Hkd Hok Hn Hl%has_room_send. cbn [receives] in Hkd. subst kd.
  cbn [message_ok message_size msg_timestamp msg_isLarge kind_of envelope_of] in *.
  destruct Hok as (? & Hm & Hwf & ? & Hk). pose proof Hk as [? ?]. pose proof (large_size_range (isLarge k)).
  pose proof (zlen_nonneg sealed). pose proof (zlen_metadata sealed).
  assert (Hs : emits (for_range 0 (zlen sealed) (λ i c, s ← zget sealed i; write_metadata s c)) (concat (metadata_bytes <$> sealed))).
  { apply emits_array; [|done]. intros x _. pose proof (emits_metadata x) as Hx. by rewrite app_nil_r in Hx. }
  pose proof Hm as (? & ? & ?).
  generated. parse r Hr parseKeyBackupHeader. fits. do 3 read_field Hr. rewrite !i2b_b2i. fits. do 1 read_field Hr.
  apply (read_metadata_holds _ _ _ _ Hm) in Hr as [-> Hr]. cbn [mbind option_bind]. read_field Hr. fits. cbn [mbind option_bind].
  destruct (read_sealed _ _ _ _ Hwf ltac:(done) Hr) as (arr & -> & Harr).
  apply (holds_skip (12 * zlen sealed)) in Hr; [|lia].
  cbn [mbind option_bind kb_key kb_keySize kb_isLarge kb_data kb_timestamp kb_metadata kb_sealedCount kb_sealed].
  take_bytes Hr (size k + large_size (isLarge k)). rewrite Harr. by destruct m, k.
Qed.

(** *** Chunks of a list, converted in place *)
Lemma write_stripes_all ss : ∀ size count c, c_bytes c + 4 * zlen ss ≤ size →
  write_stripes size ss count c = (c ← run (map (λ s, write4 s) ss) c; Some (count + zlen ss, c)).
Proof using.
  clear. induction ss as [|x ss IH]; intros size count c Hb; cbn [write_stripes map run mbind option_bind].
  { change (zlen (@nil Z)) with 0. by rewrite Z.add_0_r. }
  rewrite zlen_cons in Hb. pose proof (zlen_nonneg ss). rewrite decide_False by lia.
  destruct (write4 x c) as [c'|] eqn:E; [|done]. cbn [mbind option_bind].
  assert (c_bytes c' = c_bytes c + 4).
  { unfold write4Bytes, put in E. destruct (splice _ _ _); [|done]. cbn [mbind option_bind] in E. injection E as <-. cbn.
    unfold zlen. by rewrite length_le_bytes. }
  rewrite IH by lia. rewrite zlen_cons. by replace (count + 1 + zlen ss) with (count + (1 + zlen ss)) by lia.
Qed.

Lemma htonl_bytes v : 0 ≤ v < 2 ^ 32 → le_bytes 4 (htonl (u32 v)) = be_bytes 4 v.
Proof using.
  clear. intros Hv. unfold htonl. rewrite u32_small by done. rewrite le_bytes_bswap. done.
Qed.

Lemma roundtrip_chunks l c ss : roundtrip (MChunks l c ss).
Proof using Hp He Hq Hts.
  start. destruct Hok as (? & ? & Hss). pose proof (zlen_nonneg ss). sizes. unfold PROTO_HEADER_SIZE in *.
  set (body := be_bytes 4 l ++ be_bytes 4 c ++ be_bytes 4 (zlen ss) ++ words ss).
  assert (Hbody : zlen body = 12 + 4 * zlen ss) by (unfold body; zlens; lia).
  destruct (cut (buffer_send p) 16) as (old & b1 & Hb & Hold); [unfold has_room, PROTO_HEADER_SIZE in Hroom; lia|].
  assert (Hbl : zlen (buffer_send p) = zlen old + zlen b1) by (rewrite Hb; zlens; lia).
  destruct (cut b1 8) as (m1 & b2 & -> & Hm1); [lia|]. rewrite zlen_app in Hbl. destruct (cut b2 4) as (m2 & b3 & -> & Hm2); [lia|].
  rewrite zlen_app in Hbl. destruct (cut b3 (4 * zlen ss)) as (m3 & rest & -> & Hm3); [lia|].
  assert (Hgen : snd <$> generateChunksHeader p e l c ss = Some (header_bytes (header_of p e (zlen body) 0 false) ++ body ++ rest, 16 + zlen body)).
  { unfold generateChunksHeader, PROTO_HEADER_SIZE. rewrite Hb, <- Hold at 1.
    rewrite (run_at _ (be_bytes 4 l ++ be_bytes 4 c ++ []) old m1 (m2 ++ m3 ++ rest)); [|emit|zlens; lia].
    cbn [mbind option_bind c_pos c_buf c_bytes]. rewrite app_nil_r. unfold skip, PROTO_CHUNKS_SIZE. cbn [c_buf c_pos c_bytes].
    rewrite write_stripes_all by (cbn; zlens; unfold has_room, PROTO_HEADER_SIZE in Hroom; lia).
    assert (Hre : old ++ (be_bytes 4 l ++ be_bytes 4 c) ++ m2 ++ m3 ++ rest = (old ++ (be_bytes 4 l ++ be_bytes 4 c) ++ m2) ++ m3 ++ rest)
      by (by rewrite <- !(assoc (++))).
    rewrite Hre. replace (zlen old + zlen (be_bytes 4 l ++ be_bytes 4 c) + (12 - 8)) with (zlen (old ++ (be_bytes 4 l ++ be_bytes 4 c) ++ m2)) by (zlens; lia).
    rewrite (run_at _ (words ss) _ m3 rest); [|apply emits_run_map; intros; apply emits_write4|zlens; lia].
    cbn [mbind option_bind c_pos c_buf c_bytes]. rewrite Z.add_0_l, htonl_bytes by lia.
    replace ((old ++ (be_bytes 4 l ++ be_bytes 4 c) ++ m2) ++ words ss ++ rest) with ((old ++ be_bytes 4 l ++ be_bytes 4 c) ++ m2 ++ words ss ++ rest)
      by (by rewrite <- !(assoc (++))).
    replace (zlen old + zlen (be_bytes 4 l ++ be_bytes 4 c)) with (zlen (old ++ be_bytes 4 l ++ be_bytes 4 c)) by (zlens; lia).
    rewrite splice_app by (zlens; lia). cbn [mbind option_bind]. rewrite <- (assoc (++) old).
    rewrite generateHeader_at by done. cbn [mbind option_bind fmap option_fmap option_map snd].
    match goal with |- Some (header_bytes (header_of _ _ ?n _ _) ++ _, ?m) = _ =>
      replace n with (zlen body) by (unfold body; zlens; lia); replace m with (16 + zlen body) by (unfold body; zlens; lia) end.
    unfold body. by rewrite <- !(assoc (++)). }
  rewrite Hgen, <- Hbody. eapply arrives_intro; [unfold PROTO_HEADER_SIZE; reflexivity|done..|lia|done|].
  rewrite Hbody. parse r Hr parseChunksHeader. unfold body in Hr. rewrite <- !(assoc (++)) in Hr.
  fits. pose proof Hr as Hall. do 3 read_field Hr. rewrite u32_small by (sizes; lia). fits.
  destruct (ntohl_words_at r PROTO_HEADER_SIZE (be_bytes 4 l ++ be_bytes 4 c ++ be_bytes 4 (zlen ss)) ss [] (PROTO_HEADER_SIZE + 4 + 4 + 4) (zlen ss))
    as (r' & -> & Hr'); [by rewrite <- !(assoc (++))|done|by zlens|done|].
  cbn [mbind option_bind cs_listId cs_chunkId cs_numStripes cs_stripeIds].
  apply (holds_skip 12) in Hr'; [|by zlens].
  replace (PROTO_HEADER_SIZE + 4 + 4 + 4) with (PROTO_HEADER_SIZE + 12) by lia.
  rewrite (word_array_holds r' ss _ _ (zlen ss) Hr') by done. done.
Qed.

Lemma read_list_holds {A} (read : list byte → Z → option (A * Z)) (enc : A → list byte) (w : Z) (ok : A → Prop) buf :
  (∀ x, ok x → zlen (enc x) = w) →
  (∀ x ptr ys, ok x → holds buf ptr (enc x ++ ys) → read buf ptr = Some (x, ptr + w)) →
  ∀ xs ptr ys, Forall ok xs → holds buf ptr (concat (enc <$> xs) ++ ys) →
  read_list read buf ptr (length xs) = Some (xs, ptr + w * zlen xs).
Proof using.
  clear. intros Hw Hread. induction xs as [|x xs IH]; intros ptr ys Hxs Hh; cbn [read_list length].
  { change (zlen (@nil A)) with 0. by rewrite Z.mul_0_r, Z.add_0_r. }
  apply Forall_cons in Hxs as [Hx Hxs]. cbn [fmap list_fmap concat] in Hh. rewrite <- (assoc (++)) in Hh.
  rewrite (Hread x ptr _ Hx Hh). cbn [mbind option_bind]. apply (holds_skip w) in Hh; [|symmetry; by apply Hw].
  rewrite (IH _ _ Hxs Hh). cbn [mbind option_bind]. rewrite zlen_cons. do 2 f_equal. lia.
Qed.

(** *** Load statistics *)
Definition net_address (a : AddressHeader) : list byte := le_bytes 4 (ad_addr a) ++ le_bytes 2 (ad_port a) ++ [].
Definition stat_bytes (s : LoadStat) : list byte := net_address (lt_server s) ++ be_bytes 4 (lt_sec s) ++ be_bytes 4 (lt_nsec s) ++ [].

Lemma emits_write_address a : address_ok a → emits (write_address a) (net_address a).
Proof using. clear. intros [? ?]. unfold write_address, net_address. emit. Qed.
Lemma emits_stat s : stat_ok s → emits (write_stat s) (stat_bytes s).
Proof using. clear. intros (? & ? & ?). pose proof (emits_write_address (lt_server s)). unfold write_stat, stat_bytes. emit. Qed.
Lemma zlen_address a : zlen (net_address a) = 6.
Proof using. clear. unfold net_address. by zlens. Qed.
Lemma zlen_stat s : zlen (stat_bytes s) = 14.
Proof using. clear. unfold stat_bytes. zlens. by rewrite zlen_address. Qed.

Lemma read_address_holds a buf ptr ys : address_ok a → holds buf ptr (net_address a ++ ys) → read_address buf ptr = Some (a, ptr + 6).
Proof using.
  clear. intros [? ?] Hh. unfold net_address in Hh. rewrite <- !(assoc (++)) in Hh. unfold read_address. do 2 read_field Hh.
  destruct a. do 2 f_equal. lia.
Qed.
Lemma read_stat_holds s buf ptr ys : stat_ok s → holds buf ptr (stat_bytes s ++ ys) → read_stat buf ptr = Some (s, ptr + 14).
Proof using.
  clear. intros (? & ? & ?) Hh. unfold stat_bytes in Hh. rewrite <- !(assoc (++)) in Hh. unfold read_stat.
  rewrite (read_address_holds _ _ _ _ ltac:(done) Hh). cbn [mbind option_bind].
  apply (holds_skip 6) in Hh; [|by rewrite zlen_address]. do 2 read_field Hh. destruct s. do 2 f_equal. lia.
Qed.

Lemma zlen_encoded {A} (enc : A → list byte) w xs : (∀ x, zlen (enc x) = w) → zlen (concat (enc <$> xs)) = w * zlen xs.
Proof using.
  clear. intros Hw. induction xs as [|x xs IH]; [by rewrite Z.mul_0_r|]. cbn [fmap list_fmap concat]. rewrite zlen_app, zlen_cons, Hw. lia.
Qed.

Lemma roundtrip_load_stats g s o : roundtrip (MLoadStats g s o).
Proof using Hp He Hq Hts.
  start. destruct Hok as (Hg & Hs & Ho). pose proof (zlen_nonneg g). pose proof (zlen_nonneg s). pose proof (zlen_nonneg o). sizes.
  set (e' := Env (e_magic e) (e_to e) 0 (e_instanceId e) (e_requestId e)).
  assert (He' : envelope_ok e').
  { destruct He as (? & ? & _ & ? & ?). split; [done|]. split; [done|]. split; [|done]. by left. }
  set (counts := be_bytes 4 (zlen g) ++ be_bytes 4 (zlen s) ++ be_bytes 4 (zlen o) ++ []).
  set (recs := concat (stat_bytes <$> g ++ s) ++ concat (net_address <$> o) ++ []).
  assert (Hcounts : zlen counts = 12) by (unfold counts; by zlens).
  assert (Hrecs : zlen recs = 14 * (zlen g + zlen s) + 6 * zlen o).
  { unfold recs. rewrite !zlen_app, (zlen_encoded stat_bytes 14), (zlen_encoded net_address 6) by (apply zlen_stat || apply zlen_address).
    rewrite zlen_app. zlens. lia. }
  destruct (generate_room p e' (12 + 14 * (zlen g + zlen s) + 6 * zlen o) None 0 false
    [write4 (zlen g); write4 (zlen s); write4 (zlen o)] counts) as (rest & Hgen & Hrest); [done|done|unfold counts; emit| |].
  { unfold pick_send. simpl. lia. }
  assert (Hmsg : reqPushLoadStats p (e_magic e) (e_to e) (e_instanceId e) (e_requestId e) g s o = Some (header_bytes (header_of p e' (zlen (counts ++ recs)) 0 false) ++ (counts ++ recs) ++ drop (Z.to_nat (zlen recs)) rest, PROTO_HEADER_SIZE + zlen (counts ++ recs))).
  { unfold reqPushLoadStats, generateLoadStatsHeader. fold e'. sizes. rewrite u32_small by lia.
    replace (12 + (zlen g + zlen s) * 14 + zlen o * 6) with (12 + 14 * (zlen g + zlen s) + 6 * zlen o) by lia.
    rewrite Hgen. cbn [mbind option_bind].
    destruct (cut rest (zlen recs)) as (m1 & tl & -> & Hm1); [cbn [pick_send] in Hrest; unfold PROTO_HEADER_SIZE in *; lia|].
    replace (drop (Z.to_nat (zlen recs)) (m1 ++ tl)) with tl by (rewrite <- Hm1; unfold zlen; by rewrite Nat2Z.id, drop_app_length).
    set (h := header_bytes _). rewrite (assoc (++) h). rewrite <- (zlen_header (header_of p e' (12 + 14 * (zlen g + zlen s) + 6 * zlen o) 0 false)).
    fold h. rewrite <- zlen_app. rewrite (run_at _ recs (h ++ counts) m1 tl); [| |done].
    - cbn [mbind option_bind c_buf c_bytes]. rewrite !zlen_app, Hcounts, Hrecs. unfold h.
      replace (12 + (14 * (zlen g + zlen s) + 6 * zlen o)) with (12 + 14 * (zlen g + zlen s) + 6 * zlen o) by lia.
      rewrite <- !(assoc (++)). do 2 f_equal. lia.
    - unfold recs. apply run_cons; [|apply run_cons; [|apply run_nil]].
      + apply emits_run_map. intros x Hx. apply emits_stat. pose proof (Forall_app_2 _ _ _ Hg Hs) as Hgs. rewrite Forall_forall in Hgs. by apply Hgs.
      + apply emits_run_map. intros x Hx. apply emits_write_address. rewrite Forall_forall in Ho. by apply Ho. }
  rewrite Hmsg. assert (Hlen : zlen (counts ++ recs) = 12 + 14 * (zlen g + zlen s) + 6 * zlen o) by (rewrite zlen_app; lia).
  rewrite <- Hlen. eapply arrives_intro; [reflexivity|done..|lia|done|]. rewrite Hlen.
  parse r Hr parseLoadStatsHeader. unfold counts, recs in Hr. rewrite <- !(assoc (++)) in Hr. fits. do 3 read_field Hr.
  cbn [mbind option_bind]. unfold parseLoadingStats. cbn [ls_serverGetCount ls_serverSetCount ls_serverOverloadCount]. sizes.
  rewrite (u32_small (zlen g + zlen s)) by lia. rewrite u32_small by lia. rewrite decide_False by lia.
  replace (Z.to_nat (zlen g + zlen s)) with (length (g ++ s)) by (rewrite length_app; unfold zlen; lia).
  replace (PROTO_HEADER_SIZE + 4 + 4 + 4) with (PROTO_HEADER_SIZE + 12) in Hr by lia.
  rewrite app_nil_l in Hr.
  rewrite (read_list_holds read_stat stat_bytes 14 stat_ok r (λ x _, zlen_stat x) (λ x ptr ys, read_stat_holds x r ptr ys) _ _ _ (Forall_app_2 _ _ _ Hg Hs) Hr).
  cbn [mbind option_bind]. apply (holds_skip (14 * zlen (g ++ s))) in Hr; [|by rewrite (zlen_encoded stat_bytes 14) by apply zlen_stat].
  replace (Z.to_nat (zlen o)) with (length o) by (unfold zlen; by rewrite Nat2Z.id).
  rewrite (read_list_holds read_address net_address 6 address_ok r (λ x _, zlen_address x) (λ x ptr ys, read_address_holds x r ptr ys) _ _ _ Ho Hr).
  cbn [mbind option_bind]. replace (Z.to_nat (zlen g)) with (length g) by (unfold zlen; by rewrite Nat2Z.id).
  by rewrite take_app_length, drop_app_length.
Qed.

(** *** Acknowledgements of parity deltas *)
Lemma read_words_holds buf ws ptr ys :
  Forall (λ x, 0 ≤ x < 2 ^ 32) ws → holds buf ptr (words ws ++ ys) →
  read_words buf ptr (length ws) = Some (ws, ptr + 4 * zlen ws).
Proof using.
  clear. revert ptr. induction ws as [|w ws IH]; intros ptr Hw Hh; [unfold zlen; simpl; by rewrite Z.add_0_r|].
  apply Forall_cons in Hw as [Hw Hws]. change (words (w :: ws)) with (be_bytes 4 w ++ words ws) in Hh.
  rewrite <- (assoc (++)) in Hh. cbn [length read_words]. read_field Hh. rewrite (IH _ Hws Hh).
  cbn [mbind option_bind]. do 2 f_equal. rewrite zlen_cons. lia.
Qed.

Lemma read_keys_holds buf n need ks : ∀ total prev ptr ys,
  Forall (λ k, isLarge k = false ∧ key_ok k ∧ size k ≠ 0) ks → holds buf ptr (concat (key_bytes <$> ks) ++ ys) →
  0 ≤ total → 0 ≤ need → need + total + zlen (concat (key_bytes <$> ks)) ≤ n < 2 ^ 32 →
  read_keys buf (PROTO_HEADER_SIZE + n) PROTO_HEADER_SIZE need total prev ptr (length ks) = Some (true, ks).
Proof using.
  clear. induction ks as [|k ks IH]; intros total prev ptr ys Hks Hh Ht Hneed Hn; [done|].
  apply Forall_cons in Hks as [(Hk1 & [Hk2 Hk3] & Hk4) Hks]. rewrite Hk1 in Hk3. cbn [large_size] in Hk3.
  cbn [fmap list_fmap concat] in Hh, Hn. unfold key_bytes at 1 in Hh. unfold key_bytes at 1 in Hn. rewrite <- (assoc (++)) in Hh.
  rewrite zlen_app, zlen_cons in Hn. pose proof (zlen_nonneg (concat (key_bytes <$> ks))).
  cbn [length read_keys]. change ((z2b (size k) :: data k) ++ ?l) with ([z2b (size k)] ++ data k ++ l) in Hh.
  read_field Hh. rewrite (u32_small (total + _)) by lia. rewrite u32_small by lia.
  rewrite short_ok by lia. unfold dup. rewrite decide_False by done. cbn [mbind option_bind].
  rewrite (holds_slice_app _ _ _ _ _ Hh) by lia. cbn [mbind option_bind].
  apply (holds_skip (size k)) in Hh; [|lia].
  rewrite (IH _ _ _ _ Hks Hh) by lia. cbn [mbind option_bind]. destruct k. cbn in *. by subst.
Qed.

Lemma roundtrip_delta_ack tss ks t : roundtrip (MDeltaAck tss ks t).
Proof using Hp He Hq Hts.
  start. destruct Hok as (Htss & Hks & ? & ? & ?). pose proof (zlen_nonneg tss). pose proof (zlen_nonneg ks).
  pose proof (zlen_nonneg (concat (key_bytes <$> ks))).
  assert (emits (run (map (λ t, write4 t) tss)) (words tss)).
  { apply emits_run_map. intros. apply emits_write4. }
  assert (emits (run (map write_key ks)) (concat (key_bytes <$> ks))).
  { apply emits_run_map. intros k Hk. rewrite Forall_forall in Hks. destruct (Hks k Hk) as (Hk1 & [Hk2 Hk3] & _).
    rewrite Hk1 in Hk3. cbn [large_size] in Hk3. unfold write_key, key_bytes.
    assert (Hb : emits (run [write1Byte (size k); write (data k) (size k)]) ([z2b (size k)] ++ data k ++ [])) by emit.
    by rewrite app_nil_r in Hb. }
  unfold generateDeltaAcknowledgementHeader.
  eapply generate_last_arrives; [done..|emit|zlens; sizes; lia|sizes; lia|done|done|]. sizes.
  parse r Hr parseDeltaAcknowledgementHeader. fits. do 3 read_field Hr.
  assert (Hle : zlen ks ≤ zlen (concat (key_bytes <$> ks))).
  { clear. induction ks as [|k ks IH]; [done|]. cbn [fmap list_fmap concat]. unfold key_bytes at 1. zlens.
    pose proof (zlen_nonneg (data k)). lia. }
  rewrite (u32_small (_ + zlen ks)) by (sizes; lia). fits. cbn [negb].
  replace (Z.to_nat (zlen tss)) with (length tss) by (unfold zlen; by rewrite Nat2Z.id).
  replace (Z.to_nat (zlen ks)) with (length ks) by (unfold zlen; by rewrite Nat2Z.id).
  rewrite (read_words_holds _ _ _ _ Htss Hr). cbn [mbind option_bind].
  apply (holds_skip (4 * zlen tss)) in Hr; [|by rewrite zlen_words].
  rewrite (read_keys_holds _ _ _ _ _ _ _ _ Hks Hr) by (sizes; lia). cbn. done.
Qed.
End roundtrips.

(** ** Properties *)

(** C20: every message of the normal operations, of every kind in [message] (all that
    have a generator and a parser in these files), arrives.  Written into a send
    buffer that has room and received by the peer it is addressed to, its header is
    accepted with the length of the rest, and each parser that may be called for it
    ([receives]: an object that fits into a chunk with and without splits enabled)
    succeeds and gives back all its fields, keys, values and arrays. *)
Theorem messages_arrive chunkSize p e q ts m k :
  protocol_ok p → envelope_ok e → to q = e_to e → 0 ≤ ts < 2 ^ 32 →
  receives chunkSize m k → message_ok chunkSize m → message_size m < 2 ^ 32 → has_room p (message_size m) →
  arrives (generate_message chunkSize p e ts m) q
    (header_of p (envelope_of e m) (message_size m) (msg_timestamp ts m) (msg_isLarge m)) (parse_message chunkSize q k) m.
Proof.
  intros Hp He Hq Hts. revert k. change (roundtrip chunkSize p e q ts m). destruct m.
  - by apply roundtrip_key.
  - by apply roundtrip_key_backup_parity.
  - by apply roundtrip_key_backup_data.
  - by apply roundtrip_chunk_key.
  - by apply roundtrip_chunk_key_value_update.
  - by apply roundtrip_key_value.
  - by apply roundtrip_split.
  - by apply roundtrip_key_value_update.
  - by apply roundtrip_chunk_update.
  - by apply roundtrip_chunk.
  - by apply roundtrip_chunk_data.
  - by apply roundtrip_ack.
  - by apply roundtrip_delta_ack.
  - by apply roundtrip_address.
  - by apply roundtrip_src_dst.
  - by apply roundtrip_chunks.
  - by apply roundtrip_load_stats.
  - by apply roundtrip_named_pipe.
Qed.

(** *** Witnesses *)
Lemma messages_arrive_witness :
  let p := MkProtocol (PROTO_MAGIC_FROM ROLE_CLIENT) (PROTO_MAGIC_TO ROLE_CLIENT) 64 (replicate 64 x00) [] in
  let q := Protocol_new ROLE_SERVER in
  let e := Env PROTO_MAGIC_REQUEST (PROTO_MAGIC_TO ROLE_SERVER) 0x02 7 99 in
  let m := MKeyValue [z2b 107; z2b 49] [z2b 1; z2b 2; z2b 3] in
  arrives (generate_message 4096 p e 5 m) q (header_of p e 9 5 false) (parse_message 4096 q (KKeyValue true false)) m.
Proof.
  intros p q e m. apply (messages_arrive 4096 p e q 5 m (KKeyValue true false)).
  - by exists ROLE_CLIENT.
  - split; [done|]. split; [by exists ROLE_SERVER|]. split; [|done]. apply list_elem_of_In. cbn. tauto.
  - done.
  - done.
  - right. done.
  - cbn. done.
  - done.
  - done.
Defined.
