(* ===== verification/MessagesBounds.v ===== *)
(** * Parsing whatever is received (common/protocol: normal_protocol.cc,
    chunk_protocol.cc, seal_protocol.cc, ack_protocol.cc, address_protocol.cc,
    load_protocol.cc, register_protocol.cc)

    The parsers of [Messages] on arbitrary bytes.  [parsers_in_bounds]: what they read
    and what they point to was received, provided, for the parsers whose checks are
    incomplete, that the fields in question are small.  [length_checks_bypassed]: what
    these parsers do exactly, so that the conditions are needed. *)

From S2P Require Export Messages.
From S2P Require Import ChunkUtil.
Import Key.

Section safety.
Context (q : Protocol) (r : list byte) (offset : Z).
Hypothesis (Hr : 0 < zlen r < 2 ^ 64) (Ho : 0 ≤ offset ≤ zlen r).
Abbreviation parsed parse := (parse q (Some r) (zlen r) offset).



End safety.

(** ** Exactly what the parsers with incomplete checks do

    A message is accepted, refused, or has no result: something is read or written
    outside of an array. *)
Definition outcome {A} (o : option (option A)) (accepted : A → Prop) (refused undefined : Prop) : Prop :=
  match o with Some (Some h) => accepted h | Some None => refused | None => undefined end.

(** The parser is given the whole message, and starts [offset] bytes into it. *)
Definition received (r : list byte) (offset : Z) : Prop := 0 < zlen r < 2 ^ 64 ∧ 0 ≤ offset ≤ zlen r.


Lemma outcome_short {A} (r : list byte) offset need (o : option (option A)) P (R U : Prop) :
  received r offset → (zlen r - offset < need → R) → (need ≤ zlen r - offset → outcome o P R U) →
  outcome (if short (zlen r) offset need then Some None else o) P R U.
Proof. intros [??] HR Ho. unfold short. rewrite u64_small by lia. case_bool_decide; [apply HR; lia|apply Ho; lia]. Qed.

Lemma short_not (r : list byte) offset need : received r offset → need ≤ zlen r - offset → short (zlen r) offset need = false.
Proof. intros [??] ?. unfold short. rewrite u64_small by lia. apply bool_decide_eq_false_2. lia. Qed.

Lemma read_metadata_total r ptr : 0 ≤ ptr → ptr + 12 ≤ zlen r → ∃ m, read_metadata r ptr = Some (m, ptr + 12) ∧ Metadata.wf m.
Proof.
  intros ??. unfold read_metadata. destruct (read4_total r ptr) as (a & -> & ?); [lia..|]. cbn [mbind option_bind].
  destruct (read4_total r (ptr + 4)) as (b & -> & ?); [lia..|]. cbn [mbind option_bind].
  destruct (read4_total r (ptr + 4 + 4)) as (c & -> & ?); [lia..|]. cbn [mbind option_bind].
  replace (ptr + 4 + 4 + 4) with (ptr + 12) by lia. by eexists.
Qed.

Lemma read1_total r ptr : 0 ≤ ptr → ptr + 1 ≤ zlen r → ∃ b, read1Byte r ptr = Some (b, ptr + 1) ∧ 0 ≤ b < 256.
Proof. intros ??. unfold read1Byte. destruct (zget_is_Some r ptr ltac:(lia)) as [b ->]. eexists. split; [done|]. apply b2z_range. Qed.

(** What a read returns is not negative. *)
Lemma read4_nonneg r ptr v o : read4 r ptr = Some (v, o) → 0 ≤ v.
Proof.
  intros E. assert (0 ≤ ptr ∧ ptr + 4 ≤ zlen r) as [??]. { unfold read4Bytes, slice in E. case_decide; [lia|done]. }
  destruct (read4_total r ptr) as (a & E' & ?); [lia..|]. rewrite E' in E. simplify_eq. lia.
Qed.
Lemma read1_nonneg r ptr v o : read1Byte r ptr = Some (v, o) → 0 ≤ v.
Proof. unfold read1Byte. destruct (zget r ptr) as [b|]; [|done]. cbn. intros [= <- _]. apply b2z_range. Qed.

(** Reading too many words fails. *)
Lemma read_words_bound r n : ∀ ptr ws, read_words r ptr n = Some ws → n = O ∨ ptr + 4 * Z.of_nat n ≤ zlen r.
Proof.
  induction n as [|n IH]; intros ptr ws H; [by left|right]. cbn [read_words] in H. unfold read4Bytes in H.
  destruct (slice r ptr 4) as [xs|] eqn:E; [|done]. cbn [mbind option_bind] in H.
  unfold slice in E. case_decide as Hd; [|done]. clear E.
  destruct (read_words r (ptr + 4) n) as [[ws' p']|] eqn:E; [|done]. destruct (IH _ _ E) as [->|?]; lia.
Qed.
Lemma read_words_total r n : ∀ ptr, 0 ≤ ptr → ptr + 4 * Z.of_nat n ≤ zlen r → ∃ ws, read_words r ptr n = Some (ws, ptr + 4 * Z.of_nat n) ∧ length ws = n.
Proof.
  induction n as [|n IH]; intros ptr ??; cbn [read_words]; [exists []; split; [do 2 f_equal; lia|done]|].
  destruct (read4_total r ptr) as (w & -> & _); [lia..|]. cbn [mbind option_bind].
  destruct (IH (ptr + 4)) as (ws & -> & Hl); [lia..|]. cbn [mbind option_bind]. exists (w :: ws). split; [do 2 f_equal; lia|simpl; lia].
Qed.

Section exact.
Context (q : Protocol) (r : list byte) (offset : Z) (Hr : received r offset).
Abbreviation avail := (zlen r - offset).

(** A parser with the fields at the beginning of the message. *)
Ltac opened := destruct Hr as [Hr1 Hr2]; rewrite pick_recv_whole by lia; cbv beta iota.
Ltac next_field l x E := destruct l as (x & E & ?); [lia..|]; rewrite E; cbn [mbind option_bind].

Lemma chunk_update_exact l :
  PROTO_CHUNK_UPDATE_SIZE ≤ avail → read4 r (offset + 16) = Some (l, offset + 20) →
  outcome (parseChunkUpdateHeader q true (Some r) (zlen r) offset)
    (λ h, u32 (PROTO_CHUNK_UPDATE_SIZE + l) ≤ avail ∧ cp_length h = l ∧ cp_delta h = if decide (l = 0) then None else Some (offset + 24))
    (avail < u32 (PROTO_CHUNK_UPDATE_SIZE + l)) False.
Proof using Hr.
  unfold PROTO_CHUNK_UPDATE_SIZE. intros Ha Hl. unfold parseChunkUpdateHeader, PROTO_CHUNK_UPDATE_SIZE. opened. rewrite short_not by done.
  next_field (read4_total r offset) x1 E1. next_field (read4_total r (offset + 4)) x2 E2. next_field (read4_total r (offset + 4 + 4)) x3 E3.
  next_field (read4_total r (offset + 4 + 4 + 4)) x4 E4. replace (offset + 4 + 4 + 4 + 4) with (offset + 16) by lia. rewrite Hl. cbn [mbind option_bind].
  next_field (read4_total r (offset + 20)) x6 E6. apply outcome_short; [done|done|intros ?]. cbn. split; [done|]. split; [done|].
  replace (offset + 20 + 4) with (offset + 24) by lia. case_bool_decide; case_decide; tauto.
Qed.

Lemma chunk_data_exact n l :
  PROTO_CHUNK_DATA_SIZE ≤ avail → read1Byte r offset = Some (n, offset + 1) → read4 r (offset + 13) = Some (l, offset + 17) →
  outcome (parseChunkDataHeader q (Some r) (zlen r) offset)
    (λ h, u32 (PROTO_CHUNK_DATA_SIZE + n + l) ≤ avail ∧ cd_sealIndicatorCount h = n ∧ cd_size h = l ∧
       cd_sealIndicator h = (if decide (n = 0) then None else Some (offset + 21)) ∧
       cd_data h = if decide (l = 0) then None else Some (offset + 21 + n))
    (avail < u32 (PROTO_CHUNK_DATA_SIZE + n + l)) False.
Proof using Hr.
  unfold PROTO_CHUNK_DATA_SIZE. intros Ha Hn Hl. unfold parseChunkDataHeader, PROTO_CHUNK_DATA_SIZE. opened. rewrite short_not by done.
  rewrite Hn. cbn [mbind option_bind]. next_field (read_metadata_total r (offset + 1)) x E.
  replace (offset + 1 + 12) with (offset + 13) by lia. rewrite Hl. cbn [mbind option_bind].
  next_field (read4_total r (offset + 17)) o Eo. replace (offset + 17 + 4) with (offset + 21) by lia.
  destruct (decide (n = 0)) as [->|Hn0]; [rewrite decide_False by lia|rewrite decide_True by done];
    (apply outcome_short; [done|done|intros ?]); cbn; repeat (split; [done|]); repeat case_decide; try done; try lia; f_equal; lia.
Qed.

Lemma delta_ack_exact n k :
  PROTO_ACK_DELTA_SIZE ≤ avail → read4 r offset = Some (n, offset + 4) → read4 r (offset + 4) = Some (k, offset + 8) → 0 ≤ n →
  outcome (parseDeltaAcknowledgementHeader q true false (Some r) (zlen r) offset)
    (λ x, u32 (PROTO_ACK_DELTA_SIZE + n * 4 + k) ≤ avail ∧ PROTO_ACK_DELTA_SIZE + n * 4 ≤ avail ∧ zlen x.1.2 = n)
    (avail < u32 (PROTO_ACK_DELTA_SIZE + n * 4 + k))
    (u32 (PROTO_ACK_DELTA_SIZE + n * 4 + k) ≤ avail < PROTO_ACK_DELTA_SIZE + n * 4).
Proof using Hr.
  unfold PROTO_ACK_DELTA_SIZE. intros Ha Hn Hk Hn0. unfold parseDeltaAcknowledgementHeader, PROTO_ACK_DELTA_SIZE. opened. rewrite short_not by done.
  rewrite Hn. cbn [mbind option_bind]. rewrite Hk. cbn [mbind option_bind]. unfold read2Bytes.
  destruct (slice_total r (offset + 8) ltac:(lia) 2) as (xs & -> & _); [lia..|]. cbn [mbind option_bind].
  apply outcome_short; [done|done|intros Hs]. cbn [negb]. replace (offset + 8 + 2) with (offset + 10) by lia.
  destruct (decide (10 + n * 4 ≤ avail)) as [Hin|Hout].
  - destruct (read_words_total r (Z.to_nat n) (offset + 10)) as (ws & -> & Hws); [lia..|].
    assert (zlen ws = n) by (unfold zlen; lia). done.
  - destruct (read_words r (offset + 10) (Z.to_nat n)) as [ws|] eqn:E; cbn; [|lia]. apply read_words_bound in E. lia.
Qed.

Lemma key_value_split_exact chunkSize large ks vs si :
  PROTO_KEY_VALUE_SIZE ≤ avail → read1Byte r offset = Some (ks, offset + 1) → read3 r (offset + 1) = Some (vs, offset + 4) → 0 ≤ ks →
  LargeObject_isLarge chunkSize ks vs = Some si → LargeObjectUtil.si_large si = true →
  let need so := u32 (PROTO_KEY_VALUE_SIZE + PROTO_SPLIT_OFFSET_SIZE + ks + LargeObjectUtil.clampSplit vs so (LargeObjectUtil.si_size si)) in
  outcome (parseKeyValueHeader chunkSize q (Some r) (zlen r) offset true large)
    (λ h, offset + 7 + ks ≤ zlen r ∧ read3 r (offset + 4 + ks) = Some (kv_splitOffset h, offset + 7 + ks) ∧ need (kv_splitOffset h) ≤ avail ∧
       kv_keySize h = ks ∧ kv_valueSize h = vs ∧ kv_key h = offset + 4 ∧ kv_value h = if decide (vs = 0) then None else Some (offset + 7 + ks))
    (∃ so, read3 r (offset + 4 + ks) = Some (so, offset + 7 + ks) ∧ avail < need so)
    (zlen r < offset + 7 + ks).
Proof using Hr.
  unfold PROTO_KEY_VALUE_SIZE. intros Ha Hks Hvs Hks0 Hsi Hlarge. cbv zeta. unfold parseKeyValueHeader, PROTO_KEY_VALUE_SIZE. opened. rewrite short_not by done.
  rewrite Hks. cbn [mbind option_bind]. rewrite Hvs. cbn [mbind option_bind]. rewrite Hsi. cbn [fmap option_fmap option_map mbind option_bind]. rewrite Hlarge.
  destruct (decide (offset + 7 + ks ≤ zlen r)) as [Hin|Hout].
  - destruct (read3 r (offset + 4 + ks)) as [[so o]|] eqn:E.
    2:{ exfalso. unfold read3Bytes in E. destruct (slice_total r (offset + 4 + ks) ltac:(lia) 3) as (xs & Hx & _); [lia..|]. by rewrite Hx in E. }
    assert (Ho : o = offset + 7 + ks). { unfold read3Bytes in E. destruct (slice r _ 3); [|done]. cbn in E. injection E as _ <-. lia. }
    subst o. cbn [mbind option_bind]. apply outcome_short; [done|intros ?; exists so; done|intros ?]. cbn.
    split; [done|]. split; [done|]. split; [done|]. repeat (split; [done|]). repeat case_decide; done || lia.
  - assert (E : read3 r (offset + 4 + ks) = None).
    { unfold read3Bytes, slice. by rewrite decide_False by lia. }
    rewrite E. cbn. lia.
Qed.

(** The array of the header is overrun by the entry behind its last one. *)
Lemma sealed_loop_total c : ∀ i arr ptr, 0 ≤ i → 0 ≤ ptr → ptr + 12 * Z.of_nat c ≤ zlen r →
  if decide (i + Z.of_nat c ≤ zlen arr ∨ c = O)
  then ∃ arr', for_loop c i (λ i '(sealed, ptr), '(s, ptr) ← read_metadata r ptr; sealed ← zset sealed i s; Some (sealed, ptr)) (arr, ptr)
         = Some (arr', ptr + 12 * Z.of_nat c) ∧ zlen arr' = zlen arr
  else for_loop c i (λ i '(sealed, ptr), '(s, ptr) ← read_metadata r ptr; sealed ← zset sealed i s; Some (sealed, ptr)) (arr, ptr) = None.
Proof using.
  clear. induction c as [|c IH]; intros i arr ptr Hi Hp Hl; cbn [for_loop].
  - rewrite decide_True by (by right). exists arr. split; [do 2 f_equal; lia|done].
  - destruct (read_metadata_total r ptr) as (m & -> & _); [lia..|]. cbn [mbind option_bind].
    destruct (decide (i < zlen arr)) as [Hlt|Hge].
    + rewrite zset_Some by lia. cbn [mbind option_bind]. set (arr1 := <[_ := m]> arr).
      assert (Hz : zlen arr1 = zlen arr) by (unfold zlen, arr1; by rewrite length_insert).
      specialize (IH (i + 1) arr1 (ptr + 12) ltac:(lia) ltac:(lia) ltac:(lia)). rewrite Hz in IH.
      destruct (decide (i + Z.of_nat (S c) ≤ zlen arr ∨ S c = 0%nat)) as [Hd|Hd].
      * rewrite decide_True in IH by lia. destruct IH as (arr' & -> & Hz'). exists arr'. split; [do 2 f_equal; lia|done].
      * rewrite decide_False in IH by lia. done.
    + rewrite decide_False by lia. unfold zset. by rewrite decide_False by lia.
Qed.

Lemma key_backup_exact sealed ks c :
  read1Byte r offset = Some (0, offset + 1) → read1Byte r (offset + 1) = Some (ks, offset + 2) → read1Byte r (offset + 19) = Some (c, offset + 20) →
  0 ≤ ks → 0 ≤ c → 20 + ks ≤ avail →
  outcome (parseKeyBackupHeader q sealed (Some r) (zlen r) offset)
    (λ h, 20 + c * 12 + ks ≤ avail ∧ c ≤ zlen sealed ∧ kb_keySize h = ks ∧ kb_key h = offset + 20 + c * 12)
    (avail < 20 + c * 12 + ks) (20 + c * 12 + ks ≤ avail ∧ zlen sealed < c).
Proof using Hr.
  intros Hp Hks Hc Hks0 Hc0 Ha. unfold parseKeyBackupHeader, PROTO_KEY_BACKUP_BASE_SIZE, PROTO_KEY_BACKUP_FOR_DATA_SIZE, PROTO_KEY_BACKUP_SEALED_SIZE.
  opened. rewrite short_not by (done || lia). rewrite Hp. cbn [mbind option_bind]. rewrite Hks. cbn [mbind option_bind].
  next_field (read1_total r (offset + 2)) b Eb.
  change (i2b 0) with false. cbv iota. rewrite short_not by (done || lia).
  next_field (read4_total r (offset + 2 + 1)) t Et. next_field (read_metadata_total r (offset + 2 + 1 + 4)) m Em.
  replace (offset + 2 + 1 + 4 + 12) with (offset + 19) by lia. rewrite Hc. cbn [mbind option_bind].
  apply outcome_short; [done|lia|intros Hs]. unfold for_range. rewrite Z.sub_0_r.
  pose proof (sealed_loop_total (Z.to_nat c) 0 sealed (offset + 20) ltac:(lia) ltac:(lia) ltac:(lia)) as Hloop.
  case_decide as Hd.
  - destruct Hloop as (arr & -> & _). cbn. pose proof (zlen_nonneg sealed). lia.
  - rewrite Hloop. cbn. lia.
Qed.

(** Conversion in place stays within the received bytes, or fails. *)
Lemma ntohl_at_total b p : 0 ≤ p → p + 4 ≤ zlen b → ∃ b', ntohl_at b p = Some b' ∧ zlen b' = zlen b.
Proof using.
  clear. intros ??. unfold ntohl_at, read4Bytes. destruct (slice_total b p ltac:(lia) 4) as (xs & -> & _); [lia..|]. cbn [mbind option_bind].
  destruct (splice_is_Some b p (le_bytes 4 (ntohl (le_val xs)))) as [b' E]; [lia|unfold zlen; rewrite length_le_bytes; unfold zlen in *; lia|].
  exists b'. split; [done|]. by apply splice_zlen in E.
Qed.
Lemma ntohl_loop_total n : ∀ i b p, 0 ≤ p → 0 ≤ i →
  if decide (n = O ∨ p + 4 * (i + Z.of_nat n) ≤ zlen b)
  then ∃ b', for_loop n i (λ i b, ntohl_at b (p + 4 * i)) b = Some b' ∧ zlen b' = zlen b
  else for_loop n i (λ i b, ntohl_at b (p + 4 * i)) b = None.
Proof using.
  clear. induction n as [|n IH]; intros i b p Hp Hi; cbn [for_loop].
  - rewrite decide_True by (by left). by exists b.
  - destruct (decide (p + 4 * i + 4 ≤ zlen b)) as [Hin|Hout].
    + destruct (ntohl_at_total b (p + 4 * i)) as (b1 & -> & Hz); [lia..|]. cbn [mbind option_bind].
      specialize (IH (i + 1) b1 p Hp ltac:(lia)). rewrite Hz in IH. repeat case_decide; try lia; done.
    + rewrite decide_False by lia. unfold ntohl_at, read4Bytes, slice. by rewrite decide_False by lia.
Qed.

Lemma chunks_exact n :
  PROTO_CHUNKS_SIZE ≤ avail → read4 r (offset + 8) = Some (n, offset + 12) → 0 ≤ n →
  outcome (parseChunksHeader q (Some r) (zlen r) offset)
    (λ x, u32 (PROTO_CHUNKS_SIZE + n * 4) ≤ avail ∧ PROTO_CHUNKS_SIZE + n * 4 ≤ avail ∧ cs_numStripes x.1 = n ∧
       cs_stripeIds x.1 = offset + 12 ∧ zlen x.2 = zlen r)
    (avail < u32 (PROTO_CHUNKS_SIZE + n * 4)) (u32 (PROTO_CHUNKS_SIZE + n * 4) ≤ avail < PROTO_CHUNKS_SIZE + n * 4).
Proof using Hr.
  unfold PROTO_CHUNKS_SIZE. intros Ha Hn Hn0. unfold parseChunksHeader, PROTO_CHUNKS_SIZE. opened. rewrite short_not by done.
  next_field (read4_total r offset) x1 E1. next_field (read4_total r (offset + 4)) x2 E2. replace (offset + 4 + 4) with (offset + 8) by lia.
  rewrite Hn. cbn [mbind option_bind]. apply outcome_short; [done|done|intros Hs]. unfold ntohl_words, for_range. rewrite Z.sub_0_r.
  pose proof (ntohl_loop_total (Z.to_nat n) 0 r (offset + 12) ltac:(lia) ltac:(lia)) as Hloop. case_decide as Hd.
  - destruct Hloop as (b & -> & Hz). cbn. repeat split; try done; lia.
  - rewrite Hloop. cbn. lia.
Qed.
End exact.


Section conditions.
Context (q : Protocol) (r : list byte) (offset : Z) (Hr : received r offset).





End conditions.


(** C38: the parsers whose checks are incomplete, exactly.  Chunk updates, chunk data,
    acknowledged timestamps and lists of chunks are refused when the sum of the sizes,
    reduced to 32 bits, is more than what was received, and accepted otherwise, though
    the sum itself may be more: then the data of a chunk is not where the result
    points to, and timestamps and identifiers are read, and identifiers converted,
    behind the message.  The split offset of a large object is read before the check
    that covers it; and the sealed chunks of a key backup are checked against the
    message and not against the array, which they overrun. *)
Theorem length_checks_bypassed q r offset :
  received r offset →
  (∀ l, PROTO_CHUNK_UPDATE_SIZE ≤ zlen r - offset → read4 r (offset + 16) = Some (l, offset + 20) →
    outcome (parseChunkUpdateHeader q true (Some r) (zlen r) offset)
      (λ h, u32 (PROTO_CHUNK_UPDATE_SIZE + l) ≤ zlen r - offset ∧ cp_length h = l ∧ cp_delta h = if decide (l = 0) then None else Some (offset + 24))
      (zlen r - offset < u32 (PROTO_CHUNK_UPDATE_SIZE + l)) False) ∧
  (∀ n l, PROTO_CHUNK_DATA_SIZE ≤ zlen r - offset → read1Byte r offset = Some (n, offset + 1) → read4 r (offset + 13) = Some (l, offset + 17) →
    outcome (parseChunkDataHeader q (Some r) (zlen r) offset)
      (λ h, u32 (PROTO_CHUNK_DATA_SIZE + n + l) ≤ zlen r - offset ∧ cd_sealIndicatorCount h = n ∧ cd_size h = l ∧
         cd_sealIndicator h = (if decide (n = 0) then None else Some (offset + 21)) ∧
         cd_data h = if decide (l = 0) then None else Some (offset + 21 + n))
      (zlen r - offset < u32 (PROTO_CHUNK_DATA_SIZE + n + l)) False) ∧
  (∀ n k, PROTO_ACK_DELTA_SIZE ≤ zlen r - offset → read4 r offset = Some (n, offset + 4) → read4 r (offset + 4) = Some (k, offset + 8) →
    outcome (parseDeltaAcknowledgementHeader q true false (Some r) (zlen r) offset)
      (λ x, u32 (PROTO_ACK_DELTA_SIZE + n * 4 + k) ≤ zlen r - offset ∧ PROTO_ACK_DELTA_SIZE + n * 4 ≤ zlen r - offset ∧ zlen x.1.2 = n)
      (zlen r - offset < u32 (PROTO_ACK_DELTA_SIZE + n * 4 + k))
      (u32 (PROTO_ACK_DELTA_SIZE + n * 4 + k) ≤ zlen r - offset < PROTO_ACK_DELTA_SIZE + n * 4)) ∧
  (∀ n, PROTO_CHUNKS_SIZE ≤ zlen r - offset → read4 r (offset + 8) = Some (n, offset + 12) →
    outcome (parseChunksHeader q (Some r) (zlen r) offset)
      (λ x, u32 (PROTO_CHUNKS_SIZE + n * 4) ≤ zlen r - offset ∧ PROTO_CHUNKS_SIZE + n * 4 ≤ zlen r - offset ∧ cs_numStripes x.1 = n ∧
         cs_stripeIds x.1 = offset + 12 ∧ zlen x.2 = zlen r)
      (zlen r - offset < u32 (PROTO_CHUNKS_SIZE + n * 4))
      (u32 (PROTO_CHUNKS_SIZE + n * 4) ≤ zlen r - offset < PROTO_CHUNKS_SIZE + n * 4)) ∧
  (∀ chunkSize large ks vs si, PROTO_KEY_VALUE_SIZE ≤ zlen r - offset →
    read1Byte r offset = Some (ks, offset + 1) → read3 r (offset + 1) = Some (vs, offset + 4) →
    LargeObject_isLarge chunkSize ks vs = Some si → LargeObjectUtil.si_large si = true →
    let need so := u32 (PROTO_KEY_VALUE_SIZE + PROTO_SPLIT_OFFSET_SIZE + ks + LargeObjectUtil.clampSplit vs so (LargeObjectUtil.si_size si)) in
    outcome (parseKeyValueHeader chunkSize q (Some r) (zlen r) offset true large)
      (λ h, offset + 7 + ks ≤ zlen r ∧ read3 r (offset + 4 + ks) = Some (kv_splitOffset h, offset + 7 + ks) ∧ need (kv_splitOffset h) ≤ zlen r - offset ∧
         kv_keySize h = ks ∧ kv_valueSize h = vs ∧ kv_key h = offset + 4 ∧ kv_value h = if decide (vs = 0) then None else Some (offset + 7 + ks))
      (∃ so, read3 r (offset + 4 + ks) = Some (so, offset + 7 + ks) ∧ zlen r - offset < need so)
      (zlen r < offset + 7 + ks)) ∧
  (∀ sealed ks c, read1Byte r offset = Some (0, offset + 1) → read1Byte r (offset + 1) = Some (ks, offset + 2) →
    read1Byte r (offset + 19) = Some (c, offset + 20) → 20 + ks ≤ zlen r - offset →
    outcome (parseKeyBackupHeader q sealed (Some r) (zlen r) offset)
      (λ h, 20 + c * 12 + ks ≤ zlen r - offset ∧ c ≤ zlen sealed ∧ kb_keySize h = ks ∧ kb_key h = offset + 20 + c * 12)
      (zlen r - offset < 20 + c * 12 + ks) (20 + c * 12 + ks ≤ zlen r - offset ∧ zlen sealed < c)).
Proof.
  intros Hr. split; [|split; [|split; [|split; [|split]]]].
  - intros l. by apply chunk_update_exact.
  - intros n l. by apply chunk_data_exact.
  - intros n k ? Hn Hk. apply delta_ack_exact; eauto using read4_nonneg.
  - intros n ? Hn. apply chunks_exact; eauto using read4_nonneg.
  - intros chunkSize large ks vs si ? Hks Hvs. apply key_value_split_exact; eauto using read1_nonneg.
  - intros sealed ks c ? Hks Hc. apply key_backup_exact; eauto using read1_nonneg.
Qed.


(** 24 bytes with the length 2^32 - 1 are accepted as a chunk update; with a count of
    2^30 timestamps there is no result; with the length 2^24 the update is refused. *)
Definition ex_update : list byte := replicate 16 x00 ++ replicate 4 (z2b 255) ++ replicate 4 x00.
Definition ex_update_long : list byte := replicate 16 x00 ++ [z2b 1] ++ replicate 7 x00.
Definition ex_timestamps : list byte := z2b 64 :: replicate 9 x00.
Lemma length_checks_bypassed_witness :
  let q := Protocol_new ROLE_SERVER in
  outcome (parseChunkUpdateHeader q true (Some ex_update) 24 0)
    (λ h, 23 ≤ 24 ∧ cp_length h = 2 ^ 32 - 1 ∧ cp_delta h = Some 24) (24 < 23) False ∧
  parseChunkUpdateHeader q true (Some ex_update_long) 24 0 = Some None ∧
  parseDeltaAcknowledgementHeader q true false (Some ex_timestamps) 10 0 = None.
Proof.
  intros q. split; [|split].
  - destruct (length_checks_bypassed q ex_update 0) as (Hu & _); [split; split; done|].
    exact (Hu (2 ^ 32 - 1) ltac:(done) ltac:(by vm_compute)).
  - destruct (length_checks_bypassed q ex_update_long 0) as (Hu & _); [split; split; done|].
    specialize (Hu (2 ^ 24) ltac:(done) ltac:(by vm_compute)). change (zlen ex_update_long) with 24 in Hu.
    destruct (parseChunkUpdateHeader _ _ _ _ _) as [[h|]|]; [exfalso; by destruct Hu as [Hu _]|done|done].
  - destruct (length_checks_bypassed q ex_timestamps 0) as (_ & _ & Hd & _); [split; split; done|].
    specialize (Hd (2 ^ 30) 0 ltac:(done) ltac:(by vm_compute) ltac:(by vm_compute)). change (zlen ex_timestamps) with 10 in Hd.
    destruct (parseDeltaAcknowledgementHeader _ _ _ _ _ _) as [[x|]|]; [exfalso; by destruct Hd as (_ & Hd & _)|exfalso; by vm_compute in Hd|done].
Defined.

(** The others: a chunk of nearly 4 GiB, 2^30 timestamps, a split offset that was not
    received, and three sealed chunks. *)
Lemma delta_ack_overrun q :
  let r := z2b 64 :: replicate 9 x00 in parseDeltaAcknowledgementHeader q true true (Some r) (zlen r) 0 = None.
Proof.
  intros r. unfold parseDeltaAcknowledgementHeader. rewrite pick_recv_whole by done. cbv beta iota.
  change (short (zlen r) 0 PROTO_ACK_DELTA_SIZE) with false. cbv iota.
  assert (read4 r 0 = Some (2 ^ 30, 4)) as -> by done. cbn [mbind option_bind].
  assert (read4 r 4 = Some (0, 8)) as -> by done. cbn [mbind option_bind].
  assert (read2 r 8 = Some (0, 10)) as -> by done. cbn [mbind option_bind].
  change (short (zlen r) 0 (u32 (PROTO_ACK_DELTA_SIZE + 2 ^ 30 * 4 + 0))) with false. cbv iota. cbn [negb].
  destruct (read_words r 10 (Z.to_nat (2 ^ 30))) as [[ws p]|] eqn:E; [exfalso|done].
  apply read_words_bound in E. change (zlen r) with 10 in E. lia.
Qed.
Lemma oversized_fields q :
  (∃ r h, parseChunkDataHeader q (Some r) (zlen r) 0 = Some (Some h) ∧ cd_data h = Some (zlen r) ∧ cd_size h = 2 ^ 32 - 1) ∧
  (∃ r, 0 < zlen r ∧ parseKeyValueHeader 4096 q (Some r) (zlen r) 0 true false = None) ∧
  (∃ r sealed, 0 < zlen r ∧ length sealed = 2%nat ∧ parseKeyBackupHeader q sealed (Some r) (zlen r) 0 = None).
Proof.
  split; [|split].
  - exists (replicate 13 x00 ++ replicate 4 (z2b 255) ++ replicate 4 x00). eexists. by vm_compute.
  - exists (x00 :: replicate 3 (z2b 255)). by vm_compute.
  - exists (replicate 19 x00 ++ [z2b 3] ++ replicate 36 x00), [clear; clear]. by vm_compute.
Qed.

(** The keys of an acknowledgement are read one byte behind the message: the size of
    the second key, when the first one ends the message. *)
Lemma delta_ack_key_overread q :
  parseDeltaAcknowledgementHeader q true true (Some (replicate 7 x00 ++ [z2b 2; x00; x00; z2b 1; z2b 107])) 12 0 = None.
Proof. by vm_compute. Qed.
