(* ===== verification/MessagesDegraded.v ===== *)
(** * Messages of degraded operations and remapping (common/protocol/degraded_protocol.cc,
    common/protocol/remap_protocol.cc)

    These messages carry arrays of pairs (list, chunk): the original servers of
    a stripe and those that stand in for them.  The parsers convert the arrays
    in place, so a parser returns the receive buffer as well, and its header
    has pointers into it.

    [degraded_message] collects the kinds, and [degraded_messages_arrive] shows
    that each arrives as it was sent; a lock response sorts the pairs of the
    key's own chunk and of parity chunks to the front. *)

From S2P Require Export Messages.
From S2P Require Import ChunkUtil.
Import Key.

(** ** Remapping (remap_protocol.cc) *)

(** The loop that converts two arrays of [n] pairs at [a] and [b]. *)
Definition ntohl_pairs (a b n : Z) (buf : list byte) : option (list byte) :=
  for_range 0 n (λ i buf,
    buf ← ntohl_at buf (a + 4 * (i * 2));
    buf ← ntohl_at buf (a + 4 * (i * 2 + 1));
    buf ← ntohl_at buf (b + 4 * (i * 2));
    ntohl_at buf (b + 4 * (i * 2 + 1))) buf.

Definition PROTO_REMAPPING_LOCK_SIZE : Z := 6.
Record RemappingLockHeader := MkRemappingLockHeader {
  rl_remappedCount : Z; rl_keySize : Z; rl_isLarge : bool; rl_key : Z; rl_original : Z; rl_remapped : Z }.

Definition generateRemappingLockHeader (p : Protocol) (e : envelope) (original remapped : list Z) (remappedCount keySize : Z)
    (key : list byte) (isLarge : bool) : option (list byte * Z) :=
  generate p e (u32 (PROTO_REMAPPING_LOCK_SIZE + keySize + large_size isLarge + remappedCount * 4 * 4)) None 0 false
    [write4 remappedCount; write1Byte keySize; write1Byte (b2i isLarge);
     write key (keySize + large_size isLarge); write_pairs original remappedCount; write_pairs remapped remappedCount].

Definition parseRemappingLockHeader (p : Protocol) (buf : option (list byte)) (size offset : Z) :
    option (option (RemappingLockHeader * list byte)) :=
  let '(buf, size) := pick_recv p buf size in
  if short size offset PROTO_REMAPPING_LOCK_SIZE then Some None else
  '(remappedCount, ptr) ← read4 buf offset;
  '(keySize, ptr) ← read1Byte buf ptr;
  '(isLarge, ptr) ← read1Byte buf ptr;
  let isLarge := i2b isLarge in
  if short size offset (PROTO_REMAPPING_LOCK_SIZE + keySize + u32 (remappedCount * 4 * 4)) then Some None else
  let key := ptr in
  let original := ptr + keySize + large_size isLarge in
  let remapped := original + 4 * u32 (remappedCount * 2) in
  buf ← ntohl_pairs original remapped remappedCount buf;
  Some (Some (MkRemappingLockHeader remappedCount keySize isLarge key original remapped, buf)).

Section split.
(** The chunk size known to [LargeObjectUtil]. *)
Variable chunkSize : Z.

Definition PROTO_DEGRADED_SET_SIZE : Z := 17.
Record DegradedSetHeader := MkDegradedSetHeader {
  ds_listId : Z; ds_chunkId : Z; ds_remappedCount : Z; ds_keySize : Z; ds_valueSize : Z; ds_isLarge : bool;
  ds_key : Z; ds_splitOffset : Z; ds_value : Z; ds_original : option Z; ds_remapped : option Z }.

Definition generateDegradedSetHeader (p : Protocol) (e : envelope) (listId chunkId : Z) (original remapped : list Z)
    (remappedCount keySize : Z) (key : list byte) (valueSize : Z) (value : list byte) (splitOffset splitSize : Z)
    (sendBuf : option (list byte)) : option (list byte * Z) :=
  let isLarge := negb (bool_decide (splitSize = 0 ∨ splitSize = valueSize)) in
  generate_last p e sendBuf 0 false
    ([write4 listId; write4 chunkId; write4 remappedCount; write1Byte keySize; write3 valueSize; write1Byte (b2i isLarge);
      write key keySize] ++
     (if isLarge then
        [write3 splitOffset;
         write (drop (Z.to_nat splitOffset) value) (LargeObjectUtil.clampSplit valueSize splitOffset splitSize)]
      else [write value valueSize]) ++
     [when (bool_decide (remappedCount ≠ 0)) (write_words original (u32 (remappedCount * 2)));
      when (bool_decide (remappedCount ≠ 0)) (write_words remapped (u32 (remappedCount * 2)))]).

(** [header.original[ i ]] and [header.remapped[ i ]] are converted together. *)
Definition ntohl_both (a b n : Z) (buf : list byte) : option (list byte) :=
  for_range 0 n (λ i buf, buf ← ntohl_at buf (a + 4 * i); ntohl_at buf (b + 4 * i)) buf.

Definition parseDegradedSetHeader (p : Protocol) (buf : option (list byte)) (size offset : Z) :
    option (option (DegradedSetHeader * list byte)) :=
  let '(buf, size) := pick_recv p buf size in
  if short size offset PROTO_DEGRADED_SET_SIZE then Some None else
  '(listId, ptr) ← read4 buf offset;
  '(chunkId, ptr) ← read4 buf ptr;
  '(remappedCount, ptr) ← read4 buf ptr;
  '(keySize, ptr) ← read1Byte buf ptr;
  '(valueSize, ptr) ← read3 buf ptr;
  '(isLarge, ptr) ← read1Byte buf ptr;
  let isLarge := i2b isLarge in
  let key := ptr in
  let ptr := ptr + keySize in
  si ← LargeObject_isLarge chunkSize keySize valueSize;
  r ← (if LargeObjectUtil.si_large si then
         '(splitOffset, ptr) ← read3 buf ptr;
         let splitSize := LargeObjectUtil.clampSplit valueSize splitOffset (LargeObjectUtil.si_size si) in
         if short size offset (u32 (PROTO_DEGRADED_SET_SIZE + PROTO_SPLIT_OFFSET_SIZE + keySize + splitSize + remappedCount * 4 * 4))
         then Some None else Some (Some (splitOffset, ptr, ptr + splitSize))
       else
         if short size offset (u32 (PROTO_DEGRADED_SET_SIZE + keySize + valueSize + remappedCount * 4 * 4))
         then Some None else Some (Some (0, ptr, ptr + valueSize)));
  match r with
  | None => Some None
  | Some (splitOffset, value, ptr) =>
      if decide (remappedCount ≠ 0) then
        let count := u32 (remappedCount * 2) in
        let original := ptr in
        let remapped := ptr + 4 * count in
        buf ← ntohl_both original remapped count buf;
        Some (Some (MkDegradedSetHeader listId chunkId remappedCount keySize valueSize isLarge key splitOffset value
                      (Some original) (Some remapped), buf))
      else
        Some (Some (MkDegradedSetHeader listId chunkId remappedCount keySize valueSize isLarge key splitOffset value
                      None None, buf))
  end.
End split.

(** ** Degraded locks (degraded_protocol.cc) *)
Definition PROTO_DEGRADED_LOCK_REQ_SIZE : Z := 6.
Record DegradedLockReqHeader := MkDegradedLockReqHeader {
  lq_reconstructedCount : Z; lq_keySize : Z; lq_isLarge : bool; lq_key : Z; lq_original : Z; lq_reconstructed : Z }.

Definition generateDegradedLockReqHeader (p : Protocol) (e : envelope) (original reconstructed : list Z)
    (reconstructedCount keySize : Z) (key : list byte) (isLarge : bool) : option (list byte * Z) :=
  generate p e (u32 (PROTO_DEGRADED_LOCK_REQ_SIZE + keySize + SPLIT_OFFSET_SIZE + reconstructedCount * 4 * 4)) None 0 false
    [write4 reconstructedCount; write1Byte keySize; write1Byte (b2i isLarge);
     write key (keySize + large_size isLarge); when (negb isLarge) (write3 0);
     write_pairs original reconstructedCount; write_pairs reconstructed reconstructedCount].

(** The place of the split offset is cleared for an object that is not large. *)
Definition parseDegradedLockReqHeader (p : Protocol) (buf : option (list byte)) (size offset : Z) :
    option (option (DegradedLockReqHeader * list byte)) :=
  let '(buf, size) := pick_recv p buf size in
  if short size offset PROTO_DEGRADED_LOCK_REQ_SIZE then Some None else
  '(reconstructedCount, ptr) ← read4 buf offset;
  '(keySize, ptr) ← read1Byte buf ptr;
  '(isLarge, ptr) ← read1Byte buf ptr;
  let isLarge := i2b isLarge in
  if short size offset (PROTO_DEGRADED_LOCK_REQ_SIZE + keySize + u32 (reconstructedCount * 4 * 4)) then Some None else
  let key := ptr in
  let ptr := ptr + keySize in
  buf ← (if isLarge then Some buf else splice buf ptr (replicate 3 x00));
  let original := ptr + SPLIT_OFFSET_SIZE in
  let reconstructed := original + 4 * u32 (reconstructedCount * 2) in
  buf ← ntohl_pairs original reconstructed reconstructedCount buf;
  Some (Some (MkDegradedLockReqHeader reconstructedCount keySize isLarge key original reconstructed, buf)).

Definition PROTO_DEGRADED_LOCK_RES_BASE_SIZE : Z := 3.
Definition PROTO_DEGRADED_LOCK_RES_LOCK_SIZE : Z := 14.
Definition PROTO_DEGRADED_LOCK_RES_REMAP_SIZE : Z := 4.
Definition PROTO_DEGRADED_LOCK_RES_NOT_SIZE : Z := 0.
Definition PROTO_DEGRADED_LOCK_RES_IS_LOCKED : Z := 1.
Definition PROTO_DEGRADED_LOCK_RES_WAS_LOCKED : Z := 2.
Definition PROTO_DEGRADED_LOCK_RES_NOT_LOCKED : Z := 3.
Definition PROTO_DEGRADED_LOCK_RES_REMAPPED : Z := 4.
Definition PROTO_DEGRADED_LOCK_RES_NOT_EXIST : Z := 5.

(** The common part: header, type and key.  It hands the pointer behind the key
    to its caller. *)
Definition lock_res_base (p : Protocol) (e : envelope) (length type keySize : Z) (key : list byte) (isLarge : bool) :
    option cursor :=
  '(buf, bytes) ← generateHeader p (e_magic e) (e_to e) (e_opcode e)
     (u32 (PROTO_DEGRADED_LOCK_RES_BASE_SIZE + keySize + large_size isLarge + length)) (e_instanceId e) (e_requestId e)
     None 0 false;
  run [write1Byte type; write1Byte keySize; write1Byte (b2i isLarge); write key (keySize + large_size isLarge)]
    (Cur buf PROTO_HEADER_SIZE bytes).

(** A pair is related to the key when its chunk is the key's data chunk or a
    parity chunk. *)
Definition related (dataChunkId dataChunkCount chunkId : Z) : bool :=
  (bool_decide (chunkId < dataChunkCount) && bool_decide (chunkId = dataChunkId)) || bool_decide (dataChunkCount ≤ chunkId).

(** The loop over the pairs that writes those of [arr] whose entry in
    [original] satisfies [f]. *)
Definition write_some_pairs (f : Z → bool) (original arr : list Z) (n : Z) : writer :=
  for_range 0 n (λ i c,
    chunkId ← zget original (i * 2 + 1);
    if f chunkId then
      x ← zget arr (i * 2); c ← write4 x c; y ← zget arr (i * 2 + 1); write4 y c
    else Some c).

Definition generateDegradedLockResHeader_locked (p : Protocol) (e : envelope) (isLocked : bool) (keySize : Z) (key : list byte)
    (isLarge isSealed : bool) (stripeId dataChunkId dataChunkCount : Z) (original reconstructed : list Z)
    (reconstructedCount ongoingAtChunk numSurvivingChunkIds : Z) (survivingChunkIds : list Z) : option (list byte * Z) :=
  let rel := related dataChunkId dataChunkCount in
  c ← lock_res_base p e (u32 (PROTO_DEGRADED_LOCK_RES_LOCK_SIZE + numSurvivingChunkIds * 4 + reconstructedCount * 4 * 4))
        (if isLocked then PROTO_DEGRADED_LOCK_RES_IS_LOCKED else PROTO_DEGRADED_LOCK_RES_WAS_LOCKED) keySize key isLarge;
  c ← run [write1Byte (b2i isSealed); write4 stripeId; write4 reconstructedCount; write4 ongoingAtChunk;
           write1Byte numSurvivingChunkIds; write_words survivingChunkIds numSurvivingChunkIds;
           write_some_pairs rel original original reconstructedCount;
           write_some_pairs (λ i, negb (rel i)) original original reconstructedCount;
           write_some_pairs rel original reconstructed reconstructedCount;
           write_some_pairs (λ i, negb (rel i)) original reconstructed reconstructedCount] c;
  Some (c_buf c, c_bytes c).

Definition generateDegradedLockResHeader_not (p : Protocol) (e : envelope) (exist : bool) (keySize : Z) (key : list byte)
    (isLarge : bool) : option (list byte * Z) :=
  c ← lock_res_base p e PROTO_DEGRADED_LOCK_RES_NOT_SIZE
        (if exist then PROTO_DEGRADED_LOCK_RES_NOT_LOCKED else PROTO_DEGRADED_LOCK_RES_NOT_EXIST) keySize key isLarge;
  Some (c_buf c, c_bytes c).

Definition generateDegradedLockResHeader_remapped (p : Protocol) (e : envelope) (keySize : Z) (key : list byte) (isLarge : bool)
    (original remapped : list Z) (remappedCount : Z) : option (list byte * Z) :=
  c ← lock_res_base p e (u32 (PROTO_DEGRADED_LOCK_RES_REMAP_SIZE + remappedCount * 4 * 4)) PROTO_DEGRADED_LOCK_RES_REMAPPED
        keySize key isLarge;
  c ← run [write4 remappedCount; write_pairs original remappedCount; write_pairs remapped remappedCount] c;
  Some (c_buf c, c_bytes c).

Record LockedPart := MkLockedPart {
  lp_isSealed : bool; lp_stripeId : Z; lp_original : Z; lp_reconstructed : Z; lp_reconstructedCount : Z;
  lp_ongoingAtChunk : Z; lp_numSurvivingChunkIds : Z; lp_survivingChunkIds : Z }.
Record RemappedPart := MkRemappedPart { rp_original : Z; rp_remapped : Z; rp_remappedCount : Z }.
Variant lock_result := LockedRes (l : LockedPart) | NotRes | RemappedRes (r : RemappedPart).
Record DegradedLockResHeader := MkDegradedLockResHeader {
  lr_type : Z; lr_keySize : Z; lr_isLarge : bool; lr_key : Z; lr_result : lock_result }.

(** The overloads for the parts of a response. *)
Definition parseDegradedLockResHeader_base (size offset : Z) (buf : list byte) : option (option (Z * Z * bool * Z)) :=
  if short size offset PROTO_DEGRADED_LOCK_RES_BASE_SIZE then Some None else
  '(type, ptr) ← read1Byte buf offset;
  '(keySize, ptr) ← read1Byte buf ptr;
  '(isLarge, ptr) ← read1Byte buf ptr;
  if short size offset (PROTO_DEGRADED_LOCK_RES_BASE_SIZE + keySize) then Some None else
  Some (Some (type, keySize, i2b isLarge, ptr)).

Definition parseDegradedLockResHeader_locked (size offset : Z) (buf : list byte) : option (option (LockedPart * list byte)) :=
  if short size offset PROTO_DEGRADED_LOCK_RES_LOCK_SIZE then Some None else
  '(isSealed, ptr) ← read1Byte buf offset;
  '(stripeId, ptr) ← read4 buf ptr;
  '(reconstructedCount, ptr) ← read4 buf ptr;
  '(ongoingAtChunk, ptr) ← read4 buf ptr;
  '(numSurvivingChunkIds, ptr) ← read1Byte buf ptr;
  let survivingChunkIds := ptr in
  buf ← ntohl_words survivingChunkIds numSurvivingChunkIds buf;
  let original := ptr + numSurvivingChunkIds * 4 in
  let reconstructed := original + 4 * u32 (reconstructedCount * 2) in
  buf ← ntohl_pairs original reconstructed reconstructedCount buf;
  Some (Some (MkLockedPart (i2b isSealed) stripeId original reconstructed reconstructedCount ongoingAtChunk
                numSurvivingChunkIds survivingChunkIds, buf)).

Definition parseDegradedLockResHeader_remapped (size offset : Z) (buf : list byte) : option (option (RemappedPart * list byte)) :=
  if short size offset PROTO_DEGRADED_LOCK_RES_REMAP_SIZE then Some None else
  '(remappedCount, ptr) ← read4 buf offset;
  let original := ptr in
  let remapped := ptr + 4 * u32 (remappedCount * 2) in
  buf ← ntohl_pairs original remapped remappedCount buf;
  Some (Some (MkRemappedPart original remapped remappedCount, buf)).

Definition parseDegradedLockResHeader (p : Protocol) (buf : option (list byte)) (size offset : Z) :
    option (option (DegradedLockResHeader * list byte)) :=
  let '(buf, size) := pick_recv p buf size in
  b ← parseDegradedLockResHeader_base size offset buf;
  match b with
  | None => Some None
  | Some (type, keySize, isLarge, key) =>
      let offset := offset + (PROTO_DEGRADED_LOCK_RES_BASE_SIZE + keySize + large_size isLarge) in
      if decide (type = PROTO_DEGRADED_LOCK_RES_IS_LOCKED ∨ type = PROTO_DEGRADED_LOCK_RES_WAS_LOCKED) then
        r ← parseDegradedLockResHeader_locked size offset buf;
        Some (option_map (λ '(l, buf), (MkDegradedLockResHeader type keySize isLarge key (LockedRes l), buf)) r)
      else if decide (type = PROTO_DEGRADED_LOCK_RES_NOT_LOCKED ∨ type = PROTO_DEGRADED_LOCK_RES_NOT_EXIST) then
        Some (Some (MkDegradedLockResHeader type keySize isLarge key NotRes, buf))
      else if decide (type = PROTO_DEGRADED_LOCK_RES_REMAPPED) then
        r ← parseDegradedLockResHeader_remapped size offset buf;
        Some (option_map (λ '(l, buf), (MkDegradedLockResHeader type keySize isLarge key (RemappedRes l), buf)) r)
      else Some None
  end.

(** ** Degraded requests *)
Definition PROTO_DEGRADED_REQ_BASE_SIZE : Z := 15.

(** What every degraded request carries besides its key. *)
Record DegradedInfo := MkDegradedInfo {
  di_isSealed : bool; di_stripeId : Z; di_original : list Z; di_reconstructed : list Z; di_reconstructedCount : Z;
  di_ongoingAtChunk : Z; di_numSurvivingChunkIds : Z; di_survivingChunkIds : list Z }.

Definition write_degraded_info (d : DegradedInfo) (isLarge : bool) : list writer :=
  [write1Byte (b2i isLarge); write1Byte (b2i (di_isSealed d)); write4 (di_stripeId d); write4 (di_reconstructedCount d);
   write4 (di_ongoingAtChunk d); write1Byte (di_numSurvivingChunkIds d);
   write_words (di_survivingChunkIds d) (di_numSurvivingChunkIds d);
   write_pairs (di_original d) (di_reconstructedCount d); write_pairs (di_reconstructed d) (di_reconstructedCount d)].

Definition generateDegradedReqHeader_key (p : Protocol) (e : envelope) (d : DegradedInfo) (keySize : Z) (key : list byte)
    (isLarge : bool) (timestamp : Z) : option (list byte * Z) :=
  generate p e (u32 (PROTO_DEGRADED_REQ_BASE_SIZE + di_numSurvivingChunkIds d * 4 + di_reconstructedCount d * 4 * 4
                     + PROTO_KEY_SIZE + keySize + large_size isLarge)) None timestamp isLarge
    (write_degraded_info d isLarge ++ [write1Byte keySize; write key (keySize + large_size isLarge)]).

Definition generateDegradedReqHeader_update (p : Protocol) (e : envelope) (d : DegradedInfo) (keySize : Z) (key : list byte)
    (isLarge : bool) (valueUpdateOffset valueUpdateSize : Z) (valueUpdate : list byte) (timestamp : Z) : option (list byte * Z) :=
  generate p e (u32 (PROTO_DEGRADED_REQ_BASE_SIZE + di_numSurvivingChunkIds d * 4 + di_reconstructedCount d * 4 * 4
                     + PROTO_KEY_VALUE_UPDATE_SIZE + keySize + large_size isLarge + valueUpdateSize)) None timestamp false
    (write_degraded_info d isLarge ++
     [write1Byte keySize; write3 valueUpdateSize; write3 valueUpdateOffset; write key (keySize + large_size isLarge);
      write valueUpdate valueUpdateSize]).

Variant degraded_data := DKey (h : KeyHeader) | DKeyValueUpdate (h : KeyValueUpdateHeader).
Record DegradedReqHeader := MkDegradedReqHeader {
  dr_isLarge : bool; dr_isSealed : bool; dr_stripeId : Z; dr_reconstructedCount : Z; dr_original : Z; dr_reconstructed : Z;
  dr_ongoingAtChunk : Z; dr_numSurvivingChunkIds : Z; dr_survivingChunkIds : Z; dr_data : degraded_data }.

Definition parseDegradedReqHeader_base (size offset : Z) (buf : list byte) :
    option (option ((degraded_data → DegradedReqHeader) * Z * Z * bool * list byte)) :=
  if short size offset PROTO_DEGRADED_REQ_BASE_SIZE then Some None else
  '(isLarge, ptr) ← read1Byte buf offset;
  '(isSealed, ptr) ← read1Byte buf ptr;
  '(stripeId, ptr) ← read4 buf ptr;
  '(reconstructedCount, ptr) ← read4 buf ptr;
  '(ongoingAtChunk, ptr) ← read4 buf ptr;
  '(numSurvivingChunkIds, ptr) ← read1Byte buf ptr;
  let survivingChunkIds := ptr in
  buf ← ntohl_words survivingChunkIds numSurvivingChunkIds buf;
  let original := ptr + numSurvivingChunkIds * 4 in
  let reconstructed := original + 4 * u32 (reconstructedCount * 2) in
  buf ← ntohl_pairs original reconstructed reconstructedCount buf;
  Some (Some (MkDegradedReqHeader (i2b isLarge) (i2b isSealed) stripeId reconstructedCount original reconstructed ongoingAtChunk
                numSurvivingChunkIds survivingChunkIds, numSurvivingChunkIds, reconstructedCount, i2b isLarge, buf)).

(** The pointer to the update of a large object's key is moved behind the split
    offset; a null pointer would be moved as well, which no one may then use
    ([None]). *)
Definition shift_update (isLarge : bool) (h : KeyValueUpdateHeader) : KeyValueUpdateHeader :=
  if isLarge then
    MkKeyValueUpdateHeader (ku_keySize h) (ku_valueUpdateSize h) (ku_valueUpdateOffset h) (ku_key h)
      (option_map (λ v, v + SPLIT_OFFSET_SIZE) (ku_valueUpdate h))
  else h.

Definition parseDegradedReqHeader (p : Protocol) (opcode : Z) (buf : option (list byte)) (size offset : Z) :
    option (option (DegradedReqHeader * list byte)) :=
  let '(buf, size) := pick_recv p buf size in
  b ← parseDegradedReqHeader_base size offset buf;
  match b with
  | None => Some None
  | Some (mk, numSurvivingChunkIds, reconstructedCount, isLarge, buf) =>
      let offset := offset + u32 (PROTO_DEGRADED_REQ_BASE_SIZE + numSurvivingChunkIds * 4 + reconstructedCount * 4 * 4) in
      if decide (opcode = PROTO_OPCODE_DEGRADED_GET ∨ opcode = PROTO_OPCODE_DEGRADED_DELETE) then
        r ← parseKeyHeader p (Some buf) size offset;
        Some (option_map (λ h, (mk (DKey h), buf)) r)
      else if decide (opcode = PROTO_OPCODE_DEGRADED_UPDATE) then
        r ← parseKeyValueUpdateHeader p true (Some buf) size offset;
        Some (option_map (λ h, (mk (DKeyValueUpdate (shift_update isLarge h)), buf)) r)
      else Some None
  end.

(** ** Forwarded keys, list-stripe keys and releases *)
Definition PROTO_FORWARD_KEY_BASE_SIZE : Z := 17.
Definition PROTO_FORWARD_KEY_UPDATE_SIZE : Z := 6.
Record ForwardUpdate := MkForwardUpdate { fu_valueUpdateSize : Z; fu_valueUpdateOffset : Z; fu_valueUpdate : option Z }.
Record ForwardKeyHeader := MkForwardKeyHeader {
  fk_opcode : Z; fk_metadata : Metadata; fk_keySize : Z; fk_valueSize : Z; fk_key : Z; fk_value : option Z;
  fk_update : option ForwardUpdate }.

Definition generateForwardKeyReqHeader (p : Protocol) (e : envelope) (degradedOpcode listId stripeId chunkId keySize : Z)
    (key : list byte) (valueSize : Z) (value : list byte) (valueUpdateSize valueUpdateOffset : Z) (valueUpdate : list byte) :
    option (list byte * Z) :=
  let update := bool_decide (degradedOpcode = PROTO_OPCODE_DEGRADED_UPDATE) in
  generate p e (u32 (PROTO_FORWARD_KEY_BASE_SIZE + keySize + valueSize
                     + (if update then PROTO_FORWARD_KEY_UPDATE_SIZE + valueUpdateSize else 0))) None 0 false
    ([write1Byte degradedOpcode; write4 listId; write4 stripeId; write4 chunkId; write1Byte keySize; write3 valueSize;
      write key keySize; write value valueSize] ++
     (if update then [write3 valueUpdateSize; write3 valueUpdateOffset; write valueUpdate valueUpdateSize] else [])).

Definition parseForwardKeyReqHeader (p : Protocol) (buf : option (list byte)) (size offset : Z) : option (option ForwardKeyHeader) :=
  let '(buf, size) := pick_recv p buf size in
  if short size offset PROTO_FORWARD_KEY_BASE_SIZE then Some None else
  '(opcode, ptr) ← read1Byte buf offset;
  '(m, ptr) ← read_metadata buf ptr;
  '(keySize, ptr) ← read1Byte buf ptr;
  '(valueSize, ptr) ← read3 buf ptr;
  if short size offset (PROTO_FORWARD_KEY_BASE_SIZE + keySize + valueSize) then Some None else
  let key := ptr in
  let value := ptr + keySize in
  let ptr := ptr + (keySize + valueSize) in
  if decide (opcode = PROTO_OPCODE_DEGRADED_UPDATE) then
    if short size offset (PROTO_FORWARD_KEY_BASE_SIZE + keySize + valueSize + PROTO_FORWARD_KEY_UPDATE_SIZE) then Some None else
    '(valueUpdateSize, ptr) ← read3 buf ptr;
    '(valueUpdateOffset, ptr) ← read3 buf ptr;
    if short size offset (PROTO_FORWARD_KEY_BASE_SIZE + keySize + valueSize + PROTO_FORWARD_KEY_UPDATE_SIZE + valueUpdateSize)
    then Some None else
    Some (Some (MkForwardKeyHeader opcode m keySize valueSize key (Some value)
                  (Some (MkForwardUpdate valueUpdateSize valueUpdateOffset (Some ptr)))))
  else Some (Some (MkForwardKeyHeader opcode m keySize valueSize key (Some value) None)).

Definition generateForwardKeyResHeader (p : Protocol) (e : envelope) (degradedOpcode listId stripeId chunkId keySize : Z)
    (key : list byte) (valueSize valueUpdateSize valueUpdateOffset : Z) : option (list byte * Z) :=
  let update := bool_decide (degradedOpcode = PROTO_OPCODE_DEGRADED_UPDATE) in
  generate p e (PROTO_FORWARD_KEY_BASE_SIZE + keySize + (if update then PROTO_FORWARD_KEY_UPDATE_SIZE else 0)) None 0 false
    ([write1Byte degradedOpcode; write4 listId; write4 stripeId; write4 chunkId; write1Byte keySize; write3 valueSize;
      write key keySize] ++
     (if update then [write3 valueUpdateSize; write3 valueUpdateOffset] else [])).

Definition parseForwardKeyResHeader (p : Protocol) (buf : option (list byte)) (size offset : Z) : option (option ForwardKeyHeader) :=
  let '(buf, size) := pick_recv p buf size in
  if short size offset PROTO_FORWARD_KEY_BASE_SIZE then Some None else
  '(opcode, ptr) ← read1Byte buf offset;
  '(m, ptr) ← read_metadata buf ptr;
  '(keySize, ptr) ← read1Byte buf ptr;
  '(valueSize, ptr) ← read3 buf ptr;
  if short size offset (PROTO_FORWARD_KEY_BASE_SIZE + keySize) then Some None else
  let key := ptr in
  let ptr := ptr + keySize in
  if decide (opcode = PROTO_OPCODE_DEGRADED_UPDATE) then
    if short size offset (PROTO_FORWARD_KEY_BASE_SIZE + keySize + PROTO_FORWARD_KEY_UPDATE_SIZE) then Some None else
    '(valueUpdateSize, ptr) ← read3 buf ptr;
    '(valueUpdateOffset, ptr) ← read3 buf ptr;
    Some (Some (MkForwardKeyHeader opcode m keySize valueSize key None
                  (Some (MkForwardUpdate valueUpdateSize valueUpdateOffset None))))
  else Some (Some (MkForwardKeyHeader opcode m keySize valueSize key None None)).

Definition PROTO_LIST_STRIPE_KEY_SIZE : Z := 9.
Record ListStripeKeyHeader := MkListStripeKeyHeader { lk_listId : Z; lk_chunkId : Z; lk_keySize : Z; lk_key : Z }.

Definition generateListStripeKeyHeader (p : Protocol) (e : envelope) (listId chunkId keySize : Z) (key : list byte)
    (isLarge : bool) : option (list byte * Z) :=
  generate p e (PROTO_LIST_STRIPE_KEY_SIZE + keySize + large_size isLarge) None 0 isLarge
    [write4 listId; write4 chunkId; write1Byte keySize; write key (keySize + large_size isLarge)].

Definition parseListStripeKeyHeader (p : Protocol) (isLarge : bool) (buf : option (list byte)) (size offset : Z) :
    option (option ListStripeKeyHeader) :=
  let '(buf, size) := pick_recv p buf size in
  if short size offset PROTO_LIST_STRIPE_KEY_SIZE then Some None else
  '(listId, ptr) ← read4 buf offset;
  '(chunkId, ptr) ← read4 buf ptr;
  '(keySize, ptr) ← read1Byte buf ptr;
  if short size offset (PROTO_LIST_STRIPE_KEY_SIZE + keySize + large_size isLarge) then Some None else
  Some (Some (MkListStripeKeyHeader listId chunkId keySize ptr)).

Definition PROTO_DEGRADED_RELEASE_RES_SIZE : Z := 4.
Definition generateDegradedReleaseResHeader (p : Protocol) (e : envelope) (count : Z) : option (list byte * Z) :=
  generate p e PROTO_DEGRADED_RELEASE_RES_SIZE None 0 false [write4 count].
Definition parseDegradedReleaseResHeader (p : Protocol) (buf : option (list byte)) (size offset : Z) : option (option Z) :=
  let '(buf, size) := pick_recv p buf size in
  if short size offset PROTO_DEGRADED_RELEASE_RES_SIZE then Some None else
  '(count, _) ← read4 buf offset; Some (Some count).

(** ** Arrays converted in place *)

(** Two arrays that follow each other. *)
Lemma ntohl_at_first pre o w post k j p : (k < length o)%nat → words_ok o → p = zlen pre + 4 * Z.of_nat k →
  ntohl_at (pre ++ partly k o ++ partly j w ++ post) p = Some (pre ++ partly (S k) o ++ partly j w ++ post).
Proof. apply ntohl_at_partly. Qed.

Lemma zlen_partly k l : zlen (partly k l) = 4 * zlen l.
Proof. unfold partly. zlens. unfold zlen. rewrite length_take, length_drop. lia. Qed.

Lemma ntohl_at_second pre o w post k j p :
  (j < length w)%nat → words_ok w → p = zlen pre + 4 * zlen o + 4 * Z.of_nat j →
  ntohl_at (pre ++ partly k o ++ partly j w ++ post) p = Some (pre ++ partly k o ++ partly (S j) w ++ post).
Proof.
  intros. rewrite !(app_assoc pre). apply ntohl_at_partly; [done|done|]. zlens. rewrite zlen_partly. lia.
Qed.

Lemma ntohl_pairs_holds pre o w post n b :
  words_ok o → words_ok w → zlen o = 2 * n → zlen w = 2 * n → 0 ≤ n → b = zlen pre + 4 * (2 * n) →
  ntohl_pairs (zlen pre) b n (pre ++ words o ++ words w ++ post) = Some (pre ++ host_words o ++ host_words w ++ post).
Proof.
  intros Ho Hw Hlo Hlw Hn ->. unfold ntohl_pairs.
  destruct (for_range_inv (λ i buf, buf = pre ++ partly (Z.to_nat (2 * i)) o ++ partly (Z.to_nat (2 * i)) w ++ post) 0 n
    (λ i buf, buf ← ntohl_at buf (zlen pre + 4 * (i * 2)); buf ← ntohl_at buf (zlen pre + 4 * (i * 2 + 1));
      buf ← ntohl_at buf (zlen pre + 4 * (2 * n) + 4 * (i * 2)); ntohl_at buf (zlen pre + 4 * (2 * n) + 4 * (i * 2 + 1)))
    (pre ++ words o ++ words w ++ post)) as (buf & -> & ->).
  - done.
  - intros j s Hj ->. unfold zlen in Hlo, Hlw.
    replace (Z.to_nat (2 * (j + 1))) with (S (S (Z.to_nat (2 * j)))) by lia.
    rewrite ntohl_at_first by (done || lia). cbn [mbind option_bind].
    rewrite ntohl_at_first by (done || lia). cbn [mbind option_bind].
    rewrite ntohl_at_second by (done || (unfold zlen; lia)). cbn [mbind option_bind].
    rewrite ntohl_at_second by (done || (unfold zlen; lia)). by eexists.
  - done.
  - unfold zlen in Hlo, Hlw. replace (Z.to_nat (2 * n)) with (length o) at 1 by lia.
    replace (Z.to_nat (2 * n)) with (length w) by lia. by rewrite !partly_all.
Qed.

Lemma ntohl_both_holds pre o w post n b :
  words_ok o → words_ok w → zlen o = n → zlen w = n → b = zlen pre + 4 * n →
  ntohl_both (zlen pre) b n (pre ++ words o ++ words w ++ post) = Some (pre ++ host_words o ++ host_words w ++ post).
Proof.
  intros Ho Hw Hlo Hlw ->. unfold ntohl_both. assert (0 ≤ n) by (subst; apply zlen_nonneg).
  destruct (for_range_inv (λ i buf, buf = pre ++ partly (Z.to_nat i) o ++ partly (Z.to_nat i) w ++ post) 0 n
    (λ i buf, buf ← ntohl_at buf (zlen pre + 4 * i); ntohl_at buf (zlen pre + 4 * n + 4 * i))
    (pre ++ words o ++ words w ++ post)) as (buf & -> & ->).
  - done.
  - intros j s Hj ->. unfold zlen in Hlo, Hlw. replace (Z.to_nat (j + 1)) with (S (Z.to_nat j)) by lia.
    rewrite ntohl_at_first by (done || lia). cbn [mbind option_bind].
    rewrite ntohl_at_second by (done || (unfold zlen; lia)). by eexists.
  - done.
  - unfold zlen in Hlo, Hlw. replace (Z.to_nat n) with (length o) at 1 by lia.
    replace (Z.to_nat n) with (length w) by lia. by rewrite !partly_all.
Qed.

(** The same, for bytes that follow other bytes of a message. *)
Lemma ntohl_pairs_at r ptr xs o w ys a b n :
  holds r ptr (xs ++ words o ++ words w ++ ys) → words_ok o → words_ok w → zlen o = 2 * n → zlen w = 2 * n → 0 ≤ n →
  a = ptr + zlen xs → b = a + 4 * (2 * n) →
  ∃ r', ntohl_pairs a b n r = Some r' ∧ holds r' ptr (xs ++ host_words o ++ host_words w ++ ys).
Proof.
  intros (pre & post & -> & ->) Ho Hw Hlo Hlw Hn -> ->. exists (pre ++ xs ++ host_words o ++ host_words w ++ ys ++ post). split.
  - rewrite <- zlen_app. pose proof (ntohl_pairs_holds (pre ++ xs) o w (ys ++ post) n _ Ho Hw Hlo Hlw Hn eq_refl) as H.
    rewrite <- !(assoc (++)) in H. by rewrite <- !(assoc (++)).
  - exists pre, post. by rewrite <- !(assoc (++)).
Qed.

Lemma ntohl_both_at r ptr xs o w ys a b n :
  holds r ptr (xs ++ words o ++ words w ++ ys) → words_ok o → words_ok w → zlen o = n → zlen w = n →
  a = ptr + zlen xs → b = a + 4 * n →
  ∃ r', ntohl_both a b n r = Some r' ∧ holds r' ptr (xs ++ host_words o ++ host_words w ++ ys).
Proof.
  intros (pre & post & -> & ->) Ho Hw Hlo Hlw -> ->. exists (pre ++ xs ++ host_words o ++ host_words w ++ ys ++ post). split.
  - rewrite <- zlen_app. pose proof (ntohl_both_holds (pre ++ xs) o w (ys ++ post) n _ Ho Hw Hlo Hlw eq_refl) as H.
    rewrite <- !(assoc (++)) in H. by rewrite <- !(assoc (++)).
  - exists pre, post. by rewrite <- !(assoc (++)).
Qed.

(** ** The messages *)
Inductive degraded_message :=
| DRemapLock (original remapped : list Z) (k : Key)
| DSet (listId chunkId : Z) (original remapped : list Z) (key value : list byte)
| DSplit (listId chunkId : Z) (original remapped : list Z) (key : list byte) (valueSize splitOffset : Z) (split : list byte)
| DLockReq (original reconstructed : list Z) (k : Key)
| DLocked (isLocked : bool) (k : Key) (d : DegradedInfo)
| DNot (exist : bool) (k : Key)
| DRemapped (k : Key) (original remapped : list Z)
| DReqKey (d : DegradedInfo) (k : Key)
| DReqUpdate (d : DegradedInfo) (k : Key) (valueOffset : Z) (update : list byte)
| DForwardReq (opcode : Z) (m : Metadata) (key value : list byte) (update : option (Z * list byte))
| DForwardRes (opcode : Z) (m : Metadata) (key : list byte) (valueSize : Z) (update : option (Z * Z))
| DListStripeKey (listId chunkId : Z) (k : Key)
| DReleaseRes (count : Z).

Inductive degraded_kind :=
| KRemapLock | KSet | KLockReq | KLockRes | KReq (opcode : Z) | KForwardReq | KForwardRes | KListStripeKey (isLarge : bool) | KReleaseRes.

Definition degraded_kind_of (opcode : Z) (m : degraded_message) : degraded_kind :=
  match m with
  | DRemapLock _ _ _ => KRemapLock
  | DSet _ _ _ _ _ _ | DSplit _ _ _ _ _ _ _ _ => KSet
  | DLockReq _ _ _ => KLockReq
  | DLocked _ _ _ | DNot _ _ | DRemapped _ _ _ => KLockRes
  | DReqKey _ _ | DReqUpdate _ _ _ _ => KReq opcode
  | DForwardReq _ _ _ _ _ => KForwardReq
  | DForwardRes _ _ _ _ _ => KForwardRes
  | DListStripeKey _ _ k => KListStripeKey (isLarge k)
  | DReleaseRes _ => KReleaseRes
  end.

(** The order in which a lock response sends the pairs of an array. *)
Fixpoint some_pairs (f : Z → bool) (original arr : list Z) : list Z :=
  match original, arr with
  | _ :: chunkId :: original, x :: y :: arr =>
      (if f chunkId then [x; y] else []) ++ some_pairs f original arr
  | _, _ => []
  end.
Definition sorted_pairs (rel : Z → bool) (original arr : list Z) : list Z :=
  some_pairs rel original arr ++ some_pairs (λ i, negb (rel i)) original arr.

Section degraded.
Variable chunkSize : Z.
(** What the sender knows and does not send: the chunk of the key, and the part
    of a value before a split. *)
Variables (dataChunkId dataChunkCount : Z) (before : list byte).

Definition half (l : list Z) : Z := zlen l / 2.

Definition received (m : degraded_message) : degraded_message :=
  match m with
  | DLocked b k d =>
      let rel := related dataChunkId dataChunkCount in
      DLocked b k (MkDegradedInfo (di_isSealed d) (di_stripeId d) (sorted_pairs rel (di_original d) (di_original d))
        (sorted_pairs rel (di_original d) (di_reconstructed d)) (di_reconstructedCount d) (di_ongoingAtChunk d)
        (di_numSurvivingChunkIds d) (di_survivingChunkIds d))
  | m => m
  end.

Definition generate_degraded (p : Protocol) (e : envelope) (ts : Z) (m : degraded_message) : option (list byte * Z) :=
  match m with
  | DRemapLock o w k => generateRemappingLockHeader p e o w (half o) (size k) (data k) (isLarge k)
  | DSet l c o w key value => generateDegradedSetHeader p e l c o w (half o) (zlen key) key (zlen value) value 0 0 None
  | DSplit l c o w key vs so split =>
      match LargeObject_isLarge chunkSize (zlen key) vs with
      | Some si => generateDegradedSetHeader p e l c o w (half o) (zlen key) key vs (before ++ split) so (LargeObjectUtil.si_size si) None
      | None => None
      end
  | DLockReq o w k => generateDegradedLockReqHeader p e o w (half o) (size k) (data k) (isLarge k)
  | DLocked b k d =>
      generateDegradedLockResHeader_locked p e b (size k) (data k) (isLarge k) (di_isSealed d) (di_stripeId d)
        dataChunkId dataChunkCount (di_original d) (di_reconstructed d) (di_reconstructedCount d) (di_ongoingAtChunk d)
        (di_numSurvivingChunkIds d) (di_survivingChunkIds d)
  | DNot b k => generateDegradedLockResHeader_not p e b (size k) (data k) (isLarge k)
  | DRemapped k o w => generateDegradedLockResHeader_remapped p e (size k) (data k) (isLarge k) o w (half o)
  | DReqKey d k => generateDegradedReqHeader_key p e d (size k) (data k) (isLarge k) ts
  | DReqUpdate d k vo u => generateDegradedReqHeader_update p e d (size k) (data k) (isLarge k) vo (zlen u) u ts
  | DForwardReq op m key value u =>
      generateForwardKeyReqHeader p e op (listId m) (stripeId m) (chunkId m) (zlen key) key (zlen value) value
        (zlen (snd (default (0, []) u))) (fst (default (0, []) u)) (snd (default (0, []) u))
  | DForwardRes op m key vs u =>
      generateForwardKeyResHeader p e op (listId m) (stripeId m) (chunkId m) (zlen key) key vs
        (fst (default (0, 0) u)) (snd (default (0, 0) u))
  | DListStripeKey l c k => generateListStripeKeyHeader p e l c (size k) (data k) (isLarge k)
  | DReleaseRes n => generateDegradedReleaseResHeader p e n
  end.

Definition degraded_timestamp (ts : Z) (m : degraded_message) : Z :=
  match m with DReqKey _ _ | DReqUpdate _ _ _ _ => ts | _ => 0 end.
Definition degraded_isLarge (m : degraded_message) : bool :=
  match m with DReqKey _ k | DListStripeKey _ _ k => isLarge k | _ => false end.

(** The parser of a kind, and what its result refers to in the converted buffer. *)
Definition then_read {A} (r : option (option A)) (f : A → option degraded_message) : option (option degraded_message) :=
  r ← r; match r with Some h => Some <$> f h | None => Some None end.

Definition parse_degraded (q : Protocol) (k : degraded_kind) (buf : option (list byte)) (sz offset : Z) :
    option (option degraded_message) :=
  let bytes := fst (pick_recv q buf sz) in
  match k with
  | KRemapLock => then_read (parseRemappingLockHeader q buf sz offset) (λ '(h, b),
      d ← slice b (rl_key h) (rl_keySize h + large_size (rl_isLarge h));
      o ← word_array b (rl_original h) (2 * rl_remappedCount h); w ← word_array b (rl_remapped h) (2 * rl_remappedCount h);
      Some (DRemapLock o w (MkKey (rl_keySize h) d (rl_isLarge h))))
  | KSet => then_read (parseDegradedSetHeader chunkSize q buf sz offset) (λ '(h, b),
      d ← slice b (ds_key h) (ds_keySize h);
      o ← (match ds_original h with Some a => word_array b a (2 * ds_remappedCount h) | None => Some [] end);
      w ← (match ds_remapped h with Some a => word_array b a (2 * ds_remappedCount h) | None => Some [] end);
      si ← LargeObject_isLarge chunkSize (ds_keySize h) (ds_valueSize h);
      if LargeObjectUtil.si_large si then
        v ← slice b (ds_value h) (LargeObjectUtil.clampSplit (ds_valueSize h) (ds_splitOffset h) (LargeObjectUtil.si_size si));
        Some (DSplit (ds_listId h) (ds_chunkId h) o w d (ds_valueSize h) (ds_splitOffset h) v)
      else
        v ← slice b (ds_value h) (ds_valueSize h); Some (DSet (ds_listId h) (ds_chunkId h) o w d v))
  | KLockReq => then_read (parseDegradedLockReqHeader q buf sz offset) (λ '(h, b),
      d ← slice b (lq_key h) (lq_keySize h + large_size (lq_isLarge h));
      o ← word_array b (lq_original h) (2 * lq_reconstructedCount h);
      w ← word_array b (lq_reconstructed h) (2 * lq_reconstructedCount h);
      Some (DLockReq o w (MkKey (lq_keySize h) d (lq_isLarge h))))
  | KLockRes => then_read (parseDegradedLockResHeader q buf sz offset) (λ '(h, b),
      d ← slice b (lr_key h) (lr_keySize h + large_size (lr_isLarge h));
      let k := MkKey (lr_keySize h) d (lr_isLarge h) in
      match lr_result h with
      | LockedRes l =>
          o ← word_array b (lp_original l) (2 * lp_reconstructedCount l);
          w ← word_array b (lp_reconstructed l) (2 * lp_reconstructedCount l);
          s ← word_array b (lp_survivingChunkIds l) (lp_numSurvivingChunkIds l);
          Some (DLocked (bool_decide (lr_type h = PROTO_DEGRADED_LOCK_RES_IS_LOCKED)) k
            (MkDegradedInfo (lp_isSealed l) (lp_stripeId l) o w (lp_reconstructedCount l) (lp_ongoingAtChunk l)
               (lp_numSurvivingChunkIds l) s))
      | NotRes => Some (DNot (bool_decide (lr_type h = PROTO_DEGRADED_LOCK_RES_NOT_LOCKED)) k)
      | RemappedRes l =>
          o ← word_array b (rp_original l) (2 * rp_remappedCount l);
          w ← word_array b (rp_remapped l) (2 * rp_remappedCount l);
          Some (DRemapped k o w)
      end)
  | KReq opcode => then_read (parseDegradedReqHeader q opcode buf sz offset) (λ '(h, b),
      o ← word_array b (dr_original h) (2 * dr_reconstructedCount h);
      w ← word_array b (dr_reconstructed h) (2 * dr_reconstructedCount h);
      s ← word_array b (dr_survivingChunkIds h) (dr_numSurvivingChunkIds h);
      let d := MkDegradedInfo (dr_isSealed h) (dr_stripeId h) o w (dr_reconstructedCount h) (dr_ongoingAtChunk h)
                 (dr_numSurvivingChunkIds h) s in
      match dr_data h with
      | DKey k => x ← slice b (kh_key k) (kh_keySize k + large_size (dr_isLarge h));
          Some (DReqKey d (MkKey (kh_keySize k) x (dr_isLarge h)))
      | DKeyValueUpdate k => x ← slice b (ku_key k) (ku_keySize k + large_size (dr_isLarge h));
          u ← opt_bytes b (ku_valueUpdate k) (ku_valueUpdateSize k);
          Some (DReqUpdate d (MkKey (ku_keySize k) x (dr_isLarge h)) (ku_valueUpdateOffset k) (default [] u))
      end)
  | KForwardReq => then_read (parseForwardKeyReqHeader q buf sz offset) (λ h,
      x ← slice bytes (fk_key h) (fk_keySize h);
      v ← opt_bytes bytes (fk_value h) (fk_valueSize h);
      match fk_update h with
      | None => Some (DForwardReq (fk_opcode h) (fk_metadata h) x (default [] v) None)
      | Some u => d ← opt_bytes bytes (fu_valueUpdate u) (fu_valueUpdateSize u);
          Some (DForwardReq (fk_opcode h) (fk_metadata h) x (default [] v) (Some (fu_valueUpdateOffset u, default [] d)))
      end)
  | KForwardRes => then_read (parseForwardKeyResHeader q buf sz offset) (λ h,
      x ← slice bytes (fk_key h) (fk_keySize h);
      Some (DForwardRes (fk_opcode h) (fk_metadata h) x (fk_valueSize h)
        (option_map (λ u, (fu_valueUpdateSize u, fu_valueUpdateOffset u)) (fk_update h))))
  | KListStripeKey l => then_read (parseListStripeKeyHeader q l buf sz offset) (λ h,
      d ← slice bytes (lk_key h) (lk_keySize h + large_size l);
      Some (DListStripeKey (lk_listId h) (lk_chunkId h) (MkKey (lk_keySize h) d l)))
  | KReleaseRes => then_read (parseDegradedReleaseResHeader q buf sz offset) (λ n, Some (DReleaseRes n))
  end.
End degraded.

(** *** Writing arrays of pairs *)
Lemma emits_words_all arr n : n = zlen arr → emits (write_words arr n) (words arr).
Proof.
  intros ->. pose proof (emits_write_words arr (zlen arr) ltac:(unfold zlen; lia)) as H.
  unfold zlen in H at 2. by rewrite Nat2Z.id, firstn_all in H.
Qed.
Lemma emits_pairs_all arr n : zlen arr = 2 * n → emits (write_pairs arr n) (words arr).
Proof.
  intros Hn. pose proof (zlen_nonneg arr). pose proof (emits_write_pairs arr n ltac:(lia) ltac:(lia)) as Hp.
  rewrite <- Hn in Hp. unfold zlen in Hp. by rewrite Nat2Z.id, firstn_all in Hp.
Qed.

Lemma zget_pair {A} (x y : A) l i : 0 ≤ i → zget (x :: y :: l) (i + 2) = zget l i.
Proof.
  intros. unfold zget. rewrite !decide_True by lia. by replace (Z.to_nat (i + 2)) with (S (S (Z.to_nat i))) by lia.
Qed.

(** What round [i] writes. *)
Definition some_pair (f : Z → bool) (original arr : list Z) (i : Z) : list byte :=
  match zget original (i * 2 + 1), zget arr (i * 2), zget arr (i * 2 + 1) with
  | Some c, Some x, Some y => if f c then words [x; y] else []
  | _, _, _ => []
  end.

Lemma some_pair_concat f (n : nat) : ∀ o a, length o = (2 * n)%nat → length a = (2 * n)%nat →
  concat (some_pair f o a <$> seqZ 0 (Z.of_nat n)) = words (some_pairs f o a).
Proof.
  induction n as [|n IH]; intros o a Ho Ha; [by destruct o|].
  destruct o as [|u [|c o]]; simpl in Ho; [lia..|]. destruct a as [|x [|y a]]; simpl in Ha; [lia..|].
  rewrite (seqZ_cons 0) by lia. cbn [fmap list_fmap concat some_pairs]. rewrite words_app. f_equal.
  - unfold some_pair. change (zget (u :: c :: o) (0 * 2 + 1)) with (Some c).
    change (zget (x :: y :: a) (0 * 2)) with (Some x). change (zget (x :: y :: a) (0 * 2 + 1)) with (Some y). cbn iota.
    by destruct (f c).
  - rewrite <- (IH o a) by lia. replace (Z.pred (Z.of_nat (S n))) with (Z.of_nat n) by lia.
    rewrite <- (Z.add_0_r (Z.succ 0)), <- fmap_add_seqZ, <- list_fmap_compose. f_equal.
    apply list_fmap_ext. intros k i Hi. apply lookup_seqZ in Hi as [-> Hi]. cbn. unfold some_pair.
    replace (Z.succ 0 + (0 + Z.of_nat k)) with (Z.of_nat k + 1) by lia. rewrite Z.add_0_l.
    replace ((Z.of_nat k + 1) * 2 + 1) with (Z.of_nat k * 2 + 1 + 2) by lia.
    replace ((Z.of_nat k + 1) * 2) with (Z.of_nat k * 2 + 2) by lia. by rewrite !zget_pair by lia.
Qed.

Lemma emits_some_pairs f o a n : zlen o = 2 * n → zlen a = 2 * n →
  emits (write_some_pairs f o a n) (words (some_pairs f o a)).
Proof.
  intros Ho Ha. pose proof (zlen_nonneg o). unfold write_some_pairs.
  rewrite <- (some_pair_concat f (Z.to_nat n)) by (unfold zlen in *; lia).
  rewrite Z2Nat.id by lia. apply emits_loop; [lia|]. intros i Hi.
  destruct (zget_is_Some o (i * 2 + 1) ltac:(lia)) as [c Hc]. destruct (zget_is_Some a (i * 2) ltac:(lia)) as [x Hx].
  destruct (zget_is_Some a (i * 2 + 1) ltac:(lia)) as [y Hy]. unfold some_pair. rewrite Hc, Hx, Hy.
  cbn [mbind option_bind]. destruct (f c); [|apply emits_nil].
  assert (words [x; y] = be_bytes 4 x ++ be_bytes 4 y) as -> by (cbn; by rewrite app_nil_r).
  apply (emits_bind (write4 x) (write4 y)); apply emits_write4.
Qed.

Lemma some_pairs_spec f (n : nat) : ∀ o a, length o = (2 * n)%nat → length a = (2 * n)%nat → words_ok a →
  zlen (some_pairs f o a) + zlen (some_pairs (λ i, negb (f i)) o a) = zlen a ∧ words_ok (some_pairs f o a).
Proof.
  induction n as [|n IH]; intros o a Ho Ha Hok; [destruct o, a; done|].
  destruct o as [|u [|c o]]; simpl in Ho; [lia..|]. destruct a as [|x [|y a]]; simpl in Ha; [lia..|].
  apply Forall_cons in Hok as [Hx Hok]. apply Forall_cons in Hok as [Hy Hok].
  destruct (IH o a ltac:(lia) ltac:(lia) Hok) as [Hl Hw]. cbn [some_pairs].
  destruct (f c); cbn [negb app]; zlens; (split; [lia|]).
  - apply Forall_cons. split; [done|]. by apply Forall_cons.
  - done.
Qed.

Lemma sorted_pairs_ok rel o a n : zlen o = 2 * n → zlen a = 2 * n → words_ok a →
  zlen (sorted_pairs rel o a) = 2 * n ∧ words_ok (sorted_pairs rel o a) ∧
  words (some_pairs rel o a) ++ words (some_pairs (λ i, negb (rel i)) o a) = words (sorted_pairs rel o a).
Proof.
  intros Ho Ha Hok. pose proof (zlen_nonneg o). unfold sorted_pairs, zlen in *.
  destruct (some_pairs_spec rel (Z.to_nat n) o a ltac:(lia) ltac:(lia) Hok) as [Hl Hw].
  destruct (some_pairs_spec (λ i, negb (rel i)) (Z.to_nat n) o a ltac:(lia) ltac:(lia) Hok) as [_ Hw'].
  split; [unfold zlen in Hl; rewrite length_app; lia|]. split; [by apply Forall_app|]. by rewrite words_app.
Qed.

(** *** Every message arrives *)
Ltac dsizes := unfold PROTO_REMAPPING_LOCK_SIZE, PROTO_DEGRADED_SET_SIZE, PROTO_DEGRADED_LOCK_REQ_SIZE,
  PROTO_DEGRADED_LOCK_RES_BASE_SIZE, PROTO_DEGRADED_LOCK_RES_LOCK_SIZE, PROTO_DEGRADED_LOCK_RES_REMAP_SIZE,
  PROTO_DEGRADED_LOCK_RES_NOT_SIZE, PROTO_DEGRADED_REQ_BASE_SIZE, PROTO_FORWARD_KEY_BASE_SIZE,
  PROTO_FORWARD_KEY_UPDATE_SIZE, PROTO_LIST_STRIPE_KEY_SIZE, PROTO_DEGRADED_RELEASE_RES_SIZE, SPLIT_OFFSET_SIZE in *; sizes.
Ltac dfits := rewrite short_ok; [|dsizes; lia|dsizes; lia].

(** Two arrays of pairs of the same number. *)
Definition pairs_ok (o w : list Z) : Prop :=
  words_ok o ∧ words_ok w ∧ zlen w = zlen o ∧ zlen o = 2 * half o ∧ zlen o < 2 ^ 24.
Definition info_ok (d : DegradedInfo) : Prop :=
  pairs_ok (di_original d) (di_reconstructed d) ∧ di_reconstructedCount d = half (di_original d) ∧
  di_numSurvivingChunkIds d = zlen (di_survivingChunkIds d) ∧ zlen (di_survivingChunkIds d) < 2 ^ 8 ∧
  words_ok (di_survivingChunkIds d) ∧ 0 ≤ di_stripeId d < 2 ^ 32 ∧ 0 ≤ di_ongoingAtChunk d < 2 ^ 32.

Definition info_size (d : DegradedInfo) : Z := 4 * zlen (di_survivingChunkIds d) + 8 * zlen (di_original d).

Definition degraded_ok (chunkSize opcode : Z) (before : list byte) (m : degraded_message) : Prop :=
  match m with
  | DRemapLock o w k | DLockReq o w k | DRemapped k o w => pairs_ok o w ∧ key_ok k
  | DSet l c o w key value =>
      pairs_ok o w ∧ 0 ≤ l < 2 ^ 32 ∧ 0 ≤ c < 2 ^ 32 ∧ LargeObjectUtil.sizes_ok chunkSize (zlen key) (zlen value) ∧
      4 + zlen key + zlen value ≤ chunkSize
  | DSplit l c o w key vs so split =>
      pairs_ok o w ∧ 0 ≤ l < 2 ^ 32 ∧ 0 ≤ c < 2 ^ 32 ∧ LargeObjectUtil.sizes_ok chunkSize (zlen key) vs ∧
      chunkSize < 4 + zlen key + vs ∧ 0 ≤ so < vs ∧ zlen before = so ∧
      zlen split = LargeObjectUtil.clampSplit vs so (LargeObjectUtil.splitSizeOf chunkSize (zlen key))
  | DLocked b k d => info_ok d ∧ key_ok k
  | DNot b k => key_ok k
  | DReqKey d k => info_ok d ∧ key_ok k ∧ (opcode = PROTO_OPCODE_DEGRADED_GET ∨ opcode = PROTO_OPCODE_DEGRADED_DELETE)
  | DReqUpdate d k vo u =>
      info_ok d ∧ key_ok k ∧ opcode = PROTO_OPCODE_DEGRADED_UPDATE ∧ 0 ≤ vo < 2 ^ 24 ∧ 0 < zlen u < 2 ^ 24
  | DForwardReq op m key value u =>
      0 ≤ op < 256 ∧ Metadata.wf m ∧ zlen key < 2 ^ 8 ∧ zlen value < 2 ^ 24 ∧
      match u with
      | Some (vo, d) => op = PROTO_OPCODE_DEGRADED_UPDATE ∧ 0 ≤ vo < 2 ^ 24 ∧ zlen d < 2 ^ 24
      | None => op ≠ PROTO_OPCODE_DEGRADED_UPDATE
      end
  | DForwardRes op m key vs u =>
      0 ≤ op < 256 ∧ Metadata.wf m ∧ zlen key < 2 ^ 8 ∧ 0 ≤ vs < 2 ^ 24 ∧
      match u with
      | Some (us, uo) => op = PROTO_OPCODE_DEGRADED_UPDATE ∧ 0 ≤ us < 2 ^ 24 ∧ 0 ≤ uo < 2 ^ 24
      | None => op ≠ PROTO_OPCODE_DEGRADED_UPDATE
      end
  | DListStripeKey l c k => 0 ≤ l < 2 ^ 32 ∧ 0 ≤ c < 2 ^ 32 ∧ key_ok k
  | DReleaseRes n => 0 ≤ n < 2 ^ 32
  end.

Definition degraded_size (m : degraded_message) : Z :=
  match m with
  | DRemapLock o _ k => PROTO_REMAPPING_LOCK_SIZE + key_size k + 8 * zlen o
  | DSet _ _ o _ key value => PROTO_DEGRADED_SET_SIZE + zlen key + zlen value + 8 * zlen o
  | DSplit _ _ o _ key _ _ split => PROTO_DEGRADED_SET_SIZE + PROTO_SPLIT_OFFSET_SIZE + zlen key + zlen split + 8 * zlen o
  | DLockReq o _ k => PROTO_DEGRADED_LOCK_REQ_SIZE + size k + SPLIT_OFFSET_SIZE + 8 * zlen o
  | DLocked _ k d => PROTO_DEGRADED_LOCK_RES_BASE_SIZE + key_size k + PROTO_DEGRADED_LOCK_RES_LOCK_SIZE + info_size d
  | DNot _ k => PROTO_DEGRADED_LOCK_RES_BASE_SIZE + key_size k
  | DRemapped k o _ => PROTO_DEGRADED_LOCK_RES_BASE_SIZE + key_size k + PROTO_DEGRADED_LOCK_RES_REMAP_SIZE + 8 * zlen o
  | DReqKey d k => PROTO_DEGRADED_REQ_BASE_SIZE + info_size d + PROTO_KEY_SIZE + key_size k
  | DReqUpdate d k _ u => PROTO_DEGRADED_REQ_BASE_SIZE + info_size d + PROTO_KEY_VALUE_UPDATE_SIZE + key_size k + zlen u
  | DForwardReq _ _ key value u => PROTO_FORWARD_KEY_BASE_SIZE + zlen key + zlen value
      + match u with Some (_, d) => PROTO_FORWARD_KEY_UPDATE_SIZE + zlen d | None => 0 end
  | DForwardRes _ _ key _ u => PROTO_FORWARD_KEY_BASE_SIZE + zlen key
      + match u with Some _ => PROTO_FORWARD_KEY_UPDATE_SIZE | None => 0 end
  | DListStripeKey _ _ k => PROTO_LIST_STRIPE_KEY_SIZE + key_size k
  | DReleaseRes _ => PROTO_DEGRADED_RELEASE_RES_SIZE
  end.

#[export] Hint Resolve emits_when : emits.
#[export] Hint Extern 5 (emits (write_pairs _ _) _) => (apply emits_pairs_all; lia) : emits.
#[export] Hint Extern 5 (emits (write_words _ _) _) => (apply emits_words_all; lia) : emits.

(** Convert the arrays [o] and [w], which follow the bytes in [H]. *)
Ltac convert H Ho Hw r' H' :=
  lazymatch goal with
  | |- context [ntohl_pairs ?a ?b ?n _] =>
      destruct (ntohl_pairs_at _ _ _ _ _ _ a b n H Ho Hw) as (r' & -> & H'); [unfold SPLIT_OFFSET_SIZE in *; zlens; lia..|]
  | |- context [ntohl_both ?a ?b ?n _] =>
      destruct (ntohl_both_at _ _ _ _ _ _ a b n H Ho Hw) as (r' & -> & H'); [unfold SPLIT_OFFSET_SIZE in *; zlens; lia..|]
  end; cbn [mbind option_bind].
Ltac convert_one H Hok r' H' :=
  lazymatch goal with
  | |- context [ntohl_words ?a ?n _] =>
      destruct (ntohl_words_at _ _ _ _ _ a n H Hok) as (r' & -> & H'); [zlens; lia..|]
  end; cbn [mbind option_bind].
(** Read an array of [n] words. *)
Ltac take_array H Hok n :=
  lazymatch type of H with holds _ ?ptr _ =>
    match goal with |- context [word_array _ ?a n] => replace a with ptr by (unfold SPLIT_OFFSET_SIZE in *; lia) end
  end;
  rewrite (word_array_holds _ _ _ _ n H Hok) by (zlens; lia); cbn [mbind option_bind];
  apply (holds_skip (4 * n)) in H; [|zlens; lia].

Lemma short_at size offset need : 0 ≤ size - offset < 2 ^ 64 → need ≤ size - offset → short size offset need = false.
Proof. intros. unfold short. rewrite u64_small by done. by apply bool_decide_eq_false_2, Z.nlt_ge. Qed.

(** Parsing goes on at the offset where [H] has the next bytes. *)
Ltac go_on H :=
  lazymatch type of H with holds _ ?x _ => match goal with |- context [short _ ?y _] => replace y with x by lia end end;
  rewrite short_at; [|unfold PROTO_HEADER_SIZE; lia|unfold PROTO_HEADER_SIZE; lia].

(** Writing zeros over zeros. *)
Lemma splice_same r ptr xs ys : holds r ptr (xs ++ ys) → splice r ptr xs = Some r.
Proof.
  intros (pre & post & -> & ->). rewrite <- (assoc (++)). by rewrite (splice_app pre _ xs xs).
Qed.

(** A response is its base followed by its part. *)
Lemma lock_res_generate p e len type ks key l rest :
  (c ← lock_res_base p e len type ks key l; c ← run rest c; Some (c_buf c, c_bytes c))
  = generate p e (u32 (PROTO_DEGRADED_LOCK_RES_BASE_SIZE + ks + large_size l + len)) None 0 false
      ([write1Byte type; write1Byte ks; write1Byte (b2i l); write key (ks + large_size l)] ++ rest).
Proof.
  unfold lock_res_base, generate. destruct (generateHeader _ _ _ _ _ _ _ _ _ _) as [[b n]|]; [|done].
  cbn [mbind option_bind]. rewrite run_app_eq. by destruct (run [_; _; _; _] _).
Qed.

Section roundtrips.
Context (chunkSize dataChunkId dataChunkCount : Z) (before : list byte) (p : Protocol) (e : envelope) (q : Protocol) (ts : Z).
Hypothesis (Hp : protocol_ok p) (He : envelope_ok e) (Hq : to q = e_to e) (Hts : 0 ≤ ts < 2 ^ 32).

Definition roundtrip (m : degraded_message) : Prop :=
  degraded_ok chunkSize (e_opcode e) before m → degraded_size m < 2 ^ 32 →
  PROTO_HEADER_SIZE + degraded_size m ≤ zlen (buffer_send p) →
  arrives (generate_degraded chunkSize dataChunkId dataChunkCount before p e ts m) q
    (header_of p e (degraded_size m) (degraded_timestamp ts m) (degraded_isLarge m))
    (parse_degraded chunkSize q (degraded_kind_of (e_opcode e) m)) (received dataChunkId dataChunkCount m).

Ltac start := intros Hok Hn Hl; cbn [degraded_ok] in Hok;
  cbn [generate_degraded degraded_size degraded_timestamp degraded_isLarge degraded_kind_of received] in Hn, Hl |- *.
Ltac parse r H f := intros r H; unfold parse_degraded, then_read; rewrite ?pick_recv_some by lia; cbn [fst]; unfold f;
  rewrite ?pick_recv_some by lia; rewrite <- ?(assoc (++)) in H.
Ltac generated := eapply generate_arrives; [done..|emit|zlens; dsizes; lia|dsizes; try done; try lia|done|done|done|]; dsizes.

Lemma roundtrip_release_res n : roundtrip (DReleaseRes n).
Proof using Hp He Hq Hts.
  start. unfold generateDegradedReleaseResHeader. generated. parse r Hr parseDegradedReleaseResHeader. dfits. by read_field Hr.
Qed.

Lemma roundtrip_list_stripe_key l c k : roundtrip (DListStripeKey l c k).
Proof using Hp He Hq Hts.
  start. destruct Hok as (? & ? & Hk). pose proof Hk as [? ?]. pose proof (large_size_range (isLarge k)).
  unfold generateListStripeKeyHeader. generated. parse r Hr parseListStripeKeyHeader. dfits. do 3 read_field Hr. dfits.
  cbn [mbind option_bind lk_listId lk_chunkId lk_keySize lk_key].
  take_bytes Hr (size k + large_size (isLarge k)). by destruct k.
Qed.

Lemma roundtrip_remap_lock o w k : roundtrip (DRemapLock o w k).
Proof using Hp He Hq Hts.
  start. destruct Hok as ((Ho & Hw & Hlw & Hlo & ?) & Hk). pose proof Hk as [? ?]. pose proof (large_size_range (isLarge k)).
  pose proof (zlen_nonneg o). unfold generateRemappingLockHeader.
  generated; [rewrite u32_small; lia|]. parse r Hr parseRemappingLockHeader. dfits. do 3 read_field Hr.
  rewrite !i2b_b2i, (u32_small (_ * 4 * 4)), (u32_small (_ * 2)) by lia. dfits.
  convert Hr Ho Hw r' Hr'.
  cbn [mbind option_bind rl_key rl_keySize rl_isLarge rl_original rl_remapped rl_remappedCount].
  take_bytes Hr' (size k + large_size (isLarge k)). rewrite Z.add_assoc in Hr'.
  take_array Hr' Ho (2 * half o). take_array Hr' Hw (2 * half o). by destruct k.
Qed.

Lemma roundtrip_lock_req o w k : roundtrip (DLockReq o w k).
Proof using Hp He Hq Hts.
  start. destruct Hok as ((Ho & Hw & Hlw & Hlo & ?) & Hk). pose proof Hk as [? Hkl].
  pose proof (zlen_nonneg o). unfold generateDegradedLockReqHeader. dsizes.
  destruct k as [ks d l]. cbn [size data isLarge] in *.
  assert (zlen (if negb l then be_bytes 3 0 else []) = 3 - large_size l) by (by destruct l).
  pose proof (large_size_range l).
  pose proof (emits_key _ Hk) as Hd. cbn [size data isLarge] in Hd.
  generated; [rewrite u32_small; lia|]. parse r Hr parseDegradedLockReqHeader. dfits. do 3 read_field Hr.
  rewrite !i2b_b2i, (u32_small (_ * 4 * 4)), (u32_small (_ * 2)) by lia. dfits.
  assert ((if l then Some r else splice r (PROTO_HEADER_SIZE + 4 + 1 + 1 + ks) (replicate 3 x00)) = Some r) as ->.
  { destruct l; [done|]. apply (holds_skip ks) in Hr; [|unfold large_size in Hkl; lia].
    change (be_bytes 3 0) with (replicate 3 x00) in Hr. by apply splice_same in Hr. }
  cbn [mbind option_bind]. rewrite (app_assoc d) in Hr.
  convert Hr Ho Hw r' Hr'. rewrite <- (app_assoc d) in Hr'.
  cbn [mbind option_bind lq_key lq_keySize lq_isLarge lq_original lq_reconstructed lq_reconstructedCount].
  take_bytes Hr' (ks + large_size l). apply (holds_skip (3 - large_size l)) in Hr'; [|lia].
  take_array Hr' Ho (2 * half o). by take_array Hr' Hw (2 * half o).
Qed.

Ltac lock_res := intros r Hr; unfold parse_degraded, then_read, parseDegradedLockResHeader;
  rewrite ?pick_recv_some by lia; cbv beta iota; rewrite <- ?(assoc (++)) in Hr;
  unfold parseDegradedLockResHeader_base; dfits; do 3 read_field Hr; dfits; rewrite i2b_b2i; cbn [mbind option_bind].

Lemma roundtrip_not b k : roundtrip (DNot b k).
Proof using Hp He Hq Hts.
  start. pose proof Hok as [? ?]. pose proof (large_size_range (isLarge k)). unfold generateDegradedLockResHeader_not.
  change (Some (c_buf ?c, c_bytes ?c)) with (c' ← run [] c; Some (c_buf c', c_bytes c')).
  rewrite lock_res_generate. cbn [app]. dsizes.
  assert (0 ≤ (if b then PROTO_DEGRADED_LOCK_RES_NOT_LOCKED else PROTO_DEGRADED_LOCK_RES_NOT_EXIST) < 256) by (by destruct b).
  generated; [rewrite u32_small; lia|]. lock_res.
  rewrite decide_False by (destruct b; intros [|]; discriminate). rewrite decide_True by (destruct b; tauto).
  cbn [mbind option_bind lr_key lr_keySize lr_isLarge lr_result lr_type].
  take_bytes Hr (size k + large_size (isLarge k)). by destruct b, k.
Qed.

Lemma roundtrip_remapped k o w : roundtrip (DRemapped k o w).
Proof using Hp He Hq Hts.
  start. destruct Hok as ((Ho & Hw & Hlw & Hlo & ?) & Hk). pose proof Hk as [? ?]. pose proof (large_size_range (isLarge k)).
  pose proof (zlen_nonneg o). unfold generateDegradedLockResHeader_remapped. rewrite lock_res_generate. cbn [app]. dsizes.
  rewrite (u32_small (4 + _)) by lia.
  assert (0 ≤ PROTO_DEGRADED_LOCK_RES_REMAPPED < 256) by done.
  generated; [rewrite u32_small; lia|]. lock_res.
  rewrite decide_False by (intros [|]; discriminate). rewrite decide_False by (intros [|]; discriminate).
  rewrite decide_True by done. unfold parseDegradedLockResHeader_remapped. dsizes.
  pose proof Hr as Hkey. apply (holds_skip (size k + large_size (isLarge k))) in Hr; [|lia]. go_on Hr. read_field Hr.
  rewrite (u32_small (_ * 2)) by lia.
  change (be_bytes 4 (half o) ++ ?l) with (be_bytes 4 (half o) ++ l) in Hkey.
  rewrite (app_assoc (data k)) in Hkey. convert Hkey Ho Hw r' Hr'.
  cbn [option_map mbind option_bind lr_key lr_keySize lr_isLarge lr_result rp_original rp_remapped rp_remappedCount].
  rewrite <- (app_assoc (data k)) in Hr'. take_bytes Hr' (size k + large_size (isLarge k)).
  apply (holds_skip 4) in Hr'; [|by zlens].
  take_array Hr' Ho (2 * half o). take_array Hr' Hw (2 * half o). by destruct k.
Qed.

Lemma roundtrip_locked b k d : roundtrip (DLocked b k d).
Proof using Hp He Hq Hts.
  start. destruct Hok as (((Ho & Hw & Hlw & Hlo & ?) & Hc & Hsn & ? & Hs & ? & ?) & Hk). pose proof Hk as [? ?].
  pose proof (large_size_range (isLarge k)). pose proof (zlen_nonneg (di_original d)). pose proof (zlen_nonneg (di_survivingChunkIds d)).
  unfold generateDegradedLockResHeader_locked. unfold info_size in *. rewrite Hsn, Hc.
  set (rel := related dataChunkId dataChunkCount). set (n := half (di_original d)) in *.
  destruct (sorted_pairs_ok rel (di_original d) (di_original d) n) as (Lo & Oo & Wo); [done..|].
  destruct (sorted_pairs_ok rel (di_original d) (di_reconstructed d) n) as (Lw & Ow & Ww); [lia..|done|].
  pose proof (zlen_words (sorted_pairs rel (di_original d) (di_original d))) as Zo. rewrite <- Wo in Zo.
  pose proof (zlen_words (sorted_pairs rel (di_original d) (di_reconstructed d))) as Zw. rewrite <- Ww in Zw.
  rewrite !zlen_app in Zo, Zw.
  pose proof (emits_some_pairs rel (di_original d) (di_original d) n Hlo Hlo) as E1.
  pose proof (emits_some_pairs (λ i, negb (rel i)) (di_original d) (di_original d) n Hlo Hlo) as E2.
  pose proof (emits_some_pairs rel (di_original d) (di_reconstructed d) n Hlo ltac:(lia)) as E3.
  pose proof (emits_some_pairs (λ i, negb (rel i)) (di_original d) (di_reconstructed d) n Hlo ltac:(lia)) as E4.
  rewrite lock_res_generate. cbn [app]. dsizes. rewrite (u32_small (14 + _ + _)) by lia.
  assert (0 ≤ (if b then PROTO_DEGRADED_LOCK_RES_IS_LOCKED else PROTO_DEGRADED_LOCK_RES_WAS_LOCKED) < 256) by (by destruct b).
  eapply generate_arrives; [done..|emit| |rewrite u32_small; lia|lia|done|done|].
  { rewrite !zlen_app. autorewrite with zlen in Zo, Zw |- *. lia. }
  lock_res. rewrite decide_True by (destruct b; tauto).
  unfold parseDegradedLockResHeader_locked. dsizes.
  pose proof Hr as Hkey. apply (holds_skip (size k + large_size (isLarge k))) in Hr; [|lia]. go_on Hr. do 5 read_field Hr.
  rewrite (u32_small (_ * 2)) by lia.
  rewrite (app_assoc (words (some_pairs rel (di_original d) (di_original d)))), Wo in Hkey.
  rewrite (app_assoc (words (some_pairs rel (di_original d) (di_reconstructed d)))), Ww in Hkey.
  set (front := data k ++ [z2b (b2i (di_isSealed d))] ++ be_bytes 4 (di_stripeId d) ++ be_bytes 4 n ++
    be_bytes 4 (di_ongoingAtChunk d) ++ [z2b (zlen (di_survivingChunkIds d))]).
  assert (Hf : zlen front = size k + large_size (isLarge k) + 14) by (unfold front; zlens; lia).
  assert (Hall : holds r (PROTO_HEADER_SIZE + 1 + 1 + 1) (front ++ words (di_survivingChunkIds d) ++
    words (sorted_pairs rel (di_original d) (di_original d)) ++ words (sorted_pairs rel (di_original d) (di_reconstructed d)) ++ [])).
  { unfold front. rewrite <- !(assoc (++)). exact Hkey. }
  clear Hkey Hr. convert_one Hall Hs r1 Hr1. rewrite app_assoc in Hr1. convert Hr1 Oo Ow r2 Hr2.
  rewrite <- app_assoc in Hr2. pose proof Hr2 as Hkey. unfold front in Hkey. rewrite <- !(assoc (++)) in Hkey.
  apply (holds_skip (size k + large_size (isLarge k) + 14)) in Hr2; [|done].
  cbn [option_map mbind option_bind lr_key lr_keySize lr_isLarge lr_result lr_type].
  take_bytes Hkey (size k + large_size (isLarge k)).
  cbn [lp_original lp_reconstructed lp_reconstructedCount lp_survivingChunkIds lp_numSurvivingChunkIds lp_isSealed
    lp_stripeId lp_ongoingAtChunk].
  take_array Hr2 Hs (zlen (di_survivingChunkIds d)). take_array Hr2 Oo (2 * n). take_array Hr2 Ow (2 * n).
  rewrite i2b_b2i. destruct d, b, k; cbn in *; by subst.
Qed.

(** *** Degraded requests *)
Definition info_bytes (d : DegradedInfo) (l : bool) : list byte :=
  [z2b (b2i l)] ++ [z2b (b2i (di_isSealed d))] ++ be_bytes 4 (di_stripeId d) ++ be_bytes 4 (di_reconstructedCount d) ++
  be_bytes 4 (di_ongoingAtChunk d) ++ [z2b (di_numSurvivingChunkIds d)].
Definition info_arrays (f : list Z → list byte) (d : DegradedInfo) : list byte :=
  f (di_survivingChunkIds d) ++ f (di_original d) ++ f (di_reconstructed d).

Lemma emits_info d l ws body : info_ok d → emits (run ws) body →
  emits (run (write_degraded_info d l ++ ws)) ((info_bytes d l ++ info_arrays words d) ++ body).
Proof using.
  clear. intros ((Ho & Hw & Hlw & Hlo & ?) & Hc & Hsn & _) Hb. apply run_app; [|done].
  assert (E : emits (run (write_degraded_info d l)) ([z2b (b2i l)] ++ [z2b (b2i (di_isSealed d))] ++ be_bytes 4 (di_stripeId d) ++
    be_bytes 4 (di_reconstructedCount d) ++ be_bytes 4 (di_ongoingAtChunk d) ++ [z2b (di_numSurvivingChunkIds d)] ++
    words (di_survivingChunkIds d) ++ words (di_original d) ++ words (di_reconstructed d) ++ [])).
  { unfold write_degraded_info. rewrite Hc. emit. }
  rewrite app_nil_r in E. unfold info_bytes, info_arrays. by rewrite <- !(assoc (++)).
Qed.

Lemma zlen_info f d l : (∀ ws, zlen (f ws) = 4 * zlen ws) → info_ok d → zlen (info_bytes d l ++ info_arrays f d) = 15 + info_size d.
Proof using. clear. intros Hf ((_ & _ & Hlw & _) & _). unfold info_bytes, info_arrays, info_size. zlens. rewrite !Hf. lia. Qed.

Lemma parse_info r sz d l tail : info_ok d →
  holds r PROTO_HEADER_SIZE ((info_bytes d l ++ info_arrays words d) ++ tail) →
  15 + info_size d ≤ sz - PROTO_HEADER_SIZE < 2 ^ 64 →
  ∃ r', parseDegradedReqHeader_base sz PROTO_HEADER_SIZE r
    = Some (Some (MkDegradedReqHeader l (di_isSealed d) (di_stripeId d) (di_reconstructedCount d)
        (PROTO_HEADER_SIZE + 15 + zlen (di_survivingChunkIds d) * 4)
        (PROTO_HEADER_SIZE + 15 + zlen (di_survivingChunkIds d) * 4 + 4 * zlen (di_original d))
        (di_ongoingAtChunk d) (di_numSurvivingChunkIds d) (PROTO_HEADER_SIZE + 15),
        di_numSurvivingChunkIds d, di_reconstructedCount d, l, r')) ∧
    holds r' PROTO_HEADER_SIZE (info_bytes d l ++ info_arrays host_words d ++ tail).
Proof using.
  clear. intros ((Ho & Hw & Hlw & Hlo & ?) & Hc & Hsn & ? & Hs & ? & ?) Hr Hsz.
  pose proof (zlen_nonneg (di_original d)). pose proof (zlen_nonneg (di_survivingChunkIds d)).
  unfold info_size in Hsz. rewrite <- (app_assoc (info_bytes d l)) in Hr. pose proof Hr as Hall.
  unfold info_bytes in Hr. rewrite <- !(assoc (++)) in Hr. unfold info_arrays in Hall. rewrite <- !(assoc (++)) in Hall.
  unfold parseDegradedReqHeader_base. dsizes. rewrite short_at by lia. do 6 read_field Hr.
  assert (Hf : zlen (info_bytes d l) = 15) by (unfold info_bytes; by zlens).
  rewrite (u32_small (_ * 2)) by lia.
  convert_one Hall Hs r1 Hr1. rewrite app_assoc in Hr1. convert Hr1 Ho Hw r2 Hr2.
  rewrite <- app_assoc in Hr2. exists r2. split; [|unfold info_arrays; by rewrite <- !(assoc (++))].
  rewrite !i2b_b2i, Hsn, Hc. repeat f_equal; lia.
Qed.

(** Reading the arrays of a request that was parsed. *)
Ltac take_info Hr d := unfold info_arrays in Hr; rewrite <- !(assoc (++)) in Hr;
  apply (holds_skip 15) in Hr; [|unfold info_bytes; by zlens].

Lemma roundtrip_req_key d k : roundtrip (DReqKey d k).
Proof using Hp He Hq Hts.
  start. destruct Hok as (Hd & Hk & Hop). pose proof Hk as [? ?]. pose proof (large_size_range (isLarge k)).
  pose proof Hd as ((Ho & Hw & Hlw & Hlo & ?) & Hc & Hsn & ? & Hs & ? & ?).
  pose proof (zlen_nonneg (di_original d)). pose proof (zlen_nonneg (di_survivingChunkIds d)).
  unfold generateDegradedReqHeader_key.
  pose proof (zlen_info words d (isLarge k) zlen_words Hd) as Hz. pose proof (emits_info d (isLarge k)) as Hinfo.
  eapply generate_arrives; [done..|apply Hinfo; [done|emit]| | |dsizes; lia|done|done|].
  { rewrite zlen_app, Hz. zlens. dsizes. lia. }
  { unfold info_size in *. dsizes. rewrite u32_small; lia. }
  intros r Hr. rewrite <- (app_assoc (info_bytes d _ ++ _)) in Hr. dsizes.
  destruct (parse_info r (PROTO_HEADER_SIZE + (15 + info_size d + 1 + (size k + large_size (isLarge k)))) d (isLarge k) _ Hd Hr)
    as (r' & Hparse & Hr'); [unfold info_size in *; lia|].
  unfold parse_degraded, then_read, parseDegradedReqHeader. rewrite pick_recv_some by (unfold info_size; lia). cbv beta iota.
  rewrite Hparse. cbn [mbind option_bind]. rewrite decide_True by done. unfold parseKeyHeader.
  rewrite pick_recv_some by (unfold info_size; lia). cbv beta iota. pose proof Hr' as Hkey.
  rewrite (app_assoc (info_bytes d _)) in Hkey.
  apply (holds_skip (15 + info_size d)) in Hkey; [|by rewrite (zlen_info _ _ _ zlen_host_words Hd)].
  unfold info_size in *. rewrite ?Hsn, ?Hc in Hkey |- *. dsizes. rewrite u32_small by lia. go_on Hkey.
  rewrite <- ?(app_assoc [_]) in Hkey. read_field Hkey. rewrite short_at by (unfold PROTO_HEADER_SIZE; lia).
  cbn [option_map mbind option_bind dr_original dr_reconstructed dr_survivingChunkIds dr_reconstructedCount dr_numSurvivingChunkIds
    dr_data dr_isLarge dr_isSealed dr_stripeId dr_ongoingAtChunk kh_key kh_keySize].
  take_info Hr' d. rewrite Hsn, Hc.
  take_array Hr' Hs (zlen (di_survivingChunkIds d)). take_array Hr' Ho (2 * half (di_original d)).
  take_array Hr' Hw (2 * half (di_original d)). take_bytes Hkey (size k + large_size (isLarge k)).
  rewrite app_nil_r. destruct d, k; cbn in *; by subst.
Qed.
Lemma roundtrip_req_update d k vo u : roundtrip (DReqUpdate d k vo u).
Proof using Hp He Hq Hts.
  start. destruct Hok as (Hd & Hk & Hop & ? & ?). pose proof Hk as [? ?]. pose proof (large_size_range (isLarge k)).
  pose proof Hd as ((Ho & Hw & Hlw & Hlo & ?) & Hc & Hsn & ? & Hs & ? & ?).
  pose proof (zlen_nonneg (di_original d)). pose proof (zlen_nonneg (di_survivingChunkIds d)).
  unfold generateDegradedReqHeader_update.
  pose proof (zlen_info words d (isLarge k) zlen_words Hd) as Hz. pose proof (emits_info d (isLarge k)) as Hinfo.
  eapply generate_arrives; [done..|apply Hinfo; [done|emit]| | |dsizes; lia|done|done|].
  { rewrite zlen_app, Hz. zlens. dsizes. lia. }
  { unfold info_size in *. dsizes. rewrite u32_small; lia. }
  intros r Hr. rewrite <- (app_assoc (info_bytes d _ ++ _)), app_nil_r in Hr. dsizes.
  destruct (parse_info r (PROTO_HEADER_SIZE + (15 + info_size d + 7 + (size k + large_size (isLarge k)) + zlen u)) d
    (isLarge k) _ Hd Hr) as (r' & Hparse & Hr'); [unfold info_size in *; lia|].
  unfold parse_degraded, then_read, parseDegradedReqHeader. rewrite pick_recv_some by (unfold info_size; lia). cbv beta iota.
  rewrite Hparse. cbn [mbind option_bind]. rewrite Hop.
  rewrite decide_False by (intros [|]; discriminate). rewrite decide_True by done. unfold parseKeyValueUpdateHeader.
  rewrite pick_recv_some by (unfold info_size; lia). cbv beta iota. pose proof Hr' as Hkey.
  rewrite (app_assoc (info_bytes d _)) in Hkey.
  apply (holds_skip (15 + info_size d)) in Hkey; [|by rewrite (zlen_info _ _ _ zlen_host_words Hd)].
  unfold info_size in *. rewrite ?Hsn, ?Hc in Hkey |- *. dsizes. rewrite u32_small by lia. go_on Hkey.
  rewrite <- ?(assoc (++)) in Hkey. do 3 read_field Hkey. rewrite short_at by (unfold PROTO_HEADER_SIZE; lia).
  rewrite bool_decide_eq_true_2 by lia.
  cbn [andb option_map mbind option_bind dr_original dr_reconstructed dr_survivingChunkIds dr_reconstructedCount
    dr_numSurvivingChunkIds dr_data dr_isLarge dr_isSealed dr_stripeId dr_ongoingAtChunk].
  take_info Hr' d. rewrite Hsn, Hc.
  take_array Hr' Hs (zlen (di_survivingChunkIds d)). take_array Hr' Ho (2 * half (di_original d)).
  take_array Hr' Hw (2 * half (di_original d)).
  assert (Hsh : ∀ a b c x y, shift_update (isLarge k) (MkKeyValueUpdateHeader a b c x (Some y))
    = MkKeyValueUpdateHeader a b c x (Some (y + large_size (isLarge k)))).
  { clear. intros. unfold shift_update. destruct (isLarge k); cbn; [done|]. by rewrite Z.add_0_r. }
  rewrite Hsh. cbn [ku_key ku_keySize ku_valueUpdate ku_valueUpdateSize ku_valueUpdateOffset opt_bytes].
  take_bytes Hkey (size k + large_size (isLarge k)). rewrite Z.add_assoc in Hkey.
  take_bytes Hkey (zlen u).
  destruct d, k; cbn in *; by subst.
Qed.
Lemma roundtrip_forward_req op m key value u : roundtrip (DForwardReq op m key value u).
Proof using Hp He Hq Hts.
  start. destruct Hok as (? & Hm & ? & ? & Hu). pose proof (zlen_nonneg key). pose proof (zlen_nonneg value).
  unfold generateForwardKeyReqHeader. destruct u as [[vo d]|].
  - destruct Hu as (-> & ? & ?). pose proof (zlen_nonneg d). rewrite bool_decide_eq_true_2 by done. cbn [from_option id fst snd app].
    generated; [rewrite u32_small; lia|]. parse r Hr parseForwardKeyReqHeader. dfits. read_field Hr.
    rewrite (proj1 (read_metadata_holds _ _ _ _ Hm Hr)). cbn [mbind option_bind].
    apply read_metadata_holds in Hr as [_ Hr]; [|done]. do 2 read_field Hr. dfits. rewrite decide_True by done. dfits.
    pose proof Hr as Hkey. apply (holds_skip (zlen key)) in Hr; [|done]. apply (holds_skip (zlen value)) in Hr; [|done].
    rewrite <- (Z.add_assoc _ (zlen key)) in Hr. do 2 read_field Hr. dfits.
    cbn [mbind option_bind fk_key fk_keySize fk_value fk_valueSize fk_update fu_valueUpdate fu_valueUpdateSize
      fu_valueUpdateOffset fk_opcode fk_metadata opt_bytes].
    take_bytes Hkey (zlen key). take_bytes Hkey (zlen value). by take_bytes Hr (zlen d).
  - rewrite bool_decide_eq_false_2 by done. cbn [from_option id fst snd app].
    generated; [rewrite u32_small; lia|]. parse r Hr parseForwardKeyReqHeader. dfits. read_field Hr.
    rewrite (proj1 (read_metadata_holds _ _ _ _ Hm Hr)). cbn [mbind option_bind].
    apply read_metadata_holds in Hr as [_ Hr]; [|done]. do 2 read_field Hr. dfits. rewrite decide_False by done.
    cbn [mbind option_bind fk_key fk_keySize fk_value fk_valueSize fk_update fk_opcode fk_metadata opt_bytes].
    take_bytes Hr (zlen key). by take_bytes Hr (zlen value).
Qed.

Lemma roundtrip_forward_res op m key vs u : roundtrip (DForwardRes op m key vs u).
Proof using Hp He Hq Hts.
  start. destruct Hok as (? & Hm & ? & ? & Hu). pose proof (zlen_nonneg key).
  unfold generateForwardKeyResHeader. destruct u as [[us uo]|].
  - destruct Hu as (-> & ? & ?). rewrite bool_decide_eq_true_2 by done. cbn [from_option id fst snd app].
    generated. parse r Hr parseForwardKeyResHeader. dfits. read_field Hr.
    rewrite (proj1 (read_metadata_holds _ _ _ _ Hm Hr)). cbn [mbind option_bind].
    apply read_metadata_holds in Hr as [_ Hr]; [|done]. do 2 read_field Hr. dfits. rewrite decide_True by done. dfits.
    pose proof Hr as Hkey. apply (holds_skip (zlen key)) in Hr; [|done]. do 2 read_field Hr.
    cbn [mbind option_bind option_map fk_key fk_keySize fk_valueSize fk_update fu_valueUpdateSize
      fu_valueUpdateOffset fk_opcode fk_metadata].
    by take_bytes Hkey (zlen key).
  - rewrite bool_decide_eq_false_2 by done. cbn [from_option id fst snd app].
    generated. parse r Hr parseForwardKeyResHeader. dfits. read_field Hr.
    rewrite (proj1 (read_metadata_holds _ _ _ _ Hm Hr)). cbn [mbind option_bind].
    apply read_metadata_holds in Hr as [_ Hr]; [|done]. do 2 read_field Hr. dfits. rewrite decide_False by done.
    cbn [mbind option_bind option_map fk_key fk_keySize fk_valueSize fk_update fk_opcode fk_metadata].
    by take_bytes Hr (zlen key).
Qed.
(** The arrays of a degraded SET are left out when they are empty. *)
Lemma emits_some_words l n : zlen l = 2 * n → zlen l < 2 ^ 24 →
  emits (when (bool_decide (n ≠ 0)) (write_words l (u32 (n * 2)))) (words l).
Proof using.
  clear. intros Hn ?. pose proof (zlen_nonneg l). rewrite u32_small by lia.
  destruct (decide (n = 0)) as [->|]; [rewrite bool_decide_eq_false_2 by (by intros [])|rewrite bool_decide_eq_true_2 by done].
  - destruct l; [apply emits_nil|]. zlens. pose proof (zlen_nonneg l). lia.
  - apply emits_words_all. lia.
Qed.

(** What the parser gives for the two arrays behind the value. *)
Lemma set_arrays r ptr xs o w a (f : option Z → option Z → DegradedSetHeader) :
  pairs_ok o w → holds r ptr (xs ++ words o ++ words w ++ []) → a = ptr + zlen xs →
  ∃ r' a1 a2,
    (if decide (half o ≠ 0) then
       buf ← ntohl_both a (a + 4 * u32 (half o * 2)) (u32 (half o * 2)) r;
       Some (Some (f (Some a) (Some (a + 4 * u32 (half o * 2))), buf))
     else Some (Some (f None None, r))) = Some (Some (f a1 a2, r')) ∧
    holds r' ptr (xs ++ host_words o ++ host_words w) ∧
    (match a1 with Some a => word_array r' a (2 * half o) | None => Some [] end) = Some o ∧
    (match a2 with Some a => word_array r' a (2 * half o) | None => Some [] end) = Some w.
Proof using.
  clear. intros (Ho & Hw & Hlw & Hlo & ?) Hr ->. pose proof (zlen_nonneg o).
  destruct (decide (half o ≠ 0)) as [Hz|Hz].
  - rewrite u32_small by lia. convert Hr Ho Hw r' Hr'. rewrite app_nil_r in Hr'.
    eexists r', (Some _), (Some _). split; [done|]. split; [done|]. rewrite <- (app_nil_r (host_words w)) in Hr'.
    apply (holds_skip (zlen xs)) in Hr'; [|done].
    split; [by apply (word_array_holds _ _ _ _ _ Hr'); [|lia]|].
    apply (holds_skip (4 * (half o * 2))) in Hr'; [|zlens; lia]. apply (word_array_holds _ _ _ _ _ Hr'); [done|lia].
  - destruct o; [|zlens; pose proof (zlen_nonneg o); lia]. destruct w; [|zlens; pose proof (zlen_nonneg w); lia].
    eexists r, None, None. by split.
Qed.

Lemma roundtrip_set l c o w key value : roundtrip (DSet l c o w key value).
Proof using Hp He Hq Hts.
  start. destruct Hok as (Hpairs & ? & ? & Hsz & Hsmall). pose proof Hsz as (? & ? & ?).
  pose proof Hpairs as (Ho & Hw & Hlw & Hlo & ?). pose proof (zlen_nonneg o). pose proof (zlen_nonneg key). pose proof (zlen_nonneg value).
  pose proof (emits_some_words o (half o) Hlo ltac:(lia)) as Eo.
  pose proof (emits_some_words w (half o) ltac:(lia) ltac:(lia)) as Ew.
  unfold generateDegradedSetHeader. rewrite bool_decide_eq_true_2 by (by left). cbn [app negb].
  eapply generate_last_arrives; [done..|emit|zlens; dsizes; lia|dsizes; lia|done|done|]. dsizes.
  parse r Hr parseDegradedSetHeader. dfits. do 6 read_field Hr.
  destruct (LargeObjectUtil.isLarge_cases chunkSize _ _ Hsz) as [[? _]|[_ Hsi]]; [unfold KEY_VALUE_METADATA_SIZE in *; lia|].
  unfold LargeObject_isLarge in *. rewrite Hsi.
  cbn [fmap option_fmap option_map mbind option_bind LargeObjectUtil.si_large LargeObjectUtil.si_size].
  rewrite (u32_small (17 + _ + _ + _)) by lia. dfits. cbn [mbind option_bind].
  rewrite (app_assoc key) in Hr.
  destruct (set_arrays r _ (key ++ value) o w _ (MkDegradedSetHeader l c (half o) (zlen key) (zlen value) (i2b (b2i false))
    (PROTO_HEADER_SIZE + 4 + 4 + 4 + 1 + 3 + 1) 0 (PROTO_HEADER_SIZE + 4 + 4 + 4 + 1 + 3 + 1 + zlen key)) Hpairs Hr eq_refl)
    as (r' & a1 & a2 & Ha & Hr' & Ha1 & Ha2).
  rewrite zlen_app, Z.add_assoc in Ha. rewrite Ha. rewrite <- (app_assoc key) in Hr'.
  cbn [mbind option_bind ds_key ds_keySize ds_original ds_remapped ds_remappedCount ds_valueSize ds_value ds_splitOffset
    ds_listId ds_chunkId].
  take_bytes Hr' (zlen key). rewrite Ha1, Ha2. cbn [mbind option_bind]. rewrite Hsi.
  cbn [mbind option_bind LargeObjectUtil.si_large]. by take_bytes Hr' (zlen value).
Qed.
Lemma roundtrip_set_split l c o w key vs so split : roundtrip (DSplit l c o w key vs so split).
Proof using Hp He Hq Hts.
  start. destruct Hok as (Hpairs & ? & ? & Hsz & Hlarge & Hso & Hbefore & Hlen). pose proof Hsz as (? & ? & ?).
  pose proof Hpairs as (Ho & Hw & Hlw & Hlo & ?). pose proof (zlen_nonneg o). pose proof (zlen_nonneg key). pose proof (zlen_nonneg split).
  destruct (LargeObjectUtil.splitSize_small chunkSize _ _ Hsz) as [Hss Hpos].
  destruct (LargeObjectUtil.isLarge_cases chunkSize _ _ Hsz) as [[_ Hsi]|[? _]]; [|lia]. rewrite Hsi.
  cbn [LargeObjectUtil.si_size]. unfold KEY_VALUE_METADATA_SIZE in *. unfold SPLIT_OFFSET_SIZE in *.
  pose proof Hlen as Hmin. rewrite LargeObjectUtil.clampSplit_eq in Hmin by lia.
  pose proof (emits_some_words o (half o) Hlo ltac:(lia)) as Eo.
  pose proof (emits_some_words w (half o) ltac:(lia) ltac:(lia)) as Ew.
  unfold generateDegradedSetHeader. rewrite bool_decide_eq_false_2 by lia. rewrite <- Hlen.
  rewrite (drop_app_length' before) by (unfold zlen in Hbefore; lia). cbn [app negb].
  eapply generate_last_arrives; [done..|emit|zlens; dsizes; lia|dsizes; lia|done|done|]. dsizes.
  parse r Hr parseDegradedSetHeader. dfits. do 6 read_field Hr. unfold LargeObject_isLarge in *. rewrite Hsi.
  cbn [fmap option_fmap option_map mbind option_bind LargeObjectUtil.si_large LargeObjectUtil.si_size].
  pose proof Hr as Hall. apply (holds_skip (zlen key)) in Hr; [|done]. read_field Hr.
  dsizes. rewrite <- Hlen, (u32_small (17 + _ + _ + _ + _)) by lia. dfits. cbn [mbind option_bind]. clear Hr. change ([] ++ []) with (@nil byte) in Hall.
  rewrite (app_assoc (be_bytes 3 so)), (app_assoc key) in Hall.
  destruct (set_arrays r _ (key ++ be_bytes 3 so ++ split) o w _ (MkDegradedSetHeader l c (half o) (zlen key) vs (i2b (b2i true))
    (PROTO_HEADER_SIZE + 4 + 4 + 4 + 1 + 3 + 1) so (PROTO_HEADER_SIZE + 4 + 4 + 4 + 1 + 3 + 1 + zlen key + 3)) Hpairs Hall eq_refl)
    as (r' & a1 & a2 & Ha & Hr' & Ha1 & Ha2).
  rewrite !zlen_app, !Z.add_assoc in Ha. change (zlen (be_bytes 3 so)) with 3 in Ha. rewrite Ha.
  rewrite <- !(app_assoc key) in Hr'.
  cbn [mbind option_bind ds_key ds_keySize ds_original ds_remapped ds_remappedCount ds_valueSize ds_value ds_splitOffset
    ds_listId ds_chunkId].
  take_bytes Hr' (zlen key). rewrite Ha1, Ha2. cbn [mbind option_bind]. rewrite Hsi.
  cbn [mbind option_bind LargeObjectUtil.si_large LargeObjectUtil.si_size]. rewrite <- Hlen.
  rewrite <- (app_assoc (be_bytes 3 so)) in Hr'. apply (holds_skip 3) in Hr'; [|done]. by take_bytes Hr' (zlen split).
Qed.
End roundtrips.

(** ** Properties *)

(** C21: every message of remapping and of the degraded mode arrives.  Written
    into a send buffer that has room and received by the peer it is addressed
    to, its parser gives back all fields, the key, and, in the receive buffer
    the parser converts in place, every array of pairs and chunk ids; only the
    pairs of a degraded lock come in another order, those of the key's data
    chunk and of parity chunks first. *)
Theorem degraded_messages_arrive chunkSize dataChunkId dataChunkCount before p e q ts m :
  protocol_ok p → envelope_ok e → to q = e_to e → 0 ≤ ts < 2 ^ 32 →
  degraded_ok chunkSize (e_opcode e) before m → degraded_size m < 2 ^ 32 →
  PROTO_HEADER_SIZE + degraded_size m ≤ zlen (buffer_send p) →
  arrives (generate_degraded chunkSize dataChunkId dataChunkCount before p e ts m) q
    (header_of p e (degraded_size m) (degraded_timestamp ts m) (degraded_isLarge m))
    (parse_degraded chunkSize q (degraded_kind_of (e_opcode e) m)) (received dataChunkId dataChunkCount m).
Proof.
  intros Hp He Hq Hts. destruct m.
  - by apply roundtrip_remap_lock.
  - by apply roundtrip_set.
  - by apply roundtrip_set_split.
  - by apply roundtrip_lock_req.
  - by apply roundtrip_locked.
  - by apply roundtrip_not.
  - by apply roundtrip_remapped.
  - by apply roundtrip_req_key.
  - by apply roundtrip_req_update.
  - by apply roundtrip_forward_req.
  - by apply roundtrip_forward_res.
  - by apply roundtrip_list_stripe_key.
  - by apply roundtrip_release_res.
Qed.

(** *** Witnesses *)

(** Two pairs of a stripe with four data chunks, for a key in chunk 1: chunk 0
    is lost with chunk 4, a parity chunk, whose pair is sent first. *)
Lemma degraded_messages_arrive_witness :
  let p := MkProtocol (PROTO_MAGIC_FROM ROLE_COORDINATOR) (PROTO_MAGIC_TO ROLE_COORDINATOR) 128 (replicate 128 x00) [] in
  let q := Protocol_new ROLE_CLIENT in
  let e := Env PROTO_MAGIC_RESPONSE_SUCCESS (PROTO_MAGIC_TO ROLE_CLIENT) 0x11 7 99 in
  let d o w := MkDegradedInfo true 12 o w 2 0 3 [1; 2; 3] in
  let k := MkKey 2 [z2b 107; z2b 49] false in
  arrives (generate_degraded 4096 1 4 [] p e 0 (DLocked true k (d [5; 0; 5; 4] [6; 0; 7; 4]))) q (header_of p e 63 0 false)
    (parse_degraded 4096 q KLockRes) (DLocked true k (d [5; 4; 5; 0] [7; 4; 6; 0])).
Proof.
  intros p q e d k.
  apply (degraded_messages_arrive 4096 1 4 [] p e q 0 (DLocked true k (d [5; 0; 5; 4] [6; 0; 7; 4]))).
  - by exists ROLE_COORDINATOR.
  - split; [done|]. split; [by exists ROLE_CLIENT|]. split; [|done]. apply list_elem_of_In. cbn. tauto.
  - done.
  - done.
  - cbn. unfold info_ok, pairs_ok, words_ok, key_ok. cbn. repeat (done || constructor).
  - done.
  - done.
Defined.
