(* ===== verification/MessagesBatch.v ===== *)
(** * Messages that carry as many objects as fit (common/protocol/batch_protocol.cc,
    heartbeat_protocol.cc, fault_protocol.cc, recovery_protocol.cc, the release
    of degraded locks in degraded_protocol.cc, and chunk_protocol.cc:26-65,108-247)

    These generators walk over a container and write its objects behind a gap
    that the header and the counts fill in the end; they stop at the first
    object for which the send buffer has no room, take the objects written out
    of the container or advance the caller's iterator, and report through
    [isCompleted] whether any is left, so that the caller sends another message.

    A container is the list of its elements in the order of iteration, an
    iterator into it the list of the elements from it on.  [batch] collects the
    kinds; [batches_arrive] shows what one message carries and what it leaves,
    [batches_send_all] that repeating it sends everything. *)

From S2P Require Export MessagesDegraded.
From S2P Require Import ChunkUtil Mem.
Import Key.

(** ** Walking over a container *)

(** Writes objects while [need] more bytes fit into [size]; the result has
    those that are left. *)
Fixpoint fill {A : Type} (size : Z) (need : A → Z) (w : A → writer) (l : list A) (c : cursor) : option (list A * cursor) :=
  match l with
  | [] => Some ([], c)
  | a :: l' => if decide (c_bytes c + need a ≤ size) then c ← w a c; fill size need w l' c else Some (l, c)
  end.

(** [isCompleted]: the loop was not left early. *)
Definition completed {A : Type} (rest : list A) : bool := match rest with [] => true | _ => false end.

(** The number of objects written, a [uint32_t]. *)
Definition written {A : Type} (all rest : list A) : Z := u32 (zlen all - zlen rest).

(** Filling the gaps: [bs] goes to the index [p] of the buffer. *)
Fixpoint patch (ps : list (Z * list byte)) (buf : list byte) : option (list byte) :=
  match ps with [] => Some buf | (p, bs) :: ps => buf ← splice buf p bs; patch ps buf end.
Definition net4 (v : Z) : list byte := le_bytes 4 (htonl (u32 v)).

(** The gaps are filled and the header is written last, with the length of what
    was written behind it. *)
Definition finish (p : Protocol) (e : envelope) (ps : list (Z * list byte)) (c : cursor) : option (list byte * Z) :=
  buf ← patch ps (c_buf c);
  '(buf, _) ← generateHeader p (e_magic e) (e_to e) (e_opcode e) (u32 (c_bytes c - PROTO_HEADER_SIZE))
                (e_instanceId e) (e_requestId e) (Some buf) 0 false;
  Some (buf, c_bytes c).

(** [buf = this->buffer.send + PROTO_HEADER_SIZE], [bytes = PROTO_HEADER_SIZE]. *)
Definition behind_header (p : Protocol) : cursor := Cur (buffer_send p) PROTO_HEADER_SIZE PROTO_HEADER_SIZE.

Section batch_protocol.
Context (p : Protocol) (e : envelope).

(** ** Batches of chunks, keys and key-value pairs (batch_protocol.cc) *)
Definition PROTO_BATCH_CHUNK_SIZE : Z := 4.
Definition PROTO_BATCH_KEY_SIZE : Z := 4.
Definition PROTO_BATCH_KEY_VALUE_SIZE : Z := 4.

(** The vectors that are left, their number, and the message; both vectors are
    deleted when all was sent.  [at] throws when there are fewer identifiers. *)
Definition generateBatchChunkHeader (requestIds : list Z) (metadata : list Metadata) :
    option (list Z * list Metadata * bool * Z * (list byte * Z)) :=
  '(rest, c) ← fill (buffer_size p) (λ _, PROTO_CHUNK_SIZE + 4)
     (λ '(i, m) c, r ← zget requestIds (Z.of_nat i); c ← write4 r c; write_metadata m c)
     (imap pair metadata) (skip PROTO_BATCH_CHUNK_SIZE (behind_header p));
  let current := (length metadata - length rest)%nat in
  msg ← finish p e [(PROTO_HEADER_SIZE, net4 (Z.of_nat current))] c;
  Some (if completed rest then [] else drop current requestIds, if completed rest then [] else drop current metadata,
        completed rest, Z.of_nat current, msg).

Record BatchHeader := MkBatchHeader { bh_count : Z; bh_items : Z }.

Definition parseBatchChunkHeader (buf : option (list byte)) (size offset : Z) : option (option BatchHeader) :=
  let '(buf, size) := pick_recv p buf size in
  if short size offset PROTO_BATCH_CHUNK_SIZE then Some None else
  '(count, ptr) ← read4 buf offset; Some (Some (MkBatchHeader count ptr)).

(** The header's pointer is the index [bh_items] of [buf]; [parseChunkHeader] is
    called with it as the start of a message of [size] bytes. *)
Definition nextChunkInBatchChunkHeader (h : BatchHeader) (buf : list byte) (size offset : Z) :
    option (option (Z * Metadata) * Z) :=
  '(responseId, _) ← read4 buf (bh_items h + offset);
  let offset := u32 (offset + 4) in
  m ← parseChunkHeader p (Some (drop (Z.to_nat (bh_items h)) buf)) size offset;
  Some (option_map (pair responseId) m, u32 (offset + PROTO_CHUNK_SIZE)).

Definition write_short_key (k : Key) : writer := λ c, c ← write1Byte (size k) c; write (data k) (size k) c.

Definition generateBatchKeyHeader (it : list Key) : option (list Key * bool * Z * (list byte * Z)) :=
  '(rest, c) ← fill (buffer_size p) (λ k, PROTO_KEY_SIZE + size k) write_short_key it
     (skip PROTO_BATCH_KEY_SIZE (behind_header p));
  msg ← finish p e [(PROTO_HEADER_SIZE, net4 (written it rest))] c;
  Some (rest, completed rest, written it rest, msg).

Definition nextKeyInBatchKeyHeader (h : BatchHeader) (buf : list byte) (offset : Z) : option (Z * Z * Z) :=
  '(keySize, key) ← read1Byte buf (bh_items h + offset);
  Some (keySize, key, u32 (offset + (PROTO_KEY_SIZE + keySize))).

Definition parseBatchKeyHeader (buf : option (list byte)) (size offset : Z) : option (option BatchHeader) :=
  let '(buf, size) := pick_recv p buf size in
  if short size offset PROTO_BATCH_KEY_SIZE then Some None else
  '(count, ptr) ← read4 buf offset; Some (Some (MkBatchHeader count ptr)).

Definition parseBatchKeyValueHeader (buf : option (list byte)) (size offset : Z) : option (option BatchHeader) :=
  let '(buf, size) := pick_recv p buf size in
  if short size offset PROTO_BATCH_KEY_VALUE_SIZE then Some None else
  '(count, ptr) ← read4 buf offset; Some (Some (MkBatchHeader count ptr)).

(** Key size, value size, key, value, and the offset advanced. *)
Definition nextKeyValueInBatchKeyValueHeader (h : BatchHeader) (buf : list byte) (offset : Z) :
    option (Z * Z * Z * option Z * Z) :=
  '(keySize, ptr) ← read1Byte buf (bh_items h + offset);
  '(valueSize, key) ← read3 buf ptr;
  Some (keySize, valueSize, key, if decide (valueSize ≠ 0) then Some (key + keySize) else None,
        u32 (offset + (PROTO_KEY_VALUE_SIZE + keySize + valueSize))).

(** The keys of the pairs of a received batch: the response to it. *)
Definition generateBatchKeyHeader_response (h : BatchHeader) (recv : list byte) : option (list byte * Z) :=
  '(c, _) ← for_range 0 (bh_count h) (λ _ '(c, offset),
     '(keySize, _, keyStr, _, offset) ← nextKeyValueInBatchKeyValueHeader h recv offset;
     c ← write1Byte keySize c;
     c ← write (drop (Z.to_nat keyStr) recv) keySize c;
     Some (c, offset)) (skip PROTO_BATCH_KEY_SIZE (behind_header p), 0);
  finish p e [(PROTO_HEADER_SIZE, net4 (bh_count h))] c.

(** Keys that are not found are skipped. *)
Fixpoint fill_values (chunkSize : Z) (m : mem) (values : list (Key * ptr)) (it : list Key) (count : Z) (c : cursor) :
    option (list Key * Z * cursor) :=
  match it with
  | [] => Some ([], count, c)
  | key :: remaining =>
      match list_find (λ kv, kv.1 = key) values with
      | None => fill_values chunkSize m values remaining count c
      | Some (_, (_, data)) =>
          '(keyValueSize, _, _) ← KeyValue.getSize chunkSize m data;
          if decide (c_bytes c + keyValueSize ≤ buffer_size p) then
            xs ← load m data keyValueSize;
            c ← write xs keyValueSize c;
            fill_values chunkSize m values remaining (u32 (count + 1)) c
          else Some (it, count, c)
      end
  end.
Definition generateBatchKeyValueHeader (chunkSize : Z) (m : mem) (values : list (Key * ptr)) (it : list Key) :
    option (list Key * bool * Z * (list byte * Z)) :=
  '(rest, count, c) ← fill_values chunkSize m values it 0 (skip PROTO_BATCH_KEY_VALUE_SIZE (behind_header p));
  msg ← finish p e [(PROTO_HEADER_SIZE, net4 count)] c;
  Some (rest, completed rest, count, msg).

(** ** Heartbeats (heartbeat_protocol.cc) and metadata backups (fault_protocol.cc) *)
Definition PROTO_HEARTBEAT_SIZE : Z := 13.
Definition PROTO_METADATA_SIZE : Z := 12.
Definition PROTO_KEY_OP_METADATA_SIZE : Z := 19.
Record OpMetadata := MkOpMetadata { om_opcode : Z; om_metadata : Metadata; om_timestamp : Z }.

Definition write_op : Key * OpMetadata → writer := λ '(key, op),
  run [write1Byte (size key); write1Byte (om_opcode op); write4 (listId (om_metadata op)); write4 (stripeId (om_metadata op));
       write4 (chunkId (om_metadata op)); write4 (om_timestamp op); write1Byte (b2i (isLarge key));
       write (data key) (size key + large_size (isLarge key))].
Definition op_need : Key * OpMetadata → Z := λ '(key, _), PROTO_KEY_OP_METADATA_SIZE + size key + large_size (isLarge key).

(** The two containers that are left, [isCompleted], [sealedCount], [opsCount],
    and the message. *)
Definition generateHeartbeatMessage (timestamp : Z) (sealed : list Metadata) (ops : list (Key * OpMetadata)) :
    option (list Metadata * list (Key * OpMetadata) * bool * Z * Z * (list byte * Z)) :=
  '(sealed', c) ← fill (buffer_size p) (λ _, PROTO_METADATA_SIZE) write_metadata sealed
     (skip PROTO_HEARTBEAT_SIZE (behind_header p));
  '(ops', c) ← fill (buffer_size p) op_need write_op ops c;
  let isCompleted := completed sealed' && completed ops' in
  msg ← finish p e [(PROTO_HEADER_SIZE, net4 timestamp); (PROTO_HEADER_SIZE + 4, net4 (written sealed sealed'));
                    (PROTO_HEADER_SIZE + 8, net4 (written ops ops')); (PROTO_HEADER_SIZE + 12, [z2b (b2i isCompleted)])] c;
  Some (sealed', ops', isCompleted, written sealed sealed', written ops ops', msg).

Definition generateHeartbeatMessage_response (timestamp sealed keys : Z) (isLast : bool) : option (list byte * Z) :=
  generate p e PROTO_HEARTBEAT_SIZE None 0 false [write4 timestamp; write4 sealed; write4 keys; write1Byte (b2i isLast)].

Record HeartbeatHeader := MkHeartbeatHeader { hb_timestamp : Z; hb_sealed : Z; hb_keys : Z; hb_isLast : bool }.
Definition parseHeartbeatHeader (buf : option (list byte)) (size offset : Z) : option (option HeartbeatHeader) :=
  let '(buf, size) := pick_recv p buf size in
  if short size offset PROTO_HEARTBEAT_SIZE then Some None else
  '(timestamp, ptr) ← read4 buf offset;
  '(sealed, ptr) ← read4 buf ptr;
  '(keys, ptr) ← read4 buf ptr;
  '(isLast, ptr) ← read1Byte buf ptr;
  Some (Some (MkHeartbeatHeader timestamp sealed keys (i2b isLast))).

(** With the variable [bytes], which a message that is too short leaves as it is
    ([None]). *)
Definition parseMetadataHeader (buf : option (list byte)) (size offset : Z) : option (option Metadata * option Z) :=
  let '(buf, size) := pick_recv p buf size in
  if short size offset PROTO_METADATA_SIZE then Some (None, None) else
  '(m, _) ← read_metadata buf offset; Some (Some m, Some PROTO_METADATA_SIZE).

Record KeyOpMetadataHeader := MkKeyOpMetadataHeader { ko_keySize : Z; ko_op : OpMetadata; ko_isLarge : bool; ko_key : Z }.
Definition parseKeyOpMetadataHeader (buf : option (list byte)) (size offset : Z) :
    option (option KeyOpMetadataHeader * option Z) :=
  let '(buf, size) := pick_recv p buf size in
  if short size offset PROTO_KEY_OP_METADATA_SIZE then Some (None, None) else
  '(keySize, ptr) ← read1Byte buf offset;
  '(opcode, ptr) ← read1Byte buf ptr;
  '(m, ptr) ← read_metadata buf ptr;
  '(timestamp, ptr) ← read4 buf ptr;
  '(isLarge, ptr) ← read1Byte buf ptr;
  let bytes := PROTO_KEY_OP_METADATA_SIZE + keySize + large_size (i2b isLarge) in
  Some (if short size offset bytes then None
        else Some (MkKeyOpMetadataHeader keySize (MkOpMetadata opcode m timestamp) (i2b isLarge) ptr), Some bytes).

(** [maxTimestamp] is updated before the room for an object is tested. *)
Definition seen {A : Type} (all rest : list A) : list A := take (length all - length rest + 1)%nat all.
Definition generateMetadataBackupMessage (addr port : Z) (sealed : list (Z * Metadata)) (ops : list (Key * OpMetadata)) :
    option (list (Z * Metadata) * list (Key * OpMetadata) * bool * Z * Z * (list byte * Z)) :=
  c ← run [write4Bytes addr false; write2Bytes port false] (behind_header p);
  let gap := c_pos c in
  '(sealed', c) ← fill (buffer_size p) (λ _, PROTO_METADATA_SIZE) (λ tm, write_metadata tm.2) sealed (skip PROTO_HEARTBEAT_SIZE c);
  '(ops', c) ← fill (buffer_size p) op_need write_op ops c;
  let isCompleted := completed sealed' && completed ops' in
  let maxTimestamp := fold_left Z.max ((fst <$> seen sealed sealed') ++ ((λ op, om_timestamp op.2) <$> seen ops ops')) 0 in
  msg ← finish p e [(gap, net4 maxTimestamp); (gap + 4, net4 (written sealed sealed'));
                    (gap + 8, net4 (written ops ops')); (gap + 12, [z2b (b2i isCompleted)])] c;
  Some (sealed', ops', isCompleted, written sealed sealed', written ops ops', msg).

Definition parseMetadataBackupMessage (buf : option (list byte)) (size offset : Z) :
    option (option (AddressHeader * HeartbeatHeader)) :=
  let '(buf, size) := pick_recv p buf size in
  a ← parseAddressHeader p (Some buf) size offset;
  match a with
  | None => Some None
  | Some a => h ← parseHeartbeatHeader (Some buf) size (offset + PROTO_ADDRESS_SIZE); Some (option_map (pair a) h)
  end.
(** ** Recovery (recovery_protocol.cc) *)
Definition PROTO_PROMOTE_BACKUP_SERVER_SIZE : Z := 14.
Definition PROTO_RECONSTRUCTION_SIZE : Z := 12.

(** The iterators advanced, [isCompleted], and the message.  The keys follow
    when all chunks are written. *)
Definition generatePromoteBackupServerHeader (addr port : Z) (chunksIt : list Metadata) (keysIt : list Key) :
    option (list Metadata * list Key * bool * (list byte * Z)) :=
  c ← run [write4Bytes addr false; write2Bytes port false] (behind_header p);
  let tmp := c_pos c in
  '(chunksIt', c) ← fill (buffer_size p) (λ _, PROTO_METADATA_SIZE) write_metadata chunksIt
     (skip (PROTO_PROMOTE_BACKUP_SERVER_SIZE - 6) c);
  '(keysIt', c) ← (if completed chunksIt'
                   then fill (buffer_size p) (λ k, PROTO_KEY_SIZE + size k) write_short_key keysIt c else Some (keysIt, c));
  let isCompleted := completed chunksIt' && completed keysIt' in
  msg ← finish p e [(tmp, net4 (written chunksIt chunksIt')); (tmp + 4, net4 (written keysIt keysIt'))] c;
  Some (chunksIt', keysIt', isCompleted, msg).

Definition generatePromoteBackupServerHeader_response (addr port numReconstructedChunks numReconstructedKeys : Z) :
    option (list byte * Z) :=
  generate p e PROTO_PROMOTE_BACKUP_SERVER_SIZE None 0 false
    [write4Bytes addr false; write2Bytes port false; write4 numReconstructedChunks; write4 numReconstructedKeys].

Record PromoteBackupServerHeader := MkPromoteBackupServerHeader {
  pb_address : AddressHeader; pb_chunkCount : Z; pb_unsealedCount : Z; pb_metadata : option Z; pb_keys : option Z }.
Definition parsePromoteBackupServerHeader (isRequest : bool) (buf : option (list byte)) (size offset : Z) :
    option (option (PromoteBackupServerHeader * list byte)) :=
  let '(buf, size) := pick_recv p buf size in
  if short size offset PROTO_PROMOTE_BACKUP_SERVER_SIZE then Some None else
  '(addr, ptr) ← read4Bytes buf offset false;
  '(port, ptr) ← read2Bytes buf ptr false;
  '(chunkCount, ptr) ← read4 buf ptr;
  '(unsealedCount, ptr) ← read4 buf ptr;
  if isRequest then
    buf ← ntohl_words ptr (3 * chunkCount) buf;
    Some (Some (MkPromoteBackupServerHeader (MkAddressHeader addr port) chunkCount unsealedCount (Some ptr)
                  (Some (ptr + PROTO_METADATA_SIZE * chunkCount)), buf))
  else Some (Some (MkPromoteBackupServerHeader (MkAddressHeader addr port) chunkCount unsealedCount None None, buf)).

(** The stripes of one message: at most [numChunks], at most 3000, and what fits.
    The result has [isCompleted], which is false only when a limit other than
    [numChunks] is met. *)
Fixpoint fill_stripes (numChunks count : Z) (it : list Z) (c : cursor) : option (list Z * bool * Z * cursor) :=
  match it with
  | [] => Some ([], true, count, c)
  | id :: it' =>
      if decide (count < numChunks) then
        if decide (c_bytes c + 4 ≤ buffer_size p ∧ count < 3000)
        then c ← write4 id c; fill_stripes numChunks (count + 1) it' c
        else Some (it, false, count, c)
      else Some (it, true, count, c)
  end.
Definition generateReconstructionHeader (listId chunkId : Z) (it : list Z) (numChunks : Z) :
    option (list Z * bool * (list byte * Z)) :=
  c ← run [write4 listId; write4 chunkId] (behind_header p);
  let numStripes := c_pos c in
  '(it, isCompleted, count, c) ← fill_stripes numChunks 0 it (skip (PROTO_RECONSTRUCTION_SIZE - 8) c);
  msg ← finish p e [(numStripes, net4 count)] c;
  Some (it, isCompleted, msg).

Definition generateReconstructionHeader_response (listId chunkId numChunks : Z) : option (list byte * Z) :=
  generate p e PROTO_RECONSTRUCTION_SIZE (Some (buffer_send p)) 0 false [write4 listId; write4 chunkId; write4 numChunks].

Record ReconstructionHeader := MkReconstructionHeader { rc_listId : Z; rc_chunkId : Z; rc_numStripes : Z; rc_stripeIds : option Z }.
Definition parseReconstructionHeader (isRequest : bool) (buf : option (list byte)) (size offset : Z) :
    option (option (ReconstructionHeader * list byte)) :=
  let '(buf, size) := pick_recv p buf size in
  if short size offset PROTO_RECONSTRUCTION_SIZE then Some None else
  '(listId, ptr) ← read4 buf offset;
  '(chunkId, ptr) ← read4 buf ptr;
  '(numStripes, ptr) ← read4 buf ptr;
  if isRequest then
    if short size offset (PROTO_RECONSTRUCTION_SIZE + u32 (numStripes * 4)) then Some None else
    buf ← ntohl_words ptr numStripes buf;
    Some (Some (MkReconstructionHeader listId chunkId numStripes (Some ptr), buf))
  else Some (Some (MkReconstructionHeader listId chunkId numStripes None, buf)).

(** ** Releasing degraded locks (degraded_protocol.cc:577-597)

    [bytes] starts at 0 here: the header is not counted when the room is tested. *)
Definition PROTO_DEGRADED_RELEASE_REQ_SIZE : Z := 12.
Definition generateDegradedReleaseReqHeader (chunks : list Metadata) : option (list Metadata * bool * (list byte * Z)) :=
  '(chunks', c) ← fill (buffer_size p) (λ _, PROTO_DEGRADED_RELEASE_REQ_SIZE) write_metadata chunks
     (Cur (buffer_send p) PROTO_HEADER_SIZE 0);
  '(buf, bytes) ← generateHeader p (e_magic e) (e_to e) (e_opcode e) (u32 (c_bytes c)) (e_instanceId e) (e_requestId e)
                    (Some (c_buf c)) 0 false;
  Some (chunks', completed chunks', (buf, c_bytes c + bytes)).

(** ** The key-value pairs of an unsealed chunk (chunk_protocol.cc:108-247) *)
Definition PROTO_CHUNK_KEY_VALUE_SIZE : Z := 21.

(** The three containers of [DegradedMap::unsealed]. *)
Record unsealed := MkUnsealed {
  us_values : list (Key * ptr); us_metadataRev : list (Metadata * Key); us_deleted : list Key }.

(** Removes the first occurrence, the one the iterator is at. *)
Fixpoint remove_one {A : Type} `{EqDecision A} (x : A) (l : list A) : list A :=
  match l with [] => [] | y :: l => if decide (x = y) then l else y :: remove_one x l end.

(** The first loop, over the keys of the chunk; [deleted] is searched. *)
Fixpoint fill_deleted (metadata : Metadata) (range : list Key) (u : unsealed) (numDeleted : Z) (c : cursor) :
    option (unsealed * Z * bool * cursor) :=
  match range with
  | [] => Some (u, numDeleted, true, c)
  | key :: range =>
      if decide (key ∈ us_deleted u) then
        if decide (c_bytes c + (PROTO_KEY_SIZE + size key) ≤ buffer_size p) then
          c ← write_short_key key c;
          fill_deleted metadata range
            (MkUnsealed (us_values u) (remove_one (metadata, key) (us_metadataRev u)) (remove_one key (us_deleted u)))
            (numDeleted + 1) c
        else Some (u, numDeleted, false, c)
      else fill_deleted metadata range u numDeleted c
  end.

(** The body of the second loop: the object is written in whole when it fits,
    and then once more, in the way of a large object when it is one. *)
Section pairs.
Variables (chunkSize : Z) (m : mem).

Definition write_pair_twice (data : ptr) (c : cursor) : option (bool * cursor) :=
  f ← KeyValue.deserialize chunkSize m data;
  let keySize := KeyValue.f_keySize f in
  let valueSize := KeyValue.f_valueSize f in
  c ← (if decide (c_bytes c + (PROTO_KEY_VALUE_SIZE + keySize + valueSize) ≤ buffer_size p) then
         kb ← load m (KeyValue.f_key f) keySize; vb ← load m (KeyValue.f_value f) valueSize;
         run [write1Byte keySize; write3 valueSize; write kb keySize; write vb valueSize] c
       else Some c);
  si ← LargeObject_isLarge chunkSize keySize valueSize;
  let splitSize := LargeObjectUtil.clampSplit valueSize (KeyValue.f_splitOffset f) (LargeObjectUtil.si_size si) in
  let objSize := PROTO_KEY_VALUE_SIZE + (if LargeObjectUtil.si_large si then PROTO_SPLIT_OFFSET_SIZE else 0) + keySize + valueSize in
  if decide (c_bytes c + objSize ≤ buffer_size p) then
    kb ← load m (KeyValue.f_key f) keySize;
    c ← (if LargeObjectUtil.si_large si then
           vb ← load m (KeyValue.f_value f) splitSize;
           run [write1Byte keySize; write3 valueSize; write kb keySize; write3 splitSize; write vb splitSize] c
         else
           vb ← load m (KeyValue.f_value f) valueSize;
           run [write1Byte keySize; write3 valueSize; write kb keySize; write vb valueSize] c);
    Some (true, c)
  else Some (false, c).

Fixpoint fill_pairs (metadata : Metadata) (range : list Key) (u : unsealed) (numValues : Z) (c : cursor) :
    option (unsealed * Z * bool * cursor) :=
  match range with
  | [] => Some (u, numValues, true, c)
  | key :: range =>
      match list_find (λ kv, kv.1 = key) (us_values u) with
      | None => fill_pairs metadata range u numValues c
      | Some (_, (_, data)) =>
          '(ok, c) ← write_pair_twice data c;
          if (ok : bool) then
            fill_pairs metadata range
              (MkUnsealed (filter (λ kv, kv.1 ≠ key) (us_values u)) (remove_one (metadata, key) (us_metadataRev u)) (us_deleted u))
              (numValues + 1) c
          else Some (u, numValues, false, c)
      end
  end.

(** [equal_range]. *)
Definition keys_of (u : unsealed) (metadata : Metadata) : list Key :=
  snd <$> filter (λ mk, mk.1 = metadata) (us_metadataRev u).

Definition generateChunkKeyValueHeader (listId stripeId chunkId : Z) (u : unsealed) :
    option (unsealed * bool * (list byte * Z)) :=
  let metadata := set listId stripeId chunkId in
  '(u, numDeleted, done1, c) ← fill_deleted metadata (keys_of u metadata) u 0 (skip PROTO_CHUNK_KEY_VALUE_SIZE (behind_header p));
  '(u, numValues, done2, c) ← fill_pairs metadata (keys_of u metadata) u 0 c;
  let isCompleted := (done1 && done2)%bool in
  '(buf, _) ← generateHeader p (e_magic e) (e_to e) (e_opcode e) (u32 (c_bytes c - PROTO_HEADER_SIZE))
                (e_instanceId e) (e_requestId e) (Some (c_buf c)) 0 false;
  h ← run [write4 listId; write4 stripeId; write4 chunkId; write4 numDeleted; write4 numValues; write1Byte (b2i isCompleted)]
        (Cur buf PROTO_HEADER_SIZE 0);
  Some (u, isCompleted, (c_buf h, c_bytes c)).
End pairs.

Record ChunkKeyValueHeader := MkChunkKeyValueHeader {
  ckv_metadata : Metadata; ckv_deleted : Z; ckv_count : Z; ckv_isCompleted : bool; ckv_dataPtr : Z }.
Definition parseChunkKeyValueHeader (buf : option (list byte)) (size offset : Z) : option (option ChunkKeyValueHeader) :=
  let '(buf, size) := pick_recv p buf size in
  if short size offset PROTO_CHUNK_KEY_VALUE_SIZE then Some None else
  '(m, ptr) ← read_metadata buf offset;
  '(deleted, ptr) ← read4 buf ptr;
  '(count, ptr) ← read4 buf ptr;
  '(isCompleted, ptr) ← read1Byte buf ptr;
  Some (Some (MkChunkKeyValueHeader m deleted count (i2b isCompleted) ptr)).
End batch_protocol.

(** ** What a message carries

    The objects that fit into [room] bytes, and those that are left. *)
Fixpoint fitting {A : Type} (need : A → Z) (room : Z) (l : list A) : list A * list A :=
  match l with
  | [] => ([], [])
  | a :: l' =>
      if decide (need a ≤ room) then let '(xs, ys) := fitting need (room - need a) l' in (a :: xs, ys) else ([], l)
  end.
Definition total {A : Type} (need : A → Z) (l : list A) : Z := foldr Z.add 0 (need <$> l).

Lemma fitting_app {A} (need : A → Z) l : ∀ room xs ys, fitting need room l = (xs, ys) → l = xs ++ ys.
Proof.
  induction l as [|a l IH]; intros room xs ys; cbn [fitting]; [by intros [= <- <-]|].
  case_decide; [|by intros [= <- <-]]. destruct (fitting need (room - need a) l) as [xs' ys'] eqn:E.
  intros [= <- <-]. cbn. f_equal. by eapply IH.
Qed.
Lemma fitting_total {A} (need : A → Z) l : ∀ room xs ys, 0 ≤ room → fitting need room l = (xs, ys) → total need xs ≤ room.
Proof.
  unfold total. induction l as [|a l IH]; intros room xs ys Hr; cbn [fitting]; [by intros [= <- <-]|].
  case_decide; [|by intros [= <- <-]]. destruct (fitting need (room - need a) l) as [xs' ys'] eqn:E.
  intros [= <- <-]. cbn [fmap list_fmap foldr]. apply IH in E; lia.
Qed.
(** The first object left did not fit. *)
Lemma fitting_maximal {A} (need : A → Z) l : ∀ room xs y ys,
  fitting need room l = (xs, y :: ys) → room < total need xs + need y.
Proof.
  unfold total. induction l as [|a l IH]; intros room xs y ys; cbn [fitting]; [done|].
  case_decide; [|intros [= <- <- <-]; cbn; lia]. destruct (fitting need (room - need a) l) as [xs' ys'] eqn:E.
  intros [= <- ->]. cbn [fmap list_fmap foldr]. apply IH in E. lia.
Qed.
Lemma fitting_all {A} (need : A → Z) (P : A → Prop) l room xs ys :
  fitting need room l = (xs, ys) → Forall P l → Forall P xs ∧ Forall P ys.
Proof. intros ->%fitting_app. apply Forall_app. Qed.

Lemma fill_fitting {A} size (need : A → Z) w (g : A → list byte) l : ∀ room c xs ys,
  Forall (λ a, emits (w a) (g a) ∧ zlen (g a) = need a) l → in_buffer c → fitting need room l = (xs, ys) →
  room = size - c_bytes c →
  fill size need w l c = (c ← put (concat (g <$> xs)) c; Some (ys, c)).
Proof.
  induction l as [|a l IH]; intros room c xs ys Hw Hc; cbn [fitting fill].
  { intros [= <- <-] _. cbn. by rewrite put_nil. }
  apply Forall_cons in Hw as [[Ha Hl] Hw]. intros E ->. revert E.
  destruct (decide (c_bytes c + need a ≤ size)); [rewrite decide_True by lia|rewrite decide_False by lia].
  2:{ intros [= <- <-]. cbn. by rewrite put_nil. }
  destruct (fitting need (size - c_bytes c - need a) l) as [xs' ys'] eqn:E. intros [= <- <-].
  cbn [fmap list_fmap concat]. rewrite put_app, Ha by done.
  destruct (put (g a) c) as [c'|] eqn:E'; [|done]. cbn [mbind option_bind]. eapply IH; [done|by eapply put_in_buffer|exact E|].
  unfold put in E'. destruct (splice _ _ _); [|done]. injection E' as <-. cbn [c_bytes]. lia.
Qed.

Lemma zlen_concat {A} (need : A → Z) (g : A → list byte) l :
  Forall (λ a, zlen (g a) = need a) l → zlen (concat (g <$> l)) = total need l.
Proof.
  unfold total. induction 1 as [|a l Ha Hl IH]; [done|]. cbn [fmap list_fmap concat foldr]. rewrite zlen_app. lia.
Qed.

(** ** The gaps *)
Fixpoint positions (p : Z) (gaps : list (list byte)) : list (Z * list byte) :=
  match gaps with [] => [] | g :: gaps => (p, g) :: positions (p + zlen g) gaps end.

Lemma patch_gaps gaps : ∀ pre old post, zlen old = zlen (concat gaps) →
  patch (positions (zlen pre) gaps) (pre ++ old ++ post) = Some (pre ++ concat gaps ++ post).
Proof.
  induction gaps as [|g gaps IH]; intros pre old post Hl; cbn [positions patch concat].
  { destruct old; [done|]. cbn in Hl. unfold zlen in Hl. simpl in Hl. lia. }
  cbn [concat] in Hl. rewrite zlen_app in Hl. pose proof (zlen_nonneg (concat gaps)). pose proof (zlen_nonneg g).
  destruct (cut old (zlen g)) as (o1 & o2 & -> & Ho); [lia|].
  rewrite <- (app_assoc o1). rewrite (splice_app pre (o2 ++ post) o1 g) by done. cbn [mbind option_bind].
  rewrite <- zlen_app, (app_assoc pre). rewrite IH; [by rewrite <- !(assoc (++))|]. zlens. lia.
Qed.

(** A message built behind the header: [fields], a gap of [n] bytes for [gaps],
    and the objects. *)
Lemma batch_built p e ws fields n body gaps :
  protocol_ok p → envelope_ok e → emits (run ws) fields → n = zlen (concat gaps) →
  PROTO_HEADER_SIZE + zlen fields + n + zlen body ≤ zlen (buffer_send p) → zlen (buffer_send p) < 2 ^ 32 →
  ∃ c c' rest, run ws (behind_header p) = Some c ∧ c_pos c = PROTO_HEADER_SIZE + zlen fields ∧
    c_bytes c = PROTO_HEADER_SIZE + zlen fields ∧ in_buffer (skip n c) ∧ put body (skip n c) = Some c' ∧
    finish p e (positions (PROTO_HEADER_SIZE + zlen fields) gaps) c'
    = Some (header_bytes (header_of p e (zlen (fields ++ concat gaps ++ body)) 0 false)
              ++ (fields ++ concat gaps ++ body) ++ rest,
            PROTO_HEADER_SIZE + zlen (fields ++ concat gaps ++ body)).
Proof.
  intros Hp He Hw Hn Hl Hs. pose proof (zlen_nonneg fields). pose proof (zlen_nonneg body). pose proof (zlen_nonneg (concat gaps)).
  destruct (cut (buffer_send p) PROTO_HEADER_SIZE) as (old & l & Hb & Ho); [unfold PROTO_HEADER_SIZE in *; lia|].
  rewrite Hb in Hl. rewrite zlen_app in Hl.
  destruct (cut l (zlen fields)) as (f0 & l1 & -> & Hf); [lia|]. rewrite zlen_app in Hl.
  destruct (cut l1 n) as (g0 & l2 & -> & Hg); [lia|]. rewrite zlen_app in Hl.
  destruct (cut l2 (zlen body)) as (b0 & rest & -> & Hb0); [lia|]. rewrite zlen_app in Hl.
  eexists _, _, rest. split; [|split; [|split; [|split; [|split]]]].
  - unfold behind_header. rewrite Hb, <- Ho at 1. rewrite <- Ho at 1. apply (run_at ws fields old f0 (g0 ++ b0 ++ rest)); done.
  - cbn. lia.
  - cbn. lia.
  - unfold in_buffer. cbn. zlens. pose proof (zlen_nonneg old). pose proof (zlen_nonneg rest). lia.
  - unfold skip. cbn [c_buf c_pos c_bytes].
    replace (zlen old + zlen fields + n) with (zlen (old ++ fields ++ g0)) by (zlens; lia).
    replace (old ++ fields ++ g0 ++ b0 ++ rest) with ((old ++ fields ++ g0) ++ b0 ++ rest) by (by rewrite <- !(assoc (++))).
    by apply put_at.
  - unfold finish. cbn [c_buf c_bytes].
    replace (((old ++ fields ++ g0) ++ body ++ rest)) with ((old ++ fields) ++ g0 ++ body ++ rest) by (by rewrite <- !(assoc (++))).
    replace (PROTO_HEADER_SIZE + zlen fields) with (zlen (old ++ fields)) by (rewrite zlen_app; lia).
    rewrite patch_gaps by lia. cbn [mbind option_bind]. rewrite <- (app_assoc old).
    rewrite generateHeader_at by done. cbn [mbind option_bind].
    assert (Hz : zlen (old ++ fields ++ g0) + zlen body = PROTO_HEADER_SIZE + zlen (fields ++ concat gaps ++ body))
      by (zlens; lia).
    rewrite Hz, u32_small; [|rewrite Hb in Hs; zlens; pose proof (zlen_nonneg rest); unfold PROTO_HEADER_SIZE in *; lia].
    replace (PROTO_HEADER_SIZE + zlen (fields ++ concat gaps ++ body) - PROTO_HEADER_SIZE)
      with (zlen (fields ++ concat gaps ++ body)) by lia.
    by rewrite <- !(app_assoc fields), <- (app_assoc (concat gaps)).
Qed.

(** ** The messages *)
Inductive batch :=
| BChunks (requestIds : list Z) (metadata : list Metadata)
| BKeys (keys : list Key)
| BHeartbeat (timestamp : Z) (sealed : list Metadata) (ops : list (Key * OpMetadata))
| BBackup (a : AddressHeader) (sealed : list (Z * Metadata)) (ops : list (Key * OpMetadata))
| BPromote (a : AddressHeader) (chunks : list Metadata) (keys : list Key)
| BReconstruct (listId chunkId numChunks : Z) (stripeIds : list Z).

(** What the receiver finds in a message. *)
Inductive contents :=
| CChunks (l : list (Z * Metadata))
| CKeys (l : list Key)
| CHeartbeat (a : option AddressHeader) (timestamp : Z) (sealed : list Metadata) (ops : list (Key * OpMetadata)) (isLast : bool)
| CPromote (a : AddressHeader) (chunks : list Metadata) (keys : list Key)
| CReconstruct (listId chunkId : Z) (stripeIds : list Z).

(** The message, what is left for the next one, and [isCompleted]. *)
Definition generate_batch (p : Protocol) (e : envelope) (b : batch) : option (batch * bool * (list byte * Z)) :=
  match b with
  | BChunks r m => '(r, m, done, _, msg) ← generateBatchChunkHeader p e r m; Some (BChunks r m, done, msg)
  | BKeys ks => '(ks, done, _, msg) ← generateBatchKeyHeader p e ks; Some (BKeys ks, done, msg)
  | BHeartbeat t s o => '(s, o, done, _, _, msg) ← generateHeartbeatMessage p e t s o; Some (BHeartbeat t s o, done, msg)
  | BBackup a s o =>
      '(s, o, done, _, _, msg) ← generateMetadataBackupMessage p e (ad_addr a) (ad_port a) s o; Some (BBackup a s o, done, msg)
  | BPromote a c k =>
      '(c, k, done, msg) ← generatePromoteBackupServerHeader p e (ad_addr a) (ad_port a) c k; Some (BPromote a c k, done, msg)
  | BReconstruct l c n ids =>
      '(ids, done, msg) ← generateReconstructionHeader p e l c ids n; Some (BReconstruct l c n ids, done, msg)
  end.

(** The receivers' loops: [count] objects, one after the other. *)
Fixpoint read_items {A : Type} (next : Z → option (option (A * Z))) (n : nat) (offset : Z) : option (option (list A * Z)) :=
  match n with
  | O => Some (Some ([], offset))
  | S n =>
      r ← next offset;
      match r with
      | None => Some None
      | Some (a, offset) => rs ← read_items next n offset; Some (option_map (λ '(l, o), (a :: l, o)) rs)
      end
  end.
Definition and_then {A B : Type} (r : option (option A)) (f : A → option (option B)) : option (option B) :=
  r ← r; match r with Some a => f a | None => Some None end.

Section receivers.
Context (q : Protocol) (buf : list byte) (sz : Z).

Definition next_chunk (h : BatchHeader) (offset : Z) : option (option (Z * Metadata * Z)) :=
  '(r, offset) ← nextChunkInBatchChunkHeader q h buf sz offset; Some (option_map (λ r, (r, offset)) r).
Definition next_key (h : BatchHeader) (offset : Z) : option (option (Key * Z)) :=
  '(keySize, key, offset) ← nextKeyInBatchKeyHeader h buf offset;
  d ← slice buf key keySize; Some (Some (MkKey keySize d false, offset)).
Definition next_metadata (offset : Z) : option (option (Metadata * Z)) :=
  '(m, processed) ← parseMetadataHeader q (Some buf) sz offset;
  Some (m ← m; n ← processed; Some (m, offset + n)).
Definition next_op (offset : Z) : option (option (Key * OpMetadata * Z)) :=
  '(h, processed) ← parseKeyOpMetadataHeader q (Some buf) sz offset;
  match h with
  | None => Some None
  | Some h => d ← slice buf (ko_key h) (ko_keySize h + large_size (ko_isLarge h));
      Some (n ← processed; Some (MkKey (ko_keySize h) d (ko_isLarge h), ko_op h, offset + n))
  end.
(** The metadata of the chunks of a promotion are an array of words converted in place. *)
Definition triple (buf : list byte) (p : Z) : option Metadata :=
  ws ← word_array buf p 3; match ws with [l; s; c] => Some (MkMetadata l s c) | _ => None end.
End receivers.

Variant batch_kind := KBChunks | KBKeys | KBHeartbeat | KBBackup | KBPromote | KBReconstruct.
Definition batch_kind_of (b : batch) : batch_kind :=
  match b with
  | BChunks _ _ => KBChunks | BKeys _ => KBKeys | BHeartbeat _ _ _ => KBHeartbeat | BBackup _ _ _ => KBBackup
  | BPromote _ _ _ => KBPromote | BReconstruct _ _ _ _ => KBReconstruct
  end.

Definition parse_payload (q : Protocol) (k : batch_kind) (buf : list byte) (sz : Z) : option (option contents) :=
  match k with
  | KBChunks => and_then (parseBatchChunkHeader q (Some buf) sz 0) (λ h,
      and_then (read_items (next_chunk q buf sz h) (Z.to_nat (bh_count h)) 0) (λ '(l, _), Some (Some (CChunks l))))
  | KBKeys => and_then (parseBatchKeyHeader q (Some buf) sz 0) (λ h,
      and_then (read_items (next_key buf h) (Z.to_nat (bh_count h)) 0) (λ '(l, _), Some (Some (CKeys l))))
  | KBHeartbeat => and_then (parseHeartbeatHeader q (Some buf) sz 0) (λ h,
      and_then (read_items (next_metadata q buf sz) (Z.to_nat (hb_sealed h)) PROTO_HEARTBEAT_SIZE) (λ '(s, o),
      and_then (read_items (next_op q buf sz) (Z.to_nat (hb_keys h)) o) (λ '(ops, _),
      Some (Some (CHeartbeat None (hb_timestamp h) s ops (hb_isLast h))))))
  | KBBackup => and_then (parseMetadataBackupMessage q (Some buf) sz 0) (λ '(a, h),
      and_then (read_items (next_metadata q buf sz) (Z.to_nat (hb_sealed h)) (PROTO_ADDRESS_SIZE + PROTO_HEARTBEAT_SIZE)) (λ '(s, o),
      and_then (read_items (next_op q buf sz) (Z.to_nat (hb_keys h)) o) (λ '(ops, _),
      Some (Some (CHeartbeat (Some a) (hb_timestamp h) s ops (hb_isLast h))))))
  | KBPromote => and_then (parsePromoteBackupServerHeader q true (Some buf) sz 0) (λ '(h, buf),
      match pb_metadata h, pb_keys h with
      | Some mp, Some kp =>
          ms ← mapM (λ i, triple buf (mp + PROTO_METADATA_SIZE * i)) (seqZ 0 (pb_chunkCount h));
          and_then (read_items (next_key buf (MkBatchHeader (pb_unsealedCount h) kp)) (Z.to_nat (pb_unsealedCount h)) 0)
            (λ '(ks, _), Some (Some (CPromote (pb_address h) ms ks)))
      | _, _ => None
      end)
  | KBReconstruct => and_then (parseReconstructionHeader q true (Some buf) sz 0) (λ '(h, buf),
      match rc_stripeIds h with
      | Some a => ids ← word_array buf a (rc_numStripes h); Some (Some (CReconstruct (rc_listId h) (rc_chunkId h) ids))
      | None => None
      end)
  end.

(** The handlers are given the bytes behind the header. *)
Definition parse_batch (q : Protocol) (k : batch_kind) (recv : option (list byte)) (sz offset : Z) : option (option contents) :=
  match recv with Some recv => parse_payload q k (drop (Z.to_nat offset) recv) (sz - offset) | None => None end.

(** *** What one message carries, and what it leaves *)
Definition chunk_need : Z * Metadata → Z := λ _, PROTO_CHUNK_SIZE + 4.
Definition key_need : Key → Z := λ k, PROTO_KEY_SIZE + size k.
Definition metadata_need {A : Type} : A → Z := λ _, PROTO_METADATA_SIZE.
Definition stripe_need : Z → Z := λ _, 4.

Definition split_batch (bufsize : Z) (b : batch) : contents * batch * bool :=
  let room := bufsize - PROTO_HEADER_SIZE in
  match b with
  | BChunks r m =>
      let '(xs, ys) := fitting chunk_need (room - PROTO_BATCH_CHUNK_SIZE) (zip r m) in
      (CChunks xs, BChunks (fst <$> ys) (snd <$> ys), completed ys)
  | BKeys ks => let '(xs, ys) := fitting key_need (room - PROTO_BATCH_KEY_SIZE) ks in (CKeys xs, BKeys ys, completed ys)
  | BHeartbeat t s o =>
      let room := room - PROTO_HEARTBEAT_SIZE in
      let '(xs, ys) := fitting metadata_need room s in
      let '(xs', ys') := fitting op_need (room - total metadata_need xs) o in
      let done := completed ys && completed ys' in (CHeartbeat None t xs xs' done, BHeartbeat t ys ys', done)
  | BBackup a s o =>
      let room := room - PROTO_ADDRESS_SIZE - PROTO_HEARTBEAT_SIZE in
      let '(xs, ys) := fitting metadata_need room s in
      let '(xs', ys') := fitting op_need (room - total metadata_need xs) o in
      let done := completed ys && completed ys' in
      let t := fold_left Z.max ((fst <$> seen s ys) ++ ((λ op, om_timestamp op.2) <$> seen o ys')) 0 in
      (CHeartbeat (Some a) t (snd <$> xs) xs' done, BBackup a ys ys', done)
  | BPromote a c k =>
      let room := room - PROTO_PROMOTE_BACKUP_SERVER_SIZE in
      let '(xs, ys) := fitting metadata_need room c in
      let '(xs', ys') := if completed ys then fitting key_need (room - total metadata_need xs) k else ([], k) in
      (CPromote a xs xs', BPromote a ys ys', completed ys && completed ys')
  | BReconstruct l c n ids =>
      let '(xs, ys) := fitting stripe_need (Z.min (room - PROTO_RECONSTRUCTION_SIZE) (4 * 3000)) (take (Z.to_nat n) ids) in
      (CReconstruct l c xs, BReconstruct l c n (ys ++ drop (Z.to_nat n) ids), completed ys)
  end.

Definition short_key_ok (k : Key) : Prop := isLarge k = false ∧ key_ok k.
Definition op_ok (op : Key * OpMetadata) : Prop :=
  key_ok op.1 ∧ 0 ≤ om_opcode op.2 < 256 ∧ Metadata.wf (om_metadata op.2) ∧ 0 ≤ om_timestamp op.2 < 2 ^ 32.

Definition batch_ok (b : batch) : Prop :=
  match b with
  | BChunks r m => length r = length m ∧ words_ok r ∧ Forall Metadata.wf m
  | BKeys ks => Forall short_key_ok ks
  | BHeartbeat t s o => 0 ≤ t < 2 ^ 32 ∧ Forall Metadata.wf s ∧ Forall op_ok o
  | BBackup a s o => address_ok a ∧ Forall (λ tm, 0 ≤ tm.1 < 2 ^ 32 ∧ Metadata.wf tm.2) s ∧ Forall op_ok o
  | BPromote a c k => address_ok a ∧ Forall Metadata.wf c ∧ Forall short_key_ok k
  | BReconstruct l c n ids => 0 ≤ l < 2 ^ 32 ∧ 0 ≤ c < 2 ^ 32 ∧ 0 ≤ n < 2 ^ 32 ∧ words_ok ids
  end.

(** The protocol's send buffer has the size it says, and room for a header and
    some of the fields. *)
Definition buffer_ok (p : Protocol) : Prop := zlen (buffer_send p) = buffer_size p ∧ 64 ≤ buffer_size p < 2 ^ 32.

(** ** Objects on the wire *)
Definition chunk_bytes : Z * Metadata → list byte := λ '(r, m), be_bytes 4 r ++ metadata_bytes m.
Definition op_bytes : Key * OpMetadata → list byte := λ '(k, op),
  [z2b (size k)] ++ [z2b (om_opcode op)] ++ metadata_bytes (om_metadata op) ++ be_bytes 4 (om_timestamp op)
  ++ [z2b (b2i (isLarge k))] ++ data k.

Lemma zlen_metadata_bytes m : zlen (metadata_bytes m) = 12.
Proof. unfold metadata_bytes. by zlens. Qed.
#[export] Hint Rewrite zlen_metadata_bytes : zlen.
Definition address_bytes (a : AddressHeader) : list byte := le_bytes 4 (ad_addr a) ++ le_bytes 2 (ad_port a).
Lemma zlen_address_bytes a : zlen (address_bytes a) = 6.
Proof. unfold address_bytes. by zlens. Qed.
#[export] Hint Rewrite zlen_address_bytes : zlen.

Lemma emits_metadata_bytes m : emits (write_metadata m) (metadata_bytes m) ∧ zlen (metadata_bytes m) = PROTO_METADATA_SIZE.
Proof. split; [|apply zlen_metadata_bytes]. pose proof (emits_metadata m) as H. by rewrite app_nil_r in H. Qed.

Lemma emits_short_key k : short_key_ok k → emits (write_short_key k) (key_bytes k) ∧ zlen (key_bytes k) = key_need k.
Proof.
  intros (Hl & ? & Hd). rewrite Hl, Z.add_0_r in Hd. unfold key_bytes, key_need, PROTO_KEY_SIZE. split; [|zlens; lia].
  apply (emits_bind (write1Byte (size k)) (write (data k) (size k)) [_]); [apply emits_write1|by apply emits_write_all].
Qed.

Lemma emits_op o : op_ok o → emits (write_op o) (op_bytes o) ∧ zlen (op_bytes o) = op_need o.
Proof.
  destruct o as [k [c [l s i] t]]. intros ((? & Hd) & _). cbn [fst snd] in *. cbn [write_op op_bytes op_need].
  unfold metadata_bytes, PROTO_KEY_OP_METADATA_SIZE. cbn [om_opcode om_metadata om_timestamp listId stripeId chunkId].
  split; [|zlens; lia].
  assert (E : emits (write_op (k, MkOpMetadata c (MkMetadata l s i) t)) ([z2b (size k)] ++ [z2b c] ++ be_bytes 4 l ++ be_bytes 4 s
    ++ be_bytes 4 i ++ be_bytes 4 t ++ [z2b (b2i (isLarge k))] ++ data k ++ [])).
  { unfold write_op. cbn [om_opcode om_metadata om_timestamp listId stripeId chunkId]. emit. }
  rewrite app_nil_r in E. by rewrite <- !(assoc (++)).
Qed.

(** ** Reading objects one after the other *)
Lemma holds_drop n buf ptr xs : holds buf ptr xs → 0 ≤ n ≤ ptr → holds (drop (Z.to_nat n) buf) (ptr - n) xs.
Proof.
  intros (pre & post & -> & ->) Hn. exists (drop (Z.to_nat n) pre), post.
  unfold zlen in *. rewrite drop_app_le by lia. split; [done|]. rewrite length_drop. lia.
Qed.

Lemma read_items_holds {A} (next : Z → option (option (A * Z))) (P : A → Prop) (g : A → list byte) buf base lim l :
  (∀ a offset ys, P a → 0 ≤ offset → offset + zlen (g a) ≤ lim → holds buf (base + offset) (g a ++ ys) →
     next offset = Some (Some (a, offset + zlen (g a)))) →
  ∀ offset ys, Forall P l → 0 ≤ offset → offset + zlen (concat (g <$> l)) ≤ lim →
  holds buf (base + offset) (concat (g <$> l) ++ ys) →
  read_items next (length l) offset = Some (Some (l, offset + zlen (concat (g <$> l)))).
Proof.
  intros Hnext. induction l as [|a l IH]; intros offset ys Hl Ho Hlim Hh.
  { cbn. by rewrite Z.add_0_r. }
  apply Forall_cons in Hl as [Ha Hl]. cbn [fmap list_fmap concat length read_items] in *. rewrite zlen_app in *.
  rewrite <- (assoc (++)) in Hh. pose proof (zlen_nonneg (concat (g <$> l))). pose proof (zlen_nonneg (g a)).
  rewrite (Hnext a offset (concat (g <$> l) ++ ys)) by (done || lia). cbn [mbind option_bind].
  apply (holds_skip (zlen (g a))) in Hh; [|done]. rewrite <- Z.add_assoc in Hh.
  rewrite (IH _ ys) by (done || lia). cbn. by rewrite Z.add_assoc.
Qed.

Lemma short_at' sz offset need : 0 ≤ offset → 0 ≤ need → offset + need ≤ sz < 2 ^ 32 → short sz offset need = false.
Proof. intros. apply short_at; lia. Qed.
Lemma pick_recv_nonzero q r n : n ≠ 0 → pick_recv q (Some r) n = (r, n).
Proof. intros. unfold pick_recv. by rewrite decide_False. Qed.

Section reading.
Context (q : Protocol) (buf : list byte) (sz : Z) (Hsz : 0 < sz < 2 ^ 32).

Lemma next_chunk_holds h a offset ys :
  (0 ≤ a.1 < 2 ^ 32 ∧ Metadata.wf a.2) → 0 ≤ bh_items h → 0 ≤ offset → offset + zlen (chunk_bytes a) ≤ sz →
  holds buf (bh_items h + offset) (chunk_bytes a ++ ys) → next_chunk q buf sz h offset = Some (Some (a, offset + zlen (chunk_bytes a))).
Proof using Hsz.
  destruct a as [r m]. cbn [fst snd chunk_bytes]. intros (Hr & Hm) Hi Ho Hl Hh. rewrite zlen_app, zlen_metadata_bytes in *.
  change (zlen (be_bytes 4 r)) with 4 in *. rewrite <- (assoc (++)) in Hh. unfold next_chunk, nextChunkInBatchChunkHeader.
  read_field Hh. rewrite !(u32_small (offset + 4)) by lia. unfold parseChunkHeader.
  rewrite pick_recv_nonzero by lia. cbv beta iota. unfold PROTO_CHUNK_SIZE. rewrite short_at' by lia.
  apply (holds_drop (bh_items h)) in Hh; [|lia].
  replace (bh_items h + offset + 4 - bh_items h) with (offset + 4) in Hh by lia.
  unfold metadata_bytes in Hh. rewrite <- !(assoc (++)) in Hh.
  destruct (read_metadata_holds _ _ _ _ Hm Hh) as [-> _]. cbn. rewrite u32_small by lia. by rewrite Z.add_assoc.
Qed.

Lemma next_key_holds h a offset ys :
  short_key_ok a → 0 ≤ offset → offset + zlen (key_bytes a) ≤ sz →
  holds buf (bh_items h + offset) (key_bytes a ++ ys) → next_key buf h offset = Some (Some (a, offset + zlen (key_bytes a))).
Proof using Hsz.
  intros (Hl & ? & Hd) Ho Hle Hh. rewrite Hl, Z.add_0_r in Hd. unfold key_bytes in *. rewrite zlen_cons in *.
  change ((z2b (size a) :: data a) ++ ys) with ([z2b (size a)] ++ data a ++ ys) in Hh.
  unfold next_key, nextKeyInBatchKeyHeader. read_field Hh. take_bytes Hh (size a).
  unfold PROTO_KEY_SIZE. rewrite u32_small by lia. rewrite <- Hl, Hd. by destruct a.
Qed.

Lemma next_metadata_holds a offset ys :
  Metadata.wf a → 0 ≤ offset → offset + zlen (metadata_bytes a) ≤ sz →
  holds buf (0 + offset) (metadata_bytes a ++ ys) →
  next_metadata q buf sz offset = Some (Some (a, offset + zlen (metadata_bytes a))).
Proof using Hsz.
  intros Ha Ho Hl Hh. rewrite zlen_metadata_bytes in *. rewrite Z.add_0_l in Hh.
  unfold next_metadata, parseMetadataHeader. rewrite pick_recv_nonzero by lia. cbv beta iota. unfold PROTO_METADATA_SIZE.
  rewrite short_at' by lia. unfold metadata_bytes in Hh. rewrite <- !(assoc (++)) in Hh.
  by destruct (read_metadata_holds _ _ _ _ Ha Hh) as [-> _].
Qed.

Lemma next_op_holds a offset ys :
  op_ok a → 0 ≤ offset → offset + zlen (op_bytes a) ≤ sz →
  holds buf (0 + offset) (op_bytes a ++ ys) → next_op q buf sz offset = Some (Some (a, offset + zlen (op_bytes a))).
Proof using Hsz.
  intros Ha Ho Hl Hh. rewrite (proj2 (emits_op a Ha)) in *. destruct a as [k op]. destruct Ha as (Hk & ? & Hm & ?).
  pose proof Hk as [? Hd]. cbn [fst snd op_need op_bytes] in *. rewrite Z.add_0_l in Hh. rewrite <- !(assoc (++)) in Hh.
  pose proof (large_size_range (isLarge k)). unfold PROTO_KEY_OP_METADATA_SIZE in *.
  unfold next_op, parseKeyOpMetadataHeader. rewrite pick_recv_nonzero by lia. cbv beta iota. unfold PROTO_KEY_OP_METADATA_SIZE.
  rewrite short_at' by lia. do 2 read_field Hh. unfold metadata_bytes in Hh. rewrite <- !(assoc (++)) in Hh.
  destruct (read_metadata_holds _ _ _ _ Hm Hh) as [-> Hh']. cbn [mbind option_bind]. do 2 read_field Hh'.
  rewrite i2b_b2i, short_at' by lia. cbn [ko_key ko_keySize ko_isLarge ko_op].
  take_bytes Hh' (size k + large_size (isLarge k)). by destruct k, op.
Qed.
End reading.

(** ** One message *)
Lemma net4_be v : net4 v = be_bytes 4 v.
Proof.
  unfold net4, htonl, u32. rewrite le_bytes_bswap. change (2 ^ 32) with (256 ^ Z.of_nat 4). by apply u_be_bytes.
Qed.

Lemma fitting_fmap {A B} (f : A → B) (need : A → Z) (need' : B → Z) l : (∀ a, need' (f a) = need a) → ∀ room,
  fitting need' room (f <$> l) = (let '(xs, ys) := fitting need room l in (f <$> xs, f <$> ys)).
Proof.
  intros Hn. induction l as [|a l IH]; intros room; [done|]. cbn [fmap list_fmap fitting]. rewrite Hn.
  case_decide; [|done]. unfold fmap in IH. rewrite IH. by destruct (fitting need (room - need a) l).
Qed.

Lemma zip_imap {A B} (d : A) (r : list A) (m : list B) : length r = length m →
  zip r m = (λ '(i, x), (nth i r d, x)) <$> imap pair m.
Proof.
  revert r. induction m as [|x m IH] using rev_ind; intros r Hl; [by destruct r|].
  destruct r as [|y r _] using rev_ind; [rewrite length_app in Hl; simpl in Hl; lia|].
  rewrite !length_app in Hl. simpl in Hl. assert (length r = length m) as Hl' by lia.
  rewrite zip_with_app by done. rewrite IH by done. rewrite imap_app, fmap_app. f_equal.
  - apply list_fmap_ext. intros k [i b] Hk. rewrite list_lookup_imap in Hk.
    destruct (m !! k) eqn:E; [|done]. cbn in Hk. injection Hk as <- <-. apply lookup_lt_Some in E.
    by rewrite app_nth1 by lia.
  - cbn. rewrite Nat.add_0_r, app_nth2 by lia. rewrite <- Hl', Nat.sub_diag. done.
Qed.

Lemma zlen_range {A} (l : list A) : zlen l = Z.of_nat (length l).
Proof. done. Qed.

Lemma completed_nil {A} (l : list A) : completed l = true → l = [].
Proof. by destruct l. Qed.
Lemma completed_app {A} (l : list A) (P : list A) : completed l = true → P = P ++ l.
Proof. intros ->%completed_nil. by rewrite app_nil_r. Qed.

Lemma fitting_length {A} (need : A → Z) l room xs ys :
  fitting need room l = (xs, ys) → length l = (length xs + length ys)%nat.
Proof. intros ->%fitting_app. apply length_app. Qed.

Section arrives.
Context (p : Protocol) (e : envelope) (q : Protocol).
Hypothesis (Hp : protocol_ok p) (He : envelope_ok e) (Hq : to q = e_to e) (Hb : buffer_ok p).

Definition batch_arrives (b : batch) : Prop :=
  ∀ c b' done, batch_ok b → split_batch (buffer_size p) b = (c, b', done) →
  ∃ msg n, generate_batch p e b = Some (b', done, msg) ∧ PROTO_HEADER_SIZE + n ≤ buffer_size p ∧
    arrives (Some msg) q (header_of p e n 0 false) (parse_batch q (batch_kind_of b)) c.

(** A message built behind the header is delivered, when its parser reads the
    bytes behind the header. *)
Lemma batch_delivered k ws fields n body gaps cts :
  emits (run ws) fields → n = zlen (concat gaps) → 0 < n → PROTO_HEADER_SIZE + zlen fields + n + zlen body ≤ buffer_size p →
  (∀ buf, holds buf 0 (fields ++ concat gaps ++ body ++ []) →
     parse_payload q k buf (zlen fields + n + zlen body) = Some (Some cts)) →
  ∃ c c' msg, run ws (behind_header p) = Some c ∧ c_pos c = PROTO_HEADER_SIZE + zlen fields ∧
    c_bytes c = PROTO_HEADER_SIZE + zlen fields ∧ in_buffer (skip n c) ∧ put body (skip n c) = Some c' ∧
    finish p e (positions (PROTO_HEADER_SIZE + zlen fields) gaps) c' = Some msg ∧
    arrives (Some msg) q (header_of p e (zlen fields + n + zlen body) 0 false) (parse_batch q k) cts.
Proof using Hp He Hq Hb.
  intros Hw Hn Hpos Hl Hparse. destruct Hb as [Hs ?]. pose proof (zlen_nonneg fields). pose proof (zlen_nonneg body).
  destruct (batch_built p e ws fields n body gaps) as (c & c' & rest & K1 & K2 & K3 & K4 & K5 & K6); [done..|lia|lia|].
  eexists c, c', _. do 6 (split; [done|]). set (all := fields ++ concat gaps ++ body) in *.
  assert (Hz : zlen fields + n + zlen body = zlen all) by (unfold all; zlens; lia). rewrite Hz in *.
  eapply arrives_intro; [done..|unfold PROTO_HEADER_SIZE in *; lia|done|]. intros r Hr. unfold parse_batch.
  replace (PROTO_HEADER_SIZE + zlen all - PROTO_HEADER_SIZE) with (zlen all) by lia. apply Hparse.
  apply (holds_drop PROTO_HEADER_SIZE) in Hr; [|done]. rewrite Z.sub_diag in Hr. unfold all in Hr. by rewrite <- !(assoc (++)) in Hr.
Qed.

(** The numbers of the objects, as they are written and read. *)
Lemma written_fitting {A} (need : A → Z) (l : list A) room xs ys :
  fitting need room l = (xs, ys) → zlen xs < 2 ^ 32 → written l ys = zlen xs.
Proof using. clear. intros Hf Hx. unfold written, zlen in *. rewrite (fitting_length _ _ _ _ _ Hf), u32_small; lia. Qed.

Lemma zlen_total {A} (need : A → Z) (g : A → list byte) xs :
  Forall (λ a, zlen (g a) = need a) xs → Forall (λ a, 1 ≤ need a) xs → zlen xs ≤ total need xs.
Proof using.
  clear. unfold total. induction 1 as [|a xs Ha Hxs IH]; [done|]. intros [? ?]%Forall_cons. cbn [fmap list_fmap foldr].
  rewrite zlen_cons. specialize (IH ltac:(done)). lia.
Qed.

(** The objects of a container that fit, as bytes. *)
Lemma fitted {A} (need : A → Z) (w : A → writer) (g : A → list byte) (P : A → Prop) l room xs ys :
  (∀ a, P a → (emits (w a) (g a) ∧ zlen (g a) = need a) ∧ 1 ≤ need a) → Forall P l → 0 ≤ room →
  fitting need room l = (xs, ys) →
  Forall P xs ∧ zlen (concat (g <$> xs)) ≤ room ∧ zlen xs ≤ zlen (concat (g <$> xs)) ∧
  total need xs = zlen (concat (g <$> xs)) ∧ zlen l - zlen ys = zlen xs ∧
  ∀ size c, in_buffer c → room = size - c_bytes c →
    fill size need w l c = (c ← put (concat (g <$> xs)) c; Some (ys, c)).
Proof using.
  clear. intros HP Hl Hroom E. pose proof (fitting_all _ _ _ _ _ _ E Hl) as [Hxs _]. split; [done|].
  assert (Hz : Forall (λ a, zlen (g a) = need a) xs) by (eapply Forall_impl; [exact Hxs|]; intros a Ha; apply HP, Ha).
  assert (H1 : Forall (λ a, 1 ≤ need a) xs) by (eapply Forall_impl; [exact Hxs|]; intros a Ha; apply HP, Ha).
  rewrite (zlen_concat need g xs Hz). split; [by eapply fitting_total|]. split; [by eapply zlen_total|]. split; [done|].
  split; [rewrite (fitting_app _ _ _ _ _ E); zlens; lia|].
  intros size c Hc Hr. eapply fill_fitting; [|done|exact E|done]. eapply Forall_impl; [exact Hl|]. intros a Ha. apply HP, Ha.
Qed.

Lemma put_bytes xs c c' : put xs c = Some c' → c_bytes c' = c_bytes c + zlen xs.
Proof using. clear. unfold put. destruct (splice _ _ _); [|done]. by intros [= <-]. Qed.
Lemma put_two xs ys c c' : in_buffer c → put (xs ++ ys) c = Some c' →
  ∃ c1, put xs c = Some c1 ∧ put ys c1 = Some c' ∧ in_buffer c1 ∧ c_bytes c1 = c_bytes c + zlen xs.
Proof using.
  clear. intros Hc. rewrite put_app. destruct (put xs c) as [c1|] eqn:E; [|done]. cbn [mbind option_bind]. intros.
  exists c1. split; [done|]. split; [done|]. split; [by eapply put_in_buffer|by apply put_bytes].
Qed.

Lemma short_key_fits k : short_key_ok k → (emits (write_short_key k) (key_bytes k) ∧ zlen (key_bytes k) = key_need k) ∧ 1 ≤ key_need k.
Proof using. clear. intros Hk. split; [by apply emits_short_key|]. destruct Hk as (_ & ? & _). unfold key_need, PROTO_KEY_SIZE. lia. Qed.
Lemma metadata_fits (m : Metadata) : Metadata.wf m →
  (emits (write_metadata m) (metadata_bytes m) ∧ zlen (metadata_bytes m) = metadata_need m) ∧ 1 ≤ metadata_need m.
Proof using. clear. intros _. split; [apply emits_metadata_bytes|done]. Qed.
Lemma op_fits o : op_ok o → (emits (write_op o) (op_bytes o) ∧ zlen (op_bytes o) = op_need o) ∧ 1 ≤ op_need o.
Proof using.
  clear. intros Ho. split; [by apply emits_op|]. destruct o as [k op], Ho as [[? _] _]. cbn [fst op_need] in *.
  pose proof (large_size_range (isLarge k)). unfold PROTO_KEY_OP_METADATA_SIZE. lia.
Qed.

Lemma parse_chunks xs buf :
  Forall (λ a, 0 ≤ a.1 < 2 ^ 32 ∧ Metadata.wf a.2) xs → 4 + zlen (concat (chunk_bytes <$> xs)) < 2 ^ 32 → zlen xs < 2 ^ 32 →
  holds buf 0 (be_bytes 4 (zlen xs) ++ concat (chunk_bytes <$> xs) ++ []) →
  parse_payload q KBChunks buf (4 + zlen (concat (chunk_bytes <$> xs))) = Some (Some (CChunks xs)).
Proof using.
  clear. intros Hxs Hl Hn Hh. set (body := concat (chunk_bytes <$> xs)) in *. pose proof (zlen_nonneg body). pose proof (zlen_nonneg xs).
  cbn [parse_payload]. unfold parseBatchChunkHeader. rewrite pick_recv_nonzero by lia. cbv beta iota.
  unfold PROTO_BATCH_CHUNK_SIZE. rewrite short_at' by lia. read_field Hh. cbn [and_then mbind option_bind bh_count].
  replace (Z.to_nat (zlen xs)) with (length xs) by (unfold zlen; lia).
  unfold and_then. erewrite (read_items_holds _ _ chunk_bytes buf 4 (zlen body)); [done| |done|lia|fold body; lia|].
  - intros a o ys Ha Ho Hle Hb'. eapply (next_chunk_holds q buf (4 + zlen body) ltac:(lia)); [done|cbn; lia|done|lia|exact Hb'].
  - exact Hh.
Qed.

Lemma arrives_chunks r m : batch_arrives (BChunks r m).
Proof using Hp He Hq Hb.
  intros c b' done (Hl & Hr & Hm). cbn [split_batch batch_kind_of generate_batch]. unfold generateBatchChunkHeader.
  set (f := λ '(i, x), (nth i r 0, x) : Z * Metadata). destruct Hb as [Hs ?].
  rewrite (zip_imap 0 r m Hl). fold f. rewrite (fitting_fmap _ (λ _, PROTO_CHUNK_SIZE + 4)) by (by intros []).
  destruct (fitting (λ _, PROTO_CHUNK_SIZE + 4) (buffer_size p - PROTO_HEADER_SIZE - PROTO_BATCH_CHUNK_SIZE) (imap pair m))
    as [xs ys] eqn:E. intros [= <- <- <-].
  assert (Hw : Forall (λ a, (emits ((λ '(i, m) c, r ← zget r (Z.of_nat i); c ← write4 r c; write_metadata m c) a) (chunk_bytes (f a))
    ∧ zlen (chunk_bytes (f a)) = PROTO_CHUNK_SIZE + 4)) (imap pair m) ∧
    Forall (λ a, 0 ≤ (f a).1 < 2 ^ 32 ∧ Metadata.wf (f a).2) (imap pair m)).
  { rewrite <- Forall_and. apply Forall_lookup. intros k [i x] Hk. rewrite list_lookup_imap in Hk.
    destruct (m !! k) eqn:Ek; [|done]. cbn in Hk. injection Hk as <- <-. pose proof (lookup_lt_Some _ _ _ Ek) as Hk.
    destruct (lookup_lt_is_Some_2 r k ltac:(lia)) as [y Hy]. cbn [f chunk_bytes fst snd].
    rewrite (nth_lookup_Some _ _ 0 _ Hy). split; [split|split].
    - unfold zget. rewrite decide_True, Nat2Z.id, Hy by lia. cbn [mbind option_bind].
      apply (emits_bind (write4 y) (write_metadata m0)); [apply emits_write4|apply emits_metadata_bytes].
    - by zlens.
    - exact (proj1 (Forall_lookup _ _) Hr k y Hy).
    - exact (proj1 (Forall_lookup _ _) Hm k m0 Ek). }
  destruct Hw as [Hw Hwf]. set (body := concat ((λ a, chunk_bytes (f a)) <$> xs)).
  pose proof (fitting_all _ _ _ _ _ _ E Hw) as [Hxs _]. apply Forall_and in Hxs as [_ Hxs].
  pose proof (fitting_all _ _ _ _ _ _ E Hwf) as [Hxwf _].
  assert (Hbody : zlen body = total (λ _, PROTO_CHUNK_SIZE + 4) xs) by (by apply zlen_concat).
  assert (Ht : total (λ _, PROTO_CHUNK_SIZE + 4) xs ≤ buffer_size p - PROTO_HEADER_SIZE - PROTO_BATCH_CHUNK_SIZE).
  { eapply fitting_total; [|exact E]. unfold PROTO_HEADER_SIZE, PROTO_BATCH_CHUNK_SIZE. lia. }
  assert (Hn : zlen xs ≤ total (λ _, PROTO_CHUNK_SIZE + 4) xs).
  { eapply zlen_total; [exact Hxs|]. apply Forall_forall. by intros. }
  assert (Hz : zlen (f <$> xs) = zlen xs) by (unfold zlen; by rewrite length_fmap).
  assert (Hbody' : body = concat (chunk_bytes <$> (f <$> xs))) by (unfold body; by rewrite <- list_fmap_compose).
  unfold PROTO_BATCH_CHUNK_SIZE, PROTO_HEADER_SIZE in *.
  destruct (batch_delivered KBChunks [] [] 4 body [net4 (zlen xs)] (CChunks (f <$> xs)))
    as (c & c' & msg & Hrun & Hpos & Hbytes & Hin & Hput & Hfin & Harr); [apply run_nil|done|lia|zlens; unfold PROTO_HEADER_SIZE; lia| |].
  { intros buf Hh. cbn [concat app] in Hh. rewrite net4_be, <- Hz in Hh. rewrite Hbody' in *. apply parse_chunks; [|lia|lia|done].
    by apply Forall_fmap. }
  cbn in Hrun. injection Hrun as <-.
  rewrite (fill_fitting _ _ _ _ _ _ _ _ _ Hw Hin E) by (cbn; unfold PROTO_HEADER_SIZE; lia). fold body. rewrite Hput. cbn [mbind option_bind].
  pose proof (fitting_length _ _ _ _ _ E) as Hlen. rewrite length_imap in Hlen.
  replace (length m - length ys)%nat with (length xs) by lia.
  assert (Hd : drop (length xs) (zip r m) = f <$> ys).
  { rewrite (zip_imap 0 r m Hl). fold f. rewrite (fitting_app _ _ _ _ _ E), fmap_app. apply drop_app_length'. by rewrite length_fmap. }
  assert (K1 : (if completed ys then [] else drop (length xs) r) = (f <$> ys).*1).
  { rewrite <- Hd, fmap_drop, fst_zip by lia. destruct ys; [|done]. apply symmetry, drop_ge. simpl in Hlen. lia. }
  assert (K2 : (if completed ys then [] else drop (length xs) m) = (f <$> ys).*2).
  { rewrite <- Hd, fmap_drop, snd_zip by lia. destruct ys; [|done]. apply symmetry, drop_ge. simpl in Hlen. lia. }
  rewrite K1, K2. cbn [positions] in Hfin. change (PROTO_HEADER_SIZE + zlen []) with 16 in Hfin.
  change (Z.of_nat (length xs)) with (zlen xs). rewrite Hfin. cbn [mbind option_bind].
  replace (completed (f <$> ys)) with (completed ys) by (by destruct ys).
  eexists msg, _. split; [done|]. split; [|exact Harr]. unfold PROTO_HEADER_SIZE. zlens. lia.
Qed.

Lemma parse_keys xs buf :
  Forall short_key_ok xs → 4 + zlen (concat (key_bytes <$> xs)) < 2 ^ 32 → zlen xs < 2 ^ 32 →
  holds buf 0 (be_bytes 4 (zlen xs) ++ concat (key_bytes <$> xs) ++ []) →
  parse_payload q KBKeys buf (4 + zlen (concat (key_bytes <$> xs))) = Some (Some (CKeys xs)).
Proof using.
  clear. intros Hxs Hl Hn Hh. set (body := concat (key_bytes <$> xs)) in *. pose proof (zlen_nonneg body). pose proof (zlen_nonneg xs).
  cbn [parse_payload]. unfold parseBatchKeyHeader. rewrite pick_recv_nonzero by lia. cbv beta iota.
  unfold PROTO_BATCH_KEY_SIZE. rewrite short_at' by lia. read_field Hh. cbn [and_then mbind option_bind bh_count].
  replace (Z.to_nat (zlen xs)) with (length xs) by (unfold zlen; lia).
  unfold and_then. erewrite (read_items_holds _ _ key_bytes buf 4 (zlen body)); [done| |exact Hxs|lia|fold body; lia|exact Hh].
  intros a o ys Ha Ho Hle Hb'. apply (next_key_holds buf (4 + zlen body) ltac:(lia) _ _ _ ys); [done|done|lia|exact Hb'].
Qed.

Lemma arrives_keys ks : batch_arrives (BKeys ks).
Proof using Hp He Hq Hb.
  intros c b' done Hks. cbn [split_batch batch_kind_of generate_batch]. unfold generateBatchKeyHeader. destruct Hb as [Hs ?].
  destruct (fitting key_need (buffer_size p - PROTO_HEADER_SIZE - PROTO_BATCH_KEY_SIZE) ks) as [xs ys] eqn:E.
  intros [= <- <- <-]. unfold PROTO_BATCH_KEY_SIZE, PROTO_HEADER_SIZE in *.
  destruct (fitted _ _ _ _ _ (buffer_size p - 16 - 4) _ _ short_key_fits Hks ltac:(lia) E) as (Hxs & Ht & Hn & _ & Hd & Hfill).
  set (body := concat (key_bytes <$> xs)) in *.
  destruct (batch_delivered KBKeys [] [] 4 body [net4 (zlen xs)] (CKeys xs))
    as (c & c' & msg & Hrun & Hpos & Hbytes & Hin & Hput & Hfin & Harr); [apply run_nil|done|lia|zlens; unfold PROTO_HEADER_SIZE; lia| |].
  { intros buf Hh. cbn [concat app] in Hh. rewrite net4_be in Hh. apply parse_keys; [done|fold body; lia|lia|done]. }
  cbn in Hrun. injection Hrun as <-. pose proof (zlen_nonneg xs).
  change (λ k, PROTO_KEY_SIZE + size k) with key_need. rewrite Hfill by (done || (cbn; unfold PROTO_HEADER_SIZE; lia)).
  rewrite Hput. cbn [mbind option_bind].
  replace (written ks ys) with (zlen xs) by (unfold written; rewrite Hd, u32_small; lia).
  cbn [positions] in Hfin. change (PROTO_HEADER_SIZE + zlen []) with 16 in Hfin. rewrite Hfin. cbn [mbind option_bind].
  eexists msg, _. split; [done|]. split; [|exact Harr]. unfold PROTO_HEADER_SIZE. zlens. lia.
Qed.

(** The metadata of sealed chunks and of operations, behind [base] bytes. *)
Lemma read_sealed_ops buf base pre xs os :
  Forall Metadata.wf xs → Forall op_ok os →
  base = zlen pre → 0 < base → base + zlen (concat (metadata_bytes <$> xs)) + zlen (concat (op_bytes <$> os)) < 2 ^ 32 →
  holds buf 0 (pre ++ concat (metadata_bytes <$> xs) ++ concat (op_bytes <$> os) ++ []) →
  let sz := base + zlen (concat (metadata_bytes <$> xs)) + zlen (concat (op_bytes <$> os)) in
  read_items (next_metadata q buf sz) (length xs) base = Some (Some (xs, base + zlen (concat (metadata_bytes <$> xs)))) ∧
  read_items (next_op q buf sz) (length os) (base + zlen (concat (metadata_bytes <$> xs))) = Some (Some (os, sz)).
Proof using.
  clear. intros Hxs Hos Hbase Hpos Hl Hh sz. set (s := concat (metadata_bytes <$> xs)) in *. set (o := concat (op_bytes <$> os)) in *.
  pose proof (zlen_nonneg s). pose proof (zlen_nonneg o). apply (holds_skip base) in Hh; [|done]. rewrite Z.add_0_l in Hh.
  split.
  - rewrite (read_items_holds _ Metadata.wf metadata_bytes buf 0 sz) with (ys := o ++ []); [done| |done|lia|fold s; lia|exact Hh].
    intros a i ys Ha Hi Hle Hb'. by apply (next_metadata_holds q buf sz ltac:(lia) _ _ ys).
  - rewrite (read_items_holds _ op_ok op_bytes buf 0 sz) with (ys := []); [done| |done|lia|fold o; lia|].
    + intros a i ys Ha Hi Hle Hb'. by apply (next_op_holds q buf sz ltac:(lia) _ _ ys).
    + rewrite Z.add_0_l. by apply (holds_skip (zlen s)) in Hh.
Qed.

Definition heartbeat_gaps (t n k : Z) (last : bool) : list (list byte) := [net4 t; net4 n; net4 k; [z2b (b2i last)]].

Lemma parse_heartbeat t xs os last buf :
  0 ≤ t < 2 ^ 32 → Forall Metadata.wf xs → Forall op_ok os → zlen xs < 2 ^ 32 → zlen os < 2 ^ 32 →
  13 + zlen (concat (metadata_bytes <$> xs)) + zlen (concat (op_bytes <$> os)) < 2 ^ 32 →
  holds buf 0 (concat (heartbeat_gaps t (zlen xs) (zlen os) last) ++ concat (metadata_bytes <$> xs) ++ concat (op_bytes <$> os) ++ []) →
  parse_payload q KBHeartbeat buf (13 + zlen (concat (metadata_bytes <$> xs)) + zlen (concat (op_bytes <$> os)))
  = Some (Some (CHeartbeat None t xs os last)).
Proof using.
  clear. intros Ht Hxs Hos Hn Hk Hl Hh. pose proof (zlen_nonneg xs). pose proof (zlen_nonneg os).
  destruct (read_sealed_ops buf 13 (concat (heartbeat_gaps t (zlen xs) (zlen os) last)) xs os Hxs Hos ltac:(done) ltac:(done) Hl Hh) as [R1 R2].
  set (s := concat (metadata_bytes <$> xs)) in *. set (o := concat (op_bytes <$> os)) in *.
  pose proof (zlen_nonneg s). pose proof (zlen_nonneg o).
  cbn [parse_payload]. unfold parseHeartbeatHeader. rewrite pick_recv_nonzero by lia. cbv beta iota.
  unfold PROTO_HEARTBEAT_SIZE. rewrite short_at' by lia.
  cbn [heartbeat_gaps concat] in Hh. rewrite !net4_be, <- !(assoc (++)) in Hh. do 4 read_field Hh. rewrite i2b_b2i.
  cbn [and_then mbind option_bind hb_sealed hb_keys hb_timestamp hb_isLast].
  replace (Z.to_nat (zlen xs)) with (length xs) by (unfold zlen; lia).
  replace (Z.to_nat (zlen os)) with (length os) by (unfold zlen; lia).
  unfold and_then. rewrite R1. cbn [mbind option_bind]. by rewrite R2.
Qed.

Lemma arrives_heartbeat t s o : batch_arrives (BHeartbeat t s o).
Proof using Hp He Hq Hb.
  intros c b' done (Ht & Hs & Ho). cbn [split_batch batch_kind_of generate_batch]. unfold generateHeartbeatMessage. destruct Hb as [Hbs ?].
  unfold PROTO_HEARTBEAT_SIZE, PROTO_HEADER_SIZE in *.
  destruct (fitting metadata_need (buffer_size p - 16 - 13) s) as [xs ys] eqn:E.
  destruct (fitted _ _ _ _ _ (buffer_size p - 16 - 13) _ _ metadata_fits Hs ltac:(lia) E) as (Hxs & Hlx & Hnx & Htx & Hdx & Hfx).
  rewrite Htx. set (sb := concat (metadata_bytes <$> xs)) in *.
  destruct (fitting op_need (buffer_size p - 16 - 13 - zlen sb) o) as [xs' ys'] eqn:E'.
  destruct (fitted _ _ _ _ _ (buffer_size p - 16 - 13 - zlen sb) _ _ op_fits Ho ltac:(lia) E') as (Hos & Hlo & Hno & _ & Hdo & Hfo).
  set (ob := concat (op_bytes <$> xs')) in *. intros [= <- <- <-]. set (last := completed ys && completed ys').
  pose proof (zlen_nonneg xs). pose proof (zlen_nonneg xs'). pose proof (zlen_nonneg sb). pose proof (zlen_nonneg ob).
  destruct (batch_delivered KBHeartbeat [] [] 13 (sb ++ ob) (heartbeat_gaps t (zlen xs) (zlen xs') last) (CHeartbeat None t xs xs' last))
    as (c & c' & msg & Hrun & Hpos & Hbytes & Hin & Hput & Hfin & Harr); [apply run_nil|done|lia|zlens; unfold PROTO_HEADER_SIZE; lia| |].
  { intros buf Hh. rewrite <- (app_assoc sb) in Hh. rewrite zlen_app, (Z.add_assoc _ (zlen sb)).
    change (zlen [] + 13) with 13. apply parse_heartbeat; [done..|lia|lia|fold sb ob; lia|exact Hh]. }
  cbn in Hrun. injection Hrun as <-. apply put_two in Hput as (c1 & Hput1 & Hput2 & Hin1 & Hbytes1); [|done].
  cbn [skip behind_header c_bytes] in Hbytes1. unfold PROTO_HEADER_SIZE in Hbytes1.
  rewrite Hfx by (done || (cbn; unfold PROTO_HEADER_SIZE; lia)). rewrite Hput1. cbn [mbind option_bind].
  rewrite Hfo by (done || lia). rewrite Hput2. cbn [mbind option_bind].
  replace (written s ys) with (zlen xs) by (unfold written; rewrite Hdx, u32_small; lia).
  replace (written o ys') with (zlen xs') by (unfold written; rewrite Hdo, u32_small; lia).
  fold last. cbn [positions heartbeat_gaps] in Hfin. change (PROTO_HEADER_SIZE + zlen []) with 16 in Hfin.
  change (zlen (net4 _)) with 4 in Hfin. change (16 + 4 + 4) with (16 + 8) in Hfin. change (16 + 8 + 4) with (16 + 12) in Hfin.
  rewrite Hfin. cbn [mbind option_bind].
  eexists msg, _. split; [done|]. split; [|exact Harr]. unfold PROTO_HEADER_SIZE. zlens. lia.
Qed.


Lemma emits_address a : address_ok a →
  emits (run [write4Bytes (ad_addr a) false; write2Bytes (ad_port a) false]) (address_bytes a).
Proof using.
  clear. intros [? ?]. unfold address_bytes. rewrite <- (app_nil_r (le_bytes 2 _)). emit.
Qed.

Lemma parse_backup a t xs os last buf :
  address_ok a → 0 ≤ t < 2 ^ 32 → Forall Metadata.wf xs → Forall op_ok os → zlen xs < 2 ^ 32 → zlen os < 2 ^ 32 →
  6 + 13 + zlen (concat (metadata_bytes <$> xs)) + zlen (concat (op_bytes <$> os)) < 2 ^ 32 →
  holds buf 0 (address_bytes a ++ concat (heartbeat_gaps t (zlen xs) (zlen os) last)
    ++ concat (metadata_bytes <$> xs) ++ concat (op_bytes <$> os) ++ []) →
  parse_payload q KBBackup buf (6 + 13 + zlen (concat (metadata_bytes <$> xs)) + zlen (concat (op_bytes <$> os)))
  = Some (Some (CHeartbeat (Some a) t xs os last)).
Proof using.
  clear. intros [? ?] Ht Hxs Hos Hn Hk Hl Hh. pose proof (zlen_nonneg xs). pose proof (zlen_nonneg os).
  rewrite (app_assoc (address_bytes a)) in Hh.
  destruct (read_sealed_ops buf (6 + 13) (address_bytes a ++ concat (heartbeat_gaps t (zlen xs) (zlen os) last)) xs os
    Hxs Hos ltac:(done) ltac:(done) Hl Hh) as [R1 R2].
  set (s := concat (metadata_bytes <$> xs)) in *. set (o := concat (op_bytes <$> os)) in *.
  pose proof (zlen_nonneg s). pose proof (zlen_nonneg o).
  cbn [parse_payload]. unfold parseMetadataBackupMessage, parseAddressHeader, parseHeartbeatHeader.
  rewrite !pick_recv_nonzero by lia. cbv beta iota.
  unfold PROTO_ADDRESS_SIZE, PROTO_HEARTBEAT_SIZE. rewrite !short_at' by lia. unfold read_address.
  cbn [heartbeat_gaps concat] in Hh. unfold address_bytes in Hh. rewrite !net4_be, <- !(assoc (++)) in Hh.
  do 2 read_field Hh. change (0 + 4 + 2) with (0 + 6) in Hh. do 4 read_field Hh. rewrite i2b_b2i.
  cbn [option_map and_then mbind option_bind hb_sealed hb_keys hb_timestamp hb_isLast].
  replace (Z.to_nat (zlen xs)) with (length xs) by (unfold zlen; lia).
  replace (Z.to_nat (zlen os)) with (length os) by (unfold zlen; lia).
  unfold and_then. rewrite R1. cbn [mbind option_bind]. rewrite R2. cbn. by destruct a.
Qed.

Lemma fold_max_range l : Forall (λ t, 0 ≤ t < 2 ^ 32) l → ∀ t, 0 ≤ t < 2 ^ 32 → 0 ≤ fold_left Z.max l t < 2 ^ 32.
Proof using. clear. induction 1 as [|x l Hx Hl IH]; intros t Ht; [done|]. cbn. apply IH. lia. Qed.

Lemma Forall_seen {A} (P : A → Prop) (l ys : list A) : Forall P l → Forall P (seen l ys).
Proof using. clear. apply Forall_take. Qed.

Lemma stamped_fits (tm : Z * Metadata) : 0 ≤ tm.1 < 2 ^ 32 ∧ Metadata.wf tm.2 →
  (emits (write_metadata tm.2) (metadata_bytes tm.2) ∧ zlen (metadata_bytes tm.2) = metadata_need tm) ∧ 1 ≤ metadata_need tm.
Proof using. clear. intros [_ Hm]. apply (metadata_fits _ Hm). Qed.

Lemma arrives_backup a s o : batch_arrives (BBackup a s o).
Proof using Hp He Hq Hb.
  intros c b' done (Ha & Hs & Ho). cbn [split_batch batch_kind_of generate_batch]. unfold generateMetadataBackupMessage. destruct Hb as [Hbs ?].
  unfold PROTO_HEARTBEAT_SIZE, PROTO_HEADER_SIZE, PROTO_ADDRESS_SIZE in *.
  destruct (fitting metadata_need (buffer_size p - 16 - 6 - 13) s) as [xs ys] eqn:E.
  destruct (fitted _ _ _ _ _ (buffer_size p - 16 - 6 - 13) _ _ stamped_fits Hs ltac:(lia) E) as (Hxs & Hlx & Hnx & Htx & Hdx & Hfx).
  rewrite Htx. set (sb := concat ((λ tm, metadata_bytes tm.2) <$> xs)) in *.
  destruct (fitting op_need (buffer_size p - 16 - 6 - 13 - zlen sb) o) as [xs' ys'] eqn:E'.
  destruct (fitted _ _ _ _ _ (buffer_size p - 16 - 6 - 13 - zlen sb) _ _ op_fits Ho ltac:(lia) E') as (Hos & Hlo & Hno & _ & Hdo & Hfo).
  set (ob := concat (op_bytes <$> xs')) in *. intros [= <- <- <-]. set (last := completed ys && completed ys').
  set (t := fold_left Z.max _ _). pose proof (zlen_nonneg xs). pose proof (zlen_nonneg xs'). pose proof (zlen_nonneg sb). pose proof (zlen_nonneg ob).
  assert (Ht : 0 ≤ t < 2 ^ 32).
  { apply fold_max_range; [|done]. apply Forall_app. split; apply Forall_fmap, Forall_seen.
    - eapply Forall_impl; [exact Hs|]. by intros tm [? _].
    - eapply Forall_impl; [exact Ho|]. intros [k op] (_ & _ & _ & ?). done. }
  assert (Hsb : sb = concat (metadata_bytes <$> (snd <$> xs))) by (unfold sb; by rewrite <- list_fmap_compose).
  assert (Hsn : zlen (snd <$> xs) = zlen xs) by (unfold zlen; by rewrite length_fmap).
  destruct (batch_delivered KBBackup _ _ 13 (sb ++ ob) (heartbeat_gaps t (zlen xs) (zlen xs') last)
      (CHeartbeat (Some a) t (snd <$> xs) xs' last) (emits_address a Ha))
    as (c & c' & msg & Hrun & Hpos & Hbytes & Hin & Hput & Hfin & Harr); [done|lia|change (zlen (address_bytes a)) with 6; zlens; unfold PROTO_HEADER_SIZE; lia| |].
  { intros buf Hh. rewrite <- (app_assoc sb) in Hh. rewrite zlen_app, (Z.add_assoc _ (zlen sb)).
    change (zlen (address_bytes a)) with 6. rewrite <- Hsn in Hh. rewrite Hsb in *. apply parse_backup; [done..| |done|lia|lia|fold ob; lia|exact Hh].
    apply Forall_fmap. eapply Forall_impl; [exact Hxs|]. by intros tm [_ ?]. }
  change (zlen (address_bytes a)) with 6 in *. rewrite Hrun. cbn [mbind option_bind].
  apply put_two in Hput as (c1 & Hput1 & Hput2 & Hin1 & Hbytes1); [|done].
  cbn [skip c_bytes] in Hbytes1. rewrite Hbytes in Hbytes1. unfold PROTO_HEADER_SIZE in *.
  change (λ _ : Z * Metadata, PROTO_METADATA_SIZE) with (@metadata_need (Z * Metadata)).
  rewrite Hfx by (done || (cbn; lia)). rewrite Hput1. cbn [mbind option_bind].
  rewrite Hfo by (done || lia). rewrite Hput2. cbn [mbind option_bind].
  replace (written s ys) with (zlen xs) by (unfold written; rewrite Hdx, u32_small; lia).
  replace (written o ys') with (zlen xs') by (unfold written; rewrite Hdo, u32_small; lia).
  fold last. fold t. cbn [positions heartbeat_gaps] in Hfin.
  change (zlen (net4 _)) with 4 in Hfin. rewrite Hpos. change (16 + 6 + 4 + 4) with (16 + 6 + 8) in Hfin. change (16 + 6 + 8 + 4) with (16 + 6 + 12) in Hfin.
  rewrite Hfin. cbn [mbind option_bind].
  eexists msg, _. split; [done|]. split; [|exact Harr]. zlens. lia.
Qed.

Lemma fill_stripes_fitting n it : ∀ room count c xs ys,
  in_buffer c → fitting stripe_need room (take (Z.to_nat (n - count)) it) = (xs, ys) →
  room = Z.min (buffer_size p - c_bytes c) (4 * (3000 - count)) →
  fill_stripes p n count it c
  = (c ← put (words xs) c; Some (ys ++ drop (Z.to_nat (n - count)) it, completed ys, count + zlen xs, c)).
Proof using.
  clear. induction it as [|id it IH]; intros room count c xs ys Hc E Hroom.
  { rewrite take_nil in E. injection E as <- <-. cbn [fill_stripes]. change (words []) with (@nil byte).
    rewrite put_nil by done. cbn. by rewrite drop_nil, Z.add_0_r. }
  cbn [fill_stripes]. destruct (decide (count < n)).
  - replace (Z.to_nat (n - count)) with (S (Z.to_nat (n - (count + 1)))) in * by lia. cbn [take drop fitting] in *.
    unfold stripe_need in E at 1. destruct (decide (4 ≤ room)); [rewrite decide_True by lia|rewrite decide_False by lia].
    + destruct (fitting stripe_need _ _) as [xs' ys'] eqn:E'. injection E as <- <-.
      change (words (id :: xs')) with (be_bytes 4 id ++ words xs'). rewrite put_app, (emits_write4 id) by done.
      destruct (put (be_bytes 4 id) c) as [c'|] eqn:Hput; [|done]. cbn [mbind option_bind].
      rewrite (IH _ _ _ _ _ ltac:(by eapply put_in_buffer) E').
      * destruct (put (words xs') c'); [|done]. cbn [mbind option_bind]. rewrite zlen_cons. do 3 f_equal. by rewrite Z.add_assoc.
      * rewrite (put_bytes _ _ _ Hput). change (zlen (be_bytes 4 id)) with 4. unfold stripe_need. lia.
    + injection E as <- <-. change (words []) with (@nil byte). rewrite put_nil by done. cbn. by rewrite take_drop, Z.add_0_r.
  - replace (Z.to_nat (n - count)) with O in * by lia. cbn [take drop fitting] in *. injection E as <- <-.
    change (words []) with (@nil byte). rewrite put_nil by done. cbn. by rewrite Z.add_0_r.
Qed.

Lemma parse_reconstruct l c xs buf :
  0 ≤ l < 2 ^ 32 → 0 ≤ c < 2 ^ 32 → words_ok xs → 12 + zlen (words xs) < 2 ^ 32 →
  holds buf 0 ((be_bytes 4 l ++ be_bytes 4 c) ++ be_bytes 4 (zlen xs) ++ words xs ++ []) →
  parse_payload q KBReconstruct buf (8 + 4 + zlen (words xs)) = Some (Some (CReconstruct l c xs)).
Proof using.
  clear. intros ?? Hxs Hl Hh. pose proof (zlen_nonneg xs). rewrite zlen_words in *. rewrite <- (app_assoc (be_bytes 4 l)) in Hh.
  cbn [parse_payload]. unfold parseReconstructionHeader. rewrite !pick_recv_nonzero by lia. cbv beta iota.
  unfold PROTO_RECONSTRUCTION_SIZE. rewrite !short_at' by lia. pose proof Hh as Hall. do 3 read_field Hh.
  rewrite u32_small, short_at' by lia. rewrite !(app_assoc _ _ (words xs ++ [])) in Hall.
  convert_one Hall Hxs r' Hr'. cbn [and_then mbind option_bind rc_stripeIds rc_numStripes rc_listId rc_chunkId].
  apply (holds_skip 12) in Hr'; [|by zlens]. by rewrite (word_array_holds _ _ _ _ _ Hr' Hxs).
Qed.

Lemma arrives_reconstruct l c n ids : batch_arrives (BReconstruct l c n ids).
Proof using Hp He Hq Hb.
  intros cts b' done (Hlr & Hcr & Hnr & Hids). cbn [split_batch batch_kind_of generate_batch]. unfold generateReconstructionHeader. destruct Hb as [Hbs ?].
  unfold PROTO_RECONSTRUCTION_SIZE, PROTO_HEADER_SIZE in *.
  destruct (fitting stripe_need _ _) as [xs ys] eqn:E. intros [= <- <- <-].
  assert (Hxs : words_ok xs). { apply (fitting_all _ _ _ _ _ _ E). by apply Forall_take. }
  assert (Ht : 4 * zlen xs ≤ Z.min (buffer_size p - 16 - 12) (4 * 3000)).
  { rewrite <- zlen_words. unfold words. rewrite (zlen_concat stripe_need); [|apply Forall_forall; intros; by zlens].
    eapply fitting_total; [|exact E]. lia. }
  pose proof (zlen_nonneg xs).
  assert (He8 : emits (run [write4 l; write4 c]) (be_bytes 4 l ++ be_bytes 4 c)) by (rewrite <- (app_nil_r (be_bytes 4 c)); emit).
  destruct (batch_delivered KBReconstruct _ _ 4 (words xs) [net4 (zlen xs)] (CReconstruct l c xs) He8)
    as (c0 & c' & msg & Hrun & Hpos & Hbytes & Hin & Hput & Hfin & Harr); [done|lia|zlens; unfold PROTO_HEADER_SIZE; lia| |].
  { intros buf Hh. cbn [concat] in Hh. rewrite net4_be, app_nil_r in Hh.
    change (zlen (be_bytes 4 l ++ be_bytes 4 c)) with 8. apply parse_reconstruct; [done..|zlens; lia|exact Hh]. }
  rewrite Hrun. cbn [mbind option_bind]. unfold PROTO_HEADER_SIZE in *. change (zlen (be_bytes 4 l ++ be_bytes 4 c)) with 8 in *.
  change (12 - 8) with 4. rewrite (fill_stripes_fitting n ids (Z.min (buffer_size p - 16 - 12) (4 * 3000)) 0 _ xs ys Hin).
  2:{ by rewrite Z.sub_0_r. }
  2:{ cbn [skip c_bytes]. lia. }
  rewrite Hput, Z.sub_0_r. cbn [mbind option_bind]. cbn [positions] in Hfin. rewrite Hpos, Z.add_0_l, Hfin. cbn [mbind option_bind].
  eexists msg, _. split; [done|]. split; [|exact Harr]. zlens. lia.
Qed.

(** The metadata of chunks as an array of words. *)
Definition metadata_words (m : Metadata) : list Z := [listId m; stripeId m; chunkId m].
Lemma metadata_bytes_words ms : concat (metadata_bytes <$> ms) = words (concat (metadata_words <$> ms)).
Proof using.
  clear. induction ms as [|m ms IH]; [done|]. cbn [fmap list_fmap concat]. rewrite words_app, <- IH. f_equal.
Qed.
Lemma metadata_words_ok ms : Forall Metadata.wf ms → words_ok (concat (metadata_words <$> ms)) ∧ zlen (concat (metadata_words <$> ms)) = 3 * zlen ms.
Proof using.
  clear. induction 1 as [|m ms (? & ? & ?) Hms [IH1 IH2]]; [split; [by constructor|done]|]. cbn [fmap list_fmap concat]. split.
  - apply Forall_app. split; [|done]. unfold metadata_words. do 3 (apply Forall_cons; split; [done|]). by constructor.
  - rewrite zlen_app, IH2, zlen_cons. change (zlen (metadata_words m)) with 3. lia.
Qed.

Lemma triples_holds buf ptr ms ys : Forall Metadata.wf ms →
  holds buf ptr (host_words (concat (metadata_words <$> ms)) ++ ys) →
  mapM (λ i, triple buf (ptr + PROTO_METADATA_SIZE * i)) (seqZ 0 (zlen ms)) = Some ms.
Proof using.
  clear. intros Hms Hh. apply mapM_Some. apply Forall2_same_length_lookup_2.
  { unfold zlen. rewrite length_seqZ, Nat2Z.id. done. }
  intros i k m Hi Hm. apply lookup_seqZ in Hi as [-> Hi].
  pose proof (proj1 (Forall_lookup _ _) Hms i m Hm) as Hwf. cbn in Hwf.
  rewrite <- (take_drop_middle ms i m Hm), fmap_app, concat_app in Hh. cbn [fmap list_fmap concat] in Hh.
  unfold host_words in Hh. rewrite !fmap_app, !concat_app in Hh. rewrite <- !(assoc (++)) in Hh.
  pose proof (metadata_words_ok (take i ms) ltac:(by apply Forall_take)) as [_ Hz].
  apply (holds_skip (12 * Z.of_nat i)) in Hh.
  2:{ change (concat (le_bytes 4 <$> ?l)) with (host_words l). zlens. rewrite Hz. unfold zlen.
      rewrite length_take. apply lookup_lt_Some in Hm. lia. }
  unfold triple, PROTO_METADATA_SIZE. rewrite Z.add_0_l.
  pose proof (metadata_words_ok [m] ltac:(apply Forall_cons; split; [done|by constructor])) as [Hok _]. cbn [fmap list_fmap concat] in Hok. rewrite app_nil_r in Hok.
  rewrite (word_array_holds _ (metadata_words m) _ _ 3 Hh Hok) by done. cbn. by destruct m.
Qed.

Lemma parse_promote a ms ks buf :
  address_ok a → Forall Metadata.wf ms → Forall short_key_ok ks → zlen ms < 2 ^ 32 → zlen ks < 2 ^ 32 →
  14 + zlen (concat (metadata_bytes <$> ms)) + zlen (concat (key_bytes <$> ks)) < 2 ^ 32 →
  holds buf 0 (address_bytes a ++ (be_bytes 4 (zlen ms) ++ be_bytes 4 (zlen ks)) ++
    concat (metadata_bytes <$> ms) ++ concat (key_bytes <$> ks) ++ []) →
  parse_payload q KBPromote buf (6 + 8 + zlen (concat (metadata_bytes <$> ms)) + zlen (concat (key_bytes <$> ks)))
  = Some (Some (CPromote a ms ks)).
Proof using.
  clear. intros [? ?] Hms Hks ?? Hl Hh. pose proof (zlen_nonneg ms). pose proof (zlen_nonneg ks).
  destruct (metadata_words_ok ms Hms) as [Hwok Hwl]. rewrite metadata_bytes_words in *. rewrite zlen_words, Hwl in Hl |- *.
  set (kb := concat (key_bytes <$> ks)) in *. pose proof (zlen_nonneg kb).
  cbn [parse_payload]. unfold parsePromoteBackupServerHeader. rewrite !pick_recv_nonzero by lia. cbv beta iota.
  unfold PROTO_PROMOTE_BACKUP_SERVER_SIZE. rewrite !short_at' by lia. pose proof Hh as Hall.
  unfold address_bytes in Hh. rewrite <- !(assoc (++)) in Hh. do 4 read_field Hh.
  rewrite (app_assoc (address_bytes a)) in Hall. convert_one Hall Hwok r' Hr'.
  cbn [and_then mbind option_bind pb_metadata pb_keys pb_chunkCount pb_unsealedCount pb_address].
  apply (holds_skip 14) in Hr'; [|unfold address_bytes; by zlens].
  change (0 + 4 + 2 + 4 + 4) with (0 + 14). rewrite (triples_holds _ _ _ _ Hms Hr'). cbn [mbind option_bind].
  apply (holds_skip (12 * zlen ms)) in Hr'; [|rewrite zlen_host_words; lia]. unfold PROTO_METADATA_SIZE.
  replace (Z.to_nat (zlen ks)) with (length ks) by (unfold zlen; lia).
  rewrite (read_items_holds _ short_key_ok key_bytes r' (0 + 14 + 12 * zlen ms) (zlen kb) ks) with (ys := []);
    [by destruct a| |done|lia|fold kb; lia|by rewrite Z.add_0_r].
  intros k i ys Hk Hi Hle Hb'. apply (next_key_holds r' (14 + 12 * zlen ms + zlen kb) ltac:(lia) (MkBatchHeader _ _) _ _ ys); [done|done|lia|exact Hb'].
Qed.

Lemma arrives_promote a cs ks : batch_arrives (BPromote a cs ks).
Proof using Hp He Hq Hb.
  intros c b' done (Ha & Hs & Ho). cbn [split_batch batch_kind_of generate_batch]. unfold generatePromoteBackupServerHeader. destruct Hb as [Hbs ?].
  unfold PROTO_PROMOTE_BACKUP_SERVER_SIZE, PROTO_HEADER_SIZE in *.
  destruct (fitting metadata_need (buffer_size p - 16 - 14) cs) as [xs ys] eqn:E.
  destruct (fitted _ _ _ _ _ (buffer_size p - 16 - 14) _ _ metadata_fits Hs ltac:(lia) E) as (Hxs & Hlx & Hnx & Htx & Hdx & Hfx).
  rewrite Htx. set (sb := concat (metadata_bytes <$> xs)) in *.
  destruct (if completed ys then fitting key_need (buffer_size p - 16 - 14 - zlen sb) ks else ([], ks)) as [xs' ys'] eqn:E'.
  assert (Hkeys : Forall short_key_ok xs' ∧ zlen (concat (key_bytes <$> xs')) ≤ buffer_size p - 16 - 14 - zlen sb ∧
    zlen xs' ≤ zlen (concat (key_bytes <$> xs')) ∧ zlen ks - zlen ys' = zlen xs' ∧
    ∀ c, in_buffer c → buffer_size p - 16 - 14 - zlen sb = buffer_size p - c_bytes c →
      (if completed ys then fill (buffer_size p) key_need write_short_key ks c else Some (ks, c))
      = (c ← put (concat (key_bytes <$> xs')) c; Some (ys', c))).
  { destruct (completed ys).
    - destruct (fitted _ _ _ _ _ (buffer_size p - 16 - 14 - zlen sb) _ _ short_key_fits Ho ltac:(lia) E') as (K1 & K2 & K3 & _ & K4 & K5).
      do 4 (split; [done|]). intros. by apply K5.
    - injection E' as <- <-. split; [done|]. split; [cbn; change (zlen []) with 0; lia|]. split; [done|]. split; [change (zlen []) with 0; lia|].
      intros c0 Hc0 _. cbn. by rewrite put_nil. }
  destruct Hkeys as (Hos & Hlo & Hno & Hdo & Hfo).
  set (ob := concat (key_bytes <$> xs')) in *. intros [= <- <- <-].
  pose proof (zlen_nonneg xs). pose proof (zlen_nonneg xs'). pose proof (zlen_nonneg sb). pose proof (zlen_nonneg ob).
  destruct (batch_delivered KBPromote _ _ 8 (sb ++ ob) [net4 (zlen xs); net4 (zlen xs')] (CPromote a xs xs') (emits_address a Ha))
    as (c & c' & msg & Hrun & Hpos & Hbytes & Hin & Hput & Hfin & Harr);
    [done|lia|change (zlen (address_bytes a)) with 6; zlens; unfold PROTO_HEADER_SIZE; lia| |].
  { intros buf Hh. rewrite <- (app_assoc sb) in Hh. rewrite zlen_app, (Z.add_assoc _ (zlen sb)).
    cbn [concat] in Hh. rewrite app_nil_r, !net4_be in Hh.
    change (zlen (address_bytes a)) with 6. apply parse_promote; [done..|lia|lia|fold sb ob; lia|exact Hh]. }
  change (zlen (address_bytes a)) with 6 in *. rewrite Hrun. cbn [mbind option_bind].
  apply put_two in Hput as (c1 & Hput1 & Hput2 & Hin1 & Hbytes1); [|done].
  cbn [skip c_bytes] in Hbytes1. rewrite Hbytes in Hbytes1. unfold PROTO_HEADER_SIZE in *. change (14 - 6) with 8.
  rewrite Hfx by (done || (cbn; lia)). rewrite Hput1. cbn [mbind option_bind].
  change (λ k, PROTO_KEY_SIZE + size k) with key_need. rewrite Hfo by (done || lia). rewrite Hput2. cbn [mbind option_bind].
  replace (written cs ys) with (zlen xs) by (unfold written; rewrite Hdx, u32_small; lia).
  replace (written ks ys') with (zlen xs') by (unfold written; rewrite Hdo, u32_small; lia).
  cbn [positions] in Hfin. change (zlen (net4 _)) with 4 in Hfin. rewrite Hpos, Hfin. cbn [mbind option_bind].
  eexists msg, _. split; [done|]. split; [|exact Harr]. zlens. lia.
Qed.
End arrives.

(** ** Sending everything *)

(** The senders' loop: messages until [isCompleted]. *)
Fixpoint send_loop (fuel : nat) (p : Protocol) (e : envelope) (b : batch) : option (list (list byte * Z)) :=
  match fuel with
  | O => None
  | S fuel =>
      '(b', done, msg) ← generate_batch p e b;
      if (done : bool) then Some [msg] else msgs ← send_loop fuel p e b'; Some (msg :: msgs)
  end.

(** The objects of a container and of a message. *)
Inductive object := OChunk (rm : Z * Metadata) | OKey (k : Key) | OSealed (m : Metadata) | OOp (op : Key * OpMetadata).

Definition objects (b : batch) : list object :=
  match b with
  | BChunks r m => OChunk <$> zip r m
  | BKeys ks => OKey <$> ks
  | BHeartbeat _ s o => (OSealed <$> s) ++ (OOp <$> o)
  | BBackup _ s o => (OSealed <$> (snd <$> s)) ++ (OOp <$> o)
  | BPromote _ c ks => (OSealed <$> c) ++ (OKey <$> ks)
  | BReconstruct _ _ _ _ => []
  end.
Definition contents_objects (c : contents) : list object :=
  match c with
  | CChunks l => OChunk <$> l
  | CKeys ks => OKey <$> ks
  | CHeartbeat _ _ s o _ => (OSealed <$> s) ++ (OOp <$> o)
  | CPromote _ c ks => (OSealed <$> c) ++ (OKey <$> ks)
  | CReconstruct _ _ _ => []
  end.

(** Reconstruction requests stop after [numChunks]; another loop spreads them
    over servers. *)
Definition loops (b : batch) : Prop := match b with BReconstruct _ _ _ _ => False | _ => True end.

(** Two containers: the second is only begun when nothing of the first is left. *)
Lemma fitting_two {A B} (need : A → Z) (need' : B → Z) l l' room xs ys xs' ys' :
  Forall (λ b, ∀ a, need a ≤ need' b) l' → fitting need room l = (xs, ys) →
  fitting need' (room - total need xs) l' = (xs', ys') → ys ≠ [] → xs' = [].
Proof.
  intros Hn E E' Hy. destruct ys as [|y ys]; [done|]. pose proof (fitting_maximal _ _ _ _ _ _ E).
  destruct l' as [|b l']; cbn [fitting] in E'; [by injection E' as <- <-|].
  apply Forall_cons in Hn as [Hn _]. specialize (Hn y). rewrite decide_False in E' by lia. by injection E' as <- <-.
Qed.

Lemma fitting_progress {A} (need : A → Z) l room ys :
  Forall (λ a, need a ≤ room) l → fitting need room l = ([], ys) → l = [] ∧ ys = [].
Proof.
  destruct l as [|a l]; cbn [fitting]; [by intros _ [= <-]|]. intros [Ha _]%Forall_cons. rewrite decide_True by done.
  by destruct (fitting need (room - need a) l).
Qed.

(** A message of a loop takes the first objects, at least one unless it is the
    last message, and the rest is as good as the whole was. *)
Record progress (b : batch) (c : contents) (b' : batch) (done : bool) : Prop := {
  pr_objects : objects b = contents_objects c ++ objects b';
  pr_ok : batch_ok b';
  pr_loops : loops b';
  pr_kind : batch_kind_of b' = batch_kind_of b;
  pr_done : done = true → objects b' = [];
  pr_more : done = false → contents_objects c ≠ [] }.

Lemma key_need_range k : short_key_ok k → 1 ≤ key_need k ≤ 256.
Proof. intros (_ & ? & _). unfold key_need, PROTO_KEY_SIZE. lia. Qed.
Lemma op_need_range o : op_ok o → 19 ≤ op_need o ≤ 277.
Proof.
  destruct o as [k op]. intros [[? _] _]. cbn [fst op_need] in *. pose proof (large_size_range (isLarge k)).
  unfold PROTO_KEY_OP_METADATA_SIZE. lia.
Qed.

Lemma completed_or {A} (l : list A) : completed l = true ∧ l = [] ∨ completed l = false ∧ l ≠ [].
Proof. destruct l; [by left|by right]. Qed.

(** Sealed chunks and operations share a message. *)
Lemma two_progress {A} room (s : list A) (o : list (Key * OpMetadata)) xs ys xs' ys' :
  300 ≤ room → Forall op_ok o → fitting metadata_need room s = (xs, ys) → fitting op_need (room - total metadata_need xs) o = (xs', ys') →
  s = xs ++ ys ∧ o = xs' ++ ys' ∧ Forall op_ok ys' ∧
  (completed ys && completed ys' = true → ys = [] ∧ ys' = []) ∧
  (completed ys && completed ys' = false → xs ≠ [] ∨ xs' ≠ []) ∧ (ys ≠ [] → xs' = []).
Proof.
  intros Hroom Ho E E'. split; [by eapply fitting_app|]. split; [by eapply fitting_app|].
  split; [by eapply fitting_all|].
  assert (Htwo : ys ≠ [] → xs' = []).
  { eapply fitting_two; [|exact E|exact E']. eapply Forall_impl; [exact Ho|]. intros op Hop a.
    pose proof (op_need_range op Hop). unfold metadata_need, PROTO_METADATA_SIZE. lia. }
  split; [by intros [->%completed_nil ->%completed_nil]%andb_true_iff|]. split; [|done].
  destruct xs as [|x xs]; [|by left]. intros Hc.
  apply fitting_progress in E as [-> ->]; [|apply Forall_forall; intros; unfold metadata_need, PROTO_METADATA_SIZE; lia].
  destruct xs' as [|x' xs']; [|by right]. exfalso.
  apply fitting_progress in E' as [-> ->]; [done|]. eapply Forall_impl; [exact Ho|]. intros op Hop.
  pose proof (op_need_range op Hop). change (total metadata_need []) with 0. lia.
Qed.

Lemma split_progress size b c b' done :
  PROTO_BUF_MIN_SIZE ≤ size → batch_ok b → loops b → split_batch size b = (c, b', done) → progress b c b' done.
Proof.
  unfold PROTO_BUF_MIN_SIZE. intros Hsize Hok Hloop. destruct b as [r m|ks|t s o|a s o|a cs ks|]; [..|done]; cbn [split_batch batch_ok] in *.
  - destruct Hok as (Hl & Hr & Hm). destruct (fitting chunk_need _ _) as [xs ys] eqn:E. intros [= <- <- <-].
    pose proof (fitting_app _ _ _ _ _ E) as Happ. constructor; cbn [objects contents_objects].
    + by rewrite Happ, zip_fst_snd, fmap_app.
    + assert (r = xs.*1 ++ ys.*1) as -> by (rewrite <- fmap_app, <- Happ, fst_zip; [done|lia]).
      assert (m = xs.*2 ++ ys.*2) as -> by (rewrite <- fmap_app, <- Happ, snd_zip; [done|lia]).
      apply Forall_app in Hr as [_ Hr]. apply Forall_app in Hm as [_ Hm]. cbn [batch_ok]. by rewrite !length_fmap.
    + done.
    + done.
    + by intros ->%completed_nil.
    + intros Hc Hnil. apply fmap_nil_inv in Hnil as ->. apply fitting_progress in E as [_ ->]; [done|].
      apply Forall_forall. intros. unfold chunk_need, PROTO_CHUNK_SIZE, PROTO_HEADER_SIZE, PROTO_BATCH_CHUNK_SIZE. lia.
  - destruct (fitting key_need _ ks) as [xs ys] eqn:E. intros [= <- <- <-]. constructor; cbn [objects contents_objects].
    + by rewrite (fitting_app _ _ _ _ _ E), fmap_app.
    + by eapply fitting_all in E as [_ ?].
    + done.
    + done.
    + by intros ->%completed_nil.
    + intros Hc Hnil. apply fmap_nil_inv in Hnil as ->. apply fitting_progress in E as [_ ->]; [done|].
      eapply Forall_impl; [exact Hok|]. intros k Hk%key_need_range. unfold PROTO_HEADER_SIZE, PROTO_BATCH_KEY_SIZE. lia.
  - destruct Hok as (Ht & Hs & Ho). destruct (fitting metadata_need _ s) as [xs ys] eqn:E.
    destruct (fitting op_need _ o) as [xs' ys'] eqn:E'. intros [= <- <- <-].
    destruct (two_progress (size - PROTO_HEADER_SIZE - PROTO_HEARTBEAT_SIZE) _ _ _ _ _ _
      ltac:(unfold PROTO_HEADER_SIZE, PROTO_HEARTBEAT_SIZE; lia) Ho E E')
      as (-> & -> & Ho' & Hd & Hm & Htwo). constructor; cbn [objects contents_objects].
    + rewrite !fmap_app, <- !(assoc (++)). destruct ys as [|y ys]; [done|]. by rewrite Htwo.
    + apply Forall_app in Hs as [_ Hs]. done.
    + done.
    + done.
    + by intros [-> ->]%Hd.
    + intros Hc Hnil. apply app_nil in Hnil as [->%fmap_nil_inv ->%fmap_nil_inv]. by destruct (Hm Hc).
  - destruct Hok as (Ha & Hs & Ho). destruct (fitting metadata_need _ s) as [xs ys] eqn:E.
    destruct (fitting op_need _ o) as [xs' ys'] eqn:E'. intros [= <- <- <-].
    destruct (two_progress (size - PROTO_HEADER_SIZE - PROTO_ADDRESS_SIZE - PROTO_HEARTBEAT_SIZE) _ _ _ _ _ _
      ltac:(unfold PROTO_HEADER_SIZE, PROTO_HEARTBEAT_SIZE, PROTO_ADDRESS_SIZE; lia) Ho E E')
      as (-> & -> & Ho' & Hd & Hm & Htwo). constructor; cbn [objects contents_objects].
    + rewrite !fmap_app, <- !(assoc (++)). destruct ys as [|y ys]; [done|]. by rewrite Htwo.
    + apply Forall_app in Hs as [_ Hs]. done.
    + done.
    + done.
    + by intros [-> ->]%Hd.
    + intros Hc Hnil. apply app_nil in Hnil as [->%fmap_nil_inv%fmap_nil_inv ->%fmap_nil_inv]. by destruct (Hm Hc).
  - destruct Hok as (Ha & Hs & Ho). destruct (fitting metadata_need _ cs) as [xs ys] eqn:E.
    destruct (if completed ys then _ else _) as [xs' ys'] eqn:E'. intros [= <- <- <-].
    pose proof (fitting_app _ _ _ _ _ E) as ->. apply Forall_app in Hs as [_ Hs].
    assert (Hks : ks = xs' ++ ys').
    { destruct (completed ys); [by eapply fitting_app|by injection E' as <- <-]. }
    assert (Htwo : ys ≠ [] → xs' = []) by (by intros; destruct ys; [|injection E' as <- <-]).
    constructor; cbn [objects contents_objects].
    + rewrite Hks, !fmap_app, <- !(assoc (++)). destruct ys as [|y ys]; [done|]. by rewrite Htwo.
    + rewrite Hks in Ho. apply Forall_app in Ho as [_ Ho]. done.
    + done.
    + done.
    + by intros [->%completed_nil ->%completed_nil]%andb_true_iff.
    + intros Hc Hnil. apply app_nil in Hnil as [->%fmap_nil_inv ->%fmap_nil_inv].
      apply fitting_progress in E as [Hxy ->]; [|apply Forall_forall; intros; unfold metadata_need, PROTO_METADATA_SIZE, PROTO_HEADER_SIZE, PROTO_PROMOTE_BACKUP_SERVER_SIZE; lia].
      cbn [completed] in E', Hc. apply fitting_progress in E' as [_ ->]; [done|]. eapply Forall_impl; [exact Ho|].
      intros k Hk%key_need_range. change (total metadata_need []) with 0. unfold PROTO_HEADER_SIZE, PROTO_PROMOTE_BACKUP_SERVER_SIZE. lia.
Qed.

Section sending.
Context (p : Protocol) (e : envelope) (q : Protocol).
Hypothesis (Hp : protocol_ok p) (He : envelope_ok e) (Hq : to q = e_to e) (Hb : buffer_ok p).

Lemma one_batch b c b' done :
  batch_ok b → split_batch (buffer_size p) b = (c, b', done) →
  ∃ msg n, generate_batch p e b = Some (b', done, msg) ∧ PROTO_HEADER_SIZE + n ≤ buffer_size p ∧
    arrives (Some msg) q (header_of p e n 0 false) (parse_batch q (batch_kind_of b)) c.
Proof using Hp He Hq Hb.
  destruct b; [by apply arrives_chunks|by apply arrives_keys|by apply arrives_heartbeat|by apply arrives_backup
    |by apply arrives_promote|by apply arrives_reconstruct].
Qed.

(** The messages [msgs] of one kind arrive with the contents [cs]. *)
Definition all_arrive (k : batch_kind) : list (list byte * Z) → list contents → Prop :=
  Forall2 (λ msg c, ∃ n, PROTO_HEADER_SIZE + n ≤ buffer_size p ∧
    arrives (Some msg) q (header_of p e n 0 false) (parse_batch q k) c).

Lemma send_loop_sends n : ∀ b, PROTO_BUF_MIN_SIZE ≤ buffer_size p → batch_ok b → loops b → (length (objects b) ≤ n)%nat →
  ∃ msgs cs, send_loop (S n) p e b = Some msgs ∧ all_arrive (batch_kind_of b) msgs cs ∧ concat (contents_objects <$> cs) = objects b.
Proof using Hp He Hq Hb.
  induction n as [|n IH]; intros b Hsize Hok Hloop Hn; cbn [send_loop];
    destruct (split_batch (buffer_size p) b) as [[c b'] fin] eqn:E;
    destruct (one_batch b c b' fin Hok E) as (msg & k & -> & Hk & Harr);
    destruct (split_progress _ _ _ _ _ Hsize Hok Hloop E) as [Hobj Hok' Hloop' Hkind Hdone Hmore]; cbn [mbind option_bind].
  - destruct fin.
    + exists [msg], [c]. split; [done|]. split; [constructor; [by exists k|constructor]|].
      cbn. by rewrite Hobj, Hdone.
    + exfalso. apply (Hmore eq_refl). rewrite Hobj, length_app in Hn. apply length_zero_iff_nil. lia.
  - destruct fin.
    + exists [msg], [c]. split; [done|]. split; [constructor; [by exists k|constructor]|].
      cbn. by rewrite Hobj, Hdone.
    + destruct (IH b' Hsize Hok' Hloop') as (msgs & cs & Hsend & Hall & Hcs).
      { rewrite Hobj, length_app in Hn. specialize (Hmore eq_refl). destruct (contents_objects c); [done|simpl in Hn; lia]. }
      cbn [send_loop] in Hsend. exists (msg :: msgs), (c :: cs). rewrite Hsend. split; [done|]. rewrite Hkind in Hall. split.
      * constructor; [by exists k|done].
      * cbn [fmap list_fmap concat]. by rewrite Hcs.
Qed.
End sending.

(** *** Where the limits are missed *)

(** Writing more than there is room for. *)
Lemma put_overrun xs c : zlen (c_buf c) < c_pos c + zlen xs → put xs c = None.
Proof. intros. unfold put, splice. by rewrite decide_False by lia. Qed.

Lemma release_overrun p e chunks :
  buffer_ok p → buffer_size p - PROTO_HEADER_SIZE < 12 * zlen chunks → generateDegradedReleaseReqHeader p e chunks = None.
Proof.
  intros [Hs ?] Hmany. unfold generateDegradedReleaseReqHeader. unfold PROTO_HEADER_SIZE in *.
  destruct (fitting metadata_need (buffer_size p) chunks) as [xs ys] eqn:E.
  change (λ _ : Metadata, PROTO_DEGRADED_RELEASE_REQ_SIZE) with (@metadata_need Metadata).
  rewrite (fill_fitting _ _ _ metadata_bytes _ (buffer_size p) _ xs ys); [|apply Forall_forall; intros; apply emits_metadata_bytes| |done|cbn; lia].
  2:{ unfold in_buffer; cbn. unfold PROTO_HEADER_SIZE. lia. }
  rewrite put_overrun; [done|]. cbn [c_buf c_pos]. rewrite Hs, (zlen_concat metadata_need); [|by apply Forall_forall; intros; apply zlen_metadata_bytes].
  assert (Ht : ∀ l : list Metadata, total metadata_need l = 12 * zlen l).
  { unfold total. induction l as [|m l IH]; [done|]. cbn [fmap list_fmap foldr]. rewrite zlen_cons, IH. unfold metadata_need, PROTO_METADATA_SIZE. lia. }
  unfold PROTO_HEADER_SIZE. destruct ys as [|y ys].
  - apply fitting_app in E. rewrite app_nil_r in E. subst. rewrite Ht. lia.
  - pose proof (fitting_maximal _ _ _ _ _ _ E). unfold metadata_need, PROTO_METADATA_SIZE in *. lia.
Qed.

(** Converting a word behind the received bytes. *)
Lemma ntohl_words_overrun r a n : 0 < n → zlen r < a + 4 → ntohl_words a n r = None.
Proof.
  intros. unfold ntohl_words. rewrite for_range_step by done. unfold ntohl_at, read4Bytes, slice.
  rewrite decide_False by lia. done.
Qed.

(** The pairs of an unsealed chunk are written twice and counted once. *)
Lemma chunk_key_value_twice :
  let kv := [z2b 1; x00; x00; z2b 1; z2b 107; z2b 118] in
  let k := MkKey 1 [z2b 107] false in
  let p := MkProtocol (PROTO_MAGIC_FROM ROLE_SERVER) (PROTO_MAGIC_TO ROLE_SERVER) 64 (replicate 64 x00) [] in
  let e := Env PROTO_MAGIC_REQUEST (PROTO_MAGIC_TO ROLE_SERVER) 0x56 1 2 in
  ∃ b, generateChunkKeyValueHeader p e 4096 {[ 0%nat := kv ]} 3 4 5 (MkUnsealed [(k, Ptr 0 0)] [(MkMetadata 3 4 5, k)] [])
       = Some (MkUnsealed [] [] [], true, (b, PROTO_HEADER_SIZE + 21 + 6 + 6)) ∧
    slice b (PROTO_HEADER_SIZE + 21) 12 = Some (kv ++ kv) ∧
    parseChunkKeyValueHeader p (Some b) (PROTO_HEADER_SIZE + 21 + 6 + 6) PROTO_HEADER_SIZE
    = Some (Some (MkChunkKeyValueHeader (MkMetadata 3 4 5) 0 1 true (PROTO_HEADER_SIZE + 21))).
Proof. intros kv k p e. eexists. vm_compute. split; [reflexivity|]. by split. Qed.

(** ** Properties *)

(** C23: a message of a container carries its first objects, as many as fit into
    the send buffer: it stays within the buffer, the counts, the flag of the
    last message and every object arrive as they were, in their order, and the
    generator leaves exactly the other objects and reports whether there are
    any. *)
Theorem batches_arrive p e q b c b' done :
  protocol_ok p → envelope_ok e → to q = e_to e → buffer_ok p → batch_ok b →
  split_batch (buffer_size p) b = (c, b', done) →
  ∃ msg n, generate_batch p e b = Some (b', done, msg) ∧ PROTO_HEADER_SIZE + n ≤ buffer_size p ∧
    arrives (Some msg) q (header_of p e n 0 false) (parse_batch q (batch_kind_of b)) c.
Proof. intros. by apply one_batch. Qed.

(** C22: a sender that goes on until the generator reports completion terminates,
    after at most one message more than there are objects, and the receiver
    gets every object once, in order, however many messages are needed.  The
    send buffers are large enough for any one object. *)
Theorem batches_send_all p e q b :
  protocol_ok p → envelope_ok e → to q = e_to e → buffer_ok p → PROTO_BUF_MIN_SIZE ≤ buffer_size p → batch_ok b → loops b →
  ∃ msgs cs, send_loop (S (length (objects b))) p e b = Some msgs ∧ all_arrive p e q (batch_kind_of b) msgs cs ∧
    concat (contents_objects <$> cs) = objects b.
Proof. intros. by apply send_loop_sends. Qed.

(** C39: four limits are missed.  The release of degraded locks does not count the
    header, so with enough chunks it always writes behind the send buffer; the
    parser of a promotion trusts the number of chunks, that of a reconstruction
    request multiplies the number of stripes in 32 bits, and that of a batch of
    chunks measures from the second field: each can be led to read behind the
    received bytes. *)
Theorem batch_limits_missed q :
  (∀ p e chunks, buffer_ok p → buffer_size p - PROTO_HEADER_SIZE < 12 * zlen chunks →
     generateDegradedReleaseReqHeader p e chunks = None) ∧
  (∃ r, 0 < zlen r ∧ parsePromoteBackupServerHeader q true (Some r) (zlen r) 0 = None) ∧
  (∃ r, 0 < zlen r ∧ parseReconstructionHeader q true (Some r) (zlen r) 0 = None) ∧
  (∃ r, 0 < zlen r ∧ parse_payload q KBChunks r (zlen r) = None).
Proof.
  split; [apply release_overrun|]. split; [|split].
  - exists (replicate 9 x00 ++ [z2b 1] ++ replicate 4 x00). by vm_compute.
  - exists (replicate 8 x00 ++ z2b 64 :: replicate 3 x00). split; [done|]. unfold parseReconstructionHeader.
    rewrite pick_recv_nonzero by done. cbv beta iota.
    match goal with |- context [short ?a ?b PROTO_RECONSTRUCTION_SIZE] => change (short a b PROTO_RECONSTRUCTION_SIZE) with false end.
    cbv iota. match goal with |- context [read4 ?r 0] => set (buf := r) end.
    assert (read4 buf 0 = Some (0, 4)) as -> by done. cbn [mbind option_bind].
    assert (read4 buf 4 = Some (0, 8)) as -> by done. cbn [mbind option_bind].
    assert (read4 buf 8 = Some (2 ^ 30, 12)) as -> by done. cbn [mbind option_bind].
    change (short (zlen buf) 0 (PROTO_RECONSTRUCTION_SIZE + u32 (2 ^ 30 * 4))) with false. cbv iota.
    by rewrite ntohl_words_overrun.
  - exists (replicate 3 x00 ++ [z2b 1] ++ replicate 12 x00). by vm_compute.
Qed.

(** *** Witnesses *)

(** Two of three sealed chunks fit into a buffer of 64 bytes. *)
Lemma batches_arrive_witness :
  let p := MkProtocol (PROTO_MAGIC_FROM ROLE_SERVER) (PROTO_MAGIC_TO ROLE_SERVER) 64 (replicate 64 x00) [] in
  let q := Protocol_new ROLE_COORDINATOR in
  let e := Env PROTO_MAGIC_HEARTBEAT (PROTO_MAGIC_TO ROLE_COORDINATOR) 0x00 7 99 in
  let s := [MkMetadata 1 2 3; MkMetadata 1 2 4; MkMetadata 1 3 0] in
  let o := [(MkKey 1 [z2b 107] false, MkOpMetadata 1 (MkMetadata 1 3 0) 8)] in
  ∃ msg n, generate_batch p e (BHeartbeat 9 s o) = Some (BHeartbeat 9 [MkMetadata 1 3 0] o, false, msg) ∧
    PROTO_HEADER_SIZE + n ≤ 64 ∧
    arrives (Some msg) q (header_of p e n 0 false) (parse_batch q KBHeartbeat)
      (CHeartbeat None 9 [MkMetadata 1 2 3; MkMetadata 1 2 4] [] false).
Proof.
  intros p q e s o. apply (batches_arrive p e q (BHeartbeat 9 s o)).
  - by exists ROLE_SERVER.
  - split; [done|]. split; [by exists ROLE_COORDINATOR|]. split; [|done]. apply list_elem_of_In. cbn. tauto.
  - done.
  - done.
  - cbn. repeat (done || constructor).
  - reflexivity.
Defined.

(** One key. *)
Lemma batches_send_all_witness :
  let p := MkProtocol (PROTO_MAGIC_FROM ROLE_COORDINATOR) (PROTO_MAGIC_TO ROLE_COORDINATOR) 65536
             (replicate (Z.to_nat 65536) x00) [] in
  let q := Protocol_new ROLE_SERVER in
  let e := Env PROTO_MAGIC_REQUEST (PROTO_MAGIC_TO ROLE_SERVER) 0x40 7 99 in
  ∃ msgs cs, send_loop 2 p e (BKeys [MkKey 1 [z2b 107] false]) = Some msgs ∧ all_arrive p e q KBKeys msgs cs ∧
    concat (contents_objects <$> cs) = [OKey (MkKey 1 [z2b 107] false)].
Proof.
  intros p q e. apply (batches_send_all p e q (BKeys [MkKey 1 [z2b 107] false])).
  - by exists ROLE_COORDINATOR.
  - split; [done|]. split; [by exists ROLE_SERVER|]. split; [|done]. apply list_elem_of_In. cbn. tauto.
  - done.
  - split; [|done]. unfold zlen, p. cbn [buffer_send buffer_size]. rewrite length_replicate. lia.
  - done.
  - cbn. repeat (done || constructor).
  - done.
Defined.
