(* ===== verification/ServerMap.v ===== *)
(** * Map: what a server knows about its objects and chunks (server/ds/map.{hh,cc})

    Two cuckoo tables, from keys to objects and from identifiers to chunks; the
    stripe identifiers in use; the chunks and keys for which other servers stand
    in; and the operations and sealed chunks that the coordinator does not know
    yet.  Every part has its own lock, and a method is one atomic step.

    [chunk_table_refines]: the table of chunks is a finite map from identifiers
    to chunks; a new stripe identifier is unused; a deletion cancels an
    operation that was not synchronised. *)

From S2P Require Export Ids KeyMap CuckooHash ChunkUtil MessagesBatch.

Module ServerMap.
Import KeyMap Metadata.
Abbreviation table := CuckooHash.table.
Abbreviation CHUNK_IDENTIFIER_SIZE := ChunkUtil.CHUNK_IDENTIFIER_SIZE.
Abbreviation Key := Key.Key.

Definition PROTO_OPCODE_DELETE : Z := 0x04.
Definition UINT32_MAX : Z := 4294967295.

Record KeyMetadata := MkKeyMetadata {
  km_metadata : Metadata; km_offset : Z; km_length : Z; km_isParityRemapped : bool; km_obj : ptr }.

(** [timestamp] is the value of the server's clock, to which the object has a
    pointer. *)
Record Map := MkMap {
  timestamp : Timestamp.Timestamp;
  keys : table;
  chunks : table;
  stripeIds : gmap Z (gset Z);
  forwarded_keys : key_map Metadata;
  forwarded_chunks : gmap Metadata Metadata;
  ops : key_map OpMetadata;
  sealed : gset Metadata;
}.

Definition set_keys (t : Map) (x : table) : Map :=
  MkMap (timestamp t) x (chunks t) (stripeIds t) (forwarded_keys t) (forwarded_chunks t) (ops t) (sealed t).
Definition set_chunks (t : Map) (x : table) : Map :=
  MkMap (timestamp t) (keys t) x (stripeIds t) (forwarded_keys t) (forwarded_chunks t) (ops t) (sealed t).
Definition set_stripeIds (t : Map) x : Map :=
  MkMap (timestamp t) (keys t) (chunks t) x (forwarded_keys t) (forwarded_chunks t) (ops t) (sealed t).
Definition set_forwarded_keys (t : Map) x : Map :=
  MkMap (timestamp t) (keys t) (chunks t) (stripeIds t) x (forwarded_chunks t) (ops t) (sealed t).
Definition set_forwarded_chunks (t : Map) x : Map :=
  MkMap (timestamp t) (keys t) (chunks t) (stripeIds t) (forwarded_keys t) x (ops t) (sealed t).
Definition set_ops (t : Map) ts x : Map :=
  MkMap ts (keys t) (chunks t) (stripeIds t) (forwarded_keys t) (forwarded_chunks t) x (sealed t).
Definition set_sealed (t : Map) x : Map :=
  MkMap (timestamp t) (keys t) (chunks t) (stripeIds t) (forwarded_keys t) (forwarded_chunks t) (ops t) x.

(** The constructor and [setTimestamp]; [power] is the tables' build option,
    the paths of the tables are uninitialised. *)
Definition Map_new (power : Z) (cp1 cp2 : list CuckooHash.cp_entry) : Map :=
  MkMap Timestamp.new (CuckooHash.setKeySize (CuckooHash.init power 0 cp1) 0) (CuckooHash.setKeySize (CuckooHash.init power 0 cp2) CHUNK_IDENTIFIER_SIZE)
    ∅ [] ∅ [] ∅.
Definition setTimestamp (t : Map) (ts : Timestamp.Timestamp) : Map := set_ops t ts (ops t).

(** ** Operations and metadata *)

(** The result, the timestamp (an in-out argument) and the map. *)
Definition insertOpMetadata (t : Map) (opcode ts : Z) (key : Key) (keyMetadata : Metadata) (dup : bool) :
    option (bool * Z * Map) :=
  r ← find (ops t) key;
  match r with
  | None =>
      let '(now, clock) := Timestamp.nextVal (timestamp t) in
      key ← (if dup then Key_dup key (Key.isLarge key) else Some key);
      '(ret, o) ← insert (ops t) key (MkOpMetadata opcode keyMetadata now);
      Some (ret, now, set_ops t clock o)
  | Some (k, _) =>
      if decide (opcode = PROTO_OPCODE_DELETE) then
        o ← erase (ops t) k; Some (true, ts, set_ops t (timestamp t) o)
      else Some (false, ts, t)
  end.

Section map.
Variables (chunkSize : Z) (rand : nat → Z).

(** ** Objects *)
Definition insertKey (m : mem) (t : Map) (key : Key) (opcode ts : Z) (keyMetadata : KeyMetadata)
    (needsUpdateOpMetadata isLarge : bool) : option (bool * Z * Map) :=
  '(r, ks) ← CuckooHash.insert chunkSize rand m (keys t) (Key.data key) (Key.size key) (km_obj keyMetadata) isLarge;
  let t := set_keys t ks in
  if negb r then Some (false, ts, t) else
  key ← Key_dup key isLarge;
  if needsUpdateOpMetadata then insertOpMetadata t opcode ts key (km_metadata keyMetadata) true
  else Some (true, ts, t).

(** The object, and what [*keyPtr] is set to.  [findLargeObject] looks up a key
    with its split offset. *)
Definition find_object (m : mem) (t : Map) (keyStr : list byte) (keySize : Z) (isLarge : bool) :
    option (option ptr * Key) :=
  ret ← CuckooHash.find chunkSize m (keys t) keyStr keySize isLarge;
  k ← (match ret with
       | Some p => KeyValue.key chunkSize m p true
       | None => Some (Key.MkKey keySize keyStr isLarge)
       end);
  Some (ret, k).
Definition findObject (m : mem) (t : Map) (keyStr : list byte) (keySize : Z) := find_object m t keyStr keySize false.
Definition findLargeObject (m : mem) (t : Map) (keyStr : list byte) (keySize : Z) := find_object m t keyStr keySize true.

Definition deleteKey (m : mem) (t : Map) (key : Key) (opcode ts : Z) (keyMetadata : KeyMetadata)
    (needsUpdateOpMetadata : bool) : option (bool * Z * Map) :=
  r ← CuckooHash.find chunkSize m (keys t) (Key.data key) (Key.size key) false;
  match r with
  | None => Some (false, ts, t)
  | Some _ =>
      ks ← CuckooHash.del chunkSize m (keys t) (Key.data key) (Key.size key) false;
      let t := set_keys t ks in
      if needsUpdateOpMetadata then insertOpMetadata t opcode ts key (km_metadata keyMetadata) true
      else Some (true, ts, t)
  end.

(** ** Chunks *)

(** The loop of [setChunk] over the objects of a data chunk. *)
Fixpoint insert_objects (fuel : nat) (m : mem) (data p : ptr) (ks : table) : option table :=
  match fuel with
  | O => None
  | S fuel =>
      if decide (off p + KEY_VALUE_METADATA_SIZE < off data + chunkSize) then
        f ← KeyValue.deserialize chunkSize m p;
        if decide (KeyValue.f_keySize f = 0 ∧ KeyValue.f_valueSize f = 0) then Some ks else
        '(size, _) ← ChunkUtil.objectSize chunkSize f;
        k ← load m (KeyValue.f_key f) (KeyValue.f_keySize f);
        '(_, ks) ← CuckooHash.insert chunkSize rand m ks k (KeyValue.f_keySize f) p false;
        insert_objects fuel m data (p +ₚ size) ks
      else Some ks
  end.

Definition setChunk (m : mem) (t : Map) (listId stripeId chunkId : Z) (chunk : ptr) (isParity : bool) : option Map :=
  id ← load m chunk CHUNK_IDENTIFIER_SIZE;
  r ← CuckooHash.find chunkSize m (chunks t) id CHUNK_IDENTIFIER_SIZE false;
  cs ← (match r with
        | Some _ => Some (chunks t)
        | None => '(_, cs) ← CuckooHash.insert chunkSize rand m (chunks t) id CHUNK_IDENTIFIER_SIZE chunk false; Some cs
        end);
  let t := set_chunks t cs in
  let t := set_stripeIds t (<[listId := {[ stripeId ]} ∪ default ∅ (stripeIds t !! listId)]> (stripeIds t)) in
  if negb isParity then
    ks ← insert_objects (Z.to_nat (chunkSize + 1)) m (ChunkUtil.getData chunk) (ChunkUtil.getData chunk) (keys t);
    Some (set_keys t ks)
  else Some t.

(** The bytes of a [ChunkIdentifier]. *)
Definition chunk_id (listId stripeId chunkId : Z) : list byte := z2b listId :: le_bytes 6 stripeId ++ [z2b chunkId].

Definition findChunkById (m : mem) (t : Map) (listId stripeId chunkId : Z) : option (option ptr) :=
  CuckooHash.find chunkSize m (chunks t) (chunk_id listId stripeId chunkId) CHUNK_IDENTIFIER_SIZE false.
End map.

Definition seal (t : Map) (listId stripeId chunkId : Z) : bool * Map :=
  let metadata := Metadata.set listId stripeId chunkId in
  (bool_decide (metadata ∉ sealed t), set_sealed t ({[ metadata ]} ∪ sealed t)).

(** The loop tries the identifiers in order; one more than there are in use is
    enough. *)
Fixpoint next_free (fuel : nat) (sids : gset Z) (ret : Z) : option Z :=
  match fuel with
  | O => None
  | S fuel => if decide (ret ∈ sids) then next_free fuel sids (u32 (ret + 1)) else Some ret
  end.
Definition nextStripeID (t : Map) (listId from : Z) : option (Z * Map) :=
  let sids := default ∅ (stripeIds t !! listId) in
  ret ← next_free (S (size sids)) sids from;
  Some (ret, set_stripeIds t (<[listId := sids]> (stripeIds t))).

(** ** Forwarded chunks and keys *)
Definition insertForwardedChunk (t : Map) (src dst : Metadata) : bool * Map :=
  match forwarded_chunks t !! src with
  | Some _ => (false, t)
  | None => (true, set_forwarded_chunks t (<[src := dst]> (forwarded_chunks t)))
  end.
Definition findForwardedChunk (t : Map) (src : Metadata) : option Metadata := forwarded_chunks t !! src.
Definition eraseForwardedChunk (t : Map) (src : Metadata) : bool * Map :=
  (bool_decide (is_Some (forwarded_chunks t !! src)), set_forwarded_chunks t (delete src (forwarded_chunks t))).

(** The key is copied with [dup()], whose default for [isLarge] is false. *)
Definition insertForwardedKey (t : Map) (keySize : Z) (keyStr : list byte) (isLarge : bool) (dstListId dstChunkId : Z) :
    option (bool * Map) :=
  let key := Key.MkKey keySize keyStr isLarge in
  r ← find (forwarded_keys t) key;
  key ← (match r with None => Key_dup key false | Some _ => Some key end);
  '(ret, f) ← insert (forwarded_keys t) key (Metadata.set dstListId UINT32_MAX dstChunkId);
  Some (ret, set_forwarded_keys t f).
Definition findForwardedKey (t : Map) (keySize : Z) (keyStr : list byte) (isLarge : bool) : option (option Metadata) :=
  r ← find (forwarded_keys t) (Key.MkKey keySize keyStr isLarge); Some (option_map snd r).
Definition eraseForwardedKey (t : Map) (keySize : Z) (keyStr : list byte) (isLarge : bool) : option (bool * Map) :=
  let key := Key.MkKey keySize keyStr isLarge in
  r ← find (forwarded_keys t) key;
  f ← erase (forwarded_keys t) key;
  Some (bool_decide (is_Some r), set_forwarded_keys t f).

(** ** The table of chunks *)
Section chunk_table.
Variables (chunkSize : Z) (rand : nat → Z).

(** In memory [m] the table of chunks holds [M], a map from identifiers. *)
Definition chunk_table (m : mem) (t : Map) (M : gmap (list byte) ptr) : Prop :=
  CuckooHash.keySize (chunks t) = CHUNK_IDENTIFIER_SIZE ∧ CuckooHash.represents chunkSize m (chunks t) M.

Lemma zlen_chunk_id l s c : zlen (chunk_id l s c) = CHUNK_IDENTIFIER_SIZE.
Proof. done. Qed.

Lemma chunk_table_key m t M k : chunk_table m t M → zlen k = CHUNK_IDENTIFIER_SIZE → CuckooHash.key_ok (chunks t) k.
Proof. intros [Hks _] Hk. unfold CuckooHash.key_ok. rewrite Hks. by rewrite decide_False. Qed.

Lemma chunk_table_id m t M k p : chunk_table m t M → M !! k = Some p → load m p CHUNK_IDENTIFIER_SIZE = Some k.
Proof.
  intros [Hks (_ & _ & _ & Ho)] HM. specialize (Ho k p HM). unfold CuckooHash.obj_key in Ho.
  rewrite Hks in Ho. by rewrite decide_False in Ho.
Qed.

Lemma findChunkById_spec m t M l s c : chunk_table m t M → findChunkById chunkSize m t l s c = Some (M !! chunk_id l s c).
Proof.
  intros Ht. unfold findChunkById. rewrite <- (zlen_chunk_id l s c).
  apply (CuckooHash.find_correct chunkSize rand); [exact (proj2 Ht)|]. eapply chunk_table_key; [done|apply zlen_chunk_id].
Qed.

(** Only the identifiers of the chunks matter. *)
Lemma placed_mem m m' t :
  CuckooHash.keySize t ≠ 0 →
  (∀ p, p ∈ CuckooHash.content t → load m' p (CuckooHash.keySize t) = load m p (CuckooHash.keySize t)) →
  CuckooHash.wf t → CuckooHash.placed chunkSize m t → CuckooHash.placed chunkSize m' t.
Proof.
  intros Hks Hm Hwf Hp i j p Hs. destruct (Hp i j p Hs) as (h & [Hh Hr] & Hhome). exists h. split; [|done]. split; [|done].
  unfold CuckooHash.stored_hash in *. rewrite !decide_False in * by done. rewrite Hm; [done|].
  apply CuckooHash.elem_of_content; [done|]. by exists i, j.
Qed.

Lemma chunk_table_mem m m' t M :
  chunk_table m t M →
  (∀ k p, M !! k = Some p → load m' p CHUNK_IDENTIFIER_SIZE = load m p CHUNK_IDENTIFIER_SIZE) →
  chunk_table m' t M.
Proof.
  intros [Hks Hrep] Hm. split; [done|]. pose proof Hrep as (Hwf & Hpl & Hc & Ho).
  assert (Hm' : ∀ p, p ∈ CuckooHash.content (chunks t) →
      load m' p (CuckooHash.keySize (chunks t)) = load m p (CuckooHash.keySize (chunks t))).
  { intros p Hp. apply (CuckooHash.represents_content chunkSize m _ M) in Hp as [k Hk]; [|done]. rewrite Hks. by eapply Hm. }
  split; [done|]. split; [apply (placed_mem m); [by rewrite Hks|done..]|]. split; [done|].
  intros k p HM. specialize (Ho k p HM). unfold CuckooHash.obj_key in *. rewrite Hks in *. rewrite decide_False in * by done.
  rewrite <- Ho. by apply (Hm k).
Qed.

(** [find] and, when there is nothing, [insert]: total, and [insert] only fails
    for lack of room. *)
Lemma table_add_spec m t M id chunk :
  chunk_table m t M → load m chunk CHUNK_IDENTIFIER_SIZE = Some id →
  ∃ cs b, (r ← CuckooHash.find chunkSize m (chunks t) id CHUNK_IDENTIFIER_SIZE false;
      match r with
      | Some _ => Some (chunks t)
      | None => '(_, cs) ← CuckooHash.insert chunkSize rand m (chunks t) id CHUNK_IDENTIFIER_SIZE chunk false; Some cs
      end) = Some cs ∧
    CuckooHash.keySize cs = CHUNK_IDENTIFIER_SIZE ∧
    CuckooHash.represents chunkSize m cs (if (b : bool) then <[id := chunk]> M else M) ∧
    (b = true → M !! id = None) ∧
    (M !! id = None → (∃ i j, CuckooHash.home (chunks t) (hash_of id) i ∧ CuckooHash.slot_get (chunks t) i j = Some None) → b = true).
Proof.
  intros Ht Hid. pose proof Ht as [Hks Hrep]. pose proof (load_zlen _ _ _ _ Hid) as Hz.
  assert (Hok : CuckooHash.key_ok (chunks t) id) by by eapply chunk_table_key.
  rewrite <- Hz. rewrite (CuckooHash.find_correct chunkSize rand m (chunks t) M id) by done. cbn [mbind option_bind].
  destruct (M !! id) as [q|] eqn:E.
  - exists (chunks t), false. split; [done|]. split; [by rewrite Hz|]. done.
  - destruct (CuckooHash.insert_correct chunkSize rand m (chunks t) M id chunk) as (b & cs & -> & [Hk _] & Hr & Hroom); [done| |done|].
    { unfold CuckooHash.obj_key. rewrite Hks. by rewrite decide_False. }
    cbn [mbind option_bind]. exists cs, b. split; [done|]. split; [by rewrite <- Hk, Hks, Hz|]. split; [done|]. split; [done|].
    intros _. apply Hroom.
Qed.

Definition same_but_chunks (t t' : Map) (listId stripeId : Z) : Prop :=
  keys t' = keys t ∧ timestamp t' = timestamp t ∧ forwarded_keys t' = forwarded_keys t ∧
  forwarded_chunks t' = forwarded_chunks t ∧ ops t' = ops t ∧ sealed t' = sealed t ∧
  stripeIds t' = <[listId := {[ stripeId ]} ∪ default ∅ (stripeIds t !! listId)]> (stripeIds t).

Lemma setChunk_parity m t M l s c chunk id :
  chunk_table m t M → load m chunk CHUNK_IDENTIFIER_SIZE = Some id →
  ∃ t' b, setChunk chunkSize rand m t l s c chunk true = Some t' ∧
    chunk_table m t' (if (b : bool) then <[id := chunk]> M else M) ∧ same_but_chunks t t' l s ∧
    (b = true → M !! id = None) ∧
    (M !! id = None → (∃ i j, CuckooHash.home (chunks t) (hash_of id) i ∧ CuckooHash.slot_get (chunks t) i j = Some None) → b = true).
Proof.
  intros Ht Hid. unfold setChunk. rewrite Hid. cbn [mbind option_bind].
  destruct (table_add_spec m t M id chunk Ht Hid) as (cs & b & E & Hks & Hrep & Hb & Hroom).
  destruct (CuckooHash.find _ _ _ _ _ _) as [r|]; [|done]. cbn [mbind option_bind] in E |- *. rewrite E. cbn [mbind option_bind negb].
  eexists _, b. split; [done|]. split; [done|]. split; [done|]. done.
Qed.
End chunk_table.

(** ** New stripe identifiers *)
Lemma next_free_spec fuel sids from r :
  0 ≤ from ≤ r → r < 2 ^ 32 → r ∉ sids → (∀ y, from ≤ y < r → y ∈ sids) → (Z.to_nat (r - from) < fuel)%nat →
  next_free fuel sids from = Some r.
Proof.
  intros Hfr Hr Hn Hin. revert fuel. remember (Z.to_nat (r - from)) as n eqn:En. revert from Hfr Hin En.
  induction n as [|n IH]; intros from Hfr Hin En [|fuel] Hf; try lia; simpl.
  - assert (from = r) as -> by lia. by rewrite decide_False.
  - rewrite decide_True by (apply Hin; lia). rewrite u32_small by lia.
    apply IH; [lia|intros; apply Hin; lia|lia|lia].
Qed.

Lemma next_free_unused fuel sids from r : next_free fuel sids from = Some r → r ∉ sids.
Proof.
  revert from; induction fuel as [|fuel IH]; intros from; simpl; [done|].
  destruct (decide (from ∈ sids)); [apply IH|]. by intros [= <-].
Qed.

(** The first identifier that is not in use, when there is one up to [x]. *)
Lemma first_free (sids : gset Z) from x : from ≤ x → x ∉ sids → ∃ r, from ≤ r ≤ x ∧ r ∉ sids ∧ ∀ y, from ≤ y < r → y ∈ sids.
Proof.
  intros Hx Hn. remember (Z.to_nat (x - from)) as n eqn:En. revert from Hx En.
  induction n as [|n IH]; intros from Hx En.
  - exists x. split; [lia|]. split; [done|]. intros. lia.
  - destruct (decide (from ∈ sids)) as [Hf|Hf].
    + destruct (IH (from + 1) ltac:(lia) ltac:(lia)) as (r & Hr & Hnr & Hall). exists r. split; [lia|]. split; [done|].
      intros y Hy. destruct (decide (y = from)) as [->|]; [done|]. apply Hall. lia.
    + exists from. split; [lia|]. split; [done|]. intros. lia.
Qed.

Lemma interval_size (sids : gset Z) from r : from ≤ r → (∀ y, from ≤ y < r → y ∈ sids) → (Z.to_nat (r - from) ≤ size sids)%nat.
Proof.
  intros Hr Hall.
  assert (Hsub : (list_to_set (seqZ from (r - from)) : gset Z) ⊆ sids).
  { intros y Hy. apply elem_of_list_to_set, elem_of_seqZ in Hy. apply Hall. lia. }
  apply subseteq_size in Hsub. rewrite size_list_to_set in Hsub by apply NoDup_seqZ. by rewrite length_seqZ in Hsub.
Qed.

Lemma nextStripeID_fresh t l from x :
  0 ≤ from ≤ x → x < 2 ^ 32 → x ∉ default ∅ (stripeIds t !! l) →
  ∃ r t', nextStripeID t l from = Some (r, t') ∧ from ≤ r ≤ x ∧ r ∉ default ∅ (stripeIds t !! l) ∧
    t' = set_stripeIds t (<[l := default ∅ (stripeIds t !! l)]> (stripeIds t)).
Proof.
  intros Hf Hx Hn. unfold nextStripeID.
  destruct (first_free _ from x ltac:(lia) Hn) as (r & Hr & Hnr & Hall).
  pose proof (interval_size _ from r ltac:(lia) Hall).
  rewrite (next_free_spec _ _ from r) by (try done; lia). cbn [mbind option_bind].
  exists r. eexists. split; [done|]. split; [lia|]. done.
Qed.

(** ** Operations that the coordinator does not know yet *)
Section operations.
Variables (K : Key → Prop) (HK : discriminated K).

Lemma insertOpMetadata_spec t O opcode ts key md dup :
  holds_map K (ops t) O → K key → Key.wf key →
  ∃ ret ts' t', insertOpMetadata t opcode ts key md dup = Some (ret, ts', t') ∧
    match O !! key with
    | None => ret = true ∧ ts' = Timestamp.value (timestamp t) ∧ timestamp t' = snd (Timestamp.nextVal (timestamp t)) ∧
        holds_map K (ops t') (<[key := MkOpMetadata opcode md ts']> O)
    | Some _ => ts' = ts ∧ timestamp t' = timestamp t ∧
        if decide (opcode = PROTO_OPCODE_DELETE) then ret = true ∧ holds_map K (ops t') (delete key O)
        else ret = false ∧ t' = t
    end.
Proof.
  intros HO HKk Hwf. unfold insertOpMetadata. rewrite (find_spec K HK _ O) by done. cbn [mbind option_bind].
  destruct (O !! key) as [o|] eqn:E; simpl.
  - destruct (decide (opcode = PROTO_OPCODE_DELETE)).
    + destruct (erase_spec K HK _ O key HO HKk) as (o' & -> & Ho'). eexists _, _, _. split; [done|]. done.
    + eexists _, _, _. split; [done|]. done.
  - assert (Hd : (if dup then Key_dup key (Key.isLarge key) else Some key) = Some key).
    { destruct dup; [by apply (Key_dup_K K HK)|done]. }
    rewrite Hd. cbn [mbind option_bind].
    destruct (insert_spec K HK _ O key (MkOpMetadata opcode md (Timestamp.value (timestamp t))) HO HKk) as (o' & -> & Ho').
    rewrite E in Ho'. cbn [mbind option_bind]. eexists _, _, _. split; [done|]. rewrite E. done.
Qed.
End operations.

(** ** Forwarded keys *)

(** A key of an ordinary object is found at its stand-in until it is erased; a
    split of a large object is never found, since it is entered as the key of
    an ordinary object. *)
Lemma forwarded_key_found t size kb l c :
  forwarded_keys t = [] → plain (Key.MkKey size kb false) →
  ∃ t', insertForwardedKey t size kb false l c = Some (true, t') ∧
    findForwardedKey t' size kb false = Some (Some (Metadata.set l UINT32_MAX c)) ∧
    ∃ t'', eraseForwardedKey t' size kb false = Some (true, t'') ∧ forwarded_keys t'' = [].
Proof.
  intros Hf Hp. pose proof (proj1 plain_discriminated _ _ Hp Hp) as Hs. rewrite bool_decide_eq_true_2 in Hs by done.
  unfold insertForwardedKey, findForwardedKey, eraseForwardedKey, insert. rewrite Hf.
  assert (Hd : Key_dup (Key.MkKey size kb false) false = Some (Key.MkKey size kb false)) by (apply (Key_dup_K plain plain_discriminated (Key.MkKey size kb false)); [done|apply Hp]).
  cbn [find mbind option_bind]. rewrite Hd. cbn [mbind option_bind find app]. eexists. split; [done|].
  cbn [forwarded_keys set_forwarded_keys find erase fst snd]. rewrite Hs. cbn [mbind option_bind]. split; [done|].
  eexists. split; [done|]. done.
Qed.

Lemma forwarded_large_key_lost t size kb l c :
  forwarded_keys t = [] → Key.wf (Key.MkKey size kb true) →
  ∃ t', insertForwardedKey t size kb true l c = Some (true, t') ∧ findForwardedKey t' size kb true = Some None.
Proof.
  intros Hf Hw. unfold insertForwardedKey, findForwardedKey, insert. rewrite Hf. cbn [find mbind option_bind].
  assert (Hl : zlen kb = size + SPLIT_OFFSET_SIZE).
  { destruct Hw as [? Hl]. unfold zlen. simpl in *. rewrite Hl. unfold Key.cmp_size. simpl. unfold SPLIT_OFFSET_SIZE. lia. }
  assert (Hs0 : 0 ≤ size) by apply Hw.
  unfold Key_dup. cbn [Key.data Key.size]. rewrite Z.add_0_r, u8_small by apply Hw. unfold slice.
  rewrite decide_True by (rewrite Hl; unfold SPLIT_OFFSET_SIZE; lia). cbn [mbind option_bind find app].
  eexists. split; [done|]. cbn [forwarded_keys set_forwarded_keys find fst].
  set (k := Key.MkKey size (take (Z.to_nat size) (drop (Z.to_nat 0) kb)) false).
  assert (Hk : Key.wf k).
  { split; [apply Hw|]. unfold k, Key.cmp_size. simpl. rewrite drop_0, length_take, Z.add_0_r. unfold zlen in Hl.
    unfold SPLIT_OFFSET_SIZE in Hl. lia. }
  destruct (same_key_total k (Key.MkKey size kb true) Hk Hw) as (b & E & _ & _). rewrite E. cbn [mbind option_bind].
  assert (b = false) as ->; [|done].
  unfold same_key in E. destruct (KeyMap.hash k), (KeyMap.hash (Key.MkKey size kb true)); try discriminate E. cbn [mbind option_bind] in E.
  destruct (decide _); [|congruence]. unfold Key.equal in E. rewrite decide_False in E by (intros [_ ?]; discriminate). congruence.
Qed.

(** C33: the table of chunks is a finite map from identifiers to chunks:
    [findChunkById] is its lookup; [setChunk] of a parity chunk never fails, marks the
    stripe as used, adds the chunk under its identifier when there is room and
    the identifier is new, and changes no other entry; [nextStripeID] terminates
    with an identifier, not below the one given, that no chunk of the list uses,
    when there is one. *)
Theorem chunk_table_refines (chunkSize : Z) (rand : nat → Z) (m : mem) (t : Map) (M : gmap (list byte) ptr) :
  chunk_table chunkSize m t M →
  (∀ l s c, findChunkById chunkSize m t l s c = Some (M !! chunk_id l s c)) ∧
  (∀ l s c chunk, load m chunk CHUNK_IDENTIFIER_SIZE = Some (chunk_id l s c) →
     ∃ t', setChunk chunkSize rand m t l s c chunk true = Some t' ∧ same_but_chunks t t' l s ∧
       (∀ l' s' c', chunk_id l' s' c' ≠ chunk_id l s c →
          findChunkById chunkSize m t' l' s' c' = findChunkById chunkSize m t l' s' c') ∧
       (findChunkById chunkSize m t l s c = Some None →
        (∃ i j, CuckooHash.home (chunks t) (hash_of (chunk_id l s c)) i ∧ CuckooHash.slot_get (chunks t) i j = Some None) →
        findChunkById chunkSize m t' l s c = Some (Some chunk)) ∧
       (∀ p, findChunkById chunkSize m t l s c = Some (Some p) → findChunkById chunkSize m t' l s c = Some (Some p)) ∧
       ∀ from r t'', nextStripeID t' l from = Some (r, t'') → r ≠ s) ∧
  (∀ l from x, 0 ≤ from ≤ x → x < 2 ^ 32 → x ∉ default ∅ (stripeIds t !! l) →
     ∃ r t', nextStripeID t l from = Some (r, t') ∧ from ≤ r ≤ x ∧ r ∉ default ∅ (stripeIds t !! l)).
Proof.
  intros Ht. split; [intros; by apply findChunkById_spec|]. split.
  - intros l s c chunk Hid.
    destruct (setChunk_parity chunkSize rand m t M l s c chunk _ Ht Hid) as (t' & b & E & Ht' & Hsame & Hb & Hroom).
    exists t'. split; [done|]. split; [done|].
    assert (Hf := λ l s c, findChunkById_spec chunkSize rand m t M l s c Ht).
    assert (Hf' := λ l s c, findChunkById_spec chunkSize rand m t' _ l s c Ht').
    split_and!.
    + intros l' s' c' Hne. rewrite Hf, Hf'. destruct b; [by rewrite lookup_insert_ne|done].
    + rewrite Hf, Hf'. intros [= HM] Hr. rewrite (Hroom HM Hr). by rewrite lookup_insert_eq.
    + intros p. rewrite Hf, Hf'. intros [= HM]. destruct b; [|by rewrite HM]. specialize (Hb eq_refl). congruence.
    + intros from r t'' Hn. destruct Hsame as (_ & _ & _ & _ & _ & _ & Hst). unfold nextStripeID in Hn. rewrite Hst in Hn.
      rewrite lookup_insert_eq in Hn. cbn [from_option id] in Hn. destruct (next_free _ _ _) as [r'|] eqn:En; [|done].
      injection Hn as -> _. intros ->. by apply next_free_unused in En; set_solver.
  - intros l from x Hf Hx Hn. destruct (nextStripeID_fresh t l from x Hf Hx Hn) as (r & t' & ? & ? & ? & _). by exists r, t'.
Qed.

Lemma init_chunk_table chunkSize m power cp1 cp2 :
  1 ≤ power ≤ 30 → zlen cp2 = CuckooHash.MAX_CUCKOO_COUNT → chunk_table chunkSize m (Map_new power cp1 cp2) ∅.
Proof. intros Hp Hc. split; [done|]. by apply CuckooHash.init_represents. Qed.

(** A parity chunk (0, 5, 2) is entered into an empty map; stripe 5 is used then. *)
Lemma chunk_table_refines_witness :
  let id := chunk_id 0 5 2 in
  let m : mem := {[ 0%nat := id ++ replicate 8 x00 ]} in
  let t := Map_new 1 (replicate 500 (CuckooHash.CP 0 0 None)) (replicate 500 (CuckooHash.CP 0 0 None)) in
  ∃ t', setChunk 8 (λ _, 0) m t 0 5 2 (Ptr 0 0) true = Some t' ∧
    findChunkById 8 m t' 0 5 2 = Some (Some (Ptr 0 0)) ∧ fst <$> nextStripeID t' 0 5 = Some 6.
Proof.
  intros id m t.
  destruct (chunk_table_refines 8 (λ _, 0) m t ∅) as (Hfind & Hset & _); [by apply init_chunk_table|].
  destruct (Hset 0 5 2 (Ptr 0 0)) as (t' & E & Hsame & _ & Hnew & _); [vm_compute; reflexivity|].
  exists t'. split; [done|]. split.
  - apply Hnew; [by rewrite Hfind|].
    exists (CuckooHash.indexHash (chunks t) (hash_of (chunk_id 0 5 2))), 0. split; [left; reflexivity|vm_compute; reflexivity].
  - destruct Hsame as (_ & _ & _ & _ & _ & _ & Hst). unfold nextStripeID. rewrite Hst. vm_compute. reflexivity.
Defined.
End ServerMap.
