(* ===== verification/Coding.v ===== *)
(** * Erasure codes: parameters, the Coding interface, stripes in memory
      (common/coding/{coding_scheme,coding_params,coding}.hh,
       TempChunkPool of common/ds/chunk_pool.hh)

    [CodingParams]: how the parameters of each scheme give the numbers of data
    and parity chunks.  [Coding] is the class of the virtual functions
    [encode] and [decode]; [ErasureCode] is what an implementation promises:
    parity is a linear function of the data, [encode] computes it and [decode]
    restores up to [ec_tolerance] lost chunks.  Clients (the parity update,
    forceSeal) are verified against [ErasureCode]; the files of the codes give
    its instances. *)

From S2P Require Export ChunkUtil Bitmask.
Export ChunkUtil.ChunkUtil(getData, clear, set, CHUNK_IDENTIFIER_SIZE).

(** ** CodingScheme and CodingParams *)
Module CodingParams.

Inductive CodingScheme : Set :=
  CS_UNDEFINED | CS_RAID0 | CS_RAID1 | CS_RAID5 | CS_RS | CS_RDP | CS_EVENODD | CS_CAUCHY.
#[export] Instance CodingScheme_eq_dec : EqDecision CodingScheme.
Proof. solve_decision. Defined.

Record CodingParams := MkParams { scheme : CodingScheme; params : list Z }.

(** The constructor leaves the three parameters uninitialised ([ps]). *)
Definition CodingParams_new (ps : list Z) : CodingParams := MkParams CS_UNDEFINED ps.
Definition set_param (p : CodingParams) (index v : Z) : CodingParams :=
  MkParams (scheme p) (<[Z.to_nat index := v]> (params p)).
Definition get_param (p : CodingParams) (index : Z) : Z := default 0 (params p !! Z.to_nat index).

Definition setScheme (p : CodingParams) (s : CodingScheme) : CodingParams := MkParams s (params p).
Definition setN (p : CodingParams) (n : Z) : CodingParams :=
  match scheme p with
  | CS_RAID0 | CS_RAID1 | CS_RAID5 | CS_RDP | CS_EVENODD => set_param p 0 n
  | _ => p
  end.
Definition setK (p : CodingParams) (k : Z) : CodingParams :=
  match scheme p with CS_RS | CS_CAUCHY => set_param p 0 k | _ => p end.
Definition setM (p : CodingParams) (m : Z) : CodingParams :=
  match scheme p with CS_RS | CS_CAUCHY => set_param p 1 m | _ => p end.
Definition setW (p : CodingParams) (w : Z) : CodingParams :=
  match scheme p with CS_RS | CS_CAUCHY => set_param p 2 w | _ => p end.

Definition getN (p : CodingParams) : Z :=
  match scheme p with
  | CS_RAID0 | CS_RAID1 | CS_RAID5 | CS_RDP | CS_EVENODD => get_param p 0
  | _ => 0
  end.
Definition getK (p : CodingParams) : Z :=
  match scheme p with
  | CS_RAID5 => u32 (get_param p 0 - 1)
  | CS_RDP | CS_EVENODD => u32 (get_param p 0 - 2)
  | CS_RS | CS_CAUCHY => get_param p 0
  | _ => 0
  end.
Definition getM (p : CodingParams) : Z :=
  match scheme p with CS_RS | CS_CAUCHY => get_param p 1 | _ => 0 end.
Definition getW (p : CodingParams) : Z :=
  match scheme p with CS_RS | CS_CAUCHY => get_param p 2 | _ => 0 end.

Definition getDataChunkCount (p : CodingParams) : Z :=
  match scheme p with
  | CS_RAID0 => getN p
  | CS_RAID1 => 1
  | CS_RAID5 => u32 (getN p - 1)
  | CS_RS => getK p
  | CS_RDP => u32 (getN p - 2)
  | CS_EVENODD => u32 (getN p - 2)
  | CS_CAUCHY => getK p
  | _ => 0
  end.
Definition getParityChunkCount (p : CodingParams) : Z :=
  match scheme p with
  | CS_RAID0 => 0
  | CS_RAID1 => u32 (getN p - 1)
  | CS_RAID5 => 1
  | CS_RS => getM p
  | CS_RDP => 2
  | CS_EVENODD => 2
  | CS_CAUCHY => getM p
  | _ => 0
  end.
Definition getChunkCount (p : CodingParams) : Z := u32 (getDataChunkCount p + getParityChunkCount p).
End CodingParams.

(** ** TempChunkPool *)
Module TempChunkPool.
Section pool.
Variables (chunkSize : Z) (junk : nat → Z → byte).
(** [malloc] is taken to succeed. *)
Definition alloc (m : mem) (listId stripeId chunkId : Z) : option (ptr * mem) :=
  let '(chunk, m) := malloc junk m (CHUNK_IDENTIFIER_SIZE + chunkSize) in
  m ← ChunkUtil.clear chunkSize m chunk;
  m ← ChunkUtil.set m chunk listId stripeId chunkId;
  Some (chunk, m).
Definition free (m : mem) (chunk : ptr) : option mem := mfree m chunk.
End pool.
End TempChunkPool.

(** *** Temporary chunks come and go *)
Lemma malloc_fresh (junk : nat → Z → byte) m n b m' :
  malloc junk m n = (b, m') → m !! blk b = None ∧ off b = 0 ∧ m' = <[blk b := junk (blk b) <$> seqZ 0 n]> m.
Proof.
  unfold malloc, fresh_block. intros [= <- <-]. simpl. split; [|done]. apply not_elem_of_dom, is_fresh.
Qed.

(** [m'] has one block more than [m]. *)
Definition extends_by (m : mem) (b : nat) (m' : mem) : Prop :=
  m !! b = None ∧ is_Some (m' !! b) ∧
  ∀ b', b' ≠ b → zlen <$> m' !! b' = zlen <$> m !! b'.

Lemma extends_by_trans m b m1 m2 : extends_by m b m1 → same_shape m1 m2 → extends_by m b m2.
Proof.
  intros (H1 & [bs H2] & H3) Hs. split; [done|]. split.
  - specialize (Hs b). rewrite H2 in Hs. destruct (m2 !! b); [done|discriminate Hs].
  - intros b' Hb. rewrite <- Hs. by apply H3.
Qed.

Lemma extends_by_blk m b m' p n : extends_by m b m' → valid m p n → blk p ≠ b.
Proof. intros (H1 & _) (_ & bs & Hbs & _) <-. congruence. Qed.

Lemma extends_by_free m b m' p :
  extends_by m b m' → blk p = b → off p = 0 →
  ∃ m2, mfree m' p = Some m2 ∧ same_shape m m2 ∧ ∀ q, mget m2 q = if decide (blk q = b) then None else mget m' q.
Proof.
  intros (H1 & [bs H2] & H3) Hb Ho. unfold mfree. rewrite Hb, H2. simpl. rewrite decide_True by done.
  eexists. split; [done|]. split.
  - intros b'. destruct (decide (b' = b)) as [->|Hne]; [by rewrite lookup_delete_eq, H1|].
    rewrite lookup_delete_ne by done. symmetry. by apply H3.
  - intros q. unfold mget. case_decide as Hq; [by rewrite Hq, lookup_delete_eq|]. by rewrite lookup_delete_ne.
Qed.

Lemma extends_by_valid m b m' p n : extends_by m b m' → valid m p n → valid m' p n.
Proof.
  intros (H1 & _ & H3) (? & bs & Hbs & ? & ?). assert (Hne : blk p ≠ b) by congruence.
  specialize (H3 _ Hne). rewrite Hbs in H3. destruct (m' !! blk p) as [bs'|] eqn:E; [|discriminate H3].
  simpl in H3. injection H3 as H3. split; [done|]. exists bs'. split; [done|]. lia.
Qed.

(** ** The virtual functions of Coding *)
Class Coding := {
  (** [encode data parity index startOff endOff] *)
  encode : mem → list ptr → ptr → Z → Z → Z → option mem;
  (** [decode chunks bitmap]: the return value and the memory *)
  decode : mem → list ptr → BitmaskArray → option (bool * mem);
}.

(** [bitwiseXOR] of the data of chunks. *)
Definition bitwiseXOR_chunk (m : mem) (dst srcA srcB : ptr) (size : Z) : option mem :=
  bitwiseXOR m (getData dst) (getData srcA) (getData srcB) size.

(** ** Exclusive-or sums *)
Definition xsum (l : list Z) (f : Z → byte) : byte := foldr (λ c acc, bxor (f c) acc) x00 l.
Definition bxor_fun (f g : Z → byte) : Z → byte := λ i, bxor (f i) (g i).

Lemma xsum_app l l' f : xsum (l ++ l') f = bxor (xsum l f) (xsum l' f).
Proof.
  induction l as [|c l IH]; simpl; [by rewrite (left_id x00 bxor)|]. by rewrite IH, (assoc bxor).
Qed.

Lemma xsum_ext l f g : (∀ c, c ∈ l → f c = g c) → xsum l f = xsum l g.
Proof.
  induction l as [|c l IH]; intros H; simpl; [done|].
  rewrite H by by left. rewrite IH; [done|]. intros. apply H. by right.
Qed.

Lemma xsum_zero l f : (∀ c, c ∈ l → f c = x00) → xsum l f = x00.
Proof.
  induction l as [|c l IH]; intros H; simpl; [done|].
  rewrite H by by left. rewrite IH; [done|]. intros. apply H. by right.
Qed.

Lemma xsum_bxor l f g : xsum l (λ c, bxor (f c) (g c)) = bxor (xsum l f) (xsum l g).
Proof.
  induction l as [|c l IH]; simpl; [done|]. rewrite IH.
  rewrite <- !(assoc bxor). f_equal. rewrite !(assoc bxor). f_equal. apply (comm bxor).
Qed.

(** Taking one summand out. *)
Lemma xsum_remove l f x :
  NoDup l → x ∈ l → xsum l f = bxor (f x) (xsum l (λ c, if decide (c = x) then x00 else f c)).
Proof.
  induction 1 as [|c l Hc Hl IH]; intros Hx; [by apply not_elem_of_nil in Hx|]. simpl.
  apply elem_of_cons in Hx as [->|Hx].
  - rewrite decide_True by done. rewrite (left_id x00 bxor). f_equal. apply xsum_ext.
    intros c' Hc'. rewrite decide_False; [done|]. by intros ->.
  - rewrite decide_False by (by intros ->). rewrite IH by done.
    rewrite !(assoc bxor). f_equal. apply (comm bxor).
Qed.

Lemma xsum_seqZ_remove n f x :
  0 ≤ x < n → xsum (seqZ 0 n) f = bxor (f x) (xsum (seqZ 0 n) (λ c, if decide (c = x) then x00 else f c)).
Proof. intros. apply xsum_remove; [apply NoDup_seqZ|apply elem_of_seqZ; lia]. Qed.

Lemma xsum_single l x v : NoDup l → x ∈ l → xsum l (λ c, if decide (c = x) then v else x00) = v.
Proof.
  intros Hl Hx. rewrite (xsum_remove l _ x) by done. rewrite decide_True by done.
  rewrite xsum_zero; [apply (right_id x00 bxor)|]. intros c _. by destruct (decide (c = x)).
Qed.

Lemma xsum_swap l l' (f : Z → Z → byte) :
  xsum l (λ a, xsum l' (λ b, f a b)) = xsum l' (λ b, xsum l (λ a, f a b)).
Proof.
  induction l as [|a l IH]; simpl; [symmetry; by apply xsum_zero|]. rewrite IH. by rewrite <- xsum_bxor.
Qed.

Lemma xsum_seqZ_snoc n f : 0 ≤ n → xsum (seqZ 0 (n + 1)) f = bxor (xsum (seqZ 0 n) f) (f n).
Proof.
  intros. rewrite seqZ_app by lia. rewrite xsum_app. simpl. f_equal. by rewrite (right_id x00 bxor).
Qed.

(** ** Contents of regions and chunks *)
Definition region_is (m : mem) (p : ptr) (n : Z) (f : Z → byte) : Prop :=
  ∀ i, 0 ≤ i < n → mget m (p +ₚ i) = Some (f i).
Definition chunk_is (chunkSize : Z) (m : mem) (c : ptr) (f : Z → byte) : Prop :=
  region_is m (getData c) chunkSize f.

(** Memory [m] is [m0] with [f] added to the [n] bytes from [P] on. *)
Definition accum (m0 : mem) (P : ptr) (n : Z) (f : Z → byte) (m : mem) : Prop :=
  same_shape m0 m ∧
  ∀ q, mget m q = if decide (in_range P n q) then Some (bxor (mbyte m0 q) (f (off q - off P))) else mget m0 q.

Lemma region_is_valid m p n f : region_is m p n f → 0 < n → valid m p n.
Proof.
  intros H Hn. pose proof (H 0 ltac:(lia)) as H0. pose proof (H (n - 1) ltac:(lia)) as H1.
  unfold mget in *; simpl in *. destruct (m !! blk p) as [bs|] eqn:E; simpl in *; [|done].
  apply zget_Some in H0, H1. split; [lia|]. exists bs. split; [done|]. lia.
Qed.

Lemma region_is_ext m p n f g : (∀ i, 0 ≤ i < n → f i = g i) → region_is m p n f → region_is m p n g.
Proof. intros Hfg H i Hi. rewrite H by done. by rewrite Hfg. Qed.

Lemma region_is_mbyte m p n f i : region_is m p n f → 0 ≤ i < n → mbyte m (p +ₚ i) = f i.
Proof. intros H Hi. unfold mbyte. by rewrite H. Qed.

Lemma padd_offset (p q : ptr) : blk q = blk p → q = p +ₚ (off q - off p).
Proof. destruct p, q; simpl. intros ->. unfold padd; simpl. f_equal. lia. Qed.

(** Allocating a cleared temporary chunk. *)
Lemma temp_alloc_spec chunkSize (junk : nat → Z → byte) m l s c :
  0 ≤ chunkSize →
  ∃ p m', TempChunkPool.alloc chunkSize junk m l s c = Some (p, m') ∧ off p = 0 ∧
    extends_by m (blk p) m' ∧ valid m' p (CHUNK_IDENTIFIER_SIZE + chunkSize) ∧
    chunk_is chunkSize m' p (λ _, x00) ∧ ∀ q, blk q ≠ blk p → mget m' q = mget m q.
Proof.
  intros Hcs. unfold TempChunkPool.alloc, CHUNK_IDENTIFIER_SIZE.
  destruct (malloc junk m (8 + chunkSize)) as [p m1] eqn:E. apply malloc_fresh in E as (Hf & Hoff & ->).
  set (m1 := <[_:=_]> m).
  assert (V1 : valid m1 p (8 + chunkSize)).
  { split; [lia|]. eexists. split; [apply lookup_insert_eq|]. rewrite Hoff. unfold zlen.
    rewrite length_fmap, length_seqZ. lia. }
  assert (Z1 : zlen (replicate (Z.to_nat (8 + chunkSize)) (z2b 0)) = 8 + chunkSize) by (unfold zlen; rewrite length_replicate; lia).
  assert (Hx : extends_by m (blk p) m1).
  { unfold m1. split; [done|]. split; [by rewrite lookup_insert_eq|]. intros b Hb. by rewrite lookup_insert_ne. }
  unfold ChunkUtil.clear, memset, CHUNK_IDENTIFIER_SIZE.
  destruct (store_spec m1 p (replicate (Z.to_nat (8 + chunkSize)) (z2b 0))) as (m2 & -> & S2 & G2); [by rewrite Z1|].
  rewrite Z1 in G2. cbn [mbind option_bind].
  assert (Hst : ∀ m' q xs, same_shape m1 m' → 0 ≤ off q - off p → off q - off p + zlen xs ≤ 8 → blk q = blk p →
    ∃ m3, store m' q xs = Some m3 ∧ same_shape m' m3 ∧
      ∀ r, mget m3 r = if decide (in_range q (zlen xs) r) then zget xs (off r - off q) else mget m' r).
  { intros m' q xs Hs' H1 H2 Hb. apply store_spec. rewrite <- Hs'. rewrite (padd_offset p q) by done.
    eapply valid_sub; [done|lia|unfold zlen; lia|lia]. }
  unfold ChunkUtil.set, ChunkUtil.setListId, ChunkUtil.setStripeId, ChunkUtil.setChunkId, store8.
  destruct (Hst m2 p [z2b l]) as (m3 & -> & S3 & G3); [done|lia|unfold zlen; simpl; lia|done|]. cbn [mbind option_bind].
  destruct (Hst m3 (p +ₚ 1) (le_bytes 6 s)) as (m4 & -> & S4 & G4);
    [by etrans|simpl; lia|unfold zlen; rewrite length_le_bytes; simpl; lia|done|]. cbn [mbind option_bind].
  destruct (Hst m4 (p +ₚ 7) [z2b c]) as (m5 & -> & S5 & G5);
    [by etrans; [etrans|]|simpl; lia|unfold zlen; simpl; lia|done|]. cbn [mbind option_bind].
  assert (S : same_shape m1 m5) by (etrans; [|exact S5]; etrans; [|exact S4]; by etrans).
  assert (L6 : zlen (le_bytes 6 s) = 6) by (unfold zlen; by rewrite length_le_bytes).
  change (zlen [z2b l]) with 1 in *. change (zlen [z2b c]) with 1 in *. rewrite L6 in *.
  exists p, m5. split; [done|]. split; [done|]. split_and!.
  - by eapply extends_by_trans.
  - by rewrite <- S.
  - intros i Hi. unfold getData. rewrite G5, G4, G3.
    rewrite !decide_False by (unfold in_range, getData, CHUNK_IDENTIFIER_SIZE; simpl; lia).
    rewrite G2. rewrite decide_True by (unfold in_range, CHUNK_IDENTIFIER_SIZE; simpl; lia).
    unfold zget. rewrite decide_True by (simpl; unfold CHUNK_IDENTIFIER_SIZE; lia).
    rewrite lookup_replicate_2; [done|]. unfold CHUNK_IDENTIFIER_SIZE. simpl. lia.
  - intros q Hq. rewrite G5, G4, G3, G2. rewrite !decide_False by (unfold in_range; simpl; tauto).
    unfold m1, mget. by rewrite lookup_insert_ne.
Qed.

(** A zeroed buffer from [new char[ n ]] and [memset]. *)
Lemma zero_buffer_spec (junk : nat → Z → byte) m n p m1 :
  0 ≤ n → malloc junk m n = (p, m1) →
  off p = 0 ∧ extends_by m (blk p) m1 ∧ valid m1 p n ∧ (∀ q, blk q ≠ blk p → mget m1 q = mget m q) ∧
  ∃ m2, memset m1 p 0 n = Some m2 ∧ extends_by m (blk p) m2 ∧ region_is m2 p n (λ _, x00) ∧ valid m2 p n ∧
    ∀ q, blk q ≠ blk p → mget m2 q = mget m q.
Proof.
  intros Hn E. apply malloc_fresh in E as (Hf & Hoff & ->). set (m1 := <[_:=_]> m).
  assert (V1 : valid m1 p n).
  { split; [lia|]. eexists. split; [apply lookup_insert_eq|]. rewrite Hoff. unfold zlen.
    rewrite length_fmap, length_seqZ. lia. }
  assert (Hx : extends_by m (blk p) m1).
  { unfold m1. split; [done|]. split; [by rewrite lookup_insert_eq|]. intros b Hb. by rewrite lookup_insert_ne. }
  assert (Hfr : ∀ q, blk q ≠ blk p → mget m1 q = mget m q) by (intros q Hq; unfold m1, mget; by rewrite lookup_insert_ne).
  split; [done|]. split; [done|]. split; [done|]. split; [done|].
  assert (Z1 : zlen (replicate (Z.to_nat n) (z2b 0)) = n) by (unfold zlen; rewrite length_replicate; lia).
  unfold memset. destruct (store_spec m1 p (replicate (Z.to_nat n) (z2b 0))) as (m2 & -> & S2 & G2); [by rewrite Z1|].
  rewrite Z1 in G2. exists m2. split; [done|]. split; [by eapply extends_by_trans|]. split_and!.
  - intros i Hi. rewrite G2. rewrite decide_True by by apply in_range_padd. unfold zget.
    rewrite decide_True by (simpl; lia). rewrite lookup_replicate_2; [done|]. simpl. lia.
  - by rewrite <- S2.
  - intros q Hq. rewrite G2. rewrite decide_False by (unfold in_range; tauto). by apply Hfr.
Qed.

(** Clearing a chunk: identifier and data. *)
Lemma chunk_clear_spec chunkSize m c :
  0 ≤ chunkSize → valid m c (CHUNK_IDENTIFIER_SIZE + chunkSize) →
  ∃ m', ChunkUtil.clear chunkSize m c = Some m' ∧ same_shape m m' ∧ chunk_is chunkSize m' c (λ _, x00) ∧
    ∀ q, ¬ in_range c (CHUNK_IDENTIFIER_SIZE + chunkSize) q → mget m' q = mget m q.
Proof.
  intros Hcs Hv. unfold ChunkUtil.clear, memset, CHUNK_IDENTIFIER_SIZE in *.
  assert (Z1 : zlen (replicate (Z.to_nat (8 + chunkSize)) (z2b 0)) = 8 + chunkSize) by (unfold zlen; rewrite length_replicate; lia).
  destruct (store_spec m c (replicate (Z.to_nat (8 + chunkSize)) (z2b 0))) as (m' & -> & S & G); [by rewrite Z1|].
  rewrite Z1 in G. exists m'. split; [done|]. split; [done|]. split.
  - intros i Hi. rewrite G. unfold getData, CHUNK_IDENTIFIER_SIZE. rewrite decide_True by (unfold in_range; simpl; lia).
    unfold zget. rewrite decide_True by (simpl; lia). rewrite lookup_replicate_2; [done|]. simpl. lia.
  - intros q Hq. rewrite G. by rewrite decide_False.
Qed.

Lemma memset_zero m p n :
  0 ≤ n → valid m p n →
  ∃ m', memset m p 0 n = Some m' ∧ same_shape m m' ∧ region_is m' p n (λ _, x00) ∧
    ∀ q, ¬ in_range p n q → mget m' q = mget m q.
Proof.
  intros Hn Hv. unfold memset.
  assert (Z1 : zlen (replicate (Z.to_nat n) (z2b 0)) = n) by (unfold zlen; rewrite length_replicate; lia).
  destruct (store_spec m p (replicate (Z.to_nat n) (z2b 0))) as (m' & -> & S & G); [by rewrite Z1|]. rewrite Z1 in G.
  exists m'. split_and!; [done|done| |].
  - intros i Hi. rewrite G. rewrite decide_True by by apply in_range_padd. unfold zget.
    rewrite decide_True by (simpl; lia). rewrite lookup_replicate_2; [done|]. simpl. lia.
  - intros q Hq. rewrite G. by rewrite decide_False.
Qed.

(** A region that a change leaves alone. *)
Lemma region_is_frame m m' p n f P k :
  region_is m p n f → apart P k p n → 0 ≤ n → 0 ≤ k →
  (∀ q, ¬ in_range P k q → mget m' q = mget m q) → region_is m' p n f.
Proof.
  intros H Hap Hn Hk Hfr i Hi. rewrite Hfr; [by apply H|]. unfold in_range, apart in *. simpl. intros [??]. lia.
Qed.

Lemma accum_refl m0 P n f : (∀ i, 0 ≤ i < n → f i = x00) → valid m0 P n → accum m0 P n f m0.
Proof.
  intros Hf Hv. split; [done|]. intros q. case_decide as Hq; [|done]. destruct Hq as [Hb Hr].
  rewrite Hf by lia. rewrite (right_id x00 bxor). apply mget_mbyte.
  rewrite (padd_offset P q) by done. eapply valid_mget; [done|lia].
Qed.

Lemma accum_ext m0 P n f g m : (∀ i, 0 ≤ i < n → f i = g i) → accum m0 P n f m → accum m0 P n g m.
Proof.
  intros Hfg [Hs Hg]. split; [done|]. intros q. rewrite Hg. case_decide as Hq; [|done].
  by rewrite Hfg by (unfold in_range in Hq; lia).
Qed.

Lemma accum_frame m0 P n f m q : accum m0 P n f m → ¬ in_range P n q → mget m q = mget m0 q.
Proof. intros [_ Hg] Hq. rewrite Hg. by rewrite decide_False. Qed.

Lemma accum_region m0 P n f m g :
  accum m0 P n f m → region_is m0 P n g → region_is m P n (λ i, bxor (g i) (f i)).
Proof.
  intros [_ Hg] Hr i Hi. rewrite Hg. rewrite decide_True by by apply in_range_padd.
  rewrite (region_is_mbyte _ _ _ _ _ Hr) by done. do 3 f_equal. simpl. lia.
Qed.

(** One exclusive or into part of the region. *)
Definition add_part (f : Z → byte) (o len : Z) (h : Z → byte) : Z → byte :=
  λ i, bxor (f i) (if decide (o ≤ i < o + len) then h (i - o) else x00).

Lemma accum_xor_gen m0 P n f m o len src X Y :
  accum m0 P n f m → valid m0 P n → 0 ≤ o → 0 ≤ len → o + len ≤ n →
  valid m0 src len → apart P n src len →
  (X = P +ₚ o ∧ Y = src ∨ X = src ∧ Y = P +ₚ o) →
  ∃ m', bitwiseXOR m (P +ₚ o) X Y len = Some m' ∧
    accum m0 P n (add_part f o len (λ i, mbyte m0 (src +ₚ i))) m'.
Proof.
  intros Hacc Hv Ho Hlen Hn Hsrc Hap HXY. pose proof Hacc as [Hs Hg].
  assert (HvP : valid m (P +ₚ o) len) by (rewrite <- Hs; by eapply valid_sub).
  assert (HvS : valid m src len) by by rewrite <- Hs.
  assert (Hdis : disjoint_ranges (P +ₚ o) src len).
  { unfold apart, disjoint_ranges in *; simpl. destruct Hap as [?|[?|?]]; [by left|right; left; lia|right; right; lia]. }
  destruct (bitwiseXOR_spec m (P +ₚ o) X Y len) as (m' & HX & Hs' & Hg');
    [done|by destruct HXY as [[-> ->]|[-> ->]]..| | |].
  { destruct HXY as [[-> ->]|[-> ->]]; [by left|by right]. }
  { destruct HXY as [[-> ->]|[-> ->]]; [by right|by left]. }
  exists m'. split; [done|]. split; [by etrans|]. intros q. rewrite Hg'. unfold xor_result.
  destruct (decide (in_range (P +ₚ o) len q)) as [Hq|Hq].
  - assert (HqP : in_range P n q) by (unfold in_range in *; simpl in *; lia).
    rewrite decide_True by done. f_equal. unfold add_part. rewrite decide_True by (unfold in_range in *; simpl in *; lia).
    assert (E1 : P +ₚ o +ₚ (off q - off (P +ₚ o)) = q).
    { symmetry. apply (padd_offset (P +ₚ o) q). apply Hq. }
    assert (E2 : mbyte m q = bxor (mbyte m0 q) (f (off q - off P))).
    { unfold mbyte at 1. rewrite Hg. by rewrite decide_True. }
    assert (E3 : mbyte m (src +ₚ (off q - off (P +ₚ o))) = mbyte m0 (src +ₚ (off q - off P - o))).
    { unfold mbyte. rewrite Hg. rewrite decide_False.
      - do 3 f_equal. simpl. lia.
      - unfold in_range, apart in *; simpl in *. lia. }
    destruct HXY as [[-> ->]|[-> ->]]; rewrite E1, E2, E3; [by rewrite <- (assoc bxor)|].
    rewrite (comm bxor). by rewrite <- (assoc bxor).
  - rewrite Hg. destruct (decide (in_range P n q)) as [HqP|HqP]; [|done]. unfold add_part.
    rewrite decide_False; [by rewrite (right_id x00 bxor)|].
    unfold in_range in *; simpl in *. lia.
Qed.

(** Parity in the source's three argument orders. *)
Lemma accum_xor m0 P n f m o len src :
  accum m0 P n f m → valid m0 P n → 0 ≤ o → 0 ≤ len → o + len ≤ n → valid m0 src len → apart P n src len →
  (∃ m', bitwiseXOR m (P +ₚ o) (P +ₚ o) src len = Some m' ∧
     accum m0 P n (add_part f o len (λ i, mbyte m0 (src +ₚ i))) m') ∧
  (∃ m', bitwiseXOR m (P +ₚ o) src (P +ₚ o) len = Some m' ∧
     accum m0 P n (add_part f o len (λ i, mbyte m0 (src +ₚ i))) m').
Proof. intros. split; eapply accum_xor_gen; eauto. Qed.

(** The whole region, from a source of known contents. *)
Lemma accum_whole m0 P n f m src h :
  accum m0 P n f m → valid m0 P n → 0 < n → region_is m0 src n h → apart P n src n →
  ∃ m', bitwiseXOR m P src P n = Some m' ∧ accum m0 P n (bxor_fun f h) m'.
Proof.
  intros Ha Hv Hn Hr Hap.
  destruct (accum_xor m0 P n f m 0 n src) as [_ (m' & E & Ha')]; [done|done|lia..|by eapply region_is_valid|done|].
  rewrite padd_0 in E. exists m'. split; [done|]. eapply accum_ext; [|exact Ha']. intros i Hi.
  unfold add_part, bxor_fun. rewrite decide_True by lia. f_equal.
  rewrite (region_is_mbyte _ _ _ _ _ Hr) by lia. f_equal. lia.
Qed.

Lemma memcpy_region m dst src n h :
  region_is m src n h → valid m dst n → apart dst n src n → 0 < n →
  ∃ m', memcpy m dst src n = Some m' ∧ same_shape m m' ∧ region_is m' dst n h ∧
    ∀ q, ¬ in_range dst n q → mget m' q = mget m q.
Proof.
  intros Hr Hd Hap Hn. destruct (load_valid m src n) as [xs Hl]; [by eapply region_is_valid|].
  rewrite (memcpy_apart _ _ _ _ _ Hl Hap). pose proof (load_zlen _ _ _ _ Hl) as Hz.
  destruct (store_spec m dst xs) as (m' & -> & S & G); [by rewrite Hz|]. rewrite Hz in G.
  exists m'. split_and!; [done|done| |].
  - intros i Hi. rewrite G. rewrite decide_True by by apply in_range_padd.
    replace (off (dst +ₚ i) - off dst) with i by (simpl; lia). unfold zget. rewrite decide_True by lia.
    rewrite (load_lookup _ _ _ _ _ Hl) by lia. rewrite Z2Nat.id by lia. by apply Hr.
  - intros q Hq. rewrite G. by rewrite decide_False.
Qed.

(** A loop each of whose iterations adds [h j] to the region. *)
Lemma accum_loop m0 P n (h : Z → Z → byte) lo hi body f m :
  lo ≤ hi → accum m0 P n f m →
  (∀ j f m, lo ≤ j < hi → accum m0 P n f m →
     ∃ m', body j m = Some m' ∧ accum m0 P n (bxor_fun f (h j)) m') →
  ∃ m', for_range lo hi body m = Some m' ∧
    accum m0 P n (λ i, bxor (f i) (xsum (seqZ lo (hi - lo)) (λ j, h j i))) m'.
Proof.
  intros Hle Hacc Hbody.
  apply (for_range_inv (λ j m, accum m0 P n (λ i, bxor (f i) (xsum (seqZ lo (j - lo)) (λ j, h j i))) m)); [done| |].
  - intros j m1 Hj H1. destruct (Hbody j _ _ Hj H1) as (m2 & E2 & H2). exists m2. split; [done|].
    eapply accum_ext; [|exact H2]. intros i _. unfold bxor_fun. rewrite <- (assoc bxor). f_equal.
    replace (j + 1 - lo) with ((j - lo) + 1) by lia. rewrite (seqZ_app _ (j - lo) 1) by lia. rewrite xsum_app. simpl.
    rewrite (right_id x00 bxor). do 2 f_equal. lia.
  - eapply accum_ext; [|exact Hacc]. intros i _. rewrite Z.sub_diag. simpl. by rewrite (right_id x00 bxor).
Qed.

(** Rebuilding one chunk of a row of [n] chunks whose exclusive or is zero:
    the loop adds every other chunk to the lost one, which is zero. *)
Lemma row_repair chunkSize m chunks n j L (cw : Z → Z → byte) body :
  0 < chunkSize → 0 ≤ j < n → zget chunks j = Some L →
  chunk_is chunkSize m L (λ _, x00) →
  (∀ i, 0 ≤ i < n → i ≠ j → ∃ c, zget chunks i = Some c ∧ chunk_is chunkSize m c (cw i) ∧
     apart (getData L) chunkSize (getData c) chunkSize) →
  (∀ t, 0 ≤ t < chunkSize → xsum (seqZ 0 n) (λ i, cw i t) = x00) →
  (∀ m1, body j m1 = Some m1) →
  (∀ i c m1, 0 ≤ i < n → i ≠ j → zget chunks i = Some c →
     body i m1 = bitwiseXOR m1 (getData L) (getData L) (getData c) chunkSize ∨
     body i m1 = bitwiseXOR m1 (getData L) (getData c) (getData L) chunkSize) →
  ∃ m', for_range 0 n body m = Some m' ∧ same_shape m m' ∧ chunk_is chunkSize m' L (cw j) ∧
    ∀ q, ¬ in_range (getData L) chunkSize q → mget m' q = mget m q.
Proof.
  intros Hcs Hj HL Hz Hoth Hsum Hbj Hbi.
  assert (Hv : valid m (getData L) chunkSize) by by eapply region_is_valid.
  destruct (accum_loop m (getData L) chunkSize (λ i t, if decide (i = j) then x00 else cw i t) 0 n body (λ _, x00) m)
    as (m' & E & Ha); [lia|by apply accum_refl| |].
  - intros i f m1 Hi H1. destruct (decide (i = j)) as [->|Hij].
    { exists m1. split; [done|]. eapply accum_ext; [|exact H1]. intros t _. unfold bxor_fun. by rewrite (right_id x00 bxor). }
    destruct (Hoth i Hi Hij) as (c & Hc & Hr & Hap).
    destruct (accum_xor m (getData L) chunkSize f m1 0 chunkSize (getData c)) as [(m2 & E2 & H2) (m3 & E3 & H3)];
      [done..|lia|lia|lia|by eapply region_is_valid|done|].
    rewrite padd_0 in E2, E3.
    assert (Hext : ∀ t, 0 ≤ t < chunkSize → add_part f 0 chunkSize (λ t, mbyte m (getData c +ₚ t)) t =
                    bxor_fun f (λ t, cw i t) t).
    { intros t Ht. unfold add_part, bxor_fun. cbv beta. rewrite decide_True by lia. f_equal.
      rewrite (region_is_mbyte _ _ _ _ _ Hr) by lia. f_equal. lia. }
    destruct (Hbi i c m1 Hi Hij Hc) as [-> | ->].
    + exists m2. split; [done|]. eapply accum_ext; [exact Hext|exact H2].
    + exists m3. split; [done|]. eapply accum_ext; [exact Hext|exact H3].
  - exists m'. split; [done|]. split; [apply Ha|]. split; [|intros; by eapply accum_frame].
    eapply region_is_ext; [|by eapply accum_region]. intros t Ht. cbv beta.
    rewrite !(left_id x00 bxor). rewrite Z.sub_0_r. symmetry. apply bxor_eq_0.
    rewrite <- (xsum_remove (seqZ 0 n) (λ i, cw i t) j); [by apply Hsum|apply NoDup_seqZ|apply elem_of_seqZ; lia].
Qed.

(** ** What an implementation of Coding promises *)

(** A stripe of [k] data chunks and [m'] parity chunks over [chunkSize] bytes;
    [D c i] is byte [i] of data chunk [c]. *)
Abbreviation data_t := (Z → Z → byte).

(** The lost chunks share no byte with any other chunk of the stripe. *)
Definition lost_apart (chunkSize : Z) (chunks : list ptr) (lost : Z → Prop) : Prop :=
  ∀ i j p q, i ≠ j → lost i → zget chunks i = Some p → zget chunks j = Some q →
    apart p (CHUNK_IDENTIFIER_SIZE + chunkSize) q (CHUNK_IDENTIFIER_SIZE + chunkSize).

(** Chunk [i] of the stripe holds what [cw] says. *)
Definition stripe_is (chunkSize : Z) (m : mem) (chunks : list ptr) (n : Z) (cw : Z → Z → byte) : Prop :=
  ∀ i, 0 ≤ i < n → ∃ p, zget chunks i = Some p ∧ chunk_is chunkSize m p (cw i).

(** The number of lost chunks among the first [n]. *)
Definition n_lost (n : Z) (status : Z → bool) : Z := zlen (filter (λ i, status i = false) (seqZ 0 n)).

Lemma filter_seqZ_cons status i n :
  0 ≤ n → filter (λ j, status j = false) (seqZ i (n + 1)) =
    (if status i then [] else [i]) ++ filter (λ j, status j = false) (seqZ (i + 1) n).
Proof.
  intros. rewrite seqZ_cons by lia. replace (Z.succ i) with (i + 1) by lia. replace (Z.pred (n + 1)) with n by lia.
  destruct (status i) eqn:E; [by rewrite filter_cons_False by congruence|by rewrite filter_cons_True].
Qed.

Lemma n_lost_snoc n status : 0 ≤ n → n_lost (n + 1) status = n_lost n status + if status n then 0 else 1.
Proof.
  intros. unfold n_lost, zlen. rewrite seqZ_app by lia. rewrite filter_app, length_app, Nat2Z.inj_add. f_equal.
  rewrite Z.add_0_l. change (seqZ n 1) with (seqZ n (0 + 1)). rewrite filter_seqZ_cons by lia. by destruct (status n).
Qed.

Lemma elem_of_lost n status i : i ∈ filter (λ j, status j = false) (seqZ 0 n) ↔ status i = false ∧ 0 ≤ i < n.
Proof. rewrite list_elem_of_filter, elem_of_seqZ. by rewrite Z.add_0_l. Qed.

(** One or two lost chunks, in order. *)
Lemma lost_one n status : n_lost n status = 1 →
  ∃ a, filter (λ i, status i = false) (seqZ 0 n) = [a] ∧ 0 ≤ a < n ∧ ∀ i, 0 ≤ i < n → status i = negb (bool_decide (i = a)).
Proof.
  unfold n_lost, zlen. intros H. destruct (filter _ _) as [|a [|]] eqn:E; simpl in H; try lia.
  exists a. split; [done|]. assert (Hin := λ i, elem_of_lost n status i). rewrite E in Hin.
  destruct (proj1 (Hin a) ltac:(by left)) as [Ha Hr]. split; [lia|]. intros i Hi.
  case_bool_decide as Hia; [by subst|]. simpl. destruct (status i) eqn:Ei; [done|].
  exfalso. apply Hia. assert (i ∈ [a]) by by apply Hin. by apply list_elem_of_singleton.
Qed.

Lemma lost_two n status : 0 ≤ n → n_lost n status = 2 →
  ∃ a b, filter (λ i, status i = false) (seqZ 0 n) = [a; b] ∧ 0 ≤ a < b ∧ b < n ∧
    ∀ i, 0 ≤ i < n → status i = negb (bool_decide (i = a ∨ i = b)).
Proof.
  intros Hn. unfold n_lost, zlen. intros H. destruct (filter _ _) as [|a [|b [|]]] eqn:E; simpl in H; try lia.
  exists a, b. assert (Hin := λ i, elem_of_lost n status i). rewrite E in Hin.
  destruct (proj1 (Hin a) ltac:(by left)) as [Ha Har]. destruct (proj1 (Hin b) ltac:(by right; left)) as [Hb Hbr].
  assert (Hab : ∀ (k : nat) i, filter (λ j, status j = false) (seqZ i (Z.of_nat k)) = [a; b] → a < b).
  { induction k as [|k IH]; intros i Hf; [done|].
    replace (Z.of_nat (S k)) with (Z.of_nat k + 1) in Hf by lia. rewrite filter_seqZ_cons in Hf by lia.
    destruct (status i); simpl in Hf; [by eapply IH|]. injection Hf as -> Hf.
    assert (Hbi : b ∈ filter (λ j, status j = false) (seqZ (a + 1) (Z.of_nat k))) by (rewrite Hf; by left).
    apply list_elem_of_filter in Hbi as [_ Hbi%elem_of_seqZ]. lia. }
  specialize (Hab (Z.to_nat n) 0). rewrite Z2Nat.id in Hab by lia. specialize (Hab E).
  split; [done|]. split; [lia|]. split; [lia|]. intros i Hi. case_bool_decide as Hiab.
  - destruct Hiab as [-> | ->]; done.
  - simpl. destruct (status i) eqn:Ei; [done|]. exfalso. apply Hiab.
    assert (Hl : i ∈ [a; b]) by by apply Hin. apply elem_of_cons in Hl as [?|Hl]; [by left|right]. by apply list_elem_of_singleton.
Qed.

Class ErasureCode (C : Coding) := {
  ec_chunkSize : Z;
  ec_k : Z;
  ec_m : Z;
  (** How many lost chunks [decode] restores. *)
  ec_tolerance : Z;
  (** Byte [i] of parity chunk [j], [1 ≤ j ≤ ec_m]. *)
  ec_parity : Z → data_t → Z → byte;
  ec_sizes : 0 < ec_chunkSize ∧ 0 < ec_k ∧ 0 ≤ ec_m;
  ec_linear : ∀ j D D' i, 1 ≤ j ≤ ec_m → 0 ≤ i < ec_chunkSize →
    ec_parity j (λ c i, bxor (D c i) (D' c i)) i = bxor (ec_parity j D i) (ec_parity j D' i);
  (** It depends on the bytes of the data only. *)
  ec_ext : ∀ j D D' i, (∀ c i, D c i = D' c i) → ec_parity j D i = ec_parity j D' i;
  (** [encode], without a range or with an empty one, leaves parity chunk
      [index] in [parity] when that chunk's data is zero; the range is the part
      of the stripe outside of which the data is zero. *)
  ec_encode : ∀ m data parity index startOff endOff D,
    1 ≤ index ≤ ec_m →
    stripe_is ec_chunkSize m data ec_k D →
    chunk_is ec_chunkSize m parity (λ _, x00) →
    (∀ c p, 0 ≤ c < ec_k → zget data c = Some p → apart (getData parity) ec_chunkSize (getData p) ec_chunkSize) →
    (startOff = endOff ∨
     0 ≤ startOff < endOff ∧ endOff ≤ ec_k * ec_chunkSize ∧
     ∀ c i, 0 ≤ c < ec_k → 0 ≤ i < ec_chunkSize → D c i ≠ x00 → startOff ≤ c * ec_chunkSize + i < endOff) →
    ∃ m', encode m data parity index startOff endOff = Some m' ∧ same_shape m m' ∧
      chunk_is ec_chunkSize m' parity (ec_parity index D) ∧
      ∀ q, ¬ in_range (getData parity) ec_chunkSize q → mget m' q = mget m q;
  ec_decode : ∀ m chunks bitmap (status : Z → bool) D,
    let cw := λ i, if decide (i < ec_k) then D i else ec_parity (i - ec_k + 1) D in
    let lost := λ i, 0 ≤ i < ec_k + ec_m ∧ status i = false in
    (∀ i, 0 ≤ i < ec_k + ec_m → check1 bitmap i = Some (status i)) →
    0 < n_lost (ec_k + ec_m) status ≤ ec_tolerance →
    stripe_is ec_chunkSize m chunks (ec_k + ec_m) (λ i, if status i then cw i else λ _, x00) →
    (∀ p i, zget chunks i = Some p → valid m p (CHUNK_IDENTIFIER_SIZE + ec_chunkSize)) →
    lost_apart ec_chunkSize chunks lost →
    ∃ m', decode m chunks bitmap = Some (true, m') ∧ same_shape m m' ∧
      stripe_is ec_chunkSize m' chunks (ec_k + ec_m) cw ∧
      ∀ q, (∀ i p, lost i → zget chunks i = Some p → ¬ in_range p (CHUNK_IDENTIFIER_SIZE + ec_chunkSize) q) →
        mget m' q = mget m q;
}.

(** The bytes of the whole codeword. *)
Definition codeword {C : Coding} {EC : ErasureCode C} (D : data_t) : Z → Z → byte :=
  λ i, if decide (i < ec_k) then D i else ec_parity (i - ec_k + 1) D.
Section promise.
Context {C : Coding} {EC : ErasureCode C}.

Lemma codeword_data D i : i < ec_k → codeword D i = D i.
Proof. intros. unfold codeword. by rewrite decide_True. Qed.
Lemma codeword_parity D j : 1 ≤ j → codeword D (ec_k + j - 1) = ec_parity j D.
Proof. intros. unfold codeword. rewrite decide_False by lia. f_equal. lia. Qed.
End promise.
