(* ===== verification/Raid.v ===== *)
(** * RAID codes (common/coding/raid{0,1,5}coding.cc)

    RAID-0 has no redundancy, RAID-1 copies, RAID-5 keeps the exclusive or of
    the data chunks.  [raid5_code] shows that RAID-5 fulfils the promise of
    [ErasureCode] for one lost chunk. *)

From S2P Require Export Coding.

(** [check1] on the bits [lo, lo + n), stopping at the first one for which the
    callback returns: the first index whose bit is [b]. *)
Fixpoint find_bit (bitmap : BitmaskArray) (b : bool) (i : Z) (n : nat) : option (option Z) :=
  match n with
  | O => Some None
  | S n' => v ← check1 bitmap i; if decide (v = b) then Some (Some i) else find_bit bitmap b (i + 1) n'
  end.

(** ** RAID-0 *)
Module RAID0Coding.
Definition encode (m : mem) (data : list ptr) (parity : ptr) (index startOff endOff : Z) : option mem := Some m.
Definition decode (n : Z) (m : mem) (chunks : list ptr) (bitmap : BitmaskArray) : option (bool * mem) :=
  lost ← find_bit bitmap false 0 (Z.to_nat n);
  Some (if lost is Some _ then false else true, m).
End RAID0Coding.

(** ** RAID-1 *)
Module RAID1Coding.
Section raid1.
Variables (n chunkSize dataChunkCount : Z) (zeros : ptr) (fuel : nat).
Let getSize := ChunkUtil.getSize chunkSize dataChunkCount zeros fuel.

Definition encode (m : mem) (data : list ptr) (parity : ptr) (index startOff endOff : Z) : option mem :=
  d0 ← zget data 0;
  sz ← getSize m d0;
  memcpy m (getData parity) (getData d0) sz.

Definition decode_step (chunks : list ptr) (bitmap : BitmaskArray) (survivingIndex i : Z) (m : mem) : option mem :=
  b ← check1 bitmap i;
  if (b : bool) then Some m else
  c ← zget chunks i;
  s ← zget chunks survivingIndex;
  sz ← getSize m s;
  memcpy m (getData c) (getData s) sz.

Definition decode (m : mem) (chunks : list ptr) (bitmap : BitmaskArray) : option (bool * mem) :=
  surviving ← find_bit bitmap true 0 (Z.to_nat n);
  if surviving is Some survivingIndex then
    m ← for_range 0 n (decode_step chunks bitmap survivingIndex) m;
    Some (true, m)
  else Some (false, m).
End raid1.
End RAID1Coding.

(** ** RAID-5 *)
Module RAID5Coding.
Section raid5.
Variables (n chunkSize : Z).

Definition encode_step (data : list ptr) (parity : ptr) (i : Z) (m : mem) : option mem :=
  d ← zget data i; bitwiseXOR_chunk m parity parity d chunkSize.

Definition encode (m : mem) (data : list ptr) (parity : ptr) (index startOff endOff : Z) : option mem :=
  for_range 0 (u32 (n - 1)) (encode_step data parity) m.

(** The lost index and the number of lost chunks; [None] in the inner option
    is the early return of [false]. *)
Fixpoint find_lost (bitmap : BitmaskArray) (i lostIndex failed : Z) (cnt : nat) : option (option (Z * Z)) :=
  match cnt with
  | O => Some (Some (lostIndex, failed))
  | S cnt' =>
      b ← check1 bitmap i;
      if (b : bool) then find_lost bitmap (i + 1) lostIndex failed cnt'
      else if decide (failed + 1 > 1) then Some None
      else find_lost bitmap (i + 1) i (failed + 1) cnt'
  end.

Definition decode_step (chunks : list ptr) (lostIndex : Z) (lostChunk : ptr) (i : Z) (m : mem) : option mem :=
  if decide (i = lostIndex) then Some m else
  c ← zget chunks i; bitwiseXOR_chunk m lostChunk lostChunk c chunkSize.

Definition decode (m : mem) (chunks : list ptr) (bitmap : BitmaskArray) : option (bool * mem) :=
  r ← find_lost bitmap 0 0 0 (Z.to_nat n);
  if r is Some (lostIndex, _) then
    lostChunk ← zget chunks lostIndex;
    m ← for_range 0 n (decode_step chunks lostIndex lostChunk) m;
    Some (true, m)
  else Some (false, m).

#[export] Instance raid5 : Coding := { encode := encode; decode := decode }.
End raid5.

(** *** Correctness *)
Section correct.
Variables (n chunkSize : Z).
Hypothesis (Hn : 1 < n < 2 ^ 32) (Hc : 0 < chunkSize).

(** The row parity. *)
Definition row_parity (k : Z) (D : data_t) (i : Z) : byte := xsum (seqZ 0 k) (λ c, D c i).

(** Adding the data of the chunks of a loop to a region. *)
Lemma encode_accum m data parity D k :
  0 ≤ k → stripe_is chunkSize m data k D →
  (∀ c p, 0 ≤ c < k → zget data c = Some p → apart (getData parity) chunkSize (getData p) chunkSize) →
  valid m (getData parity) chunkSize →
  ∃ m', for_range 0 k (encode_step chunkSize data parity) m = Some m' ∧
    accum m (getData parity) chunkSize (row_parity k D) m'.
Proof.
  intros Hk Hd Hap Hv.
  destruct (accum_loop m (getData parity) chunkSize D 0 k (encode_step chunkSize data parity) (λ _, x00) m)
    as (m' & -> & Ha); [lia|by apply accum_refl| |].
  - intros j f m1 Hj H1. unfold encode_step, bitwiseXOR_chunk.
    destruct (Hd j Hj) as (p & Hp & Hr). rewrite Hp. cbn [mbind option_bind].
    destruct (accum_xor m (getData parity) chunkSize f m1 0 chunkSize (getData p)) as [(m2 & E & H2) _];
      [done..|lia|lia|lia|by eapply region_is_valid|by eapply Hap|].
    rewrite padd_0 in E. rewrite E. exists m2. split; [done|]. eapply accum_ext; [|exact H2].
    intros i Hi. unfold add_part, bxor_fun. rewrite decide_True by lia. f_equal.
    rewrite (region_is_mbyte _ _ _ _ _ Hr) by lia. f_equal. lia.
  - exists m'. split; [done|]. eapply accum_ext; [|exact Ha]. intros i _. rewrite (left_id x00 bxor).
    unfold row_parity. f_equal. f_equal. lia.
Qed.

Lemma find_lost_spec bitmap status i lostIndex cnt :
  (∀ j, i ≤ j < i + Z.of_nat cnt → check1 bitmap j = Some (status j)) →
  find_lost bitmap i lostIndex 0 cnt =
    Some match filter (λ j, status j = false) (seqZ i (Z.of_nat cnt)) with
         | [] => Some (lostIndex, 0) | [j] => Some (j, 1) | _ => None end ∧
  ∀ x, find_lost bitmap i x 1 cnt =
    Some (if filter (λ j, status j = false) (seqZ i (Z.of_nat cnt)) is [] then Some (x, 1) else None).
Proof.
  revert i lostIndex. induction cnt as [|cnt IH]; intros i lostIndex Hst; [done|].
  assert (Hseq : seqZ i (Z.of_nat (S cnt)) = i :: seqZ (i + 1) (Z.of_nat cnt)).
  { rewrite seqZ_cons by lia. f_equal. f_equal; lia. }
  rewrite Hseq. simpl. rewrite Hst by lia. simpl.
  destruct (IH (i + 1) lostIndex) as [IH0 IH1]; [intros; apply Hst; lia|].
  rewrite filter_cons. destruct (status i) eqn:E.
  - rewrite decide_False by done. split; [by rewrite IH0|]. intros x. by rewrite IH1.
  - rewrite decide_True by done. split; [|done]. rewrite IH1. by destruct (filter _ _).
Qed.

End correct.

(** The promise of [ErasureCode]: [n - 1] data chunks, one parity chunk, one
    chunk may be lost. *)
Section code.
Variables (n chunkSize : Z).
Context (Hn : 1 < n < 2 ^ 32) (Hc : 0 < chunkSize).

Definition r5_codeword (D : data_t) (i : Z) : Z → byte :=
  if decide (i < n - 1) then D i else row_parity (n - 1) D.

Lemma r5_sum D t : xsum (seqZ 0 n) (λ i, r5_codeword D i t) = x00.
Proof.
  replace n with (n - 1 + 1) at 1 by lia. rewrite xsum_seqZ_snoc by lia.
  unfold r5_codeword at 2. rewrite decide_False by lia. unfold row_parity.
  rewrite (xsum_ext (seqZ 0 (n - 1)) _ (λ c, D c t)); [apply bxor_nilp|].
  intros c Hc'%elem_of_seqZ. unfold r5_codeword. by rewrite decide_True by lia.
Qed.

Lemma r5_encode_ok m data parity index startOff endOff D :
  stripe_is chunkSize m data (n - 1) D → chunk_is chunkSize m parity (λ _, x00) →
  (∀ c p, 0 ≤ c < n - 1 → zget data c = Some p → apart (getData parity) chunkSize (getData p) chunkSize) →
  ∃ m', encode n chunkSize m data parity index startOff endOff = Some m' ∧ same_shape m m' ∧
    chunk_is chunkSize m' parity (row_parity (n - 1) D) ∧
    ∀ q, ¬ in_range (getData parity) chunkSize q → mget m' q = mget m q.
Proof.
  intros Hd Hz Hap. unfold encode. rewrite u32_small by lia.
  destruct (encode_accum chunkSize Hc m data parity D (n - 1)) as (m' & E & Ha);
    [lia|done|done|by eapply region_is_valid|].
  exists m'. split; [done|]. split; [apply Ha|]. split; [|intros; by eapply accum_frame].
  eapply region_is_ext; [|by eapply accum_region]. intros. cbv beta. apply (left_id x00 bxor).
Qed.

Lemma r5_decode_ok m chunks bitmap status D :
  let lost := λ i, 0 ≤ i < n ∧ status i = false in
  (∀ i, 0 ≤ i < n → check1 bitmap i = Some (status i)) → n_lost n status = 1 →
  stripe_is chunkSize m chunks n (λ i, if status i then r5_codeword D i else λ _, x00) →
  (∀ i j p q, 0 ≤ j < n → i ≠ j → lost i → zget chunks i = Some p → zget chunks j = Some q →
     apart (getData p) chunkSize (getData q) chunkSize) →
  ∃ m', decode n chunkSize m chunks bitmap = Some (true, m') ∧ same_shape m m' ∧
    stripe_is chunkSize m' chunks n (r5_codeword D) ∧
    ∀ q, (∀ i p, lost i → zget chunks i = Some p → ¬ in_range (getData p) chunkSize q) → mget m' q = mget m q.
Proof.
  intros lost Hst H1 Hs Hap. destruct (lost_one n status H1) as (j & Hf & Hj & Hall).
  assert (Hsj : status j = false) by (rewrite Hall by done; by rewrite bool_decide_eq_true_2).
  assert (Hoth : ∀ i, 0 ≤ i < n → i ≠ j → status i = true) by (intros; rewrite Hall by done; by rewrite bool_decide_eq_false_2).
  unfold decode. destruct (find_lost_spec bitmap status 0 0 (Z.to_nat n)) as [-> _]; [intros; apply Hst; lia|].
  rewrite Z2Nat.id, Hf by lia. cbn [mbind option_bind].
  destruct (Hs j Hj) as (L & HL & Hz). rewrite HL, Hsj in *. cbn [mbind option_bind].
  assert (Hlj : lost j) by done.
  destruct (row_repair chunkSize m chunks n j L (r5_codeword D) (decode_step chunkSize chunks j L)) as (m' & -> & Hsh & HLm & Hfr);
    [done|done|done|done| |intros; apply r5_sum| | |].
  - intros i Hi Hij. destruct (Hs i Hi) as (c & Hcc & Hr). rewrite Hoth in Hr by done. exists c. eauto.
  - intros m1. unfold decode_step. by rewrite decide_True.
  - intros i c m1 Hi Hij Hcc. left. unfold decode_step. rewrite decide_False by done. by rewrite Hcc.
  - exists m'. split; [done|]. split; [done|]. split.
    + intros i Hi. destruct (decide (i = j)) as [->|Hij]; [by exists L|].
      destruct (Hs i Hi) as (c & Hcc & Hr). rewrite Hoth in Hr by done. exists c. split; [done|].
      eapply region_is_frame; [done|by apply (Hap j i)|lia|lia|done].
    + intros q Hq. apply Hfr. by eapply Hq.
Qed.

#[export] Program Instance raid5_code : ErasureCode (raid5 n chunkSize) := {
  ec_chunkSize := chunkSize; ec_k := n - 1; ec_m := 1; ec_tolerance := 1;
  ec_parity := λ _, row_parity (n - 1);
}.
Next Obligation. lia. Qed.
Next Obligation. intros. apply xsum_bxor. Qed.
Next Obligation. intros. by apply xsum_ext. Qed.
Next Obligation. intros. by apply r5_encode_ok. Qed.
Next Obligation.
  intros m chunks bitmap status D cw lost Hst Hl Hs Hv Hap. simpl in *.
  replace (n - 1 + 1) with n in * by lia. subst cw lost.
  assert (Hl' : ∀ i, 0 ≤ i < n ∧ status i = false → 0 ≤ i < n - 1 + 1 ∧ status i = false) by (intros ? [? ?]; split; [lia|done]).
  destruct (r5_decode_ok m chunks bitmap status D) as (m' & E & Hsh & Hok & Hfr); [done|lia|done| |].
  - intros i j p q _ Hij Hi Hp Hq. pose proof (Hap i j p q Hij (Hl' i Hi) Hp Hq) as Ha.
    unfold apart, getData, CHUNK_IDENTIFIER_SIZE in *; simpl in *. lia.
  - exists m'. split_and!; [done|done|done|]. intros q Hq. apply Hfr. intros i p Hi Hp Hin.
    apply (Hq i p); [by apply Hl'|done|]. unfold in_range, getData, CHUNK_IDENTIFIER_SIZE in *; simpl in *. lia.
Qed.
End code.

(** C30: RAID-5: [encode] on a zero chunk computes the exclusive or of the data
    chunks, and [decode] restores any single lost chunk of the stripe so coded;
    with two or more lost chunks it returns false and changes nothing. *)
Theorem raid5_correct (n chunkSize : Z) :
  1 < n < 2 ^ 32 → 0 < chunkSize →
  (∀ m data parity index startOff endOff D,
     stripe_is chunkSize m data (n - 1) D → chunk_is chunkSize m parity (λ _, x00) →
     (∀ c p, 0 ≤ c < n - 1 → zget data c = Some p → apart (getData parity) chunkSize (getData p) chunkSize) →
     ∃ m', encode n chunkSize m data parity index startOff endOff = Some m' ∧ same_shape m m' ∧
       chunk_is chunkSize m' parity (row_parity (n - 1) D) ∧
       ∀ q, ¬ in_range (getData parity) chunkSize q → mget m' q = mget m q) ∧
  (∀ m chunks bitmap status D,
     let lost := λ i, 0 ≤ i < n ∧ status i = false in
     (∀ i, 0 ≤ i < n → check1 bitmap i = Some (status i)) →
     stripe_is chunkSize m chunks n (λ i, if status i then r5_codeword n D i else λ _, x00) →
     (∀ i j p q, 0 ≤ j < n → i ≠ j → lost i → zget chunks i = Some p → zget chunks j = Some q →
        apart (getData p) chunkSize (getData q) chunkSize) →
     (n_lost n status = 1 →
        ∃ m', decode n chunkSize m chunks bitmap = Some (true, m') ∧
          stripe_is chunkSize m' chunks n (r5_codeword n D) ∧
          ∀ q, (∀ i p, lost i → zget chunks i = Some p → ¬ in_range (getData p) chunkSize q) → mget m' q = mget m q) ∧
     (1 < n_lost n status → decode n chunkSize m chunks bitmap = Some (false, m))).
Proof.
  intros Hn Hc. split; [intros; by apply r5_encode_ok|].
  intros m chunks bitmap status D lost Hst Hs Hap. split.
  - intros H1. destruct (r5_decode_ok n chunkSize Hn Hc m chunks bitmap status D) as (m' & E & _ & ? & ?); eauto.
  - intros H2. unfold decode. destruct (find_lost_spec bitmap status 0 0 (Z.to_nat n)) as [-> _]; [intros; apply Hst; lia|].
    rewrite Z2Nat.id by lia. unfold n_lost, zlen in H2.
    destruct (filter _ _) as [|a [|b l]]; simpl in H2; [lia|lia|done].
Qed.

Lemma raid5_correct_witness :
  let m : mem := {[ 0%nat := replicate 12 (z2b 9); 1%nat := replicate 12 (z2b 5); 2%nat := replicate 12 x00 ]} in
  ∃ m', encode 3 4 m [Ptr 0 0; Ptr 1 0] (Ptr 2 0) 1 0 0 = Some m' ∧
    chunk_is 4 m' (Ptr 2 0) (row_parity 2 (λ c _, if decide (c = 0) then z2b 9 else z2b 5)).
Proof.
  intros m. destruct (raid5_correct 3 4 ltac:(lia) ltac:(lia)) as [He _].
  assert (Hz : ∀ c v, (c = 0%nat ∧ v = z2b 9 ∨ c = 1%nat ∧ v = z2b 5 ∨ c = 2%nat ∧ v = x00) → chunk_is 4 m (Ptr c 0) (λ _, v)).
  { intros c v Hc i Hi. assert (i = 0 ∨ i = 1 ∨ i = 2 ∨ i = 3) as [-> | [-> | [-> | ->]]] by lia;
      destruct Hc as [[-> ->]|[[-> ->]|[-> ->]]]; reflexivity. }
  destruct (He m [Ptr 0 0; Ptr 1 0] (Ptr 2 0) 1 0 0 (λ c _, if decide (c = 0) then z2b 9 else z2b 5)) as (m' & E & _ & Hp & _).
  - intros i Hi. assert (i = 0 ∨ i = 1) as [-> | ->] by lia; eexists; (split; [reflexivity|]); apply Hz; auto.
  - apply Hz. auto.
  - intros c p Hc Hp. left. assert (c = 0 ∨ c = 1) as [-> | ->] by lia; injection Hp as <-; discriminate.
  - exists m'. split; [exact E|exact Hp].
Defined.
End RAID5Coding.
