(* ===== verification/GetChunkBuffer.v ===== *)
(** * GetChunkBuffer (server/buffer/get_chunk_buffer.{hh,cc})

    Copies of chunks as they were when a reconstruction asked for them.  The
    first copy is kept until it is acknowledged; an acknowledgement that comes
    before the request stays, and the request then makes no copy.  Every
    method runs under the lock and is one step. *)

From S2P Require Export Coding.

Module GetChunkBuffer.
Import Metadata.

(** [sealIndicator] is the array its pointer refers to. *)
Record GetChunkWrapper := MkWrapper {
  acked : bool; chunk : option ptr; sealIndicatorCount : Z; sealIndicator : option (list bool) }.
Definition GetChunkBuffer : Type := gmap Metadata GetChunkWrapper.
Definition new : GetChunkBuffer := ∅.

Section buffer.
Variables (chunkSize : Z) (junk : nat → Z → byte).

(** A copy in a chunk of the pool. *)
Definition copy (m : mem) (c : ptr) : option (ptr * mem) :=
  '(n, m) ← TempChunkPool.alloc chunkSize junk m 0 0 0;
  m ← ChunkUtil.dup chunkSize m n c;
  Some (n, m).

Definition insert (m : mem) (b : GetChunkBuffer) (metadata : Metadata) (c : option ptr)
    (count : Z) (indicator : option (list bool)) : option (bool * mem * GetChunkBuffer) :=
  match c with
  | None => Some (false, m, b)
  | Some c =>
      match b !! metadata with
      | None =>
          '(n, m) ← copy m c;
          Some (true, m, <[metadata := MkWrapper false (Some n) count indicator]> b)
      | Some w =>
          if acked w then Some (true, m, b)
          else
            match chunk w with
            | None =>
                '(n, m) ← copy m c;
                Some (true, m, <[metadata := MkWrapper false (Some n) count indicator]> b)
            | Some _ => Some (true, m, b)
            end
      end
  end.

(** The chunk, [exists], and the seal indicators, which are not set when there
    is no entry. *)
Definition find (b : GetChunkBuffer) (metadata : Metadata) : option ptr * bool * option (Z * option (list bool)) :=
  match b !! metadata with
  | None => (None, false, None)
  | Some w => (chunk w, true, Some (sealIndicatorCount w, sealIndicator w))
  end.

Definition free_chunk (m : mem) (w : GetChunkWrapper) : option mem :=
  match chunk w with Some c => TempChunkPool.free m c | None => Some m end.

Definition ack (m : mem) (b : GetChunkBuffer) (metadata : Metadata) (needsFree : bool) : option (bool * mem * GetChunkBuffer) :=
  let w' := MkWrapper true None 0 None in
  match b !! metadata with
  | None => Some (true, m, <[metadata := w']> b)
  | Some w =>
      m ← (if needsFree then free_chunk m w else Some m);
      Some (true, m, <[metadata := w']> b)
  end.

Definition erase (m : mem) (b : GetChunkBuffer) (metadata : Metadata) : option (bool * mem * GetChunkBuffer) :=
  match b !! metadata with
  | None => Some (true, m, b)
  | Some w => m ← free_chunk m w; Some (true, m, delete metadata b)
  end.
End buffer.

(** ** The copy that is kept *)
Section kept.
Variables (chunkSize : Z) (junk : nat → Z → byte).
Hypothesis (Hcs : 0 < chunkSize).

Lemma copy_spec m c f :
  chunk_is chunkSize m c f → valid m c (CHUNK_IDENTIFIER_SIZE + chunkSize) →
  ∃ n m', copy chunkSize junk m c = Some (n, m') ∧ off n = 0 ∧ m !! blk n = None ∧
    extends_by m (blk n) m' ∧ valid m' n (CHUNK_IDENTIFIER_SIZE + chunkSize) ∧ chunk_is chunkSize m' n f ∧
    (∀ q, blk q ≠ blk n → mget m' q = mget m q).
Proof.
  intros Hf Hv. unfold copy.
  destruct (temp_alloc_spec chunkSize junk m 0 0 0 ltac:(lia)) as (n & m1 & -> & Hn0 & Hx & Hv1 & _ & Hfr). cbn [mbind option_bind].
  assert (Hne : blk c ≠ blk n) by by eapply extends_by_blk.
  assert (Hr : region_is m1 c (CHUNK_IDENTIFIER_SIZE + chunkSize) (λ i, mbyte m (c +ₚ i))).
  { intros i Hi. rewrite Hfr by (simpl; done). by eapply valid_mget_mbyte. }
  destruct (memcpy_region m1 n c (CHUNK_IDENTIFIER_SIZE + chunkSize) _ Hr Hv1) as (m2 & E & Hs & Hr2 & Hfr2);
    [by left; apply not_eq_sym|unfold CHUNK_IDENTIFIER_SIZE; lia|].
  unfold ChunkUtil.dup. rewrite E. cbn [mbind option_bind]. exists n, m2. split; [done|]. split; [done|].
  split; [apply Hx|]. split; [by eapply extends_by_trans|]. split; [by rewrite <- Hs|]. split.
  - intros i Hi. unfold getData. rewrite padd_padd. rewrite Hr2 by (unfold CHUNK_IDENTIFIER_SIZE; lia).
    f_equal. rewrite <- padd_padd. apply (region_is_mbyte _ _ _ _ _ Hf). lia.
  - intros q Hq. rewrite Hfr2 by (unfold in_range; tauto). by apply Hfr.
Qed.
End kept.
End GetChunkBuffer.
