(* ===== verification/ChunkPool.v ===== *)
(** * ChunkPool (common/ds/chunk_pool.{hh,cc})

    One allocation of [total] chunks of equal size, handed out in order and
    never freed.  [alloc] is a function of the counter's value before its
    atomic increment, so every interleaving of allocating threads is a sequence
    of calls of it. *)

From S2P Require Export Coding.

Module ChunkPool.

Record ChunkPool := MkPool {
  total : Z;
  count : Z;
  startAddress : option ptr;
}.

Definition new : ChunkPool := MkPool 0 0 None.

Section pool.
(** [ChunkUtil::chunkSize], and what [malloc] finds in memory. *)
Context (chunkSize : Z) (junk : nat → Z → byte).

Definition slotSize : Z := CHUNK_IDENTIFIER_SIZE + chunkSize.

(** [init( chunkSize, capacity )]; [malloc] is taken to succeed. *)
Definition init (m : mem) (chunkSize capacity : Z) : option (ChunkPool * mem) :=
  let chunkSize := u32 (chunkSize + CHUNK_IDENTIFIER_SIZE) in
  if decide (chunkSize = 0) then None
  else
    let total := u32 (capacity / chunkSize) in
    let capacity := u64 (total * chunkSize) in
    let '(start, m) := malloc junk m capacity in
    m ← memset m start 0 capacity;
    Some (MkPool total 0 (Some start), m).

(** The offset of chunk [index], in [uint32_t] arithmetic, and the check that
    it lies in the pool. *)
Definition slot_offset (total index : Z) : option Z :=
  let size := u32 slotSize in
  let offset := u32 (index * size) in
  if decide (offset + size ≤ u32 (total * size)) then Some offset else None.

(** [alloc]: the pointer ([None] is the null pointer). *)
Definition alloc (p : ChunkPool) (m : mem) (listId stripeId chunkId : Z) : option (option ptr * ChunkPool * mem) :=
  let index := count p in
  let p := MkPool (total p) (u32 (count p + 1)) (startAddress p) in
  if decide (total p ≤ index) then Some (None, MkPool (total p) (total p) (startAddress p), m)
  else
    start ← startAddress p;
    match slot_offset (total p) index with
    | Some offset =>
        let chunk := start +ₚ offset in
        m ← ChunkUtil.clear chunkSize m chunk;
        m ← ChunkUtil.set m chunk listId stripeId chunkId;
        Some (Some chunk, p, m)
    | None => Some (None, p, m)
    end.

(** [getChunk( ptr, offset )]: the chunk and the offset in its data. *)
Definition getChunk (p : ChunkPool) (q : ptr) : option (ptr * Z) :=
  start ← startAddress p;
  let offset := u32 (u64 (off q - off start) mod slotSize) in
  Some (q +ₚ (- offset), u32 (offset - CHUNK_IDENTIFIER_SIZE)).

(** Pointers into the pool's allocation are compared by offset. *)
Definition isInChunkPool (p : ChunkPool) (chunk : ptr) : option bool :=
  start ← startAddress p;
  let endOffset := u32 (u32 slotSize * u32 (total p + 1)) in
  Some (bool_decide (blk chunk = blk start ∧ off start ≤ off chunk < off start + endOffset)).

Definition exportVars (p : ChunkPool) : Z * Z * option ptr := (total p, count p, startAddress p).

(** [n] calls, with the identifiers they are given. *)
Fixpoint alloc_run (ids : list (Z * Z * Z)) (p : ChunkPool) (m : mem) : option (list (option ptr) * ChunkPool * mem) :=
  match ids with
  | [] => Some ([], p, m)
  | (l, s, c) :: ids' =>
      '(r, p, m) ← alloc p m l s c;
      '(rs, p, m) ← alloc_run ids' p m;
      Some (r :: rs, p, m)
  end.
End pool.

(** ** Lemmas *)

(** Writing the identifier of a chunk. *)
Lemma set_get_spec m chunk l s c :
  valid m chunk CHUNK_IDENTIFIER_SIZE → 0 ≤ l < 2 ^ 8 → 0 ≤ s < 2 ^ 32 → 0 ≤ c < 2 ^ 8 →
  ∃ m', ChunkUtil.set m chunk l s c = Some m' ∧ ChunkUtil.get m' chunk = Some (l, s, c) ∧ same_shape m m' ∧
    ∀ q, ¬ in_range chunk CHUNK_IDENTIFIER_SIZE q → mget m' q = mget m q.
Proof.
  unfold CHUNK_IDENTIFIER_SIZE. intros Hv Hl Hs Hc.
  set (bs := [z2b l] ++ le_bytes 6 s ++ [z2b c]).
  assert (L6 : zlen (le_bytes 6 s) = 6) by (unfold zlen; by rewrite length_le_bytes).
  assert (L8 : zlen bs = 8) by (unfold bs, zlen in *; rewrite !length_app; simpl; lia).
  destruct (store_spec m chunk bs) as (m' & Hst & Hsh & Hg); [by rewrite L8|]. rewrite L8 in Hg.
  exists m'. split; [|split; [|split; [done|]]].
  - unfold ChunkUtil.set, ChunkUtil.setListId, ChunkUtil.setStripeId, ChunkUtil.setChunkId, store8.
    unfold bs in Hst. rewrite store_app in Hst. change (zlen [z2b l]) with 1 in Hst.
    destruct (store m chunk [z2b l]) as [m1|]; [|done]. cbn [mbind option_bind] in Hst |- *.
    rewrite store_app, L6 in Hst. destruct (store m1 _ _) as [m2|]; [|done]. cbn [mbind option_bind] in Hst |- *.
    rewrite padd_padd in Hst. done.
  - unfold ChunkUtil.get, ChunkUtil.getListId, ChunkUtil.getStripeId, ChunkUtil.getChunkId, load8.
    pose proof (load_store_sub m chunk bs m' 1 6 Hst) as Hload. rewrite Hload by lia.
    unfold bs. rewrite (slice_app_mid [z2b l] (le_bytes 6 s)) by done. cbn [mbind option_bind].
    rewrite !Hg. rewrite !decide_True by (unfold in_range; simpl; lia).
    simpl. rewrite Z.sub_diag. replace (off chunk + 7 - off chunk) with 7 by lia.
    unfold zget. rewrite !decide_True by lia. simpl. unfold le_bytes. simpl.
    fold (le_bytes 6 s). change (z2b s :: _) with (le_bytes 6 s). rewrite le_val_le_bytes.
    rewrite (b2z_small l), (b2z_small c) by lia. rewrite Z.mod_small, u32_small by lia. done.
  - intros q Hq. rewrite Hg. by rewrite decide_False.
Qed.

Section proofs.
Context (chunkSize : Z) (junk : nat → Z → byte).
Let size := slotSize chunkSize.

(** A pool whose size in bytes is a [uint32_t]. *)
Record pool_ok (p : ChunkPool) (m : mem) (start : ptr) : Prop := {
  ok_size : 0 ≤ chunkSize;
  ok_start : startAddress p = Some start;
  ok_total : 0 ≤ count p ≤ total p;
  ok_fits : total p * size < 2 ^ 32;
  ok_valid : valid m start (total p * size);
  ok_off : off start = 0;
}.


Lemma slot_offset_small p m start i :
  pool_ok p m start → 0 ≤ i < total p → slot_offset chunkSize (total p) i = Some (i * size).
Proof.
  intros [Hcs _ Ht Hf _ _] Hi. unfold slot_offset. fold size. assert (Hs : 8 ≤ size) by (unfold size, slotSize, CHUNK_IDENTIFIER_SIZE; lia).
  assert (size < 2 ^ 32) by nia. assert (i * size + size ≤ total p * size) by nia.
  rewrite (u32_small size), (u32_small (i * size)), (u32_small (total p * size)) by nia.
  by rewrite decide_True by lia.
Qed.

Definition set_count (p : ChunkPool) (c : Z) : ChunkPool := MkPool (total p) c (startAddress p).

Lemma alloc_ok p m start l s c :
  pool_ok p m start → count p < total p → 0 ≤ l < 2 ^ 8 → 0 ≤ s < 2 ^ 32 → 0 ≤ c < 2 ^ 8 →
  ∃ m', let chunk := start +ₚ count p * size in
    alloc chunkSize p m l s c = Some (Some chunk, set_count p (count p + 1), m') ∧
    pool_ok (set_count p (count p + 1)) m' start ∧
    ChunkUtil.get m' chunk = Some (l, s, c) ∧ chunk_is chunkSize m' chunk (λ _, x00) ∧
    same_shape m m' ∧ ∀ q, ¬ in_range chunk size q → mget m' q = mget m q.
Proof.
  intros Hok Hlt Hl Hs Hc. pose proof Hok as [Hcs Hst Ht Hf Hv Hoff].
  assert (Hsz : 8 ≤ size) by (unfold size, slotSize, CHUNK_IDENTIFIER_SIZE; lia).
  assert (Hin : count p * size + size ≤ total p * size) by nia.
  set (chunk := start +ₚ count p * size).
  assert (Hvc : valid m chunk (CHUNK_IDENTIFIER_SIZE + chunkSize)) by (apply (valid_sub m start (total p * size)); unfold size, slotSize in *; [done|nia..]).
  destruct (chunk_clear_spec chunkSize m chunk Hcs Hvc) as (m1 & Hclear & S1 & Hz1 & F1).
  assert (Hv1 : valid m1 chunk CHUNK_IDENTIFIER_SIZE).
  { rewrite <- S1. rewrite <- (padd_0 chunk). eapply valid_sub; [exact Hvc|unfold CHUNK_IDENTIFIER_SIZE; lia..]. }
  destruct (set_get_spec m1 chunk l s c Hv1 Hl Hs Hc) as (m2 & Hset & Hget & S2 & F2).
  exists m2. simpl. fold chunk. split; [|split; [|split; [done|split; [|split; [by etrans|]]]]].
  - unfold alloc. cbn [total count startAddress]. rewrite decide_False by lia. rewrite Hst. cbn [mbind option_bind].
    rewrite (slot_offset_small p m start) by (done || lia). fold chunk. rewrite Hclear. cbn [mbind option_bind].
    rewrite Hset. cbn [mbind option_bind]. unfold set_count. rewrite u32_small by nia. by rewrite <- Hst.
  - constructor; simpl; try done; [lia|]. by rewrite <- S2, <- S1.
  - intros i Hi. rewrite F2; [by apply Hz1|]. unfold in_range, ChunkUtil.getData, CHUNK_IDENTIFIER_SIZE. simpl. lia.
  - intros q Hq. rewrite F2, F1; [done|done|]. unfold in_range, size, slotSize, CHUNK_IDENTIFIER_SIZE in *. lia.
Qed.

Lemma alloc_full p m start l s c :
  pool_ok p m start → count p = total p → alloc chunkSize p m l s c = Some (None, p, m).
Proof.
  intros [Hcs Hst Ht Hf Hv Hoff] He. unfold alloc. cbn [total count startAddress]. rewrite decide_True by lia.
  destruct p as [t n st]. simpl in *. by rewrite He.
Qed.

(** Identifiers that fit their fields. *)
Definition ids_ok (id : Z * Z * Z) : Prop :=
  let '(l, s, c) := id in 0 ≤ l < 2 ^ 8 ∧ 0 ≤ s < 2 ^ 32 ∧ 0 ≤ c < 2 ^ 8.

Lemma get_frame m m' chunk id :
  (∀ q, in_range chunk CHUNK_IDENTIFIER_SIZE q → mget m' q = mget m q) → same_shape m m' →
  valid m chunk CHUNK_IDENTIFIER_SIZE →
  ChunkUtil.get m chunk = Some id → ChunkUtil.get m' chunk = Some id.
Proof.
  intros Hfr Hsh Hv. unfold ChunkUtil.get, ChunkUtil.getListId, ChunkUtil.getStripeId, ChunkUtil.getChunkId, load8.
  unfold CHUNK_IDENTIFIER_SIZE in *.
  rewrite (Hfr chunk), (Hfr (chunk +ₚ 7)) by (unfold in_range; simpl; lia).
  assert (Hv6 : valid m (chunk +ₚ 1) 6) by (eapply valid_sub; [exact Hv|lia..]).
  rewrite (load_bytes m' (chunk +ₚ 1) 6), (load_bytes m (chunk +ₚ 1) 6) by (done || by rewrite <- Hsh).
  assert (Heq : ((λ i, mbyte m' (chunk +ₚ 1 +ₚ i)) <$> seqZ 0 6) = ((λ i, mbyte m (chunk +ₚ 1 +ₚ i)) <$> seqZ 0 6)).
  { apply list_fmap_ext. intros i x Hx. apply lookup_seqZ in Hx as [-> Hx]. unfold mbyte. rewrite Hfr; [done|]. unfold in_range. simpl. lia. }
  by rewrite Heq.
Qed.

(** What a run of allocations from count [n0] leaves behind. *)
Definition allocated (start : ptr) (tot i : Z) (id : Z * Z * Z) (r : option ptr) (m : mem) : Prop :=
  if decide (i < tot) then
    r = Some (start +ₚ i * size) ∧ ChunkUtil.get m (start +ₚ i * size) = Some id ∧
    chunk_is chunkSize m (start +ₚ i * size) (λ _, x00)
  else r = None.

Lemma alloc_run_spec ids p m start :
  pool_ok p m start → Forall ids_ok ids →
  ∃ rs p' m', alloc_run chunkSize ids p m = Some (rs, p', m') ∧ pool_ok p' m' start ∧ total p' = total p ∧ length rs = length ids ∧
    same_shape m m' ∧
    (∀ q, off q < off start + count p * size → mget m' q = mget m q) ∧
    ∀ i id, ids !! i = Some id → ∃ r, rs !! i = Some r ∧ allocated start (total p) (count p + Z.of_nat i) id r m'.
Proof.
  revert p m. induction ids as [|[[l s] c] ids IH]; intros p m Hok Hids.
  { exists [], p, m. split; [done|]. split; [done|]. split; [done|]. split; [done|]. split; [done|]. split; [done|]. intros i id Hi. done. }
  apply Forall_cons in Hids as [(Hl & Hs & Hc) Hids]. simpl alloc_run.
  destruct (decide (count p = total p)) as [He|Hne].
  - rewrite (alloc_full p m start) by done. cbn [mbind option_bind].
    destruct (IH p m Hok Hids) as (rs & p' & m' & -> & Hok' & Ht & Hlen & Hsh & Hfr & Hall). simpl.
    exists (None :: rs), p', m'. split; [done|]. split; [done|]. split; [done|]. split; [simpl; lia|]. split; [done|]. split; [done|].
    intros [|i] id Hi; simpl in Hi.
    + exists None. split; [done|]. unfold allocated. by rewrite decide_False by lia.
    + destruct (Hall i id Hi) as (r & Hr & Ha). exists r. split; [done|]. unfold allocated in *.
      rewrite decide_False in Ha by lia. by rewrite decide_False by lia.
  - pose proof (ok_total _ _ _ Hok).
    destruct (alloc_ok p m start l s c Hok ltac:(lia) Hl Hs Hc) as (m1 & -> & Hok1 & Hget & Hz & Hsh1 & Hfr1). cbn [mbind option_bind].
    destruct (IH _ m1 Hok1 Hids) as (rs & p' & m' & -> & Hok' & Ht & Hlen & Hsh & Hfr & Hall). cbn [mbind option_bind total count set_count] in *.
    assert (Hsz : 8 ≤ size) by (pose proof (ok_size _ _ _ Hok); unfold size, slotSize, CHUNK_IDENTIFIER_SIZE; lia).
    exists (Some (start +ₚ count p * size) :: rs), p', m'. split; [done|]. split; [done|]. split; [done|]. split; [simpl; lia|].
    split; [|split].
    + by etrans.
    + intros q Hq. rewrite Hfr, Hfr1; [done| |nia]. unfold in_range. simpl. lia.
    + intros [|i] id Hi; simpl in Hi.
      * injection Hi as <-. eexists. split; [done|]. unfold allocated. rewrite decide_True by lia. rewrite Z.add_0_r.
        split; [done|]. split.
        -- apply (get_frame m1); [|done| |done]; unfold CHUNK_IDENTIFIER_SIZE.
           ++ intros q [_ Hq]. apply Hfr. simpl in Hq. nia.
           ++ eapply valid_sub; [apply Hok1| | |]; simpl; nia.
        -- intros j Hj. rewrite Hfr; [by apply Hz|]. unfold ChunkUtil.getData, CHUNK_IDENTIFIER_SIZE. simpl. unfold size, slotSize, CHUNK_IDENTIFIER_SIZE. nia.
      * destruct (Hall i id Hi) as (r & Hr & Ha). exists r. split; [done|].
        by replace (count p + Z.of_nat (Datatypes.S i)) with (count p + 1 + Z.of_nat i) by lia.
Qed.

(** C34: in a pool smaller than 4 GiB the [i]-th call of [alloc], by whichever
    thread, gives the chunk at slot [i], zeroed and with its identifier, and
    none once [total] chunks are out; no call disturbs the chunks given out
    before, and [getChunk] leads from any byte of a chunk's data back to the
    chunk and the offset. *)
Theorem chunk_pool_disjoint (m : mem) (capacity : Z) (ids : list (Z * Z * Z)) :
  0 ≤ chunkSize → size < 2 ^ 32 → 0 ≤ capacity < 2 ^ 32 → Forall ids_ok ids →
  ∃ p m1 start rs p' m2, init junk m chunkSize capacity = Some (p, m1) ∧ startAddress p = Some start ∧
    total p = capacity / size ∧ alloc_run chunkSize ids p m1 = Some (rs, p', m2) ∧
    ∀ i l s c, ids !! i = Some (l, s, c) →
      let chunk := start +ₚ Z.of_nat i * size in
      if decide (Z.of_nat i < total p) then
        rs !! i = Some (Some chunk) ∧ ChunkUtil.get m2 chunk = Some (l, s, c) ∧ chunk_is chunkSize m2 chunk (λ _, x00) ∧
        ∀ o, 0 ≤ o < chunkSize → getChunk chunkSize p' (getData chunk +ₚ o) = Some (chunk, o)
      else rs !! i = Some None.
Proof.
  intros Hcs Hsz Hcap Hids. assert (Hs8 : 8 ≤ size) by (unfold size, slotSize, CHUNK_IDENTIFIER_SIZE; lia).
  unfold init. replace (chunkSize + CHUNK_IDENTIFIER_SIZE) with size by (unfold size, slotSize; lia).
  rewrite (u32_small size), decide_False by lia.
  assert (Ht : 0 ≤ capacity / size ≤ capacity) by (split; [apply Z.div_pos; lia|apply Z.div_le_upper_bound; nia]).
  assert (Hcap' : capacity / size * size ≤ capacity) by (rewrite Z.mul_comm; apply Z.mul_div_le; lia).
  rewrite (u32_small (capacity / size)), u64_small by nia. set (tot := capacity / size) in *.
  destruct (malloc junk m (tot * size)) as [start m0] eqn:Em.
  destruct (zero_buffer_spec junk m (tot * size) start m0) as (Hoff & _ & _ & _ & m1 & -> & _ & _ & Hv & _); [nia|done|].
  cbn [mbind option_bind]. set (p := MkPool tot 0 (Some start)).
  assert (Hok : pool_ok p m1 start) by (constructor; simpl; try done; lia).
  destruct (alloc_run_spec ids p m1 start Hok Hids) as (rs & p' & m2 & Hrun & Hok' & Ht' & _ & _ & _ & Hall).
  exists p, m1, start, rs, p', m2. split; [done|]. split; [done|]. split; [done|]. split; [done|].
  intros i l s c Hi. set (chunk := start +ₚ Z.of_nat i * size). destruct (Hall i (l, s, c) Hi) as (r & Hr & Ha). unfold allocated in Ha.
  change (count p + Z.of_nat i) with (Z.of_nat i) in Ha. fold chunk in Ha. change (total p) with tot in Ha, Ht' |- *.
  destruct (decide (Z.of_nat i < tot)) as [Hlt|Hge]; [|by rewrite Hr, Ha].
  destruct Ha as (-> & Hget & Hz). split; [done|]. split; [done|]. split; [done|]. intros o Ho.
  unfold getChunk. rewrite (ok_start _ _ _ Hok'). simpl. fold size. rewrite Hoff.
  assert (Hb : Z.of_nat i * size + 8 + o < tot * size) by (unfold size, slotSize, CHUNK_IDENTIFIER_SIZE in *; nia).
  unfold getData, padd, CHUNK_IDENTIFIER_SIZE; simpl. rewrite Hoff.
  replace (0 + Z.of_nat i * size + 8 + o - 0) with (8 + o + Z.of_nat i * size) by lia.
  rewrite u64_small by nia. rewrite Z.mod_add, Z.mod_small by (unfold size, slotSize, CHUNK_IDENTIFIER_SIZE in *; lia).
  rewrite (u32_small (8 + o)), u32_small by (unfold size, slotSize, CHUNK_IDENTIFIER_SIZE in *; lia).
  unfold chunk, padd. do 2 f_equal; [f_equal|]; lia.
Qed.
End proofs.

(** Beyond 4 GiB the offset of a slot and the size it is checked against
    wrap around in [uint32_t]: in a pool of 65537 slots of 64 KiB, slots 0 and
    65536 are the same memory and both are handed out. *)
Theorem chunk_pool_aliases_beyond_4GiB :
  let chunkSize := 65528 in let total := 65537 in
  2 ^ 32 < total * slotSize chunkSize ∧
  slot_offset chunkSize total 0 = Some 0 ∧ slot_offset chunkSize total 65536 = Some 0.
Proof. intros chunkSize total. split; [done|]. split; reflexivity. Qed.

Lemma chunk_pool_disjoint_witness :
  ∃ p m1 start rs p' m2, init (λ _ _, x00) ∅ 4 30 = Some (p, m1) ∧ startAddress p = Some start ∧
    alloc_run 4 [(1, 2, 3); (4, 5, 6); (7, 8, 9)] p m1 = Some (rs, p', m2) ∧ rs !! 2%nat = Some None.
Proof.
  assert (Hids : Forall ids_ok [(1, 2, 3); (4, 5, 6); (7, 8, 9)]) by (repeat constructor; lia).
  destruct (chunk_pool_disjoint 4 (λ _ _, x00) ∅ 30 _ ltac:(done) ltac:(done) ltac:(done) Hids)
    as (p & m1 & start & rs & p' & m2 & Hi & Hs & Ht & Hr & Hall).
  exists p, m1, start, rs, p', m2. split; [done|]. split; [done|]. split; [done|].
  specialize (Hall 2%nat 7 8 9 eq_refl). rewrite Ht in Hall. rewrite decide_False in Hall by done. exact Hall.
Defined.
End ChunkPool.
