(* ===== verification/ParityBuffer.v ===== *)
(** * ParityChunkBuffer (server/buffer/parity_chunk_buffer.{hh,cc})

    A parity server receives every object of its stripe list twice: the object
    itself from the client, and, once the data server has sealed the chunk the
    object went to, its key and offset in a SEAL_CHUNK request.  The two come
    in any order.  An object that came first waits in [keys]; a key that was
    sealed first waits in [pending]; when both are there the object is written
    at its offset into an empty data chunk, whose parity is added to the
    parity chunk of the stripe.

    The buffer's lock makes every method one step.  Other threads' chunks
    [dataChunk] and [parityChunk], in which a worker prepares the data and its
    parity, are arguments. *)

From S2P Require Export ServerMap GetChunkBuffer ChunkPool.

(** What all chunk buffers of a server share: memory, the pool of chunks and
    the map (server/buffer/chunk_buffer.hh). *)
Record Shared := MkShared { s_mem : mem; s_pool : ChunkPool.ChunkPool; s_map : ServerMap.Map }.
Definition set_mem (sh : Shared) (m : mem) : Shared := MkShared m (s_pool sh) (s_map sh).

Module ParityChunkBuffer.
Import KeyMap.
Abbreviation Key := Key.Key.
Abbreviation PROTO_CHUNK_SEAL_DATA_SIZE := Messages.PROTO_CHUNK_SEAL_DATA_SIZE.

Record ParityChunkWrapper := MkWrapper { w_pending : list bool; w_chunk : ptr }.

(** The update of [PRT_UPDATE] is copied to the heap. *)
Inductive PendingRequest :=
  | PRT_SEAL (stripeId offset : Z)
  | PRT_UPDATE (offset length : Z) (buf : list byte)
  | PRT_DELETE.

Record ParityChunkBuffer := MkBuffer {
  listId : Z;
  chunkId : Z;
  chunks : gmap Z ParityChunkWrapper;
  keys : key_map ptr;
  pending : key_map PendingRequest;
}.
Definition set_chunks (b : ParityChunkBuffer) x := MkBuffer (listId b) (chunkId b) x (keys b) (pending b).
Definition set_keys (b : ParityChunkBuffer) x := MkBuffer (listId b) (chunkId b) (chunks b) x (pending b).
Definition set_pending (b : ParityChunkBuffer) x := MkBuffer (listId b) (chunkId b) (chunks b) (keys b) x.

(** The constructor; [init] without the stripe identifier, which no method
    reads. *)
Definition ParityChunkBuffer_new (listId chunkId : Z) : ParityChunkBuffer := MkBuffer listId chunkId ∅ [] [].

Definition countPending (w : ParityChunkWrapper) : Z := zlen (filter (λ b, b = true) (w_pending w)).

Section buffer.
(** [ChunkBuffer::capacity], which is the chunk size, [dataChunkCount],
    [Coding::zeros] and [ChunkBuffer::coding]. *)
Context {C : Coding} (capacity dataChunkCount : Z) (zeros : ptr) (junk : nat → Z → byte) (rand : nat → Z).

(** ** Parity chunks *)
Definition ParityChunkWrapper_new (chunk : ptr) : ParityChunkWrapper :=
  MkWrapper (replicate (Z.to_nat dataChunkCount) true) chunk.

(** The parity chunk of a stripe, allocated when it is asked for first. *)
Definition getWrapper (b : ParityChunkBuffer) (sh : Shared) (stripeId : Z) :
    option (ParityChunkWrapper * ParityChunkBuffer * Shared) :=
  match chunks b !! stripeId with
  | Some w => Some (w, b, sh)
  | None =>
      '(c, pool, m) ← ChunkPool.alloc capacity (s_pool sh) (s_mem sh) (listId b) stripeId (chunkId b);
      chunk ← (c : option ptr);
      map ← ServerMap.setChunk capacity rand m (s_map sh) (listId b) stripeId (chunkId b) chunk true;
      let '(_, map) := ServerMap.seal map (listId b) stripeId (chunkId b) in
      let w := ParityChunkWrapper_new chunk in
      Some (w, set_chunks b (<[stripeId := w]> (chunks b)), MkShared m pool map)
  end.

(** The part of [update] that changes the copy of a sealed chunk. *)
Definition update_backup (m : mem) (g : GetChunkBuffer.GetChunkBuffer) (metadata : Metadata.Metadata) (c : Z) : option mem :=
  let '(backupChunk, exists_, ind) := GetChunkBuffer.find g metadata in
  match backupChunk with
  | Some backupChunk =>
      if (exists_ : bool) then
        '(_, sealIndicator) ← ind;
        si ← sealIndicator;
        s ← zget si c;
        if (s : bool) then
          let parity := ChunkUtil.getData backupChunk in
          bitwiseXOR m parity parity (ChunkUtil.getData backupChunk) capacity
        else Some m
      else Some m
  | None => Some m
  end.

(** The private [update]: adds the parity of [dataChunk], which is chunk [c] of
    the stripe and zero outside of [offset, offset + size). *)
Definition update_parity (b : ParityChunkBuffer) (sh : Shared) (stripeId c offset size : Z) (dataChunk parityChunk : ptr)
    (isSeal isDelete : bool) (getChunkBuffer : option GetChunkBuffer.GetChunkBuffer) : option (ParityChunkBuffer * Shared) :=
  dataChunks ← zset (replicate (Z.to_nat dataChunkCount) zeros) c dataChunk;
  m ← ChunkUtil.clear capacity (s_mem sh) parityChunk;
  let startOff := u32 (offset + c * capacity) in
  m ← encode m dataChunks parityChunk (u32 (chunkId b - dataChunkCount + 1)) startOff (u32 (startOff + size));
  '(w, b, sh) ← getWrapper b (set_mem sh m) stripeId;
  m ← (match getChunkBuffer with
       | Some g => update_backup (s_mem sh) g (Metadata.set (listId b) stripeId (chunkId b)) c
       | None => Some (s_mem sh)
       end);
  let parity := ChunkUtil.getData (w_chunk w) in
  m ← bitwiseXOR m parity parity (ChunkUtil.getData parityChunk) capacity;
  if isSeal then
    p ← zset (w_pending w) c false;
    Some (set_chunks b (<[stripeId := MkWrapper p (w_chunk w)]> (chunks b)), set_mem sh m)
  else if isDelete then None (* assert( false ) *)
  else Some (b, set_mem sh m).

(** The public [update]: a delta of a sealed data chunk. *)
Definition update (b : ParityChunkBuffer) (sh : Shared) (stripeId c offset size : Z) (dataDelta dataChunk parityChunk : ptr)
    (isDelete : bool) : option (ParityChunkBuffer * Shared) :=
  m ← ChunkUtil.clear capacity (s_mem sh) dataChunk;
  m ← memcpy m (ChunkUtil.getData dataChunk +ₚ offset) dataDelta size;
  update_parity b (set_mem sh m) stripeId c offset size dataChunk parityChunk false isDelete None.

(** ** Objects from clients *)
Definition set (b : ParityChunkBuffer) (sh : Shared) (keyStr : ptr) (keySize : Z) (valueStr : ptr) (valueSize c splitOffset : Z)
    (dataChunk parityChunk : ptr) (getChunkBuffer : option GetChunkBuffer.GetChunkBuffer) :
    option (bool * ParityChunkBuffer * Shared) :=
  si ← LargeObjectUtil.isLarge capacity keySize valueSize;
  let isLarge := LargeObjectUtil.si_large si in
  key ← Key_set (s_mem sh) keySize keyStr isLarge;
  it ← find (pending b) key;
  match it with
  | None =>
      '(kv, m) ← KeyValue.dup capacity junk (s_mem sh) (Some keyStr) keySize (Some valueStr) valueSize splitOffset;
      f ← KeyValue.deserialize capacity m kv;
      key ← Key_set m (KeyValue.f_keySize f) (KeyValue.f_key f) isLarge;
      '(ret, ks) ← insert (keys b) key kv;
      if (ret : bool) then Some (true, set_keys b ks, set_mem sh m)
      else m ← mfree m kv; Some (false, b, set_mem sh m)
  | Some (key, pendingRequest) =>
      m ← ChunkUtil.clear capacity (s_mem sh) dataChunk;
      p ← erase (pending b) key;
      let b := set_pending b p in
      match pendingRequest with
      | PRT_SEAL stripeId offset =>
          m ← KeyValue.serialize capacity m (ChunkUtil.getData dataChunk +ₚ offset) (Some keyStr) keySize (Some valueStr) valueSize splitOffset;
          '(b, sh) ← update_parity b (set_mem sh m) stripeId c offset (u32 (KEY_VALUE_METADATA_SIZE + keySize + valueSize))
            dataChunk parityChunk false false getChunkBuffer;
          Some (true, b, sh)
      | PRT_UPDATE _ _ _ | PRT_DELETE => Some (true, b, set_mem sh m)
      end
  end.

(** ** Sealed chunks *)

(** One record (key size, offset, isLarge, key) at [p]: the return value so
    far, the buffer, the memory, the position behind the object when the object
    is there, and the size of the record. *)
Definition seal_record (b : ParityChunkBuffer) (m : mem) (stripeId : Z) (data p : ptr) (ret : bool) (curPos : Z) :
    option (bool * ParityChunkBuffer * mem * Z * Z) :=
  ks ← load8 m p;
  let keySize := b2z ks in
  ofs ← load m (p +ₚ 1) 4;
  let offset := ntohl (le_val ofs) in
  lg ← load8 m (p +ₚ 5);
  let isLarge := bool_decide (b2z lg ≠ 0) in
  key ← Key_set m keySize (p +ₚ PROTO_CHUNK_SEAL_DATA_SIZE) isLarge;
  it ← find (keys b) key;
  prt ← find (pending b) key;
  let ret := match prt with Some _ => false | None => ret end in
  '(ret, b, m, curPos, keySize) ←
    (match it return option (bool * ParityChunkBuffer * mem * Z * Z) with
     | None =>
         key ← Key_dup key isLarge;
         '(r, ps) ← insert (pending b) key (PRT_SEAL stripeId offset);
         Some (ret && (r : bool), set_pending b ps, m, curPos, keySize)
     | Some (key, kv) =>
         f ← KeyValue.deserialize capacity m kv;
         si ← LargeObjectUtil.isLarge capacity (KeyValue.f_keySize f) (KeyValue.f_valueSize f);
         let splitSize :=
           if LargeObjectUtil.si_large si
           then LargeObjectUtil.clampSplit (KeyValue.f_valueSize f) (KeyValue.f_splitOffset f) (LargeObjectUtil.si_size si) else 0 in
         let size :=
           if LargeObjectUtil.si_large si then KEY_VALUE_METADATA_SIZE + SPLIT_OFFSET_SIZE + KeyValue.f_keySize f + splitSize
           else KEY_VALUE_METADATA_SIZE + KeyValue.f_keySize f + KeyValue.f_valueSize f in
         m ← memcpy m (data +ₚ offset) kv (u32 size);
         kss ← erase (keys b) key;
         m ← mfree m kv;
         Some (ret, set_keys b kss, m, u32 (offset + size), KeyValue.f_keySize f)
     end);
  Some (ret, b, m, curPos, PROTO_CHUNK_SEAL_DATA_SIZE + keySize + if isLarge then SPLIT_OFFSET_SIZE else 0).

(** [while ( sealDataSize )]: every record takes six bytes at least. *)
Fixpoint seal_loop (fuel : nat) (b : ParityChunkBuffer) (m : mem) (stripeId : Z) (data p : ptr) (sealDataSize : Z)
    (ret : bool) (curPos numOfKeys : Z) : option (bool * ParityChunkBuffer * mem * Z * Z) :=
  if decide (sealDataSize = 0) then Some (ret, b, m, curPos, numOfKeys) else
  match fuel with
  | O => None
  | S fuel =>
      '(ret, b, m, curPos, n) ← seal_record b m stripeId data p ret curPos;
      seal_loop fuel b m stripeId data (p +ₚ n) (u64 (sealDataSize - n)) ret curPos (u32 (numOfKeys + 1))
  end.

Definition seal (b : ParityChunkBuffer) (sh : Shared) (stripeId c count : Z) (sealData : ptr) (sealDataSize : Z)
    (dataChunk parityChunk : ptr) : option (bool * ParityChunkBuffer * Shared) :=
  m ← ChunkUtil.clear capacity (s_mem sh) dataChunk;
  '(ret, b, m, curPos, numOfKeys) ←
    seal_loop (Z.to_nat sealDataSize) b m stripeId (ChunkUtil.getData dataChunk) sealData sealDataSize true 0 0;
  if decide (numOfKeys = count) then
    '(b, sh) ← update_parity b (set_mem sh m) stripeId c 0 curPos dataChunk parityChunk true false None;
    Some (ret, b, sh)
  else None.

(** ** Objects that wait *)

(** The result, [*keyPtr] and [*keyValuePtr]. *)
Definition findValueByKey (b : ParityChunkBuffer) (m : mem) (data : ptr) (size : Z) (isLarge : bool) :
    option (bool * Key * option ptr) :=
  key ← Key_set m size data isLarge;
  it ← find (keys b) key;
  match it with
  | None => Some (false, key, None)
  | Some (k, kv) => Some (true, k, Some kv)
  end.

Definition getKeyValueMap (b : ParityChunkBuffer) : key_map ptr := keys b.

Definition deleteKey (b : ParityChunkBuffer) (m : mem) (keyStr : ptr) (keySize : Z) : option (bool * ParityChunkBuffer * mem) :=
  key ← Key_set m keySize keyStr false;
  it ← find (keys b) key;
  match it with
  | None =>
      key ← Key_dup key false;
      '(_, p) ← insert (pending b) key PRT_DELETE;
      Some (false, set_pending b p, m)
  | Some (k, kv) =>
      ks ← erase (keys b) k;
      m ← mfree m kv;
      Some (true, set_keys b ks, m)
  end.

Definition updateKeyValue (b : ParityChunkBuffer) (m : mem) (keyStr : ptr) (keySize : Z) (isLarge : bool) (offset length : Z)
    (valueUpdate : ptr) : option (bool * ParityChunkBuffer * mem) :=
  key ← Key_set m keySize keyStr isLarge;
  it ← find (keys b) key;
  match it with
  | None =>
      buf ← load m valueUpdate length;
      key ← Key_dup key isLarge;
      '(_, p) ← insert (pending b) key (PRT_UPDATE offset length buf);
      Some (false, set_pending b p, m)
  | Some (k, kv) =>
      let dst := kv +ₚ (Protocol.PROTO_KEY_VALUE_SIZE + keySize + (if Key.isLarge k then SPLIT_OFFSET_SIZE else 0) + offset) in
      m ← bitwiseXOR m dst dst valueUpdate length;
      Some (true, b, m)
  end.

(** The array, and the number of its entries. *)
Definition getSealIndicator (b : ParityChunkBuffer) (sh : Shared) (stripeId : Z) :
    option (list bool * Z * ParityChunkBuffer * Shared) :=
  '(w, b, sh) ← getWrapper b sh stripeId;
  ps ← slice (w_pending w) 0 (u8 dataChunkCount);
  Some (map negb ps, u8 dataChunkCount, b, sh).
End buffer.
End ParityChunkBuffer.
