(* ===== verification/ParityProofs.v ===== *)
(** * Correctness of the parity chunk buffer

    Every method of [ParityChunkBuffer] is a function on an abstract state: the
    objects that wait, the sealed keys that wait for their objects, and for
    every stripe the data that the parity chunk accounts for.  The invariant
    [inv] says how the buffer represents it; in particular that the parity
    chunk of a stripe is the parity of the stripe's data. *)

From S2P Require Export ParityBuffer.

Module ParityProofs.
Import KeyMap ParityChunkBuffer.
Export ChunkUtil(obj, Obj, o_key, o_value, o_valueSize, o_splitOffset, obj_size, obj_bytes, objs_bytes, obj_ok, chunk_sizes, layout).

(** ** Blocks and frames *)
Lemma block_frame m m' b : same_shape m m' → (∀ q, blk q = b → mget m' q = mget m q) → m' !! b = m !! b.
Proof.
  intros Hs Hf. specialize (Hs b). destruct (m !! b) as [bs|] eqn:E, (m' !! b) as [bs'|] eqn:E'; simpl in Hs; try done.
  injection Hs as Hs. f_equal. apply list_eq. intros i.
  pose proof (Hf (Ptr b (Z.of_nat i)) eq_refl) as Hi. unfold mget in Hi. simpl in Hi. rewrite E, E' in Hi. simpl in Hi.
  unfold zget in Hi. rewrite !decide_True in Hi by lia. rewrite Nat2Z.id in Hi. done.
Qed.

Lemma load_frame m m' p n :
  same_shape m m' → valid m p n → (∀ q, in_range p n q → mget m' q = mget m q) → load m' p n = load m p n.
Proof.
  intros Hs Hv Hf. pose proof (same_shape_valid _ _ _ _ Hs Hv) as Hv'.
  rewrite (load_bytes m p n Hv), (load_bytes m' p n Hv'). f_equal.
  apply list_fmap_ext. intros i x Hx. apply lookup_seqZ in Hx as [-> Hx]. unfold mbyte. rewrite Hf; [done|].
  apply in_range_padd. lia.
Qed.

Lemma load_block m m' p n : m' !! blk p = m !! blk p → load m' p n = load m p n.
Proof. unfold load. by intros ->. Qed.
Lemma mget_block m m' p : m' !! blk p = m !! blk p → mget m' p = mget m p.
Proof. unfold mget. by intros ->. Qed.
Lemma valid_block m m' p n : m' !! blk p = m !! blk p → valid m p n → valid m' p n.
Proof. unfold valid. by intros ->. Qed.
Lemma region_block m m' p n f : m' !! blk p = m !! blk p → region_is m p n f → region_is m' p n f.
Proof. intros Hb Hr i Hi. rewrite (mget_block m m'); [by apply Hr|done]. Qed.

Lemma valid_prefix m p n k : valid m p n → 0 ≤ k ≤ n → valid m p k.
Proof. intros Hv Hk. rewrite <- (padd_0 p). eapply valid_sub; [exact Hv|lia..]. Qed.

(** ** Data and their places *)
Definition put (c : Z) (f : Z → byte) : data_t := λ c' i, if decide (c' = c) then f i else x00.
Definition add_data (D E : data_t) : data_t := λ c i, bxor (D c i) (E c i).
Definition bytes_at (offset : Z) (bs : list byte) (i : Z) : byte := default x00 (zget bs (i - offset)).

Lemma bytes_at_out offset bs i : ¬ (offset ≤ i < offset + zlen bs) → bytes_at offset bs i = x00.
Proof.
  intros Hi. unfold bytes_at. destruct (zget bs (i - offset)) eqn:E; [|done]. apply zget_Some in E. lia.
Qed.
Lemma bytes_at_in offset bs i : offset ≤ i < offset + zlen bs → zget bs (i - offset) = Some (bytes_at offset bs i).
Proof. intros Hi. unfold bytes_at. destruct (zget_is_Some bs (i - offset)) as [x ->]; [lia|]. done. Qed.

(** ** The abstract state *)
Record abs := MkAbs {
  a_keys : gmap Key obj;
  a_pending : gmap Key PendingRequest;
  a_data : Z → data_t;
}.
Definition add_at (A : Z → data_t) (s c : Z) (f : Z → byte) : Z → data_t :=
  λ s', if decide (s' = s) then add_data (A s) (put c f) else A s'.

(** What a method that works on the stripes [X] leaves of the pool, for callers
    that count chunks. *)
Definition pool_step (X : gset Z) (sh : Shared) (b : ParityChunkBuffer) (sh' : Shared) (b' : ParityChunkBuffer) : Prop :=
  listId b' = listId b ∧ chunkId b' = chunkId b ∧
  ChunkPool.total (s_pool sh') = ChunkPool.total (s_pool sh) ∧
  ChunkPool.count (s_pool sh') - ChunkPool.count (s_pool sh) = Z.of_nat (base.size (dom (chunks b'))) - Z.of_nat (base.size (dom (chunks b))) ∧
  dom (chunks b) ⊆ dom (chunks b') ∧ dom (chunks b') ⊆ X ∪ dom (chunks b).

Lemma pool_step_refl X sh b sh' b' :
  s_pool sh' = s_pool sh → chunks b' = chunks b → listId b' = listId b → chunkId b' = chunkId b → pool_step X sh b sh' b'.
Proof. intros Hp Hc ? ?. unfold pool_step. rewrite Hp, Hc. split_and!; try done; [lia|set_solver]. Qed.

Lemma pool_step_trans X sh1 b1 sh2 b2 sh3 b3 :
  pool_step X sh1 b1 sh2 b2 → pool_step X sh2 b2 sh3 b3 → pool_step X sh1 b1 sh3 b3.
Proof.
  intros (? & ? & ? & ? & ? & ?) (? & ? & ? & ? & ? & ?). unfold pool_step. split_and!; try congruence; [lia|set_solver..].
Qed.

Lemma pool_step_add sh b sh' b' s :
  listId b' = listId b → chunkId b' = chunkId b →
  ChunkPool.total (s_pool sh') = ChunkPool.total (s_pool sh) →
  ChunkPool.count (s_pool sh') = ChunkPool.count (s_pool sh) + (if chunks b !! s is Some _ then 0 else 1) →
  (∀ s', is_Some (chunks b' !! s') ↔ s' = s ∨ is_Some (chunks b !! s')) → pool_step {[ s ]} sh b sh' b'.
Proof.
  intros ? ? ? Hn Hd. assert (Hdom : dom (chunks b') = {[ s ]} ∪ dom (chunks b)).
  { apply set_eq. intros x. rewrite elem_of_union, elem_of_singleton, !elem_of_dom. apply Hd. }
  split_and!; try done; [|rewrite Hdom; set_solver..]. rewrite Hn, Hdom. destruct (chunks b !! s) as [w|] eqn:E.
  - assert (s ∈ dom (chunks b)) by (apply elem_of_dom; eauto). replace ({[s]} ∪ dom (chunks b)) with (dom (chunks b)); [lia|set_solver].
  - rewrite size_union, size_singleton; [lia|]. apply disjoint_singleton_l. by apply not_elem_of_dom.
Qed.

Section parity.
Context {C : Coding} {EC : ErasureCode C} (zeros : ptr) (junk : nat → Z → byte) (rand : nat → Z).
Context (K : Key → Prop) (HK : discriminated K).

Abbreviation cap := ec_chunkSize.

(** The key under which an object is kept; for a split of a large object it
    includes the split's offset. *)
Definition key_of (o : obj) : Key :=
  Key.MkKey (zlen (o_key o)) (o_key o ++ KeyValue.split_bytes cap (zlen (o_key o)) (o_valueSize o) (o_splitOffset o))
    (KeyValue.is_large cap (zlen (o_key o)) (o_valueSize o)).

(** An object at the beginning of a block of its own. *)
Definition kv_at (m : mem) (p : ptr) (o : obj) : Prop :=
  off p = 0 ∧ load m p (obj_size cap o) = Some (obj_bytes cap o).

Definition slot (start : ptr) (i : Z) : ptr := start +ₚ i * ChunkPool.slotSize cap.

(** The parity chunk of the buffer among the parity chunks of a stripe. *)
Definition index (b : ParityChunkBuffer) : Z := chunkId b - ec_k + 1.

Record inv (sh : Shared) (b : ParityChunkBuffer) (start : ptr) (A : abs) : Prop := {
  inv_sizes : chunk_sizes cap ∧ ec_k * cap < 2 ^ 32 ∧ ec_k + ec_m ≤ 256;
  inv_ids : 0 ≤ listId b < 2 ^ 8 ∧ 1 ≤ index b ≤ ec_m;
  inv_pool : ChunkPool.pool_ok cap (s_pool sh) (s_mem sh) start;
  inv_zeros : chunk_is cap (s_mem sh) zeros (λ _, x00) ∧ blk zeros ≠ blk start;
  inv_map : ∃ M, ServerMap.chunk_table cap (s_mem sh) (s_map sh) M ∧
    ∀ id p, M !! id = Some p → ∃ i, 0 ≤ i < ChunkPool.count (s_pool sh) ∧ p = slot start i;
  inv_chunks : ∀ s w, chunks b !! s = Some w →
    ∃ i, 0 ≤ i < ChunkPool.count (s_pool sh) ∧ w_chunk w = slot start i ∧ zlen (w_pending w) = ec_k ∧
      chunk_is cap (s_mem sh) (w_chunk w) (ec_parity (index b) (a_data A s));
  inv_inj : ∀ s s' w w', chunks b !! s = Some w → chunks b !! s' = Some w' → w_chunk w = w_chunk w' → s = s';
  inv_none : ∀ s, chunks b !! s = None → ∀ c i, a_data A s c i = x00;
  inv_keys : ∃ KV, holds_map K (keys b) KV ∧ dom KV = dom (a_keys A) ∧
    (∀ k p o, KV !! k = Some p → a_keys A !! k = Some o →
       kv_at (s_mem sh) p o ∧ key_of o = k ∧ obj_ok cap o ∧ blk p ≠ blk start ∧ blk p ≠ blk zeros) ∧
    (∀ k k' p p', KV !! k = Some p → KV !! k' = Some p' → blk p = blk p' → k = k');
  inv_pending : holds_map K (pending b) (a_pending A);
}.

(** The blocks the invariant is about. *)
Definition used (b : ParityChunkBuffer) (start : ptr) (x : nat) : Prop :=
  x = blk start ∨ x = blk zeros ∨ ∃ p, p ∈ (keys b).*2 ∧ x = blk p.

Lemma holds_map_snd (t : key_map ptr) KV k p : holds_map K t KV → KV !! k = Some p → p ∈ t.*2.
Proof.
  intros (Hn & _ & ->) Hk. apply elem_of_list_to_map in Hk; [|done]. apply list_elem_of_fmap. by exists (k, p).
Qed.
Lemma holds_map_snd_inv (t : key_map ptr) KV p : holds_map K t KV → p ∈ t.*2 → ∃ k, KV !! k = Some p.
Proof.
  intros (Hn & _ & ->) Hp. apply list_elem_of_fmap in Hp as ([k p'] & -> & Hin). exists k.
  by apply elem_of_list_to_map.
Qed.

Lemma inv_mem sh b start A m' :
  inv sh b start A → (∀ x, used b start x → m' !! x = s_mem sh !! x) → inv (set_mem sh m') b start A.
Proof.
  intros [Hsz Hids Hpool [Hz Hzb] (M & HM & HMs) Hch Hinj Hnone (KV & Hkv & Hdom & Hobj & Hbinj) Hpend] Hu.
  assert (Hus : m' !! blk start = s_mem sh !! blk start) by (apply Hu; by left).
  assert (Huz : m' !! blk zeros = s_mem sh !! blk zeros) by (apply Hu; right; by left).
  constructor; cbn [set_mem s_mem s_pool s_map]; try done.
  - destruct Hpool. constructor; try done. by eapply valid_block.
  - split; [|done]. eapply region_block; [|exact Hz]. done.
  - exists M. split; [|done]. eapply ServerMap.chunk_table_mem; [done|].
    intros id p Hp. destruct (HMs id p Hp) as (i & _ & ->). by apply load_block.
  - intros s w Hw. destruct (Hch s w Hw) as (i & Hi & -> & Hp & Hc). exists i. split; [done|]. split; [done|]. split; [done|].
    eapply region_block; [|exact Hc]. done.
  - exists KV. split; [done|]. split; [done|]. split; [|done]. intros k p o Hk Ho.
    destruct (Hobj k p o Hk Ho) as ([Hoff Hl] & ?). split; [|done]. split; [done|].
    rewrite <- Hl. apply load_block. apply Hu. right; right. exists p. split; [|done]. by eapply holds_map_snd.
Qed.

Lemma ec_parity_zero j D i : 1 ≤ j ≤ ec_m → 0 ≤ i < cap → (∀ c i, D c i = x00) → ec_parity j D i = x00.
Proof.
  intros Hj Hi HD. rewrite (ec_ext j D (λ c i, bxor (D c i) (D c i)) i).
  - rewrite ec_linear by done. apply bxor_nilp.
  - intros c t. rewrite !HD. done.
Qed.

Lemma slot_size : 8 ≤ ChunkPool.slotSize cap.
Proof. pose proof ec_sizes. unfold ChunkPool.slotSize, CHUNK_IDENTIFIER_SIZE. lia. Qed.
Lemma slot_inj start i i' : slot start i = slot start i' → i = i'.
Proof. pose proof slot_size. unfold slot, padd. intros [= H']. nia. Qed.
Lemma slot_in sh start i :
  ChunkPool.pool_ok cap (s_pool sh) (s_mem sh) start → 0 ≤ i < ChunkPool.count (s_pool sh) →
  valid (s_mem sh) (slot start i) (CHUNK_IDENTIFIER_SIZE + cap).
Proof.
  intros [? ? Ht ? Hv ?] Hi. eapply valid_sub; [exact Hv|pose proof slot_size; nia|unfold CHUNK_IDENTIFIER_SIZE; lia|].
  change (CHUNK_IDENTIFIER_SIZE + cap) with (ChunkPool.slotSize cap). pose proof slot_size. nia.
Qed.
(** Different slots share no byte. *)
Lemma slot_apart start i i' q : i ≠ i' →
  in_range (slot start i) (ChunkPool.slotSize cap) q → ¬ in_range (slot start i') (ChunkPool.slotSize cap) q.
Proof. pose proof slot_size. unfold in_range, slot; simpl. intros Hne [_ H1] [_ H2]. assert (i < i' ∨ i' < i) as [?|?] by lia; nia. Qed.

(** ** The parity chunk of a stripe *)

(** There is a chunk for stripe [s], or room in the pool for one. *)
Definition room (sh : Shared) (b : ParityChunkBuffer) (s : Z) : Prop :=
  chunks b !! s = None → ChunkPool.count (s_pool sh) < ChunkPool.total (s_pool sh).

Lemma getWrapper_spec sh b start A s :
  inv sh b start A → 0 ≤ s < 2 ^ 32 → room sh b s →
  ∃ w b' sh', getWrapper cap ec_k rand b sh s = Some (w, b', sh') ∧ inv sh' b' start A ∧
    chunks b' !! s = Some w ∧ keys b' = keys b ∧ pending b' = pending b ∧ listId b' = listId b ∧ chunkId b' = chunkId b ∧
    same_shape (s_mem sh) (s_mem sh') ∧ (∀ x, x ≠ blk start → s_mem sh' !! x = s_mem sh !! x) ∧
    (∀ s', s' ≠ s → chunks b' !! s' = chunks b !! s') ∧
    ChunkPool.total (s_pool sh') = ChunkPool.total (s_pool sh) ∧
    ChunkPool.count (s_pool sh') = ChunkPool.count (s_pool sh) + (if chunks b !! s is Some _ then 0 else 1).
Proof.
  intros Hinv Hs Hroom. unfold getWrapper. destruct (chunks b !! s) as [w|] eqn:Ew.
  { exists w, b, sh. split_and!; try done. simpl. lia. }
  pose proof Hinv as [Hsz [Hl Hidx] Hpool [Hz Hzb] (M & HM & HMs) Hch Hinj Hnone Hkeys Hpend].
  destruct (ChunkPool.alloc_ok cap junk (s_pool sh) (s_mem sh) start (listId b) s (chunkId b) Hpool (Hroom Ew) Hl Hs) as
    (m1 & -> & Hok1 & Hget & Hzero & Hsh & Hfr); [pose proof ec_sizes; unfold index in Hidx; lia|].
  change (start +ₚ ChunkPool.count (s_pool sh) * ChunkPool.slotSize cap) with (slot start (ChunkPool.count (s_pool sh))) in *.
  set (n := ChunkPool.count (s_pool sh)) in *. set (ch := slot start n) in *. cbn [mbind option_bind].
  assert (Hv1 : valid m1 ch (CHUNK_IDENTIFIER_SIZE + cap)).
  { apply (slot_in (MkShared m1 (ChunkPool.set_count (s_pool sh) (n + 1)) (s_map sh))); [done|]. simpl. destruct Hok1 as [? ? Ht ? ? ?]. simpl in *. subst n. pose proof (ChunkPool.ok_total _ _ _ _ Hpool). lia. }
  assert (Hother : ∀ i, 0 ≤ i < n → ∀ q, in_range (slot start i) (ChunkPool.slotSize cap) q → mget m1 q = mget (s_mem sh) q).
  { intros i Hi q Hq. apply Hfr. eapply slot_apart; [|exact Hq]. lia. }
  assert (Hblk : ∀ x, x ≠ blk start → m1 !! x = s_mem sh !! x).
  { intros x Hx. apply block_frame; [done|]. intros q Hq. apply Hfr. intros [Hq' _]. simpl in Hq'. congruence. }
  assert (HM1 : ServerMap.chunk_table cap m1 (s_map sh) M).
  { eapply ServerMap.chunk_table_mem; [done|]. intros id p Hp. destruct (HMs id p Hp) as (i & Hi & ->).
    apply load_frame; [done| |].
    - eapply valid_prefix; [by apply (slot_in sh)|]. pose proof ec_sizes. unfold CHUNK_IDENTIFIER_SIZE. lia.
    - intros q [Hq1 Hq2]. apply (Hother i); [done|]. split; [done|]. unfold ChunkPool.slotSize, CHUNK_IDENTIFIER_SIZE in *. pose proof ec_sizes. lia. }
  destruct (load_valid m1 ch CHUNK_IDENTIFIER_SIZE) as [id Hid].
  { eapply valid_prefix; [exact Hv1|]. pose proof ec_sizes. unfold CHUNK_IDENTIFIER_SIZE. lia. }
  destruct (ServerMap.setChunk_parity cap rand m1 (s_map sh) M (listId b) s (chunkId b) ch id HM1 Hid) as (map' & ok & -> & HM' & _ & _).
  cbn [mbind option_bind]. unfold ServerMap.seal. cbn [mbind option_bind].
  eexists _, _, _. split; [done|]. split.
  - constructor; cbn [set_chunks listId chunkId chunks keys pending s_mem s_pool s_map]; try done.
    + split; [|done]. eapply region_block; [by apply Hblk|done].
    + exists (if (ok : bool) then <[id := ch]> M else M). split; [done|].
      assert (Hn : ∀ i, 0 ≤ i < n → 0 ≤ i < n + 1) by (intros; lia). cbn [ChunkPool.set_count ChunkPool.count].
      intros id' p Hp. destruct ok.
      * apply lookup_insert_Some in Hp as [[_ <-]|[_ Hp]].
        -- exists n. split; [|done]. pose proof (ChunkPool.ok_total _ _ _ _ Hpool). lia.
        -- destruct (HMs id' p Hp) as (i & Hi & ->). exists i. split; [by apply Hn|done].
      * destruct (HMs id' p Hp) as (i & Hi & ->). exists i. split; [by apply Hn|done].
    + cbn [ChunkPool.set_count ChunkPool.count]. intros s' w' Hw'. apply lookup_insert_Some in Hw' as [[<- <-]|[Hne Hw']].
      * exists n. pose proof (ChunkPool.ok_total _ _ _ _ Hpool). pose proof ec_sizes.
        split; [lia|]. split; [done|]. split; [unfold zlen; simpl; rewrite length_replicate; lia|].
        eapply region_is_ext; [|exact Hzero]. intros i Hi. symmetry. apply ec_parity_zero; [done|done|]. by apply Hnone.
      * destruct (Hch s' w' Hw') as (i & Hi & Hwc & Hp & Hc). exists i. split; [lia|]. split; [done|]. split; [done|].
        intros t Ht. rewrite (Hother i Hi); [by apply Hc|]. rewrite Hwc. unfold in_range, getData, ChunkPool.slotSize, CHUNK_IDENTIFIER_SIZE; simpl. lia.
    + intros s1 s2 w1 w2 H1 H2 Heq. apply lookup_insert_Some in H1 as [[<- <-]|[Hne1 H1]], H2 as [[<- <-]|[Hne2 H2]].
      * done.
      * exfalso. destruct (Hch s2 w2 H2) as (i & Hi & Hwc & _). simpl in Heq. rewrite Hwc in Heq. apply slot_inj in Heq. lia.
      * exfalso. destruct (Hch s1 w1 H1) as (i & Hi & Hwc & _). simpl in Heq. rewrite Hwc in Heq. apply slot_inj in Heq. lia.
      * by apply (Hinj s1 s2 w1 w2).
    + intros s' Hs'. apply lookup_insert_None in Hs' as [Hs' _]. by apply Hnone.
    + destruct Hkeys as (KV & Hkv & Hdom & Hobj & Hbinj). exists KV. split; [done|]. split; [done|]. split; [|done].
      intros k p o Hk Ho. destruct (Hobj k p o Hk Ho) as ([Hoff Hld] & Hko & Hoo & Hb1 & Hb2).
      split; [|done]. split; [done|]. rewrite <- Hld. apply load_block. by apply Hblk.
  - cbn [set_chunks listId chunkId chunks keys pending s_mem s_pool s_map]. split; [by rewrite lookup_insert_eq|].
    split_and!; try done. intros s' Hs'. by rewrite lookup_insert_ne.
Qed.

(** ** Adding the parity of a data chunk *)

(** A chunk in which a worker prepares data or parity. *)
Definition scratch (sh : Shared) (b : ParityChunkBuffer) (start c : ptr) : Prop :=
  valid (s_mem sh) c (CHUNK_IDENTIFIER_SIZE + cap) ∧ ¬ used b start (blk c).

(** The stripe of which only chunk [c] is not zero. *)
Lemma single_stripe m c dc f :
  chunk_is cap m zeros (λ _, x00) → 0 ≤ c < ec_k → chunk_is cap m dc f →
  ∃ dcs, zset (replicate (Z.to_nat ec_k) zeros) c dc = Some dcs ∧ stripe_is cap m dcs ec_k (put c f) ∧
    ∀ c' p, zget dcs c' = Some p → p = dc ∨ p = zeros.
Proof.
  intros Hz Hc Hf.
  assert (Hlen : zlen (replicate (Z.to_nat ec_k) zeros) = ec_k) by (unfold zlen; rewrite length_replicate; lia).
  unfold zset. rewrite decide_True by (rewrite Hlen; lia). eexists. split; [done|].
  assert (Hg : ∀ c', 0 ≤ c' < ec_k → zget (<[Z.to_nat c:=dc]> (replicate (Z.to_nat ec_k) zeros)) c' =
                Some (if decide (c' = c) then dc else zeros)).
  { intros c' Hc'. unfold zget. rewrite decide_True by lia. destruct (decide (c' = c)) as [->|Hne].
    - rewrite list_lookup_insert_eq; [done|]. rewrite length_replicate. lia.
    - rewrite list_lookup_insert_ne by lia. rewrite lookup_replicate_2; [done|lia]. }
  split.
  - intros c' Hc'. eexists. split; [by apply Hg|]. unfold put. by destruct (decide (c' = c)).
  - intros c' p Hp. pose proof Hp as Hr. unfold zget in Hr. destruct (decide (0 ≤ c')); [|done].
    apply lookup_lt_Some in Hr. rewrite length_insert, length_replicate in Hr.
    rewrite Hg in Hp by lia. injection Hp as <-. case_decide; [by left|by right].
Qed.

(** The parity of chunk [c], prepared in [pc]. *)
Lemma prepare_chunk m c offset size dc pc f j :
  chunk_is cap m zeros (λ _, x00) → blk zeros ≠ blk pc → 1 ≤ j ≤ ec_m →
  0 ≤ c < ec_k → valid m pc (CHUNK_IDENTIFIER_SIZE + cap) → chunk_is cap m dc f → blk dc ≠ blk pc →
  0 ≤ offset → 0 ≤ size → (size = 0 ∨ c * cap + offset + size ≤ ec_k * cap) →
  (∀ i, 0 ≤ i < cap → ¬ (offset ≤ i < offset + size) → f i = x00) →
  ∃ dcs m1 m2, zset (replicate (Z.to_nat ec_k) zeros) c dc = Some dcs ∧
    ChunkUtil.clear cap m pc = Some m1 ∧ encode m1 dcs pc j (offset + c * cap) (offset + c * cap + size) = Some m2 ∧
    same_shape m m2 ∧ (∀ x, x ≠ blk pc → m2 !! x = m !! x) ∧ chunk_is cap m2 pc (ec_parity j (put c f)).
Proof.
  intros Hz Hzp Hj Hc Hvp Hf Hdp Ho Hs Hr Hout. pose proof ec_sizes as Hec. assert (Hcap : 0 ≤ cap) by lia.
  destruct (chunk_clear_spec cap m pc Hcap Hvp) as (m1 & E1 & S1 & Z1 & F1).
  assert (B1 : ∀ x, x ≠ blk pc → m1 !! x = m !! x).
  { intros x Hx. apply block_frame; [done|]. intros q <-. apply F1. intros [Hq _]. congruence. }
  destruct (single_stripe m1 c dc f) as (dcs & Ed & Hst & Hel); [by eapply region_block; [apply B1|]|done|by eapply region_block; [apply B1|]|].
  assert (Hcc : 0 ≤ c * cap) by nia.
  destruct (ec_encode m1 dcs pc j (offset + c * cap) (offset + c * cap + size) (put c f)) as (m2 & E2 & S2 & P2 & F2).
  - done.
  - done.
  - done.
  - intros c' p _ Hp. left. destruct (Hel c' p Hp) as [-> | ->]; simpl; congruence.
  - destruct (decide (size = 0)) as [->|Hs0]; [left; lia|right].
    destruct Hr as [?|Hr]; [lia|]. split; [lia|]. split; [lia|]. intros c' i Hc' Hi Hnz. unfold put in Hnz.
    case_decide; [subst c'|done]. destruct (decide (offset ≤ i < offset + size)) as [?|Hno]; [lia|]. by rewrite Hout in Hnz.
  - exists dcs, m1, m2. split; [done|]. split; [done|]. split; [done|]. split; [by etrans|]. split; [|exact P2].
    intros x Hx. rewrite <- (B1 x Hx). apply block_frame; [done|]. intros q <-. apply F2. intros [Hq _]. simpl in Hq. congruence.
Qed.

Lemma prepare_parity sh b start A c offset size dc pc f :
  inv sh b start A → 0 ≤ c < ec_k → scratch sh b start pc → chunk_is cap (s_mem sh) dc f → blk dc ≠ blk pc →
  0 ≤ offset → 0 ≤ size → offset + c * cap < 2 ^ 32 → (size = 0 ∨ c * cap + offset + size ≤ ec_k * cap) →
  (∀ i, 0 ≤ i < cap → ¬ (offset ≤ i < offset + size) → f i = x00) →
  ∃ dcs m1 m2, zset (replicate (Z.to_nat ec_k) zeros) c dc = Some dcs ∧
    ChunkUtil.clear cap (s_mem sh) pc = Some m1 ∧
    encode m1 dcs pc (u32 (chunkId b - ec_k + 1)) (u32 (offset + c * cap)) (u32 (u32 (offset + c * cap) + size)) = Some m2 ∧
    same_shape (s_mem sh) m2 ∧ (∀ x, x ≠ blk pc → m2 !! x = s_mem sh !! x) ∧
    chunk_is cap m2 pc (ec_parity (index b) (put c f)).
Proof.
  intros Hinv Hc [Hvp Hup] Hf Hdp Ho Hs H32 Hr Hout.
  pose proof (inv_sizes _ _ _ _ Hinv) as (Hcs & Hk32 & H256). pose proof (inv_ids _ _ _ _ Hinv) as [_ Hidx].
  pose proof (inv_zeros _ _ _ _ Hinv) as [Hz _]. pose proof ec_sizes as Hec. assert (Hcc : 0 ≤ c * cap) by nia.
  assert (Hend : 0 ≤ offset + c * cap + size < 2 ^ 32) by (destruct Hr; lia).
  unfold index in *. rewrite (u32_small (offset + c * cap)), (u32_small (chunkId b - ec_k + 1)), u32_small by lia.
  apply prepare_chunk; try done. intros Hzp. apply Hup. right. by left.
Qed.

Definition with_data (A : abs) (D : Z → data_t) : abs := MkAbs (a_keys A) (a_pending A) D.

Lemma add_parity sh b start A s w c pc f :
  inv sh b start A → chunks b !! s = Some w → ¬ used b start (blk pc) →
  chunk_is cap (s_mem sh) pc (ec_parity (index b) (put c f)) →
  let P := ChunkUtil.getData (w_chunk w) in
  ∃ m', bitwiseXOR (s_mem sh) P P (ChunkUtil.getData pc) cap = Some m' ∧
    inv (set_mem sh m') b start (with_data A (add_at (a_data A) s c f)) ∧
    same_shape (s_mem sh) m' ∧ (∀ x, x ≠ blk start → m' !! x = s_mem sh !! x).
Proof.
  intros Hinv Hw Hup Hpc P. pose proof Hinv as [Hsz [Hl Hidx] Hpool [Hz Hzb] (M & HM & HMs) Hch Hinj Hnone Hkeys Hpend].
  pose proof ec_sizes as Hec. destruct (Hch s w Hw) as (i & Hi & Hwc & Hpn & Hcw).
  assert (HvP : valid (s_mem sh) P cap).
  { unfold P. rewrite Hwc. eapply valid_sub; [by apply (slot_in sh)|unfold CHUNK_IDENTIFIER_SIZE; lia..]. }
  assert (HPs : blk P = blk start) by (unfold P; rewrite Hwc; done).
  assert (Hps : blk pc ≠ blk start) by (intros Hps; apply Hup; by left).
  destruct (accum_xor (s_mem sh) P cap (λ _, x00) (s_mem sh) 0 cap (ChunkUtil.getData pc)) as [(m' & E & Ha) _];
    [by apply accum_refl|done|lia..|by eapply region_is_valid; [exact Hpc|lia]|left; rewrite HPs; exact (not_eq_sym Hps)|].
  rewrite padd_0 in E. exists m'. split; [exact E|]. pose proof Ha as [Hsh _].
  assert (Hfr : ∀ q, ¬ in_range P cap q → mget m' q = mget (s_mem sh) q) by (intros q Hq; by eapply accum_frame).
  assert (Hblk : ∀ x, x ≠ blk start → m' !! x = s_mem sh !! x).
  { intros x Hx. apply block_frame; [done|]. intros q Hq. apply Hfr. intros [Hq' _]. congruence. }
  split; [|done].
  assert (HPw : chunk_is cap m' (w_chunk w) (ec_parity (index b) (add_data (a_data A s) (put c f)))).
  { eapply region_is_ext; [|exact (accum_region _ _ _ _ _ _ Ha Hcw)]. intros t Ht. cbv beta. unfold add_part. rewrite decide_True by lia.
    rewrite (left_id x00 bxor), (ec_linear (index b) (a_data A s) (put c f)) by done. f_equal.
    rewrite Z.sub_0_r. apply (region_is_mbyte _ _ _ _ _ Hpc). lia. }
  assert (Hother : ∀ i', i' ≠ i → ∀ q, in_range (slot start i') (ChunkPool.slotSize cap) q → mget m' q = mget (s_mem sh) q).
  { intros i' Hne q Hq. apply Hfr. intros Hq'. apply (slot_apart start i' i q Hne Hq). rewrite <- Hwc. unfold P in Hq'.
    unfold in_range, getData, ChunkPool.slotSize, CHUNK_IDENTIFIER_SIZE in *. simpl in *. lia. }
  constructor; cbn [set_mem s_mem s_pool s_map with_data a_keys a_pending a_data]; try done.
  - destruct Hpool. constructor; try done. by rewrite <- Hsh.
  - split; [|done]. eapply region_block; [by apply Hblk|done].
  - exists M. split; [|done]. eapply ServerMap.chunk_table_mem; [done|]. intros id p Hp. destruct (HMs id p Hp) as (i' & Hi' & ->).
    apply load_frame; [done| |].
    + eapply valid_prefix; [by apply (slot_in sh)|]. unfold CHUNK_IDENTIFIER_SIZE. lia.
    + intros q Hq. apply Hfr. unfold P. rewrite Hwc. unfold in_range, slot, getData, CHUNK_IDENTIFIER_SIZE in *. simpl in *.
      unfold ChunkPool.slotSize, CHUNK_IDENTIFIER_SIZE in *. destruct (Z.lt_trichotomy i i') as [?|[->|?]]; nia.
  - intros s' w' Hw'. destruct (Hch s' w' Hw') as (i' & Hi' & Hwc' & Hp' & Hc'). exists i'. split; [done|]. split; [done|]. split; [done|].
    unfold add_at. destruct (decide (s' = s)) as [->|Hne].
    + assert (w' = w) as -> by congruence. done.
    + intros t Ht. rewrite (Hother i'); [by apply Hc'| |].
      * intros ->. apply Hne. apply (Hinj s' s w' w Hw' Hw). by rewrite Hwc', Hwc.
      * rewrite Hwc'. unfold in_range, getData, ChunkPool.slotSize, CHUNK_IDENTIFIER_SIZE; simpl. lia.
  - intros s' Hs' c' t. unfold add_at. rewrite decide_False by (intros ->; congruence). by apply Hnone.
  - destruct Hkeys as (KV & Hkv & Hdom & Hobj & Hbinj). exists KV. split; [done|]. split; [done|]. split; [|done].
    intros k p o Hk Ho. destruct (Hobj k p o Hk Ho) as ([Hoff Hld] & Hko & Hoo & Hb1 & Hb2).
    split; [|done]. split; [done|]. rewrite <- Hld. apply load_block. by apply Hblk.
Qed.

(** The effect of [update_parity] without a copy of the chunk to update. *)
Lemma update_parity_spec sh b start A s c offset size dc pc f isSeal :
  inv sh b start A → 0 ≤ s < 2 ^ 32 → room sh b s → 0 ≤ c < ec_k →
  scratch sh b start pc → chunk_is cap (s_mem sh) dc f → blk dc ≠ blk pc →
  0 ≤ offset → 0 ≤ size → offset + c * cap < 2 ^ 32 → (size = 0 ∨ c * cap + offset + size ≤ ec_k * cap) →
  (∀ i, 0 ≤ i < cap → ¬ (offset ≤ i < offset + size) → f i = x00) →
  ∃ b' sh', update_parity cap ec_k zeros rand b sh s c offset size dc pc isSeal false None = Some (b', sh') ∧
    inv sh' b' start (with_data A (add_at (a_data A) s c f)) ∧
    keys b' = keys b ∧ pending b' = pending b ∧ listId b' = listId b ∧ chunkId b' = chunkId b ∧
    same_shape (s_mem sh) (s_mem sh') ∧ (∀ x, x ≠ blk start → x ≠ blk pc → s_mem sh' !! x = s_mem sh !! x) ∧
    ChunkPool.total (s_pool sh') = ChunkPool.total (s_pool sh) ∧
    ChunkPool.count (s_pool sh') = ChunkPool.count (s_pool sh) + (if chunks b !! s is Some _ then 0 else 1) ∧
    (∀ s', is_Some (chunks b' !! s') ↔ s' = s ∨ is_Some (chunks b !! s')).
Proof.
  intros Hinv Hs Hroom Hc Hpc Hf Hdp Ho Hsz H32 Hr Hout.
  destruct (prepare_parity sh b start A c offset size dc pc f) as (dcs & m1 & m2 & Ed & E1 & E2 & S2 & B2 & P2); [done..|].
  pose proof Hpc as [Hvp Hup]. unfold update_parity. rewrite Ed. cbn [mbind option_bind]. rewrite E1. cbn [mbind option_bind]. rewrite E2.
  cbn [mbind option_bind].
  assert (Hinv2 : inv (set_mem sh m2) b start A).
  { apply (inv_mem sh); [done|]. intros x Hx. apply B2. intros ->. by apply Hup. }
  destruct (getWrapper_spec (set_mem sh m2) b start A s Hinv2 Hs Hroom)
    as (w & b3 & sh3 & -> & Hinv3 & Hw & Hk3 & Hp3 & Hl3 & Hc3 & S3 & B3 & Hoth3 & Ht3 & Hn3). cbn [mbind option_bind].
  assert (Hps : blk pc ≠ blk start) by (intros Hps; apply Hup; by left).
  destruct (add_parity sh3 b3 start A s w c pc f Hinv3 Hw) as (m4 & E4 & Hinv4 & S4 & B4).
  { unfold used in *. rewrite Hk3. done. }
  { assert (Hix : index b3 = index b) by (unfold index; by rewrite Hc3). rewrite Hix.
    eapply region_block; [|exact P2]. apply B3. done. }
  rewrite E4. cbn [mbind option_bind].
  assert (Hsh : same_shape (s_mem sh) m4) by (etrans; [exact S2|]; etrans; [exact S3|exact S4]).
  assert (Hbl : ∀ x, x ≠ blk start → x ≠ blk pc → m4 !! x = s_mem sh !! x).
  { intros x Hx Hxp. rewrite B4, B3 by done. by apply B2. }
  assert (Hdomc : ∀ s', is_Some (chunks b3 !! s') ↔ s' = s ∨ is_Some (chunks b !! s')).
  { intros s'. destruct (decide (s' = s)) as [->|Hne]; [rewrite Hw; naive_solver|]. rewrite Hoth3 by done. naive_solver. }
  destruct isSeal.
  - pose proof Hinv4 as [_ _ _ _ _ Hch4 _ _ _ _]. destruct (Hch4 s w Hw) as (i & Hi & Hwc & Hpn & Hcw).
    rewrite (zset_Some (w_pending w) c false) by lia. cbn [mbind option_bind].
    eexists _, _. split; [done|].
    assert (Hl' : zlen (<[Z.to_nat c:=false]> (w_pending w)) = ec_k) by (unfold zlen in *; by rewrite length_insert).
    split; [|by split_and!; try done; intros s'; rewrite <- Hdomc; cbn [set_chunks chunks];
      destruct (decide (s' = s)) as [->|]; [rewrite lookup_insert_eq, Hw|rewrite lookup_insert_ne]].
    destruct Hinv4 as [Hz1 Hz2 Hz3 Hz4 Hz5 Hz6 Hz7 Hz8 Hz9 Hz10].
    constructor; cbn [set_chunks listId chunkId chunks keys pending]; try done.
    + intros s' w' Hw'. apply lookup_insert_Some in Hw' as [[<- <-]|[Hne Hw']]; [|by apply Hz6].
      exists i. split_and!; try done; lia.
    + intros s1 s2 w1 w2 H1 H2 Heq.
      apply lookup_insert_Some in H1 as [[<- <-]|[Hne1 H1]], H2 as [[<- <-]|[Hne2 H2]]; [done| | |by apply (Hz7 s1 s2 w1 w2)].
      * by apply (Hz7 s s2 w w2).
      * by apply (Hz7 s1 s w1 w).
    + intros s' Hs'. apply lookup_insert_None in Hs' as [Hs' _]. by apply Hz8.
  - eexists _, _. split; [done|]. split; [done|]. split_and!; done.
Qed.

(** ** Blocks outside *)

(** The blocks of callers: allocated, and not the buffer's. *)
Definition outside (sh : Shared) (b : ParityChunkBuffer) (start : ptr) (x : nat) : Prop :=
  is_Some (s_mem sh !! x) ∧ ¬ used b start x.

(** Callers' blocks stay so, of the same size, and only the two chunks of the
    worker change. *)
Definition keeps (sh : Shared) (b : ParityChunkBuffer) (sh' : Shared) (b' : ParityChunkBuffer) (start dc pc : ptr) : Prop :=
  ∀ x, outside sh b start x → outside sh' b' start x ∧
    (x ≠ blk dc → x ≠ blk pc → s_mem sh' !! x = s_mem sh !! x) ∧
    zlen <$> s_mem sh' !! x = zlen <$> s_mem sh !! x.

Lemma keeps_refl sh b start dc pc : keeps sh b sh b start dc pc.
Proof. by intros x Hx. Qed.
Lemma keeps_trans sh1 b1 sh2 b2 sh3 b3 start dc pc :
  keeps sh1 b1 sh2 b2 start dc pc → keeps sh2 b2 sh3 b3 start dc pc → keeps sh1 b1 sh3 b3 start dc pc.
Proof.
  intros H12 H23 x Hx. destruct (H12 x Hx) as (H2 & E2 & L2). destruct (H23 x H2) as (H3 & E3 & L3).
  split; [done|]. split; [intros; rewrite E3, E2; done|by rewrite L3].
Qed.

Lemma scratch_outside sh b start c : scratch sh b start c → outside sh b start (blk c).
Proof. intros [(_ & bs & Hb & _) Hu]. split; [by eexists|done]. Qed.

Lemma keeps_scratch sh b sh' b' start dc pc c :
  keeps sh b sh' b' start dc pc → scratch sh b start c → scratch sh' b' start c.
Proof.
  intros Hk Hc. destruct (Hk (blk c)) as ([_ Hu] & _ & Hl); [by apply scratch_outside|]. split; [|done].
  destruct Hc as [(Hn & bs & Hb & Ho & Hlen) _]. rewrite Hb in Hl. destruct (s_mem sh' !! blk c) as [bs'|] eqn:E; [|done].
  simpl in Hl. injection Hl as Hl. split; [done|]. exists bs'. split; [done|]. lia.
Qed.

(** A change of memory that only touches the worker's chunks. *)
Lemma keeps_mem sh b b' start dc pc m' :
  keys b' = keys b → same_shape (s_mem sh) m' → (∀ x, x ≠ blk dc → x ≠ blk pc → x ≠ blk start → m' !! x = s_mem sh !! x) →
  keeps sh b (set_mem sh m') b' start dc pc.
Proof.
  intros Hkb Hs Hf x [Hx Hu]. pose proof (Hs x) as Hl. split; [|split].
  - split; [|unfold used; by rewrite Hkb]. destruct Hx as [bs Hx]. simpl. rewrite Hx in Hl. by destruct (m' !! x).
  - intros H1 H2. apply Hf; [done|done|]. intros ->. apply Hu. by left.
  - by symmetry.
Qed.

(** ** Objects in memory *)
Lemma key_of_wf o : obj_ok cap o → Key.wf (key_of o).
Proof.
  intros [((Hk & _) & _) _]. split; [simpl; unfold zlen in *; lia|]. unfold key_of, Key.cmp_size. simpl.
  rewrite length_app. pose proof (KeyValue.zlen_split_bytes cap (zlen (o_key o)) (o_valueSize o) (o_splitOffset o)) as Hs.
  unfold SPLIT_OFFSET_SIZE. destruct (KeyValue.is_large _ _ _); unfold zlen in *; lia.
Qed.

Lemma zlen_key_data o : zlen (Key.data (key_of o)) = zlen (o_key o) + if KeyValue.is_large cap (zlen (o_key o)) (o_valueSize o) then 3 else 0.
Proof. simpl. rewrite zlen_app. by rewrite KeyValue.zlen_split_bytes. Qed.

Lemma obj_size_eq o : obj_size cap o =
  4 + zlen (o_key o) + (if KeyValue.is_large cap (zlen (o_key o)) (o_valueSize o) then 3 else 0) + zlen (o_value o).
Proof. apply KeyValue.zlen_format. Qed.

(** What [deserialize] makes of an object, and the key in it. *)
Lemma read_obj m p o :
  obj_ok cap o → load m p (obj_size cap o) = Some (obj_bytes cap o) →
  ∃ vp, KeyValue.deserialize cap m p = Some (KeyValue.Fields (p +ₚ 4) (zlen (o_key o)) vp (o_valueSize o) (o_splitOffset o)) ∧
    load m (p +ₚ 4) (zlen (Key.data (key_of o))) = Some (Key.data (key_of o)).
Proof.
  intros [Hf _] Hl. destruct (KeyValue.deserialize_format cap m p _ _ _ _ Hf Hl) as (Hd & _ & _).
  eexists. split; [exact Hd|]. pose proof (obj_size_eq o) as Hsz.
  pose proof (zlen_key_data o) as Hkd. assert (0 ≤ zlen (o_key o)) by (unfold zlen; lia). assert (0 ≤ zlen (o_value o)) by (unfold zlen; lia).
  rewrite (load_sub _ _ _ _ _ _ Hl); [|lia|destruct (KeyValue.is_large _ _ _); lia|rewrite Hsz, Hkd; lia].
  unfold obj_bytes, ChunkUtil.obj_bytes, KeyValue.format, key_of. simpl Key.data.
  rewrite (app_assoc (o_key o)). by apply slice_app_mid.
Qed.

(** [dup] makes a block of its own for the object. *)
Lemma dup_obj m o keyStr valueStr :
  obj_ok cap o →
  load m keyStr (zlen (o_key o)) = Some (o_key o) → load m valueStr (zlen (o_value o)) = Some (o_value o) →
  ∃ p m', KeyValue.dup cap junk m (Some keyStr) (zlen (o_key o)) (Some valueStr) (o_valueSize o) (o_splitOffset o) = Some (p, m') ∧
    m !! blk p = None ∧ kv_at m' p o ∧ ∀ x, x ≠ blk p → m' !! x = m !! x.
Proof.
  intros [Hf Hpos] Hk Hv. pose proof Hf as (Hsz & Hso & Hvb & _).
  destruct (KeyValue.isLarge_is_large cap (zlen (o_key o)) (o_valueSize o) Hsz) as (si & Hsi & Hlg & _).
  pose proof (KeyValue.payload_clamp cap _ _ _ _ Hsz Hso Hsi) as Hp. pose proof (obj_size_eq o) as Hos.
  pose proof (ChunkUtil.obj_size_bounds cap o (conj Hf Hpos)) as Hb.
  assert (0 ≤ zlen (o_key o)) by (unfold zlen; lia). assert (0 ≤ zlen (o_value o)) by (unfold zlen; lia).
  unfold KeyValue.dup. rewrite Hsi. cbn [mbind option_bind].
  assert (Hn : u32 (zlen (o_key o) + (if LargeObjectUtil.si_large si then LargeObjectUtil.clampSplit (o_valueSize o) (o_splitOffset o) (LargeObjectUtil.si_size si) else o_valueSize o)
     + (if LargeObjectUtil.si_large si then SPLIT_OFFSET_SIZE else 0) + KEY_VALUE_METADATA_SIZE) = obj_size cap o).
  { unfold SPLIT_OFFSET_SIZE, KEY_VALUE_METADATA_SIZE. rewrite Hlg in *.
    assert (E : zlen (o_key o) + (if KeyValue.is_large cap (zlen (o_key o)) (o_valueSize o) then LargeObjectUtil.clampSplit (o_valueSize o) (o_splitOffset o) (LargeObjectUtil.si_size si) else o_valueSize o)
      + (if KeyValue.is_large cap (zlen (o_key o)) (o_valueSize o) then 3 else 0) + 4 = obj_size cap o).
    { rewrite Hos, Hvb. destruct (KeyValue.is_large _ _ _); rewrite <- ?Hp; lia. }
    rewrite E. apply u32_small. destruct Hsz as (_ & _ & ?). lia. }
  rewrite Hn. destruct (malloc junk m (obj_size cap o)) as [p m1] eqn:Em. apply malloc_fresh in Em as (Hfresh & Hoff & ->).
  set (m1 := <[_:=_]> m).
  assert (Hv1 : valid m1 p (obj_size cap o)).
  { split; [lia|]. eexists. split; [apply lookup_insert_eq|]. rewrite Hoff. unfold zlen at 1. rewrite length_fmap, length_seqZ. lia. }
  assert (Hap : ∀ q n bs, load m q n = Some bs → blk p ≠ blk q).
  { intros q n bs Hq He. unfold load in Hq. rewrite <- He, Hfresh in Hq. done. }
  rewrite (KeyValue.serialize_format cap m1 p keyStr valueStr _ _ _ _ Hf).
  - destruct (store_is_Some m1 p (obj_bytes cap o)) as [m2 Hm2]; [done|].
    unfold obj_bytes, ChunkUtil.obj_bytes in Hm2 |- *. rewrite Hm2. cbn [mbind option_bind]. exists p, m2. split; [done|]. split; [done|]. split.
    + split; [done|]. by eapply load_store_eq.
    + intros x Hx. unfold store in Hm2. destruct (m1 !! blk p); [|done]. cbn [mbind option_bind] in Hm2.
      destruct (splice _ _ _); [|done]. injection Hm2 as <-. rewrite lookup_insert_ne by done. unfold m1. by rewrite lookup_insert_ne.
  - done.
  - rewrite <- Hk. apply load_block. unfold m1. rewrite lookup_insert_ne; [done|]. by eapply Hap.
  - rewrite <- Hv. apply load_block. unfold m1. rewrite lookup_insert_ne; [done|]. by eapply Hap.
  - left. by eapply Hap.
  - left. by eapply Hap.
Qed.

(** Writing bytes over the data of a chunk. *)
Definition paint (f : Z → byte) (offset : Z) (bs : list byte) (i : Z) : byte :=
  if decide (offset ≤ i < offset + zlen bs) then bytes_at offset bs i else f i.

Lemma store_paint m dc f offset bs m' :
  chunk_is cap m dc f → store m (ChunkUtil.getData dc +ₚ offset) bs = Some m' → chunk_is cap m' dc (paint f offset bs).
Proof.
  intros Hf Hst i Hi. destruct (store_spec m (ChunkUtil.getData dc +ₚ offset) bs) as (m2 & E & S & G); [by eapply store_valid|].
  rewrite E in Hst. injection Hst as ->. rewrite G. unfold paint.
  destruct (decide (offset ≤ i < offset + zlen bs)) as [Hin|Hout].
  - rewrite decide_True by (unfold in_range; simpl; lia). rewrite <- bytes_at_in by done. f_equal. simpl. lia.
  - rewrite decide_False by (unfold in_range; simpl; lia). by apply Hf.
Qed.

Lemma paint_zero offset bs i : paint (λ _, x00) offset bs i = bytes_at offset bs i.
Proof. unfold paint. case_decide; [done|]. symmetry. by apply bytes_at_out. Qed.

(** ** [set] *)
Definition abs_set (A : abs) (o : obj) (c : Z) : bool * abs :=
  let k := key_of o in
  match a_pending A !! k with
  | Some (PRT_SEAL s offset) =>
      (true, MkAbs (a_keys A) (delete k (a_pending A)) (add_at (a_data A) s c (bytes_at offset (obj_bytes cap o))))
  | Some _ => (true, MkAbs (a_keys A) (delete k (a_pending A)) (a_data A))
  | None =>
      match a_keys A !! k with
      | None => (true, MkAbs (<[k := o]> (a_keys A)) (a_pending A) (a_data A))
      | Some _ => (false, A)
      end
  end.

(** The stripe that a [set] changes. *)
Definition set_stripes (A : abs) (o : obj) : gset Z :=
  match a_pending A !! key_of o with Some (PRT_SEAL s _) => {[ s ]} | _ => ∅ end.

(** The place in the stripe suits an object that was sealed first.  The source
    takes the size of the whole value for the extent of the object, so for a
    split of a large object more than the split has to fit. *)
Definition place_ok (sh : Shared) (b : ParityChunkBuffer) (A : abs) (o : obj) (c : Z) : Prop :=
  match a_pending A !! key_of o with
  | Some (PRT_SEAL s offset) =>
      0 ≤ s < 2 ^ 32 ∧ room sh b s ∧ 0 ≤ offset ∧ offset + obj_size cap o ≤ cap ∧
      let extent := KEY_VALUE_METADATA_SIZE + zlen (o_key o) + o_valueSize o in
      obj_size cap o ≤ extent ∧ c * cap + offset + extent ≤ ec_k * cap
  | _ => True
  end.

Lemma set_sealed sh b start A o c s offset keyStr valueStr dc pc :
  inv sh b start A → obj_ok cap o → K (key_of o) → 0 ≤ c < ec_k →
  a_pending A !! key_of o = Some (PRT_SEAL s offset) → place_ok sh b A o c →
  load (s_mem sh) keyStr (zlen (Key.data (key_of o))) = Some (Key.data (key_of o)) →
  load (s_mem sh) valueStr (zlen (o_value o)) = Some (o_value o) →
  scratch sh b start dc → scratch sh b start pc → blk dc ≠ blk pc → blk keyStr ≠ blk dc → blk valueStr ≠ blk dc →
  ∃ b' sh', set cap ec_k zeros junk rand b sh keyStr (zlen (o_key o)) valueStr (o_valueSize o) c (o_splitOffset o) dc pc None
      = Some (true, b', sh') ∧
    inv sh' b' start (snd (abs_set A o c)) ∧ keeps sh b sh' b' start dc pc ∧ pool_step (set_stripes A o) sh b sh' b'.
Proof.
  intros Hinv Ho HKo Hc Hpend Hplace Hkey Hval Hdc Hpc Hdp Hkd Hvd. unfold place_ok in Hplace. rewrite Hpend in Hplace.
  destruct Hplace as (Hs & Hroom & Hoff & Hfit & Hext & Hrange). pose proof Ho as [Hf _]. pose proof Hf as (Hsz & _ & Hvb & _).
  pose proof (inv_sizes _ _ _ _ Hinv) as (Hcs & Hk32 & _). pose proof ec_sizes as Hec. assert (Hcap0 : 0 ≤ cap) by lia.
  destruct (KeyValue.isLarge_is_large cap (zlen (o_key o)) (o_valueSize o) Hsz) as (si & Hsi & Hlg & _).
  unfold set. rewrite Hsi. cbn [mbind option_bind]. rewrite Hlg.
  change (KeyValue.is_large cap (zlen (o_key o)) (o_valueSize o)) with (Key.isLarge (key_of o)).
  change (Key_set (s_mem sh) (zlen (o_key o)) keyStr) with (Key_set (s_mem sh) (Key.size (key_of o)) keyStr).
  rewrite (Key_set_load _ _ (key_of o)) by (done || by apply key_of_wf). cbn [mbind option_bind].
  rewrite (find_spec K HK _ (a_pending A)) by (done || apply (inv_pending _ _ _ _ Hinv)). rewrite Hpend. cbn [fmap option_fmap option_map mbind option_bind].
  destruct Hdc as [Hvdc Hudc]. destruct (chunk_clear_spec cap (s_mem sh) dc Hcap0 Hvdc) as (m1 & -> & S1 & Z1 & F1). cbn [mbind option_bind].
  destruct (erase_spec K HK _ (a_pending A) (key_of o) (inv_pending _ _ _ _ Hinv) HKo) as (ps & -> & Hps). cbn [mbind option_bind].
  assert (B1 : ∀ x, x ≠ blk dc → m1 !! x = s_mem sh !! x).
  { intros x Hx. apply block_frame; [done|]. intros q <-. apply F1. intros [Hq _]. congruence. }
  assert (Hvd1 : valid m1 (ChunkUtil.getData dc +ₚ offset) (obj_size cap o)).
  { rewrite <- S1. unfold getData. rewrite padd_padd. pose proof (ChunkUtil.obj_size_bounds cap o Ho).
    eapply valid_sub; [exact Hvdc|unfold CHUNK_IDENTIFIER_SIZE; lia..]. }
  assert (Hk1 : load m1 keyStr (zlen (o_key o)) = Some (o_key o)).
  { rewrite (load_block (s_mem sh)) by (by apply B1). rewrite <- (padd_0 keyStr). pose proof (zlen_key_data o) as Hkz.
    rewrite (load_sub _ _ _ _ _ _ Hkey); [|lia|unfold zlen; lia|rewrite Hkz; destruct (KeyValue.is_large _ _ _); lia].
    simpl. apply (slice_app_mid []); done. }
  rewrite (KeyValue.serialize_format cap m1 _ keyStr valueStr _ _ _ _ Hf);
    [|exact Hvd1|done|by rewrite (load_block (s_mem sh)) by (by apply B1)|left; simpl; congruence|left; simpl; congruence].
  destruct (store_is_Some m1 _ (obj_bytes cap o) Hvd1) as [m2 Hm2].
  unfold obj_bytes, ChunkUtil.obj_bytes in Hm2 |- *. rewrite Hm2. cbn [mbind option_bind].
  pose proof (store_shape _ _ _ _ Hm2) as S2. pose proof (store_paint _ _ _ _ _ _ Z1 Hm2) as P2.
  assert (B2 : ∀ x, x ≠ blk dc → m2 !! x = s_mem sh !! x).
  { intros x Hx. rewrite <- B1 by done. unfold store in Hm2. destruct (m1 !! blk _); [|done]. cbn [mbind option_bind] in Hm2.
    destruct (splice _ _ _); [|done]. injection Hm2 as <-. rewrite lookup_insert_ne; [done|]. simpl. congruence. }
  set (b1 := set_pending b ps). set (A1 := MkAbs (a_keys A) (delete (key_of o) (a_pending A)) (a_data A)).
  assert (Hinv1 : inv (set_mem sh m2) b1 start A1).
  { assert (Hi : inv (set_mem sh m2) b start A) by (apply (inv_mem sh); [done|]; intros x Hx; apply B2; intros ->; by apply Hudc).
    destruct Hi. by constructor. }
  assert (Hsc : ∀ ch, scratch sh b start ch → scratch (set_mem sh m2) b1 start ch).
  { intros ch [Hv Hu]. split; [|done]. simpl. by rewrite <- S2, <- S1. }
  destruct (update_parity_spec (set_mem sh m2) b1 start A1 s c offset (KEY_VALUE_METADATA_SIZE + zlen (o_key o) + o_valueSize o) dc pc
      (bytes_at offset (obj_bytes cap o)) false) as (b' & sh' & E & Hinv' & Hk' & Hp' & Hl' & Hci' & S' & B' & Ht' & Hn' & Hd');
    [done|done|done|done|by apply Hsc| |done|done| | | | |].
  - eapply region_is_ext; [|exact P2]. intros i Hi. apply paint_zero.
  - unfold KEY_VALUE_METADATA_SIZE. destruct Hsz as (? & ? & _). lia.
  - pose proof (ChunkUtil.obj_size_bounds cap o Ho). lia.
  - right. lia.
  - intros i Hi Hout. apply bytes_at_out. intros Hin. apply Hout. unfold obj_size in Hext.
    change (ChunkUtil.obj_size cap o) with (zlen (obj_bytes cap o)) in Hext. lia.
  - rewrite u32_small by (unfold KEY_VALUE_METADATA_SIZE in *; destruct Hsz as (? & ? & ?); pose proof (ChunkUtil.obj_size_bounds cap o Ho); nia).
    rewrite E. cbn [mbind option_bind]. exists b', sh'. split; [done|]. split; [|split].
    + unfold abs_set. rewrite Hpend. exact Hinv'.
    + intros x Hx. assert (Hx1 : x ≠ blk start) by (intros ->; apply (proj2 Hx); by left).
      assert (Hsh : same_shape (s_mem sh) (s_mem sh')) by (etrans; [exact S1|]; etrans; [exact S2|exact S']).
      split; [|split].
      * split; [destruct (proj1 Hx) as [bs Hb]; specialize (Hsh x); rewrite Hb in Hsh; by destruct (s_mem sh' !! x)|].
        unfold used. rewrite Hk'. apply Hx.
      * intros Hxd Hxp. rewrite B' by done. by apply B2.
      * symmetry. apply Hsh.
    + unfold set_stripes. rewrite Hpend. by eapply pool_step_add.
Qed.

(** The message of a client: the key, with its split offset for a split, and
    the value. *)
Record set_input (sh : Shared) (o : obj) (keyStr valueStr : ptr) : Prop := {
  si_key : load (s_mem sh) keyStr (zlen (Key.data (key_of o))) = Some (Key.data (key_of o));
  si_value : load (s_mem sh) valueStr (zlen (o_value o)) = Some (o_value o);
}.

Lemma key_bytes m o keyStr :
  obj_ok cap o → load m keyStr (zlen (Key.data (key_of o))) = Some (Key.data (key_of o)) → load m keyStr (zlen (o_key o)) = Some (o_key o).
Proof.
  intros Ho Hkey. pose proof (zlen_key_data o) as Hkz. assert (0 ≤ zlen (o_key o)) by (unfold zlen; lia).
  rewrite <- (padd_0 keyStr). rewrite (load_sub _ _ _ _ _ _ Hkey); [|lia|lia|rewrite Hkz; destruct (KeyValue.is_large _ _ _); lia].
  simpl. apply (slice_app_mid []); done.
Qed.

(** An object that comes first. *)
Lemma set_first sh b start A o c keyStr valueStr dc pc :
  inv sh b start A → obj_ok cap o → K (key_of o) → a_pending A !! key_of o = None → set_input sh o keyStr valueStr →
  ∃ b' sh', set cap ec_k zeros junk rand b sh keyStr (zlen (o_key o)) valueStr (o_valueSize o) c (o_splitOffset o) dc pc None
      = Some (fst (abs_set A o c), b', sh') ∧
    inv sh' b' start (snd (abs_set A o c)) ∧ keeps sh b sh' b' start dc pc ∧ pool_step (set_stripes A o) sh b sh' b'.
Proof.
  intros Hinv Ho HKo Hpend [Hkey Hval]. pose proof Ho as [Hf _]. pose proof Hf as (Hsz & _).
  destruct (KeyValue.isLarge_is_large cap (zlen (o_key o)) (o_valueSize o) Hsz) as (si & Hsi & Hlg & _).
  unfold set. rewrite Hsi. cbn [mbind option_bind]. rewrite Hlg.
  change (KeyValue.is_large cap (zlen (o_key o)) (o_valueSize o)) with (Key.isLarge (key_of o)).
  change (Key_set (s_mem sh) (zlen (o_key o)) keyStr) with (Key_set (s_mem sh) (Key.size (key_of o)) keyStr).
  rewrite (Key_set_load _ _ (key_of o)) by (done || by apply key_of_wf). cbn [mbind option_bind].
  rewrite (find_spec K HK _ (a_pending A)) by (done || apply (inv_pending _ _ _ _ Hinv)). rewrite Hpend.
  cbn [fmap option_fmap option_map mbind option_bind].
  destruct (dup_obj (s_mem sh) o keyStr valueStr Ho) as (p & m1 & -> & Hfresh & Hkv & B1); [by apply key_bytes|done|].
  cbn [mbind option_bind]. pose proof Hkv as [Hpo Hpl]. destruct (read_obj m1 p o Ho Hpl) as (vp & -> & Hkd).
  cbn [mbind option_bind KeyValue.f_keySize KeyValue.f_key].
  change (Key_set m1 (zlen (o_key o)) (p +ₚ 4)) with (Key_set m1 (Key.size (key_of o)) (p +ₚ 4)).
  rewrite (Key_set_load _ _ (key_of o)) by (done || by apply key_of_wf). cbn [mbind option_bind].
  pose proof (inv_keys _ _ _ _ Hinv) as (KV & HKV & Hdom & Hobj & Hbinj).
  destruct (insert_spec K HK (keys b) KV (key_of o) p HKV HKo) as (ks & -> & Hks). cbn [mbind option_bind].
  assert (Hused : ∀ x, used b start x → is_Some (s_mem sh !! x)).
  { intros x [-> |[-> |(q & Hq & ->)]].
    - destruct (ChunkPool.ok_valid _ _ _ _ (inv_pool _ _ _ _ Hinv)) as (_ & bs & Hb & _). by eexists.
    - destruct (inv_zeros _ _ _ _ Hinv) as [Hz _]. pose proof ec_sizes. specialize (Hz 0 ltac:(lia)). unfold mget in Hz.
      simpl in Hz. destruct (s_mem sh !! blk zeros); [by eexists|done].
    - destruct (holds_map_snd_inv _ _ _ HKV Hq) as [k Hk]. destruct (a_keys A !! k) as [o'|] eqn:Eo.
      + destruct (Hobj k q o' Hk Eo) as ([_ Hl] & _). unfold load in Hl. destruct (s_mem sh !! blk q); [by eexists|done].
      + exfalso. apply not_elem_of_dom in Eo. rewrite <- Hdom in Eo. apply Eo, elem_of_dom. by eexists. }
  assert (Hnu : ¬ used b start (blk p)) by (intros Hu; destruct (Hused _ Hu) as [? Hx]; congruence).
  assert (Hinv1 : inv (set_mem sh m1) b start A) by (apply (inv_mem sh); [done|]; intros x Hx; apply B1; intros ->; done).
  assert (Hdk : a_keys A !! key_of o = None ↔ KV !! key_of o = None) by (rewrite <- !not_elem_of_dom, Hdom; done).
  unfold abs_set. rewrite Hpend. destruct (a_keys A !! key_of o) as [o'|] eqn:Eo.
  - rewrite bool_decide_eq_false_2 by (intros Hn; apply Hdk in Hn; done).
    unfold mfree. assert (Hbp : is_Some (m1 !! blk p)) by (unfold load in Hpl; destruct (m1 !! blk p); [by eexists|done]).
    destruct Hbp as [bs Hbp]. rewrite Hbp. cbn [mbind option_bind]. rewrite decide_True by done. cbn [mbind option_bind fst snd].
    eexists _, _. split; [done|].
    assert (Bd : ∀ x, delete (blk p) m1 !! x = s_mem sh !! x).
    { intros x. destruct (decide (x = blk p)) as [->|Hx]; [by rewrite lookup_delete_eq, Hfresh|].
      rewrite lookup_delete_ne by done. by apply B1. }
    split; [apply (inv_mem sh); [done|]; intros; apply Bd|]. split; [|by apply pool_step_refl].
    intros x Hx. simpl. unfold outside. simpl. rewrite Bd. done.
  - assert (HKn : KV !! key_of o = None) by by apply Hdk.
    rewrite bool_decide_eq_true_2 by done. rewrite decide_True in Hks by done. eexists _, _. split; [done|]. split; [|split].
    + pose proof (inv_zeros _ _ _ _ Hinv) as [_ Hzb]. destruct Hinv1 as [X1 X2 X3 X4 X5 X6 X7 X8 X9 X10].
      constructor; cbn [set_keys listId chunkId chunks keys pending a_keys a_pending a_data snd]; try done.
      exists (<[key_of o := p]> KV). split; [done|]. split; [by rewrite !dom_insert_L, Hdom|]. split.
      * intros k q o' Hk Ho'. destruct (decide (k = key_of o)) as [->|Hne].
        -- rewrite lookup_insert_eq in Hk. rewrite lookup_insert_eq in Ho'. injection Hk as <-. injection Ho' as <-.
           split; [done|]. split; [done|]. split; [done|]. split; intros Hb; apply Hnu; [left|right; left]; done.
        -- rewrite lookup_insert_ne in Hk by done. rewrite lookup_insert_ne in Ho' by done. destruct (Hobj k q o' Hk Ho') as ([Hq0 Hql] & Hrest).
           split; [|done]. split; [done|]. rewrite <- Hql. apply load_block. simpl. apply B1. intros Hb. apply Hnu. right; right.
           exists q. split; [|by rewrite Hb]. by eapply holds_map_snd.
      * intros k k' q q' Hk Hk' Hb. apply lookup_insert_Some in Hk as [[<- <-]|[Hne Hk]], Hk' as [[<- <-]|[Hne' Hk']].
        -- done.
        -- exfalso. apply Hnu. right; right. exists q'. split; [|done]. by eapply holds_map_snd.
        -- exfalso. apply Hnu. right; right. exists q. split; [|done]. by eapply holds_map_snd.
        -- by eapply Hbinj.
    + intros x [Hx Hu]. assert (Hxp : x ≠ blk p) by (intros ->; destruct Hx; congruence). simpl.
      split; [|by rewrite B1]. split; [by rewrite B1|]. intros [-> |[-> |(q & Hq & ->)]]; [apply Hu; by left|apply Hu; right; by left|].
      destruct (holds_map_snd_inv _ _ _ Hks Hq) as [k Hk]. apply lookup_insert_Some in Hk as [[<- <-]|[Hne Hk]]; [done|].
      apply Hu. right; right. exists q. split; [|done]. by eapply holds_map_snd.
    + by apply pool_step_refl.
Qed.

(** An object for which an update or a deletion waits is dropped with it. *)
Lemma set_dropped sh b start A o c keyStr valueStr dc pc r :
  inv sh b start A → obj_ok cap o → K (key_of o) → a_pending A !! key_of o = Some r →
  (match r with PRT_SEAL _ _ => False | _ => True end) → set_input sh o keyStr valueStr → scratch sh b start dc →
  ∃ b' sh', set cap ec_k zeros junk rand b sh keyStr (zlen (o_key o)) valueStr (o_valueSize o) c (o_splitOffset o) dc pc None
      = Some (fst (abs_set A o c), b', sh') ∧
    inv sh' b' start (snd (abs_set A o c)) ∧ keeps sh b sh' b' start dc pc ∧ pool_step (set_stripes A o) sh b sh' b'.
Proof.
  intros Hinv Ho HKo Hpend Hr [Hkey Hval] [Hvdc Hudc]. pose proof Ho as [Hf _]. pose proof Hf as (Hsz & _). pose proof ec_sizes as Hec.
  destruct (KeyValue.isLarge_is_large cap (zlen (o_key o)) (o_valueSize o) Hsz) as (si & Hsi & Hlg & _).
  unfold set. rewrite Hsi. cbn [mbind option_bind]. rewrite Hlg.
  change (KeyValue.is_large cap (zlen (o_key o)) (o_valueSize o)) with (Key.isLarge (key_of o)).
  change (Key_set (s_mem sh) (zlen (o_key o)) keyStr) with (Key_set (s_mem sh) (Key.size (key_of o)) keyStr).
  rewrite (Key_set_load _ _ (key_of o)) by (done || by apply key_of_wf). cbn [mbind option_bind].
  rewrite (find_spec K HK _ (a_pending A)) by (done || apply (inv_pending _ _ _ _ Hinv)). rewrite Hpend.
  cbn [fmap option_fmap option_map mbind option_bind].
  assert (Hcap0 : 0 ≤ cap) by lia. destruct (chunk_clear_spec cap (s_mem sh) dc Hcap0 Hvdc) as (m1 & -> & S1 & _ & F1). cbn [mbind option_bind].
  destruct (erase_spec K HK _ (a_pending A) (key_of o) (inv_pending _ _ _ _ Hinv) HKo) as (ps & -> & Hps). cbn [mbind option_bind].
  assert (B1 : ∀ x, x ≠ blk dc → m1 !! x = s_mem sh !! x).
  { intros x Hx. apply block_frame; [done|]. intros q <-. apply F1. intros [Hq _]. congruence. }
  assert (Hi : inv (set_mem sh m1) b start A) by (apply (inv_mem sh); [done|]; intros x Hx; apply B1; intros ->; by apply Hudc).
  unfold abs_set. rewrite Hpend. destruct r as [| |]; [done|..];
    (eexists _, _; split; [done|]; split; [destruct Hi; by constructor|]; split; [|by apply pool_step_refl]; apply keeps_mem; [done|done|auto]).
Qed.

(** [set] does what the abstract operation does. *)
Lemma set_spec sh b start A o c keyStr valueStr dc pc :
  inv sh b start A → obj_ok cap o → K (key_of o) → 0 ≤ c < ec_k → place_ok sh b A o c → set_input sh o keyStr valueStr →
  scratch sh b start dc → scratch sh b start pc → blk dc ≠ blk pc → blk keyStr ≠ blk dc → blk valueStr ≠ blk dc →
  ∃ b' sh', set cap ec_k zeros junk rand b sh keyStr (zlen (o_key o)) valueStr (o_valueSize o) c (o_splitOffset o) dc pc None
      = Some (fst (abs_set A o c), b', sh') ∧
    inv sh' b' start (snd (abs_set A o c)) ∧ keeps sh b sh' b' start dc pc ∧ pool_step (set_stripes A o) sh b sh' b'.
Proof.
  intros Hinv Ho HKo Hc Hplace Hin Hdc Hpc Hdp Hkd Hvd. destruct (a_pending A !! key_of o) as [r|] eqn:Hpend; [|by apply set_first].
  destruct r as [s offset| |]; [|by eapply set_dropped..].
  destruct Hin as [Hkey Hval].
  destruct (set_sealed sh b start A o c s offset keyStr valueStr dc pc) as (b' & sh' & E & H); [done..|].
  exists b', sh'. split; [|exact H]. unfold abs_set. by rewrite Hpend.
Qed.
End parity.
End ParityProofs.
