(* ===== verification/ParitySeal.v ===== *)
(** * Sealing at the parity server

    A SEAL_CHUNK request lists the keys of a data chunk with their offsets.
    [seal_spec]: the objects that are there already are added to the stripe at
    their offsets, the keys of the others are noted.  The deltas of sealed
    chunks follow. *)

From S2P Require Export ParityProofs.

Module ParitySeal.
Import KeyMap ParityChunkBuffer ParityProofs.

Section parity.
Context {C : Coding} {EC : ErasureCode C} (zeros : ptr) (junk : nat → Z → byte) (rand : nat → Z).
Context (K : Key → Prop) (HK : discriminated K).
Abbreviation cap := ec_chunkSize.
Let inv := inv zeros K.

(** ** The request *)
Definition record_bytes : Key * Z → list byte := λ '(k, offset),
  z2b (Key.size k) :: be_bytes 4 offset ++ z2b (b2i (Key.isLarge k)) :: Key.data k.

Definition record_size (k : Key) : Z := PROTO_CHUNK_SEAL_DATA_SIZE + Key.size k + if Key.isLarge k then SPLIT_OFFSET_SIZE else 0.

Lemma zlen_record k offset : Key.wf k → zlen (record_bytes (k, offset)) = record_size k.
Proof.
  intros [? Hl]. unfold record_bytes, record_size, PROTO_CHUNK_SEAL_DATA_SIZE, SPLIT_OFFSET_SIZE. unfold zlen.
  rewrite length_cons, length_app, length_cons, length_be_bytes, Hl. unfold Key.cmp_size, SPLIT_OFFSET_SIZE. destruct (Key.isLarge k); lia.
Qed.

(** What the loop keeps: the return value, the objects and keys that wait, the
    data written so far and the position behind the last object. *)
Record progress := MkProgress {
  p_ret : bool; p_keys : gmap Key obj; p_pending : gmap Key PendingRequest; p_data : Z → byte; p_pos : Z }.

Definition abs_record (s : Z) (a : progress) : Key * Z → progress := λ '(k, offset),
  let ret := match p_pending a !! k with Some _ => false | None => p_ret a end in
  match p_keys a !! k with
  | None =>
      MkProgress ret (p_keys a)
        (match p_pending a !! k with None => <[k := PRT_SEAL s offset]> (p_pending a) | Some _ => p_pending a end)
        (p_data a) (p_pos a)
  | Some o =>
      MkProgress ret (delete k (p_keys a)) (p_pending a) (paint (p_data a) offset (obj_bytes cap o)) (offset + obj_size cap o)
  end.
Definition abs_records (s : Z) (A : abs) (recs : list (Key * Z)) : progress :=
  foldl (abs_record s) (MkProgress true (a_keys A) (a_pending A) (λ _, x00) 0) recs.
Definition abs_seal (A : abs) (s c : Z) (recs : list (Key * Z)) : bool * abs :=
  let a := abs_records s A recs in (p_ret a, MkAbs (p_keys a) (p_pending a) (add_at (a_data A) s c (p_data a))).

(** ** One record *)

(** The parts of a record that the source reads. *)
Lemma read_record m p k offset rest n :
  Key.wf k → 0 ≤ offset < 2 ^ 32 → load m p n = Some (record_bytes (k, offset) ++ rest) →
  load8 m p = Some (z2b (Key.size k)) ∧ load m (p +ₚ 1) 4 = Some (be_bytes 4 offset) ∧
  load8 m (p +ₚ 5) = Some (z2b (b2i (Key.isLarge k))) ∧
  load m (p +ₚ 6) (zlen (Key.data k)) = Some (Key.data k) ∧
  load m (p +ₚ record_size k) (zlen rest) = Some rest.
Proof.
  intros Hwf Ho Hl. pose proof (load_zlen _ _ _ _ Hl) as Hz. rewrite zlen_app, (zlen_record k offset Hwf) in Hz.
  assert (0 ≤ zlen rest) by (unfold zlen; lia).
  assert (Hd : record_size k = 6 + zlen (Key.data k)).
  { destruct Hwf as [? Hlk]. unfold record_size, PROTO_CHUNK_SEAL_DATA_SIZE, Messages.PROTO_CHUNK_SEAL_DATA_SIZE. unfold zlen.
    rewrite Hlk. unfold Key.cmp_size, SPLIT_OFFSET_SIZE. destruct (Key.isLarge k); lia. }
  assert (0 ≤ zlen (Key.data k)) by (unfold zlen; lia).
  set (hd := z2b (Key.size k)). set (lg := z2b (b2i (Key.isLarge k))).
  assert (Hx : record_bytes (k, offset) ++ rest = [hd] ++ be_bytes 4 offset ++ [lg] ++ Key.data k ++ rest).
  { change (record_bytes (k, offset)) with ([hd] ++ be_bytes 4 offset ++ [lg] ++ Key.data k). by rewrite <- !app_assoc. }
  rewrite Hx in Hl.
  unfold load8. split; [rewrite (load_mget _ _ _ _ Hl) by lia; done|].
  split; [rewrite (load_sub _ _ _ _ _ _ Hl) by lia; by apply (slice_app_mid [hd])|].
  split.
  - assert (H1 : load m (p +ₚ 5) 1 = Some [lg]).
    { rewrite (load_sub _ _ _ _ _ _ Hl) by lia. rewrite (app_assoc [hd]). by apply slice_app_mid. }
    by rewrite (load_mget _ _ _ _ H1) by lia.
  - split.
    + rewrite (load_sub _ _ _ _ _ _ Hl) by lia. rewrite (app_assoc [hd]), (app_assoc ([hd] ++ _)). by apply slice_app_mid.
    + rewrite (load_sub _ _ _ _ _ _ Hl) by lia.
      rewrite (app_assoc [hd]), (app_assoc ([hd] ++ _)), (app_assoc (([hd] ++ _) ++ _)). rewrite <- (app_nil_r rest) at 1.
      apply slice_app_mid; [|done]. rewrite Hd. rewrite !zlen_app. done.
Qed.

(** Taking an object out of its block and writing it into the chunk [dc]. *)
Lemma take_object sh b start A k offset p o dc pc f :
  inv sh b start A → K k → a_keys A !! k = Some o → scratch zeros sh b start dc → chunk_is cap (s_mem sh) dc f →
  0 ≤ offset → offset + obj_size cap o ≤ cap →
  (∃ KV, holds_map K (keys b) KV ∧ KV !! k = Some p) →
  ∃ m1 ks m2, memcpy (s_mem sh) (ChunkUtil.getData dc +ₚ offset) p (u32 (obj_size cap o)) = Some m1 ∧
    erase (keys b) k = Some ks ∧ mfree m1 p = Some m2 ∧
    inv (set_mem sh m2) (set_keys b ks) start (MkAbs (delete k (a_keys A)) (a_pending A) (a_data A)) ∧
    chunk_is cap m2 dc (paint f offset (obj_bytes cap o)) ∧
    keeps zeros sh b (set_mem sh m2) (set_keys b ks) start dc pc.
Proof.
  intros Hinv HKk Ho [Hvd Hud] Hf Hoff Hfit (KV' & HKV' & Hkp).
  pose proof (inv_keys _ _ _ _ _ _ Hinv) as (KV & HKV & Hdom & Hobj & Hbinj).
  assert (KV' = KV) as -> by (destruct HKV as (_ & _ & ->), HKV' as (_ & _ & ->); done).
  destruct (Hobj k p o Hkp Ho) as ([Hp0 Hpl] & Hko & Hoo & Hps & Hpz). pose proof (inv_sizes _ _ _ _ _ _ Hinv) as ([_ Hc31] & _ & _).
  pose proof (ChunkUtil.obj_size_bounds cap o Hoo) as Hb.
  assert (Hpin : p ∈ (keys b).*2) by (by eapply holds_map_snd).
  assert (Hpd : blk p ≠ blk dc) by (intros Hpd; apply Hud; right; right; exists p; by rewrite Hpd).
  rewrite u32_small by (unfold obj_size in *; lia).
  rewrite (memcpy_apart _ _ _ _ _ Hpl) by (left; simpl; congruence).
  assert (Hvst : valid (s_mem sh) (ChunkUtil.getData dc +ₚ offset) (zlen (obj_bytes cap o))).
  { unfold getData. rewrite padd_padd. unfold obj_size in *. eapply valid_sub; [exact Hvd|unfold CHUNK_IDENTIFIER_SIZE; lia..]. }
  destruct (store_is_Some _ _ _ Hvst) as [m1 Hm1]. exists m1.
  destruct (erase_spec K HK _ KV k HKV HKk) as (ks & Eks & Hks). exists ks.
  assert (B1 : ∀ x, x ≠ blk dc → m1 !! x = s_mem sh !! x).
  { intros x Hx. unfold store in Hm1. destruct (s_mem sh !! blk _); [|done]. cbn [mbind option_bind] in Hm1.
    destruct (splice _ _ _); [|done]. injection Hm1 as <-. rewrite lookup_insert_ne; [done|]. simpl. congruence. }
  pose proof (store_shape _ _ _ _ Hm1) as S1. pose proof (store_paint junk _ _ _ _ _ _ Hf Hm1) as P1.
  assert (Hbp : is_Some (m1 !! blk p)).
  { rewrite B1 by done. unfold load in Hpl. destruct (s_mem sh !! blk p); [by eexists|done]. }
  destruct Hbp as [bs Hbp]. exists (delete (blk p) m1). split; [done|]. split; [done|].
  split; [unfold mfree; rewrite Hbp; cbn [mbind option_bind]; by rewrite decide_True|].
  assert (B2 : ∀ x, x ≠ blk dc → x ≠ blk p → delete (blk p) m1 !! x = s_mem sh !! x) by (intros x Hx Hxp; rewrite lookup_delete_ne by done; by apply B1).
  assert (Hkd : ∀ q, q ∈ ks.*2 → q ∈ (keys b).*2 ∧ blk q ≠ blk p).
  { intros q Hq. destruct (holds_map_snd_inv K _ _ _ Hks Hq) as [k' Hk']. apply lookup_delete_Some in Hk' as [Hne Hk'].
    split; [by eapply holds_map_snd|]. intros Hbq. apply Hne. symmetry. by eapply Hbinj. }
  split; [|split].
  - destruct Hinv as [Hsz Hids Hpool [Hz Hzb] (M & HM & HMs) Hch Hinj Hnone _ Hpend].
    assert (Hds : blk dc ≠ blk start) by (intros Hds; apply Hud; by left).
    assert (Hdz : blk dc ≠ blk zeros) by (intros Hdz; apply Hud; right; by left).
    assert (Bs : delete (blk p) m1 !! blk start = s_mem sh !! blk start) by by apply B2.
    constructor; cbn [set_mem set_keys s_mem s_pool s_map listId chunkId chunks keys pending a_keys a_pending a_data]; try done.
    + destruct Hpool. constructor; try done. by eapply valid_block.
    + split; [|done]. eapply region_block; [|exact Hz]. by apply B2.
    + exists M. split; [|done]. eapply ServerMap.chunk_table_mem; [done|].
      intros id q Hq. destruct (HMs id q Hq) as (i & _ & ->). by apply load_block.
    + intros s w Hw. destruct (Hch s w Hw) as (i & Hi & Hwc & Hpn & Hc). exists i. split; [done|]. split; [done|]. split; [done|].
      rewrite Hwc in *. eapply region_block; [|exact Hc]. done.
    + exists (delete k KV). split; [done|]. split; [by rewrite !dom_delete_L, Hdom|]. split.
      * intros k' q o' Hk' Ho'. apply lookup_delete_Some in Hk' as [Hne Hk']. rewrite lookup_delete_ne in Ho' by done.
        destruct (Hobj k' q o' Hk' Ho') as ([Hq0 Hql] & Hrest). split; [|done]. split; [done|]. rewrite <- Hql. apply load_block. apply B2.
        -- intros Hbq. apply Hud. right; right. exists q. split; [|done]. by eapply holds_map_snd.
        -- intros Hbq. apply Hne. symmetry. by eapply Hbinj.
      * intros k1 k2 q1 q2 H1 H2. apply lookup_delete_Some in H1 as [_ H1]. apply lookup_delete_Some in H2 as [_ H2]. by eapply Hbinj.
  - intros i Hi. rewrite (mget_block m1); [by apply P1|]. simpl. rewrite lookup_delete_ne; [done|]. congruence.
  - intros x [Hx Hu]. assert (Hxp : x ≠ blk p) by (intros ->; apply Hu; right; right; by exists p).
    assert (Hl : delete (blk p) m1 !! x = m1 !! x) by by rewrite lookup_delete_ne. cbn [set_mem s_mem]. pose proof (S1 x) as HS.
    split; [|split].
    + split; [simpl; rewrite Hl; destruct Hx as [bs' Hx]; rewrite Hx in HS; by destruct (m1 !! x)|].
      intros [-> |[-> |(q & Hq & ->)]]; [apply Hu; by left|apply Hu; right; by left|]. cbn [set_keys keys] in Hq.
      apply Hkd in Hq as [Hq _]. apply Hu. right; right. by exists q.
    + intros Hxd _. rewrite Hl. by apply B1.
    + rewrite Hl. by symmetry.
Qed.

(** The extent that [seal] computes from the header of an object. *)
Lemma seal_extent o p vp : obj_ok cap o →
  ∃ si, LargeObjectUtil.isLarge cap (zlen (o_key o)) (o_valueSize o) = Some si ∧
    let f := KeyValue.Fields p (zlen (o_key o)) vp (o_valueSize o) (o_splitOffset o) in
    let splitSize :=
      if LargeObjectUtil.si_large si
      then LargeObjectUtil.clampSplit (KeyValue.f_valueSize f) (KeyValue.f_splitOffset f) (LargeObjectUtil.si_size si) else 0 in
    (if LargeObjectUtil.si_large si then KEY_VALUE_METADATA_SIZE + SPLIT_OFFSET_SIZE + KeyValue.f_keySize f + splitSize
     else KEY_VALUE_METADATA_SIZE + KeyValue.f_keySize f + KeyValue.f_valueSize f) = obj_size cap o.
Proof.
  intros Ho. pose proof Ho as [(Hsz & Hso & Hvb & _) _].
  destruct (KeyValue.isLarge_is_large cap (zlen (o_key o)) (o_valueSize o) Hsz) as (si & Hsi & Hlg & _).
  exists si. split; [done|]. cbn [KeyValue.f_keySize KeyValue.f_valueSize KeyValue.f_splitOffset].
  pose proof (KeyValue.payload_clamp cap _ _ _ _ Hsz Hso Hsi) as Hp. rewrite (obj_size_eq o).
  unfold KEY_VALUE_METADATA_SIZE, SPLIT_OFFSET_SIZE. rewrite Hlg in *. rewrite Hvb.
  destruct (KeyValue.is_large _ _ _); rewrite <- ?Hp; lia.
Qed.

Lemma is_large_b2z b : bool_decide (b2z (z2b (b2i b)) ≠ 0) = b.
Proof. destruct b; reflexivity. Qed.

Lemma seal_record_spec sh b start D s a k offset dc pc p rest n :
  inv sh b start (MkAbs (p_keys a) (p_pending a) D) → scratch zeros sh b start dc → chunk_is cap (s_mem sh) dc (p_data a) →
  K k → Key.wf k → 0 ≤ offset < 2 ^ 32 → (∀ o, p_keys a !! k = Some o → offset + obj_size cap o ≤ cap) →
  load (s_mem sh) p n = Some (record_bytes (k, offset) ++ rest) →
  let a' := abs_record s a (k, offset) in
  ∃ b' m', seal_record cap b (s_mem sh) s (ChunkUtil.getData dc) p (p_ret a) (p_pos a) =
      Some (p_ret a', b', m', p_pos a', record_size k) ∧
    inv (set_mem sh m') b' start (MkAbs (p_keys a') (p_pending a') D) ∧
    chunk_is cap m' dc (p_data a') ∧ keeps zeros sh b (set_mem sh m') b' start dc pc ∧
    chunks b' = chunks b ∧ listId b' = listId b ∧ chunkId b' = chunkId b.
Proof.
  intros Hinv Hdc Hf HKk Hwf Ho Hfit Hl a'.
  destruct (read_record _ _ _ _ _ _ Hwf Ho Hl) as (L1 & L2 & L3 & L4 & _).
  assert (Hks : b2z (z2b (Key.size k)) = Key.size k) by (apply b2z_small; destruct Hwf; lia).
  assert (Hof : ntohl (le_val (be_bytes 4 offset)) = offset).
  { unfold ntohl. rewrite <- (length_be_bytes 4 offset) at 1. rewrite bswap_le_val, be_val_be_bytes. apply Z.mod_small. simpl. lia. }
  unfold seal_record. rewrite L1. cbn [mbind option_bind]. rewrite L2. cbn [mbind option_bind]. rewrite L3. cbn [mbind option_bind].
  rewrite Hks, Hof, is_large_b2z.
  change (p +ₚ PROTO_CHUNK_SEAL_DATA_SIZE) with (p +ₚ 6). rewrite (Key_set_load _ _ k Hwf L4). cbn [mbind option_bind].
  pose proof (inv_keys _ _ _ _ _ _ Hinv) as (KV & HKV & Hdom & Hobj & Hbinj). cbn [a_keys] in *.
  pose proof (inv_pending _ _ _ _ _ _ Hinv) as HP. cbn [a_pending] in HP.
  rewrite (find_spec K HK _ KV) by done. cbn [mbind option_bind].
  rewrite (find_spec K HK (pending b) (p_pending a)) by done. cbn [mbind option_bind].
  assert (Hret : match (λ v, (k, v)) <$> p_pending a !! k with Some _ => false | None => p_ret a end =
                 match p_pending a !! k with Some _ => false | None => p_ret a end) by by destruct (p_pending a !! k).
  rewrite Hret. unfold a', abs_record.
  destruct (KV !! k) as [q|] eqn:Eq; cbn [fmap option_fmap option_map].
  - assert (Hak : is_Some (p_keys a !! k)) by (apply elem_of_dom; rewrite <- Hdom; apply elem_of_dom; by eexists).
    destruct Hak as [o Eo]. rewrite Eo. destruct (Hobj k q o Eq Eo) as ([Hq0 Hql] & Hko & Hoo & _).
    destruct (read_obj (s_mem sh) q o Hoo Hql) as (vp & -> & _). cbn [mbind option_bind].
    destruct (seal_extent o (q +ₚ 4) vp Hoo) as (si & Hsi & Hext). cbn [KeyValue.f_keySize KeyValue.f_valueSize].
    rewrite Hsi. cbn [mbind option_bind]. cbv zeta in Hext. cbn [KeyValue.f_keySize KeyValue.f_valueSize KeyValue.f_splitOffset] in Hext |- *.
    rewrite Hext.
    assert (Hkz : Key.size k = zlen (o_key o)) by (rewrite <- Hko; done).
    destruct (take_object sh b start _ k offset q o dc pc (p_data a) Hinv HKk Eo Hdc Hf) as (m1 & ks & m2 & E1 & E2 & E3 & Hinv' & Hf' & Hkeep);
      [lia|by apply Hfit|by exists KV|].
    rewrite E1. cbn [mbind option_bind]. rewrite E2. cbn [mbind option_bind]. rewrite E3. cbn [mbind option_bind].
    pose proof (inv_sizes _ _ _ _ _ _ Hinv) as ([_ Hc31] & _ & _). pose proof (ChunkUtil.obj_size_bounds cap o Hoo) as Hb.
    unfold obj_size in *. rewrite (u32_small (offset + _)) by (specialize (Hfit o Eo); lia).
    eexists _, _. split; [rewrite <- Hkz; done|]. done.
  - assert (Eo : p_keys a !! k = None) by (apply not_elem_of_dom; rewrite <- Hdom; by apply not_elem_of_dom). rewrite Eo.
    rewrite (Key_dup_K K HK k HKk Hwf). cbn [mbind option_bind].
    destruct (insert_spec K HK (pending b) (p_pending a) k (PRT_SEAL s offset) HP HKk) as (ps & -> & Hps). cbn [mbind option_bind].
    eexists _, _. split.
    { do 5 f_equal. destruct (p_pending a !! k); cbn [p_ret]; [done|]. by destruct (p_ret a). }
    cbn [p_keys p_pending p_data]. split; [|split; [done|split; [|done]]].
    + assert (Hm : set_mem sh (s_mem sh) = sh) by (by destruct sh). rewrite Hm. destruct Hinv as [X1 X2 X3 X4 X5 X6 X7 X8 X9 X10].
      constructor; cbn [set_pending listId chunkId chunks keys pending a_keys a_pending a_data]; try done.
      by destruct (p_pending a !! k).
    + by apply keeps_mem.
Qed.

(** ** The whole request *)

(** The keys of a request, and its offsets. *)
Definition records_ok (recs : list (Key * Z)) (ks : gmap Key obj) : Prop :=
  ∀ k offset, (k, offset) ∈ recs → K k ∧ Key.wf k ∧ 0 ≤ offset < 2 ^ 32 ∧
    ∀ o, ks !! k = Some o → offset + obj_size cap o ≤ cap.

Lemma abs_record_keys s a k offset k' o : p_keys (abs_record s a (k, offset)) !! k' = Some o → p_keys a !! k' = Some o.
Proof.
  unfold abs_record. destruct (p_keys a !! k); simpl; [|done]. intros H. by apply lookup_delete_Some in H as [_ ?].
Qed.

Lemma seal_loop_spec recs sh b start D s a dc pc p n fuel num :
  inv sh b start (MkAbs (p_keys a) (p_pending a) D) → scratch zeros sh b start dc → chunk_is cap (s_mem sh) dc (p_data a) →
  records_ok recs (p_keys a) → outside zeros sh b start (blk p) → blk p ≠ blk dc → blk p ≠ blk pc →
  load (s_mem sh) p n = Some (concat (record_bytes <$> recs)) → (length recs ≤ fuel)%nat → n < 2 ^ 64 →
  0 ≤ num → num + zlen recs < 2 ^ 32 →
  let a' := foldl (abs_record s) a recs in
  ∃ b' m', seal_loop cap fuel b (s_mem sh) s (ChunkUtil.getData dc) p n (p_ret a) (p_pos a) num =
      Some (p_ret a', b', m', p_pos a', num + zlen recs) ∧
    inv (set_mem sh m') b' start (MkAbs (p_keys a') (p_pending a') D) ∧
    chunk_is cap m' dc (p_data a') ∧ keeps zeros sh b (set_mem sh m') b' start dc pc ∧
    chunks b' = chunks b ∧ listId b' = listId b ∧ chunkId b' = chunkId b.
Proof.
  revert sh b a p n fuel num. induction recs as [|[k offset] recs IH]; intros sh b a p n fuel num Hinv Hdc Hf Hok Hout Hpd Hpp Hl Hfuel Hn Hnum Hnum'.
  - pose proof (load_zlen _ _ _ _ Hl) as Hz. simpl in Hz. change (zlen []) with 0 in Hz. subst n.
    assert (Hm : set_mem sh (s_mem sh) = sh) by (by destruct sh).
    exists b, (s_mem sh). rewrite Hm. split; [change (zlen []) with 0; rewrite Z.add_0_r; by destruct fuel|].
    split; [done|]. split; [done|]. split; [apply keeps_refl|done].
  - destruct fuel as [|fuel]; [simpl in Hfuel; lia|]. destruct (Hok k offset ltac:(by left)) as (HKk & Hwf & Ho & Hfit).
    cbn [fmap list_fmap concat] in Hl. change (concat (record_bytes <$> ((k, offset) :: recs))) with (record_bytes (k, offset) ++ concat (record_bytes <$> recs)) in Hl.
    destruct (seal_record_spec sh b start D s a k offset dc pc p _ n Hinv Hdc Hf HKk Hwf Ho Hfit Hl)
      as (b1 & m1 & E1 & Hinv1 & Hf1 & Hkeep1 & Hch1 & Hl1 & Hc1).
    pose proof (load_zlen _ _ _ _ Hl) as Hz. rewrite zlen_app, (zlen_record _ _ Hwf) in Hz.
    assert (Hrs : 6 ≤ record_size k) by (unfold record_size, PROTO_CHUNK_SEAL_DATA_SIZE, Messages.PROTO_CHUNK_SEAL_DATA_SIZE, SPLIT_OFFSET_SIZE; destruct Hwf; destruct (Key.isLarge k); lia).
    assert (0 ≤ zlen (concat (record_bytes <$> recs))) by (unfold zlen; lia).
    cbn [seal_loop]. rewrite decide_False by lia. rewrite E1. cbn [mbind option_bind].
    destruct (read_record _ _ _ _ _ _ Hwf Ho Hl) as (_ & _ & _ & _ & Lr).
    rewrite (u64_small (n - record_size k)) by lia. replace (n - record_size k) with (zlen (concat (record_bytes <$> recs))) by lia.
    change (zlen ((k, offset) :: recs)) with (zlen ([(k, offset)] ++ recs)) in *. rewrite zlen_app in *. change (zlen [(k, offset)]) with 1 in *.
    rewrite (u32_small (num + 1)) by (unfold zlen in *; lia).
    destruct (Hkeep1 (blk p) Hout) as (Hout1 & Hm1 & _).
    destruct (IH (set_mem sh m1) b1 (abs_record s a (k, offset)) (p +ₚ record_size k) (zlen (concat (record_bytes <$> recs))) fuel (num + 1))
      as (b2 & m2 & E2 & Hinv2 & Hf2 & Hkeep2 & Hch2 & Hl2 & Hc2); try done.
    + by eapply keeps_scratch.
    + intros k' o' Hin. destruct (Hok k' o') as (? & ? & ? & Hfit'); [by right|]. do 3 (split; [done|]).
      intros o Hko. apply Hfit'. by eapply abs_record_keys.
    + cbn [set_mem s_mem]. rewrite (load_block (s_mem sh)); [done|]. simpl. by apply Hm1.
    + simpl in Hfuel. lia.
    + lia.
    + lia.
    + lia.
    + exists b2, m2. cbn [foldl set_mem s_mem] in *. rewrite E2. split; [by rewrite Z.add_assoc|]. split; [done|]. split; [done|].
      split; [by eapply keeps_trans|]. split_and!; congruence.
Qed.

(** [seal] does what the abstract operation does, provided that the objects
    that are there end before the last of them does. *)
Lemma seal_spec sh b start A s c recs sealData n dc pc :
  inv sh b start A → 0 ≤ s < 2 ^ 32 → room sh b s → 0 ≤ c < ec_k →
  records_ok recs (a_keys A) → zlen recs < 2 ^ 32 → n < 2 ^ 64 →
  load (s_mem sh) sealData n = Some (concat (record_bytes <$> recs)) → outside zeros sh b start (blk sealData) →
  scratch zeros sh b start dc → scratch zeros sh b start pc → blk dc ≠ blk pc → blk sealData ≠ blk dc → blk sealData ≠ blk pc →
  (let a := abs_records s A recs in 0 ≤ p_pos a ≤ cap ∧ ∀ i, p_pos a ≤ i → p_data a i = x00) →
  (∀ i, i < 0 → p_data (abs_records s A recs) i = x00) →
  ∃ b' sh', seal cap ec_k zeros rand b sh s c (zlen recs) sealData n dc pc = Some (fst (abs_seal A s c recs), b', sh') ∧
    inv sh' b' start (snd (abs_seal A s c recs)) ∧ keeps zeros sh b sh' b' start dc pc ∧ pool_step {[ s ]} sh b sh' b' ∧
    s ∈ dom (chunks b').
Proof.
  intros Hinv Hs Hroom Hc Hok Hzr Hn Hl Hout Hdc Hpc Hdp Hsd Hsp [Hpos Hzero] Hneg. pose proof ec_sizes as Hec.
  pose proof (inv_sizes _ _ _ _ _ _ Hinv) as ([_ Hc31] & Hk32 & _). pose proof Hdc as [Hvd Hud].
  assert (Hcap0 : 0 ≤ cap) by lia. unfold seal.
  destruct (chunk_clear_spec cap (s_mem sh) dc Hcap0 Hvd) as (m1 & -> & S1 & Z1 & F1). cbn [mbind option_bind].
  assert (B1 : ∀ x, x ≠ blk dc → m1 !! x = s_mem sh !! x).
  { intros x Hx. apply block_frame; [done|]. intros q <-. apply F1. intros [Hq _]. congruence. }
  assert (Hkeep1 : keeps zeros sh b (set_mem sh m1) b start dc pc) by (apply keeps_mem; [done|done|auto]).
  assert (Hinv1 : inv (set_mem sh m1) b start A) by (apply (inv_mem zeros K sh); [done|]; intros x Hx; apply B1; intros ->; by apply Hud).
  set (a0 := MkProgress true (a_keys A) (a_pending A) (λ _, x00) 0).
  destruct (seal_loop_spec recs (set_mem sh m1) b start (a_data A) s a0 dc pc sealData n (Z.to_nat n) 0) as
    (b2 & m2 & E2 & Hinv2 & Hf2 & Hkeep2 & Hch2 & Hl2 & Hc2); try done.
  - destruct A. done.
  - by eapply keeps_scratch.
  - by apply (Hkeep1 _ Hout).
  - simpl. rewrite (load_block (s_mem sh)); [done|]. by apply B1.
  - pose proof (load_zlen _ _ _ _ Hl) as Hz. assert (Hle : (length recs ≤ length (concat (record_bytes <$> recs)))%nat).
    { clear - recs. induction recs as [|[k o] recs IH]; [done|]. cbn [fmap list_fmap concat length]. rewrite length_app.
      unfold record_bytes at 1. rewrite length_cons. lia. }
    unfold zlen in Hz. lia.
  - change (foldl (abs_record s) a0 recs) with (abs_records s A recs) in *. set (a := abs_records s A recs) in *. cbn [set_mem s_mem p_ret p_pos a0] in E2. rewrite E2.
    cbn [mbind option_bind]. rewrite Z.add_0_l, decide_True by done.
    assert (Hkeep12 : keeps zeros sh b (set_mem sh m2) b2 start dc pc) by by eapply keeps_trans.
    destruct (update_parity_spec zeros junk rand K (set_mem sh m2) b2 start (MkAbs (p_keys a) (p_pending a) (a_data A)) s c 0 (p_pos a) dc pc
      (p_data a) true) as (b' & sh' & E & Hinv' & Hk' & Hp' & Hl' & Hci' & S' & B' & Ht' & Hn' & Hd').
    + done.
    + done.
    + intros Hch. rewrite Hch2 in Hch. by apply Hroom.
    + done.
    + by eapply keeps_scratch.
    + done.
    + done.
    + done.
    + lia.
    + nia.
    + right. nia.
    + intros i Hi Hno. destruct (decide (p_pos a ≤ i)); [by apply Hzero|]. lia.
    + rewrite E. cbn [mbind option_bind]. exists b', sh'. split; [done|]. split; [exact Hinv'|]. split; [|split].
      * intros x Hx. destruct (Hkeep12 x Hx) as (Hx2 & Hm2 & Hl2'). assert (Hx1 : x ≠ blk start) by (intros ->; apply (proj2 Hx); by left).
        split; [|split].
        -- split; [destruct (proj1 Hx2) as [bs Hb]; pose proof (S' x) as HS; cbn [set_mem s_mem] in *; rewrite Hb in HS; by destruct (s_mem sh' !! x)|].
           unfold used. rewrite Hk'. apply Hx2.
        -- intros Hxd Hxp. rewrite B' by done. by apply Hm2.
        -- rewrite <- Hl2'. symmetry. apply S'.
      * apply (pool_step_trans _ _ _ (set_mem sh m2) b2); [by apply pool_step_refl|by apply pool_step_add].
      * apply elem_of_dom. apply Hd'. by left.
Qed.
End parity.
End ParitySeal.
