(* ===== verification/ParityTrace.v ===== *)
(** * What a parity server holds after any sequence of messages

    [deliver] hands one message of a data server or a client to the parity
    buffer the way the handlers do: the message is in a receive buffer and the
    two chunks of the worker are scratch space.  [deliver_spec]: every message
    does what the abstract operation does.  On top of it: whatever the order in
    which the objects of a chunk and its seal request arrive, the parity chunk
    becomes the parity of the data servers' chunks. *)

From S2P Require Export ParitySeal.

Module ParityTrace.
Import KeyMap ParityChunkBuffer ParityProofs ParitySeal.

(** ** Messages *)
Inductive message :=
| MSet (o : obj) (c : Z)
| MSeal (s c : Z) (recs : list (Key * Z))
| MUpdate (s c offset : Z) (delta : list byte).

Section trace.
Context {C : Coding} {EC : ErasureCode C} (zeros : ptr) (junk : nat → Z → byte) (rand : nat → Z).
Context (K : Key → Prop) (HK : discriminated K).
Abbreviation cap := ec_chunkSize.
Let inv := inv zeros K.

Definition message_bytes (msg : message) : list byte :=
  match msg with
  | MSet o _ => Key.data (key_of o) ++ o_value o
  | MSeal _ _ recs => concat (record_bytes <$> recs)
  | MUpdate _ _ _ delta => delta
  end.

(** The receive buffer [rb] and the chunks [dc] and [pc] of the worker. *)
Definition deliver (rb dc pc : ptr) (b : ParityChunkBuffer) (sh : Shared) (msg : message) : option (bool * ParityChunkBuffer * Shared) :=
  m ← store (s_mem sh) rb (message_bytes msg);
  let sh := set_mem sh m in
  match msg with
  | MSet o c =>
      set cap ec_k zeros junk rand b sh rb (zlen (o_key o)) (rb +ₚ zlen (Key.data (key_of o))) (o_valueSize o) c (o_splitOffset o) dc pc None
  | MSeal s c recs => seal cap ec_k zeros rand b sh s c (zlen recs) rb (zlen (message_bytes msg)) dc pc
  | MUpdate s c offset delta =>
      '(b, sh) ← update cap ec_k zeros rand b sh s c offset (zlen delta) rb dc pc false;
      Some (true, b, sh)
  end.

Fixpoint deliver_all (rb dc pc : ptr) (ret : bool) (b : ParityChunkBuffer) (sh : Shared) (msgs : list message) :
    option (bool * ParityChunkBuffer * Shared) :=
  match msgs with
  | [] => Some (ret, b, sh)
  | msg :: msgs => '(r, b, sh) ← deliver rb dc pc b sh msg; deliver_all rb dc pc (ret && r) b sh msgs
  end.

(** ** The abstract operations *)
Definition abs_update (A : abs) (s c offset : Z) (delta : list byte) : abs :=
  with_data A (add_at (a_data A) s c (bytes_at offset delta)).
Definition abs_deliver (A : abs) (msg : message) : bool * abs :=
  match msg with
  | MSet o c => abs_set A o c
  | MSeal s c recs => abs_seal A s c recs
  | MUpdate s c offset delta => (true, abs_update A s c offset delta)
  end.

(** ** The delta of a sealed chunk *)
Lemma update_spec sh b start A s c offset delta src dc pc :
  inv sh b start A → 0 ≤ s < 2 ^ 32 → room sh b s → 0 ≤ c < ec_k → 0 ≤ offset → offset + zlen delta ≤ cap →
  load (s_mem sh) src (zlen delta) = Some delta → blk src ≠ blk dc →
  scratch zeros sh b start dc → scratch zeros sh b start pc → blk dc ≠ blk pc →
  ∃ b' sh', update cap ec_k zeros rand b sh s c offset (zlen delta) src dc pc false = Some (b', sh') ∧
    inv sh' b' start (abs_update A s c offset delta) ∧ keeps zeros sh b sh' b' start dc pc ∧ pool_step {[ s ]} sh b sh' b'.
Proof.
  intros Hinv Hs Hroom Hc Ho Hfit Hl Hsd Hdc Hpc Hdp. pose proof ec_sizes as Hec.
  pose proof (inv_sizes _ _ _ _ _ _ Hinv) as ([_ Hc31] & Hk32 & _). pose proof Hdc as [Hvd Hud].
  assert (Hcap0 : 0 ≤ cap) by lia. assert (Hz : 0 ≤ zlen delta) by (unfold zlen; lia). unfold update.
  destruct (chunk_clear_spec cap (s_mem sh) dc Hcap0 Hvd) as (m1 & -> & S1 & Z1 & F1). cbn [mbind option_bind].
  assert (B1 : ∀ x, x ≠ blk dc → m1 !! x = s_mem sh !! x).
  { intros x Hx. apply block_frame; [done|]. intros q <-. apply F1. intros [Hq _]. congruence. }
  assert (Hl1 : load m1 src (zlen delta) = Some delta) by (rewrite <- Hl; apply load_block; by apply B1).
  rewrite (memcpy_apart _ _ _ _ _ Hl1) by (left; simpl; congruence).
  assert (Hv2 : valid m1 (ChunkUtil.getData dc +ₚ offset) (zlen delta)).
  { eapply same_shape_valid; [exact S1|]. unfold getData. rewrite padd_padd. eapply valid_sub; [exact Hvd|unfold CHUNK_IDENTIFIER_SIZE; lia..]. }
  destruct (store_is_Some _ _ _ Hv2) as [m2 Hm2]. rewrite Hm2. cbn [mbind option_bind].
  pose proof (store_paint junk _ _ _ _ _ _ Z1 Hm2) as P2. pose proof (store_shape _ _ _ _ Hm2) as S2.
  assert (B2 : ∀ x, x ≠ blk dc → m2 !! x = s_mem sh !! x).
  { intros x Hx. rewrite <- B1 by done. unfold store in Hm2. destruct (m1 !! blk _); [|done]. cbn [mbind option_bind] in Hm2.
    destruct (splice _ _ _); [|done]. injection Hm2 as <-. rewrite lookup_insert_ne; [done|]. simpl. congruence. }
  assert (P2' : chunk_is cap m2 dc (bytes_at offset delta)).
  { intros i Hi. rewrite P2 by done. by rewrite paint_zero. }
  assert (Hinv2 : inv (set_mem sh m2) b start A) by (apply (inv_mem zeros K sh); [done|]; intros x Hx; apply B2; intros ->; by apply Hud).
  assert (Hk2 : keeps zeros sh b (set_mem sh m2) b start dc pc) by (apply keeps_mem; [done|by etrans|auto]).
  destruct (update_parity_spec zeros junk rand K (set_mem sh m2) b start A s c offset (zlen delta) dc pc (bytes_at offset delta) false)
    as (b' & sh' & -> & Hinv' & Hk' & Hp' & Hl' & Hci' & S' & B' & Ht' & Hn' & Hd'); try done.
  - by eapply keeps_scratch.
  - nia.
  - right. nia.
  - intros i Hi Hno. by apply bytes_at_out.
  - exists b', sh'. split; [done|]. split; [done|]. split.
    + eapply keeps_trans; [exact Hk2|]. intros x [Hx Hu]. assert (Hxs : x ≠ blk start) by (intros ->; apply Hu; by left). split; [|split].
      * split; [destruct Hx as [bs Hb]; pose proof (S' x) as HS; rewrite Hb in HS; by destruct (s_mem sh' !! x)|].
        unfold used. by rewrite Hk'.
      * intros Hxd Hxp. by rewrite B'.
      * symmetry. apply S'.
    + by apply pool_step_add.
Qed.

(** ** One message *)

(** The worker's memory: a receive buffer of [rn] bytes and two chunks. *)
Record ready (sh : Shared) (b : ParityChunkBuffer) (start rb : ptr) (rn : Z) (dc pc : ptr) : Prop := {
  rd_size : rn < 2 ^ 32;
  rd_valid : valid (s_mem sh) rb rn;
  rd_used : ¬ used zeros b start (blk rb);
  rd_dc : scratch zeros sh b start dc;
  rd_pc : scratch zeros sh b start pc;
  rd_apart : blk dc ≠ blk pc ∧ blk rb ≠ blk dc ∧ blk rb ≠ blk pc;
}.

Lemma valid_outside sh b start p n : valid (s_mem sh) p n → ¬ used zeros b start (blk p) → outside zeros sh b start (blk p).
Proof. intros (_ & bs & Hb & _) Hu. split; [by eexists|done]. Qed.

Lemma ready_keeps sh b sh' b' start rb rn dc pc x y :
  keeps zeros sh b sh' b' start x y → ready sh b start rb rn dc pc → ready sh' b' start rb rn dc pc.
Proof.
  intros Hk [Hn Hv Hu Hd Hp Ha]. destruct (Hk (blk rb)) as ([_ Hu'] & _ & Hl); [by apply valid_outside with rn|].
  constructor; [done| |done|by eapply keeps_scratch..|done].
  destruct Hv as (Hn0 & bs & Hb & Ho & Hlen). rewrite Hb in Hl. destruct (s_mem sh' !! blk rb) as [bs'|] eqn:E; [|done].
  simpl in Hl. injection Hl as Hl. split; [done|]. exists bs'. split; [done|]. lia.
Qed.

Definition message_ok (sh : Shared) (b : ParityChunkBuffer) (A : abs) (msg : message) : Prop :=
  match msg with
  | MSet o c => obj_ok cap o ∧ K (key_of o) ∧ 0 ≤ c < ec_k ∧ place_ok sh b A o c
  | MSeal s c recs =>
      0 ≤ s < 2 ^ 32 ∧ 0 ≤ c < ec_k ∧ room sh b s ∧ records_ok K recs (a_keys A) ∧
      let a := abs_records s A recs in
      0 ≤ p_pos a ≤ cap ∧ (∀ i, p_pos a ≤ i → p_data a i = x00) ∧ (∀ i, i < 0 → p_data a i = x00)
  | MUpdate s c offset delta => 0 ≤ s < 2 ^ 32 ∧ 0 ≤ c < ec_k ∧ room sh b s ∧ 0 ≤ offset ∧ offset + zlen delta ≤ cap
  end.

(** The stripe whose parity chunk a message changes. *)
Definition message_stripes (A : abs) (msg : message) : gset Z :=
  match msg with MSet o _ => set_stripes A o | MSeal s _ _ | MUpdate s _ _ _ => {[ s ]} end.

Lemma record_count recs : zlen recs ≤ zlen (concat (record_bytes <$> recs)).
Proof.
  unfold zlen. apply inj_le. induction recs as [|[k o] recs IH]; [done|]. cbn [fmap list_fmap concat length]. rewrite length_app.
  change (length (record_bytes (k, o))) with (S (length (be_bytes 4 o ++ z2b (b2i (Key.isLarge k)) :: Key.data k))). lia.
Qed.

(** Every message does what the abstract operation does. *)
Lemma deliver_spec sh b start A rb rn dc pc msg :
  inv sh b start A → ready sh b start rb rn dc pc → message_ok sh b A msg → zlen (message_bytes msg) ≤ rn →
  ∃ b' sh', deliver rb dc pc b sh msg = Some (fst (abs_deliver A msg), b', sh') ∧
    inv sh' b' start (snd (abs_deliver A msg)) ∧ ready sh' b' start rb rn dc pc ∧ pool_step (message_stripes A msg) sh b sh' b' ∧
    (match msg with MSeal s _ _ => s ∈ dom (chunks b') | _ => True end).
Proof.
  intros Hinv Hready Hok Hn. pose proof Hready as [Hrn Hv Hu Hdc Hpc (Hdp & Hbd & Hbp)].
  assert (Hv1 : valid (s_mem sh) rb (zlen (message_bytes msg))) by (eapply valid_prefix; [exact Hv|unfold zlen in *; lia]).
  unfold deliver. destruct (store_is_Some _ _ _ Hv1) as [m1 Hm1]. rewrite Hm1. cbn [mbind option_bind]. cbv zeta.
  pose proof (store_shape _ _ _ _ Hm1) as S1. pose proof (load_store_eq _ _ _ _ Hm1) as L1.
  assert (B1 : ∀ x, x ≠ blk rb → m1 !! x = s_mem sh !! x).
  { intros x Hx. unfold store in Hm1. destruct (s_mem sh !! blk _); [|done]. cbn [mbind option_bind] in Hm1.
    destruct (splice _ _ _); [|done]. injection Hm1 as <-. by rewrite lookup_insert_ne. }
  assert (Hk1 : keeps zeros sh b (set_mem sh m1) b start rb rb) by (apply keeps_mem; [done|done|auto]).
  assert (Hinv1 : inv (set_mem sh m1) b start A) by (apply (inv_mem zeros K sh); [done|]; intros x Hx; apply B1; intros ->; done).
  pose proof (ready_keeps _ _ _ _ _ _ _ _ _ _ _ Hk1 Hready) as [_ Hv2 _ Hdc1 Hpc1 _].
  assert (Hps1 : pool_step (message_stripes A msg) sh b (set_mem sh m1) b) by by apply pool_step_refl.
  destruct msg as [o c|s c recs|s c offset delta]; cbn [abs_deliver message_bytes] in *.
  - destruct Hok as (Ho & HKo & Hc & Hpl).
    destruct (set_spec zeros junk rand K HK (set_mem sh m1) b start A o c rb (rb +ₚ zlen (Key.data (key_of o))) dc pc)
      as (b' & sh' & E & Hinv' & Hk' & Hp'); try done.
    { split; cbn [set_mem s_mem].
      - rewrite <- (padd_0 rb). rewrite (load_sub _ _ _ _ _ _ L1); [|lia|unfold zlen; lia|rewrite zlen_app; unfold zlen; lia].
        by apply (slice_app_mid []).
      - rewrite (load_sub _ _ _ _ _ _ L1); [|unfold zlen; lia..|rewrite zlen_app; lia].
        rewrite <- (app_nil_r (_ ++ _)), <- app_assoc. by apply slice_app_mid. }
    exists b', sh'. split; [done|]. split; [done|]. split; [|split; [by apply (pool_step_trans _ _ _ _ _ _ _ Hps1)|done]].
    eapply ready_keeps; [exact Hk'|]. by eapply ready_keeps.
  - destruct Hok as (Hs & Hc & Hroom & Hrecs & Hpos & Hzero & Hneg). pose proof (record_count recs) as Hcount.
    destruct (seal_spec zeros junk rand K HK (set_mem sh m1) b start A s c recs rb (zlen (concat (record_bytes <$> recs))) dc pc)
      as (b' & sh' & E & Hinv' & Hk' & Hp' & Hdom); try done.
    { lia. }
    { lia. }
    { by apply valid_outside with rn. }
    exists b', sh'. split; [done|]. split; [done|]. split; [|split; [by apply (pool_step_trans _ _ _ _ _ _ _ Hps1)|done]].
    eapply ready_keeps; [exact Hk'|]. by eapply ready_keeps.
  - destruct Hok as (Hs & Hc & Hroom & Hoff & Hfit).
    destruct (update_spec (set_mem sh m1) b start A s c offset delta rb dc pc) as (b' & sh' & -> & Hinv' & Hk' & Hp'); try done.
    exists b', sh'. split; [done|]. split; [done|]. split; [|split; [by apply (pool_step_trans _ _ _ _ _ _ _ Hps1)|done]].
    eapply ready_keeps; [exact Hk'|]. by eapply ready_keeps.
Qed.
End trace.
End ParityTrace.
