(* ===== verification/ParityOrder.v ===== *)
(** * The order of messages does not matter

    The objects of a data chunk and the request that seals it reach a parity
    server in any order.  [layout_seal] is the effect of a seal request on the
    objects that are there, [history] what the abstract state is after any
    sequence of messages, and [parity_order] the theorem about the program:
    when the objects and the seal request have all arrived, the parity chunk is
    the parity of the data servers' chunks, deltas included. *)

From S2P Require Export ParityTrace Raid.

Module ParityOrder.
Import KeyMap ParityChunkBuffer ParityProofs ParitySeal ParityTrace.

Section layout.
Context {C : Coding} {EC : ErasureCode C}.
Abbreviation cap := ec_chunkSize.

(** ** The records of a chunk's objects *)
Fixpoint records_of (pos : Z) (os : list obj) : list (Key * Z) :=
  match os with
  | [] => []
  | o :: os => (key_of o, pos) :: records_of (pos + obj_size cap o) os
  end.

(** Where the object with key [k] is. *)
Fixpoint place (pos : Z) (os : list obj) (k : Key) : option (Z * obj) :=
  match os with
  | [] => None
  | o :: os => if decide (key_of o = k) then Some (pos, o) else place (pos + obj_size cap o) os k
  end.

(** The chunk when only the objects with keys in [ks] are there. *)
Fixpoint chunk_of (ks : list Key) (pos : Z) (os : list obj) (i : Z) : byte :=
  match os with
  | [] => x00
  | o :: os =>
      bxor (if decide (key_of o ∈ ks) then bytes_at pos (obj_bytes cap o) i else x00)
        (chunk_of ks (pos + obj_size cap o) os i)
  end.

Abbreviation keys_of os := (key_of <$> os).

Lemma zlen_objs_cons o os : zlen (objs_bytes cap (o :: os)) = obj_size cap o + zlen (objs_bytes cap os).
Proof. unfold objs_bytes, ChunkUtil.objs_bytes. cbn [fmap list_fmap concat]. by rewrite zlen_app. Qed.

Lemma zget_app {A} (xs ys : list A) i :
  0 ≤ i → zget (xs ++ ys) i = if decide (i < zlen xs) then zget xs i else zget ys (i - zlen xs).
Proof.
  intros Hi. unfold zget, zlen. rewrite !(decide_True (P := 0 ≤ i)) by done. case_decide.
  - rewrite lookup_app_l by lia. done.
  - rewrite decide_True by lia. rewrite lookup_app_r by lia. f_equal. lia.
Qed.

Lemma chunk_of_out ks pos os i : i < pos ∨ pos + zlen (objs_bytes cap os) ≤ i → chunk_of ks pos os i = x00.
Proof.
  revert pos. induction os as [|o os IH]; intros pos Hi; [done|]. rewrite zlen_objs_cons in Hi. cbn [chunk_of].
  pose proof (zlen_nonneg (objs_bytes cap os)). assert (0 ≤ obj_size cap o) by apply zlen_nonneg.
  rewrite IH by lia. rewrite bytes_at_out by (unfold obj_size, ChunkUtil.obj_size in *; lia). by destruct (decide _).
Qed.

Lemma chunk_of_all ks pos os i : (∀ o, o ∈ os → key_of o ∈ ks) → chunk_of ks pos os i = bytes_at pos (objs_bytes cap os) i.
Proof.
  revert pos. induction os as [|o os IH]; intros pos Hall.
  - symmetry. apply bytes_at_out. change (zlen (objs_bytes cap [])) with 0. lia.
  - cbn [chunk_of]. rewrite decide_True by (apply Hall; by left). rewrite IH by (intros; apply Hall; by right).
    change (objs_bytes cap (o :: os)) with (obj_bytes cap o ++ objs_bytes cap os).
    change (obj_size cap o) with (zlen (obj_bytes cap o)).
    destruct (decide (i < pos + zlen (obj_bytes cap o))) as [Hi|Hi].
    + rewrite (bytes_at_out (pos + zlen _)) by lia. rewrite (right_id x00 bxor).
      destruct (decide (pos ≤ i)).
      * unfold bytes_at. rewrite zget_app by lia. by rewrite decide_True by lia.
      * rewrite !bytes_at_out; [done|lia..].
    + rewrite (bytes_at_out pos (obj_bytes cap o)) by lia. rewrite (left_id x00 bxor). unfold bytes_at.
      pose proof (zlen_nonneg (obj_bytes cap o)). rewrite zget_app by lia. rewrite decide_False by lia. do 2 f_equal. lia.
Qed.

Lemma place_Some pos os k p o : place pos os k = Some (p, o) →
  o ∈ os ∧ key_of o = k ∧ pos ≤ p ∧ p + obj_size cap o ≤ pos + zlen (objs_bytes cap os).
Proof.
  revert pos. induction os as [|o' os IH]; intros pos H; [done|]. cbn [place] in H. rewrite zlen_objs_cons.
  pose proof (zlen_nonneg (objs_bytes cap os)). assert (0 ≤ obj_size cap o') by apply zlen_nonneg.
  destruct (decide (key_of o' = k)) as [Hk|Hk].
  - injection H as <- <-. split; [by left|]. split; [done|]. lia.
  - apply IH in H as (? & ? & ? & ?). split; [by right|]. split; [done|]. lia.
Qed.

Lemma place_None pos os k : place pos os k = None ↔ k ∉ keys_of os.
Proof.
  revert pos. induction os as [|o os IH]; intros pos; [split; [intros _; apply not_elem_of_nil|done]|].
  cbn [place fmap list_fmap]. rewrite not_elem_of_cons. destruct (decide (key_of o = k)) as [Hk|Hk]; [naive_solver|].
  rewrite IH. naive_solver.
Qed.

Lemma place_is_Some pos os o : o ∈ os → ∃ p o', place pos os (key_of o) = Some (p, o').
Proof.
  intros Ho. destruct (place pos os (key_of o)) as [[p o']|] eqn:E; [by eexists _, _|].
  apply place_None in E. exfalso. apply E. by apply list_elem_of_fmap_2.
Qed.

(** One more object. *)
Lemma chunk_of_more ks k pos os i : k ∉ ks → NoDup (keys_of os) →
  chunk_of (ks ++ [k]) pos os i =
  bxor (chunk_of ks pos os i) (match place pos os k with Some (p, o) => bytes_at p (obj_bytes cap o) i | None => x00 end).
Proof.
  intros Hk. revert pos. induction os as [|o os IH]; intros pos Hn; [done|]. cbn [fmap list_fmap] in Hn.
  apply NoDup_cons in Hn as [Ho Hn]. cbn [chunk_of place]. rewrite IH by done.
  destruct (decide (key_of o = k)) as [<-|Hne].
  - rewrite decide_True by set_solver. rewrite (decide_False (P := key_of o ∈ ks)) by done.
    rewrite (proj2 (place_None _ _ _) Ho). rewrite (right_id x00 bxor), (left_id x00 bxor). apply (comm bxor).
  - rewrite (assoc bxor). do 2 f_equal. destruct (decide (key_of o ∈ ks)) as [H|H].
    + by rewrite decide_True by set_solver.
    + by rewrite decide_False by set_solver.
Qed.

(** ** A seal request *)

(** One object of the chunk, on a chunk that is zero from [pos] on. *)
Lemma record_data s a o pos i :
  (∀ o', p_keys a !! key_of o = Some o' → o' = o) → (∀ i, pos ≤ i → p_data a i = x00) →
  p_data (abs_record s a (key_of o, pos)) i =
  bxor (p_data a i) (if p_keys a !! key_of o is Some _ then bytes_at pos (obj_bytes cap o) i else x00).
Proof.
  intros Ho Hz. unfold abs_record. destruct (p_keys a !! key_of o) as [o'|] eqn:E; simpl; [|by rewrite (right_id x00 bxor)].
  rewrite (Ho o') by done. unfold paint. case_decide as Hd.
  - rewrite Hz by lia. by rewrite (left_id x00 bxor).
  - rewrite bytes_at_out by done. by rewrite (right_id x00 bxor).
Qed.

Lemma record_keys s a o pos k :
  p_keys (abs_record s a (key_of o, pos)) !! k = if decide (k = key_of o) then None else p_keys a !! k.
Proof.
  unfold abs_record. destruct (p_keys a !! key_of o) eqn:E; simpl; destruct (decide (k = key_of o)) as [->|Hne]; try done.
  - apply lookup_delete_eq.
  - by rewrite lookup_delete_ne.
Qed.
Lemma record_pending s a o pos k : p_pending a !! key_of o = None →
  p_pending (abs_record s a (key_of o, pos)) !! k =
  if decide (k = key_of o) then (if p_keys a !! k is Some _ then None else Some (PRT_SEAL s pos)) else p_pending a !! k.
Proof.
  intros Hpo. unfold abs_record. destruct (p_keys a !! key_of o) eqn:E; simpl; destruct (decide (k = key_of o)) as [->|Hne]; try done.
  - by rewrite E.
  - rewrite E, Hpo. by rewrite lookup_insert_eq.
  - rewrite Hpo. by rewrite lookup_insert_ne.
Qed.

Lemma layout_seal s os : ∀ pos a ks,
  NoDup (keys_of os) →
  (∀ o o', o ∈ os → p_keys a !! key_of o = Some o' → o' = o) →
  (∀ o, o ∈ os → p_pending a !! key_of o = None) →
  (∀ o, o ∈ os → key_of o ∈ ks ↔ is_Some (p_keys a !! key_of o)) →
  (∀ i, pos ≤ i → p_data a i = x00) →
  let a' := foldl (abs_record s) a (records_of pos os) in
  p_ret a' = p_ret a ∧
  (∀ k, p_keys a' !! k = if decide (k ∈ keys_of os) then None else p_keys a !! k) ∧
  (∀ k, p_pending a' !! k =
     match place pos os k with
     | Some (p, _) => if p_keys a !! k is Some _ then None else Some (PRT_SEAL s p)
     | None => p_pending a !! k
     end) ∧
  (∀ i, p_data a' i = bxor (p_data a i) (chunk_of ks pos os i)) ∧
  (p_pos a' = p_pos a ∨ pos ≤ p_pos a' ≤ pos + zlen (objs_bytes cap os)) ∧
  ((∀ i, p_pos a ≤ i → p_data a i = x00) → ∀ i, p_pos a' ≤ i → p_data a' i = x00).
Proof.
  induction os as [|o os IH]; intros pos a ks Hn Ho Hp Hks Hz a'.
  { subst a'. cbn [records_of foldl]. split; [done|]. split; [|split; [done|split; [|split; [by left|done]]]].
    - intros k. by rewrite decide_False by apply not_elem_of_nil.
    - intros i. cbn [chunk_of]. by rewrite (right_id x00 bxor). }
  cbn [fmap list_fmap] in Hn. apply NoDup_cons in Hn as [Hon Hn].
  assert (Hno : ∀ o', o' ∈ os → key_of o' ≠ key_of o).
  { intros o' Hin Heq. apply Hon. rewrite <- Heq. by apply list_elem_of_fmap_2. }
  assert (Hpo : p_pending a !! key_of o = None) by (apply Hp; by left).
  pose proof (record_data s a o pos) as Hd. rewrite zlen_objs_cons.
  assert (0 ≤ obj_size cap o) by apply zlen_nonneg. pose proof (zlen_nonneg (objs_bytes cap os)).
  set (a1 := abs_record s a (key_of o, pos)) in *.
  assert (Hk1 : ∀ k, p_keys a1 !! k = if decide (k = key_of o) then None else p_keys a !! k) by apply record_keys.
  assert (Hp1 : ∀ k, p_pending a1 !! k = if decide (k = key_of o) then (if p_keys a !! k is Some _ then None else Some (PRT_SEAL s pos)) else p_pending a !! k)
    by (intros k; by apply record_pending).
  assert (Hz1 : ∀ i, pos + obj_size cap o ≤ i → p_data a1 i = x00).
  { intros i Hi. rewrite Hd by (eauto using list_elem_of_here). rewrite Hz by lia.
    rewrite bytes_at_out by (unfold obj_size, ChunkUtil.obj_size in *; lia). by destruct (p_keys a !! key_of o). }
  destruct (IH (pos + obj_size cap o) a1 ks) as (R & Ks & Ps & Ds & Pos & Zs); try done.
  - intros o' o'' Hin. rewrite Hk1. destruct (decide _); [done|]. apply Ho. by right.
  - intros o' Hin. rewrite Hp1. rewrite decide_False by by apply Hno. apply Hp. by right.
  - intros o' Hin. rewrite Hk1. rewrite decide_False by by apply Hno. apply Hks. by right.
  - subst a'. cbn [records_of foldl]. fold a1. split; [|split; [|split; [|split; [|split]]]].
    + rewrite R. subst a1. unfold abs_record. rewrite Hpo. by destruct (p_keys a !! key_of o).
    + intros k. rewrite Ks, Hk1. cbn [fmap list_fmap]. destruct (decide (k = key_of o)) as [->|Hne].
      * rewrite (decide_True (P := key_of o ∈ key_of o :: _)) by by left. by destruct (decide _).
      * destruct (decide (k ∈ keys_of os)); [rewrite decide_True by set_solver; done|rewrite decide_False by set_solver; done].
    + intros k. rewrite Ps, Hk1, Hp1. cbn [place]. destruct (decide (key_of o = k)) as [<-|Hne].
      * rewrite (proj2 (place_None _ _ _) Hon). by rewrite decide_True.
      * by rewrite !(decide_False (P := k = key_of o)) by congruence.
    + intros i. rewrite Ds, Hd by (eauto using list_elem_of_here). cbn [chunk_of]. rewrite (assoc bxor). do 2 f_equal.
      pose proof (Hks o ltac:(by left)) as Hko. destruct (p_keys a !! key_of o) eqn:E.
      * rewrite decide_True by (apply Hko; by eexists). done.
      * rewrite decide_False; [done|]. intros Hin. apply Hko in Hin as [? Hx]. done.
    + assert (Hpa : p_pos a1 = p_pos a ∨ p_pos a1 = pos + obj_size cap o).
      { subst a1. unfold abs_record. destruct (p_keys a !! key_of o) as [o'|] eqn:E; simpl; [right|by left].
        by rewrite (Ho o o' ltac:(by left) E). }
      destruct Pos as [-> | ?]; [|right; lia]. destruct Hpa as [-> | ->]; [by left|right; lia].
    + intros Hza. apply Zs. intros i Hi. destruct (p_keys a !! key_of o) as [o'|] eqn:E.
      * apply Hz1. revert Hi. subst a1. unfold abs_record. rewrite E. simpl. rewrite (Ho o o' ltac:(by left) E). done.
      * revert Hi. subst a1. unfold abs_record. rewrite E. simpl. apply Hza.
Qed.
End layout.

(** ** Histories *)
Section history.
Context {C : Coding} {EC : ErasureCode C} (K : Key → Prop).
Abbreviation cap := ec_chunkSize.
Abbreviation keys_of os := (key_of <$> os).

(** The objects of every data chunk once it is sealed. *)
Context (W : Z → Z → list obj).
Record workload_ok : Prop := {
  wl_fits : ∀ s c, zlen (objs_bytes cap (W s c)) ≤ cap;
  wl_range : ∀ s c, ¬ 0 ≤ c < ec_k → W s c = [];
  wl_obj : ∀ s c o, o ∈ W s c → obj_ok cap o ∧ K (key_of o);
  wl_nodup : ∀ s c, NoDup (keys_of (W s c));
  (** [set] takes the size of the whole value for the extent of an object that
      was sealed before it came. *)
  wl_extent : ∀ s c k p o, 0 ≤ c < ec_k → place 0 (W s c) k = Some (p, o) →
    c * cap + p + (KEY_VALUE_METADATA_SIZE + zlen (o_key o) + o_valueSize o) ≤ ec_k * cap;
  wl_apart : ∀ s c s' c' k, k ∈ keys_of (W s c) → k ∈ keys_of (W s' c') → s = s' ∧ c = c';
}.

(** The messages: the objects come from the server of their chunk, the seal
    requests list the objects of the chunk. *)
Definition from_workload (msg : message) : Prop :=
  match msg with
  | MSet o c => obj_ok cap o ∧ K (key_of o) ∧ 0 ≤ c < ec_k ∧
      ∀ s' c' o', o' ∈ W s' c' → key_of o' = key_of o → o' = o ∧ c' = c
  | MSeal s c recs => 0 ≤ s < 2 ^ 32 ∧ 0 ≤ c < ec_k ∧ recs = records_of 0 (W s c)
  | MUpdate s c offset delta => 0 ≤ s < 2 ^ 32 ∧ 0 ≤ c < ec_k ∧ 0 ≤ offset ∧ offset + zlen delta ≤ cap
  end.

Fixpoint sets (msgs : list message) : list obj :=
  match msgs with [] => [] | MSet o _ :: msgs => o :: sets msgs | _ :: msgs => sets msgs end.
Fixpoint seals (msgs : list message) : list (Z * Z) :=
  match msgs with [] => [] | MSeal s c _ :: msgs => (s, c) :: seals msgs | _ :: msgs => seals msgs end.
Fixpoint deltas (msgs : list message) (s c i : Z) : byte :=
  match msgs with
  | [] => x00
  | MUpdate s' c' offset delta :: msgs => bxor (if decide ((s', c') = (s, c)) then bytes_at offset delta i else x00) (deltas msgs s c i)
  | _ :: msgs => deltas msgs s c i
  end.

Lemma sets_app ms ms' : sets (ms ++ ms') = sets ms ++ sets ms'.
Proof. induction ms as [|[] ms IH]; simpl; [done|by rewrite IH|done..]. Qed.
Lemma seals_app ms ms' : seals (ms ++ ms') = seals ms ++ seals ms'.
Proof. induction ms as [|[] ms IH]; simpl; [done| |by rewrite IH|]; done. Qed.
Lemma deltas_app ms ms' s c i : deltas (ms ++ ms') s c i = bxor (deltas ms s c i) (deltas ms' s c i).
Proof.
  induction ms as [|[] ms IH]; simpl; [by rewrite (left_id x00 bxor)|done|done|].
  by rewrite IH, (assoc bxor).
Qed.

(** The data that the parity chunks stand for. *)
Definition arrived (ms : list message) (s c i : Z) : byte :=
  bxor (if decide ((s, c) ∈ seals ms) then chunk_of (keys_of (sets ms)) 0 (W s c) i else x00) (deltas ms s c i).

Lemma seals_from ms s c : (s, c) ∈ seals ms → Forall from_workload ms → 0 ≤ s < 2 ^ 32 ∧ 0 ≤ c < ec_k.
Proof.
  induction ms as [|[o' c'|s' c' r|s' c' p d] ms IH]; simpl; intros H Hall; [by apply elem_of_nil in H|apply Forall_cons in Hall as [Hm Hf]..]; auto.
  apply elem_of_cons in H as [[= -> ->]|H]; [|by auto]. destruct Hm as (? & ? & _). done.
Qed.

(** The abstract state after the messages [ms]. *)
Record history (ms : list message) (A : abs) : Prop := {
  h_keys : ∀ k o, a_keys A !! k = Some o ↔
    o ∈ sets ms ∧ key_of o = k ∧ ∀ s c, (s, c) ∈ seals ms → k ∉ keys_of (W s c);
  h_pending : ∀ k r, a_pending A !! k = Some r ↔
    ∃ s c p o, (s, c) ∈ seals ms ∧ place 0 (W s c) k = Some (p, o) ∧ k ∉ keys_of (sets ms) ∧ r = PRT_SEAL s p;
  h_data : ∀ s c i, a_data A s c i = arrived ms s c i;
}.

Record trace_ok (ms : list message) : Prop := {
  tr_from : Forall from_workload ms;
  tr_sets : NoDup (keys_of (sets ms));
  tr_seals : NoDup (seals ms);
}.

Lemma history_start : history [] (MkAbs ∅ ∅ (λ _ _ _, x00)).
Proof.
  split; simpl.
  - intros k o. rewrite lookup_empty. split; [done|]. intros (H & _). by apply elem_of_nil in H.
  - intros k r. rewrite lookup_empty. split; [done|]. intros (s & c & p & o & H & _). by apply elem_of_nil in H.
  - intros s c i. unfold arrived. by rewrite decide_False by apply not_elem_of_nil.
Qed.

(** ** One more message *)
Lemma trace_ok_app ms msg : trace_ok (ms ++ [msg]) → trace_ok ms ∧ from_workload msg.
Proof.
  intros [Hf Hs Hl]. apply Forall_app in Hf as [Hf Hm]. rewrite sets_app, fmap_app in Hs. rewrite seals_app in Hl.
  apply NoDup_app in Hs as [Hs _]. apply NoDup_app in Hl as [Hl _]. by inversion Hm.
Qed.

Lemma set_new ms o c : trace_ok (ms ++ [MSet o c]) → key_of o ∉ keys_of (sets ms).
Proof.
  intros [_ Hs _]. rewrite sets_app, fmap_app in Hs. apply NoDup_app in Hs as (_ & Hs & _). intros Hin.
  apply (Hs _ Hin). by left.
Qed.
Lemma seal_new ms s c recs : trace_ok (ms ++ [MSeal s c recs]) → (s, c) ∉ seals ms.
Proof.
  intros [_ _ Hs]. rewrite seals_app in Hs. apply NoDup_app in Hs as (_ & Hs & _). intros Hin. apply (Hs _ Hin). by left.
Qed.

Section step.
Context (HW : workload_ok).

(** An object comes: it waits, or it is added to its stripe. *)
Lemma history_set ms A o c :
  history ms A → trace_ok (ms ++ [MSet o c]) →
  fst (abs_set A o c) = true ∧ history (ms ++ [MSet o c]) (snd (abs_set A o c)).
Proof.
  intros Hh Htr. pose proof (set_new _ _ _ Htr) as Hnew. apply trace_ok_app in Htr as [Htr (Hobj & HKo & Hc & Hhome)].
  assert (Hsets : sets (ms ++ [MSet o c]) = sets ms ++ [o]) by by rewrite sets_app.
  assert (Hseals : seals (ms ++ [MSet o c]) = seals ms) by (rewrite seals_app; apply app_nil_r).
  assert (Hdel : ∀ s c' i, deltas (ms ++ [MSet o c]) s c' i = deltas ms s c' i) by (intros; rewrite deltas_app; apply (right_id x00 bxor)).
  assert (Harr : ∀ s c' i, arrived (ms ++ [MSet o c]) s c' i =
    bxor (arrived ms s c' i) (if decide ((s, c') ∈ seals ms) then
      match place 0 (W s c') (key_of o) with Some (p, o') => bytes_at p (obj_bytes cap o') i | None => x00 end else x00)).
  { intros s c' i. unfold arrived. rewrite Hseals, Hsets, Hdel, fmap_app. cbn [fmap list_fmap]. destruct (decide _) as [Hin|Hin].
    - rewrite chunk_of_more by (done || by apply HW). rewrite <- !(assoc bxor). f_equal. apply (comm bxor).
    - by rewrite (right_id x00 bxor). }
  unfold abs_set. destruct (a_pending A !! key_of o) as [r|] eqn:Er.
  - apply (h_pending _ _ Hh) in Er as (s & c' & p & o' & Hin & Hpl & _ & ->). split; [done|]. cbn [snd].
    destruct (place_Some _ _ _ _ _ Hpl) as (Ho' & Hk' & _). destruct (Hhome s c' o' Ho' Hk') as [-> ->]. split; cbn [a_keys a_pending a_data].
    + intros k o1. rewrite (h_keys _ _ Hh), Hsets, Hseals. rewrite elem_of_app, list_elem_of_singleton.
      split; [naive_solver|]. intros ([Hs| ->] & Hk & Hno); [naive_solver|]. exfalso. apply (Hno s c Hin). subst k.
      by apply list_elem_of_fmap_2.
    + intros k r. rewrite lookup_delete_Some, (h_pending _ _ Hh), Hseals, Hsets, fmap_app. cbn [fmap list_fmap].
      setoid_rewrite not_elem_of_app. setoid_rewrite list_elem_of_singleton. split.
      * intros [Hne (s1 & c1 & p1 & o1 & ? & ? & ? & ?)]. eauto 12.
      * intros (s1 & c1 & p1 & o1 & ? & ? & [? ?] & ?). split; [congruence|]. eauto 12.
    + intros s1 c1 i. rewrite Harr. unfold add_at, add_data, put.
      destruct (decide (s1 = s)) as [->|Hs]; [destruct (decide (c1 = c)) as [->|Hc1]|].
      * rewrite (h_data _ _ Hh), decide_True by done. by rewrite Hpl.
      * rewrite (h_data _ _ Hh). f_equal. destruct (decide _) as [Hin1|]; [|done]. destruct (place 0 (W s c1) (key_of o)) as [[p1 o1]|] eqn:E; [|done].
        destruct (place_Some _ _ _ _ _ E) as (Ho1 & Hk1 & _). by destruct (Hhome s c1 o1 Ho1 Hk1).
      * rewrite (h_data _ _ Hh). destruct (decide _) as [Hin1|]; [|by rewrite (right_id x00 bxor)].
        destruct (place 0 (W s1 c1) (key_of o)) as [[p1 o1]|] eqn:E; [|by rewrite (right_id x00 bxor)].
        destruct (place_Some _ _ _ _ _ E) as (Ho1 & Hk1 & _). exfalso. apply Hs.
        eapply (wl_apart HW s1 c1 s c (key_of o)); [rewrite <- Hk1; by apply list_elem_of_fmap_2|by apply list_elem_of_fmap_2].
  - assert (Hks : a_keys A !! key_of o = None).
    { destruct (a_keys A !! key_of o) as [o1|] eqn:E; [|done]. apply (h_keys _ _ Hh) in E as (Hin & Hk & _).
      exfalso. apply Hnew. rewrite <- Hk. by apply list_elem_of_fmap_2. }
    assert (Hout : ∀ s c', (s, c') ∈ seals ms → place 0 (W s c') (key_of o) = None).
    { intros s c' Hin. destruct (place 0 (W s c') (key_of o)) as [[p o']|] eqn:E; [|done].
      assert (Hx : a_pending A !! key_of o = Some (PRT_SEAL s p)) by (apply (h_pending _ _ Hh); eauto 12). congruence. }
    rewrite Hks. split; [done|]. split; cbn [snd a_keys a_pending a_data].
    + intros k o1. rewrite Hsets, Hseals, elem_of_app, list_elem_of_singleton. rewrite lookup_insert_Some, (h_keys _ _ Hh). split.
      * intros [[<- <-]|[Hne (? & ? & ?)]]; [|naive_solver]. split; [by right|]. split; [done|]. intros s c' Hin.
        by apply (place_None 0), Hout.
      * intros ([Hs| ->] & Hk & Hno); [|by left]. right. split; [|done]. intros <-. apply Hnew. rewrite <- Hk. by apply list_elem_of_fmap_2.
    + intros k r. rewrite (h_pending _ _ Hh), Hseals, Hsets, fmap_app. cbn [fmap list_fmap].
      setoid_rewrite not_elem_of_app. setoid_rewrite list_elem_of_singleton. split.
      * intros (s1 & c1 & p1 & o1 & Hin & Hpl & ? & ?). exists s1, c1, p1, o1. split_and!; try done. intros ->. by rewrite Hout in Hpl.
      * intros (s1 & c1 & p1 & o1 & ? & ? & [? ?] & ?). eauto 12.
    + intros s1 c1 i. rewrite Harr, (h_data _ _ Hh). destruct (decide _) as [Hin|]; [rewrite Hout by done|]; by rewrite (right_id x00 bxor).
Qed.

(** A seal request comes: the objects of the chunk that wait are added. *)
Lemma sets_from ms o : o ∈ sets ms → ∃ c, MSet o c ∈ ms.
Proof.
  induction ms as [|[o' c'|s c r|s c p d] ms IH]; simpl; intros H.
  - by apply elem_of_nil in H.
  - apply elem_of_cons in H as [->|H]; [exists c'; by left|]. destruct (IH H) as [c ?]. exists c. by right.
  - destruct (IH H) as [c' ?]. exists c'. by right.
  - destruct (IH H) as [c' ?]. exists c'. by right.
Qed.

Lemma seal_progress ms A s c recs :
  history ms A → trace_ok (ms ++ [MSeal s c recs]) →
  let a := abs_records s A recs in
  p_ret a = true ∧
  (∀ k, p_keys a !! k = if decide (k ∈ keys_of (W s c)) then None else a_keys A !! k) ∧
  (∀ k, p_pending a !! k =
     match place 0 (W s c) k with
     | Some (p, _) => if decide (k ∈ keys_of (sets ms)) then None else Some (PRT_SEAL s p)
     | None => a_pending A !! k
     end) ∧
  (∀ i, p_data a i = chunk_of (keys_of (sets ms)) 0 (W s c) i) ∧
  0 ≤ p_pos a ≤ cap ∧ (∀ i, p_pos a ≤ i → p_data a i = x00).
Proof.
  intros Hh Htr a. pose proof (seal_new _ _ _ _ Htr) as Hnew. apply trace_ok_app in Htr as [[Htr _ _] (Hs & Hc & ->)].
  assert (Hw : ∀ o, o ∈ W s c → ∀ s1 c1, (s1, c1) ∈ seals ms → key_of o ∉ keys_of (W s1 c1)).
  { intros o Ho s1 c1 Hin Hk. apply Hnew. destruct (wl_apart HW s c s1 c1 (key_of o)) as [-> ->]; [by apply list_elem_of_fmap_2|done|done]. }
  assert (Hks : ∀ o, o ∈ W s c → key_of o ∈ keys_of (sets ms) ↔ is_Some (a_keys A !! key_of o)).
  { intros o Ho. split.
    - intros (o' & Hk & Ho')%list_elem_of_fmap. exists o'. apply (h_keys _ _ Hh). split; [done|]. split; [done|]. by apply Hw.
    - intros [o' (Ho' & Hk & _)%(h_keys _ _ Hh)]. rewrite <- Hk. by apply list_elem_of_fmap_2. }
  destruct (layout_seal s (W s c) 0 (MkProgress true (a_keys A) (a_pending A) (λ _, x00) 0) (keys_of (sets ms)))
    as (R & Ks & Ps & Ds & Pos & Zs); simpl in *; try done.
  - by apply HW.
  - intros o o' Ho (Ho' & Hk & _)%(h_keys _ _ Hh). apply sets_from in Ho' as [c' Ho'].
    rewrite Forall_forall in Htr. destruct (Htr _ Ho') as (_ & _ & _ & Hhome). symmetry. by eapply Hhome.
  - intros o Ho. destruct (a_pending A !! key_of o) as [r|] eqn:E; [|done].
    apply (h_pending _ _ Hh) in E as (s1 & c1 & p1 & o1 & Hin & Hpl & _). exfalso. apply (Hw o Ho s1 c1 Hin).
    apply place_Some in Hpl as (Ho1 & <- & _). by apply list_elem_of_fmap_2.
  - split; [done|]. split; [done|]. split; [|split; [|split]].
    + intros k. unfold a, abs_records. rewrite Ps. destruct (place 0 (W s c) k) as [[p o]|] eqn:E; [|done].
      apply place_Some in E as (Ho & <- & _). pose proof (Hks o Ho) as Hko. destruct (a_keys A !! key_of o) eqn:Eo.
      * rewrite decide_True; [done|]. apply Hko. by eexists.
      * rewrite decide_False; [done|]. intros Hin. apply Hko in Hin as [? ?]. done.
    + intros i. unfold a, abs_records. rewrite Ds. apply (left_id x00 bxor).
    + pose proof (wl_fits HW s c). pose proof ec_sizes. unfold a, abs_records. lia.
    + by apply Zs.
Qed.

Lemma history_seal ms A s c recs :
  history ms A → trace_ok (ms ++ [MSeal s c recs]) →
  fst (abs_seal A s c recs) = true ∧ history (ms ++ [MSeal s c recs]) (snd (abs_seal A s c recs)).
Proof.
  intros Hh Htr. pose proof (seal_new _ _ _ _ Htr) as Hnew. destruct (seal_progress _ _ _ _ _ Hh Htr) as (R & Ks & Ps & Ds & _).
  assert (Hsets : sets (ms ++ [MSeal s c recs]) = sets ms) by (rewrite sets_app; apply app_nil_r).
  assert (Hseals : seals (ms ++ [MSeal s c recs]) = seals ms ++ [(s, c)]) by by rewrite seals_app.
  unfold abs_seal. split; [done|]. split; cbn [snd a_keys a_pending a_data].
  - intros k o. rewrite Ks, Hsets, Hseals. setoid_rewrite elem_of_app. setoid_rewrite list_elem_of_singleton.
    destruct (decide _) as [Hk|Hk].
    + split; [done|]. intros (_ & _ & Hno). exfalso. by apply (Hno s c); [right|].
    + rewrite (h_keys _ _ Hh). split; [|intros (? & ? & Hno); split_and!; auto]. intros (? & ? & Hno). split_and!; [done|done|]. intros s1 c1 [Hin|[= -> ->]]; [|done].
      by apply Hno.
  - intros k r. rewrite Ps, Hsets, Hseals. setoid_rewrite elem_of_app. setoid_rewrite list_elem_of_singleton.
    destruct (place 0 (W s c) k) as [[p o]|] eqn:Epl.
    + assert (Huniq : ∀ s1 c1 p1 o1, place 0 (W s1 c1) k = Some (p1, o1) → s1 = s ∧ c1 = c).
      { intros s1 c1 p1 o1 Hpl. apply place_Some in Hpl as (Ho1 & Hk1 & _). apply place_Some in Epl as (Ho & Hk & _).
        eapply (wl_apart HW s1 c1 s c k); [rewrite <- Hk1|rewrite <- Hk]; by apply list_elem_of_fmap_2. }
      destruct (decide _) as [Hk|Hk]; [split; [done|by intros (? & ? & ? & ? & _ & _ & Hno & _)]|]. split.
      * intros [= <-]. exists s, c, p, o. split_and!; try done. by right.
      * intros (s1 & c1 & p1 & o1 & _ & Hpl & _ & ->). destruct (Huniq _ _ _ _ Hpl) as [-> ->]. congruence.
    + rewrite (h_pending _ _ Hh). split; [intros (s1 & c1 & p1 & o1 & ? & ? & ? & ?); eauto 12|]. intros (s1 & c1 & p1 & o1 & [Hin|[= -> ->]] & Hpl & ? & ?); [eauto 12|congruence].
  - intros s1 c1 i. unfold add_at, arrived. rewrite Hseals, Hsets, deltas_app. cbn [deltas]. rewrite (right_id x00 bxor).
    destruct (decide ((s1, c1) = (s, c))) as [[= -> ->]|Hne].
    + rewrite decide_True by done. unfold add_data, put. rewrite (h_data _ _ Hh). unfold arrived.
      rewrite (decide_False (P := (s, c) ∈ seals ms)) by done. rewrite (decide_True (P := c = c)) by done. rewrite (decide_True (P := (s, c) ∈ seals ms ++ [(s, c)])) by set_solver. rewrite Ds, (left_id x00 bxor). apply (comm bxor).
    + assert (Hd : (if decide (s1 = s) then add_data (a_data A s) (put c (p_data (abs_records s A recs))) else a_data A s1) c1 i = a_data A s1 c1 i).
      { destruct (decide (s1 = s)) as [->|]; [|done]. unfold add_data, put. rewrite decide_False by congruence. apply (right_id x00 bxor). }
      rewrite Hd, (h_data _ _ Hh). unfold arrived. f_equal.
      destruct (decide ((s1, c1) ∈ seals ms)) as [Hin|Hin]; [by rewrite decide_True by set_solver|]. rewrite decide_False; [done|]. set_solver.
Qed.

(** A delta of a sealed chunk comes. *)
Lemma history_update ms A s c offset delta :
  history ms A → history (ms ++ [MUpdate s c offset delta]) (abs_update A s c offset delta).
Proof.
  intros Hh. assert (Hsets : sets (ms ++ [MUpdate s c offset delta]) = sets ms) by (rewrite sets_app; apply app_nil_r).
  assert (Hseals : seals (ms ++ [MUpdate s c offset delta]) = seals ms) by (rewrite seals_app; apply app_nil_r).
  unfold abs_update. split; cbn [with_data a_keys a_pending a_data].
  - intros. rewrite Hsets, Hseals. apply Hh.
  - intros. rewrite Hsets, Hseals. apply Hh.
  - intros s1 c1 i. unfold arrived. rewrite Hsets, Hseals, deltas_app. cbn [deltas]. rewrite (right_id x00 bxor).
    pose proof (h_data _ _ Hh s1 c1 i) as Hd. unfold arrived in Hd. unfold add_at, add_data, put.
    rewrite (assoc bxor), <- Hd. destruct (decide (s1 = s)) as [->|Hs]; [destruct (decide (c1 = c)) as [->|Hc]|].
    + by rewrite decide_True.
    + by rewrite decide_False by congruence.
    + rewrite decide_False by congruence. by rewrite (right_id x00 bxor).
Qed.

(** Every sequence of messages has its history. *)
Lemma history_step ms msg A :
  history ms A → trace_ok (ms ++ [msg]) → fst (abs_deliver A msg) = true ∧ history (ms ++ [msg]) (snd (abs_deliver A msg)).
Proof.
  destruct msg; [apply history_set|apply history_seal|]. intros Hh _. split; [done|]. by apply history_update.
Qed.
End step.

(** ** The program *)

(** The stripes that the messages are about. *)
Definition stripes (ms : list message) : gset Z :=
  ⋃ ((λ msg, match msg with MSet _ _ => ∅ | MSeal s _ _ | MUpdate s _ _ _ => {[ s ]} end) <$> ms).

(** The pool has a chunk for every stripe of [X]. *)
Definition capacity_ok (X : gset Z) (sh : Shared) (b : ParityChunkBuffer) : Prop :=
  dom (chunks b) ⊆ X ∧
  ChunkPool.count (s_pool sh) - Z.of_nat (base.size (dom (chunks b))) + Z.of_nat (base.size X) ≤ ChunkPool.total (s_pool sh).

Lemma capacity_step X Y sh b sh' b' : capacity_ok X sh b → pool_step Y sh b sh' b' → Y ⊆ X → capacity_ok X sh' b'.
Proof. intros [Hd Hc] (_ & _ & Ht & Hn & _ & Hu) Hy. split; [set_solver|lia]. Qed.

Lemma capacity_room X sh b s : capacity_ok X sh b → s ∈ X → room sh b s.
Proof.
  intros [Hd Hc] Hs Hn. apply not_elem_of_dom in Hn.
  assert (Hsub : {[ s ]} ∪ dom (chunks b) ⊆ X) by set_solver. apply subseteq_size in Hsub.
  rewrite size_union, size_singleton in Hsub by set_solver. lia.
Qed.

Lemma seals_stripes ms s c : (s, c) ∈ seals ms → s ∈ stripes ms.
Proof.
  unfold stripes. induction ms as [|[o' c'|s' c' r|s' c' p d] ms IH]; simpl; intros H; set_solver.
Qed.
Lemma stripes_elem ms msg s :
  msg ∈ ms → (match msg with MSet _ _ => False | MSeal s' _ _ | MUpdate s' _ _ _ => s = s' end) → s ∈ stripes ms.
Proof.
  intros Hin Hs. unfold stripes. induction ms as [|msg' ms IH]; [by apply elem_of_nil in Hin|]. simpl.
  apply elem_of_cons in Hin as [<-|Hin]; [|set_solver]. destruct msg; set_solver.
Qed.

(** The extent that [set] takes is not too small; for a small object it is right. *)
Lemma extent_ge o : obj_ok cap o → obj_size cap o ≤ KEY_VALUE_METADATA_SIZE + zlen (o_key o) + o_valueSize o.
Proof.
  intros Ho. pose proof (ChunkUtil.obj_size_bounds cap o Ho) as Hb. destruct Ho as [(_ & _ & Hv & _) _]. rewrite (obj_size_eq o) in *.
  unfold KeyValue.payload_len in Hv. unfold KEY_VALUE_METADATA_SIZE. destruct (KeyValue.is_large cap (zlen (o_key o)) (o_valueSize o)) eqn:E; [|lia].
  unfold KeyValue.is_large in E. apply bool_decide_eq_true in E. lia.
Qed.

(** A message of the workload is fit for delivery. *)
Lemma records_keys pos os k p : (k, p) ∈ records_of pos os → ∃ o, o ∈ os ∧ key_of o = k ∧ pos ≤ p ∧ p + obj_size cap o ≤ pos + zlen (objs_bytes cap os).
Proof.
  revert pos. induction os as [|o os IH]; intros pos H; simpl in H; [by apply elem_of_nil in H|].
  rewrite zlen_objs_cons. pose proof (zlen_nonneg (objs_bytes cap os)). assert (0 ≤ obj_size cap o) by apply zlen_nonneg.
  apply elem_of_cons in H as [[= -> ->]|H].
  - exists o. split; [by left|]. split; [done|]. lia.
  - destruct (IH _ H) as (o' & ? & ? & ? & ?). exists o'. split; [by right|]. split; [done|]. lia.
Qed.

Lemma workload_message_ok ms msg A sh b X :
  cap < 2 ^ 32 → workload_ok → history ms A → trace_ok (ms ++ [msg]) → capacity_ok X sh b → stripes (ms ++ [msg]) ⊆ X →
  message_ok K sh b A msg ∧ message_stripes A msg ⊆ X.
Proof.
  intros Hc32 HW Hh Htr Hcap HX. pose proof Htr as Htr'. apply trace_ok_app in Htr' as [Htr' Hfrom]. pose proof ec_sizes as Hec.
  assert (Hst : ∀ s c, (s, c) ∈ seals ms → s ∈ X).
  { intros s c Hin. apply HX. eapply seals_stripes. rewrite seals_app. apply elem_of_app. by left. }
  assert (Hmsg : ∀ s, (match msg with MSet _ _ => False | MSeal s' _ _ | MUpdate s' _ _ _ => s = s' end) → s ∈ X).
  { intros s Hs. apply HX. eapply stripes_elem; [|exact Hs]. apply elem_of_app. right. by left. }
  destruct msg as [o c|s c recs|s c offset delta]; cbn [message_ok message_stripes from_workload] in *.
  - destruct Hfrom as (Ho & HKo & Hc & Hhome). unfold place_ok, set_stripes.
    destruct (a_pending A !! key_of o) as [r|] eqn:Er; [|done].
    apply (h_pending _ _ Hh) in Er as (s & c' & p & o' & Hin & Hpl & _ & ->).
    destruct (place_Some _ _ _ _ _ Hpl) as (Ho' & Hk' & Hp0 & Hpe). destruct (Hhome s c' o' Ho' Hk') as [-> ->].
    pose proof (wl_fits HW s c). pose proof (wl_extent HW s c _ p o Hc Hpl) as He2. pose proof (extent_ge o Ho) as He1. pose proof (Hst s c Hin) as HsX.
    assert (Hs : 0 ≤ s < 2 ^ 32).
    { apply seals_from with (c := c) in Hin; [by destruct Hin|by destruct Htr']. }
    split; [|set_solver]. split; [done|]. split; [done|]. split; [done|]. split; [done|]. split; [by eapply capacity_room|]. lia.
  - destruct Hfrom as (Hs & Hc & ->). assert (HsX : s ∈ X) by by apply Hmsg.
    destruct (seal_progress HW _ _ _ _ _ Hh Htr) as (_ & _ & _ & Ds & Pos & Zs). split; [|set_solver].
    split; [done|]. split; [done|]. split; [by eapply capacity_room|]. split; [|split; [done|split; [done|]]].
    + intros k p Hin. apply records_keys in Hin as (o & Ho & <- & Hp0 & Hpe). destruct (wl_obj HW s c o Ho) as [Hobj HKo].
      pose proof (wl_fits HW s c). assert (0 ≤ obj_size cap o) by apply zlen_nonneg.
      split; [done|]. split; [by apply (key_of_wf (λ _ _, x00))|]. split; [lia|]. intros o' (Ho' & Hk & _)%(h_keys _ _ Hh).
      apply sets_from in Ho' as [c' Ho']. destruct Htr' as [Hf _ _]. rewrite Forall_forall in Hf.
      destruct (Hf _ Ho') as (_ & _ & _ & Hhome). destruct (Hhome s c o Ho) as [-> _]; [done|]. lia.
    + intros i Hi. rewrite Ds. apply chunk_of_out. lia.
  - destruct Hfrom as (Hs & Hc & Hp & Hpe). assert (HsX : s ∈ X) by by apply Hmsg.
    split; [|set_solver]. split_and!; try done; try lia. by eapply capacity_room.
Qed.
End history.

Section run.
Context {C : Coding} {EC : ErasureCode C} (zeros : ptr) (junk : nat → Z → byte) (rand : nat → Z).
Context (K : Key → Prop) (HK : discriminated K) (W : Z → Z → list obj) (HW : workload_ok K W).
Abbreviation cap := ec_chunkSize.

Lemma deliver_all_spec rest : ∀ ms A sh b start rb rn dc pc ret X,
  history W ms A → inv zeros K sh b start A → ready zeros sh b start rb rn dc pc →
  capacity_ok X sh b → stripes (ms ++ rest) ⊆ X → trace_ok K W (ms ++ rest) →
  Forall (λ msg, zlen (message_bytes msg) ≤ rn) rest → (∀ s c, (s, c) ∈ seals ms → s ∈ dom (chunks b)) →
  ∃ b' sh' A', deliver_all zeros junk rand rb dc pc ret b sh rest = Some (ret, b', sh') ∧
    inv zeros K sh' b' start A' ∧ history W (ms ++ rest) A' ∧ chunkId b' = chunkId b ∧
    (∀ s c, (s, c) ∈ seals (ms ++ rest) → s ∈ dom (chunks b')).
Proof.
  induction rest as [|msg rest IH]; intros ms A sh b start rb rn dc pc ret X Hh Hinv Hrd Hcap HX Htr Hn Hdom.
  { rewrite app_nil_r in *. exists b, sh, A. done. }
  apply Forall_cons in Hn as [Hn1 Hn]. rewrite cons_middle, app_assoc in HX, Htr |- *.
  assert (Htr1 : trace_ok K W (ms ++ [msg])).
  { destruct Htr as [Hf Hs Hl]. rewrite sets_app, fmap_app in Hs. rewrite seals_app in Hl. apply Forall_app in Hf as [Hf _].
    apply NoDup_app in Hs as [Hs _]. apply NoDup_app in Hl as [Hl _]. done. }
  assert (HX1 : stripes (ms ++ [msg]) ⊆ X).
  { etrans; [|exact HX]. unfold stripes. rewrite (fmap_app _ (ms ++ [msg])), union_list_app. set_solver. }
  pose proof (inv_sizes _ _ _ _ _ _ Hinv) as ([_ Hc31] & _).
  destruct (workload_message_ok K W ms msg A sh b X) as [Hok Hst]; [lia|done..|].
  destruct (history_step K W HW ms msg A Hh Htr1) as [Hret Hh1].
  destruct (deliver_spec zeros junk rand K HK sh b start A rb rn dc pc msg Hinv Hrd Hok Hn1) as (b1 & sh1 & E1 & Hinv1 & Hrd1 & Hp1 & Hd1).
  cbn [deliver_all]. rewrite E1. cbn [mbind option_bind]. rewrite Hret, andb_true_r.
  destruct (IH (ms ++ [msg]) _ sh1 b1 start rb rn dc pc ret X Hh1 Hinv1 Hrd1) as (b2 & sh2 & A2 & E2 & Hinv2 & Hh2 & Hc2 & Hd2); try done.
  - by eapply capacity_step.
  - intros s c Hin. rewrite seals_app in Hin. destruct Hp1 as (_ & _ & _ & _ & Hsub & _). apply elem_of_app in Hin as [Hin|Hin].
    + apply Hsub. by eapply Hdom.
    + destruct msg as [|s' c' r|]; simpl in Hin; [by apply elem_of_nil in Hin| |by apply elem_of_nil in Hin].
      apply list_elem_of_singleton in Hin as [= -> ->]. done.
  - exists b2, sh2, A2. rewrite E2. destruct Hp1 as (_ & Hc1 & _). split_and!; try done. congruence.
Qed.

(** The data of a complete stripe: the objects of its chunks, with their deltas. *)
Definition stripe_data (ms : list message) (s c i : Z) : byte :=
  bxor (bytes_at 0 (objs_bytes cap (W s c)) i) (deltas ms s c i).

Definition complete (ms : list message) (s : Z) : Prop :=
  ∀ c, 0 ≤ c < ec_k → (s, c) ∈ seals ms ∧ ∀ o, o ∈ W s c → o ∈ sets ms.

Lemma complete_data ms s c i : trace_ok K W ms → complete ms s → arrived W ms s c i = stripe_data ms s c i.
Proof.
  intros [Hf _ _] Hs. unfold arrived, stripe_data. f_equal. destruct (decide (0 ≤ c < ec_k)) as [Hc|Hc].
  - destruct (Hs c Hc) as [Hin Hall]. rewrite decide_True by done. apply chunk_of_all. intros o Ho.
    apply list_elem_of_fmap_2. by apply Hall.
  - rewrite (wl_range _ _ HW s c Hc). rewrite bytes_at_out by (change (zlen (objs_bytes cap [])) with 0; lia). by destruct (decide _).
Qed.
End run.

(** A new buffer. *)
Lemma init_inv {C : Coding} {EC : ErasureCode C} (zeros : ptr) (K : Key → Prop) m pool start power cp1 cp2 l c :
  chunk_sizes ec_chunkSize → ec_k * ec_chunkSize < 2 ^ 32 → ec_k + ec_m ≤ 256 → 0 ≤ l < 2 ^ 8 → 1 ≤ c - ec_k + 1 ≤ ec_m →
  ChunkPool.pool_ok ec_chunkSize pool m start → chunk_is ec_chunkSize m zeros (λ _, x00) → blk zeros ≠ blk start →
  1 ≤ power ≤ 30 → zlen cp2 = CuckooHash.MAX_CUCKOO_COUNT →
  inv zeros K (MkShared m pool (ServerMap.Map_new power cp1 cp2)) (MkBuffer l c ∅ [] []) start (MkAbs ∅ ∅ (λ _ _ _, x00)).
Proof.
  intros Hsz Hk Hkm Hl Hc Hpool Hz Hzb Hp Hcp. constructor; simpl; try done.
  - exists ∅. split; [by apply ServerMap.init_chunk_table|]. done.
  - exists ∅. split; [apply holds_empty|]. done.
  - apply holds_empty.
Qed.

(** C1: A parity server that gets the objects of the data chunks, the seal
    requests that list them and the deltas of sealed chunks, each once and in any
    order, handles every message successfully, and as soon as all data chunks of
    a stripe are sealed and their objects are there, its parity chunk of the
    stripe is the parity of the data servers' chunks. *)
Theorem parity_order {C : Coding} {EC : ErasureCode C} (zeros : ptr) (junk : nat → Z → byte) (rand : nat → Z)
    (K : Key → Prop) (W : Z → Z → list obj) (sh : Shared) (b : ParityChunkBuffer) (start rb : ptr) (rn : Z) (dc pc : ptr)
    (msgs : list message) :
  discriminated K → workload_ok K W → trace_ok K W msgs →
  inv zeros K sh b start (MkAbs ∅ ∅ (λ _ _ _, x00)) → ready zeros sh b start rb rn dc pc → chunks b = ∅ →
  ChunkPool.count (s_pool sh) + Z.of_nat (base.size (stripes msgs)) ≤ ChunkPool.total (s_pool sh) →
  Forall (λ msg, zlen (message_bytes msg) ≤ rn) msgs →
  ∃ b' sh', deliver_all zeros junk rand rb dc pc true b sh msgs = Some (true, b', sh') ∧
    ∀ s, complete W msgs s → ∃ w, chunks b' !! s = Some w ∧
      chunk_is ec_chunkSize (s_mem sh') (w_chunk w) (ec_parity (index b) (stripe_data W msgs s)).
Proof.
  intros HK HW Htr Hinv Hrd Hch Hcap Hn.
  destruct (deliver_all_spec zeros junk rand K HK W HW msgs [] (MkAbs ∅ ∅ (λ _ _ _, x00)) sh b start rb rn dc pc true (stripes msgs))
    as (b' & sh' & A' & E & Hinv' & Hh & Hci & Hdom); try done.
  - by apply history_start.
  - split; rewrite Hch, dom_empty_L; [set_solver|]. rewrite size_empty. lia.
  - intros s c Hin. by apply elem_of_nil in Hin.
  - exists b', sh'. split; [done|]. intros s Hs. pose proof ec_sizes as Hec.
    destruct (Hs 0 ltac:(lia)) as [Hin _]. apply Hdom in Hin. apply elem_of_dom in Hin as [w Hw]. exists w. split; [done|].
    destruct (inv_chunks _ _ _ _ _ _ Hinv' s w Hw) as (i & _ & _ & _ & Hc). assert (Hix : index b' = index b) by (unfold index; by rewrite Hci).
    rewrite Hix in Hc. eapply region_is_ext; [|exact Hc]. intros t Ht. apply ec_ext. intros c' i'.
    rewrite (h_data _ _ _ Hh). by apply (complete_data junk K W HW).
Qed.

(** A stripe of two data chunks, coded with RAID-5: one chunk is sealed before its
    object arrives, the object of the other comes before the seal, a delta last. *)
Definition ex_o1 : obj := Obj 1 0 [z2b 97] [z2b 1].
Definition ex_o2 : obj := Obj 2 0 [z2b 98] [z2b 7; z2b 9].
Definition ex_W (s c : Z) : list obj :=
  if decide (s = 0) then (if decide (c = 0) then [ex_o1] else if decide (c = 1) then [ex_o2] else []) else [].
#[local] Instance ex_code : ErasureCode (RAID5Coding.raid5 3 16) := RAID5Coding.raid5_code 3 16 ltac:(lia) ltac:(lia).
Definition ex_k1 : Key := Key.MkKey 1 [z2b 97] false.
Definition ex_k2 : Key := Key.MkKey 1 [z2b 98] false.
Definition ex_msgs : list message :=
  [MSeal 0 0 [(ex_k1, 0)]; MSet ex_o2 1; MSeal 0 1 [(ex_k2, 0)]; MSet ex_o1 0; MUpdate 0 1 5 [z2b 255]].
Definition ex_m : mem := <[1%nat := replicate 24 x00]> (<[2%nat := replicate 24 x00]> (<[3%nat := replicate 24 x00]>
  (<[4%nat := replicate 24 x00]> (<[5%nat := replicate 32 x00]> ∅)))).
Definition ex_pool : ChunkPool.ChunkPool := ChunkPool.MkPool 1 0 (Some (Ptr 2 0)).

Lemma ex_objs : (obj_ok 16 ex_o1 ∧ plain (key_of (C := RAID5Coding.raid5 3 16) ex_o1)) ∧ (obj_ok 16 ex_o2 ∧ plain (key_of (C := RAID5Coding.raid5 3 16) ex_o2)).
Proof.
  repeat split; try (intros H; vm_compute in H; discriminate H); unfold Key.nul_free; cbn; rewrite not_elem_of_cons, ?elem_of_nil; (split; [done|intros []]).
Qed.

Lemma ex_workload : workload_ok (C := RAID5Coding.raid5 3 16) plain ex_W.
Proof.
  assert (Hcase : ∀ s c, ex_W s c = [] ∨ s = 0 ∧ (c = 0 ∧ ex_W s c = [ex_o1] ∨ c = 1 ∧ ex_W s c = [ex_o2])).
  { intros s c. unfold ex_W. destruct (decide (s = 0)); [|by left]. destruct (decide (c = 0)); [right; split; [done|by left]|].
    destruct (decide (c = 1)); [right; split; [done|by right]|by left]. }
  split.
  - intros s c. destruct (Hcase s c) as [->|(-> & [(-> & ->)|(-> & ->)])]; done.
  - intros s c Hc. destruct (Hcase s c) as [->|(-> & [(-> & ->)|(-> & ->)])]; [done|..]; exfalso; apply Hc; simpl; lia.
  - intros s c o. destruct (Hcase s c) as [->|(-> & [(-> & ->)|(-> & ->)])]; [by intros ?%elem_of_nil|..]; intros ->%list_elem_of_singleton.
    + apply ex_objs.
    + apply ex_objs.
  - intros s c. destruct (Hcase s c) as [->|(-> & [(-> & ->)|(-> & ->)])]; [apply NoDup_nil_2|apply NoDup_singleton..].
  - intros s c k p o Hc. destruct (Hcase s c) as [->|(-> & [(-> & ->)|(-> & ->)])]; [done|..]; cbn [place]; destruct (decide _); intros [= <- <-]; vm_compute; done.
  - intros s c s' c' k. destruct (Hcase s c) as [->|(-> & [(-> & ->)|(-> & ->)])], (Hcase s' c') as [->|(-> & [(-> & ->)|(-> & ->)])];
      cbn [fmap list_fmap]; rewrite ?list_elem_of_singleton, ?elem_of_nil; try done; intros -> H; exfalso; vm_compute in H; discriminate.
Qed.

Definition ex_cp : list CuckooHash.cp_entry := replicate 500 (CuckooHash.CP 0 0 None).
Definition ex_sh : Shared := MkShared ex_m ex_pool (ServerMap.Map_new 1 ex_cp ex_cp).
Definition ex_b : ParityChunkBuffer := MkBuffer 0 2 ∅ [] [].

Lemma ex_block (x : nat) (n : nat) : (x = 1 ∨ x = 2 ∨ x = 3 ∨ x = 4)%nat ∧ n = 24%nat ∨ x = 5%nat ∧ n = 32%nat →
  valid ex_m (Ptr x 0) (Z.of_nat n) ∧ ∀ i, 0 ≤ i < Z.of_nat n → mget ex_m (Ptr x i) = Some x00.
Proof.
  intros Hx. assert (E : ex_m !! x = Some (replicate n x00)) by (destruct Hx as [[[->|[->|[->| ->]]] ->]|[-> ->]]; reflexivity).
  split.
  - split; [lia|]. exists (replicate n x00). split; [done|]. unfold zlen. rewrite length_replicate. simpl. lia.
  - intros i Hi. unfold mget. simpl. rewrite E. cbn [mbind option_bind]. unfold zget. rewrite decide_True by lia.
    apply lookup_replicate. split; [done|lia].
Qed.

Lemma ex_scratch (x : nat) : (x = 3 ∨ x = 4)%nat → scratch (C := RAID5Coding.raid5 3 16) (Ptr 1 0) ex_sh ex_b (Ptr 2 0) (Ptr x 0).
Proof.
  intros Hx. split.
  - apply (ex_block x 24). left. split; [|done]. by destruct Hx as [->| ->]; auto.
  - intros [H|[H|(p & H & _)]]; simpl in H; [lia..|by apply elem_of_nil in H].
Qed.

Lemma ex_trace : trace_ok (C := RAID5Coding.raid5 3 16) plain ex_W ex_msgs.
Proof.
  pose proof ex_objs as ((Ho1 & Hk1) & (Ho2 & Hk2)).
  assert (Hhome : ∀ o c, (o = ex_o1 ∧ c = 0 ∨ o = ex_o2 ∧ c = 1) → ∀ s' c' o', o' ∈ ex_W s' c' → key_of (C := RAID5Coding.raid5 3 16) o' = key_of (C := RAID5Coding.raid5 3 16) o → o' = o ∧ c' = c).
  { intros o c Hoc s' c' o'. unfold ex_W. destruct (decide (s' = 0)); [|by intros ?%elem_of_nil].
    destruct (decide (c' = 0)) as [->|]; [|destruct (decide (c' = 1)) as [->|]; [|by intros ?%elem_of_nil]]; intros ->%list_elem_of_singleton;
      destruct Hoc as [[-> ->]|[-> ->]]; intros H; try done; vm_compute in H; discriminate. }
  split.
  - repeat (apply Forall_cons; split); [..|by apply Forall_nil]; cbn [from_workload].
    + split_and!; [lia|lia|simpl; lia|simpl; lia|reflexivity].
    + split; [exact Ho2|]. split; [exact Hk2|]. split; [simpl; lia|]. apply Hhome. by right.
    + split_and!; [lia|lia|simpl; lia|simpl; lia|reflexivity].
    + split; [exact Ho1|]. split; [exact Hk1|]. split; [simpl; lia|]. apply Hhome. by left.
    + split_and!; simpl; try lia. vm_compute. congruence.
  - cbn. repeat (apply NoDup_cons; split); [..|apply NoDup_nil_2]; rewrite ?list_elem_of_singleton, ?elem_of_nil; [|by intros []]. intros H; vm_compute in H; discriminate.
  - cbn. repeat (apply NoDup_cons; split); [..|apply NoDup_nil_2]; rewrite ?list_elem_of_singleton, ?elem_of_nil; [|by intros []]. congruence.
Qed.

Lemma parity_order_witness :
  ∃ b' sh' w, deliver_all (C := RAID5Coding.raid5 3 16) (Ptr 1 0) (λ _ _, x00) (λ _, 0) (Ptr 5 0) (Ptr 3 0) (Ptr 4 0) true ex_b ex_sh ex_msgs
      = Some (true, b', sh') ∧
    chunks b' !! 0 = Some w ∧ chunk_is 16 (s_mem sh') (w_chunk w) (RAID5Coding.row_parity 2 (stripe_data (C := RAID5Coding.raid5 3 16) ex_W ex_msgs 0)).
Proof.
  destruct (parity_order (C := RAID5Coding.raid5 3 16) (Ptr 1 0) (λ _ _, x00) (λ _, 0) plain ex_W ex_sh ex_b (Ptr 2 0) (Ptr 5 0) 32 (Ptr 3 0) (Ptr 4 0) ex_msgs)
    as (b' & sh' & E & Hs).
  - exact plain_discriminated.
  - exact ex_workload.
  - exact ex_trace.
  - apply init_inv; try (simpl; lia); try done.
    + split; simpl; try done; try lia. apply (ex_block 2 24). left. auto.
    + intros i Hi. destruct (ex_block 1 24) as [_ H]; [left; auto|]. simpl in Hi. apply (H (8 + i)). lia.
  - split; [lia| |intros [H|[H|(p & H & _)]]; simpl in H; [lia..|by apply elem_of_nil in H]|apply ex_scratch; auto..|simpl; lia].
    apply (ex_block 5 32). right. auto.
  - done.
  - vm_compute. congruence.
  - unfold ex_msgs. rewrite !Forall_cons, Forall_nil. split_and!; [apply Z.leb_le; vm_compute; reflexivity..|done].
  - destruct (Hs 0) as (w & Hw & Hc).
    + intros c Hc. simpl in Hc. assert (c = 0 ∨ c = 1) as [->| ->] by lia.
      * split; [by left|]. intros o Ho. change (ex_W 0 0) with [ex_o1] in Ho. apply list_elem_of_singleton in Ho as ->. right. by left.
      * split; [right; by left|]. intros o Ho. change (ex_W 0 1) with [ex_o2] in Ho. apply list_elem_of_singleton in Ho as ->. by left.
    + exists b', sh', w. split; [exact E|]. split; [exact Hw|exact Hc].
Defined.
End ParityOrder.
