(* ===== verification/SealRequest.v ===== *)
(** * Requests to seal a chunk (server/protocol/protocol.cc, server/worker/server_peer_req_worker.cc)

    A data server that closes a chunk lists its objects to the parity servers:
    [reqSealChunk] walks over the chunk and writes one record per object behind
    the fields of the message; [handleSealChunkRequest] hands the records to the
    parity buffer.

    [seal_request_arrives]: the records that arrive are those of the objects of
    the chunk, in order, with their offsets, which is the message [MSeal] of
    [ParityTrace]. *)

From S2P Require Export ParityOrder Messages.

Module SealRequest.
Import Metadata.
Abbreviation SPLIT_OFFSET_SIZE := KeyValue.SPLIT_OFFSET_SIZE.

Definition PROTO_OPCODE_SEAL_CHUNK : Z := 0x51.

Section request.
Variable chunkSize : Z.

(** The loop of [reqSealChunk]: [c] holds [ptr] and [bytes].  The fuel bounds
    the number of objects. *)
Fixpoint seal_records (fuel : nat) (m : mem) (chunk : ptr) (currentOffset count : Z) (c : cursor) : option (cursor * Z) :=
  match fuel with
  | O => None
  | S fuel =>
      '(nextOffset, out) ← ChunkUtil.next chunkSize m chunk currentOffset;
      if decide (nextOffset = -1) then Some (c, count) else
      '(key, keySize, isLarge) ← (out : option (option ptr * Z * bool));
      key ← (key : option ptr);
      k ← load m key (keySize + if isLarge then SPLIT_OFFSET_SIZE else 0);
      c ← run [write1Byte keySize; write4 currentOffset; write1Byte (b2i isLarge); put k] c;
      seal_records fuel m chunk nextOffset (u32 (count + 1)) c
  end.

Definition reqSealChunk (p : Protocol) (instanceId requestId : Z) (m : mem) (chunk : ptr) (startPos : Z) (buf : option (list byte)) :
    option (list byte * Z) :=
  metadata ← ChunkUtil.getMetadata m chunk;
  '(c, count) ← seal_records (Z.to_nat (chunkSize + 1)) m chunk startPos 0
                  (Cur (pick_send p buf) (PROTO_HEADER_SIZE + PROTO_CHUNK_SEAL_SIZE) 0);
  if decide (c_bytes c ≤ buffer_size p) then
    generateChunkSealHeader p (Env PROTO_MAGIC_REQUEST (PROTO_MAGIC_TO ROLE_SERVER) PROTO_OPCODE_SEAL_CHUNK instanceId requestId)
      (listId metadata) (stripeId metadata) (chunkId metadata) count (u32 (c_bytes c)) (Some (c_buf c))
  else None.
End request.

(** What [handleSealChunkRequest] takes out of the message: the header, and the
    rest as it goes to the parity buffer. *)
Definition receive_seal (p : Protocol) (buf : option (list byte)) (size offset : Z) : option (option (ChunkSealHeader * list byte)) :=
  h ← parseChunkSealHeader p buf size offset;
  match h with
  | None => Some None
  | Some h =>
      let '(buf, size) := pick_recv p buf size in
      d ← slice buf (offset + PROTO_CHUNK_SEAL_SIZE) (size - offset - PROTO_CHUNK_SEAL_SIZE);
      Some (Some (h, d))
  end.

Section proofs.
Context {C : Coding} {EC : ErasureCode C}.
Import ParityProofs ParitySeal ParityOrder.
Abbreviation cap := ec_chunkSize.

(** The walk over a chunk that holds the objects [pre ++ post]. *)
Lemma next_object m chunk pre o post pad :
  chunk_sizes cap → ChunkUtil.layout cap m chunk (pre ++ o :: post) pad → o_key o ≠ [] →
  ∃ kp, ChunkUtil.next cap m chunk (zlen (objs_bytes cap pre)) =
      Some (zlen (objs_bytes cap (pre ++ [o])), Some (Some kp, Key.size (key_of o), Key.isLarge (key_of o))) ∧
    load m kp (zlen (Key.data (key_of o))) = Some (Key.data (key_of o)).
Proof.
  intros Hcs HL Hk. destruct (ChunkUtil.layout_next cap m chunk pre o post pad Hcs HL Hk) as (kp & Hn & _).
  pose proof HL as (Hp & Hok & Hl). apply Forall_app in Hok as [_ Hok]. apply Forall_cons in Hok as [Ho _].
  rewrite ChunkUtil.objs_bytes_app in Hl. change (objs_bytes cap (o :: post)) with (obj_bytes cap o ++ objs_bytes cap post) in Hl.
  rewrite <- !app_assoc in Hl.
  assert (Hlo : load m (getData chunk +ₚ zlen (objs_bytes cap pre)) (obj_size cap o) = Some (obj_bytes cap o)).
  { pose proof (load_zlen _ _ _ _ Hl) as Hz. unfold obj_size.
    rewrite (load_sub _ _ _ _ _ _ Hl); [by apply slice_app_mid|apply zlen_nonneg..|].
    rewrite !zlen_app in Hz. pose proof (zlen_nonneg (objs_bytes cap post)). pose proof (zlen_nonneg (replicate (Z.to_nat pad) x00)). lia. }
  destruct (read_obj m _ o Ho Hlo) as (vp & Hd & Hkd). exists (getData chunk +ₚ zlen (objs_bytes cap pre) +ₚ 4). split; [|done].
  rewrite Hn. unfold ChunkUtil.next in Hn. case_decide; [|done]. rewrite Hd in Hn. cbn [mbind option_bind] in Hn.
  destruct (ChunkUtil.objectSize _ _) as [[tmp large]|]; [|done]. cbn [mbind option_bind] in Hn. case_decide; [|done].
  injection Hn as _ <- _. done.
Qed.

(** The end of the objects. *)
Lemma next_end m chunk os pad :
  chunk_sizes cap → ChunkUtil.layout cap m chunk os pad → fst <$> ChunkUtil.next cap m chunk (zlen (objs_bytes cap os)) = Some (-1).
Proof.
  intros Hcs HL. pose proof (ChunkUtil.layout_zlen _ _ _ _ _ HL) as Hz. destruct HL as (Hp & _ & Hl).
  unfold ChunkUtil.next. unfold KEY_VALUE_METADATA_SIZE. case_decide as Hin; [|done]. simpl in Hin.
  assert (Hfm : KeyValue.format cap 0 0 [] [] = replicate 4 x00).
  { unfold KeyValue.format, KeyValue.split_bytes, KeyValue.is_large. rewrite bool_decide_eq_false_2; [done|].
    unfold chunk_sizes, KEY_VALUE_METADATA_SIZE, KeyValue.SPLIT_OFFSET_SIZE in *. change (zlen []) with 0. lia. }
  assert (Hok : KeyValue.format_ok cap 0 0 [] []).
  { unfold KeyValue.format_ok, LargeObjectUtil.sizes_ok, KeyValue.payload_len, KeyValue.is_large, chunk_sizes, KEY_VALUE_METADATA_SIZE, KeyValue.SPLIT_OFFSET_SIZE in *.
    change (zlen []) with 0. rewrite bool_decide_eq_false_2 by lia. lia. }
  destruct (KeyValue.deserialize_format cap m (getData chunk +ₚ zlen (objs_bytes cap os)) 0 0 [] [] Hok) as (Hd & _).
  - rewrite Hfm. change (zlen (replicate 4 x00)) with 4.
    rewrite (load_sub _ _ _ _ _ _ Hl); [|apply zlen_nonneg|lia|lia].
    replace (Z.to_nat pad) with (4 + Z.to_nat (pad - 4))%nat by lia. rewrite replicate_add. by apply slice_app_mid.
  - rewrite Hd. cbn [mbind option_bind]. rewrite (ChunkUtil.objectSize_format cap _ 0 0 [] []) by done. done.
Qed.

(** One record. *)
Lemma emits_record k offset : 0 ≤ offset < 2 ^ 32 →
  emits (run [write1Byte (Key.size k); write4 offset; write1Byte (b2i (Key.isLarge k)); Protocol.put (Key.data k)]) (record_bytes (k, offset)).
Proof.
  intros Ho. change (record_bytes (k, offset)) with ([z2b (Key.size k)] ++ be_bytes 4 offset ++ [z2b (b2i (Key.isLarge k))] ++ Key.data k).
  rewrite <- (app_nil_r (Key.data k)) at 2. apply run_cons; [apply emits_write1|]. apply run_cons; [apply emits_write4|].
  apply run_cons; [apply emits_write1|]. apply run_cons; [apply emits_put|apply run_nil].
Qed.

Abbreviation keyed os := (Forall (λ o, o_key o ≠ []) os).
Abbreviation request_bytes pos os := (concat (record_bytes <$> records_of pos os)).

Lemma seal_records_spec post : ∀ pre m chunk pad fuel count c,
  chunk_sizes cap → ChunkUtil.layout cap m chunk (pre ++ post) pad → keyed post → (length post < fuel)%nat →
  0 ≤ count → count + zlen post < 2 ^ 32 → in_buffer c →
  seal_records cap fuel m chunk (zlen (objs_bytes cap pre)) count c =
  (c ← Protocol.put (request_bytes (zlen (objs_bytes cap pre)) post) c; Some (c, count + zlen post)).
Proof.
  induction post as [|o post IH]; intros pre m chunk pad fuel count c Hcs HL Hk Hf Hc1 Hc2 Hin; (destruct fuel as [|fuel]; [simpl in Hf; lia|]).
  - rewrite app_nil_r in HL. pose proof (next_end _ _ _ _ Hcs HL) as Hn. cbn [seal_records].
    destruct (ChunkUtil.next _ _ _ _) as [[n out]|]; [|done]. simpl in Hn. injection Hn as ->. cbn [mbind option_bind].
    rewrite decide_True by done. change (request_bytes _ []) with (@nil byte). rewrite put_nil by done. cbn [mbind option_bind].
    change (zlen []) with 0. by rewrite Z.add_0_r.
  - apply Forall_cons in Hk as [Ho Hk]. destruct (next_object _ _ _ _ _ _ Hcs HL Ho) as (kp & Hn & Hkey).
    pose proof HL as (_ & Hok & _). apply Forall_app in Hok as [_ Hok]. apply Forall_cons in Hok as [Hoo _].
    pose proof (key_of_wf (λ _ _, x00) o Hoo) as [Hks Hkl].
    pose proof (ChunkUtil.layout_zlen _ _ _ _ _ HL) as Hz. pose proof (proj1 HL) as Hpad.
    rewrite ChunkUtil.objs_bytes_app in Hz. change (objs_bytes cap (o :: post)) with (obj_bytes cap o ++ objs_bytes cap post) in Hz.
    rewrite !zlen_app in Hz. pose proof (zlen_nonneg (objs_bytes cap pre)). pose proof (zlen_nonneg (objs_bytes cap post)).
    pose proof (zlen_nonneg (obj_bytes cap o)). assert (zlen (o :: post) = 1 + zlen post) as Hzc by (unfold zlen; simpl; lia).
    pose proof (zlen_nonneg post).
    assert (Hpre : zlen (objs_bytes cap (pre ++ [o])) = zlen (objs_bytes cap pre) + obj_size cap o).
    { rewrite ChunkUtil.objs_bytes_app, zlen_app. f_equal. unfold objs_bytes, ChunkUtil.objs_bytes. simpl. by rewrite app_nil_r. }
    cbn [seal_records]. rewrite Hn. cbn [mbind option_bind]. rewrite decide_False by (pose proof (zlen_nonneg (objs_bytes cap (pre ++ [o]))); lia). cbn [mbind option_bind].
    assert (Hkz : Key.size (key_of o) + (if Key.isLarge (key_of o) then SPLIT_OFFSET_SIZE else 0) = zlen (Key.data (key_of o))).
    { unfold zlen. rewrite Hkl. unfold Key.cmp_size, SPLIT_OFFSET_SIZE, KeyValue.SPLIT_OFFSET_SIZE. destruct (Key.isLarge (key_of o)); lia. }
    rewrite Hkz, Hkey. cbn [mbind option_bind]. unfold chunk_sizes in Hcs.
    rewrite (emits_record (key_of o) (zlen (objs_bytes cap pre))) by (done || lia).
    change (request_bytes (zlen (objs_bytes cap pre)) (o :: post)) with
      (record_bytes (key_of o, zlen (objs_bytes cap pre)) ++ request_bytes (zlen (objs_bytes cap pre) + obj_size cap o) post).
    rewrite put_app. destruct (Protocol.put (record_bytes _) c) as [c'|] eqn:Ep; [|done]. cbn [mbind option_bind].
    rewrite u32_small by lia. rewrite (IH (pre ++ [o]) m chunk pad fuel (count + 1) c').
    + rewrite Hpre. destruct (Protocol.put _ c'); [|done]. cbn [mbind option_bind]. do 2 f_equal. lia.
    + done.
    + by rewrite <- app_assoc.
    + done.
    + simpl in Hf. lia.
    + lia.
    + lia.
    + by eapply put_in_buffer.
Qed.

(** What the loop and the generator leave in the buffer. *)
Lemma reqSealChunk_spec p instanceId requestId m chunk os pad md buf :
  let recs := request_bytes 0 os in
  let e := Env PROTO_MAGIC_REQUEST (PROTO_MAGIC_TO ROLE_SERVER) PROTO_OPCODE_SEAL_CHUNK instanceId requestId in
  let body := be_bytes 4 (listId md) ++ be_bytes 4 (stripeId md) ++ be_bytes 4 (chunkId md) ++ be_bytes 4 (zlen os) ++ recs in
  chunk_sizes cap → ChunkUtil.layout cap m chunk os pad → keyed os → ChunkUtil.getMetadata m chunk = Some md →
  protocol_ok p → envelope_ok e → zlen recs ≤ buffer_size p → zlen recs + PROTO_CHUNK_SEAL_SIZE < 2 ^ 32 →
  PROTO_HEADER_SIZE + PROTO_CHUNK_SEAL_SIZE + zlen recs ≤ zlen (pick_send p buf) →
  ∃ rest, reqSealChunk cap p instanceId requestId m chunk 0 buf =
    Some (header_bytes (header_of p e (zlen body) 0 false) ++ body ++ rest, PROTO_HEADER_SIZE + zlen body).
Proof.
  intros recs e body Hcs HL Hk Hmd Hp He Hb H32 Hlen. unfold PROTO_CHUNK_SEAL_SIZE, PROTO_HEADER_SIZE in *.
  pose proof (ChunkUtil.layout_zlen _ _ _ _ _ HL) as Hz. pose proof HL as (Hpad & Hok & _). pose proof (ChunkUtil.objs_count cap os Hok) as Hcnt.
  pose proof (zlen_nonneg os). pose proof (zlen_nonneg recs). unfold chunk_sizes in Hcs.
  destruct (cut (pick_send p buf) 16) as (old & l & Hl & Ho); [lia|]. destruct (cut l 16) as (mid & l2 & -> & Hm); [rewrite Hl in Hlen; zlens; lia|].
  destruct (cut l2 (zlen recs)) as (dat & rest & -> & Hd); [rewrite Hl in Hlen; zlens; lia|]. exists rest.
  assert (Hbody : zlen body = 16 + zlen recs) by (unfold body; zlens; lia).
  unfold reqSealChunk. rewrite Hmd. cbn [mbind option_bind]. unfold PROTO_HEADER_SIZE, PROTO_CHUNK_SEAL_SIZE.
  rewrite Hl. change 0 with (zlen (objs_bytes cap [])) at 1.
  rewrite (seal_records_spec os [] m chunk pad); [|done|done|done|unfold zlen in *; lia|lia|lia|].
  2:{ unfold in_buffer. cbn [c_buf c_pos]. zlens. pose proof (zlen_nonneg rest). lia. }
  change (zlen (objs_bytes cap [])) with 0. fold recs.
  replace (Cur (old ++ mid ++ dat ++ rest) (16 + 16) 0) with (Cur ((old ++ mid) ++ dat ++ rest) (zlen (old ++ mid)) 0) by (zlens; f_equal; [by rewrite <- app_assoc|lia]).
  rewrite put_at by done. cbn [mbind option_bind c_bytes c_buf]. rewrite decide_True by lia. rewrite !Z.add_0_l.
  unfold generateChunkSealHeader, generate. rewrite (u32_small (zlen recs)) by lia. unfold PROTO_CHUNK_SEAL_SIZE. rewrite (u32_small (16 + zlen recs)) by lia.
  rewrite <- Hbody. rewrite <- !app_assoc. fold e. rewrite generateHeader_at by done. cbn [mbind option_bind]. unfold PROTO_HEADER_SIZE.
  change 16 with (zlen (header_bytes (header_of p e (zlen body) 0 false))) at 1.
  rewrite (run_at _ (be_bytes 4 (listId md) ++ be_bytes 4 (stripeId md) ++ be_bytes 4 (chunkId md) ++ be_bytes 4 (zlen os) ++ []) _ mid (recs ++ rest)); [|emit|zlens; lia].
  cbn [mbind option_bind c_buf c_bytes]. f_equal. apply (f_equal2 pair).
  - unfold body. by rewrite app_nil_r, <- !app_assoc.
  - rewrite Hbody. zlens. lia.
Qed.
End proofs.

(** C8: The request to seal a chunk arrives: for a data chunk that holds the
    objects [os], what a parity server takes out of the message of
    [reqSealChunk] is the identifier of the chunk, the number of objects, and
    the record (key size, offset, large or not, key) of every object, in the
    order of the chunk, with the offset at which the object is. *)
Theorem seal_request_arrives {C : Coding} {EC : ErasureCode C} p q instanceId requestId m chunk os pad md buf :
  let recs := concat (ParitySeal.record_bytes <$> ParityOrder.records_of 0 os) in
  let e := Env PROTO_MAGIC_REQUEST (PROTO_MAGIC_TO ROLE_SERVER) PROTO_OPCODE_SEAL_CHUNK instanceId requestId in
  ChunkUtil.chunk_sizes ec_chunkSize → ChunkUtil.layout ec_chunkSize m chunk os pad → Forall (λ o, ChunkUtil.o_key o ≠ []) os →
  ChunkUtil.getMetadata m chunk = Some md → Metadata.wf md →
  protocol_ok p → to q = PROTO_MAGIC_TO ROLE_SERVER → 0 ≤ instanceId < 2 ^ 16 → 0 ≤ requestId < 2 ^ 32 →
  zlen recs ≤ buffer_size p → zlen recs + PROTO_CHUNK_SEAL_SIZE < 2 ^ 32 →
  PROTO_HEADER_SIZE + PROTO_CHUNK_SEAL_SIZE + zlen recs ≤ zlen (pick_send p buf) →
  arrives (reqSealChunk ec_chunkSize p instanceId requestId m chunk 0 buf) q
    (header_of p e (PROTO_CHUNK_SEAL_SIZE + zlen recs) 0 false) (receive_seal q) (MkChunkSealHeader md (zlen os), recs).
Proof.
  intros recs e Hcs HL Hk Hmd (Hw1 & Hw2 & Hw3) Hp Hq Hi Hr Hb H32 Hlen. unfold ChunkUtil.chunk_sizes in *.
  assert (He : envelope_ok e).
  { unfold envelope_ok, e; cbn. split; [unfold PROTO_MAGIC_REQUEST; lia|]. split; [by exists ROLE_SERVER|]. split; [|done].
    apply (bool_decide_unpack _). vm_compute. exact I. }
  destruct (reqSealChunk_spec p instanceId requestId m chunk os pad md buf) as [rest Hg]; [done..|].
  fold recs e in Hg. set (body := be_bytes 4 (listId md) ++ be_bytes 4 (stripeId md) ++ be_bytes 4 (chunkId md) ++ be_bytes 4 (zlen os) ++ recs) in *.
  assert (Hbody : zlen body = PROTO_CHUNK_SEAL_SIZE + zlen recs) by (unfold body, PROTO_CHUNK_SEAL_SIZE; zlens; lia).
  pose proof (ChunkUtil.layout_zlen _ _ _ _ _ HL) as Hz. pose proof HL as (Hpad & Hok & _). pose proof (ChunkUtil.objs_count _ os Hok) as Hcnt.
  pose proof (zlen_nonneg os). pose proof (zlen_nonneg recs). rewrite <- Hbody. unfold PROTO_CHUNK_SEAL_SIZE in Hbody, H32.
  eapply arrives_intro; [exact Hg|done|done|done|lia|done|].
  intros r Hold. unfold receive_seal, parseChunkSealHeader. rewrite pick_recv_some by lia. unfold PROTO_CHUNK_SEAL_SIZE.
  rewrite short_ok by lia. unfold body in Hold. rewrite <- !app_assoc in Hold. unfold read_metadata.
  unfold Metadata.wf in *. do 4 read_field Hold. cbn [mbind option_bind].
  replace (PROTO_HEADER_SIZE + 4 + 4 + 4 + 4) with (PROTO_HEADER_SIZE + 16) in Hold by lia.
  rewrite (holds_slice_app (PROTO_HEADER_SIZE + zlen body - PROTO_HEADER_SIZE - 16) _ _ _ _ Hold) by lia. cbn [mbind option_bind]. by destruct md.
Qed.

(** A chunk of 16 bytes with one object. *)
Lemma seal_request_arrives_witness :
  let m : mem := <[0%nat := [z2b 3; z2b 7; x00; x00; x00; x00; x00; z2b 1; z2b 1; x00; x00; z2b 1; z2b 97; z2b 1] ++ replicate 10 x00]> ∅ in
  let p := MkProtocol (PROTO_MAGIC_FROM ROLE_SERVER) (PROTO_MAGIC_TO ROLE_SERVER) 64 (replicate 64 x00) (replicate 64 x00) in
  ∃ h, arrives (reqSealChunk 16 p 5 9 m (Ptr 0 0) 0 None) p h (receive_seal p)
    (MkChunkSealHeader (Metadata.MkMetadata 3 7 1) 1, [z2b 1; x00; x00; x00; x00; x00; z2b 97]).
Proof.
  intros m p. pose proof ParityOrder.ex_objs as ((Ho1 & _) & _).
  pose proof (seal_request_arrives (C := RAID5Coding.raid5 3 16) (EC := ParityOrder.ex_code) p p 5 9 m (Ptr 0 0) [ParityOrder.ex_o1] 10 (Metadata.MkMetadata 3 7 1) None) as H.
  eexists. apply H.
  - unfold ChunkUtil.chunk_sizes, KEY_VALUE_METADATA_SIZE, KeyValue.SPLIT_OFFSET_SIZE. simpl. lia.
  - split; [lia|]. split; [apply Forall_singleton; exact Ho1|]. vm_compute. reflexivity.
  - apply Forall_singleton. discriminate.
  - vm_compute. reflexivity.
  - unfold Metadata.wf; simpl. lia.
  - by exists ROLE_SERVER.
  - reflexivity.
  - lia.
  - lia.
  - vm_compute. discriminate.
  - vm_compute. reflexivity.
  - vm_compute. discriminate.
Defined.
End SealRequest.
