(* ===== verification/DataBuffer.v ===== *)
(** * Data chunk buffers (server/buffer/data_chunk_buffer.{hh,cc})

    The open chunks of a data server for one list: objects are appended to the
    chunk in which they fit best, and a full chunk is flushed, that is sealed
    towards the parity servers and replaced by a new chunk of the next free
    stripe.  The methods hold the lock of the buffer, so each is one atomic step;
    the locks of single chunks only matter while it is held.

    [worker] is the part of a server worker that the buffer uses: its protocol
    object, identifiers and the packets it sends to all parity servers. *)

From S2P Require Export SealRequest.

Definition CHUNK_BUFFER_FLUSH_THRESHOLD : Z := 4.
Definition PROTO_OPCODE_DEGRADED_SET : Z := 0x10.

Module Worker.
Import SealRequest.

(** [packets]: what is in the memory of the packets that the pool hands out. *)
Record Worker := MkWorker {
  protocol : Protocol;
  instanceId : Z;
  workerId : Z;
  idGenerator : IDGenerator.IDGenerator;
  packets : nat → list byte;
  sent : list (list byte);
}.

Section worker.
Variables (chunkSize dataChunkCount parityChunkCount : Z) (zeros : ptr).

(** The requests are appended to [sent], once for all parity servers. *)
Definition issueSealChunkRequest (w : Worker) (m : mem) (chunk : ptr) (startPos : Z) : option (bool * Worker) :=
  if decide (parityChunkCount = 0) then Some (true, w) else
  size ← ChunkUtil.getSize chunkSize dataChunkCount zeros (Z.to_nat (chunkSize + 1)) m chunk;
  if decide (startPos < size) then
    '(requestId, g) ← IDGenerator.nextVal (idGenerator w) (workerId w);
    '(buf, size) ← reqSealChunk chunkSize (protocol w) (instanceId w) requestId m chunk startPos (Some (packets w (length (sent w))));
    data ← slice buf 0 size;
    Some (true, MkWorker (protocol w) (instanceId w) (workerId w) g (packets w)
      (if decide (size = PROTO_HEADER_SIZE + PROTO_CHUNK_SEAL_SIZE) then sent w else sent w ++ [data]))
  else Some (true, w).
End worker.
End Worker.

Module DataChunkBuffer.
Import Metadata ServerMap Worker.

(** [reInsertedChunks] is an unordered set: the list is in the order in which a
    traversal meets its elements. *)
Record DataChunkBuffer := MkBuffer {
  listId : Z;
  stripeId : Z;
  chunkId : Z;
  count : Z;
  chunks : list ptr;
  reInsertedChunks : list ptr;
  sizes : list Z;
  reInsertedChunkMaxSpace : Z;
}.
Definition set_slot (b : DataChunkBuffer) (stripe : Z) (cs : list ptr) (ss : list Z) : DataChunkBuffer :=
  MkBuffer (listId b) stripe (chunkId b) (count b) cs (reInsertedChunks b) ss (reInsertedChunkMaxSpace b).
Definition set_sizes (b : DataChunkBuffer) (ss : list Z) : DataChunkBuffer := set_slot b (stripeId b) (chunks b) ss.
Definition set_reInserted (b : DataChunkBuffer) (rs : list ptr) (space : Z) : DataChunkBuffer :=
  MkBuffer (listId b) (stripeId b) (chunkId b) (count b) (chunks b) rs (sizes b) space.

Section buffer.
Variables (capacity dataChunkCount parityChunkCount : Z) (zeros : ptr) (rand : nat → Z).
Abbreviation getSize m chunk := (ChunkUtil.getSize capacity dataChunkCount zeros (Z.to_nat (capacity + 1)) m chunk).

(** ** Construction *)

(** The chunks of the constructor; a null pointer of the pool, which the next
    method dereferences, fails here. *)
Definition alloc_chunks (sh : Shared) (n : Z) : option (list ptr * Shared) :=
  for_range 0 n (λ _ '(cs, sh),
    '(c, pool, m) ← ChunkPool.alloc capacity (s_pool sh) (s_mem sh) 0 0 0;
    c ← (c : option ptr);
    Some (cs ++ [c], MkShared m pool (s_map sh))) ([], sh).

Definition init (b : DataChunkBuffer) (sh : Shared) : option (DataChunkBuffer * Shared) :=
  for_range 0 (count b) (λ i '(b, sh),
    '(stripe, map) ← nextStripeID (s_map sh) (listId b) (stripeId b);
    c ← zget (chunks b) i;
    m ← ChunkUtil.set (s_mem sh) c (listId b) stripe (chunkId b);
    map ← setChunk capacity rand m map (listId b) stripe (chunkId b) c false;
    Some (set_slot b (u32 (stripe + 1)) (chunks b) (sizes b), MkShared m (s_pool sh) map)) (b, sh).

(** The constructor leaves [reInsertedChunkMaxSpace] uninitialised: [space] is
    what happens to be there. *)
Definition DataChunkBuffer_new (space : Z) (sh : Shared) (count listId stripeId chunkId : Z) (isReady : bool) : option (DataChunkBuffer * Shared) :=
  '(cs, sh) ← alloc_chunks sh count;
  let b := MkBuffer listId stripeId chunkId count cs [] (replicate (Z.to_nat count) 0) space in
  if isReady then init b sh else Some (b, sh).

(** ** Flushing *)

(** The old chunk, its metadata when [sealed] is not null, and the state. *)
Definition flushAt (b : DataChunkBuffer) (sh : Shared) (w : Worker) (index : Z) (sealed : bool) :
    option (ptr * option Metadata * DataChunkBuffer * Shared * Worker) :=
  chunk ← zget (chunks b) index;
  md ← (if sealed then Some <$> ChunkUtil.getMetadata (s_mem sh) chunk else Some None);
  ss ← zset (sizes b) index 0;
  '(stripe, map) ← nextStripeID (s_map sh) (listId b) (stripeId b);
  '(newChunk, pool, m) ← ChunkPool.alloc capacity (s_pool sh) (s_mem sh) (listId b) stripe (chunkId b);
  newChunk ← (newChunk : option ptr);
  map ← setChunk capacity rand m map (listId b) stripe (chunkId b) newChunk false;
  cs ← zset (chunks b) index newChunk;
  let b := set_slot b (u32 (stripe + 1)) cs ss in
  '(r, w) ← issueSealChunkRequest capacity dataChunkCount parityChunkCount zeros w m chunk 0;
  map ← (if (r : bool) then
           old ← ChunkUtil.getMetadata m chunk;
           Some (snd (ServerMap.seal map (Metadata.listId old) (Metadata.stripeId old) (Metadata.chunkId old)))
         else Some map);
  Some (chunk, md, b, MkShared m pool map, w).

(** The fullest chunk, the one with the smallest stripe identifier among equals. *)
Definition fullest (b : DataChunkBuffer) (m : mem) : option Z :=
  max ← zget (sizes b) 0;
  '(_, index) ← for_range 1 (count b) (λ i '(max, index),
    s ← zget (sizes b) i;
    if decide (s > max) then Some (s, i)
    else if decide (s = max) then
      c ← zget (chunks b) i; si ← ChunkUtil.getStripeId m c;
      c' ← zget (chunks b) index; sx ← ChunkUtil.getStripeId m c';
      Some (max, if decide (si < sx) then i else index)
    else Some (max, index)) (max, 0);
  Some index.

Definition flush (b : DataChunkBuffer) (sh : Shared) (w : Worker) (sealed : bool) :
    option (Z * option Metadata * DataChunkBuffer * Shared * Worker) :=
  index ← fullest b (s_mem sh);
  '(_, md, b, sh, w) ← flushAt b sh w index sealed;
  Some (index, md, b, sh, w).

(** ** Setting an object *)

(** The room the object takes. *)
Definition object_room (keySize valueSize splitOffset : Z) : option (Z * bool) :=
  si ← LargeObjectUtil.isLarge capacity keySize valueSize;
  let size := u32 (PROTO_KEY_VALUE_SIZE + keySize + valueSize) in
  Some (if LargeObjectUtil.si_large si
        then (u32 (size - valueSize + LargeObjectUtil.clampSplit valueSize splitOffset (LargeObjectUtil.si_size si)
                   + KeyValue.SPLIT_OFFSET_SIZE), true)
        else (size, false)).

(** The re-inserted chunk with the least free space that is large enough, and
    the largest space of all of them. *)
Definition choose_reInserted (m : mem) (rs : list ptr) (size : Z) : option (option ptr) :=
  '(c, _) ← foldl (λ acc c,
      '(best, min) ← acc;
      n ← getSize m c;
      let space := u32 (capacity - n) in
      Some (if decide (size ≤ space ∧ space < min) then (Some c, space) else (best, min)))
    (Some (None, capacity)) rs;
  Some c.
Definition max_space (m : mem) (rs : list ptr) : option Z :=
  foldl (λ acc c, best ← acc; n ← getSize m c; Some (Z.max best (u32 (capacity - n)))) (Some 0) rs.

(** The open chunk that is fullest with the object, the one with the smallest
    stripe identifier among equals; -1 when the object fits in none. *)
Definition best_fit (b : DataChunkBuffer) (m : mem) (size : Z) : option Z :=
  '(_, index) ← for_range 0 (count b) (λ i '(max, index),
    s ← zget (sizes b) i;
    let tmp := u32 (s + size) in
    if decide (tmp ≤ capacity) then
      if decide (tmp > max) then Some (tmp, i)
      else if decide (tmp = max ∧ index ≠ -1) then
        c ← zget (chunks b) i; si ← ChunkUtil.getStripeId m c;
        c' ← zget (chunks b) index; sx ← ChunkUtil.getStripeId m c';
        Some (max, if decide (si < sx) then i else index)
      else Some (max, index)
    else Some (max, index)) (0, -1);
  Some index.

(** The chunk that gets the object: a re-inserted one (index -1), an open one,
    or the one that a flush opens; with the metadata of the chunk sealed. *)
Definition choose_chunk (b : DataChunkBuffer) (sh : Shared) (w : Worker) (size : Z) (wantSealed : bool) :
    option (ptr * Z * list Metadata * DataChunkBuffer * Shared * Worker) :=
  r ← (if decide (size ≤ reInsertedChunkMaxSpace b) then choose_reInserted (s_mem sh) (reInsertedChunks b) size else Some None);
  match r with
  | Some c =>
      n ← getSize (s_mem sh) c;
      space ← (if decide (u32 (capacity - n) = reInsertedChunkMaxSpace b)
               then max_space (s_mem sh) (reInsertedChunks b) else Some (reInsertedChunkMaxSpace b));
      Some (c, -1, [], set_reInserted b (reInsertedChunks b) space, sh, w)
  | None =>
      index ← best_fit b (s_mem sh) size;
      '(index, sealed, b, sh, w) ←
        (if decide (index = -1) then
           '(index, md, b, sh, w) ← flush b sh w wantSealed;
           Some (index, option_list md, b, sh, w)
         else Some (index, [], b, sh, w));
      c ← zget (chunks b) index;
      Some (c, index, sealed, b, sh, w)
  end.

(** [set] up to the release of the lock: the metadata of the object and of the
    chunks sealed, at most two. *)
Definition place_object (b : DataChunkBuffer) (sh : Shared) (w : Worker) (key : ptr) (keySize : Z) (value : ptr) (valueSize opcode splitOffset : Z)
    (wantSealed : bool) : option (KeyMetadata * list Metadata * DataChunkBuffer * Shared * Worker) :=
  '(size, isLarge) ← object_room keySize valueSize splitOffset;
  '(chunk, index, sealed, b, sh, w) ← choose_chunk b sh w size wantSealed;
  stripe ← ChunkUtil.getStripeId (s_mem sh) chunk;
  '(obj, offset, m) ← ChunkUtil.alloc capacity dataChunkCount zeros (Z.to_nat (capacity + 1)) (s_mem sh) chunk size;
  ss ← (if decide (index ≠ -1) then s ← zget (sizes b) index; zset (sizes b) index (u32 (s + size)) else Some (sizes b));
  let b := set_sizes b ss in
  let km := MkKeyMetadata (Metadata.set (listId b) stripe (chunkId b)) offset size (bool_decide (opcode = PROTO_OPCODE_DEGRADED_SET)) obj in
  m ← KeyValue.serialize capacity m obj (Some key) keySize (Some value) valueSize splitOffset;
  let sh := set_mem sh m in
  n ← getSize m chunk;
  if decide (capacity ≤ u32 (n + PROTO_KEY_VALUE_SIZE + CHUNK_BUFFER_FLUSH_THRESHOLD)) then
    if decide (index ≠ -1) then
      '(_, md, b, sh, w) ← flushAt b sh w index wantSealed;
      Some (km, sealed ++ option_list md, b, sh, w)
    else Some (km, sealed, set_reInserted b (filter (λ c, c ≠ chunk) (reInsertedChunks b)) (reInsertedChunkMaxSpace b), sh, w)
  else Some (km, sealed, b, sh, w).

(** The whole method, which returns the timestamp as well. *)
Definition set (b : DataChunkBuffer) (sh : Shared) (w : Worker) (key : ptr) (keySize : Z) (value : ptr) (valueSize opcode timestamp splitOffset : Z)
    (wantSealed : bool) : option (KeyMetadata * Z * list Metadata * DataChunkBuffer * Shared * Worker) :=
  '(size, isLarge) ← object_room keySize valueSize splitOffset;
  '(km, sealed, b, sh, w) ← place_object b sh w key keySize value valueSize opcode splitOffset wantSealed;
  k ← KeyMap.Key_set (s_mem sh) keySize key isLarge;
  '(_, timestamp, map) ← insertKey capacity rand (s_mem sh) (s_map sh) k opcode timestamp km true isLarge;
  Some (km, timestamp, sealed, b, MkShared (s_mem sh) (s_pool sh) map, w).

(** ** Sealing and re-inserting *)
Definition seal (b : DataChunkBuffer) (sh : Shared) (w : Worker) : option (Z * DataChunkBuffer * Shared * Worker) :=
  '(b, sh, w) ← for_range 0 (count b) (λ i '(b, sh, w),
    '(_, _, b, sh, w) ← flushAt b sh w i false; Some (b, sh, w)) (b, sh, w);
  Some (u32 (count b + zlen (reInsertedChunks b)), b, sh, w).

Definition reInsert (b : DataChunkBuffer) (m : mem) (chunk : ptr) (sizeToBeFreed : Z) : option (bool * DataChunkBuffer) :=
  n ← getSize m chunk;
  let space := u32 (capacity - n + sizeToBeFreed) in
  let new := bool_decide (chunk ∉ reInsertedChunks b) in
  Some (new, set_reInserted b (if new then reInsertedChunks b ++ [chunk] else reInsertedChunks b) (Z.max space (reInsertedChunkMaxSpace b))).

(** ** Access to a single chunk *)

(** The index; the caller holds the locks when there is one. *)
Definition lockChunk (b : DataChunkBuffer) (chunk : ptr) : Z :=
  match list_find (eq chunk) (take (Z.to_nat (count b)) (chunks b)) with Some (i, _) => Z.of_nat i | None => -1 end.

Definition updateAndUnlockChunk (b : DataChunkBuffer) (m : mem) (index : Z) : option DataChunkBuffer :=
  c ← zget (chunks b) index;
  n ← getSize m c;
  set_sizes b <$> zset (sizes b) index n.
End buffer.
End DataChunkBuffer.
