(* ===== verification/DataProofs.v ===== *)
(** * What a data chunk buffer holds

    [slots] is the abstract state: for every open chunk its stripe and its
    objects in order.  [flushAt_spec] and [append_spec] give the effect of
    the steps of the methods on it for a buffer without re-inserted chunks, with
    the requests that go to the parity servers. *)

From S2P Require Export DataBuffer.

Module DataProofs.
Import Metadata ServerMap Worker SealRequest DataChunkBuffer.
Export ChunkUtil(obj, Obj, o_key, o_value, o_valueSize, o_splitOffset, obj_size, obj_bytes, objs_bytes, obj_ok, chunk_sizes, layout).
Export ParityProofs(load_frame, valid_prefix, load_block, block_frame).

Definition slot : Type := Z * list obj.

Lemma zget_insert {A} (xs : list A) i j x : 0 ≤ i < zlen xs →
  zget (<[Z.to_nat i := x]> xs) j = if decide (j = i) then Some x else zget xs j.
Proof.
  intros Hi. unfold zget, zlen in *. case_decide as Hj; [|case_decide; [lia|done]]. case_decide as Hji.
  - subst. apply list_lookup_insert_eq. lia.
  - apply list_lookup_insert_ne. lia.
Qed.


(** A loop by its invariant. *)
Tactic Notation "for_invariant" uconstr(P) "as" simple_intropattern(pat) :=
  match goal with |- context [for_range ?i ?n ?f ?z] => destruct (for_range_inv P i n f z) as pat end.

Section data.
Context {C : Coding} {EC : ErasureCode C} (zeros : ptr) (junk : nat → Z → byte) (rand : nat → Z).
Abbreviation cap := ec_chunkSize.
Abbreviation chunk_valid m c := (valid m c (ChunkUtil.CHUNK_IDENTIFIER_SIZE + cap)).

(** ** Single chunks *)
Lemma get_parts m c l s ch : ChunkUtil.get m c = Some (l, s, ch) →
  ChunkUtil.getStripeId m c = Some s ∧ ChunkUtil.getMetadata m c = Some (Metadata.set l s ch) ∧
  ChunkUtil.isParity ec_k m c = Some (bool_decide (ec_k ≤ ch)).
Proof.
  intros Hg. unfold ChunkUtil.getMetadata. rewrite Hg. unfold ChunkUtil.isParity. unfold ChunkUtil.get in Hg.
  destruct (ChunkUtil.getListId m c); [|done]. destruct (ChunkUtil.getStripeId m c); [|done]. destruct (ChunkUtil.getChunkId m c); [|done].
  cbn [mbind option_bind] in *. by injection Hg as -> -> ->.
Qed.

(** Nothing in the chunk changes. *)
Definition same_chunk (m m' : mem) (c : ptr) : Prop :=
  same_shape m m' ∧ ∀ q, in_range c (ChunkUtil.CHUNK_IDENTIFIER_SIZE + cap) q → mget m' q = mget m q.

Lemma same_chunk_load m m' c o n : chunk_valid m c → same_chunk m m' c → 0 ≤ o → 0 ≤ n → o + n ≤ ChunkUtil.CHUNK_IDENTIFIER_SIZE + cap →
  load m' (c +ₚ o) n = load m (c +ₚ o) n.
Proof.
  intros Hv [Hs Hf] Ho Hn Hle. apply load_frame; [done|by eapply valid_sub|].
  intros q [Hb Hq]. apply Hf. split; [done|]. simpl in *. lia.
Qed.

Lemma same_chunk_get m m' c : chunk_valid m c → same_chunk m m' c → ChunkUtil.get m' c = ChunkUtil.get m c.
Proof.
  intros Hv [Hs Hf]. pose proof ec_sizes as Hec. unfold ChunkUtil.CHUNK_IDENTIFIER_SIZE in *.
  assert (Hg : ∀ o, 0 ≤ o < 8 → mget m' (c +ₚ o) = mget m (c +ₚ o)).
  { intros o Ho. apply Hf. split; [done|]. simpl. lia. }
  unfold ChunkUtil.get, ChunkUtil.getListId, ChunkUtil.getChunkId, ChunkUtil.getStripeId, load8.
  assert (Hg0 : mget m' c = mget m c) by (rewrite <- (padd_0 c); apply Hg; lia). rewrite Hg0, (Hg 7) by lia.
  rewrite (same_chunk_load m m' c 1 6); [done|done|by split|lia|lia|unfold ChunkUtil.CHUNK_IDENTIFIER_SIZE; lia].
Qed.

Lemma same_chunk_layout m m' c os pad : chunk_valid m c → same_chunk m m' c → layout cap m c os pad → layout cap m' c os pad.
Proof.
  intros Hv Hs (Hp & Hok & Hl). split; [done|]. split; [done|]. rewrite <- Hl. pose proof ec_sizes.
  apply same_chunk_load; [done|done|unfold ChunkUtil.CHUNK_IDENTIFIER_SIZE; lia..].
Qed.

(** An empty chunk. *)
Lemma zero_layout m c : chunk_is cap m c (λ _, x00) → layout cap m c [] cap.
Proof.
  intros Hz. pose proof ec_sizes. split; [lia|]. split; [constructor|]. simpl.
  rewrite load_bytes by (eapply region_is_valid; [exact Hz|lia]). f_equal.
  apply list_eq. intros i. destruct (decide (Z.of_nat i < cap)) as [Hi|Hi].
  - rewrite list_lookup_fmap, lookup_seqZ_lt by lia. simpl. rewrite lookup_replicate_2 by lia. f_equal.
    unfold mbyte. unfold chunk_is, region_is in Hz. by rewrite Hz by lia.
  - rewrite lookup_ge_None_2 by (rewrite length_fmap, length_seqZ; lia). by rewrite lookup_ge_None_2 by (rewrite length_replicate; lia).
Qed.

Lemma zero_format : chunk_sizes cap → KeyValue.format_ok cap 0 0 [] [] ∧ KeyValue.format cap 0 0 [] [] = replicate 4 x00.
Proof.
  intros Hcs. unfold chunk_sizes, ChunkUtil.chunk_sizes, KEY_VALUE_METADATA_SIZE, KeyValue.SPLIT_OFFSET_SIZE in Hcs. split.
  - unfold KeyValue.format_ok, LargeObjectUtil.sizes_ok, KeyValue.payload_len, KeyValue.is_large, KEY_VALUE_METADATA_SIZE, KeyValue.SPLIT_OFFSET_SIZE.
    change (zlen []) with 0. rewrite bool_decide_eq_false_2 by lia. lia.
  - unfold KeyValue.format, KeyValue.split_bytes, KeyValue.is_large. change (zlen []) with 0. by rewrite bool_decide_eq_false_2 by lia.
Qed.

(** [setChunk] of an empty data chunk. *)
Lemma setChunk_empty m t M l s ch c id :
  chunk_sizes cap → chunk_table cap m t M → load m c ChunkUtil.CHUNK_IDENTIFIER_SIZE = Some id → chunk_is cap m c (λ _, x00) →
  ∃ t' b, setChunk cap rand m t l s ch c false = Some t' ∧
    chunk_table cap m t' (if (b : bool) then <[id := c]> M else M) ∧ same_but_chunks t t' l s.
Proof.
  intros Hcs Ht Hid Hz. unfold setChunk. rewrite Hid. cbn [mbind option_bind].
  destruct (table_add_spec cap rand m t M id c Ht Hid) as (cs & b & E & Hks & Hrep & _).
  destruct (CuckooHash.find _ _ _ _ _ _) as [r|]; [|done]. cbn [mbind option_bind] in E |- *. rewrite E. cbn [mbind option_bind negb].
  destruct (zero_layout m c Hz) as (_ & _ & Hl). destruct (zero_format Hcs) as [Hfo Hfm]. pose proof Hcs as Hcs'.
  unfold chunk_sizes, ChunkUtil.chunk_sizes, KEY_VALUE_METADATA_SIZE, KeyValue.SPLIT_OFFSET_SIZE in Hcs'.
  assert (Hio : ∀ ks, insert_objects cap rand (Z.to_nat (cap + 1)) m (ChunkUtil.getData c) (ChunkUtil.getData c) ks = Some ks).
  { intros ks. destruct (Z.to_nat (cap + 1)) eqn:Ef; [lia|]. cbn [insert_objects]. unfold KEY_VALUE_METADATA_SIZE. rewrite decide_True by (simpl; lia).
    destruct (KeyValue.deserialize_format cap m (ChunkUtil.getData c) 0 0 [] [] Hfo) as (Hd & _).
    - rewrite Hfm. change (zlen (replicate 4 x00)) with 4. rewrite <- (padd_0 (ChunkUtil.getData c)).
      rewrite (load_sub _ _ _ _ _ _ Hl) by lia. replace (Z.to_nat cap) with (4 + Z.to_nat (cap - 4))%nat by lia. rewrite replicate_add.
      by apply (slice_app_mid []).
    - rewrite Hd. done. }
  rewrite Hio. cbn [mbind option_bind]. eexists _, b. split; [done|]. split; [done|]. by destruct t.
Qed.

(** ** Requests to the parity servers *)
Abbreviation request_bytes os := (concat (ParitySeal.record_bytes <$> ParityOrder.records_of 0 os)).

Lemma zlen_records_of pos os : zlen (ParityOrder.records_of pos os) = zlen os.
Proof. revert pos. induction os as [|o os IH]; intros pos; [done|]. cbn [ParityOrder.records_of]. zlens. by rewrite IH. Qed.

(** The body of the message that seals a chunk with metadata [md] and objects [os], and the message. *)
Definition seal_body (md : Metadata) (os : list obj) : list byte :=
  be_bytes 4 (Metadata.listId md) ++ be_bytes 4 (Metadata.stripeId md) ++ be_bytes 4 (Metadata.chunkId md) ++ be_bytes 4 (zlen os) ++ request_bytes os.

Definition seal_message (p : Protocol) (instanceId requestId : Z) (md : Metadata) (os : list obj) : list byte :=
  let e := Env PROTO_MAGIC_REQUEST (PROTO_MAGIC_TO ROLE_SERVER) PROTO_OPCODE_SEAL_CHUNK instanceId requestId in
  header_bytes (header_of p e (zlen (seal_body md os)) 0 false) ++ seal_body md os.

(** A worker that can send a request for any chunk. *)
Record worker_ok (w : Worker) : Prop := {
  wk_protocol : protocol_ok (protocol w);
  wk_instance : 0 ≤ instanceId w < 2 ^ 16;
  wk_thread : 0 ≤ workerId w < zlen (IDGenerator.currentValue (idGenerator w)) ∧
    zlen (IDGenerator.limits (idGenerator w)) = zlen (IDGenerator.currentValue (idGenerator w));
  wk_buffer : 3 * cap ≤ buffer_size (protocol w);
  wk_packets : ∀ n, 3 * cap + 32 ≤ zlen (packets w n);
  wk_small : 3 * cap + 32 < 2 ^ 32;
}.

(** The requests of [w'] are those of [w] and the one for the chunk. *)
Definition requested (w w' : Worker) (md : Metadata) (os : list obj) : Prop :=
  protocol w' = protocol w ∧ instanceId w' = instanceId w ∧
  if decide (os = []) then sent w' = sent w
  else ∃ requestId, 0 ≤ requestId < 2 ^ 32 ∧ sent w' = sent w ++ [seal_message (protocol w) (instanceId w) requestId md os].

Lemma record_bytes_bound pos os : Forall (obj_ok cap) os →
  zlen (concat (ParitySeal.record_bytes <$> ParityOrder.records_of pos os)) ≤ 3 * zlen (objs_bytes cap os).
Proof.
  intros Hok. revert pos. induction Hok as [|o os Ho Hos IH]; intros pos; [done|]. cbn [ParityOrder.records_of fmap list_fmap concat].
  rewrite ParityOrder.zlen_objs_cons, zlen_app. specialize (IH (pos + obj_size cap o)).
  rewrite (ParitySeal.zlen_record (λ _ _, x00) _ _ (ParityProofs.key_of_wf (λ _ _, x00) o Ho)).
  pose proof (ChunkUtil.obj_size_bounds cap o Ho) as Hb. pose proof (ParityProofs.obj_size_eq o) as He. pose proof (zlen_nonneg (o_value o)).
  pose proof (zlen_nonneg (o_key o)). unfold ParitySeal.record_size, PROTO_CHUNK_SEAL_DATA_SIZE, KeyValue.SPLIT_OFFSET_SIZE, ParityProofs.key_of. simpl.
  destruct (KeyValue.is_large cap (zlen (o_key o)) (o_valueSize o)); lia.
Qed.

Lemma nextVal_total g t : 0 ≤ t < zlen (IDGenerator.currentValue g) → zlen (IDGenerator.limits g) = zlen (IDGenerator.currentValue g) →
  ∃ v g', IDGenerator.nextVal g t = Some (v, g') ∧ 0 ≤ v < 2 ^ 32 ∧
    zlen (IDGenerator.currentValue g') = zlen (IDGenerator.currentValue g) ∧ IDGenerator.limits g' = IDGenerator.limits g.
Proof.
  intros Ht Hl. unfold IDGenerator.nextVal. destruct (zget_is_Some (IDGenerator.currentValue g) t Ht) as [c ->]. cbn [mbind option_bind].
  destruct (zget_is_Some (IDGenerator.limits g) t) as [lim ->]; [by rewrite Hl|]. cbn [mbind option_bind].
  rewrite zset_Some by done. cbn [mbind option_bind]. eexists _, _. split; [done|]. split; [case_decide; apply u32_range|].
  split; [|done]. simpl. unfold zlen. by rewrite length_insert.
Qed.

Lemma issue_spec w m c os pad l s ch :
  chunk_sizes cap → worker_ok w → layout cap m c os pad → Forall (λ o, o_key o ≠ []) os → c ≠ zeros →
  ChunkUtil.get m c = Some (l, s, ch) → 0 ≤ ch < ec_k → ec_m ≠ 0 →
  ∃ w', issueSealChunkRequest cap ec_k ec_m zeros w m c 0 = Some (true, w') ∧ worker_ok w' ∧
    requested w w' (Metadata.set l s ch) os.
Proof.
  intros Hcs Hw HL Hk Hcz Hg Hch Hm. destruct (get_parts _ _ _ _ _ Hg) as (_ & Hmd & Hpar).
  rewrite bool_decide_eq_false_2 in Hpar by lia. unfold issueSealChunkRequest. rewrite decide_False by done.
  rewrite (ChunkUtil.layout_getSize cap ec_k zeros m c os pad) by done. cbn [mbind option_bind]. unfold requested.
  pose proof HL as (Hpad & Hok & _). pose proof (ChunkUtil.objs_count cap os Hok) as Hcnt.
  pose proof (ChunkUtil.layout_zlen _ _ _ _ _ HL) as Hz.
  destruct (decide (os = [])) as [->|Hne].
  { rewrite decide_False by (change (zlen (objs_bytes cap [])) with 0; lia). by exists w. }
  assert (Hpos : 0 < zlen os) by (destruct os; [done|unfold zlen; simpl; lia]). rewrite decide_True by lia.
  pose proof Hw as [Hp Hi [Ht1 Ht2] Hb Hpk Hs32]. destruct (nextVal_total _ _ Ht1 Ht2) as (v & g' & -> & Hv & Hg1 & Hg2). cbn [mbind option_bind].
  pose proof (record_bytes_bound 0 os Hok) as Hrb. pose proof (Hpk (length (sent w))) as Hpkl.
  assert (He : envelope_ok (Env PROTO_MAGIC_REQUEST (PROTO_MAGIC_TO ROLE_SERVER) PROTO_OPCODE_SEAL_CHUNK (instanceId w) v)).
  { unfold envelope_ok; cbn. split; [unfold PROTO_MAGIC_REQUEST; lia|]. split; [by exists ROLE_SERVER|]. split; [|done].
    apply (bool_decide_unpack _). vm_compute. exact I. }
  destruct (reqSealChunk_spec (protocol w) (instanceId w) v m c os pad _ (Some (packets w (length (sent w)))) Hcs HL Hk Hmd Hp He) as [rest ->].
  { lia. }
  { unfold PROTO_CHUNK_SEAL_SIZE. lia. }
  { unfold PROTO_CHUNK_SEAL_SIZE, PROTO_HEADER_SIZE. cbn [pick_send]. lia. }
  cbn [mbind option_bind]. set (body := be_bytes 4 _ ++ _).
  assert (Hbody : zlen body = 16 + zlen (request_bytes os)) by (unfold body; zlens; lia).
  assert (Hrec : 0 < zlen (request_bytes os)).
  { pose proof (ParityTrace.record_count (λ _ _, x00) (ParityOrder.records_of 0 os)) as Hrc. rewrite zlen_records_of in Hrc. lia. }
  set (hd := header_bytes _). assert (Hhd : zlen hd = PROTO_HEADER_SIZE) by apply zlen_header.
  assert (Hsl : slice (hd ++ body ++ rest) 0 (PROTO_HEADER_SIZE + zlen body) = Some (hd ++ body)).
  { rewrite <- Hhd, <- zlen_app, (app_assoc hd). by apply (slice_app_mid []). }
  rewrite Hsl. cbn [mbind option_bind].
  rewrite decide_False by (unfold PROTO_CHUNK_SEAL_SIZE, PROTO_HEADER_SIZE; lia).
  eexists. split; [done|]. split; [constructor; simpl; try done; rewrite Hg2, Hg1; done|]. split; [done|]. split; [done|].
  exists v. split; [done|]. done.
Qed.

(** ** The invariant *)
Definition slot_at (start : ptr) (j : Z) : ptr := start +ₚ j * ChunkPool.slotSize cap.

Lemma pool_slot_valid p m start j : ChunkPool.pool_ok cap p m start → 0 ≤ j < ChunkPool.total p → chunk_valid m (slot_at start j).
Proof.
  intros [Hcs _ _ _ Hv _] Hj. unfold slot_at, ChunkPool.slotSize in *. unfold ChunkUtil.CHUNK_IDENTIFIER_SIZE in *.
  eapply valid_sub; [exact Hv|nia..].
Qed.
Lemma pool_slot_apart start j j' q : j ≠ j' →
  in_range (slot_at start j) (ChunkUtil.CHUNK_IDENTIFIER_SIZE + cap) q → ¬ in_range (slot_at start j') (ChunkPool.slotSize cap) q.
Proof.
  intros Hne [_ Hq] [_ Hq']. unfold slot_at, ChunkPool.slotSize, ChunkUtil.CHUNK_IDENTIFIER_SIZE in *. simpl in *. pose proof ec_sizes. nia.
Qed.
Lemma pool_slot_inj start j j' : slot_at start j = slot_at start j' → j = j'.
Proof.
  unfold slot_at, padd, ChunkPool.slotSize, ChunkUtil.CHUNK_IDENTIFIER_SIZE. intros [= H]. pose proof ec_sizes. nia.
Qed.

(** Chunk [c] of the pool holds the objects [os] of stripe [s]. *)
Record chunk_in (sh : Shared) (start c : ptr) (l s ch : Z) (os : list obj) : Prop := {
  ci_slot : ∃ j, 0 ≤ j < ChunkPool.count (s_pool sh) ∧ c = slot_at start j;
  ci_layout : layout cap (s_mem sh) c os (cap - zlen (objs_bytes cap os));
  ci_get : ChunkUtil.get (s_mem sh) c = Some (l, s, ch);
  ci_keys : Forall (λ o, o_key o ≠ []) os;
}.

Lemma chunk_in_frame sh sh' start c l s ch os :
  chunk_in sh start c l s ch os → chunk_valid (s_mem sh) c → same_chunk (s_mem sh) (s_mem sh') c →
  ChunkPool.count (s_pool sh) ≤ ChunkPool.count (s_pool sh') → chunk_in sh' start c l s ch os.
Proof.
  intros [(j & Hj & ->) HL Hg Hk] Hv Hs Hle. split; [exists j; split; [lia|done]|by eapply same_chunk_layout| |done].
  by rewrite (same_chunk_get (s_mem sh)).
Qed.

Abbreviation used_stripes sh l := (default ∅ (stripeIds (s_map sh) !! l)).

(** [slots]: the open chunks; [closed]: those that were sealed. *)
Record dinv (sh : Shared) (b : DataChunkBuffer) (start : ptr) (slots : list slot) (closed : list (ptr * slot)) : Prop := {
  d_sizes : chunk_sizes cap ∧ ec_m ≠ 0;
  d_ids : 0 ≤ listId b < 2 ^ 8 ∧ 0 ≤ chunkId b < ec_k ∧ ec_k ≤ 2 ^ 8;
  d_count : 0 < count b ∧ count b = zlen slots ∧ zlen (chunks b) = zlen slots ∧ zlen (sizes b) = zlen slots;
  d_pool : ChunkPool.pool_ok cap (s_pool sh) (s_mem sh) start;
  d_zeros : blk zeros ≠ blk start;
  d_map : ∃ M, chunk_table cap (s_mem sh) (s_map sh) M ∧
    ∀ id p, M !! id = Some p → ∃ j, 0 ≤ j < ChunkPool.count (s_pool sh) ∧ p = slot_at start j;
  d_slots : ∀ i s os, zget slots i = Some (s, os) →
    (∃ c, zget (chunks b) i = Some c ∧ chunk_in sh start c (listId b) s (chunkId b) os) ∧
    zget (sizes b) i = Some (zlen (objs_bytes cap os)) ∧ s ∈ used_stripes sh (listId b);
  d_inj : ∀ i j c, zget (chunks b) i = Some c → zget (chunks b) j = Some c → i = j;
  d_closed : ∀ c s os, (c, (s, os)) ∈ closed →
    chunk_in sh start c (listId b) s (chunkId b) os ∧ (∀ i, zget (chunks b) i ≠ Some c) ∧
    Metadata.set (listId b) s (chunkId b) ∈ sealed (s_map sh);
  d_plain : reInsertedChunks b = [];
}.

Lemma chunk_in_valid sh start p c l s ch os :
  ChunkPool.pool_ok cap p (s_mem sh) start → ChunkPool.count (s_pool sh) ≤ ChunkPool.total p →
  chunk_in sh start c l s ch os → chunk_valid (s_mem sh) c.
Proof. intros Hp Hle [(j & Hj & ->) _ _ _]. eapply pool_slot_valid; [done|lia]. Qed.

(** ** Flushing *)

(** What flushing slot [i] leaves: a new chunk of stripe [s'] instead of the
    chunk [c] with the objects [os], for which a request is sent. *)
Record flushed (sh : Shared) (b : DataChunkBuffer) (w : Worker) (start : ptr) (slots : list slot) (closed : list (ptr * slot))
    (i : Z) (c : ptr) (s : Z) (os : list obj) (s' : Z) (sh' : Shared) (b' : DataChunkBuffer) (w' : Worker) : Prop := {
  fl_inv : dinv sh' b' start (<[Z.to_nat i := (s', [])]> slots) (closed ++ [(c, (s, os))]);
  fl_worker : worker_ok w';
  fl_request : requested w w' (Metadata.set (listId b) s (chunkId b)) os;
  fl_ids : listId b' = listId b ∧ chunkId b' = chunkId b ∧ stripeId b' = u32 (s' + 1);
  fl_stripes : used_stripes sh' (listId b) = {[ s' ]} ∪ used_stripes sh (listId b);
  fl_pool : ChunkPool.total (s_pool sh') = ChunkPool.total (s_pool sh) ∧ ChunkPool.count (s_pool sh') = ChunkPool.count (s_pool sh) + 1;
  fl_frame : ∀ x, x ≠ blk start → s_mem sh' !! x = s_mem sh !! x;
}.

Lemma nextStripe_map m t l M : chunk_table cap m t M → chunk_table cap m (set_stripeIds t (<[l := default ∅ (stripeIds t !! l)]> (stripeIds t))) M.
Proof. done. Qed.

Lemma flushAt_spec sh b w start slots closed i s os c x sealedp :
  dinv sh b start slots closed → worker_ok w → zget slots i = Some (s, os) → zget (chunks b) i = Some c →
  ChunkPool.count (s_pool sh) < ChunkPool.total (s_pool sh) →
  0 ≤ stripeId b ≤ x → x < 2 ^ 32 → x ∉ used_stripes sh (listId b) →
  ∃ s' sh' b' w', flushAt cap ec_k ec_m zeros rand b sh w i sealedp =
      Some (c, if sealedp then Some (Metadata.set (listId b) s (chunkId b)) else None, b', sh', w') ∧
    stripeId b ≤ s' ≤ x ∧ s' ∉ used_stripes sh (listId b) ∧ flushed sh b w start slots closed i c s os s' sh' b' w'.
Proof.
  intros Hinv Hw Hsl Hc Hroom Hx0 Hx32 Hxf. destruct Hinv as [[Hcs Hm0] (Hl & Hch & Hk8) (Hn0 & Hns & Hnc & Hnz) Hpool Hzb (M & HM & HMs) Hslots Hinj Hclosed Hplain].
  destruct (Hslots i s os Hsl) as ((c0 & Hc0 & Hci) & Hsz & Hsu). assert (c0 = c) as -> by congruence.
  pose proof (zget_Some _ _ _ Hsl) as Hir. pose proof (zget_Some _ _ _ Hc) as Hirc. pose proof (ChunkPool.ok_total _ _ _ _ Hpool) as Htot.
  assert (Hval : ∀ c l s ch os, chunk_in sh start c l s ch os → chunk_valid (s_mem sh) c).
  { intros. eapply chunk_in_valid; [done|lia|done]. }
  unfold flushAt. rewrite Hc. cbn [mbind option_bind]. pose proof (ci_get _ _ _ _ _ _ _ Hci) as Hg. destruct (get_parts _ _ _ _ _ Hg) as (_ & Hmd & _).
  rewrite Hmd. assert (Hsel : (if sealedp then Some <$> Some (Metadata.set (listId b) s (chunkId b)) else Some None) =
    Some (if sealedp then Some (Metadata.set (listId b) s (chunkId b)) else None)) by by destruct sealedp.
  rewrite Hsel. cbn [mbind option_bind]. rewrite zset_Some by lia. cbn [mbind option_bind].
  destruct (nextStripeID_fresh (s_map sh) (listId b) (stripeId b) x Hx0 Hx32 Hxf) as (s' & t1 & -> & Hs' & Hs'f & Ht1). cbn [mbind option_bind].
  destruct (ChunkPool.alloc_ok cap junk (s_pool sh) (s_mem sh) start (listId b) s' (chunkId b) Hpool Hroom Hl ltac:(lia) ltac:(lia))
    as (m1 & -> & Hok1 & Hget1 & Hz1 & S1 & F1). cbn [mbind option_bind].
  change (start +ₚ ChunkPool.count (s_pool sh) * ChunkPool.slotSize cap) with (slot_at start (ChunkPool.count (s_pool sh))) in *.
  set (n := ChunkPool.count (s_pool sh)) in *. set (nc := slot_at start n) in *.
  assert (Hsame : ∀ j, 0 ≤ j < n → same_chunk (s_mem sh) m1 (slot_at start j)).
  { intros j Hj. split; [done|]. intros q Hq. apply F1. eapply pool_slot_apart; [|exact Hq]. lia. }
  assert (Hvn : chunk_valid m1 nc) by (apply (pool_slot_valid _ _ _ _ Hok1); simpl; lia).
  destruct (load_valid m1 nc ChunkUtil.CHUNK_IDENTIFIER_SIZE) as [id Hid]; [eapply valid_prefix; [exact Hvn|pose proof ec_sizes; unfold ChunkUtil.CHUNK_IDENTIFIER_SIZE; lia]|].
  assert (HM1 : chunk_table cap m1 t1 M).
  { subst t1. apply nextStripe_map. eapply chunk_table_mem; [done|]. intros k p Hp. destruct (HMs k p Hp) as (j & Hj & ->).
    rewrite <- (padd_0 (slot_at start j)). apply same_chunk_load; [eapply pool_slot_valid; [done|lia]|by apply Hsame|lia|..]; pose proof ec_sizes; unfold ChunkUtil.CHUNK_IDENTIFIER_SIZE; lia. }
  destruct (setChunk_empty m1 t1 M (listId b) s' (chunkId b) nc id Hcs HM1 Hid Hz1) as (t2 & added & -> & HM2 & Hsb). cbn [mbind option_bind].
  rewrite zset_Some by lia. cbn [mbind option_bind].
  set (sh1 := MkShared m1 (ChunkPool.set_count (s_pool sh) (n + 1)) t2).
  assert (Hci1 : ∀ t c l s ch os, chunk_in sh start c l s ch os → chunk_in (MkShared m1 (ChunkPool.set_count (s_pool sh) (n + 1)) t) start c l s ch os).
  { intros t c1 l1 s1 ch1 os1 H1. pose proof (ci_slot _ _ _ _ _ _ _ H1) as (j & Hj & ->).
    eapply chunk_in_frame; [done|by eapply Hval|by apply Hsame|simpl; lia]. }
  pose proof (Hci1 t2 _ _ _ _ _ Hci) as [_ HL1 Hg1 Hk1]. destruct (get_parts _ _ _ _ _ Hg1) as (_ & Hmd1 & _).
  destruct (issue_spec w m1 c os _ (listId b) s (chunkId b) Hcs Hw HL1 Hk1) as (w' & -> & Hw' & Hreq); try done.
  { intros ->. apply Hzb. destruct (ci_slot _ _ _ _ _ _ _ Hci) as (j & _ & ->). done. }
  cbn [mbind option_bind]. cbn [s_mem] in Hmd1. rewrite Hmd1. cbn [mbind option_bind].
  eexists s', _, _, w'. split; [done|]. split; [done|]. split; [done|].
  destruct Hsb as (_ & _ & _ & _ & _ & Hsealed & Hst). assert (Hst' : used_stripes sh1 (listId b) = {[ s' ]} ∪ used_stripes sh (listId b)).
  { simpl. rewrite Hst, lookup_insert_eq. subst t1. simpl. by rewrite lookup_insert_eq. }
  assert (Hnew : ∀ j, zget (chunks b) j ≠ Some nc).
  { intros j Hj. pose proof (zget_Some _ _ _ Hj) as Hjr. destruct (zget_is_Some slots j) as [[sj oj] Ej]; [lia|].
    destruct (Hslots j sj oj Ej) as ((c1 & Hc1 & H1) & _). assert (c1 = nc) as -> by congruence.
    destruct (ci_slot _ _ _ _ _ _ _ H1) as (j' & Hj' & He). apply pool_slot_inj in He. lia. }
  constructor; try done.
  - constructor; cbn [set_slot listId stripeId chunkId count chunks sizes reInsertedChunks reInsertedChunkMaxSpace s_pool s_mem s_map]; try done.
    + unfold zlen in *. rewrite !length_insert. done.
    + exists (if added then <[id := nc]> M else M). split; [exact HM2|]. intros id' p Hp.
      destruct added; [apply lookup_insert_Some in Hp as [[<- <-]|[_ Hp]]|]; [exists n; split; [simpl; lia|done]|..];
        (destruct (HMs _ _ Hp) as (j & Hj & ->); exists j; split; [simpl; lia|done]).
    + intros j sj oj. rewrite zget_insert by lia. rewrite !zget_insert by lia. destruct (decide (j = i)) as [->|Hne].
      * intros [= <- <-]. split; [|split; [done|]].
        -- exists nc. split; [done|]. split; [exists n; split; [simpl; lia|done]| |done|constructor].
           change (zlen (objs_bytes cap [])) with 0. rewrite Z.sub_0_r. by apply zero_layout.
        -- change (s' ∈ used_stripes sh1 (listId b)). rewrite Hst'. set_solver.
      * intros Hj. destruct (Hslots j sj oj Hj) as ((cj & Hcj & Hij) & Hszj & Huj). split; [|split; [done|]].
        -- exists cj. split; [done|]. exact (Hci1 _ _ _ _ _ _ Hij).
        -- change (sj ∈ used_stripes sh1 (listId b)). rewrite Hst'. set_solver.
    + intros j j' c1. rewrite !zget_insert by lia. destruct (decide (j = i)) as [->|Hj], (decide (j' = i)) as [->|Hj']; try done.
      * intros [= <-] H. by destruct (Hnew j').
      * intros H [= <-]. by destruct (Hnew j).
      * apply Hinj.
    + intros c1 s1 os1 [Hin|Hin]%elem_of_app.
      * destruct (Hclosed c1 s1 os1 Hin) as (H1 & H2 & H3). split; [exact (Hci1 _ _ _ _ _ _ H1)|]. split.
        -- intros j. rewrite zget_insert by lia. destruct (decide (j = i)); [|apply H2].
           intros [= <-]. destruct (ci_slot _ _ _ _ _ _ _ H1) as (j' & Hj' & He). apply pool_slot_inj in He. lia.
        -- simpl. apply elem_of_union_r. rewrite Hsealed. by subst t1.
      * apply list_elem_of_singleton in Hin as [= -> -> ->]. split; [exact (Hci1 _ _ _ _ _ _ Hci)|]. split.
        -- intros j. rewrite zget_insert by lia. destruct (decide (j = i)) as [->|Hne].
           ++ intros [= He]. apply (Hnew i). by rewrite He.
           ++ intros He. apply Hne. by eapply Hinj.
        -- simpl. apply elem_of_union_l. by apply elem_of_singleton.
  - simpl. intros y Hy. apply block_frame; [done|]. intros q <-. apply F1. intros [Hb _]. done.
Qed.

(** ** The choice of a chunk *)

Section choice.
Context (sh : Shared) (b : DataChunkBuffer) (start : ptr) (slots : list slot) (closed : list (ptr * slot)).
Context (Hinv : dinv sh b start slots closed).

(** The bytes in slot [i]. *)
Definition fill (slots : list slot) (i : Z) : Z := default 0 ((λ '(_, os), zlen (objs_bytes cap os)) <$> zget slots i).

Lemma slot_facts i : 0 ≤ i < count b →
  zget (sizes b) i = Some (fill slots i) ∧ 0 ≤ fill slots i ≤ cap ∧
  ∃ c s, zget (chunks b) i = Some c ∧ ChunkUtil.getStripeId (s_mem sh) c = Some s.
Proof.
  intros Hi. destruct Hinv as [_ _ (_ & Hns & _) _ _ _ Hslots _ _ _]. destruct (zget_is_Some slots i) as [[s os] Es]; [lia|].
  destruct (Hslots i s os Es) as ((c & Hc & [_ HL Hg _]) & Hsz & _). unfold fill. rewrite Es. simpl.
  split; [done|]. split; [pose proof (ChunkUtil.layout_zlen _ _ _ _ _ HL); destruct HL; pose proof (zlen_nonneg (objs_bytes cap os)); lia|].
  exists c, s. split; [done|]. by destruct (get_parts _ _ _ _ _ Hg).
Qed.

Lemma best_fit_spec size : 0 < size ≤ cap →
  ∃ r, best_fit cap b (s_mem sh) size = Some r ∧
    (r = -1 ∧ (∀ i, 0 ≤ i < count b → cap < fill slots i + size) ∨
     0 ≤ r < count b ∧ fill slots r + size ≤ cap ∧
       ∀ i, 0 ≤ i < count b → fill slots i + size ≤ cap → fill slots i ≤ fill slots r).
Proof.
  intros Hsz. pose proof (d_sizes _ _ _ _ _ Hinv) as [Hcs _]. unfold chunk_sizes, ChunkUtil.chunk_sizes in Hcs.
  pose proof (d_count _ _ _ _ _ Hinv) as (Hn0 & _).
  set (P := λ i '((max, index) : Z * Z),
    (index = -1 ∧ max = 0 ∧ ∀ j, 0 ≤ j < i → cap < fill slots j + size) ∨
    (0 ≤ index < i ∧ max = fill slots index + size ∧ max ≤ cap ∧ ∀ j, 0 ≤ j < i → fill slots j + size ≤ cap → fill slots j ≤ fill slots index)).
  unfold best_fit. for_invariant P as ([max index] & -> & HP); [lia| |left; split_and!; try done; lia|].
  - intros i [max index] Hi HP. destruct (slot_facts i) as (Hs & Hb & c & si & Hc & Hsi); [lia|]. rewrite Hs. cbn [mbind option_bind].
    rewrite u32_small by lia. destruct (decide (fill slots i + size ≤ cap)) as [Hfit|Hfit].
    + destruct (decide (fill slots i + size > max)) as [Hgt|Hgt].
      * eexists. split; [done|]. right. split; [lia|]. split; [done|]. split; [done|]. intros j Hj Hjf.
        destruct (decide (j = i)) as [->|Hne]; [lia|]. destruct HP as [(_ & _ & HP)|(_ & -> & _ & HP)]; [specialize (HP j ltac:(lia)); lia|].
        specialize (HP j ltac:(lia) Hjf). lia.
      * destruct HP as [(_ & -> & HP)|(Hir & Hmax & Hmc & HP)]; [lia|].
        destruct (decide (fill slots i + size = max ∧ index ≠ -1)) as [[He _]|Hno].
        -- rewrite Hc. cbn [mbind option_bind]. rewrite Hsi. cbn [mbind option_bind].
           destruct (slot_facts index) as (_ & _ & c' & sx & -> & Hsx); [lia|]. cbn [mbind option_bind]. rewrite Hsx. cbn [mbind option_bind].
           eexists. split; [done|]. right. destruct (decide (si < sx)).
           ++ split; [lia|]. split; [lia|]. split; [lia|]. intros j Hj Hjf. destruct (decide (j = i)) as [->|]; [lia|]. specialize (HP j ltac:(lia) Hjf). lia.
           ++ split; [lia|]. split; [done|]. split; [lia|]. intros j Hj Hjf. destruct (decide (j = i)) as [->|]; [lia|]. apply HP; [lia|done].
        -- eexists. split; [done|]. right. split; [lia|]. split; [done|]. split; [done|]. intros j Hj Hjf.
           destruct (decide (j = i)) as [->|]; [lia|]. apply HP; [lia|done].
    + eexists. split; [done|]. destruct HP as [(-> & -> & HP)|(Hir & -> & Hmc & HP)]; [left|right].
      * split; [done|]. split; [done|]. intros j Hj. destruct (decide (j = i)) as [->|]; [lia|]. apply HP. lia.
      * split; [lia|]. split; [done|]. split; [done|]. intros j Hj Hjf. destruct (decide (j = i)) as [->|]; [lia|]. apply HP; [lia|done].
  - cbn [mbind option_bind]. exists index. split; [done|]. destruct HP as [(-> & _ & HP)|(Hir & -> & Hmc & HP)]; [by left|right]. done.
Qed.

Lemma fullest_spec : ∃ r, fullest b (s_mem sh) = Some r ∧ 0 ≤ r < count b ∧
  ∀ i, 0 ≤ i < count b → fill slots i ≤ fill slots r.
Proof.
  pose proof (d_count _ _ _ _ _ Hinv) as (Hn0 & _). unfold fullest. destruct (slot_facts 0) as (-> & _); [lia|]. cbn [mbind option_bind].
  set (P := λ i '((max, index) : Z * Z), 0 ≤ index < i ∧ max = fill slots index ∧ ∀ j, 0 ≤ j < i → fill slots j ≤ max).
  for_invariant P as ([max index] & -> & Hir & -> & HP).
  - lia.
  - intros i [max index] Hi (Hir & Hmax & HP). destruct (slot_facts i) as (-> & _ & c & si & Hc & Hsi); [lia|]. cbn [mbind option_bind].
    destruct (decide (fill slots i > max)) as [Hgt|Hgt]; [|destruct (decide (fill slots i = max)) as [He|Hne]].
    + eexists. split; [done|]. split; [lia|]. split; [done|]. intros j Hj. destruct (decide (j = i)) as [->|]; [lia|]. specialize (HP j ltac:(lia)). lia.
    + rewrite Hc. cbn [mbind option_bind]. rewrite Hsi. cbn [mbind option_bind].
      destruct (slot_facts index) as (_ & _ & c' & sx & -> & Hsx); [lia|]. cbn [mbind option_bind]. rewrite Hsx. cbn [mbind option_bind].
      eexists. split; [done|]. destruct (decide (si < sx)); (split; [lia|]; split; [lia|]; intros j Hj; destruct (decide (j = i)) as [->|]; [lia|apply HP; lia]).
    + eexists. split; [done|]. split; [lia|]. split; [done|]. intros j Hj. destruct (decide (j = i)) as [->|]; [lia|apply HP; lia].
  - split; [lia|]. split; [done|]. intros j Hj. by assert (j = 0) as -> by lia.
  - cbn [mbind option_bind]. exists index. split; [done|]. split; [lia|done].
Qed.
End choice.
(** ** Appending an object *)

(** The identifiers of the chunks are out of reach. *)
Lemma append_keeps_id m2 sh start p j j' n q : 0 ≤ n → p = ChunkUtil.getData (slot_at start j') +ₚ n →
  ∀ size, n + size ≤ cap → (∀ q, ¬ in_range p size q → mget m2 q = mget (s_mem sh) q) →
  in_range (slot_at start j) ChunkUtil.CHUNK_IDENTIFIER_SIZE q → mget m2 q = mget (s_mem sh) q.
Proof.
  intros Hn -> size Hsz F [Hb Hq]. apply F. intros [_ Hq'].
  unfold slot_at, ChunkUtil.getData, ChunkPool.slotSize, ChunkUtil.CHUNK_IDENTIFIER_SIZE in *. simpl in *.
  destruct (decide (j = j')) as [->|Hne]; [lia|]. pose proof ec_sizes. nia.
Qed.

Lemma append_spec sh b start slots closed r s os c o k v :
  dinv sh b start slots closed → zget slots r = Some (s, os) → zget (chunks b) r = Some c →
  obj_ok cap o → o_key o ≠ [] → zlen (objs_bytes cap os) + obj_size cap o ≤ cap →
  load (s_mem sh) k (zlen (o_key o)) = Some (o_key o) → load (s_mem sh) v (zlen (o_value o)) = Some (o_value o) →
  blk k ≠ blk start → blk v ≠ blk start →
  let p := ChunkUtil.getData c +ₚ zlen (objs_bytes cap os) in
  ∃ m1 m2,
    ChunkUtil.alloc cap ec_k zeros (Z.to_nat (cap + 1)) (s_mem sh) c (obj_size cap o) = Some (p, zlen (objs_bytes cap os), m1) ∧
    KeyValue.serialize cap m1 p (Some k) (zlen (o_key o)) (Some v) (o_valueSize o) (o_splitOffset o) = Some m2 ∧
    ChunkUtil.getSize cap ec_k zeros (Z.to_nat (cap + 1)) m2 c = Some (zlen (objs_bytes cap os) + obj_size cap o) ∧
    (∀ x, x ≠ blk start → m2 !! x = s_mem sh !! x) ∧
    dinv (set_mem sh m2) (set_sizes b (<[Z.to_nat r := zlen (objs_bytes cap os) + obj_size cap o]> (sizes b))) start
      (<[Z.to_nat r := (s, os ++ [o])]> slots) closed.
Proof.
  intros Hinv Hsl Hc Ho Hk Hsz Hlk Hlv Hbk Hbv p.
  destruct Hinv as [[Hcs Hm0] (Hl & Hch & Hk8) (Hn0 & Hns & Hnc & Hnz) Hpool Hzb (M & HM & HMs) Hslots Hinj Hclosed Hplain].
  destruct (Hslots r s os Hsl) as ((c0 & Hc0 & Hci) & Hss & Hsu). assert (c0 = c) as -> by congruence.
  pose proof (zget_Some _ _ _ Hsl) as Hir. pose proof (ChunkPool.ok_total _ _ _ _ Hpool) as Htot. pose proof ec_sizes as Hec.
  assert (Hval : ∀ c l s ch os, chunk_in sh start c l s ch os → chunk_valid (s_mem sh) c).
  { intros. eapply chunk_in_valid; [done|lia|done]. }
  destruct Hci as [(j & Hj & Hcj) HL Hg Hks] eqn:Eci. destruct (get_parts _ _ _ _ _ Hg) as (_ & _ & Hpar). rewrite bool_decide_eq_false_2 in Hpar by lia.
  pose proof (ChunkUtil.obj_size_bounds cap o Ho) as Hob. pose proof (zlen_nonneg (objs_bytes cap os)) as Hnn.
  assert (Hcz : c ≠ zeros) by (intros ->; apply Hzb; by rewrite Hcj).
  assert (Hcb : blk (ChunkUtil.getData c) = blk start) by by rewrite Hcj.
  destruct (ChunkUtil.append_layout cap ec_k zeros (s_mem sh) c k v os _ o Hcs HL Hcz Hpar Ho) as (m1 & m2 & Ha & Hse & HL2 & Hld & Hsh & Hfr);
    [lia|done|done|left; congruence|left; congruence|]. fold p in Ha, Hse, Hfr, Hld.
  assert (Hids : ∀ j q, in_range (slot_at start j) ChunkUtil.CHUNK_IDENTIFIER_SIZE q → mget m2 q = mget (s_mem sh) q).
  { intros j' q. apply (append_keeps_id m2 sh start p j' j (zlen (objs_bytes cap os)) q Hnn) with (size := obj_size cap o); [by rewrite <- Hcj|done|done]. }
  assert (Hsame : ∀ j', j' ≠ j → same_chunk (s_mem sh) m2 (slot_at start j')).
  { intros j' Hj'. split; [done|]. intros q Hq. apply Hfr. intros Hq'. apply (pool_slot_apart start j' j q Hj' Hq).
    rewrite <- Hcj. destruct Hq' as [Hb Hq']. split; [done|].
    unfold p, ChunkUtil.getData, ChunkPool.slotSize, ChunkUtil.CHUNK_IDENTIFIER_SIZE in *. simpl in *. lia. }
  assert (Hother : ∀ c' l' s' ch' os', chunk_in sh start c' l' s' ch' os' → c' ≠ c → chunk_in (set_mem sh m2) start c' l' s' ch' os').
  { intros c' l' s' ch' os' H' Hne. pose proof (ci_slot _ _ _ _ _ _ _ H') as (j' & Hj' & ->).
    eapply chunk_in_frame; [done|by eapply Hval|apply Hsame; congruence|done]. }
  assert (HL2' : layout cap m2 c (os ++ [o]) (cap - zlen (objs_bytes cap (os ++ [o])))).
  { pose proof (ChunkUtil.layout_zlen _ _ _ _ _ HL2) as Hz2. by replace (cap - zlen (objs_bytes cap (os ++ [o]))) with (cap - zlen (objs_bytes cap os) - obj_size cap o) by lia. }
  assert (Hz2 : zlen (objs_bytes cap (os ++ [o])) = zlen (objs_bytes cap os) + obj_size cap o).
  { pose proof (ChunkUtil.layout_zlen _ _ _ _ _ HL2). lia. }
  assert (Hg2 : ChunkUtil.get m2 c = Some (listId b, s, chunkId b)).
  { eapply (ChunkPool.get_frame cap junk (s_mem sh)); [intros q Hq; apply (Hids j); by rewrite <- Hcj|done| |done].
    eapply valid_prefix; [eapply Hval; exact Hci|]. unfold ChunkUtil.CHUNK_IDENTIFIER_SIZE. lia. }
  destruct (get_parts _ _ _ _ _ Hg2) as (_ & _ & Hpar2). rewrite bool_decide_eq_false_2 in Hpar2 by lia.
  exists m1, m2. split; [done|]. split; [done|]. split.
  { rewrite (ChunkUtil.layout_getSize cap ec_k zeros m2 c (os ++ [o]) _ Hcs HL2' Hcz Hpar2). by rewrite Hz2. }
  split.
  { intros y Hy. apply block_frame; [done|]. intros q Hq. apply Hfr. intros [Hb _]. apply Hy. rewrite <- Hq, Hb. done. }
  constructor; cbn [set_sizes set_slot listId stripeId chunkId count chunks sizes reInsertedChunks reInsertedChunkMaxSpace s_pool s_mem s_map set_mem]; try done.
  - unfold zlen in *. rewrite !length_insert. done.
  - destruct Hpool as [H1 H2 H3 H4 H5 H6]. split; try done. by rewrite <- Hsh.
  - exists M. split; [|done]. eapply chunk_table_mem; [done|]. intros id q Hq. destruct (HMs id q Hq) as (j' & Hj' & ->).
    apply load_frame; [done| |by apply Hids]. eapply valid_prefix; [eapply pool_slot_valid; [done|lia]|unfold ChunkUtil.CHUNK_IDENTIFIER_SIZE; lia].
  - intros i si oi. rewrite !zget_insert by lia. destruct (decide (i = r)) as [->|Hne].
    + intros [= <- <-]. split; [|split; [by rewrite Hz2|done]]. exists c. split; [done|]. split; [by exists j|exact HL2'|exact Hg2|].
      apply Forall_app. split; [done|by apply Forall_singleton].
    + intros Hi. destruct (Hslots i si oi Hi) as ((ci & Hcci & Hii) & Hszi & Hui). split; [|done].
      exists ci. split; [done|]. apply Hother; [done|]. intros ->. apply Hne. by eapply Hinj.
  - intros c1 s1 os1 Hin. destruct (Hclosed c1 s1 os1 Hin) as (H1 & H2 & H3). split; [|done]. apply Hother; [done|]. intros ->. by apply (H2 r).
Qed.
End data.
End DataProofs.
