(* ===== verification/DataPlacement.v ===== *)
(** * Where a data server puts an object

    [room] and [placed] say on lists of objects what [set] of a data chunk buffer
    does: the object goes to the end of the fullest open chunk that can hold it,
    or to a new chunk when none can, and a chunk without room for another object
    is flushed.  [place_spec]: the code, on memory, does exactly that, and tells
    the parity servers of every chunk it seals. *)

From S2P Require Export DataProofs.

Module DataPlacement.
Import Metadata ServerMap Worker DataChunkBuffer DataProofs.

Section data.
Context {C : Coding} {EC : ErasureCode C} (zeros : ptr) (junk : nat → Z → byte) (rand : nat → Z).
Abbreviation cap := ec_chunkSize.
Abbreviation dinv := (dinv zeros).
Abbreviation used_stripes sh l := (default ∅ (stripeIds (s_map sh) !! l)).

Abbreviation chunk_valid m c := (valid m c (ChunkUtil.CHUNK_IDENTIFIER_SIZE + cap)).

(** ** The contract *)

(** The chunk for [size] bytes: [room size slots slots' closed r] when the open
    chunks are [slots'] once the chunks [closed] are sealed, and [r] is chosen. *)
Inductive room (size : Z) (slots : list slot) : list slot → list slot → Z → Prop :=
| room_open r :
    0 ≤ r < zlen slots → fill slots r + size ≤ cap →
    (∀ i, 0 ≤ i < zlen slots → fill slots i + size ≤ cap → fill slots i ≤ fill slots r) →
    room size slots slots [] r
| room_new r old s :
    (∀ i, 0 ≤ i < zlen slots → cap < fill slots i + size) →
    zget slots r = Some old → (∀ i, 0 ≤ i < zlen slots → fill slots i ≤ fill slots r) →
    room size slots (<[Z.to_nat r := (s, [])]> slots) [old] r.

(** [o] is appended at [offset] of a chunk of stripe [s]. *)
Inductive placed (o : obj) (slots : list slot) : list slot → list slot → Z → Z → Prop :=
| placed_open slots1 closed r s os :
    room (obj_size cap o) slots slots1 closed r → zget slots1 r = Some (s, os) →
    zlen (objs_bytes cap (os ++ [o])) + 8 < cap →
    placed o slots (<[Z.to_nat r := (s, os ++ [o])]> slots1) closed s (zlen (objs_bytes cap os))
| placed_full slots1 closed r s os s' :
    room (obj_size cap o) slots slots1 closed r → zget slots1 r = Some (s, os) →
    cap ≤ zlen (objs_bytes cap (os ++ [o])) + 8 →
    placed o slots (<[Z.to_nat r := (s', [])]> slots1) (closed ++ [(s, os ++ [o])]) s (zlen (objs_bytes cap os)).

(** One request for every sealed chunk that is not empty. *)
Inductive announced (l ch : Z) (w : Worker) : list slot → Worker → Prop :=
| announced_nil : announced l ch w [] w
| announced_snoc w1 w2 cs s os : announced l ch w cs w1 → requested w1 w2 (Metadata.set l s ch) os → announced l ch w (cs ++ [(s, os)]) w2.

Definition metadata_of (l ch : Z) (cs : list slot) : list Metadata := (λ '(s, _), Metadata.set l s ch) <$> cs.

(** ** Supplies *)

(** [n] more chunks and stripes are available. *)
Definition supply (sh : Shared) (b : DataChunkBuffer) (n : Z) : Prop :=
  ChunkPool.count (s_pool sh) + n ≤ ChunkPool.total (s_pool sh) ∧
  ∃ x, 0 ≤ stripeId b ≤ x ∧ x + n ≤ 2 ^ 32 ∧ ∀ y, x ≤ y → y ∉ used_stripes sh (listId b).

Lemma supply_le sh b n n' : supply sh b n → n' ≤ n → supply sh b n'.
Proof. intros (Hp & x & Hx & Hn & Hu) Hle. split; [lia|]. exists x. split; [done|]. split; [lia|done]. Qed.

(** [flushAt] with supplies. *)
Lemma flush_spec sh b w start slots closed i s os c n sealedp :
  dinv sh b start slots closed → worker_ok w → zget slots i = Some (s, os) → zget (chunks b) i = Some c → supply sh b n → 0 < n →
  ∃ s' sh' b' w', flushAt cap ec_k ec_m zeros rand b sh w i sealedp =
      Some (c, if sealedp then Some (Metadata.set (listId b) s (chunkId b)) else None, b', sh', w') ∧
    supply sh' b' (n - 1) ∧ flushed zeros sh b w start slots closed i c s os s' sh' b' w'.
Proof.
  intros Hinv Hw Hsl Hc (Hp & x & Hx & Hn & Hu) Hn0.
  destruct (flushAt_spec zeros junk rand sh b w start slots closed i s os c x sealedp) as (s' & sh' & b' & w' & E & Hs' & Hs'f & Hfl); try done; try lia.
  { by apply Hu. }
  exists s', sh', b', w'. split; [done|]. split; [|done]. destruct Hfl as [_ _ _ (Hid & _ & Hst) Hus (Ht & Hct) _]. split; [lia|].
  exists (x + 1). rewrite Hst. split; [|split; [lia|]].
  - split; [apply u32_range|]. unfold u32. pose proof (Z.mod_le (s' + 1) (2 ^ 32)). lia.
  - intros y Hy. rewrite Hid, Hus. intros [Hys%elem_of_singleton|Hys]%elem_of_union; [lia|]. by apply (Hu y); [lia|].
Qed.
(** ** The steps of [set] *)
Lemma object_room_spec o : obj_ok cap o →
  object_room cap (zlen (o_key o)) (o_valueSize o) (o_splitOffset o) = Some (obj_size cap o, KeyValue.is_large cap (zlen (o_key o)) (o_valueSize o)).
Proof.
  intros Ho. pose proof (ChunkUtil.obj_size_bounds cap o Ho) as Hb. destruct Ho as ((Hs & Hso & Hv & _) & _). unfold object_room.
  destruct (KeyValue.isLarge_is_large cap (zlen (o_key o)) (o_valueSize o) Hs) as (si & Hsi & Hlg & _). pose proof (KeyValue.payload_clamp cap _ _ _ _ Hs Hso Hsi) as Hcl.
  rewrite Hsi. cbn [mbind option_bind]. rewrite Hlg in Hcl |- *. rewrite ParityProofs.obj_size_eq in *.
  destruct Hs as (? & ? & ?). pose proof (zlen_nonneg (o_value o)). unfold PROTO_KEY_VALUE_SIZE, KeyValue.SPLIT_OFFSET_SIZE, KeyValue.KEY_VALUE_METADATA_SIZE in *.
  destruct (KeyValue.is_large cap (zlen (o_key o)) (o_valueSize o)) eqn:El; do 2 f_equal; rewrite <- Hcl in Hv; rewrite Hv in *.
  - rewrite (u32_small (4 + _ + _)) by lia. rewrite u32_small; lia.
  - rewrite u32_small; lia.
Qed.

Lemma choose_spec sh b w start slots closed n size wantSealed :
  dinv sh b start slots closed → worker_ok w → 0 < size ≤ cap → supply sh b n → 0 < n →
  ∃ c r sh1 b1 w1 slots1 new,
    choose_chunk cap ec_k ec_m zeros rand b sh w size wantSealed = Some (c, r, (if wantSealed then metadata_of (listId b) (chunkId b) (snd <$> new) else []), b1, sh1, w1) ∧
    room size slots slots1 (snd <$> new) r ∧ announced (listId b) (chunkId b) w (snd <$> new) w1 ∧
    dinv sh1 b1 start slots1 (closed ++ new) ∧ worker_ok w1 ∧ zget (chunks b1) r = Some c ∧
    listId b1 = listId b ∧ chunkId b1 = chunkId b ∧ supply sh1 b1 (n - zlen new) ∧
    (∀ x, x ≠ blk start → s_mem sh1 !! x = s_mem sh !! x) ∧ zlen new ≤ 1.
Proof.
  intros Hinv Hw Hsz Hsup Hn. unfold choose_chunk. rewrite (d_plain _ _ _ _ _ _ Hinv).
  replace (if decide (size ≤ reInsertedChunkMaxSpace b) then _ else Some None) with (Some (@None ptr)) by (by destruct (decide _)). cbn [mbind option_bind].
  pose proof (d_count _ _ _ _ _ _ Hinv) as (_ & Hcnt & Hcs & _).
  destruct (best_fit_spec zeros junk sh b start slots closed Hinv size Hsz) as (r & -> & Hr). cbn [mbind option_bind]. rewrite Hcnt in Hr.
  destruct Hr as [[-> Hno]|(Hr & Hfit & Hbest)].
  - rewrite decide_True by done. unfold flush. destruct (fullest_spec zeros junk sh b start slots closed Hinv) as (r & -> & Hr & Hfull). rewrite Hcnt in Hr, Hfull. cbn [mbind option_bind].
    destruct (zget_is_Some slots r Hr) as [[s os] Hsl]. destruct (zget_is_Some (chunks b) r) as [c Hc]; [lia|].
    destruct (flush_spec sh b w start slots closed r s os c n wantSealed Hinv Hw Hsl Hc Hsup Hn) as (s' & sh1 & b1 & w1 & -> & Hsup1 & Hfl). cbn [mbind option_bind].
    destruct Hfl as [Hinv1 Hw1 Hreq (Hid & Hch & _) _ _ Hfr].
    pose proof (d_count _ _ _ _ _ _ Hinv1) as (_ & _ & Hcs1 & _). destruct (zget_is_Some (chunks b1) r) as [c1 Hc1].
    { rewrite Hcs1. unfold zlen in *. rewrite length_insert. lia. }
    rewrite Hc1. cbn [mbind option_bind]. exists c1, r, sh1, b1, w1, (<[Z.to_nat r:=(s', [])]> slots), [(c, (s, os))]. split; [by destruct wantSealed|].
    split; [by apply (room_new _ _ r (s, os) s')|]. split.
    { apply (announced_snoc _ _ _ w w1 []); [constructor|done]. }
    done.
  - rewrite decide_False by lia. cbn [mbind option_bind]. destruct (zget_is_Some (chunks b) r) as [c Hc]; [lia|]. rewrite Hc. cbn [mbind option_bind].
    exists c, r, sh, b, w, slots, []. rewrite app_nil_r. split; [by destruct wantSealed|]. split; [by constructor|]. split; [constructor|].
    split_and!; try done. change (zlen []) with 0. by rewrite Z.sub_0_r.
Qed.
(** What [place_object] leaves. *)
Record placement (sh : Shared) (b : DataChunkBuffer) (w : Worker) (start : ptr) (slots : list slot) (closed : list (ptr * slot)) (o : obj)
    (c : ptr) (s offset : Z) (slots' : list slot) (new : list (ptr * slot)) (sh' : Shared) (b' : DataChunkBuffer) (w' : Worker) : Prop := {
  pl_placed : placed o slots slots' (snd <$> new) s offset;
  pl_inv : dinv sh' b' start slots' (closed ++ new);
  pl_worker : worker_ok w';
  pl_requests : announced (listId b) (chunkId b) w (snd <$> new) w';
  pl_object : load (s_mem sh') (ChunkUtil.getData c +ₚ offset) (obj_size cap o) = Some (obj_bytes cap o);
  pl_ids : listId b' = listId b ∧ chunkId b' = chunkId b;
  pl_frame : ∀ x, x ≠ blk start → s_mem sh' !! x = s_mem sh !! x;
}.

(** The bytes of the objects of a chunk. *)
Lemma chunk_in_obj sh start c l s ch pre o post : chunk_in sh start c l s ch (pre ++ o :: post) →
  load (s_mem sh) (ChunkUtil.getData c +ₚ zlen (objs_bytes cap pre)) (obj_size cap o) = Some (obj_bytes cap o).
Proof.
  intros [_ (_ & Hok & Hl) _ _]. apply (ChunkUtil.load_obj cap _ _ _ _ (objs_bytes cap post ++ replicate (Z.to_nat (cap - zlen (objs_bytes cap (pre ++ o :: post)))) x00)).
  { rewrite Forall_app, Forall_cons in Hok. apply Hok. }
  rewrite Hl. f_equal. rewrite ChunkUtil.objs_bytes_app. change (objs_bytes cap (o :: post)) with (obj_bytes cap o ++ objs_bytes cap post). by rewrite <- !app_assoc.
Qed.

Lemma place_spec sh b w start slots closed n o k v opcode wantSealed :
  dinv sh b start slots closed → worker_ok w → obj_ok cap o → o_key o ≠ [] → supply sh b n → 1 < n →
  load (s_mem sh) k (zlen (o_key o)) = Some (o_key o) → load (s_mem sh) v (zlen (o_value o)) = Some (o_value o) →
  blk k ≠ blk start → blk v ≠ blk start →
  ∃ c s offset slots' new sh' b' w',
    place_object cap ec_k ec_m zeros rand b sh w k (zlen (o_key o)) v (o_valueSize o) opcode (o_splitOffset o) wantSealed =
      Some (MkKeyMetadata (Metadata.set (listId b) s (chunkId b)) offset (obj_size cap o) (bool_decide (opcode = PROTO_OPCODE_DEGRADED_SET))
              (ChunkUtil.getData c +ₚ offset),
            if wantSealed then metadata_of (listId b) (chunkId b) (snd <$> new) else [], b', sh', w') ∧
    placement sh b w start slots closed o c s offset slots' new sh' b' w' ∧ supply sh' b' (n - zlen new) ∧ zlen new ≤ 2.
Proof.
  intros Hinv Hw Ho Hk Hsup Hn Hlk Hlv Hbk Hbv. pose proof (ChunkUtil.obj_size_bounds cap o Ho) as Hb. pose proof (d_sizes _ _ _ _ _ _ Hinv) as [[_ Hc31] _].
  unfold place_object. rewrite object_room_spec by done. cbn [mbind option_bind].
  assert (Hb0 : 0 < obj_size cap o ≤ cap) by lia. assert (Hn1 : 0 < n) by lia.
  destruct (choose_spec sh b w start slots closed n (obj_size cap o) wantSealed Hinv Hw Hb0 Hsup Hn1)
    as (c & r & sh1 & b1 & w1 & slots1 & new & -> & Hroom & Hann & Hinv1 & Hw1 & Hc & Hid & Hch & Hsup1 & Hfr1 & Hnew). cbn [mbind option_bind].
  pose proof (d_count _ _ _ _ _ _ Hinv1) as (_ & Hcnt1 & Hcs1 & Hsz1). pose proof (zget_Some _ _ _ Hc) as Hr.
  destruct (zget_is_Some slots1 r) as [[s os] Hsl]; [lia|].
  destruct (d_slots _ _ _ _ _ _ Hinv1 r s os Hsl) as ((c0 & Hc0 & [_ HL Hg _]) & Hss & _). assert (c0 = c) as -> by congruence.
  destruct (get_parts _ _ _ _ _ Hg) as (-> & _). cbn [mbind option_bind].
  assert (Hfit : zlen (objs_bytes cap os) + obj_size cap o ≤ cap).
  { destruct Hroom as [r Hr' Hfit _|r old s0 _ Hold _].
    - unfold fill in Hfit. by rewrite Hsl in Hfit.
    - rewrite zget_insert in Hsl by exact (zget_Some _ _ _ Hold). rewrite decide_True in Hsl by done. injection Hsl as <- <-. change (zlen (objs_bytes cap [])) with 0. lia. }
  assert (Hlk1 : load (s_mem sh1) k (zlen (o_key o)) = Some (o_key o)) by (rewrite <- Hlk; by apply load_block, Hfr1).
  assert (Hlv1 : load (s_mem sh1) v (zlen (o_value o)) = Some (o_value o)) by (rewrite <- Hlv; by apply load_block, Hfr1).
  destruct (append_spec zeros junk sh1 b1 start slots1 (closed ++ new) r s os c o k v Hinv1 Hsl Hc Ho Hk Hfit Hlk1 Hlv1 Hbk Hbv)
    as (m1 & m2 & -> & Hser & Hgs & Hfr2 & Hinv2). cbn [mbind option_bind].
  rewrite decide_True by lia. rewrite Hss. cbn [mbind option_bind]. rewrite zset_Some by lia. cbn [mbind option_bind].
  rewrite Hser. cbn [mbind option_bind]. rewrite Hgs. cbn [mbind option_bind].
  pose proof (zlen_nonneg (objs_bytes cap os)) as Hnn. rewrite (u32_small (_ + obj_size cap o)) by lia.
  unfold PROTO_KEY_VALUE_SIZE, CHUNK_BUFFER_FLUSH_THRESHOLD. rewrite (u32_small (_ + 4 + 4)) by lia.
  set (b2 := set_sizes b1 _) in *. set (sh2 := set_mem sh1 m2) in *.
  assert (Hz2 : zlen (objs_bytes cap (os ++ [o])) = zlen (objs_bytes cap os) + obj_size cap o).
  { rewrite ChunkUtil.objs_bytes_app, zlen_app. change (objs_bytes cap [o]) with (obj_bytes cap o ++ []). by rewrite app_nil_r. }
  assert (Hsl2 : zget (<[Z.to_nat r := (s, os ++ [o])]> slots1) r = Some (s, os ++ [o])) by (rewrite zget_insert by lia; by rewrite decide_True).
  assert (Hfr12 : ∀ x, x ≠ blk start → s_mem sh2 !! x = s_mem sh !! x) by (intros x Hx; rewrite <- Hfr1 by done; by apply Hfr2).
  change (listId b2) with (listId b1). change (chunkId b2) with (chunkId b1). rewrite Hid, Hch.
  destruct (decide (cap ≤ _)) as [Hfull|Hfull].
  - rewrite decide_True by lia. assert (Hn2 : 0 < n - zlen new) by lia.
    destruct (flush_spec sh2 b2 w1 start _ (closed ++ new) r s (os ++ [o]) c (n - zlen new) wantSealed Hinv2 Hw1 Hsl2 Hc Hsup1 Hn2)
      as (s' & sh3 & b3 & w3 & -> & Hsup3 & Hfl). cbn [mbind option_bind]. destruct Hfl as [Hinv3 Hw3 Hreq (Hid3 & Hch3 & _) _ _ Hfr3].
    change (listId b2) with (listId b1) in *. change (chunkId b2) with (chunkId b1) in *. rewrite Hid, Hch in *.
    rewrite list_insert_insert_eq in Hinv3. rewrite <- app_assoc in Hinv3.
    exists c, s, (zlen (objs_bytes cap os)), (<[Z.to_nat r := (s', [])]> slots1), (new ++ [(c, (s, os ++ [o]))]), sh3, b3, w3. split.
    { do 4 f_equal. unfold metadata_of. rewrite !fmap_app. by destruct wantSealed. }
    split; [|split; [by replace (n - zlen (new ++ [(c, (s, os ++ [o]))])) with (n - zlen new - 1) by (rewrite zlen_app; change (zlen [_]) with 1; lia)|
      rewrite zlen_app; change (zlen [(c, (s, os ++ [o]))]) with 1; lia]].
    split; [|done|done| | |done|intros x Hx; by rewrite Hfr3, Hfr12].
    + rewrite fmap_app. apply placed_full; [done|done|lia].
    + rewrite fmap_app. by eapply announced_snoc.
    + destruct (d_closed _ _ _ _ _ _ Hinv3 c s (os ++ [o])) as (Hci & _); [apply elem_of_app; right; apply elem_of_app; right; by apply list_elem_of_singleton|].
      by eapply chunk_in_obj.
  - exists c, s, (zlen (objs_bytes cap os)), (<[Z.to_nat r := (s, os ++ [o])]> slots1), new, sh2, b2, w1. split; [done|]. split; [|split; [exact Hsup1|lia]].
    split; [|done|done|done| |by change (listId b2) with (listId b1); change (chunkId b2) with (chunkId b1)|done].
    + apply placed_open; [done|done|lia].
    + destruct (d_slots _ _ _ _ _ _ Hinv2 r s (os ++ [o]) Hsl2) as ((c1 & Hc1 & Hci) & _). assert (c1 = c) as -> by (change (chunks b2) with (chunks b1) in Hc1; congruence).
      by eapply chunk_in_obj.
Qed.
(** ** A new buffer *)

(** After [alloc_chunks]: [n] empty chunks of the pool, from slot [n0] on. *)
Record allocated (sh : Shared) (start : ptr) (n0 n : Z) (cs : list ptr) (sh' : Shared) : Prop := {
  al_pool : ChunkPool.pool_ok cap (s_pool sh') (s_mem sh') start;
  al_count : ChunkPool.count (s_pool sh') = n0 + n ∧ ChunkPool.total (s_pool sh') = ChunkPool.total (s_pool sh);
  al_map : s_map sh' = s_map sh;
  al_chunks : zlen cs = n ∧ ∀ j, 0 ≤ j < n → zget cs j = Some (slot_at start (n0 + j)) ∧ chunk_is cap (s_mem sh') (slot_at start (n0 + j)) (λ _, x00);
  al_frame : ∀ j, 0 ≤ j < n0 → same_chunk (s_mem sh) (s_mem sh') (slot_at start j);
  al_blocks : ∀ x, x ≠ blk start → s_mem sh' !! x = s_mem sh !! x;
}.

Lemma zget_snoc {A} (xs : list A) x j : zget (xs ++ [x]) j = if decide (j = zlen xs) then Some x else zget xs j.
Proof.
  unfold zget, zlen. case_decide as Hj; [|case_decide; [lia|done]]. case_decide as He.
  - subst. rewrite lookup_app_r by lia. by replace (Z.to_nat (Z.of_nat (length xs)) - length xs)%nat with 0%nat by lia.
  - destruct (decide (Z.to_nat j < length xs)%nat); [by rewrite lookup_app_l|].
    rewrite !lookup_ge_None_2; [done|lia|rewrite length_app; simpl; lia].
Qed.

Lemma same_chunk_refl m c : same_chunk m m c.
Proof. done. Qed.
Lemma same_chunk_trans m m1 m2 c : same_chunk m m1 c → same_chunk m1 m2 c → same_chunk m m2 c.
Proof. intros [S1 F1] [S2 F2]. split; [by etrans|]. intros q Hq. by rewrite F2, F1. Qed.

Lemma same_chunk_is m m' c f : same_chunk m m' c → chunk_is cap m c f → chunk_is cap m' c f.
Proof.
  intros [Hs Hf] Hc i Hi. rewrite Hf; [by apply Hc|]. unfold in_range, ChunkUtil.getData, ChunkUtil.CHUNK_IDENTIFIER_SIZE. simpl. lia.
Qed.

Lemma alloc_chunks_spec sh start n :
  ChunkPool.pool_ok cap (s_pool sh) (s_mem sh) start → 0 ≤ n → ChunkPool.count (s_pool sh) + n ≤ ChunkPool.total (s_pool sh) →
  ∃ cs sh', alloc_chunks cap sh n = Some (cs, sh') ∧ allocated sh start (ChunkPool.count (s_pool sh)) n cs sh'.
Proof.
  intros Hpool Hn Hroom. set (n0 := ChunkPool.count (s_pool sh)) in *. unfold alloc_chunks. pose proof (ChunkPool.ok_total _ _ _ _ Hpool) as Htot.
  for_invariant (λ i '(cs, sh'), allocated sh start n0 i cs sh') as ([cs sh'] & -> & Hal);
    [done| |split; try done; [split; [unfold n0; lia|done]|split; [done|intros; lia]]|by exists cs, sh'].
  intros i [cs sh1] Hi [Hp1 [Hc1 Ht1] Hm1 [Hz1 Hch1] Hf1 Hb1].
  destruct (ChunkPool.alloc_ok cap junk (s_pool sh1) (s_mem sh1) start 0 0 0 Hp1) as (m2 & -> & Hp2 & _ & Hz2 & S2 & F2); [lia..|].
  cbn [mbind option_bind]. eexists. split; [done|]. rewrite Hc1 in *. fold (slot_at start (n0 + i)) in *.
  assert (Hsame : ∀ j, j ≠ n0 + i → same_chunk (s_mem sh1) m2 (slot_at start j)).
  { intros j Hj. split; [done|]. intros q Hq. apply F2. by eapply pool_slot_apart. }
  split; [exact Hp2|simpl; split; [lia|done]|done| | |].
  - split; [rewrite zlen_app; change (zlen [_]) with 1; lia|]. intros j Hj. rewrite zget_snoc, Hz1. destruct (decide (j = i)) as [->|Hne]; [done|].
    destruct (Hch1 j ltac:(lia)) as [Hg Hz]. split; [done|]. eapply same_chunk_is; [apply Hsame; lia|done].
  - intros j Hj. eapply same_chunk_trans; [by apply Hf1|]. apply Hsame. lia.
  - intros x Hx. cbn [s_mem]. rewrite <- Hb1 by done. apply block_frame; [done|]. intros q <-. apply F2. intros [Hb _]. by apply Hx.
Qed.
Abbreviation free_from sh b x := (0 ≤ stripeId b ≤ x ∧ ∀ y, x ≤ y → y ∉ used_stripes sh (listId b)).

(** The first [i] of the [n] chunks belong to a stripe; [x] and all after it are free. *)
Record started (sh : Shared) (b : DataChunkBuffer) (start : ptr) (n0 x i : Z) (b' : DataChunkBuffer) (sh' : Shared) (slots : list slot) : Prop := {
  st_buffer : b' = set_slot b (stripeId b') (chunks b) (sizes b);
  st_pool : s_pool sh' = s_pool sh ∧ ChunkPool.pool_ok cap (s_pool sh) (s_mem sh') start;
  st_map : ∃ M, chunk_table cap (s_mem sh') (s_map sh') M ∧ ∀ id p, M !! id = Some p → ∃ j, 0 ≤ j < n0 + i ∧ p = slot_at start j;
  st_slots : zlen slots = i ∧ ∀ j s os, zget slots j = Some (s, os) →
    os = [] ∧ chunk_in sh' start (slot_at start (n0 + j)) (listId b) s (chunkId b) [] ∧ s ∈ used_stripes sh' (listId b);
  st_rest : ∀ j, n0 + i ≤ j < ChunkPool.count (s_pool sh) → chunk_is cap (s_mem sh') (slot_at start j) (λ _, x00);
  st_free : free_from sh' b' (x + i);
  st_blocks : ∀ y, y ≠ blk start → s_mem sh' !! y = s_mem sh !! y;
}.

Lemma init_step sh b start n0 x i b' sh' slots :
  chunk_sizes cap → 0 ≤ listId b < 2 ^ 8 → 0 ≤ chunkId b < 2 ^ 8 → 0 ≤ n0 → 0 ≤ i → n0 + i < ChunkPool.count (s_pool sh) → x + i < 2 ^ 32 →
  zget (chunks b) i = Some (slot_at start (n0 + i)) → started sh b start n0 x i b' sh' slots →
  ∃ b'' sh'' s, ('(stripe, map) ← nextStripeID (s_map sh') (listId b') (stripeId b');
      c ← zget (chunks b') i;
      m ← ChunkUtil.set (s_mem sh') c (listId b') stripe (chunkId b');
      map ← setChunk cap rand m map (listId b') stripe (chunkId b') c false;
      Some (set_slot b' (u32 (stripe + 1)) (chunks b') (sizes b'), MkShared m (s_pool sh') map)) = Some (b'', sh'') ∧
    started sh b start n0 x (i + 1) b'' sh'' (slots ++ [(s, [])]).
Proof.
  intros Hcs Hl Hch Hn0 Hi Hic Hx Hc [Hb [Hsp Hpool] (M & HM & HMs) [Hz Hsl] Hrest [Hx0 Hu] Hblk]. pose proof ec_sizes as Hec.
  assert (Hlb : listId b' = listId b ∧ chunkId b' = chunkId b ∧ chunks b' = chunks b ∧ sizes b' = sizes b) by (rewrite Hb; done).
  destruct Hlb as (Hlb & Hcb & Hccb & Hscb). rewrite Hlb, Hcb, Hccb, Hscb, Hc in *. set (c := slot_at start (n0 + i)) in *.
  destruct (nextStripeID_fresh (s_map sh') (listId b) (stripeId b') (x + i)) as (s & t1 & -> & Hs & Hsf & Ht1); [done..|by apply Hu|]. cbn [mbind option_bind].
  pose proof (ChunkPool.ok_total _ _ _ _ Hpool) as Htot. assert (Hvalid : ∀ j, 0 ≤ j < ChunkPool.count (s_pool sh) → chunk_valid (s_mem sh') (slot_at start j)).
  { intros j Hj. apply (pool_slot_valid junk _ _ _ _ Hpool). lia. }
  destruct (ChunkPool.set_get_spec (s_mem sh') c (listId b) s (chunkId b)) as (m1 & -> & Hget & S1 & F1); [|lia|lia|lia|].
  { eapply valid_prefix; [apply Hvalid; lia|unfold ChunkUtil.CHUNK_IDENTIFIER_SIZE; lia]. }
  cbn [mbind option_bind].
  assert (Hsame : ∀ j, j ≠ n0 + i → same_chunk (s_mem sh') m1 (slot_at start j)).
  { intros j Hj. split; [done|]. intros q Hq. apply F1. intros [Hb1 Hq1]. apply (pool_slot_apart junk start j (n0 + i) q Hj Hq). split; [done|].
    unfold c, ChunkPool.slotSize, ChunkUtil.CHUNK_IDENTIFIER_SIZE in *. simpl in *. lia. }
  assert (Hzero : ∀ j, n0 + i ≤ j < ChunkPool.count (s_pool sh) → chunk_is cap m1 (slot_at start j) (λ _, x00)).
  { intros j Hj t Ht. rewrite F1; [by apply Hrest|]. intros [_ Hq]. unfold c, slot_at, ChunkUtil.getData, ChunkPool.slotSize, ChunkUtil.CHUNK_IDENTIFIER_SIZE in *. simpl in *. nia. }
  assert (Hvc : chunk_valid m1 c) by (rewrite <- S1; apply Hvalid; lia).
  destruct (load_valid m1 c ChunkUtil.CHUNK_IDENTIFIER_SIZE) as [id Hid]; [eapply valid_prefix; [exact Hvc|unfold ChunkUtil.CHUNK_IDENTIFIER_SIZE; lia]|].
  assert (HM1 : chunk_table cap m1 t1 M).
  { subst t1. apply nextStripe_map. eapply chunk_table_mem; [done|]. intros k p Hp. destruct (HMs k p Hp) as (j & Hj & ->).
    rewrite <- (padd_0 (slot_at start j)). apply (same_chunk_load junk); [apply Hvalid; lia|apply Hsame; lia|lia|..]; unfold ChunkUtil.CHUNK_IDENTIFIER_SIZE; lia. }
  assert (Hzc : chunk_is cap m1 c (λ _, x00)) by (apply Hzero; lia).
  destruct (setChunk_empty junk rand m1 t1 M (listId b) s (chunkId b) c id Hcs HM1 Hid Hzc) as (t2 & added & -> & HM2 & Hsb). cbn [mbind option_bind].
  destruct Hsb as (_ & _ & _ & _ & _ & _ & Hst). eexists _, _, s. split; [done|].
  assert (Hused : default ∅ (stripeIds t2 !! listId b) = {[ s ]} ∪ used_stripes sh' (listId b)).
  { rewrite Hst, lookup_insert_eq. subst t1. simpl. by rewrite lookup_insert_eq. }
  split; cbn [s_mem s_pool s_map set_slot listId stripeId chunkId count chunks sizes].
  - rewrite Hb. done.
  - split; [done|]. destruct Hpool as [H1 H2 H3 H4 H5 H6]. split; try done. by rewrite <- S1.
  - exists (if added then <[id := c]> M else M). split; [exact HM2|]. intros id' p Hp.
    destruct added; [apply lookup_insert_Some in Hp as [[<- <-]|[_ Hp]]; [exists (n0 + i); split; [lia|done]|]|];
      (destruct (HMs _ _ Hp) as (j & Hj & ->); exists j; split; [lia|done]).
  - split; [rewrite zlen_app; change (zlen [_]) with 1; lia|]. intros j sj oj. rewrite zget_snoc, Hz. rewrite Hused.
    destruct (decide (j = i)) as [->|Hne].
    + intros [= <- <-]. split; [done|]. split; [|apply elem_of_union_l; by apply elem_of_singleton].
      split; [exists (n0 + i); split; [simpl; rewrite Hsp; lia|done]| |done|constructor]. change (zlen (objs_bytes cap [])) with 0. rewrite Z.sub_0_r.
      apply (zero_layout junk rand), Hzero. lia.
    + intros Hj. pose proof (zget_Some _ _ _ Hj). destruct (Hsl j sj oj Hj) as (Ho & Hci & Hsu). split; [done|]. split; [|by apply elem_of_union_r].
      eapply (chunk_in_frame junk sh'); [done|apply Hvalid; lia|apply Hsame; lia|done].
  - intros j Hj. apply Hzero. lia.
  - rewrite Hlb. split.
    + split; [apply u32_range|]. unfold u32. pose proof (Z.mod_le (s + 1) (2 ^ 32)). lia.
    + intros y Hy. rewrite Hused. intros [Hys%elem_of_singleton|Hys]%elem_of_union; [lia|]. by apply (Hu y); [lia|].
  - intros y Hy. rewrite <- Hblk by done. apply block_frame; [done|]. intros q <-. apply F1. intros [Hb1 _]. apply Hy. by rewrite Hb1.
Qed.
(** What a server needs to start a buffer of [n] chunks and flush it [k] times. *)
Record can_start (sh : Shared) (start : ptr) (n l stripe ch k x : Z) : Prop := {
  cs_sizes : chunk_sizes cap ∧ ec_m ≠ 0;
  cs_ids : 0 ≤ l < 2 ^ 8 ∧ 0 ≤ ch < ec_k ∧ ec_k ≤ 2 ^ 8;
  cs_count : 0 < n ∧ 0 ≤ k ∧ ChunkPool.count (s_pool sh) + n + k ≤ ChunkPool.total (s_pool sh);
  cs_pool : ChunkPool.pool_ok cap (s_pool sh) (s_mem sh) start;
  cs_zeros : blk zeros ≠ blk start;
  cs_map : ∃ M, chunk_table cap (s_mem sh) (s_map sh) M ∧
    ∀ id p, M !! id = Some p → ∃ j, 0 ≤ j < ChunkPool.count (s_pool sh) ∧ p = slot_at start j;
  cs_stripes : 0 ≤ stripe ≤ x ∧ x + n + k ≤ 2 ^ 32 ∧ ∀ y, x ≤ y → y ∉ used_stripes sh l;
}.

Lemma init_spec space sh start cs sh1 n l stripe ch k x :
  can_start sh start n l stripe ch k x → allocated sh start (ChunkPool.count (s_pool sh)) n cs sh1 →
  let b := MkBuffer l stripe ch n cs [] (replicate (Z.to_nat n) 0) space in
  ∃ b' sh' slots, init cap rand b sh1 = Some (b', sh') ∧ started sh1 b start (ChunkPool.count (s_pool sh)) x n b' sh' slots.
Proof.
  intros [[Hcs _] (Hl & Hch & Hk8) (Hn & Hk & Hroom) Hpool _ (M & HM & HMs) (Hx0 & Hx & Hu)] [Hp1 [Hc1 Ht1] Hm1 [Hz1 Hch1] Hf1 Hb1] b.
  set (n0 := ChunkPool.count (s_pool sh)) in *. pose proof (ChunkPool.ok_total _ _ _ _ Hpool) as Htot. pose proof ec_sizes as Hec.
  unfold init. for_invariant (λ i '(b', sh'), ∃ slots, started sh1 b start n0 x i b' sh' slots) as ([b' sh'] & -> & slots & Hst);
    [simpl; lia| | |by exists b', sh', slots].
  - intros i [b' sh'] Hi [slots Hst]. simpl in Hi.
    destruct (init_step sh1 b start n0 x i b' sh' slots) as (b2 & sh2 & s & -> & Hst'); try done; try (simpl; lia).
    { by apply Hch1. }
    exists (b2, sh2). split; [done|]. by eexists.
  - exists []. split; try done.
    + exists M. rewrite Hm1. split; [|intros id p Hp; destruct (HMs id p Hp) as (j & Hj & ->); exists j; split; [lia|done]].
      eapply chunk_table_mem; [done|]. intros id p Hp. destruct (HMs id p Hp) as (j & Hj & ->).
      rewrite <- (padd_0 (slot_at start j)). apply (same_chunk_load junk); [apply (pool_slot_valid junk _ _ _ _ Hpool); lia|by apply Hf1|lia|..]; unfold ChunkUtil.CHUNK_IDENTIFIER_SIZE; lia.
    + split; [done|]. intros j s os Hj. apply zget_Some in Hj. change (zlen []) with 0 in Hj. lia.
    + intros j Hj. rewrite Hc1 in Hj. replace j with (n0 + (j - n0)) by lia. apply Hch1. lia.
    + rewrite Hm1. simpl. rewrite Z.add_0_r. done.
Qed.

Lemma new_spec space sh start n l stripe ch k x : can_start sh start n l stripe ch k x →
  ∃ b sh' slots, DataChunkBuffer_new cap rand space sh n l stripe ch true = Some (b, sh') ∧ dinv sh' b start slots [] ∧
    zlen slots = n ∧ concat (snd <$> slots) = [] ∧ listId b = l ∧ chunkId b = ch ∧ supply sh' b k ∧
    ∀ y, y ≠ blk start → s_mem sh' !! y = s_mem sh !! y.
Proof.
  intros Hcan. pose proof Hcan as [[Hcs Hm0] (Hl & Hch & Hk8) (Hn & Hk & Hroom) Hpool Hzb _ (Hx0 & Hx & Hu)].
  destruct (alloc_chunks_spec sh start n Hpool ltac:(lia) ltac:(lia)) as (cs & sh1 & E1 & Hal).
  destruct (init_spec space sh start cs sh1 n l stripe ch k x Hcan Hal) as (b' & sh' & slots & E2 & [Hb [Hsp Hp2] (M & HM & HMs) [Hz Hsl] _ [Hf0 Hf] Hblk]).
  pose proof Hal as [Hp1 [Hc1 Ht1] _ [Hzc Hch1] _ Hb1].
  exists b', sh', slots. unfold DataChunkBuffer_new. rewrite E1. cbn [mbind option_bind]. split; [exact E2|].
  assert (Hlb : listId b' = l ∧ chunkId b' = ch ∧ chunks b' = cs ∧ sizes b' = replicate (Z.to_nat n) 0 ∧ count b' = n) by (rewrite Hb; done).
  destruct Hlb as (Hlb & Hcb & Hccb & Hscb & Hnb). cbn [listId chunkId] in Hsl. rewrite Hlb in Hf.
  split; [|split; [done|split; [|split; [done|split; [done|split]]]]].
  - constructor; rewrite ?Hlb, ?Hcb, ?Hccb, ?Hscb, ?Hnb; try done.
    + unfold zlen in *. rewrite length_replicate. split_and!; lia.
    + by rewrite Hsp.
    + exists M. split; [done|]. intros id p Hp. destruct (HMs id p Hp) as (j & Hj & ->). exists j. split; [rewrite Hsp, Hc1; lia|done].
    + intros i s os Hi. pose proof (zget_Some _ _ _ Hi). destruct (Hsl i s os Hi) as (-> & Hci & Hsu). split; [|split; [|done]].
      * exists (slot_at start (ChunkPool.count (s_pool sh) + i)). split; [apply Hch1; lia|done].
      * unfold zget. rewrite decide_True by lia. by apply lookup_replicate_2; lia.
    + intros i j c Hi Hj. pose proof (zget_Some _ _ _ Hi). pose proof (zget_Some _ _ _ Hj).
      destruct (Hch1 i ltac:(lia)) as [Hi' _], (Hch1 j ltac:(lia)) as [Hj' _]. rewrite Hi in Hi'. rewrite Hj in Hj'.
      assert (He : slot_at start (ChunkPool.count (s_pool sh) + i) = slot_at start (ChunkPool.count (s_pool sh) + j)) by congruence.
      apply (pool_slot_inj junk) in He. lia.
    + intros c s os Hin. by apply elem_of_nil in Hin.
    + by rewrite Hb.
  - assert (Hall : Forall (λ q, snd q = []) slots).
    { apply Forall_lookup. intros i [s os] Hi. destruct (Hsl (Z.of_nat i) s os) as (-> & _); [|done]. unfold zget. rewrite decide_True by lia. by rewrite Nat2Z.id. }
    clear -Hall. induction Hall as [|[s os] slots Ho _ IH]; [done|]. simpl in *. by subst.
  - unfold supply. rewrite Hsp, Hc1, Ht1. split; [lia|]. exists (x + n). rewrite Hlb. split; [lia|]. split; [lia|done].
  - intros y Hy. by rewrite Hblk, Hb1.
Qed.
(** ** Many objects *)

(** An object to store, and where its key and value are. *)
Record item := MkItem { i_obj : obj; i_key : ptr; i_value : ptr }.

Definition place (b : DataChunkBuffer) (sh : Shared) (w : Worker) (x : item) :=
  place_object cap ec_k ec_m zeros rand b sh w (i_key x) (zlen (o_key (i_obj x))) (i_value x) (o_valueSize (i_obj x)) 0 (o_splitOffset (i_obj x)) false.

Fixpoint place_all (b : DataChunkBuffer) (sh : Shared) (w : Worker) (xs : list item) : option (list KeyMetadata * DataChunkBuffer * Shared * Worker) :=
  match xs with
  | [] => Some ([], b, sh, w)
  | x :: xs =>
      '(km, _, b, sh, w) ← place b sh w x;
      '(kms, b, sh, w) ← place_all b sh w xs;
      Some (km :: kms, b, sh, w)
  end.

Definition item_ok (start : ptr) (m : mem) (x : item) : Prop :=
  obj_ok cap (i_obj x) ∧ o_key (i_obj x) ≠ [] ∧
  load m (i_key x) (zlen (o_key (i_obj x))) = Some (o_key (i_obj x)) ∧ load m (i_value x) (zlen (o_value (i_obj x))) = Some (o_value (i_obj x)) ∧
  blk (i_key x) ≠ blk start ∧ blk (i_value x) ≠ blk start.

Lemma item_ok_frame start m m' x : (∀ y, y ≠ blk start → m' !! y = m !! y) → item_ok start m x → item_ok start m' x.
Proof.
  intros Hf (Ho & Hk & Hlk & Hlv & Hb1 & Hb2). split; [done|]. split; [done|]. rewrite <- Hlk, <- Hlv. split; [by apply load_block, Hf|].
  split; [by apply load_block, Hf|done].
Qed.

(** All objects of some chunks. *)
Definition objects (cs : list slot) : list obj := concat (snd <$> cs).

Lemma objects_app cs cs' : objects (cs ++ cs') = objects cs ++ objects cs'.
Proof. unfold objects. by rewrite fmap_app, concat_app. Qed.

Lemma objects_insert slots r s os s' os' : zget slots r = Some (s, os) →
  objects (<[Z.to_nat r := (s', os')]> slots) ++ os ≡ₚ objects slots ++ os'.
Proof.
  intros Hr. pose proof (zget_Some _ _ _ Hr). unfold zget in Hr. rewrite decide_True in Hr by lia. generalize (Z.to_nat r), Hr. clear.
  induction slots as [|[s1 os1] slots IH]; intros n Hr; [by rewrite lookup_nil in Hr|]. destruct n as [|n]; simpl in *.
  - injection Hr as -> ->. unfold objects. simpl. solve_Permutation.
  - unfold objects in *. simpl. rewrite <- !app_assoc. by rewrite (IH n Hr).
Qed.

(** No object is lost, none is duplicated. *)
Lemma room_objects size slots slots' closed r : room size slots slots' closed r → objects slots' ++ objects closed ≡ₚ objects slots.
Proof.
  intros [r1 _ _ _|r1 [s1 os1] s _ Hr _]; [by rewrite app_nil_r|]. change (objects [(s1, os1)]) with (os1 ++ []). rewrite app_nil_r.
  rewrite (objects_insert slots r1 s1 os1 s []) by done. by rewrite app_nil_r.
Qed.

Lemma placed_objects o slots slots' closed s offset : placed o slots slots' closed s offset →
  objects slots' ++ objects closed ≡ₚ o :: objects slots.
Proof.
  assert (Hins : ∀ slots1 r s os, zget slots1 r = Some (s, os) → objects (<[Z.to_nat r := (s, os ++ [o])]> slots1) ≡ₚ objects slots1 ++ [o]).
  { intros slots1 r s1 os Hr. apply (Permutation_app_inv_r os). rewrite (objects_insert slots1 r s1 os s1 (os ++ [o])) by done. solve_Permutation. }
  intros [slots1 cl r s1 os Hroom Hr _|slots1 cl r s1 os s' Hroom Hr _]; apply room_objects in Hroom; rewrite <- Hroom.
  - rewrite (Hins slots1 r s1 os Hr). solve_Permutation.
  - rewrite objects_app. change (objects [(s1, os ++ [o])]) with ((os ++ [o]) ++ []). rewrite app_nil_r.
    pose proof (objects_insert slots1 r s1 os s' [] Hr) as Hp. rewrite app_nil_r in Hp. rewrite <- Hp. solve_Permutation.
Qed.

Lemma placed_length o slots slots' closed s offset : placed o slots slots' closed s offset → zlen slots' = zlen slots.
Proof.
  assert (Hroom : ∀ slots1 cl r, room (obj_size cap o) slots slots1 cl r → zlen slots1 = zlen slots).
  { intros slots1 cl r [|]; [done|]. unfold zlen. by rewrite length_insert. }
  intros [slots1 cl r s1 os Hr _ _|slots1 cl r s1 os s' Hr _ _]; rewrite <- (Hroom _ _ _ Hr); unfold zlen; by rewrite length_insert.
Qed.

Lemma announced_trans l ch w cs w1 cs' w2 : announced l ch w cs w1 → announced l ch w1 cs' w2 → announced l ch w (cs ++ cs') w2.
Proof.
  intros H1 H2. induction H2 as [|w3 w4 cs2 s os H2 IH Hreq]; [by rewrite app_nil_r|]. rewrite app_assoc. by eapply announced_snoc.
Qed.

Lemma place_all_spec xs : ∀ sh b w start slots closed n,
  dinv sh b start slots closed → worker_ok w → supply sh b n → 2 * zlen xs ≤ n → Forall (item_ok start (s_mem sh)) xs →
  ∃ kms b' sh' w' slots' new,
    place_all b sh w xs = Some (kms, b', sh', w') ∧ dinv sh' b' start slots' (closed ++ new) ∧ worker_ok w' ∧
    announced (listId b) (chunkId b) w (snd <$> new) w' ∧ objects slots' ++ objects (snd <$> new) ≡ₚ (i_obj <$> xs) ++ objects slots ∧
    zlen slots' = zlen slots ∧
    listId b' = listId b ∧ chunkId b' = chunkId b ∧ supply sh' b' (n - 2 * zlen xs) ∧ (∀ x, x ≠ blk start → s_mem sh' !! x = s_mem sh !! x).
Proof.
  induction xs as [|x xs IH]; intros sh b w start slots closed n Hinv Hw Hsup Hn Hxs.
  { exists [], b, sh, w, slots, []. rewrite app_nil_r. split; [done|]. split; [done|]. split; [done|]. split; [constructor|].
    change (zlen []) with 0. rewrite Z.mul_0_r, Z.sub_0_r. by rewrite app_nil_r. }
  apply Forall_cons in Hxs as [(Ho & Hk & Hlk & Hlv & Hb1 & Hb2) Hxs]. change (x :: xs) with ([x] ++ xs) in Hn |- *. rewrite zlen_app in Hn |- *. change (zlen [x]) with 1 in *.
  pose proof (zlen_nonneg xs). assert (Hn1 : 1 < n) by lia.
  destruct (place_spec sh b w start slots closed n (i_obj x) (i_key x) (i_value x) 0 false Hinv Hw Ho Hk Hsup Hn1 Hlk Hlv Hb1 Hb2)
    as (c & s & offset & slots1 & new1 & sh1 & b1 & w1 & E1 & [Hpl Hinv1 Hw1 Hann1 _ [Hid1 Hch1] Hfr1] & Hsup1 & Hnew1).
  destruct (IH sh1 b1 w1 start slots1 (closed ++ new1) (n - 2)) as (kms & b2 & sh2 & w2 & slots2 & new2 & E2 & Hinv2 & Hw2 & Hann2 & Hobj2 & Hlen2 & Hid2 & Hch2 & Hsup2 & Hfr2); try done.
  { eapply supply_le; [exact Hsup1|lia]. }
  { lia. }
  { eapply Forall_impl; [exact Hxs|]. intros y. by apply item_ok_frame. }
  rewrite <- app_assoc in Hinv2. rewrite Hid1, Hch1 in Hann2. eexists _, b2, sh2, w2, slots2, (new1 ++ new2). cbn [app place_all]. unfold place. rewrite E1.
  cbn [mbind option_bind]. rewrite E2. cbn [mbind option_bind]. split; [done|]. split; [done|]. split; [done|]. rewrite !fmap_app.
  split; [by eapply announced_trans|]. split.
  { rewrite objects_app. apply placed_objects in Hpl. cbn [fmap list_fmap app].
    transitivity ((objects slots2 ++ objects (snd <$> new2)) ++ objects (snd <$> new1)); [solve_Permutation|]. rewrite Hobj2, <- app_assoc, Hpl. solve_Permutation. }
  split; [by rewrite Hlen2; eapply placed_length|].
  split; [congruence|]. split; [congruence|]. split; [by replace (n - 2 * (1 + zlen xs)) with (n - 2 - 2 * zlen xs) by lia|].
  intros y Hy. by rewrite Hfr2, Hfr1.
Qed.
(** After the first [i] flushes of [seal]. *)
Record sealing (sh : Shared) (b : DataChunkBuffer) (w : Worker) (start : ptr) (slots : list slot) (closed : list (ptr * slot)) (n i : Z)
    (b' : DataChunkBuffer) (sh' : Shared) (w' : Worker) (slots' : list slot) (new : list (ptr * slot)) : Prop := {
  se_inv : dinv sh' b' start slots' (closed ++ new);
  se_worker : worker_ok w';
  se_requests : announced (listId b) (chunkId b) w (snd <$> new) w';
  se_objects : objects slots' ++ objects (snd <$> new) ≡ₚ objects slots;
  se_empty : zlen slots' = zlen slots ∧ ∀ j s os, 0 ≤ j < i → zget slots' j = Some (s, os) → os = [];
  se_ids : listId b' = listId b ∧ chunkId b' = chunkId b;
  se_supply : supply sh' b' (n - i);
}.

Lemma seal_all_spec sh b w start slots closed n :
  dinv sh b start slots closed → worker_ok w → supply sh b n → zlen slots ≤ n → zlen slots < 2 ^ 32 →
  ∃ b' sh' w' slots' new, DataChunkBuffer.seal cap ec_k ec_m zeros rand b sh w = Some (zlen slots, b', sh', w') ∧
    dinv sh' b' start slots' (closed ++ new) ∧ announced (listId b) (chunkId b) w (snd <$> new) w' ∧
    objects (snd <$> new) ≡ₚ objects slots ∧ objects slots' = [] ∧ listId b' = listId b ∧ chunkId b' = chunkId b.
Proof.
  intros Hinv Hw Hsup Hn H32. unfold DataChunkBuffer.seal. pose proof (d_count _ _ _ _ _ _ Hinv) as (Hn0 & Hcnt & _).
  for_invariant (λ i '(b', sh', w'), ∃ slots' new, sealing sh b w start slots closed n i b' sh' w' slots' new)
    as ([[b' sh'] w'] & -> & slots' & new & [Hinv' _ Hann Hobj [Hz He] Hids _]); [lia| | |].
  - intros i [[b1 sh1] w1] Hi (slots1 & new1 & [Hinv1 Hw1 Hann1 Hobj1 [Hz1 He1] [Hid1 Hch1] Hsup1]).
    pose proof (d_count _ _ _ _ _ _ Hinv1) as (_ & _ & Hcs1 & _).
    destruct (zget_is_Some slots1 i) as [[s os] Hsl]; [lia|]. destruct (zget_is_Some (chunks b1) i) as [c Hc]; [lia|].
    assert (Hni : 0 < n - i) by lia.
    destruct (flush_spec sh1 b1 w1 start slots1 _ i s os c (n - i) false Hinv1 Hw1 Hsl Hc Hsup1 Hni) as (s' & sh2 & b2 & w2 & -> & Hsup2 & Hfl).
    destruct Hfl as [Hinv2 Hw2 Hreq (Hid2 & Hch2 & _) _ _ _]. cbn [mbind option_bind]. eexists. split; [done|].
    exists (<[Z.to_nat i := (s', [])]> slots1), (new1 ++ [(c, (s, os))]). rewrite <- app_assoc in Hinv2. rewrite Hid1, Hch1 in Hreq. split; try done.
    + rewrite fmap_app. by eapply announced_snoc.
    + rewrite fmap_app, objects_app. change (objects (snd <$> [(c, (s, os))])) with (os ++ []). rewrite app_nil_r, <- Hobj1.
      pose proof (objects_insert slots1 i s os s' [] Hsl) as Hp. rewrite app_nil_r in Hp. rewrite <- Hp. solve_Permutation.
    + split; [unfold zlen in *; by rewrite length_insert|]. intros j sj oj Hj. rewrite zget_insert by lia. destruct (decide (j = i)); [by intros [= <- <-]|].
      apply He1. lia.
    + split; congruence.
    + by replace (n - (i + 1)) with (n - i - 1) by lia.
  - exists slots, []. split; try done; [by rewrite app_nil_r|constructor|by rewrite app_nil_r| |by rewrite Z.sub_0_r]. split; [done|]. intros; lia.
  - cbn [mbind option_bind]. rewrite (d_plain _ _ _ _ _ _ Hinv'). destruct (d_count _ _ _ _ _ _ Hinv') as (_ & -> & _).
    change (zlen []) with 0. rewrite Z.add_0_r, Hz, u32_small by lia.
    exists b', sh', w', slots', new. split; [done|]. split; [done|]. split; [done|].
    assert (Hnil : objects slots' = []).
    { assert (Hall : Forall (λ q, snd q = []) slots').
      { apply Forall_lookup. intros j [s os] Hj. pose proof (lookup_lt_Some _ _ _ Hj). apply (He (Z.of_nat j) s os).
        { rewrite Hcnt, <- Hz. unfold zlen, slot in *. lia. }
        unfold zget. rewrite decide_True by lia. by rewrite Nat2Z.id. }
      clear -Hall. unfold objects. induction Hall as [|[s os] slots Ho _ IH]; [done|]. simpl in *. by subst. }
    rewrite Hnil in Hobj |- *. done.
Qed.
End data.
(** C6: [set] puts an object where the contract [placed] says: at the end of the
    fullest open chunk that can hold it, or else of the new chunk that replaces
    the fullest one; the metadata returned and the bytes at the address in it
    are those of the object; a chunk is closed, marked as sealed and announced
    to the parity servers exactly when the object does not fit elsewhere or
    leaves no room for a header behind it; and the buffer stays well formed. *)
Theorem data_placement {C : Coding} {EC : ErasureCode C} (zeros : ptr) (junk : nat → Z → byte) (rand : nat → Z)
    (sh : Shared) (b : DataChunkBuffer) (w : Worker) (start k v : ptr) (slots : list slot) (closed : list (ptr * slot)) (o : obj) (opcode : Z) (wantSealed : bool) :
  dinv zeros sh b start slots closed → worker_ok w → supply sh b 2 → item_ok start (s_mem sh) (MkItem o k v) →
  ∃ c s offset slots' new sh' b' w',
    place_object ec_chunkSize ec_k ec_m zeros rand b sh w k (zlen (o_key o)) v (o_valueSize o) opcode (o_splitOffset o) wantSealed =
      Some (MkKeyMetadata (Metadata.set (listId b) s (chunkId b)) offset (obj_size ec_chunkSize o) (bool_decide (opcode = PROTO_OPCODE_DEGRADED_SET))
              (ChunkUtil.getData c +ₚ offset),
            if wantSealed then metadata_of (listId b) (chunkId b) (snd <$> new) else [], b', sh', w') ∧
    placed o slots slots' (snd <$> new) s offset ∧ announced (listId b) (chunkId b) w (snd <$> new) w' ∧
    load (s_mem sh') (ChunkUtil.getData c +ₚ offset) (obj_size ec_chunkSize o) = Some (obj_bytes ec_chunkSize o) ∧
    dinv zeros sh' b' start slots' (closed ++ new).
Proof.
  intros Hinv Hw Hsup (Ho & Hk & Hlk & Hlv & Hbk & Hbv).
  destruct (place_spec zeros junk rand sh b w start slots closed 2 o k v opcode wantSealed Hinv Hw Ho Hk Hsup) as (c & s & offset & slots' & new & sh' & b' & w' & E & [] & _);
    [done..|]. by exists c, s, offset, slots', new, sh', b', w'.
Qed.

(** C2: From the construction of a buffer to its shutdown: [set] stores every object
    of the list, and once [seal] has flushed the open chunks every object, no
    more and no less, is in one of the closed chunks; each of them lies in the
    pool under its identifiers, is marked as sealed, and was announced to the
    parity servers by one request that lists its objects, unless it is empty. *)
Theorem data_server_seals_all {C : Coding} {EC : ErasureCode C} (zeros : ptr) (junk : nat → Z → byte) (rand : nat → Z)
    (sh : Shared) (w : Worker) (start : ptr) (space n l stripe ch x : Z) (xs : list item) :
  can_start zeros sh start n l stripe ch (n + 2 * zlen xs) x → worker_ok w → n < 2 ^ 32 → Forall (item_ok start (s_mem sh)) xs →
  ∃ b0 sh0 kms b1 sh1 w1 b2 sh2 w2 closed,
    DataChunkBuffer_new ec_chunkSize rand space sh n l stripe ch true = Some (b0, sh0) ∧
    place_all zeros rand b0 sh0 w xs = Some (kms, b1, sh1, w1) ∧
    DataChunkBuffer.seal ec_chunkSize ec_k ec_m zeros rand b1 sh1 w1 = Some (n, b2, sh2, w2) ∧
    objects (snd <$> closed) ≡ₚ i_obj <$> xs ∧ announced l ch w (snd <$> closed) w2 ∧
    ∀ c s os, (c, (s, os)) ∈ closed →
      layout ec_chunkSize (s_mem sh2) c os (ec_chunkSize - zlen (objs_bytes ec_chunkSize os)) ∧ ChunkUtil.get (s_mem sh2) c = Some (l, s, ch) ∧
      Metadata.set l s ch ∈ sealed (s_map sh2).
Proof.
  intros Hcan Hw H32 Hxs. pose proof (zlen_nonneg xs).
  destruct (new_spec zeros junk rand space sh start n l stripe ch _ x Hcan) as (b0 & sh0 & slots0 & E0 & Hinv0 & Hz0 & Hnil & Hl0 & Hc0 & Hsup0 & Hfr0).
  destruct (place_all_spec zeros junk rand xs sh0 b0 w start slots0 [] (n + 2 * zlen xs))
    as (kms & b1 & sh1 & w1 & slots1 & new1 & E1 & Hinv1 & Hw1 & Hann1 & Hobj1 & Hlen1 & Hl1 & Hc1 & Hsup1 & _); try done; [destruct (cs_count _ _ _ _ _ _ _ _ _ Hcan); lia| |].
  { eapply Forall_impl; [exact Hxs|]. intros y. by apply item_ok_frame. }
  destruct (seal_all_spec zeros junk rand sh1 b1 w1 start slots1 _ n Hinv1 Hw1) as (b2 & sh2 & w2 & slots2 & new2 & E2 & Hinv2 & Hann2 & Hobj2 & Hnil2 & Hl2 & Hc2);
    [by apply (supply_le junk _ _ _ _ Hsup1); lia|by rewrite Hlen1, Hz0|by rewrite Hlen1, Hz0|].
  rewrite Hlen1, Hz0 in E2. rewrite Hl1, Hc1 in Hann2. rewrite Hl0, Hc0 in *.
  exists b0, sh0, kms, b1, sh1, w1, b2, sh2, w2, (new1 ++ new2). rewrite fmap_app. split; [done|]. split; [done|]. split; [done|]. split; [|split].
  - rewrite objects_app, Hobj2. rewrite (Hnil : objects slots0 = []), app_nil_r in Hobj1. rewrite <- Hobj1. apply Permutation_app_comm.
  - by eapply announced_trans.
  - intros c s os Hin. destruct (d_closed _ _ _ _ _ _ Hinv2 c s os Hin) as ([_ HL Hg _] & _ & Hs).
    rewrite Hl2, Hc2, Hl1, Hc1 in *. done.
Qed.
(** A buffer of one chunk of 16 bytes; the object of 6 bytes leaves no room for
    another, so that its chunk is sealed at once. *)
#[local] Existing Instance ParityOrder.ex_code.
Definition ex_m : mem := <[1%nat := replicate 24 x00]> (<[2%nat := replicate 96 x00]> (<[3%nat := [z2b 97; z2b 1]]> ∅)).
Definition ex_sh : Shared := MkShared ex_m (ChunkPool.MkPool 4 0 (Some (Ptr 2 0))) (ServerMap.Map_new 1 ParityOrder.ex_cp ParityOrder.ex_cp).
Definition ex_w : Worker :=
  MkWorker (MkProtocol (PROTO_MAGIC_FROM ROLE_SERVER) (PROTO_MAGIC_TO ROLE_SERVER) 64 (replicate 64 x00) (replicate 64 x00)) 5 0
    (IDGenerator.MkGen 1 100 [0] [100]) (λ _, replicate 128 x00) [].
Definition ex_item : item := MkItem ParityOrder.ex_o1 (Ptr 3 0) (Ptr 3 1).

Lemma ex_worker_ok : worker_ok (C := RAID5Coding.raid5 3 16) ex_w.
Proof. split; try (intros; vm_compute; congruence); [by exists ROLE_SERVER|simpl; lia|vm_compute; intuition congruence]. Qed.

Lemma ex_item_ok : item_ok (C := RAID5Coding.raid5 3 16) (Ptr 2 0) ex_m ex_item.
Proof. split; [apply ParityOrder.ex_objs|]. split; [discriminate|]. split; [reflexivity|]. split; [reflexivity|]. done. Qed.

Lemma ex_can_start k : 0 ≤ k ≤ 3 → can_start (C := RAID5Coding.raid5 3 16) (Ptr 1 0) ex_sh (Ptr 2 0) 1 0 0 0 k 0.
Proof.
  intros Hk. split; simpl; try lia.
  - split; [unfold ChunkUtil.chunk_sizes, KEY_VALUE_METADATA_SIZE, KeyValue.SPLIT_OFFSET_SIZE; simpl; lia|lia].
  - split; [lia|done|simpl; lia|vm_compute; reflexivity| |done]. split; [vm_compute; discriminate|]. exists (replicate 96 x00).
    split; [reflexivity|]. split; vm_compute; discriminate.
  - exists ∅. split; [by apply ServerMap.init_chunk_table|]. done.
  - split; [lia|]. split; [lia|]. intros y Hy. apply not_elem_of_empty.
Qed.

Lemma data_placement_witness :
  ∃ b sh km mds b' sh' w', DataChunkBuffer_new 16 (λ _, 0) 7 ex_sh 1 0 0 0 true = Some (b, sh) ∧
    place_object 16 2 1 (Ptr 1 0) (λ _, 0) b sh ex_w (Ptr 3 0) 1 (Ptr 3 1) 1 0 0 true = Some (km, mds, b', sh', w') ∧
    load (s_mem sh') (km_obj km) 6 = Some (obj_bytes 16 ParityOrder.ex_o1).
Proof.
  destruct (new_spec (C := RAID5Coding.raid5 3 16) (Ptr 1 0) (λ _ _, x00) (λ _, 0) 7 ex_sh (Ptr 2 0) 1 0 0 0 3 0) as (b & sh & slots & E & Hinv & _ & _ & _ & _ & Hsup & Hfr).
  { apply ex_can_start. lia. }
  destruct (data_placement (C := RAID5Coding.raid5 3 16) (Ptr 1 0) (λ _ _, x00) (λ _, 0) sh b ex_w (Ptr 2 0) (Ptr 3 0) (Ptr 3 1) slots [] ParityOrder.ex_o1 0 true Hinv ex_worker_ok)
    as (c & s & offset & slots' & new & sh' & b' & w' & E' & _ & _ & Hl & _).
  - eapply (supply_le (λ _ _, x00)); [exact Hsup|lia].
  - eapply item_ok_frame; [exact Hfr|exact ex_item_ok].
  - eexists b, sh, _, _, b', sh', w'. split; [exact E|]. split; [exact E'|exact Hl].
Defined.

Lemma data_server_seals_all_witness :
  ∃ b0 sh0 kms b1 sh1 w1 b2 sh2 w2 (closed : list (ptr * slot)),
    DataChunkBuffer_new 16 (λ _, 0) 7 ex_sh 1 0 0 0 true = Some (b0, sh0) ∧
    place_all (C := RAID5Coding.raid5 3 16) (Ptr 1 0) (λ _, 0) b0 sh0 ex_w [ex_item] = Some (kms, b1, sh1, w1) ∧
    DataChunkBuffer.seal 16 2 1 (Ptr 1 0) (λ _, 0) b1 sh1 w1 = Some (1, b2, sh2, w2) ∧
    objects (snd <$> closed) ≡ₚ [ParityOrder.ex_o1].
Proof.
  destruct (data_server_seals_all (C := RAID5Coding.raid5 3 16) (Ptr 1 0) (λ _ _, x00) (λ _, 0) ex_sh ex_w (Ptr 2 0) 7 1 0 0 0 0 [ex_item])
    as (b0 & sh0 & kms & b1 & sh1 & w1 & b2 & sh2 & w2 & closed & E0 & E1 & E2 & Hobj & _).
  - apply ex_can_start. vm_compute. intuition congruence.
  - exact ex_worker_ok.
  - lia.
  - apply Forall_singleton. exact ex_item_ok.
  - exists b0, sh0, kms, b1, sh1, w1, b2, sh2, w2, closed. split; [exact E0|]. split; [exact E1|]. split; [exact E2|exact Hobj].
Defined.
End DataPlacement.
