(* ===== verification/MixedBuffer.v ===== *)
(** * Mixed chunk buffers (server/buffer/mixed_chunk_buffer.{hh,cc})

    A server has one buffer per stripe list: a data buffer or a parity buffer,
    depending on its place in the list.  [MixedChunkBuffer] hands every method to
    the buffer it holds, and answers itself for those the buffer does not have.

    [handleSealChunkRequest] (server/worker/server_peer_req_worker.cc) is the
    receiving end of the requests of a data buffer.  [seal_request_handled]: it
    does to the parity buffer of the list what the message [MSeal] of
    [ParityTrace] does, with the records of the objects of the sealed chunk. *)

From S2P Require Export DataPlacement.

Module MixedChunkBuffer.
Import Metadata Worker DataProofs.
Abbreviation ParityChunkBuffer := ParityChunkBuffer.ParityChunkBuffer.
Abbreviation DataChunkBuffer := DataChunkBuffer.DataChunkBuffer.
Abbreviation GetChunkBuffer := GetChunkBuffer.GetChunkBuffer.

(** The role and the pointer to the buffer. *)
Inductive MixedChunkBuffer :=
| CBR_DATA (data : DataChunkBuffer)
| CBR_PARITY (parity : ParityChunkBuffer).

Section buffer.
Context {C : Coding} (capacity dataChunkCount parityChunkCount : Z) (zeros : ptr) (junk : nat → Z → byte) (rand : nat → Z).

(** The result, the timestamp, the stripe, the metadata of sealed chunks (none when
    the caller passes null pointers), and the state. *)
Definition set (b : MixedChunkBuffer) (sh : Shared) (w : Worker) (key : ptr) (keySize : Z) (value : ptr) (valueSize opcode timestamp stripeId c splitOffset : Z)
    (wantSealed : bool) (dataChunk parityChunk : ptr) (g : option GetChunkBuffer) :
    option (bool * Z * Z * list Metadata * MixedChunkBuffer * Shared * Worker) :=
  match b with
  | CBR_DATA b =>
      '(km, timestamp, sealed, b, sh, w) ←
        DataChunkBuffer.set capacity dataChunkCount parityChunkCount zeros rand b sh w key keySize value valueSize opcode timestamp splitOffset wantSealed;
      Some (true, timestamp, Metadata.stripeId (ServerMap.km_metadata km), sealed, CBR_DATA b, sh, w)
  | CBR_PARITY b =>
      '(r, b, sh) ← ParityChunkBuffer.set capacity dataChunkCount zeros junk rand b sh key keySize value valueSize c splitOffset dataChunk parityChunk g;
      Some (r, 0, stripeId, [], CBR_PARITY b, sh, w)
  end.

Definition init (b : MixedChunkBuffer) (sh : Shared) : option (MixedChunkBuffer * Shared) :=
  match b with
  | CBR_DATA b => '(b, sh) ← DataChunkBuffer.init capacity rand b sh; Some (CBR_DATA b, sh)
  | CBR_PARITY _ => Some (b, sh)
  end.

(** [seal( worker )]; [return false] is 0. *)
Definition seal (b : MixedChunkBuffer) (sh : Shared) (w : Worker) : option (Z * MixedChunkBuffer * Shared * Worker) :=
  match b with
  | CBR_DATA b =>
      '(n, b, sh, w) ← DataChunkBuffer.seal capacity dataChunkCount parityChunkCount zeros rand b sh w;
      Some (n, CBR_DATA b, sh, w)
  | CBR_PARITY _ => Some (0, b, sh, w)
  end.

Definition reInsert (b : MixedChunkBuffer) (m : mem) (chunk : ptr) (sizeToBeFreed : Z) : option (bool * MixedChunkBuffer) :=
  match b with
  | CBR_DATA b => '(r, b) ← DataChunkBuffer.reInsert capacity dataChunkCount zeros b m chunk sizeToBeFreed; Some (r, CBR_DATA b)
  | CBR_PARITY _ => Some (false, b)
  end.

(** The other [seal], of the records of a request. *)
Definition seal_request (b : MixedChunkBuffer) (sh : Shared) (stripeId c count : Z) (sealData : ptr) (sealDataSize : Z) (dataChunk parityChunk : ptr) :
    option (bool * MixedChunkBuffer * Shared) :=
  match b with
  | CBR_PARITY b =>
      '(r, b, sh) ← ParityChunkBuffer.seal capacity dataChunkCount zeros rand b sh stripeId c count sealData sealDataSize dataChunk parityChunk;
      Some (r, CBR_PARITY b, sh)
  | CBR_DATA _ => Some (false, b, sh)
  end.

Definition getChunkId (b : MixedChunkBuffer) : Z :=
  match b with CBR_DATA b => DataChunkBuffer.chunkId b | CBR_PARITY b => ParityChunkBuffer.chunkId b end.

Definition lockChunk (b : MixedChunkBuffer) (chunk : ptr) : Z :=
  match b with CBR_DATA b => DataChunkBuffer.lockChunk b chunk | CBR_PARITY _ => -1 end.

Definition updateAndUnlockChunk (b : MixedChunkBuffer) (m : mem) (index : Z) : option MixedChunkBuffer :=
  match b with
  | CBR_DATA b => CBR_DATA <$> DataChunkBuffer.updateAndUnlockChunk capacity dataChunkCount zeros b m index
  | CBR_PARITY _ => Some b
  end.

(** The key and the object are only set by a parity buffer. *)
Definition findValueByKey (b : MixedChunkBuffer) (m : mem) (data : ptr) (size : Z) (isLarge : bool) : option (bool * option (Key.Key * option ptr)) :=
  match b with
  | CBR_PARITY b => '(r, k, kv) ← ParityChunkBuffer.findValueByKey b m data size isLarge; Some (r, Some (k, kv))
  | CBR_DATA _ => Some (false, None)
  end.

Definition getKeyValueMap (b : MixedChunkBuffer) : bool * option (KeyMap.key_map ptr) :=
  match b with CBR_PARITY b => (true, Some (ParityChunkBuffer.getKeyValueMap b)) | CBR_DATA _ => (false, None) end.

Definition deleteKey (b : MixedChunkBuffer) (m : mem) (keyStr : ptr) (keySize : Z) : option (bool * MixedChunkBuffer * mem) :=
  match b with
  | CBR_PARITY b => '(r, b, m) ← ParityChunkBuffer.deleteKey b m keyStr keySize; Some (r, CBR_PARITY b, m)
  | CBR_DATA _ => Some (false, b, m)
  end.

Definition updateKeyValue (b : MixedChunkBuffer) (m : mem) (keyStr : ptr) (keySize : Z) (isLarge : bool) (offset length : Z) (valueUpdate : ptr) :
    option (bool * MixedChunkBuffer * mem) :=
  match b with
  | CBR_PARITY b => '(r, b, m) ← ParityChunkBuffer.updateKeyValue b m keyStr keySize isLarge offset length valueUpdate; Some (r, CBR_PARITY b, m)
  | CBR_DATA _ => Some (false, b, m)
  end.

Definition update (b : MixedChunkBuffer) (sh : Shared) (stripeId c offset size : Z) (dataDelta dataChunk parityChunk : ptr) (isDelete : bool) :
    option (bool * MixedChunkBuffer * Shared) :=
  match b with
  | CBR_PARITY b =>
      '(b, sh) ← ParityChunkBuffer.update capacity dataChunkCount zeros rand b sh stripeId c offset size dataDelta dataChunk parityChunk isDelete;
      Some (true, CBR_PARITY b, sh)
  | CBR_DATA _ => Some (false, b, sh)
  end.

(** A null pointer and no entries for a data buffer. *)
Definition getSealIndicator (b : MixedChunkBuffer) (sh : Shared) (stripeId : Z) : option (option (list bool) * Z * MixedChunkBuffer * Shared) :=
  match b with
  | CBR_PARITY b => '(l, n, b, sh) ← ParityChunkBuffer.getSealIndicator capacity dataChunkCount rand b sh stripeId; Some (Some l, n, CBR_PARITY b, sh)
  | CBR_DATA _ => Some (None, 0, b, sh)
  end.

(** ** The handler of requests to seal a chunk *)

(** [buffers]: [ServerWorker::chunkBuffer], with a null pointer for a list that the
    server is not in.  The message without its header is at [buf]. *)
Definition handleSealChunkRequest (p : Protocol) (buffers : list (option MixedChunkBuffer)) (sh : Shared) (buf : ptr) (size : Z)
    (dataChunk parityChunk : ptr) : option (bool * list (option MixedChunkBuffer) * Shared) :=
  bs ← load (s_mem sh) buf size;
  h ← parseChunkSealHeader p (Some bs) size 0;
  match h with
  | None => Some (false, buffers, sh)
  | Some (MkChunkSealHeader md count) =>
      b ← zget buffers (listId md);
      b ← (b : option MixedChunkBuffer);
      '(_, b, sh) ← seal_request b sh (stripeId md) (chunkId md) count (buf +ₚ PROTO_CHUNK_SEAL_SIZE) (u64 (size - PROTO_CHUNK_SEAL_SIZE)) dataChunk parityChunk;
      buffers ← zset buffers (listId md) (Some b);
      Some (true, buffers, sh)
  end.
End buffer.

(** ** A request of a data server at a parity server *)
Import ParityTrace ParityProofs.

(** C7: A request to seal a chunk, as a data buffer sends it, does to the parity
    buffer of the list what the message [MSeal] with the records of the
    chunk's objects does: the handler accepts it and leaves the buffers of the
    other lists alone, and from a buffer that holds [A] comes one that
    holds [A] after that message. *)
Theorem seal_request_handled {C : Coding} {EC : ErasureCode C} (zeros : ptr) (junk : nat → Z → byte) (rand : nat → Z) (K : Key.Key → Prop)
    (p : Protocol) (buffers : list (option MixedChunkBuffer)) (sh : Shared) (b : ParityChunkBuffer) (start : ptr) (A : abs)
    (rb : ptr) (rn : Z) (dc pc : ptr) (l s c : Z) (os : list ChunkUtil.obj) :
  let msg := MSeal s c (ParityOrder.records_of 0 os) in let body := seal_body (Metadata.set l s c) os in
  KeyMap.discriminated K → inv zeros K sh b start A → ready zeros sh b start rb rn dc pc → message_ok K sh b A msg →
  zget buffers l = Some (Some (CBR_PARITY b)) → l < 2 ^ 32 → zlen os < 2 ^ 32 →
  zlen body ≤ rn → load (s_mem sh) rb (zlen body) = Some body →
  ∃ b' sh', handleSealChunkRequest ec_chunkSize ec_k zeros rand p buffers sh rb (zlen body) dc pc =
      Some (true, <[Z.to_nat l := Some (CBR_PARITY b')]> buffers, sh') ∧
    inv zeros K sh' b' start (snd (abs_deliver A msg)) ∧ ready zeros sh' b' start rb rn dc pc ∧ s ∈ dom (ParityChunkBuffer.chunks b').
Proof.
  intros msg body HK Hinv Hready Hok Hb Hl Hos Hbn Hload. pose proof Hready as [Hrn Hv Hu Hdc Hpc (Hdp & Hbd & Hbp)].
  destruct Hok as (Hs & Hc & Hroom & Hrecs & Hpos & Hzero & Hneg). pose proof (inv_sizes _ _ _ _ _ _ Hinv) as (_ & Hk32 & _). pose proof ec_sizes as Hec.
  pose proof (zget_Some _ _ _ Hb) as Hlr. pose proof (zlen_nonneg os) as Hn0.
  set (recs := concat (ParitySeal.record_bytes <$> ParityOrder.records_of 0 os)). assert (Hbody : zlen body = 16 + zlen recs) by (unfold body, seal_body, recs; zlens; lia). pose proof (zlen_nonneg recs) as Hr0.
  unfold handleSealChunkRequest. rewrite Hload. cbn [mbind option_bind]. unfold parseChunkSealHeader, pick_recv. rewrite decide_False by lia.
  unfold PROTO_CHUNK_SEAL_SIZE. assert (Hshort : short (zlen body) 0 16 = false).
  { unfold short. rewrite Z.sub_0_r, u64_small by lia. apply bool_decide_eq_false_2. lia. }
  rewrite Hshort. assert (Hh : holds body 0 (be_bytes 4 l ++ be_bytes 4 s ++ be_bytes 4 c ++ be_bytes 4 (zlen os) ++ recs)).
  { exists [], []. by rewrite app_nil_r. }
  unfold read_metadata. assert (Hc32 : c < 2 ^ 32) by nia. do 4 read_field Hh. cbn [mbind option_bind].
  cbn [Metadata.listId Metadata.stripeId Metadata.chunkId]. rewrite Hb. cbn [mbind option_bind seal_request].
  rewrite u64_small by lia. replace (zlen body - 16) with (zlen recs) by lia.
  destruct (ParitySeal.seal_spec zeros junk rand K HK sh b start A s c (ParityOrder.records_of 0 os) (rb +ₚ 16) (zlen recs) dc pc)
    as (b' & sh' & E & Hinv' & Hk' & _ & Hdom); try done.
  - by rewrite zlen_records_of.
  - lia.
  - rewrite (load_sub _ _ _ _ _ _ Hload) by lia.
    assert (Hsplit : body = (be_bytes 4 l ++ be_bytes 4 s ++ be_bytes 4 c ++ be_bytes 4 (zlen os)) ++ recs ++ []) by (rewrite app_nil_r, <- !app_assoc; done).
    rewrite Hsplit. by apply (slice_app_mid (be_bytes 4 l ++ be_bytes 4 s ++ be_bytes 4 c ++ be_bytes 4 (zlen os))).
  - by apply (valid_outside zeros sh b start rb rn).
  - rewrite zlen_records_of in E. rewrite E. cbn [mbind option_bind]. rewrite zset_Some by done. cbn [mbind option_bind].
    exists b', sh'. split; [done|]. split; [exact Hinv'|]. split; [|done]. by apply (ready_keeps zeros junk K _ _ _ _ _ _ _ _ _ _ _ Hk').
Qed.
(** The request for a chunk of one object, received before the object. *)
#[local] Existing Instance ParityOrder.ex_code.
Definition ex_body : list byte := seal_body (C := RAID5Coding.raid5 3 16) (Metadata.set 0 0 0) [ParityOrder.ex_o1].
Definition ex_m : mem := <[5%nat := ex_body ++ replicate 9 x00]> ParityOrder.ex_m.
Definition ex_sh : Shared := MkShared ex_m ParityOrder.ex_pool (ServerMap.Map_new 1 ParityOrder.ex_cp ParityOrder.ex_cp).

Lemma ex_mget (x : nat) i : (x = 1 ∨ x = 2 ∨ x = 3 ∨ x = 4)%nat → 0 ≤ i < 24 → mget ex_m (Ptr x i) = Some x00.
Proof.
  intros Hx Hi. destruct (ParityOrder.ex_block x 24) as [_ H]; [by left|]. rewrite <- (H i) by (simpl; lia). unfold mget, ex_m. simpl blk.
  rewrite lookup_insert_ne; [done|]. by destruct Hx as [->|[->|[->| ->]]].
Qed.

Lemma ex_valid (x : nat) : (x = 1 ∨ x = 2 ∨ x = 3 ∨ x = 4)%nat → valid ex_m (Ptr x 0) 24.
Proof.
  intros Hx. destruct (ParityOrder.ex_block x 24) as [(H1 & bs & Hb & H2) _]; [by left|]. split; [done|]. exists bs. split; [|done].
  unfold ex_m. simpl blk in *. rewrite lookup_insert_ne; [done|]. by destruct Hx as [->|[->|[->| ->]]].
Qed.

Lemma ex_scratch_chunk (x : nat) : (x = 3 ∨ x = 4)%nat → scratch (C := RAID5Coding.raid5 3 16) (Ptr 1 0) ex_sh ParityOrder.ex_b (Ptr 2 0) (Ptr x 0).
Proof.
  intros Hx. split; [apply ex_valid; destruct Hx as [->| ->]; auto|].
  intros [H|[H|(p & H & _)]]; simpl in H; [lia..|by apply elem_of_nil in H].
Qed.

Lemma seal_request_handled_witness :
  ∃ b' sh', handleSealChunkRequest (C := RAID5Coding.raid5 3 16) 16 2 (Ptr 1 0) (λ _, 0) (Protocol_new ROLE_SERVER) [Some (CBR_PARITY ParityOrder.ex_b)] ex_sh
      (Ptr 5 0) 23 (Ptr 3 0) (Ptr 4 0) = Some (true, [Some (CBR_PARITY b')], sh') ∧ 0 ∈ dom (ParityChunkBuffer.chunks b').
Proof.
  destruct (seal_request_handled (C := RAID5Coding.raid5 3 16) (Ptr 1 0) (λ _ _, x00) (λ _, 0) KeyMap.plain (Protocol_new ROLE_SERVER)
    [Some (CBR_PARITY ParityOrder.ex_b)] ex_sh ParityOrder.ex_b (Ptr 2 0) (MkAbs ∅ ∅ (λ _ _ _, x00)) (Ptr 5 0) 32 (Ptr 3 0) (Ptr 4 0) 0 0 0 [ParityOrder.ex_o1])
    as (b' & sh' & E & _ & _ & Hd).
  - exact KeyMap.plain_discriminated.
  - apply ParityOrder.init_inv; try (simpl; lia); try done.
    + split; simpl; try done; try lia. apply ex_valid. auto.
    + intros i Hi. simpl in Hi. apply (ex_mget 1 (8 + i)); [auto|lia].
  - split; [lia| |intros [H|[H|(p & H & _)]]; simpl in H; [lia..|by apply elem_of_nil in H]|apply ex_scratch_chunk; auto..|simpl; lia].
    split; [lia|]. exists (ex_body ++ replicate 9 x00). split; [reflexivity|]. split; vm_compute; discriminate.
  - split; [lia|]. split; [simpl; lia|]. split; [intros _; vm_compute; reflexivity|]. split.
    + intros k offset Hin. apply list_elem_of_singleton in Hin as [= -> ->]. split; [apply ParityOrder.ex_objs|]. split; [apply ParityOrder.ex_objs|].
      split; [lia|]. intros o Ho. cbn in Ho. by rewrite lookup_empty in Ho.
    + split; [vm_compute; intuition congruence|]. split; intros i _; reflexivity.
  - reflexivity.
  - lia.
  - vm_compute. reflexivity.
  - vm_compute. discriminate.
  - vm_compute. reflexivity.
  - exists b', sh'. split; [exact E|exact Hd].
Defined.
End MixedChunkBuffer.
