(* ===== verification/Symbols.v ===== *)
(** * Symbols: the array codes' view of a stripe

    RDP and EVENODD divide every chunk into [p - 1] symbols of [ss] bytes and
    work on symbols with [bitwiseXOR].  This file relates such a step to the
    contents of the stripe ([holds]), and has the arithmetic modulo the prime
    [p] that the two decoders rely on. *)

From S2P Require Export Coding.
From Stdlib Require Import Znumtheory.

Lemma small_mult p z : - p < z * p < p → z = 0.
Proof. nia. Qed.

(** ** Arithmetic modulo a prime *)
Lemma mod_shift_eq a b d : 0 < d → a mod d = b mod d → ∃ z, a = b + z * d.
Proof. intros Hd H. exists (a / d - b / d). rewrite (Z.div_mod a d), (Z.div_mod b d) at 1 by lia. rewrite H. lia. Qed.


(** The residues [x * d - 1] for [x] in the window [-v .. u]. *)
Definition window (p d u v s : Z) : Prop := ∃ x, - v ≤ x ≤ u ∧ s = (x * d - 1) mod p.

Lemma window_opp p d u v s : window p d u v s ↔ window p (- d) v u s.
Proof.
  split; intros (x & Hx & ->); exists (- x); (split; [lia|]); f_equal; ring.
Qed.

Lemma window_grow p d u v s : 0 ≤ u + v + 1 → window p d (u + 1) v s ↔ window p d u v s ∨ s = ((u + 1) * d - 1) mod p.
Proof.
  intros Huv. split.
  - intros (x & Hx & ->). destruct (decide (x = u + 1)) as [->|]; [by right|left; exists x; split; [lia|done]].
  - intros [(x & Hx & ->)| ->]; [exists x; split; [lia|done]|exists (u + 1); split; [lia|done]].
Qed.


Section prime.
Variables (p : Z).
Hypothesis (Hp : Z.prime p).

Lemma mod_inverse d : d mod p ≠ 0 → ∃ e, (d * e) mod p = 1.
Proof. intros Hd. exists (Z.invmod d p). rewrite Z.mul_comm. by apply Z.invmod_prime. Qed.

Lemma mod_mul_zero x d : d mod p ≠ 0 → (x * d) mod p = 0 → x mod p = 0.
Proof.
  intros Hd Hx. pose proof (Z.prime_ge_2 _ Hp). apply Z.mod_divide in Hx; [|lia].
  apply Z.divide_prime_mul in Hx as [?|Hdiv]; [by apply Z.mod_divide; [lia|]| |done].
  exfalso. apply Hd. by apply Z.mod_divide; [lia|].
Qed.

(** Every residue is [x * d - 1] for one [x] in any window of [p] integers. *)
Lemma window_cover d v u s :
  d mod p ≠ 0 → u + v = p - 1 → 0 ≤ s < p → ∃ x, - v ≤ x ≤ u ∧ (x * d - 1) mod p = s.
Proof.
  intros Hd Huv Hs. pose proof (Z.prime_ge_2 _ Hp). destruct (mod_inverse d Hd) as [e He].
  exists (((s + 1) * e + v) mod p - v). pose proof (Z.mod_pos_bound ((s + 1) * e + v) p ltac:(lia)).
  split; [lia|]. rewrite (Z.mod_eq ((s + 1) * e + v)) by lia. set (q := ((s + 1) * e + v) / p).
  replace (((s + 1) * e + v - p * q - v) * d - 1) with ((s + 1) * (d * e) - 1 + (- q * d) * p) by ring.
  rewrite Z.mod_add by lia. rewrite Zminus_mod, Zmult_mod, He, Z.mul_1_r.
  rewrite Zmod_mod, <- Zminus_mod. replace (s + 1 - 1) with s by lia. by apply Z.mod_small.
Qed.

Lemma window_inj d x y : d mod p ≠ 0 → (x * d - 1) mod p = (y * d - 1) mod p → - p < x - y < p → x = y.
Proof.
  intros Hd Hxy Hr. pose proof (Z.prime_ge_2 _ Hp). assert (H0 : ((x - y) * d) mod p = 0).
  { replace ((x - y) * d) with ((x * d - 1) - (y * d - 1)) by ring. rewrite Zminus_mod, Hxy, Z.sub_diag. apply Zmod_0_l. }
  apply mod_mul_zero in H0; [|done]. apply Z.mod_divide in H0 as [z Hz]; [|lia].
  assert (z = 0) by nia. lia.
Qed.

(** The residue that follows a window from 0 on is new, and is not [p - 1]. *)
Lemma window_next d n :
  d mod p ≠ 0 → 0 ≤ n < p - 1 →
  ((n + 1) * d - 1) mod p ≠ p - 1 ∧ ¬ window p d n 0 (((n + 1) * d - 1) mod p).
Proof.
  intros Hd Hn.
  assert (Hw : ¬ window p d n 0 (((n + 1) * d - 1) mod p)).
  { intros (y & Hy & He). assert (n + 1 = y); [|lia]. apply (window_inj d); [done|done|lia]. }
  split; [|done]. intros He. apply Hw. exists 0. split; [lia|]. rewrite He.
  replace (0 * d - 1) with (p - 1 + (-1) * p) by ring. rewrite Z.mod_add by lia. symmetry. apply Z.mod_small. lia.
Qed.
End prime.

(** ** Sums along diagonals *)
Lemma bxor_absorb x v : bxor x (bxor v x) = v.
Proof. rewrite (comm bxor v). apply bxor_cancel. Qed.

(** Byte of the sum of the symbols of [n] columns on diagonal [d]; the symbol
    that would be row [p - 1] does not exist. *)
Definition diagonal (n p : Z) (E : Z → Z → byte) (d : Z) : byte :=
  xsum (seqZ 0 n) (λ c, let s := (d - c) mod p in if decide (s = p - 1) then x00 else E c s).

Lemma diagonal_row p c d s : 0 < p → 0 ≤ d < p → 0 ≤ s < p → (c + s) mod p = d ↔ s = (d - c) mod p.
Proof.
  intros Hp Hd Hs. split.
  - intros <-. rewrite Zminus_mod_idemp_l. replace (c + s - c) with s by lia. symmetry. by apply Z.mod_small.
  - intros ->. rewrite Zplus_mod_idemp_r. replace (c + (d - c)) with d by lia. by apply Z.mod_small.
Qed.

Lemma diagonal_sum n p E d :
  1 < p → 0 ≤ d < p →
  xsum (seqZ 0 n) (λ c, xsum (seqZ 0 (p - 1)) (λ s, if decide ((c + s) mod p = d) then E c s else x00)) = diagonal n p E d.
Proof.
  intros Hp Hd. unfold diagonal. apply xsum_ext. intros c _. cbv zeta. set (s0 := (d - c) mod p).
  pose proof (Z.mod_pos_bound (d - c) p ltac:(lia)) as Hs0. fold s0 in Hs0.
  rewrite (xsum_ext _ _ (λ s, if decide (s = s0) then E c s0 else x00)).
  2:{ intros s Hs%elem_of_seqZ. pose proof (diagonal_row p c d s ltac:(lia) Hd ltac:(lia)) as Hi. fold s0 in Hi.
      destruct (decide (s = s0)) as [->|]; [by rewrite decide_True by by apply Hi|]. rewrite decide_False; [done|]. tauto. }
  case_decide as Hl.
  - apply xsum_zero. intros s Hs%elem_of_seqZ. rewrite decide_False by lia. done.
  - apply xsum_single; [apply NoDup_seqZ|apply elem_of_seqZ; lia].
Qed.

Lemma diagonal_remove n p E d c0 :
  0 ≤ c0 < n → let s0 := (d - c0) mod p in s0 ≠ p - 1 →
  diagonal n p E d = bxor (E c0 s0) (xsum (seqZ 0 n) (λ c, if decide (c = c0) then x00 else
    let s := (d - c) mod p in if decide (s = p - 1) then x00 else E c s)).
Proof.
  intros Hc s0 Hs0. unfold diagonal. rewrite (xsum_seqZ_remove _ _ c0) by done. cbv zeta. by rewrite decide_False.
Qed.

(** Every symbol lies on one diagonal. *)
Lemma diagonals_total n p E :
  1 < p → xsum (seqZ 0 p) (λ d, diagonal n p E d) = xsum (seqZ 0 n) (λ c, xsum (seqZ 0 (p - 1)) (λ s, E c s)).
Proof.
  intros Hp. rewrite (xsum_ext _ _ (λ d, xsum (seqZ 0 n) (λ c, xsum (seqZ 0 (p - 1)) (λ s, if decide ((c + s) mod p = d) then E c s else x00)))).
  2:{ intros d Hd%elem_of_seqZ. symmetry. apply diagonal_sum; lia. }
  rewrite xsum_swap. apply xsum_ext. intros c _. rewrite xsum_swap. apply xsum_ext. intros s _.
  rewrite (xsum_ext _ _ (λ d, if decide (d = (c + s) mod p) then E c s else x00)).
  - apply xsum_single; [apply NoDup_seqZ|apply elem_of_seqZ]. pose proof (Z.mod_pos_bound (c + s) p ltac:(lia)). lia.
  - intros d _. destruct (decide (d = (c + s) mod p)) as [->|]; [by rewrite decide_True|]. by rewrite decide_False.
Qed.

Lemma xsum_const_even (v : byte) (n : nat) i : xsum (seqZ i (2 * Z.of_nat n)) (λ _, v) = x00.
Proof.
  revert i. induction n as [|n IH]; intros i; [done|].
  replace (2 * Z.of_nat (S n)) with (Z.succ (Z.succ (2 * Z.of_nat n))) by lia.
  rewrite !seqZ_cons, !Z.pred_succ by lia. simpl. rewrite IH. rewrite (right_id x00 bxor). apply bxor_nilp.
Qed.

Lemma odd_prime_half p : Z.prime p → p ≠ 2 → ∃ n : nat, p - 1 = 2 * Z.of_nat n.
Proof.
  intros Hp H2. pose proof (Z.prime_ge_2 _ Hp). exists (Z.to_nat (p / 2)). rewrite Z2Nat.id by (apply Z.div_pos; lia).
  pose proof (Z.div_mod p 2 ltac:(lia)). pose proof (Z.mod_pos_bound p 2 ltac:(lia)).
  assert (p mod 2 ≠ 0); [|lia]. intros Hz. apply Z.mod_divide in Hz; [|lia].
  apply Z.divide_prime_r in Hz; [lia|done].
Qed.

(** ** Additions spread over several regions *)

(** Memory [m] is [m0] with byte [F q] added at every address [q]. *)
Definition accum_at (m0 : mem) (F : ptr → byte) (m : mem) : Prop :=
  same_shape m0 m ∧ ∀ q, mget m q = (λ b, bxor b (F q)) <$> mget m0 q.

Definition add_at (F : ptr → byte) (dst : ptr) (len : Z) (h : Z → byte) : ptr → byte :=
  λ q, bxor (F q) (if decide (in_range dst len q) then h (off q - off dst) else x00).

Lemma accum_at_refl m0 : accum_at m0 (λ _, x00) m0.
Proof. split; [done|]. intros q. destruct (mget m0 q); [|done]. simpl. by rewrite (right_id x00 bxor). Qed.

Lemma accum_at_ext m0 F G m : (∀ q, F q = G q) → accum_at m0 F m → accum_at m0 G m.
Proof. intros H [? Hg]. split; [done|]. intros q. by rewrite Hg, H. Qed.

Lemma accum_at_mbyte m0 F m q : accum_at m0 F m → F q = x00 → mget m q = mget m0 q.
Proof. intros [_ Hg] HF. rewrite Hg, HF. destruct (mget m0 q); [|done]. simpl. by rewrite (right_id x00 bxor). Qed.

Lemma accum_at_region m0 F m p n f :
  accum_at m0 F m → region_is m0 p n f → region_is m p n (λ i, bxor (f i) (F (p +ₚ i))).
Proof. intros [_ Hg] Hr i Hi. rewrite Hg, Hr by done. done. Qed.

(** Adding a source that is unchanged so far. *)
Lemma accum_at_xor m0 F m dst src len :
  accum_at m0 F m → valid m0 dst len → valid m0 src len → disjoint_ranges dst src len →
  (∀ i, 0 ≤ i < len → F (src +ₚ i) = x00) →
  ∃ m', bitwiseXOR m dst src dst len = Some m' ∧ accum_at m0 (add_at F dst len (λ i, mbyte m0 (src +ₚ i))) m'.
Proof.
  intros Ha Hd Hs Hdis HF. pose proof Ha as [Hsh Hg].
  destruct (bitwiseXOR_spec m dst src dst len) as (m' & E & Hs' & G); [by rewrite <- Hsh..|by right|by left|].
  exists m'. split; [done|]. split; [by etrans|]. intros q. rewrite G. unfold xor_result, add_at.
  case_decide as Hq.
  - assert (Hq' : q = dst +ₚ (off q - off dst)) by by apply padd_offset, Hq.
    assert (Hin : 0 ≤ off q - off dst < len) by (unfold in_range in Hq; lia).
    pose proof (valid_mget_mbyte _ _ _ _ Hd Hin) as Hm0. rewrite <- Hq' in *. rewrite Hm0. simpl. f_equal.
    unfold mbyte at 1. rewrite (accum_at_mbyte _ _ _ _ Ha) by by apply HF.
    unfold mbyte at 1. rewrite Hg, Hm0. simpl. fold (mbyte m0 (src +ₚ (off q - off dst))).
    rewrite (comm bxor). by rewrite <- (assoc bxor).
  - rewrite Hg. destruct (mget m0 q); simpl; [by rewrite (right_id x00 bxor (F q))|done].
Qed.

(** ** Steps on symbols *)
Section symbols.
Variables (n p ss : Z) (chunks : list ptr) (ch : Z → ptr) (lost : Z → Prop) (m0 : mem).
Local Abbreviation cs := ((p - 1) * ss).
Hypothesis (Hp : 1 < p) (Hss : 0 < ss).
Hypothesis (Hch : ∀ c, 0 ≤ c < n → zget chunks c = Some (ch c)).
Hypothesis (Hap : ∀ i j, 0 ≤ i < n → 0 ≤ j < n → i ≠ j → lost i → apart (getData (ch i)) cs (getData (ch j)) cs).

(** The stripe holds [g], and only lost chunks differ from [m0]. *)
Definition holds (m : mem) (g : Z → Z → byte) : Prop :=
  same_shape m0 m ∧ (∀ c, 0 ≤ c < n → chunk_is cs m (ch c) (g c)) ∧
  ∀ q, (∀ c, 0 ≤ c < n → lost c → ¬ in_range (getData (ch c)) cs q) → mget m q = mget m0 q.

Lemma holds_ext m g g' : (∀ c i, 0 ≤ c < n → 0 ≤ i < cs → g c i = g' c i) → holds m g → holds m g'.
Proof.
  intros Heq (? & Hg & ?). split; [done|]. split; [|done]. intros c Hc. eapply region_is_ext; [|by apply Hg]. eauto.
Qed.

(** Symbol [s] of chunk [L] replaced by [h]. *)
Definition upd_sym (g : Z → Z → byte) (L s : Z) (h : Z → byte) : Z → Z → byte :=
  λ c i, if decide (c = L ∧ s * ss ≤ i < s * ss + ss) then h (i - s * ss) else g c i.

(** The address of a symbol. *)
Definition sym (c s : Z) : ptr := getData (ch c) +ₚ s * ss.

Lemma sym_in s t : 0 ≤ s < p - 1 → 0 ≤ t < ss → 0 ≤ s * ss + t < cs.
Proof. nia. Qed.

Lemma holds_sym m g c s : holds m g → 0 ≤ c < n → 0 ≤ s < p - 1 → region_is m (sym c s) ss (λ t, g c (s * ss + t)).
Proof.
  intros (_ & Hg & _) Hc Hs t Ht. unfold sym. rewrite padd_padd. apply Hg; [done|]. by apply sym_in.
Qed.

(** Adding the [ss] bytes at [src] to a symbol of a lost chunk. *)
Lemma holds_xor m g L s src h :
  holds m g → 0 ≤ L < n → lost L → 0 ≤ s < p - 1 →
  region_is m src ss h → apart (sym L s) ss src ss →
  ∃ m', bitwiseXOR m (sym L s) src (sym L s) ss = Some m' ∧
    holds m' (upd_sym g L s (λ t, bxor (h t) (g L (s * ss + t)))).
Proof.
  intros Hh HL HlL Hs Hsrc Hapt. pose proof Hh as (Hsh & Hg & Hfr).
  pose proof (holds_sym m g L s Hh HL Hs) as Hsym.
  assert (Hdis : disjoint_ranges (sym L s) src ss) by (destruct Hapt as [?|[?|?]]; [by left|right; left; lia|right; right; lia]).
  destruct (bitwiseXOR_spec m (sym L s) src (sym L s) ss) as (m' & E & Hs' & G);
    [by eapply region_is_valid..|by right|by left|].
  exists m'. split; [done|]. split; [by etrans|]. split.
  - intros c Hc i Hi. rewrite G. unfold xor_result, upd_sym.
    destruct (decide (c = L)) as [->|HcL].
    + destruct (decide (s * ss ≤ i < s * ss + ss)) as [Hi'|Hi'].
      * rewrite decide_True by (unfold in_range, sym; simpl; lia). rewrite decide_True by done.
        replace (off (getData (ch L) +ₚ i) - off (sym L s)) with (i - s * ss) by (unfold sym; simpl; lia).
        rewrite (region_is_mbyte _ _ _ _ _ Hsrc), (region_is_mbyte _ _ _ _ _ Hsym) by lia. done.
      * rewrite decide_False by (unfold in_range, sym; simpl; lia). rewrite decide_False by tauto. by apply Hg.
    + rewrite (decide_False (P := c = L ∧ _)) by tauto. rewrite decide_False; [by apply Hg|].
      pose proof (Hap L c HL Hc (not_eq_sym HcL) HlL) as Ha. pose proof (sym_in s 0 Hs ltac:(lia)).
      pose proof (sym_in s (ss - 1) Hs ltac:(lia)).
      unfold in_range, sym, apart in *; simpl in *. lia.
  - intros q Hq. rewrite G. unfold xor_result. rewrite decide_False; [by apply Hfr|].
    intros Hin. apply (Hq L HL HlL). pose proof (sym_in s 0 Hs ltac:(lia)).
    pose proof (sym_in s (ss - 1) Hs ltac:(lia)). unfold in_range, sym in *; simpl in *. lia.
Qed.

Lemma sym_apart L s c s' :
  0 ≤ L < n → lost L → 0 ≤ c < n → 0 ≤ s < p - 1 → 0 ≤ s' < p - 1 → (c ≠ L ∨ s' ≠ s) →
  apart (sym L s) ss (sym c s') ss.
Proof.
  intros HL Hl Hc Hs Hs' Hne. destruct (decide (c = L)) as [->|HcL].
  - right. unfold sym; simpl. assert (s' ≠ s) by tauto. nia.
  - pose proof (Hap L c HL Hc (not_eq_sym HcL) Hl) as Ha.
    pose proof (sym_in s 0 Hs ltac:(lia)). pose proof (sym_in s (ss - 1) Hs ltac:(lia)).
    pose proof (sym_in s' 0 Hs' ltac:(lia)). pose proof (sym_in s' (ss - 1) Hs' ltac:(lia)).
    unfold apart, sym in *; simpl in *. lia.
Qed.

(** The same from a symbol of the stripe. *)
Lemma holds_xor_sym m g L s c s' :
  holds m g → 0 ≤ L < n → lost L → 0 ≤ s < p - 1 → 0 ≤ c < n → 0 ≤ s' < p - 1 → (c ≠ L ∨ s' ≠ s) →
  ∃ m', bitwiseXOR m (sym L s) (sym c s') (sym L s) ss = Some m' ∧
    holds m' (upd_sym g L s (λ t, bxor (g c (s' * ss + t)) (g L (s * ss + t)))).
Proof.
  intros Hh HL HlL Hs Hc Hs' Hne.
  destruct (holds_xor m g L s (sym c s') (λ t, g c (s' * ss + t))) as (m' & E & H'); [done..|by apply holds_sym|by apply sym_apart|].
  eauto.
Qed.

(** A loop each of whose iterations adds [h c] to one symbol. *)
Lemma holds_loop m g L s cnt (h : Z → Z → byte) body :
  0 ≤ cnt → holds m g →
  (∀ c m1 g1, 0 ≤ c < cnt → holds m1 g1 → (∀ c' i, ¬ (c' = L ∧ s * ss ≤ i < s * ss + ss) → g1 c' i = g c' i) →
     ∃ m', body c m1 = Some m' ∧ holds m' (upd_sym g1 L s (λ t, bxor (h c t) (g1 L (s * ss + t))))) →
  ∃ m', for_range 0 cnt body m = Some m' ∧
    holds m' (upd_sym g L s (λ t, bxor (xsum (seqZ 0 cnt) (λ c, h c t)) (g L (s * ss + t)))).
Proof.
  intros Hcnt Hh Hbody.
  apply (for_range_inv (λ j m, holds m (upd_sym g L s (λ t, bxor (xsum (seqZ 0 j) (λ c, h c t)) (g L (s * ss + t)))))); [done| |].
  - intros j m1 Hj Hm1. destruct (Hbody j m1 _ Hj Hm1) as (m2 & E & Hm2).
    { intros c' i Hn. unfold upd_sym. by rewrite decide_False. }
    exists m2. split; [done|]. eapply holds_ext; [|exact Hm2]. intros c i Hc Hi. unfold upd_sym.
    case_decide as Hin; [|done]. cbv beta. rewrite (decide_True (P := L = L ∧ _)) by (split; [done|lia]).
    rewrite xsum_seqZ_snoc by lia. replace (s * ss + (i - s * ss) - s * ss) with (i - s * ss) by lia.
    rewrite (assoc bxor). f_equal. apply (comm bxor).
  - eapply holds_ext; [|exact Hh]. intros c i Hc Hi. unfold upd_sym. case_decide as Hin; [|done].
    simpl. rewrite (left_id x00 bxor). destruct Hin as [-> ?]. f_equal. lia.
Qed.

(** The contents of two symbols, [(D, s)] and [(R, s)], under repair. *)
Definition two_syms (g : Z → Z → byte) (D R s : Z) (d r : Z → byte) : Z → Z → byte :=
  upd_sym (upd_sym g R s r) D s d.

Lemma upd_sym_eq g L s h t : 0 ≤ t < ss → upd_sym g L s h L (s * ss + t) = h t.
Proof. intros. unfold upd_sym. rewrite decide_True by lia. f_equal. lia. Qed.

Lemma upd_sym_ne g L s h c s' t : 0 ≤ t < ss → (c ≠ L ∨ s' ≠ s) → upd_sym g L s h c (s' * ss + t) = g c (s' * ss + t).
Proof. intros ? Hne. unfold upd_sym. rewrite decide_False; [done|]. intros [-> ?]. destruct Hne as [?|?]; [done|]. nia. Qed.

Lemma upd_sym_cong g g' L s h h' c i :
  (∀ t, 0 ≤ t < ss → h t = h' t) → (¬ (c = L ∧ s * ss ≤ i < s * ss + ss) → g c i = g' c i) →
  upd_sym g L s h c i = upd_sym g' L s h' c i.
Proof. intros Hh Hg. unfold upd_sym. case_decide; [apply Hh; lia|by apply Hg]. Qed.

Lemma upd_sym_swap g D R s d r c i : D ≠ R → two_syms g D R s d r c i = two_syms g R D s r d c i.
Proof. intros. unfold two_syms, upd_sym. repeat case_decide; try done. destruct_and?. congruence. Qed.

(** [two_syms] after adding [(c, s')] to [(D, s)]. *)
Lemma two_syms_D m g D R s d r c s' :
  holds m (two_syms g D R s d r) → 0 ≤ D < n → lost D → D ≠ R → 0 ≤ s < p - 1 → 0 ≤ c < n → 0 ≤ s' < p - 1 →
  c ≠ D → (c ≠ R ∨ s' ≠ s) →
  ∃ m', bitwiseXOR m (sym D s) (sym c s') (sym D s) ss = Some m' ∧
    holds m' (two_syms g D R s (λ t, bxor (d t) (g c (s' * ss + t))) r).
Proof.
  intros Hh HD HlD HDR Hs Hc Hs' HcD Hne.
  destruct (holds_xor_sym m _ D s c s' Hh) as (m' & E & H'); [done..|by left|].
  exists m'. split; [done|]. eapply holds_ext; [|exact H']. intros c0 i0 Hc0 Hi0.
  apply upd_sym_cong.
  - intros t Ht. unfold two_syms. rewrite upd_sym_eq by done. rewrite upd_sym_ne by (done || by left).
    rewrite upd_sym_ne by done. apply (comm bxor).
  - intros Hn. unfold two_syms, upd_sym at 1. by rewrite decide_False.
Qed.

(** [two_syms] after adding [(c, s)], or the repaired [(D, s)], to [(R, s)]. *)
Lemma two_syms_R m g D R s d r c :
  holds m (two_syms g D R s d r) → 0 ≤ R < n → lost R → D ≠ R → 0 ≤ s < p - 1 → 0 ≤ c < n → c ≠ R →
  ∃ m', bitwiseXOR m (sym R s) (sym c s) (sym R s) ss = Some m' ∧
    holds m' (two_syms g D R s d (λ t, bxor (r t) (if decide (c = D) then d t else g c (s * ss + t)))).
Proof.
  intros Hh HR HlR HDR Hs Hc HcR.
  destruct (holds_xor_sym m _ R s c s Hh) as (m' & E & H'); [done..|by left|].
  exists m'. split; [done|]. eapply holds_ext; [|exact H']. intros c0 i0 Hc0 Hi0.
  rewrite (upd_sym_swap g D R s d _ c0 i0 HDR). apply upd_sym_cong.
  - intros t Ht. rewrite (upd_sym_swap g D R s d r R), (comm bxor) by done. unfold two_syms at 1. rewrite upd_sym_eq by done.
    f_equal. case_decide as HcD.
    + subst. unfold two_syms. by rewrite upd_sym_eq.
    + unfold two_syms. by rewrite !upd_sym_ne by (done || by left).
  - intros Hn. rewrite upd_sym_swap by done. unfold two_syms, upd_sym at 1. by rewrite decide_False.
Qed.
End symbols.
