(* ===== verification/Rdp.v ===== *)
(** * RDP: row-diagonal parity (common/coding/rdpcoding.{hh,cc})

    [k] data chunks, the row parity (index 1) and the diagonal parity
    (index 2), over a prime [p > k] and [p - 1] symbols per chunk.  The
    diagonal parity covers the data and the row parity.  [rdp_code] shows the
    promise of [ErasureCode] for two lost chunks; [getSymbolSize_spec] that the
    constructor finds such a prime or ends the program. *)

From S2P Require Export Raid Symbols.

Module RDPCoding.

Definition primeList : list Z :=
  [2; 3; 5; 7; 11; 13; 17; 19; 23; 29;
   31; 37; 41; 43; 47; 53; 59; 61; 67; 71;
   73; 79; 83; 89; 97; 101; 103; 107; 109; 113;
   127; 131; 137; 139; 149; 151; 157; 163; 167; 173;
   179; 181; 191; 193; 197; 199; 211; 223; 227; 229;
   233; 239; 241; 251; 257; 263; 269; 271; 277; 281;
   283; 293; 307; 311; 313; 317; 331; 337; 347; 349;
   353; 359; 367; 373; 379; 383; 389; 397; 401; 409;
   419; 421; 431; 433; 439; 443; 449; 457; 461; 463;
   467; 479; 487; 491; 499; 503; 509; 521; 523; 541;
   547; 557; 563; 569; 571; 577; 587; 593; 599; 601;
   607; 613; 617; 619; 631; 641; 643; 647; 653; 659;
   661; 673; 677; 683; 691; 701; 709; 719; 727; 733;
   739; 743; 751; 757; 761; 769; 773; 787; 797; 809;
   811; 821; 823; 827; 829; 839; 853; 857; 859; 863;
   877; 881; 883; 887; 907; 911; 919; 929; 937; 941;
   947; 953; 967; 971; 977; 983; 991; 997].
Definition primeCount : Z := 168.

(** ** The constructor: the prime and the symbol size *)

(** The binary search of [getPrime]; the result is the index left in [_p].
    Leaving the loop without a [break] would return the uninitialised member. *)
Fixpoint getPrime_loop (ok_start : Z → bool) (bound : Z) (fuel : nat) (start end_ : Z) : option Z :=
  match fuel with
  | O => None
  | S fuel' =>
      if decide (start < end_) then
        let mid := (start + end_) / 2 in
        pm ← zget primeList mid;
        let start := if decide (pm < bound) then mid else start in
        let end_ := if decide (pm >= bound) then mid else end_ in
        if decide (start + 1 = end_) then
          ps ← zget primeList start;
          Some (if decide (ps >= bound) then (if ok_start ps then start else end_) else end_)
        else getPrime_loop ok_start bound fuel' start end_
      else None
  end.

Definition getPrime (k : Z) : option Z := getPrime_loop (λ _, true) (u32 (k + 1)) 168 0 (primeCount - 1).

(** The walk to a prime that divides the chunk; the condition reads
    [primeList[ pp ]] before it tests [pp < primeCount]. *)
Fixpoint search_prime (chunkSize : Z) (fuel : nat) (pp : Z) : option Z :=
  match fuel with
  | O => None
  | S fuel' =>
      q ← zget primeList pp;
      if decide (chunkSize mod (q - 1) ≠ 0 ∧ pp < primeCount) then search_prime chunkSize fuel' (pp + 1)
      else Some pp
  end.

(** [_p] and [_symbolSize]. *)
Definition getSymbolSize_from (chunkSize : Z) (pp : Z) : option (Z * Z) :=
  pp ← search_prime chunkSize 169 pp;
  if decide (pp = primeCount) then None else
  p ← zget primeList pp;
  Some (p, chunkSize / (p - 1)).
Definition getSymbolSize (k chunkSize : Z) : option (Z * Z) :=
  pp ← getPrime k; getSymbolSize_from chunkSize pp.

(** ** Encoding *)
Section rdp.
Variables (k p chunkSize symbolSize : Z) (junk : nat → Z → byte).

Definition in_chunk (c : ptr) (o : Z) : ptr := getData c +ₚ o.

(** One symbol: [size] is the length of the modified range, 0 for all. *)
Definition encode_symbol (data : list ptr) (parity firstParity : ptr) (startOff endOff size cidx sidx : Z) (m : mem) : option mem :=
  let symbolOff := u32 (cidx * chunkSize + sidx * symbolSize) in
  if decide (size > 0 ∧ cidx < k ∧ (u32 (symbolOff + symbolSize) < startOff ∨ symbolOff > endOff)) then Some m else
  let pidx := u32 (cidx + sidx) mod p in
  let offset := if decide (size > 0 ∧ cidx < k) then (if decide (startOff > symbolOff) then startOff - symbolOff else 0) else 0 in
  let len := if decide (size > 0 ∧ cidx < k) then u32 (endOff - (symbolOff + offset)) else symbolSize in
  let len := if decide (u32 (len + offset) > symbolSize) then u32 (symbolSize - offset) else len in
  if decide (pidx = p - 1) then Some m else
  src ← (if decide (cidx < k) then zget data cidx else Some firstParity);
  bitwiseXOR m (in_chunk parity (pidx * symbolSize + offset)) (in_chunk src (sidx * symbolSize + offset))
    (in_chunk parity (pidx * symbolSize + offset)) len.

Definition encode_chunk (data : list ptr) (parity firstParity : ptr) (startOff endOff size cidx : Z) (m : mem) : option mem :=
  if decide (size > 0 ∧ cidx < k ∧ (u32 ((cidx + 1) * chunkSize) < startOff ∨ u32 (cidx * chunkSize) > endOff)) then Some m else
  for_range 0 (p - 1) (encode_symbol data parity firstParity startOff endOff size cidx) m.

Definition encode (m : mem) (data : list ptr) (parity : ptr) (index startOff endOff : Z) : option mem :=
  let size := if decide (endOff = 0) then 0 else u32 (endOff - startOff) in
  if decide (index = 1) then RAID5Coding.encode (k + 1) chunkSize m data parity index startOff endOff
  else if decide (index = 2) then
    '(firstParity, m) ← TempChunkPool.alloc chunkSize junk m 0 0 0;
    m ← RAID5Coding.encode (k + 1) chunkSize m data firstParity 1 0 0;
    m ← for_range 0 (k + 1) (encode_chunk data parity firstParity startOff endOff size) m;
    TempChunkPool.free m firstParity
  else Some m.

(** ** Decoding *)
(** The loop that collects the failed chunks; [None] inside is the early
    [return false] at the third one. *)
Fixpoint collect_failed (bitmap : BitmaskArray) (idx : Z) (failed : list Z) (cnt : nat) : option (option (list Z)) :=
  match cnt with
  | O => Some (Some failed)
  | S cnt' =>
      b ← check1 bitmap idx;
      if (b : bool) then collect_failed bitmap (idx + 1) failed cnt'
      else if decide (zlen failed < 2) then collect_failed bitmap (idx + 1) (failed ++ [idx]) cnt'
      else Some None
  end.

Definition performXOR_step (chunks : list ptr) (target : Z) (t : ptr) (cidx : Z) (m : mem) : option mem :=
  if decide (cidx = target) then Some m else
  c ← zget chunks cidx; bitwiseXOR_chunk m t c t chunkSize.
Definition performXOR (m : mem) (chunks : list ptr) (target : Z) : option mem :=
  if decide (target > k) then Some m else
  t ← zget chunks target;
  for_range 0 (k + 1) (performXOR_step chunks target t) m.

(** The inner loop of the double-failure case. *)
Definition repair_chunk (chunks : list ptr) (chunkToRRepair chunkToDRepair didxToRepair sidxToRepair cidx : Z) (m : mem) : option mem :=
  if decide (cidx = chunkToDRepair) then Some m else
  dc ← zget chunks chunkToDRepair;
  rc ← zget chunks chunkToRRepair;
  c ← zget chunks cidx;
  let sidx := u32 (didxToRepair + p - cidx) mod p in
  m ← (if decide (sidx ≠ p - 1) then
         bitwiseXOR m (in_chunk dc (sidxToRepair * symbolSize)) (in_chunk c (sidx * symbolSize))
           (in_chunk dc (sidxToRepair * symbolSize)) symbolSize
       else Some m);
  if decide (cidx = chunkToRRepair) then Some m else
  bitwiseXOR m (in_chunk rc (sidxToRepair * symbolSize)) (in_chunk c (sidxToRepair * symbolSize))
    (in_chunk rc (sidxToRepair * symbolSize)) symbolSize.

(** [chunkToRRepair], [chunkToDRepair], [didxToRepair], [sidxToRepair] *)
Record repair_state := RState { rs_R : Z; rs_D : Z; rs_didx : Z; rs_sidx : Z }.

Definition repair_next (s : repair_state) : repair_state :=
  let didx := u32 (rs_R s + rs_sidx s) mod p in
  let sidx := u32 (didx + p - rs_D s) mod p in
  if decide (didx = p - 1) then
    let R := rs_D s in
    let D := rs_R s in
    let didx := u32 (R - 1) in
    RState R D didx (u32 (didx + p - D) mod p)
  else RState (rs_R s) (rs_D s) didx sidx.

Definition repair_round (chunks : list ptr) (st : repair_state * mem) : option (repair_state * mem) :=
  let '(s, m) := st in
  m ← for_range 0 (k + 1) (repair_chunk chunks (rs_R s) (rs_D s) (rs_didx s) (rs_sidx s)) m;
  dc ← zget chunks (rs_D s);
  rc ← zget chunks (rs_R s);
  pc ← zget chunks (k + 1);
  m ← bitwiseXOR m (in_chunk dc (rs_sidx s * symbolSize)) (in_chunk pc (rs_didx s * symbolSize))
        (in_chunk dc (rs_sidx s * symbolSize)) symbolSize;
  m ← bitwiseXOR m (in_chunk rc (rs_sidx s * symbolSize)) (in_chunk dc (rs_sidx s * symbolSize))
        (in_chunk rc (rs_sidx s * symbolSize)) symbolSize;
  Some (repair_next s, m).

Definition repair_init (f0 f1 : Z) : repair_state :=
  let '(R, D) := if decide (f0 = 0) then (f1, f0) else (f0, f1) in
  let didx := u32 (R - 1) in
  RState R D didx (u32 (didx + p - D) mod p).

(** [recoveredSymbolCount] goes up by two to [2 * (p - 1)]: [p - 1] rounds. *)
Definition decode_double (m : mem) (chunks : list ptr) (f0 f1 : Z) : option mem :=
  c0 ← zget chunks f0;
  m ← ChunkUtil.clear chunkSize m c0;
  c1 ← zget chunks f1;
  m ← ChunkUtil.clear chunkSize m c1;
  snd <$> for_range 0 (p - 1) (λ _, repair_round chunks) (repair_init f0 f1, m).

Definition decode (m : mem) (chunks : list ptr) (bitmap : BitmaskArray) : option (bool * mem) :=
  r ← collect_failed bitmap 0 [] (Z.to_nat (k + 2));
  match r with
  | None | Some [] => Some (false, m)
  | Some [f0] =>
      if decide (f0 = k + 1) then
        pc ← zget chunks (k + 1); m ← encode m chunks pc 2 0 0; Some (true, m)
      else m ← performXOR m chunks f0; Some (true, m)
  | Some (f0 :: f1 :: _) =>
      if decide (f1 = k + 1) then
        m ← performXOR m chunks f0;
        pc ← zget chunks (k + 1); m ← encode m chunks pc 2 0 0; Some (true, m)
      else m ← decode_double m chunks f0 f1; Some (true, m)
  end.

#[export] Instance rdp : Coding := { encode := encode; decode := decode }.
End rdp.

(** ** The code *)

(** What the constructor establishes: see [getSymbolSize_spec]. *)
Record params_ok (k p chunkSize symbolSize : Z) : Prop := {
  po_k : 0 < k;
  po_p : Z.prime p;
  po_kp : k + 1 ≤ p;
  po_ss : 0 < symbolSize;
  po_cs : chunkSize = (p - 1) * symbolSize;
  po_32 : (k + 2) * chunkSize < 2 ^ 32;
}.

(** The lost chunks, in order, unless there are more than two. *)
Lemma collect_failed_spec bitmap status i acc cnt :
  (∀ j, i ≤ j < i + Z.of_nat cnt → check1 bitmap j = Some (status j)) → zlen acc ≤ 2 →
  let l := acc ++ filter (λ j, status j = false) (seqZ i (Z.of_nat cnt)) in
  collect_failed bitmap i acc cnt = Some (if decide (zlen l ≤ 2) then Some l else None).
Proof.
  revert i acc. induction cnt as [|cnt IH]; intros i acc Hst Hacc; simpl.
  { rewrite app_nil_r. by rewrite decide_True. }
  assert (Hseq : seqZ i (Z.of_nat (S cnt)) = i :: seqZ (i + 1) (Z.of_nat cnt)).
  { rewrite seqZ_cons by lia. f_equal. f_equal; lia. }
  change (Z.pos (Pos.of_succ_nat cnt)) with (Z.of_nat (S cnt)) in *.
  rewrite Hseq, Hst by lia. simpl.
  destruct (status i) eqn:E.
  - rewrite filter_cons_False by congruence. apply IH; [intros; apply Hst; lia|done].
  - rewrite filter_cons_True by done. destruct (decide (zlen acc < 2)).
    + rewrite IH; [|intros; apply Hst; lia|unfold zlen in *; rewrite length_app; simpl; lia]. rewrite <- (assoc_L (++)). done.
    + rewrite decide_False; [done|]. unfold zlen in *. rewrite length_app. simpl. lia.
Qed.

Section correct.
Variables (k p chunkSize symbolSize : Z) (junk : nat → Z → byte).
Hypothesis (Hok : params_ok k p chunkSize symbolSize).

(** The first [k + 1] columns: data and row parity. *)
Definition column (D : data_t) (c i : Z) : byte :=
  if decide (c < k) then D c i else RAID5Coding.row_parity k D i.

(** Byte [t] of the sum of the symbols of columns [0 .. k] on diagonal [d]; the
    symbol of a column that would be row [p - 1] does not exist. *)
Definition diag_sum (E : data_t) (d t : Z) : byte :=
  xsum (seqZ 0 (k + 1)) (λ c, let s := (d - c) mod p in
    if decide (s = p - 1) then x00 else E c (s * symbolSize + t)).

Definition diag_parity (D : data_t) (i : Z) : byte :=
  diag_sum (column D) (i / symbolSize) (i mod symbolSize).

Definition rdp_parity (j : Z) (D : data_t) : Z → byte :=
  if decide (j = 1) then RAID5Coding.row_parity k D else diag_parity D.

Lemma rdp_bounds :
  0 < k ∧ 1 < p ∧ k + 1 ≤ p ∧ 0 < symbolSize ∧ chunkSize = (p - 1) * symbolSize ∧ 0 < chunkSize ∧
  p ≤ chunkSize + 1 ∧ (k + 2) * chunkSize < 2 ^ 32 ∧ chunkSize < 2 ^ 31 ∧ k + 2 < 2 ^ 32.
Proof. destruct Hok as [? Hp%Z.prime_ge_2 ? ? ? ?]. split_and!; try lia; nia. Qed.

(** The bytes symbol [s] of column [c] gives to the diagonal parity. *)
Definition contribution (E : data_t) (c s i : Z) : byte :=
  let d := (c + s) mod p in
  if decide (d ≠ p - 1 ∧ d * symbolSize ≤ i < d * symbolSize + symbolSize)
  then E c (s * symbolSize + (i - d * symbolSize)) else x00.

Lemma contributions_sum E i :
  0 ≤ i < chunkSize →
  xsum (seqZ 0 (k + 1)) (λ c, xsum (seqZ 0 (p - 1)) (λ s, contribution E c s i)) =
  diag_sum E (i / symbolSize) (i mod symbolSize).
Proof.
  intros Hi. destruct rdp_bounds as (? & ? & ? & ? & Hcs & ?). unfold diag_sum. apply xsum_ext.
  intros c Hc%elem_of_seqZ. set (d := i / symbolSize). set (s0 := (d - c) mod p).
  assert (Hd : 0 ≤ d < p - 1).
  { unfold d. split; [apply Z.div_pos; lia|]. apply Z.div_lt_upper_bound; [lia|]. rewrite Z.mul_comm. lia. }
  assert (Him : i = d * symbolSize + i mod symbolSize) by (unfold d; rewrite (Z.div_mod i symbolSize) at 1 by lia; lia).
  pose proof (Z.mod_pos_bound i symbolSize ltac:(lia)) as Hr.
  pose proof (Z.mod_pos_bound (d - c) p ltac:(lia)) as Hs0. fold s0 in Hs0.
  assert (Hiff : ∀ s, 0 ≤ s < p - 1 → (c + s) mod p = d ↔ s = s0).
  { intros s Hs. split.
    - intros Hcd. unfold s0. rewrite <- Hcd, Zminus_mod_idemp_l. replace (c + s - c) with s by lia. symmetry. by apply Z.mod_small; lia.
    - intros ->. unfold s0. rewrite Zplus_mod_idemp_r. replace (c + (d - c)) with d by lia. by apply Z.mod_small; lia. }
  assert (Hcontr : ∀ s, 0 ≤ s < p - 1 → contribution E c s i = if decide (s = s0) then E c (s0 * symbolSize + i mod symbolSize) else x00).
  { intros s Hs. pose proof (Hiff s Hs) as Hi'. unfold contribution. destruct (decide (s = s0)) as [->|Hne].
    - rewrite (proj2 Hi' eq_refl). rewrite decide_True by lia. f_equal. lia.
    - rewrite decide_False; [done|]. intros [_ Hin]. apply Hne, Hi'.
      generalize dependent ((c + s) mod p). intros e _ Hin. unfold d.
      apply Z.div_unique with (i - e * symbolSize); [left; lia|ring]. }
  rewrite (xsum_ext _ _ (λ s, if decide (s = s0) then E c (s0 * symbolSize + i mod symbolSize) else x00)).
  2:{ intros s Hs%elem_of_seqZ. apply Hcontr. lia. }
  case_decide as Hlast.
  - apply xsum_zero. intros s Hs%elem_of_seqZ. rewrite decide_False by lia. done.
  - apply xsum_single; [apply NoDup_seqZ|apply elem_of_seqZ; lia].
Qed.

(** A range of the stripe outside of which the data is zero, as [encode]
    receives it; [size] is 0 when there is none. *)
Definition in_stripe_range (D : data_t) (startOff endOff : Z) : Prop :=
  startOff = endOff ∨
  0 ≤ startOff < endOff ∧ endOff ≤ k * chunkSize ∧
  ∀ c i, 0 ≤ c < k → 0 ≤ i < chunkSize → D c i ≠ x00 → startOff ≤ c * chunkSize + i < endOff.

Definition range_size (startOff endOff : Z) : Z := if decide (endOff = 0) then 0 else u32 (endOff - startOff).

Lemma range_size_eq D startOff endOff :
  in_stripe_range D startOff endOff →
  range_size startOff endOff = 0 ∨
  range_size startOff endOff > 0 ∧ 0 ≤ startOff < endOff ∧ endOff ≤ k * chunkSize.
Proof.
  destruct rdp_bounds as (? & ? & ? & ? & Hcs & ?). unfold range_size.
  intros [->|(? & ? & _)]; [left; rewrite Z.sub_diag; by case_decide|]. right. rewrite decide_False by lia.
  assert (k * chunkSize < 2 ^ 32) by nia. rewrite u32_small by lia. lia.
Qed.

(** Data outside of the range is zero. *)
Lemma out_of_range D startOff endOff c i :
  in_stripe_range D startOff endOff → range_size startOff endOff > 0 → 0 ≤ c < k → 0 ≤ i < chunkSize →
  ¬ (startOff ≤ c * chunkSize + i < endOff) → D c i = x00.
Proof.
  intros [->|(? & ? & Hz)] Hs Hc Hi Hn; [unfold range_size in Hs; rewrite Z.sub_diag in Hs; by case_decide|].
  destruct (decide (D c i = x00)); [done|]. exfalso. apply Hn. by apply Hz.
Qed.

Lemma symbol_range c s t :
  0 ≤ c < k + 1 → 0 ≤ s < p - 1 → 0 ≤ t < symbolSize →
  0 ≤ s * symbolSize + t < chunkSize ∧ 0 ≤ c * chunkSize + s * symbolSize + t < (k + 1) * chunkSize.
Proof. destruct rdp_bounds as (? & ? & ? & ? & Hcs & ?). intros. assert (s * symbolSize + t < chunkSize) by nia. split; nia. Qed.

Lemma symbol_fits s : 0 ≤ s < p - 1 → 0 ≤ s * symbolSize ∧ s * symbolSize + symbolSize ≤ chunkSize.
Proof. destruct rdp_bounds as (? & ? & ? & ? & Hcs & ?). intros. split; nia. Qed.

Section encode_loop.
Variables (m0 : mem) (data : list ptr) (parity firstParity : ptr) (D : data_t) (startOff endOff : Z).
Hypothesis (Hrange : in_stripe_range D startOff endOff).
Hypothesis (Hpar : valid m0 (getData parity) chunkSize).
Hypothesis (Hsrc : ∀ c, 0 ≤ c < k + 1 → ∃ q,
  (if decide (c < k) then zget data c else Some firstParity) = Some q ∧
  chunk_is chunkSize m0 q (column D c) ∧ apart (getData parity) chunkSize (getData q) chunkSize).
Let size := range_size startOff endOff.

Lemma encode_symbol_accum c s f m :
  0 ≤ c < k + 1 → 0 ≤ s < p - 1 → accum m0 (getData parity) chunkSize f m →
  ∃ m', encode_symbol k p chunkSize symbolSize data parity firstParity startOff endOff size c s m = Some m' ∧
    accum m0 (getData parity) chunkSize (bxor_fun f (contribution (column D) c s)) m'.
Proof.
  intros Hc Hs Ha. destruct rdp_bounds as (? & ? & ? & ? & Hcs & ? & ? & H32 & ? & ?).
  pose proof (range_size_eq D startOff endOff Hrange) as Hsz. fold size in Hsz.
  unfold encode_symbol.
  pose proof (symbol_range c s 0 Hc Hs ltac:(lia)) as Hr0. pose proof (symbol_range c s (symbolSize - 1) Hc Hs ltac:(lia)) as Hr1.
  rewrite (u32_small (c * chunkSize + _)) by lia. set (symbolOff := c * chunkSize + s * symbolSize) in *.
  rewrite (u32_small (symbolOff + symbolSize)) by (unfold symbolOff; lia).
  rewrite (u32_small (c + s)) by lia. set (pidx := (c + s) mod p).
  pose proof (Z.mod_pos_bound (c + s) p ltac:(lia)) as Hpd. fold pidx in Hpd.
  (* skipped symbols are zero *)
  assert (Hskip : size > 0 ∧ c < k ∧ (symbolOff + symbolSize < startOff ∨ symbolOff > endOff) →
                  ∀ i, contribution (column D) c s i = x00).
  { intros (Hsz0 & Hck & Hout) i. unfold contribution. case_decide as Hi; [|done]. fold pidx in Hi |- *.
    unfold column. rewrite decide_True by done.
    apply (out_of_range D startOff endOff); [done|done|lia| |]; unfold symbolOff in *; lia. }
  case_decide as Hd1.
  { exists m. split; [done|]. eapply accum_ext; [|exact Ha]. intros i _. unfold bxor_fun.
    rewrite Hskip by done. by rewrite (right_id x00 bxor). }
  set (offset := if decide (size > 0 ∧ c < k) then if decide (startOff > symbolOff) then startOff - symbolOff else 0 else 0).
  set (len0 := if decide (size > 0 ∧ c < k) then u32 (endOff - (symbolOff + offset)) else symbolSize).
  set (len := if decide (u32 (len0 + offset) > symbolSize) then u32 (symbolSize - offset) else len0).
  assert (Hend : size > 0 → endOff < 2 ^ 32).
  { intros Hp. destruct Hsz as [Hsz|(_ & _ & Hsz)]; [lia|].
    assert (k * chunkSize ≤ (k + 2) * chunkSize) by (apply Z.mul_le_mono_nonneg_r; lia). lia. }
  (* the bytes of the symbol outside [offset, offset + len) are zero *)
  assert (Hol : 0 ≤ offset ∧ 0 ≤ len ∧ offset + len ≤ symbolSize ∧
                ∀ t, 0 ≤ t < symbolSize → ¬ (offset ≤ t < offset + len) → column D c (s * symbolSize + t) = x00).
  { unfold len, len0, offset. destruct (decide (size > 0 ∧ c < k)) as [[Hsz0 Hck]|Hd2].
    - specialize (Hend Hsz0). assert (Ho : 0 ≤ (if decide (startOff > symbolOff) then startOff - symbolOff else 0) ≤ symbolSize).
      { case_decide; [|lia]. lia. }
      set (o := if decide (startOff > symbolOff) then _ else _) in *.
      assert (Hoe : symbolOff + o ≤ endOff) by (unfold o; case_decide; lia).
      rewrite (u32_small (endOff - _)) by lia. rewrite (u32_small (endOff - _ + o)) by lia.
      assert (Hz : ∀ t, 0 ≤ t < symbolSize → ¬ (startOff ≤ symbolOff + t < endOff) → column D c (s * symbolSize + t) = x00).
      { intros t Ht Hn. unfold column. rewrite decide_True by done.
        apply (out_of_range D startOff endOff); [done|done|lia| |]; unfold symbolOff in *; lia. }
      assert (Hso : o = Z.max 0 (startOff - symbolOff)) by (unfold o; case_decide; lia).
      case_decide.
      + rewrite u32_small by lia. split_and!; [lia|lia|lia|]. intros t Ht Hn. apply Hz; lia.
      + split_and!; [lia|lia|lia|]. intros t Ht Hn. apply Hz; lia.
    - rewrite Z.add_0_r, u32_small by lia. rewrite decide_False by lia. split_and!; lia. }
  clearbody offset. clearbody len. clear len0. destruct Hol as (Ho & Hlen & Hol & Hz).
  case_decide as Hd3.
  { exists m. split; [done|]. eapply accum_ext; [|exact Ha]. intros i _. unfold bxor_fun, contribution. fold pidx.
    rewrite decide_False by lia. by rewrite (right_id x00 bxor). }
  destruct (Hsrc c Hc) as (q & Hq & Hcol & Hap). rewrite Hq. cbn [mbind option_bind]. unfold in_chunk.
  pose proof (region_is_valid _ _ _ _ Hcol ltac:(lia)) as Hvq.
  pose proof (symbol_fits pidx ltac:(lia)) as Hpb. pose proof (symbol_fits s Hs) as Hqb.
  destruct (accum_xor m0 (getData parity) chunkSize f m (pidx * symbolSize + offset) len (getData q +ₚ (s * symbolSize + offset)))
    as [_ (m' & E & Ha')]; [done|done|lia|done|lia|eapply valid_sub; [done|lia|lia|lia]| |].
  { unfold apart in *; simpl in *. destruct Hap as [?|?]; [by left|right; lia]. }
  exists m'. split; [done|]. eapply accum_ext; [|exact Ha']. intros i Hi. unfold add_part, bxor_fun, contribution. fold pidx. f_equal.
  destruct (decide (pidx * symbolSize + offset ≤ i < pidx * symbolSize + offset + len)) as [Hin|Hin].
  - rewrite !decide_True by lia. rewrite padd_padd. rewrite (region_is_mbyte _ _ _ _ _ Hcol) by lia. f_equal. lia.
  - clear Hq. case_decide as Hin2; [|done]. symmetry. apply Hz; lia.
Qed.

Lemma encode_chunk_accum c f m :
  0 ≤ c < k + 1 → accum m0 (getData parity) chunkSize f m →
  ∃ m', encode_chunk k p chunkSize symbolSize data parity firstParity startOff endOff size c m = Some m' ∧
    accum m0 (getData parity) chunkSize
      (bxor_fun f (λ i, xsum (seqZ 0 (p - 1)) (λ s, contribution (column D) c s i))) m'.
Proof.
  intros Hc Ha. destruct rdp_bounds as (? & ? & ? & ? & Hcs & ? & ? & H32 & ? & ?).
  pose proof (range_size_eq D startOff endOff Hrange) as Hsz. fold size in Hsz.
  unfold encode_chunk. assert (Hc1 : 0 ≤ c * chunkSize ∧ (c + 1) * chunkSize ≤ (k + 1) * chunkSize) by nia.
  rewrite !u32_small by lia.
  destruct (decide (size > 0 ∧ c < k ∧ ((c + 1) * chunkSize < startOff ∨ c * chunkSize > endOff))) as [(Hsz0 & Hck & Hout)|_].
  - exists m. split; [done|]. eapply accum_ext; [|exact Ha]. intros i _. unfold bxor_fun. rewrite xsum_zero.
    { by rewrite (right_id x00 bxor). }
    intros s Hs%elem_of_seqZ. unfold contribution. case_decide as Hi; [|done]. unfold column.
    rewrite decide_True by done. set (d := (c + s) mod p) in *.
    pose proof (symbol_fits s ltac:(lia)). apply (out_of_range D startOff endOff); [done|done|lia|lia|lia].
  - destruct (accum_loop m0 (getData parity) chunkSize (λ s i, contribution (column D) c s i) 0 (p - 1)
      (encode_symbol k p chunkSize symbolSize data parity firstParity startOff endOff size c) f m)
      as (m' & E & Ha'); [lia|done|intros; apply encode_symbol_accum; lia || done|].
    exists m'. split; [done|]. eapply accum_ext; [|exact Ha']. intros i _. unfold bxor_fun. f_equal. f_equal. f_equal. lia.
Qed.

Lemma encode_loop_accum :
  ∃ m', for_range 0 (k + 1) (encode_chunk k p chunkSize symbolSize data parity firstParity startOff endOff size) m0 = Some m' ∧
    accum m0 (getData parity) chunkSize (diag_parity D) m'.
Proof.
  destruct rdp_bounds as (? & ? & ? & ? & Hcs & ? & ? & H32 & ? & ?).
  destruct (accum_loop m0 (getData parity) chunkSize
    (λ c i, xsum (seqZ 0 (p - 1)) (λ s, contribution (column D) c s i)) 0 (k + 1)
    (encode_chunk k p chunkSize symbolSize data parity firstParity startOff endOff size) (λ _, x00) m0)
    as (m' & E & Ha'); [lia|by apply accum_refl|intros; apply encode_chunk_accum; lia || done|].
  exists m'. split; [done|]. eapply accum_ext; [|exact Ha']. intros i Hi. rewrite (left_id x00 bxor).
  unfold diag_parity. rewrite <- contributions_sum by done. f_equal. f_equal. lia.
Qed.
End encode_loop.

(** [encode] on a zero parity chunk. *)
Lemma rdp_encode_ok m data parity index startOff endOff D :
  1 ≤ index ≤ 2 → stripe_is chunkSize m data k D → chunk_is chunkSize m parity (λ _, x00) →
  (∀ c q, 0 ≤ c < k → zget data c = Some q → apart (getData parity) chunkSize (getData q) chunkSize) →
  in_stripe_range D startOff endOff →
  ∃ m', encode k p chunkSize symbolSize junk m data parity index startOff endOff = Some m' ∧ same_shape m m' ∧
    chunk_is chunkSize m' parity (rdp_parity index D) ∧
    ∀ q, ¬ in_range (getData parity) chunkSize q → mget m' q = mget m q.
Proof.
  intros Hidx Hd Hz Hap Hrange. destruct rdp_bounds as (? & ? & ? & ? & Hcs & Hcs0 & ? & H32 & ? & ?).
  pose proof (region_is_valid _ _ _ _ Hz Hcs0) as Hvp.
  unfold encode, rdp_parity. fold (range_size startOff endOff). destruct (decide (index = 1)) as [->|Hi1].
  { destruct (RAID5Coding.r5_encode_ok (k + 1) chunkSize ltac:(lia) Hcs0 m data parity 1 startOff endOff D)
      as (m' & E & Hs & Hc & Hf); replace (k + 1 - 1) with k in * by lia; [done..|]. exists m'. eauto. }
  rewrite decide_True by lia.
  destruct (temp_alloc_spec chunkSize junk m 0 0 0) as (fp & m1 & E1 & Hoff & Hx & Hvf & Hzf & Hfr1); [lia|].
  rewrite E1. cbn [mbind option_bind].
  assert (Hblk : ∀ q f, chunk_is chunkSize m q f → blk q ≠ blk fp).
  { intros q f Hr. apply (extends_by_blk _ _ _ _ _ Hx (region_is_valid _ _ _ _ Hr Hcs0)). }
  assert (Hd1 : stripe_is chunkSize m1 data k D).
  { intros c Hc. destruct (Hd c Hc) as (q & Hq & Hr). exists q. split; [done|]. intros i Hi.
    rewrite Hfr1; [by apply Hr|]. by apply (Hblk q _ Hr). }
  destruct (RAID5Coding.r5_encode_ok (k + 1) chunkSize ltac:(lia) Hcs0 m1 data fp 1 0 0 D)
    as (m2 & E2 & Hs2 & Hc2 & Hf2); replace (k + 1 - 1) with k in * by lia; [done..| |].
  { intros c q Hc Hq. left. destruct (Hd c Hc) as (q' & Hq' & Hr). simplify_eq.
    apply not_eq_sym. by apply (Hblk q _ Hr). }
  rewrite E2. cbn [mbind option_bind].
  assert (Hfr2 : ∀ q, blk q ≠ blk fp → mget m2 q = mget m q).
  { intros q Hq. rewrite Hf2 by (unfold in_range; simpl; tauto). by apply Hfr1. }
  destruct (encode_loop_accum m2 data parity fp D startOff endOff Hrange) as (m3 & E3 & Ha3).
  { rewrite <- Hs2. by eapply extends_by_valid. }
  { intros c Hc. unfold column. case_decide as Hck.
    - destruct (Hd c ltac:(lia)) as (q & Hq & Hr). exists q. split; [done|]. split; [|by apply (Hap c); [lia|]].
      intros i Hi. rewrite Hfr2; [by apply Hr|]. by apply (Hblk q _ Hr).
    - exists fp. split; [done|]. split; [done|]. left. by apply (Hblk parity _ Hz). }
  rewrite E3. cbn [mbind option_bind].
  destruct (extends_by_free m (blk fp) m3 fp) as (m4 & E4 & Hs4 & Hg4); [|done|done|].
  { eapply extends_by_trans; [by eapply extends_by_trans|apply Ha3]. }
  exists m4. split; [exact E4|]. split; [done|]. split.
  - intros i Hi. rewrite Hg4. rewrite decide_False by by apply (Hblk parity _ Hz).
    assert (Hz2 : chunk_is chunkSize m2 parity (λ _, x00)).
    { intros j Hj. rewrite Hfr2; [by apply Hz|]. by apply (Hblk parity _ Hz). }
    rewrite (accum_region _ _ _ _ _ _ Ha3 Hz2) by done. f_equal. apply (left_id x00 bxor).
  - intros q Hq. rewrite Hg4. case_decide as Hqb.
    + unfold mget. rewrite Hqb. destruct Hx as [Hx _]. by rewrite Hx.
    + rewrite (accum_frame _ _ _ _ _ _ Ha3) by done. by apply Hfr2.
Qed.

(** ** Decoding *)

(** The codeword: data, row parity, diagonal parity. *)
Definition rdp_codeword (D : data_t) (c : Z) : Z → byte :=
  if decide (c < k) then D c else rdp_parity (c - k + 1) D.

Lemma rdp_codeword_column D c : c < k + 1 → rdp_codeword D c = column D c.
Proof.
  intros. unfold rdp_codeword, column, rdp_parity. destruct (decide (c < k)); [done|].
  rewrite decide_True by lia. done.
Qed.
Lemma rdp_codeword_diag D : rdp_codeword D (k + 1) = diag_parity D.
Proof. unfold rdp_codeword, rdp_parity. rewrite !decide_False by lia. done. Qed.

Lemma column_sum D i : xsum (seqZ 0 (k + 1)) (λ c, column D c i) = x00.
Proof.
  destruct rdp_bounds. rewrite xsum_seqZ_snoc by lia. unfold column at 2. rewrite decide_False by lia.
  unfold RAID5Coding.row_parity. rewrite (xsum_ext (seqZ 0 k) _ (λ c, D c i)); [apply bxor_nilp|].
  intros c Hc%elem_of_seqZ. unfold column. by rewrite decide_True by lia.
Qed.

Section double.
Variables (chunks : list ptr) (ch : Z → ptr) (a b : Z) (D : data_t) (m0 : mem).
Hypothesis (Hab : 0 ≤ a < b ∧ b ≤ k).
Hypothesis (Hch : ∀ c, 0 ≤ c < k + 2 → zget chunks c = Some (ch c)).
Let lost (c : Z) : Prop := c = a ∨ c = b.
Hypothesis (Hap : ∀ i j, 0 ≤ i < k + 2 → 0 ≤ j < k + 2 → i ≠ j → lost i → apart (getData (ch i)) chunkSize (getData (ch j)) chunkSize).
Let cw := rdp_codeword D.
Let hold := holds (k + 2) p symbolSize ch lost m0.

(** The rows in [done] of the lost chunks are repaired, the others zero. *)
Definition repaired (rows : Z → Prop) (g : data_t) : Prop :=
  (∀ c i, 0 ≤ c < k + 2 → ¬ lost c → 0 ≤ i < chunkSize → g c i = cw c i) ∧
  (∀ c s t, lost c → 0 ≤ s < p - 1 → 0 ≤ t < symbolSize →
     (rows s → g c (s * symbolSize + t) = cw c (s * symbolSize + t)) ∧
     (¬ rows s → g c (s * symbolSize + t) = x00)).

(** The sums the inner loop has made before column [j]. *)
Definition d_sum (g : data_t) (Dc didx j t : Z) : byte :=
  xsum (seqZ 0 j) (λ c, if decide (c = Dc) then x00 else
    let s' := (didx - c) mod p in if decide (s' = p - 1) then x00 else g c (s' * symbolSize + t)).
Definition r_sum (g : data_t) (Dc R s j t : Z) : byte :=
  xsum (seqZ 0 j) (λ c, if decide (c = Dc ∨ c = R) then x00 else g c (s * symbolSize + t)).

Lemma repair_chunk_holds g R Dc didx s c m :
  lost R → lost Dc → R ≠ Dc → 0 ≤ s < p - 1 → 0 ≤ didx < p → s = (didx - Dc) mod p → 0 ≤ c < k + 1 →
  hold m (two_syms symbolSize g Dc R s (d_sum g Dc didx c) (r_sum g Dc R s c)) →
  ∃ m', repair_chunk p symbolSize chunks R Dc didx s c m = Some m' ∧
    hold m' (two_syms symbolSize g Dc R s (d_sum g Dc didx (c + 1)) (r_sum g Dc R s (c + 1))).
Proof.
  intros HR HD HRD Hs Hdi Hsd Hc Hm. destruct rdp_bounds as (? & ? & ? & ? & Hcs & ? & ? & H32 & ? & ?).
  assert (HRr : 0 ≤ R < k + 1) by (destruct HR as [-> | ->]; lia).
  assert (HDr : 0 ≤ Dc < k + 1) by (destruct HD as [-> | ->]; lia).
  unfold repair_chunk. rewrite !Hch by lia.
  assert (Hd1 : ∀ t, d_sum g Dc didx (c + 1) t = bxor (d_sum g Dc didx c t)
    (if decide (c = Dc) then x00 else let s' := (didx - c) mod p in if decide (s' = p - 1) then x00 else g c (s' * symbolSize + t))).
  { intros t. unfold d_sum. by rewrite xsum_seqZ_snoc by lia. }
  assert (Hr1 : ∀ t, r_sum g Dc R s (c + 1) t = bxor (r_sum g Dc R s c t)
    (if decide (c = Dc ∨ c = R) then x00 else g c (s * symbolSize + t))).
  { intros t. unfold r_sum. by rewrite xsum_seqZ_snoc by lia. }
  assert (Hcong : ∀ m d r, (∀ t, 0 ≤ t < symbolSize → d t = d_sum g Dc didx (c + 1) t) →
     (∀ t, 0 ≤ t < symbolSize → r t = r_sum g Dc R s (c + 1) t) → hold m (two_syms symbolSize g Dc R s d r) →
     hold m (two_syms symbolSize g Dc R s (d_sum g Dc didx (c + 1)) (r_sum g Dc R s (c + 1)))).
  { intros m1 d r Hd Hr Hm1. eapply holds_ext; [|exact Hm1]. intros c0 i0 Hc0 Hi0.
    apply upd_sym_cong; [exact Hd|]. intros _. apply upd_sym_cong; [exact Hr|done]. }
  destruct (decide (c = Dc)) as [->|HcD].
  { exists m. split; [done|]. eapply Hcong; [| |exact Hm]; intros t Ht; rewrite ?Hd1, ?Hr1.
    - by rewrite (right_id x00 bxor).
    - rewrite decide_True by (by left). by rewrite (right_id x00 bxor). }
  cbn [mbind option_bind]. rewrite u32_small by lia.
  assert (Hmod : (didx + p - c) mod p = (didx - c) mod p).
  { replace (didx + p - c) with (didx - c + 1 * p) by lia. by rewrite Z.mod_add by lia. }
  rewrite Hmod. set (s' := (didx - c) mod p) in *.
  pose proof (Z.mod_pos_bound (didx - c) p ltac:(lia)) as Hs'. fold s' in Hs'.
  assert (Hcs2 : c = R → s' ≠ s).
  { intros -> Heq. rewrite Hsd in Heq. unfold s' in Heq. apply mod_shift_eq in Heq as [z Hz]; [|lia].
    assert (z = 0) by (apply (small_mult p); lia). subst z. lia. }
  assert (HD' : ∃ m1, (if decide (s' ≠ p - 1) then bitwiseXOR m (sym symbolSize ch Dc s) (sym symbolSize ch c s') (sym symbolSize ch Dc s) symbolSize else Some m) = Some m1 ∧
    hold m1 (two_syms symbolSize g Dc R s (d_sum g Dc didx (c + 1)) (r_sum g Dc R s c))).
  { destruct (decide (s' ≠ p - 1)) as [Hne|He].
    - destruct (two_syms_D (k + 2) p symbolSize ch lost m0 ltac:(lia) ltac:(lia) ltac:(rewrite <- Hcs; exact Hap) m g Dc R s
        (d_sum g Dc didx c) (r_sum g Dc R s c) c s' Hm) as (m1 & E & Hm1); [lia|done|done|done|lia|lia|done|destruct (decide (c = R)); [right; by apply Hcs2|by left]|].
      exists m1. split; [done|]. eapply holds_ext; [|exact Hm1]. intros c0 i0 _ _. apply upd_sym_cong; [|done].
      intros t _. rewrite Hd1. cbv zeta. by rewrite decide_False.
    - exists m. split; [done|]. eapply holds_ext; [|exact Hm]. intros c0 i0 _ _. apply upd_sym_cong; [|done].
      intros t _. rewrite Hd1. cbv zeta. rewrite decide_True by (destruct (decide (s' = p - 1)); tauto).
      by rewrite (right_id x00 bxor). }
  destruct HD' as (m1 & E1 & Hm1). unfold sym in E1. unfold in_chunk. rewrite E1. cbn [mbind option_bind].
  destruct (decide (c = R)) as [HcR|HcR].
  - exists m1. split; [done|]. eapply Hcong; [| |exact Hm1]; [done|]. intros t Ht. rewrite Hr1.
    rewrite decide_True by (by right). by rewrite (right_id x00 bxor).
  - destruct (two_syms_R (k + 2) p symbolSize ch lost m0 ltac:(lia) ltac:(lia) ltac:(rewrite <- Hcs; exact Hap) m1 g Dc R s
      (d_sum g Dc didx (c + 1)) (r_sum g Dc R s c) c Hm1) as (m2 & E2 & Hm2); [lia|done|done|done|lia|done|].
    unfold sym in E2. rewrite E2. exists m2. split; [done|]. eapply Hcong; [| |exact Hm2]; [done|].
    intros t Ht. rewrite Hr1. rewrite decide_False by done. by rewrite decide_False by tauto.
Qed.

Lemma diag_parity_sym d t : 0 ≤ t < symbolSize → diag_parity D (d * symbolSize + t) = diag_sum (column D) d t.
Proof.
  intros Ht. unfold diag_parity. rewrite Z.div_add_l by lia. rewrite Z.div_small, Z.add_0_r by lia.
  rewrite Z.add_comm, Z.mod_add, Z.mod_small by lia. done.
Qed.

Lemma lost_range c : lost c → 0 ≤ c < k + 1.
Proof. intros [-> | ->]; lia. Qed.

Section round.
Variables (rows : Z → Prop) (g : data_t) (R Dc didx s : Z).
Hypothesis (Hg : repaired rows g) (HR : lost R) (HD : lost Dc) (HRD : R ≠ Dc).
Hypothesis (Hs : 0 ≤ s < p - 1) (Hns : ¬ rows s) (Hdi : 0 ≤ didx < p - 1) (Hsd : s = (didx - Dc) mod p).
Hypothesis (Hr : let r := (didx - R) mod p in r = p - 1 ∨ rows r).

Lemma lost_other c : lost c → c ≠ Dc → c = R.
Proof. destruct HR as [-> | ->], HD as [-> | ->]; intros [-> | ->]; congruence. Qed.

Lemma repaired_symbol c s' t :
  0 ≤ c < k + 1 → c ≠ Dc → c ≠ R → 0 ≤ s' < p - 1 → 0 ≤ t < symbolSize →
  g c (s' * symbolSize + t) = column D c (s' * symbolSize + t).
Proof.
  intros Hc HcD HcR Hs' Ht. destruct Hg as [Hg1 _]. rewrite Hg1; [|lia| |].
  - unfold cw. by rewrite rdp_codeword_column by lia.
  - intros Hl. apply HcR. by apply lost_other.
  - pose proof (symbol_fits s' Hs'). lia.
Qed.

Lemma d_final t : 0 ≤ t < symbolSize →
  bxor (d_sum g Dc didx (k + 1) t) (diag_parity D (didx * symbolSize + t)) = column D Dc (s * symbolSize + t).
Proof.
  intros Ht. destruct rdp_bounds as (? & ? & ? & ? & Hcs & ?). rewrite diag_parity_sym by done. unfold diag_sum.
  rewrite (xsum_seqZ_remove _ _ Dc) by by apply lost_range.
  cbv zeta. rewrite <- Hsd. rewrite (decide_False (P := s = p - 1)) by lia.
  transitivity (bxor (d_sum g Dc didx (k + 1) t) (bxor (column D Dc (s * symbolSize + t)) (d_sum g Dc didx (k + 1) t)));
    [|apply bxor_absorb]. do 2 f_equal.
  unfold d_sum. apply xsum_ext. intros c Hc%elem_of_seqZ. destruct (decide (c = Dc)) as [|HcD]; [done|].
  cbv zeta. set (s' := (didx - c) mod p) in *. pose proof (Z.mod_pos_bound (didx - c) p ltac:(lia)) as Hs'. fold s' in Hs'.
  destruct (decide (s' = p - 1)) as [|Hne]; [done|].
  destruct (decide (c = R)) as [->|HcR]; [|symmetry; apply repaired_symbol; lia].
  destruct Hr as [?|Hrow]; [done|]. destruct Hg as [_ Hg2].
  destruct (Hg2 R s' t HR ltac:(lia) Ht) as [Hg2' _]. rewrite Hg2' by done.
  unfold cw. by rewrite rdp_codeword_column by lia.
Qed.

Lemma r_final t : 0 ≤ t < symbolSize →
  bxor (r_sum g Dc R s (k + 1) t) (column D Dc (s * symbolSize + t)) = column D R (s * symbolSize + t).
Proof.
  intros Ht. destruct rdp_bounds as (? & ? & ? & ? & Hcs & ?).
  pose proof (column_sum D (s * symbolSize + t)) as Hsum.
  rewrite (xsum_seqZ_remove _ _ R) in Hsum by by apply lost_range.
  apply bxor_eq_0 in Hsum. rewrite Hsum.
  rewrite (xsum_seqZ_remove _ _ Dc) by by apply lost_range.
  rewrite (decide_False (P := Dc = R)) by done. rewrite (comm bxor). f_equal. unfold r_sum. apply xsum_ext.
  intros c Hc%elem_of_seqZ. destruct (decide (c = Dc)) as [->|]; [by rewrite decide_True by (by left)|].
  destruct (decide (c = R)) as [->|]; [by rewrite decide_True by (by right)|].
  rewrite decide_False by tauto. apply repaired_symbol; lia || done.
Qed.

Lemma repair_round_holds m :
  hold m g →
  ∃ m' g', repair_round k p symbolSize chunks (RState R Dc didx s, m) = Some (repair_next p (RState R Dc didx s), m') ∧
    hold m' g' ∧ repaired (λ x, rows x ∨ x = s) g'.
Proof.
  intros Hm. destruct rdp_bounds as (? & ? & ? & ? & Hcs & ? & ? & H32 & ? & ?).
  pose proof (lost_range _ HR) as HRr. pose proof (lost_range _ HD) as HDr.
  assert (Hzero : ∀ c t, lost c → 0 ≤ t < symbolSize → g c (s * symbolSize + t) = x00).
  { intros c t Hl Ht. destruct Hg as [_ Hg2]. by apply (Hg2 c s t Hl Hs Ht). }
  unfold repair_round. cbn [rs_R rs_D rs_didx rs_sidx].
  destruct (for_range_inv (λ c m, hold m (two_syms symbolSize g Dc R s (d_sum g Dc didx c) (r_sum g Dc R s c)))
    0 (k + 1) (repair_chunk p symbolSize chunks R Dc didx s) m) as (m1 & -> & Hm1); [lia| | |].
  { intros c m1 Hc Hm1. apply repair_chunk_holds; done || lia. }
  { eapply holds_ext; [|exact Hm]. intros c i Hc Hi. unfold two_syms, upd_sym, d_sum, r_sum. simpl.
    case_decide as Hd; [destruct Hd as [-> Hin]|case_decide as Hd2; [destruct Hd2 as [-> Hin]|done]].
    - replace i with (s * symbolSize + (i - s * symbolSize)) by lia. by apply Hzero; [|lia].
    - replace i with (s * symbolSize + (i - s * symbolSize)) by lia. by apply Hzero; [|lia]. }
  cbn [mbind option_bind]. rewrite !Hch by lia. cbn [mbind option_bind]. unfold in_chunk.
  destruct (two_syms_D (k + 2) p symbolSize ch lost m0 ltac:(lia) ltac:(lia) ltac:(rewrite <- Hcs; exact Hap) m1 g Dc R s
    _ _ (k + 1) didx Hm1) as (m2 & E2 & H2'); [lia|done|done|lia|lia|lia|lia|left; lia|].
  unfold sym in E2. rewrite E2. cbn [mbind option_bind].
  destruct (two_syms_R (k + 2) p symbolSize ch lost m0 ltac:(lia) ltac:(lia) ltac:(rewrite <- Hcs; exact Hap) m2 g Dc R s
    _ _ Dc H2') as (m3 & E3 & H3'); [lia|done|done|lia|lia|done|].
  unfold sym in E3. rewrite E3. cbn [mbind option_bind].
  assert (Hdg : ∀ t, 0 ≤ t < symbolSize → g (k + 1) (didx * symbolSize + t) = diag_parity D (didx * symbolSize + t)).
  { intros t Ht. destruct Hg as [Hg1 _]. rewrite Hg1; [unfold cw; by rewrite rdp_codeword_diag|lia| |].
    - intros Hl%lost_range. lia.
    - pose proof (symbol_fits didx Hdi). lia. }
  exists m3, (two_syms symbolSize g Dc R s (λ t, column D Dc (s * symbolSize + t)) (λ t, column D R (s * symbolSize + t))).
  split; [done|]. split.
  - eapply holds_ext; [|exact H3']. intros c i _ _. apply upd_sym_cong.
    + intros t Ht. cbv beta. rewrite Hdg by done. by apply d_final.
    + intros _. apply upd_sym_cong; [|done]. intros t Ht. cbv beta. rewrite decide_True by done.
      rewrite Hdg, d_final by done. by apply r_final.
  - destruct Hg as [Hg1 Hg2]. split.
    + intros c i Hc Hl Hi. unfold two_syms, upd_sym. rewrite !decide_False; [by apply Hg1|intros [-> _]; done..].
    + intros c s' t Hl Hs' Ht.
      assert (Hcol : cw c (s' * symbolSize + t) = column D c (s' * symbolSize + t)).
      { unfold cw. apply lost_range in Hl. by rewrite rdp_codeword_column by lia. }
      destruct (decide (s' = s)) as [->|Hne].
      * split; [|tauto]. intros _. rewrite Hcol. unfold two_syms.
        destruct (decide (c = Dc)) as [->|HcD]; [by rewrite upd_sym_eq|].
        rewrite upd_sym_ne by (done || by left). rewrite (lost_other c) by done. by rewrite upd_sym_eq.
      * unfold two_syms. rewrite !upd_sym_ne by (done || by right).
        destruct (Hg2 c s' t Hl Hs' Ht). split; [intros [?|?]; [auto|done]|auto].
Qed.
End round.

(** *** The order of repairs

    With [e = R - D], round [x] of a phase repairs row [x * e - 1] (modulo
    [p]).  The first phase runs until the next diagonal would be the missing
    one; the second runs the other way from the same start.  The rows repaired
    after [u] rounds of the first and [v] of the second are those of the window
    [-v .. u]. *)
Definition phase (R Dc x : Z) : repair_state :=
  RState R Dc ((x * (R - Dc) - 1 + Dc) mod p) ((x * (R - Dc) - 1) mod p).

Lemma phase_start R Dc : 1 ≤ R ≤ k → 0 ≤ Dc ≤ k →
  RState R Dc (u32 (R - 1)) (u32 (u32 (R - 1) + p - Dc) mod p) = phase R Dc 1.
Proof.
  intros HR HD. destruct rdp_bounds as (? & ? & ? & ? & Hcs & ? & ? & H32 & ? & ?). unfold phase.
  rewrite (u32_small (R - 1)), u32_small by lia. f_equal.
  - rewrite Z.mod_small by lia. lia.
  - replace (R - 1 + p - Dc) with (1 * (R - Dc) - 1 + 1 * p) by lia. by rewrite Z.mod_add by lia.
Qed.

Lemma phase_next R Dc x : 0 ≤ R ≤ k → 0 ≤ Dc ≤ k →
  repair_next p (phase R Dc x) =
    if decide (((x + 1) * (R - Dc) - 1 + Dc) mod p = p - 1)
    then RState Dc R (u32 (Dc - 1)) (u32 (u32 (Dc - 1) + p - R) mod p)
    else phase R Dc (x + 1).
Proof.
  intros HR HD. destruct rdp_bounds as (? & ? & ? & ? & Hcs & ? & ? & H32 & ? & ?).
  unfold repair_next, phase. cbn [rs_R rs_D rs_didx rs_sidx].
  pose proof (Z.mod_pos_bound (x * (R - Dc) - 1) p ltac:(lia)).
  rewrite (u32_small (R + _)) by lia. rewrite Zplus_mod_idemp_r.
  replace (R + (x * (R - Dc) - 1)) with ((x + 1) * (R - Dc) - 1 + Dc) by ring.
  pose proof (Z.mod_pos_bound ((x + 1) * (R - Dc) - 1 + Dc) p ltac:(lia)).
  case_decide; [done|]. rewrite u32_small by lia. f_equal.
  replace (((x + 1) * (R - Dc) - 1 + Dc) mod p + p - Dc) with (((x + 1) * (R - Dc) - 1 + Dc) mod p + (p - Dc)) by lia.
  rewrite Zplus_mod_idemp_l. replace ((x + 1) * (R - Dc) - 1 + Dc + (p - Dc)) with ((x + 1) * (R - Dc) - 1 + 1 * p) by ring.
  by rewrite Z.mod_add by lia.
Qed.

Lemma repaired_iff rows rows' g : (∀ s, rows s ↔ rows' s) → repaired rows g → repaired rows' g.
Proof.
  intros Hiff [H1 H2]. split; [done|]. intros c s t Hl Hs Ht. destruct (H2 c s t Hl Hs Ht). rewrite <- Hiff. done.
Qed.

(** One round of a phase. *)
Lemma phase_round R Dc u v g m :
  lost R → lost Dc → R ≠ Dc → 0 ≤ u → 0 ≤ v → u + v < p - 1 →
  ((u + 1) * (R - Dc) - 1 + Dc) mod p ≠ p - 1 →
  hold m g → repaired (window p (R - Dc) u v) g →
  ∃ m' g', repair_round k p symbolSize chunks (phase R Dc (u + 1), m) = Some (repair_next p (phase R Dc (u + 1)), m') ∧
    hold m' g' ∧ repaired (window p (R - Dc) (u + 1) v) g'.
Proof.
  intros HR HD HRD Hu Hv Huv Hne Hm Hg. destruct rdp_bounds as (? & ? & ? & ? & Hcs & ? & ? & H32 & ? & ?).
  pose proof (lost_range R HR) as HRr. pose proof (lost_range Dc HD) as HDr.
  assert (Hd : (R - Dc) mod p ≠ 0).
  { intros Hz. apply Z.mod_divide in Hz as [z Hz]; [|lia]. assert (z = 0) by (apply (small_mult p); lia). lia. }
  set (d := R - Dc) in *. set (s := ((u + 1) * d - 1) mod p).
  pose proof (Z.mod_pos_bound ((u + 1) * d - 1) p ltac:(lia)) as Hs. fold s in Hs.
  pose proof (Z.mod_pos_bound ((u + 1) * d - 1 + Dc) p ltac:(lia)) as Hdi.
  assert (Hfresh : ∀ x, - v ≤ x ≤ u → (x * d - 1) mod p ≠ s).
  { intros x Hx Heq. apply (window_inj p (po_p _ _ _ _ Hok) d) in Heq; [lia|done|lia]. }
  assert (Hlast : (0 * d - 1) mod p = p - 1).
  { replace (0 * d - 1) with (p - 1 + (-1) * p) by ring. rewrite Z.mod_add by lia. by apply Z.mod_small; lia. }
  assert (Hsp : s ≠ p - 1) by (rewrite <- Hlast; intros Heq; apply (Hfresh 0); [lia|done]).
  destruct (repair_round_holds (window p d u v) g R Dc (((u + 1) * d - 1 + Dc) mod p) s Hg HR HD HRD) with (m := m)
    as (m' & g' & E & Hm' & Hg'); [lia| |lia| | |done|].
  - intros (x & Hx & Heq). by apply (Hfresh x).
  - rewrite Zminus_mod_idemp_l. unfold s. f_equal. ring.
  - right. exists u. split; [lia|]. rewrite Zminus_mod_idemp_l. f_equal. unfold d. ring.
  - exists m', g'. split; [exact E|]. split; [done|]. eapply repaired_iff; [|exact Hg'].
    intros x. symmetry. apply window_grow. lia.
Qed.

(** The invariant of the [p - 1] rounds. *)
Definition round_inv (R0 D0 n : Z) (st : repair_state * mem) : Prop :=
  ∃ u v g, 0 ≤ u ∧ 0 ≤ v ∧ u + v = n ∧ hold st.2 g ∧ repaired (window p (R0 - D0) u v) g ∧
    (n < p - 1 →
      v = 0 ∧ st.1 = phase R0 D0 (u + 1) ∧ ((u + 1) * (R0 - D0) - 1 + D0) mod p ≠ p - 1 ∨
      st.1 = phase D0 R0 (v + 1) ∧ ((u + 1) * (R0 - D0) - 1 + D0) mod p = p - 1).

(** The diagonal of round [v + 1] of the second phase is not the missing one. *)
Lemma second_phase_diag R0 D0 u v :
  lost R0 → lost D0 → R0 ≠ D0 → 0 ≤ u → 0 ≤ v → u + v + 1 < p →
  ((u + 1) * (R0 - D0) - 1 + D0) mod p = p - 1 →
  ((v + 1) * (D0 - R0) - 1 + R0) mod p ≠ p - 1.
Proof.
  intros HR HD HRD Hu Hv Huv H1 H2. pose proof (lost_range R0 HR). pose proof (lost_range D0 HD).
  destruct rdp_bounds as (? & ? & ? & _).
  rewrite <- H1 in H2. apply mod_shift_eq in H2 as [z Hz]; [|lia].
  assert (Hd : (R0 - D0) mod p ≠ 0).
  { intros Hz0. apply Z.mod_divide in Hz0 as [w Hw]; [|lia]. assert (w = 0) by (apply (small_mult p); lia). lia. }
  assert (Hk0 : ((u + v + 1) * (R0 - D0)) mod p = 0).
  { replace ((u + v + 1) * (R0 - D0)) with ((- z) * p); [apply Z.mod_mul; lia|]. lia. }
  apply (mod_mul_zero p (po_p _ _ _ _ Hok)) in Hk0; [|done]. rewrite Z.mod_small in Hk0 by lia. lia.
Qed.

Lemma round_inv_step R0 D0 n st :
  lost R0 → lost D0 → R0 ≠ D0 → 0 ≤ n < p - 1 → round_inv R0 D0 n st →
  ∃ st', repair_round k p symbolSize chunks st = Some st' ∧ round_inv R0 D0 (n + 1) st'.
Proof.
  intros HR HD HRD Hn (u & v & g & Hu & Hv & Huv & Hm & Hg & Hst). destruct st as [rs m]; cbn [fst snd] in *.
  pose proof (lost_range R0 HR). pose proof (lost_range D0 HD).
  destruct (Hst ltac:(lia)) as [(-> & -> & Hne)|(-> & He)].
  - destruct (phase_round R0 D0 u 0 g m) as (m' & g' & E & Hm' & Hg'); [done..|lia|lia|done|done|done|].
    exists (repair_next p (phase R0 D0 (u + 1)), m'). split; [done|].
    exists (u + 1), 0, g'. split_and!; [lia|lia|lia|done|done|]. intros Hn1. cbn [fst].
    rewrite phase_next by lia. case_decide as Hdi; [right|left; done].
    split; [|done]. apply phase_start; [|lia]. split; [|lia].
    destruct (decide (D0 = 0)) as [->|]; [exfalso|lia].
    destruct rdp_bounds as (? & ? & ? & _). rewrite Z.add_0_r in Hdi.
    assert (Hk0 : ((u + 1 + 1) * (R0 - 0)) mod p = 0).
    { replace ((u + 1 + 1) * (R0 - 0)) with ((u + 1 + 1) * (R0 - 0) - 1 + 1) by ring.
      rewrite <- Zplus_mod_idemp_l, Hdi. replace (p - 1 + 1) with (1 * p) by ring. apply Z.mod_mul. lia. }
    apply (mod_mul_zero p (po_p _ _ _ _ Hok)) in Hk0; [rewrite Z.mod_small in Hk0 by lia; lia|rewrite Z.mod_small by lia; lia].
  - pose proof (second_phase_diag R0 D0 u v HR HD HRD Hu Hv ltac:(lia) He) as Hne.
    destruct (phase_round D0 R0 v u g m) as (m' & g' & E & Hm' & Hg'); [done..|lia|done|done| |].
    { eapply repaired_iff; [|exact Hg]. intros s. rewrite window_opp. by replace (- (R0 - D0)) with (D0 - R0) by ring. }
    exists (repair_next p (phase D0 R0 (v + 1)), m'). split; [done|].
    exists u, (v + 1), g'. split_and!; [lia|lia|lia|done| |].
    { eapply repaired_iff; [|exact Hg']. intros s. rewrite window_opp. by replace (- (D0 - R0)) with (R0 - D0) by ring. }
    intros Hn1. right. split; [|done]. cbn [fst]. rewrite phase_next by lia. rewrite decide_False; [done|].
    apply (second_phase_diag R0 D0 u (v + 1)); [done..|lia|lia|done].
Qed.

(** After [p - 1] rounds every row is repaired. *)
Lemma rounds_repair_all R0 D0 g :
  lost R0 → lost D0 → R0 ≠ D0 → (∃ u v, 0 ≤ u ∧ 0 ≤ v ∧ u + v = p - 1 ∧ repaired (window p (R0 - D0) u v) g) →
  ∀ c i, 0 ≤ c < k + 2 → 0 ≤ i < chunkSize → g c i = cw c i.
Proof.
  intros HR HD HRD (u & v & Hu & Hv & Huv & [H1 H2]) c i Hc Hi.
  destruct rdp_bounds as (? & ? & ? & ? & Hcs & _). pose proof (lost_range R0 HR). pose proof (lost_range D0 HD).
  destruct (decide (c = a ∨ c = b)) as [Hl|Hl]; [|by apply H1].
  assert (Hd : (R0 - D0) mod p ≠ 0).
  { intros Hz0. apply Z.mod_divide in Hz0 as [w Hw]; [|lia]. assert (w = 0) by (apply (small_mult p); lia). lia. }
  assert (Hs : 0 ≤ i / symbolSize < p - 1).
  { split; [apply Z.div_pos; lia|]. apply Z.div_lt_upper_bound; [lia|]. rewrite Z.mul_comm. lia. }
  pose proof (Z.mod_pos_bound i symbolSize ltac:(lia)) as Ht.
  destruct (H2 c (i / symbolSize) (i mod symbolSize) Hl Hs Ht) as [Hrow _].
  replace i with (i / symbolSize * symbolSize + i mod symbolSize) by (rewrite (Z.div_mod i symbolSize) at 3 by lia; lia).
  apply Hrow. destruct (window_cover p (po_p _ _ _ _ Hok) (R0 - D0) v u (i / symbolSize)) as (x & Hx & <-); [done|lia|lia|].
  by exists x.
Qed.

Lemma rounds_ok :
  (∀ c i, 0 ≤ c < k + 2 → 0 ≤ i < chunkSize → mget m0 (getData (ch c) +ₚ i) = Some (if decide (c = a ∨ c = b) then x00 else cw c i)) →
  ∃ st', for_range 0 (p - 1) (λ _, repair_round k p symbolSize chunks) (repair_init p a b, m0) = Some st' ∧ hold st'.2 cw.
Proof.
  intros Hm0. destruct rdp_bounds as (? & ? & ? & ? & Hcs & ? & ? & H32 & ? & ?).
  set (R0 := if decide (a = 0) then b else a). set (D0 := if decide (a = 0) then a else b).
  assert (HR : lost R0) by (unfold R0; case_decide; [by right|by left]).
  assert (HD : lost D0) by (unfold D0; case_decide; [by left|by right]).
  assert (HRD : R0 ≠ D0 ∧ 1 ≤ R0 ≤ k ∧ 0 ≤ D0 ≤ k) by (unfold R0, D0; case_decide; lia).
  assert (Hini : repair_init p a b = phase R0 D0 1).
  { rewrite <- phase_start by lia. unfold repair_init, R0, D0. by case_decide. }
  destruct (for_range_inv (round_inv R0 D0) 0 (p - 1) (λ _, repair_round k p symbolSize chunks) (repair_init p a b, m0))
    as (st' & E & u & v & g & Hu & Hv & Huv & Hm & Hg & _); [lia| | |].
  { intros n st Hn Hst. apply round_inv_step; [done|done|tauto|lia|done]. }
  { exists 0, 0, (λ c i, if decide (c = a ∨ c = b) then x00 else cw c i). cbn [fst snd]. split_and!; [lia|lia|lia| | |].
    - split; [done|]. split; [|done]. intros c Hc i Hi. rewrite Hm0 by lia. done.
    - split.
      + intros c i Hc Hl Hi. by rewrite decide_False.
      + intros c s t Hl Hs Ht. rewrite decide_True by done. split; [|done]. intros (x & Hx & ->). exfalso.
        assert (x = 0) by lia. subst x. replace (0 * (R0 - D0) - 1) with (p - 1 + (-1) * p) in Hs by ring.
        rewrite Z.mod_add, Z.mod_small in Hs by lia. lia.
    - intros Hp1. left. split; [done|]. split; [by rewrite Hini|].
      replace ((0 + 1) * (R0 - D0) - 1 + D0) with (R0 - 1) by ring. rewrite Z.mod_small by lia. lia. }
  exists st'. split; [done|]. eapply holds_ext; [|exact Hm]. intros c i Hc Hi.
  apply (rounds_repair_all R0 D0 g); [done|done|tauto| |done|lia]. by exists u, v.
Qed.
End double.

(** Two lost chunks among the data and the row parity. *)
Lemma decode_double_ok m chunks a b D :
  0 ≤ a < b → b ≤ k →
  let lost := λ c, c = a ∨ c = b in
  stripe_is chunkSize m chunks (k + 2) (λ c, if decide (c = a ∨ c = b) then λ _, x00 else rdp_codeword D c) →
  (∀ q c, zget chunks c = Some q → valid m q (CHUNK_IDENTIFIER_SIZE + chunkSize)) →
  lost_apart chunkSize chunks lost →
  ∃ m', decode_double k p chunkSize symbolSize m chunks a b = Some m' ∧ same_shape m m' ∧
    stripe_is chunkSize m' chunks (k + 2) (rdp_codeword D) ∧
    ∀ q, (∀ c r, lost c → zget chunks c = Some r → ¬ in_range r (CHUNK_IDENTIFIER_SIZE + chunkSize) q) → mget m' q = mget m q.
Proof.
  intros Hab Hbk lost Hst Hv Hap. destruct rdp_bounds as (? & ? & ? & ? & Hcs & ? & ? & H32 & ? & ?).
  set (ch := λ c, default (Ptr 0 0) (zget chunks c)).
  assert (Hch : ∀ c, 0 ≤ c < k + 2 → zget chunks c = Some (ch c)).
  { intros c Hc. unfold ch. by destruct (Hst c Hc) as (q & -> & _). }
  assert (Hwhole : ∀ i j, 0 ≤ i < k + 2 → 0 ≤ j < k + 2 → i ≠ j → lost i →
    apart (ch i) (CHUNK_IDENTIFIER_SIZE + chunkSize) (ch j) (CHUNK_IDENTIFIER_SIZE + chunkSize)).
  { intros i j Hi Hj Hij Hl. eapply Hap; eauto. }
  assert (Hdata : ∀ i j, 0 ≤ i < k + 2 → 0 ≤ j < k + 2 → i ≠ j → lost i → apart (getData (ch i)) chunkSize (getData (ch j)) chunkSize).
  { intros i j Hi Hj Hij Hl. specialize (Hwhole i j Hi Hj Hij Hl). unfold apart, getData, CHUNK_IDENTIFIER_SIZE in *. simpl in *. lia. }
  unfold decode_double. rewrite (Hch a), (Hch b) by lia. cbn [mbind option_bind].
  destruct (chunk_clear_spec chunkSize m (ch a)) as (m1 & -> & S1 & Z1 & F1); [lia|apply (Hv _ a); apply Hch; lia|].
  cbn [mbind option_bind].
  destruct (chunk_clear_spec chunkSize m1 (ch b)) as (m2 & -> & S2 & Z2 & F2); [lia|rewrite <- S1; apply (Hv _ b); apply Hch; lia|].
  cbn [mbind option_bind].
  assert (Hm2 : ∀ c i, 0 ≤ c < k + 2 → 0 ≤ i < chunkSize →
    mget m2 (getData (ch c) +ₚ i) = Some (if decide (c = a ∨ c = b) then x00 else rdp_codeword D c i)).
  { intros c i Hc Hi. destruct (decide (c = b)) as [->|Hcb].
    { rewrite decide_True by (by right). by apply Z2. }
    pose proof (Hwhole b c ltac:(lia) Hc (not_eq_sym Hcb) ltac:(by right)) as Hapb.
    rewrite F2 by (unfold apart, in_range, getData, CHUNK_IDENTIFIER_SIZE in *; simpl in *; lia).
    destruct (decide (c = a)) as [->|Hca].
    { rewrite decide_True by (by left). by apply Z1. }
    pose proof (Hwhole a c ltac:(lia) Hc (not_eq_sym Hca) ltac:(by left)) as Hapa.
    rewrite F1 by (unfold apart, in_range, getData, CHUNK_IDENTIFIER_SIZE in *; simpl in *; lia).
    rewrite decide_False by tauto. destruct (Hst c Hc) as (q & Hq & Hr). rewrite Hch in Hq by done. simplify_eq.
    rewrite decide_False in Hr by tauto. by apply Hr. }
  destruct (rounds_ok chunks ch a b D m2 ltac:(lia) Hch Hdata Hm2) as ([rs m'] & -> & S3 & H3' & F3). cbn [fmap option_fmap option_map snd].
  exists m'. split; [done|]. split; [by etrans; [etrans|]|]. split.
  - intros c Hc. exists (ch c). split; [by apply Hch|]. unfold chunk_is in *. rewrite <- Hcs in H3'. by apply H3'.
  - intros q Hq. cbn [snd] in *. rewrite F3.
    2:{ intros c Hc Hl Hin. apply (Hq c (ch c) Hl (Hch c Hc)). unfold in_range, getData, CHUNK_IDENTIFIER_SIZE in *. simpl in *. lia. }
    rewrite F2 by (apply (Hq b); [by right|apply Hch; lia]). apply F1, (Hq a); [by left|apply Hch; lia].
Qed.

(** One lost chunk of the rows. *)
Lemma performXOR_ok m chunks f D :
  0 ≤ f ≤ k →
  (∀ c, 0 ≤ c < k + 1 → ∃ q, zget chunks c = Some q ∧ chunk_is chunkSize m q (if decide (c = f) then λ _, x00 else column D c) ∧
     (c ≠ f → ∀ r, zget chunks f = Some r → apart (getData r) chunkSize (getData q) chunkSize)) →
  ∃ r m', zget chunks f = Some r ∧ performXOR k chunkSize m chunks f = Some m' ∧ same_shape m m' ∧
    chunk_is chunkSize m' r (column D f) ∧ ∀ q, ¬ in_range (getData r) chunkSize q → mget m' q = mget m q.
Proof.
  intros Hf Hc. destruct rdp_bounds as (? & ? & ? & ? & Hcs & Hcs0 & ? & H32 & ? & ?).
  destruct (Hc f ltac:(lia)) as (r & Hr & Hz & _). rewrite decide_True in Hz by done.
  unfold performXOR. rewrite decide_False by lia. rewrite Hr. cbn [mbind option_bind].
  destruct (row_repair chunkSize m chunks (k + 1) f r (column D) (performXOR_step chunkSize chunks f r)) as (m' & E & S & C & F);
    [done|lia|done|done| |intros; apply column_sum| | |].
  - intros i Hi Hif. destruct (Hc i Hi) as (q & Hq & Hqc & Hap). rewrite decide_False in Hqc by done. exists q. eauto.
  - intros m1. unfold performXOR_step. by rewrite decide_True.
  - intros i c m1 Hi Hif Hcc. right. unfold performXOR_step. rewrite decide_False by done. by rewrite Hcc.
  - by exists r, m'.
Qed.

Lemma rdp_decode_ok m chunks bitmap status D :
  let lost := λ i, 0 ≤ i < k + 2 ∧ status i = false in
  (∀ i, 0 ≤ i < k + 2 → check1 bitmap i = Some (status i)) →
  0 < n_lost (k + 2) status ≤ 2 →
  stripe_is chunkSize m chunks (k + 2) (λ i, if status i then rdp_codeword D i else λ _, x00) →
  (∀ q c, zget chunks c = Some q → valid m q (CHUNK_IDENTIFIER_SIZE + chunkSize)) →
  lost_apart chunkSize chunks lost →
  ∃ m', decode k p chunkSize symbolSize junk m chunks bitmap = Some (true, m') ∧ same_shape m m' ∧
    stripe_is chunkSize m' chunks (k + 2) (rdp_codeword D) ∧
    ∀ q, (∀ c r, lost c → zget chunks c = Some r → ¬ in_range r (CHUNK_IDENTIFIER_SIZE + chunkSize) q) → mget m' q = mget m q.
Proof.
  intros lost Hbm Hn Hst Hv Hap. destruct rdp_bounds as (? & ? & ? & ? & Hcs & Hcs0 & ? & H32 & ? & ?).
  unfold decode. rewrite (collect_failed_spec _ status) by (intros; (apply Hbm; lia) || done). simpl app.
  rewrite Z2Nat.id by lia. fold (n_lost (k + 2) status).
  assert (Hdap : ∀ i j q r, i ≠ j → lost i → zget chunks i = Some q → zget chunks j = Some r →
    apart (getData q) chunkSize (getData r) chunkSize).
  { intros i j q r Hij Hl Hq Hr. pose proof (Hap i j q r Hij Hl Hq Hr) as Ha.
    unfold apart, getData, CHUNK_IDENTIFIER_SIZE in *. simpl in *. lia. }
  assert (Hsub : ∀ r q, ¬ in_range r (CHUNK_IDENTIFIER_SIZE + chunkSize) q → ¬ in_range (getData r) chunkSize q).
  { intros r q Hq Hin. apply Hq. unfold in_range, getData, CHUNK_IDENTIFIER_SIZE in *. simpl in *. lia. }
  assert (Hparap : lost (k + 1) → ∀ pc c q, zget chunks (k + 1) = Some pc → 0 ≤ c < k → zget chunks c = Some q →
    apart (getData pc) chunkSize (getData q) chunkSize).
  { intros Hl pc c q Hpc Hc Hq. by apply (Hdap (k + 1) c); [lia|..]. }
  (* re-encoding the diagonal parity *)
  assert (Hdiag : ∀ m1 pc, zget chunks (k + 1) = Some pc → lost (k + 1) → same_shape m m1 → chunk_is chunkSize m1 pc (λ _, x00) →
    stripe_is chunkSize m1 chunks (k + 1) (column D) →
    ∃ m', encode k p chunkSize symbolSize junk m1 chunks pc 2 0 0 = Some m' ∧ same_shape m m' ∧
      stripe_is chunkSize m' chunks (k + 2) (rdp_codeword D) ∧
      ∀ q, ¬ in_range (getData pc) chunkSize q → mget m' q = mget m1 q).
  { intros m1 pc Hpc Hl S1 Z1 Hcol.
    destruct (rdp_encode_ok m1 chunks pc 2 0 0 D) as (m' & E & S2 & P2 & F2); [lia| |done|by eauto|by left|].
    { intros c Hc. destruct (Hcol c ltac:(lia)) as (q & Hq & Hr). exists q. split; [done|].
      eapply region_is_ext; [|exact Hr]. intros i Hi. unfold column. by rewrite decide_True by lia. }
    exists m'. split; [done|]. split; [by etrans|]. split; [|done]. intros c Hc. destruct (decide (c = k + 1)) as [->|Hck].
    - exists pc. split; [done|]. rewrite rdp_codeword_diag. exact P2.
    - destruct (Hcol c ltac:(lia)) as (q & Hq & Hr). exists q. split; [done|]. rewrite rdp_codeword_column by lia.
      eapply region_is_frame; [exact Hr|by apply (Hdap (k + 1) c)|lia|lia|done]. }
  (* the row repair *)
  assert (Hrow : ∀ f, 0 ≤ f ≤ k → lost f → (∀ i, 0 ≤ i < k + 1 → i ≠ f → status i = true) →
    ∃ r m', zget chunks f = Some r ∧ performXOR k chunkSize m chunks f = Some m' ∧ same_shape m m' ∧
      stripe_is chunkSize m' chunks (k + 1) (column D) ∧ ∀ q, ¬ in_range (getData r) chunkSize q → mget m' q = mget m q).
  { intros f Hf Hl Hoth. destruct (performXOR_ok m chunks f D Hf) as (r & m' & Hr & E & S & P & F).
    { intros c Hc. destruct (Hst c ltac:(lia)) as (q & Hq & Hqc). exists q. split; [done|]. split.
      - destruct (decide (c = f)) as [->|Hcf]; [by rewrite (proj2 Hl) in Hqc|].
        rewrite Hoth in Hqc by done. by rewrite rdp_codeword_column in Hqc by lia.
      - intros Hcf r Hr. by apply (Hdap f c). }
    exists r, m'. split_and!; [done..| |done]. intros c Hc. destruct (decide (c = f)) as [->|Hcf]; [by exists r|].
    destruct (Hst c ltac:(lia)) as (q & Hq & Hqc). exists q. split; [done|]. rewrite Hoth in Hqc by done.
    rewrite rdp_codeword_column in Hqc by lia. eapply region_is_frame; [exact Hqc|by apply (Hdap f c)|lia|lia|done]. }
  assert (Hextend : ∀ m1, status (k + 1) = true → (∀ pc, zget chunks (k + 1) = Some pc → chunk_is chunkSize m1 pc (rdp_codeword D (k + 1))) →
    stripe_is chunkSize m1 chunks (k + 1) (column D) → stripe_is chunkSize m1 chunks (k + 2) (rdp_codeword D)).
  { intros m1 Hs Hpc Hcol c Hc. destruct (decide (c = k + 1)) as [->|].
    - destruct (Hst (k + 1) ltac:(lia)) as (q & Hq & _). exists q. auto.
    - destruct (Hcol c ltac:(lia)) as (q & Hq & Hr). exists q. split; [done|]. by rewrite rdp_codeword_column by lia. }
  destruct (decide (n_lost (k + 2) status = 1)) as [Hn1|Hn2].
  - destruct (lost_one _ _ Hn1) as (a & Hf & Ha & Hall). rewrite decide_True by lia. rewrite Hf. cbn [mbind option_bind].
    assert (Hla : lost a) by (split; [done|]; rewrite Hall by done; by rewrite bool_decide_eq_true_2).
    assert (Hoth : ∀ i, 0 ≤ i < k + 2 → i ≠ a → status i = true) by (intros; rewrite Hall by done; by rewrite bool_decide_eq_false_2).
    case_decide as Hak.
    + subst a. destruct (Hst (k + 1) ltac:(lia)) as (pc & Hpc & Hz). rewrite (proj2 Hla) in Hz. rewrite Hpc. cbn [mbind option_bind].
      destruct (Hdiag m pc Hpc Hla) as (m' & -> & S' & C' & F'); [done|done| |].
      { intros c Hc. destruct (Hst c ltac:(lia)) as (q & Hq & Hr). exists q. split; [done|].
        rewrite Hoth in Hr by lia. by rewrite rdp_codeword_column in Hr by lia. }
      exists m'. split_and!; [done..|]. intros q Hq. apply F'. by apply Hsub, (Hq (k + 1)).
    + destruct (Hrow a) as (r & m' & Hr & -> & S' & C' & F'); [lia|done|intros; apply Hoth; lia|].
      exists m'. cbn [mbind option_bind]. split_and!; [done..| |].
      * apply Hextend; [apply Hoth; lia| |done]. intros pc Hpc. destruct (Hst (k + 1) ltac:(lia)) as (q & Hq & Hqc). simplify_eq.
        rewrite Hoth in Hqc by lia. eapply region_is_frame; [exact Hqc|by apply (Hdap a (k + 1)); [lia|..]|lia|lia|done].
      * intros q Hq. apply F'. by apply Hsub, (Hq a).
  - destruct (lost_two (k + 2) status) as (a & b & Hf & Hab & Hb & Hall); [lia|lia|]. rewrite decide_True by lia. rewrite Hf. cbn [mbind option_bind].
    assert (Hla : lost a) by (split; [lia|]; rewrite Hall by lia; by rewrite bool_decide_eq_true_2 by (by left)).
    assert (Hlb : lost b) by (split; [lia|]; rewrite Hall by lia; by rewrite bool_decide_eq_true_2 by (by right)).
    assert (Hoth : ∀ i, 0 ≤ i < k + 2 → i ≠ a → i ≠ b → status i = true) by (intros; rewrite Hall by done; by rewrite bool_decide_eq_false_2 by tauto).
    case_decide as Hbk.
    + subst b. destruct (Hrow a) as (r & m1 & Hr & -> & S1 & C1 & F1); [lia|done|intros; apply Hoth; lia|].
      cbn [mbind option_bind]. destruct (Hst (k + 1) ltac:(lia)) as (pc & Hpc & Hz). rewrite (proj2 Hlb) in Hz. rewrite Hpc. cbn [mbind option_bind].
      destruct (Hdiag m1 pc Hpc Hlb) as (m' & -> & S' & C' & F'); [done| |done|].
      { eapply region_is_frame; [exact Hz|by apply (Hdap a (k + 1)); [lia|..]|lia|lia|done]. }
      exists m'. split_and!; [done..|]. intros q Hq. rewrite F' by (by apply Hsub, (Hq (k + 1))). apply F1. by apply Hsub, (Hq a).
    + destruct (decode_double_ok m chunks a b D) as (m' & -> & S' & C' & F'); [lia|lia| |done| |].
      { intros c Hc. destruct (Hst c Hc) as (q & Hq & Hr). exists q. split; [done|]. rewrite Hall in Hr by done.
        destruct (decide (c = a ∨ c = b)) as [Hcc|Hcc];
          [rewrite bool_decide_eq_true_2 in Hr by done; exact Hr|rewrite bool_decide_eq_false_2 in Hr by done; exact Hr]. }
      { intros i j q r Hij Hl Hq Hr. apply (Hap i j); [done| |done|done]. by destruct Hl as [-> | ->]. }
      exists m'. cbn [mbind option_bind]. split_and!; [done..|]. intros q Hq. apply F'.
      intros c r [-> | ->] Hr; [by apply (Hq a)|by apply (Hq b)].
Qed.
End correct.

(** ** The constructor *)

Definition primeb (p : Z) : bool := bool_decide (1 < p) && forallb (λ d, negb (p mod d =? 0)) (seqZ 2 (p - 2)).

Lemma primeb_spec p : primeb p = true → Z.prime p.
Proof.
  unfold primeb. rewrite andb_true_iff, bool_decide_eq_true, forallb_forall. intros [Hp H]. split; [done|].
  intros n Hn Hdiv. specialize (H n). rewrite negb_true_iff, Z.eqb_neq in H. apply H.
  - apply list_elem_of_In, elem_of_seqZ. lia.
  - by apply Z.mod_divide; [lia|].
Qed.

(** The listed numbers are primes, in increasing order. *)
Lemma primeList_prime i q : zget primeList i = Some q → Z.prime q.
Proof.
  intros Hq. apply primeb_spec. assert (Hall : forallb primeb primeList = true) by (vm_compute; reflexivity).
  rewrite forallb_forall in Hall. apply Hall, list_elem_of_In. unfold zget in Hq. case_decide; [|done].
  by eapply list_elem_of_lookup_2.
Qed.

Fixpoint increasing (l : list Z) : bool :=
  match l with x :: (y :: _) as l' => bool_decide (x < y) && increasing l' | _ => true end.

Lemma increasing_lookup l (i j : nat) x y : increasing l = true → (i ≤ j)%nat → l !! i = Some x → l !! j = Some y → x ≤ y.
Proof.
  revert i j x. induction l as [|z l IH]; intros i j x Hinc Hij Hx Hy; [done|].
  assert (Hl : increasing l = true).
  { destruct l; [done|]. simpl in Hinc. by apply andb_true_iff in Hinc as [_ ?]. }
  destruct i as [|i], j as [|j]; simpl in *; simplify_eq; try lia.
  - destruct l as [|w l]; [done|]. apply andb_true_iff in Hinc as [Hxw%bool_decide_eq_true _].
    assert (w ≤ y) by (apply (IH 0%nat j w); [done|lia|done|done]). lia.
  - apply (IH i j); [done|lia|done|done].
Qed.

Lemma primeList_mono i j x y : i ≤ j → zget primeList i = Some x → zget primeList j = Some y → x ≤ y.
Proof.
  intros Hij Hx Hy. unfold zget in *. do 2 case_decide; try done.
  apply (increasing_lookup primeList (Z.to_nat i) (Z.to_nat j)); [vm_compute; reflexivity|lia|done|done].
Qed.

(** [getPrime] ends, and finds the first listed prime greater than [k]. *)
Lemma getPrime_spec k : 1 ≤ k ≤ 996 →
  ∃ i q, getPrime k = Some i ∧ zget primeList i = Some q ∧ k + 1 ≤ q ∧
    ∀ j x, 0 ≤ j < i → zget primeList j = Some x → x < k + 1.
Proof.
  intros Hk.
  set (chk := λ k, match getPrime k with
    | Some i => match zget primeList i with
                | Some q => bool_decide (k + 1 ≤ q) &&
                    (if decide (i = 0) then true else
                       match zget primeList (i - 1) with Some x => bool_decide (x < k + 1) | None => false end)
                | None => false end
    | None => false end).
  assert (Hall : forallb chk (seqZ 1 996) = true) by (vm_compute; reflexivity).
  rewrite forallb_forall in Hall. specialize (Hall k). unfold chk in Hall.
  assert (Hin : k ∈ seqZ 1 996) by (apply elem_of_seqZ; lia). apply list_elem_of_In in Hin. specialize (Hall Hin).
  destruct (getPrime k) as [i|]; [|done]. destruct (zget primeList i) as [q|] eqn:Hq; [|done].
  apply andb_true_iff in Hall as [Hkq%bool_decide_eq_true Hprev].
  exists i, q. split; [done|]. split; [done|]. split; [done|]. intros j x Hj Hx.
  destruct (decide (i = 0)); [lia|]. destruct (zget primeList (i - 1)) as [y|] eqn:Hy; [|done].
  apply bool_decide_eq_true in Hprev. pose proof (primeList_mono j (i - 1) x y ltac:(lia) Hx Hy). lia.
Qed.

Lemma search_prime_spec chunkSize fuel pp :
  0 ≤ pp → primeCount - pp < Z.of_nat fuel →
  match search_prime chunkSize fuel pp with
  | Some r => pp ≤ r < primeCount ∧ (∃ q, zget primeList r = Some q ∧ chunkSize mod (q - 1) = 0) ∧
      ∀ j q, pp ≤ j < r → zget primeList j = Some q → chunkSize mod (q - 1) ≠ 0
  | None => ∀ j q, pp ≤ j → zget primeList j = Some q → chunkSize mod (q - 1) ≠ 0
  end.
Proof.
  assert (Hlen : zlen primeList = primeCount) by reflexivity.
  revert pp. induction fuel as [|fuel IH]; intros pp Hpp Hf; cbn [search_prime].
  { intros j q Hj Hq. apply zget_Some in Hq. lia. }
  destruct (zget primeList pp) as [q|] eqn:Hq; cbn [mbind option_bind].
  2:{ intros j q Hj Hq'. apply zget_Some in Hq'. destruct (zget_is_Some primeList pp) as [? ?]; [lia|]. congruence. }
  pose proof (zget_Some _ _ _ Hq) as Hr. case_decide as Hd.
  - specialize (IH (pp + 1) ltac:(lia) ltac:(lia)). destruct (search_prime chunkSize fuel (pp + 1)) as [r|].
    + destruct IH as (? & Hx & Hmin). split; [lia|]. split; [done|]. intros j q' Hj Hq'.
      destruct (decide (j = pp)) as [->|]; [simplify_eq; tauto|apply (Hmin j); [lia|done]].
    + intros j q' Hj Hq'. destruct (decide (j = pp)) as [->|]; [simplify_eq; tauto|apply (IH j); [lia|done]].
  - split; [lia|]. split; [|intros; lia]. exists q. split; [done|].
    destruct (decide (chunkSize mod (q - 1) = 0)); [done|]. exfalso. apply Hd. split; [done|lia].
Qed.

(** The constructor of RDP picks the least listed prime [p > k] for which
    the chunk is a whole number of [p - 1] symbols, and so establishes what
    encoding and decoding rely on; it fails (by [exit] or by reading past the
    list) only when no listed prime will do. *)
Theorem getSymbolSize_spec (k chunkSize : Z) :
  1 ≤ k ≤ 996 → 0 < chunkSize → (k + 2) * chunkSize < 2 ^ 32 →
  match getSymbolSize k chunkSize with
  | Some (p, ss) => params_ok k p chunkSize ss ∧
      ∀ q, q ∈ primeList → k + 1 ≤ q → q < p → chunkSize mod (q - 1) ≠ 0
  | None => ∀ q, q ∈ primeList → k + 1 ≤ q → chunkSize mod (q - 1) ≠ 0
  end.
Proof.
  intros Hk Hcs H32. destruct (getPrime_spec k Hk) as (i & q0 & Hi & Hq0 & Hkq & Hbelow).
  pose proof (zget_Some _ _ _ Hq0) as Hir. assert (Hlen : zlen primeList = primeCount) by reflexivity.
  unfold getSymbolSize, getSymbolSize_from. rewrite Hi. cbn [mbind option_bind].
  pose proof (search_prime_spec chunkSize 169 i ltac:(lia) ltac:(unfold primeCount; lia)) as Hsp.
  assert (Hidx : ∀ q, q ∈ primeList → k + 1 ≤ q → ∃ j, i ≤ j ∧ zget primeList j = Some q).
  { intros q Hq Hkq'. apply list_elem_of_lookup_1 in Hq as [j Hj].
    assert (Hzj : zget primeList (Z.of_nat j) = Some q) by (unfold zget; rewrite decide_True by lia; by rewrite Nat2Z.id).
    exists (Z.of_nat j). split; [|done]. destruct (decide (i ≤ Z.of_nat j)); [done|].
    pose proof (Hbelow (Z.of_nat j) q ltac:(lia) Hzj). lia. }
  destruct (search_prime chunkSize 169 i) as [r|]; cbn [mbind option_bind].
  - destruct Hsp as (Hr & (q & Hq & Hmod) & Hmin). rewrite decide_False by lia. rewrite Hq. cbn [mbind option_bind].
    pose proof (primeList_prime r q Hq) as Hprime. pose proof (Z.prime_ge_2 _ Hprime).
    pose proof (primeList_mono i r q0 q ltac:(lia) Hq0 Hq) as Hmono.
    assert (Hdm : chunkSize = (q - 1) * (chunkSize / (q - 1))) by (rewrite (Z.div_mod chunkSize (q - 1)) at 1 by lia; lia).
    split.
    + constructor; [lia|done|lia| |done|done]. destruct (decide (0 < chunkSize / (q - 1))); [done|nia].
    + intros x Hx Hkx Hxq. destruct (Hidx x Hx Hkx) as (j & Hj & Hzj). apply (Hmin j x); [|done].
      split; [done|]. destruct (decide (j < r)); [done|]. pose proof (primeList_mono r j q x ltac:(lia) Hq Hzj). lia.
  - intros x Hx Hkx. destruct (Hidx x Hx Hkx) as (j & Hj & Hzj). by apply (Hsp j).
Qed.

Lemma getSymbolSize_spec_witness :
  getSymbolSize 3 4096 = Some (5, 1024) ∧ params_ok 3 5 4096 1024.
Proof.
  assert (H : getSymbolSize 3 4096 = Some (5, 1024)) by (vm_compute; reflexivity).
  split; [exact H|]. pose proof (getSymbolSize_spec 3 4096 ltac:(lia) ltac:(lia) ltac:(lia)) as Hs.
  rewrite H in Hs. exact (proj1 Hs).
Defined.

(** ** The promise of ErasureCode *)
Section code.
Variables (k p chunkSize symbolSize : Z) (junk : nat → Z → byte).
Context (Hok : params_ok k p chunkSize symbolSize).

Lemma row_parity_linear D D' i :
  RAID5Coding.row_parity k (λ c i, bxor (D c i) (D' c i)) i =
  bxor (RAID5Coding.row_parity k D i) (RAID5Coding.row_parity k D' i).
Proof. apply xsum_bxor. Qed.

Lemma rdp_parity_linear j D D' i :
  rdp_parity k p symbolSize j (λ c i, bxor (D c i) (D' c i)) i =
  bxor (rdp_parity k p symbolSize j D i) (rdp_parity k p symbolSize j D' i).
Proof.
  unfold rdp_parity. case_decide; [apply row_parity_linear|]. unfold diag_parity, diag_sum.
  rewrite <- xsum_bxor. apply xsum_ext. intros c _. cbv zeta. case_decide; [done|].
  unfold column. case_decide; [done|]. apply row_parity_linear.
Qed.

Lemma rdp_parity_ext j D D' i :
  (∀ c i, D c i = D' c i) → rdp_parity k p symbolSize j D i = rdp_parity k p symbolSize j D' i.
Proof.
  intros HD. assert (Hr : ∀ i, RAID5Coding.row_parity k D i = RAID5Coding.row_parity k D' i) by (intros; apply xsum_ext; auto).
  unfold rdp_parity. case_decide; [apply Hr|]. apply xsum_ext. intros c _. cbv zeta. case_decide; [done|].
  unfold column. case_decide; [apply HD|apply Hr].
Qed.

#[export] Program Instance rdp_code : ErasureCode (rdp k p chunkSize symbolSize junk) := {
  ec_chunkSize := chunkSize; ec_k := k; ec_m := 2; ec_tolerance := 2;
  ec_parity := rdp_parity k p symbolSize;
}.
Next Obligation. pose proof (rdp_bounds _ _ _ _ junk Hok). lia. Qed.
Next Obligation. intros. apply rdp_parity_linear. Qed.
Next Obligation. intros. by apply rdp_parity_ext. Qed.
Next Obligation.
  intros m data parity index startOff endOff D Hi Hd Hz Hap Hr.
  apply (rdp_encode_ok k p chunkSize symbolSize junk Hok m data parity index startOff endOff D Hi Hd Hz Hap Hr).
Qed.
Next Obligation.
  intros m chunks bitmap status D cw lost Hst Hl Hs Hv Hap.
  apply (rdp_decode_ok k p chunkSize symbolSize junk Hok m chunks bitmap status D Hst Hl Hs Hv Hap).
Qed.
End code.

(** C31: [RDPCoding::encode], on a parity chunk whose data is zero, computes the
    row parity (index 1) or the diagonal parity (index 2) of the data.  With a
    range it skips the symbols outside of it and computes the same chunk,
    provided the data is zero outside of the range, as a delta is.  It frees
    its temporary chunk and writes nothing but the parity chunk. *)
Theorem rdp_encode_parity (k p chunkSize symbolSize : Z) (junk : nat → Z → byte) (m : mem)
    (data : list ptr) (parity : ptr) (index startOff endOff : Z) (D : data_t) :
  params_ok k p chunkSize symbolSize → 1 ≤ index ≤ 2 →
  stripe_is chunkSize m data k D → chunk_is chunkSize m parity (λ _, x00) →
  (∀ c q, 0 ≤ c < k → zget data c = Some q → apart (getData parity) chunkSize (getData q) chunkSize) →
  in_stripe_range k chunkSize D startOff endOff →
  ∃ m', encode k p chunkSize symbolSize junk m data parity index startOff endOff = Some m' ∧ same_shape m m' ∧
    chunk_is chunkSize m' parity (rdp_parity k p symbolSize index D) ∧
    ∀ q, ¬ in_range (getData parity) chunkSize q → mget m' q = mget m q.
Proof. intros Hok. by apply rdp_encode_ok. Qed.

(** C3: [RDPCoding::decode] restores any one or two lost chunks of a stripe
    coded by [encode], whichever they are; it returns true, and changes only
    the lost chunks. *)
Theorem rdp_recovers (k p chunkSize symbolSize : Z) (junk : nat → Z → byte) (m : mem)
    (chunks : list ptr) (bitmap : BitmaskArray) (status : Z → bool) (D : data_t) :
  params_ok k p chunkSize symbolSize →
  let lost := λ i, 0 ≤ i < k + 2 ∧ status i = false in
  (∀ i, 0 ≤ i < k + 2 → check1 bitmap i = Some (status i)) →
  0 < n_lost (k + 2) status ≤ 2 →
  stripe_is chunkSize m chunks (k + 2) (λ i, if status i then rdp_codeword k p symbolSize D i else λ _, x00) →
  (∀ q c, zget chunks c = Some q → valid m q (CHUNK_IDENTIFIER_SIZE + chunkSize)) →
  lost_apart chunkSize chunks lost →
  ∃ m', decode k p chunkSize symbolSize junk m chunks bitmap = Some (true, m') ∧ same_shape m m' ∧
    stripe_is chunkSize m' chunks (k + 2) (rdp_codeword k p symbolSize D) ∧
    ∀ q, (∀ c r, lost c → zget chunks c = Some r → ¬ in_range r (CHUNK_IDENTIFIER_SIZE + chunkSize) q) → mget m' q = mget m q.
Proof. intros Hok. by apply rdp_decode_ok. Qed.

(** A stripe of four chunks of two bytes, over [p = 3]. *)
Definition ex_status (i : Z) : bool := negb (bool_decide (i = 0 ∨ i = 1)).
Definition ex_data (c i : Z) : byte := z2b (10 * c + i + 1).
Definition ex_code (c : Z) : Z → byte := rdp_codeword 2 3 1 ex_data c.
Definition ex_block (zeroed : Z → bool) (c : Z) : list byte :=
  replicate 8 x00 ++ ((λ i, if zeroed c then x00 else ex_code c i) <$> [0; 1]).
Definition ex_mem (zeroed : Z → bool) : mem :=
  {[ 0%nat := ex_block zeroed 0; 1%nat := ex_block zeroed 1; 2%nat := ex_block zeroed 2; 3%nat := ex_block zeroed 3 ]}.
Definition ex_chunks : list ptr := [Ptr 0 0; Ptr 1 0; Ptr 2 0; Ptr 3 0].

Lemma range4 (P : Z → Prop) : P 0 → P 1 → P 2 → P 3 → ∀ i, 0 ≤ i < 4 → P i.
Proof. intros H0 H1 H2 H3 i Hi. assert (i = 0 ∨ i = 1 ∨ i = 2 ∨ i = 3) as [-> | [-> | [-> | ->]]] by lia; done. Qed.

Lemma range2 (P : Z → Prop) : P 0 → P 1 → ∀ i, 0 ≤ i < 2 → P i.
Proof. intros H0 H1 i Hi. assert (i = 0 ∨ i = 1) as [-> | ->] by lia; done. Qed.

Lemma ex_params : params_ok 2 3 2 1.
Proof. constructor; try lia. exact Z.prime_3. Qed.

Lemma ex_chunks_valid zeroed q c : zget ex_chunks c = Some q → valid (ex_mem zeroed) q (CHUNK_IDENTIFIER_SIZE + 2).
Proof.
  intros Hq. pose proof (zget_Some _ _ _ Hq) as Hr. change (zlen ex_chunks) with 4 in Hr. revert q Hq.
  assert (Hlen : ∀ c, zlen (ex_block zeroed c) = 10) by reflexivity.
  revert c Hr. apply (range4 (λ c, ∀ q, zget ex_chunks c = Some q → valid (ex_mem zeroed) q (CHUNK_IDENTIFIER_SIZE + 2)));
    intros q [= <-]; (split; [unfold CHUNK_IDENTIFIER_SIZE; lia|]); eexists; (split; [reflexivity|]);
    rewrite Hlen; unfold CHUNK_IDENTIFIER_SIZE; simpl; lia.
Qed.

Lemma ex_apart lost : lost_apart 2 ex_chunks lost.
Proof.
  intros i j q r Hij _ Hq Hr. left.
  pose proof (zget_Some _ _ _ Hq) as Hi. pose proof (zget_Some _ _ _ Hr) as Hj. change (zlen ex_chunks) with 4 in *.
  revert i Hi j Hj q r Hij Hq Hr.
  apply (range4 (λ i, ∀ j, 0 ≤ j < 4 → ∀ q r, i ≠ j → zget ex_chunks i = Some q → zget ex_chunks j = Some r → blk q ≠ blk r));
  match goal with |- ∀ j, _ → ∀ q r, ?i ≠ j → _ =>
    apply (range4 (λ j, ∀ q r, i ≠ j → zget ex_chunks i = Some q → zget ex_chunks j = Some r → blk q ≠ blk r)) end;
  intros q r Hij [= <-] [= <-]; simpl; lia.
Qed.

Lemma ex_stripe zeroed :
  stripe_is 2 (ex_mem zeroed) ex_chunks 4 (λ i, if zeroed i then λ _, x00 else ex_code i).
Proof.
  assert (Hb : ∀ c i, 0 ≤ i < 2 → zget (ex_block zeroed c) (8 + i) = Some ((if zeroed c then λ _, x00 else ex_code c) i)).
  { intros c i Hi. assert (i = 0 ∨ i = 1) as [-> | ->] by lia.
    - change (zget (ex_block zeroed c) (8 + 0)) with (Some (if zeroed c then x00 else ex_code c 0)). by destruct (zeroed c).
    - change (zget (ex_block zeroed c) (8 + 1)) with (Some (if zeroed c then x00 else ex_code c 1)). by destruct (zeroed c). }
  intros c Hc. exists (Ptr (Z.to_nat c) 0). revert c Hc.
  apply (range4 (λ c, zget ex_chunks c = Some (Ptr (Z.to_nat c) 0) ∧
    chunk_is 2 (ex_mem zeroed) (Ptr (Z.to_nat c) 0) (if zeroed c then λ _, x00 else ex_code c)));
    (split; [reflexivity|]); intros i Hi; rewrite <- Hb by done; reflexivity.
Qed.

Lemma ex_bitmap : ∃ bitmap, ∀ i, 0 ≤ i < 4 → check1 bitmap i = Some (ex_status i).
Proof.
  exists (MkBitmaskArray 4 1 1 [12]). apply (range4 (λ i, check1 (MkBitmaskArray 4 1 1 [12]) i = Some (ex_status i))); vm_compute; reflexivity.
Qed.

Lemma rdp_recovers_witness :
  ∃ bitmap m', decode 2 3 2 1 (λ _ _, x00) (ex_mem (λ c, negb (ex_status c))) ex_chunks bitmap = Some (true, m') ∧
    stripe_is 2 m' ex_chunks 4 ex_code.
Proof.
  destruct ex_bitmap as [bitmap Hb]. exists bitmap.
  destruct (rdp_recovers 2 3 2 1 (λ _ _, x00) (ex_mem (λ c, negb (ex_status c))) ex_chunks bitmap ex_status ex_data ex_params Hb)
    as (m' & E & _ & Hs & _).
  - change (n_lost (2 + 2) ex_status) with 2. lia.
  - intros i Hi. destruct (ex_stripe (λ c, negb (ex_status c)) i Hi) as (q & Hq & Hc). exists q. split; [exact Hq|].
    cbv beta in Hc. destruct (ex_status i); exact Hc.
  - intros q c Hq. eapply ex_chunks_valid. exact Hq.
  - apply ex_apart.
  - exists m'. split; [exact E|exact Hs].
Defined.

Lemma rdp_encode_parity_witness :
  ∃ m', encode 2 3 2 1 (λ _ _, x00) (ex_mem (λ c, bool_decide (c = 3))) ex_chunks (Ptr 3 0) 2 0 0 = Some m' ∧
    chunk_is 2 m' (Ptr 3 0) (rdp_parity 2 3 1 2 ex_data).
Proof.
  destruct (rdp_encode_parity 2 3 2 1 (λ _ _, x00) (ex_mem (λ c, bool_decide (c = 3))) ex_chunks (Ptr 3 0) 2 0 0 ex_data ex_params)
    as (m' & E & _ & Hs & _).
  - lia.
  - intros i Hi. destruct (ex_stripe (λ c, bool_decide (c = 3)) i ltac:(lia)) as (q & Hq & Hc). exists q. split; [exact Hq|].
    cbv beta in Hc. rewrite bool_decide_eq_false_2 in Hc by lia. unfold ex_code, rdp_codeword in Hc.
    rewrite decide_True in Hc by lia. exact Hc.
  - destruct (ex_stripe (λ c, bool_decide (c = 3)) 3 ltac:(lia)) as (q & Hq & Hc). injection Hq as <-. exact Hc.
  - intros c q Hc Hq. left. assert (c = 0 ∨ c = 1) as [-> | ->] by lia; injection Hq as <-; discriminate.
  - left. split; reflexivity.
  - exists m'. split; [exact E|exact Hs].
Defined.
End RDPCoding.
