(* ===== verification/EvenOdd.v ===== *)
(** * EVENODD (common/coding/evenoddcoding.{hh,cc})

    [k] data chunks, the row parity (index 1) and the diagonal parity
    (index 2), over an odd prime [p >= k] and [p - 1] symbols per chunk.  The
    diagonal parity covers the data only; the sum [S] of the missing diagonal
    is added to each of its symbols.  [evenodd_code] shows the promise of
    [ErasureCode] for two lost chunks. *)

From S2P Require Export Rdp.

Module EvenOddCoding.

(** ** The constructor *)
Definition getPrime (k : Z) : option Z := RDPCoding.getPrime_loop (λ q, bool_decide (q ≠ 2)) k 168 0 (RDPCoding.primeCount - 1).
Definition getSymbolSize (k chunkSize : Z) : option (Z * Z) :=
  pp ← getPrime k; RDPCoding.getSymbolSize_from chunkSize pp.
(** The constructor of the base class runs first, and ends the program when it
    finds no prime. *)
Definition EvenOddCoding_new (k chunkSize : Z) : option (Z * Z) :=
  _ ← RDPCoding.getSymbolSize k chunkSize; getSymbolSize k chunkSize.

(** ** Encoding *)
Section evenodd.
Variables (k p chunkSize symbolSize : Z) (junk : nat → Z → byte).

Definition in_chunk (c : ptr) (o : Z) : ptr := getData c +ₚ o.

Definition encode_symbol (data : list ptr) (parity s : ptr) (startOff endOff size sidx cidx : Z) (m : mem) : option mem :=
  let symbolOff := u32 (cidx * chunkSize + sidx * symbolSize) in
  if decide (size > 0 ∧ (u32 (symbolOff + symbolSize) < startOff ∨ symbolOff > endOff)) then Some m else
  let pidx := u32 (cidx + sidx) mod p in
  let offset := if decide (size > 0) then (if decide (startOff > symbolOff) then startOff - symbolOff else 0) else 0 in
  let len := if decide (size > 0) then u32 (endOff - (symbolOff + offset)) else symbolSize in
  let len := if decide (u32 (len + offset) > symbolSize) then u32 (symbolSize - offset) else len in
  d ← zget data cidx;
  if decide (pidx = p - 1)
  then bitwiseXOR m (s +ₚ offset) (in_chunk d (sidx * symbolSize + offset)) (s +ₚ offset) len
  else bitwiseXOR m (in_chunk parity (pidx * symbolSize + offset)) (in_chunk d (sidx * symbolSize + offset))
         (in_chunk parity (pidx * symbolSize + offset)) len.

Definition add_S (parity s : ptr) (sidx : Z) (m : mem) : option mem :=
  bitwiseXOR m (in_chunk parity (sidx * symbolSize)) s (in_chunk parity (sidx * symbolSize)) symbolSize.

Definition encode (m : mem) (data : list ptr) (parity : ptr) (index startOff endOff : Z) : option mem :=
  let size := if decide (endOff = 0) then 0 else u32 (endOff - startOff) in
  if decide (index = 1) then RAID5Coding.encode (k + 1) chunkSize m data parity index 0 0
  else if decide (index = 2) then
    let '(s, m) := malloc junk m symbolSize in
    m ← memset m s 0 symbolSize;
    m ← for_range 0 (p - 1) (λ sidx, for_range 0 k (encode_symbol data parity s startOff endOff size sidx)) m;
    m ← for_range 0 (p - 1) (add_S parity s) m;
    mfree m s
  else Some m.

(** ** Decoding *)
Definition zero_data (chunks : list ptr) (m : mem) (f : Z) : option mem :=
  c ← zget chunks f; memset m (getData c) 0 chunkSize.

(** *** A data chunk and the row parity are lost *)
Definition recover_S_step (chunks : list ptr) (s : ptr) (f0 pidx cidx : Z) (m : mem) : option mem :=
  if decide (cidx = f0) then Some m else
  let sidx := u32 (pidx + p - cidx) mod p in
  c ← zget chunks cidx;
  bitwiseXOR m s (in_chunk c (sidx * symbolSize)) s symbolSize.

Definition repair_row_step (chunks : list ptr) (failedSymbol : ptr) (f0 pidx cidx : Z) (m : mem) : option mem :=
  if decide (cidx = f0) then Some m else
  let sidx := u32 (pidx + p - cidx) mod p in
  if decide (sidx > p - 2) then Some m else
  c ← zget chunks cidx;
  bitwiseXOR m failedSymbol (in_chunk c (sidx * symbolSize)) failedSymbol symbolSize.

Definition repair_data_symbol (chunks : list ptr) (s : ptr) (f0 sidxToRepair : Z) (m : mem) : option mem :=
  fc ← zget chunks f0;
  let failedSymbol := in_chunk fc (sidxToRepair * symbolSize) in
  let pidx := u32 (f0 + sidxToRepair) mod p in
  m ← for_range 0 k (repair_row_step chunks failedSymbol f0 pidx) m;
  m ← (if decide (pidx ≠ p - 1) then
         pc ← zget chunks (k + 1);
         bitwiseXOR m failedSymbol (in_chunk pc (pidx * symbolSize)) failedSymbol symbolSize
       else Some m);
  bitwiseXOR m failedSymbol s failedSymbol symbolSize.

Definition decode_data_row (m : mem) (chunks : list ptr) (f0 : Z) : option mem :=
  let pidx := u32 (u32 (f0 - 1) + p) mod p in
  let '(s, m) := malloc junk m symbolSize in
  m ← memset m s 0 symbolSize;
  m ← for_range 0 k (recover_S_step chunks s f0 pidx) m;
  m ← (if decide (pidx ≠ p - 1) then
         pc ← zget chunks (k + 1);
         bitwiseXOR m s (in_chunk pc (pidx * symbolSize)) s symbolSize
       else Some m);
  m ← for_range 0 (p - 1) (repair_data_symbol chunks s f0) m;
  rc ← zget chunks k;
  m ← encode m chunks rc 1 0 0;
  mfree m s.

(** *** Two data chunks are lost *)
Definition collect_S_step (chunks : list ptr) (s : ptr) (sidx : Z) (m : mem) : option mem :=
  rc ← zget chunks k;
  m ← bitwiseXOR m s (in_chunk rc (sidx * symbolSize)) s symbolSize;
  pc ← zget chunks (k + 1);
  bitwiseXOR m s (in_chunk pc (sidx * symbolSize)) s symbolSize.

Definition zigzag_diag_step (chunks : list ptr) (symbolToRepair : ptr) (cidxToRepair pidx sidxToRepair cidx : Z) (m : mem) : option mem :=
  if decide (cidx = cidxToRepair) then Some m else
  let sidx := u32 (p + pidx - cidx) mod p in
  if decide (sidx = sidxToRepair ∨ sidx = p - 1) then Some m else
  c ← zget chunks cidx;
  bitwiseXOR m symbolToRepair (in_chunk c (sidx * symbolSize)) symbolToRepair symbolSize.

Definition zigzag_row_step (chunks : list ptr) (symbolToRepair : ptr) (cidxToRepair sidxToRepair cidx : Z) (m : mem) : option mem :=
  if decide (cidx = cidxToRepair) then Some m else
  c ← zget chunks cidx;
  bitwiseXOR m symbolToRepair (in_chunk c (sidxToRepair * symbolSize)) symbolToRepair symbolSize.

(** One round: the symbol of [f1] on diagonal [pidx], then that of [f0] in the
    same row; the state is [pidx], [sidxToRepair] and the memory.  [idx] is 1
    throughout. *)
Definition zigzag_round (chunks : list ptr) (s : ptr) (f0 f1 : Z) (st : Z * Z * mem) : option (Z * Z * mem) :=
  let '(pidx, sidxToRepair, m) := st in
  c1 ← zget chunks f1;
  let symbolToRepair := in_chunk c1 (sidxToRepair * symbolSize) in
  m ← for_range 0 k (zigzag_diag_step chunks symbolToRepair f1 pidx sidxToRepair) m;
  m ← (if decide (pidx ≠ p - 1) then
         pc ← zget chunks (k + 1);
         bitwiseXOR m symbolToRepair (in_chunk pc (pidx * symbolSize)) symbolToRepair symbolSize
       else Some m);
  m ← bitwiseXOR m symbolToRepair s symbolToRepair symbolSize;
  c0 ← zget chunks f0;
  let symbolToRepair := in_chunk c0 (sidxToRepair * symbolSize) in
  m ← for_range 0 (k + 1) (zigzag_row_step chunks symbolToRepair f0 sidxToRepair) m;
  let pidx := u32 (f0 + sidxToRepair) mod p in
  Some (pidx, u32 (pidx + p - f1) mod p, m).

Definition decode_two_data (m : mem) (chunks : list ptr) (f0 f1 : Z) : option mem :=
  let '(s, m) := malloc junk m symbolSize in
  rc ← zget chunks k;
  m ← memcpy m s (getData rc) symbolSize;
  pc ← zget chunks (k + 1);
  m ← bitwiseXOR m s (getData pc) s symbolSize;
  m ← for_range 1 (p - 1) (collect_S_step chunks s) m;
  let pidx := u32 (u32 (f0 - 1) + p) mod p in
  st ← for_range 0 (p - 1) (λ _, zigzag_round chunks s f0 f1) (pidx, u32 (pidx + p - f1) mod p, m);
  mfree st.2 s.

Definition decode (m : mem) (chunks : list ptr) (bitmap : BitmaskArray) : option (bool * mem) :=
  r ← RDPCoding.collect_failed bitmap 0 [] (Z.to_nat (k + 2));
  match r with
  | None | Some [] => Some (false, m)
  | Some ((f0 :: rest) as failed) =>
      m ← foldl (λ om f, m ← om; zero_data chunks m f) (Some m) failed;
      match rest with
      | [] =>
          if decide (f0 = k + 1) then
            pc ← zget chunks (k + 1); m ← encode m chunks pc 2 0 0; Some (true, m)
          else '(_, m) ← RAID5Coding.decode (k + 1) chunkSize m chunks bitmap; Some (true, m)
      | f1 :: _ =>
          if decide (f1 = k + 1) then
            '(_, m) ← RAID5Coding.decode (k + 1) chunkSize m chunks bitmap;
            pc ← zget chunks (k + 1); m ← encode m chunks pc 2 0 0; Some (true, m)
          else if decide (f1 = k) then m ← decode_data_row m chunks f0; Some (true, m)
          else m ← decode_two_data m chunks f0 f1; Some (true, m)
      end
  end.

#[export] Instance evenodd : Coding := { encode := encode; decode := decode }.
End evenodd.

(** ** The code *)
Record params_ok (k p chunkSize symbolSize : Z) : Prop := {
  eo_k : 0 < k;
  eo_p : Z.prime p;
  eo_odd : p ≠ 2;
  eo_kp : k ≤ p;
  eo_ss : 0 < symbolSize;
  eo_cs : chunkSize = (p - 1) * symbolSize;
  eo_32 : (k + 2) * chunkSize < 2 ^ 32;
}.

(** Byte [t] of the exclusive or of the data symbols on diagonal [d]. *)
Definition data_diag (k p symbolSize : Z) (D : data_t) (d t : Z) : byte :=
  diagonal k p (λ c s, D c (s * symbolSize + t)) d.

Definition eo_parity (k p symbolSize : Z) (j : Z) (D : data_t) (i : Z) : byte :=
  if decide (j = 1) then RAID5Coding.row_parity k D i
  else bxor (data_diag k p symbolSize D (i / symbolSize) (i mod symbolSize))
            (data_diag k p symbolSize D (p - 1) (i mod symbolSize)).

Definition eo_codeword (k p symbolSize : Z) (D : data_t) (c : Z) : Z → byte :=
  if decide (c < k) then D c else eo_parity k p symbolSize (c - k + 1) D.

(** The part of a symbol that a range covers. *)
Lemma clip_symbol ss symbolOff startOff endOff :
  0 < ss → 0 ≤ symbolOff → symbolOff + ss < 2 ^ 32 → 0 ≤ startOff < endOff → endOff < 2 ^ 32 →
  ¬ (symbolOff + ss < startOff ∨ symbolOff > endOff) →
  let offset := if decide (startOff > symbolOff) then startOff - symbolOff else 0 in
  let len0 := u32 (endOff - (symbolOff + offset)) in
  let len := if decide (u32 (len0 + offset) > ss) then u32 (ss - offset) else len0 in
  0 ≤ offset ∧ 0 ≤ len ∧ offset + len ≤ ss ∧
  ∀ t, 0 ≤ t < ss → startOff ≤ symbolOff + t < endOff → offset ≤ t < offset + len.
Proof.
  intros Hss Ho H32 Hse He Hn offset len0 len.
  assert (Hoff : offset = Z.max 0 (startOff - symbolOff)) by (unfold offset; case_decide; lia).
  assert (Hlen0 : len0 = endOff - (symbolOff + offset)) by (unfold len0; apply u32_small; lia).
  assert (Hlen : len = Z.min (ss - offset) len0).
  { unfold len. rewrite (u32_small (len0 + offset)) by lia. case_decide; [rewrite u32_small by lia|]; lia. }
  clearbody offset len0 len. split_and!; lia.
Qed.

Section correct.
Variables (k p chunkSize symbolSize : Z) (junk : nat → Z → byte).
Hypothesis (Hok : params_ok k p chunkSize symbolSize).

Lemma eo_bounds :
  0 < k ∧ 2 < p ∧ k ≤ p ∧ 0 < symbolSize ∧ chunkSize = (p - 1) * symbolSize ∧ 0 < chunkSize ∧
  p ≤ chunkSize + 1 ∧ (k + 2) * chunkSize < 2 ^ 32 ∧ chunkSize < 2 ^ 31 ∧ k + 2 < 2 ^ 32.
Proof. destruct Hok as [? Hp%Z.prime_ge_2 ? ? ? ? ?]. split_and!; try lia; nia. Qed.

Lemma eo_symbol_fits s : 0 ≤ s < p - 1 → 0 ≤ s * symbolSize ∧ s * symbolSize + symbolSize ≤ chunkSize.
Proof. destruct eo_bounds as (? & ? & ? & ? & Hcs & ?). intros. split; nia. Qed.

(** Two regions of different blocks. *)
Definition two_regions (P : ptr) (fP : Z → byte) (S : ptr) (fS : Z → byte) : ptr → byte :=
  λ q, if decide (in_range P chunkSize q) then fP (off q - off P)
       else if decide (in_range S symbolSize q) then fS (off q - off S) else x00.

(** The byte symbol [s] of column [c] gives to the parity, and to [S]. *)
Definition to_parity (D : data_t) (c s i : Z) : byte :=
  let d := (c + s) mod p in
  if decide (d ≠ p - 1 ∧ d * symbolSize ≤ i < d * symbolSize + symbolSize)
  then D c (s * symbolSize + (i - d * symbolSize)) else x00.
Definition to_S (D : data_t) (c s t : Z) : byte :=
  if decide ((c + s) mod p = p - 1) then D c (s * symbolSize + t) else x00.

Section encode_loop.
Variables (m0 : mem) (data : list ptr) (parity S : ptr) (D : data_t) (startOff endOff : Z).
Hypothesis (Hrange : RDPCoding.in_stripe_range k chunkSize D startOff endOff).
Hypothesis (Hpar : valid m0 (getData parity) chunkSize) (HS : valid m0 S symbolSize).
Hypothesis (HPS : blk (getData parity) ≠ blk S).
Hypothesis (Hsrc : ∀ c, 0 ≤ c < k → ∃ q, zget data c = Some q ∧
  chunk_is chunkSize m0 q (D c) ∧ apart (getData parity) chunkSize (getData q) chunkSize ∧ blk (getData q) ≠ blk S).
Let size := RDPCoding.range_size startOff endOff.

Lemma eo_range_size : size = 0 ∨ size > 0 ∧ 0 ≤ startOff < endOff ∧ endOff < 2 ^ 32.
Proof.
  destruct eo_bounds as (? & ? & ? & ? & Hcs & ?). unfold size, RDPCoding.range_size.
  destruct Hrange as [->|(? & ? & _)]; [left; rewrite Z.sub_diag; by case_decide|]. right. rewrite decide_False by lia.
  assert (k * chunkSize < 2 ^ 32) by nia. rewrite u32_small by lia. lia.
Qed.

Lemma eo_encode_symbol_accum s c fP fS m :
  0 ≤ c < k → 0 ≤ s < p - 1 → accum_at m0 (two_regions (getData parity) fP S fS) m →
  ∃ m', encode_symbol p chunkSize symbolSize data parity S startOff endOff size s c m = Some m' ∧
    accum_at m0 (two_regions (getData parity) (bxor_fun fP (to_parity D c s)) S (bxor_fun fS (to_S D c s))) m'.
Proof.
  intros Hc Hs Ha. destruct eo_bounds as (? & ? & ? & ? & Hcs & ? & ? & H32 & ? & ?).
  pose proof (eo_symbol_fits s Hs) as Hsf.
  assert (Hcc : 0 ≤ c * chunkSize ∧ c * chunkSize + chunkSize ≤ k * chunkSize) by nia.
  unfold encode_symbol. rewrite (u32_small (c * chunkSize + _)) by lia.
  set (symbolOff := c * chunkSize + s * symbolSize) in *.
  rewrite (u32_small (symbolOff + symbolSize)) by (unfold symbolOff; lia). rewrite (u32_small (c + s)) by lia.
  set (pidx := (c + s) mod p). pose proof (Z.mod_pos_bound (c + s) p ltac:(lia)) as Hpd. fold pidx in Hpd.
  assert (Hzero : ∀ t, size > 0 → 0 ≤ t < symbolSize → ¬ (startOff ≤ symbolOff + t < endOff) → D c (s * symbolSize + t) = x00).
  { intros t Hsz Ht Hn. apply (RDPCoding.out_of_range k chunkSize D startOff endOff); [done|done|lia|lia|unfold symbolOff in *; lia]. }
  destruct (decide (size > 0 ∧ (symbolOff + symbolSize < startOff ∨ symbolOff > endOff))) as [[Hsz Hout]|Hin].
  { exists m. split; [done|]. eapply accum_at_ext; [|exact Ha]. intros q. unfold two_regions, bxor_fun.
    destruct (decide (in_range (getData parity) chunkSize q)); [|destruct (decide (in_range S symbolSize q)) as [Hq|]; [|done]].
    - unfold to_parity. fold pidx. case_decide as Hd; [|by rewrite (right_id x00 bxor)].
      rewrite Hzero; [by rewrite (right_id x00 bxor)|done|lia|lia].
    - unfold to_S. fold pidx. case_decide; [|by rewrite (right_id x00 bxor)].
      rewrite Hzero; [by rewrite (right_id x00 bxor)|done|unfold in_range in Hq; lia|unfold in_range in Hq; lia]. }
  set (offset := if decide (size > 0) then if decide (startOff > symbolOff) then startOff - symbolOff else 0 else 0).
  set (len0 := if decide (size > 0) then u32 (endOff - (symbolOff + offset)) else symbolSize).
  set (len := if decide (u32 (len0 + offset) > symbolSize) then u32 (symbolSize - offset) else len0).
  assert (Hol : 0 ≤ offset ∧ 0 ≤ len ∧ offset + len ≤ symbolSize ∧
                ∀ t, 0 ≤ t < symbolSize → ¬ (offset ≤ t < offset + len) → D c (s * symbolSize + t) = x00).
  { unfold len, len0, offset. destruct eo_range_size as [Hz|(Hsz & Hse & He)].
    - rewrite !(decide_False (P := size > 0)) by lia. rewrite Z.add_0_r, u32_small by lia.
      rewrite decide_False by lia. split_and!; lia.
    - rewrite !(decide_True (P := size > 0)) by lia.
      destruct (clip_symbol symbolSize symbolOff startOff endOff) as (C1 & C2 & C3 & C4); [lia|unfold symbolOff; lia|unfold symbolOff; lia|lia|lia|tauto|].
      split_and!; [done..|]. intros t Ht Hn. apply Hzero; [done|done|]. intros Hi. apply Hn. by apply C4. }
  clearbody offset. clearbody len. clear len0. destruct Hol as (Ho & Hlen & Hol & Hz).
  destruct (Hsrc c Hc) as (q & Hq & Hcol & Hap & HqS). rewrite Hq. cbn [mbind option_bind]. unfold in_chunk.
  pose proof (region_is_valid _ _ _ _ Hcol ltac:(lia)) as Hvq.
  assert (Hvs : valid m0 (getData q +ₚ (s * symbolSize + offset)) len) by (eapply valid_sub; [done|lia|lia|lia]).
  assert (HF : ∀ i, 0 ≤ i < len → two_regions (getData parity) fP S fS (getData q +ₚ (s * symbolSize + offset) +ₚ i) = x00).
  { intros i Hi. unfold two_regions. rewrite decide_False by (unfold in_range, apart in *; simpl in *; lia).
    rewrite decide_False; [done|]. unfold in_range; simpl in *. tauto. }
  assert (Hsrcb : ∀ t, offset ≤ t < offset + len → mbyte m0 (getData q +ₚ (s * symbolSize + offset) +ₚ (t - offset)) = D c (s * symbolSize + t)).
  { intros t Ht. rewrite padd_padd. rewrite (region_is_mbyte _ _ _ _ _ Hcol) by lia. f_equal. lia. }
  destruct (decide (pidx = p - 1)) as [Hlast|Hnl].
  - destruct (accum_at_xor m0 _ m (S +ₚ offset) (getData q +ₚ (s * symbolSize + offset)) len Ha) as (m' & E & Ha'); [eapply valid_sub; [done|lia|lia|lia]|exact Hvs| |exact HF|].
    { left. simpl in *. congruence. }
    exists m'. split; [exact E|]. eapply accum_at_ext; [|exact Ha']. intros r. unfold add_at, two_regions, bxor_fun.
    destruct (decide (in_range (getData parity) chunkSize r)) as [HrP|HrP].
    { rewrite decide_False by (unfold in_range in *; simpl in *; intuition congruence).
      unfold to_parity. fold pidx. by rewrite decide_False by tauto. }
    destruct (decide (in_range S symbolSize r)) as [HrS|HrS].
    + unfold to_S. fold pidx. rewrite (decide_True (P := pidx = p - 1)) by done. f_equal.
      unfold in_range in HrS. destruct (decide (offset ≤ off r - off S < offset + len)) as [Hi|Hi].
      * rewrite decide_True by (unfold in_range; simpl; lia). rewrite <- Hsrcb by done. do 2 f_equal. simpl. lia.
      * rewrite decide_False by (unfold in_range; simpl; lia). symmetry. apply Hz; [lia|done].
    + rewrite decide_False; [done|]. unfold in_range in *; simpl in *. lia.
  - pose proof (eo_symbol_fits pidx ltac:(lia)) as Hpb.
    destruct (accum_at_xor m0 _ m (getData parity +ₚ (pidx * symbolSize + offset)) (getData q +ₚ (s * symbolSize + offset)) len Ha) as (m' & E & Ha');
      [eapply valid_sub; [done|lia|lia|lia]|exact Hvs| |exact HF|].
    { unfold disjoint_ranges, apart in *. simpl in *. lia. }
    exists m'. split; [exact E|]. eapply accum_at_ext; [|exact Ha']. intros r. unfold add_at, two_regions, bxor_fun.
    destruct (decide (in_range (getData parity) chunkSize r)) as [HrP|HrP].
    + f_equal. unfold to_parity. fold pidx. unfold in_range in HrP.
      destruct (decide (pidx * symbolSize + offset ≤ off r - off (getData parity) < pidx * symbolSize + offset + len)) as [Hi|Hi].
      * rewrite decide_True by (unfold in_range; simpl in *; lia). rewrite decide_True by lia. rewrite <- Hsrcb by lia. do 2 f_equal. simpl. lia.
      * rewrite decide_False by (unfold in_range; simpl in *; lia). case_decide as Hd; [|done]. symmetry. apply Hz; lia.
    + destruct (decide (in_range S symbolSize r)); rewrite decide_False by (unfold in_range in *; simpl in *; lia); [|done].
      unfold to_S. fold pidx. by rewrite decide_False.
Qed.

(** A loop each of whose iterations adds [hP j] and [hS j]. *)
Lemma two_regions_loop n (hP hS : Z → Z → byte) body fP fS m :
  0 ≤ n → accum_at m0 (two_regions (getData parity) fP S fS) m →
  (∀ j fP fS m, 0 ≤ j < n → accum_at m0 (two_regions (getData parity) fP S fS) m →
     ∃ m', body j m = Some m' ∧ accum_at m0 (two_regions (getData parity) (bxor_fun fP (hP j)) S (bxor_fun fS (hS j))) m') →
  ∃ m', for_range 0 n body m = Some m' ∧
    accum_at m0 (two_regions (getData parity) (bxor_fun fP (λ i, xsum (seqZ 0 n) (λ j, hP j i))) S
                   (bxor_fun fS (λ i, xsum (seqZ 0 n) (λ j, hS j i)))) m'.
Proof.
  intros Hn Ha Hbody.
  apply (for_range_inv (λ j m, accum_at m0 (two_regions (getData parity) (bxor_fun fP (λ i, xsum (seqZ 0 j) (λ j, hP j i))) S
                   (bxor_fun fS (λ i, xsum (seqZ 0 j) (λ j, hS j i)))) m)); [done| |].
  - intros j m1 Hj H1. destruct (Hbody j _ _ m1 Hj H1) as (m2 & E & H2). exists m2. split; [done|].
    eapply accum_at_ext; [|exact H2]. intros q. unfold two_regions, bxor_fun.
    by do 2 (case_decide; [by rewrite xsum_seqZ_snoc, (assoc bxor) by lia|]).
  - eapply accum_at_ext; [|exact Ha]. intros q. unfold two_regions, bxor_fun. simpl.
    by do 2 (case_decide; [by rewrite (right_id x00 bxor)|]).
Qed.

Lemma to_parity_sum i : 0 ≤ i < chunkSize →
  xsum (seqZ 0 (p - 1)) (λ s, xsum (seqZ 0 k) (λ c, to_parity D c s i)) = data_diag k p symbolSize D (i / symbolSize) (i mod symbolSize).
Proof.
  intros Hi. destruct eo_bounds as (? & ? & ? & ? & Hcs & ?).
  assert (Hd : 0 ≤ i / symbolSize < p - 1).
  { split; [apply Z.div_pos; lia|]. apply Z.div_lt_upper_bound; [lia|]. rewrite Z.mul_comm. lia. }
  assert (Him : i = i / symbolSize * symbolSize + i mod symbolSize) by (rewrite (Z.div_mod i symbolSize) at 1 by lia; lia).
  pose proof (Z.mod_pos_bound i symbolSize ltac:(lia)) as Hr.
  rewrite xsum_swap. unfold data_diag. rewrite <- diagonal_sum by lia. apply xsum_ext. intros c _. apply xsum_ext. intros s _.
  unfold to_parity. generalize ((c + s) mod p). intros d. set (q := i / symbolSize) in *. set (t := i mod symbolSize) in *.
  clearbody q t. subst i. destruct (decide (d = q)) as [->|Hne].
  - rewrite decide_True by lia. f_equal. lia.
  - rewrite decide_False; [done|]. intros [_ Hin]. apply Hne.
    assert (d * symbolSize = q * symbolSize ∨ d * symbolSize + symbolSize ≤ q * symbolSize ∨ q * symbolSize + symbolSize ≤ d * symbolSize) by nia.
    nia.
Qed.

Lemma to_S_sum t : xsum (seqZ 0 (p - 1)) (λ s, xsum (seqZ 0 k) (λ c, to_S D c s t)) = data_diag k p symbolSize D (p - 1) t.
Proof.
  destruct eo_bounds as (? & ? & ? & ? & Hcs & ?).
  rewrite xsum_swap. unfold data_diag. rewrite <- diagonal_sum by lia. done.
Qed.

Lemma eo_encode_loop_accum :
  ∃ m', for_range 0 (p - 1) (λ sidx, for_range 0 k (encode_symbol p chunkSize symbolSize data parity S startOff endOff size sidx)) m0 = Some m' ∧
    accum_at m0 (two_regions (getData parity) (λ i, data_diag k p symbolSize D (i / symbolSize) (i mod symbolSize)) S
                   (λ t, data_diag k p symbolSize D (p - 1) t)) m'.
Proof.
  destruct eo_bounds as (? & ? & ? & ? & Hcs & ?).
  destruct (two_regions_loop (p - 1) (λ s i, xsum (seqZ 0 k) (λ c, to_parity D c s i)) (λ s t, xsum (seqZ 0 k) (λ c, to_S D c s t))
    (λ sidx, for_range 0 k (encode_symbol p chunkSize symbolSize data parity S startOff endOff size sidx)) (λ _, x00) (λ _, x00) m0)
    as (m' & E & Ha); [lia| | |].
  - eapply accum_at_ext; [|apply accum_at_refl]. intros q. unfold two_regions. by repeat case_decide.
  - intros s fP fS m Hs Ha.
    apply (two_regions_loop k (λ c i, to_parity D c s i) (λ c t, to_S D c s t)); [lia|done|].
    intros c fP' fS' m1 Hc Hm1. by apply eo_encode_symbol_accum.
  - exists m'. split; [done|]. eapply accum_at_ext; [|exact Ha]. intros q. unfold two_regions, bxor_fun.
    destruct (decide (in_range (getData parity) chunkSize q)) as [Hq|Hq].
    + rewrite (left_id x00 bxor). apply to_parity_sum. unfold in_range in Hq. lia.
    + case_decide; [|done]. rewrite (left_id x00 bxor). apply to_S_sum.
Qed.
End encode_loop.

Lemma add_S_accum m parity S f :
  valid m (getData parity) chunkSize → region_is m S symbolSize f → blk (getData parity) ≠ blk S →
  ∃ m', for_range 0 (p - 1) (add_S symbolSize parity S) m = Some m' ∧
    accum m (getData parity) chunkSize (λ i, f (i mod symbolSize)) m'.
Proof.
  intros Hv HS Hb. destruct eo_bounds as (? & ? & ? & ? & Hcs & ?).
  destruct (accum_loop m (getData parity) chunkSize
    (λ s i, if decide (s * symbolSize ≤ i < s * symbolSize + symbolSize) then f (i - s * symbolSize) else x00) 0 (p - 1)
    (add_S symbolSize parity S) (λ _, x00) m) as (m' & E & Ha); [lia|by apply accum_refl| |].
  - intros s g m1 Hs Hm1. pose proof (eo_symbol_fits s Hs).
    destruct (accum_xor m (getData parity) chunkSize g m1 (s * symbolSize) symbolSize S) as [_ (m2 & E & Hm2)];
      [done|done|lia|lia|lia|by eapply region_is_valid|by left|].
    exists m2. split; [done|]. eapply accum_ext; [|exact Hm2]. intros i Hi. unfold add_part, bxor_fun. f_equal.
    case_decide; [|done]. by rewrite (region_is_mbyte _ _ _ _ _ HS) by lia.
  - exists m'. split; [done|]. eapply accum_ext; [|exact Ha]. intros i Hi. rewrite (left_id x00 bxor).
    assert (Hd : 0 ≤ i / symbolSize < p - 1).
    { split; [apply Z.div_pos; lia|]. apply Z.div_lt_upper_bound; [lia|]. rewrite Z.mul_comm. lia. }
    pose proof (Z.div_mod i symbolSize ltac:(lia)) as Hdm. pose proof (Z.mod_pos_bound i symbolSize ltac:(lia)) as Hr.
    rewrite (xsum_ext _ _ (λ s, if decide (s = i / symbolSize) then f (i mod symbolSize) else x00)).
    + apply xsum_single; [apply NoDup_seqZ|apply elem_of_seqZ; lia].
    + intros s _. set (q := i / symbolSize) in *. set (t := i mod symbolSize) in *. clearbody q t. subst i.
      destruct (decide (s = q)) as [->|Hne].
      * rewrite decide_True by lia. f_equal. lia.
      * rewrite decide_False; [done|]. intros Hin. apply Hne. nia.
Qed.

(** Encoding the diagonal parity. *)
Lemma eo_encode_diag_ok m data parity startOff endOff D :
  stripe_is chunkSize m data k D → chunk_is chunkSize m parity (λ _, x00) →
  (∀ c q, 0 ≤ c < k → zget data c = Some q → apart (getData parity) chunkSize (getData q) chunkSize) →
  RDPCoding.in_stripe_range k chunkSize D startOff endOff →
  ∃ m', encode k p chunkSize symbolSize junk m data parity 2 startOff endOff = Some m' ∧ same_shape m m' ∧
    chunk_is chunkSize m' parity (eo_parity k p symbolSize 2 D) ∧
    ∀ q, ¬ in_range (getData parity) chunkSize q → mget m' q = mget m q.
Proof.
  intros Hd Hz Hap Hr. destruct eo_bounds as (? & ? & ? & ? & Hcs & Hcs0 & ?).
  unfold encode. rewrite (decide_False (P := 2 = 1)) by lia. rewrite (decide_True (P := 2 = 2)) by done.
  fold (RDPCoding.range_size startOff endOff).
  destruct (malloc junk m symbolSize) as [S m1] eqn:E1.
  destruct (zero_buffer_spec junk m symbolSize S m1) as (Ho & _ & _ & _ & m2 & -> & X2 & Z2 & V2 & F2); [lia|done|].
  cbn [mbind option_bind].
  assert (Hne : ∀ q n f, region_is m q n f → 0 < n → blk q ≠ blk S) by (intros; eapply extends_by_blk; [exact X2|by eapply region_is_valid]).
  assert (Hkeep : ∀ q n f, region_is m q n f → 0 < n → region_is m2 q n f).
  { intros q n f Hq Hn i Hi. rewrite F2; [by apply Hq|]. simpl. by eapply Hne. }
  pose proof (Hkeep _ _ _ Hz ltac:(lia)) as Hz2. pose proof (Hne _ _ _ Hz ltac:(lia)) as HneP. simpl in HneP.
  destruct (eo_encode_loop_accum m2 data parity S D startOff endOff) as (m3 & -> & A3); [done|by eapply region_is_valid|done|done| |].
  { intros c Hc. destruct (Hd c Hc) as (q & Hq & Hqc). exists q. split; [done|]. split; [by eapply Hkeep|].
    split; [by eapply Hap|]. exact (Hne _ _ _ Hqc ltac:(lia)). }
  cbn [mbind option_bind]. set (fP := λ i, data_diag _ _ _ _ _ _) in A3. set (fS := λ t, data_diag _ _ _ _ _ _) in A3.
  assert (R3 : chunk_is chunkSize m3 parity fP).
  { eapply region_is_ext; [|eapply accum_at_region; [exact A3|exact Hz2]]. intros i Hi. cbv beta. rewrite (left_id x00 bxor).
    unfold two_regions. rewrite decide_True by by apply in_range_padd. f_equal. simpl. lia. }
  assert (S3 : region_is m3 S symbolSize fS).
  { eapply region_is_ext; [|eapply accum_at_region; [exact A3|exact Z2]]. intros i Hi. cbv beta. rewrite (left_id x00 bxor).
    unfold two_regions. rewrite decide_False.
    2:{ intros [Hb _]. simpl in Hb. congruence. }
    rewrite decide_True by by apply in_range_padd. f_equal. simpl. lia. }
  destruct (add_S_accum m3 parity S fS) as (m4 & -> & A4); [by eapply region_is_valid|done|done|].
  cbn [mbind option_bind].
  destruct (extends_by_free m (blk S) m4 S) as (m5 & -> & S5 & G5); [|done|done|].
  { eapply extends_by_trans; [exact X2|]. etrans; [apply A3|apply A4]. }
  exists m5. split; [done|]. split; [done|]. split.
  - intros i Hi. rewrite G5. rewrite decide_False by done.
    by rewrite (accum_region _ _ _ _ _ _ A4 R3 i Hi).
  - intros q Hq. rewrite G5. destruct (decide (blk q = blk S)) as [Hb|Hb].
    { destruct X2 as (Hnone & _). unfold mget. by rewrite Hb, Hnone. }
    rewrite (accum_frame _ _ _ _ _ _ A4 Hq). rewrite (accum_at_mbyte _ _ _ _ A3); [by apply F2|].
    unfold two_regions. rewrite decide_False by done. by rewrite decide_False by (unfold in_range; tauto).
Qed.

Lemma eo_encode_ok m data parity index startOff endOff D :
  1 ≤ index ≤ 2 →
  stripe_is chunkSize m data k D → chunk_is chunkSize m parity (λ _, x00) →
  (∀ c q, 0 ≤ c < k → zget data c = Some q → apart (getData parity) chunkSize (getData q) chunkSize) →
  RDPCoding.in_stripe_range k chunkSize D startOff endOff →
  ∃ m', encode k p chunkSize symbolSize junk m data parity index startOff endOff = Some m' ∧ same_shape m m' ∧
    chunk_is chunkSize m' parity (eo_parity k p symbolSize index D) ∧
    ∀ q, ¬ in_range (getData parity) chunkSize q → mget m' q = mget m q.
Proof.
  intros Hi Hd Hz Hap Hr. destruct eo_bounds as (? & ? & ? & ? & Hcs & Hcs0 & ?).
  destruct (decide (index = 1)) as [->|]; [|assert (index = 2) as -> by lia; by apply eo_encode_diag_ok].
  unfold encode. rewrite (decide_True (P := 1 = 1)) by done.
  destruct (RAID5Coding.r5_encode_ok (k + 1) chunkSize ltac:(lia) Hcs0 m data parity 1 0 0 D) as (m' & E & S' & C' & F').
  { by replace (k + 1 - 1) with k by lia. }
  { done. }
  { by replace (k + 1 - 1) with k by lia. }
  exists m'. split; [done|]. split; [done|]. split; [|done]. eapply region_is_ext; [|exact C'].
  intros i Hi'. unfold eo_parity. rewrite decide_True by done. f_equal. lia.
Qed.

(** *** Repairing along a diagonal *)
Lemma eo_parity_sym D d t : 0 ≤ t < symbolSize →
  eo_parity k p symbolSize 2 D (d * symbolSize + t) = bxor (data_diag k p symbolSize D d t) (data_diag k p symbolSize D (p - 1) t).
Proof.
  intros Ht. unfold eo_parity. rewrite decide_False by lia. rewrite Z.div_add_l by lia. rewrite Z.div_small, Z.add_0_r by lia.
  by rewrite Z.add_comm, Z.mod_add, Z.mod_small by lia.
Qed.

Section repair.
Variables (chunks : list ptr) (ch : Z → ptr) (lost : Z → Prop) (D : data_t) (m0 : mem) (S : ptr).
Hypothesis (Hch : ∀ c, 0 ≤ c < k + 2 → zget chunks c = Some (ch c)).
Hypothesis (Hlk : ∀ c, lost c → 0 ≤ c < k + 1).
Hypothesis (Hap : ∀ i j, 0 ≤ i < k + 2 → 0 ≤ j < k + 2 → i ≠ j → lost i → apart (getData (ch i)) chunkSize (getData (ch j)) chunkSize).
Hypothesis (HS : region_is m0 S symbolSize (data_diag k p symbolSize D (p - 1))).
Hypothesis (HSb : ∀ c, 0 ≤ c < k + 2 → blk (getData (ch c)) ≠ blk S).
Let hold := holds (k + 2) p symbolSize ch lost m0.

Lemma S_kept m g : hold m g → region_is m S symbolSize (data_diag k p symbolSize D (p - 1)).
Proof.
  intros (_ & _ & Hfr) i Hi. rewrite Hfr; [by apply HS|]. intros c Hc _ [Hb _]. by apply (HSb c Hc).
Qed.

Lemma diag_repair g L d s m body :
  lost L → 0 ≤ L < k → 0 ≤ d < p → s = (d - L) mod p → s ≠ p - 1 →
  (∀ c t, 0 ≤ c < k → c ≠ L → let s' := (d - c) mod p in s' ≠ p - 1 → 0 ≤ t < symbolSize →
     g c (s' * symbolSize + t) = D c (s' * symbolSize + t)) →
  (∀ t, 0 ≤ t < symbolSize → g L (s * symbolSize + t) = x00) →
  (d ≠ p - 1 → ∀ t, 0 ≤ t < symbolSize → g (k + 1) (d * symbolSize + t) = eo_parity k p symbolSize 2 D (d * symbolSize + t)) →
  hold m g →
  (∀ m1, body L m1 = Some m1) →
  (∀ c m1, 0 ≤ c < k → c ≠ L → let s' := (d - c) mod p in
     body c m1 = if decide (s' = p - 1) then Some m1
                 else bitwiseXOR m1 (sym symbolSize ch L s) (sym symbolSize ch c s') (sym symbolSize ch L s) symbolSize) →
  let F := sym symbolSize ch L s in
  ∃ m1 m2 m3, for_range 0 k body m = Some m1 ∧
    (if decide (d ≠ p - 1) then
       pc ← zget chunks (k + 1); bitwiseXOR m1 F (in_chunk pc (d * symbolSize)) F symbolSize
     else Some m1) = Some m2 ∧
    bitwiseXOR m2 F S F symbolSize = Some m3 ∧
    hold m3 (upd_sym symbolSize g L s (λ t, D L (s * symbolSize + t))).
Proof.
  intros HL HLk Hd Hs Hsl Hg Hz Hpg Hm HbL Hbc F. destruct eo_bounds as (? & ? & ? & ? & Hcs & ? & ? & H32 & ? & ?).
  pose proof (Z.mod_pos_bound (d - L) p ltac:(lia)) as Hsr. rewrite <- Hs in Hsr.
  set (h := λ c t, if decide (c = L) then x00 else let s' := (d - c) mod p in
              if decide (s' = p - 1) then x00 else D c (s' * symbolSize + t)).
  destruct (holds_loop (k + 2) p symbolSize ch lost m0 m g L s k h body ltac:(lia) Hm) as (m1 & E1 & Hm1).
  { intros c m1 g1 Hc Hm1 Hsame. unfold h. destruct (decide (c = L)) as [->|HcL].
    - rewrite HbL. exists m1. split; [done|]. eapply holds_ext; [|exact Hm1]. intros c i _ _. unfold upd_sym.
      case_decide as Hin; [|done]. rewrite (left_id x00 bxor). destruct Hin as [-> ?]. f_equal. lia.
    - rewrite Hbc by done. cbv zeta. set (s' := (d - c) mod p) in *.
      pose proof (Z.mod_pos_bound (d - c) p ltac:(lia)) as Hs'. fold s' in Hs'.
      destruct (decide (s' = p - 1)) as [|Hne].
      + exists m1. split; [done|]. eapply holds_ext; [|exact Hm1]. intros c' i _ _. unfold upd_sym.
        case_decide as Hin; [|done]. rewrite (left_id x00 bxor). destruct Hin as [-> ?]. f_equal. lia.
      + destruct (holds_xor_sym (k + 2) p symbolSize ch lost m0 ltac:(lia) ltac:(lia) ltac:(rewrite <- Hcs; exact Hap) m1 g1 L s c s' Hm1)
          as (m2 & E2 & Hm2); [lia|done|lia|lia|lia|by left|].
        exists m2. split; [done|]. eapply holds_ext; [|exact Hm2]. intros c' i _ _. apply upd_sym_cong; [|done].
        intros t Ht. f_equal. rewrite Hsame by tauto. by apply Hg. }
  set (X := λ t, xsum (seqZ 0 k) (λ c, h c t)) in *.
  assert (Hdsum : ∀ t, data_diag k p symbolSize D d t = bxor (D L (s * symbolSize + t)) (X t)).
  { intros t. unfold data_diag. rewrite (diagonal_remove k p _ d L) by (rewrite <- ?Hs; lia). by rewrite <- Hs. }
  (* the diagonal parity *)
  set (pv := λ t, if decide (d = p - 1) then x00 else eo_parity k p symbolSize 2 D (d * symbolSize + t)).
  assert (Hpar : ∃ m2, (if decide (d ≠ p - 1) then
       pc ← zget chunks (k + 1); bitwiseXOR m1 F (in_chunk pc (d * symbolSize)) F symbolSize
     else Some m1) = Some m2 ∧ hold m2 (upd_sym symbolSize g L s (λ t, bxor (pv t) (X t)))).
  { unfold pv. destruct (decide (d = p - 1)) as [Hdl|Hdl].
    - rewrite decide_False by tauto. exists m1. split; [done|]. eapply holds_ext; [|exact Hm1]. intros c i _ _.
      apply upd_sym_cong; [|done]. intros t Ht. rewrite Hz by done. by rewrite (right_id x00 bxor), (left_id x00 bxor).
    - rewrite decide_True by done. rewrite Hch by lia. cbn [mbind option_bind].
      destruct (holds_xor_sym (k + 2) p symbolSize ch lost m0 ltac:(lia) ltac:(lia) ltac:(rewrite <- Hcs; exact Hap) m1 _ L s (k + 1) d Hm1)
        as (m2 & E2 & Hm2); [lia|done|lia|lia|lia|left; lia|].
      exists m2. split; [exact E2|]. eapply holds_ext; [|exact Hm2]. intros c i _ _. apply upd_sym_cong.
      + intros t Ht. rewrite upd_sym_ne by (done || lia). rewrite upd_sym_eq by done. rewrite Hz, Hpg by done. by rewrite (right_id x00 bxor).
      + intros Hn. unfold upd_sym. by rewrite decide_False. }
  destruct Hpar as (m2 & E2 & Hm2).
  destruct (holds_xor (k + 2) p symbolSize ch lost m0 ltac:(lia) ltac:(lia) ltac:(rewrite <- Hcs; exact Hap) m2 _ L s S (data_diag k p symbolSize D (p - 1)) Hm2)
    as (m3 & E3 & Hm3); [lia|done|lia|by eapply S_kept|left; apply HSb; lia|].
  exists m1, m2, m3. split_and!; [done..|]. eapply holds_ext; [|exact Hm3]. intros c i _ _. apply upd_sym_cong.
  - intros t Ht. rewrite upd_sym_eq by done.
    transitivity (bxor (data_diag k p symbolSize D d t) (X t)); [|by rewrite Hdsum, <- (assoc bxor), bxor_nilp, (right_id x00 bxor)].
    rewrite (assoc bxor). f_equal. unfold pv. destruct (decide (d = p - 1)) as [->|]; [by rewrite (right_id x00 bxor)|].
    rewrite eo_parity_sym by done. apply bxor_absorb.
  - intros Hn. unfold upd_sym. by rewrite decide_False.
Qed.
End repair.

(** *** Recovering [S] *)
Lemma eo_sum_of_parities D t : 0 ≤ t < symbolSize →
  xsum (seqZ 0 (p - 1)) (λ j, bxor (RAID5Coding.row_parity k D (j * symbolSize + t)) (eo_parity k p symbolSize 2 D (j * symbolSize + t))) =
  data_diag k p symbolSize D (p - 1) t.
Proof.
  intros Ht. destruct eo_bounds as (? & ? & ? & ? & Hcs & ?). rewrite xsum_bxor.
  set (A := xsum (seqZ 0 (p - 1)) (λ d, data_diag k p symbolSize D d t)).
  assert (Hrow : xsum (seqZ 0 (p - 1)) (λ j, RAID5Coding.row_parity k D (j * symbolSize + t)) = bxor A (data_diag k p symbolSize D (p - 1) t)).
  { unfold RAID5Coding.row_parity. rewrite xsum_swap. rewrite <- (diagonals_total k p (λ c s, D c (s * symbolSize + t))) by lia.
    replace p with (p - 1 + 1) at 1 by lia. by rewrite xsum_seqZ_snoc by lia. }
  assert (Hpar : xsum (seqZ 0 (p - 1)) (λ j, eo_parity k p symbolSize 2 D (j * symbolSize + t)) = A).
  { rewrite (xsum_ext _ _ (λ j, bxor (data_diag k p symbolSize D j t) (data_diag k p symbolSize D (p - 1) t)))
      by (intros; by apply eo_parity_sym). rewrite xsum_bxor. fold A.
    destruct (odd_prime_half p) as [n Hn]; [apply Hok|apply (eo_odd _ _ _ _ Hok)|]. rewrite Hn at 1. rewrite xsum_const_even.
    apply (right_id x00 bxor). }
  rewrite Hrow, Hpar. rewrite (comm bxor (bxor A _)). apply bxor_cancel.
Qed.

Lemma apart_blk P n q n' : blk q ≠ blk P → apart P n q n'.
Proof. intros Hb. left. congruence. Qed.

(** Symbol [s] of a chunk of known contents. *)
Lemma chunk_symbol m c f s : chunk_is chunkSize m c f → 0 ≤ s < p - 1 →
  region_is m (in_chunk c (s * symbolSize)) symbolSize (λ t, f (s * symbolSize + t)).
Proof.
  intros Hc Hs t Ht. unfold in_chunk. rewrite padd_padd. apply Hc. pose proof (eo_symbol_fits s Hs). lia.
Qed.

Section recover_S.
Variables (chunks : list ptr) (S : ptr) (D : data_t) (m1 : mem) (rc pc : ptr).
Hypothesis (Hpc : zget chunks (k + 1) = Some pc) (HcP : chunk_is chunkSize m1 pc (eo_parity k p symbolSize 2 D)) (HbP : blk pc ≠ blk S).
Hypothesis (HvS : valid m1 S symbolSize).

Lemma collect_S_ok :
  zget chunks k = Some rc → chunk_is chunkSize m1 rc (RAID5Coding.row_parity k D) → blk rc ≠ blk S →
  ∃ m2 m3 m4, memcpy m1 S (getData rc) symbolSize = Some m2 ∧ bitwiseXOR m2 S (getData pc) S symbolSize = Some m3 ∧
    for_range 1 (p - 1) (collect_S_step k symbolSize chunks S) m3 = Some m4 ∧ same_shape m1 m4 ∧
    region_is m4 S symbolSize (data_diag k p symbolSize D (p - 1)) ∧
    ∀ q, ¬ in_range S symbolSize q → mget m4 q = mget m1 q.
Proof.
  intros Hrc HcR HbR. destruct eo_bounds as (? & ? & ? & ? & Hcs & ?).
  set (rp := RAID5Coding.row_parity k D) in *. set (dp := eo_parity k p symbolSize 2 D) in *.
  pose proof (chunk_symbol _ _ _ 0 HcR ltac:(lia)) as HR0. unfold in_chunk in HR0. rewrite Z.mul_0_l, padd_0 in HR0.
  destruct (memcpy_region m1 S (getData rc) symbolSize _ HR0 HvS ltac:(by apply apart_blk) ltac:(lia)) as (m2 & E2 & S2 & Z2 & F2).
  assert (Hkeep : ∀ c f, blk c ≠ blk S → chunk_is chunkSize m1 c f → chunk_is chunkSize m2 c f).
  { intros c f Hb Hc i Hi. rewrite F2; [by apply Hc|]. intros [Hb' _]. by apply Hb. }
  pose proof (Hkeep _ _ HbR HcR) as HcR2. pose proof (Hkeep _ _ HbP HcP) as HcP2.
  assert (HvS2 : valid m2 S symbolSize) by by rewrite <- S2.
  pose proof (chunk_symbol _ _ _ 0 HcP2 ltac:(lia)) as HP0. unfold in_chunk in HP0. rewrite Z.mul_0_l, padd_0 in HP0.
  destruct (accum_whole m2 S symbolSize (λ _, x00) m2 (getData pc) _ (accum_refl _ _ _ _ ltac:(done) HvS2) HvS2 ltac:(lia) HP0 ltac:(by apply apart_blk))
    as (m3 & E3 & A3).
  destruct (accum_loop m2 S symbolSize (λ j t, bxor (rp (j * symbolSize + t)) (dp (j * symbolSize + t))) 1 (p - 1)
    (collect_S_step k symbolSize chunks S) _ m3 ltac:(lia) A3) as (m4 & E4 & A4).
  { intros j f m Hj Hm. unfold collect_S_step. rewrite Hrc, Hpc. cbn [mbind option_bind].
    destruct (accum_whole m2 S symbolSize f m (in_chunk rc (j * symbolSize)) _ Hm HvS2 ltac:(lia) (chunk_symbol _ _ _ j HcR2 ltac:(lia)) ltac:(by apply apart_blk))
      as (m5 & -> & A5). cbn [mbind option_bind].
    destruct (accum_whole m2 S symbolSize _ m5 (in_chunk pc (j * symbolSize)) _ A5 HvS2 ltac:(lia) (chunk_symbol _ _ _ j HcP2 ltac:(lia)) ltac:(by apply apart_blk))
      as (m6 & -> & A6). exists m6. split; [done|]. eapply accum_ext; [|exact A6]. intros t _. unfold bxor_fun. by rewrite (assoc bxor). }
  exists m2, m3, m4. split_and!; [done..|etrans; [exact S2|apply A4]| |].
  - eapply region_is_ext; [|eapply accum_region; [exact A4|exact Z2]]. intros t Ht. cbv beta. unfold bxor_fun.
    rewrite <- eo_sum_of_parities by done. rewrite (left_id x00 bxor).
    rewrite (seqZ_cons 0) by lia. simpl. by rewrite (assoc bxor).
  - intros q Hq. rewrite (accum_frame _ _ _ _ _ _ A4 Hq). by apply F2.
Qed.

Lemma diag_of_lost f0 : 0 ≤ f0 < k → (f0 - 1 - f0) mod p = p - 1.
Proof.
  intros. destruct eo_bounds as (? & ? & ? & ? & Hcs & ?). replace (f0 - 1 - f0) with (p - 1 + (-1) * p) by ring.
  rewrite Z.mod_add by lia. apply Z.mod_small. lia.
Qed.

Lemma recover_S_ok f0 d :
  0 ≤ f0 < k → d = (f0 - 1) mod p → region_is m1 S symbolSize (λ _, x00) →
  (∀ c, 0 ≤ c < k → c ≠ f0 → ∃ q, zget chunks c = Some q ∧ chunk_is chunkSize m1 q (D c) ∧ blk q ≠ blk S) →
  ∃ m2 m3, for_range 0 k (recover_S_step p symbolSize chunks S f0 d) m1 = Some m2 ∧
    (if decide (d ≠ p - 1) then
       pc ← zget chunks (k + 1); bitwiseXOR m2 S (in_chunk pc (d * symbolSize)) S symbolSize
     else Some m2) = Some m3 ∧ same_shape m1 m3 ∧
    region_is m3 S symbolSize (data_diag k p symbolSize D (p - 1)) ∧
    ∀ q, ¬ in_range S symbolSize q → mget m3 q = mget m1 q.
Proof.
  intros Hf Hd HZ Hc. destruct eo_bounds as (? & ? & ? & ? & Hcs & ? & ? & H32 & ? & ?).
  pose proof (Z.mod_pos_bound (f0 - 1) p ltac:(lia)) as Hdr. rewrite <- Hd in Hdr.
  set (h := λ c t, if decide (c = f0) then x00 else D c ((d - c) mod p * symbolSize + t)).
  assert (Hrow : ∀ c, 0 ≤ c < k → (d - c) mod p = p - 1 ↔ c = f0).
  { intros c Hcr. rewrite Hd, Zminus_mod_idemp_l. split; [|intros ->; by apply diag_of_lost].
    rewrite <- (diag_of_lost f0) by done. intros He. apply mod_shift_eq in He as [z Hz]; [|lia].
    assert (z = 0) by (apply (small_mult p); lia). lia. }
  destruct (accum_loop m1 S symbolSize h 0 k (recover_S_step p symbolSize chunks S f0 d) (λ _, x00) m1)
    as (m2 & E2 & A2); [lia|by apply accum_refl| |].
  { intros c f m Hcr Hm. unfold recover_S_step, h. destruct (decide (c = f0)) as [->|Hne].
    - exists m. split; [done|]. eapply accum_ext; [|exact Hm]. intros t _. unfold bxor_fun. by rewrite (right_id x00 bxor).
    - destruct (Hc c Hcr Hne) as (q & Hq & Hqc & Hqb). rewrite Hq. cbn [mbind option_bind]. rewrite u32_small by lia.
      replace (d + p - c) with (d - c + 1 * p) by lia. rewrite Z.mod_add by lia.
      pose proof (Hrow c Hcr) as Hiff. pose proof (Z.mod_pos_bound (d - c) p ltac:(lia)).
      destruct (accum_whole m1 S symbolSize f m (in_chunk q ((d - c) mod p * symbolSize)) _ Hm HvS ltac:(lia)
        (chunk_symbol _ _ _ ((d - c) mod p) Hqc ltac:(lia)) ltac:(by apply apart_blk)) as (m' & -> & A'). by exists m'. }
  assert (Hsum : ∀ t, xsum (seqZ 0 (k - 0)) (λ c, h c t) = data_diag k p symbolSize D d t).
  { intros t. rewrite Z.sub_0_r. unfold data_diag, diagonal. apply xsum_ext. intros c Hcr%elem_of_seqZ. unfold h. cbv zeta.
    pose proof (Hrow c ltac:(lia)) as Hiff. destruct (decide (c = f0)); [by rewrite decide_True by tauto|by rewrite decide_False by tauto]. }
  assert (Hdp : ∃ m3, (if decide (d ≠ p - 1) then
       pc ← zget chunks (k + 1); bitwiseXOR m2 S (in_chunk pc (d * symbolSize)) S symbolSize
     else Some m2) = Some m3 ∧ accum m1 S symbolSize (data_diag k p symbolSize D (p - 1)) m3).
  { destruct (decide (d = p - 1)) as [Hdl|Hdl].
    - rewrite decide_False by tauto. exists m2. split; [done|]. eapply accum_ext; [|exact A2]. intros t _. cbv beta.
      rewrite (left_id x00 bxor), Hsum. by rewrite Hdl.
    - rewrite decide_True by done. rewrite Hpc. cbn [mbind option_bind].
      destruct (accum_whole m1 S symbolSize _ m2 (in_chunk pc (d * symbolSize)) _ A2 HvS ltac:(lia)
        (chunk_symbol _ _ _ d HcP ltac:(lia)) ltac:(by apply apart_blk)) as (m3 & E3 & A3).
      exists m3. split; [exact E3|]. eapply accum_ext; [|exact A3]. intros t Ht. unfold bxor_fun.
      rewrite (left_id x00 bxor), Hsum, eo_parity_sym by done. apply bxor_cancel. }
  destruct Hdp as (m3 & E3 & A3). exists m2, m3. split_and!; [done..|apply A3| |intros; by eapply accum_frame].
  eapply region_is_ext; [|by eapply accum_region]. intros t _. cbv beta. apply (left_id x00 bxor).
Qed.
End recover_S.

(** *** The repaired stripe *)
Lemma eo_codeword_data D c : c < k → eo_codeword k p symbolSize D c = D c.
Proof. intros. unfold eo_codeword. by rewrite decide_True. Qed.
Lemma eo_codeword_row D : eo_codeword k p symbolSize D k = RAID5Coding.row_parity k D.
Proof. unfold eo_codeword. rewrite decide_False by lia. by replace (k - k + 1) with 1 by lia. Qed.
Lemma eo_codeword_diag D : eo_codeword k p symbolSize D (k + 1) = eo_parity k p symbolSize 2 D.
Proof. unfold eo_codeword. rewrite decide_False by lia. by replace (k + 1 - k + 1) with 2 by lia. Qed.

Lemma eo_row_sum D i : xsum (seqZ 0 (k + 1)) (λ c, eo_codeword k p symbolSize D c i) = x00.
Proof.
  destruct eo_bounds as (? & _). rewrite xsum_seqZ_snoc by lia. rewrite eo_codeword_row.
  rewrite (xsum_ext _ _ (λ c, D c i)); [apply bxor_nilp|]. intros c Hc%elem_of_seqZ. by rewrite eo_codeword_data by lia.
Qed.

(** Releasing the buffer of [S] at the end of a repair. *)
Lemma free_S m S m2 (ch : Z → ptr) (lost : Z → Prop) m4 g :
  extends_by m (blk S) m2 → off S = 0 → (∀ q, blk q ≠ blk S → mget m2 q = mget m q) →
  (∀ c, 0 ≤ c < k + 2 → blk (getData (ch c)) ≠ blk S) →
  holds (k + 2) p symbolSize ch lost m2 m4 g →
  ∃ m5, mfree m4 S = Some m5 ∧ same_shape m m5 ∧ (∀ c, 0 ≤ c < k + 2 → chunk_is chunkSize m5 (ch c) (g c)) ∧
    ∀ q, (∀ c, 0 ≤ c < k + 2 → lost c → ¬ in_range (getData (ch c)) chunkSize q) → mget m5 q = mget m q.
Proof.
  intros HX Ho F2 Hb (S4 & C4 & F4). destruct eo_bounds as (? & ? & ? & ? & Hcs & ?).
  destruct (extends_by_free m (blk S) m4 S) as (m5 & -> & S5 & G5); [by eapply extends_by_trans|done|done|].
  exists m5. split_and!; [done..| |].
  - intros c Hc i Hi. rewrite G5. rewrite decide_False by by apply Hb. apply C4; [done|lia].
  - intros q Hq. rewrite G5. destruct (decide (blk q = blk S)) as [Hqb|Hqb].
    + destruct HX as (Hnone & _). unfold mget. by rewrite Hqb, Hnone.
    + rewrite F4; [by apply F2|]. rewrite <- Hcs. done.
Qed.

Section lost_data.
Variables (chunks : list ptr) (ch : Z → ptr) (a b : Z) (D : data_t).
Hypothesis (Hab : 0 ≤ a < b ∧ b ≤ k).
Hypothesis (Hch : ∀ c, 0 ≤ c < k + 2 → zget chunks c = Some (ch c)).
Let lost (c : Z) : Prop := c = a ∨ c = b.
Let cw := eo_codeword k p symbolSize D.
Let zeroed (c : Z) : Z → byte := if decide (c = a ∨ c = b) then λ _, x00 else cw c.
Hypothesis (Hap : ∀ i j, 0 ≤ i < k + 2 → 0 ≤ j < k + 2 → i ≠ j → lost i → apart (getData (ch i)) chunkSize (getData (ch j)) chunkSize).

Lemma lost_le c : lost c → 0 ≤ c < k + 1.
Proof. intros [-> | ->]; lia. Qed.

Lemma u32_pred_mod f : 0 ≤ f < k → u32 (u32 (f - 1) + p) mod p = (f - 1) mod p.
Proof.
  intros. destruct eo_bounds as (? & ? & ? & ? & Hcs & ? & ? & H32 & ? & ?).
  assert (He : u32 (u32 (f - 1) + p) = f - 1 + p).
  { unfold u32. rewrite Zplus_mod_idemp_l. apply Z.mod_small. lia. }
  rewrite He. replace (f - 1 + p) with (f - 1 + 1 * p) by lia. by rewrite Z.mod_add by lia.
Qed.

(** *** One data chunk and the row parity *)
Section data_row.
Variables (m2 : mem) (S : ptr).
Hypothesis (Hbk : b = k).
Hypothesis (HS : region_is m2 S symbolSize (data_diag k p symbolSize D (p - 1))).
Hypothesis (HSb : ∀ c, 0 ≤ c < k + 2 → blk (getData (ch c)) ≠ blk S).
Let hold := holds (k + 2) p symbolSize ch lost m2.

(** The first [n] symbols of the data chunk are repaired. *)
Definition rows_done (n : Z) : data_t :=
  λ c i, if decide (c = a ∧ i < n * symbolSize) then D a i else zeroed c i.

Lemma rows_done_sym n c s t :
  0 ≤ s < p - 1 → 0 ≤ t < symbolSize → rows_done n c (s * symbolSize + t) =
    if decide (c = a ∧ s < n) then D a (s * symbolSize + t) else zeroed c (s * symbolSize + t).
Proof.
  intros Hs Ht. unfold rows_done. destruct (decide (c = a ∧ s < n)) as [[-> Hn]|Hn].
  - rewrite decide_True; [done|]. split; [done|nia].
  - rewrite decide_False; [done|]. intros [-> Hl]. apply Hn. split; [done|]. nia.
Qed.

Lemma zeroed_other c i : c ≠ a → c ≠ b → zeroed c i = cw c i.
Proof. intros. unfold zeroed. by rewrite decide_False by tauto. Qed.

Lemma repair_data_symbol_holds s m :
  0 ≤ s < p - 1 → hold m (rows_done s) →
  ∃ m', repair_data_symbol k p symbolSize chunks S a s m = Some m' ∧ hold m' (rows_done (s + 1)).
Proof.
  intros Hs Hm. destruct eo_bounds as (? & ? & ? & ? & Hcs & ? & ? & H32 & ? & ?).
  unfold repair_data_symbol. rewrite (Hch a) by lia. cbn [mbind option_bind]. rewrite (u32_small (a + s)) by lia.
  set (d := (a + s) mod p). pose proof (Z.mod_pos_bound (a + s) p ltac:(lia)) as Hd. fold d in Hd.
  assert (Hsd : s = (d - a) mod p).
  { unfold d. rewrite Zminus_mod_idemp_l. replace (a + s - a) with s by lia. symmetry. apply Z.mod_small. lia. }
  destruct (diag_repair chunks ch lost D m2 S Hch Hap HS HSb (rows_done s) a d s m
    (repair_row_step p symbolSize chunks (sym symbolSize ch a s) a d)) as (m3 & m4 & m5 & E3 & E4 & E5 & Hm5);
    [by left|lia|done|done|lia| | | |done| | |].
  - intros c t Hc Hca s' Hs' Ht. pose proof (Z.mod_pos_bound (d - c) p ltac:(lia)) as Hr. fold s' in Hr.
    rewrite rows_done_sym by lia. rewrite decide_False by tauto. rewrite zeroed_other by lia.
    unfold cw. by rewrite eo_codeword_data by lia.
  - intros t Ht. rewrite rows_done_sym by lia. rewrite decide_False by lia. unfold zeroed. by rewrite decide_True by (by left).
  - intros Hdl t Ht. rewrite rows_done_sym by lia. rewrite decide_False by lia. rewrite zeroed_other by lia.
    unfold cw. by rewrite eo_codeword_diag.
  - intros m1. unfold repair_row_step. by rewrite decide_True.
  - intros c m1 Hc Hca s'. unfold repair_row_step. rewrite decide_False by done. rewrite u32_small by lia.
    replace (d + p - c) with (d - c + 1 * p) by lia. rewrite Z.mod_add by lia. fold s'.
    pose proof (Z.mod_pos_bound (d - c) p ltac:(lia)) as Hr. fold s' in Hr.
    destruct (decide (s' = p - 1)) as [|]; [by rewrite decide_True by lia|]. rewrite decide_False by lia. by rewrite Hch by lia.
  - unfold in_chunk in *. unfold sym in E3, E4, E5. rewrite E3. cbn [mbind option_bind]. rewrite E4. cbn [mbind option_bind]. rewrite E5. exists m5. split; [done|].
    eapply holds_ext; [|exact Hm5]. intros c i Hc Hi. unfold upd_sym, rows_done.
    destruct (decide (c = a ∧ s * symbolSize ≤ i < s * symbolSize + symbolSize)) as [[-> Hin]|Hin].
    + rewrite decide_True by lia. f_equal. lia.
    + destruct (decide (c = a ∧ i < s * symbolSize)) as [[-> Hlt]|Hlt]; [by rewrite decide_True by lia|].
      rewrite decide_False; [done|]. intros [-> ?]. assert (i < s * symbolSize ∨ s * symbolSize ≤ i < s * symbolSize + symbolSize) by lia. tauto.
Qed.

Lemma repair_rows_holds m :
  hold m zeroed →
  ∃ m', for_range 0 (p - 1) (repair_data_symbol k p symbolSize chunks S a) m = Some m' ∧ hold m' (λ c, if decide (c = b) then λ _, x00 else cw c).
Proof.
  intros Hm. destruct eo_bounds as (? & ? & ? & ? & Hcs & ? & ? & H32 & ? & ?).
  destruct (for_range_inv (λ s m, hold m (rows_done s)) 0 (p - 1) (repair_data_symbol k p symbolSize chunks S a) m) as (m' & E & Hm').
  - lia.
  - intros s m1 Hs. by apply repair_data_symbol_holds.
  - eapply holds_ext; [|exact Hm]. intros c i Hc Hi. unfold rows_done. rewrite decide_False by lia. done.
  - exists m'. split; [done|]. eapply holds_ext; [|exact Hm']. intros c i Hc Hi. unfold rows_done.
    destruct (decide (c = a ∧ i < (p - 1) * symbolSize)) as [[-> Hl]|Hn].
    + rewrite decide_False by lia. unfold cw. by rewrite eo_codeword_data by lia.
    + unfold zeroed. destruct (decide (c = b)) as [->|]; [by rewrite decide_True by (by right)|].
      rewrite decide_False; [done|]. intros [->|?]; [|done]. apply Hn. split; [done|lia].
Qed.
End data_row.

(** *** Two data chunks *)
Section two_data.
Variables (m2 : mem) (S : ptr).
Hypothesis (Hbk : b < k).
Hypothesis (HS : region_is m2 S symbolSize (data_diag k p symbolSize D (p - 1))).
Hypothesis (HSb : ∀ c, 0 ≤ c < k + 2 → blk (getData (ch c)) ≠ blk S).
Let hold := holds (k + 2) p symbolSize ch lost m2.

(** The given rows of the lost chunks are repaired, the others zero. *)
Definition repaired (rows : Z → Prop) (g : data_t) : Prop :=
  (∀ c i, 0 ≤ c < k + 2 → ¬ lost c → 0 ≤ i < chunkSize → g c i = cw c i) ∧
  (∀ c s t, lost c → 0 ≤ s < p - 1 → 0 ≤ t < symbolSize →
     (rows s → g c (s * symbolSize + t) = cw c (s * symbolSize + t)) ∧
     (¬ rows s → g c (s * symbolSize + t) = x00)).

Lemma repaired_ext rows rows' g : (∀ s, rows s ↔ rows' s) → repaired rows g → repaired rows' g.
Proof.
  intros Heq [Hg1 Hg2]. split; [done|]. intros c s t Hl Hs Ht. destruct (Hg2 c s t Hl Hs Ht). rewrite <- (Heq s). done.
Qed.

Lemma zigzag_round_holds rows g d s m :
  repaired rows g → 0 ≤ d < p → s = (d - b) mod p → s ≠ p - 1 → ¬ rows s →
  (let r := (d - a) mod p in r = p - 1 ∨ rows r) → hold m g →
  ∃ m' g', zigzag_round k p symbolSize chunks S a b (d, s, m) = Some ((a + s) mod p, ((a + s) mod p - b) mod p, m') ∧
    hold m' g' ∧ repaired (λ x, rows x ∨ x = s) g'.
Proof.
  intros [Hg1 Hg2] Hd Hsd Hsl Hns Hr Hm. destruct eo_bounds as (? & ? & ? & ? & Hcs & ? & ? & H32 & ? & ?).
  pose proof (Z.mod_pos_bound (d - b) p ltac:(lia)) as Hs. rewrite <- Hsd in Hs.
  assert (Hla : lost a) by by left. assert (Hlb : lost b) by by right.
  assert (Hkept : ∀ c s' t, 0 ≤ c < k + 2 → c ≠ a → c ≠ b → 0 ≤ s' < p - 1 → 0 ≤ t < symbolSize →
    g c (s' * symbolSize + t) = cw c (s' * symbolSize + t)).
  { intros c s' t Hc Hca Hcb Hs' Ht. pose proof (eo_symbol_fits s' Hs'). apply Hg1; [done| |lia]. intros [?|?]; done. }
  unfold zigzag_round. rewrite (Hch b) by lia. cbn [mbind option_bind].
  (* the symbol of [b] on the diagonal *)
  destruct (diag_repair chunks ch lost D m2 S Hch Hap HS HSb g b d s m
    (zigzag_diag_step p symbolSize chunks (sym symbolSize ch b s) b d s)) as (m3 & m4 & m5 & E3 & E4 & E5 & Hm5);
    [done|lia|done|done|done| | | |done| | |].
  { intros c t Hc Hcb s' Hs' Ht. pose proof (Z.mod_pos_bound (d - c) p ltac:(lia)) as Hsr. fold s' in Hsr.
    destruct (decide (c = a)) as [->|Hca].
    - destruct Hr as [?|Hrow]; [done|]. destruct (Hg2 a s' t Hla ltac:(lia) Ht) as [Ha _]. rewrite Ha by done.
      unfold cw. by rewrite eo_codeword_data by lia.
    - rewrite Hkept by (done || lia). unfold cw. by rewrite eo_codeword_data by lia. }
  { intros t Ht. by apply (Hg2 b s t Hlb ltac:(lia) Ht). }
  { intros Hdl t Ht. rewrite Hkept by lia. unfold cw. by rewrite eo_codeword_diag. }
  { intros m1. unfold zigzag_diag_step. by rewrite decide_True. }
  { intros c m1 Hc Hcb s'. unfold zigzag_diag_step. rewrite decide_False by done. rewrite u32_small by lia.
    replace (p + d - c) with (d - c + 1 * p) by lia. rewrite Z.mod_add by lia. fold s'.
    assert (Hss : s' ≠ s).
    { unfold s'. rewrite Hsd. intros He. apply mod_shift_eq in He as [z Hz]; [|lia].
      assert (z = 0) by (apply (small_mult p); lia). lia. }
    destruct (decide (s' = p - 1)) as [Hl|Hl]; [by rewrite decide_True by tauto|]. rewrite decide_False by tauto. by rewrite Hch by lia. }
  unfold in_chunk in *. unfold sym in E3, E4, E5. rewrite E3. cbn [mbind option_bind]. rewrite E4. cbn [mbind option_bind].
  rewrite E5. cbn [mbind option_bind]. rewrite (Hch a) by lia. cbn [mbind option_bind].
  set (g1 := upd_sym symbolSize g b s (λ t, D b (s * symbolSize + t))) in *.
  assert (Hg1row : ∀ c t, 0 ≤ c < k + 1 → c ≠ a → 0 ≤ t < symbolSize → g1 c (s * symbolSize + t) = cw c (s * symbolSize + t)).
  { intros c t Hc Hca Ht. unfold g1. destruct (decide (c = b)) as [->|Hcb].
    - rewrite upd_sym_eq by done. unfold cw. by rewrite eo_codeword_data by lia.
    - rewrite upd_sym_ne by (done || by left). apply Hkept; lia. }
  (* the symbol of [a] in the same row *)
  destruct (holds_loop (k + 2) p symbolSize ch lost m2 m5 g1 a s (k + 1)
    (λ c t, if decide (c = a) then x00 else cw c (s * symbolSize + t))
    (zigzag_row_step symbolSize chunks (getData (ch a) +ₚ s * symbolSize) a s) ltac:(lia) Hm5) as (m6 & E6 & Hm6).
  { intros c m1 g2 Hc Hm1 Hsame. unfold zigzag_row_step. destruct (decide (c = a)) as [->|Hca].
    - exists m1. split; [done|]. eapply holds_ext; [|exact Hm1]. intros c i _ _. unfold upd_sym.
      destruct (decide (c = a ∧ _)) as [Hin|]; [|done]. rewrite (left_id x00 bxor). destruct Hin as [-> ?]. f_equal. lia.
    - rewrite Hch by lia. cbn [mbind option_bind].
      destruct (holds_xor_sym (k + 2) p symbolSize ch lost m2 ltac:(lia) ltac:(lia) ltac:(rewrite <- Hcs; exact Hap) m1 g2 a s c s Hm1)
        as (m1' & E1' & Hm1'); [lia|done|lia|lia|lia|by left|].
      exists m1'. split; [exact E1'|]. eapply holds_ext; [|exact Hm1']. intros c' i _ _. apply upd_sym_cong; [|done].
      intros t Ht. f_equal. rewrite Hsame by tauto. by apply Hg1row. }
  rewrite E6. cbn [mbind option_bind]. rewrite (u32_small (a + s)) by lia.
  pose proof (Z.mod_pos_bound (a + s) p ltac:(lia)) as Hd'. set (d' := (a + s) mod p) in *. rewrite u32_small by lia.
  replace (d' + p - b) with (d' - b + 1 * p) by lia. rewrite Z.mod_add by lia.
  set (g2 := upd_sym symbolSize g1 a s (λ t, cw a (s * symbolSize + t))).
  exists m6, g2. split; [done|]. split; [|split].
  - eapply holds_ext; [|exact Hm6]. intros c i _ _. apply upd_sym_cong; [|done]. intros t Ht.
    unfold g1. rewrite upd_sym_ne by (done || (left; lia)). destruct (Hg2 a s t Hla ltac:(lia) Ht) as [_ Ha0]. rewrite Ha0 by done.
    rewrite (right_id x00 bxor). symmetry. apply bxor_eq_0.
    rewrite <- (xsum_seqZ_remove (k + 1) (λ c, cw c (s * symbolSize + t)) a) by lia. apply eo_row_sum.
  - intros c i Hc Hl Hi. unfold g2, g1, upd_sym. rewrite !decide_False; [by apply Hg1|intros [-> _]; done..].
  - intros c s' t Hl Hs' Ht. unfold g2, g1. destruct (decide (s' = s)) as [->|Hne].
    + split; [|tauto]. intros _. destruct Hl as [-> | ->]; [by rewrite upd_sym_eq|].
      rewrite upd_sym_ne by (done || (left; lia)). rewrite upd_sym_eq by done. unfold cw. by rewrite eo_codeword_data by lia.
    + rewrite !upd_sym_ne by (done || by right). destruct (Hg2 c s' t Hl Hs' Ht). split; [intros [?|?]; [auto|done]|auto].
Qed.

(** The state of the loop after [n] rounds. *)
Definition zigzag_state (n : Z) (st : Z * Z * mem) : Prop :=
  ∃ g, hold st.2 g ∧ repaired (window p (a - b) n 0) g ∧
    st.1.1 = (a + (n * (a - b) - 1)) mod p ∧ st.1.2 = ((n + 1) * (a - b) - 1) mod p.

Lemma zigzag_rounds_hold m :
  hold m zeroed →
  let d := (a - 1) mod p in
  ∃ st, for_range 0 (p - 1) (λ _, zigzag_round k p symbolSize chunks S a b) (d, (d - b) mod p, m) = Some st ∧ hold st.2 cw.
Proof.
  intros Hm d. destruct eo_bounds as (? & ? & ? & ? & Hcs & ? & ? & H32 & ? & ?).
  pose proof (eo_p _ _ _ _ Hok) as Hprime.
  assert (Hnz : (a - b) mod p ≠ 0).
  { intros Hz. apply Z.mod_divide in Hz as [w Hw]; [|lia]. assert (w = 0) by (apply (small_mult p); lia). lia. }
  assert (Hinit : (0 * (a - b) - 1) mod p = p - 1).
  { replace (0 * (a - b) - 1) with (p - 1 + (-1) * p) by ring. rewrite Z.mod_add by lia. apply Z.mod_small. lia. }
  destruct (for_range_inv zigzag_state 0 (p - 1) (λ _, zigzag_round k p symbolSize chunks S a b) (d, (d - b) mod p, m))
    as (st & E & g & Hg & Hrep & _).
  - lia.
  - intros n [[d1 s1] m1] Hn (g & Hh & Hrep & Hd1 & Hs1). cbn [fst snd] in *.
    set (x := n * (a - b) - 1) in *.
    assert (Hs1d : s1 = (d1 - b) mod p).
    { rewrite Hs1, Hd1, Zminus_mod_idemp_l. f_equal. unfold x. ring. }
    assert (Hrow : (d1 - a) mod p = x mod p).
    { rewrite Hd1, Zminus_mod_idemp_l. f_equal. ring. }
    destruct (zigzag_round_holds (window p (a - b) n 0) g d1 s1 m1) as (m' & g' & E & Hh' & Hrep'); try done.
    + rewrite Hd1. apply Z.mod_pos_bound. lia.
    + rewrite Hs1. by apply (window_next p Hprime (a - b) n).
    + rewrite Hs1. by apply (window_next p Hprime (a - b) n).
    + cbv zeta. rewrite Hrow. destruct (decide (n = 0)) as [->|]; [by left|]. right. exists n. split; [lia|done].
    + exists ((a + s1) mod p, ((a + s1) mod p - b) mod p, m'). split; [done|]. exists g'. cbn [fst snd]. split_and!; [done| | |].
      * eapply repaired_ext; [|exact Hrep']. intros y. rewrite window_grow by lia. by rewrite Hs1.
      * rewrite Hs1. rewrite Zplus_mod_idemp_r. done.
      * rewrite Hs1. rewrite Zplus_mod_idemp_r, Zminus_mod_idemp_l. f_equal. ring.
  - exists zeroed. cbn [fst snd]. split_and!; [done| | |].
    + split.
      * intros c i Hc Hl Hi. unfold zeroed. rewrite decide_False; [done|]. exact Hl.
      * intros c s t Hl Hs Ht. unfold zeroed. rewrite decide_True by exact Hl. split; [|done]. intros (y & Hy & He).
        assert (y = 0) as -> by lia. rewrite Hinit in He. lia.
    + unfold d. done.
    + unfold d. rewrite Zminus_mod_idemp_l. f_equal. ring.
  - exists st. split; [done|]. eapply holds_ext; [|exact Hg]. intros c i Hc Hi. destruct Hrep as [Hr1 Hr2].
    destruct (decide (c = a ∨ c = b)) as [Hl|Hl]; [|apply Hr1; [done|exact Hl|lia]].
    assert (Hsr : 0 ≤ i / symbolSize < p - 1).
    { split; [apply Z.div_pos; lia|]. apply Z.div_lt_upper_bound; [lia|]. rewrite Z.mul_comm. lia. }
    pose proof (Z.mod_pos_bound i symbolSize ltac:(lia)) as Ht.
    destruct (Hr2 c (i / symbolSize) (i mod symbolSize) Hl Hsr Ht) as [Hrow _].
    replace i with (i / symbolSize * symbolSize + i mod symbolSize) by (rewrite (Z.div_mod i symbolSize) at 3 by lia; lia).
    apply Hrow. destruct (window_cover p Hprime (a - b) 0 (p - 1) (i / symbolSize)) as (x & Hx & <-); [done|lia|lia|].
    exists x. split; [lia|done].
Qed.
End two_data.

(** *** The two repairs, with their buffers *)
Lemma stripe_blk m S m2 c f : extends_by m (blk S) m2 → chunk_is chunkSize m (ch c) f → blk (getData (ch c)) ≠ blk S.
Proof.
  intros HX Hc. destruct eo_bounds as (? & ? & ? & ? & Hcs & Hcs0 & _).
  eapply extends_by_blk; [exact HX|]. by eapply region_is_valid.
Qed.

Lemma data_row_ok m :
  b = k → (∀ c, 0 ≤ c < k + 2 → chunk_is chunkSize m (ch c) (zeroed c)) →
  ∃ m', decode_data_row k p chunkSize symbolSize junk m chunks a = Some m' ∧ same_shape m m' ∧
    (∀ c, 0 ≤ c < k + 2 → chunk_is chunkSize m' (ch c) (cw c)) ∧
    ∀ q, (∀ c, 0 ≤ c < k + 2 → lost c → ¬ in_range (getData (ch c)) chunkSize q) → mget m' q = mget m q.
Proof.
  intros Hbk Hm. destruct eo_bounds as (? & ? & ? & ? & Hcs & Hcs0 & ? & H32 & ? & ?).
  unfold decode_data_row. rewrite u32_pred_mod by lia.
  destruct (malloc junk m symbolSize) as [S m1] eqn:E1.
  destruct (zero_buffer_spec junk m symbolSize S m1) as (Ho & _ & _ & _ & m2 & -> & X2 & Z2 & V2 & F2); [lia|done|].
  cbn [mbind option_bind].
  assert (HSb : ∀ c, 0 ≤ c < k + 2 → blk (getData (ch c)) ≠ blk S) by (intros c Hc; by eapply stripe_blk, Hm).
  assert (Hm2 : ∀ c, 0 ≤ c < k + 2 → chunk_is chunkSize m2 (ch c) (zeroed c)).
  { intros c Hc i Hi. rewrite F2 by by apply HSb. by apply Hm. }
  assert (Hdat : ∀ c, c ≠ a → c ≠ b → 0 ≤ c < k + 2 → chunk_is chunkSize m2 (ch c) (cw c)).
  { intros c Hca Hcb Hc. pose proof (Hm2 c Hc) as Hz. unfold zeroed in Hz. by rewrite decide_False in Hz by tauto. }
  destruct (recover_S_ok chunks S D m2 (ch (k + 1)) ltac:(apply Hch; lia)) with (f0 := a) (d := (a - 1) mod p) as (m3 & m4 & E3 & E4 & S4 & HS & F4);
    [|apply HSb; lia|done|lia|done|done| |].
  { pose proof (Hdat (k + 1) ltac:(lia) ltac:(lia) ltac:(lia)) as Hc. unfold cw in Hc. by rewrite eo_codeword_diag in Hc. }
  { intros c Hc Hca. exists (ch c). split; [apply Hch; lia|]. split; [|apply HSb; lia].
    pose proof (Hdat c Hca ltac:(lia) ltac:(lia)) as Hcc. unfold cw in Hcc. by rewrite eo_codeword_data in Hcc by lia. }
  rewrite E3. cbn [mbind option_bind]. rewrite E4. cbn [mbind option_bind].
  assert (X4 : extends_by m (blk S) m4) by by eapply extends_by_trans.
  assert (F4' : ∀ q, blk q ≠ blk S → mget m4 q = mget m q).
  { intros q Hq. rewrite F4 by (unfold in_range; tauto). by apply F2. }
  assert (Hm4 : holds (k + 2) p symbolSize ch lost m4 m4 zeroed).
  { split; [done|]. split; [|done]. intros c Hc i Hi. rewrite F4' by by apply HSb. apply Hm; [done|lia]. }
  destruct (repair_rows_holds m4 S Hbk HS HSb m4 Hm4) as (m5 & -> & Hm5). cbn [mbind option_bind].
  rewrite (Hch k) by lia. cbn [mbind option_bind].
  pose proof Hm5 as (S5 & C5 & F5). rewrite <- Hcs in C5, F5.
  destruct (eo_encode_ok m5 chunks (ch k) 1 0 0 D) as (m6 & -> & S6 & C6 & F6); [lia| | | |by left|].
  { intros c Hc. exists (ch c). split; [apply Hch; lia|]. pose proof (C5 c ltac:(lia)) as Hcc. rewrite decide_False in Hcc by lia.
    unfold cw in Hcc. by rewrite eo_codeword_data in Hcc by lia. }
  { pose proof (C5 k ltac:(lia)) as Hcc. by rewrite decide_True in Hcc by done. }
  { intros c q Hc Hq. rewrite Hch in Hq by lia. simplify_eq. apply Hap; [lia|lia|lia|by right]. }
  cbn [mbind option_bind].
  assert (Hm6 : holds (k + 2) p symbolSize ch lost m4 m6 cw).
  { split; [by etrans|]. split; rewrite <- Hcs.
    - intros c Hc. destruct (decide (c = k)) as [->|Hck].
      + unfold cw. by rewrite eo_codeword_row.
      + pose proof (C5 c Hc) as Hcc. rewrite decide_False in Hcc by lia.
        eapply region_is_frame; [exact Hcc|apply (Hap k c); [lia|lia|lia|by right]|lia|lia|done].
    - intros q Hq. rewrite F6; [by apply F5|]. apply Hq; [lia|by right]. }
  destruct (free_S m S m4 ch lost m6 cw) as (m7 & -> & S7 & C7 & F7); [done..|]. by exists m7.
Qed.

Lemma two_data_ok m :
  b < k → (∀ c, 0 ≤ c < k + 2 → chunk_is chunkSize m (ch c) (zeroed c)) →
  ∃ m', decode_two_data k p symbolSize junk m chunks a b = Some m' ∧ same_shape m m' ∧
    (∀ c, 0 ≤ c < k + 2 → chunk_is chunkSize m' (ch c) (cw c)) ∧
    ∀ q, (∀ c, 0 ≤ c < k + 2 → lost c → ¬ in_range (getData (ch c)) chunkSize q) → mget m' q = mget m q.
Proof.
  intros Hbk Hm. destruct eo_bounds as (? & ? & ? & ? & Hcs & Hcs0 & ? & H32 & ? & ?).
  unfold decode_two_data. destruct (malloc junk m symbolSize) as [S m1] eqn:E1.
  destruct (zero_buffer_spec junk m symbolSize S m1) as (Ho & X1 & V1 & F1 & _); [lia|done|].
  assert (HSb : ∀ c, 0 ≤ c < k + 2 → blk (getData (ch c)) ≠ blk S) by (intros c Hc; by eapply stripe_blk, Hm).
  assert (Hpar : ∀ c, k ≤ c < k + 2 → chunk_is chunkSize m1 (ch c) (cw c)).
  { intros c Hc i Hi. rewrite F1 by (apply HSb; lia). rewrite (Hm c ltac:(lia) i Hi). unfold zeroed. by rewrite decide_False by lia. }
  rewrite (Hch k) by lia. cbn [mbind option_bind].
  destruct (collect_S_ok chunks S D m1 (ch k) (ch (k + 1)) ltac:(apply Hch; lia)) as (m2 & m3 & m4 & E2 & E3 & E4 & S4 & HS & F4);
    [|apply HSb; lia|done|apply Hch; lia| |apply HSb; lia|].
  { pose proof (Hpar (k + 1) ltac:(lia)) as Hc. unfold cw in Hc. by rewrite eo_codeword_diag in Hc. }
  { pose proof (Hpar k ltac:(lia)) as Hc. unfold cw in Hc. by rewrite eo_codeword_row in Hc. }
  rewrite E2. cbn [mbind option_bind]. rewrite (Hch (k + 1)) by lia. cbn [mbind option_bind]. rewrite E3. cbn [mbind option_bind].
  rewrite E4. cbn [mbind option_bind]. rewrite u32_pred_mod by lia.
  assert (X4 : extends_by m (blk S) m4) by by eapply extends_by_trans.
  assert (F4' : ∀ q, blk q ≠ blk S → mget m4 q = mget m q).
  { intros q Hq. rewrite F4 by (unfold in_range; tauto). by apply F1. }
  assert (Hm4 : holds (k + 2) p symbolSize ch lost m4 m4 zeroed).
  { split; [done|]. split; [|done]. intros c Hc i Hi. rewrite F4' by by apply HSb. apply Hm; [done|lia]. }
  pose proof (Z.mod_pos_bound (a - 1) p ltac:(lia)). rewrite u32_small by lia.
  replace ((a - 1) mod p + p - b) with ((a - 1) mod p - b + 1 * p) by lia. rewrite Z.mod_add by lia.
  destruct (zigzag_rounds_hold m4 S Hbk HS HSb m4 Hm4) as (st & -> & Hst). cbn [mbind option_bind].
  destruct (free_S m S m4 ch lost st.2 cw) as (m7 & -> & S7 & C7 & F7); [done..|]. by exists m7.
Qed.
End lost_data.

(** ** Decoding *)
Lemma r5_codeword_eo D c : 0 ≤ c < k + 1 → RAID5Coding.r5_codeword (k + 1) D c = eo_codeword k p symbolSize D c.
Proof.
  intros Hc. unfold RAID5Coding.r5_codeword. replace (k + 1 - 1) with k by lia.
  destruct (decide (c < k)); [by rewrite eo_codeword_data|]. assert (c = k) as -> by lia. by rewrite eo_codeword_row.
Qed.

Section decoding.
Variables (chunks : list ptr) (ch : Z → ptr) (bitmap : BitmaskArray) (status : Z → bool) (D : data_t).
Let lost (c : Z) : Prop := 0 ≤ c < k + 2 ∧ status c = false.
Let cw := eo_codeword k p symbolSize D.
Hypothesis (Hch : ∀ c, 0 ≤ c < k + 2 → zget chunks c = Some (ch c)).
Hypothesis (Hbm : ∀ i, 0 ≤ i < k + 2 → check1 bitmap i = Some (status i)).
Hypothesis (Hap : ∀ i j, 0 ≤ i < k + 2 → 0 ≤ j < k + 2 → i ≠ j → lost i → apart (getData (ch i)) chunkSize (getData (ch j)) chunkSize).

(** The contents while chunks may still be lost. *)
Definition contents (m : mem) (f : Z → Z → byte) : Prop := ∀ c, 0 ≤ c < k + 2 → chunk_is chunkSize m (ch c) (f c).
(** [m'] differs from [m] in the lost chunks only. *)
Definition only_lost (m m' : mem) : Prop :=
  same_shape m m' ∧ ∀ q, (∀ c, lost c → ¬ in_range (getData (ch c)) chunkSize q) → mget m' q = mget m q.

Lemma only_lost_trans m m1 m2 : only_lost m m1 → only_lost m1 m2 → only_lost m m2.
Proof. intros [S1 F1] [S2 F2]. split; [by etrans|]. intros q Hq. rewrite F2 by done. by apply F1. Qed.

(** Zeroing one lost chunk. *)
Lemma zero_data_ok m f (g : Z → Z → byte) (ok : Z → Prop) :
  lost f → (∀ c, 0 ≤ c < k + 2 → ok c → chunk_is chunkSize m (ch c) (g c)) → valid m (getData (ch f)) chunkSize →
  ∃ m', zero_data chunkSize chunks m f = Some m' ∧ only_lost m m' ∧
    chunk_is chunkSize m' (ch f) (λ _, x00) ∧ ∀ c, 0 ≤ c < k + 2 → c ≠ f → ok c → chunk_is chunkSize m' (ch c) (g c).
Proof.
  intros Hl Hg Hv. destruct eo_bounds as (? & ? & ? & ? & Hcs & Hcs0 & _). pose proof (proj1 Hl) as Hf.
  unfold zero_data. rewrite Hch by done. cbn [mbind option_bind].
  destruct (memset_zero m (getData (ch f)) chunkSize) as (m' & -> & S & Z & F); [lia|done|].
  exists m'. split_and!; [done|split; [done|intros q Hq; apply F; by apply Hq]|done|].
  intros c Hc Hcf Hok'. eapply region_is_frame; [by apply Hg|by apply (Hap f c)|lia|lia|done].
Qed.

(** The row repair: the lost chunk is a data chunk or the row parity. *)
Lemma eo_row_decode m :
  n_lost (k + 1) status = 1 → contents m (λ c, if status c then cw c else λ _, x00) →
  ∃ m', RAID5Coding.decode (k + 1) chunkSize m chunks bitmap = Some (true, m') ∧ only_lost m m' ∧
    (∀ c, 0 ≤ c < k + 1 → chunk_is chunkSize m' (ch c) (cw c)) ∧
    (status (k + 1) = true → chunk_is chunkSize m' (ch (k + 1)) (cw (k + 1))) ∧
    (status (k + 1) = false → chunk_is chunkSize m' (ch (k + 1)) (λ _, x00)).
Proof.
  intros H1 Hm. destruct eo_bounds as (? & ? & ? & ? & Hcs & Hcs0 & ? & H32 & ? & ?).
  destruct (RAID5Coding.r5_decode_ok (k + 1) chunkSize ltac:(lia) ltac:(lia) m chunks bitmap status D) as (m' & E & S & C & F);
    [intros; apply Hbm; lia|done| | |].
  - intros c Hc. exists (ch c). split; [apply Hch; lia|]. rewrite r5_codeword_eo by done. apply Hm. lia.
  - intros i j q r Hj Hij [Hi Hs] Hq Hr. rewrite Hch in Hq, Hr by lia. simplify_eq. apply Hap; [lia|lia|done|]. split; [lia|done].
  - exists m'. split; [done|].
    assert (Fr : ∀ q, (∀ c, lost c → ¬ in_range (getData (ch c)) chunkSize q) → mget m' q = mget m q).
    { intros q Hq. apply F. intros i r [Hi Hs] Hr. rewrite Hch in Hr by lia. simplify_eq. apply Hq. split; [lia|done]. }
    split; [by split|]. split.
    + intros c Hc. destruct (C c Hc) as (q & Hq & Hqc). rewrite Hch in Hq by lia. simplify_eq.
      by rewrite r5_codeword_eo in Hqc.
    + assert (Hlast : ∀ f, chunk_is chunkSize m (ch (k + 1)) f → chunk_is chunkSize m' (ch (k + 1)) f).
      { intros f Hf i Hi. rewrite F; [by apply Hf|]. intros c r [Hc Hs] Hr. rewrite Hch in Hr by lia. simplify_eq.
        pose proof (Hap c (k + 1) ltac:(lia) ltac:(lia) ltac:(lia) ltac:(split; [lia|done])) as Ha.
        unfold apart, in_range in *. simpl in *. lia. }
      pose proof (Hm (k + 1) ltac:(lia)) as Hl. cbv beta in Hl. split; intros Hs; rewrite Hs in Hl; by apply Hlast.
Qed.

Lemma reencode_diag m :
  (∀ c, 0 ≤ c < k + 1 → chunk_is chunkSize m (ch c) (cw c)) → lost (k + 1) → chunk_is chunkSize m (ch (k + 1)) (λ _, x00) →
  ∃ m', encode k p chunkSize symbolSize junk m chunks (ch (k + 1)) 2 0 0 = Some m' ∧ only_lost m m' ∧ contents m' cw.
Proof.
  intros Hc Hl Hz. destruct eo_bounds as (? & ? & ? & ? & Hcs & Hcs0 & ?).
  destruct (eo_encode_ok m chunks (ch (k + 1)) 2 0 0 D) as (m' & E & S & P & F); [lia| |done| |by left|].
  - intros c Hcr. exists (ch c). split; [apply Hch; lia|]. pose proof (Hc c ltac:(lia)) as Hcc.
    unfold cw in Hcc. by rewrite eo_codeword_data in Hcc by lia.
  - intros c q Hcr Hq. rewrite Hch in Hq by lia. simplify_eq. apply Hap; [lia|lia|lia|done].
  - exists m'. split; [done|]. split; [split; [done|]; intros q Hq; apply F; by apply Hq|].
    intros c Hcr. destruct (decide (c = k + 1)) as [->|Hck].
    + unfold cw. by rewrite eo_codeword_diag.
    + eapply region_is_frame; [apply Hc; lia|apply (Hap (k + 1) c); [lia|lia|lia|done]|lia|lia|done].
Qed.

Lemma eo_decode_ok m :
  0 < n_lost (k + 2) status ≤ 2 →
  (∀ c, 0 ≤ c < k + 2 → status c = true → chunk_is chunkSize m (ch c) (cw c)) →
  (∀ c, 0 ≤ c < k + 2 → valid m (getData (ch c)) chunkSize) →
  ∃ m', decode k p chunkSize symbolSize junk m chunks bitmap = Some (true, m') ∧ only_lost m m' ∧ contents m' cw.
Proof.
  intros Hn Hm Hv. destruct eo_bounds as (? & ? & ? & ? & Hcs & Hcs0 & ? & H32 & ? & ?).
  unfold decode. rewrite (RDPCoding.collect_failed_spec _ status) by (intros; (apply Hbm; lia) || done). simpl app.
  rewrite Z2Nat.id by lia. fold (n_lost (k + 2) status). rewrite decide_True by lia. cbn [mbind option_bind].
  assert (Hsn : n_lost (k + 2) status = n_lost (k + 1) status + if status (k + 1) then 0 else 1).
  { replace (k + 2) with (k + 1 + 1) by lia. apply n_lost_snoc. lia. }
  destruct (decide (n_lost (k + 2) status = 1)) as [Hn1|Hn2].
  - (* one lost chunk *)
    destruct (lost_one _ _ Hn1) as (a & -> & Ha & Hall).
    assert (Hla : lost a) by (split; [done|]; rewrite Hall by done; by rewrite bool_decide_eq_true_2).
    assert (Hoth : ∀ i, 0 ≤ i < k + 2 → i ≠ a → status i = true) by (intros; rewrite Hall by done; by rewrite bool_decide_eq_false_2).
    cbn [foldl]. destruct (zero_data_ok m a cw (λ c, status c = true)) as (m1 & Hz & O1 & Z1 & C1); [done|done|by apply Hv|].
    cbn [mbind option_bind] in *. rewrite Hz. cbn [mbind option_bind].
    assert (Hm1 : contents m1 (λ c, if status c then cw c else λ _, x00)).
    { intros c Hc. destruct (decide (c = a)) as [->|Hca]; [by rewrite (proj2 Hla)|]. rewrite Hoth by done. apply C1; auto. }
    destruct (decide (a = k + 1)) as [->|Hak].
    + rewrite Hch by lia. cbn [mbind option_bind]. destruct (reencode_diag m1) as (m' & -> & O2 & C2); [|done|done|].
      { intros c Hc. apply C1; [lia|lia|apply Hoth; lia]. }
      exists m'. split; [done|]. split; [by eapply only_lost_trans|done].
    + assert (Hk1 : status (k + 1) = true) by (apply Hoth; lia). rewrite Hk1 in Hsn.
      destruct (eo_row_decode m1) as (m' & -> & O2 & C2 & C3 & _); [lia|done|].
      exists m'. split; [done|]. split; [by eapply only_lost_trans|]. intros c Hc.
      destruct (decide (c = k + 1)) as [->|]; [by apply C3|]. apply C2. lia.
  - (* two lost chunks *)
    destruct (lost_two (k + 2) status) as (a & b & -> & Hab & Hb & Hall); [lia|lia|].
    assert (Hla : lost a) by (split; [lia|]; rewrite Hall by lia; by rewrite bool_decide_eq_true_2 by (by left)).
    assert (Hlb : lost b) by (split; [lia|]; rewrite Hall by lia; by rewrite bool_decide_eq_true_2 by (by right)).
    assert (Hoth : ∀ i, 0 ≤ i < k + 2 → i ≠ a → i ≠ b → status i = true) by (intros; rewrite Hall by done; by rewrite bool_decide_eq_false_2 by tauto).
    cbn [foldl]. destruct (zero_data_ok m a cw (λ c, status c = true)) as (m1 & Hz1 & O1 & Z1 & C1); [done|done|apply Hv; lia|].
    cbn [mbind option_bind] in *. rewrite Hz1. cbn [mbind option_bind].
    destruct (zero_data_ok m1 b (λ c, if decide (c = a) then λ _, x00 else cw c) (λ c, c = a ∨ status c = true)) as (m2 & Hz2 & O2 & Z2 & C2);
      [done| |rewrite <- (proj1 O1); apply Hv; lia|].
    { intros c Hc Hok'. destruct (decide (c = a)) as [->|]; [done|]. apply C1; [done|done|]. destruct Hok'; [done|done]. }
    rewrite Hz2. cbn [mbind option_bind].
    pose proof (only_lost_trans _ _ _ O1 O2) as O12.
    assert (Hm2 : contents m2 (λ c, if decide (c = a ∨ c = b) then λ _, x00 else cw c)).
    { intros c Hc. destruct (decide (c = b)) as [->|Hcb]; [by rewrite decide_True by (by right)|].
      destruct (decide (c = a)) as [->|Hca].
      - rewrite decide_True by (by left). pose proof (C2 a ltac:(lia) ltac:(lia) ltac:(by left)) as Hcc. by rewrite decide_True in Hcc.
      - rewrite decide_False by tauto. pose proof (C2 c Hc Hcb ltac:(right; by apply Hoth)) as Hcc. by rewrite decide_False in Hcc. }
    destruct (decide (b = k + 1)) as [->|Hbk1].
    + rewrite (proj2 Hlb) in Hsn. destruct (eo_row_decode m2) as (m3 & -> & O3 & C3 & _ & C4); [lia| |].
      { intros c Hc. pose proof (Hm2 c Hc) as Hcc. cbv beta in Hcc. rewrite Hall by done.
        destruct (decide (c = a ∨ c = k + 1)) as [Hl|Hl];
          [by rewrite bool_decide_eq_true_2 by done|by rewrite bool_decide_eq_false_2 by done]. }
      cbn [mbind option_bind]. rewrite Hch by lia. cbn [mbind option_bind].
      destruct (reencode_diag m3) as (m' & -> & O4 & C5); [done|done|by apply C4, Hlb|].
      exists m'. split; [done|]. split; [|done]. eapply only_lost_trans; [exact O12|by eapply only_lost_trans].
    + assert (Hap2 : ∀ i j, 0 ≤ i < k + 2 → 0 ≤ j < k + 2 → i ≠ j → i = a ∨ i = b → apart (getData (ch i)) chunkSize (getData (ch j)) chunkSize).
      { intros i j Hi Hj Hij [-> | ->]; by apply Hap. }
      destruct (decide (b = k)) as [Hbk|Hbk].
      * destruct (data_row_ok chunks ch a b D ltac:(lia) Hch Hap2 m2 Hbk) as (m' & -> & S' & C' & F'); [by apply Hm2|].
        exists m'. split; [done|]. split; [|done]. eapply only_lost_trans; [exact O12|]. split; [done|].
        intros q Hq. apply F'. intros c Hc [-> | ->]; by apply Hq.
      * destruct (two_data_ok chunks ch a b D ltac:(lia) Hch Hap2 m2 ltac:(lia)) as (m' & -> & S' & C' & F'); [by apply Hm2|].
        exists m'. split; [done|]. split; [|done]. eapply only_lost_trans; [exact O12|]. split; [done|].
        intros q Hq. apply F'. intros c Hc [-> | ->]; by apply Hq.
Qed.
End decoding.

Lemma eo_decode_stripe_ok m chunks bitmap status D :
  let lost := λ i, 0 ≤ i < k + 2 ∧ status i = false in
  (∀ i, 0 ≤ i < k + 2 → check1 bitmap i = Some (status i)) →
  0 < n_lost (k + 2) status ≤ 2 →
  (∀ i, 0 ≤ i < k + 2 → ∃ q, zget chunks i = Some q ∧ valid m (getData q) chunkSize ∧
     (status i = true → chunk_is chunkSize m q (eo_codeword k p symbolSize D i))) →
  (∀ i j q r, 0 ≤ j < k + 2 → i ≠ j → lost i → zget chunks i = Some q → zget chunks j = Some r →
     apart (getData q) chunkSize (getData r) chunkSize) →
  ∃ m', decode k p chunkSize symbolSize junk m chunks bitmap = Some (true, m') ∧ same_shape m m' ∧
    stripe_is chunkSize m' chunks (k + 2) (eo_codeword k p symbolSize D) ∧
    ∀ q, (∀ c r, lost c → zget chunks c = Some r → ¬ in_range (getData r) chunkSize q) → mget m' q = mget m q.
Proof.
  intros lost Hbm Hn Hst Hap.
  set (ch := λ c, default (Ptr 0 0) (zget chunks c)).
  assert (Hch : ∀ c, 0 ≤ c < k + 2 → zget chunks c = Some (ch c)).
  { intros c Hc. unfold ch. by destruct (Hst c Hc) as (q & -> & _). }
  destruct (eo_decode_ok chunks ch bitmap status D) with (m := m) as (m' & E & [S F] & C); [done|done| |done| | |].
  - intros i j Hi Hj Hij Hl. apply (Hap i j); auto.
  - intros c Hc Hs. destruct (Hst c Hc) as (q & Hq & _ & Hqc). rewrite Hch in Hq by done. simplify_eq. auto.
  - intros c Hc. destruct (Hst c Hc) as (q & Hq & Hv & _). rewrite Hch in Hq by done. by simplify_eq.
  - exists m'. split_and!; [done|done| |].
    + intros c Hc. exists (ch c). split; [by apply Hch|by apply C].
    + intros q Hq. apply F. intros c Hl. apply (Hq c); [done|]. by apply Hch, Hl.
Qed.

Lemma eo_parity_linear j D D' i :
  eo_parity k p symbolSize j (λ c i, bxor (D c i) (D' c i)) i =
  bxor (eo_parity k p symbolSize j D i) (eo_parity k p symbolSize j D' i).
Proof.
  assert (Hdd : ∀ d t, data_diag k p symbolSize (λ c i, bxor (D c i) (D' c i)) d t =
    bxor (data_diag k p symbolSize D d t) (data_diag k p symbolSize D' d t)).
  { intros d t. unfold data_diag, diagonal. rewrite <- xsum_bxor. apply xsum_ext. intros c _. cbv zeta. by case_decide. }
  unfold eo_parity. case_decide; [apply RDPCoding.row_parity_linear|]. rewrite !Hdd.
  rewrite <- !(assoc bxor). f_equal. rewrite !(assoc bxor). f_equal. apply (comm bxor).
Qed.

Lemma eo_parity_ext j D D' i :
  (∀ c i, D c i = D' c i) → eo_parity k p symbolSize j D i = eo_parity k p symbolSize j D' i.
Proof.
  intros HD. assert (Hd : ∀ d t, data_diag k p symbolSize D d t = data_diag k p symbolSize D' d t).
  { intros d t. apply xsum_ext. intros c _. cbv zeta. by case_decide. }
  unfold eo_parity. case_decide; [apply xsum_ext; auto|]. by rewrite !Hd.
Qed.
End correct.

(** ** The promise of ErasureCode *)
#[export] Program Instance evenodd_code (k p chunkSize symbolSize : Z) (junk : nat → Z → byte)
    (Hok : params_ok k p chunkSize symbolSize) : ErasureCode (evenodd k p chunkSize symbolSize junk) := {
  ec_chunkSize := chunkSize; ec_k := k; ec_m := 2; ec_tolerance := 2;
  ec_parity := eo_parity k p symbolSize;
}.
Next Obligation. intros. pose proof (eo_bounds k p chunkSize symbolSize junk Hok). lia. Qed.
Next Obligation. intros. apply eo_parity_linear. Qed.
Next Obligation. intros. by apply eo_parity_ext. Qed.
Next Obligation.
  intros k p chunkSize symbolSize junk Hok m data parity index startOff endOff D Hi Hd Hz Hap Hr.
  by apply eo_encode_ok.
Qed.
Next Obligation.
  intros k p chunkSize symbolSize junk Hok m chunks bitmap status D cw lost Hst Hl Hs Hv Hap.
  assert (Hsub : ∀ r q, in_range (getData r) chunkSize q → in_range r (CHUNK_IDENTIFIER_SIZE + chunkSize) q)
    by (intros r q; unfold in_range, getData, CHUNK_IDENTIFIER_SIZE; simpl; lia).
  destruct (eo_decode_stripe_ok k p chunkSize symbolSize junk Hok m chunks bitmap status D) as (m' & E & S & C & F); [done|done| | |].
  - intros i Hi. destruct (Hs i Hi) as (q & Hq & Hqc). exists q. split; [done|]. split.
    + unfold getData. eapply valid_sub; [by apply (Hv q i)|unfold CHUNK_IDENTIFIER_SIZE; lia| |lia].
      pose proof (eo_bounds k p chunkSize symbolSize junk Hok). lia.
    + intros Hsi. by rewrite Hsi in Hqc.
  - intros i j q r _ Hij Hli Hq Hr. pose proof (Hap i j q r Hij Hli Hq Hr) as Ha.
    unfold apart, getData, CHUNK_IDENTIFIER_SIZE in *. simpl in *. lia.
  - exists m'. split_and!; [done..|]. intros q Hq. apply F. intros c r Hlc Hr Hin. apply (Hq c r Hlc Hr). by apply Hsub.
Qed.

(** C32: [EvenOddCoding::encode], on a parity chunk whose data is zero, computes
    the row parity (index 1) or the diagonal parity with [S] added (index 2).
    With a range it skips the symbols outside of it and computes the same
    chunk, provided the data is zero outside of the range, as a delta is.  It
    frees its buffer and writes nothing but the parity chunk. *)
Theorem evenodd_encode_parity (k p chunkSize symbolSize : Z) (junk : nat → Z → byte) (m : mem)
    (data : list ptr) (parity : ptr) (index startOff endOff : Z) (D : data_t) :
  params_ok k p chunkSize symbolSize → 1 ≤ index ≤ 2 →
  stripe_is chunkSize m data k D → chunk_is chunkSize m parity (λ _, x00) →
  (∀ c q, 0 ≤ c < k → zget data c = Some q → apart (getData parity) chunkSize (getData q) chunkSize) →
  RDPCoding.in_stripe_range k chunkSize D startOff endOff →
  ∃ m', encode k p chunkSize symbolSize junk m data parity index startOff endOff = Some m' ∧ same_shape m m' ∧
    chunk_is chunkSize m' parity (eo_parity k p symbolSize index D) ∧
    ∀ q, ¬ in_range (getData parity) chunkSize q → mget m' q = mget m q.
Proof. intros Hok. by apply eo_encode_ok. Qed.

(** C4: [EvenOddCoding::decode] restores any one or two lost chunks of a stripe
    coded by [encode], whichever they are and whatever their bytes were: it
    recovers [S], then follows the diagonals and rows through the two lost
    chunks; it returns true, and changes the data of the lost chunks only. *)
Theorem evenodd_recovers (k p chunkSize symbolSize : Z) (junk : nat → Z → byte) (m : mem)
    (chunks : list ptr) (bitmap : BitmaskArray) (status : Z → bool) (D : data_t) :
  params_ok k p chunkSize symbolSize →
  let lost := λ i, 0 ≤ i < k + 2 ∧ status i = false in
  (∀ i, 0 ≤ i < k + 2 → check1 bitmap i = Some (status i)) →
  0 < n_lost (k + 2) status ≤ 2 →
  (∀ i, 0 ≤ i < k + 2 → ∃ q, zget chunks i = Some q ∧ valid m (getData q) chunkSize ∧
     (status i = true → chunk_is chunkSize m q (eo_codeword k p symbolSize D i))) →
  (∀ i j q r, 0 ≤ j < k + 2 → i ≠ j → lost i → zget chunks i = Some q → zget chunks j = Some r →
     apart (getData q) chunkSize (getData r) chunkSize) →
  ∃ m', decode k p chunkSize symbolSize junk m chunks bitmap = Some (true, m') ∧ same_shape m m' ∧
    stripe_is chunkSize m' chunks (k + 2) (eo_codeword k p symbolSize D) ∧
    ∀ q, (∀ c r, lost c → zget chunks c = Some r → ¬ in_range (getData r) chunkSize q) → mget m' q = mget m q.
Proof. intros Hok. by apply eo_decode_stripe_ok. Qed.

(** A stripe of four chunks of two bytes, over [p = 3]; the lost chunks hold
    arbitrary bytes. *)
Definition ex_bytes (zeroed : Z → bool) (c i : Z) : byte :=
  if zeroed c then x00 else eo_codeword 2 3 1 RDPCoding.ex_data c i.
Definition ex_blk (zeroed : Z → bool) (c : Z) : list byte := replicate 8 x00 ++ (ex_bytes zeroed c <$> [0; 1]).
Definition ex_memory (zeroed : Z → bool) : mem :=
  {[ 0%nat := ex_blk zeroed 0; 1%nat := ex_blk zeroed 1; 2%nat := ex_blk zeroed 2; 3%nat := ex_blk zeroed 3 ]}.

Lemma ex_chunk zeroed c : 0 ≤ c < 4 → chunk_is 2 (ex_memory zeroed) (Ptr (Z.to_nat c) 0) (ex_bytes zeroed c).
Proof.
  revert c. apply (RDPCoding.range4 (λ c, chunk_is 2 (ex_memory zeroed) (Ptr (Z.to_nat c) 0) (ex_bytes zeroed c)));
    intros i Hi; assert (i = 0 ∨ i = 1) as [-> | ->] by lia; reflexivity.
Qed.

Lemma ex_eo_params : params_ok 2 3 2 1.
Proof. constructor; try lia. exact Z.prime_3. Qed.

Lemma ex_chunks_at c : 0 ≤ c < 4 → zget RDPCoding.ex_chunks c = Some (Ptr (Z.to_nat c) 0).
Proof. revert c. apply (RDPCoding.range4 (λ c, zget RDPCoding.ex_chunks c = Some (Ptr (Z.to_nat c) 0))); reflexivity. Qed.

Lemma evenodd_recovers_witness :
  ∃ bitmap m', decode 2 3 2 1 (λ _ _, x00) (ex_memory (λ c, negb (RDPCoding.ex_status c))) RDPCoding.ex_chunks bitmap = Some (true, m') ∧
    stripe_is 2 m' RDPCoding.ex_chunks 4 (eo_codeword 2 3 1 RDPCoding.ex_data).
Proof.
  destruct RDPCoding.ex_bitmap as [bitmap Hb]. exists bitmap.
  destruct (evenodd_recovers 2 3 2 1 (λ _ _, x00) (ex_memory (λ c, negb (RDPCoding.ex_status c))) RDPCoding.ex_chunks bitmap
    RDPCoding.ex_status RDPCoding.ex_data ex_eo_params Hb) as (m' & E & _ & Hs & _).
  - change (n_lost (2 + 2) RDPCoding.ex_status) with 2. lia.
  - intros i Hi. exists (Ptr (Z.to_nat i) 0). split; [apply ex_chunks_at; lia|]. pose proof (ex_chunk (λ c, negb (RDPCoding.ex_status c)) i ltac:(lia)) as Hc.
    split; [eapply region_is_valid; [exact Hc|lia]|]. intros Hst. eapply region_is_ext; [|exact Hc]. intros j _.
    unfold ex_bytes. rewrite Hst. reflexivity.
  - intros i j q r Hj Hij [Hi _] Hq Hr. rewrite ex_chunks_at in Hq, Hr by lia. injection Hq as <-. injection Hr as <-. left. simpl. lia.
  - exists m'. split; [exact E|exact Hs].
Defined.

Lemma evenodd_encode_parity_witness :
  ∃ m', encode 2 3 2 1 (λ _ _, x00) (ex_memory (λ c, bool_decide (c = 3))) RDPCoding.ex_chunks (Ptr 3 0) 2 0 0 = Some m' ∧
    chunk_is 2 m' (Ptr 3 0) (eo_parity 2 3 1 2 RDPCoding.ex_data).
Proof.
  destruct (evenodd_encode_parity 2 3 2 1 (λ _ _, x00) (ex_memory (λ c, bool_decide (c = 3))) RDPCoding.ex_chunks (Ptr 3 0) 2 0 0
    RDPCoding.ex_data ex_eo_params) as (m' & E & _ & Hs & _).
  - lia.
  - intros i Hi. exists (Ptr (Z.to_nat i) 0). split; [apply ex_chunks_at; lia|].
    eapply region_is_ext; [|apply ex_chunk; lia]. intros j _. unfold ex_bytes, eo_codeword.
    rewrite bool_decide_eq_false_2 by lia. rewrite decide_True by lia. reflexivity.
  - eapply region_is_ext; [|apply (ex_chunk _ 3); lia]. intros j _. reflexivity.
  - intros c q Hc Hq. left. rewrite ex_chunks_at in Hq by lia. injection Hq as <-. simpl. lia.
  - left. split; reflexivity.
  - exists m'. split; [exact E|exact Hs].
Defined.
End EvenOddCoding.
