(* ===== verification/DegradedLock.v ===== *)
(** * Degraded locks (coordinator/ds/map.hh)

    A lock of a stripe lists which chunks (list, chunk) are [original]ly
    elsewhere and where they are [reconstructed]: two arrays of pairs, in step.
    An access outside of an array has no result; a count of pairs is below 2^31,
    so that twice an index does not wrap.

    [sort_permutes]: [sort] puts the pairs in the order of the original chunks.
    [dup_outcome], [expand_outcome]: whenever [dup] or [expand] has to add a pair,
    it writes behind the arrays it has allocated, which are too short; otherwise
    they are the sorted copy of the lock, and the lock. *)

From S2P Require Export Words.

(** (list ID, stripe ID). *)
Module ListStripe.
Record ListStripe := MkListStripe { listId : Z; stripeId : Z }.
#[export] Instance ListStripe_eq_dec : EqDecision ListStripe.
Proof. solve_decision. Defined.
#[export] Instance ListStripe_countable : Countable ListStripe :=
  inj_countable (λ l, (listId l, stripeId l)) (λ t, Some (MkListStripe t.1 t.2)) (λ l, match l with MkListStripe _ _ => eq_refl end).

Definition clear : ListStripe := MkListStripe 0 0.
Definition set (l s : Z) : ListStripe := MkListStripe l s.
Definition clone (l : ListStripe) : ListStripe := MkListStripe (listId l) (stripeId l).
Definition less (a b : ListStripe) : bool :=
  if decide (listId a < listId b) then true
  else if decide (listId a > listId b) then false
  else bool_decide (stripeId a < stripeId b).
Definition equal (a b : ListStripe) : bool := bool_decide (listId a = listId b) && bool_decide (stripeId a = stripeId b).
(** [std::hash]: the stripe in the low half, the list in the high half. *)
Definition hash (l : ListStripe) : Z := le_val (le_bytes 4 (stripeId l) ++ le_bytes 4 (listId l)).
End ListStripe.

Module DegradedLock.

Record DegradedLock := MkLock {
  original : list Z;
  reconstructed : list Z;
  reconstructedCount : Z;
  ongoingAtChunk : Z;
}.

(** Null pointers are empty arrays.  Without pairs the count is left as it is. *)
Definition set (d : DegradedLock) (original reconstructed : list Z) (count ongoingAtChunk : Z) : DegradedLock :=
  if decide (count = 0) then MkLock [] [] (reconstructedCount d) 4294967295
  else MkLock original reconstructed count ongoingAtChunk.

Section lock.
(** What [new uint32_t[ n ]] holds before it is written. *)
Variable junk : nat → Z.
Definition new_array (n : Z) : list Z := junk <$> seq 0 (Z.to_nat n).

(** The constructor, with what is in the memory of the object before. *)
Definition DegradedLock_new (count0 : Z) (original reconstructed : list Z) (count ongoingAtChunk : Z) : DegradedLock :=
  set (MkLock [] [] count0 0) original reconstructed count ongoingAtChunk.

(** A[ i * 2 ] = B[ j * 2 ]; A[ i * 2 + 1 ] = B[ j * 2 + 1 ]; *)
Definition put_pair (a : list Z) (i : Z) (p : Z * Z) : option (list Z) := a ← zset a (i * 2) p.1; zset a (i * 2 + 1) p.2.
Definition get_pair (a : list Z) (i : Z) : option (Z * Z) := l ← zget a (i * 2); c ← zget a (i * 2 + 1); Some (l, c).
Definition copy_pair (a : list Z) (i : Z) (b : list Z) (j : Z) : option (list Z) := p ← get_pair b j; put_pair a i p.

(** ** sort *)
Definition min_step (o : list Z) (j minIndex : Z) : option Z :=
  x ← zget o (j * 2 + 1); y ← zget o (minIndex * 2 + 1); Some (if decide (x < y) then j else minIndex).
Definition sort_step (n i : Z) (s : list Z * list Z) : option (list Z * list Z) :=
  let '(o, r) := s in
  tmpOriginal ← get_pair o i;
  tmpReconstructed ← get_pair r i;
  minIndex ← for_range (i + 1) n (min_step o) i;
  o ← copy_pair o i o minIndex;
  r ← copy_pair r i r minIndex;
  o ← put_pair o minIndex tmpOriginal;
  r ← put_pair r minIndex tmpReconstructed;
  Some (o, r).
Definition sort (d : DegradedLock) : option DegradedLock :=
  '(o, r) ← for_range 0 (reconstructedCount d) (sort_step (reconstructedCount d)) (original d, reconstructed d);
  Some (MkLock o r (reconstructedCount d) (ongoingAtChunk d)).

(** ** dup *)

(** The chunks of the pairs. *)
Definition chunk_ids (a : list Z) (n : Z) : option (gset Z) :=
  for_range 0 n (λ i s, c ← zget a (i * 2 + 1); Some ({[ c ]} ∪ s)) ∅.

(** The first surviving chunk that nothing is redirected to; the entry is left
    unwritten when there is none. *)
Definition redirect_to (redirected : gset Z) (surviving : list Z) : option Z := snd <$> list_find (λ c, c ∉ redirected) surviving.

(** The loop over all chunks of the stripe. *)
Definition add_pairs (listId chunkCount : Z) (handled redirected : gset Z) (surviving : list Z) (o r : list Z) (ptr : Z) :
    option (list Z * list Z * Z) :=
  for_range 0 chunkCount (λ i '(o, r, ptr),
    if decide (i ∈ handled) then Some (o, r, ptr) else
    o ← zset o (ptr * 2) listId;
    o ← zset o (ptr * 2 + 1) i;
    r ← zset r (ptr * 2) listId;
    r ← (match redirect_to redirected surviving with Some c => zset r (ptr * 2 + 1) c | None => Some r end);
    Some (o, r, u32 (ptr + 1))) (o, r, ptr).

Definition copy_pairs (a b : list Z) (n : Z) : option (list Z) := for_range 0 n (λ i a, copy_pair a i b i) a.

(** [surviving] are the first [numSurvivingChunkIds] entries of the array. *)
Definition dup (d : DegradedLock) (surviving : list Z) (chunkCount : Z) : option DegradedLock :=
  let n := reconstructedCount d in
  if decide (n = 0) then Some d else
  listId ← zget (original d) 0;
  let newReconstructedCount := u32 (chunkCount - zlen surviving - n) in
  if decide (newReconstructedCount < chunkCount) then
    let size := u32 (n * 2 + newReconstructedCount) in
    o ← copy_pairs (new_array size) (original d) n;
    r ← copy_pairs (new_array size) (reconstructed d) n;
    '(o, r, n') ←
      (if decide (newReconstructedCount = 0) then Some (o, r, n) else
       handled ← chunk_ids (original d) n;
       redirected ← chunk_ids (reconstructed d) n;
       '(o, r, _) ← add_pairs listId chunkCount (handled ∪ list_to_set surviving) redirected surviving o r n;
       Some (o, r, u32 (n + newReconstructedCount)));
    sort (MkLock o r n' (ongoingAtChunk d))
  else None.

(** ** expand *)

(** Is the pair among the first [n] of [a]? *)
Fixpoint find_pair (fuel : nat) (a : list Z) (j n : Z) (p : Z * Z) : option bool :=
  match fuel with
  | O => Some false
  | S fuel =>
      if decide (j < n) then
        l ← zget a (j * 2);
        same ← (if decide (l = p.1) then c ← zget a (j * 2 + 1); Some (bool_decide (c = p.2)) else Some false);
        if (same : bool) then Some true else find_pair fuel a (j + 1) n p
      else Some false
  end.
Definition known (d : DegradedLock) (o : list Z) (i : Z) : option bool :=
  p ← get_pair o i; find_pair (Z.to_nat (reconstructedCount d)) (original d) 0 (reconstructedCount d) p.

Definition count_new (d : DegradedLock) (o : list Z) (count : Z) : option Z :=
  for_range 0 count (λ i n, b ← known d o i; Some (if (b : bool) then n else u32 (n + 1))) 0.

Definition expand (d : DegradedLock) (original reconstructed : list Z) (count ongoingAtChunk : Z) (surviving : list Z) (chunkCount : Z) : option DegradedLock :=
  d ← (if decide (reconstructedCount d = 0) then dup (set d original reconstructed count ongoingAtChunk) surviving chunkCount else Some d);
  if decide (count = 0) then Some d else
  n ← count_new d original count;
  if decide (n = 0) then Some d else
  let n := u32 (n + reconstructedCount d) in
  oldO ← slice (DegradedLock.original d) 0 (reconstructedCount d * 2);
  oldR ← slice (DegradedLock.reconstructed d) 0 (reconstructedCount d * 2);
  o ← splice (new_array n) 0 oldO;
  r ← splice (new_array n) 0 oldR;
  '(o, r, _) ← for_range 0 count (λ i '(o, r, tmp),
    b ← known d original i;
    if (b : bool) then Some (o, r, tmp) else
    o ← copy_pair o tmp original i;
    r ← copy_pair r tmp reconstructed i;
    Some (o, r, u32 (tmp + 1))) (o, r, reconstructedCount d);
  sort (MkLock o r n (DegradedLock.ongoingAtChunk d)).
End lock.

(** ** Lemmas: pairs of the arrays *)
Lemma get_pair_is_Some a i : 0 ≤ i → i * 2 + 1 < zlen a → ∃ p, get_pair a i = Some p.
Proof.
  intros. unfold get_pair. destruct (zget_is_Some a (i * 2)) as [x ->]; [lia|].
  destruct (zget_is_Some a (i * 2 + 1)) as [y ->]; [lia|]. by eexists.
Qed.

Lemma get_pair_ext a b i : zget a (i * 2) = zget b (i * 2) → zget a (i * 2 + 1) = zget b (i * 2 + 1) → get_pair a i = get_pair b i.
Proof. intros H1 H2. unfold get_pair. by rewrite H1, H2. Qed.

Lemma put_pair_spec a i p :
  0 ≤ i → i * 2 + 1 < zlen a →
  ∃ a', put_pair a i p = Some a' ∧ zlen a' = zlen a ∧
    (∀ j, get_pair a' j = if decide (j = i) then Some p else get_pair a j) ∧
    (∀ k, k ≠ i * 2 → k ≠ i * 2 + 1 → zget a' k = zget a k).
Proof.
  intros Hi Hl. unfold put_pair. rewrite (zset_Some a) by lia. cbn [mbind option_bind].
  set (a1 := <[Z.to_nat (i * 2):=p.1]> a).
  assert (E1 : zset a (i * 2) p.1 = Some a1) by (apply zset_Some; lia).
  pose proof (zset_zlen _ _ _ _ E1) as L1.
  rewrite zset_Some by lia. eexists. split; [done|].
  set (a2 := <[Z.to_nat (i * 2 + 1):=p.2]> a1).
  assert (E2 : zset a1 (i * 2 + 1) p.2 = Some a2) by (apply zset_Some; lia).
  pose proof (zset_zlen _ _ _ _ E2) as L2.
  assert (Hne : ∀ k, k ≠ i * 2 → k ≠ i * 2 + 1 → zget a2 k = zget a k).
  { intros k Hk Hk'. rewrite (zset_get_ne _ _ k _ _ E2) by lia. by rewrite (zset_get_ne _ _ k _ _ E1) by lia. }
  split; [lia|]. split; [|done]. intros j. case_decide as Hj; [subst j|].
  - unfold get_pair. rewrite (zset_get_ne _ _ (i * 2) _ _ E2) by lia. rewrite (zset_get_eq _ _ _ _ E1).
    rewrite (zset_get_eq _ _ _ _ E2). by destruct p.
  - apply get_pair_ext; apply Hne; lia.
Qed.

(** A pair of each array: the chunk and where it is. *)
Definition row (o r : list Z) (i : Z) : option ((Z * Z) * (Z * Z)) := p ← get_pair o i; q ← get_pair r i; Some (p, q).
Definition rows (n : Z) (o r : list Z) : list (option ((Z * Z) * (Z * Z))) := row o r <$> seqZ 0 n.

Lemma rows_lookup n o r (k : nat) : Z.of_nat k < n → rows n o r !! k = Some (row o r (Z.of_nat k)).
Proof. intros. unfold rows. rewrite list_lookup_fmap, lookup_seqZ_lt by lia. simpl. do 2 f_equal. Qed.

(** ** Lemmas: sort *)
Definition chunk_of (o : list Z) (i : Z) : Z := default 0 (zget o (i * 2 + 1)).
Definition swap (i m j : Z) : Z := if decide (j = i) then m else if decide (j = m) then i else j.

Lemma rows_swap n o r o' r' i m :
  0 ≤ i < n → 0 ≤ m < n → (∀ j, 0 ≤ j < n → row o' r' j = row o r (swap i m j)) → rows n o' r' ≡ₚ rows n o r.
Proof.
  intros Hi Hm Hrow. apply Permutation_inj. split; [unfold rows; by rewrite !length_fmap|].
  exists (λ k, Z.to_nat (swap i m (Z.of_nat k))). split.
  - intros x y. unfold swap. repeat case_decide; lia.
  - intros k. destruct (decide (Z.of_nat k < n)) as [Hk|Hk].
    + rewrite !rows_lookup by (unfold swap; repeat case_decide; lia). f_equal. rewrite Hrow by lia.
      f_equal. unfold swap. repeat case_decide; lia.
    + rewrite !lookup_ge_None_2; [done| |];
        unfold rows; rewrite length_fmap, length_seqZ; unfold swap; repeat case_decide; lia.
Qed.

(** The inner loop finds the least chunk from [i] on. *)
Lemma find_min o i n :
  0 ≤ i < n → n * 2 ≤ zlen o →
  ∃ m, for_range (i + 1) n (min_step o) i = Some m ∧ i ≤ m < n ∧ (∀ b, i ≤ b < n → chunk_of o m ≤ chunk_of o b).
Proof.
  intros Hi Hl.
  destruct (for_range_inv (λ j m, i ≤ m < j ∧ ∀ b, i ≤ b < j → chunk_of o m ≤ chunk_of o b)
    (i + 1) n (min_step o) i) as (m & -> & Hm & Hmin); [lia| | |exists m; split; [done|]; split; [lia|done]].
  - intros j m Hj (Hm & Hmin). unfold min_step.
    destruct (zget_is_Some o (j * 2 + 1)) as [x Hx]; [lia|]. destruct (zget_is_Some o (m * 2 + 1)) as [y Hy]; [lia|].
    rewrite Hx, Hy. cbn [mbind option_bind]. eexists. split; [done|].
    assert (Cx : chunk_of o j = x) by (unfold chunk_of; by rewrite Hx).
    assert (Cy : chunk_of o m = y) by (unfold chunk_of; by rewrite Hy).
    case_decide; (split; [lia|]); intros b Hb; (destruct (decide (b = j)) as [->|]; [lia|]); specialize (Hmin b ltac:(lia)); lia.
  - split; [lia|]. intros b Hb. replace b with i by lia. done.
Qed.

(** A step exchanges the pairs [i] and [m] of both arrays. *)
Definition kept (n : Z) (a a' : list Z) : Prop := zlen a' = zlen a ∧ ∀ k, n * 2 ≤ k → zget a' k = zget a k.

Lemma exchange n a i m (p : Z * Z) :
  0 ≤ i < n → 0 ≤ m < n → n * 2 ≤ zlen a → get_pair a i = Some p →
  ∃ a', (a ← copy_pair a i a m; put_pair a m p) = Some a' ∧ kept n a a' ∧ (∀ j, get_pair a' j = get_pair a (swap i m j)).
Proof.
  intros Hi Hm Hl Hp. unfold copy_pair. destruct (get_pair_is_Some a m) as [q Hq]; [lia..|]. rewrite Hq. cbn [mbind option_bind].
  destruct (put_pair_spec a i q) as (a1 & -> & L1 & G1 & F1); [lia..|]. cbn [mbind option_bind].
  destruct (put_pair_spec a1 m p) as (a2 & -> & L2 & G2 & F2); [lia..|].
  exists a2. split; [done|]. split.
  - split; [lia|]. intros k Hk. rewrite F2 by lia. apply F1; lia.
  - intros j. rewrite G2, G1. unfold swap. repeat case_decide; subst; congruence.
Qed.

Lemma chunk_of_pair o i p : get_pair o i = Some p → chunk_of o i = p.2.
Proof. unfold get_pair, chunk_of. destruct (zget o (i * 2)); [|done]. destruct (zget o (i * 2 + 1)); [|done]. by intros [= <-]. Qed.

Definition sorted_below (n i : Z) (o : list Z) : Prop := ∀ a b, 0 ≤ a < i → a ≤ b < n → chunk_of o a ≤ chunk_of o b.

Lemma sort_step_spec n i o r :
  0 ≤ i < n → n * 2 ≤ zlen o → n * 2 ≤ zlen r → sorted_below n i o →
  ∃ o' r', sort_step n i (o, r) = Some (o', r') ∧ kept n o o' ∧ kept n r r' ∧ rows n o' r' ≡ₚ rows n o r ∧ sorted_below n (i + 1) o'.
Proof.
  intros Hi Ho Hr Hs. unfold sort_step.
  destruct (get_pair_is_Some o i) as [p Hp]; [lia..|]. destruct (get_pair_is_Some r i) as [q Hq]; [lia..|].
  rewrite Hp, Hq. cbn [mbind option_bind].
  destruct (find_min o i n Hi Ho) as (m & -> & Hm & Hmin). cbn [mbind option_bind].
  destruct (exchange n o i m p) as (o' & Eo & Ko & Go); [lia..|done|].
  destruct (exchange n r i m q) as (r' & Er & Kr & Gr); [lia..|done|].
  destruct (copy_pair o i o m) as [o1|] eqn:E1; [|done]. cbn [mbind option_bind] in Eo |- *.
  destruct (copy_pair r i r m) as [r1|] eqn:E2; [|done]. cbn [mbind option_bind] in Er |- *.
  rewrite Eo. cbn [mbind option_bind]. rewrite Er. cbn [mbind option_bind].
  exists o', r'. split; [done|]. split; [done|]. split; [done|]. split.
  - apply (rows_swap n o r o' r' i m); [lia..|]. intros j Hj. unfold row. by rewrite Go, Gr.
  - assert (C : ∀ j, 0 ≤ j < n → chunk_of o' j = chunk_of o (swap i m j)).
    { intros j Hj. assert (0 ≤ swap i m j < n) by (unfold swap; repeat case_decide; lia).
      destruct (get_pair_is_Some o (swap i m j)) as [x Hx]; [lia..|].
      rewrite (chunk_of_pair o' j x) by (by rewrite Go). by rewrite (chunk_of_pair _ _ _ Hx). }
    intros a b Ha Hb. rewrite !C by lia. unfold swap at 1. repeat case_decide; try lia.
    + apply Hmin. unfold swap. repeat case_decide; lia.
    + apply Hs; [lia|]. unfold swap. repeat case_decide; lia.
Qed.

(** ** Lemmas: counting *)

(** The number of [i < k] that satisfy [f]. *)
Definition count_below (f : Z → bool) (k : Z) : Z := zlen (filter (λ i, f i = true) (seqZ 0 k)).

Lemma count_below_0 f : count_below f 0 = 0.
Proof. done. Qed.
Lemma count_below_S f k : 0 ≤ k → count_below f (k + 1) = count_below f k + if f k then 1 else 0.
Proof.
  intros. unfold count_below, zlen. rewrite seqZ_app by lia. rewrite filter_app, length_app.
  change (seqZ (0 + k) 1) with [0 + k]. rewrite Z.add_0_l. rewrite filter_cons, filter_nil.
  destruct (f k); case_decide; try done; simpl; lia.
Qed.
Lemma count_below_range f k : 0 ≤ k → 0 ≤ count_below f k ≤ k.
Proof.
  intros. unfold count_below, zlen. pose proof (length_filter (λ i, f i = true) (seqZ 0 k)) as Hle.
  rewrite length_seqZ in Hle. lia.
Qed.

(** At least [k] less the size of the set lie outside of a set. *)
Lemma count_outside (X : gset Z) k : 0 ≤ k → k - Z.of_nat (size X) ≤ count_below (λ i, bool_decide (i ∉ X)) k.
Proof.
  intros Hk. unfold count_below, zlen.
  set (inside := filter (λ i, i ∈ X) (seqZ 0 k)).
  assert (length inside ≤ size X)%nat.
  { unfold size, set_size. simpl. apply submseteq_length, NoDup_submseteq.
    - apply NoDup_filter, NoDup_seqZ.
    - intros x Hx. apply elem_of_elements. by apply list_elem_of_filter in Hx as [Hx _]. }
  assert (length inside + length (filter (λ i, bool_decide (i ∉ X) = true) (seqZ 0 k)) = length (seqZ 0 k))%nat as E.
  { unfold inside. clear. induction (seqZ 0 k) as [|x xs IH]; [done|]. rewrite !filter_cons.
    destruct (decide (x ∈ X)) as [Hx|Hx].
    - rewrite decide_False by (rewrite bool_decide_false; [done|by intros Hn]). cbn [length]. lia.
    - rewrite decide_True by (by apply bool_decide_true). cbn [length]. lia. }
  rewrite length_seqZ in E. lia.
Qed.

(** A loop that ends has kept what each step keeps. *)
Lemma for_range_post {S : Type} (P : Z → S → Prop) lo hi (body : Z → S → option S) s s' :
  lo ≤ hi → (∀ j s s', lo ≤ j < hi → P j s → body j s = Some s' → P (j + 1) s') → P lo s →
  for_range lo hi body s = Some s' → P hi s'.
Proof.
  intros Hle Hstep Hs. revert s'.
  replace hi with (lo + Z.of_nat (Z.to_nat (hi - lo))) in Hstep |- * by lia.
  induction (Z.to_nat (hi - lo)) as [|n IH]; intros s'.
  - rewrite for_range_nil by lia. intros [= <-]. by replace (lo + Z.of_nat 0) with lo by lia.
  - replace (lo + Z.of_nat (Datatypes.S n)) with (lo + Z.of_nat n + 1) by lia. rewrite for_range_snoc by lia.
    destruct (for_range lo (lo + Z.of_nat n) body s) as [s1|]; [|done]. cbn [mbind option_bind].
    apply Hstep; [lia|]. apply IH; [|done]. intros j t t' Hj. apply Hstep. lia.
Qed.

(** ** Lemmas: dup and expand *)
Lemma chunk_ids_spec a n :
  0 ≤ n → n * 2 ≤ zlen a → ∃ X, chunk_ids a n = Some X ∧ Z.of_nat (size X) ≤ n.
Proof.
  intros Hn Hl. unfold chunk_ids.
  apply (for_range_inv (λ i (X : gset Z), Z.of_nat (size X) ≤ i)); [done| |by rewrite size_empty].
  intros j X Hj HX. destruct (zget_is_Some a (j * 2 + 1)) as [c ->]; [lia|]. cbn [mbind option_bind]. eexists. split; [done|].
  rewrite size_union_alt, size_singleton.
  assert (size (X ∖ {[c]}) ≤ size X)%nat by (apply subseteq_size; set_solver). lia.
Qed.

Lemma copy_pairs_spec a b n :
  0 ≤ n → n * 2 ≤ zlen a → n * 2 ≤ zlen b →
  ∃ a', copy_pairs a b n = Some a' ∧ zlen a' = zlen a ∧ (∀ k, 0 ≤ k < n * 2 → zget a' k = zget b k).
Proof.
  intros Hn Ha Hb. unfold copy_pairs.
  apply (for_range_inv (λ i a', zlen a' = zlen a ∧ ∀ k, 0 ≤ k < i * 2 → zget a' k = zget b k)); [done| |split; [done|lia]].
  intros j a1 Hj (L1 & G1). unfold copy_pair. destruct (get_pair_is_Some b j) as [p Hp]; [lia..|]. rewrite Hp. cbn [mbind option_bind].
  destruct (put_pair_spec a1 j p) as (a2 & -> & L2 & G2 & F2); [lia..|]. exists a2. split; [done|]. split; [lia|].
  intros k Hk. destruct (decide (k < j * 2)) as [|Hge]; [rewrite F2 by lia; apply G1; lia|].
  specialize (G2 j). rewrite decide_True in G2 by done. rewrite <- Hp in G2. unfold get_pair in G2, Hp.
  destruct (zget b (j * 2)) as [x|] eqn:Ex; [|done]. destruct (zget b (j * 2 + 1)) as [y|] eqn:Ey; [|done].
  destruct (zget a2 (j * 2)) as [x'|] eqn:Ex'; [|done]. destruct (zget a2 (j * 2 + 1)) as [y'|] eqn:Ey'; [|done].
  cbn [mbind option_bind] in G2. injection G2 as -> ->.
  destruct (decide (k = j * 2)) as [->|]; [congruence|]. replace k with (j * 2 + 1) by lia. congruence.
Qed.

Lemma zget_take {A} (a : list A) n k : 0 ≤ k < n → zget (take (Z.to_nat n) a) k = zget a k.
Proof. intros. unfold zget. case_decide; [|done]. apply lookup_take_lt. lia. Qed.

(** Arrays of exactly the pairs are copies. *)
Lemma copy_pairs_exact a b n :
  0 ≤ n → zlen a = n * 2 → n * 2 ≤ zlen b → copy_pairs a b n = Some (take (Z.to_nat (n * 2)) b).
Proof.
  intros Hn Ha Hb. destruct (copy_pairs_spec a b n) as (a' & -> & L & G); [lia..|]. f_equal.
  apply list_eq_same_length with (Z.to_nat (n * 2)); unfold zlen in *; [rewrite length_take; lia|lia|].
  intros i x y Hi Hx Hy. specialize (G (Z.of_nat i) ltac:(lia)). unfold zget in G.
  rewrite !decide_True, Nat2Z.id in G by lia. rewrite lookup_take_lt in Hy by lia. congruence.
Qed.

Lemma handled_size (X : gset Z) (l : list Z) : Z.of_nat (size (X ∪ list_to_set l)) ≤ Z.of_nat (size X) + zlen l.
Proof.
  rewrite size_union_alt. assert (size (list_to_set l ∖ X : gset Z) ≤ size (list_to_set l : gset Z))%nat by (apply subseteq_size; set_solver).
  assert (size (list_to_set l : gset Z) ≤ length l)%nat; [|unfold zlen; lia].
  clear. induction l as [|x l IH]; [done|]. cbn [list_to_set length]. rewrite size_union_alt, size_singleton.
  assert (size (list_to_set l ∖ {[x]} : gset Z) ≤ size (list_to_set l : gset Z))%nat by (apply subseteq_size; set_solver). lia.
Qed.

(** The loop of [dup] ends only if the array has room for all chunks that are
    not handled. *)
Lemma add_pairs_room listId cc (handled redirected : gset Z) surviving o r ptr o' r' ptr' :
  0 ≤ cc → 0 ≤ ptr → ptr + cc < 2 ^ 32 →
  add_pairs listId cc handled redirected surviving o r ptr = Some (o', r', ptr') →
  let n := count_below (λ i, bool_decide (i ∉ handled)) cc in 0 < n → (ptr + n) * 2 ≤ zlen o.
Proof.
  intros Hcc Hptr Hlim Hrun. cbv zeta. unfold add_pairs in Hrun.
  set (f := λ i : Z, bool_decide (i ∉ handled)).
  cut (zlen (o', r', ptr').1.1 = zlen o ∧ (o', r', ptr').2 = ptr + count_below f cc ∧
       (0 < count_below f cc → (ptr + count_below f cc) * 2 ≤ zlen o)); [tauto|].
  revert Hrun. apply (for_range_post (λ k s, zlen s.1.1 = zlen o ∧ s.2 = ptr + count_below f k ∧
    (0 < count_below f k → (ptr + count_below f k) * 2 ≤ zlen o))); [done| |by rewrite count_below_0; repeat split; simpl; lia].
  intros j [[o1 r1] p1] s2 Hj (L1 & P1 & R1) Hb. simpl in L1, P1. rewrite count_below_S by lia.
  pose proof (count_below_range f j ltac:(lia)) as Hc. replace (f j) with (bool_decide (j ∉ handled)) by done.
  case_decide as Hin.
  { rewrite bool_decide_false by (intros H; by apply H). injection Hb as <-. simpl. rewrite Z.add_0_r. done. }
  rewrite bool_decide_true by done.
  destruct (zset o1 (p1 * 2) listId) as [o2|] eqn:E1; [|done]. cbn [mbind option_bind] in Hb.
  destruct (zset o2 (p1 * 2 + 1) j) as [o3|] eqn:E2; [|done]. cbn [mbind option_bind] in Hb.
  destruct (zset r1 (p1 * 2) listId) as [r2|]; [|done]. cbn [mbind option_bind] in Hb.
  destruct (match redirect_to redirected surviving with Some c => zset r2 (p1 * 2 + 1) c | None => Some r2 end) as [r3|]; [|done].
  cbn [mbind option_bind] in Hb. injection Hb as <-. simpl.
  assert (L3 : zlen o3 = zlen o2) by (by apply zset_zlen in E2). assert (L2 : zlen o2 = zlen o1) by (by apply zset_zlen in E1).
  apply zset_get_eq, zget_Some in E2. rewrite u32_small by lia. lia.
Qed.

Lemma find_pair_is_Some fuel a n p j : 0 ≤ j → n * 2 ≤ zlen a → ∃ b, find_pair fuel a j n p = Some b.
Proof.
  intros Hj Hl. revert j Hj. induction fuel as [|fuel IH]; intros j Hj; [by exists false|]. cbn [find_pair].
  case_decide as Hn; [|by exists false]. destruct (zget_is_Some a (j * 2)) as [l ->]; [lia|]. cbn [mbind option_bind].
  destruct (zget_is_Some a (j * 2 + 1)) as [c ->]; [lia|]. cbn [mbind option_bind].
  destruct (decide (l = p.1)); cbn [mbind option_bind]; [|apply IH; lia].
  destruct (bool_decide (c = p.2)); [by exists true|apply IH; lia].
Qed.

(** The arrays hold the pairs the lock counts. *)
Definition lock_ok (d : DegradedLock) : Prop :=
  0 ≤ reconstructedCount d ∧ reconstructedCount d * 2 ≤ zlen (original d) ∧ reconstructedCount d * 2 ≤ zlen (reconstructed d).

(** The pair [i] of an array is not in the lock. *)
Definition newly (d : DegradedLock) (o : list Z) (i : Z) : bool := bool_decide (known d o i = Some false).

Lemma known_is_Some d o i : lock_ok d → 0 ≤ i → i * 2 + 1 < zlen o → ∃ b, known d o i = Some b ∧ newly d o i = negb b.
Proof.
  intros (Hn & Ho & _) Hi Hl. unfold newly, known. destruct (get_pair_is_Some o i) as [p ->]; [lia..|]. cbn [mbind option_bind].
  destruct (find_pair_is_Some (Z.to_nat (reconstructedCount d)) (original d) (reconstructedCount d) p 0) as [b ->]; [lia..|].
  exists b. split; [done|]. by destruct b.
Qed.

Lemma count_new_spec d o count :
  lock_ok d → 0 ≤ count < 2 ^ 32 → count * 2 ≤ zlen o → count_new d o count = Some (count_below (newly d o) count).
Proof.
  intros Hd Hc Hl. unfold count_new.
  destruct (for_range_inv (λ i n, n = count_below (newly d o) i) 0 count
    (λ i n, b ← known d o i; Some (if (b : bool) then n else u32 (n + 1))) 0) as (s & E & ->); [lia| |done|done].
  intros j s Hj ->. destruct (known_is_Some d o j Hd) as (b & -> & Hb); [lia..|]. cbn [mbind option_bind]. eexists. split; [done|].
  rewrite count_below_S, Hb by lia. pose proof (count_below_range (newly d o) j). destruct b; simpl; [lia|]. rewrite u32_small by lia. lia.
Qed.

Lemma copy_pair_room a i b j a' : copy_pair a i b j = Some a' → zlen a' = zlen a ∧ i * 2 + 2 ≤ zlen a.
Proof.
  unfold copy_pair, put_pair. destruct (get_pair b j) as [p|]; [|done]. cbn [mbind option_bind].
  destruct (zset a (i * 2) p.1) as [a1|] eqn:E1; [|done]. cbn [mbind option_bind]. intros E2.
  pose proof (zset_zlen _ _ _ _ E1). pose proof (zset_zlen _ _ _ _ E2). apply zset_get_eq, zget_Some in E2. lia.
Qed.

(** So does the loop of [expand]. *)
Lemma expand_room d o0 r0 count o r ptr o' r' ptr' :
  lock_ok d → 0 ≤ count → count * 2 ≤ zlen o0 → 0 ≤ ptr → ptr + count < 2 ^ 32 →
  for_range 0 count (λ i '(o, r, tmp),
    b ← known d o0 i;
    if (b : bool) then Some (o, r, tmp) else
    o ← copy_pair o tmp o0 i;
    r ← copy_pair r tmp r0 i;
    Some (o, r, u32 (tmp + 1))) (o, r, ptr) = Some (o', r', ptr') →
  let n := count_below (newly d o0) count in 0 < n → (ptr + n) * 2 ≤ zlen o.
Proof.
  intros Hd Hc Hl Hptr Hlim Hrun. cbv zeta. set (f := newly d o0).
  cut (zlen (o', r', ptr').1.1 = zlen o ∧ (o', r', ptr').2 = ptr + count_below f count ∧
       (0 < count_below f count → (ptr + count_below f count) * 2 ≤ zlen o)); [tauto|].
  revert Hrun. apply (for_range_post (λ k s, zlen s.1.1 = zlen o ∧ s.2 = ptr + count_below f k ∧
    (0 < count_below f k → (ptr + count_below f k) * 2 ≤ zlen o))); [done| |by rewrite count_below_0; repeat split; simpl; lia].
  intros j [[o1 r1] p1] s2 Hj (L1 & P1 & R1) Hb. simpl in L1, P1. rewrite count_below_S by lia.
  pose proof (count_below_range f j ltac:(lia)) as Hcb.
  destruct (known_is_Some d o0 j Hd) as (b & Hk & Hf); [lia..|]. rewrite Hk in Hb. cbn [mbind option_bind] in Hb. change (f j = negb b) in Hf. rewrite Hf.
  destruct b; simpl negb; cbn iota.
  { injection Hb as <-. simpl. rewrite Z.add_0_r. done. }
  destruct (copy_pair o1 p1 o0 j) as [o2|] eqn:E1; [|done]. cbn [mbind option_bind] in Hb.
  destruct (copy_pair r1 p1 r0 j) as [r2|]; [|done]. cbn [mbind option_bind] in Hb. injection Hb as <-.
  apply copy_pair_room in E1 as [L2 Hroom]. simpl. rewrite u32_small by lia. lia.
Qed.

(** ** Properties *)

(** [sort] puts the pairs of a lock in the order of their original chunks:
    it ends, keeps the pairs (each chunk with its place), and leaves what is behind
    them in the arrays alone. *)
Theorem sort_permutes d :
  lock_ok d →
  ∃ d', sort d = Some d' ∧ reconstructedCount d' = reconstructedCount d ∧ ongoingAtChunk d' = ongoingAtChunk d ∧
    rows (reconstructedCount d) (original d') (reconstructed d') ≡ₚ rows (reconstructedCount d) (original d) (reconstructed d) ∧
    (∀ a b, 0 ≤ a ≤ b → b < reconstructedCount d → chunk_of (original d') a ≤ chunk_of (original d') b) ∧
    kept (reconstructedCount d) (original d) (original d') ∧ kept (reconstructedCount d) (reconstructed d) (reconstructed d').
Proof.
  intros (Hn & Ho & Hr). unfold sort. set (n := reconstructedCount d) in *.
  destruct (for_range_inv (λ i s, kept n (original d) s.1 ∧ kept n (reconstructed d) s.2 ∧
      rows n s.1 s.2 ≡ₚ rows n (original d) (reconstructed d) ∧ sorted_below n i s.1)
    0 n (sort_step n) (original d, reconstructed d)) as ([o r] & -> & Ko & Kr & Hp & Hs); [done| | |].
  - intros i [o r] Hi ((Lo & Ko) & (Lr & Kr) & Hp & Hs). cbn [fst snd] in *.
    destruct (sort_step_spec n i o r) as (o' & r' & -> & (Lo' & Ko') & (Lr' & Kr') & Hp' & Hs'); [done|lia..|done|].
    exists (o', r'). simpl. split; [done|]. split; [split; [lia|intros; rewrite Ko'; auto]|].
    split; [split; [lia|intros; rewrite Kr'; auto]|]. split; [by rewrite Hp'|done].
  - split; [done|]. split; [done|]. split; [done|]. intros a b Ha. simpl in Ha. lia.
  - simpl in *. eexists. split; [done|]. simpl. split; [done|]. split; [done|]. split; [done|].
    split; [|done]. intros a b Hab Hb. apply Hs; lia.
Qed.

(** A lock has as many rows in a copy of its pairs. *)
Lemma rows_take n o r : rows n (take (Z.to_nat (n * 2)) o) (take (Z.to_nat (n * 2)) r) = rows n o r.
Proof.
  unfold rows. apply list_fmap_ext. intros k i Hk. apply lookup_seqZ in Hk as [-> ?].
  assert (Hz : ∀ (a : list Z) j, 0 ≤ j < n * 2 → zget (take (Z.to_nat (n * 2)) a) j = zget a j).
  { intros a j Hj. unfold zget. case_decide; [|done]. rewrite lookup_take_lt by lia. done. }
  unfold row, get_pair. by rewrite !Hz by lia.
Qed.

Lemma dup_cases junk d surviving chunkCount :
  lock_ok d → 0 < reconstructedCount d → reconstructedCount d + zlen surviving ≤ chunkCount < 2 ^ 31 →
  dup junk d surviving chunkCount =
    if decide (reconstructedCount d + zlen surviving = chunkCount)
    then sort (MkLock (take (Z.to_nat (reconstructedCount d * 2)) (original d)) (take (Z.to_nat (reconstructedCount d * 2)) (reconstructed d))
                (reconstructedCount d) (ongoingAtChunk d))
    else None.
Proof.
  intros (Hn & Ho & Hr) Hpos Hcc. unfold dup. set (n := reconstructedCount d) in *.
  pose proof (zlen_nonneg surviving) as Hs. set (new := u32 (chunkCount - zlen surviving - n)).
  assert (Hnew : new = chunkCount - zlen surviving - n) by (apply u32_small; lia).
  rewrite decide_False by lia. destruct (zget_is_Some (original d) 0) as [l ->]; [lia|]. cbn [mbind option_bind].
  rewrite decide_True by lia. rewrite (u32_small (n * 2 + new)) by lia.
  assert (Hlen : ∀ k, 0 ≤ k → zlen (new_array junk k) = k) by (intros; unfold zlen, new_array; rewrite length_fmap, length_seq; lia).
  destruct (decide (n + zlen surviving = chunkCount)) as [Hall|Hleft].
  - rewrite !copy_pairs_exact by (rewrite ?Hlen by lia; lia). cbn [mbind option_bind]. rewrite decide_True by lia. done.
  - destruct (copy_pairs_spec (new_array junk (n * 2 + new)) (original d) n) as (o & -> & Lo & _); [rewrite ?Hlen by lia; lia..|]. cbn [mbind option_bind].
    destruct (copy_pairs_spec (new_array junk (n * 2 + new)) (reconstructed d) n) as (r & -> & Lr & _); [rewrite ?Hlen by lia; lia..|]. cbn [mbind option_bind].
    rewrite decide_False by lia.
    destruct (chunk_ids_spec (original d) n) as (X & -> & HX); [lia..|]. cbn [mbind option_bind].
    destruct (chunk_ids_spec (reconstructed d) n) as (Y & -> & _); [lia..|]. cbn [mbind option_bind].
    destruct (add_pairs l chunkCount (X ∪ list_to_set surviving) Y surviving o r n) as [[[o' r'] p]|] eqn:E; [|done].
    apply add_pairs_room in E; [|lia..|].
    + rewrite Hlen in Lo by lia. pose proof (handled_size X surviving). pose proof (count_outside (X ∪ list_to_set surviving) chunkCount). lia.
    + pose proof (handled_size X surviving). pose proof (count_outside (X ∪ list_to_set surviving) chunkCount). lia.
Qed.

(** C40: When the lock and the surviving chunks are all chunks of the stripe, [dup]
    is the sorted copy of the lock: it succeeds, has the same pairs in the order of
    their original chunks, and arrays of just their size.  When a chunk is left over,
    it writes behind the new arrays. *)
Theorem dup_outcome junk d surviving chunkCount :
  lock_ok d → 0 < reconstructedCount d → reconstructedCount d + zlen surviving ≤ chunkCount < 2 ^ 31 →
  dup junk d surviving chunkCount =
    (if decide (reconstructedCount d + zlen surviving = chunkCount)
     then sort (MkLock (take (Z.to_nat (reconstructedCount d * 2)) (original d)) (take (Z.to_nat (reconstructedCount d * 2)) (reconstructed d))
                 (reconstructedCount d) (ongoingAtChunk d))
     else None) ∧
  (reconstructedCount d + zlen surviving = chunkCount →
   ∃ d', dup junk d surviving chunkCount = Some d' ∧ reconstructedCount d' = reconstructedCount d ∧ ongoingAtChunk d' = ongoingAtChunk d ∧
     rows (reconstructedCount d) (original d') (reconstructed d') ≡ₚ rows (reconstructedCount d) (original d) (reconstructed d) ∧
     (∀ a b, 0 ≤ a ≤ b → b < reconstructedCount d → chunk_of (original d') a ≤ chunk_of (original d') b) ∧
     zlen (original d') = reconstructedCount d * 2 ∧ zlen (reconstructed d') = reconstructedCount d * 2).
Proof.
  intros Hok Hpos Hcc. rewrite dup_cases by done. split; [done|]. intros Hall. rewrite decide_True by done.
  destruct Hok as (? & Ho & Hr). set (n := reconstructedCount d) in *.
  assert (Hlen : ∀ a : list Z, n * 2 ≤ zlen a → zlen (take (Z.to_nat (n * 2)) a) = n * 2).
  { intros a Ha. unfold zlen in *. rewrite length_take. lia. }
  destruct (sort_permutes (MkLock (take (Z.to_nat (n * 2)) (original d)) (take (Z.to_nat (n * 2)) (reconstructed d)) n (ongoingAtChunk d)))
    as (d' & -> & Hc & Hg & Hp & Hs & [Ko _] & [Kr _]).
  { split; [done|]. simpl. by rewrite !Hlen by done. }
  cbn [reconstructedCount original reconstructed ongoingAtChunk] in *. rewrite rows_take in Hp. rewrite Hlen in Ko, Kr by done.
  exists d'. done.
Qed.

(** [expand] of a lock that has pairs leaves it as it is when it knows all of
    the new ones, and writes behind the new arrays otherwise. *)
Theorem expand_outcome junk d o r count ongoing surviving chunkCount :
  lock_ok d → 0 < reconstructedCount d → 0 ≤ count → reconstructedCount d + count < 2 ^ 31 →
  count * 2 ≤ zlen o → count * 2 ≤ zlen r →
  expand junk d o r count ongoing surviving chunkCount =
    if decide (count_below (newly d o) count = 0) then Some d else None.
Proof.
  intros Hd Hpos Hc Hlim Hlo Hlr. pose proof Hd as (Hn & Ho & Hr). unfold expand.
  rewrite (decide_False (P := reconstructedCount d = 0)) by lia. cbn [mbind option_bind].
  destruct (decide (count = 0)) as [->|Hc0]; [by rewrite count_below_0|].
  rewrite count_new_spec by (done || lia). cbn [mbind option_bind].
  pose proof (count_below_range (newly d o) count ltac:(lia)) as Hcb. set (new := count_below (newly d o) count) in *.
  destruct (decide (new = 0)) as [|Hnew0]; [done|]. rewrite u32_small by lia.
  set (size := new + reconstructedCount d). set (n := reconstructedCount d) in *.
  assert (Hlen : zlen (new_array junk size) = size) by (unfold zlen, new_array; rewrite length_fmap, length_seq; lia).
  destruct (slice (original d) 0 (n * 2)) as [oldO|]; [|done]. cbn [mbind option_bind].
  destruct (slice (reconstructed d) 0 (n * 2)) as [oldR|]; [|done]. cbn [mbind option_bind].
  destruct (splice (new_array junk size) 0 oldO) as [o1|] eqn:E1; [|done]. cbn [mbind option_bind].
  destruct (splice (new_array junk size) 0 oldR) as [r1|]; [|done]. cbn [mbind option_bind].
  apply splice_zlen in E1.
  match goal with |- (x ← ?e; _) = None => destruct e as [[[o2 r2] p]|] eqn:E2; [|done] end.
  apply expand_room in E2; [lia|done|lia..].
Qed.
(** ** Witnesses *)

(** Chunks 9 and 4 of list 1 are at chunks 2 and 0; 10 chunks per stripe. *)
Definition ex_lock : DegradedLock := MkLock [1; 9; 1; 4] [1; 2; 1; 0] 2 9.
Lemma ex_lock_ok : lock_ok ex_lock.
Proof. unfold lock_ok, zlen; simpl; lia. Qed.

Lemma sort_permutes_witness :
  sort ex_lock = Some (MkLock [1; 4; 1; 9] [1; 0; 1; 2] 2 9) ∧
  ∃ d', sort ex_lock = Some d' ∧ rows 2 (original d') (reconstructed d') ≡ₚ rows 2 (original ex_lock) (reconstructed ex_lock).
Proof.
  split; [by vm_compute|]. destruct (sort_permutes ex_lock ex_lock_ok) as (d' & E & _ & _ & H & _). exists d'. split; [exact E|exact H].
Defined.

Lemma dup_outcome_witness :
  dup (λ _, 7) ex_lock [0; 1; 2; 3; 5; 6; 7; 8] 10 = Some (MkLock [1; 4; 1; 9] [1; 0; 1; 2] 2 9) ∧
  dup (λ _, 7) ex_lock [0; 1; 2; 3; 5; 6; 7] 10 = None.
Proof.
  split.
  - rewrite (proj1 (dup_outcome (λ _, 7) ex_lock [0; 1; 2; 3; 5; 6; 7; 8] 10 ex_lock_ok ltac:(simpl; lia) ltac:(unfold zlen; simpl; lia))).
    by vm_compute.
  - rewrite (proj1 (dup_outcome (λ _, 7) ex_lock [0; 1; 2; 3; 5; 6; 7] 10 ex_lock_ok ltac:(simpl; lia) ltac:(unfold zlen; simpl; lia))).
    by vm_compute.
Defined.

Lemma expand_outcome_witness :
  expand (λ _, 7) ex_lock [1; 4] [1; 0] 1 4 [0] 10 = Some ex_lock ∧ expand (λ _, 7) ex_lock [1; 5] [1; 0] 1 4 [0] 10 = None.
Proof.
  split.
  - rewrite (expand_outcome (λ _, 7) ex_lock [1; 4] [1; 0] 1 4 [0] 10 ex_lock_ok); [by vm_compute|unfold zlen; simpl; lia..].
  - rewrite (expand_outcome (λ _, 7) ex_lock [1; 5] [1; 0] 1 4 [0] 10 ex_lock_ok); [by vm_compute|unfold zlen; simpl; lia..].
Defined.
End DegradedLock.
