(* ===== verification/CoordMap.v ===== *)
(** * Map: what the coordinator knows about a server (coordinator/ds/map.{hh,cc})

    Per server: the sealed chunks, the location of every key that the server has
    reported, with the last operation on it, and the keys that a client has locked
    for remapping.  Shared by all: the locks of degraded stripes and the highest
    stripe of every list.  The locks of the members make each method one step.

    [insertKey_spec] is the decision table of [insertKey] on finite maps;
    [reports_in_any_order]: a SET and the DELETE behind it cancel, in either
    order of arrival; [key_lock_exclusive]: of the clients that ask for the lock of
    a key only the first gets it, until the key is reported. *)

From S2P Require Export DegradedLock KeyMap ChunkUtil MessagesBatch.

Module CoordMap.
Import KeyMap ListStripe DegradedLock Metadata.

Abbreviation Key := Key.Key.

Definition PROTO_OPCODE_SET : Z := 0x02.
Definition PROTO_OPCODE_DELETE : Z := 0x04.
Definition PROTO_OPCODE_DEGRADED_SET : Z := 0x10.
Definition PROTO_OPCODE_REMAPPING_LOCK : Z := 0x20.

Record Map := MkMap { chunks : gset Metadata; keys : key_map OpMetadata; lockedKeys : key_map unit }.

(** The static members. *)
Record Shared := MkShared {
  stripes : list Z;
  degradedLocks : gmap ListStripe DegradedLock;
  releasingDegradedLocks : gmap ListStripe DegradedLock;
}.

(** The tables of locks are empty when the program starts. *)
Definition init (numStripeList : Z) : Shared := MkShared (replicate (Z.to_nat numStripeList) 0) ∅ ∅.
Definition Map_new : Map := MkMap ∅ [] [].

(** Outside of the array [stripes] there is no result. *)
Definition updateMaxStripeId (s : Shared) (listId stripeId : Z) : option (bool * Shared) :=
  cur ← zget (stripes s) listId;
  if decide (cur < stripeId) then
    st ← zset (stripes s) listId stripeId;
    Some (true, MkShared st (degradedLocks s) (releasingDegradedLocks s))
  else Some (false, s).

Definition insertChunk (t : Map) (s : Shared) (listId stripeId chunkId : Z) : option (bool * Map * Shared) :=
  let metadata := Metadata.set listId stripeId chunkId in
  let t' := MkMap ({[ metadata ]} ∪ chunks t) (keys t) (lockedKeys t) in
  '(_, s) ← updateMaxStripeId s listId stripeId;
  Some (bool_decide (metadata ∉ chunks t), t', s).

(** [it->second = opMetadata] of the pair of a key. *)
Fixpoint replace {V : Type} (t : key_map V) (key : Key) (v : V) : option (key_map V) :=
  match t with
  | [] => Some []
  | kv :: t' => b ← same_key kv.1 key;
      if (b : bool) then Some ((kv.1, v) :: t') else t'' ← replace t' key v; Some (kv :: t'')
  end.

(** An unseen key is entered as a copy, and its lock released. *)
Definition enter (t : Map) (key : Key) (op : OpMetadata) : option (bool * Map) :=
  key ← Key_dup key (Key.isLarge key);
  '(ret, ks) ← insert (keys t) key op;
  l ← erase (lockedKeys t) key;
  Some (ret, MkMap (chunks t) ks l).

Definition remove (t : Map) (key : Key) : option (bool * Map) :=
  ks ← erase (keys t) key; Some (true, MkMap (chunks t) ks (lockedKeys t)).
Definition overwrite (t : Map) (key : Key) (op : OpMetadata) : option (bool * Map) :=
  ks ← replace (keys t) key op; Some (true, MkMap (chunks t) ks (lockedKeys t)).

(** The [switch] on the operation.  An unknown one prints the record of the key,
    which is behind the end when there is none. *)
Definition insertKey_switch (t : Map) (key : Key) (op : OpMetadata) : option (bool * Map) :=
  it ← find (keys t) key;
  if decide (om_opcode op = PROTO_OPCODE_SET ∨ om_opcode op = PROTO_OPCODE_DEGRADED_SET) then
    match it with
    | Some (k, old) =>
        if decide (om_timestamp old > om_timestamp op) then
          if decide (om_opcode old = PROTO_OPCODE_SET ∨ om_opcode old = PROTO_OPCODE_DEGRADED_SET) then overwrite t key op
          else if decide (om_opcode old = PROTO_OPCODE_DELETE) then remove t k
          else Some (false, t)
        else overwrite t key op
    | None => enter t key op
    end
  else if decide (om_opcode op = PROTO_OPCODE_DELETE) then
    match it with Some (k, _) => remove t k | None => enter t key op end
  else if decide (om_opcode op = PROTO_OPCODE_REMAPPING_LOCK) then
    match it with
    | Some _ => Some (false, t)
    | None =>
        l ← find (lockedKeys t) key;
        match l with
        | Some _ => Some (false, t)
        | None =>
            key ← Key_dup key (Key.isLarge key);
            '(_, l) ← insert (lockedKeys t) key tt;
            Some (true, MkMap (chunks t) (keys t) l)
        end
    end
  else match it with Some _ => Some (false, t) | None => None end.

Definition insertKey (t : Map) (s : Shared) (isLarge : bool) (keyStr : list byte) (keySize listId stripeId chunkId opcode timestamp : Z) :
    option (bool * Map * Shared) :=
  '(ret, t) ← insertKey_switch t (Key.MkKey keySize keyStr isLarge) (MkOpMetadata opcode (Metadata.set listId stripeId chunkId) timestamp);
  '(_, s) ← updateMaxStripeId s listId stripeId;
  Some (ret, t, s).

(** [count0] is what the memory of the new lock holds before. *)
Definition insertDegradedLock (junk : nat → Z) (count0 : Z) (s : Shared) (listId stripeId : Z) (original reconstructed : list Z)
    (reconstructedCount ongoingAtChunk : Z) (surviving : list Z) (chunkCount : Z) : option (bool * Shared) :=
  let d := DegradedLock_new count0 original reconstructed reconstructedCount ongoingAtChunk in
  let ls := ListStripe.set listId stripeId in
  match degradedLocks s !! ls with
  | None => d ← dup junk d surviving chunkCount;
      Some (true, MkShared (stripes s) (<[ls := d]> (degradedLocks s)) (releasingDegradedLocks s))
  | Some _ => Some (false, s)
  end.

(** The lock that was found and expanded is copied out. *)
Definition expandDegradedLock (junk : nat → Z) (s : Shared) (listId stripeId : Z) (original reconstructed : list Z)
    (reconstructedCount ongoingAtChunk : Z) (surviving : list Z) (chunkCount : Z) : option (option DegradedLock * Shared) :=
  let ls := ListStripe.set listId stripeId in
  match degradedLocks s !! ls with
  | None => Some (None, s)
  | Some d => d ← expand junk d original reconstructed reconstructedCount ongoingAtChunk surviving chunkCount;
      Some (Some d, MkShared (stripes s) (<[ls := d]> (degradedLocks s)) (releasingDegradedLocks s))
  end.

Definition findMetadataByKey (t : Map) (keyStr : list byte) (keySize : Z) (isLarge : bool) : option (option Metadata) :=
  it ← find (keys t) (Key.MkKey keySize keyStr isLarge); Some (option_map (λ kv, om_metadata kv.2) it).

Definition findDegradedLock (s : Shared) (listId stripeId : Z) : option DegradedLock := degradedLocks s !! ListStripe.set listId stripeId.

Definition isSealed (t : Map) (metadata : Metadata) : bool := bool_decide (metadata ∈ chunks t).

(** ** Lemmas: finite maps *)

(** What an operation does to the record and the lock of its key: the result, the
    record, and whether the key is locked.  No result: an unknown operation. *)
Definition key_step (old : option OpMetadata) (locked : bool) (op : OpMetadata) : option (bool * option OpMetadata * bool) :=
  let sets o := om_opcode o = PROTO_OPCODE_SET ∨ om_opcode o = PROTO_OPCODE_DEGRADED_SET in
  match old with
  | None =>
      if decide (sets op ∨ om_opcode op = PROTO_OPCODE_DELETE) then Some (true, Some op, false)
      else if decide (om_opcode op = PROTO_OPCODE_REMAPPING_LOCK) then Some (negb locked, None, true)
      else None
  | Some o =>
      if decide (sets op) then
        if decide (om_timestamp o ≤ om_timestamp op ∨ sets o) then Some (true, Some op, locked)
        else if decide (om_opcode o = PROTO_OPCODE_DELETE) then Some (true, None, locked)
        else Some (false, Some o, locked)
      else if decide (om_opcode op = PROTO_OPCODE_DELETE) then Some (true, None, locked)
      else Some (false, Some o, locked)
  end.

Section refinement.
Context (K : Key → Prop) (HK : discriminated K).

Lemma replace_keys {V} (t t' : key_map V) k v : replace t k v = Some t' → t'.*1 = t.*1.
Proof using.
  revert t'. induction t as [|[k' w] t IH]; simpl; intros t'; [by intros [= <-]|].
  destruct (same_key k' k) as [b|]; [|done]. cbn [mbind option_bind]. destruct b; [by intros [= <-]|].
  destruct (replace t k v) as [t''|]; [|done]. cbn [mbind option_bind]. intros [= <-]. simpl. f_equal. by apply IH.
Qed.

Lemma replace_spec {V} (t : key_map V) M k v :
  holds_map K t M → K k → is_Some (M !! k) → ∃ t', replace t k v = Some t' ∧ holds_map K t' (<[k := v]> M).
Proof using HK.
  intros (Hn & Hk & ->) HKk Hin.
  cut (∃ t', replace t k v = Some t' ∧ list_to_map t' = <[k := v]> (list_to_map t : gmap Key V)).
  { intros (t' & E & Hm). exists t'. split; [done|]. split; [by rewrite (replace_keys _ _ _ _ E)|].
    split; [by rewrite (replace_keys _ _ _ _ E)|done]. }
  induction t as [|[k' w] t IH]; simpl in *; [by destruct Hin|].
  apply NoDup_cons in Hn as [Hni Hn]. apply Forall_cons in Hk as [HKk' Hk].
  rewrite (proj1 HK k' k) by done. cbn [mbind option_bind]. case_bool_decide as Heq.
  - subst k'. eexists. split; [done|]. simpl. by rewrite insert_insert_eq.
  - rewrite lookup_insert_ne in Hin by done. destruct (IH Hn Hk Hin) as (t' & -> & Hm). cbn [mbind option_bind].
    eexists. split; [done|]. simpl. rewrite Hm. by apply insert_insert_ne.
Qed.

Definition put_opt {V : Type} (k : Key) (o : option V) (M : gmap Key V) : gmap Key V :=
  match o with Some v => <[k := v]> M | None => delete k M end.
Lemma put_opt_same {V} k (o : option V) M : M !! k = o → put_opt k o M = M.
Proof using. intros <-. unfold put_opt. destruct (M !! k) eqn:E; [by apply insert_id|by apply delete_id]. Qed.
Lemma put_opt_lookup {V} k (o : option V) M : put_opt k o M !! k = o.
Proof using. destruct o; simpl; [apply lookup_insert_eq|apply lookup_delete_eq]. Qed.
Lemma put_opt_other {V} k k' (o : option V) M : k ≠ k' → put_opt k o M !! k' = M !! k'.
Proof using. intros. destruct o; simpl; [by apply lookup_insert_ne|by apply lookup_delete_ne]. Qed.

(** The map holds the records [O] and the locked keys [L]. *)
Definition map_holds (t : Map) (O : gmap Key OpMetadata) (L : gmap Key unit) : Prop :=
  holds_map K (keys t) O ∧ holds_map K (lockedKeys t) L.

Definition locked_as (b : bool) : option unit := if b then Some tt else None.

Lemma enter_spec t O L key op :
  map_holds t O L → K key → Key.wf key → O !! key = None →
  ∃ t', enter t key op = Some (true, t') ∧ chunks t' = chunks t ∧ map_holds t' (<[key := op]> O) (delete key L).
Proof using HK.
  intros [Ho Hl] HKk Hw Hno. unfold enter. rewrite (Key_dup_K K HK) by done. cbn [mbind option_bind].
  destruct (insert_spec K HK _ O key op Ho HKk) as (ks & -> & Hks). rewrite bool_decide_eq_true_2 by done. cbn [mbind option_bind].
  destruct (erase_spec K HK _ L key Hl HKk) as (l & -> & Hl'). cbn [mbind option_bind].
  rewrite decide_True in Hks by done. eexists. split; [done|]. done.
Qed.

Lemma remove_spec t O L key :
  map_holds t O L → K key → ∃ t', remove t key = Some (true, t') ∧ chunks t' = chunks t ∧ map_holds t' (delete key O) L.
Proof using HK.
  intros [Ho Hl] HKk. unfold remove. destruct (erase_spec K HK _ O key Ho HKk) as (ks & -> & Hks). cbn [mbind option_bind].
  eexists. split; [done|]. done.
Qed.

Lemma overwrite_spec t O L key op :
  map_holds t O L → K key → is_Some (O !! key) →
  ∃ t', overwrite t key op = Some (true, t') ∧ chunks t' = chunks t ∧ map_holds t' (<[key := op]> O) L.
Proof using HK.
  intros [Ho Hl] HKk Hin. unfold overwrite. destruct (replace_spec _ O key op Ho HKk Hin) as (ks & -> & Hks). cbn [mbind option_bind].
  eexists. split; [done|]. done.
Qed.

Lemma lock_spec t O L key :
  map_holds t O L → K key → Key.wf key → L !! key = None →
  ∃ t', (key ← Key_dup key (Key.isLarge key); '(_, l) ← insert (lockedKeys t) key tt; Some (true, MkMap (chunks t) (keys t) l)) = Some (true, t') ∧
    chunks t' = chunks t ∧ map_holds t' O (<[key := tt]> L).
Proof using HK.
  intros [Ho Hl] HKk Hw Hno. rewrite (Key_dup_K K HK) by done. cbn [mbind option_bind].
  destruct (insert_spec K HK _ L key tt Hl HKk) as (l & -> & Hl'). rewrite decide_True in Hl' by done. cbn [mbind option_bind].
  eexists. split; [done|]. done.
Qed.

(** The switch does to the finite maps what the table says. *)
Lemma insertKey_spec t O L key op r o b :
  map_holds t O L → K key → Key.wf key → key_step (O !! key) (bool_decide (is_Some (L !! key))) op = Some (r, o, b) →
  ∃ t', insertKey_switch t key op = Some (r, t') ∧ chunks t' = chunks t ∧ map_holds t' (put_opt key o O) (put_opt key (locked_as b) L).
Proof using HK.
  intros Ht HKk Hw. unfold insertKey_switch. rewrite (find_spec K HK _ O) by (done || apply Ht). cbn [mbind option_bind].
  assert (HL : put_opt key (locked_as (bool_decide (is_Some (L !! key)))) L = L).
  { apply put_opt_same. destruct (L !! key) as [[]|]; done. }
  destruct (O !! key) as [old|] eqn:E; cbn [fmap option_fmap option_map key_step].
  - assert (Hin : is_Some (O !! key)) by (by exists old).
    assert (Hsame : put_opt key (Some old) O = O) by (by apply put_opt_same).
    destruct (overwrite_spec t O L key op Ht HKk Hin) as (t1 & E1 & C1 & H1).
    destruct (remove_spec t O L key Ht HKk) as (t2 & E2 & C2 & H2).
    repeat case_decide; try lia; intros [= <- <- <-]; rewrite HL;
      first [exists t1; by rewrite E1 | exists t2; by rewrite E2 | exists t; by rewrite Hsame | exfalso; tauto].
  - destruct (enter_spec t O L key op Ht HKk Hw E) as (t1 & E1 & C1 & H1).
    repeat case_decide; try tauto; intros [= <- <- <-]; [exists t1; by rewrite E1..|].
    rewrite (find_spec K HK _ L) by (done || apply Ht). cbn [mbind option_bind].
    rewrite (put_opt_same key None O) by done. destruct (L !! key) as [[]|] eqn:EL; cbn [fmap option_fmap option_map].
    + exists t. by rewrite put_opt_same.
    + destruct (lock_spec t O L key Ht HKk Hw EL) as (t2 & -> & C2 & Hh2). by exists t2.
Qed.

(** ** Sequences of requests *)
Definition known_op (op : OpMetadata) : Prop :=
  om_opcode op ∈ [PROTO_OPCODE_SET; PROTO_OPCODE_DELETE; PROTO_OPCODE_DEGRADED_SET; PROTO_OPCODE_REMAPPING_LOCK].

Lemma key_step_total old locked op : known_op op → ∃ r o b, key_step old locked op = Some (r, o, b).
Proof using.
  unfold known_op. intros Hop; set_unfold in Hop. unfold key_step.
  destruct old; repeat case_decide; eauto; exfalso; tauto.
Qed.

(** A request for a key among [K], with a list that exists. *)
Definition request_ok (s : Shared) (req : Key * OpMetadata) : Prop :=
  K req.1 ∧ Key.wf req.1 ∧ known_op req.2 ∧ 0 ≤ listId (om_metadata req.2) < zlen (stripes s).

Lemma updateMaxStripeId_spec s l x :
  0 ≤ l < zlen (stripes s) →
  ∃ ret s', updateMaxStripeId s l x = Some (ret, s') ∧ zlen (stripes s') = zlen (stripes s) ∧
    degradedLocks s' = degradedLocks s ∧ releasingDegradedLocks s' = releasingDegradedLocks s ∧
    zget (stripes s') l = Z.max x <$> zget (stripes s) l ∧ (∀ l', l' ≠ l → zget (stripes s') l' = zget (stripes s) l').
Proof using.
  intros Hl. unfold updateMaxStripeId. destruct (zget_is_Some (stripes s) l Hl) as [cur E]. rewrite E. cbn [mbind option_bind].
  case_decide as Hlt.
  - destruct (zset (stripes s) l x) as [st|] eqn:Es; [|by rewrite zset_Some in Es]. cbn [mbind option_bind].
    eexists _, _. split; [done|]. cbn [stripes degradedLocks releasingDegradedLocks].
    split; [by eapply zset_zlen|]. split; [done|]. split; [done|]. split.
    + rewrite (zset_get_eq _ _ _ _ Es). simpl. f_equal. lia.
    + intros l' Hne. by apply (zset_get_ne _ _ _ _ _ Es).
  - eexists _, _. split; [done|]. split; [done|]. split; [done|]. split; [done|]. split; [|done].
    rewrite E. simpl. f_equal. lia.
Qed.

Definition insert_request (t : Map) (s : Shared) (req : Key * OpMetadata) : option (bool * Map * Shared) :=
  let '(k, op) := req in
  insertKey t s (Key.isLarge k) (Key.data k) (Key.size k) (listId (om_metadata op)) (stripeId (om_metadata op)) (chunkId (om_metadata op))
    (om_opcode op) (om_timestamp op).

Lemma insert_request_spec t s O L req :
  map_holds t O L → request_ok s req →
  ∃ r o b t' s', key_step (O !! req.1) (bool_decide (is_Some (L !! req.1))) req.2 = Some (r, o, b) ∧
    insert_request t s req = Some (r, t', s') ∧ chunks t' = chunks t ∧ zlen (stripes s') = zlen (stripes s) ∧
    map_holds t' (put_opt req.1 o O) (put_opt req.1 (locked_as b) L).
Proof using HK.
  destruct req as [k op]. intros Ht (HKk & Hw & Hop & Hl). simpl in *.
  destruct (key_step_total (O !! k) (bool_decide (is_Some (L !! k))) op Hop) as (r & o & b & E). exists r, o, b.
  destruct (insertKey_spec t O L k op r o b Ht HKk Hw E) as (t' & E' & Hc & Ht').
  destruct (updateMaxStripeId_spec s (listId (om_metadata op)) (stripeId (om_metadata op)) Hl) as (r2 & s' & Es & Hs & _).
  exists t', s'. split; [done|]. split; [|done]. unfold insert_request, insertKey.
  replace (Key.MkKey (Key.size k) (Key.data k) (Key.isLarge k)) with k by (by destruct k).
  replace (MkOpMetadata (om_opcode op) (Metadata.set (listId (om_metadata op)) (stripeId (om_metadata op)) (chunkId (om_metadata op))) (om_timestamp op))
    with op by (by destruct op as [? [] ?]).
  rewrite E'. cbn [mbind option_bind]. by rewrite Es.
Qed.

(** One request after the other, with the results. *)
Fixpoint insert_requests (t : Map) (s : Shared) (reqs : list (Key * OpMetadata)) : option (list bool * Map * Shared) :=
  match reqs with
  | [] => Some ([], t, s)
  | req :: reqs =>
      '(r, t, s) ← insert_request t s req;
      '(rs, t, s) ← insert_requests t s reqs;
      Some (r :: rs, t, s)
  end.

Lemma request_ok_ext s s' req : zlen (stripes s') = zlen (stripes s) → request_ok s req → request_ok s' req.
Proof using. unfold request_ok. by intros ->. Qed.

(** While a key is locked and not reported, no one else gets its lock. *)
Lemma locked_requests t s O L key reqs :
  map_holds t O L → O !! key = None → L !! key = Some tt → Forall (request_ok s) reqs →
  Forall (λ req, req.1 = key → om_opcode req.2 = PROTO_OPCODE_REMAPPING_LOCK) reqs →
  ∃ rs t' s', insert_requests t s reqs = Some (rs, t', s') ∧ zlen (stripes s') = zlen (stripes s) ∧
    Forall2 (λ req r, req.1 = key → r = false) reqs rs ∧
    ∃ O' L', map_holds t' O' L' ∧ O' !! key = None ∧ L' !! key = Some tt.
Proof using HK.
  revert t s O L. induction reqs as [|req reqs IH]; intros t s O L Ht HO HL Hok Hre.
  - exists [], t, s. split; [done|]. split; [done|]. split; [constructor|]. by exists O, L.
  - apply Forall_cons in Hok as [Hreq Hok]. apply Forall_cons in Hre as [Hr Hre]. cbn [insert_requests].
    destruct (insert_request_spec t s O L req Ht Hreq) as (r & o & b & t1 & s1 & Es & -> & _ & Hs & Ht1). cbn [mbind option_bind].
    assert (HO1 : put_opt req.1 o O !! key = None ∧ put_opt req.1 (locked_as b) L !! key = Some tt ∧ (req.1 = key → r = false)).
    { destruct (decide (req.1 = key)) as [Hk|Hne]; [|by rewrite !put_opt_other].
      specialize (Hr Hk). rewrite Hk, HO, HL in Es. unfold key_step in Es. rewrite Hr in Es.
      rewrite decide_False in Es by (intros [[?|?]|?]; done). rewrite decide_True in Es by done. injection Es as <- <- <-.
      rewrite Hk, !put_opt_lookup. done. }
    destruct HO1 as (HO1 & HL1 & Hrf).
    destruct (IH t1 s1 _ _ Ht1 HO1 HL1) as (rs & t2 & s2 & -> & Hs2 & Hrs & Hex); [|done|].
    { eapply Forall_impl; [exact Hok|]. intros x. by apply request_ok_ext. }
    cbn [mbind option_bind]. exists (r :: rs), t2, s2. split; [done|]. split; [lia|]. split; [by constructor|done].
Qed.
End refinement.

(** ** Properties *)

(** C18: whichever of a SET and the later DELETE of an unknown key arrives first, the
    key is unknown afterwards, and no other key is affected; two SETs leave the
    record of the one that arrived last, whatever their timestamps. *)
Theorem reports_in_any_order K (HK : discriminated K) t s O L key set1 set2 del :
  map_holds K t O L → O !! key = None →
  request_ok K s (key, set1) → request_ok K s (key, set2) → request_ok K s (key, del) →
  om_opcode set1 = PROTO_OPCODE_SET → om_opcode set2 = PROTO_OPCODE_SET → om_opcode del = PROTO_OPCODE_DELETE →
  om_timestamp set1 < om_timestamp del →
  (∀ reqs, reqs = [(key, set1); (key, del)] ∨ reqs = [(key, del); (key, set1)] →
     ∃ t' s', insert_requests t s reqs = Some ([true; true], t', s') ∧ map_holds K t' O (delete key L)) ∧
  (∃ t' s', insert_requests t s [(key, set1); (key, set2)] = Some ([true; true], t', s') ∧ map_holds K t' (<[key := set2]> O) (delete key L)).
Proof.
  intros Ht HO Ok1 Ok2 Okd E1 E2 Ed Hts.
  assert (Hrun : ∀ a b o1 o2,
    request_ok K s (key, a) → request_ok K s (key, b) →
    key_step None (bool_decide (is_Some (L !! key))) a = Some (true, Some o1, false) →
    key_step (Some o1) false b = Some (true, o2, false) →
    ∃ t' s', insert_requests t s [(key, a); (key, b)] = Some ([true; true], t', s') ∧ map_holds K t' (put_opt key o2 O) (delete key L)).
  { intros a b o1 o2 Oka Okb Ha Hb. cbn [insert_requests].
    destruct (insert_request_spec K HK t s O L (key, a) Ht Oka) as (r & o & l & t1 & s1 & Es & -> & _ & Hs & Ht1).
    simpl fst in *. simpl snd in *. rewrite HO, Ha in Es. injection Es as <- <- <-. cbn [mbind option_bind].
    destruct (insert_request_spec K HK t1 s1 _ _ (key, b) Ht1) as (r & o & l & t2 & s2 & Es & -> & _ & _ & Ht2).
    { by apply (request_ok_ext K s). }
    simpl fst in *. simpl snd in *. rewrite !put_opt_lookup in Es. change (locked_as false) with (@None unit) in Es. rewrite bool_decide_false in Es by (by intros [? ?]). rewrite Hb in Es. injection Es as <- <- <-. cbn [mbind option_bind].
    exists t2, s2. split; [done|]. simpl in Ht2. rewrite delete_delete_eq in Ht2.
    destruct o2; simpl in *; [by rewrite insert_insert_eq in Ht2|by rewrite delete_insert_eq in Ht2]. }
  assert (HdelO : put_opt key None O = O) by (by apply put_opt_same).
  opose proof* (Hrun set1 del set1 None) as Hrun_del1; [done..| | |].
  { unfold key_step. by rewrite decide_True by tauto. }
  { unfold key_step. rewrite decide_False by (rewrite Ed; intros [?|?]; done). by rewrite decide_True. }
  opose proof* (Hrun del set1 del None) as Hrun_del2; [done..| | |].
  { unfold key_step. by rewrite decide_True by tauto. }
  { unfold key_step. rewrite decide_True by tauto. rewrite decide_False by (rewrite Ed; intros [?|[?|?]]; [lia|done..]). by rewrite decide_True. }
  split.
  - intros reqs [->| ->].
    + rewrite HdelO in Hrun_del1. exact Hrun_del1.
    + rewrite HdelO in Hrun_del2. exact Hrun_del2.
  - apply (Hrun set1 set2 set1 (Some set2)); [done..| |]; unfold key_step; [by rewrite decide_True by tauto|].
    rewrite decide_True by tauto. by rewrite decide_True by tauto.
Qed.

(** C17: a client gets the lock of a key the coordinator does not know exactly if no
    other client has it; from then on nobody gets it, whatever requests for this
    and other keys arrive, as long as no SET or DELETE of the key is reported. *)
Theorem key_lock_exclusive K (HK : discriminated K) t s O L key lock reqs :
  map_holds K t O L → O !! key = None → request_ok K s (key, lock) → om_opcode lock = PROTO_OPCODE_REMAPPING_LOCK →
  Forall (request_ok K s) reqs → Forall (λ req, req.1 = key → om_opcode req.2 = PROTO_OPCODE_REMAPPING_LOCK) reqs →
  ∃ rs t' s', insert_requests t s ((key, lock) :: reqs) = Some (bool_decide (L !! key = None) :: rs, t', s') ∧
    Forall2 (λ req r, req.1 = key → r = false) reqs rs.
Proof.
  intros Ht HO Hok Hl Hoks Hre. cbn [insert_requests].
  destruct (insert_request_spec K HK t s O L (key, lock) Ht Hok) as (r & o & l & t1 & s1 & Es & -> & _ & Hs & Ht1). cbn [mbind option_bind].
  simpl fst in *. simpl snd in *. rewrite HO in Es. unfold key_step in Es. rewrite Hl in Es.
  rewrite decide_False in Es by (intros [[?|?]|?]; done). rewrite decide_True in Es by done. injection Es as <- <- <-.
  destruct (locked_requests K HK t1 s1 _ _ key reqs Ht1) as (rs & t2 & s2 & -> & _ & Hrs & _); [apply put_opt_lookup..| |done|].
  { eapply Forall_impl; [exact Hoks|]. intros x. by apply request_ok_ext. }
  cbn [mbind option_bind]. exists rs, t2, s2. split; [|done]. do 4 f_equal.
  destruct (L !! key) as [[]|]; done.
Qed.

(** ** Witnesses *)
Definition ex_key : Key := Key.MkKey 1 [z2b 107] false.
Definition ex_op (opcode ts : Z) : OpMetadata := MkOpMetadata opcode (MkMetadata 2 7 1) ts.

Lemma ex_request_ok opcode ts :
  opcode ∈ [PROTO_OPCODE_SET; PROTO_OPCODE_DELETE; PROTO_OPCODE_DEGRADED_SET; PROTO_OPCODE_REMAPPING_LOCK] →
  request_ok plain (init 4) (ex_key, ex_op opcode ts).
Proof.
  intros Hop. split; [|split; [done|split; [done|done]]]. split; [done|]. split; [|done]. apply (bool_decide_unpack _). by vm_compute.
Qed.
Lemma ex_map_holds : map_holds plain Map_new ∅ ∅.
Proof. split; apply holds_empty. Qed.

Lemma reports_in_any_order_witness :
  let del := ex_op PROTO_OPCODE_DELETE 9 in
  let set1 := ex_op PROTO_OPCODE_SET 8 in
  ∃ t' s', insert_requests Map_new (init 4) [(ex_key, del); (ex_key, set1)] = Some ([true; true], t', s') ∧ keys t' = [].
Proof.
  intros del set1.
  destruct (reports_in_any_order plain plain_discriminated Map_new (init 4) ∅ ∅ ex_key set1 set1 del ex_map_holds) as [H _];
    [done|apply ex_request_ok; set_solver..|done|done|done|done|].
  destruct (H _ (or_intror eq_refl)) as (t' & s' & E & _). exists t', s'. split; [exact E|].
  vm_compute in E. injection E as <- _. reflexivity.
Defined.

(** The second client does not get the lock. *)
Lemma key_lock_exclusive_witness :
  let lock := ex_op PROTO_OPCODE_REMAPPING_LOCK 0 in
  ∃ t' s', insert_requests Map_new (init 4) [(ex_key, lock); (ex_key, lock)] = Some ([true; false], t', s').
Proof.
  intros lock.
  destruct (key_lock_exclusive plain plain_discriminated Map_new (init 4) ∅ ∅ ex_key lock [(ex_key, lock)] ex_map_holds)
    as (rs & t' & s' & E & Hrs); [done|apply ex_request_ok; set_solver|done| |by constructor|].
  - constructor; [apply ex_request_ok; set_solver|constructor].
  - exists t', s'. inversion Hrs as [|? r ? rs' Hr Hnil]; subst. inversion Hnil; subst. rewrite (Hr eq_refl) in E. exact E.
Defined.
End CoordMap.
