(* ===== verification/Heartbeat.v ===== *)
(** * Heartbeats: how the coordinator learns what a server has done

    server/worker/coordinator_worker.cc (the event SYNC, the acknowledgement),
    server/ack/pending_ack.hh, coordinator/worker/server_worker.cc
    (processHeartbeat), coordinator/worker/client_worker.cc (handleSyncMetadata).

    A server sends the sealed chunks and the operations it has not reported
    ([ServerMap]) in as many messages as needed ([MessagesBatch]); the coordinator
    enters them into its map of the server ([CoordMap]) and acknowledges. *)

From S2P Require Export CoordMap ServerMap StripeList.

(** ** Timestamps of the heartbeats that are not acknowledged *)
Module PendingAck.
Record PendingAck := MkPendingAck { timestamps : list Z; lastAckTimestamp : Z }.
Definition new : PendingAck := MkPendingAck [] 0.
Definition insert (a : PendingAck) (timestamp : Z) : PendingAck := MkPendingAck (timestamps a ++ [timestamp]) (lastAckTimestamp a).

(** [from], when the timestamp is found. *)
Definition erase (a : PendingAck) (to : Z) : option Z * PendingAck :=
  match list_find (eq to) (timestamps a) with
  | Some (i, _) => (Some (lastAckTimestamp a), MkPendingAck (delete i (timestamps a)) to)
  | None => (None, a)
  end.
End PendingAck.

Module Heartbeat.
Import KeyMap Metadata.
Abbreviation Key := Key.Key.
Abbreviation CMap := CoordMap.Map.

(** ** The server *)
Record Server := MkServer { map : ServerMap.Map; pendingAck : PendingAck.PendingAck }.

(** The event SYNC.  [sealed] are the sealed chunks in the order of iteration.
    The result has the message and whether the event is repeated. *)
Definition sync (p : Protocol) (e : envelope) (sealed : list Metadata) (s : Server) : option (Server * bool * (list byte * Z)) :=
  let t := map s in
  let '(timestamp, clock) := Timestamp.nextVal (ServerMap.timestamp t) in
  '(sealed', ops', isCompleted, sealedCount, opsCount, msg) ← generateHeartbeatMessage p e timestamp sealed (ServerMap.ops t);
  let t := ServerMap.set_sealed (ServerMap.set_ops t clock ops') (list_to_set sealed') in
  let acks := if decide (sealedCount ≠ 0 ∨ opsCount ≠ 0) then PendingAck.insert (pendingAck s) timestamp else pendingAck s in
  Some (MkServer t acks, negb isCompleted, msg).

(** The range of timestamps that the clients are told. *)
Definition handleHeartbeatAck (q : Protocol) (s : Server) (buf : list byte) (size : Z) : option (bool * option (Z * Z) * Server) :=
  h ← parseHeartbeatHeader q (Some buf) size 0;
  match h with
  | None => Some (false, None, s)
  | Some h =>
      let '(from, acks) := PendingAck.erase (pendingAck s) (hb_timestamp h) in
      Some (true, (λ f, (f, hb_timestamp h)) <$> from, MkServer (map s) acks)
  end.

(** ** The coordinator *)

(** The maps of the servers, by socket, and what they share. *)
Record Coordinator := MkCoordinator { maps : gmap Z CMap; shared : CoordMap.Shared }.

Definition insert_chunk (c : Coordinator) (socket : Z) (m : Metadata) : option Coordinator :=
  t ← maps c !! socket;
  '(_, t, sh) ← CoordMap.insertChunk t (shared c) (listId m) (stripeId m) (chunkId m);
  Some (MkCoordinator (<[socket := t]> (maps c)) sh).
Definition insert_key (c : Coordinator) (socket : Z) (k : Key) (op : OpMetadata) : option Coordinator :=
  t ← maps c !! socket;
  '(_, t, sh) ← CoordMap.insert_request t (shared c) (k, op);
  Some (MkCoordinator (<[socket := t]> (maps c)) sh).

Section handlers.
(** The stripe lists, over the sockets of the servers; the variable [processed],
    which is not initialised. *)
Context (sl : StripeList.StripeList Z) (q : Protocol) (processed0 : Z).

(** The variables of the loops: the offset, [processed], [failed]. *)
Definition loop_state : Type := Z * Z * Z * Coordinator.

Definition sealed_step (socket : Z) (buf : list byte) (size : Z) (s : loop_state) : option loop_state :=
  let '(offset, processed, failed, c) := s in
  '(m, bytes) ← parseMetadataHeader q (Some buf) size offset;
  let processed := default processed bytes in
  '(failed, c) ← (match m with
                  | Some m => c ← insert_chunk c socket m; Some (failed, c)
                  | None => Some (u64 (failed + 1), c)
                  end);
  Some (u64 (offset + processed), processed, failed, c).

(** A deletion goes to the server of the chunk, which need not be the sender. *)
Definition op_step (socket : Z) (buf : list byte) (size : Z) (s : loop_state) : option loop_state :=
  let '(offset, processed, failed, c) := s in
  '(h, bytes) ← parseKeyOpMetadataHeader q (Some buf) size offset;
  let processed := default processed bytes in
  '(failed, c) ← (match h with
                  | Some h =>
                      let op := ko_op h in
                      s ← (if decide (om_opcode op = CoordMap.PROTO_OPCODE_DELETE)
                           then StripeList.get_chunk sl (listId (om_metadata op)) (chunkId (om_metadata op)) else Some socket);
                      k ← slice buf (ko_key h) (ko_keySize h + large_size (ko_isLarge h));
                      c ← insert_key c s (Key.MkKey (ko_keySize h) k (ko_isLarge h)) op;
                      Some (failed, c)
                  | None => Some (u64 (failed + 1), c)
                  end);
  Some (u64 (offset + processed), processed, failed, c).

Definition process_objects (socket : Z) (buf : list byte) (size offset : Z) (h : HeartbeatHeader) (c : Coordinator) : option (Z * Coordinator) :=
  s ← for_range 0 (hb_sealed h) (λ _, sealed_step socket buf size) (offset, processed0, 0, c);
  '(_, _, failed, c) ← for_range 0 (hb_keys h) (λ _, op_step socket buf size) s;
  Some (failed, c).

(** The result, the fields of the acknowledgement, and whether the pending
    synchronisation [requestId] is complete. *)
Definition processHeartbeat (socket requestId : Z) (buf : list byte) (size : Z) (c : Coordinator) :
    option (bool * option HeartbeatHeader * bool * Coordinator) :=
  h ← parseHeartbeatHeader q (Some buf) size 0;
  match h with
  | None => Some (false, None, false, c)
  | Some h =>
      '(failed, c) ← process_objects socket buf size PROTO_HEARTBEAT_SIZE h c;
      let ok := bool_decide (failed = 0) in
      Some (ok, (if ok then Some h else None), bool_decide (requestId ≠ 0) && hb_isLast h && ok, c)
  end.

(** The metadata that clients have backed up for a server that has failed; the
    last component: a transition that waits for the backups is told.  [find] is
    the search for the socket with an address. *)
Definition handleSyncMetadata (find : AddressHeader → option Z) (requestId : Z) (buf : list byte) (size : Z) (c : Coordinator) :
    option (bool * bool * Coordinator) :=
  r ← parseMetadataBackupMessage q (Some buf) size 0;
  match r with
  | None => Some (false, false, c)
  | Some (a, h) =>
      match find a with
      | None => Some (false, false, c)
      | Some target =>
          '(failed, c) ← process_objects target buf size (PROTO_ADDRESS_SIZE + PROTO_HEARTBEAT_SIZE) h c;
          let ok := bool_decide (failed = 0) in
          Some (ok, bool_decide (requestId ≠ 0) && hb_isLast h && ok, c)
      end
  end.
End handlers.

(** ** The server and the coordinator together

    [stored] and [sealed_chunks] record what the server has done, and [missed] the
    keys of which a SET was not entered for the next heartbeat; they are not part
    of the program.  Messages arrive in the order in which they are sent. *)
Record System := MkSystem {
  server : Server;
  sent : list (list byte * Z);
  coordinator : Coordinator;
  stored : gmap Key Metadata;
  sealed_chunks : gset Metadata;
  missed : gset Key;
}.

Section system.
Context (sl : StripeList.StripeList Z) (numLists : Z) (p q : Protocol) (socket : Z).
(** The order in which the container of the sealed chunks is iterated over. *)
Context (iter : gset Metadata → list Metadata).
Context (K : Key → Prop).

(** The chunks of this server. *)
Definition own (m : Metadata) : Prop :=
  Metadata.wf m ∧ listId m < numLists ∧ StripeList.get_chunk sl (listId m) (chunkId m) = Some socket.

Definition report (s : Server) (opcode ts : Z) (k : Key) (m : Metadata) (dup : bool) : option (bool * Server) :=
  '(r, _, t) ← ServerMap.insertOpMetadata (map s) opcode ts k m dup; Some (r, MkServer t (pendingAck s)).

(** Does a deletion of the key wait for the next heartbeat? *)
Definition deletion_waits (s : Server) (k : Key) : Prop :=
  ∃ op, (k, op) ∈ ServerMap.ops (map s) ∧ om_opcode op = CoordMap.PROTO_OPCODE_DELETE.

Inductive step : System → System → Prop :=
| step_set s k m ts dup r sv :
    K k → Key.wf k → own m → stored s !! k = None →
    report (server s) CoordMap.PROTO_OPCODE_SET ts k m dup = Some (r, sv) →
    step s (MkSystem sv (sent s) (coordinator s) (<[k := m]> (stored s)) (sealed_chunks s)
        (if (r : bool) then missed s else {[ k ]} ∪ missed s))
| step_delete s k m ts dup r sv :
    stored s !! k = Some m →
    report (server s) CoordMap.PROTO_OPCODE_DELETE ts k m dup = Some (r, sv) →
    step s (MkSystem sv (sent s) (coordinator s) (delete k (stored s)) (sealed_chunks s) (missed s))
| step_seal s m r t :
    own m → ServerMap.seal (map (server s)) (listId m) (stripeId m) (chunkId m) = (r, t) →
    step s (MkSystem (MkServer t (pendingAck (server s))) (sent s) (coordinator s) (stored s) ({[ m ]} ∪ sealed_chunks s) (missed s))
| step_sync s e sv again msg :
    envelope_ok e → e_to e = to q →
    sync p e (iter (ServerMap.sealed (map (server s)))) (server s) = Some (sv, again, msg) →
    step s (MkSystem sv (sent s ++ [msg]) (coordinator s) (stored s) (sealed_chunks s) (missed s))
| step_deliver s b n rest recv h processed0 requestId ok ack done c :
    sent s = (b, n) :: rest → holds recv 0 (take (Z.to_nat n) b) →
    parseHeader q (Some recv) n = Some (Some h) →
    processHeartbeat sl q processed0 socket requestId (drop (Z.to_nat PROTO_HEADER_SIZE) recv) (h_length h) (coordinator s) = Some (ok, ack, done, c) →
    step s (MkSystem (server s) rest c (stored s) (sealed_chunks s) (missed s))
| step_lock s k op c :
    K k → Key.wf k → 0 ≤ listId (om_metadata op) < numLists → om_opcode op = CoordMap.PROTO_OPCODE_REMAPPING_LOCK →
    insert_key (coordinator s) socket k op = Some c →
    step s (MkSystem (server s) (sent s) c (stored s) (sealed_chunks s) (missed s)).

Definition initial (s : System) : Prop :=
  ServerMap.ops (map (server s)) = [] ∧ ServerMap.sealed (map (server s)) = ∅ ∧
  0 ≤ Timestamp.value (ServerMap.timestamp (map (server s))) < 2 ^ 32 ∧ sent s = [] ∧
  maps (coordinator s) !! socket = Some CoordMap.Map_new ∧ shared (coordinator s) = CoordMap.init numLists ∧
  stored s = ∅ ∧ sealed_chunks s = ∅ ∧ missed s = ∅.

Definition reachable (s : System) : Prop := ∃ s0, initial s0 ∧ rtc step s0 s.
End system.

(** ** Lemmas: the loops of the coordinator *)
Fixpoint insert_chunks (c : Coordinator) (socket : Z) (ms : list Metadata) : option Coordinator :=
  match ms with [] => Some c | m :: ms => c ← insert_chunk c socket m; insert_chunks c socket ms end.
Fixpoint insert_keys (c : Coordinator) (socket : Z) (ops : list (Key * OpMetadata)) : option Coordinator :=
  match ops with [] => Some c | (k, op) :: ops => c ← insert_key c socket k op; insert_keys c socket ops end.

Lemma read_items_le {A} (next : Z → option (option (A * Z))) (B : Z) :
  (∀ o a o', next o = Some (Some (a, o')) → o ≤ o' ≤ o + B) →
  ∀ n o l o', read_items next n o = Some (Some (l, o')) → o ≤ o' ≤ o + B * Z.of_nat n ∧ length l = n.
Proof.
  intros Hn. induction n as [|n IH]; cbn [read_items]; intros o l o'; [intros [= <- <-]; split; [lia|done]|].
  destruct (next o) as [[[a o1]|]|] eqn:E; cbn [mbind option_bind]; [|done|done].
  destruct (read_items next n o1) as [[[l1 o2]|]|] eqn:E1; cbn [mbind option_bind option_map]; [|done|done].
  intros [= <- <-]. apply Hn in E. apply IH in E1 as [? ?]. split; [nia|simpl; lia].
Qed.

Section loops.
Context (sl : StripeList.StripeList Z) (q : Protocol) (socket : Z) (buf : list byte) (size : Z).

Lemma next_metadata_inv o m o' : next_metadata q buf size o = Some (Some (m, o')) →
  ∃ n, parseMetadataHeader q (Some buf) size o = Some (Some m, Some n) ∧ o' = o + n ∧ o ≤ o' ≤ o + 12.
Proof.
  unfold next_metadata, parseMetadataHeader. destruct (pick_recv q (Some buf) size) as [b z].
  destruct (short z o PROTO_METADATA_SIZE); [done|]. destruct (read_metadata b o) as [[m' ?]|]; [|done]. cbn [mbind option_bind].
  intros [= <- <-]. eexists. split; [done|]. split; [done|]. unfold PROTO_METADATA_SIZE. lia.
Qed.

Lemma next_op_inv o k op o' : next_op q buf size o = Some (Some (k, op, o')) →
  ∃ h n d, parseKeyOpMetadataHeader q (Some buf) size o = Some (Some h, Some n) ∧
    slice buf (ko_key h) (ko_keySize h + large_size (ko_isLarge h)) = Some d ∧
    k = Key.MkKey (ko_keySize h) d (ko_isLarge h) ∧ op = ko_op h ∧ o' = o + n ∧ o ≤ o' ≤ o + 277.
Proof.
  unfold next_op. destruct (parseKeyOpMetadataHeader q (Some buf) size o) as [[[h|] n]|] eqn:E; [|done|done]. cbn [mbind option_bind].
  destruct (slice buf _ _) as [d|] eqn:Es; [|done]. cbn [mbind option_bind]. destruct n as [n|]; [|done]. cbn [mbind option_bind].
  intros [= <- <- <-]. exists h, n, d.
  enough (0 ≤ n ≤ 277) by (split_and!; try done; lia). revert E. unfold parseKeyOpMetadataHeader. destruct (pick_recv q (Some buf) size) as [b z].
  destruct (short z o _); [done|]. unfold read1Byte.
  destruct (zget b o) as [x|]; [|done]. cbn [mbind option_bind]. destruct (zget b (o + 1)) as [y|]; [|done]. cbn [mbind option_bind].
  destruct (read_metadata b _) as [[m ?]|]; [|done]. cbn [mbind option_bind]. destruct (read4 b _) as [[ts ?]|]; [|done]. cbn [mbind option_bind].
  destruct (zget b _) as [w|]; [|done]. cbn [mbind option_bind]. intros [= _ <-].
  pose proof (b2z_range x). unfold large_size, SPLIT_OFFSET_SIZE, PROTO_KEY_OP_METADATA_SIZE. destruct (i2b (b2z w)); lia.
Qed.

Lemma next_metadata_le o m o' : next_metadata q buf size o = Some (Some (m, o')) → o ≤ o' ≤ o + 12.
Proof. by intros (n & _ & _ & H)%next_metadata_inv. Qed.
Lemma next_op_le o (a : Key * OpMetadata) o' : next_op q buf size o = Some (Some (a, o')) → o ≤ o' ≤ o + 277.
Proof. destruct a. by intros (h & n & d & _ & _ & _ & _ & _ & H)%next_op_inv. Qed.

Lemma sealed_loop n : ∀ o ms o' i pr failed c c',
  0 ≤ o → o' < 2 ^ 64 → read_items (next_metadata q buf size) n o = Some (Some (ms, o')) → insert_chunks c socket ms = Some c' →
  ∃ pr', for_loop n i (λ _, sealed_step q socket buf size) (o, pr, failed, c) = Some (o', pr', failed, c').
Proof.
  induction n as [|n IH]; cbn [read_items]; intros o ms o' i pr failed c c' Ho Ho'.
  { intros [= <- <-]. intros [= <-]. by exists pr. }
  destruct (next_metadata q buf size o) as [[[m o1]|]|] eqn:E; cbn [mbind option_bind]; [|done|done].
  destruct (read_items _ n o1) as [[[l o2]|]|] eqn:E1; cbn [mbind option_bind option_map]; [|done|done].
  intros [= <- <-]. cbn [insert_chunks]. destruct (insert_chunk c socket m) as [c1|] eqn:Ec; [|done]. cbn [mbind option_bind]. intros Hc.
  apply next_metadata_inv in E as (k & Ep & -> & Hle).
  pose proof (read_items_le _ 12 next_metadata_le _ _ _ _ E1) as [Hle2 _].
  assert (Es : sealed_step q socket buf size (o, pr, failed, c) = Some (o + k, k, failed, c1)).
  { unfold sealed_step. rewrite Ep. cbn [mbind option_bind from_option id]. rewrite Ec. cbn [mbind option_bind]. by rewrite u64_small by lia. }
  rewrite for_loop_S, Es. apply (IH (o + k) l o2); [lia|lia|done..].
Qed.

Lemma op_loop n : ∀ o ops o' i pr failed c c',
  0 ≤ o → o' < 2 ^ 64 → read_items (next_op q buf size) n o = Some (Some (ops, o')) → insert_keys c socket ops = Some c' →
  Forall (λ x, om_opcode x.2 = CoordMap.PROTO_OPCODE_DELETE →
    StripeList.get_chunk sl (listId (om_metadata x.2)) (chunkId (om_metadata x.2)) = Some socket) ops →
  ∃ pr', for_loop n i (λ _, op_step sl q socket buf size) (o, pr, failed, c) = Some (o', pr', failed, c').
Proof.
  induction n as [|n IH]; cbn [read_items]; intros o ops o' i pr failed c c' Ho Ho'.
  { intros [= <- <-]. intros [= <-]. by exists pr. }
  destruct (next_op q buf size o) as [[[[k op] o1]|]|] eqn:E; cbn [mbind option_bind]; [|done|done].
  destruct (read_items _ n o1) as [[[l o2]|]|] eqn:E1; cbn [mbind option_bind option_map]; [|done|done].
  intros [= <- <-]. cbn [insert_keys]. destruct (insert_key c socket k op) as [c1|] eqn:Ec; [|done]. cbn [mbind option_bind].
  intros Hc [Hown Hall]%Forall_cons.
  apply next_op_inv in E as (h & z & d & Ep & Es & -> & -> & -> & Hle).
  pose proof (read_items_le _ 277 next_op_le _ _ _ _ E1) as [Hle2 _].
  assert (Hs : (if decide (om_opcode (ko_op h) = CoordMap.PROTO_OPCODE_DELETE)
    then StripeList.get_chunk sl (listId (om_metadata (ko_op h))) (chunkId (om_metadata (ko_op h))) else Some socket) = Some socket).
  { case_decide; [by apply Hown|done]. }
  assert (Eo : op_step sl q socket buf size (o, pr, failed, c) = Some (o + z, z, failed, c1)).
  { unfold op_step. rewrite Ep. cbn [mbind option_bind from_option id]. rewrite Hs. cbn [mbind option_bind]. rewrite Es. cbn [mbind option_bind].
    rewrite Ec. cbn [mbind option_bind]. by rewrite u64_small by lia. }
  rewrite for_loop_S, Eo. apply (IH (o + z) l o2); [lia|lia|done..].
Qed.

Lemma read4_range b a v a' : read4 b a = Some (v, a') → 0 ≤ v < 2 ^ 32.
Proof.
  unfold read4Bytes. destruct (slice b a 4) as [xs|] eqn:E; [|done]. cbn [mbind option_bind]. intros [= <- _].
  apply slice_zlen in E. apply (bswap_range 4). unfold zlen in E. lia.
Qed.

Lemma heartbeat_header_range h : parseHeartbeatHeader q (Some buf) size 0 = Some (Some h) →
  0 ≤ hb_sealed h < 2 ^ 32 ∧ 0 ≤ hb_keys h < 2 ^ 32.
Proof.
  unfold parseHeartbeatHeader. destruct (pick_recv q (Some buf) size) as [b z]. destruct (short z 0 _); [done|].
  destruct (read4 b 0) as [[t a1]|] eqn:E1; [|done]. cbn [mbind option_bind].
  destruct (read4 b a1) as [[n a2]|] eqn:E2; [|done]. cbn [mbind option_bind].
  destruct (read4 b a2) as [[k a3]|] eqn:E3; [|done]. cbn [mbind option_bind].
  destruct (read1Byte b a3) as [[l a4]|]; [|done]. cbn [mbind option_bind]. intros [= <-]. simpl.
  apply read4_range in E2, E3. done.
Qed.

(** A heartbeat whose contents are received is entered, object by object. *)
Lemma process_contents processed0 requestId a t ms ops last c c1 c2 :
  parse_payload q KBHeartbeat buf size = Some (Some (CHeartbeat a t ms ops last)) →
  insert_chunks c socket ms = Some c1 → insert_keys c1 socket ops = Some c2 →
  Forall (λ x, om_opcode x.2 = CoordMap.PROTO_OPCODE_DELETE →
    StripeList.get_chunk sl (listId (om_metadata x.2)) (chunkId (om_metadata x.2)) = Some socket) ops →
  ∃ h, hb_timestamp h = t ∧ hb_sealed h = zlen ms ∧ hb_keys h = zlen ops ∧ hb_isLast h = last ∧
    processHeartbeat sl q processed0 socket requestId buf size c = Some (true, Some h, bool_decide (requestId ≠ 0) && last, c2).
Proof.
  cbn [parse_payload]. destruct (parseHeartbeatHeader q (Some buf) size 0) as [[h|]|] eqn:Eh; cbn [and_then mbind option_bind]; [|done|done].
  destruct (heartbeat_header_range h Eh) as [Hn Hk].
  destruct (read_items (next_metadata q buf size) _ _) as [[[ms' o1]|]|] eqn:E1; unfold and_then; cbn [mbind option_bind]; [|done|done].
  destruct (read_items (next_op q buf size) _ _) as [[[ops' o2]|]|] eqn:E2; cbn [mbind option_bind]; [|done|done].
  intros [= <- <- -> -> <-] Hms Hops Hown.
  pose proof (read_items_le _ 12 next_metadata_le _ _ _ _ E1) as [Ho1 L1].
  pose proof (read_items_le _ 277 next_op_le _ _ _ _ E2) as [Ho2 L2]. unfold PROTO_HEARTBEAT_SIZE in *.
  exists h. split; [done|]. split; [unfold zlen; lia|]. split; [unfold zlen; lia|]. split; [done|].
  unfold processHeartbeat. rewrite Eh. cbn [mbind option_bind]. unfold process_objects, for_range. rewrite !Z.sub_0_r.
  destruct (sealed_loop (Z.to_nat (hb_sealed h)) 13 ms o1 0 processed0 0 c c1) as (pr1 & R1); [lia|lia|done|done|]. unfold PROTO_HEARTBEAT_SIZE. rewrite R1.
  cbn [mbind option_bind].
  destruct (op_loop (Z.to_nat (hb_keys h)) o1 ops o2 0 pr1 0 c1 c2) as (pr2 & ->); [lia|lia|done..|].
  cbn [mbind option_bind]. by rewrite andb_true_r.
Qed.
End loops.
End Heartbeat.
