(* ===== verification/ClientBackup.v ===== *)
(** * Backups of metadata at the clients (client/backup/backup.{hh,cc})

    A client keeps, per server, the operations and sealed chunks that the server
    has told it and that the coordinator may not know yet; the server acknowledges
    ranges of timestamps.  The lock makes each method one step.

    [erase] drops exactly what lies in the range ([in_range]), and counts it. *)

From S2P Require Export CoordMap.

Module ClientBackup.
Import KeyMap Metadata.
Abbreviation Key := Key.Key.

(** [sealed] is the multimap from timestamps. *)
Record Backup := MkBackup { ops : key_map OpMetadata; sealed : list (Z * Metadata) }.
Definition Backup_new : Backup := MkBackup [] [].

(** The key is copied before it is looked up. *)
Definition insert (b : Backup) (keySize : Z) (keyStr : list byte) (isLarge : bool) (opcode timestamp listId stripeId chunkId : Z) : option Backup :=
  key ← Key_dup (Key.MkKey keySize keyStr isLarge) isLarge;
  let op := MkOpMetadata opcode (Metadata.set listId stripeId chunkId) timestamp in
  it ← find (ops b) key;
  o ← (match it with
       | None => '(_, o) ← KeyMap.insert (ops b) key op; Some o
       | Some (k, old) =>
           if decide (opcode = CoordMap.PROTO_OPCODE_SET) then
             if decide (timestamp > om_timestamp old) then CoordMap.replace (ops b) key op else Some (ops b)
           else if decide (opcode = CoordMap.PROTO_OPCODE_DELETE) then
             if decide (timestamp > om_timestamp old) then KeyMap.erase (ops b) k else Some (ops b)
           else Some (ops b)
       end);
  Some (MkBackup o (sealed b)).

(** With the chunks that were sealed. *)
Definition insert_sealed (b : Backup) (keySize : Z) (keyStr : list byte) (isLarge : bool) (opcode timestamp listId stripeId chunkId : Z)
    (chunks : list Metadata) : option Backup :=
  b ← insert b keySize keyStr isLarge opcode timestamp listId stripeId chunkId;
  Some (MkBackup (ops b) (sealed b ++ (pair timestamp <$> chunks))).

Definition in_range (fromTimestamp toTimestamp timestamp : Z) : bool :=
  if decide (fromTimestamp > toTimestamp)
  then bool_decide (fromTimestamp ≤ timestamp) || bool_decide (timestamp < toTimestamp)
  else bool_decide (fromTimestamp ≤ timestamp) && bool_decide (timestamp < toTimestamp).

(** The loops over the two containers: what stays, and how many are erased. *)
Fixpoint erase_loop {A : Type} (stamp : A → Z) (from to : Z) (l : list A) : list A * Z :=
  match l with
  | [] => ([], 0)
  | a :: l =>
      let '(rest, n) := erase_loop stamp from to l in
      if in_range from to (stamp a) then (rest, n + 1) else (a :: rest, n)
  end.
Definition erase (b : Backup) (fromTimestamp toTimestamp : Z) : Z * Backup :=
  let '(o, n) := erase_loop (λ kv, om_timestamp kv.2) fromTimestamp toTimestamp (ops b) in
  let '(s, k) := erase_loop fst fromTimestamp toTimestamp (sealed b) in
  (u64 (n + k), MkBackup o s).

Lemma erase_loop_spec {A} (stamp : A → Z) from to l :
  let '(rest, n) := erase_loop stamp from to l in
  zlen l = zlen rest + n ∧ 0 ≤ n ∧ ∀ a, a ∈ rest ↔ a ∈ l ∧ in_range from to (stamp a) = false.
Proof.
  induction l as [|a l IH]; [split; [done|]; split; [done|]; intros a; set_solver|].
  cbn [erase_loop]. destruct (erase_loop stamp from to l) as [rest n]. destruct IH as (Hl & Hn & Hin).
  destruct (in_range from to (stamp a)) eqn:E; (split; [unfold zlen in *; cbn [length]; lia|]; split; [lia|]; intros x; rewrite !elem_of_cons, ?Hin).
  - split; [tauto|]. intros [[->|?] Hx]; [congruence|done].
  - split; [intros [->|?]; tauto|]. tauto.
Qed.

(** After [erase] no timestamp of the range is left, and only such are gone. *)
Lemma backup_erase_spec b from to :
  zlen (ops b) + zlen (sealed b) < 2 ^ 64 →
  let '(n, b') := erase b from to in
  n = zlen (ops b) + zlen (sealed b) - zlen (ops b') - zlen (sealed b') ∧
  (∀ x, x ∈ ops b' ↔ x ∈ ops b ∧ in_range from to (om_timestamp x.2) = false) ∧
  (∀ x, x ∈ sealed b' ↔ x ∈ sealed b ∧ in_range from to x.1 = false).
Proof.
  intros Hlim. unfold erase.
  pose proof (erase_loop_spec (λ kv, om_timestamp kv.2) from to (ops b)) as H1. destruct (erase_loop _ from to (ops b)) as [o n].
  pose proof (erase_loop_spec fst from to (sealed b)) as H2. destruct (erase_loop _ from to (sealed b)) as [s k].
  destruct H1 as (L1 & N1 & E1), H2 as (L2 & N2 & E2). cbn [ops sealed].
  pose proof (zlen_nonneg o). pose proof (zlen_nonneg s). rewrite u64_small by lia. split; [lia|done].
Qed.

(** A backed up operation is replaced by the later one, and cancelled by a later
    deletion. *)
Section backups.
Context (K : Key → Prop) (HK : discriminated K).
Lemma insert_backup b O k opcode ts m :
  holds_map K (ops b) O → K k → Key.wf k →
  ∃ b', insert b (Key.size k) (Key.data k) (Key.isLarge k) opcode ts (listId m) (stripeId m) (chunkId m) = Some b' ∧ sealed b' = sealed b ∧
    holds_map K (ops b') (
      match O !! k with
      | None => <[k := MkOpMetadata opcode m ts]> O
      | Some old =>
          if decide (ts ≤ om_timestamp old) then O
          else if decide (opcode = CoordMap.PROTO_OPCODE_SET) then <[k := MkOpMetadata opcode m ts]> O
          else if decide (opcode = CoordMap.PROTO_OPCODE_DELETE) then delete k O else O
      end).
Proof using HK.
  intros HO HKk Hw. unfold insert. replace (Key.MkKey (Key.size k) (Key.data k) (Key.isLarge k)) with k by (by destruct k).
  rewrite (Key_dup_K K HK) by done. cbn [mbind option_bind].
  replace (Metadata.set (listId m) (stripeId m) (chunkId m)) with m by (by destruct m). set (op := MkOpMetadata opcode m ts).
  rewrite (find_spec K HK _ O) by done. cbn [mbind option_bind]. destruct (O !! k) as [old|] eqn:E; cbn [fmap option_fmap option_map].
  - destruct (CoordMap.replace_spec K HK (ops b) O k op HO HKk) as (o1 & E1 & H1); [by exists old|].
    destruct (KeyMap.erase_spec K HK (ops b) O k HO HKk) as (o2 & E2 & H2).
    repeat case_decide; try lia; rewrite ?E1, ?E2; cbn [mbind option_bind]; eexists; (split; [done|]); done.
  - destruct (insert_spec K HK (ops b) O k op HO HKk) as (o & -> & Ho). rewrite decide_True in Ho by done. cbn [mbind option_bind].
    eexists. split; [done|]. done.
Qed.
End backups.
End ClientBackup.
