(* ===== verification/MetadataSync.v ===== *)
(** * The coordinator's records agree with the servers

    The system of [Heartbeat]: a server that sets and deletes keys and seals chunks,
    the heartbeats on their way, and the coordinator.

    [metadata_in_sync]: when nothing is on its way, the coordinator finds exactly
    the keys and sealed chunks of the server; [acknowledged_is_entered]: once the
    last message of a heartbeat is acknowledged, nothing that the clients then
    drop from their backups is still on its way. *)

From S2P Require Export Heartbeat ClientBackup.

Module MetadataSync.
Import KeyMap Metadata Heartbeat.
Abbreviation Key := Key.Key.

(** ** Lemmas: the operations that are on their way

    The operations of a key alternate between SET and DELETE, beginning with
    what the coordinator does not know; [None] when they do not. *)
Fixpoint chain (cur : option Metadata) (l : list OpMetadata) : option (option Metadata) :=
  match l with
  | [] => Some cur
  | op :: l =>
      match cur with
      | None => if decide (om_opcode op = CoordMap.PROTO_OPCODE_SET) then chain (Some (om_metadata op)) l else None
      | Some _ => if decide (om_opcode op = CoordMap.PROTO_OPCODE_DELETE) then chain None l else None
      end
  end.

Lemma chain_app l1 : ∀ cur l2, chain cur (l1 ++ l2) = (c ← chain cur l1; chain c l2).
Proof. induction l1 as [|op l1 IH]; intros cur l2; [done|]. simpl. destruct cur; case_decide; try done; apply IH. Qed.

(** The operations of one key. *)
Definition pend (k : Key) (l : list (Key * OpMetadata)) : list OpMetadata := snd <$> filter (λ x, x.1 = k) l.

Lemma pend_app k l1 l2 : pend k (l1 ++ l2) = pend k l1 ++ pend k l2.
Proof. unfold pend. by rewrite filter_app, fmap_app. Qed.
Lemma pend_cons k x l : pend k (x :: l) = if decide (x.1 = k) then x.2 :: pend k l else pend k l.
Proof. unfold pend. rewrite filter_cons. by case_decide. Qed.
Lemma pend_remove k k' l : pend k' (filter (λ x, x.1 ≠ k) l) = if decide (k' = k) then [] else pend k' l.
Proof.
  induction l as [|x l IH]; [by case_decide|]. rewrite filter_cons, pend_cons.
  destruct (decide (x.1 ≠ k)) as [H1|H1]; [rewrite pend_cons|]; rewrite IH; repeat case_decide; subst; try done; congruence.
Qed.

Section keys.
Context (K : Key → Prop) (HK : discriminated K).

(** A container of reported operations has at most one per key. *)
Lemma pend_holds t O k : holds_map K t O → pend k t = match O !! k with Some op => [op] | None => [] end.
Proof using.
  intros (Hn & _ & ->). induction t as [|[k' op] t IH]; [done|].
  simpl in Hn. apply NoDup_cons in Hn as [Hni Hn]. rewrite pend_cons. simpl. case_decide as Hk.
  - subst k'. rewrite lookup_insert_eq, IH by done. by apply not_elem_of_list_to_map in Hni as ->.
  - rewrite lookup_insert_ne by done. by apply IH.
Qed.

Lemma erase_filter {V} (t t' : list (Key * V)) k : NoDup t.*1 → Forall K t.*1 → K k → erase t k = Some t' → t' = filter (λ x, x.1 ≠ k) t.
Proof using HK.
  revert t'. induction t as [|[k' v] t IH]; cbn [erase fst snd]; intros t' Hn Hk HKk; [by intros [= <-]|].
  simpl in Hn, Hk.   apply NoDup_cons in Hn as [Hni Hn]. apply Forall_cons in Hk as [HKk' Hk].
  rewrite (proj1 HK k' k) by done. cbn [mbind option_bind]. rewrite filter_cons. case_bool_decide as Heq.
  - subst k'. rewrite decide_False by (intros H; by apply H). intros [= <-]. symmetry.
    assert (Hall : ∀ x, x ∈ t → x.1 ≠ k) by (intros x Hx <-; apply Hni; by apply list_elem_of_fmap_2).
    clear -Hall. induction t as [|x t IH]; [done|]. rewrite filter_cons, decide_True by (apply Hall; by left).
    f_equal. apply IH. intros y Hy. apply Hall. by right.
  - destruct (erase t k) as [t''|] eqn:E; [|done]. cbn [mbind option_bind]. intros [= <-]. rewrite decide_True by done.
    f_equal. by apply IH.
Qed.

(** What the server enters or cancels. *)
Lemma report_spec s O opcode ts k m dup :
  holds_map K (ServerMap.ops (map s)) O → K k → Key.wf k →
  ∃ s' O', report s opcode ts k m dup = Some (bool_decide (O !! k = None ∨ opcode = CoordMap.PROTO_OPCODE_DELETE), s') ∧
    ServerMap.sealed (map s') = ServerMap.sealed (map s) ∧
    holds_map K (ServerMap.ops (map s')) O' ∧
    match O !! k with
    | None => ServerMap.ops (map s') = ServerMap.ops (map s) ++ [(k, MkOpMetadata opcode m (Timestamp.value (ServerMap.timestamp (map s))))] ∧
        ServerMap.timestamp (map s') = snd (Timestamp.nextVal (ServerMap.timestamp (map s)))
    | Some _ => ServerMap.timestamp (map s') = ServerMap.timestamp (map s) ∧
        ServerMap.ops (map s') = if decide (opcode = CoordMap.PROTO_OPCODE_DELETE) then filter (λ x, x.1 ≠ k) (ServerMap.ops (map s)) else ServerMap.ops (map s)
    end.
Proof using HK.
  intros HO HKk Hw. unfold report, ServerMap.insertOpMetadata. rewrite (find_spec K HK _ O) by done. cbn [mbind option_bind].
  destruct (O !! k) as [o|] eqn:E; cbn [fmap option_fmap option_map].
  - change CoordMap.PROTO_OPCODE_DELETE with ServerMap.PROTO_OPCODE_DELETE.
    destruct (decide (opcode = ServerMap.PROTO_OPCODE_DELETE)).
    + destruct (erase_spec K HK _ O k HO HKk) as (t' & Et & Ht'). rewrite Et. cbn [mbind option_bind].
      apply erase_filter in Et; [|apply HO..|done]. rewrite bool_decide_eq_true_2 by (by right). eexists _, _. split; [done|]. cbn. split; [done|]. split; [exact Ht'|]. done.
    + rewrite bool_decide_eq_false_2 by (by intros [?|?]). eexists _, O. split; [done|]. done.
  - assert (Hd : (if dup then Key_dup k (Key.isLarge k) else Some k) = Some k) by (destruct dup; [by apply (Key_dup_K K HK)|done]).
    cbn [Timestamp.nextVal]. rewrite Hd. cbn [mbind option_bind]. set (op := MkOpMetadata _ _ _).
    destruct (insert_spec K HK _ O k op HO HKk) as (t' & Et & Ht'). rewrite decide_True in Ht' by done.
    unfold insert in *. rewrite (find_spec K HK _ O), E in * by done. cbn [mbind option_bind fmap option_fmap option_map] in *.
    injection Et as <-. rewrite bool_decide_eq_true_2 by (by left). eexists _, _. split; [done|]. cbn. split; [done|]. split; [exact Ht'|]. done.
Qed.
End keys.

(** ** Lemmas: the coordinator takes what is on its way *)
Section coordinator.
Context (sl : StripeList.StripeList Z) (numLists socket : Z) (K : Key → Prop) (HK : discriminated K).

Definition good_op (x : Key * OpMetadata) : Prop :=
  K x.1 ∧ Key.wf x.1 ∧ own sl numLists socket (om_metadata x.2) ∧ 0 ≤ om_timestamp x.2 < 2 ^ 32 ∧
  (om_opcode x.2 = CoordMap.PROTO_OPCODE_SET ∨ om_opcode x.2 = CoordMap.PROTO_OPCODE_DELETE).

Lemma good_op_ok x : good_op x → op_ok x.
Proof using.
  intros (_ & [Hs Hl] & (Hm & _) & Ht & Ho). split; [|split; [destruct Ho as [-> | ->]; done|done]].
  split; [done|]. unfold zlen. rewrite Hl. unfold Key.cmp_size, large_size, SPLIT_OFFSET_SIZE. destruct (Key.isLarge x.1); lia.
Qed.

Lemma good_op_request t x : zlen (CoordMap.stripes t) = numLists → good_op x → CoordMap.request_ok K t x.
Proof using.
  clear HK. intros Hl (HKk & Hw & (Hm & Hn & _) & _ & Ho). split; [done|]. split; [done|]. split; [|destruct Hm; lia].
  unfold CoordMap.known_op. destruct Ho as [-> | ->]; set_solver.
Qed.

(** The coordinator's map of the server: the records [O], of keys that have been set
    but for those in [U]. *)
Definition knows (U : gset Key) (c : Coordinator) (X : gset Metadata) (O : gmap Key OpMetadata) : Prop :=
  ∃ t L, maps c !! socket = Some t ∧ CoordMap.map_holds K t O L ∧ CoordMap.chunks t = X ∧
    zlen (CoordMap.stripes (shared c)) = numLists ∧ ∀ k o, k ∉ U → O !! k = Some o → om_opcode o = CoordMap.PROTO_OPCODE_SET.

Lemma insert_chunks_spec U ms : ∀ c X O,
  knows U c X O → Forall (own sl numLists socket) ms → ∃ c', insert_chunks c socket ms = Some c' ∧ knows U c' (X ∪ list_to_set ms) O.
Proof using.
  clear HK. induction ms as [|m ms IH]; intros c X O (t & L & Ht & Hh & Hx & Hs & Hset) Hms.
  - exists c. split; [done|]. exists t, L. split_and!; try done. set_solver.
  - apply Forall_cons in Hms as [(Hw & Hn & _) Hms]. cbn [insert_chunks]. unfold insert_chunk. rewrite Ht. cbn [mbind option_bind].
    unfold CoordMap.insertChunk.
    destruct (CoordMap.updateMaxStripeId_spec (shared c) (listId m) (stripeId m)) as (r & sh & -> & Hl & _); [destruct Hw; lia|]. cbn [mbind option_bind].
    assert (Hm : Metadata.set (listId m) (stripeId m) (chunkId m) = m) by (by destruct m).
    destruct (IH (MkCoordinator (<[socket := CoordMap.MkMap ({[m]} ∪ CoordMap.chunks t) (CoordMap.keys t) (CoordMap.lockedKeys t)]> (maps c)) sh) (X ∪ {[m]}) O)
      as (c' & E & Hc'); [|done|].
    + eexists _, L. split; [apply lookup_insert_eq|]. split; [done|]. simpl. split; [set_solver|]. split; [lia|done].
    + rewrite Hm. exists c'. split; [done|]. replace (X ∪ list_to_set (m :: ms)) with (X ∪ {[m]} ∪ list_to_set ms) by set_solver. done.
Qed.

Lemma insert_keys_spec U ops : ∀ c X O P (M : Key → option Metadata),
  knows U c X O → Forall good_op ops → (∀ k, k ∉ U → chain (om_metadata <$> O !! k) (pend k (ops ++ P)) = Some (M k)) →
  ∃ c' O', insert_keys c socket ops = Some c' ∧ knows U c' X O' ∧ ∀ k, k ∉ U → chain (om_metadata <$> O' !! k) (pend k P) = Some (M k).
Proof using HK.
  induction ops as [|[k op] ops IH]; intros c X O P M Hc Hops Hch; [by exists c, O|].
  apply Forall_cons in Hops as [Hop Hops]. destruct Hc as (t & L & Ht & Hh & Hx & Hs & Hset).
  cbn [insert_keys]. unfold insert_key. rewrite Ht. cbn [mbind option_bind].
  destruct (CoordMap.insert_request_spec K HK t (shared c) O L (k, op) Hh) as (r & o & b & t1 & sh & Es & -> & Hc1 & Hl & Hh1).
  { by apply good_op_request. }
  cbn [mbind option_bind]. simpl fst in *. simpl snd in *.
  assert (Ho : k ∉ U → o = (if decide (om_opcode op = CoordMap.PROTO_OPCODE_SET) then Some op else None) ∧
    chain (om_metadata <$> o) (pend k (ops ++ P)) = Some (M k)).
  { intros HU. pose proof (Hch k HU) as Hk. cbn [app] in Hk. rewrite pend_cons in Hk. rewrite decide_True in Hk by done. simpl snd in Hk.
    destruct (O !! k) as [old|] eqn:E; cbn [fmap option_fmap option_map chain] in Hk; case_decide as Ho; try done.
    - unfold CoordMap.key_step in Es. rewrite Ho in Es. rewrite decide_False in Es by (intros [?|?]; done).
      rewrite decide_True in Es by done. injection Es as <- <- <-. by rewrite Ho.
    - unfold CoordMap.key_step in Es. rewrite decide_True in Es by tauto. injection Es as <- <- <-. by repeat case_decide. }
  destruct (IH (MkCoordinator (<[socket := t1]> (maps c)) sh) X (CoordMap.put_opt k o O) P M) as (c' & O' & E & Hc' & HO'); [|done| |].
  - eexists t1, _. split; [apply lookup_insert_eq|]. split; [exact Hh1|]. split; [congruence|]. simpl. split; [lia|].
    intros k' o' HU. destruct (decide (k = k')) as [<-|Hne]; [|rewrite CoordMap.put_opt_other by done; by apply Hset].
    destruct (Ho HU) as [Ho' _]. rewrite CoordMap.put_opt_lookup, Ho'. case_decide; [|done]. by intros [= <-].
  - intros k' HU. destruct (decide (k = k')) as [<-|Hne]; [rewrite CoordMap.put_opt_lookup; by apply Ho|].
    rewrite CoordMap.put_opt_other by done. specialize (Hch k' HU). cbn [app] in Hch. by rewrite pend_cons, decide_False in Hch.
  - by exists c', O'.
Qed.

(** Asking for the lock of a key changes no record. *)
Lemma lock_keeps U c X O k op :
  knows U c X O → K k → Key.wf k → 0 ≤ listId (om_metadata op) < numLists → om_opcode op = CoordMap.PROTO_OPCODE_REMAPPING_LOCK →
  ∃ c', insert_key c socket k op = Some c' ∧ knows U c' X O.
Proof using HK.
  intros (t & L & Ht & Hh & Hx & Hs & Hset) HKk Hw Hl Hop. unfold insert_key. rewrite Ht. cbn [mbind option_bind].
  destruct (CoordMap.insert_request_spec K HK t (shared c) O L (k, op) Hh) as (r & o & b & t1 & sh & Es & -> & Hc1 & Hl' & Hh1).
  { split; [done|]. split; [done|]. split; [unfold CoordMap.known_op; simpl; rewrite Hop; set_solver|by rewrite Hs]. }
  cbn [mbind option_bind]. eexists. split; [done|]. simpl fst in *. simpl snd in *.
  assert (Ho : o = O !! k).
  { unfold CoordMap.key_step in Es. rewrite Hop in Es. destruct (O !! k) as [old|].
    - rewrite decide_False in Es by (intros [?|?]; done). rewrite decide_False in Es by done. by injection Es as <- <- <-.
    - rewrite decide_False in Es by (intros [[?|?]|?]; done). rewrite decide_True in Es by done. by injection Es as <- <- <-. }
  rewrite CoordMap.put_opt_same in Hh1 by done. eexists t1, _. split; [apply lookup_insert_eq|]. split; [exact Hh1|].
  split; [congruence|]. simpl. split; [lia|done].
Qed.
End coordinator.

(** ** The invariant *)
Section invariant.
Context (sl : StripeList.StripeList Z) (numLists : Z) (p q : Protocol) (socket : Z).
Context (iter : gset Metadata → list Metadata) (Hiter : ∀ X, iter X ≡ₚ elements X).
Context (K : Key → Prop) (HK : discriminated K).
Hypothesis (Hp : protocol_ok p) (Hb : buffer_ok p).
Local Notation own := (own sl numLists socket).
Local Notation good_op := (good_op sl numLists socket K).

(** What a message on its way carries. *)
Record load := MkLoad { l_time : Z; l_sealed : list Metadata; l_ops : list (Key * OpMetadata); l_last : bool }.
Definition in_flight (msg : list byte * Z) (l : load) : Prop :=
  (∃ e n, arrives (Some msg) q (header_of p e n 0 false) (parse_batch q KBHeartbeat)
    (CHeartbeat None (l_time l) (l_sealed l) (l_ops l) (l_last l))) ∧ Forall own (l_sealed l).

(** The operations the coordinator has not entered yet, in order. *)
Definition waiting (s : System) (ls : list load) : list (Key * OpMetadata) := concat (l_ops <$> ls) ++ ServerMap.ops (map (server s)).

Record consistent (s : System) (ls : list load) (O OC : gmap Key OpMetadata) (X : gset Metadata) : Prop := {
  c_ops : holds_map K (ServerMap.ops (map (server s))) O;
  c_clock : 0 ≤ Timestamp.value (ServerMap.timestamp (map (server s))) < 2 ^ 32;
  c_sealed : set_Forall own (ServerMap.sealed (map (server s)));
  c_sent : Forall2 in_flight (sent s) ls;
  c_knows : knows numLists socket K (missed s) (coordinator s) X OC;
  c_good : Forall good_op (waiting s ls);
  c_stored : ∀ k m, stored s !! k = Some m → K k ∧ Key.wf k ∧ own m;
  c_chain : ∀ k, k ∉ missed s → chain (om_metadata <$> OC !! k) (pend k (waiting s ls)) = Some (stored s !! k);
  c_chunks : sealed_chunks s = X ∪ list_to_set (concat (l_sealed <$> ls)) ∪ ServerMap.sealed (map (server s));
}.
Definition invariant (s : System) : Prop := ∃ ls O OC X, consistent s ls O OC X.

Lemma initial_invariant s : initial numLists socket s → 0 ≤ numLists → invariant s.
Proof using.
  intros (Ho & Hs & Hc & Hsent & Hm & Hsh & Hst & Hsc & _) Hn. exists [], ∅, ∅, ∅. split.
  - rewrite Ho. apply holds_empty.
  - done.
  - rewrite Hs. by intros m Hm'%not_elem_of_empty.
  - rewrite Hsent. constructor.
  - exists CoordMap.Map_new, ∅. split; [done|]. split; [split; apply holds_empty|]. split; [done|]. split; [|done].
    rewrite Hsh. unfold CoordMap.init, zlen. simpl. rewrite length_replicate. lia.
  - unfold waiting. rewrite Ho. constructor.
  - intros k m. by rewrite Hst, lookup_empty.
  - intros k _. unfold waiting. rewrite Ho. simpl. by rewrite Hst, !lookup_empty.
  - rewrite Hsc, Hs. set_solver.
Qed.

(** A new operation of the server goes to the end of the queue. *)
Lemma reported s ls O OC X sv O' k op M :
  consistent s ls O OC X →
  ServerMap.ops (map sv) = ServerMap.ops (map (server s)) ++ [(k, op)] → holds_map K (ServerMap.ops (map sv)) O' →
  ServerMap.timestamp (map sv) = snd (Timestamp.nextVal (ServerMap.timestamp (map (server s)))) →
  ServerMap.sealed (map sv) = ServerMap.sealed (map (server s)) → good_op (k, op) →
  (k ∉ missed s → chain (stored s !! k) [op] = Some (M !! k)) → (∀ k', k' ≠ k → M !! k' = stored s !! k') →
  (∀ k m, M !! k = Some m → K k ∧ Key.wf k ∧ own m) →
  consistent (MkSystem sv (sent s) (coordinator s) M (sealed_chunks s) (missed s)) ls O' OC X.
Proof using.
  intros [Ho Hc Hse Hsent Hkn Hg Hst Hch Hx] Hops HO' Hts Hsealed Hop HM Hother Hwf.
  assert (Hw : waiting (MkSystem sv (sent s) (coordinator s) M (sealed_chunks s) (missed s)) ls = waiting s ls ++ [(k, op)]).
  { unfold waiting. simpl. by rewrite Hops, (assoc (++)). }
  split; simpl; rewrite ?Hw, ?Hsealed; try done.
  - rewrite Hts. simpl. apply u32_range.
  - apply Forall_app. split; [done|]. by constructor.
  - intros k' HU. rewrite pend_app, chain_app, Hch by done. cbn [mbind option_bind]. rewrite pend_cons. simpl. case_decide as Hk.
    + subst k'. by apply HM.
    + simpl. by rewrite Hother.
Qed.

(** A deletion cancels the operation that waits at the server. *)
Lemma cancelled s ls O OC X sv O' k op m :
  consistent s ls O OC X → O !! k = Some op → stored s !! k = Some m →
  ServerMap.ops (map sv) = filter (λ x, x.1 ≠ k) (ServerMap.ops (map (server s))) → holds_map K (ServerMap.ops (map sv)) O' →
  ServerMap.timestamp (map sv) = ServerMap.timestamp (map (server s)) →
  ServerMap.sealed (map sv) = ServerMap.sealed (map (server s)) →
  consistent (MkSystem sv (sent s) (coordinator s) (delete k (stored s)) (sealed_chunks s) (missed s)) ls O' OC X.
Proof using.
  intros [Ho Hc Hse Hsent Hkn Hg Hst Hch Hx] HOk Hm Hops HO' Hts Hsealed.
  unfold waiting in *. split; simpl; unfold waiting; simpl; rewrite ?Hops, ?Hsealed, ?Hts; try done.
  - by rewrite Hops in HO'.
  - apply Forall_app in Hg as [Hg1 Hg2]. apply Forall_app. split; [done|]. rewrite Forall_forall in Hg2 |- *. intros x [_ ?]%list_elem_of_filter. by apply Hg2.
  - intros k' m'. destruct (decide (k' = k)) as [->|Hne]; [by rewrite lookup_delete_eq|]. rewrite lookup_delete_ne by done. apply Hst.
  - intros k' HU. specialize (Hch k' HU). rewrite pend_app in Hch |- *. rewrite pend_remove. case_decide as Hk; [|by rewrite lookup_delete_ne by congruence].
    subst k'. rewrite lookup_delete_eq, app_nil_r. rewrite (pend_holds K (ServerMap.ops (map (server s))) O), HOk, Hm in Hch by done.
    rewrite chain_app in Hch. destruct (chain _ (pend k (concat (l_ops <$> ls)))) as [cur|]; [|done]. cbn [mbind option_bind chain] in Hch.
    destruct cur; case_decide; try done.
Qed.

Lemma holds_suffix {V} (t1 t2 : key_map V) M : holds_map K (t1 ++ t2) M → holds_map K t2 (list_to_map t2).
Proof using. intros (Hn & Hk & _). rewrite fmap_app in Hn, Hk. apply NoDup_app in Hn as (_ & _ & Hn). apply Forall_app in Hk as [_ Hk]. done. Qed.

(** The message [l] takes the first operations of the server, and all when it is the last. *)
Definition took (s : System) (sv : Server) (l : load) : Prop :=
  l_time l = Timestamp.value (ServerMap.timestamp (map (server s))) ∧
  ServerMap.timestamp (map sv) = snd (Timestamp.nextVal (ServerMap.timestamp (map (server s)))) ∧
  ServerMap.ops (map (server s)) = l_ops l ++ ServerMap.ops (map sv) ∧ (l_last l = true → ServerMap.ops (map sv) = []).

(** A heartbeat takes objects from the server's containers to the channel. *)
Lemma sync_spec s ls O OC X e :
  consistent s ls O OC X → envelope_ok e → e_to e = to q →
  ∃ sv again msg l O', sync p e (iter (ServerMap.sealed (map (server s)))) (server s) = Some (sv, again, msg) ∧
    (again = false → ServerMap.ops (map sv) = [] ∧ ServerMap.sealed (map sv) = ∅) ∧ took s sv l ∧
    consistent (MkSystem sv (sent s ++ [msg]) (coordinator s) (stored s) (sealed_chunks s) (missed s)) (ls ++ [l]) O' OC X.
Proof using Hiter HK Hp Hb.
  intros [Ho Hc Hse Hsent Hkn Hg Hst Hch Hx] He Heto. unfold sync. cbn [Timestamp.nextVal].
  set (ms := iter (ServerMap.sealed (map (server s)))). set (ts := Timestamp.value _) in *. set (ops := ServerMap.ops (map (server s))) in *.
  assert (Hms : Forall own ms).
  { apply Forall_forall. intros m Hm. apply Hse. unfold ms in Hm. rewrite Hiter in Hm. by apply elem_of_elements. }
  assert (Hok : batch_ok (BHeartbeat ts ms ops)).
  { split; [done|]. split; [eapply Forall_impl; [exact Hms|]; by intros m [? _]|].
    unfold waiting in Hg. apply Forall_app in Hg as [_ Hg]. eapply Forall_impl; [exact Hg|]. intros x. apply good_op_ok. }
  destruct (split_batch (buffer_size p) (BHeartbeat ts ms ops)) as [[c b'] fin] eqn:Es.
  destruct (one_batch p e q Hp He (eq_sym Heto) Hb _ _ _ _ Hok Es) as (msg & n & Hgen & _ & Harr).
  cbn [split_batch] in Es. destruct (fitting metadata_need _ ms) as [xs ys] eqn:E1. destruct (fitting op_need _ ops) as [xs' ys'] eqn:E2.
  injection Es as <- <- <-. cbn [generate_batch] in Hgen.
  destruct (generateHeartbeatMessage p e ts ms ops) as [[[[[[ms' ops'] fin] sc] oc] msg']|]; [|done].
  cbn [mbind option_bind] in Hgen |- *. injection Hgen as -> -> -> ->.
  apply fitting_app in E1, E2. eexists _, _, msg, (MkLoad ts xs xs' (completed ys && completed ys')), (list_to_map ys'). split; [done|]. split.
  { intros Hd%negb_false_iff. simpl. apply andb_true_iff in Hd as [->%completed_nil ->%completed_nil]. done. }
  split.
  { split; [done|]. split; [done|]. split; [exact E2|]. intros [_ ->%completed_nil]%andb_true_iff. done. }
  assert (Hw : concat (l_ops <$> ls ++ [MkLoad ts xs xs' (completed ys && completed ys')]) ++ ys' = waiting s ls).
  { unfold waiting. fold ops. rewrite E2, fmap_app, concat_app. simpl. by rewrite app_nil_r, <- (assoc (++)). }
  assert (Hset : ServerMap.sealed (map (server s)) = list_to_set (xs ++ ys)).
  { rewrite <- E1. apply set_eq. intros m. rewrite elem_of_list_to_set. unfold ms. rewrite Hiter. symmetry. apply elem_of_elements. }
  rewrite E1 in Hms. apply Forall_app in Hms as [Hxs Hys]. rewrite E2 in Ho.
  split; unfold waiting; simpl; rewrite ?Hw; try done.
  - by eapply holds_suffix.
  - apply u32_range.
  - intros m. rewrite elem_of_list_to_set. rewrite Forall_forall in Hys. apply Hys.
  - apply Forall2_app; [done|]. constructor; [|constructor]. split; [by exists e, n|done].
  - rewrite fmap_app, concat_app. rewrite Hx, Hset. simpl. rewrite app_nil_r. set_solver.
Qed.

(** Whatever the bytes behind the message, the coordinator accepts it and enters
    its objects. *)
Lemma delivery_spec s l ls O OC X b n rest recv processed0 requestId :
  consistent s (l :: ls) O OC X → sent s = (b, n) :: rest → holds recv 0 (take (Z.to_nat n) b) →
  ∃ h ack done c OC' X', parseHeader q (Some recv) n = Some (Some h) ∧
    processHeartbeat sl q processed0 socket requestId (drop (Z.to_nat PROTO_HEADER_SIZE) recv) (h_length h) (coordinator s) =
      Some (true, Some ack, done, c) ∧
    hb_timestamp ack = l_time l ∧ hb_isLast ack = l_last l ∧
    consistent (MkSystem (server s) rest c (stored s) (sealed_chunks s) (missed s)) ls O OC' X'.
Proof using HK.
  clear Hiter Hp Hb iter. intros [Ho Hc Hse Hsent Hkn Hg Hst Hch Hx] Hs Hr. rewrite Hs in Hsent. apply Forall2_cons in Hsent as [Hin Hsent].
  destruct Hin as [(e & k & b' & n' & Hmsg & Hn & Hlen & Harr) Hown]. injection Hmsg as <- <-.
  destruct (Harr recv Hr) as [Hparse Hpay]. set (h := header_of p e k 0 false) in *.
  unfold waiting in *. cbn [fmap list_fmap concat] in *. rewrite <- (assoc (++)) in Hg, Hch.
  apply Forall_app in Hg as [Hgl Hg].
  destruct (insert_chunks_spec sl numLists socket K (missed s) (l_sealed l) (coordinator s) X OC Hkn Hown) as (c1 & E1 & Hk1).
  destruct (insert_keys_spec sl numLists socket K HK (missed s) (l_ops l) c1 _ OC _ _ Hk1 Hgl Hch) as (c2 & O2 & E2 & Hk2 & Hch2).
  cbn [parse_batch] in Hpay. replace (n - PROTO_HEADER_SIZE) with (h_length h) in Hpay by lia.
  destruct (process_contents sl q socket _ _ processed0 requestId _ _ _ _ _ _ c1 c2 Hpay E1 E2) as (ack & Ht & _ & _ & Hl & Hproc).
  { eapply Forall_impl; [exact Hgl|]. intros x (_ & _ & (_ & _ & Hx') & _) _. exact Hx'. }
  eexists h, ack, _, c2, O2, (X ∪ list_to_set (l_sealed l)). split; [done|]. split; [exact Hproc|]. split; [done|]. split; [done|].
  split; simpl; try done. rewrite Hx, list_to_set_app_L. set_solver.
Qed.

(** ** What a step does to the operations on their way *)
Inductive flow (s s' : System) (ls ls' : list load) : Prop :=
| flow_report x :
    ls' = ls → ServerMap.ops (map (server s')) = ServerMap.ops (map (server s)) ++ [x] →
    om_timestamp x.2 = Timestamp.value (ServerMap.timestamp (map (server s))) →
    ServerMap.timestamp (map (server s')) = snd (Timestamp.nextVal (ServerMap.timestamp (map (server s)))) → flow s s' ls ls'
| flow_keep :
    ls' = ls → (∀ x, x ∈ ServerMap.ops (map (server s')) → x ∈ ServerMap.ops (map (server s))) →
    ServerMap.timestamp (map (server s')) = ServerMap.timestamp (map (server s)) → flow s s' ls ls'
| flow_sync l : ls' = ls ++ [l] → took s (server s') l → flow s s' ls ls'
| flow_deliver l : ls = l :: ls' → server s' = server s → flow s s' ls ls'.

Definition moves (s s' : System) (ls : list load) : Prop := ∃ ls' O OC X, consistent s' ls' O OC X ∧ flow s s' ls ls'.

(** A SET is left out when an operation of the key waits; then the key is missed. *)
Lemma unreported s ls O OC X sv O' k m :
  consistent s ls O OC X → K k → Key.wf k → own m →
  ServerMap.ops (map sv) = ServerMap.ops (map (server s)) → holds_map K (ServerMap.ops (map sv)) O' →
  ServerMap.timestamp (map sv) = ServerMap.timestamp (map (server s)) →
  ServerMap.sealed (map sv) = ServerMap.sealed (map (server s)) →
  consistent (MkSystem sv (sent s) (coordinator s) (<[k := m]> (stored s)) (sealed_chunks s) ({[ k ]} ∪ missed s)) ls O' OC X.
Proof using.
  clear HK Hiter Hp Hb iter. intros [Ho Hc Hse Hsent (t & L & Ht & Hh & HX & Hl & Hset) Hg Hst Hch Hx] HKk Hw Hown Hops HO' Hts Hsealed.
  unfold waiting in *. split; simpl; unfold waiting; simpl; rewrite ?Hsealed, ?Hts; try done.
  - exists t, L. split_and!; try done. intros k' o HU. apply Hset. set_solver.
  - by rewrite Hops.
  - intros k' m'. destruct (decide (k = k')) as [<-|Hne]; [rewrite lookup_insert_eq; by intros [= <-]|].
    rewrite lookup_insert_ne by done. apply Hst.
  - intros k' [Hne HU]%not_elem_of_union. rewrite Hops, lookup_insert_ne by set_solver. by apply Hch.
Qed.

Lemma set_moves s ls O OC X k m ts dup r sv :
  consistent s ls O OC X → K k → Key.wf k → own m → stored s !! k = None →
  report (server s) CoordMap.PROTO_OPCODE_SET ts k m dup = Some (r, sv) →
  moves s (MkSystem sv (sent s) (coordinator s) (<[k := m]> (stored s)) (sealed_chunks s) (if r then missed s else {[ k ]} ∪ missed s)) ls.
Proof using HK.
  intros Hcon HKk Hw Hown Hno Hrep. pose proof Hcon as [Ho Hc Hse Hsent Hkn Hg Hst Hch Hx].
  destruct (report_spec K HK (server s) O CoordMap.PROTO_OPCODE_SET ts k m dup Ho HKk Hw) as (sv' & O' & E & Hs' & HO' & Hops).
  rewrite Hrep in E. injection E as -> <-.
  destruct (O !! k) as [op|] eqn:E.
  - rewrite bool_decide_eq_false_2 by (by intros [?|?]). destruct Hops as [Hts Hops]. rewrite decide_False in Hops by done.
    exists ls, O', OC, X. split; [by eapply unreported|]. apply flow_keep; [done| |done]. intros x. simpl. by rewrite Hops.
  - rewrite bool_decide_eq_true_2 by (by left). destruct Hops as [Hops Hts]. exists ls, O', OC, X. split; [|by eapply flow_report].
    eapply reported; try done.
    + split; [done|]. split; [done|]. split; [done|]. split; [done|]. by left.
    + intros _. rewrite Hno. cbn. by rewrite lookup_insert_eq.
    + intros k' Hne. by rewrite lookup_insert_ne.
    + intros k' m'. destruct (decide (k = k')) as [<-|Hne]; [rewrite lookup_insert_eq; by intros [= <-]|].
      rewrite lookup_insert_ne by done. apply Hst.
Qed.

Lemma delete_moves s ls O OC X k m ts dup r sv :
  consistent s ls O OC X → stored s !! k = Some m →
  report (server s) CoordMap.PROTO_OPCODE_DELETE ts k m dup = Some (r, sv) →
  moves s (MkSystem sv (sent s) (coordinator s) (delete k (stored s)) (sealed_chunks s) (missed s)) ls.
Proof using HK.
  intros Hcon Hm Hrep. pose proof Hcon as [Ho Hc Hse Hsent Hkn Hg Hst Hch Hx]. destruct (Hst k m Hm) as (HKk & Hw & Hown).
  destruct (report_spec K HK (server s) O CoordMap.PROTO_OPCODE_DELETE ts k m dup Ho HKk Hw) as (sv' & O' & E & Hs' & HO' & Hops).
  rewrite Hrep in E. injection E as -> <-.
  destruct (O !! k) as [op|] eqn:E; destruct Hops as [H1 H2].
  - rewrite decide_True in H2 by done. exists ls, O', OC, X. split; [by eapply cancelled|].
    apply flow_keep; [done| |done]. intros x. simpl. rewrite H2. by intros [_ ?]%list_elem_of_filter.
  - exists ls, O', OC, X. split; [|by eapply flow_report]. eapply reported; try done.
    + split; [done|]. split; [done|]. split; [done|]. split; [done|]. by right.
    + intros _. rewrite Hm. cbn. by rewrite lookup_delete_eq.
    + intros k' Hne. by rewrite lookup_delete_ne.
    + intros k' m'. destruct (decide (k = k')) as [<-|Hne]; [by rewrite lookup_delete_eq|].
      rewrite lookup_delete_ne by done. apply Hst.
Qed.

(** What waits of a key that is not stored and not missed is a deletion. *)
Lemma waits_spec s ls O OC X k :
  consistent s ls O OC X → k ∉ missed s → stored s !! k = None → deletion_waits (server s) k ↔ is_Some (O !! k).
Proof using.
  clear HK Hiter Hp Hb iter. intros [Ho Hc Hse Hsent Hkn Hg Hst Hch Hx] HU Hno.
  assert (Hin : ∀ op, O !! k = Some op ↔ (k, op) ∈ ServerMap.ops (map (server s))).
  { intros op. destruct Ho as (Hn & _ & ->). symmetry. by apply elem_of_list_to_map. }
  split; [intros (op & Hop & _); exists op; by apply Hin|]. intros [op E]. exists op. split; [by apply Hin|].
  specialize (Hch k HU). unfold waiting in Hch, Hg. rewrite pend_app, chain_app, (pend_holds K (ServerMap.ops _) O), E, Hno in Hch by done.
  apply Forall_app in Hg as [_ Hg]. rewrite Forall_forall in Hg. destruct (Hg _ (proj1 (Hin op) E)) as (_ & _ & _ & _ & [Hop|Hop]); [|done].
  simpl in Hop. destruct (chain _ _) as [[cur|]|]; cbn in Hch; repeat case_decide; first [congruence|rewrite Hop in *; discriminate].
Qed.

Lemma step_moves s s' ls O OC X :
  step sl numLists p q socket iter K s s' → consistent s ls O OC X → moves s s' ls.
Proof using Hiter HK Hp Hb.
  intros Hstep Hcon. destruct Hstep as [s k m ts dup r sv HKk Hw Hown Hno Hrep
    |s k m ts dup r sv Hm Hrep|s m r t Hown Hseal|s e sv again msg He Heto Hsync
    |s b n rest recv h pr rid ok ack dn c Hsent Hr Hh Hproc|s k op c HKk Hw Hl Hop Hins].
  - by eapply set_moves.
  - by eapply delete_moves.
  - destruct Hcon as [Ho Hc Hse Hsent Hkn Hg Hst Hch Hx]. unfold ServerMap.seal in Hseal.
    replace (Metadata.set (listId m) (stripeId m) (chunkId m)) with m in Hseal by (by destruct m). injection Hseal as _ <-.
    exists ls, O, OC, X. split; [|by apply flow_keep]. split; simpl; try done.
    + apply set_Forall_union; [|done]. intros x ->%elem_of_singleton. done.
    + rewrite Hx. set_solver.
  - destruct (sync_spec s ls O OC X e Hcon He Heto) as (sv' & again' & msg' & l & O' & E & _ & Ht & Hcon'). rewrite Hsync in E. injection E as <- <- <-.
    exists (ls ++ [l]), O', OC, X. split; [done|]. by eapply flow_sync.
  - destruct ls as [|l ls]; [destruct Hcon as [_ _ _ Hs _ _ _ _ _]; rewrite Hsent in Hs; inversion Hs|].
    destruct (delivery_spec s l ls O OC X b n rest recv pr rid Hcon Hsent Hr) as (h' & ack' & dn' & c' & OC' & X' & Eh & E & _ & _ & Hcon').
    rewrite Hh in Eh. injection Eh as <-. rewrite Hproc in E. injection E as _ _ _ <-. exists ls, O, OC', X'. split; [done|]. by eapply flow_deliver.
  - destruct Hcon as [Ho Hc Hse Hsent Hkn Hg Hst Hch Hx].
    destruct (lock_keeps numLists socket K HK (missed s) (coordinator s) X OC k op Hkn HKk Hw Hl Hop) as (c' & E & Hkn'). rewrite Hins in E. injection E as <-.
    exists ls, O, OC, X. split; [done|]. by apply flow_keep.
Qed.

Lemma step_invariant s s' : step sl numLists p q socket iter K s s' → invariant s → invariant s'.
Proof using Hiter HK Hp Hb.
  intros Hstep (ls & O & OC & X & Hcon). destruct (step_moves _ _ _ _ _ _ Hstep Hcon) as (ls' & O' & OC' & X' & Hcon' & _).
  by exists ls', O', OC', X'.
Qed.

Lemma reachable_invariant s : 0 ≤ numLists → reachable sl numLists p q socket iter K s → invariant s.
Proof using Hiter HK Hp Hb.
  intros Hn (s0 & H0 & Hsteps). pose proof (initial_invariant s0 H0 Hn) as Hi. clear H0.
  induction Hsteps as [s|s s1 s2 Hstep Hsteps IH]; [done|]. apply IH. by eapply step_invariant.
Qed.
End invariant.

(** ** Timestamps, as long as the server's clock does not wrap around *)
Definition clock (s : System) : Z := Timestamp.value (ServerMap.timestamp (map (server s))).
Definition later (t : Z) (x : Key * OpMetadata) : Prop := t < om_timestamp x.2.

(** What follows the last message of a heartbeat is later. *)
Fixpoint ordered (ls : list load) (ops : list (Key * OpMetadata)) : Prop :=
  match ls with
  | [] => True
  | l :: ls => (l_last l = true → Forall (later (l_time l)) (concat (l_ops <$> ls) ++ ops)) ∧ ordered ls ops
  end.
Definition timed (s : System) (ls : list load) : Prop :=
  Forall (λ x, om_timestamp x.2 < clock s) (ServerMap.ops (map (server s))) ∧
  Forall (λ l, l_time l < clock s) ls ∧ ordered ls (ServerMap.ops (map (server s))).

Lemma ordered_sub ls ops ops' : (∀ x, x ∈ ops' → x ∈ ops) → ordered ls ops → ordered ls ops'.
Proof.
  intros Hsub. induction ls as [|l ls IH]; [done|]. intros [Hl Hls]. split; [|by apply IH]. intros Hlast. specialize (Hl Hlast).
  apply Forall_app in Hl as [Hl Ho]. apply Forall_app. split; [done|]. rewrite Forall_forall in Ho |- *. auto.
Qed.
Lemma ordered_snoc_op ls ops x : Forall (λ l, l_time l < om_timestamp x.2) ls → ordered ls ops → ordered ls (ops ++ [x]).
Proof.
  induction ls as [|l ls IH]; [done|]. intros [Hx Hxs]%Forall_cons [Hl Hls]. split; [|by apply IH].
  intros Hlast. rewrite (assoc (++)). apply Forall_app. split; [by apply Hl|]. by constructor.
Qed.
Lemma ordered_snoc ls l ops : (l_last l = true → ops = []) → ordered ls (l_ops l ++ ops) → ordered (ls ++ [l]) ops.
Proof.
  intros Hlast. induction ls as [|l' ls IH]; cbn [ordered app].
  - intros _. split; [|done]. intros H. rewrite (Hlast H). constructor.
  - intros [Hl Hls]. split; [|by apply IH]. intros H. rewrite fmap_app, concat_app. cbn [fmap list_fmap concat].
    rewrite app_nil_r, <- (assoc (++)). by apply Hl.
Qed.

Lemma flow_timed s s' ls ls' : flow s s' ls ls' → 0 ≤ clock s < 2 ^ 32 - 1 → timed s ls → timed s' ls'.
Proof.
  intros Hflow Hc (Ho & Hl & Hord). destruct Hflow as [x -> Hops Hx Hts| -> Hops Hts|l -> (Ht & Hts & Hops & Hlast)|l -> Hs].
  - assert (Hc' : clock s' = clock s + 1) by (unfold clock in *; rewrite Hts; simpl; rewrite u32_small by lia; done).
    change (om_timestamp x.2 = clock s) in Hx. split; [|split]; rewrite ?Hops.
    + apply Forall_app. split; [eapply Forall_impl; [exact Ho|]; simpl; intros; lia|]. constructor; [lia|constructor].
    + eapply Forall_impl; [exact Hl|]. simpl. intros. lia.
    + apply ordered_snoc_op; [|done]. eapply Forall_impl; [exact Hl|]. simpl. intros. lia.
  - assert (Hc' : clock s' = clock s) by (unfold clock; by rewrite Hts). split; [|split]; rewrite ?Hc'.
    + rewrite Forall_forall in Ho |- *. auto.
    + done.
    + by eapply ordered_sub.
  - assert (Hc' : clock s' = clock s + 1) by (unfold clock in *; rewrite Hts; simpl; rewrite u32_small by lia; done).
    change (l_time l = clock s) in Ht. rewrite Hops in Ho, Hord. apply Forall_app in Ho as [_ Ho]. split; [|split].
    + eapply Forall_impl; [exact Ho|]. simpl. intros. lia.
    + apply Forall_app. split; [eapply Forall_impl; [exact Hl|]; simpl; intros; lia|]. constructor; [lia|constructor].
    + by apply ordered_snoc.
  - unfold timed, clock in *. rewrite Hs. apply Forall_cons in Hl as [_ Hl]. destruct Hord as [_ Hord]. done.
Qed.

(** Reachable without a wrap-around of the clock. *)
Definition timely_step sl numLists p q socket iter K (s s' : System) : Prop :=
  step sl numLists p q socket iter K s s' ∧ clock s < 2 ^ 32 - 1.
Definition timely sl numLists p q socket iter K (s : System) : Prop :=
  ∃ s0, initial numLists socket s0 ∧ rtc (timely_step sl numLists p q socket iter K) s0 s.

Lemma timely_timed sl numLists p q socket iter K s :
  (∀ X, iter X ≡ₚ elements X) → discriminated K → protocol_ok p → buffer_ok p → 0 ≤ numLists →
  timely sl numLists p q socket iter K s →
  ∃ ls O OC X, consistent sl numLists p q socket K s ls O OC X ∧ timed s ls.
Proof.
  intros Hiter HK Hp Hb Hn (s0 & H0 & Hsteps).
  assert (Hi : ∃ ls O OC X, consistent sl numLists p q socket K s0 ls O OC X ∧ timed s0 ls).
  { destruct (initial_invariant sl numLists p q socket K s0 H0 Hn) as (ls & O & OC & X & Hc).
    exists ls, O, OC, X. split; [done|]. destruct H0 as (Ho & _ & _ & Hsent & _).
    destruct Hc as [_ _ _ Hl _ _ _ _ _]. rewrite Hsent in Hl. inversion Hl; subst. unfold timed. rewrite Ho. done. }
  clear H0. induction Hsteps as [s|s s1 s2 [Hstep Hclock] Hsteps IH]; [done|]. apply IH. destruct Hi as (ls & O & OC & X & Hc & Ht).
  destruct (step_moves sl numLists p q socket iter Hiter K HK Hp Hb _ _ _ _ _ _ Hstep Hc) as (ls' & O' & OC' & X' & Hc' & Hf).
  exists ls', O', OC', X'. split; [done|]. eapply flow_timed; [done| |done]. split; [apply Hc|done].
Qed.

(** ** Properties *)

(** C5: The coordinator's map of a server keeps up with the server, whatever other
    requests interleave: a heartbeat can always be generated and, once the
    generator reports completion, leaves nothing unreported; the coordinator
    accepts every heartbeat that arrives; and when nothing is on its way it finds
    the chunks that were sealed and, of every key that is not missed, whether the
    server stores it and in which chunk.  A key is missed from the first SET of it
    that is not entered for a heartbeat, which is one that comes while a deletion
    of the key waits to be reported. *)
Theorem metadata_in_sync sl numLists p q socket iter K s :
  (∀ X, iter X ≡ₚ elements X) → discriminated K → protocol_ok p → buffer_ok p → 0 ≤ numLists →
  reachable sl numLists p q socket iter K s →
  (∀ e, envelope_ok e → e_to e = to q →
     ∃ sv again msg, sync p e (iter (ServerMap.sealed (map (server s)))) (server s) = Some (sv, again, msg) ∧
       (again = false → ServerMap.ops (map sv) = [] ∧ ServerMap.sealed (map sv) = ∅)) ∧
  (∀ b n rest recv processed0 requestId, sent s = (b, n) :: rest → holds recv 0 (take (Z.to_nat n) b) →
     ∃ h ack done c, parseHeader q (Some recv) n = Some (Some h) ∧
       processHeartbeat sl q processed0 socket requestId (drop (Z.to_nat PROTO_HEADER_SIZE) recv) (h_length h) (coordinator s) =
         Some (true, Some ack, done, c)) ∧
  (sent s = [] → ∃ t, maps (coordinator s) !! socket = Some t ∧
     (ServerMap.ops (map (server s)) = [] →
        ∀ k, K k → k ∉ missed s → CoordMap.findMetadataByKey t (Key.data k) (Key.size k) (Key.isLarge k) = Some (stored s !! k)) ∧
     (ServerMap.sealed (map (server s)) = ∅ → ∀ m, CoordMap.isSealed t m = bool_decide (m ∈ sealed_chunks s))) ∧
  (∀ k m ts dup, K k → Key.wf k → k ∉ missed s → stored s !! k = None →
     ∃ r sv, report (server s) CoordMap.PROTO_OPCODE_SET ts k m dup = Some (r, sv) ∧ (r = false ↔ deletion_waits (server s) k)).
Proof.
  intros Hiter HK Hp Hb Hn Hreach.
  destruct (reachable_invariant sl numLists p q socket iter Hiter K HK Hp Hb s Hn Hreach) as (ls & O & OC & X & Hcon).
  split; [|split; [|split]].
  - intros e He Heto.
    destruct (sync_spec sl numLists p q socket iter Hiter K HK Hp Hb s ls O OC X e Hcon He Heto) as (sv & again & msg & _ & _ & E & Hd & _ & _). eauto.
  - intros b n rest recv pr rid Hs Hr. destruct ls as [|l ls]; [destruct Hcon as [_ _ _ Hl _ _ _ _ _]; rewrite Hs in Hl; inversion Hl|].
    destruct (delivery_spec sl numLists p q socket K HK s l ls O OC X b n rest recv pr rid Hcon Hs Hr)
      as (h & ack & dn & c & _ & _ & Eh & E & _). eauto 6.
  - intros Hs. destruct Hcon as [Ho _ _ Hl (t & L & Ht & Hh & HX & _ & _) _ _ Hch Hx]. rewrite Hs in Hl. inversion Hl; subst ls.
    exists t. split; [done|]. split.
    + intros Hops k HKk HU. specialize (Hch k HU). unfold waiting in Hch. rewrite Hops in Hch. cbn in Hch. injection Hch as Hch.
      unfold CoordMap.findMetadataByKey. replace (Key.MkKey (Key.size k) (Key.data k) (Key.isLarge k)) with k by (by destruct k).
      rewrite (find_spec K HK _ OC) by (done || apply Hh). cbn [mbind option_bind]. rewrite <- Hch. by destruct (OC !! k).
    + intros Hse m. unfold CoordMap.isSealed. rewrite HX, Hx, Hse. simpl. apply bool_decide_ext. set_solver.
  - intros k m ts dup HKk Hw HU Hno.
    destruct (report_spec K HK (server s) O CoordMap.PROTO_OPCODE_SET ts k m dup (c_ops _ _ _ _ _ _ _ _ _ _ _ Hcon) HKk Hw) as (sv & _ & E & _).
    eexists _, sv. split; [exact E|]. rewrite bool_decide_eq_false. rewrite (waits_spec sl numLists p q socket K s ls O OC X k Hcon HU Hno).
    destruct (O !! k) as [op|]; split; try (by intros [? ?]); try naive_solver.
Qed.

(** C12: The acknowledgement of the last message of a heartbeat is sound for the
    backups of the clients: of the operations in the range of timestamps that a
    client then erases, none is still at the server or on its way, as long as the
    server's clock does not wrap around. *)
Theorem acknowledged_is_entered sl numLists p q socket iter K s b n rest recv h processed0 requestId ok ack done c from :
  (∀ X, iter X ≡ₚ elements X) → discriminated K → protocol_ok p → buffer_ok p → 0 ≤ numLists →
  timely sl numLists p q socket iter K s →
  sent s = (b, n) :: rest → holds recv 0 (take (Z.to_nat n) b) → parseHeader q (Some recv) n = Some (Some h) →
  processHeartbeat sl q processed0 socket requestId (drop (Z.to_nat PROTO_HEADER_SIZE) recv) (h_length h) (coordinator s) =
    Some (ok, Some ack, done, c) →
  hb_isLast ack = true → from ≤ hb_timestamp ack →
  ∃ ls, Forall2 (in_flight sl numLists p q socket) rest ls ∧
    ∀ x, x ∈ concat (l_ops <$> ls) ++ ServerMap.ops (map (server s)) →
      ClientBackup.in_range from (hb_timestamp ack) (om_timestamp x.2) = false.
Proof.
  intros Hiter HK Hp Hb Hn Htimely Hs Hr Hh Hproc Hlast Hfrom.
  destruct (timely_timed _ _ _ _ _ _ _ _ Hiter HK Hp Hb Hn Htimely) as (ls & O & OC & X & Hcon & Hc & Hl & Hord).
  destruct ls as [|l ls]; [destruct Hcon as [_ _ _ Hl' _ _ _ _ _]; rewrite Hs in Hl'; inversion Hl'|].
  destruct (delivery_spec sl numLists p q socket K HK s l ls O OC X b n rest recv processed0 requestId Hcon Hs Hr)
    as (h' & ack' & dn & c' & OC' & X' & Eh & E & Ht & Hla & Hcon').
  rewrite Hh in Eh. injection Eh as <-. rewrite Hproc in E. injection E as -> -> -> ->.
  exists ls. split; [apply Hcon'|]. destruct Hord as [Hord _]. rewrite Hla in Hlast. specialize (Hord Hlast). rewrite Forall_forall in Hord.
  intros x Hx. specialize (Hord x Hx). unfold later in Hord. unfold ClientBackup.in_range. rewrite decide_False by lia.
  apply andb_false_iff. right. apply bool_decide_eq_false_2. lia.
Qed.

(** ** Witness: a key is set, reported and entered *)
Definition ex_server : Server := MkServer (ServerMap.Map_new 1 [] []) PendingAck.new.
Definition ex_lists : StripeList.StripeList Z :=
  StripeList.MkStripeList 2 1 1 2 true true (Bitmask.MkBitmaskArray 0 0 0 []) (Bitmask.MkBitmaskArray 0 0 0 []) [] [] [5; 6] [[Some 5; Some 6]].
Definition ex_system : System :=
  MkSystem ex_server [] (MkCoordinator {[ 5 := CoordMap.Map_new ]} (CoordMap.init 1)) ∅ ∅ ∅.
Definition ex_key : Key := Key.MkKey 1 [z2b 107] false.
Definition ex_chunk : Metadata := MkMetadata 0 7 0.
Definition ex_from : Protocol :=
  MkProtocol (PROTO_MAGIC_FROM ROLE_SERVER) (PROTO_MAGIC_TO ROLE_SERVER) 64 (replicate 64 x00) [].
Definition ex_to : Protocol := Protocol_new ROLE_COORDINATOR.
Definition ex_env : envelope := Env PROTO_MAGIC_HEARTBEAT (PROTO_MAGIC_TO ROLE_COORDINATOR) 0x31 7 0.

Lemma ex_plain : plain ex_key.
Proof. split; [done|]. split; [|done]. apply (bool_decide_unpack _). by vm_compute. Qed.

Lemma ex_env_ok : envelope_ok ex_env.
Proof. split; [done|]. split; [by exists ROLE_COORDINATOR|]. split; [|done]. apply (bool_decide_unpack _). by vm_compute. Qed.

(** The states of the run, and the message. *)
Definition ex_server1 : Server :=
  match report ex_server CoordMap.PROTO_OPCODE_SET 0 ex_key ex_chunk false with Some (_, sv) => sv | None => ex_server end.
Definition ex_sync : Server * bool * (list byte * Z) :=
  match sync ex_from ex_env [] ex_server1 with Some r => r | None => (ex_server, true, ([], 0)) end.
Definition ex_recv : list byte := take (Z.to_nat ex_sync.2.2) ex_sync.2.1.
Definition ex_coordinator : Coordinator :=
  match processHeartbeat ex_lists ex_to 0 5 0 (drop (Z.to_nat PROTO_HEADER_SIZE) ex_recv) (ex_sync.2.2 - PROTO_HEADER_SIZE) (coordinator ex_system) with
  | Some (_, _, _, c) => c | None => coordinator ex_system end.
Definition ex_stored : gmap Key Metadata := {[ ex_key := ex_chunk ]}.
Definition ex_end : System := MkSystem ex_sync.1.1 [] ex_coordinator ex_stored ∅ ∅.

Lemma ex_initial : initial 1 5 ex_system.
Proof. split; [reflexivity|]. split; [reflexivity|]. split; [cbn; lia|]. repeat (split; [reflexivity|]). reflexivity. Qed.

Lemma ex_step1 : step ex_lists 1 ex_from ex_to 5 elements plain ex_system (MkSystem ex_server1 [] (coordinator ex_system) ex_stored ∅ ∅).
Proof.
  apply (step_set ex_lists 1 ex_from ex_to 5 elements plain ex_system ex_key ex_chunk 0 false true ex_server1).
  - exact ex_plain.
  - apply ex_plain.
  - split; [done|]. split; [done|]. by vm_compute.
  - reflexivity.
  - vm_compute. reflexivity.
Qed.

Definition ex_sent : System := MkSystem ex_sync.1.1 [ex_sync.2] (coordinator ex_system) ex_stored ∅ ∅.
Lemma ex_step2 : step ex_lists 1 ex_from ex_to 5 elements plain (MkSystem ex_server1 [] (coordinator ex_system) ex_stored ∅ ∅) ex_sent.
Proof.
  apply (step_sync ex_lists 1 ex_from ex_to 5 elements plain (MkSystem ex_server1 [] (coordinator ex_system) ex_stored ∅ ∅)
    ex_env ex_sync.1.1 ex_sync.1.2 ex_sync.2 ex_env_ok eq_refl). vm_compute. reflexivity.
Qed.

Lemma ex_received : holds ex_recv 0 (take (Z.to_nat ex_sync.2.2) ex_sync.2.1).
Proof. exists [], []. split; [by rewrite app_nil_r|done]. Qed.

Definition ex_header : ProtocolHeader := header_of ex_from ex_env (ex_sync.2.2 - PROTO_HEADER_SIZE) 0 false.
Definition ex_ack : HeartbeatHeader := MkHeartbeatHeader 1 0 1 true.

Lemma ex_run : reachable ex_lists 1 ex_from ex_to 5 elements plain ex_end.
Proof.
  exists ex_system. split; [exact ex_initial|]. eapply rtc_l; [exact ex_step1|]. eapply rtc_l; [exact ex_step2|]. apply rtc_once.
  apply (step_deliver ex_lists 1 ex_from ex_to 5 elements plain ex_sent ex_sync.2.1 ex_sync.2.2 [] ex_recv ex_header 0 0 true
    (Some ex_ack) false ex_coordinator); [reflexivity|exact ex_received|vm_compute; reflexivity..].
Qed.

Lemma metadata_in_sync_witness :
  ∃ t, maps (coordinator ex_end) !! 5 = Some t ∧
    CoordMap.findMetadataByKey t (Key.data ex_key) (Key.size ex_key) false = Some (Some ex_chunk).
Proof.
  destruct (metadata_in_sync ex_lists 1 ex_from ex_to 5 elements plain ex_end (λ X, reflexivity _) plain_discriminated) as (_ & _ & Hq & _);
    [by exists ROLE_SERVER|done|done|exact ex_run|].
  destruct (Hq eq_refl) as (t & Ht & Hf & _). exists t. split; [exact Ht|].
  change false with (Key.isLarge ex_key). rewrite (Hf eq_refl ex_key ex_plain); [reflexivity|]. apply not_elem_of_empty.
Defined.

(** The key of [ex_end] is deleted and set again before the next heartbeat: the
    coordinator is told of the deletion only. *)
Definition ex_deleted : Server :=
  match report (server ex_end) CoordMap.PROTO_OPCODE_DELETE 0 ex_key ex_chunk false with Some (_, sv) => sv | None => ex_server end.
Definition ex_sync2 : Server * bool * (list byte * Z) :=
  match sync ex_from ex_env [] ex_deleted with Some r => r | None => (ex_server, true, ([], 0)) end.
Definition ex_recv2 : list byte := take (Z.to_nat ex_sync2.2.2) ex_sync2.2.1.
Definition ex_header2 : ProtocolHeader := header_of ex_from ex_env (ex_sync2.2.2 - PROTO_HEADER_SIZE) 0 false.
Definition ex_coordinator2 : Coordinator :=
  match processHeartbeat ex_lists ex_to 0 5 0 (drop (Z.to_nat PROTO_HEADER_SIZE) ex_recv2) (ex_sync2.2.2 - PROTO_HEADER_SIZE) ex_coordinator with
  | Some (_, _, _, c) => c | None => ex_coordinator end.
Definition ex_again : gmap Key Metadata := <[ex_key := ex_chunk]> (delete ex_key ex_stored).
Definition ex_missed : System := MkSystem ex_sync2.1.1 [] ex_coordinator2 ex_again ∅ ({[ ex_key ]} ∪ ∅).

Lemma ex_missed_steps : rtc (step ex_lists 1 ex_from ex_to 5 elements plain) ex_end ex_missed.
Proof.
  apply (rtc_l _ _ (MkSystem ex_deleted [] ex_coordinator (delete ex_key ex_stored) ∅ ∅)).
  { apply (step_delete ex_lists 1 ex_from ex_to 5 elements plain ex_end ex_key ex_chunk 0 false true ex_deleted); [reflexivity|vm_compute; reflexivity]. }
  apply (rtc_l _ _ (MkSystem ex_deleted [] ex_coordinator ex_again ∅ ({[ ex_key ]} ∪ ∅))).
  { refine (step_set ex_lists 1 ex_from ex_to 5 elements plain (MkSystem ex_deleted [] ex_coordinator (delete ex_key ex_stored) ∅ ∅)
      ex_key ex_chunk 0 false false ex_deleted ex_plain (proj1 ex_plain) _ _ _); [|reflexivity|vm_compute; reflexivity].
    split; [done|]. split; [done|]. by vm_compute. }
  apply (rtc_l _ _ (MkSystem ex_sync2.1.1 [ex_sync2.2] ex_coordinator ex_again ∅ ({[ ex_key ]} ∪ ∅))).
  { refine (step_sync ex_lists 1 ex_from ex_to 5 elements plain (MkSystem ex_deleted [] ex_coordinator ex_again ∅ ({[ ex_key ]} ∪ ∅))
      ex_env ex_sync2.1.1 ex_sync2.1.2 ex_sync2.2 ex_env_ok eq_refl _). vm_compute. reflexivity. }
  apply rtc_once.
  refine (step_deliver ex_lists 1 ex_from ex_to 5 elements plain (MkSystem ex_sync2.1.1 [ex_sync2.2] ex_coordinator ex_again ∅ ({[ ex_key ]} ∪ ∅))
    ex_sync2.2.1 ex_sync2.2.2 [] ex_recv2 ex_header2 0 0 true (Some (MkHeartbeatHeader 3 0 1 true)) false ex_coordinator2 _ _ _ _);
    [reflexivity| |vm_compute; reflexivity..].
  exists [], []. split; [|done]. by rewrite app_nil_r.
Qed.

Lemma missed_key_unknown :
  reachable ex_lists 1 ex_from ex_to 5 elements plain ex_missed ∧ sent ex_missed = [] ∧ ServerMap.ops (map (server ex_missed)) = [] ∧
  stored ex_missed !! ex_key = Some ex_chunk ∧
  (t ← maps (coordinator ex_missed) !! 5; CoordMap.findMetadataByKey t (Key.data ex_key) 1 false) = Some None.
Proof.
  split; [|split; [reflexivity|split; [vm_compute; reflexivity|split; [apply lookup_insert_eq|vm_compute; reflexivity]]]].
  destruct ex_run as (s0 & H0 & Hr). exists s0. split; [done|]. etrans; [exact Hr|exact ex_missed_steps].
Qed.

(** Another key is set while the heartbeat is on its way. *)
Definition ex_key2 : Key := Key.MkKey 20 (replicate 20 (z2b 108)) false.
Definition ex_server2 (sv : Server) : Server :=
  match report sv CoordMap.PROTO_OPCODE_SET 0 ex_key2 ex_chunk false with Some (_, sv) => sv | None => sv end.
Definition ex_later : System :=
  MkSystem (ex_server2 ex_sync.1.1) [ex_sync.2] (coordinator ex_system) (<[ex_key2 := ex_chunk]> ex_stored) ∅ ∅.

Lemma ex_timely : timely ex_lists 1 ex_from ex_to 5 elements plain ex_later.
Proof.
  exists ex_system. split; [exact ex_initial|]. eapply rtc_l; [split; [exact ex_step1|done]|].
  eapply rtc_l; [split; [exact ex_step2|by vm_compute]|]. apply rtc_once. split; [|by vm_compute].
  apply (step_set ex_lists 1 ex_from ex_to 5 elements plain ex_sent ex_key2 ex_chunk 0 false true (ex_server2 ex_sync.1.1)).
  - split; [done|]. apply (bool_decide_unpack _). by vm_compute.
  - done.
  - split; [done|]. split; [done|]. by vm_compute.
  - by vm_compute.
  - vm_compute. reflexivity.
Qed.

Lemma acknowledged_is_entered_witness :
  ServerMap.ops (map (server ex_later)) = [(ex_key2, MkOpMetadata CoordMap.PROTO_OPCODE_SET ex_chunk 2)] ∧
  ∀ x, x ∈ ServerMap.ops (map (server ex_later)) → ClientBackup.in_range 0 1 (om_timestamp x.2) = false.
Proof.
  split; [by vm_compute|].
  destruct (acknowledged_is_entered ex_lists 1 ex_from ex_to 5 elements plain ex_later ex_sync.2.1 ex_sync.2.2 [] ex_recv ex_header 0 0 true
    ex_ack false ex_coordinator 0 (λ X, reflexivity _) plain_discriminated) as (ls & _ & Hx);
    [by exists ROLE_SERVER|done|done|exact ex_timely|reflexivity|exact ex_received|vm_compute; reflexivity..|done|].
  intros x Hin. apply Hx. apply elem_of_app. by right.
Defined.

(** That it is the last message matters: of two keys, the first fills the message,
    whose acknowledgement covers the second one too. *)
Lemma early_acknowledgement :
  ∃ sv msg, sync ex_from ex_env [] (ex_server2 ex_server1) = Some (sv, true, msg) ∧
    PendingAck.timestamps (pendingAck sv) = [2] ∧
    Exists (λ x, ClientBackup.in_range 0 2 (om_timestamp x.2) = true) (ServerMap.ops (map sv)).
Proof. do 2 eexists. split; [vm_compute; reflexivity|]. split; [reflexivity|]. by constructor. Qed.
End MetadataSync.
