(* ===== verification/Remap.v ===== *)
(** * Stand-ins for failed servers (client/remap/basic_remap_scheme.cc,
    client/worker/worker.cc, common/ds/latency.cc)

    Before a request to a stripe with failed servers, a client collects the chunks
    it concerns ([getServers]) and chooses for every one on a failed server
    another server of the stripe list that stands in for it ([redirect]).

    [redirect_targets]: the stand-ins are working servers, all different, none of
    the servers that the code excludes, and there is one whenever such a server is
    left.  A request to at most [k] chunks excludes its own servers; a request to
    more excludes only those of the data chunks behind its parity chunks, and its
    own data server can stand in ([own_server_stands_in]). *)

From S2P Require Export Ids DegradedLock ArrayMap KeyValue StateTransit StripeList.

(** ** Latencies: seconds and nanoseconds *)
Module Latency.
Record Latency := MkLatency { sec : Z; nsec : Z }.
Definition GIGA : Z := 1000000000.
Definition less (a b : Latency) : bool :=
  if decide (sec a < sec b) then true
  else if decide (sec a > sec b) then false
  else negb (bool_decide (nsec a > nsec b)).
Definition plus (a b : Latency) : Latency :=
  let s := u32 (sec a + sec b) in
  let n := u32 (nsec a + nsec b) in
  if decide (GIGA ≤ n) then MkLatency (u32 (s + 1)) (n - GIGA) else MkLatency s n.

(** [operator<] is not strict, although sets of latencies are ordered by it. *)
Lemma latency_less_itself a : less a a = true.
Proof. unfold less. by repeat (rewrite decide_False by lia); rewrite bool_decide_eq_false_2 by lia. Qed.
End Latency.

Module BasicRemappingScheme.
Import SockAddr Latency DegradedLock.

Definition increment : Latency := MkLatency 0 100.
Abbreviation server := sockaddr_in.

(** ** redirect *)
Section redirect.
(** The states of the servers as the client knows them; the stripe lists; the
    data and the parity servers of the list; [k] data chunks. *)
Context (states : ClientStateTransitHandler.Client) (sl : StripeList.StripeList server).
Context (k m : Z) (data parity : list server).

Definition address (j : Z) : option server := if decide (j < k) then zget data j else zget parity (u32 (j - k)).

(** The first loop keeps the chunks on failed servers, those of data chunks only
    for GET, and notes the servers that are excluded. *)
Definition collect_step (original : list Z) (numEntries : Z) (isGet : bool) (i : Z) (s : list Z * Z * gset server) :
    option (list Z * Z * gset server) :=
  let '(remapped, count, selected) := s in
  chunkId ← zget original (i * 2 + 1);
  a ← address chunkId;
  let selected := if decide (numEntries ≤ k ∨ 1 + m ≤ i) then {[ a ]} ∪ selected else selected in
  if ClientStateTransitHandler.allowRemapping states a && (negb isGet || bool_decide (chunkId < k)) then
    remapped ← copy_pair remapped count original i;
    Some (remapped, count + 1, selected)
  else Some (remapped, count, selected).

(** The search for the stand-in of one chunk: the pair chosen, and its latency. *)
Definition candidate (selected redirected : gset server) (a : server) : bool :=
  bool_decide (a ∉ selected) && bool_decide (a ∉ redirected) && negb (ClientStateTransitHandler.useCoordinatedFlow states a).
Definition choose_step (mirror : ArrayMap.ArrayMap server Latency) (selected redirected : gset server) (orig : Z * Z) (j : Z)
    (s : (Z * Z) * option Latency) : option ((Z * Z) * option Latency) :=
  let '(r, target) := s in
  a ← address j;
  if candidate selected redirected a then
    '(node, _) ← ArrayMap.get mirror a;
    if decide (r = orig) then Some ((orig.1, j), node)
    else match target, node with
         | Some t, Some n => if less n t then Some ((orig.1, j), node) else Some (r, target)
         | _, _ => Some (r, target)
         end
  else Some (r, target).

(** [*nodeLatency = *nodeLatency + increment]. *)
Definition charge (mirror : ArrayMap.ArrayMap server Latency) (a : server) : option (ArrayMap.ArrayMap server Latency) :=
  '(node, index) ← ArrayMap.get mirror a;
  match node with
  | Some n => vs ← zset (ArrayMap.values mirror) index (plus n increment);
      Some (ArrayMap.MkMap (ArrayMap.keys mirror) vs (ArrayMap.needsDelete mirror))
  | None => Some mirror
  end.

Definition assign_step (original : list Z) (selected : gset server) (i : Z)
    (s : list Z * gset server * ArrayMap.ArrayMap server Latency) : option (list Z * gset server * ArrayMap.ArrayMap server Latency) :=
  let '(remapped, redirected, mirror) := s in
  orig ← get_pair original i;
  _ ← StripeList.get_chunk sl orig.1 orig.2;
  '(r, _) ← for_range 0 (u32 (k + m)) (choose_step mirror selected redirected orig) (orig, None);
  remapped ← put_pair remapped i r;
  if decide (r = orig) then Some (remapped, redirected, mirror)
  else
    a ← StripeList.get_chunk sl r.1 r.2;
    mirror ← charge mirror a;
    Some (remapped, {[ a ]} ∪ redirected, mirror).

(** The arrays, how many pairs are redirected, and the latencies. *)
Definition redirect (mirror : ArrayMap.ArrayMap server Latency) (original remapped : list Z) (numEntries : Z) (isGet : bool) :
    option (list Z * list Z * Z * ArrayMap.ArrayMap server Latency) :=
  '(remapped, count, selected) ← for_range 0 numEntries (collect_step original numEntries isGet) (remapped, 0, ∅);
  if decide (count = 0) then Some (original, remapped, 0, mirror) else
  original ← for_range 0 count (λ i o, copy_pair o i remapped i) original;
  '(remapped, _, mirror) ← for_range 0 count (assign_step original selected) (remapped, ∅, mirror);
  Some (original, remapped, count, mirror).

Definition isOverloaded (overloaded : gset server) (socket : server) : bool :=
  ClientStateTransitHandler.allowRemapping states socket && bool_decide (socket ∈ overloaded).
End redirect.

(** ** getServers *)
Definition PROTO_OPCODE_GET : Z := 0x01.
Definition PROTO_OPCODE_SET : Z := 0x02.
Definition PROTO_OPCODE_UPDATE : Z := 0x03.
Definition PROTO_OPCODE_DELETE : Z := 0x04.

Section client.
Context (states : ClientStateTransitHandler.Client) (sl : StripeList.StripeList server) (chunkSize k m : Z).
(** The debug flag, and the option that disables degraded operations. *)
Context (debugDegraded degradedDisabled : bool).

Definition isDegraded (a : server) : bool :=
  debugDegraded || (ClientStateTransitHandler.useCoordinatedFlow states a && negb degradedDisabled).

(** Is a server of the stripe degraded? *)
Fixpoint any_degraded (data parity : list server) (fuel : nat) (i : Z) : option bool :=
  match fuel with
  | O => Some false
  | S fuel => a ← address k data parity i; if isDegraded a then Some true else any_degraded data parity fuel (i + 1)
  end.

(** The chunk of the key, or of the split of a large object. *)
Definition original_chunk (key : list byte) (size : Z) (isGettingSplit : bool) (chunkId : Z) : option Z :=
  if isGettingSplit then
    bs ← slice key (size - SPLIT_OFFSET_SIZE) SPLIT_OFFSET_SIZE;
    '(splitIndex, _) ← LargeObjectUtil.getSplitIndex chunkSize (u8 (size - SPLIT_OFFSET_SIZE)) 0 (KeyValue.from_tmp bs);
    if decide (k = 0) then None else Some (u32 (chunkId + splitIndex) mod k)
  else Some chunkId.

(** The chunks that the request concerns: the data chunk, every parity chunk, and
    for UPDATE and DELETE the other data chunks on degraded servers. *)
Definition entries (data : list server) (listId chunkId opcode : Z) (original : list Z) : option (list Z * Z) :=
  original ← put_pair original 0 (listId, chunkId);
  '(original, n) ← for_range 0 m (λ i '(o, n), o ← put_pair o n (listId, k + i); Some (o, n + 1)) (original, 1);
  if decide (opcode = PROTO_OPCODE_UPDATE ∨ opcode = PROTO_OPCODE_DELETE) then
    for_range 0 k (λ i '(o, n),
      if decide (i = chunkId) then Some (o, n) else
      a ← zget data i;
      if isDegraded a then o ← put_pair o n (listId, i); Some (o, n + 1) else Some (o, n)) (original, n)
  else Some (original, n).

(** The server of the data, whether the coordinator's workflow is used, and the
    copied pairs of the chunks and their stand-ins. *)
Definition getServers (mirror : ArrayMap.ArrayMap server Latency) (original remapped : list Z) (opcode : Z) (key : list byte) (size : Z) (isGettingSplit : bool) :
    option (server * bool * (list Z * list Z) * ArrayMap.ArrayMap server Latency) :=
  '(listId, chunkId, data, parity) ← StripeList.get_full sl key (size - if isGettingSplit then SPLIT_OFFSET_SIZE else 0);
  chunkId ← original_chunk key size isGettingSplit chunkId;
  a ← zget data chunkId;
  coordinated ← (if decide (opcode = PROTO_OPCODE_SET) then Some true
                 else if decide (opcode = PROTO_OPCODE_GET) then Some (isDegraded a)
                 else if decide (opcode = PROTO_OPCODE_UPDATE ∨ opcode = PROTO_OPCODE_DELETE)
                 then any_degraded data parity (Z.to_nat (u32 (k + m))) 0 else Some false);
  if negb coordinated then Some (a, false, ([], []), mirror) else
  '(original, numEntries) ← entries data listId chunkId opcode original;
  '(original, remapped, count, mirror) ← redirect states sl k m data parity mirror original remapped numEntries (bool_decide (opcode = PROTO_OPCODE_GET));
  o ← slice original 0 (count * 2);
  r ← slice remapped 0 (count * 2);
  Some (a, true, (o, r), mirror).
End client.

(** ** Lemmas *)
Definition mirror_ok (mirror : ArrayMap.ArrayMap server Latency) : Prop :=
  length (ArrayMap.keys mirror) = length (ArrayMap.values mirror).

Lemma indexOf_range (ks : list server) key : ∀ i ret,
  ArrayMap.indexOf_from ks key i ret = ret ∨ i ≤ ArrayMap.indexOf_from ks key i ret < i + zlen ks.
Proof.
  induction ks as [|x ks IH]; intros i ret; [by left|]. cbn [ArrayMap.indexOf_from]. unfold zlen in *. cbn [length].
  destruct (IH (i + 1) (if decide (x = key) then i else ret)) as [->|?]; [|lia]. case_decide; [right; lia|by left].
Qed.

Lemma mirror_get mirror a : mirror_ok mirror → ∃ node index, ArrayMap.get mirror a = Some (node, index) ∧
  (∀ n, node = Some n → 0 ≤ index < zlen (ArrayMap.values mirror)).
Proof.
  intros Hm. unfold ArrayMap.get, ArrayMap.indexOf. destruct (indexOf_range (ArrayMap.keys mirror) a 0 (-1)) as [->|Hr].
  - eexists None, _. split; [done|]. done.
  - rewrite decide_False by lia. unfold zlen in Hr. rewrite Hm in Hr.
    destruct (zget_is_Some (ArrayMap.values mirror) (ArrayMap.indexOf_from (ArrayMap.keys mirror) a 0 (-1))) as [v ->]; [unfold zlen; lia|].
    cbn [mbind option_bind]. eexists _, _. split; [done|]. intros _ _. unfold zlen. lia.
Qed.

Lemma charge_ok mirror a : mirror_ok mirror → ∃ mirror', charge mirror a = Some mirror' ∧ mirror_ok mirror' ∧ ArrayMap.keys mirror' = ArrayMap.keys mirror.
Proof.
  intros Hm. unfold charge. destruct (mirror_get mirror a Hm) as (node & index & -> & Hi). cbn [mbind option_bind].
  destruct node as [n|]; [|by exists mirror]. specialize (Hi n eq_refl). rewrite zset_Some by done. cbn [mbind option_bind].
  eexists. split; [done|]. unfold mirror_ok. simpl. rewrite length_insert. done.
Qed.

Section stripe.
Context (states : ClientStateTransitHandler.Client) (sl : StripeList.StripeList server).
Context (k m : Z) (data parity : list server) (listId : Z).
Local Notation address := (address k data parity).

(** The two arrays are the servers of the list, all different. *)
Record stripe_ok : Prop := {
  so_counts : 0 ≤ k ∧ 0 ≤ m ∧ k + m < 2 ^ 32;
  so_servers : ∀ j, 0 ≤ j < k + m → ∃ a, address j = Some a ∧ StripeList.get_chunk sl listId j = Some a;
  so_different : ∀ i j a, 0 ≤ i < k + m → 0 ≤ j < k + m → address i = Some a → address j = Some a → i = j;
}.
Context (Hok : stripe_ok).

Definition chosen (isGet : bool) (c : Z) : bool :=
  match address c with
  | Some a => ClientStateTransitHandler.allowRemapping states a && (negb isGet || bool_decide (c < k))
  | None => false
  end.

(** The servers that are not to be redirected to: those of all the entries, but when
    there are more than [k] of these only those of the entries behind the data chunk
    and the parity chunks. *)
Definition excluded (cs : list Z) (a : server) : Prop :=
  ∃ i c, zget cs i = Some c ∧ (zlen cs ≤ k ∨ 1 + m ≤ i) ∧ address c = Some a.

Lemma zget_lt {A} (l : list A) i x : zget l i = Some x → 0 ≤ i < zlen l ∧ l !! Z.to_nat i = Some x.
Proof using. intros H. split; [by eapply zget_Some|]. unfold zget in H. by case_decide. Qed.

Lemma pair_at a i p : get_pair a i = Some p → zget a (i * 2 + 1) = Some p.2.
Proof using. unfold get_pair. destruct (zget a (i * 2)); [|done]. destruct (zget a (i * 2 + 1)); [|done]. by intros [= <-]. Qed.

(** The entries [cs] are in an array. *)
Definition array_of (cs : list Z) (a : list Z) : Prop := ∀ i c, zget cs i = Some c → get_pair a i = Some (listId, c).
Definition chunks_ok (cs : list Z) : Prop := Forall (λ c, 0 ≤ c < k + m) cs.

Lemma collect_spec isGet cs original remapped :
  chunks_ok cs → array_of cs original → zlen cs * 2 ≤ zlen remapped →
  ∃ r count selected, for_range 0 (zlen cs) (collect_step states k m data parity original (zlen cs) isGet) (remapped, 0, ∅) = Some (r, count, selected) ∧
    zlen r = zlen remapped ∧ count = zlen (filter (λ c, chosen isGet c = true) cs) ∧
    array_of (filter (λ c, chosen isGet c = true) cs) r ∧ (∀ a, a ∈ selected ↔ excluded cs a).
Proof using Hok.
  intros Hcs Ha Hl. set (P := λ c, chosen isGet c = true).
  destruct (for_range_inv (λ i s, zlen s.1.1 = zlen remapped ∧ s.1.2 = zlen (filter P (take (Z.to_nat i) cs)) ∧
      array_of (filter P (take (Z.to_nat i) cs)) s.1.1 ∧
      (∀ a, a ∈ s.2 ↔ ∃ j c, zget cs j = Some c ∧ j < i ∧ (zlen cs ≤ k ∨ 1 + m ≤ j) ∧ address c = Some a))
    0 (zlen cs) (collect_step states k m data parity original (zlen cs) isGet) (remapped, 0, ∅)) as ([[r n] sel] & E & L & Hn & Hr & Hsel).
  - apply zlen_nonneg.
  - intros i [[r n] sel] Hi (L & Hn & Hr & Hsel). cbn [fst snd] in *.
    destruct (zget_is_Some cs i Hi) as [c Hc]. pose proof (Ha i c Hc) as Hp. destruct (zget_lt _ _ _ Hc) as [_ Hci].
    assert (Hcr : 0 ≤ c < k + m) by (eapply Forall_lookup_1 in Hcs; [|exact Hci]; done).
    destruct (so_servers Hok c Hcr) as (a & Haddr & _).
    unfold collect_step. rewrite (pair_at _ _ _ Hp). cbn [mbind option_bind snd]. rewrite Haddr. cbn [mbind option_bind].
    assert (Htake : take (Z.to_nat (i + 1)) cs = take (Z.to_nat i) cs ++ [c]).
    { replace (Z.to_nat (i + 1)) with (S (Z.to_nat i)) by lia. by apply take_S_r. }
    rewrite Htake, filter_app, filter_cons, filter_nil. set (sel' := if decide _ then _ else _).
    assert (Hsel' : ∀ x, x ∈ sel' ↔ ∃ j c, zget cs j = Some c ∧ j < i + 1 ∧ (zlen cs ≤ k ∨ 1 + m ≤ j) ∧ address c = Some x).
    { intros x. unfold sel'. split.
      - case_decide as Hd; [|intros (j & c' & ? & ? & ?)%Hsel; exists j, c'; split_and!; tauto || lia].
        intros [->%elem_of_singleton|(j & c' & ? & ? & ? & ?)%Hsel]%elem_of_union; [exists i, c|exists j, c']; split_and!; done || lia.
      - intros (j & c' & Hj & Hji & Hd & Hx). destruct (decide (j = i)) as [->|].
        + rewrite decide_True by done. rewrite Hj in Hc. injection Hc as ->. rewrite Haddr in Hx. injection Hx as ->. set_solver.
        + assert (x ∈ sel) by (apply Hsel; exists j, c'; split_and!; done || lia). case_decide; set_solver. }
    assert (Hch : P c ↔ ClientStateTransitHandler.allowRemapping states a && (negb isGet || bool_decide (c < k)) = true).
    { unfold P, chosen. by rewrite Haddr. }
    destruct (ClientStateTransitHandler.allowRemapping states a && (negb isGet || bool_decide (c < k))).
    + rewrite decide_True by (by apply Hch). unfold copy_pair. rewrite Hp. cbn [mbind option_bind].
      assert (Hle : zlen (filter P (take (Z.to_nat i) cs)) ≤ i).
      { pose proof (length_filter P (take (Z.to_nat i) cs)) as Hf. rewrite length_take in Hf. unfold zlen. lia. }
      pose proof (zlen_nonneg (filter P (take (Z.to_nat i) cs))).
      destruct (put_pair_spec r n (listId, c)) as (r' & -> & L' & G' & _); [lia..|]. cbn [mbind option_bind].
      eexists. split; [done|]. cbn [fst snd]. split; [lia|]. split; [rewrite Hn; unfold zlen; rewrite length_app; simpl; lia|]. split; [|done].
      intros j c' Hj. rewrite G'. case_decide as Hjn.
      * subst j n. unfold zget, zlen in Hj. rewrite decide_True, Nat2Z.id, lookup_app_r in Hj by lia. rewrite Nat.sub_diag in Hj. by injection Hj as ->.
      * apply Hr. destruct (zget_lt _ _ _ Hj) as [Hj0 Hj1]. unfold zlen in Hj0. rewrite length_app in Hj0. simpl in Hj0.
        unfold zlen in Hn. rewrite lookup_app_l in Hj1 by lia. unfold zget. by rewrite decide_True by lia.
    + rewrite decide_False by (intros ?%Hch; done). rewrite app_nil_r. eexists. split; [done|]. done.
  - cbn [fst snd]. split; [done|]. split; [done|]. split; [intros j c Hj%zget_lt; by destruct Hj|].
    intros a. split; [set_solver|]. intros (j & c & Hj & Hj0 & _). apply zget_lt in Hj as [? _]. lia.
  - exists r, n, sel. cbn [fst snd] in *. replace (take (Z.to_nat (zlen cs)) cs) with cs in * by (unfold zlen; by rewrite Nat2Z.id, firstn_all).
    split; [done|]. split; [done|]. split; [done|]. split; [done|]. intros a. rewrite Hsel. unfold excluded.
    split; intros (j & c & Hj); exists j, c; [tauto|]. split; [tauto|]. destruct Hj as [Hj ?]. apply zget_lt in Hj as [? _]. split; [lia|tauto].
Qed.

(** A server that can stand in, given those that do already. *)
Definition free (selected redirected : gset server) (j : Z) : Prop :=
  0 ≤ j < k + m ∧ ∃ a, address j = Some a ∧ candidate states selected redirected a = true.

Lemma choose_pair_spec mirror selected redirected c :
  mirror_ok mirror → ¬ free selected redirected c →
  ∃ r t, for_range 0 (u32 (k + m)) (choose_step states k data parity mirror selected redirected (listId, c)) ((listId, c), None) = Some (r, t) ∧
    ((r = (listId, c) ∧ ∀ j, ¬ free selected redirected j) ∨ ∃ j, r = (listId, j) ∧ free selected redirected j).
Proof using Hok.
  intros Hm Hc. destruct (so_counts Hok) as (? & ? & ?). rewrite u32_small by lia.
  destruct (for_range_inv (λ i s, (s.1 = (listId, c) ∧ ∀ j, j < i → ¬ free selected redirected j) ∨ ∃ j, s.1 = (listId, j) ∧ free selected redirected j)
    0 (k + m) (choose_step states k data parity mirror selected redirected (listId, c)) ((listId, c), None)) as ([r t] & E & Hr).
  - lia.
  - intros i [r t] Hi Hr. cbn [fst] in Hr. destruct (so_servers Hok i Hi) as (a & Ha & _).
    unfold choose_step. rewrite Ha. cbn [mbind option_bind].
    destruct (candidate states selected redirected a) eqn:Hcand.
    + assert (Hfree : free selected redirected i) by (split; [done|by exists a]).
      destruct (mirror_get mirror a Hm) as (node & index & -> & _). cbn [mbind option_bind].
      destruct Hr as [[-> Hno]|(j & -> & Hj)].
      * rewrite decide_True by done. eexists. split; [done|]. right. by exists i.
      * rewrite decide_False by (intros [= ->]; done).
        destruct t as [tl|], node as [nl|]; [destruct (less nl tl)| | |]; (eexists; split; [done|]; right; cbn [fst]); eauto.
    + eexists. split; [done|]. cbn [fst]. destruct Hr as [[Hr Hno]|?]; [left|by right]. split; [done|].
      intros j Hj. destruct (decide (j = i)) as [->|]; [|apply Hno; lia]. intros (_ & a' & Ha' & Hc'). congruence.
  - left. split; [done|]. intros j Hj [? _]. lia.
  - exists r, t. split; [done|]. cbn [fst] in Hr. destruct Hr as [[-> Hno]|?]; [left|by right]. split; [done|].
    intros j Hf. apply (Hno j); [|done]. destruct Hf as [? _]. lia.
Qed.

(** The outcome [j] for entry [i], chunk [c]: a server that stands in for no earlier
    entry, or the chunk itself when all that could already do. *)
Definition verdict (selected : gset server) (cs r : list Z) (i c j : Z) : Prop :=
  (j = c ∧ ∀ j', free selected ∅ j' → ∃ i' c', 0 ≤ i' < i ∧ zget cs i' = Some c' ∧ c' ≠ j' ∧ get_pair r i' = Some (listId, j')) ∨
  (j ≠ c ∧ free selected ∅ j ∧ ∀ i', 0 ≤ i' < i → get_pair r i' ≠ Some (listId, j)).

Definition assigned (selected : gset server) (cs r : list Z) (redirected : gset server) (n : Z) : Prop :=
  (∀ i c, i < n → zget cs i = Some c → ∃ j, get_pair r i = Some (listId, j) ∧ verdict selected cs r i c j) ∧
  ∀ a, a ∈ redirected ↔ ∃ i c j, i < n ∧ zget cs i = Some c ∧ get_pair r i = Some (listId, j) ∧ j ≠ c ∧ address j = Some a.

Lemma free_less selected redirected j : free selected redirected j ↔ free selected ∅ j ∧ ∀ a, address j = Some a → a ∉ redirected.
Proof using Hok.
  unfold free, candidate. split.
  - intros (Hj & a & Ha & [[Hs Hr]%andb_true_iff Hc]%andb_true_iff). apply bool_decide_eq_true in Hs, Hr.
    split; [|intros a' Ha'; congruence]. split; [done|]. exists a. split; [done|].
    rewrite Hc. by rewrite !bool_decide_eq_true_2 by set_solver.
  - intros ((Hj & a & Ha & [[Hs _]%andb_true_iff Hc]%andb_true_iff) & Hr). split; [done|]. exists a. split; [done|].
    rewrite Hs, Hc. by rewrite bool_decide_eq_true_2 by auto.
Qed.

Lemma verdict_ext selected cs r r' i c j : (∀ i', 0 ≤ i' < i → get_pair r' i' = get_pair r i') → verdict selected cs r i c j → verdict selected cs r' i c j.
Proof using Hok.
  intros He [[-> Hall]|(Hj & Hf & Hne)]; [left|right].
  - split; [done|]. intros j' (i' & c' & Hi & Hc & Hne & Hr)%Hall. exists i', c'. rewrite He by done. done.
  - split; [done|]. split; [done|]. intros i' Hi. rewrite He by done. by apply Hne.
Qed.

Lemma assigned_put selected cs r r' redirected i c j a :
  assigned selected cs r redirected i → zget cs i = Some c → address j = Some a →
  (∀ i', get_pair r' i' = if decide (i' = i) then Some (listId, j) else get_pair r i') → verdict selected cs r i c j →
  assigned selected cs r' (if decide (j = c) then redirected else {[ a ]} ∪ redirected) (i + 1).
Proof using Hok.
  intros [Hv Hred] Hc Ha G Hver. assert (Hsame : ∀ i', i' ≠ i → get_pair r' i' = get_pair r i') by (intros; by rewrite G, decide_False).
  assert (Hnew : get_pair r' i = Some (listId, j)) by (by rewrite G, decide_True).
  split.
  - intros i' c' Hi' Hc'. destruct (decide (i' = i)) as [->|Hne].
    + rewrite Hc in Hc'. injection Hc' as <-. exists j. split; [done|]. eapply verdict_ext; [|exact Hver]. intros. apply Hsame. lia.
    + destruct (Hv i' c') as (j' & Hj' & Hver'); [lia|done|]. exists j'. split; [by rewrite Hsame|].
      eapply verdict_ext; [|exact Hver']. intros. apply Hsame. lia.
  - intros x. assert (Hx : x ∈ (if decide (j = c) then redirected else {[ a ]} ∪ redirected) ↔ (j ≠ c ∧ x = a) ∨ x ∈ redirected)
      by (case_decide; set_solver). rewrite Hx, Hred. split.
    + intros [[Hjc ->]|(i' & c' & j' & Hi' & Hc' & Hj' & Hr')]; [exists i, c, j; split_and!; done || lia|].
      exists i', c', j'. rewrite Hsame by lia. split_and!; try tauto; lia.
    + intros (i' & c' & j' & Hi' & Hc' & Hj' & Hne & Hax). destruct (decide (i' = i)) as [->|Hii]; [left|right].
      * rewrite Hc in Hc'. injection Hc' as <-. rewrite Hnew in Hj'. injection Hj' as <-. split; [done|]. congruence.
      * exists i', c', j'. rewrite <- Hsame by done. split_and!; try tauto; lia.
Qed.

(** The chunks of the entries are on failed servers. *)
Definition failed (selected : gset server) (cs : list Z) : Prop := Forall (λ c, 0 ≤ c < k + m ∧ ∀ s, ¬ free selected s c) cs.

Lemma failed_at selected cs i c : failed selected cs → zget cs i = Some c → 0 ≤ c < k + m ∧ ∀ s, ¬ free selected s c.
Proof using Hok. intros Hf [_ Hc]%zget_lt. eapply Forall_lookup_1 in Hf; [|exact Hc]. done. Qed.

Lemma verdict_none selected cs r redirected i c :
  assigned selected cs r redirected i → (∀ j, ¬ free selected redirected j) → verdict selected cs r i c c.
Proof using Hok.
  intros [Hv Hred] Hno. left. split; [done|]. intros j' Hj'. destruct (so_servers Hok j' (proj1 Hj')) as (a & Ha & _).
  destruct (decide (a ∈ redirected)) as [Hin|Hin].
  - apply Hred in Hin as (i' & c' & j & Hi2 & Hc2 & Hr2 & Hne & Ha2). destruct (zget_lt _ _ _ Hc2) as [Hz _]. exists i', c'.
    assert (0 ≤ j < k + m).
    { destruct (Hv i' c' Hi2 Hc2) as (j2 & Hj2 & [[-> _]|(_ & [? _] & _)]); rewrite Hr2 in Hj2; injection Hj2 as <-; done. }
    assert (j = j') as -> by (apply (so_different Hok _ _ a); [done|apply Hj'|done..]). split_and!; first [done|lia|congruence].
  - exfalso. apply (Hno j'), free_less. split; [done|]. intros a' Ha'. congruence.
Qed.

Lemma verdict_some selected cs r redirected i c j :
  assigned selected cs r redirected i → failed selected cs → zget cs i = Some c → free selected redirected j → verdict selected cs r i c j.
Proof using Hok.
  intros [Hv Hred] Hf Hc Hj. right. split; [intros ->; by apply (proj2 (failed_at _ _ _ _ Hf Hc) redirected)|].
  apply free_less in Hj as [Hj Hnew]. split; [done|]. intros i' Hi' Hr'. destruct (zget_lt _ _ _ Hc) as [Hi _].
  destruct (zget_is_Some cs i') as [c' Hc']; [lia|]. destruct (decide (j = c')) as [->|Hne].
  - by apply (proj2 (failed_at _ _ _ _ Hf Hc') ∅).
  - destruct (so_servers Hok j (proj1 Hj)) as (a & Ha & _). apply (Hnew a Ha), Hred. exists i', c', j. split_and!; done || lia.
Qed.

Lemma assign_one original selected cs r redirected mirror i c :
  failed selected cs → zget cs i = Some c → get_pair original i = Some (listId, c) →
  i * 2 + 1 < zlen r → mirror_ok mirror → assigned selected cs r redirected i →
  ∃ r' redirected' mirror', assign_step states sl k m data parity original selected i (r, redirected, mirror) = Some (r', redirected', mirror') ∧
    zlen r' = zlen r ∧ mirror_ok mirror' ∧ assigned selected cs r' redirected' (i + 1).
Proof using Hok.
  intros Hf Hc Ho Hl Hm Has. destruct (zget_lt _ _ _ Hc) as [Hi _]. destruct (failed_at _ _ _ _ Hf Hc) as [Hcr Hfail].
  unfold assign_step. rewrite Ho. cbn [mbind option_bind fst snd].
  destruct (so_servers Hok c Hcr) as (ac & Hac & ->). cbn [mbind option_bind].
  destruct (choose_pair_spec mirror selected redirected c Hm (Hfail _)) as (p & t & -> & Hp). cbn [mbind option_bind].
  destruct (put_pair_spec r i p) as (r' & -> & L & G & _); [lia..|]. cbn [mbind option_bind].
  destruct Hp as [[-> Hno]|(j & -> & Hj)].
  - rewrite decide_True by done. exists r', redirected, mirror. split; [done|]. split; [done|]. split; [done|].
    pose proof (assigned_put selected cs r r' redirected i c c ac Has Hc Hac G) as Hput. rewrite decide_True in Hput by done.
    apply Hput. by eapply verdict_none.
  - assert (j ≠ c) as Hjc by (intros ->; by apply (Hfail redirected)).
    rewrite decide_False by congruence. cbn [fst snd]. destruct (so_servers Hok j (proj1 Hj)) as (a & Ha & ->).
    cbn [mbind option_bind]. destruct (charge_ok mirror a Hm) as (mirror' & -> & Hm' & _). cbn [mbind option_bind].
    exists r', ({[a]} ∪ redirected), mirror'. split; [done|]. split; [done|]. split; [done|].
    pose proof (assigned_put selected cs r r' redirected i c j a Has Hc Ha G) as Hput. rewrite decide_False in Hput by done.
    apply Hput. by eapply verdict_some.
Qed.

Lemma assign_all original selected cs r mirror :
  failed selected cs → array_of cs original → zlen cs * 2 ≤ zlen r → mirror_ok mirror →
  ∃ r' redirected mirror', for_range 0 (zlen cs) (assign_step states sl k m data parity original selected) (r, ∅, mirror) = Some (r', redirected, mirror') ∧
    zlen r' = zlen r ∧ mirror_ok mirror' ∧ assigned selected cs r' redirected (zlen cs).
Proof using Hok.
  intros Hf Ho Hl Hm.
  destruct (for_range_inv (λ i s, zlen s.1.1 = zlen r ∧ mirror_ok s.2 ∧ assigned selected cs s.1.1 s.1.2 i)
    0 (zlen cs) (assign_step states sl k m data parity original selected) (r, ∅, mirror)) as ([[r' red] mirror'] & E & L & Hm' & Has).
  - apply zlen_nonneg.
  - intros i [[r1 red] mirror1] Hi (L & Hm1 & Has). cbn [fst snd] in *. destruct (zget_is_Some cs i Hi) as [c Hc].
    destruct (assign_one original selected cs r1 red mirror1 i c Hf Hc (Ho i c Hc)) as (r2 & red2 & mirror2 & E & L2 & Hm2 & Has2); [lia|done|done|].
    exists (r2, red2, mirror2). split; [done|]. cbn [fst snd]. split; [lia|done].
  - cbn [fst snd]. split; [done|]. split; [done|]. split; [intros i c Hi Hc; apply zget_lt in Hc as [? _]; lia|].
    intros a. split; [set_solver|]. intros (i & c & j & Hi & Hc & _). apply zget_lt in Hc as [? _]. lia.
  - by exists r', red, mirror'.
Qed.

Lemma copy_back cs original r :
  array_of cs r → zlen cs * 2 ≤ zlen original →
  ∃ o, for_range 0 (zlen cs) (λ i o, copy_pair o i r i) original = Some o ∧ zlen o = zlen original ∧ array_of cs o.
Proof using Hok.
  intros Hr Hl.
  destruct (for_range_inv (λ i o, zlen o = zlen original ∧ ∀ j c, j < i → zget cs j = Some c → get_pair o j = Some (listId, c))
    0 (zlen cs) (λ i o, copy_pair o i r i) original) as (o & E & L & Ho).
  - apply zlen_nonneg.
  - intros i o Hi (L & Ho). destruct (zget_is_Some cs i Hi) as [c Hc]. unfold copy_pair. rewrite (Hr i c Hc). cbn [mbind option_bind].
    destruct (put_pair_spec o i (listId, c)) as (o' & -> & L' & G & _); [lia..|]. exists o'. split; [done|]. split; [lia|].
    intros j c' Hj Hc'. rewrite G. case_decide as Hji; [subst j; congruence|]. apply Ho; [lia|done].
  - split; [done|]. intros j c Hj Hc. destruct (zget_lt _ _ _ Hc) as [? _]. lia.
  - exists o. split; [done|]. split; [done|]. intros j c Hc. apply Ho; [|done]. destruct (zget_lt _ _ _ Hc) as [? _]. lia.
Qed.
End stripe.

Lemma remapping_coordinated states a : ClientStateTransitHandler.allowRemapping states a = true → ClientStateTransitHandler.useCoordinatedFlow states a = true.
Proof.
  unfold ClientStateTransitHandler.allowRemapping, ClientStateTransitHandler.useCoordinatedFlow.
  destruct (ClientStateTransitHandler.serversState states !! a) as [[]|]; try done; intros _; by apply bool_decide_eq_true_2.
Qed.

(** The servers that can stand in for a request to the chunks [cs]: the working
    ones that are not excluded. *)
Definition stand_in states k m data parity (cs : list Z) (j : Z) : Prop :=
  0 ≤ j < k + m ∧ ∃ a, address k data parity j = Some a ∧ ¬ excluded k m data parity cs a ∧
    ClientStateTransitHandler.useCoordinatedFlow states a = false.

Lemma free_stand_in states k m data parity selected cs j :
  (∀ a, a ∈ selected ↔ excluded k m data parity cs a) → free states k m data parity selected ∅ j ↔ stand_in states k m data parity cs j.
Proof.
  intros Hsel. unfold free, stand_in, candidate. split; intros (Hj & a & Ha & Hc); (split; [done|]); exists a; (split; [done|]).
  - apply andb_true_iff in Hc as [[Hs _]%andb_true_iff Hc]. apply bool_decide_eq_true in Hs. rewrite <- Hsel. split; [done|]. by apply negb_true_iff.
  - destruct Hc as [Hs ->]. rewrite <- Hsel in Hs. rewrite (bool_decide_eq_true_2 (a ∉ selected)) by done.
    by rewrite bool_decide_eq_true_2 by set_solver.
Qed.

(** A short request is not redirected to one of its own chunks. *)
Lemma stand_in_elsewhere states k m data parity cs j : stand_in states k m data parity cs j → zlen cs ≤ k → j ∉ cs.
Proof.
  intros (_ & a & Ha & Hno & _) Hk [i Hi]%list_elem_of_lookup. apply Hno. exists (Z.of_nat i), j.
  pose proof (lookup_lt_Some _ _ _ Hi). split; [|by split; [left|]]. unfold zget. rewrite decide_True by lia. by rewrite Nat2Z.id.
Qed.

(** ** Properties *)

(** C16: [redirect] keeps the chunks of the request that are on failed servers (for
    GET, of data chunks), in their order, and gives each a stand-in: a working
    server of the list that is not excluded and that stands in for no chunk before;
    a chunk is left without one, which stands for itself, only when all such servers
    already stand in for chunks before it.  A request to at most [k] chunks excludes
    the servers of all of them; of a longer one only the entries behind the parity
    chunks count, so that the other servers of the request can be chosen. *)
Theorem redirect_targets states sl k m data parity listId mirror original remapped cs isGet :
  stripe_ok sl k m data parity listId → mirror_ok mirror →
  chunks_ok k m cs → array_of listId cs original → zlen cs * 2 ≤ zlen original → zlen cs * 2 ≤ zlen remapped →
  let kept := filter (λ c, chosen states k data parity isGet c = true) cs in
  ∃ o r mirror', redirect states sl k m data parity mirror original remapped (zlen cs) isGet = Some (o, r, zlen kept, mirror') ∧
    array_of listId kept o ∧
    ∀ i c, zget kept i = Some c → ∃ j, get_pair r i = Some (listId, j) ∧
      ((j ≠ c ∧ stand_in states k m data parity cs j ∧ (zlen cs ≤ k → j ∉ cs) ∧ ∀ i', 0 ≤ i' < i → get_pair r i' ≠ Some (listId, j)) ∨
       (j = c ∧ ∀ j', stand_in states k m data parity cs j' → ∃ i', 0 ≤ i' < i ∧ get_pair r i' = Some (listId, j'))).
Proof.
  intros Hok Hm Hcs Ho Hlo Hlr kept. unfold redirect.
  destruct (collect_spec states sl k m data parity listId Hok isGet cs original remapped Hcs Ho Hlr) as (r & n & sel & -> & Lr & -> & Hr & Hsel).
  cbn [mbind option_bind]. fold kept in Hr |- *.
  case_decide as H0.
  { exists original, r, mirror. rewrite H0. split; [done|]. assert (Hk : kept = []) by (destruct kept; [done|unfold zlen in H0; simpl in H0; lia]).
    rewrite Hk. split; intros i c Hi; apply zget_lt in Hi as [? _]; unfold zlen in *; simpl in *; lia. }
  assert (Hlen : zlen kept ≤ zlen cs) by (unfold zlen, kept; apply Nat2Z.inj_le, length_filter).
  destruct (copy_back sl k m data parity listId Hok kept original r Hr) as (o & -> & Lo & Hao); [lia|]. cbn [mbind option_bind].
  assert (Hfail : failed states k m data parity sel kept).
  { apply Forall_forall. intros c [Hch Hin]%list_elem_of_filter. unfold chunks_ok in Hcs. rewrite Forall_forall in Hcs. split; [by apply Hcs|].
    intros s (_ & a & Ha & [_ Hc]%andb_true_iff). unfold chosen in Hch. rewrite Ha in Hch. apply andb_true_iff in Hch as [Hal _].
    by rewrite (remapping_coordinated _ _ Hal) in Hc. }
  destruct (assign_all states sl k m data parity listId Hok o sel kept r mirror Hfail Hao) as (r' & red & mirror' & -> & _ & _ & Has & _); [lia|done|].
  cbn [mbind option_bind]. exists o, r', mirror'. split; [done|]. split; [done|]. intros i c Hc.
  destruct (zget_lt _ _ _ Hc) as [Hi _]. destruct (Has i c) as (j & Hj & Hver); [lia|done|]. exists j. split; [done|].
  destruct Hver as [[-> Hall]|(Hne & Hf & Hnew)]; [right|left].
  - split; [done|]. intros j' Hj'. destruct (Hall j') as (i' & c' & Hi' & _ & _ & Hr'); [by eapply free_stand_in|]. by exists i'.
  - assert (Hst : stand_in states k m data parity cs j) by by eapply free_stand_in.
    split; [done|]. split; [done|]. split; [|done]. intros Hk. by eapply stand_in_elsewhere.
Qed.

(** ** Witness: RAID-5 with three data chunks, the server of chunk 1 failed; the
    second data server is slower than the first *)
Definition ex_addr (i : Z) : server := MkAddr i 80.
Definition ex_data : list server := [ex_addr 1; ex_addr 2; ex_addr 3].
Definition ex_parity : list server := [ex_addr 4].
Definition ex_stripe : StripeList.StripeList server :=
  StripeList.MkStripeList 4 3 1 4 true true (Bitmask.MkBitmaskArray 0 0 0 []) (Bitmask.MkBitmaskArray 0 0 0 []) [] [] (ex_data ++ ex_parity)
    [Some <$> (ex_data ++ ex_parity)].
Definition ex_states : ClientStateTransitHandler.Client :=
  ClientStateTransitHandler.MkClient
    {[ ex_addr 1 := StateTransitHandler.STATE_NORMAL; ex_addr 2 := StateTransitHandler.STATE_DEGRADED;
       ex_addr 3 := StateTransitHandler.STATE_NORMAL; ex_addr 4 := StateTransitHandler.STATE_NORMAL ]} ∅ ∅ [].
Definition ex_mirror : ArrayMap.ArrayMap server Latency :=
  ArrayMap.MkMap [ex_addr 1; ex_addr 3] [MkLatency 0 900; MkLatency 0 300] true.

Lemma ex_stripe_ok : stripe_ok ex_stripe 3 1 ex_data ex_parity 0.
Proof.
  split; [done| |].
  - intros j Hj. assert (j = 0 ∨ j = 1 ∨ j = 2 ∨ j = 3) as [->|[->|[->| ->]]] by lia; eexists; (split; reflexivity).
  - intros i j a Hi Hj. assert (i = 0 ∨ i = 1 ∨ i = 2 ∨ i = 3) as [->|[->|[->| ->]]] by lia;
      assert (j = 0 ∨ j = 1 ∨ j = 2 ∨ j = 3) as [->|[->|[->| ->]]] by lia; vm_compute; congruence.
Qed.

Lemma redirect_targets_witness :
  ∃ o r mirror', redirect ex_states ex_stripe 3 1 ex_data ex_parity ex_mirror [0; 1; 0; 3] [9; 9; 9; 9] 2 true = Some (o, r, 1, mirror') ∧
    get_pair o 0 = Some (0, 1) ∧ ∃ j, get_pair r 0 = Some (0, j) ∧ j ≠ 1.
Proof.
  assert (Hkept : filter (λ c, chosen ex_states 3 ex_data ex_parity true c = true) [1; 3] = [1]) by (vm_compute; reflexivity).
  destruct (redirect_targets ex_states ex_stripe 3 1 ex_data ex_parity 0 ex_mirror [0; 1; 0; 3] [9; 9; 9; 9] [1; 3] true ex_stripe_ok)
    as (o & r & mirror' & E & Ho & Hr); [done|by repeat constructor| |done|done|].
  - intros i c Hc. destruct (zget_lt _ _ _ Hc) as [Hi _]. change (zlen [1; 3]) with 2 in Hi.
    assert (i = 0 ∨ i = 1) as [->| ->] by lia; injection Hc as <-; reflexivity.
  - rewrite Hkept in E, Ho, Hr. exists o, r, mirror'. split; [exact E|]. split; [by apply Ho|].
    destruct (Hr 0 1 eq_refl) as (j & Hj & [[Hne _]|[-> Hall]]); exists j || exists 1; (split; [exact Hj|]); [exact Hne|].
    exfalso. destruct (Hall 0) as (i' & Hi' & _); [|lia]. split; [lia|]. exists (ex_addr 1). split; [reflexivity|]. split; [|reflexivity].
    intros (i' & c' & Hc' & _ & Ha). destruct (zget_lt _ _ _ Hc') as [Hi' _]. change (zlen [1; 3]) with 2 in Hi'.
    assert (i' = 0 ∨ i' = 1) as [->| ->] by lia; injection Hc' as <-; discriminate Ha.
Defined.

(** Two data and two parity chunks, the first parity server failed: the data server
    of the request itself stands in for it, although the source's comment says that
    original servers are not selected. *)
Definition ex_stripe4 : StripeList.StripeList server :=
  StripeList.MkStripeList 4 2 2 4 true true (Bitmask.MkBitmaskArray 0 0 0 []) (Bitmask.MkBitmaskArray 0 0 0 []) [] [] (ex_data ++ ex_parity)
    [Some <$> (ex_data ++ ex_parity)].
Definition ex_states3 : ClientStateTransitHandler.Client :=
  ClientStateTransitHandler.MkClient
    {[ ex_addr 1 := StateTransitHandler.STATE_NORMAL; ex_addr 2 := StateTransitHandler.STATE_NORMAL;
       ex_addr 3 := StateTransitHandler.STATE_DEGRADED; ex_addr 4 := StateTransitHandler.STATE_NORMAL ]} ∅ ∅ [].
Lemma own_server_stands_in :
  (λ r, let '(o, r, n, _) := r in (o, r, n)) <$>
    redirect ex_states3 ex_stripe4 2 2 [ex_addr 1; ex_addr 2] [ex_addr 3; ex_addr 4] ex_mirror [0; 0; 0; 2; 0; 3] [9; 9; 9; 9; 9; 9] 3 false =
  Some ([0; 2; 0; 2; 0; 3], [0; 0; 9; 9; 9; 9], 1).
Proof. vm_compute. reflexivity. Qed.
End BasicRemappingScheme.
