(* ===== verification/DegradedBuffer.v ===== *)
(** * DegradedChunkBuffer: what a server keeps for failed servers
    (server/buffer/degraded_chunk_buffer.{hh,cc})

    A server that stands in for others caches the chunks it has reconstructed
    ([cache], and their objects in [keys]), the objects of chunks that were not
    sealed ([values]), and the requests that wait for a reconstruction: the first
    starts it, those that come while it runs are queued.

    [degraded_requests_answered]: whatever the order of requests and
    reconstructions, the queues lose and repeat no request, and a reconstruction
    is not started twice.  [insertChunk_finds]: the objects of a reconstructed data
    chunk are found at their places.  [degraded_parity_updated]: a delta of a data
    chunk is added to the reconstructed parity chunk. *)

From S2P Require Export ParityProofs Raid.

Module DegradedMap.
Import KeyMap Metadata ServerMap.
Abbreviation Key := Key.Key.
Abbreviation UINT32_MAX := ServerMap.UINT32_MAX.

Record pid_s := MkPid { instanceId : Z; requestId : Z; chunkId : Z }.

(** The struct [degraded]. *)
Record Degraded := MkDegraded {
  dg_chunks : gmap Metadata (list pid_s);
  dg_reconstructedChunks : gset Metadata;
  dg_keys : key_map (list pid_s);
  dg_reconstructedKeys : key_map unit;
}.

(** The struct [unsealed]. *)
Record Unsealed := MkUnsealed {
  us_values : key_map ptr;
  us_metadataRev : list (Metadata * Key);
  us_deleted : key_map unit;
}.

(** The member [parity], which no method reads, is left out; [serverMap] is a
    pointer to the map of the server, which the methods are given. *)
Record DegradedMap := MkMap {
  keys : key_map KeyMetadata;
  cache : gmap Metadata ptr;
  removed : gset Metadata;
  degraded : Degraded;
  unsealed : Unsealed;
}.
Definition DegradedMap_new : DegradedMap := MkMap [] ∅ ∅ (MkDegraded ∅ ∅ [] []) (MkUnsealed [] [] []).

Definition set_keys (d : DegradedMap) x : DegradedMap := MkMap x (cache d) (removed d) (degraded d) (unsealed d).
Definition set_cache (d : DegradedMap) x r : DegradedMap := MkMap (keys d) x r (degraded d) (unsealed d).
Definition set_degraded (d : DegradedMap) x : DegradedMap := MkMap (keys d) (cache d) (removed d) x (unsealed d).
Definition set_unsealed (d : DegradedMap) x : DegradedMap := MkMap (keys d) (cache d) (removed d) (degraded d) x.

(** ** Requests that wait *)

(** [metadata.set( listId, stripeId, -1 )]: the chunks of a stripe wait together. *)
Definition stripe (listId stripeId : Z) : Metadata := Metadata.set listId stripeId UINT32_MAX.

(** Both overloads; the second, without identifiers, queues nothing.  The result
    is the return value, [isReconstructed] and the map. *)
Definition insertDegradedChunk (d : DegradedMap) (listId stripeId : Z) (pid : option pid_s) : bool * bool * DegradedMap :=
  let metadata := stripe listId stripeId in
  let g := degraded d in
  let data := match pid with Some p => [p] | None => [] end in
  match dg_chunks g !! metadata with
  | None =>
      if decide (metadata ∈ dg_reconstructedChunks g) then (false, true, d)
      else (true, false, set_degraded d (MkDegraded (<[metadata := data]> (dg_chunks g)) (dg_reconstructedChunks g) (dg_keys g) (dg_reconstructedKeys g)))
  | Some pids =>
      (false, false, set_degraded d (MkDegraded (<[metadata := pids ++ data]> (dg_chunks g)) (dg_reconstructedChunks g) (dg_keys g) (dg_reconstructedKeys g)))
  end.

(** Does a request wait for this chunk? *)
Definition waits_for (ignoreChunkId : bool) (c : Z) (pid : pid_s) : bool := ignoreChunkId || bool_decide (chunkId pid = c).

(** The return value, the requests appended to [pids], and the map. *)
Definition deleteDegradedChunk (d : DegradedMap) (listId stripeId c : Z) (pids : list pid_s) (force ignoreChunkId : bool) :
    bool * list pid_s * DegradedMap :=
  let metadata := stripe listId stripeId in
  let g := degraded d in
  match dg_chunks g !! metadata with
  | None =>
      if force then (false, pids, set_degraded d (MkDegraded (dg_chunks g) ({[ metadata ]} ∪ dg_reconstructedChunks g) (dg_keys g) (dg_reconstructedKeys g)))
      else (false, pids, d)
  | Some l =>
      let released := filter (λ p, waits_for ignoreChunkId c p = true) l in
      let rest := filter (λ p, waits_for ignoreChunkId c p = false) l in
      let chunks := if decide (length rest = 0%nat) then delete metadata (dg_chunks g) else <[metadata := rest]> (dg_chunks g) in
      (true, pids ++ released, set_degraded d (MkDegraded chunks ({[ metadata ]} ∪ dg_reconstructedChunks g) (dg_keys g) (dg_reconstructedKeys g)))
  end.

(** [keys[ key ] = v]. *)
Fixpoint assign {V : Type} (t : key_map V) (key : Key) (v : V) : option (key_map V) :=
  match t with
  | [] => Some [(key, v)]
  | kv :: t' => b ← same_key kv.1 key;
      if (b : bool) then Some ((kv.1, v) :: t') else t'' ← assign t' key v; Some (kv :: t'')
  end.

Definition insertDegradedKey (d : DegradedMap) (key : Key) (instanceId requestId : Z) : option (bool * bool * DegradedMap) :=
  let g := degraded d in
  let data := MkPid instanceId requestId 0 in
  it ← find (dg_keys g) key;
  match it with
  | None =>
      r ← find (dg_reconstructedKeys g) key;
      match r with
      | None => '(ret, ks) ← insert (dg_keys g) key [data];
          Some (ret, false, set_degraded d (MkDegraded (dg_chunks g) (dg_reconstructedChunks g) ks (dg_reconstructedKeys g)))
      | Some _ => Some (false, true, d)
      end
  | Some (_, pids) =>
      ks ← assign (dg_keys g) key (pids ++ [data]);
      Some (false, false, set_degraded d (MkDegraded (dg_chunks g) (dg_reconstructedChunks g) ks (dg_reconstructedKeys g)))
  end.

(** The requests, when the key is found. *)
Definition deleteDegradedKey (d : DegradedMap) (key : Key) (success : bool) : option (option (list pid_s) * DegradedMap) :=
  let g := degraded d in
  it ← find (dg_keys g) key;
  match it with
  | None => Some (None, d)
  | Some (k, pids) =>
      ks ← erase (dg_keys g) k;
      rk ← (if success then k ← Key_dup key (Key.isLarge key); snd <$> insert (dg_reconstructedKeys g) k tt else Some (dg_reconstructedKeys g));
      Some (Some pids, set_degraded d (MkDegraded (dg_chunks g) (dg_reconstructedChunks g) ks rk))
  end.

Section map.
Variables (chunkSize : Z).

(** ** Reconstructed chunks *)

(** The loop of [insertChunk] over the objects of a data chunk. *)
Fixpoint index_objects (fuel : nat) (m : mem) (data p : ptr) (metadata : Metadata) (offset : Z) (ks : key_map KeyMetadata) :
    option (key_map KeyMetadata) :=
  match fuel with
  | O => None
  | S fuel =>
      if decide (off p + KEY_VALUE_METADATA_SIZE < off data + chunkSize) then
        f ← KeyValue.deserialize chunkSize m p;
        if decide (KeyValue.f_keySize f = 0 ∧ KeyValue.f_valueSize f = 0) then Some ks else
        '(size, isLarge) ← ChunkUtil.objectSize chunkSize f;
        (* [Key::dup] of no bytes takes the size that the key has, which is not initialised. *)
        if decide (KeyValue.f_keySize f = 0) then None else
        key ← Key_set m (KeyValue.f_keySize f) (KeyValue.f_key f) isLarge;
        key ← Key_dup key isLarge;
        ks ← assign ks key (MkKeyMetadata metadata offset size false (Ptr 0 0));
        index_objects fuel m data (p +ₚ size) metadata (u32 (offset + size)) ks
      else Some ks
  end.

(** The chunk is marked as present also when another one is there. *)
Definition insertChunk (m : mem) (d : DegradedMap) (listId stripeId chunkId : Z) (chunk : ptr) (isParity : bool) : option (bool * DegradedMap) :=
  let metadata := Metadata.set listId stripeId chunkId in
  let r := removed d ∖ {[ metadata ]} in
  match cache d !! metadata with
  | Some _ => Some (false, set_cache d (cache d) r)
  | None =>
      let d := set_cache d (<[metadata := chunk]> (cache d)) r in
      if isParity then Some (true, d) else
      ks ← index_objects (Z.to_nat (chunkSize + 1)) m (ChunkUtil.getData chunk) (ChunkUtil.getData chunk) metadata 0 (keys d);
      Some (true, set_keys d ks)
  end.

Definition findChunkById (d : DegradedMap) (listId stripeId chunkId : Z) : option ptr := cache d !! Metadata.set listId stripeId chunkId.
Definition deleteChunk (d : DegradedMap) (listId stripeId chunkId : Z) : option ptr * DegradedMap :=
  let metadata := Metadata.set listId stripeId chunkId in
  match cache d !! metadata with
  | Some chunk => (Some chunk, set_cache d (delete metadata (cache d)) ({[ metadata ]} ∪ removed d))
  | None => (None, d)
  end.
Definition findRemovedChunk (d : DegradedMap) (listId stripeId chunkId : Z) : bool :=
  bool_decide (Metadata.set listId stripeId chunkId ∈ removed d).

(** ** Objects *)

(** What [findValueByKey] fills in. *)
Record found := MkFound {
  fd_isSealed : bool;
  fd_keyValue : option ptr;
  fd_key : Key;
  fd_metadata : option KeyMetadata;
  fd_chunk : option (Metadata * ptr);
}.
Definition findValueByKey (m : mem) (d : DegradedMap) (data : ptr) (size : Z) (isLarge : bool) : option (bool * found) :=
  key ← Key_set m size data isLarge;
  it ← find (keys d) key;
  match it with
  | Some (k, km) =>
      match cache d !! km_metadata km with
      | Some chunk => Some (true, MkFound true (Some (ChunkUtil.getObject chunk (km_offset km))) k (Some km) (Some (km_metadata km, chunk)))
      | None => Some (false, MkFound true None k (Some km) None)
      end
  | None =>
      v ← find (us_values (unsealed d)) key;
      match v with
      | Some (k, kv) => Some (true, MkFound false (Some kv) k None None)
      | None => Some (false, MkFound false None key None None)
      end
  end.

Definition insertKey (d : DegradedMap) (key : Key) (keyMetadata : KeyMetadata) : option (bool * DegradedMap) :=
  k1 ← (if decide (Key.size key = 0) then None else Key_dup key (Key.isLarge key));
  '(ret, ks) ← insert (keys d) k1 keyMetadata;
  Some (ret, set_keys d ks).

(** The metadata of the key is given back, also when the report fails. *)
Definition deleteKey (d : DegradedMap) (t : Map) (key : Key) (opcode timestamp : Z) :
    option (bool * Z * option KeyMetadata * DegradedMap * Map) :=
  it ← find (keys d) key;
  match it with
  | None => Some (false, timestamp, None, d, t)
  | Some (k, km) =>
      ks ← erase (keys d) k;
      '(ret, ts, t) ← insertOpMetadata t opcode timestamp key (km_metadata km) true;
      Some (ret, ts, Some km, set_keys d ks, t)
  end.

(** [keyValue]'s data is on the heap. *)
Definition insertValue (m : mem) (d : DegradedMap) (keyValue : ptr) (metadata : Metadata) : option (bool * DegradedMap) :=
  let u := unsealed d in
  key ← KeyValue.key chunkSize m keyValue true;
  '(ret, vs) ← insert (us_values u) key keyValue;
  let rev := if (ret : bool) then us_metadataRev u ++ [(metadata, key)] else us_metadataRev u in
  Some (ret, set_unsealed d (MkUnsealed vs rev (us_deleted u))).

(** The first pair with the metadata and the key is erased; none is an [assert]
    that fails. *)
Fixpoint erase_rev (rev : list (Metadata * Key)) (metadata : Metadata) (key : Key) : option (list (Metadata * Key)) :=
  match rev with
  | [] => None
  | (md, k) :: rev =>
      b ← (if decide (md = metadata) then Key.equal k key else Some false);
      if (b : bool) then Some rev else rev' ← erase_rev rev metadata key; Some ((md, k) :: rev')
  end.

Definition deleteValue (m : mem) (d : DegradedMap) (t : Map) (key : Key) (metadata : Metadata) (opcode timestamp : Z) :
    option (bool * Z * DegradedMap * Map * mem) :=
  let u := unsealed d in
  it ← find (us_values u) key;
  '(vs, rev, m) ← (match it with
                   | None => Some (us_values u, us_metadataRev u, m)
                   | Some (k, keyValue) =>
                       vs ← erase (us_values u) k;
                       rev ← erase_rev (us_metadataRev u) metadata key;
                       m ← mfree m keyValue;
                       Some (vs, rev, m)
                   end);
  key ← Key_dup key (Key.isLarge key);
  '(_, del) ← insert (us_deleted u) key tt;
  let d := set_unsealed d (MkUnsealed vs (rev ++ [(metadata, key)]) del) in
  '(ret, ts, t) ← insertOpMetadata t opcode timestamp key metadata true;
  Some (ret, ts, d, t, m).
End map.

(** ** Lemmas: [assign] *)
Section assign.
Context {V : Type} (K : Key → Prop) (HK : discriminated K).

Lemma assign_spec (t : key_map V) M k v : holds_map K t M → K k → ∃ t', assign t k v = Some t' ∧ holds_map K t' (<[k := v]> M).
Proof using HK.
  intros (Hn & Hk & ->) HKk. induction t as [|[k' w] t IH]; cbn [assign fst].
  { eexists. split; [done|]. split; [apply NoDup_singleton|]. split; [by apply Forall_singleton|done]. }
  simpl in Hn, Hk. apply NoDup_cons in Hn as [Hni Hn]. apply Forall_cons in Hk as [HKk' Hk].
  rewrite (proj1 HK k' k) by done. cbn [mbind option_bind]. case_bool_decide as Heq.
  - subst. eexists. split; [done|]. split; [by apply NoDup_cons|]. split; [by apply Forall_cons|]. simpl. by rewrite insert_insert_eq.
  - destruct (IH Hn Hk) as (t' & -> & Hn' & Hk' & Hm). cbn [mbind option_bind]. eexists. split; [done|].
    assert (k' ∉ t'.*1).
    { apply not_elem_of_list_to_map. rewrite <- Hm. rewrite lookup_insert_ne by done. by apply not_elem_of_list_to_map. }
    split; [by apply NoDup_cons|]. split; [by apply Forall_cons|]. simpl. rewrite <- Hm. by rewrite insert_insert_ne.
Qed.
End assign.

(** ** Requests and reconstructions in any order *)

Inductive event :=
  | EChunk (listId stripeId : Z) (pid : option pid_s)
  | EChunkDone (listId stripeId c : Z) (force ignoreChunkId : bool)
  | EKey (key : Key) (instanceId requestId : Z)
  | EKeyDone (key : Key) (success : bool).

(** What requests wait for. *)
Inductive place := PStripe (metadata : Metadata) | PKey (key : Key).
#[export] Instance place_eq_dec : EqDecision place.
Proof. solve_decision. Defined.

(** Which reconstructions the requests were told to start, the requests that were
    not answered at once, and those that were released later. *)
Record log := MkLog { started : list place; queued : list (place * pid_s); released : list (place * pid_s) }.

Definition handle (d : DegradedMap) (g : log) (e : event) : option (DegradedMap * log) :=
  match e with
  | EChunk l s pid =>
      let '(starts, isReconstructed, d) := insertDegradedChunk d l s pid in
      let p := PStripe (stripe l s) in
      Some (d, MkLog (if (starts : bool) then started g ++ [p] else started g)
        (match pid with Some pid => if (isReconstructed : bool) then queued g else queued g ++ [(p, pid)] | None => queued g end) (released g))
  | EChunkDone l s c force ignore =>
      let '(_, pids, d) := deleteDegradedChunk d l s c [] force ignore in
      Some (d, MkLog (started g) (queued g) (released g ++ (pair (PStripe (stripe l s)) <$> pids)))
  | EKey k i r =>
      '(starts, isReconstructed, d) ← insertDegradedKey d k i r;
      Some (d, MkLog (if (starts : bool) then started g ++ [PKey k] else started g)
        (if (isReconstructed : bool) then queued g else queued g ++ [(PKey k, MkPid i r 0)]) (released g))
  | EKeyDone k success =>
      '(pids, d) ← deleteDegradedKey d k success;
      Some (d, MkLog (started g) (queued g) (released g ++ (pair (PKey k) <$> default [] pids)))
  end.
Fixpoint handle_all (d : DegradedMap) (g : log) (es : list event) : option (DegradedMap * log) :=
  match es with [] => Some (d, g) | e :: es => '(d, g) ← handle d g e; handle_all d g es end.

(** The requests that still wait. *)
Definition waiting (d : DegradedMap) (p : place) : list pid_s :=
  match p with
  | PStripe md => default [] (dg_chunks (degraded d) !! md)
  | PKey k => match find (dg_keys (degraded d)) k with Some (Some (_, pids)) => pids | _ => [] end
  end.
Definition at_place (p : place) (xs : list (place * pid_s)) : list pid_s := snd <$> filter (λ x, x.1 = p) xs.

Lemma at_place_app p xs ys : at_place p (xs ++ ys) = at_place p xs ++ at_place p ys.
Proof. unfold at_place. by rewrite filter_app, fmap_app. Qed.
Lemma at_place_pairs p q xs : at_place p (pair q <$> xs) = if decide (q = p) then xs else [].
Proof.
  unfold at_place. induction xs as [|x xs IH]; [by destruct (decide _)|]. rewrite fmap_cons, filter_cons. cbn [fst].
  destruct (decide (q = p)); [|done]. cbn [fmap list_fmap snd]. f_equal. done.
Qed.
Lemma split_waiting ignore c (l : list pid_s) :
  l ≡ₚ filter (λ p, waits_for ignore c p = true) l ++ filter (λ p, waits_for ignore c p = false) l.
Proof.
  induction l as [|x l IH]; [done|]. rewrite !filter_cons. destruct (waits_for ignore c x) eqn:E.
  - rewrite decide_True, decide_False by done. simpl. by rewrite <- IH.
  - rewrite decide_False, decide_True by done. rewrite <- Permutation_middle. by rewrite <- IH.
Qed.

Section requests.
Context (K : Key → Prop) (HK : discriminated K).

Definition event_ok (e : event) : Prop :=
  match e with EKey k _ _ | EKeyDone k _ => K k ∧ Key.wf k | _ => True end.

Record consistent (d : DegradedMap) (g : log) : Prop := {
  rq_queues : ∀ p, (if p is PKey k then K k else True) → at_place p (queued g) ≡ₚ at_place p (released g) ++ waiting d p;
  rq_once : ∀ md, length (filter (λ p, p = PStripe md) (started g)) =
    if decide (PStripe md ∈ started g) then 1%nat else 0%nat;
  rq_begun : ∀ md, PStripe md ∈ started g → is_Some (dg_chunks (degraded d) !! md) ∨ md ∈ dg_reconstructedChunks (degraded d);
  rq_keys : ∃ G R, holds_map K (dg_keys (degraded d)) G ∧ holds_map K (dg_reconstructedKeys (degraded d)) R;
}.

Definition holds_keys (d : DegradedMap) : Prop :=
  ∃ G R, holds_map K (dg_keys (degraded d)) G ∧ holds_map K (dg_reconstructedKeys (degraded d)) R.

(** A step that changes the queue of one place only. *)
Lemma consistent_step d g d' g' p qs rs :
  consistent d g →
  queued g' = queued g ++ (pair p <$> qs) → released g' = released g ++ (pair p <$> rs) →
  ((if p is PKey k then K k else True) → waiting d p ++ qs ≡ₚ rs ++ waiting d' p) →
  (∀ p', p' ≠ p → (if p' is PKey k then K k else True) → waiting d' p' = waiting d p') →
  (∀ md, length (filter (λ p, p = PStripe md) (started g')) = if decide (PStripe md ∈ started g') then 1%nat else 0%nat) →
  (∀ md, PStripe md ∈ started g' → is_Some (dg_chunks (degraded d') !! md) ∨ md ∈ dg_reconstructedChunks (degraded d')) →
  holds_keys d' → consistent d' g'.
Proof using.
  clear HK. intros [Hq _ _ _] Eq Er Hp Ho H1 H2 H3. constructor; [|done..]. intros p' Hp'. rewrite Eq, Er, !at_place_app, !at_place_pairs.
  destruct (decide (p = p')) as [<-|Hne].
  - rewrite (Hq p Hp'), <- !app_assoc. by rewrite (Hp Hp').
  - rewrite !app_nil_r, (Ho p') by done. by apply Hq.
Qed.

Lemma waiting_key d ks k G : dg_keys (degraded d) = ks → K k → holds_map K ks G → waiting d (PKey k) = default [] (G !! k).
Proof using HK. intros <- HKk HG. cbn [waiting]. rewrite (find_spec K HK _ G) by done. by destruct (G !! k). Qed.

Lemma chunk_step d g l s pid : consistent d g → ∃ d' g', handle d g (EChunk l s pid) = Some (d', g') ∧ consistent d' g'.
Proof using.
  clear HK. intros Hc. pose proof Hc as [_ Hs Hb Hk]. cbn [handle]. unfold insertDegradedChunk. set (md := stripe l s).
  destruct (dg_chunks (degraded d) !! md) as [pids|] eqn:E.
  - eexists _, _. split; [done|].
    apply (consistent_step d g _ _ (PStripe md) (match pid with Some x => [x] | None => [] end) []); cbn; try done.
    + by destruct pid; rewrite ?app_nil_r.
    + by rewrite app_nil_r.
    + intros _. rewrite E. cbn. by rewrite lookup_insert_eq.
    + intros [md'|k] Hne _; [|done]. cbn. rewrite lookup_insert_ne by congruence. done.
    + intros md' Hin. cbn. destruct (decide (md' = md)) as [->|]; [rewrite lookup_insert_eq; left; by eexists|].
      rewrite lookup_insert_ne by done. by apply Hb.
  - case_decide as Hr.
    + eexists _, _. split; [done|]. destruct pid; by destruct g, Hc.
    + eexists _, _. split; [done|].
      assert (Hni : PStripe md ∉ started g) by (intros [[x Hx]|?]%Hb; [congruence|done]).
      apply (consistent_step d g _ _ (PStripe md) (match pid with Some x => [x] | None => [] end) []); cbn; try done.
      * by destruct pid; rewrite ?app_nil_r.
      * by rewrite app_nil_r.
      * intros _. rewrite E. cbn. by rewrite lookup_insert_eq.
      * intros [md'|k] Hne _; [|done]. cbn. rewrite lookup_insert_ne by congruence. done.
      * intros md'. rewrite filter_app, length_app, Hs, filter_cons, filter_nil. destruct (decide (PStripe md = PStripe md')) as [[= <-]|Hne].
        -- rewrite decide_False by done. rewrite decide_True by set_solver. done.
        -- rewrite (decide_ext (PStripe md' ∈ started g ++ [PStripe md]) (PStripe md' ∈ started g)) by set_solver. simpl. lia.
      * intros md' Hin. cbn. destruct (decide (md' = md)) as [->|Hne]; [rewrite lookup_insert_eq; left; by eexists|].
        rewrite lookup_insert_ne by done. apply Hb. apply elem_of_app in Hin as [?|Hin]; [done|].
        apply list_elem_of_singleton in Hin. congruence.
Qed.

Lemma chunk_done_step d g l s c force ignore :
  consistent d g → ∃ d' g', handle d g (EChunkDone l s c force ignore) = Some (d', g') ∧ consistent d' g'.
Proof using.
  clear HK. intros Hc. pose proof Hc as [_ Hs Hb Hk]. cbn [handle]. unfold deleteDegradedChunk. set (md := stripe l s).
  destruct (dg_chunks (degraded d) !! md) as [pids|] eqn:E.
  - eexists _, _. split; [done|].
    set (rel := filter (λ p, waits_for ignore c p = true) pids). set (rest := filter (λ p, waits_for ignore c p = false) pids).
    apply (consistent_step d g _ _ (PStripe md) [] rel); cbn; try done.
    + by rewrite app_nil_r.
    + intros _. rewrite E, app_nil_r. cbn. case_decide as Hl.
      * rewrite lookup_delete_eq. apply length_zero_iff_nil in Hl. rewrite (split_waiting ignore c pids) at 1. fold rel rest. by rewrite Hl.
      * rewrite lookup_insert_eq. apply split_waiting.
    + intros [md'|k] Hne _; [|done]. cbn. case_decide; [rewrite lookup_delete_ne by congruence|rewrite lookup_insert_ne by congruence]; done.
    + intros md' Hin. cbn. destruct (decide (md' = md)) as [->|Hne]; [right; set_solver|].
      destruct (Hb md' Hin) as [H|H]; [left|right; set_solver].
      case_decide; [rewrite lookup_delete_ne by congruence|rewrite lookup_insert_ne by congruence]; done.
  - destruct force; (eexists _, _; split; [done|]).
    + apply (consistent_step d g _ _ (PStripe md) [] []); cbn; try done; [by rewrite app_nil_r..|intros _; by rewrite app_nil_r|].
      intros md' Hin. destruct (Hb md' Hin) as [H|H]; [by left|right; set_solver].
    + apply (consistent_step d g _ _ (PStripe md) [] []); cbn; try done; [by rewrite app_nil_r..|intros _; by rewrite app_nil_r].
Qed.

Lemma key_step d g k i r : consistent d g → K k → ∃ d' g', handle d g (EKey k i r) = Some (d', g') ∧ consistent d' g'.
Proof using HK.
  intros Hc HKk. pose proof Hc as [_ Hs Hb (G & R & HG & HR)]. cbn [handle]. unfold insertDegradedKey.
  rewrite (find_spec K HK _ G) by done. cbn [mbind option_bind]. set (x := MkPid i r 0).
  assert (Hnk : ∀ md, PStripe md ∈ started g ++ [PKey k] ↔ PStripe md ∈ started g) by set_solver.
  destruct (G !! k) as [pids|] eqn:E; cbn [fmap option_fmap option_map].
  - destruct (assign_spec K HK (dg_keys (degraded d)) G k (pids ++ [x]) HG HKk) as (ks & -> & Hks). cbn [mbind option_bind].
    eexists _, _. split; [done|]. apply (consistent_step d g _ _ (PKey k) [x] []); cbn [queued released started degraded set_degraded dg_chunks dg_reconstructedChunks]; try done.
    + by rewrite app_nil_r.
    + intros _. rewrite (waiting_key d _ k G eq_refl), (λ d' H, waiting_key d' ks k _ H HKk Hks), lookup_insert_eq, E by done. done.
    + intros [md|k'] Hne Hp; [done|]. rewrite (waiting_key d _ k' G eq_refl), (λ d' H, waiting_key d' ks k' _ H Hp Hks) by done. by rewrite lookup_insert_ne by congruence.
    + eexists _, R. by split.
  - rewrite (find_spec K HK _ R) by done. cbn [mbind option_bind]. destruct (R !! k) as [u|] eqn:ER; cbn [fmap option_fmap option_map].
    + eexists _, _. split; [done|]. by destruct g, Hc.
    + destruct (insert_spec K HK (dg_keys (degraded d)) G k [x] HG HKk) as (ks & -> & Hks). rewrite decide_True in Hks by done. rewrite bool_decide_eq_true_2 by done. cbn [mbind option_bind].
      eexists _, _. split; [done|]. apply (consistent_step d g _ _ (PKey k) [x] []); cbn [queued released started degraded set_degraded dg_chunks dg_reconstructedChunks]; try done.
      * by rewrite app_nil_r.
      * intros _. rewrite (waiting_key d _ k G eq_refl), (λ d' H, waiting_key d' ks k _ H HKk Hks), lookup_insert_eq, E by done. done.
      * intros [md|k'] Hne Hp; [done|]. rewrite (waiting_key d _ k' G eq_refl), (λ d' H, waiting_key d' ks k' _ H Hp Hks) by done. by rewrite lookup_insert_ne by congruence.
      * intros md. rewrite filter_app, length_app, Hs, filter_cons, filter_nil, (decide_False (P := PKey k = PStripe md)) by done. rewrite (decide_ext (PStripe md ∈ started g ++ [PKey k]) (PStripe md ∈ started g)) by apply Hnk. simpl. lia.
      * intros md Hin. by apply Hb, Hnk.
      * eexists _, R. by split.
Qed.

Lemma key_done_step d g k success : consistent d g → K k → Key.wf k → ∃ d' g', handle d g (EKeyDone k success) = Some (d', g') ∧ consistent d' g'.
Proof using HK.
  intros Hc HKk Hw. pose proof Hc as [_ Hs Hb (G & R & HG & HR)]. cbn [handle]. unfold deleteDegradedKey.
  rewrite (find_spec K HK _ G) by done. cbn [mbind option_bind].
  destruct (G !! k) as [pids|] eqn:E; cbn [fmap option_fmap option_map].
  - destruct (erase_spec K HK (dg_keys (degraded d)) G k HG HKk) as (ks & -> & Hks). cbn [mbind option_bind].
    assert (∃ rk R', (if success then k ← Key_dup k (Key.isLarge k); snd <$> insert (dg_reconstructedKeys (degraded d)) k tt
              else Some (dg_reconstructedKeys (degraded d))) = Some rk ∧ holds_map K rk R') as (rk & R' & -> & HR').
    { destruct success; [|by exists (dg_reconstructedKeys (degraded d)), R]. rewrite (Key_dup_K K HK) by done. cbn [mbind option_bind].
      destruct (insert_spec K HK (dg_reconstructedKeys (degraded d)) R k tt HR HKk) as (rk & -> & Hrk). eexists rk, _. split; [done|exact Hrk]. }
    cbn [mbind option_bind]. eexists _, _. split; [done|].
    apply (consistent_step d g _ _ (PKey k) [] pids); cbn [queued released started degraded set_degraded dg_chunks dg_reconstructedChunks default]; try done.
    + by rewrite app_nil_r.
    + intros _. rewrite (waiting_key d _ k G eq_refl), (λ d' H, waiting_key d' ks k _ H HKk Hks), lookup_delete_eq, E by done. done.
    + intros [md|k'] Hne Hp; [done|]. rewrite (waiting_key d _ k' G eq_refl), (λ d' H, waiting_key d' ks k' _ H Hp Hks) by done. by rewrite lookup_delete_ne by congruence.
    + eexists _, R'. by split.
  - eexists _, _. split; [done|]. apply (consistent_step d g _ _ (PKey k) [] []); cbn [queued released started default]; try done; [by rewrite app_nil_r..| |by exists G, R].
    intros _. by rewrite app_nil_r.
Qed.

Lemma handle_step d g e : consistent d g → event_ok e → ∃ d' g', handle d g e = Some (d', g') ∧ consistent d' g'.
Proof using HK. destruct e; cbn [event_ok]; intros Hc He; [by apply chunk_step|by apply chunk_done_step|apply key_step; naive_solver|apply key_done_step; naive_solver]. Qed.

Lemma handle_all_ok es : ∀ d g, consistent d g → Forall event_ok es → ∃ d' g', handle_all d g es = Some (d', g') ∧ consistent d' g'.
Proof using HK.
  induction es as [|e es IH]; intros d g Hc Hes; [by exists d, g|]. apply Forall_cons in Hes as [He Hes]. cbn [handle_all].
  destruct (handle_step d g e Hc He) as (d1 & g1 & -> & Hc1). cbn [mbind option_bind]. by apply IH.
Qed.

Lemma consistent_new : consistent DegradedMap_new (MkLog [] [] []).
Proof using.
  clear HK. constructor.
  - by intros [md|k] _.
  - intros md. by rewrite decide_False by set_solver.
  - intros md Hin. set_solver.
  - exists ∅, ∅. split; apply holds_empty.
Qed.
End requests.

(** ** The objects of a reconstructed chunk *)
Section index.
Import ParityProofs.
Context {C : Coding} {EC : ErasureCode C} (K : Key → Prop) (HK : discriminated K).
Abbreviation cap := ec_chunkSize.

(** Where the objects are, behind the first [pos] bytes. *)
Fixpoint index_map (metadata : Metadata) (pos : Z) (os : list obj) (G : gmap Key KeyMetadata) : gmap Key KeyMetadata :=
  match os with
  | [] => G
  | o :: os => index_map metadata (pos + obj_size cap o) os (<[key_of o := MkKeyMetadata metadata pos (obj_size cap o) false (Ptr 0 0)]> G)
  end.

Lemma index_map_other md os k : k ∉ key_of <$> os → ∀ pos G, index_map md pos os G !! k = G !! k.
Proof.
  induction os as [|o os IH]; intros Hk pos G; [done|]. cbn [index_map]. rewrite fmap_cons, not_elem_of_cons in Hk.
  destruct Hk as [Hne Hk]. rewrite IH by done. by rewrite lookup_insert_ne.
Qed.

Lemma index_map_at md pre o post : ∀ pos G, NoDup (key_of <$> pre ++ o :: post) →
  index_map md pos (pre ++ o :: post) G !! key_of o = Some (MkKeyMetadata md (pos + zlen (objs_bytes cap pre)) (obj_size cap o) false (Ptr 0 0)).
Proof.
  induction pre as [|x pre IH]; intros pos G Hn; cbn [app index_map]; cbn [app fmap list_fmap] in Hn; apply NoDup_cons in Hn as [Hni Hn].
  - rewrite index_map_other by done. rewrite lookup_insert_eq. change (zlen (objs_bytes cap [])) with 0. by rewrite Z.add_0_r.
  - rewrite IH by done. do 2 f_equal. change (objs_bytes cap (x :: pre)) with (obj_bytes cap x ++ objs_bytes cap pre).
    unfold obj_size. rewrite zlen_app. lia.
Qed.

Definition indexable (o : obj) : Prop := obj_ok cap o ∧ K (key_of o) ∧ o_key o ≠ [].

Lemma deserialize_end m p : chunk_sizes cap → load m p 4 = Some (replicate 4 x00) →
  ∃ vp, KeyValue.deserialize cap m p = Some (KeyValue.Fields (p +ₚ 4) 0 vp 0 0).
Proof.
  intros Hcs Hl. unfold chunk_sizes, ChunkUtil.chunk_sizes, KEY_VALUE_METADATA_SIZE, KeyValue.SPLIT_OFFSET_SIZE in Hcs.
  destruct (KeyValue.deserialize_format cap m p 0 0 [] []) as (Hd & _).
  - unfold KeyValue.format_ok, LargeObjectUtil.sizes_ok, KeyValue.payload_len, KeyValue.is_large, KEY_VALUE_METADATA_SIZE, KeyValue.SPLIT_OFFSET_SIZE.
    change (zlen []) with 0. rewrite bool_decide_eq_false_2 by lia. lia.
  - unfold KeyValue.format, KeyValue.split_bytes, KeyValue.is_large. change (zlen []) with 0. by rewrite bool_decide_eq_false_2 by lia.
  - eexists. exact Hd.
Qed.

Lemma index_objects_spec md m data pad os : ∀ fuel pre ks G,
  chunk_sizes cap → (length os < fuel)%nat → Forall indexable os → 0 ≤ pad →
  load m data cap = Some (pre ++ objs_bytes cap os ++ replicate (Z.to_nat pad) x00) → holds_map K ks G →
  ∃ ks', index_objects cap fuel m data (data +ₚ zlen pre) md (zlen pre) ks = Some ks' ∧ holds_map K ks' (index_map md (zlen pre) os G).
Proof using HK.
  induction os as [|o os IH]; intros fuel pre ks G Hcs Hf Hok Hpad Hl HG; (destruct fuel as [|fuel]; [simpl in *; lia|]);
    pose proof (load_zlen _ _ _ _ Hl) as Hz; cbn [index_objects].
  - exists ks. split; [|done]. change (objs_bytes cap []) with (@nil byte) in *. rewrite app_nil_l in Hl, Hz. unfold KEY_VALUE_METADATA_SIZE.
    case_decide as Hc; [|done]. simpl in Hc. rewrite zlen_app in Hz.
    assert (Hpz : zlen (replicate (Z.to_nat pad) x00) = pad) by (unfold zlen; rewrite length_replicate; lia).
    destruct (deserialize_end m (data +ₚ zlen pre)) as (vp & ->); [done| |reflexivity].
    rewrite (load_sub _ _ _ _ _ _ Hl) by (unfold zlen in *; lia).
    replace (Z.to_nat pad) with (4 + Z.to_nat (pad - 4))%nat by lia. rewrite replicate_add. by apply (slice_app_mid pre (replicate 4 x00)).
  - apply Forall_cons in Hok as [(Ho & HKo & Hne) Hok]. pose proof (ChunkUtil.obj_size_bounds cap o Ho) as Hb.
    change (objs_bytes cap (o :: os)) with (obj_bytes cap o ++ objs_bytes cap os) in Hl, Hz. rewrite <- app_assoc in Hl, Hz.
    pose proof (ChunkUtil.load_obj _ _ _ _ _ _ Ho Hl) as Hlo. unfold KEY_VALUE_METADATA_SIZE. rewrite decide_True.
    2:{ simpl. rewrite <- Hz. unfold obj_size in Hb. rewrite !zlen_app. unfold zlen in *. lia. }
    destruct (read_obj m (data +ₚ zlen pre) o Ho Hlo) as (vp & -> & Hkd). cbn [mbind option_bind KeyValue.f_keySize KeyValue.f_valueSize KeyValue.f_key].
    assert (Hk0 : zlen (o_key o) ≠ 0) by (destruct (o_key o); [done|unfold zlen; simpl; lia]).
    rewrite decide_False by lia. rewrite (ChunkUtil.objectSize_format cap _ _ _ (o_key o) (o_value o)) by apply Ho. cbn [mbind option_bind].
    rewrite decide_False by done. change (KeyValue.is_large cap (zlen (o_key o)) (o_valueSize o)) with (Key.isLarge (key_of o)).
    change (Key_set m (zlen (o_key o))) with (Key_set m (Key.size (key_of o))).
    rewrite (Key_set_load _ _ (key_of o)) by (by apply (key_of_wf (λ _ _, x00)) || done). cbn [mbind option_bind].
    rewrite (Key_dup_K K HK) by (by apply (key_of_wf (λ _ _, x00)) || done). cbn [mbind option_bind].
    change (zlen (KeyValue.format cap (o_valueSize o) (o_splitOffset o) (o_key o) (o_value o))) with (obj_size cap o).
    destruct (assign_spec K HK ks G (key_of o) (MkKeyMetadata md (zlen pre) (obj_size cap o) false (Ptr 0 0)) HG HKo) as (ks1 & -> & HG1). cbn [mbind option_bind index_map].
    rewrite padd_padd. rewrite !zlen_app in Hz. assert (Hos : 0 ≤ zlen (objs_bytes cap os) ∧ 0 ≤ zlen pre ∧ 0 ≤ zlen (replicate (Z.to_nat pad) x00)) by (unfold zlen; lia).
    destruct Hcs as [Hc1 Hc2]. unfold obj_size in *. rewrite u32_small by (unfold ChunkUtil.obj_size in *; lia).
    replace (zlen pre + zlen (obj_bytes cap o)) with (zlen (pre ++ obj_bytes cap o)) by by rewrite zlen_app.
    apply IH; [done|simpl in *; lia|done|done| |done]. rewrite <- app_assoc. exact Hl.
Qed.
End index.

(** ** Properties *)

(** C14: From an empty map and whatever the order of requests and reconstructions,
    of chunks and of keys: no request that was told to wait is lost or released
    twice (those that waited for a stripe or a key are those that were released for
    it and those that still wait), and the reconstruction of a stripe is started
    once only, after which it is under way or done. *)
Theorem degraded_requests_answered K es :
  discriminated K → Forall (event_ok K) es →
  ∃ d g, handle_all DegradedMap_new (MkLog [] [] []) es = Some (d, g) ∧
    (∀ p, (if p is PKey k then K k else True) → at_place p (queued g) ≡ₚ at_place p (released g) ++ waiting d p) ∧
    (∀ md, PStripe md ∈ started g → length (filter (λ p, p = PStripe md) (started g)) = 1%nat ∧
       (is_Some (dg_chunks (degraded d) !! md) ∨ md ∈ dg_reconstructedChunks (degraded d))).
Proof.
  intros HK Hes. destruct (handle_all_ok K HK es _ _ (consistent_new K) Hes) as (d & g & E & [Hq Hs Hb _]).
  exists d, g. split; [done|]. split; [done|]. intros md Hin. split; [|by apply Hb]. rewrite Hs. by rewrite decide_True.
Qed.

(** ** Witness: two requests for a stripe, one for a key; the chunk 1 is rebuilt *)
Definition ex_events : list event :=
  [EChunk 0 7 (Some (MkPid 1 10 1)); EChunk 0 7 (Some (MkPid 1 11 2)); EKey (Key.MkKey 1 [z2b 107] false) 1 12; EChunkDone 0 7 1 false false].

Lemma degraded_requests_answered_witness :
  ∃ d g, handle_all DegradedMap_new (MkLog [] [] []) ex_events = Some (d, g) ∧
    at_place (PStripe (stripe 0 7)) (queued g) ≡ₚ at_place (PStripe (stripe 0 7)) (released g) ++ waiting d (PStripe (stripe 0 7)).
Proof.
  destruct (degraded_requests_answered plain ex_events plain_discriminated) as (d & g & E & Hq & _).
  - repeat constructor; try done. apply (bool_decide_unpack _). by vm_compute.
  - exists d, g. split; [exact E|]. by apply (Hq (PStripe (stripe 0 7))).
Defined.

Section objects.
Import ParityProofs.
Abbreviation cap := ec_chunkSize.

(** C15: A reconstructed data chunk that was not in the cache is inserted, and each of
    its objects is then found by its key, sealed, at the place where its bytes are
    in the chunk. *)
Theorem insertChunk_finds {C : Coding} {EC : ErasureCode C} K m d l s c chunk os pad G :
  discriminated K → chunk_sizes cap → ChunkUtil.layout cap m chunk os pad → Forall (indexable K) os → NoDup (key_of <$> os) →
  holds_map K (keys d) G → cache d !! Metadata.set l s c = None →
  ∃ d', insertChunk cap m d l s c chunk false = Some (true, d') ∧ findChunkById d' l s c = Some chunk ∧
    ∀ o p, o ∈ os → load m p (zlen (Key.data (key_of o))) = Some (Key.data (key_of o)) →
      ∃ km kv, findValueByKey m d' p (Key.size (key_of o)) (Key.isLarge (key_of o)) =
          Some (true, MkFound true (Some kv) (key_of o) (Some km) (Some (Metadata.set l s c, chunk))) ∧
        km_metadata km = Metadata.set l s c ∧ load m kv (obj_size cap o) = Some (obj_bytes cap o).
Proof.
  intros HK Hcs HL Hok Hn HG Hc. pose proof (ChunkUtil.layout_zlen _ _ _ _ _ HL) as Hz.
  destruct HL as (Hpad & Hobj & Hl). pose proof (ChunkUtil.objs_count _ _ Hobj) as Hcount.
  destruct (index_objects_spec K HK (Metadata.set l s c) m (ChunkUtil.getData chunk) pad os (Z.to_nat (cap + 1)) [] (keys d) G) as (ks & E & Hks); [done|unfold zlen in *; lia|done..|].
  change (zlen []) with 0 in E, Hks. rewrite padd_0 in E.
  eexists. split; [unfold insertChunk; rewrite Hc; cbn [keys set_cache]; rewrite E; reflexivity|].
  split; [apply lookup_insert_eq|]. intros o p Ho Hp. apply list_elem_of_split in Ho as (pre & post & ->).
  pose proof (proj1 (Forall_app _ _ _) Hok) as [_ Ho]. apply Forall_cons in Ho as [(Ho & HKo & _) _].
  unfold findValueByKey. rewrite Key_set_load by (done || by apply (key_of_wf (λ _ _, x00))). cbn [mbind option_bind keys set_keys].
  rewrite (find_spec K HK _ _ _ Hks HKo), index_map_at by done. cbn [fmap option_fmap option_map mbind option_bind cache set_keys set_cache km_metadata].
  rewrite lookup_insert_eq. eexists _, _. split; [reflexivity|]. split; [done|]. cbn [km_offset]. rewrite Z.add_0_l.
  unfold ChunkUtil.getObject. rewrite ChunkUtil.objs_bytes_app, <- app_assoc in Hl.
  change (objs_bytes cap (o :: post)) with (obj_bytes cap o ++ objs_bytes cap post) in Hl. rewrite <- app_assoc in Hl.
  by apply (ChunkUtil.load_obj _ _ _ _ _ _ Ho Hl).
Qed.
End objects.

(** ** Witness: two objects in a chunk of 16 bytes; the second is looked up *)
Definition ex_coding : Coding := RAID5Coding.raid5 3 16.
#[local] Instance ex_contract : ErasureCode ex_coding := RAID5Coding.raid5_code 3 16 ltac:(lia) ltac:(lia).
Definition ex_objs : list ChunkUtil.obj := [ChunkUtil.Obj 2 0 [z2b 107] [z2b 1; z2b 2]; ChunkUtil.Obj 3 0 [z2b 104] [z2b 7; z2b 8; z2b 9]].
Definition ex_chunk : list byte := replicate 8 x00 ++ ChunkUtil.objs_bytes 16 ex_objs ++ [x00].
Definition ex_mem : mem := <[1%nat := ex_chunk]> (<[2%nat := [z2b 104]]> ∅).

Lemma ex_chunk_layout : ChunkUtil.layout 16 ex_mem (Ptr 1 0) ex_objs 1.
Proof. split; [lia|]. split; [repeat constructor; vm_compute; congruence|by vm_compute]. Qed.
Lemma ex_indexable : Forall (indexable (C := ex_coding) plain) ex_objs.
Proof.
  repeat (constructor; [split_and!; try done|]); try constructor.
  all: repeat split; try (by vm_compute); try (by apply (bool_decide_unpack _); vm_compute).
Qed.

Lemma insertChunk_finds_witness :
  ∃ d', insertChunk 16 ex_mem DegradedMap_new 0 7 1 (Ptr 1 0) false = Some (true, d') ∧
    ∃ km kv, findValueByKey ex_mem d' (Ptr 2 0) 1 false = Some (true, MkFound true (Some kv) (Key.MkKey 1 [z2b 104] false) (Some km) (Some (Metadata.set 0 7 1, Ptr 1 0))).
Proof.
  destruct (insertChunk_finds (C := ex_coding) plain ex_mem DegradedMap_new 0 7 1 (Ptr 1 0) ex_objs 1 ∅ plain_discriminated) as (d' & E & _ & Hf).
  - by vm_compute.
  - exact ex_chunk_layout.
  - exact ex_indexable.
  - apply (bool_decide_unpack _). by vm_compute.
  - apply holds_empty.
  - apply lookup_empty.
  - exists d'. split; [exact E|]. destruct (Hf (ChunkUtil.Obj 3 0 [z2b 104] [z2b 7; z2b 8; z2b 9]) (Ptr 2 0)) as (km & kv & F & _).
    + by right; left.
    + by vm_compute.
    + by exists km, kv.
Defined.
End DegradedMap.

(** ** The buffer *)
Module DegradedChunkBuffer.
Import KeyMap Metadata DegradedMap.

Section buffer.
(** [ChunkBuffer::capacity], which is the chunk size, [dataChunkCount],
    [Coding::zeros] and [ChunkBuffer::coding]. *)
Context {C : Coding} (capacity dataChunkCount : Z) (zeros : ptr) (junk : nat → Z → byte).

(** [_dup]: a copy of the whole value on the heap. *)
Definition _dup (m : mem) (key : ptr) (keySize : Z) (value : ptr) (valueSize : Z) : option (ptr * mem) :=
  let '(p, m) := malloc junk m (u32 (keySize + valueSize + KEY_VALUE_METADATA_SIZE)) in
  m ← KeyValue._serialize m p (Some key) keySize (Some value) valueSize;
  Some (p, m).

(** An object of a chunk that was not sealed is copied when it is updated first. *)
Definition updateKeyValue (m : mem) (d : DegradedMap) (keySize : Z) (keyStr : ptr) (valueUpdateSize valueUpdateOffset chunkUpdateOffset : Z)
    (valueUpdate chunk : ptr) (isSealed : bool) (keyValuePtr : option ptr) (metadataPtr : option Metadata) : option (bool * DegradedMap * mem) :=
  key ← Key_set m keySize keyStr false;
  if isSealed then
    m ← ChunkUtil.computeDelta m chunk valueUpdate valueUpdate chunkUpdateOffset valueUpdateSize true;
    Some (true, d, m)
  else
    let u := unsealed d in
    it ← find (us_values u) key;
    match it with
    | None =>
        match metadataPtr, keyValuePtr with
        | Some metadata, Some kv =>
            f ← KeyValue._deserialize m kv;
            '(kv, m) ← _dup m (KeyValue.f_key f) (KeyValue.f_keySize f) (KeyValue.f_value f) (KeyValue.f_valueSize f);
            key ← KeyValue.key capacity m kv false;
            '(ret, vs) ← insert (us_values u) key kv;
            let rev := if (ret : bool) then us_metadataRev u ++ [(metadata, key)] else us_metadataRev u in
            Some (ret, set_unsealed d (MkUnsealed vs rev (us_deleted u)), m)
        | _, _ => Some (false, d, m)
        end
    | Some (_, kv) =>
        m ← memcpy m (kv +ₚ KeyValue.getChunkUpdateOffset 0 keySize valueUpdateOffset false) valueUpdate valueUpdateSize;
        Some (true, d, m)
    end.

(** The result, [timestamp], [deltaSize] when it is set, the maps, the memory. *)
Definition deleteKey (m : mem) (d : DegradedMap) (t : ServerMap.Map) (opcode timestamp keySize : Z) (keyStr : ptr) (metadata : Metadata)
    (isSealed : bool) (delta : option ptr) (chunk : ptr) : option (bool * Z * option Z * DegradedMap * ServerMap.Map * mem) :=
  key ← Key_set m keySize keyStr false;
  if isSealed then
    '(ret, ts, km, d, t) ← DegradedMap.deleteKey d t key opcode timestamp;
    if (ret : bool) then
      km ← km;
      '(deltaSize, m) ← ChunkUtil.deleteObject capacity m chunk (ServerMap.km_offset km) delta;
      Some (true, ts, Some deltaSize, d, t, m)
    else Some (false, ts, None, d, t, m)
  else
    '(ret, ts, d, t, m) ← deleteValue m d t key metadata opcode timestamp;
    Some (ret, ts, None, d, t, m).

(** A delta of data chunk [chunkId] for the reconstructed parity chunk
    [updatingChunkId].  The array [dataChunks] of the caller is overwritten. *)
Definition update (m : mem) (d : DegradedMap) (listId stripeId chunkId updatingChunkId offset size : Z)
    (dataDelta dataChunk parityChunk : ptr) : option (bool * DegradedMap * mem) :=
  let metadata := Metadata.set listId stripeId updatingChunkId in
  m ← ChunkUtil.clear capacity m dataChunk;
  m ← ChunkUtil.copy m dataChunk offset dataDelta size;
  dataChunks ← zset (replicate (Z.to_nat dataChunkCount) zeros) chunkId dataChunk;
  m ← ChunkUtil.clear capacity m parityChunk;
  m ← encode m dataChunks parityChunk (u32 (updatingChunkId - dataChunkCount + 1))
        (u32 (offset + chunkId * capacity)) (u32 (offset + chunkId * capacity + size));
  '(chunk, d, m) ← (match cache d !! metadata with
                    | Some chunk => Some (chunk, d, m)
                    | None =>
                        '(chunk, m) ← TempChunkPool.alloc capacity junk m 0 0 0;
                        m ← ChunkUtil.set m chunk listId stripeId updatingChunkId;
                        Some (chunk, set_cache d (<[metadata := chunk]> (cache d)) (removed d), m)
                    end);
  let parity := ChunkUtil.getData chunk in
  m ← bitwiseXOR m parity parity (ChunkUtil.getData parityChunk) capacity;
  Some (true, d, m).
End buffer.

(** ** Deltas for a reconstructed parity chunk *)
Lemma chunk_set_spec m p n l s c :
  valid m p n → CHUNK_IDENTIFIER_SIZE ≤ n →
  ∃ m', ChunkUtil.set m p l s c = Some m' ∧ same_shape m m' ∧ ∀ q, ¬ in_range p CHUNK_IDENTIFIER_SIZE q → mget m' q = mget m q.
Proof.
  intros Hv Hn. unfold CHUNK_IDENTIFIER_SIZE in *. unfold ChunkUtil.set, ChunkUtil.setListId, ChunkUtil.setStripeId, ChunkUtil.setChunkId, store8.
  assert (Hst : ∀ m1 i xs, same_shape m m1 → 0 ≤ i → i + zlen xs ≤ 8 →
    ∃ m2, store m1 (p +ₚ i) xs = Some m2 ∧ same_shape m m2 ∧ ∀ q, ¬ in_range p 8 q → mget m2 q = mget m1 q).
  { intros m1 i xs Hs Hi Hl. destruct (store_spec m1 (p +ₚ i) xs) as (m2 & E & S & G).
    - eapply same_shape_valid; [exact Hs|]. eapply valid_sub; [exact Hv|unfold zlen in *; lia..].
    - exists m2. split; [done|]. split; [by etrans|]. intros q Hq. rewrite G, decide_False; [done|].
      unfold in_range in *. simpl. unfold zlen in *. lia. }
  destruct (Hst m 0 [z2b l]) as (m1 & E1 & S1 & G1); [done|by vm_compute|by vm_compute|]. rewrite padd_0 in E1. rewrite E1. cbn [mbind option_bind].
  destruct (Hst m1 1 (le_bytes 6 s)) as (m2 & -> & S2 & G2); [done|lia|unfold zlen; rewrite length_le_bytes; lia|]. cbn [mbind option_bind].
  destruct (Hst m2 7 [z2b c]) as (m3 & -> & S3 & G3); [done|lia|by vm_compute|].
  exists m3. split; [done|]. split; [done|]. intros q Hq. by rewrite G3, G2, G1.
Qed.

Section parity.
Import ParityProofs ChunkUtil.
Context {C : Coding} {EC : ErasureCode C} (zeros : ptr) (junk : nat → Z → byte).
Abbreviation cap := ec_chunkSize.

(** The receive buffer and the chunks of a worker, the parity chunk [l], [s], [j]. *)
Context (rb dc pc : ptr) (l s j : Z).
Definition metadata : Metadata := Metadata.set l s (ec_k + j - 1).

(** Deltas that arrive one after the other: data chunk, offset, bytes. *)
Definition delta_t : Type := Z * Z * list byte.
Definition delta_ok (x : delta_t) : Prop := 0 ≤ x.1.1 < ec_k ∧ 0 ≤ x.1.2 ∧ x.1.2 + zlen x.2 ≤ cap.
Fixpoint updates (m : mem) (d : DegradedMap) (xs : list delta_t) : option (DegradedMap * mem) :=
  match xs with
  | [] => Some (d, m)
  | (c, offset, bs) :: xs =>
      m ← store m rb bs;
      '(_, d, m) ← update cap ec_k zeros junk m d l s c (ec_k + j - 1) offset (zlen bs) rb dc pc;
      updates m d xs
  end.
Definition add_delta (D : data_t) (x : delta_t) : data_t := add_data D (put x.1.1 (bytes_at x.1.2 x.2)).

(** The memory of a worker. *)
Record worker_ok (m : mem) : Prop := {
  wo_sizes : chunk_sizes cap ∧ ec_k * cap < 2 ^ 32 ∧ ec_k + ec_m ≤ 256 ∧ 1 ≤ j ≤ ec_m;
  wo_zeros : chunk_is cap m zeros (λ _, x00);
  wo_rb : valid m rb cap;
  wo_dc : valid m dc (CHUNK_IDENTIFIER_SIZE + cap);
  wo_pc : valid m pc (CHUNK_IDENTIFIER_SIZE + cap);
  wo_apart : blk rb ≠ blk dc ∧ blk dc ≠ blk pc ∧ blk zeros ∉ [blk rb; blk dc; blk pc];
}.

(** The cached chunk is the parity of [D]; one that is not there counts as the
    parity of nothing. *)
Definition caches (m : mem) (d : DegradedMap) (D : data_t) : Prop :=
  match cache d !! metadata with
  | Some P => valid m P (CHUNK_IDENTIFIER_SIZE + cap) ∧ blk P ∉ [blk rb; blk dc; blk pc; blk zeros] ∧ chunk_is cap m P (ec_parity j D)
  | None => ∀ c i, D c i = x00
  end.

Lemma parity_of_zeros D i : 1 ≤ j ≤ ec_m → 0 ≤ i < cap → (∀ c i, D c i = x00) → ec_parity j D i = x00.
Proof.
  intros Hj Hi HD. assert (E : ec_parity j (λ c i, bxor (D c i) (D c i)) i = bxor (ec_parity j D i) (ec_parity j D i)) by by apply ec_linear.
  rewrite bxor_nilp in E. rewrite <- E. apply ec_ext. intros c i'. by rewrite HD.
Qed.

Lemma valid_alloc m p n : valid m p n → is_Some (m !! blk p).
Proof. intros (_ & bs & -> & _). by eexists. Qed.

Lemma zeros_alloc m : worker_ok m → is_Some (m !! blk zeros).
Proof.
  intros [_ Hz _ _ _ _]. pose proof ec_sizes as Hec. specialize (Hz 0 ltac:(lia)). unfold mget in Hz.
  destruct (m !! blk zeros) as [bs|] eqn:E; [by eexists|]. simpl in Hz. by rewrite E in Hz.
Qed.

(** The chunk that [update] changes, there or new. *)
Lemma cached_chunk m d D :
  worker_ok m → caches m d D →
  ∃ P d' m', (match cache d !! metadata with
     | Some chunk => Some (chunk, d, m)
     | None =>
         '(chunk, m) ← TempChunkPool.alloc cap junk m 0 0 0;
         m ← ChunkUtil.set m chunk l s (ec_k + j - 1);
         Some (chunk, set_cache d (<[metadata := chunk]> (cache d)) (removed d), m)
     end) = Some (P, d', m') ∧ cache d' = <[metadata := P]> (cache d) ∧
    valid m' P (CHUNK_IDENTIFIER_SIZE + cap) ∧ blk P ∉ [blk rb; blk dc; blk pc; blk zeros] ∧ chunk_is cap m' P (ec_parity j D) ∧
    (match cache d !! metadata with Some Q => Q = P | None => m !! blk P = None end) ∧ ∀ x, is_Some (m !! x) → m' !! x = m !! x.
Proof.
  intros Hw Hc. pose proof (zeros_alloc m Hw) as Hzv. destruct Hw as [(Hcs & _ & _ & Hj) Hz Hr Hd Hp _]. unfold caches in Hc. pose proof ec_sizes as Hec.
  destruct (cache d !! metadata) as [P|] eqn:E.
  { exists P, d, m. split; [done|]. split; [symmetry; by apply insert_id|]. by destruct Hc as (? & ? & ?). }
  destruct (temp_alloc_spec cap junk m 0 0 0) as (P & m1 & -> & Hoff & Hext & Hv & Hch & Hf); [lia|]. cbn [mbind option_bind].
  destruct (chunk_set_spec m1 P _ l s (ec_k + j - 1) Hv) as (m2 & -> & S2 & F2); [unfold CHUNK_IDENTIFIER_SIZE; lia|]. cbn [mbind option_bind].
  exists P, (set_cache d (<[metadata := P]> (cache d)) (removed d)), m2. split; [done|]. split; [done|].
  pose proof Hext as (Hnew & _ & Hsh).
  assert (Hne : ∀ x, is_Some (m !! x) → x ≠ blk P) by (intros x [bs Hx] ->; congruence).
  split; [by eapply same_shape_valid|]. split.
  { rewrite !not_elem_of_cons. split_and!; try (apply not_eq_sym, Hne; by eapply valid_alloc); [|set_solver].
    by apply not_eq_sym, Hne. }
  split; [|split].
  - intros i Hi. rewrite F2 by (unfold in_range, getData, CHUNK_IDENTIFIER_SIZE; simpl; lia). rewrite Hch by done.
    f_equal. symmetry. by apply parity_of_zeros.
  - done.
  - intros x Hx. assert (Hxp := Hne x Hx). transitivity (m1 !! x).
    + apply block_frame; [done|]. intros q <-. apply F2. intros [Hq _]. congruence.
    + destruct (m !! x) as [bs|] eqn:Ex; [|by destruct Hx]. specialize (Hsh x Hxp). rewrite Ex in Hsh.
      destruct (m1 !! x) as [bs1|] eqn:Ex1; [|done]. simpl in Hsh. injection Hsh as Hsh. f_equal. apply list_eq. intros i.
      specialize (Hf (Ptr x (Z.of_nat i))). unfold mget in Hf. simpl in Hf. rewrite Ex, Ex1 in Hf. simpl in Hf.
      unfold zget in Hf. rewrite !decide_True in Hf by lia. rewrite Nat2Z.id in Hf. by apply Hf.
Qed.

Lemma worker_keep m m' d D :
  worker_ok m → same_shape m m' → (∀ x, x ∉ [blk rb; blk dc; blk pc] → m' !! x = m !! x) → caches m d D → worker_ok m' ∧ caches m' d D.
Proof.
  intros [Hs Hz Hr Hd Hp Ha] Hsh Hb Hc. split.
  - constructor; try done; try by eapply same_shape_valid. eapply region_block; [apply Hb, Ha|done].
  - unfold caches in *. destruct (cache d !! metadata) as [P|]; [|done]. destruct Hc as (Hv & Hn & Hc).
    split; [by eapply same_shape_valid|]. split; [done|]. eapply region_block; [apply Hb; set_solver|done].
Qed.

(** The delta of a data chunk, prepared in [dc]. *)
Lemma prepare_delta m offset bs :
  valid m dc (CHUNK_IDENTIFIER_SIZE + cap) → load m rb (zlen bs) = Some bs → blk rb ≠ blk dc → 0 ≤ cap → 0 ≤ offset → offset + zlen bs ≤ cap →
  ∃ m1 m2, ChunkUtil.clear cap m dc = Some m1 ∧ ChunkUtil.copy m1 dc offset rb (zlen bs) = Some m2 ∧ same_shape m m2 ∧
    (∀ x, x ≠ blk dc → m2 !! x = m !! x) ∧ chunk_is cap m2 dc (bytes_at offset bs).
Proof.
  intros Hv Hl Hne Hcap Ho Hfit. assert (Hz : 0 ≤ zlen bs) by (unfold zlen; lia).
  destruct (chunk_clear_spec cap m dc Hcap Hv) as (m1 & E1 & S1 & Z1 & F1).
  assert (B1 : ∀ x, x ≠ blk dc → m1 !! x = m !! x).
  { intros x Hx. apply block_frame; [done|]. intros q <-. apply F1. intros [Hq _]. congruence. }
  assert (Hl1 : load m1 rb (zlen bs) = Some bs) by (rewrite <- Hl; apply load_block; by apply B1).
  assert (Hv2 : valid m1 (ChunkUtil.getData dc +ₚ offset) (zlen bs)).
  { eapply same_shape_valid; [exact S1|]. unfold ChunkUtil.getData. rewrite padd_padd. eapply valid_sub; [exact Hv|unfold CHUNK_IDENTIFIER_SIZE; lia..]. }
  destruct (store_spec m1 _ bs Hv2) as (m2 & E2 & S2 & G2). exists m1, m2. split; [done|]. split.
  { unfold ChunkUtil.copy. rewrite (memcpy_apart _ _ _ _ _ Hl1); [done|]. left. simpl. congruence. }
  split; [by etrans|]. split.
  - intros x Hx. rewrite <- B1 by done. apply block_frame; [done|]. intros q <-. rewrite G2, decide_False; [done|].
    intros [Hq _]. simpl in Hq. congruence.
  - eapply region_is_ext; [|exact (store_paint junk _ _ _ _ _ _ Z1 E2)]. intros i _. apply paint_zero.
Qed.

Lemma update_step m d D x :
  worker_ok m → caches m d D → delta_ok x → load m rb (zlen x.2) = Some x.2 →
  ∃ d' m', update cap ec_k zeros junk m d l s x.1.1 (ec_k + j - 1) x.1.2 (zlen x.2) rb dc pc = Some (true, d', m') ∧
    worker_ok m' ∧ caches m' d' (add_delta D x) ∧ ∃ P, cache d' = <[metadata := P]> (cache d) ∧
    (match cache d !! metadata with Some Q => Q = P | None => m !! blk P = None end) ∧ (∀ y, is_Some (m !! y) → y ∉ [blk dc; blk pc; blk P] → m' !! y = m !! y) ∧ (∀ y, is_Some (m !! y) → is_Some (m' !! y)).
Proof.
  destruct x as [[c offset] bs]. cbn [fst snd]. intros Hw Hc (Hck & Ho & Hfit) Hl. cbn [fst snd] in *.
  pose proof Hw as [(Hcs & Hk32 & H256 & Hj) Hz Hr Hvd Hvp (Hrd & Hdp & Hzn)]. pose proof ec_sizes as Hec.
  assert (Hzl : 0 ≤ zlen bs) by (unfold zlen; lia). assert (Hcc : 0 ≤ c * cap) by nia. assert (c * cap + cap ≤ ec_k * cap) by nia.
  destruct (prepare_delta m offset bs) as (m1 & m2 & E1 & E2 & S2 & B2 & D2); [done..|lia|done|done|].
  assert (Hkeep2 : worker_ok m2 ∧ caches m2 d D) by (apply (worker_keep m); [done|done| |done]; intros y Hy; apply B2; set_solver).
  destruct Hkeep2 as [Hw2 Hc2]. pose proof Hw2 as [_ Hz2 _ _ Hvp2 _].
  destruct (prepare_chunk zeros junk m2 c offset (zlen bs) dc pc (bytes_at offset bs) j) as (dcs & m3 & m4 & E3 & E4 & E5 & S4 & B4 & P4);
    [done|set_solver|done|done|done|done|done|done|done|right; lia|intros i _ Hi; by apply bytes_at_out|].
  destruct (worker_keep m2 m4 d D Hw2 S4) as [Hw4 Hc4]; [intros y Hy; apply B4; set_solver|done|].
  destruct (cached_chunk m4 d D Hw4 Hc4) as (P & d' & m5 & E6 & Ed & HvP & HnP & HcP & HPd & B5).
  assert (Hpc5 : chunk_is cap m5 pc (ec_parity j (put c (bytes_at offset bs)))).
  { eapply region_block; [apply B5; exact (valid_alloc _ _ _ (wo_pc _ Hw4))|done]. }
  destruct (accum_xor m5 (ChunkUtil.getData P) cap (λ _, x00) m5 0 cap (ChunkUtil.getData pc)) as [(m6 & E7 & Ha) _];
    [apply accum_refl; [done|]|..]; try (eapply valid_sub; [exact HvP|unfold CHUNK_IDENTIFIER_SIZE; lia..]); [lia..| |left; set_solver|].
  { eapply region_is_valid; [exact Hpc5|lia]. }
  rewrite padd_0 in E7. pose proof Ha as [S6 _].
  assert (B6 : ∀ y, y ≠ blk P → m6 !! y = m5 !! y).
  { intros y Hy. apply block_frame; [done|]. intros q <-. eapply accum_frame; [exact Ha|]. by intros [Hq _]. }
  assert (Hall : ∀ y, is_Some (m !! y) → y ∉ [blk dc; blk pc; blk P] → m6 !! y = m !! y).
  { intros y Hy Hn. assert (E24 : m4 !! y = m !! y) by (rewrite B4, B2; [done|set_solver..]).
    rewrite B6 by set_solver. rewrite B5; [done|]. by rewrite E24. }
  assert (Hdom : ∀ y, is_Some (m !! y) → is_Some (m6 !! y)).
  { intros y Hy. specialize (S2 y). specialize (S4 y). specialize (S6 y). specialize (B5 y).
    destruct (m !! y), (m2 !! y), (m4 !! y), (m5 !! y), (m6 !! y); try done; try by (destruct Hy).
    all: try (specialize (B5 ltac:(by eexists)); done). }
  exists d', m6. split.
  { unfold update. rewrite E1. cbn [mbind option_bind]. rewrite E2. cbn [mbind option_bind]. rewrite E3. cbn [mbind option_bind]. rewrite E4. cbn [mbind option_bind].
    replace (u32 (ec_k + j - 1 - ec_k + 1)) with j by (rewrite u32_small; lia). rewrite !u32_small by lia. rewrite E5. cbn [mbind option_bind].
    fold metadata. rewrite E6. cbn [mbind option_bind]. rewrite E7. done. }
  assert (Hv6 : ∀ p n, valid m4 p n → valid m6 p n).
  { intros p n (? & xs & Hxs & Hlen). eapply same_shape_valid; [exact S6|]. split; [done|]. exists xs. split; [|done].
    by rewrite B5 by by eexists. }
  split; [|split].
  - destruct Hw4 as [W1 W2 W3 W4 W5 W6]. constructor; try done; try by apply Hv6.
    eapply region_block; [|exact Hz]. apply Hall; [by apply zeros_alloc|set_solver].
  - unfold caches. rewrite Ed, lookup_insert_eq. split; [by eapply same_shape_valid|]. split; [done|].
    eapply region_is_ext; [|exact (accum_region _ _ _ _ _ _ Ha HcP)]. intros t Ht. cbv beta. unfold add_part. rewrite decide_True by lia.
    rewrite (left_id x00 bxor). unfold add_delta, add_data. cbn [fst snd]. rewrite (ec_linear j D (put c (bytes_at offset bs))) by done. f_equal.
    rewrite Z.sub_0_r. apply (region_is_mbyte _ _ _ _ _ Hpc5). lia.
  - exists P. split; [done|]. split; [|done]. destruct (cache d !! metadata); [done|].
    specialize (S2 (blk P)). specialize (S4 (blk P)). rewrite HPd in S4.
    destruct (m2 !! blk P) as [b2|]; [discriminate S4|]. destruct (m !! blk P) as [b0|]; [discriminate S2|done].
Qed.

Lemma store_block m p xs m' : store m p xs = Some m' → same_shape m m' ∧ ∀ x, x ≠ blk p → m' !! x = m !! x.
Proof.
  intros Hst. destruct (store_spec m p xs) as (m2 & E & S & G); [by eapply store_valid|]. rewrite E in Hst. injection Hst as ->.
  split; [done|]. intros x Hx. apply block_frame; [done|]. intros q <-. rewrite G, decide_False; [done|]. intros [Hq _]. congruence.
Qed.

(** The other chunks of the cache, and the blocks of others, stay. *)
Definition only_parity (m : mem) (d : DegradedMap) (m' : mem) (d' : DegradedMap) : Prop :=
  (∀ md, md ≠ metadata → cache d' !! md = cache d !! md) ∧
  (∀ P, cache d !! metadata = Some P → cache d' !! metadata = Some P) ∧
  ∀ y, is_Some (m !! y) → y ∉ [blk rb; blk dc; blk pc] → (∀ P, cache d !! metadata = Some P → y ≠ blk P) → m' !! y = m !! y.

Lemma updates_spec xs : ∀ m d D, worker_ok m → caches m d D → Forall delta_ok xs →
  ∃ d' m', updates m d xs = Some (d', m') ∧ caches m' d' (foldl add_delta D xs) ∧ (xs = [] ∨ is_Some (cache d' !! metadata)) ∧
    only_parity m d m' d'.
Proof.
  induction xs as [|x xs IH]; intros m d D Hw Hc Hok.
  { exists d, m. split; [done|]. split; [done|]. split; [by left|]. done. }
  apply Forall_cons in Hok as [Hx Hok]. destruct x as [[c offset] bs]. cbn [updates].
  assert (Hvr : valid m rb (zlen bs)).
  { eapply valid_prefix; [apply Hw|]. destruct Hx as (_ & ? & ?). cbn [fst snd] in *. unfold zlen in *. lia. }
  destruct (store_spec m rb bs Hvr) as (m1 & E1 & _). rewrite E1. cbn [mbind option_bind]. destruct (store_block _ _ _ _ E1) as [S1 B1].
  destruct (worker_keep m m1 d D Hw S1) as [Hw1 Hc1]; [intros y Hy; apply B1; set_solver|done|].
  destruct (update_step m1 d D (c, offset, bs) Hw1 Hc1 Hx) as (d2 & m2 & E2 & Hw2 & Hc2 & P & Ed & HP & Hf & Hdom); [by eapply load_store_eq|].
  cbn [fst snd] in E2. rewrite E2. cbn [mbind option_bind]. destruct (IH m2 d2 _ Hw2 Hc2 Hok) as (d' & m' & -> & Hc' & _ & Ho & Hk & Hf').
  assert (Hin : cache d' !! metadata = Some P) by (apply Hk; by rewrite Ed, lookup_insert_eq).
  exists d', m'. split; [done|]. split; [done|]. split; [right; by eexists|]. split; [|split].
  - intros md Hmd. rewrite Ho, Ed by done. by rewrite lookup_insert_ne.
  - intros Q HQ. rewrite HQ in HP. by subst.
  - intros y Hy Hn HnP. assert (E12 : m1 !! y = m !! y) by (apply B1; set_solver).
    assert (HyP : y ≠ blk P).
    { destruct (cache d !! metadata) as [Q|]; [subst Q; by apply HnP|]. intros ->. destruct Hy as [b Hy]. congruence. }
    rewrite Hf'; [by rewrite Hf; [|rewrite E12|set_solver]|apply Hdom; by rewrite E12|done|].
    intros Q. rewrite Ed, lookup_insert_eq. by intros [= <-].
Qed.
End parity.

(** ** Properties *)

(** C13: Deltas of the data chunks of a stripe that arrive one after the other at the
    server that stands in for a parity server leave the parity of the changed data
    in its cache, with any code that keeps the contract [ErasureCode]; a parity
    chunk that was not there is created from the deltas alone.  Nothing else is
    changed but the worker's buffers. *)
Theorem degraded_parity_updated {C : Coding} {EC : ErasureCode C} zeros junk rb dc pc l s j m d D xs :
  worker_ok zeros rb dc pc j m → caches zeros rb dc pc l s j m d D → Forall delta_ok xs →
  ∃ d' m', updates zeros junk rb dc pc l s j m d xs = Some (d', m') ∧
    caches zeros rb dc pc l s j m' d' (foldl add_delta D xs) ∧ (xs = [] ∨ is_Some (cache d' !! metadata l s j)) ∧
    only_parity rb dc pc l s j m d m' d'.
Proof. intros Hw Hc Hok. by apply updates_spec. Qed.

(** ** Witness: RAID-5 with two data chunks of 16 bytes; the parity chunk is not
    there when two deltas arrive *)
#[local] Instance ex_code : ErasureCode (RAID5Coding.raid5 3 16) := RAID5Coding.raid5_code 3 16 ltac:(lia) ltac:(lia).
Definition ex_m : mem := <[1%nat := replicate 24 x00]> (<[3%nat := replicate 24 x00]> (<[4%nat := replicate 24 x00]> (<[5%nat := replicate 32 x00]> ∅))).
Definition ex_deltas : list delta_t := [(0, 5, [z2b 255; z2b 1]); (1, 6, [z2b 3])].

Lemma ex_worker : worker_ok (C := RAID5Coding.raid5 3 16) (Ptr 1 0) (Ptr 5 0) (Ptr 3 0) (Ptr 4 0) 1 ex_m.
Proof.
  assert (Hb : ∀ (x n : nat) k, ex_m !! x = Some (replicate n x00) → 0 ≤ k ≤ Z.of_nat n → valid ex_m (Ptr x 0) k).
  { intros x n k E Hk. split; [lia|]. exists (replicate n x00). split; [done|]. unfold zlen. rewrite length_replicate. simpl. lia. }
  constructor.
  - split_and!; simpl; try lia. split; vm_compute; done.
  - intros i Hi. simpl in Hi. unfold mget. change (ex_m !! blk _) with (Some (replicate 24 x00)). cbn [mbind option_bind]. unfold zget.
    change (off (getData (Ptr 1 0) +ₚ i)) with (8 + i). rewrite decide_True by lia. apply lookup_replicate. split; [done|lia].
  - apply (Hb 5%nat 32%nat); [done|simpl; lia].
  - apply (Hb 3%nat 24%nat); [done|vm_compute; split; congruence].
  - apply (Hb 4%nat 24%nat); [done|vm_compute; split; congruence].
  - simpl. split; [done|]. split; [done|]. set_solver.
Qed.

Lemma ex_caches : caches (C := RAID5Coding.raid5 3 16) (Ptr 1 0) (Ptr 5 0) (Ptr 3 0) (Ptr 4 0) 0 7 1 ex_m DegradedMap_new (λ _ _, x00).
Proof. unfold caches. cbn [cache DegradedMap_new]. by rewrite lookup_empty. Qed.
Lemma ex_deltas_ok : Forall (delta_ok (C := RAID5Coding.raid5 3 16)) ex_deltas.
Proof. apply Forall_forall. intros x Hx. unfold ex_deltas in Hx. rewrite !elem_of_cons, elem_of_nil in Hx. destruct Hx as [->|[->|[]]]; split_and!; simpl; try lia; vm_compute; congruence. Qed.

Lemma degraded_parity_updated_witness :
  ∃ d' m', updates (C := RAID5Coding.raid5 3 16) (Ptr 1 0) (λ _ _, x00) (Ptr 5 0) (Ptr 3 0) (Ptr 4 0) 0 7 1 ex_m DegradedMap_new ex_deltas = Some (d', m') ∧
    is_Some (cache d' !! metadata (C := RAID5Coding.raid5 3 16) 0 7 1).
Proof.
  destruct (degraded_parity_updated (C := RAID5Coding.raid5 3 16) (Ptr 1 0) (λ _ _, x00) (Ptr 5 0) (Ptr 3 0) (Ptr 4 0) 0 7 1 ex_m DegradedMap_new (λ _ _, x00) ex_deltas
    ex_worker ex_caches ex_deltas_ok) as (d' & m' & E & _ & Hin & _).
  exists d', m'. split; [exact E|]. destruct Hin as [Hnil|Hin]; [discriminate Hnil|exact Hin].
Defined.
End DegradedChunkBuffer.
